(* ===== verification/_CoqProject ===== *)
-Q . S2P
Prelude.v
Text.v
Ordered.v
Catalog.v
DirPolicy.v
FetchUrl.v
Address.v
NetPolicy.v
Whitespace.v
Authority.v
AuthorityOps.v
Footprint.v
ProcessEnv.v
Grants.v
Menu.v
CapRights.v
Types.v
Substitution.v
Unify.v
Inference.v
Launch.v
LaunchDecode.v
Wire.v
WorkerRequest.v
WorkerResponse.v
SyntheticNames.v
Lexer.v
LexerTotal.v
Spelling.v
Layout.v
FetchProvider.v
GrantBinding.v
Patterns.v
Coverage.v
Exhaustive.v
Irrefutable.v
SafeWir.v
Dominance.v
SsaPaths.v
CheckFlow.v
ScalarMachine.v
ScalarLocals.v
SlotAllocation.v
ForwardCfg.v
ForwardEmit.v
GuardAnalysis.v
GuardFlow.v
GuardSound.v
GuardRewrite.v
Execution.v
AsyncProgram.v
Kernel.v
Queue.v
QueueRuntime.v
Scheduler.v
