(* ===== verification/Prelude.v ===== *)
(** * Witchy: a verification library for the core of the witchy toolchain

    Witchy is a capability-secure language.  A program states in the types of
    its entry points which host capabilities it needs; the toolchain computes
    that footprint, grants exactly it to a run, compares it between versions,
    compiles in a separate worker process over a byte protocol, and runs
    asynchronous code as typed executions under a deterministic scheduler.
    Its type checker infers types by unification and bounds every capability
    by the rights written in its type, and its compiler emits WebAssembly from
    a checked intermediate representation.
    This library models the Rust code that makes these promises, under
    [crates/], and proves what it promises.

    ** The parts, their files and how they interact

    - This file: the effects the models share.  Fallible code is [result] or
      [outcome] (with panics as values), a [&mut self] method is a
      computation of the state monad [M] that keeps its state also when it
      returns an error, and [triple] is its specification.
    - [Text], [Whitespace], [Ordered]: the string operations of the standard
      library in use, and the iteration order of its ordered maps and sets.
    - [Catalog], [DirPolicy], [FetchUrl]: [witchy-cap-model/src/lib.rs], the
      capability vocabulary ([CapabilityKind], [CapabilityRight]), directory
      policies ([dir_only], [dir_admits]) and Fetch origins, URLs and headers.
    - [Address], [NetPolicy]: the network policies of
      [witchy-caps/src/capabilities.rs] ([address_admits], [net_allows],
      [net_only], [resolve_admitted]) over the standard library's grammar and
      printing of IP and socket addresses, which [Address] models.
    - [Authority], [AuthorityOps]: [witchy-cap-model/src/authority.rs], the
      stable identifiers, the bitset of rights, scopes, the contract of every
      capability kind and the catalogue of authority operations.
    - [Footprint], [Launch]: [witchy-caps/src/capabilities.rs] and
      [witchy-cap-model/src/heap.rs], the footprint analyzer over the
      declarations of [witchy-syntax/src/ast.rs], the run grant, the widening
      gate, and the launch contract built from the grant.  [LaunchDecode]:
      the decoder of that contract in [src/artifact.rs].
    - [ProcessEnv]: [witchy-cap-model/src/process_env.rs], the gateway to the
      process environment, with the environment as explicit state.
    - [Grants], [Menu]: [witchy-caps/src/grants.rs] and [menu.rs], grant
      documents (validation, what they confer, the cross-check with a
      footprint, secrets) and host menus (portability report, launch plan),
      from the decoded document on.
    - [GrantBinding]: the launch from a grant document,
      [src/commands/sandbox.rs] ([bind_grant_document], [run_file_grants])
      and the part of [src/commands/execution.rs] ([run_compiled]) that turns
      grants into the capabilities of the machine.
    - [FetchProvider]: [witchy-runtime/src/fetch.rs], the host side of
      [Fetch]: policies, the bytes of a request, the reading and parsing of a
      response, over a name resolver and a connection that are parameters.
    - [CapRights], [Types], [Substitution], [Unify], [Inference]: the core of
      the type checker, [witchy-types/src/typeck.rs] and its modules
      [cap_rights.rs], [ty.rs] and [checker.rs]: the rights of a capability
      type, the type representation and its lifetime markers, the
      substitution with its cache, unification, and the operations built on
      it (annotations, instantiation, narrowing, joins of branches).
      [Substitution] holds the reference semantics, no code.
    - [SyntheticNames]: [witchy-syntax/src/synthetic_names.rs], the names of
      anonymous unions.
    - [Lexer], [LexerTotal], [Spelling], [Layout]:
      [witchy-syntax/src/lexer.rs], the lexer with its positions, comments,
      literals and interpolation, and the off-side layout; [LexerTotal] has
      its termination and bounds, [Spelling] the spelling of tokens with the
      literals that [format.rs] prints.
    - [Patterns], [Coverage], [Exhaustive], [Irrefutable]: [match].  The
      patterns of [ast.rs] and the interpreter's [match_pattern]
      ([witchy-interp/src/interpreter/value_ops.rs]); the checks of
      [typeck/coverage.rs] and [typeck.rs] that decide whether the arms are
      exhaustive, reachable and irrefutable; and the theorems that compare
      the two.
    - [SafeWir], [Dominance], [SsaPaths], [CheckFlow]:
      [witchy-wir/src/canonical_safewir.rs] and [canonical_safewir/check.rs]
      with [check/dominance.rs]: the functions of the intermediate
      representation as control-flow graphs in single assignment form, their
      dominators, and the dataflow of [check_function] that visits the blocks
      and checks the uses of those it visits, over the interface
      [MemoryChecker].  [SsaPaths] has the paths of a function and
      [strict_flow], the stronger condition that the uses of all blocks are
      checked, on which the theorems about runs rest; it holds of a function
      whose blocks are all visited.
    - [ForwardCfg], [ForwardEmit]: the encoder's path for acyclic functions.
      [canonical_wasmir/forward_cfg.rs] schedules a control-flow graph, and
      [structured_forward.rs] with parts of [structured.rs] emits nested
      blocks for the schedule; the instructions are given a semantics and
      compared with the machine of the graph.
    - [ScalarLocals], [SlotAllocation]: [canonical_wasmir/scalar_locals.rs],
      the locals that scalar temporaries share and the check of their
      allocation, with the local every value gets in [local_layout]
      ([canonical_wasmir/emit.rs]); the machine is run on those locals.
      [SlotAllocation] has the theorem about the allocator.
    - [ScalarMachine], [GuardAnalysis], [GuardFlow], [GuardSound],
      [GuardRewrite]: the optimizer of bounds guards.  The machine a function
      stands for, as [canonical_wasmir/emit.rs] encodes its scalar
      operations; the dataflow analysis of [canonical_safewir/analysis.rs];
      its termination; its soundness; and the rewrites and the relation that
      accepts them, of [canonical_safewir/optimize.rs].
    - [Wire], [WorkerRequest], [WorkerResponse]: [witchy-worker-protocol/src],
      the framed request and response of the compiler worker.
    - [Execution]: [witchy-types/src/typed_execution.rs], the shape of a
      resumable task and its validation.
    - [AsyncProgram]: [witchy-types/src/async_program.rs], the program format
      executions are stored in, its validation, canonical bytes and
      fingerprint, and the conversions to and from execution shapes.
    - [Kernel]: [witchy-interp/src/typed_async.rs], one execution of a
      validated shape and its wait record.
    - [Queue], [QueueRuntime]: [witchy-interp/src/typed_queue.rs], a channel
      with its waiters, and the runtime in which executions meet on queues
      and host operations.
    - [Scheduler]: [witchy-interp/src/typed_scheduler.rs] and
      [typed_host.rs], rounds, admissions and traces over that runtime.

    The catalog is used by the authority tables and the analyzer; the
    analyzer by the launch contract, and compared with the checker's reading
    of the same annotations; the run grant is what a grant document is
    checked against and bound to, its secrets are taken from the process
    environment, and a bound [Fetch] is a policy of the fetch provider, which
    dials through the network policies; the wire layer by the request and the
    request by the response.  The coverage checks read types through the
    unifier's [resolve] and are judged against the interpreter's match.  The
    guard analysis rests on the control-flow checks: that a fact of a loop is
    never stale follows from dominance.  Guard removal and emission are stated
    on one machine, that of [ScalarMachine], so that they compose.
    [Execution] promises [shape_ok] and a solution of the must-lane analysis, on which [Kernel] rests; [Kernel] and [Queue]
    each promise that their methods keep an invariant and never panic
    (the classes [KernelMethod] and [QueueMethod]), which is all [QueueRuntime] uses of them
    for its own safety, as [Scheduler] uses that of the runtime.

    ** What the theorems show

    - Authority: the taint fixpoint ends and is exact, a footprint is exactly
      what the entry points carry, a run is granted exactly what [main]
      carries, the widening gate is silent exactly when nothing widened, and
      no path through the operation catalogue gains a right.  Narrowing a
      directory policy never admits more.  Identifiers, right sets and scopes
      decode fail-closed and are ordered by narrowing.
    - Bytes: the decoders of requests, responses, frames, limits and launch
      contracts accept exactly what the encoders write, within the limits.
    - Launch: a validated document is found sufficient exactly when it confers
      the footprint; binding gives each parameter of [main] its own entry
      ([Fetch] apart, which has one list of origins); secret
      variables are gone from the environment before the program runs,
      whether resolution succeeds or fails; a menu plan grants exactly the
      footprint.
    - Network: narrowing an allowlist never admits more, the textual check of
      a resolved address is the arithmetic one (for an address with a scope,
      that only the wildcard and its own text cover it), and only admitted addresses
      reach the dialler, also through a [Fetch] derived from a [Net].  A
      request is framed as meant, chunked bodies are decoded exactly, and a
      response is bounded.
    - Types: memoised resolution is the substitution, unification ends, is
      sound and most general and rejects only what no assignment makes equal,
      generic signatures are instantiated independently, [as] never gains a
      right, and checker and analyzer agree on the rights of an annotation.
    - Matches: where constructors have at most one argument and or-patterns
      are not nested directly, the exhaustiveness check ends and is exact: it
      accepts when every value of the type is taken by an unguarded arm of
      the interpreter and otherwise there is a value none takes; arms reported
      unreachable are dead; patterns of [let] and [for] always match.  The
      names of anonymous unions decode to what they encode.
    - Intermediate code: the dominator rows are exact; the check of a function
      ends, and an accepted function defines every value before using it on
      every path that no constant condition rules out; the guard
      analysis ends, what it calls implied holds in every run, and a rewrite
      that its relation accepts changes no outcome of the function.  A
      schedule exists exactly for graphs that are reached and acyclic, and
      the code emitted along it, executed as WebAssembly, ends exactly where
      the function's graph does.  The check of shared locals is exact, the
      allocator always passes it, and a function on shared locals ends where
      it does on one local per value.
    - Source text: the lexer answers every source and counts positions within
      their width; printed tokens and interpolated strings lex back to
      themselves; layout drops nothing but header colons and keeps brackets
      nested.
    - Text: a parsed URL is in normal form, headers cannot inject lines.
    - Executions: validation ends and accepts only declared references; no
      sequence of calls panics; only the owner of a wait moves an execution;
      must-consume lanes are discharged on the runs the analysis covers
      (no operation result in such a lane, no abort).
    - Queues: first-in first-out, nothing lost or duplicated, no missed
      match, exact cancel and close.  Rounds that complete are fair, and numbered.
    - Programs: lowering executions to the program format loses nothing, and
      a fingerprint determines the program unless the hash collides.
    - Behaviours that differ from the code's comments or intent are stated as
      theorems too: [dir_only_drops_invalid_rows], [must_analysis_gaps],
      [send_to_select_loses_payload], [failed_install_replaces],
      [scoped_address_escapes_deny], [net_only_trailing_dot_widens],
      [lifetime_names_leak], the empty brackets of
      [validated_markers_rights], [secret_name_panics_after_validation],
      [empty_fetch_entry_widened], the wrapped literals of
      [integer_literal_value], the implied right of
      [annotation_rights_match_footprint] and, on declared types, the two
      directions of [declared_check_gaps].

    ** Bounds and fuel

    Machine integers are [N] at the width of the source with checked or
    wrapping arithmetic written out; [usize] has 64 bits and [as u32]
    truncates.  Where the recursion is not structural, the code runs on fuel.
    [taint_loop] has one round per authority atom that can be added,
    [taint_fuel]; [must_loop] one visit per growth of a mask, [must_fuel];
    [resolve] one step per binding of the substitution; [occurs] and
    [subst_vars] the size of the resolved type.  These bounds are proved
    sufficient, so the functions are total.  [unify] takes its fuel as an
    argument: running out of it is [Panic], and [unify_terminates] shows that
    some fuel is enough and any more gives the same result.  So does
    [rows_exhaustive], whose measure is the number of constructors in the
    or-free expansions of its rows; [patterns_cover] runs on the size of its
    patterns, proved enough.  [show_N] has one digit per bit.
    The loops of [dominators], [implied_guards] and [reachable_blocks] take
    fuel too; [dominators_exact] and [implied_guards_terminates] show that
    some amount is enough, by the bits left in the rows and by the facts
    left at the entries.  [check_function] of [CheckFlow] passes its fuel on
    to [dominators] and to the postorder; its dataflow has the code's own
    bound.  [decode_chunked] and [split_lines] run on the
    length of their input, each turn of theirs consuming some of it.  So do
    the loops of the lexer, proved enough by [tokenize_total].  [schedule],
    [region] and [doomed] have fuel from the number of edges and blocks, also
    proved enough.

    ** What is not modelled

    Of the surface language, the parser, the evaluation of expressions, and
    the checker's rules for expressions, declarations, ownership and loans; that patterns are well typed is a hypothesis of the
    theorems on matches, since [check_pattern] is among those rules.  Of the
    intermediate code, lowering to it, the memory and ownership judgments of
    its checker and the rest of the encoder (loops, scratch locals, the
    instructions of an operation): on the machine of
    [ScalarMachine] memory, arithmetic, calls and the host are the parameter
    [perform], of which the theorems assume that a raw-byte element reads at
    most 255 ([reads_bytes]) and, for shared locals, that an operation reads
    only its operands ([operands_only]).  An inline aggregate, which has no
    local, is kept under its own name there.  In
    [check_function] the memory checker and its state are an interface.  Of a
    launch, TOML decoding, the prompt, the
    resolution of child paths and the virtual machine.  Confinement and every
    part that is operating-system input and output.  The SHA-256 and BLAKE3
    functions, the name resolver and the connection of a fetch are variables.

    ** Plan

    Next: the encoder of loops, the binding plan and descriptor of trusted
    publishers ([src/trusted_publisher.rs]), and more of the checker
    ([check_pattern], coercion of arguments, structural records). *)

From Stdlib Require Export Strings.Byte Ascii.
From stdpp Require Export base list gmap strings sorting numbers.

(** ** Fallible code: Rust's [Result] *)

Inductive result (E A : Type) : Type :=
  | Ok (a : A)
  | Err (e : E).
Arguments Ok {E A} a.
Arguments Err {E A} e.

#[export] Instance result_ret {E} : MRet (result E) := λ _ a, Ok a.
#[export] Instance result_bind {E} : MBind (result E) := λ _ _ f m,
  match m with Ok a => f a | Err e => Err e end.
#[export] Instance result_fmap {E} : FMap (result E) := λ _ _ f m,
  match m with Ok a => Ok (f a) | Err e => Err e end.

#[export] Instance result_eq_dec {E A} `{EqDecision E, EqDecision A} :
  EqDecision (result E A).
Proof. solve_decision. Defined.

(** [if cond { return Err(e) }] *)
Definition fail_if {E} (b : bool) (e : E) : result E unit :=
  if b then Err e else Ok tt.

(** [opt.ok_or(e)?] *)
Definition ok_or {E A} (o : option A) (e : E) : result E A :=
  match o with Some a => Ok a | None => Err e end.

Definition is_ok {E A} (r : result E A) : bool :=
  match r with Ok _ => true | Err _ => false end.

(** Inverting a chain of [?]. *)
Lemma result_bind_Ok {E A B} (r : result E A) (f : A → result E B) b :
  (r ≫= f) = Ok b ↔ ∃ a, r = Ok a ∧ f a = Ok b.
Proof. unfold mbind, result_bind. destruct r; naive_solver. Qed.

Lemma result_bind_step {E A B} (r : result E A) (f : A → result E B) a :
  r = Ok a → (r ≫= f) = f a.
Proof. by intros ->. Qed.

Lemma fail_if_Ok {E B} (b : bool) (e : E) (k : result E B) x :
  (fail_if b e;; k) = Ok x ↔ b = false ∧ k = Ok x.
Proof. unfold fail_if, mbind, result_bind. destruct b; naive_solver. Qed.

Lemma fail_if_false {E B} (b : bool) (e : E) (k : result E B) :
  b = false → (fail_if b e;; k) = k.
Proof. by intros ->. Qed.

(** ** Mutating code: [&mut self] methods that may return [Err] or panic

    A method leaves the receiver in whatever state it reached, also when it
    returns [Err]: the state is part of the result in every case. *)

Inductive outcome (A : Type) : Type :=
  | Done (a : A)
  | Fail (e : string)
  | Panic.
Arguments Done {A} a.
Arguments Fail {A} e.
Arguments Panic {A}.

#[export] Instance outcome_ret : MRet outcome := λ _ a, Done a.
#[export] Instance outcome_bind : MBind outcome := λ _ _ f m,
  match m with Done a => f a | Fail e => Fail e | Panic => Panic end.

(** [if cond { return Err(e) }] in a function that may panic *)
Definition fail_when (b : bool) (e : string) : outcome unit :=
  if b then Fail e else Done tt.

(** [v[i]]: panics out of range. *)
Definition index {A} (l : list A) (i : N) : outcome A :=
  match l !! N.to_nat i with Some a => Done a | None => Panic end.

(** [v[i] = a]: panics out of range. *)
Definition assign {A} (l : list A) (i : N) (a : A) : outcome (list A) :=
  if bool_decide (N.to_nat i < length l) then Done (<[N.to_nat i := a]> l) else Panic.

(** [for x in l { body(x)? }] *)
Fixpoint for_each {A} (body : A → outcome unit) (l : list A) : outcome unit :=
  match l with
  | [] => mret tt
  | x :: l => body x;; for_each body l
  end.

(** The same with loop-carried variables. *)
Fixpoint for_fold {A B} (body : A → B → outcome B) (l : list A) (b : B) : outcome B :=
  match l with
  | [] => mret b
  | x :: l => b ← body x b; for_fold body l b
  end.

Lemma outcome_bind_Done {A B} (m : outcome A) (f : A → outcome B) b :
  (m ≫= f) = Done b ↔ ∃ a, m = Done a ∧ f a = Done b.
Proof. unfold mbind, outcome_bind. destruct m; naive_solver. Qed.

Lemma outcome_bind_no_panic {A B} (m : outcome A) (f : A → outcome B) :
  m ≠ Panic → (∀ a, m = Done a → f a ≠ Panic) → (m ≫= f) ≠ Panic.
Proof. unfold mbind, outcome_bind. destruct m; naive_solver. Qed.

Lemma fail_when_Done {B} b e (k : outcome B) x :
  (fail_when b e;; k) = Done x ↔ b = false ∧ k = Done x.
Proof. unfold fail_when, mbind, outcome_bind. destruct b; naive_solver. Qed.

Lemma fail_when_unit b e : fail_when b e = Done tt ↔ b = false.
Proof. unfold fail_when. destruct b; naive_solver. Qed.

Lemma fail_when_no_panic b e : fail_when b e ≠ Panic.
Proof. by destruct b. Qed.

Lemma index_Done {A} (l : list A) i a : index l i = Done a ↔ l !! N.to_nat i = Some a.
Proof. unfold index. destruct (l !! N.to_nat i); naive_solver. Qed.

Lemma index_no_panic {A} (l : list A) i : N.to_nat i < length l → index l i ≠ Panic.
Proof. intros [a Ha]%lookup_lt_is_Some. unfold index. by rewrite Ha. Qed.

Lemma assign_Done {A} (l : list A) i a l' :
  assign l i a = Done l' ↔ N.to_nat i < length l ∧ l' = <[N.to_nat i := a]> l.
Proof. unfold assign. case_bool_decide; naive_solver. Qed.

Lemma assign_no_panic {A} (l : list A) i a : N.to_nat i < length l → assign l i a ≠ Panic.
Proof. intros H. unfold assign. by rewrite bool_decide_eq_true_2. Qed.

Lemma for_each_Done {A} (body : A → outcome unit) l :
  for_each body l = Done tt ↔ ∀ x, x ∈ l → body x = Done tt.
Proof.
  induction l as [|a l IH]; cbn [for_each]; [split; [intros _ x Hx; set_solver|done]|].
  rewrite outcome_bind_Done. split.
  - intros ([] & Ha & Hl) x [->|Hx]%elem_of_cons; [done|]. by apply IH.
  - intros H. exists tt. split; [apply H; set_solver|]. apply IH. intros; apply H; set_solver.
Qed.

Lemma for_each_no_panic {A} (body : A → outcome unit) l :
  (∀ x, x ∈ l → body x ≠ Panic) → for_each body l ≠ Panic.
Proof.
  induction l as [|a l IH]; intros H; [done|]. cbn [for_each].
  apply outcome_bind_no_panic; [apply H; set_solver|]. intros _ _. apply IH. set_solver.
Qed.

Definition M (S A : Type) : Type := S → S * outcome A.

#[export] Instance M_ret {S} : MRet (M S) := λ _ a s, (s, Done a).
#[export] Instance M_bind {S} : MBind (M S) := λ _ _ f m s,
  match m s with
  | (s', Done a) => f a s'
  | (s', Fail e) => (s', Fail e)
  | (s', Panic) => (s', Panic)
  end.

Definition get {S} : M S S := λ s, (s, Done s).
Definition gets {S A} (f : S → A) : M S A := λ s, (s, Done (f s)).
Definition put {S} (s' : S) : M S unit := λ _, (s', Done tt).
Definition modify {S} (f : S → S) : M S unit := λ s, (f s, Done tt).
Definition throw {S A} (e : string) : M S A := λ s, (s, Fail e).
Definition panic {S A} : M S A := λ s, (s, Panic).

(** [if cond { return Err(e) }] in a mutating method *)
Definition throw_if {S} (b : bool) (e : string) : M S unit :=
  if b then throw e else mret tt.

(** [opt.ok_or_else(|| e)?] *)
Definition some_or {S A} (o : option A) (e : string) : M S A :=
  match o with Some a => mret a | None => throw e end.

(** An index expression or [expect] that panics on [None]. *)
Definition unwrap {S A} (o : option A) : M S A :=
  match o with Some a => mret a | None => panic end.

(** Calling a [Result]-returning pure function with [?]. *)
Definition lift_result {S A} (r : result string A) : M S A :=
  match r with Ok a => mret a | Err e => throw e end.

(** Calling code without a receiver that may fail or panic. *)
Definition lift_outcome {S A} (o : outcome A) : M S A := λ s, (s, o).

Lemma lift_result_Done {S A} (r : result string A) (s s' : S) a :
  lift_result r s = (s', Done a) ↔ r = Ok a ∧ s' = s.
Proof. destruct r; cbv; naive_solver. Qed.

(** ** Triples for mutating methods

    [triple P m Q E]: started in a state satisfying [P], the method never
    panics; it ends in [Q a] when it returns [Ok(a)], in [E e] when it
    returns [Err(e)]. *)
Definition triple {S A} (P : S → Prop) (m : M S A)
    (Q : A → S → Prop) (E : string → S → Prop) : Prop :=
  ∀ s, P s →
    match m s with
    | (s', Done a) => Q a s'
    | (s', Fail e) => E e s'
    | (_, Panic) => False
    end.

Section triples.
Context {S : Type}.
Implicit Types (P : S → Prop) (E : string → S → Prop).

Lemma triple_ret {A} P E (a : A) (Q : A → S → Prop) :
  (∀ s, P s → Q a s) → triple P (mret a) Q E.
Proof. intros HQ s Hs. by apply HQ. Qed.

Lemma triple_bind {A B} P E (m : M S A) (f : A → M S B) (R : A → S → Prop) Q :
  triple P m R E → (∀ a, triple (R a) (f a) Q E) →
  triple P (m ≫= f) Q E.
Proof.
  intros Hm Hf s Hs. specialize (Hm s Hs). unfold mbind, M_bind.
  destruct (m s) as [s' [a|e|]]; [|done|done]. by apply (Hf a).
Qed.

(** A step that keeps the precondition. *)
Lemma triple_seq {A B} P E (m : M S A) (f : A → M S B) Q :
  triple P m (λ _, P) E → (∀ a, triple P (f a) Q E) → triple P (m ≫= f) Q E.
Proof. intros Hm Hf. by eapply triple_bind. Qed.

Lemma triple_pre {A} P P' E (m : M S A) (Q : A → S → Prop) :
  triple P' m Q E → (∀ s, P s → P' s) → triple P m Q E.
Proof. intros Hm HP s Hs. by apply Hm, HP. Qed.

Lemma triple_get_bind {B} P E (f : S → M S B) Q :
  (∀ s, P s → triple (λ s', s' = s) (f s) Q E) → triple P (get ≫= f) Q E.
Proof. intros H s Hs. by apply (H s Hs s). Qed.

Lemma triple_modify P E (f : S → S) (Q : unit → S → Prop) :
  (∀ s, P s → Q tt (f s)) → triple P (modify f) Q E.
Proof. intros H s Hs. by apply H. Qed.

Lemma triple_throw {A} P E e (Q : A → S → Prop) :
  (∀ s, P s → E e s) → triple P (throw e) Q E.
Proof. intros H s Hs. by apply H. Qed.

Lemma triple_throw_if_bind {B} P E b e (f : unit → M S B) Q :
  (b = true → ∀ s, P s → E e s) → (b = false → triple P (f tt) Q E) →
  triple P (throw_if b e ≫= f) Q E.
Proof. intros H1 H2 s Hs. destruct b; [by apply H1|by apply H2]. Qed.

Lemma triple_some_or_bind {A B} P E (o : option A) e (f : A → M S B) Q :
  (o = None → ∀ s, P s → E e s) → (∀ a, o = Some a → triple P (f a) Q E) →
  triple P (some_or o e ≫= f) Q E.
Proof. intros H1 H2 s Hs. destruct o as [a|]; [by apply (H2 a)|by apply H1]. Qed.
End triples.

(** ** Inverting a method that returned [Ok] *)

Lemma M_bind_Done {S A B} (m : M S A) (f : A → M S B) s s' b :
  (m ≫= f) s = (s', Done b) ↔ ∃ a s1, m s = (s1, Done a) ∧ f a s1 = (s', Done b).
Proof. unfold mbind, M_bind. destruct (m s) as [s1 [a|e|]]; naive_solver. Qed.

Lemma throw_if_Done {S} b e (s s' : S) u :
  throw_if b e s = (s', Done u) ↔ b = false ∧ s' = s ∧ u = tt.
Proof. destruct b, u; cbv; naive_solver. Qed.

Lemma some_or_Done {S A} (o : option A) e (s s' : S) a :
  some_or o e s = (s', Done a) ↔ o = Some a ∧ s' = s.
Proof. destruct o; cbv; naive_solver. Qed.

(** Splits the hypotheses saying that a method returned [Ok]. *)
Ltac done_inv := repeat match goal with
  | H : (_ ≫= _) _ = (_, Done _) |- _ => apply M_bind_Done in H as (? & ? & ? & H)
  | H : throw_if _ _ _ = (_, Done _) |- _ => apply throw_if_Done in H as (? & -> & ->)
  | H : some_or _ _ _ = (_, Done _) |- _ => apply some_or_Done in H as [? ->]
  | H : get _ = (_, Done _) |- _ => injection H as <- <-
  | H : modify _ _ = (_, Done _) |- _ => injection H as <- <-
  | H : mret _ _ = (_, Done _) |- _ => injection H as <- <-
  | H : throw _ _ = (_, Done _) |- _ => discriminate H
  end.

(** ** Integer widths *)

Definition u8_max : N := 255.
Definition u16_max : N := 65535.
Definition u32_max : N := 4294967295.
Definition u64_max : N := 18446744073709551615.

(** [x.checked_add(y)] at a width with the given largest value. *)
Definition checked_add (max x y : N) : option N :=
  if (x + y <=? max)%N then Some (x + y)%N else None.

Lemma checked_add_Some max x y z :
  checked_add max x y = Some z ↔ z = (x + y)%N ∧ (x + y ≤ max)%N.
Proof.
  unfold checked_add. destruct (N.leb_spec (x + y) max); split;
    intros; destruct_and?; simplify_eq; auto; lia.
Qed.

#[export] Instance byte_eq_decision : EqDecision byte := Byte.byte_eq_dec.

(** ** Logic *)

Lemma and_iff_compat_l' (P Q R : Prop) : (P → Q ↔ R) → P ∧ Q ↔ P ∧ R.
Proof. tauto. Qed.

(** ** Counting the elements with a property *)

Section counting.
Context {A : Type} (P Q : A → Prop).
Context {decP : ∀ x, Decision (P x)} {decQ : ∀ x, Decision (Q x)}.

Lemma filter_length_mono (l : list A) :
  (∀ x, x ∈ l → P x → Q x) → length (filter P l) ≤ length (filter Q l).
Proof.
  induction l as [|a l IH]; intros H; [done|]. rewrite !filter_cons.
  assert (length (filter P l) ≤ length (filter Q l)) by (apply IH; set_solver).
  assert (P a → Q a) by (apply H; set_solver).
  repeat case_decide; cbn; (lia || naive_solver).
Qed.

Lemma filter_length_lt (l : list A) x :
  (∀ x, x ∈ l → P x → Q x) → x ∈ l → Q x → ¬ P x →
  length (filter P l) < length (filter Q l).
Proof.
  intros H Hx HQ HP. induction l as [|a l IH]; [set_solver|].
  rewrite !filter_cons.
  assert (length (filter P l) ≤ length (filter Q l))
    by (apply filter_length_mono; set_solver).
  assert (P a → Q a) as Ha by (apply H; set_solver).
  apply elem_of_cons in Hx as [->|Hx].
  - rewrite decide_False, decide_True by done. cbn. lia.
  - assert (length (filter P l) < length (filter Q l)) by (apply IH; set_solver).
    repeat case_decide; cbn; (lia || naive_solver).
Qed.
End counting.

(** ** Lists *)

Lemma elem_of_insert_inv {A} (l : list A) i x y : x ∈ <[i := y]> l → x = y ∨ x ∈ l.
Proof.
  intros [j Hj]%list_elem_of_lookup. destruct (decide (i = j)) as [->|Hne].
  - left. destruct (decide (j < length l)).
    + rewrite list_lookup_insert_eq in Hj by done. congruence.
    + rewrite list_insert_ge in Hj by lia. apply lookup_lt_Some in Hj. lia.
  - right. rewrite list_lookup_insert_ne in Hj by done. apply list_elem_of_lookup. eauto.
Qed.

(** [v.sort_by_key(key)]: a stable sort. *)
Fixpoint insert_by_key {A} (key : A → N) (x : A) (l : list A) : list A :=
  match l with
  | [] => [x]
  | y :: l' => if (key x <=? key y)%N then x :: l else y :: insert_by_key key x l'
  end.

Definition sort_by_key {A} (key : A → N) (l : list A) : list A :=
  List.fold_right (insert_by_key key) [] l.

(** Sorting a sorted list changes nothing. *)
Lemma sort_by_key_sorted {A} (key : A → N) (l : list A) :
  StronglySorted (λ x y, key x ≤ key y)%N l → sort_by_key key l = l.
Proof.
  induction 1 as [|x l _ IH Hx]; cbn; [done|]. fold (sort_by_key key l). rewrite IH.
  destruct Hx as [|y l Hy _]; cbn; [done|]. apply N.leb_le in Hy. by rewrite Hy.
Qed.

Lemma insert_by_key_perm {A} (key : A → N) (x : A) (l : list A) :
  insert_by_key key x l ≡ₚ x :: l.
Proof.
  induction l as [|y l IH]; cbn; [done|]. case_match; [done|]. rewrite IH. by constructor.
Qed.

Lemma sort_by_key_perm {A} (key : A → N) (l : list A) : sort_by_key key l ≡ₚ l.
Proof.
  induction l as [|x l IH]; cbn; [done|]. fold (sort_by_key key l).
  by rewrite insert_by_key_perm, IH.
Qed.

(** ** Tactics *)

(** Case split on every boolean test and match of the hypotheses and goal,
    closing the impossible cases. *)
Ltac crush_matches :=
  repeat (case_match; simplify_eq/=; try done).

Create HintDb witchy discriminated.

Lemma drop_cons_lookup {A} (l : list A) i x xs : drop i l = x :: xs → l !! i = Some x ∧ drop (S i) l = xs.
Proof.
  intros H. split; [by rewrite <- (Nat.add_0_r i), <- lookup_drop, H|].
  rewrite <- Nat.add_1_r, <- drop_drop, H. done.
Qed.
