(* ===== verification/Text.v ===== *)
(** * Text: the [&str] operations the toolchain uses

    Rust strings are UTF-8 byte sequences.  They are modelled by [string],
    a list of 8-bit characters, so that byte-wise operations (searching for
    an ASCII delimiter, prefix and suffix tests, byte-lexicographic order)
    are the source's operations.  Each function carries the lemmas the
    components need: what a successful split says about the input, and how
    splitting undoes joining. *)

From S2P Require Import Prelude.

Local Open Scope string_scope.

(** ** Characters *)

Fixpoint str_contains (c : ascii) (s : string) : bool :=
  match s with
  | "" => false
  | String a s' => Ascii.eqb a c || str_contains c s'
  end.

(** [s.bytes().any(f)] and [s.bytes().all(f)] *)
Fixpoint str_any (f : ascii → bool) (s : string) : bool :=
  match s with
  | "" => false
  | String a s' => f a || str_any f s'
  end.

Fixpoint str_all (f : ascii → bool) (s : string) : bool :=
  match s with
  | "" => true
  | String a s' => f a && str_all f s'
  end.

(** [s.matches(c).count()] *)
Fixpoint str_count (c : ascii) (s : string) : nat :=
  match s with
  | "" => 0
  | String a s' => (if Ascii.eqb a c then 1 else 0) + str_count c s'
  end.

Definition is_ascii_digit (a : ascii) : bool :=
  (48 <=? N_of_ascii a)%N && (N_of_ascii a <=? 57)%N.
Definition is_ascii_upper (a : ascii) : bool :=
  (65 <=? N_of_ascii a)%N && (N_of_ascii a <=? 90)%N.
Definition is_ascii_lower (a : ascii) : bool :=
  (97 <=? N_of_ascii a)%N && (N_of_ascii a <=? 122)%N.
Definition is_ascii_alphanumeric (a : ascii) : bool :=
  is_ascii_digit a || is_ascii_upper a || is_ascii_lower a.
Definition is_ascii_control (a : ascii) : bool :=
  (N_of_ascii a <? 32)%N || (N_of_ascii a =? 127)%N.

Definition ascii_to_lower (a : ascii) : ascii :=
  if is_ascii_upper a then ascii_of_N (N_of_ascii a + 32) else a.

Fixpoint to_ascii_lowercase (s : string) : string :=
  match s with
  | "" => ""
  | String a s' => String (ascii_to_lower a) (to_ascii_lowercase s')
  end.

Definition eq_ignore_ascii_case (s t : string) : bool :=
  String.eqb (to_ascii_lowercase s) (to_ascii_lowercase t).

(** ** Prefixes, suffixes and splits *)

Fixpoint strip_prefix (p s : string) : option string :=
  match p, s with
  | "", _ => Some s
  | String a p', String b s' => if Ascii.eqb a b then strip_prefix p' s' else None
  | String _ _, "" => None
  end.

Definition starts_with (p s : string) : bool :=
  match strip_prefix p s with Some _ => true | None => false end.

(** [s.ends_with(suffix)] *)
Fixpoint ends_with (s suffix : string) : bool :=
  String.eqb s suffix ||
  match s with "" => false | String _ s' => ends_with s' suffix end.

(** [s.strip_suffix(c)] for a one-character suffix. *)
Fixpoint strip_suffix_char (c : ascii) (s : string) : option string :=
  match s with
  | "" => None
  | String a "" => if Ascii.eqb a c then Some "" else None
  | String a s' => String a <$> strip_suffix_char c s'
  end.

(** [s.trim_end_matches(c)] *)
Fixpoint trim_end_char (c : ascii) (s : string) : string :=
  match s with
  | "" => ""
  | String a s' =>
      let r := trim_end_char c s' in
      if String.eqb r "" && Ascii.eqb a c then "" else String a r
  end.

(** [s.split_once(c)]: at the first occurrence of [c]. *)
Fixpoint split_once (c : ascii) (s : string) : option (string * string) :=
  match s with
  | "" => None
  | String a s' =>
      if Ascii.eqb a c then Some ("", s')
      else match split_once c s' with
           | Some (l, r) => Some (String a l, r)
           | None => None
           end
  end.

(** [s.rsplit_once(c)]: at the last occurrence of [c]. *)
Fixpoint rsplit_once (c : ascii) (s : string) : option (string * string) :=
  match s with
  | "" => None
  | String a s' =>
      match rsplit_once c s' with
      | Some (l, r) => Some (String a l, r)
      | None => if Ascii.eqb a c then Some ("", s') else None
      end
  end.

(** [s.split_once(pat)] for a string pattern. *)
Fixpoint split_once_str (pat s : string) : option (string * string) :=
  match strip_prefix pat s with
  | Some r => Some ("", r)
  | None =>
      match s with
      | "" => None
      | String a s' =>
          match split_once_str pat s' with
          | Some (l, r) => Some (String a l, r)
          | None => None
          end
      end
  end.

(** The text before the first character satisfying [f], and the rest from
    that character on: [s[..i]] and [s[i..]] for [i = s.find(f)], with
    [i = s.len()] when there is none. *)
Fixpoint span_until (f : ascii → bool) (s : string) : string * string :=
  match s with
  | "" => ("", "")
  | String a s' =>
      if f a then ("", s)
      else let (l, r) := span_until f s' in (String a l, r)
  end.

(** [s.split(c)]: never empty. *)
Fixpoint split_char (c : ascii) (s : string) : list string :=
  match s with
  | "" => [""]
  | String a s' =>
      if Ascii.eqb a c then "" :: split_char c s'
      else match split_char c s' with
           | [] => [String a ""]
           | x :: xs => String a x :: xs
           end
  end.

(** [parts.join(sep)] for a one-character separator. *)
Fixpoint join_char (c : ascii) (l : list string) : string :=
  match l with
  | [] => ""
  | [x] => x
  | x :: xs => x +:+ String c (join_char c xs)
  end.

(** ** Decimal numbers *)

Definition digit_value (a : ascii) : option N :=
  if is_ascii_digit a then Some (N_of_ascii a - 48)%N else None.

Fixpoint parse_digits (acc : N) (s : string) : option N :=
  match s with
  | "" => Some acc
  | String a s' =>
      d ← digit_value a; parse_digits (acc * 10 + d)%N s'
  end.

(** [s.parse::<uN>()] with [max] the type's largest value: an optional
    leading [+], at least one digit, no overflow. *)
Definition parse_uint (max : N) (s : string) : option N :=
  let digits := match strip_prefix "+" s with Some r => r | None => s end in
  if String.eqb digits "" then None
  else v ← parse_digits 0 digits;
       if (v <=? max)%N then Some v else None.

Definition digit_char (n : N) : ascii := ascii_of_N (48 + n).

Fixpoint show_digits (fuel : nat) (n : N) (acc : string) : string :=
  match fuel with
  | O => acc
  | S fuel' =>
      let acc' := String (digit_char (n mod 10)) acc in
      if (n / 10 =? 0)%N then acc' else show_digits fuel' (n / 10) acc'
  end.

(** [n.to_string()]; one more digit than the binary size is enough in base
    ten. *)
Definition show_N (n : N) : string := show_digits (S (N.to_nat (N.size n))) n "".

(** * Lemmas *)

Lemma ascii_eqb_eq a b : Ascii.eqb a b = true ↔ a = b.
Proof. apply Ascii.eqb_eq. Qed.
Lemma ascii_eqb_refl a : Ascii.eqb a a = true.
Proof. by apply ascii_eqb_eq. Qed.
Lemma ascii_eqb_neq a b : Ascii.eqb a b = false ↔ a ≠ b.
Proof. rewrite <- not_true_iff_false, ascii_eqb_eq. done. Qed.

Lemma app_nil_l_str s : "" +:+ s = s.
Proof. done. Qed.
Lemma app_cons_str a s t : String a s +:+ t = String a (s +:+ t).
Proof. done. Qed.
Lemma app_nil_r_str s : s +:+ "" = s.
Proof. induction s; [done|]. rewrite app_cons_str. by f_equal. Qed.
Lemma app_assoc_str s t u : (s +:+ t) +:+ u = s +:+ (t +:+ u).
Proof. induction s; [done|]. rewrite !app_cons_str. by f_equal. Qed.

Create Rewrite HintDb str.
#[export] Hint Rewrite app_nil_l_str app_cons_str app_nil_r_str app_assoc_str : str.

(** Character tests distribute over concatenation. *)
Lemma str_any_app f s t : str_any f (s +:+ t) = str_any f s || str_any f t.
Proof.
  induction s as [|a s IH]; [done|].
  rewrite app_cons_str. cbn. rewrite IH. by destruct (f a).
Qed.
Lemma str_all_app f s t : str_all f (s +:+ t) = str_all f s && str_all f t.
Proof.
  induction s as [|a s IH]; [done|].
  rewrite app_cons_str. cbn. rewrite IH. by destruct (f a).
Qed.
Lemma str_contains_app c s t :
  str_contains c (s +:+ t) = str_contains c s || str_contains c t.
Proof.
  induction s as [|a s IH]; [done|].
  rewrite app_cons_str. cbn. rewrite IH. by destruct (Ascii.eqb a c).
Qed.
Lemma str_count_app c s t : str_count c (s +:+ t) = str_count c s + str_count c t.
Proof.
  induction s as [|a s IH]; [done|].
  rewrite app_cons_str. cbn. rewrite IH. lia.
Qed.

Lemma str_contains_any c s : str_contains c s = str_any (λ a, Ascii.eqb a c) s.
Proof. induction s; cbn; congruence. Qed.

Lemma str_any_false_all f s : str_any f s = false ↔ str_all (λ a, negb (f a)) s = true.
Proof.
  induction s as [|a s IH]; cbn; [done|].
  rewrite orb_false_iff, andb_true_iff, negb_true_iff, IH. done.
Qed.

Lemma str_all_impl (f g : ascii → bool) s :
  (∀ a, f a = true → g a = true) → str_all f s = true → str_all g s = true.
Proof.
  intros Hfg. induction s as [|a s IH]; cbn; [done|].
  rewrite !andb_true_iff. naive_solver.
Qed.

Lemma str_count_0 c s : str_count c s = 0 ↔ str_contains c s = false.
Proof.
  induction s as [|a s IH]; cbn; [done|].
  destruct (Ascii.eqb a c); cbn; [split; [lia|done]|done].
Qed.

(** Prefixes. *)
Lemma strip_prefix_Some p s r : strip_prefix p s = Some r ↔ s = p +:+ r.
Proof.
  revert s. induction p as [|a p IH]; intros s; cbn.
  - split; intros; simplify_eq; autorewrite with str; done.
  - rewrite app_cons_str. destruct s as [|b s]; [done|].
    destruct (Ascii.eqb a b) eqn:E.
    + apply ascii_eqb_eq in E as ->. rewrite IH. split; congruence.
    + apply ascii_eqb_neq in E. split; [done|]. intros. congruence.
Qed.

Lemma strip_prefix_app p r : strip_prefix p (p +:+ r) = Some r.
Proof. by apply strip_prefix_Some. Qed.

Lemma starts_with_char c a s : starts_with (String c "") (String a s) = Ascii.eqb c a.
Proof. unfold starts_with. cbn [strip_prefix]. by destruct (Ascii.eqb c a). Qed.

Lemma starts_with_char_app c s t :
  s ≠ "" → starts_with (String c "") (s +:+ t) = starts_with (String c "") s.
Proof.
  destruct s; [done|]. intros _. by rewrite app_cons_str, !starts_with_char.
Qed.

(** Splits. *)
Lemma split_once_Some c s l r :
  split_once c s = Some (l, r) ↔ s = l +:+ String c r ∧ str_contains c l = false.
Proof.
  revert l r. induction s as [|a s IH]; intros l r; cbn.
  - split; [done|]. intros [H _]. destruct l; discriminate.
  - destruct (Ascii.eqb a c) eqn:E.
    + apply ascii_eqb_eq in E as ->. split.
      * intros; simplify_eq. done.
      * intros [H Hl]. destruct l as [|b l]; [rewrite app_nil_l_str in H; by simplify_eq|].
        rewrite app_cons_str in H. simplify_eq. cbn in Hl.
        by rewrite ascii_eqb_refl in Hl.
    + assert (a ≠ c) by by apply ascii_eqb_neq.
      destruct (split_once c s) as [[l' r']|] eqn:Hs.
      * destruct (proj1 (IH l' r') eq_refl) as [-> Hl']. split.
        -- intros; simplify_eq. rewrite app_cons_str. cbn. by rewrite E.
        -- intros [H1 Hl]. destruct l as [|b l];
             [rewrite app_nil_l_str in H1; by simplify_eq|].
           rewrite app_cons_str in H1. injection H1 as -> Hlr.
           cbn in Hl. apply orb_false_iff in Hl as [_ Hl].
           assert (Some (l', r') = Some (l, r)) by (apply IH; done).
           by simplify_eq.
      * split; [done|]. intros [H1 Hl]. destruct l as [|b l];
             [rewrite app_nil_l_str in H1; by simplify_eq|].
        rewrite app_cons_str in H1. injection H1 as -> Hlr.
        cbn in Hl. apply orb_false_iff in Hl as [_ Hl].
        by assert (None = Some (l, r)) by (apply IH; done).
Qed.

Lemma split_once_None c s : split_once c s = None ↔ str_contains c s = false.
Proof.
  induction s as [|a s IH]; cbn; [done|].
  destruct (Ascii.eqb a c); cbn; [done|].
  destruct (split_once c s) as [[??]|]; rewrite <- IH; done.
Qed.

Lemma rsplit_once_Some c s l r :
  rsplit_once c s = Some (l, r) → s = l +:+ String c r ∧ str_contains c r = false.
Proof.
  revert l r. induction s as [|a s IH]; intros l r; cbn; [done|].
  destruct (rsplit_once c s) as [[l' r']|] eqn:Hs.
  - intros; simplify_eq. rewrite app_cons_str.
    destruct (IH _ _ eq_refl) as [-> ?]. done.
  - destruct (Ascii.eqb a c) eqn:E; [|done]. intros; simplify_eq.
    apply ascii_eqb_eq in E as ->. split; [done|].
    clear IH. induction r as [|b r IHr]; [done|]. cbn in *.
    destruct (rsplit_once c r) as [[??]|]; [done|].
    destruct (Ascii.eqb b c); [done|]. by apply IHr.
Qed.

Lemma rsplit_once_None c s : rsplit_once c s = None ↔ str_contains c s = false.
Proof.
  induction s as [|a s IH]; cbn; [done|].
  destruct (rsplit_once c s) as [[??]|].
  - rewrite orb_false_iff, <- IH. naive_solver.
  - rewrite orb_false_iff, <- IH. destruct (Ascii.eqb a c); naive_solver.
Qed.

Lemma rsplit_once_app c l r :
  str_contains c r = false → rsplit_once c (l +:+ String c r) = Some (l, r).
Proof.
  intros Hr. induction l as [|a l IH].
  - rewrite app_nil_l_str. cbn. apply rsplit_once_None in Hr. rewrite Hr.
    by rewrite ascii_eqb_refl.
  - rewrite app_cons_str. cbn. by rewrite IH.
Qed.

Lemma split_once_str_Some pat s l r :
  split_once_str pat s = Some (l, r) → s = l +:+ (pat +:+ r).
Proof.
  revert l r. induction s as [|a s IH]; intros l r; cbn.
  - destruct (strip_prefix pat "") eqn:E; [|done]. intros; simplify_eq.
    by apply strip_prefix_Some in E.
  - destruct (strip_prefix pat (String a s)) eqn:E.
    + intros; simplify_eq. by apply strip_prefix_Some in E.
    + destruct (split_once_str pat s) as [[l' r']|] eqn:Hs; [|done].
      intros; simplify_eq. rewrite app_cons_str. f_equal. by apply IH.
Qed.

(** The scheme separator is found right after a text without its first
    character. *)
Lemma split_once_str_app a pat l r :
  str_contains a l = false →
  split_once_str (String a pat) (l +:+ (String a pat +:+ r)) = Some (l, r).
Proof.
  induction l as [|b l IH]; intros Hl.
  - rewrite app_nil_l_str, app_cons_str. cbn. rewrite ascii_eqb_refl.
    by rewrite strip_prefix_app.
  - rewrite app_cons_str. cbn in *. apply orb_false_iff in Hl as [Hb Hl].
    assert (Ascii.eqb a b = false) as ->.
    { apply ascii_eqb_neq. apply ascii_eqb_neq in Hb. congruence. }
    by rewrite IH.
Qed.

Lemma span_until_app f s l r :
  span_until f s = (l, r) →
  s = l +:+ r ∧ str_any f l = false ∧
  (r = "" ∨ ∃ a r', r = String a r' ∧ f a = true).
Proof.
  revert l r. induction s as [|a s IH]; intros l r; cbn.
  - intros; simplify_eq. auto.
  - destruct (f a) eqn:E.
    + intros; simplify_eq. split; [done|]. split; [done|]. eauto.
    + destruct (span_until f s) as [l' r'] eqn:Hs. intros; simplify_eq.
      destruct (IH _ _ eq_refl) as (-> & Hl & Hr).
      rewrite app_cons_str. cbn. rewrite E. auto.
Qed.

Lemma span_until_all f l :
  str_any f l = false → span_until f l = (l, "").
Proof.
  induction l as [|a l IH]; cbn; [done|].
  rewrite orb_false_iff. intros [-> Hl]. by rewrite IH.
Qed.

Lemma span_until_stop f l a r :
  str_any f l = false → f a = true →
  span_until f (l +:+ String a r) = (l, String a r).
Proof.
  intros Hl Ha. induction l as [|b l IH].
  - rewrite app_nil_l_str. cbn. by rewrite Ha.
  - rewrite app_cons_str. cbn in *. apply orb_false_iff in Hl as [-> Hl].
    by rewrite IH.
Qed.

(** [split] undoes [join]. *)
Lemma split_char_nonempty c s : split_char c s ≠ [].
Proof.
  destruct s as [|a s]; cbn; [done|].
  destruct (Ascii.eqb a c); [done|]. by destruct (split_char c s).
Qed.

Lemma split_char_none c s : str_contains c s = false → split_char c s = [s].
Proof.
  induction s as [|a s IH]; cbn; [done|].
  rewrite orb_false_iff. intros [-> Hs]. by rewrite IH.
Qed.

Lemma split_char_app c x s :
  str_contains c x = false →
  split_char c (x +:+ String c s) = x :: split_char c s.
Proof.
  induction x as [|a x IH]; intros Hx.
  - rewrite app_nil_l_str. cbn. by rewrite ascii_eqb_refl.
  - rewrite app_cons_str. cbn in *. apply orb_false_iff in Hx as [-> Hx].
    by rewrite IH.
Qed.

Lemma split_join c l :
  l ≠ [] → Forall (λ x, str_contains c x = false) l →
  split_char c (join_char c l) = l.
Proof.
  intros Hl HF. induction HF as [|x l Hx HF IH]; [done|].
  destruct l as [|y l].
  - cbn. by apply split_char_none.
  - change (join_char c (x :: y :: l)) with (x +:+ String c (join_char c (y :: l))).
    rewrite split_char_app by done. by rewrite IH.
Qed.

Lemma split_char_no_sep c s : Forall (λ x, str_contains c x = false) (split_char c s).
Proof.
  induction s as [|a s IH]; cbn; [by repeat constructor|].
  destruct (Ascii.eqb a c) eqn:E; [by constructor|].
  destruct (split_char c s); [by repeat constructor; cbn; rewrite E|].
  inversion IH; subst. constructor; [|done]. cbn. by rewrite E.
Qed.

(** Case folding. *)
Lemma ascii_to_lower_idem a : ascii_to_lower (ascii_to_lower a) = ascii_to_lower a.
Proof. by destruct a as [[] [] [] [] [] [] [] []]. Qed.

Lemma to_ascii_lowercase_idem s :
  to_ascii_lowercase (to_ascii_lowercase s) = to_ascii_lowercase s.
Proof. induction s; cbn; [done|]. f_equal; [apply ascii_to_lower_idem|done]. Qed.

Lemma to_ascii_lowercase_empty s : to_ascii_lowercase s = "" ↔ s = "".
Proof. by destruct s. Qed.

(** Lower-casing never creates or removes a character outside the letters. *)
Lemma str_any_lowercase f s :
  (∀ a, f (ascii_to_lower a) = f a) →
  str_any f (to_ascii_lowercase s) = str_any f s.
Proof. intros Hf. induction s; cbn; [done|]. by rewrite Hf, IHs. Qed.

Lemma str_count_lowercase c s :
  (∀ a, Ascii.eqb (ascii_to_lower a) c = Ascii.eqb a c) →
  str_count c (to_ascii_lowercase s) = str_count c s.
Proof. intros Hf. induction s; cbn; [done|]. by rewrite Hf, IHs. Qed.

Lemma to_ascii_lowercase_app s t :
  to_ascii_lowercase (s +:+ t) = to_ascii_lowercase s +:+ to_ascii_lowercase t.
Proof. induction s; [done|]. rewrite app_cons_str. cbn. rewrite IHs. done. Qed.

(** Decimal printing and parsing. *)
Lemma digit_char_is_digit n : (n < 10)%N → is_ascii_digit (digit_char n) = true.
Proof.
  intros Hn. unfold digit_char, is_ascii_digit. rewrite N_ascii_embedding by lia.
  apply andb_true_iff. split; apply N.leb_le; lia.
Qed.

Lemma digit_value_char n : (n < 10)%N → digit_value (digit_char n) = Some n.
Proof.
  intros Hn. unfold digit_value. rewrite digit_char_is_digit by done.
  unfold digit_char. rewrite N_ascii_embedding by lia. f_equal. lia.
Qed.

Lemma parse_digits_app acc s t :
  parse_digits acc (s +:+ t) = v ← parse_digits acc s; parse_digits v t.
Proof.
  revert acc. induction s as [|a s IH]; intros acc; [done|].
  rewrite app_cons_str. cbn. destruct (digit_value a); cbn; [apply IH|done].
Qed.

Lemma show_digits_acc fuel n acc :
  show_digits fuel n acc = show_digits fuel n "" +:+ acc.
Proof.
  revert n acc. induction fuel as [|fuel IH]; intros n acc; [done|]. cbn [show_digits].
  destruct (n / 10 =? 0)%N; [done|].
  rewrite IH, (IH _ (String _ "")). autorewrite with str. done.
Qed.

Lemma parse_show_digits fuel n :
  (n < 2 ^ N.of_nat fuel)%N → (0 < fuel)%nat →
  parse_digits 0 (show_digits fuel n "") = Some n.
Proof.
  revert n. induction fuel as [|fuel IH]; intros n Hn Hf; [lia|]. cbn [show_digits].
  assert (n mod 10 < 10)%N by (apply N.mod_lt; lia).
  pose proof (N.div_mod n 10 ltac:(lia)) as Hdm.
  destruct (N.eqb_spec (n / 10) 0) as [E|E].
  - cbn [parse_digits]. rewrite digit_value_char by done. simpl. f_equal. lia.
  - rewrite show_digits_acc, parse_digits_app.
    rewrite Nat2N.inj_succ, N.pow_succ_r' in Hn.
    assert (n / 10 < 2 ^ N.of_nat fuel)%N.
    { apply N.Div0.div_lt_upper_bound. lia. }
    assert (0 < fuel)%nat.
    { destruct fuel; [|lia]. change (2 ^ N.of_nat 0)%N with 1%N in *. lia. }
    rewrite IH by done. simpl. rewrite digit_value_char by done. simpl. f_equal. lia.
Qed.

Lemma show_digits_is_digit fuel n acc :
  str_all is_ascii_digit acc = true →
  str_all is_ascii_digit (show_digits fuel n acc) = true.
Proof.
  revert n acc. induction fuel as [|fuel IH]; intros n acc Hacc; [done|]. cbn [show_digits].
  assert (is_ascii_digit (digit_char (n mod 10)) = true)
    by (apply digit_char_is_digit, N.mod_lt; done).
  destruct (n / 10 =? 0)%N; [|apply IH]; cbn; rewrite andb_true_iff; done.
Qed.

Lemma show_N_digits n : str_all is_ascii_digit (show_N n) = true.
Proof. by apply show_digits_is_digit. Qed.

Lemma show_digits_nonempty fuel n acc : (0 < fuel)%nat → show_digits fuel n acc ≠ "".
Proof.
  revert n acc. induction fuel as [|fuel IH]; intros n acc Hf; [lia|]. cbn [show_digits].
  destruct (n / 10 =? 0)%N; [done|].
  destruct fuel as [|fuel]; [done|]. apply IH. lia.
Qed.

Lemma show_N_nonempty n : show_N n ≠ "".
Proof. apply show_digits_nonempty. lia. Qed.

(** [n.to_string().parse() == Ok(n)] at any width that holds [n]. *)
Lemma parse_show_N max n : (n ≤ max)%N → parse_uint max (show_N n) = Some n.
Proof.
  intros Hn. unfold parse_uint.
  pose proof (show_N_digits n) as Hd. pose proof (show_N_nonempty n) as Hne.
  destruct (strip_prefix "+" (show_N n)) as [r|] eqn:E.
  { apply strip_prefix_Some in E. rewrite E in Hd. done. }
  destruct (String.eqb_spec (show_N n) "") as [?|_]; [done|].
  unfold show_N in *. rewrite parse_show_digits; [|..|lia].
  - cbn. by apply N.leb_le in Hn as ->.
  - rewrite Nat2N.inj_succ, N.pow_succ_r', N2Nat.id.
    pose proof (N.size_gt n). lia.
Qed.

Lemma parse_uint_bound max s v : parse_uint max s = Some v → (v ≤ max)%N.
Proof.
  unfold parse_uint. destruct (String.eqb _ ""); [done|].
  destruct (parse_digits 0 _) as [w|]; [|done]. cbn.
  destruct (N.leb_spec w max); [|done]. intros; by simplify_eq.
Qed.

(** ** Suffixes *)

Lemma strip_suffix_char_snoc c s x :
  strip_suffix_char c (s +:+ String x "") = if Ascii.eqb x c then Some s else None.
Proof.
  induction s as [|a s IH]; [done|]. rewrite app_cons_str. cbn [strip_suffix_char].
  rewrite IH. destruct s as [|b s]; by destruct (Ascii.eqb x c).
Qed.

Lemma trim_end_char_snoc c s x :
  Ascii.eqb x c = false → trim_end_char c (s +:+ String x "") = s +:+ String x "".
Proof.
  intros Hx. induction s as [|a s IH].
  - unfold trim_end_char; simpl. by rewrite app_nil_l_str, Hx.
  - rewrite app_cons_str. cbn [trim_end_char]. rewrite IH. by destruct s.
Qed.

Lemma str_contains_trim c d s : str_contains d (trim_end_char c s) = true → str_contains d s = true.
Proof.
  induction s as [|a s IH]; [done|]. cbn.
  destruct (String.eqb _ "" && Ascii.eqb a c)%bool; [done|]. cbn. rewrite !orb_true_iff. tauto.
Qed.

Lemma strip_suffix_char_Some c s r : strip_suffix_char c s = Some r → s = r +:+ String c "".
Proof.
  revert r. induction s as [|a s IH]; intros r; [done|]. destruct s as [|b s].
  - cbn. destruct (Ascii.eqb a c) eqn:H; [|done]. apply ascii_eqb_eq in H as ->. by intros [= <-].
  - change (strip_suffix_char c (String a (String b s)))
      with (String a <$> strip_suffix_char c (String b s)).
    intros (r' & Hr' & ->)%fmap_Some. by rewrite (IH _ Hr').
Qed.

(** A nonempty text has a last character. *)
Lemma str_snoc s : s ≠ "" → ∃ r x, s = r +:+ String x "".
Proof.
  induction s as [|a s IH]; [done|]. intros _. destruct s as [|b s]; [by exists "", a|].
  destruct IH as (r & x & ->); [done|]. by exists (String a r), x.
Qed.

Lemma parse_digits_all acc s v : parse_digits acc s = Some v → str_all is_ascii_digit s = true.
Proof.
  revert acc. induction s as [|a s IH]; intros acc; [done|]. cbn. unfold digit_value.
  destruct (is_ascii_digit a); [|done]. apply IH.
Qed.

(** What [parse] accepts for an unsigned integer is nonempty, has only
    digits and at most one [+], and ends in a digit. *)
Lemma parse_uint_text max s v :
  parse_uint max s = Some v →
  str_all (λ a, is_ascii_digit a || Ascii.eqb a "+") s = true ∧
  ∃ r x, s = r +:+ String x "" ∧ is_ascii_digit x = true.
Proof.
  assert (Hd : ∀ d, d ≠ "" → str_all is_ascii_digit d = true →
    str_all (λ a, is_ascii_digit a || Ascii.eqb a "+") d = true ∧
    ∃ r x, d = r +:+ String x "" ∧ is_ascii_digit x = true).
  { intros d Hne Hall. split; [eapply str_all_impl, Hall; intros a ->; done|].
    destruct (str_snoc d Hne) as (r & x & ->). rewrite str_all_app in Hall.
    apply andb_true_iff in Hall as [_ Hx]. cbn in Hx. rewrite andb_true_r in Hx. eauto. }
  unfold parse_uint. destruct (strip_prefix "+" s) as [d|] eqn:Hp.
  - apply strip_prefix_Some in Hp as ->. destruct (String.eqb_spec d ""); [done|].
    destruct (parse_digits 0 d) eqn:Hv; [|done]. intros _.
    destruct (Hd d) as (Hall & r & x & -> & Hx); [done|by eapply parse_digits_all|].
    split; [done|]. by exists (String "+" r), x.
  - destruct (String.eqb_spec s ""); [done|]. destruct (parse_digits 0 s) eqn:Hv; [|done].
    intros _. apply Hd; [done|]. by eapply parse_digits_all.
Qed.
