(* ===== verification/Ordered.v ===== *)
(** * Ordered: iteration order of the sorted collections

    A [BTreeMap<String, A>] is a [gmap] whose entries are visited in byte
    order of the keys, a [BTreeSet<&str>] a [gset] visited in byte order,
    and [names.sort(); names.dedup()] the sorted list without repetitions.
    The launch contract, the grant documents, the host menus and the
    directory policies all depend on that order. *)

From S2P Require Import Prelude Text.

Local Open Scope string_scope.

(** [set.into_iter().collect::<Vec<_>>()] of a [BTreeSet<&str>]. *)
Definition btree_elements (s : gset string) : list string :=
  merge_sort String.le (elements s).

(** The order of [BTreeMap<&str, A>] entries: by key. *)
Definition key_le {A} (a b : string * A) : Prop := String.leb (fst a) (fst b) = true.

#[export] Instance key_le_dec {A} : RelDecision (key_le (A := A)).
Proof. intros a b. unfold key_le. apply _. Defined.

Definition btree_entries {A} (m : gmap string A) : list (string * A) :=
  merge_sort key_le (map_to_list m).

(** [v.dedup()]: drops an element equal to the one before it. *)
Fixpoint dedup (l : list string) : list string :=
  match l with
  | x :: (y :: _) as l' => if String.eqb x y then dedup l' else x :: dedup l'
  | _ => l
  end.

(** [v.sort(); v.dedup()] *)
Definition sort_dedup (l : list string) : list string := dedup (merge_sort String.le l).

(** [parts.join(sep)] *)
Fixpoint join_with (sep : string) (parts : list string) : string :=
  match parts with
  | [] => ""
  | [p] => p
  | p :: rest => p +:+ sep +:+ join_with sep rest
  end.

(** [for x in l { body(x)? }] over [Result] *)
Fixpoint try_each {E A} (body : A → result E unit) (l : list A) : result E unit :=
  match l with
  | [] => Ok tt
  | x :: l => body x;; try_each body l
  end.

(** ** Lemmas *)

Lemma elem_of_btree_elements s p : p ∈ btree_elements s ↔ p ∈ s.
Proof. unfold btree_elements. rewrite merge_sort_Permutation. apply elem_of_elements. Qed.

Section Entries.
Context {A : Type}.
Implicit Types m : gmap string A.

Lemma btree_entries_perm m : btree_entries m ≡ₚ map_to_list m.
Proof. apply merge_sort_Permutation. Qed.

Lemma btree_entries_inj m m' : btree_entries m = btree_entries m' → m = m'.
Proof. intros H. apply map_to_list_inj. rewrite <- !btree_entries_perm. by rewrite H. Qed.

Lemma btree_entries_length m : length (btree_entries m) = size m.
Proof. by rewrite btree_entries_perm, length_map_to_list. Qed.

Lemma elem_of_btree_entries m k a : (k, a) ∈ btree_entries m ↔ m !! k = Some a.
Proof. by rewrite btree_entries_perm, elem_of_map_to_list. Qed.

Lemma btree_entries_NoDup m : NoDup (btree_entries m).*1.
Proof. rewrite btree_entries_perm. apply NoDup_fst_map_to_list. Qed.
End Entries.

Lemma elem_of_dedup x l : x ∈ dedup l ↔ x ∈ l.
Proof.
  induction l as [|a [|b l] IH]; [done..|]. cbn [dedup].
  destruct (String.eqb_spec a b) as [->|Hne]; rewrite ?elem_of_cons, IH, ?elem_of_cons; tauto.
Qed.

Lemma elem_of_sort_dedup x l : x ∈ sort_dedup l ↔ x ∈ l.
Proof. unfold sort_dedup. by rewrite elem_of_dedup, merge_sort_Permutation. Qed.

Lemma try_each_Ok {E A} (body : A → result E unit) l :
  try_each body l = Ok tt ↔ ∀ x, x ∈ l → body x = Ok tt.
Proof.
  induction l as [|a l IH]; cbn [try_each]; [split; [intros _ x Hx; set_solver|done]|].
  rewrite result_bind_Ok. split.
  - intros ([] & Ha & Hl) x [->|Hx]%elem_of_cons; [done|]. by apply IH.
  - intros H. exists tt. split; [apply H; set_solver|]. apply IH. intros; apply H; set_solver.
Qed.

(** A loop over the entries of a map succeeds when it does on each entry. *)
Lemma try_entries_Ok {E A} (body : string * A → result E unit) (m : gmap string A) :
  try_each body (btree_entries m) = Ok tt ↔ ∀ k a, m !! k = Some a → body (k, a) = Ok tt.
Proof.
  rewrite try_each_Ok. split.
  - intros H k a Hk. by apply H, elem_of_btree_entries.
  - intros H [k a] Hk. by apply H, elem_of_btree_entries.
Qed.
