(* ===== verification/Catalog.v ===== *)
(** * Catalog: the dependency-bottom capability vocabulary

    Models [crates/witchy-cap-model/src/lib.rs] (the catalog half):
    [CapabilityClass], [CapabilityRight], [CapabilityKind] with their names,
    classes and right vocabularies.  Every other component consumes these
    tables. *)

From S2P Require Import Prelude Text.

Local Open Scope string_scope.

Inductive CapabilityClass : Set := Host | Derived | Build.

Inductive CapabilityRight : Set :=
  | Read | Write | Connect | Listen | Tcp | Udp | Uds | Reveal | Seal.

Inductive CapabilityKind : Set :=
  | Console | Clock | Rand | Env | Secret | SecretStore | Dir | File | Net
  | Fetch | Exec | Socket | Listener
  | BuildOut | BuildRead | BuildEnv | BuildNet | BuildExec.

#[export] Instance CapabilityClass_eq_dec : EqDecision CapabilityClass.
Proof. solve_decision. Defined.
#[export] Instance CapabilityRight_eq_dec : EqDecision CapabilityRight.
Proof. solve_decision. Defined.
#[export] Instance CapabilityKind_eq_dec : EqDecision CapabilityKind.
Proof. solve_decision. Defined.

(** [right == other], [kind == other] of the derived [PartialEq]. *)
Definition right_eqb (a b : CapabilityRight) : bool := bool_decide (a = b).
Definition kind_eqb (a b : CapabilityKind) : bool := bool_decide (a = b).

Module Right.
Definition name (r : CapabilityRight) : string :=
  match r with
  | Read => "Read"
  | Write => "Write"
  | Connect => "Connect"
  | Listen => "Listen"
  | Tcp => "Tcp"
  | Udp => "Udp"
  | Uds => "Uds"
  | Reveal => "Reveal"
  | Seal => "Seal"
  end.

(** Every right, in declaration order. *)
Definition ALL : list CapabilityRight :=
  [Read; Write; Connect; Listen; Tcp; Udp; Uds; Reveal; Seal].

Lemma right_elem_of_ALL (r : CapabilityRight) : r ∈ ALL.
Proof. destruct r; unfold ALL; set_solver. Qed.

Lemma name_inj (a b : CapabilityRight) : name a = name b → a = b.
Proof. by destruct a, b. Qed.
End Right.

Definition READ_WRITE_RIGHTS : list CapabilityRight := [Read; Write].
Definition NET_VERB_RIGHTS : list CapabilityRight := [Connect; Listen].
Definition NET_TRANSPORT_RIGHTS : list CapabilityRight := [Tcp; Udp; Uds].
Definition SECRET_RIGHTS : list CapabilityRight := [Reveal; Seal].
Definition NET_RIGHTS : list CapabilityRight := [Connect; Listen; Tcp; Udp; Uds].

Module Kind.
Definition ALL : list CapabilityKind :=
  [Console; Clock; Rand; Env; Secret; SecretStore; Dir; File; Net; Fetch;
   Exec; Socket; Listener; BuildOut; BuildRead; BuildEnv; BuildNet; BuildExec].

Definition name (k : CapabilityKind) : string :=
  match k with
  | Console => "Console"
  | Clock => "Clock"
  | Rand => "Rand"
  | Env => "Env"
  | Secret => "Secret"
  | SecretStore => "SecretStore"
  | Dir => "Dir"
  | File => "File"
  | Net => "Net"
  | Fetch => "Fetch"
  | Exec => "Exec"
  | Socket => "Socket"
  | Listener => "Listener"
  | BuildOut => "BuildOut"
  | BuildRead => "BuildRead"
  | BuildEnv => "BuildEnv"
  | BuildNet => "BuildNet"
  | BuildExec => "BuildExec"
  end.

Definition class (k : CapabilityKind) : CapabilityClass :=
  match k with
  | Socket | Listener => Derived
  | BuildOut | BuildRead | BuildEnv | BuildNet | BuildExec => Build
  | _ => Host
  end.

Definition rights (k : CapabilityKind) : list CapabilityRight :=
  match k with
  | Console | Dir | File => READ_WRITE_RIGHTS
  | Net => NET_RIGHTS
  | Secret => SECRET_RIGHTS
  | _ => []
  end.

(** [kind.rights().contains(&right)] *)
Definition has_right (k : CapabilityKind) (r : CapabilityRight) : bool :=
  bool_decide (r ∈ rights k).

Definition right (k : CapabilityKind) (nm : string) : option CapabilityRight :=
  List.find (λ r, String.eqb (Right.name r) nm) (rights k).

Definition builtin_arity (k : CapabilityKind) : option nat :=
  match rights k with [] => Some 0 | _ => None end.

Definition from_name (nm : string) : option CapabilityKind :=
  if String.eqb nm "Console" then Some Console
  else if String.eqb nm "Clock" then Some Clock
  else if String.eqb nm "Rand" then Some Rand
  else if String.eqb nm "Env" then Some Env
  else if String.eqb nm "Secret" then Some Secret
  else if String.eqb nm "SecretStore" then Some SecretStore
  else if String.eqb nm "Dir" then Some Dir
  else if String.eqb nm "File" then Some File
  else if String.eqb nm "Net" then Some Net
  else if String.eqb nm "Fetch" then Some Fetch
  else if String.eqb nm "Exec" then Some Exec
  else if String.eqb nm "Socket" then Some Socket
  else if String.eqb nm "Listener" then Some Listener
  else if String.eqb nm "BuildOut" then Some BuildOut
  else if String.eqb nm "BuildRead" then Some BuildRead
  else if String.eqb nm "BuildEnv" then Some BuildEnv
  else if String.eqb nm "BuildNet" then Some BuildNet
  else if String.eqb nm "BuildExec" then Some BuildExec
  else None.

Lemma kind_elem_of_ALL (k : CapabilityKind) : k ∈ ALL.
Proof. destruct k; unfold ALL; set_solver. Qed.

Lemma from_name_name (k : CapabilityKind) : from_name (name k) = Some k.
Proof. by destruct k. Qed.

Lemma from_name_Some nm k : from_name nm = Some k → nm = name k.
Proof.
  unfold from_name.
  repeat (match goal with
          | |- context [String.eqb nm ?s] =>
              destruct (String.eqb_spec nm s) as [->|_];
              [intros; by simplify_eq|]
          end).
  done.
Qed.
End Kind.

Definition is_capability_type_name (nm : string) : bool :=
  match Kind.from_name nm with Some _ => true | None => false end.

Definition bears_rights_markers (nm : string) : bool :=
  match Kind.from_name nm with
  | Some k => negb (bool_decide (Kind.rights k = []))
  | None => false
  end.

Definition is_host_capability (nm : string) : bool :=
  match Kind.from_name nm with
  | Some k => bool_decide (Kind.class k = Host)
  | None => false
  end.

Definition is_build_capability (nm : string) : bool :=
  match Kind.from_name nm with
  | Some k => bool_decide (Kind.class k = Build)
  | None => false
  end.

(** ** The right vocabulary *)

(** A marker is a right of the capability exactly when its canonical name is
    in that capability's vocabulary. *)
Lemma right_Some k nm r :
  Kind.right k nm = Some r ↔ nm = Right.name r ∧ r ∈ Kind.rights k.
Proof.
  unfold Kind.right. split.
  - intros H. apply List.find_some in H as [H1 H2].
    apply String.eqb_eq in H2. by rewrite list_elem_of_In.
  - intros [-> Hr]. destruct k; unfold Kind.rights, READ_WRITE_RIGHTS,
      NET_RIGHTS, SECRET_RIGHTS in Hr; try (by apply elem_of_nil in Hr);
      destruct r; first [reflexivity | exfalso; set_solver].
Qed.

(** ** Properties *)

(** The catalog's names identify its kinds: the name of a kind parses back
    to it, only that name does, and the listing [ALL] is complete and free
    of duplicates. *)
Theorem catalog_names_roundtrip :
  (∀ k, Kind.from_name (Kind.name k) = Some k) ∧
  (∀ nm k, Kind.from_name nm = Some k → nm = Kind.name k) ∧
  (∀ k, k ∈ Kind.ALL) ∧ NoDup Kind.ALL.
Proof.
  split_and!.
  - apply Kind.from_name_name.
  - apply Kind.from_name_Some.
  - apply Kind.kind_elem_of_ALL.
  - apply (bool_decide_unpack _). vm_compute. done.
Qed.

(** A type name is a capability, and falls in exactly one of the host,
    derived and build classes, precisely when some catalog kind has it. *)
Theorem capability_name_classes nm :
  is_capability_type_name nm = true ↔
  ∃ k, nm = Kind.name k ∧
    is_host_capability nm = bool_decide (Kind.class k = Host) ∧
    is_build_capability nm = bool_decide (Kind.class k = Build) ∧
    bears_rights_markers nm = negb (bool_decide (Kind.builtin_arity k = Some 0)).
Proof.
  unfold is_capability_type_name, is_host_capability, is_build_capability,
    bears_rights_markers. split.
  - destruct (Kind.from_name nm) as [k|] eqn:E; [|done]. intros _.
    exists k. apply Kind.from_name_Some in E as ->. split_and!; [done..|].
    by destruct k.
  - intros (k & -> & _). by rewrite Kind.from_name_name.
Qed.
