(* ===== verification/DirPolicy.v ===== *)
(** * DirPolicy: directory entry policies

    Models [dir_only] and [dir_admits] of
    [crates/witchy-cap-model/src/lib.rs].  A policy is a newline-separated
    list of [dimension:value] rows; [dir_only] narrows a policy by a
    refinement and [dir_admits] decides one entry.  The source's
    [BTreeMap<&str, BTreeSet<&str>>] is a [gmap] of [gset]s, and a
    [BTreeSet] that is iterated is sorted in byte order first. *)

From S2P Require Import Prelude Text Ordered.

Local Open Scope string_scope.

Definition newline : ascii := "010".

Definition DIR_DENY_ALL : string := String "000" "".

(** [policy.split('\n')] *)
Definition rows (policy : string) : list string := split_char newline policy.

(** The nested [fn group] of [dir_only]. *)
Definition group_row (g : gmap string (gset string)) (pattern : string)
    : gmap string (gset string) :=
  match split_once ":" pattern with
  | Some (dimension, _) =>
      <[dimension := {[pattern]} ∪ default ∅ (g !! dimension)]> g
  | None => g
  end.

Definition group (value : string) : gmap string (gset string) :=
  foldl group_row ∅ (rows value).

(** First loop: the rows of dimensions the refinement does not mention. *)
Definition keep_unrefined (current refinement : gmap string (gset string))
    : gset string :=
  foldr (λ '(dimension, patterns) narrowed,
           if bool_decide (is_Some (refinement !! dimension)) then narrowed
           else patterns ∪ narrowed)
        ∅ (map_to_list current).

(** Second loop: intersect the shared dimensions, add the new ones; [None]
    is the early return of the deny-all sentinel. *)
Fixpoint refine_dimensions (current : gmap string (gset string))
    (refinement : list (string * gset string)) (narrowed : gset string)
    : option (gset string) :=
  match refinement with
  | [] => Some narrowed
  | (dimension, patterns) :: rest =>
      match current !! dimension with
      | Some existing =>
          let intersection := patterns ∩ existing in
          if bool_decide (intersection = ∅) then None
          else refine_dimensions current rest (narrowed ∪ intersection)
      | None => refine_dimensions current rest (narrowed ∪ patterns)
      end
  end.

Definition dir_only (current refine : string) : string :=
  if String.eqb refine "" then current
  else
    let refinement := group refine in
    if bool_decide (refinement = ∅) then DIR_DENY_ALL
    else if String.eqb current "" then refine
    else if existsb (λ pattern, negb (str_contains ":" pattern)) (rows current)
    then DIR_DENY_ALL
    else
      let current := group current in
      match refine_dimensions current (map_to_list refinement)
              (keep_unrefined current refinement) with
      | None => DIR_DENY_ALL
      | Some narrowed => join_char newline (btree_elements narrowed)
      end.

(** The loop of [dir_admits] over the rows, with its four flags; [None] is
    the early [return false]. *)
Record admit_flags : Set := {
  has_extension : bool;
  extension_allowed : bool;
  has_kind : bool;
  kind_allowed : bool;
}.

Fixpoint admit_rows (name : string) (is_dir : bool) (f : admit_flags)
    (l : list string) : option admit_flags :=
  match l with
  | [] => Some f
  | pattern :: rest =>
      if String.eqb pattern DIR_DENY_ALL then None
      else
        match strip_prefix "ext:" pattern with
        | Some extension =>
            admit_rows name is_dir
              {| has_extension := true;
                 extension_allowed := extension_allowed f || (is_dir || ends_with name extension);
                 has_kind := has_kind f;
                 kind_allowed := kind_allowed f |} rest
        | None =>
            match strip_prefix "kind:" pattern with
            | Some kind =>
                admit_rows name is_dir
                  {| has_extension := has_extension f;
                     extension_allowed := extension_allowed f;
                     has_kind := true;
                     kind_allowed :=
                       kind_allowed f || Bool.eqb (String.eqb kind "dir") is_dir |} rest
            | None => admit_rows name is_dir f rest
            end
        end
  end.

Definition dir_admits (policy name : string) (is_dir : bool) : bool :=
  if String.eqb policy "" then true
  else
    match admit_rows name is_dir
            {| has_extension := false; extension_allowed := false;
               has_kind := false; kind_allowed := false |} (rows policy) with
    | None => false
    | Some f => (negb (has_extension f) || extension_allowed f)
                && (negb (has_kind f) || kind_allowed f)
    end.

(** ** Rows and dimensions *)

(** The dimension [group] files a row under. *)
Definition dimension_of (row : string) : option string := fst <$> split_once ":" row.

Definition well_formed_rows (policy : string) : bool :=
  forallb (str_contains ":") (rows policy).

Lemma dimension_of_None row : dimension_of row = None ↔ str_contains ":" row = false.
Proof.
  unfold dimension_of. rewrite <- split_once_None.
  destruct (split_once ":" row); naive_solver.
Qed.

Lemma dimension_of_prefix d row r :
  str_contains ":" d = false →
  strip_prefix (d +:+ ":") row = Some r → dimension_of row = Some d.
Proof.
  intros Hd Hp. apply strip_prefix_Some in Hp as ->.
  rewrite app_assoc_str. unfold dimension_of.
  rewrite (proj2 (split_once_Some ":" _ d r)); done.
Qed.

Lemma elem_of_group v d p :
  p ∈ default ∅ (group v !! d) ↔ p ∈ rows v ∧ dimension_of p = Some d.
Proof.
  unfold group. generalize (rows v). intros l.
  assert (∀ g, p ∈ default ∅ (foldl group_row g l !! d) ↔
    p ∈ default ∅ (g !! d) ∨ (p ∈ l ∧ dimension_of p = Some d)) as H.
  { induction l as [|q l IH]; intros g; cbn [foldl].
    - set_solver.
    - rewrite IH. unfold group_row, dimension_of.
      destruct (split_once ":" q) as [[d' r]|] eqn:E.
      + destruct (decide (d' = d)) as [->|Hne].
        * rewrite lookup_insert_eq. cbn. rewrite elem_of_cons, elem_of_union,
            elem_of_singleton. split; [|naive_solver].
          intros [[->|?]|?]; [right; split; [by left|by rewrite E]|by left|].
          right. naive_solver.
        * rewrite lookup_insert_ne by done. rewrite elem_of_cons.
          split; [naive_solver|]. intros [?|[[->|?] Hp]]; [by left| |by right].
          rewrite E in Hp. by simplify_eq/=.
      + rewrite elem_of_cons. split; [naive_solver|].
        intros [?|[[->|?] Hp]]; [by left| |by right]. by rewrite E in Hp. }
  rewrite H, lookup_empty. set_solver.
Qed.

Lemma group_nonempty v d s : group v !! d = Some s → ∃ p, p ∈ s.
Proof.
  unfold group. generalize (rows v). intros l.
  assert (∀ g, (∀ d s, g !! d = Some s → ∃ p : string, p ∈ s) →
    ∀ d s, foldl group_row g l !! d = Some s → ∃ p, p ∈ s) as H.
  { induction l as [|q l IH]; intros g Hg; cbn [foldl]; [done|].
    apply IH. intros d' s'. unfold group_row.
    destruct (split_once ":" q) as [[d'' r]|]; [|apply Hg].
    destruct (decide (d'' = d')) as [->|].
    - rewrite lookup_insert_eq. intros; simplify_eq. exists q. set_solver.
    - rewrite lookup_insert_ne by done. apply Hg. }
  apply H. intros ??. by rewrite lookup_empty.
Qed.

Lemma group_Some v d s :
  group v !! d = Some s →
  (∃ p, p ∈ s) ∧ ∀ p, p ∈ s ↔ p ∈ rows v ∧ dimension_of p = Some d.
Proof.
  intros H. split; [by eapply group_nonempty|].
  intros p. by rewrite <- elem_of_group, H.
Qed.

Lemma group_dimension v p d :
  p ∈ rows v → dimension_of p = Some d → ∃ s, group v !! d = Some s ∧ p ∈ s.
Proof.
  intros Hp Hd. assert (p ∈ default ∅ (group v !! d)) as H by by apply elem_of_group.
  destruct (group v !! d) as [s|]; [by eauto|]. set_solver.
Qed.

(** ** What the two loops compute *)

Lemma elem_of_keep_unrefined cur ref p :
  p ∈ keep_unrefined cur ref ↔
  ∃ d s, cur !! d = Some s ∧ p ∈ s ∧ ref !! d = None.
Proof.
  unfold keep_unrefined.
  assert (∀ l : list (string * gset string),
    p ∈ foldr (λ '(d, ps) acc, if bool_decide (is_Some (ref !! d)) then acc
                               else ps ∪ acc) ∅ l ↔
    ∃ d s, (d, s) ∈ l ∧ p ∈ s ∧ ref !! d = None) as H.
  { induction l as [|[d s] l IH]; cbn [foldr]; [set_solver|].
    case_bool_decide as Hd.
    - rewrite IH. split; [set_solver|]. intros (d' & s' & Hin & Hp & Hn).
      apply elem_of_cons in Hin as [?|?]; [|by eauto].
      simplify_eq. rewrite Hn in Hd. by destruct Hd.
    - rewrite elem_of_union, IH. apply eq_None_not_Some in Hd.
      set_solver. }
  rewrite H. setoid_rewrite elem_of_map_to_list. done.
Qed.

Lemma refine_dimensions_Some cur l acc res :
  refine_dimensions cur l acc = Some res →
  (∀ p, p ∈ res ↔ p ∈ acc ∨ ∃ d s, (d, s) ∈ l ∧ p ∈ s ∧
          (∀ e, cur !! d = Some e → p ∈ e)) ∧
  (∀ d s e, (d, s) ∈ l → cur !! d = Some e → ∃ p, p ∈ s ∧ p ∈ e).
Proof.
  revert acc. induction l as [|[d s] l IH]; intros acc; cbn.
  - intros; simplify_eq. split; [set_solver|set_solver].
  - destruct (cur !! d) as [e|] eqn:E.
    + case_bool_decide as Hne; [done|]. intros H.
      destruct (IH _ H) as [H1 H2]. split.
      * intros p. rewrite H1, elem_of_union, elem_of_intersection.
        split.
        -- intros [[?|[??]]|(d' & s' & ? & ? & ?)]; [by left| |].
           ++ right. exists d, s. split; [by left|]. split; [done|]. congruence.
           ++ right. exists d', s'. split; [by right|]. done.
        -- intros [?|(d' & s' & Hin & ? & He)]; [by left; left|].
           apply elem_of_cons in Hin as [?|?]; [|right; by eauto].
           simplify_eq. left; right. split; [done|]. by apply He.
      * intros d' s' e' Hin He. apply elem_of_cons in Hin as [?|?]; [|by eauto].
        simplify_eq. apply set_choose_L in Hne as [p Hp]. exists p. set_solver.
    + intros H. destruct (IH _ H) as [H1 H2]. split.
      * intros p. rewrite H1, elem_of_union. split.
        -- intros [[?|?]|(d' & s' & ? & ? & ?)]; [by left| |].
           ++ right. exists d, s. split; [by left|]. split; [done|]. congruence.
           ++ right. exists d', s'. split; [by right|]. done.
        -- intros [?|(d' & s' & Hin & ? & He)]; [by left; left|].
           apply elem_of_cons in Hin as [?|?]; [|right; by eauto].
           simplify_eq. left; by right.
      * intros d' s' e' Hin He. apply elem_of_cons in Hin as [?|?]; [|by eauto].
        by simplify_eq.
Qed.

(** ** What a policy admits *)

(** The value of a row in dimension [d]: what follows [d:]. *)
Definition row_value (d row : string) : option string := strip_prefix (d +:+ ":") row.

Definition ext_ok (name : string) (is_dir : bool) (v : string) : bool :=
  is_dir || ends_with name v.
Definition kind_ok (is_dir : bool) (v : string) : bool :=
  Bool.eqb (String.eqb v "dir") is_dir.

Definition some_row (d : string) (ok : string → bool) (row : string) : bool :=
  match row_value d row with Some v => ok v | None => false end.

Lemma row_value_dimension d row :
  str_contains ":" d = false →
  (∃ v, row_value d row = Some v) ↔ dimension_of row = Some d.
Proof.
  intros Hd. split.
  - intros [v Hv]. by eapply dimension_of_prefix.
  - unfold dimension_of. destruct (split_once ":" row) as [[d' r]|] eqn:E; [|done].
    cbn. intros ?; simplify_eq. apply split_once_Some in E as [-> _].
    exists r. unfold row_value. apply strip_prefix_Some. by rewrite app_assoc_str.
Qed.

Lemma ext_not_kind row v : row_value "ext" row = Some v → row_value "kind" row = None.
Proof.
  unfold row_value. intros H. apply strip_prefix_Some in H as ->. done.
Qed.

Lemma admit_rows_spec name is_dir l f :
  admit_rows name is_dir f l =
  if bool_decide (DIR_DENY_ALL ∈ l) then None
  else Some
    {| has_extension := has_extension f || existsb (some_row "ext" (λ _, true)) l;
       extension_allowed :=
         extension_allowed f || existsb (some_row "ext" (ext_ok name is_dir)) l;
       has_kind := has_kind f || existsb (some_row "kind" (λ _, true)) l;
       kind_allowed := kind_allowed f || existsb (some_row "kind" (kind_ok is_dir)) l |}.
Proof.
  revert f. induction l as [|row l IH]; intros f; cbn [admit_rows existsb].
  - rewrite bool_decide_eq_false_2 by apply not_elem_of_nil.
    destruct f; cbn. by rewrite !orb_false_r.
  - destruct (String.eqb_spec row DIR_DENY_ALL) as [->|Hne].
    { rewrite bool_decide_eq_true_2 by by left. done. }
    rewrite (bool_decide_ext (DIR_DENY_ALL ∈ row :: l) (DIR_DENY_ALL ∈ l))
      by (rewrite elem_of_cons; naive_solver).
    change (strip_prefix "ext:" row) with (row_value "ext" row).
    change (strip_prefix "kind:" row) with (row_value "kind" row).
    destruct (row_value "ext" row) as [v|] eqn:E.
    + pose proof (ext_not_kind _ _ E) as K. unfold some_row in *.
      rewrite E, K, IH. cbn. case_bool_decide; [done|].
      f_equal. f_equal; [by rewrite orb_true_r|by rewrite <- orb_assoc].
    + destruct (row_value "kind" row) as [v|] eqn:K; unfold some_row in *;
        rewrite ?E, ?K, IH; cbn; [|done].
      case_bool_decide; [done|].
      f_equal. f_equal; [by rewrite orb_true_r|by rewrite <- orb_assoc].
Qed.

(** One dimension of a row list: unconstrained, or some row admits. *)
Definition dimension_admits (d : string) (ok : string → bool) (l : list string) : Prop :=
  (∃ row, row ∈ l ∧ dimension_of row = Some d) →
  ∃ row v, row ∈ l ∧ row_value d row = Some v ∧ ok v = true.

Lemma existsb_some_row d ok l :
  existsb (some_row d ok) l = true ↔
  ∃ row v, row ∈ l ∧ row_value d row = Some v ∧ ok v = true.
Proof.
  rewrite existsb_exists. setoid_rewrite <- list_elem_of_In. unfold some_row. split.
  - intros (row & Hin & H). destruct (row_value d row) as [v|] eqn:E; [|done]. eauto 6.
  - intros (row & v & Hin & E & H). exists row. by rewrite E.
Qed.

Lemma dimension_flag d ok l :
  str_contains ":" d = false →
  negb (existsb (some_row d (λ _, true)) l) || existsb (some_row d ok) l = true ↔
  dimension_admits d ok l.
Proof.
  intros Hd. unfold dimension_admits.
  rewrite orb_true_iff, negb_true_iff, existsb_some_row.
  rewrite <- not_true_iff_false, existsb_some_row.
  assert ((∃ row v, row ∈ l ∧ row_value d row = Some v ∧ true = true) ↔
          ∃ row, row ∈ l ∧ dimension_of row = Some d) as ->.
  { setoid_rewrite <- (row_value_dimension d _ Hd). naive_solver. }
  destruct (decide (Exists (λ row, dimension_of row = Some d) l)) as [E|E];
    rewrite list.Exists_exists in E; tauto.
Qed.

Lemma dir_admits_spec policy name is_dir :
  policy ≠ "" →
  dir_admits policy name is_dir = true ↔
  DIR_DENY_ALL ∉ rows policy ∧
  dimension_admits "ext" (ext_ok name is_dir) (rows policy) ∧
  dimension_admits "kind" (kind_ok is_dir) (rows policy).
Proof.
  intros Hne. unfold dir_admits. apply String.eqb_neq in Hne as ->.
  rewrite admit_rows_spec.
  case_bool_decide; [naive_solver|].
  cbn [has_extension extension_allowed has_kind kind_allowed orb].
  rewrite andb_true_iff, !dimension_flag by done. naive_solver.
Qed.

(** A policy whose constrained dimensions are all narrowed admits less. *)
Lemma dimension_admits_shrink d ok l l' :
  str_contains ":" d = false →
  ((∃ row, row ∈ l ∧ dimension_of row = Some d) →
    (∃ row, row ∈ l' ∧ dimension_of row = Some d) ∧
    ∀ row, row ∈ l' → dimension_of row = Some d → row ∈ l) →
  dimension_admits d ok l' → dimension_admits d ok l.
Proof.
  intros Hd Hsub Hl' Hl. destruct (Hsub Hl) as [Hex Hin].
  destruct (Hl' Hex) as (row & v & Hrow & Hv & Hok). exists row, v. split_and!; [|done..].
  apply Hin; [done|]. apply row_value_dimension; eauto.
Qed.

Definition dimension_narrows (l l' : list string) : Prop :=
  ∀ d, (∃ row, row ∈ l ∧ dimension_of row = Some d) →
    (∃ row, row ∈ l' ∧ dimension_of row = Some d) ∧
    ∀ row, row ∈ l' → dimension_of row = Some d → row ∈ l.

Lemma dir_admits_shrink policy policy' name is_dir :
  policy' ≠ "" → DIR_DENY_ALL ∉ rows policy →
  dimension_narrows (rows policy) (rows policy') →
  dir_admits policy' name is_dir = true → dir_admits policy name is_dir = true.
Proof.
  intros Hne Hdeny Hn H. destruct (decide (policy = "")) as [->|Hp]; [done|].
  apply dir_admits_spec in H as (_ & He & Hk); [|done].
  apply dir_admits_spec; [done|]. split; [done|].
  split; (eapply dimension_admits_shrink; [done|apply Hn|done]).
Qed.

(** ** Correctness of [dir_only] *)

Lemma well_formed_no_deny policy : well_formed_rows policy = true → DIR_DENY_ALL ∉ rows policy.
Proof.
  unfold well_formed_rows. rewrite forallb_forall. intros H Hin.
  apply list_elem_of_In, H in Hin. done.
Qed.

Lemma existsb_malformed policy :
  existsb (λ pattern, negb (str_contains ":" pattern)) (rows policy) = false ↔
  well_formed_rows policy = true.
Proof.
  unfold well_formed_rows. induction (rows policy) as [|r l IH]; cbn; [done|].
  rewrite orb_false_iff, andb_true_iff, negb_false_iff, IH. done.
Qed.

Lemma deny_all_admits_nothing name is_dir : dir_admits DIR_DENY_ALL name is_dir = false.
Proof. done. Qed.

(** The set the two loops build, for well-formed operands. *)
Section narrowed.
Context (current refine : string) (res : gset string).
Hypothesis Hres :
  refine_dimensions (group current) (map_to_list (group refine))
    (keep_unrefined (group current) (group refine)) = Some res.

Lemma elem_of_narrowed p :
  p ∈ res ↔
  (∃ d s, group current !! d = Some s ∧ p ∈ s ∧ group refine !! d = None) ∨
  (∃ d s, group refine !! d = Some s ∧ p ∈ s ∧
     ∀ e, group current !! d = Some e → p ∈ e).
Proof.
  apply refine_dimensions_Some in Hres as [H _]. rewrite H, elem_of_keep_unrefined.
  setoid_rewrite elem_of_map_to_list. done.
Qed.

(** Every row of the result is a row of an operand, filed under its own
    dimension, and it is a row of each operand that constrains it. *)
Lemma narrowed_row p :
  p ∈ res →
  (p ∈ rows current ∨ p ∈ rows refine) ∧
  ∃ d, dimension_of p = Some d ∧
    (∀ s, group current !! d = Some s → p ∈ rows current) ∧
    (∀ s, group refine !! d = Some s → p ∈ rows refine).
Proof.
  intros [(d & s & Hd & Hp & Hn)|(d & s & Hd & Hp & He)]%elem_of_narrowed;
    pose proof (proj2 (group_Some _ _ _ Hd) p) as Hs; apply Hs in Hp as [Hrow Hdim];
    (split; [tauto|]); exists d; (split; [done|]); split; intros s' Hs'; try congruence.
  eapply elem_of_group. rewrite Hs'. by apply He.
Qed.

(** Every dimension an operand constrains keeps at least one row. *)
Lemma narrowed_dimension d s :
  group current !! d = Some s ∨ group refine !! d = Some s →
  ∃ p, p ∈ res ∧ dimension_of p = Some d.
Proof.
  pose proof (proj2 (refine_dimensions_Some _ _ _ _ Hres)) as Hinter.
  setoid_rewrite elem_of_map_to_list in Hinter.
  setoid_rewrite elem_of_narrowed. intros Hs.
  destruct (group refine !! d) as [sr|] eqn:Er;
    destruct (group current !! d) as [sc|] eqn:Ec; [| | |naive_solver].
  - destruct (Hinter _ _ _ Er Ec) as (p & Hp1 & Hp2). exists p. split.
    + right. exists d, sr. split_and!; [done..|]. intros. congruence.
    + by apply (group_Some _ _ _ Er) in Hp1 as [_ ?].
  - destruct (group_Some _ _ _ Er) as [[p Hp] Hall]. exists p. split.
    + right. exists d, sr. split_and!; [done..|]. intros. congruence.
    + by apply Hall in Hp as [_ ?].
  - destruct (group_Some _ _ _ Ec) as [[p Hp] Hall]. exists p. split.
    + left. by exists d, sc.
    + by apply Hall in Hp as [_ ?].
Qed.


(** The joined text splits back into the rows of the set, and is not the
    empty (unrestricted) policy. *)
Lemma narrowed_rows :
  group refine ≠ ∅ →
  rows (join_char newline (btree_elements res)) = btree_elements res ∧
  join_char newline (btree_elements res) ≠ "".
Proof.
  intros (d & s & Hs)%map_choose.
  destruct (narrowed_dimension d s (or_intror Hs)) as (p & Hp & _).
  apply elem_of_btree_elements in Hp.
  assert (rows (join_char newline (btree_elements res)) = btree_elements res) as Hrows.
  { apply split_join; [by destruct (btree_elements res); set_solver|].
    apply list.Forall_forall. intros q [[Hq|Hq] _]%elem_of_btree_elements%narrowed_row;
      (eapply list.Forall_forall in Hq; [exact Hq|apply split_char_no_sep]). }
  split; [done|]. intros H0. rewrite H0 in Hrows. cbn in Hrows.
  assert ("" ∈ res) as [_ (d' & Hd' & _)]%narrowed_row; [|done].
  apply elem_of_btree_elements. rewrite <- Hrows. set_solver.
Qed.
End narrowed.

(** [l'] constrains every dimension [l] does, and only with rows of [l]. *)
Lemma narrowed_narrows current refine res policy :
  refine_dimensions (group current) (map_to_list (group refine))
    (keep_unrefined (group current) (group refine)) = Some res →
  policy = current ∨ policy = refine →
  dimension_narrows (rows policy) (btree_elements res).
Proof.
  intros Hres Hpol d (row & Hrow & Hd).
  destruct (group_dimension _ _ _ Hrow Hd) as (s & Hs & _).
  destruct (narrowed_dimension _ _ _ Hres d s) as (p & Hp & Hpd);
    [destruct Hpol as [<-|<-]; auto|].
  split; [exists p; by rewrite elem_of_btree_elements|].
  intros q Hq%elem_of_btree_elements Hqd.
  destruct (narrowed_row _ _ _ Hres q Hq) as (_ & d' & Hd' & Hc & Hr).
  rewrite Hqd in Hd'. simplify_eq. destruct Hpol as [->| ->]; eauto.
Qed.

(** [dir_only] away from its early returns. *)
Lemma dir_only_normal current refine :
  refine ≠ "" → current ≠ "" → well_formed_rows current = true →
  dir_only current refine = DIR_DENY_ALL ∨
  dir_only current refine ≠ "" ∧
  dimension_narrows (rows current) (rows (dir_only current refine)) ∧
  dimension_narrows (rows refine) (rows (dir_only current refine)) ∧
  (∀ row, row ∈ rows (dir_only current refine) → row ∈ rows current ∨ row ∈ rows refine).
Proof.
  intros Hr Hc Hwf. unfold dir_only. apply String.eqb_neq in Hr as ->.
  case_bool_decide as Href; [by left|].
  apply String.eqb_neq in Hc as ->. apply existsb_malformed in Hwf as ->.
  destruct (refine_dimensions _ _ _) as [res|] eqn:E; [|by left].
  right. destruct (narrowed_rows _ _ _ E Href) as [-> Hne]. split_and!.
  - done.
  - eapply narrowed_narrows; eauto.
  - eapply narrowed_narrows; eauto.
  - intros row Hrow%elem_of_btree_elements. by apply (narrowed_row _ _ _ E).
Qed.

(** The early returns of [dir_only]. *)
Lemma dir_only_malformed_current current refine :
  current ≠ "" → refine ≠ "" → well_formed_rows current = false →
  dir_only current refine = DIR_DENY_ALL.
Proof.
  intros Hc Hr Hwf. unfold dir_only. apply String.eqb_neq in Hr as ->.
  case_bool_decide; [done|]. apply String.eqb_neq in Hc as ->.
  destruct (existsb _ (rows current)) eqn:E; [done|].
  apply existsb_malformed in E. congruence.
Qed.

(** Operands over different dimensions: the refinement is added as is. *)
Definition disjoint_dimensions (current refine : string) : Prop :=
  ∀ d, group current !! d = None ∨ group refine !! d = None.

Lemma refine_dimensions_disjoint cur l acc :
  (∀ d s, (d, s) ∈ l → cur !! d = None) →
  ∃ res, refine_dimensions cur l acc = Some res.
Proof.
  revert acc. induction l as [|[d s] l IH]; intros acc Hl; cbn; [by eauto|].
  rewrite (Hl d s) by set_solver. apply IH. intros. eapply Hl. by right.
Qed.

Lemma well_formed_dimension policy row :
  well_formed_rows policy = true → row ∈ rows policy → ∃ d, dimension_of row = Some d.
Proof.
  unfold well_formed_rows. rewrite forallb_forall. intros H Hrow%list_elem_of_In%H.
  destruct (dimension_of row) eqn:E; [by eauto|].
  apply dimension_of_None in E. congruence.
Qed.

Lemma dir_only_disjoint_rows current refine :
  refine ≠ "" → current ≠ "" →
  well_formed_rows current = true → well_formed_rows refine = true →
  disjoint_dimensions current refine →
  dir_only current refine ≠ "" ∧
  ∀ row, row ∈ rows (dir_only current refine) ↔ row ∈ rows current ∨ row ∈ rows refine.
Proof.
  intros Hr Hc Hwc Hwr Hdis.
  destruct (refine_dimensions_disjoint (group current) (map_to_list (group refine))
    (keep_unrefined (group current) (group refine))) as [res Hres].
  { intros d s Hs%elem_of_map_to_list. destruct (Hdis d); congruence. }
  assert (group refine ≠ ∅) as Hne.
  { intros H0. pose proof (split_char_nonempty newline refine) as Hrows.
    destruct (split_char newline refine) as [|row l] eqn:E; [done|].
    assert (row ∈ rows refine) as Hrow by (unfold rows; rewrite E; by left).
    destruct (well_formed_dimension _ _ Hwr Hrow) as [d Hd].
    destruct (group_dimension _ _ _ Hrow Hd) as (s & Hs & _).
    by rewrite H0, lookup_empty in Hs. }
  unfold dir_only. apply String.eqb_neq in Hr as ->.
  rewrite bool_decide_eq_false_2 by done. apply String.eqb_neq in Hc as ->.
  rewrite (proj2 (existsb_malformed current)) by done. rewrite Hres.
  destruct (narrowed_rows _ _ _ Hres Hne) as [-> Hnil]. split; [done|].
  intros row. rewrite elem_of_btree_elements. split; [apply (narrowed_row _ _ _ Hres)|].
  rewrite (elem_of_narrowed _ _ _ Hres).
  intros [Hrow|Hrow]; [left|right];
    [destruct (well_formed_dimension _ _ Hwc Hrow) as [d Hd]
    |destruct (well_formed_dimension _ _ Hwr Hrow) as [d Hd]];
    destruct (group_dimension _ _ _ Hrow Hd) as (s & Hs & ?);
    exists d, s; (split; [done|]); (split; [done|]); destruct (Hdis d); congruence.
Qed.

Lemma dimension_admits_union d ok l1 l2 l :
  str_contains ":" d = false →
  (∀ row, row ∈ l ↔ row ∈ l1 ∨ row ∈ l2) →
  dimension_admits d ok l1 → dimension_admits d ok l2 → dimension_admits d ok l.
Proof.
  intros Hd Hl H1 H2 (row & [Hrow|Hrow]%Hl & Hdim);
    [destruct H1 as (r & v & Hr & ?)|destruct H2 as (r & v & Hr & ?)];
    eauto; exists r, v; rewrite Hl; auto.
Qed.

(** ** Properties *)

(** Refinement never widens: whatever the narrowed policy admits, the
    current policy admits, for every refinement text. *)
Theorem dir_only_never_widens current refine name is_dir :
  dir_admits (dir_only current refine) name is_dir = true →
  dir_admits current name is_dir = true.
Proof.
  intros H. destruct (decide (refine = "")) as [->|Hr]; [done|].
  destruct (decide (current = "")) as [->|Hc]; [done|].
  destruct (well_formed_rows current) eqn:Hwf.
  - destruct (dir_only_normal current refine Hr Hc Hwf) as [E|(Hne & Hn & _)].
    + by rewrite E, deny_all_admits_nothing in H.
    + eapply dir_admits_shrink; eauto using well_formed_no_deny.
  - by rewrite dir_only_malformed_current, deny_all_admits_nothing in H.
Qed.

(** A refinement made of [dimension:value] rows is itself respected: the
    narrowed policy admits only entries the refinement admits. *)
Theorem dir_only_respects_refinement current refine name is_dir :
  well_formed_rows refine = true →
  dir_admits (dir_only current refine) name is_dir = true →
  dir_admits refine name is_dir = true.
Proof.
  intros Hwr H. destruct (decide (refine = "")) as [->|Hr]; [done|].
  destruct (decide (current = "")) as [->|Hc].
  { unfold dir_only in H. apply String.eqb_neq in Hr as E. rewrite E in H. cbn in H.
    case_bool_decide; [by rewrite deny_all_admits_nothing in H|done]. }
  destruct (well_formed_rows current) eqn:Hwf.
  - destruct (dir_only_normal current refine Hr Hc Hwf) as [E|(Hne & _ & Hn & _)].
    + by rewrite E, deny_all_admits_nothing in H.
    + eapply dir_admits_shrink; eauto using well_formed_no_deny.
  - by rewrite dir_only_malformed_current, deny_all_admits_nothing in H.
Qed.

(** Refining along a fresh dimension is an exact conjunction: the narrowed
    policy admits exactly the entries both policies admit. *)
Theorem dir_only_disjoint_exact current refine name is_dir :
  current ≠ "" → refine ≠ "" →
  well_formed_rows current = true → well_formed_rows refine = true →
  disjoint_dimensions current refine →
  dir_admits (dir_only current refine) name is_dir =
  dir_admits current name is_dir && dir_admits refine name is_dir.
Proof.
  intros Hc Hr Hwc Hwr Hdis.
  destruct (dir_only_disjoint_rows current refine Hr Hc Hwc Hwr Hdis) as [Hne Hrows].
  apply eq_true_iff_eq. rewrite andb_true_iff. split.
  - intros H. destruct (dir_only_normal current refine Hr Hc Hwc) as [E|(_ & Hn1 & Hn2 & _)].
    { by rewrite E, deny_all_admits_nothing in H. }
    split; (eapply dir_admits_shrink; [| |done|]); eauto using well_formed_no_deny.
  - rewrite !dir_admits_spec by done. intros [(Hd1 & He1 & Hk1) (Hd2 & He2 & Hk2)].
    split_and!; [rewrite Hrows; tauto|..];
      (eapply dimension_admits_union; [done|apply Hrows|done..]).
Qed.

(** A refinement with an invalid row next to a valid one does not fail
    closed: the invalid row is dropped.  Here the refinement alone denies
    every entry (its first row is the deny-all sentinel), yet refining a
    non-empty policy by it admits a file. *)
Theorem dir_only_drops_invalid_rows :
  let refine := DIR_DENY_ALL +:+ String newline "ext:.txt" in
  (∀ name is_dir, dir_admits refine name is_dir = false) ∧
  dir_only "kind:file" refine = "ext:.txt" +:+ String newline "kind:file" ∧
  dir_admits (dir_only "kind:file" refine) "note.txt" false = true.
Proof. split_and!; [done|by vm_compute..]. Qed.

Lemma dir_only_never_widens_witness :
  dir_admits (dir_only ("kind:file" +:+ String newline "ext:.txt") "ext:.txt") "a.txt" false = true ∧
  dir_admits ("kind:file" +:+ String newline "ext:.txt") "a.txt" false = true.
Proof.
  split; [by vm_compute|].
  apply (dir_only_never_widens _ "ext:.txt"). by vm_compute.
Defined.

Lemma dir_only_respects_refinement_witness :
  dir_admits "ext:.txt" "a.txt" false = true.
Proof.
  apply (dir_only_respects_refinement "kind:file" "ext:.txt"); by vm_compute.
Defined.

Lemma dir_only_disjoint_exact_witness :
  dir_admits (dir_only "kind:file" "ext:.txt") "a.md" false =
  dir_admits "kind:file" "a.md" false && dir_admits "ext:.txt" "a.md" false.
Proof.
  apply dir_only_disjoint_exact; [done..|].
  intros d. destruct (decide (d = "kind")) as [->|Hd]; [right; by vm_compute|].
  left. apply eq_None_not_Some. intros [s Hs].
  destruct (group_Some _ _ _ Hs) as [[p Hp] Hall]. apply Hall in Hp as [Hrow Hdim].
  apply list_elem_of_singleton in Hrow as ->. by injection Hdim.
Defined.
