(* ===== verification/FetchUrl.v ===== *)
(** * FetchUrl: canonical Fetch origins, request URLs and header checks

    Models the Fetch half of [crates/witchy-cap-model/src/lib.rs]:
    [FetchScheme], [FetchOrigin], [ParsedFetchUrl], [split_fetch_authority],
    [display_fetch_host] and the method and header validators.  The error
    payload is the [FetchUrlError] message. *)

From S2P Require Import Prelude Text.

Local Open Scope string_scope.

Abbreviation FetchUrlError := string.

Inductive FetchScheme : Set := Http | Https.

#[export] Instance FetchScheme_eq_dec : EqDecision FetchScheme.
Proof. solve_decision. Defined.

Module Scheme.
Definition parse (value : string) : result FetchUrlError FetchScheme :=
  let lowered := to_ascii_lowercase value in
  if String.eqb lowered "http" then Ok Http
  else if String.eqb lowered "https" then Ok Https
  else Err "Fetch URLs and origins must use `http` or `https`".

Definition as_str (s : FetchScheme) : string :=
  match s with Http => "http" | Https => "https" end.

Definition default_port (s : FetchScheme) : N :=
  match s with Http => 80 | Https => 443 end.
End Scheme.

Record FetchOrigin : Set := {
  origin_scheme : FetchScheme;
  origin_host : string;
  origin_port : N;
}.

#[export] Instance FetchOrigin_eq_dec : EqDecision FetchOrigin.
Proof. solve_decision. Defined.

Record ParsedFetchUrl : Set := {
  url_origin : FetchOrigin;
  url_path_and_query : string;
}.

Definition split_fetch_authority (authority : string) (default_port : N)
    : result FetchUrlError (string * N) :=
  if starts_with "[" authority then
    match split_once "]" authority with
    | None => Err "unterminated IPv6 host"
    | Some (inside, suffix) =>
        let host := inside +:+ "]" in
        if String.eqb suffix "" then Ok (host, default_port)
        else
          digits ← ok_or (strip_prefix ":" suffix) "invalid IPv6 authority";
          port ← ok_or (parse_uint u16_max digits) "invalid URL port";
          Ok (host, port)
    end
  else if (1 <? str_count ":" authority)%nat then
    Err "IPv6 URL hosts must be enclosed in brackets"
  else
    match rsplit_once ":" authority with
    | Some (host, digits) =>
        if negb (String.eqb host "") && negb (String.eqb digits "") then
          port ← ok_or (parse_uint u16_max digits) "invalid URL port";
          Ok (host, port)
        else Err "invalid URL authority"
    | None => Ok (authority, default_port)
    end.

Definition display_fetch_host (host : string) : string :=
  if str_contains ":" host && negb (starts_with "[" host)
  then "[" +:+ (host +:+ "]") else host.

(** A byte no URL may contain. *)
Definition url_forbidden (a : ascii) : bool := is_ascii_control a || Ascii.eqb a " ".

Definition is_authority_end (a : ascii) : bool := Ascii.eqb a "/" || Ascii.eqb a "?".

Definition path_of_suffix (suffix : string) : string :=
  if String.eqb suffix "" then "/"
  else if starts_with "?" suffix then "/" +:+ suffix
  else suffix.

Definition parse_url (input : string) (origin_only : bool)
    : result FetchUrlError ParsedFetchUrl :=
  fail_if (str_any url_forbidden input)
    "URL contains whitespace or a control character";;
  fail_if (origin_only && str_contains "#" input)
    "an origin grant must not contain a path, query, or fragment";;
  let input := fst (span_until (λ a, Ascii.eqb a "#") input) in
  '(scheme, rest) ← ok_or (split_once_str "://" input) "URL is missing `scheme://`";
  scheme ← Scheme.parse scheme;
  let (authority, suffix) := span_until is_authority_end rest in
  fail_if (String.eqb authority "") "URL has an empty host";;
  fail_if (str_contains "@" authority)
    "URL credentials are forbidden; pass explicit authorization headers";;
  '(host, port) ← split_fetch_authority authority (Scheme.default_port scheme);
  let path_and_query := path_of_suffix suffix in
  fail_if (origin_only && negb (String.eqb path_and_query "/"))
    "an origin grant must not contain a path or query";;
  Ok {| url_origin := {| origin_scheme := scheme;
                         origin_host := to_ascii_lowercase host;
                         origin_port := port |};
        url_path_and_query := path_and_query |}.

Module Origin.
Definition parse (input : string) : result FetchUrlError FetchOrigin :=
  parsed ← parse_url input true;
  fail_if (negb (String.eqb (url_path_and_query parsed) "/"))
    "an origin grant must not contain a path, query, or fragment";;
  Ok (url_origin parsed).

Definition as_str (o : FetchOrigin) : string :=
  Scheme.as_str (origin_scheme o) +:+ ("://" +:+
    (display_fetch_host (origin_host o) +:+ (":" +:+ show_N (origin_port o)))).
End Origin.

(** ** Methods and headers *)

Definition is_token_punctuation (a : ascii) : bool :=
  str_contains a "!#$%&'*+-.^_`|~".

Definition is_http_token (value : string) : bool :=
  negb (String.eqb value "") &&
  str_all (λ a, is_ascii_alphanumeric a || is_token_punctuation a) value.

Definition validate_fetch_method (method : string) : result FetchUrlError unit :=
  if is_http_token method then Ok tt else Err "method is not an HTTP token".

(** [b'\r' | b'\n' | 0..=8 | 11..=31 | 127] *)
Definition header_forbidden (a : ascii) : bool :=
  let n := N_of_ascii a in
  (n =? 13)%N || (n =? 10)%N || (n <=? 8)%N || ((11 <=? n)%N && (n <=? 31)%N)
  || (n =? 127)%N.

Definition validate_http_header_syntax (name value : string) : result FetchUrlError unit :=
  fail_if (negb (is_http_token name))
    ("header name `" +:+ (name +:+ "` is not an HTTP token"));;
  fail_if (str_any header_forbidden value)
    ("header `" +:+ (name +:+ "` contains a forbidden control character")).

Definition provider_controlled (name : string) : bool :=
  eq_ignore_ascii_case name "host" || eq_ignore_ascii_case name "connection"
  || eq_ignore_ascii_case name "content-length"
  || eq_ignore_ascii_case name "transfer-encoding".

Definition validate_fetch_header (name value : string) : result FetchUrlError unit :=
  validate_http_header_syntax name value;;
  fail_if (provider_controlled name)
    ("header `" +:+ (name +:+ "` is controlled by the Fetch provider")).

(** ** Well-formed origins *)

(** The bytes that can end or restart an authority. *)
Definition host_forbidden (a : ascii) : bool :=
  url_forbidden a || Ascii.eqb a "#" || is_authority_end a || Ascii.eqb a "@".

(** A canonical host: lower case, free of URL delimiters, and either a
    bracketed literal or a name without a colon. *)
Definition canonical_host (host : string) : Prop :=
  host ≠ "" ∧ str_any host_forbidden host = false ∧
  to_ascii_lowercase host = host ∧
  ((∃ inside, host = String "[" (inside +:+ "]") ∧ str_contains "]" inside = false) ∨
   (starts_with "[" host = false ∧ str_contains ":" host = false)).

Definition canonical_origin (o : FetchOrigin) : Prop :=
  canonical_host (origin_host o) ∧ (origin_port o ≤ u16_max)%N.

Lemma host_forbidden_lower a : host_forbidden (ascii_to_lower a) = host_forbidden a.
Proof. by destruct a as [[] [] [] [] [] [] [] []]. Qed.
Lemma eqb_lower_delimiter c a :
  c ∈ [":"; "]"; "["]%char → Ascii.eqb (ascii_to_lower a) c = Ascii.eqb a c.
Proof.
  rewrite !elem_of_cons, elem_of_nil.
  intros [->|[->|[->|[]]]]; by destruct a as [[] [] [] [] [] [] [] []].
Qed.

Lemma str_contains_lower c s :
  c ∈ [":"; "]"; "["]%char → str_contains c (to_ascii_lowercase s) = str_contains c s.
Proof.
  intros Hc. rewrite !str_contains_any. apply str_any_lowercase.
  intros a. by apply eqb_lower_delimiter.
Qed.

Lemma starts_with_bracket_lower s :
  starts_with "[" (to_ascii_lowercase s) = starts_with "[" s.
Proof. by destruct s as [|[[] [] [] [] [] [] [] []] s]. Qed.

Lemma str_any_impl_false (f g : ascii → bool) s :
  (∀ a, f a = true → g a = true) → str_any g s = false → str_any f s = false.
Proof.
  intros Hfg. rewrite !str_any_false_all. apply str_all_impl.
  intros a. rewrite !negb_true_iff. specialize (Hfg a).
  destruct (f a), (g a); naive_solver.
Qed.

Lemma host_forbidden_prefix h p :
  str_any host_forbidden (h +:+ p) = false →
  str_any host_forbidden (to_ascii_lowercase h) = false.
Proof.
  rewrite str_any_app, orb_false_iff. intros [? _].
  by rewrite str_any_lowercase by apply host_forbidden_lower.
Qed.

(** The two shapes of authority give canonical hosts once lower-cased. *)
Lemma canonical_host_name h p :
  h ≠ "" → str_any host_forbidden (h +:+ p) = false →
  starts_with "[" h = false → str_contains ":" h = false →
  canonical_host (to_ascii_lowercase h).
Proof.
  intros Hne Hf Hb Hc. split_and!.
  - by rewrite to_ascii_lowercase_empty.
  - by eapply host_forbidden_prefix.
  - apply to_ascii_lowercase_idem.
  - right. by rewrite starts_with_bracket_lower, str_contains_lower by set_solver.
Qed.

Lemma canonical_host_bracketed inside suffix :
  starts_with "[" (inside +:+ String "]" suffix) = true →
  str_contains "]" inside = false →
  str_any host_forbidden (inside +:+ String "]" suffix) = false →
  canonical_host (to_ascii_lowercase (inside +:+ "]")).
Proof.
  intros Hb Hi Hf. destruct inside as [|a inside]; [done|].
  rewrite starts_with_char_app, starts_with_char in Hb by done.
  destruct (Ascii.eqb_spec "[" a) as [<-|]; [|done]. split_and!; [done|..].
  - apply (host_forbidden_prefix _ suffix). by rewrite app_assoc_str.
  - apply to_ascii_lowercase_idem.
  - left. exists (to_ascii_lowercase inside). split.
    + by rewrite to_ascii_lowercase_app.
    + by rewrite str_contains_lower by set_solver.
Qed.

Lemma split_authority_canonical authority dp host port :
  split_fetch_authority authority dp = Ok (host, port) →
  authority ≠ "" → str_any host_forbidden authority = false → (dp ≤ u16_max)%N →
  canonical_host (to_ascii_lowercase host) ∧ (port ≤ u16_max)%N.
Proof.
  intros H Hne Hf Hdp. unfold split_fetch_authority in H.
  destruct (starts_with "[" authority) eqn:Hb.
  - destruct (split_once "]" authority) as [[inside suffix]|] eqn:Hs; [|done].
    apply split_once_Some in Hs as [-> Hi].
    pose proof (canonical_host_bracketed _ _ Hb Hi Hf).
    destruct (String.eqb suffix ""); [by simplify_eq|].
    destruct (strip_prefix ":" suffix) as [digits|]; [|done]. cbn in H.
    destruct (parse_uint u16_max digits) as [q|] eqn:Hq; [|done]. cbn in H. simplify_eq.
    eauto using parse_uint_bound.
  - destruct (1 <? str_count ":" authority)%nat eqn:Hc; [done|].
    apply Nat.ltb_ge in Hc.
    destruct (rsplit_once ":" authority) as [[h digits]|] eqn:Hs.
    + destruct (negb _ && negb _) eqn:Hnn; [|done].
      apply andb_true_iff in Hnn as [Hh%negb_true_iff%String.eqb_neq _].
      destruct (parse_uint u16_max digits) as [q|] eqn:Hq; [|done]. cbn in H. simplify_eq.
      apply rsplit_once_Some in Hs as [-> _]. rewrite starts_with_char_app in Hb by done.
      split; [|eauto using parse_uint_bound]. eapply canonical_host_name; eauto.
      apply str_count_0. rewrite str_count_app in Hc. cbn in Hc. lia.
    + simplify_eq. split; [|done]. apply (canonical_host_name _ "");
        rewrite ?app_nil_r_str; auto. by apply rsplit_once_None.
Qed.

(** ** Inverting a successful parse *)

Lemma parse_url_Ok input origin_only u :
  parse_url input origin_only = Ok u →
  str_any url_forbidden input = false ∧
  (origin_only = true → str_contains "#" input = false ∧ url_path_and_query u = "/") ∧
  ∃ scheme_text rest scheme authority suffix host port,
    split_once_str "://" (fst (span_until (λ a, Ascii.eqb a "#") input))
      = Some (scheme_text, rest) ∧
    Scheme.parse scheme_text = Ok scheme ∧
    span_until is_authority_end rest = (authority, suffix) ∧
    authority ≠ "" ∧ str_contains "@" authority = false ∧
    split_fetch_authority authority (Scheme.default_port scheme) = Ok (host, port) ∧
    u = {| url_origin := {| origin_scheme := scheme;
                            origin_host := to_ascii_lowercase host;
                            origin_port := port |};
           url_path_and_query := path_of_suffix suffix |}.
Proof.
  unfold parse_url, fail_if, mbind, result_bind. intros H.
  destruct (str_any url_forbidden input) eqn:Hf; [done|].
  destruct (origin_only && str_contains "#" input) eqn:Hfrag; [done|].
  destruct (split_once_str _ _) as [[st rest]|] eqn:Hs; [|done]. cbn [ok_or] in H.
  destruct (Scheme.parse st) as [scheme|] eqn:Hsch; [|done].
  destruct (span_until is_authority_end rest) as [authority suffix] eqn:Hspan.
  destruct (String.eqb_spec authority "") as [|Hne]; [done|].
  destruct (str_contains "@" authority) eqn:Hat; [done|].
  destruct (split_fetch_authority _ _) as [[host port]|] eqn:Hauth; [|done].
  destruct (origin_only && negb _) eqn:Hp; [done|]. simplify_eq.
  split; [done|]. split; [|by eauto 20].
  intros ->. cbn in *. rewrite negb_false_iff, String.eqb_eq in Hp. done.
Qed.

Lemma default_port_bound s : (Scheme.default_port s ≤ u16_max)%N.
Proof. by destruct s. Qed.

Lemma url_piece_clean input l r x y :
  str_any url_forbidden input = false →
  fst (span_until (λ a, Ascii.eqb a "#") input) = l +:+ (r +:+ (x +:+ y)) →
  str_any (λ a, url_forbidden a || Ascii.eqb a "#") x = false.
Proof.
  intros Hf Hs. destruct (span_until (λ a, Ascii.eqb a "#") input) as [u v] eqn:E.
  apply span_until_app in E as (-> & Hu & _). cbn in Hs. subst u.
  assert (str_any url_forbidden x = false) as H1
    by (rewrite !str_any_app, !orb_false_iff in Hf; tauto).
  assert (str_any (λ a, Ascii.eqb a "#") x = false) as H2
    by (rewrite !str_any_app, !orb_false_iff in Hu; tauto).
  clear -H1 H2. induction x as [|a x IH]; cbn [str_any] in *; [done|].
  rewrite !orb_false_iff in *. tauto.
Qed.

(** Every parsed URL carries a canonical origin. *)
Lemma parse_url_canonical input origin_only u :
  parse_url input origin_only = Ok u → canonical_origin (url_origin u).
Proof.
  intros (Hf & _ & st & rest & scheme & authority & suffix & host & port &
    Hs & Hsch & Hspan & Hne & Hat & Hauth & ->)%parse_url_Ok.
  apply split_once_str_Some in Hs. apply span_until_app in Hspan as (-> & Hend & _).
  eapply url_piece_clean in Hs; [|done]. unfold canonical_origin. cbn.
  eapply split_authority_canonical; eauto using default_port_bound.
  clear -Hs Hend Hat. induction authority as [|a s IH]; cbn [str_any str_contains] in *;
    [done|].
  rewrite !orb_false_iff in *. unfold host_forbidden at 1.
  rewrite !orb_false_iff. tauto.
Qed.

(** ** Printing a canonical origin *)

Lemma digits_avoid f s :
  (∀ a, is_ascii_digit a = true → f a = false) →
  str_all is_ascii_digit s = true → str_any f s = false.
Proof.
  intros Hf Hs. apply str_any_false_all. eapply str_all_impl; [|done].
  intros a Ha. by rewrite Hf.
Qed.

Ltac ascii_cases :=
  let a := fresh "a" in intros a; destruct a as [[] [] [] [] [] [] [] []]; done.

Lemma digits_host n : str_any host_forbidden (show_N n) = false.
Proof. apply digits_avoid; [ascii_cases|apply show_N_digits]. Qed.

Lemma digits_no_colon n : str_contains ":" (show_N n) = false.
Proof. rewrite str_contains_any. apply digits_avoid; [ascii_cases|apply show_N_digits]. Qed.

Lemma display_canonical_host h : canonical_host h → display_fetch_host h = h.
Proof.
  intros (_ & _ & _ & [(inside & -> & _)|[_ Hc]]); unfold display_fetch_host.
  - rewrite starts_with_char. by rewrite andb_false_r.
  - by rewrite Hc.
Qed.

Lemma split_authority_print h port dp :
  canonical_host h → (port ≤ u16_max)%N →
  split_fetch_authority (h +:+ (":" +:+ show_N port)) dp = Ok (h, port).
Proof.
  intros (Hne & _ & _ & Hshape) Hp. unfold split_fetch_authority.
  rewrite starts_with_char_app by done.
  rewrite app_cons_str, app_nil_l_str.
  destruct Hshape as [(inside & -> & Hi)|[Hb Hc]].
  - rewrite starts_with_char. cbn [Ascii.eqb Bool.eqb].
    assert (split_once "]" (String "[" (inside +:+ "]") +:+ String ":" (show_N port))
      = Some (String "[" inside, String ":" (show_N port))) as ->.
    { apply split_once_Some. split; [|by cbn].
      by rewrite !app_cons_str, app_assoc_str, app_cons_str, app_nil_l_str. }
    cbn [String.eqb strip_prefix ok_or mbind result_bind].
    rewrite (ascii_eqb_refl ":"). cbn [ok_or mbind result_bind].
    by rewrite parse_show_N.
  - rewrite Hb, str_count_app. cbn [str_count]. rewrite ascii_eqb_refl.
    apply str_count_0 in Hc as ->. pose proof (digits_no_colon port) as Hd.
    pose proof Hd as Hd'. apply str_count_0 in Hd' as ->.
    cbn [Nat.add Nat.ltb Nat.leb]. rewrite rsplit_once_app by done.
    rewrite (proj2 (String.eqb_neq h "")), (proj2 (String.eqb_neq (show_N port) ""))
      by auto using show_N_nonempty.
    cbn [negb andb]. by rewrite parse_show_N.
Qed.

(** A path (with query) that survives inside a URL: empty, or starting at an
    authority end, without a fragment, a blank or a control byte. *)
Definition path_ok (p : string) : Prop :=
  str_any (λ a, url_forbidden a || Ascii.eqb a "#") p = false ∧
  (p = "" ∨ ∃ a p', p = String a p' ∧ is_authority_end a = true).

Lemma host_forbidden_url s :
  str_any host_forbidden s = false →
  str_any (λ a, url_forbidden a || Ascii.eqb a "#") s = false.
Proof.
  apply str_any_impl_false. intros a. unfold host_forbidden.
  rewrite !orb_true_iff. tauto.
Qed.

Lemma host_forbidden_end s :
  str_any host_forbidden s = false → str_any is_authority_end s = false.
Proof.
  apply str_any_impl_false. intros a. unfold host_forbidden.
  rewrite !orb_true_iff. tauto.
Qed.

Lemma host_forbidden_at s :
  str_any host_forbidden s = false → str_contains "@" s = false.
Proof.
  rewrite str_contains_any. apply str_any_impl_false. intros a. unfold host_forbidden.
  rewrite !orb_true_iff. tauto.
Qed.

Lemma str_any_or f g s :
  str_any (λ a, f a || g a) s = str_any f s || str_any g s.
Proof.
  induction s as [|a s IH]; cbn; [done|]. rewrite IH.
  by destruct (f a), (g a), (str_any f s), (str_any g s).
Qed.

Lemma span_until_end p authority :
  path_ok p → str_any is_authority_end authority = false →
  span_until is_authority_end (authority +:+ p) = (authority, p).
Proof.
  intros [_ [->|(a & p' & -> & Ha)]] Hauth.
  - rewrite app_nil_r_str. by apply span_until_all.
  - by apply span_until_stop.
Qed.

Lemma scheme_parse_print s : Scheme.parse (Scheme.as_str s) = Ok s.
Proof. by destruct s. Qed.

(** A URL written from a canonical origin and a path parses to exactly that
    origin and path. *)
Lemma parse_url_print o p :
  canonical_origin o → path_ok p →
  parse_url (Origin.as_str o +:+ p) false =
    Ok {| url_origin := o; url_path_and_query := path_of_suffix p |}.
Proof.
  intros [Hh Hp] Hpath. destruct o as [s h port]. cbn in *.
  unfold Origin.as_str, parse_url. cbn [origin_scheme origin_host origin_port].
  rewrite display_canonical_host by done. rewrite !app_assoc_str.
  set (auth := h +:+ (":" +:+ show_N port)).
  assert (str_any host_forbidden auth = false) as Hauth.
  { unfold auth. rewrite !str_any_app, digits_host. by destruct Hh as (_ & -> & _). }
  replace (h +:+ (":" +:+ (show_N port +:+ p))) with (auth +:+ p)
    by (unfold auth; by rewrite !app_assoc_str).
  assert (str_any (λ a, url_forbidden a || Ascii.eqb a "#")
    (Scheme.as_str s +:+ ("://" +:+ (auth +:+ p))) = false) as Hclean.
  { rewrite !str_any_app, (host_forbidden_url _ Hauth), (proj1 Hpath).
    by destruct s. }
  rewrite str_any_or, orb_false_iff in Hclean. destruct Hclean as [-> Hfrag].
  cbn [fail_if mbind result_bind andb]. rewrite span_until_all by done. cbn [fst].
  rewrite split_once_str_app by (by destruct s). cbn [ok_or mbind result_bind].
  rewrite scheme_parse_print. cbn [mbind result_bind].
  rewrite span_until_end by auto using host_forbidden_end.
  rewrite (proj2 (String.eqb_neq auth "")), (host_forbidden_at auth Hauth)
    by (unfold auth; destruct h; [by destruct Hh as (? & _)|done]).
  cbn [fail_if mbind result_bind]. unfold auth.
  rewrite split_authority_print by done. cbn.
  by destruct Hh as (_ & _ & -> & _).
Qed.

Lemma parse_url_path input origin_only u :
  parse_url input origin_only = Ok u →
  path_ok (url_path_and_query u) ∧ starts_with "/" (url_path_and_query u) = true.
Proof.
  intros (Hf & _ & st & rest & scheme & authority & suffix & host & port &
    Hs & _ & Hspan & _ & _ & _ & ->)%parse_url_Ok. cbn.
  apply split_once_str_Some in Hs.
  apply span_until_app in Hspan as (-> & _ & Hshape).
  assert (str_any (λ a, url_forbidden a || Ascii.eqb a "#") suffix = false) as Hc.
  { eapply (url_piece_clean input (st +:+ "://") authority suffix ""); [done|].
    by rewrite Hs, !app_assoc_str, app_nil_r_str. }
  destruct Hshape as [->|(a & r & -> & Ha)];
    [split; [split; [done|right; by exists "/"%char, ""]|done]|].
  unfold path_of_suffix. cbn [String.eqb]. rewrite starts_with_char.
  destruct (Ascii.eqb_spec "?" a) as [<-|Hq].
  - split; [split|done]; [by cbn in *|right; by exists "/"%char, (String "?" r)].
  - unfold is_authority_end in Ha. apply orb_true_iff in Ha as [Ha|Ha];
      apply ascii_eqb_eq in Ha as ->; [|done].
    split; [split|done]; [done|right; by exists "/"%char, r].
Qed.

Lemma path_of_rooted p : starts_with "/" p = true → path_of_suffix p = p.
Proof.
  destruct p as [|a p]; [done|]. rewrite starts_with_char.
  intros <-%ascii_eqb_eq. done.
Qed.

Lemma parse_url_origin_only input u :
  parse_url input false = Ok u → str_contains "#" input = false →
  url_path_and_query u = "/" → parse_url input true = Ok u.
Proof.
  unfold parse_url, fail_if, mbind, result_bind. intros H Hfrag Hp. cbn [andb] in *.
  rewrite Hfrag.
  destruct (str_any url_forbidden input); [done|].
  destruct (split_once_str _ _) as [[st rest]|]; [|done]. cbn [ok_or] in *.
  destruct (Scheme.parse st) as [scheme|]; [|done].
  destruct (span_until is_authority_end rest) as [authority suffix].
  destruct (String.eqb authority ""); [done|].
  destruct (str_contains "@" authority); [done|].
  destruct (split_fetch_authority _ _) as [[host port]|]; [|done].
  simplify_eq. cbn in Hp. by rewrite Hp.
Qed.

Lemma origin_parse_print o :
  canonical_origin o → Origin.parse (Origin.as_str o) = Ok o.
Proof.
  intros Ho. unfold Origin.parse.
  assert (parse_url (Origin.as_str o) true
    = Ok {| url_origin := o; url_path_and_query := "/" |}) as ->; [|done].
  apply parse_url_origin_only; [..|done].
  - pose proof (parse_url_print o "" Ho) as H. rewrite app_nil_r_str in H.
    apply H. split; [done|by left].
  - rewrite str_contains_any. destruct o as [s h port], Ho as [Hh Hp].
    unfold Origin.as_str. cbn [origin_scheme origin_host origin_port] in *. rewrite display_canonical_host by done.
    rewrite !str_any_app. destruct Hh as (_ & Hh%host_forbidden_url & _).
    pose proof (digits_host port) as Hd%host_forbidden_url.
    rewrite !str_any_or, !orb_false_iff in Hh, Hd.
    destruct Hh as [_ ->], Hd as [_ ->]. by destruct s.
Qed.

Lemma origin_parse_canonical input o : Origin.parse input = Ok o → canonical_origin o.
Proof.
  unfold Origin.parse. destruct (parse_url input true) as [u|] eqn:E; [|done].
  intros H. apply parse_url_canonical in E. cbn in H.
  destruct (String.eqb _ _); by simplify_eq/=.
Qed.

(** * Theorems *)

(** the printed form of a granted origin is a
    grant of the same origin: parsing an origin, printing it with
    [as_str] and parsing it again gives the first result back, so the
    canonical text identifies the origin. *)
Theorem fetch_origin_roundtrip input o :
  Origin.parse input = Ok o → Origin.parse (Origin.as_str o) = Ok o.
Proof. eauto using origin_parse_print, origin_parse_canonical. Qed.

Lemma fetch_origin_roundtrip_witness :
  Origin.parse "HTTPS://Example.COM" =
    Ok {| origin_scheme := Https; origin_host := "example.com"; origin_port := 443 |} ∧
  Origin.parse "https://example.com:443" =
    Ok {| origin_scheme := Https; origin_host := "example.com"; origin_port := 443 |}.
Proof.
  split; [vm_compute; reflexivity|].
  apply (fetch_origin_roundtrip "HTTPS://Example.COM"
    {| origin_scheme := Https; origin_host := "example.com"; origin_port := 443 |}).
  vm_compute. reflexivity.
Defined.

(** a parsed request URL is in normal form.  Its
    origin is canonical, its path starts with a slash and carries no
    control byte, blank or fragment, and the text built from the origin and
    the path parses to the same request: nothing in the path can move the
    request to another origin. *)
Theorem fetch_url_normal_form input origin_only u :
  parse_url input origin_only = Ok u →
  canonical_origin (url_origin u) ∧
  starts_with "/" (url_path_and_query u) = true ∧
  str_any (λ a, url_forbidden a || Ascii.eqb a "#") (url_path_and_query u) = false ∧
  parse_url (Origin.as_str (url_origin u) +:+ url_path_and_query u) false = Ok u.
Proof.
  intros H. pose proof (parse_url_canonical _ _ _ H) as Ho.
  apply parse_url_path in H as [Hp Hs]. split_and!; [done|done|apply Hp|].
  rewrite parse_url_print by done. rewrite path_of_rooted by done. by destruct u.
Qed.

Lemma fetch_url_normal_form_witness :
  parse_url "http://[::1]:8080?q=@x/y#frag" false =
    Ok {| url_origin := {| origin_scheme := Http; origin_host := "[::1]";
                           origin_port := 8080 |};
          url_path_and_query := "/?q=@x/y" |} ∧
  parse_url "http://[::1]:8080/?q=@x/y" false =
    Ok {| url_origin := {| origin_scheme := Http; origin_host := "[::1]";
                           origin_port := 8080 |};
          url_path_and_query := "/?q=@x/y" |}.
Proof.
  split; [vm_compute; reflexivity|].
  apply (fetch_url_normal_form "http://[::1]:8080?q=@x/y#frag" false
    {| url_origin := {| origin_scheme := Http; origin_host := "[::1]";
                        origin_port := 8080 |};
       url_path_and_query := "/?q=@x/y" |}).
  vm_compute. reflexivity.
Defined.

Lemma header_forbidden_line a :
  a = "010"%char ∨ a = "013"%char ∨ a = "000"%char → header_forbidden a = true.
Proof. by intros [->|[->| ->]]. Qed.

Lemma token_avoids c s :
  is_ascii_alphanumeric c || is_token_punctuation c = false →
  is_http_token s = true → str_contains c s = false.
Proof.
  unfold is_http_token. rewrite andb_true_iff. intros Hc [_ Hs].
  rewrite str_contains_any, str_any_false_all. eapply str_all_impl; [|done].
  intros a Ha. destruct (Ascii.eqb_spec a c) as [->|]; [congruence|done].
Qed.

Lemma value_avoids c s :
  header_forbidden c = true → str_any header_forbidden s = false →
  str_contains c s = false.
Proof.
  intros Hc. rewrite str_contains_any. apply str_any_impl_false.
  by intros a ->%ascii_eqb_eq.
Qed.

(** an accepted header stays one header.  The
    rendered line [name: value] has no carriage return, line feed or NUL,
    splits at its first colon into exactly the accepted name, and the name
    is not, in any letter case, one of the four headers the provider
    writes itself. *)
Theorem fetch_header_no_injection name value :
  validate_fetch_header name value = Ok tt →
  (∀ c, c = "010"%char ∨ c = "013"%char ∨ c = "000"%char →
     str_contains c (name +:+ (": " +:+ value)) = false) ∧
  split_once ":" (name +:+ (": " +:+ value)) = Some (name, " " +:+ value) ∧
  to_ascii_lowercase name ∉
    ["host"; "connection"; "content-length"; "transfer-encoding"].
Proof.
  unfold validate_fetch_header, validate_http_header_syntax. intros H.
  destruct (is_http_token name) eqn:Hn; [|done]. cbn in H.
  destruct (str_any header_forbidden value) eqn:Hv; [done|]. cbn in H.
  destruct (provider_controlled name) eqn:Hp; [done|]. split_and!.
  - intros c Hc. rewrite !str_contains_app, orb_false_iff. split.
    { apply token_avoids; [|done]. by destruct Hc as [->|[->| ->]]. }
    rewrite (value_avoids c value) by auto using header_forbidden_line.
    by destruct Hc as [->|[->| ->]].
  - apply split_once_Some. split; [done|]. by apply token_avoids.
  - unfold provider_controlled, eq_ignore_ascii_case in Hp.
    rewrite !orb_false_iff in Hp. destruct Hp as [[[H1 H2] H3] H4].
    apply String.eqb_neq in H1, H2, H3, H4. rewrite !elem_of_cons, elem_of_nil. tauto.
Qed.

Lemma fetch_header_no_injection_witness :
  validate_fetch_header "X-Trace" "a b" = Ok tt ∧
  split_once ":" "X-Trace: a b" = Some ("X-Trace", " a b").
Proof.
  split; [vm_compute; reflexivity|].
  apply (fetch_header_no_injection "X-Trace" "a b"). vm_compute. reflexivity.
Defined.
