(* ===== verification/Address.v ===== *)
(** * Address: the IP address grammar of the standard library

    Models what the network policies use of [std::net]: parsing of
    [Ipv4Addr] and [Ipv6Addr] (decimal octets without leading zeros, groups
    of up to four hexadecimal digits, one [::], a trailing embedded IPv4
    address), the IPv4-mapped range, and the textual form of a socket
    address.  An IPv4 address is its [u32], an IPv6 address its [u128].  A
    reader takes the unread text and returns the value and the new rest; the
    library's [read_atomically] is then the ordinary [None]. *)

From S2P Require Import Prelude Text.

Local Open Scope string_scope.

Abbreviation Ipv4Addr := N.
Abbreviation Ipv6Addr := N.

(** ** Readers *)

(** [c.to_digit(radix)] *)
Definition to_digit (radix : N) (a : ascii) : option N :=
  let v := if is_ascii_digit a then Some (N_of_ascii a - 48)%N
           else if is_ascii_lower a then Some (N_of_ascii a - 87)%N
           else if is_ascii_upper a then Some (N_of_ascii a - 55)%N
           else None in
  d ← v; if (d <? radix)%N then Some d else None.

(** The digit loop of [read_number]: [None] when there are more than
    [max_digits]. *)
Fixpoint read_digits (radix : N) (max_digits count : nat) (acc : N) (s : string)
    : option (N * nat * string) :=
  match s with
  | "" => Some (acc, count, "")
  | String a s' =>
      match to_digit radix a with
      | None => Some (acc, count, s)
      | Some d =>
          if (max_digits <? S count)%nat then None
          else read_digits radix max_digits (S count) (acc * radix + d) s'
      end
  end.

Definition read_number (radix : N) (max_digits : nat) (allow_zero_prefix : bool) (limit : N)
    (s : string) : option (N * string) :=
  let has_leading_zero := starts_with "0" s in
  '(v, count, rest) ← read_digits radix max_digits 0 0 s;
  if (count =? 0)%nat then None
  else if negb allow_zero_prefix && has_leading_zero && (1 <? count)%nat then None
  else if (v <=? limit)%N then Some (v, rest) else None.

Definition read_given_char (c : ascii) (s : string) : option string :=
  strip_prefix (String c "") s.

Definition read_separator {A} (sep : ascii) (index : nat) (inner : string → option (A * string))
    (s : string) : option (A * string) :=
  s ← match index with O => Some s | S _ => read_given_char sep s end;
  inner s.

Definition read_octet (i : nat) : string → option (N * string) :=
  read_separator "." i (read_number 10 3 false u8_max).

Definition read_ipv4_addr (s : string) : option (Ipv4Addr * string) :=
  '(a, s) ← read_octet 0 s;
  '(b, s) ← read_octet 1 s;
  '(c, s) ← read_octet 2 s;
  '(d, s) ← read_octet 3 s;
  Some (((a * 256 + b) * 256 + c) * 256 + d, s)%N.

Definition read_group (i : nat) : string → option (N * string) :=
  read_separator ":" i (read_number 16 4 true u16_max).

(** [read_groups] from index [i] on, with [slots] groups left: the groups
    read, whether an embedded IPv4 address ended them, and the rest. *)
Fixpoint read_groups (slots i : nat) (s : string) : list N * bool * string :=
  match slots with
  | O => ([], false, s)
  | S more =>
      match (if (more =? 0)%nat then None else read_separator ":" i read_ipv4_addr s) with
      | Some (v4, rest) => ([v4 / 65536; v4 mod 65536]%N, true, rest)
      | None =>
          match read_group i s with
          | None => ([], false, s)
          | Some (g, rest) =>
              let '(gs, v4, rest) := read_groups more (S i) rest in (g :: gs, v4, rest)
          end
      end
  end.

Definition of_groups (gs : list N) : Ipv6Addr :=
  List.fold_left (λ acc g, acc * 65536 + g)%N gs 0%N.

Definition read_ipv6_addr (s : string) : option (Ipv6Addr * string) :=
  let '(head, head_ipv4, rest) := read_groups 8 0 s in
  if (length head =? 8)%nat then Some (of_groups head, rest)
  else if head_ipv4 then None
  else
    rest ← read_given_char ":" rest;
    rest ← read_given_char ":" rest;
    let '(tail, _, rest) := read_groups (8 - (length head + 1)) 0 rest in
    Some (of_groups (head ++ replicate (8 - length head - length tail) 0%N ++ tail)%list, rest).

(** [parse_with]: the whole text must have been read. *)
Definition parse_with {A} (inner : string → option (A * string)) (s : string) : option A :=
  '(v, rest) ← inner s;
  if String.eqb rest "" then Some v else None.

(** [s.parse::<Ipv4Addr>()] *)
Definition parse_ipv4 (s : string) : option Ipv4Addr :=
  if (15 <? String.length s)%nat then None else parse_with read_ipv4_addr s.

(** [s.parse::<Ipv6Addr>()] *)
Definition parse_ipv6 (s : string) : option Ipv6Addr := parse_with read_ipv6_addr s.

Definition to_ipv4_mapped (ip : Ipv6Addr) : option Ipv4Addr :=
  if (ip / 2 ^ 32 =? 65535)%N then Some (ip mod 2 ^ 32)%N else None.

(** ** Printing *)

Inductive IpAddr : Set := V4 (ip : Ipv4Addr) | V6 (ip : Ipv6Addr).

#[export] Instance ip_addr_eq_dec : EqDecision IpAddr.
Proof. solve_decision. Defined.

(** [SocketAddr]: an address and a port, with the scope of an IPv6 one. *)
Inductive SocketAddr : Set :=
  | SocketV4 (ip : Ipv4Addr) (port : N)
  | SocketV6 (ip : Ipv6Addr) (port scope_id : N).

Definition socket_ip (sa : SocketAddr) : IpAddr :=
  match sa with SocketV4 ip _ => V4 ip | SocketV6 ip _ _ => V6 ip end.

Definition show_ipv4 (ip : Ipv4Addr) : string :=
  show_N (ip / 2 ^ 24) +:+ "." +:+ show_N (ip / 2 ^ 16 mod 256) +:+ "." +:+
  show_N (ip / 2 ^ 8 mod 256) +:+ "." +:+ show_N (ip mod 256).

(** One group in lower-case hexadecimal without leading zeros. *)
Definition hex_char (d : N) : ascii :=
  if (d <? 10)%N then ascii_of_N (48 + d) else ascii_of_N (87 + d).

Fixpoint skip_zeroes (l : list N) : list N :=
  match l with
  | d :: rest => match rest with
                 | [] => l
                 | _ :: _ => if (d =? 0)%N then skip_zeroes rest else l
                 end
  | [] => []
  end.

Definition show_group (g : N) : string :=
  List.fold_right (λ d s, String (hex_char d) s) ""
    (skip_zeroes [g / 4096; g / 256 mod 16; g / 16 mod 16; g mod 16]%N).

Definition groups_of (ip : Ipv6Addr) : list N :=
  map (λ i, ip / 65536 ^ (7 - i) mod 65536)%N [0; 1; 2; 3; 4; 5; 6; 7]%N.

(** The first longest run of zero groups: where it starts and its length. *)
Fixpoint longest_zeroes (i : nat) (current longest : nat * nat) (gs : list N) : nat * nat :=
  match gs with
  | [] => longest
  | g :: gs =>
      if (g =? 0)%N then
        let current := if (snd current =? 0)%nat then (i, 1%nat)
                       else (fst current, S (snd current)) in
        longest_zeroes (S i) current
          (if (snd longest <? snd current)%nat then current else longest) gs
      else longest_zeroes (S i) (0, 0)%nat longest gs
  end.

Definition show_ipv6 (ip : Ipv6Addr) : string :=
  match to_ipv4_mapped ip with
  | Some v4 => "::ffff:" +:+ show_ipv4 v4
  | None =>
      let gs := groups_of ip in
      let '(start, len) := longest_zeroes 0 (0, 0)%nat (0, 0)%nat gs in
      if (1 <? len)%nat then
        join_char ":" (map show_group (take start gs)) +:+ "::" +:+
        join_char ":" (map show_group (drop (start + len) gs))
      else join_char ":" (map show_group gs)
  end.

(** [sa.to_string()] *)
Definition show_socket (sa : SocketAddr) : string :=
  match sa with
  | SocketV4 ip port => show_ipv4 ip +:+ ":" +:+ show_N port
  | SocketV6 ip port scope_id =>
      if (scope_id =? 0)%N then "[" +:+ show_ipv6 ip +:+ "]:" +:+ show_N port
      else "[" +:+ show_ipv6 ip +:+ "%" +:+ show_N scope_id +:+ "]:" +:+ show_N port
  end.

Example parse_examples :
  parse_ipv4 "10.0.0.1" = Some 167772161%N ∧ parse_ipv4 "10.0.0.01" = None ∧
  parse_ipv4 "10.0.0.256" = None ∧ parse_ipv4 "1.2.3" = None ∧
  parse_ipv6 "::" = Some 0%N ∧ parse_ipv6 "::1" = Some 1%N ∧
  parse_ipv6 "fe80::1" = Some (65152 * 2 ^ 112 + 1)%N ∧
  parse_ipv6 "1:2:3:4:5:6:7:8" = Some (of_groups [1; 2; 3; 4; 5; 6; 7; 8]%N) ∧
  parse_ipv6 "1:2:3:4:5:6:7::8" = None ∧ parse_ipv6 "1:2:3:4:5:6:7::" = Some (of_groups [1; 2; 3; 4; 5; 6; 7; 0]%N) ∧
  parse_ipv6 "::ffff:10.0.0.1" = Some (65535 * 2 ^ 32 + 167772161)%N ∧
  parse_ipv6 "1::2::3" = None ∧ parse_ipv6 "12345::" = None ∧
  show_socket (SocketV6 (65152 * 2 ^ 112 + 1)%N 80 0) = "[fe80::1]:80" ∧
  show_socket (SocketV6 (65535 * 2 ^ 32 + 167772161)%N 80 3) = "[::ffff:10.0.0.1%3]:80" ∧
  show_socket (SocketV4 167772161%N 443) = "10.0.0.1:443".
Proof. vm_compute. repeat split. Qed.

(** * Lemmas *)

(** The characters an address is written with. *)
Definition ip_char (a : ascii) : bool :=
  match to_digit 16 a with Some _ => true | None => Ascii.eqb a ":" || Ascii.eqb a "." end.
Definition v4_char (a : ascii) : bool := is_ascii_digit a || Ascii.eqb a ".".

(** A reader that reads only such characters. *)
Definition reads {A} (f : ascii → bool) (r : string → option (A * string)) : Prop :=
  ∀ s v rest, r s = Some (v, rest) → ∃ pre, s = pre +:+ rest ∧ str_all f pre = true.

(** A reader that does not see the case of letters. *)
Definition caseless {A} (r : string → option (A * string)) : Prop :=
  ∀ s, r (to_ascii_lowercase s) = (λ '(v, rest), (v, to_ascii_lowercase rest)) <$> r s.

Lemma to_digit_lower radix a : to_digit radix (ascii_to_lower a) = to_digit radix a.
Proof. destruct a as [[] [] [] [] [] [] [] []]; reflexivity. Qed.

Lemma to_digit_10 a d : to_digit 10 a = Some d → is_ascii_digit a = true.
Proof.
  unfold to_digit. destruct (is_ascii_digit a) eqn:Hd; [done|].
  destruct (is_ascii_lower a) eqn:Hl; [|destruct (is_ascii_upper a) eqn:Hu; [|done]]; cbn.
  - unfold is_ascii_lower in Hl. apply andb_true_iff in Hl as [Hge%N.leb_le _].
    destruct (N.ltb_spec (N_of_ascii a - 87) 10); [lia|done].
  - unfold is_ascii_upper in Hu. apply andb_true_iff in Hu as [Hge%N.leb_le _].
    destruct (N.ltb_spec (N_of_ascii a - 55) 10); [lia|done].
Qed.

Lemma ascii_to_lower_other a c :
  is_ascii_lower c = false → is_ascii_upper c = false →
  Ascii.eqb (ascii_to_lower a) c = Ascii.eqb a c.
Proof.
  intros Hl Hu. unfold ascii_to_lower. destruct (is_ascii_upper a) eqn:Ha; [|done].
  apply eq_true_iff_eq. rewrite !ascii_eqb_eq. split.
  - intros <-. exfalso. revert Ha Hl. clear. destruct a as [[] [] [] [] [] [] [] []]; done.
  - intros ->. congruence.
Qed.

Lemma read_digits_spec radix f max count acc s v n rest :
  (∀ a d, to_digit radix a = Some d → f a = true) →
  read_digits radix max count acc s = Some (v, n, rest) →
  ∃ pre, s = pre +:+ rest ∧ str_all f pre = true.
Proof.
  intros Hf. revert count acc. induction s as [|a s IH]; intros count acc; cbn [read_digits].
  { intros [= <- <- <-]. by exists "". }
  destruct (to_digit radix a) as [d|] eqn:Hd; [|intros [= <- <- <-]; by exists ""].
  case_match; [done|]. intros (pre & -> & Hp)%IH. exists (String a pre). split; [done|].
  cbn. rewrite Hp, andb_true_r. eauto.
Qed.

Lemma read_digits_lower radix max count acc s :
  read_digits radix max count acc (to_ascii_lowercase s) =
  (λ '(v, n, rest), (v, n, to_ascii_lowercase rest)) <$> read_digits radix max count acc s.
Proof.
  revert count acc. induction s as [|a s IH]; intros count acc; cbn [read_digits to_ascii_lowercase];
    [done|]. rewrite to_digit_lower. destruct (to_digit radix a); [|done]. case_match; [done|]. apply IH.
Qed.

Lemma starts_with_lower c s :
  is_ascii_lower c = false → is_ascii_upper c = false →
  starts_with (String c "") (to_ascii_lowercase s) = starts_with (String c "") s.
Proof.
  intros Hl Hu. destruct s as [|a s]; [done|]. cbn [to_ascii_lowercase].
  rewrite !starts_with_char, !(Ascii.eqb_sym c). by apply ascii_to_lower_other.
Qed.

Lemma read_number_reads radix max zero limit f :
  (∀ a d, to_digit radix a = Some d → f a = true) → reads f (read_number radix max zero limit).
Proof.
  intros Hf s v rest. unfold read_number.
  destruct (read_digits radix max 0 0 s) as [[[w n] r]|] eqn:Hr; [|done]. cbn.
  repeat case_match; try done; intros [= <- <-]; by eapply read_digits_spec.
Qed.

Lemma read_number_caseless radix max zero limit : caseless (read_number radix max zero limit).
Proof.
  intros s. unfold read_number. rewrite read_digits_lower, starts_with_lower by done.
  destruct (read_digits radix max 0 0 s) as [[[w n] r]|]; [|done]. cbn.
  by repeat case_match.
Qed.

Lemma read_given_char_lower c s :
  is_ascii_lower c = false → is_ascii_upper c = false →
  read_given_char c (to_ascii_lowercase s) = to_ascii_lowercase <$> read_given_char c s.
Proof.
  intros Hl Hu. unfold read_given_char. destruct s as [|a s]; [done|]. cbn.
  rewrite !(Ascii.eqb_sym c), ascii_to_lower_other by done. by destruct (Ascii.eqb a c).
Qed.

Lemma read_separator_reads {A} f c i (r : string → option (A * string)) :
  f c = true → reads f r → reads f (read_separator c i r).
Proof.
  intros Hc Hr s v rest. unfold read_separator, read_given_char. destruct i as [|i]; cbn; [apply Hr|].
  destruct s as [|a s]; [done|]. destruct (Ascii.eqb c a) eqn:He; [|done]. cbn.
  apply ascii_eqb_eq in He as <-. intros (pre & -> & Hp)%Hr. exists (String c pre).
  split; [done|]. cbn. by rewrite Hc.
Qed.

Lemma read_separator_caseless {A} c i (r : string → option (A * string)) :
  is_ascii_lower c = false → is_ascii_upper c = false → caseless r →
  caseless (read_separator c i r).
Proof.
  intros Hl Hu Hr s. unfold read_separator. destruct i as [|i]; [apply Hr|].
  rewrite read_given_char_lower by done. destruct (read_given_char c s); cbn; [apply Hr|done].
Qed.

Lemma reads_app {A} f (r : string → option (A * string)) s v rest pre0 :
  reads f r → r s = Some (v, rest) → str_all f pre0 = true →
  ∃ pre, pre0 +:+ s = pre +:+ rest ∧ str_all f pre = true.
Proof.
  intros Hr (pre & -> & Hp)%Hr H0. exists (pre0 +:+ pre). rewrite app_assoc_str, str_all_app, H0.
  done.
Qed.

Lemma to_digit_16_ip a d : to_digit 16 a = Some d → ip_char a = true.
Proof. intros H. unfold ip_char. by rewrite H. Qed.

Lemma v4_char_ip a : v4_char a = true → ip_char a = true.
Proof. destruct a as [[] [] [] [] [] [] [] []]; done. Qed.

Lemma reads_weaken {A} (f g : ascii → bool) (r : string → option (A * string)) :
  (∀ a, f a = true → g a = true) → reads f r → reads g r.
Proof. intros Hfg Hr s v rest (pre & -> & Hp)%Hr. exists pre. eauto using str_all_impl. Qed.

Lemma read_octet_reads i : reads v4_char (read_octet i).
Proof.
  apply read_separator_reads; [done|]. apply read_number_reads. intros a d H%to_digit_10.
  unfold v4_char. by rewrite H.
Qed.

Lemma read_ipv4_addr_reads : reads v4_char read_ipv4_addr.
Proof.
  intros s v rest. unfold read_ipv4_addr.
  destruct (read_octet 0 s) as [[a s1]|] eqn:H1; [|done]. cbn [mbind option_bind].
  destruct (read_octet 1 s1) as [[b s2]|] eqn:H2; [|done]. cbn [mbind option_bind].
  destruct (read_octet 2 s2) as [[c s3]|] eqn:H3; [|done]. cbn [mbind option_bind].
  destruct (read_octet 3 s3) as [[d s4]|] eqn:H4; [|done]. cbn. intros [= _ <-].
  apply read_octet_reads in H1 as (p1 & -> & Hp1), H2 as (p2 & -> & Hp2),
    H3 as (p3 & -> & Hp3), H4 as (p4 & -> & Hp4).
  exists (p1 +:+ p2 +:+ p3 +:+ p4). by rewrite !app_assoc_str, !str_all_app, Hp1, Hp2, Hp3, Hp4.
Qed.

Lemma read_octet_caseless i : caseless (read_octet i).
Proof. apply read_separator_caseless; [done..|]. apply read_number_caseless. Qed.

Lemma read_ipv4_addr_caseless : caseless read_ipv4_addr.
Proof.
  intros s. unfold read_ipv4_addr.
  rewrite read_octet_caseless. destruct (read_octet 0 s) as [[a s1]|]; [|done]. cbn [mbind option_bind fmap option_fmap option_map].
  rewrite read_octet_caseless. destruct (read_octet 1 s1) as [[b s2]|]; [|done]. cbn [mbind option_bind fmap option_fmap option_map].
  rewrite read_octet_caseless. destruct (read_octet 2 s2) as [[c s3]|]; [|done]. cbn [mbind option_bind fmap option_fmap option_map].
  rewrite read_octet_caseless. by destruct (read_octet 3 s3) as [[d s4]|].
Qed.

Lemma read_group_reads i : reads ip_char (read_group i).
Proof. apply read_separator_reads; [done|]. apply read_number_reads, to_digit_16_ip. Qed.

Lemma read_group_caseless i : caseless (read_group i).
Proof. apply read_separator_caseless; [done..|]. apply read_number_caseless. Qed.

Lemma read_embedded_reads i : reads ip_char (read_separator ":" i read_ipv4_addr).
Proof.
  apply read_separator_reads; [done|]. eapply reads_weaken; [exact v4_char_ip|].
  apply read_ipv4_addr_reads.
Qed.

Lemma read_groups_reads slots i s gs v4 rest :
  read_groups slots i s = (gs, v4, rest) →
  (length gs ≤ slots)%nat ∧ ∃ pre, s = pre +:+ rest ∧ str_all ip_char pre = true.
Proof.
  revert i s gs v4 rest. induction slots as [|more IH]; intros i s gs v4 rest; cbn [read_groups].
  { intros [= <- <- <-]. split; [done|]. by exists "". }
  destruct (if (more =? 0)%nat then None else _) as [[w r]|] eqn:He.
  - intros [= <- <- <-]. destruct (Nat.eqb_spec more 0); [done|].
    split; [cbn; lia|]. by eapply read_embedded_reads.
  - destruct (read_group i s) as [[g r]|] eqn:Hg; [|intros [= <- <- <-]; split; [cbn; lia|by exists ""]].
    destruct (read_groups more (S i) r) as [[gs' v4'] rest'] eqn:Hr. intros [= <- <- <-].
    apply IH in Hr as (Hlen & pre' & -> & Hp'). split; [cbn; lia|].
    apply read_group_reads in Hg as (pre & -> & Hp). exists (pre +:+ pre').
    by rewrite app_assoc_str, str_all_app, Hp, Hp'.
Qed.

Lemma read_groups_lower slots i s :
  read_groups slots i (to_ascii_lowercase s) =
  (let '(gs, v4, rest) := read_groups slots i s in (gs, v4, to_ascii_lowercase rest)).
Proof.
  revert i s. induction slots as [|more IH]; intros i s; cbn [read_groups]; [done|].
  rewrite (read_separator_caseless ":" _ _ eq_refl eq_refl read_ipv4_addr_caseless).
  destruct (more =? 0)%nat; [|destruct (read_separator ":" i read_ipv4_addr s) as [[w r]|]; [done|]];
    (cbn [fmap option_fmap option_map]; rewrite read_group_caseless; destruct (read_group i s) as [[g r]|]; cbn [fmap option_fmap option_map]; [|done];
     rewrite IH; by destruct (read_groups more (S i) r) as [[gs v4] rest]).
Qed.

Lemma read_given_char_Some c s rest : read_given_char c s = Some rest ↔ s = String c rest.
Proof. unfold read_given_char. by rewrite strip_prefix_Some. Qed.

Lemma read_ipv6_addr_reads : reads ip_char read_ipv6_addr.
Proof.
  intros s v rest. unfold read_ipv6_addr.
  destruct (read_groups 8 0 s) as [[head b] r0] eqn:Hh.
  apply read_groups_reads in Hh as (_ & p0 & -> & Hp0).
  destruct (length head =? 8)%nat; [intros [= _ <-]; by exists p0|]. destruct b; [done|].
  destruct (read_given_char ":" r0) as [r1|] eqn:H1; [|done]. cbn [mbind option_bind fmap option_fmap option_map].
  destruct (read_given_char ":" r1) as [r2|] eqn:H2; [|done]. cbn [mbind option_bind fmap option_fmap option_map].
  apply read_given_char_Some in H1 as ->, H2 as ->.
  destruct (read_groups _ 0 r2) as [[tail b2] r3] eqn:Ht. intros [= _ <-].
  apply read_groups_reads in Ht as (_ & p3 & -> & Hp3).
  exists (p0 +:+ ("::" +:+ p3)). rewrite app_assoc_str, str_all_app, Hp0. split; [done|]. exact Hp3.
Qed.

Lemma read_ipv6_addr_caseless : caseless read_ipv6_addr.
Proof.
  intros s. unfold read_ipv6_addr. rewrite read_groups_lower.
  destruct (read_groups 8 0 s) as [[head b] r0].
  destruct (length head =? 8)%nat; [done|]. destruct b; [done|].
  rewrite read_given_char_lower by done. destruct (read_given_char ":" r0) as [r1|]; [|done]. cbn [mbind option_bind fmap option_fmap option_map].
  rewrite read_given_char_lower by done. destruct (read_given_char ":" r1) as [r2|]; [|done]. cbn [mbind option_bind fmap option_fmap option_map].
  rewrite read_groups_lower. by destruct (read_groups _ 0 r2) as [[tail b2] r3].
Qed.

Lemma parse_with_reads {A} f (r : string → option (A * string)) s v :
  reads f r → parse_with r s = Some v → str_all f s = true.
Proof.
  intros Hr. unfold parse_with. destruct (r s) as [[w rest]|] eqn:Hs; [|done]. cbn [mbind option_bind].
  destruct (String.eqb_spec rest ""); [|done]. subst. intros _.
  apply Hr in Hs as (pre & -> & Hp). by rewrite app_nil_r_str.
Qed.

Lemma parse_with_lower {A} (r : string → option (A * string)) s :
  caseless r → parse_with r (to_ascii_lowercase s) = parse_with r s.
Proof.
  intros Hr. unfold parse_with. rewrite Hr. destruct (r s) as [[w rest]|]; [|done]. cbn [mbind option_bind].
  by destruct rest.
Qed.

Lemma length_lower s : String.length (to_ascii_lowercase s) = String.length s.
Proof. induction s as [|a s IH]; cbn; congruence. Qed.

(** ** What the policies use of the parsers *)

Lemma parse_ipv4_chars s v : parse_ipv4 s = Some v → str_all v4_char s = true.
Proof.
  unfold parse_ipv4. case_match; [done|]. apply parse_with_reads, read_ipv4_addr_reads.
Qed.

Lemma parse_ipv6_chars s v : parse_ipv6 s = Some v → str_all ip_char s = true.
Proof. apply parse_with_reads, read_ipv6_addr_reads. Qed.

Lemma parse_ipv4_lower s : parse_ipv4 (to_ascii_lowercase s) = parse_ipv4 s.
Proof.
  unfold parse_ipv4. rewrite length_lower, parse_with_lower; [done|]. apply read_ipv4_addr_caseless.
Qed.

Lemma parse_ipv6_lower s : parse_ipv6 (to_ascii_lowercase s) = parse_ipv6 s.
Proof. apply parse_with_lower, read_ipv6_addr_caseless. Qed.

Lemma read_separator_no_sep {A} c i (r : string → option (A * string)) s :
  str_contains c s = false → read_separator c (S i) r s = None.
Proof.
  intros Hs. unfold read_separator. destruct (read_given_char c s) as [rest|] eqn:H; [|done].
  apply read_given_char_Some in H as ->. cbn in Hs. by rewrite ascii_eqb_refl in Hs.
Qed.

Lemma read_groups_no_colon slots i s :
  str_contains ":" s = false → read_groups slots (S i) s = ([], false, s).
Proof.
  intros Hs. destruct slots as [|more]; [done|]. cbn [read_groups]. unfold read_group.
  rewrite !read_separator_no_sep by done. by destruct (more =? 0)%nat.
Qed.

Lemma read_groups_start_no_colon more s head v4 rest :
  str_contains ":" s = false → read_groups (S more) 0 s = (head, v4, rest) →
  (length head ≤ 2)%nat ∧ str_contains ":" rest = false.
Proof.
  intros Hs Hr. pose proof (read_groups_reads _ _ _ _ _ _ Hr) as (_ & pre & He & _).
  rewrite He, str_contains_app in Hs. apply orb_false_iff in Hs as [Hpre Hrest]. split; [|done].
  cbn [read_groups] in Hr.
  destruct (if (more =? 0)%nat then None else _) as [[w r]|]; [by injection Hr as <- <- <-|].
  destruct (read_group 0 s) as [[g r]|] eqn:Hg; [|injection Hr as <- <- <-; cbn; lia].
  rewrite read_groups_no_colon in Hr; [injection Hr as <- <- <-; cbn; lia|].
  apply read_group_reads in Hg as (pre' & He' & _). rewrite He' in He.
  assert (str_contains ":" (pre +:+ rest) = false) as Hall by (by rewrite str_contains_app, Hpre).
  rewrite <- He, str_contains_app in Hall. by apply orb_false_iff in Hall as [_ ?].
Qed.

(** An IPv6 address is written with a colon. *)
Lemma parse_ipv6_colon s v : parse_ipv6 s = Some v → str_contains ":" s = true.
Proof.
  destruct (str_contains ":" s) eqn:Hs; [done|]. unfold parse_ipv6, parse_with.
  enough (read_ipv6_addr s = None) as ->; [done|]. unfold read_ipv6_addr.
  destruct (read_groups 8 0 s) as [[head v4] rest] eqn:Hr.
  apply read_groups_start_no_colon in Hr as [Hlen Hrest]; [|done].
  destruct (Nat.eqb_spec (length head) 8); [lia|]. destruct v4; [done|].
  destruct (read_given_char ":" rest) as [r|] eqn:H; [|done].
  by apply read_given_char_Some in H as ->.
Qed.

Lemma str_all_contains f c s : str_all f s = true → f c = false → str_contains c s = false.
Proof.
  intros Hs Hc. induction s as [|a s IH]; [done|]. cbn in Hs |- *.
  apply andb_true_iff in Hs as [Ha Hs]. rewrite IH by done.
  destruct (Ascii.eqb a c) eqn:He; [|done]. apply ascii_eqb_eq in He. congruence.
Qed.

Lemma parse_ipv4_not_ipv6 s v : parse_ipv4 s = Some v → parse_ipv6 s = None.
Proof.
  intros H. destruct (parse_ipv6 s) as [w|] eqn:H6; [|done]. exfalso.
  apply parse_ipv6_colon in H6. apply parse_ipv4_chars in H.
  by rewrite (str_all_contains _ ":" _ H) in H6.
Qed.

(** ** Widths *)

Lemma read_number_bound radix max zero limit s v rest :
  read_number radix max zero limit s = Some (v, rest) → (v ≤ limit)%N.
Proof.
  unfold read_number. destruct (read_digits radix max 0 0 s) as [[[w n] r]|]; [|done].
  cbn [mbind option_bind]. repeat case_match; try done. intros [= <- <-]. by apply N.leb_le.
Qed.

Lemma read_separator_bound c i limit (r : string → option (N * string)) s v rest :
  (∀ s v rest, r s = Some (v, rest) → (v ≤ limit)%N) →
  read_separator c i r s = Some (v, rest) → (v ≤ limit)%N.
Proof.
  intros Hr. unfold read_separator. destruct i; [apply Hr|].
  destruct (read_given_char c s); [apply Hr|done].
Qed.

Lemma read_octet_bound i s v rest : read_octet i s = Some (v, rest) → (v ≤ 255)%N.
Proof. apply read_separator_bound. intros *. apply read_number_bound. Qed.

Lemma read_ipv4_addr_bound s v rest : read_ipv4_addr s = Some (v, rest) → (v ≤ 2 ^ 32 - 1)%N.
Proof.
  unfold read_ipv4_addr.
  destruct (read_octet 0 s) as [[a s1]|] eqn:H1; [|done]. cbn [mbind option_bind].
  destruct (read_octet 1 s1) as [[b s2]|] eqn:H2; [|done]. cbn [mbind option_bind].
  destruct (read_octet 2 s2) as [[c s3]|] eqn:H3; [|done]. cbn [mbind option_bind].
  destruct (read_octet 3 s3) as [[d s4]|] eqn:H4; [|done]. cbn [mbind option_bind].
  apply read_octet_bound in H1, H2, H3, H4.
  intros [= <- _]. change (2 ^ 32 - 1)%N with 4294967295%N. lia.
Qed.

Lemma read_groups_bound slots i s gs v4 rest :
  read_groups slots i s = (gs, v4, rest) → Forall (λ g, g < 65536)%N gs.
Proof.
  revert i s gs v4 rest. induction slots as [|more IH]; intros i s gs v4 rest; cbn [read_groups].
  { by intros [= <- <- <-]. }
  destruct (if (more =? 0)%nat then None else _) as [[w r]|] eqn:He.
  - intros [= <- <- <-]. destruct (more =? 0)%nat; [done|].
    apply (read_separator_bound _ _ _ _ _ _ _ read_ipv4_addr_bound) in He.
    change (2 ^ 32 - 1)%N with 4294967295%N in He.
    repeat constructor; [apply N.Div0.div_lt_upper_bound; lia|by apply N.mod_lt].
  - destruct (read_group i s) as [[g r]|] eqn:Hg; [|by intros [= <- <- <-]].
    destruct (read_groups more (S i) r) as [[gs' v4'] rest'] eqn:Hr. intros [= <- <- <-].
    constructor; [|by eapply IH].
    apply (read_separator_bound _ _ u16_max) in Hg; [unfold u16_max in Hg; lia|].
    intros *. apply read_number_bound.
Qed.

Lemma of_groups_bound gs :
  Forall (λ g, g < 65536)%N gs → (of_groups gs < 2 ^ (16 * N.of_nat (length gs)))%N.
Proof.
  unfold of_groups. induction gs as [|g gs IH] using rev_ind; [done|].
  rewrite Forall_app, Forall_singleton. intros [Hgs Hg]. specialize (IH Hgs).
  rewrite fold_left_app, length_app. cbn [List.fold_left length].
  replace (16 * N.of_nat (length gs + 1))%N with (16 * N.of_nat (length gs) + 16)%N by lia.
  rewrite N.pow_add_r. change (2 ^ 16)%N with 65536%N. nia.
Qed.

Lemma parse_with_inv {A} (r : string → option (A * string)) s v :
  parse_with r s = Some v → r s = Some (v, "").
Proof.
  unfold parse_with. destruct (r s) as [[w rest]|]; [|done]. cbn [mbind option_bind].
  destruct (String.eqb_spec rest ""); [|done]. by intros [= <-]; subst.
Qed.

Lemma parse_ipv4_bound s v : parse_ipv4 s = Some v → (v < 2 ^ 32)%N.
Proof.
  unfold parse_ipv4. case_match; [done|]. intros Hv%parse_with_inv%read_ipv4_addr_bound.
  change (2 ^ 32 - 1)%N with 4294967295%N in Hv. change (2 ^ 32)%N with 4294967296%N. lia.
Qed.

Lemma parse_ipv6_bound s v : parse_ipv6 s = Some v → (v < 2 ^ 128)%N.
Proof.
  intros H%parse_with_inv. unfold read_ipv6_addr in H.
  destruct (read_groups 8 0 s) as [[head b] r0] eqn:Hh.
  pose proof (proj1 (read_groups_reads _ _ _ _ _ _ Hh)) as Hl. apply read_groups_bound in Hh.
  destruct (Nat.eqb_spec (length head) 8) as [H8|H8].
  { injection H as <- _. apply of_groups_bound in Hh. by rewrite H8 in Hh. }
  destruct b; [done|].
  destruct (read_given_char ":" r0) as [r1|]; [|done]. cbn [mbind option_bind] in H.
  destruct (read_given_char ":" r1) as [r2|]; [|done]. cbn [mbind option_bind] in H.
  destruct (read_groups _ 0 r2) as [[tail b2] r3] eqn:Ht.
  pose proof (proj1 (read_groups_reads _ _ _ _ _ _ Ht)) as Htl. apply read_groups_bound in Ht.
  injection H as <- _.
  assert (Hz : Forall (λ g, g < 65536)%N (replicate (8 - length head - length tail) 0%N)).
  { by apply Forall_replicate. }
  pose proof (of_groups_bound _ (Forall_app_2 _ _ _ Hh (Forall_app_2 _ _ _ Hz Ht))) as Hb.
  rewrite !length_app, length_replicate in Hb.
  by replace (length head + (8 - length head - length tail + length tail))%nat with 8%nat in Hb by lia.
Qed.

Lemma to_ipv4_mapped_bound ip v : to_ipv4_mapped ip = Some v → (v < 2 ^ 32)%N.
Proof. unfold to_ipv4_mapped. case_match; [|done]. intros [= <-]. by apply N.mod_lt. Qed.

(** ** Printing and parsing IPv4 *)

(** The text does not go on with a digit. *)
Definition no_digit (radix : N) (s : string) : bool :=
  match s with "" => true | String a _ => match to_digit radix a with None => true | Some _ => false end end.

Lemma read_digits_stop radix max count acc s v n rest :
  read_digits radix max count acc s = Some (v, n, "") → no_digit radix rest = true →
  read_digits radix max count acc (s +:+ rest) = Some (v, n, rest).
Proof.
  intros Hs Hrest. revert count acc Hs. induction s as [|a s IH]; intros count acc.
  - cbn [read_digits]. intros [= <- <-]. rewrite app_nil_l_str. destruct rest as [|a rest]; [done|].
    cbn in Hrest |- *. by destruct (to_digit radix a).
  - rewrite app_cons_str. cbn [read_digits]. destruct (to_digit radix a); [|done].
    case_match; [done|]. apply IH.
Qed.

Definition octet_text_ok (o : nat) : bool :=
  let text := show_N (N.of_nat o) in
  match read_digits 10 3 0 0 text with
  | Some (v, n, "") =>
      (v =? N.of_nat o)%N && negb (n =? 0)%nat && negb (starts_with "0" text && (1 <? n)%nat) &&
      (String.length text <=? 3)%nat && negb (String.eqb text "")
  | _ => false
  end.

Lemma octet_texts_ok : forallb octet_text_ok (List.seq 0 256) = true.
Proof. vm_compute. reflexivity. Qed.

Lemma read_octet_text o rest :
  (o ≤ 255)%N → no_digit 10 rest = true →
  read_number 10 3 false u8_max (show_N o +:+ rest) = Some (o, rest) ∧
  (String.length (show_N o) ≤ 3)%nat.
Proof.
  intros Ho Hrest. pose proof octet_texts_ok as Hall. rewrite forallb_forall in Hall.
  specialize (Hall (N.to_nat o)). rewrite in_seq in Hall. unfold octet_text_ok in Hall.
  rewrite N2Nat.id in Hall. specialize (Hall ltac:(lia)).
  destruct (read_digits 10 3 0 0 (show_N o)) as [[[v n] [|? ?]]|] eqn:Hr; try done.
  rewrite !andb_true_iff, !negb_true_iff in Hall.
  destruct Hall as [[[[Hv%N.eqb_eq Hn] Hz] Hlen%Nat.leb_le] Hne]. subst v. split; [|done].
  unfold read_number. rewrite (read_digits_stop _ _ _ _ _ _ _ rest Hr Hrest).
  cbn [mbind option_bind negb andb]. rewrite Hn.
  destruct (show_N o) as [|a t] eqn:Hs; [done|]. rewrite app_cons_str, starts_with_char.
  rewrite starts_with_char in Hz. rewrite Hz. unfold u8_max. rewrite (proj2 (N.leb_le o 255) Ho). reflexivity.
Qed.

Lemma read_octet_next o rest :
  (o ≤ 255)%N → no_digit 10 rest = true →
  read_number 10 3 false u8_max (show_N o +:+ rest) = Some (o, rest).
Proof. intros Ho Hrest. by apply read_octet_text. Qed.

Lemma length_app_str s t : String.length (s +:+ t) = (String.length s + String.length t)%nat.
Proof. induction s as [|a s IH]; [done|]. rewrite app_cons_str. cbn [String.length]. by rewrite IH. Qed.

Lemma read_separator_next {A} c i (r : string → option (A * string)) s :
  read_separator c (S i) r (String c s) = r s.
Proof. unfold read_separator, read_given_char. cbn. by rewrite ascii_eqb_refl. Qed.

Lemma octets_of ip :
  ((((ip / 2 ^ 24) * 256 + ip / 2 ^ 16 mod 256) * 256 + ip / 2 ^ 8 mod 256) * 256 + ip mod 256 = ip)%N.
Proof.
  change (2 ^ 24)%N with (256 * 256 * 256)%N. change (2 ^ 16)%N with (256 * 256)%N.
  change (2 ^ 8)%N with 256%N. rewrite <- !N.Div0.div_div.
  pose proof (N.div_mod ip 256 ltac:(done)). pose proof (N.div_mod (ip / 256) 256 ltac:(done)).
  pose proof (N.div_mod (ip / 256 / 256) 256 ltac:(done)). lia.
Qed.

(** An IPv4 address is parsed back from its text. *)
Lemma parse_show_ipv4 ip : (ip < 2 ^ 32)%N → parse_ipv4 (show_ipv4 ip) = Some ip.
Proof.
  intros Hip. pose proof (octets_of ip) as Hv.
  assert (Ha : (ip / 2 ^ 24 ≤ 255)%N).
  { apply N.lt_succ_r, N.Div0.div_lt_upper_bound.
    change (2 ^ 24 * N.succ 255)%N with (2 ^ 32)%N. done. }
  assert (Hm : ∀ x, (x mod 256 ≤ 255)%N). { intros x. pose proof (N.mod_lt x 256 ltac:(done)). lia. }
  pose proof (Hm (ip / 2 ^ 16)%N) as Hb. pose proof (Hm (ip / 2 ^ 8)%N) as Hc.
  pose proof (Hm ip) as Hd. unfold show_ipv4.
  generalize dependent (ip / 2 ^ 24)%N. generalize dependent (ip / 2 ^ 16 mod 256)%N.
  generalize dependent (ip / 2 ^ 8 mod 256)%N. generalize dependent (ip mod 256)%N.
  intros d Hd c Hc b Hb a Hv Ha. unfold parse_ipv4.
  pose proof (proj2 (read_octet_text a "" Ha eq_refl)). pose proof (proj2 (read_octet_text b "" Hb eq_refl)).
  pose proof (proj2 (read_octet_text c "" Hc eq_refl)). pose proof (proj2 (read_octet_text d "" Hd eq_refl)).
  destruct (Nat.ltb_spec 15 (String.length
    (show_N a +:+ "." +:+ show_N b +:+ "." +:+ show_N c +:+ "." +:+ show_N d))) as [Hl|_].
  { rewrite !length_app_str in Hl. cbn [String.length] in Hl. lia. }
  unfold parse_with, read_ipv4_addr, read_octet.
  change (read_separator "." 0 (read_number 10 3 false u8_max))
    with (read_number 10 3 false u8_max).
  rewrite (read_octet_next a) by done. cbn [mbind option_bind].
  rewrite !app_cons_str, read_separator_next, app_nil_l_str, (read_octet_next b) by done.
  cbn [mbind option_bind].
  rewrite read_separator_next, app_nil_l_str, (read_octet_next c) by done. cbn [mbind option_bind].
  rewrite read_separator_next, app_nil_l_str.
  rewrite <- (app_nil_r_str (show_N d)), (read_octet_next d) by done.
  cbn [mbind option_bind]. by rewrite Hv.
Qed.

(** ** Printing and parsing IPv6 *)

Lemma hex_char_digit d : (d < 16)%N → to_digit 16 (hex_char d) = Some d.
Proof.
  intros Hd. assert (Hall : forallb (λ d, bool_decide (to_digit 16 (hex_char d) = Some d))
    [0; 1; 2; 3; 4; 5; 6; 7; 8; 9; 10; 11; 12; 13; 14; 15]%N = true) by done.
  rewrite forallb_forall in Hall. apply (bool_decide_eq_true_1 (to_digit 16 (hex_char d) = Some d)), Hall.
  cbn. lia.
Qed.

Definition digits_text (ds : list N) : string :=
  List.fold_right (λ d s, String (hex_char d) s) "" ds.

Lemma read_digits_hex ds count acc :
  Forall (λ d, d < 16)%N ds → (count + length ds ≤ 4)%nat →
  read_digits 16 4 count acc (digits_text ds) =
  Some (List.fold_left (λ a d, a * 16 + d)%N ds acc, (count + length ds)%nat, "").
Proof.
  revert count acc. induction ds as [|d ds IH]; intros count acc Hds Hlen; cbn.
  { by rewrite Nat.add_0_r. }
  apply Forall_cons_1 in Hds as [Hd Hds]. cbn in Hlen. rewrite hex_char_digit by done.
  destruct count as [|[|[|[|n]]]]; cbn -[to_digit]; try lia;
    (etransitivity; [apply IH; [done|cbn; lia]|]; repeat f_equal; cbn; lia).
Qed.

Lemma skip_zeroes_cons d e ds :
  skip_zeroes (d :: e :: ds) = if (d =? 0)%N then skip_zeroes (e :: ds) else d :: e :: ds.
Proof. reflexivity. Qed.

Lemma skip_zeroes_value ds :
  List.fold_left (λ a d, a * 16 + d)%N (skip_zeroes ds) 0%N =
  List.fold_left (λ a d, a * 16 + d)%N ds 0%N.
Proof.
  induction ds as [|d ds IH]; [done|]. destruct ds as [|e ds]; [done|].
  rewrite skip_zeroes_cons. destruct (N.eqb_spec d 0) as [->|]; [|done]. rewrite IH. done.
Qed.

Lemma skip_zeroes_sub ds :
  (∀ P, Forall P ds → Forall (P : N → Prop) (skip_zeroes ds)) ∧
  (length (skip_zeroes ds) ≤ length ds)%nat ∧ (ds ≠ [] → skip_zeroes ds ≠ []).
Proof.
  induction ds as [|d ds (IH1 & IH2 & IH3)]; [done|]. destruct ds as [|e ds]; [done|].
  rewrite skip_zeroes_cons. destruct (d =? 0)%N; [|done]. split_and!; [|cbn in *; lia|naive_solver].
  intros P [_ H]%Forall_cons_1. by apply IH1.
Qed.

Lemma group_digits g : (g < 65536)%N →
  List.fold_left (λ a d, a * 16 + d)%N [g / 4096; g / 256 mod 16; g / 16 mod 16; g mod 16]%N 0%N = g ∧
  Forall (λ d, d < 16)%N [g / 4096; g / 256 mod 16; g / 16 mod 16; g mod 16]%N.
Proof.
  intros Hg. split.
  - cbn. change 4096%N with (16 * 16 * 16)%N. change 256%N with (16 * 16)%N.
    rewrite <- !N.Div0.div_div.
    pose proof (N.div_mod g 16 ltac:(done)). pose proof (N.div_mod (g / 16) 16 ltac:(done)).
    pose proof (N.div_mod (g / 16 / 16) 16 ltac:(done)). lia.
  - repeat constructor; try by apply N.mod_lt. apply N.Div0.div_lt_upper_bound. lia.
Qed.

(** A group is read back from its text. *)
Lemma read_group_text g rest :
  (g < 65536)%N → no_digit 16 rest = true →
  read_number 16 4 true u16_max (show_group g +:+ rest) = Some (g, rest).
Proof.
  intros Hg Hrest. destruct (group_digits g Hg) as [Hv Hds].
  set (ds := [g / 4096; g / 256 mod 16; g / 16 mod 16; g mod 16]%N) in *.
  destruct (skip_zeroes_sub ds) as (Hs1 & Hs2 & Hs3). specialize (Hs3 ltac:(done)).
  unfold read_number, show_group. fold ds. fold (digits_text (skip_zeroes ds)).
  erewrite read_digits_stop; [|apply read_digits_hex; [by apply Hs1|exact Hs2]|done].
  cbn [mbind option_bind negb andb]. rewrite skip_zeroes_value, Hv.
  destruct (Nat.eqb_spec (0 + length (skip_zeroes ds)) 0) as [H0|_].
  { destruct (skip_zeroes ds); done. }
  unfold u16_max. by rewrite (proj2 (N.leb_le g 65535)) by lia.
Qed.

Lemma show_group_hex g : (g < 65536)%N →
  str_all (λ a, bool_decide (is_Some (to_digit 16 a))) (show_group g) = true.
Proof.
  intros Hg. destruct (group_digits g Hg) as [_ Hds]. unfold show_group.
  apply (proj1 (skip_zeroes_sub _)) in Hds. revert Hds. generalize (skip_zeroes [g / 4096; g / 256 mod 16; g / 16 mod 16; g mod 16]%N).
  intros ds. induction ds as [|d ds IH]; [done|]. intros [Hd Hds]%Forall_cons_1. cbn [List.fold_right str_all].
  rewrite (IH Hds), andb_true_r. apply bool_decide_eq_true_2. rewrite hex_char_digit by done. eauto.
Qed.

(** A group followed by a colon or by nothing is no start of an IPv4
    address. *)
Lemma read_ipv4_addr_group g rest :
  (g < 65536)%N → rest = "" ∨ starts_with ":" rest = true →
  read_ipv4_addr (show_group g +:+ rest) = None.
Proof.
  intros Hg Hrest. destruct (read_ipv4_addr _) as [[v r]|] eqn:Hr; [|done]. exfalso.
  unfold read_ipv4_addr in Hr.
  destruct (read_octet 0 _) as [[a s1]|] eqn:H1; [|done]. cbn [mbind option_bind] in Hr.
  destruct (read_octet 1 s1) as [[b s2]|] eqn:H2; [|done]. clear Hr.
  unfold read_octet in H1, H2. unfold read_separator in H1. cbn [mbind option_bind] in H1.
  apply (read_number_reads 10 3 false u8_max is_ascii_digit to_digit_10) in H1 as (pre & He & Hpre).
  unfold read_separator in H2. destruct (read_given_char "." s1) as [s1'|] eqn:Hdot; [|done].
  apply read_given_char_Some in Hdot as ->. clear H2.
  set (f := λ a, negb (bool_decide (is_Some (to_digit 16 a)))).
  assert (Hspan : ∀ l r, str_all (λ a, bool_decide (is_Some (to_digit 16 a))) l = true →
    (r = "" ∨ ∃ x r', r = String x r' ∧ f x = true) → span_until f (l +:+ r) = (l, r)).
  { intros l r' Hl Hr'. induction l as [|x l IH].
    - rewrite app_nil_l_str. destruct Hr' as [->|(x & r'' & -> & Hx)]; [done|]. cbn [span_until]. by rewrite Hx.
    - cbn [str_all] in Hl. apply andb_true_iff in Hl as [Hx Hl]. rewrite app_cons_str. cbn [span_until].
      unfold f at 1. rewrite Hx. cbn [negb]. by rewrite (IH Hl). }
  assert (H1 : span_until f (show_group g +:+ rest) = (show_group g, rest)).
  { apply Hspan; [by apply show_group_hex|]. destruct Hrest as [->|Hc]; [by left|right].
    destruct rest as [|x rest]; [done|]. rewrite starts_with_char in Hc.
    apply ascii_eqb_eq in Hc as <-. eauto. }
  rewrite He, Hspan in H1; [injection H1 as _ <-; by destruct Hrest| |by eauto].
  eapply str_all_impl, Hpre. intros x Hx. apply bool_decide_eq_true_2. unfold to_digit. rewrite Hx. cbn.
  unfold is_ascii_digit in Hx. apply andb_true_iff in Hx as [_ Hx%N.leb_le].
  rewrite (proj2 (N.ltb_lt _ _)) by lia. eauto.
Qed.

(** What may follow printed groups: nothing, or the double colon. *)
Definition group_stop (rest : string) : Prop := rest = "" ∨ ∃ r, rest = "::" +:+ r.

Fixpoint tail_text (gs : list N) : string :=
  match gs with [] => "" | g :: gs => String ":" (show_group g +:+ tail_text gs) end.

Lemma join_groups g gs :
  join_char ":" (map show_group (g :: gs)) = show_group g +:+ tail_text gs.
Proof.
  revert g. induction gs as [|h gs IH]; intros g; [symmetry; apply app_nil_r_str|].
  change (show_group g +:+ String ":" (join_char ":" (map show_group (h :: gs))) =
          show_group g +:+ tail_text (h :: gs)). by rewrite IH.
Qed.

Lemma tail_text_follow gs rest :
  group_stop rest →
  (tail_text gs +:+ rest = "" ∨ starts_with ":" (tail_text gs +:+ rest) = true) ∧
  no_digit 16 (tail_text gs +:+ rest) = true.
Proof.
  intros Hstop. destruct gs as [|g gs].
  - cbn [tail_text]. rewrite app_nil_l_str. destruct Hstop as [->|[r ->]]; [by split; [left|]|].
    rewrite !app_cons_str. by split; [right; rewrite starts_with_char|].
  - cbn [tail_text]. rewrite app_cons_str. by split; [right; rewrite starts_with_char|].
Qed.

Lemma read_groups_at_stop slots i rest :
  group_stop rest → read_groups slots i rest = ([], false, rest).
Proof.
  intros Hstop. destruct slots as [|more]; [done|]. cbn [read_groups].
  assert (read_separator ":" i read_ipv4_addr rest = None ∧ read_group i rest = None) as [-> ->].
  { destruct Hstop as [->|[r ->]]; destruct i; done. }
  by destruct (more =? 0)%nat.
Qed.

Lemma read_groups_tail slots i gs rest :
  (length gs ≤ slots)%nat → Forall (λ g, g < 65536)%N gs → group_stop rest →
  read_groups slots (S i) (tail_text gs +:+ rest) = (gs, false, rest).
Proof.
  revert slots i. induction gs as [|g gs IH]; intros slots i Hlen Hgs Hstop.
  { cbn [tail_text]. rewrite app_nil_l_str. by apply read_groups_at_stop. }
  apply Forall_cons_1 in Hgs as [Hg Hgs]. destruct slots as [|more]; [cbn in Hlen; lia|].
  cbn [tail_text length] in *. destruct (tail_text_follow gs rest Hstop) as [Hf Hd].
  cbn [read_groups]. unfold read_group. rewrite app_cons_str, !read_separator_next, app_assoc_str.
  rewrite read_ipv4_addr_group, read_group_text by done.
  rewrite IH by (lia || done). by destruct (more =? 0)%nat.
Qed.

(** Printed groups are read back. *)
Lemma read_groups_join slots gs rest :
  (length gs ≤ slots)%nat → Forall (λ g, g < 65536)%N gs → group_stop rest →
  read_groups slots 0 (join_char ":" (map show_group gs) +:+ rest) = (gs, false, rest).
Proof.
  intros Hlen Hgs Hstop. destruct gs as [|g gs].
  { cbn [map join_char]. rewrite app_nil_l_str. by apply read_groups_at_stop. }
  apply Forall_cons_1 in Hgs as [Hg Hgs]. destruct slots as [|more]; [cbn in Hlen; lia|].
  rewrite join_groups, app_assoc_str. destruct (tail_text_follow gs rest Hstop) as [Hf Hd].
  cbn [read_groups length] in *. unfold read_group, read_separator. cbn [mbind option_bind].
  rewrite read_ipv4_addr_group, read_group_text by done.
  rewrite read_groups_tail by (lia || done). by destruct (more =? 0)%nat.
Qed.

Definition zero_run (gs : list N) (run : nat * nat) : Prop :=
  (fst run + snd run ≤ length gs)%nat ∧
  ∀ k, (fst run ≤ k < fst run + snd run)%nat → gs !! k = Some 0%N.

Lemma zero_run_app gs hs run : zero_run gs run → zero_run (gs ++ hs) run.
Proof.
  intros [Hl Hz]. split; [rewrite length_app; lia|]. intros k Hk. apply lookup_app_l_Some. eauto.
Qed.

Lemma longest_zeroes_run gs seen current longest :
  zero_run seen longest → zero_run seen current →
  (snd current = 0 ∨ fst current + snd current = length seen)%nat →
  zero_run (seen ++ gs) (longest_zeroes (length seen) current longest gs).
Proof.
  revert seen current longest. induction gs as [|g gs IH]; intros seen current longest Hl Hc He; cbn.
  { by rewrite app_nil_r. }
  replace (seen ++ g :: gs)%list with ((seen ++ [g]) ++ gs)%list by (by rewrite <- app_assoc).
  replace (S (length seen)) with (length (seen ++ [g])) by (rewrite length_app; cbn; lia).
  destruct (N.eqb_spec g 0) as [->|Hg].
  2: { apply IH; [by apply zero_run_app| |by left]. split; cbn; [lia|]. intros k Hk. lia. }
  set (next := if (snd current =? 0)%nat then _ else _).
  assert (Hnext : zero_run (seen ++ [0%N]) next ∧ (fst next + snd next = length (seen ++ [0%N]))%nat).
  { rewrite length_app. unfold next. destruct (Nat.eqb_spec (snd current) 0) as [H0|H0]; cbn.
    - split; [|lia]. split; cbn; [rewrite length_app; cbn; lia|]. intros k Hk.
      assert (k = length seen) as -> by lia. by rewrite lookup_app_r, Nat.sub_diag by lia.
    - destruct Hc as [Hcl Hcz], He as [|He]; [done|]. split; [|lia].
      split; cbn; [rewrite length_app; cbn; lia|]. intros k Hk.
      destruct (decide (k = length seen)) as [->|]; [by rewrite lookup_app_r, Nat.sub_diag by lia|].
      apply lookup_app_l_Some, Hcz. lia. }
  destruct Hnext as [Hn He']. apply IH; [|done|by right].
  case_match; [done|by apply zero_run_app].
Qed.

Lemma zero_run_split gs start len :
  zero_run gs (start, len) → gs = (take start gs ++ replicate len 0%N ++ drop (start + len) gs)%list.
Proof.
  intros [Hl Hz]. cbn in Hl, Hz. apply list_eq. intros k.
  destruct (decide (k < start)%nat) as [H1|H1].
  { rewrite lookup_app_l by (rewrite length_take; lia). by rewrite lookup_take_lt. }
  rewrite lookup_app_r by (rewrite length_take; lia). rewrite length_take, Nat.min_l by lia.
  destruct (decide (k < start + len)%nat) as [H2|H2].
  { rewrite lookup_app_l by (rewrite length_replicate; lia).
    rewrite lookup_replicate_2 by lia. apply Hz. lia. }
  rewrite lookup_app_r by (rewrite length_replicate; lia). rewrite length_replicate, lookup_drop.
  f_equal. lia.
Qed.

Lemma groups_of_spec ip :
  (ip < 2 ^ 128)%N →
  length (groups_of ip) = 8%nat ∧ Forall (λ g, g < 65536)%N (groups_of ip) ∧ of_groups (groups_of ip) = ip.
Proof.
  intros Hip. split_and!; [done|repeat constructor; by apply N.mod_lt|].
  unfold of_groups, groups_of. cbn [map List.fold_left].
  assert (Hdm : ∀ k, (ip / 65536 ^ k = ip / 65536 ^ (k + 1) * 65536 + ip / 65536 ^ k mod 65536)%N).
  { intros k. rewrite N.pow_add_r, N.pow_1_r, <- N.Div0.div_div.
    pose proof (N.div_mod (ip / 65536 ^ k) 65536 ltac:(done)). lia. }
  pose proof (Hdm 0%N : ip / 65536 ^ 0 = ip / 65536 ^ 1 * 65536 + ip / 65536 ^ 0 mod 65536)%N as E0.
  pose proof (Hdm 1%N : ip / 65536 ^ 1 = ip / 65536 ^ 2 * 65536 + ip / 65536 ^ 1 mod 65536)%N as E1.
  pose proof (Hdm 2%N : ip / 65536 ^ 2 = ip / 65536 ^ 3 * 65536 + ip / 65536 ^ 2 mod 65536)%N as E2.
  pose proof (Hdm 3%N : ip / 65536 ^ 3 = ip / 65536 ^ 4 * 65536 + ip / 65536 ^ 3 mod 65536)%N as E3.
  pose proof (Hdm 4%N : ip / 65536 ^ 4 = ip / 65536 ^ 5 * 65536 + ip / 65536 ^ 4 mod 65536)%N as E4.
  pose proof (Hdm 5%N : ip / 65536 ^ 5 = ip / 65536 ^ 6 * 65536 + ip / 65536 ^ 5 mod 65536)%N as E5.
  pose proof (Hdm 6%N : ip / 65536 ^ 6 = ip / 65536 ^ 7 * 65536 + ip / 65536 ^ 6 mod 65536)%N as E6.
  pose proof (Hdm 7%N : ip / 65536 ^ 7 = ip / 65536 ^ 8 * 65536 + ip / 65536 ^ 7 mod 65536)%N as E7.
  assert (ip / 65536 ^ 8 = 0)%N as H8 by (by apply N.div_small).
  assert (ip / 65536 ^ 0 = ip)%N as H0 by (by rewrite N.pow_0_r, N.div_1_r).
  change (7 - 0)%N with 7%N. change (7 - 1)%N with 6%N. change (7 - 2)%N with 5%N.
  change (7 - 3)%N with 4%N. change (7 - 4)%N with 3%N. change (7 - 5)%N with 2%N.
  change (7 - 6)%N with 1%N. change (7 - 7)%N with 0%N.
  clear Hdm Hip.
  lia.
Qed.

Lemma read_given_char_hit c s : read_given_char c (String c s) = Some s.
Proof. by apply read_given_char_Some. Qed.

Lemma parse_show_mapped ip v : to_ipv4_mapped ip = Some v → parse_ipv6 ("::ffff:" +:+ show_ipv4 v) = Some ip.
Proof.
  intros Hm. pose proof (to_ipv4_mapped_bound _ _ Hm) as Hv.
  pose proof (parse_show_ipv4 v Hv) as H4. unfold parse_ipv4 in H4. case_match; [done|].
  apply parse_with_inv in H4. unfold parse_ipv6, parse_with, read_ipv6_addr.
  rewrite read_groups_at_stop by (right; by exists ("ffff:" +:+ show_ipv4 v)).
  cbn [length Nat.eqb]. rewrite !app_cons_str.
  rewrite read_given_char_hit. cbn [mbind option_bind].
  rewrite read_given_char_hit. cbn [mbind option_bind]. rewrite app_nil_l_str.
  assert (read_groups (8 - (0 + 1)) 0
    (String "f" (String "f" (String "f" (String "f" (String ":" (show_ipv4 v)))))) =
    ([65535; v / 65536; v mod 65536]%N, true, "")) as ->.
  { change (8 - (0 + 1))%nat with 7%nat. generalize (show_ipv4 v) H4. intros text Htext.
    transitivity (let '(gs, v4, rest) := read_groups 6 1 (String ":" text) in (65535%N :: gs, v4, rest));
      [reflexivity|].
    cbn [read_groups Nat.eqb]. by rewrite read_separator_next, Htext. }
  cbn [app replicate Nat.sub length String.eqb mbind option_bind]. f_equal.
  unfold to_ipv4_mapped in Hm. destruct (N.eqb_spec (ip / 2 ^ 32) 65535) as [He|]; [|done].
  injection Hm as Hm. unfold of_groups. cbn [List.fold_left].
  pose proof (N.div_mod ip (2 ^ 32) ltac:(done)) as Hd. rewrite He, Hm in Hd.
  pose proof (N.div_mod v 65536 ltac:(done)). change (2 ^ 32)%N with 4294967296%N in Hd. lia.
Qed.

(** An IPv6 address is parsed back from its text. *)
Lemma parse_show_ipv6 ip : (ip < 2 ^ 128)%N → parse_ipv6 (show_ipv6 ip) = Some ip.
Proof.
  intros Hip. unfold show_ipv6. destruct (to_ipv4_mapped ip) as [v|] eqn:Hm.
  { by apply parse_show_mapped. }
  destruct (groups_of_spec ip Hip) as (Hlen & Hgs & Hval).
  assert (Hrun : zero_run (groups_of ip) (longest_zeroes 0 (0, 0)%nat (0, 0)%nat (groups_of ip))).
  { apply (longest_zeroes_run _ []); [split; cbn; [lia|intros; lia]..|by left]. }
  destruct (longest_zeroes _ _ _ _) as [start len].
  pose proof (zero_run_split _ _ _ Hrun) as Hsplit. destruct Hrun as [Hbound _]. cbn in Hbound.
  set (gs := groups_of ip) in *. unfold parse_ipv6, parse_with, read_ipv6_addr.
  destruct (Nat.ltb_spec 1 len) as [Hl|Hl].
  - rewrite read_groups_join;
      [|rewrite length_take; lia|by apply Forall_take|right; by eexists].
    rewrite length_take, Nat.min_l by lia. destruct (Nat.eqb_spec start 8); [lia|].
    cbn [mbind option_bind]. rewrite !app_cons_str, app_nil_l_str.
    rewrite read_given_char_hit. cbn [mbind option_bind].
    rewrite read_given_char_hit. cbn [mbind option_bind].
    rewrite <- (app_nil_r_str (join_char _ (map show_group (drop _ _)))).
    rewrite read_groups_join; [|rewrite length_drop; lia|by apply Forall_drop|by left].
    cbn [mbind option_bind String.eqb]. f_equal. rewrite length_drop, Hlen.
    replace (8 - start - (8 - (start + len)))%nat with len by lia. by rewrite <- Hsplit.
  - rewrite <- (app_nil_r_str (join_char ":" (map show_group gs))).
    rewrite read_groups_join; [|lia|done|by left]. rewrite Hlen. cbn [Nat.eqb mbind option_bind String.eqb]. by rewrite Hval.
Qed.
