(* ===== verification/NetPolicy.v ===== *)
(** * NetPolicy: network allowlists and admission

    Models the network policies of [crates/witchy-caps/src/capabilities.rs]:
    matching one [host:port] pattern against a concrete address
    ([address_admits]), the host-facing grammar check ([net_pattern_error]),
    allowlists with deny entries ([net_allows], [net_denied]), narrowing
    ([net_only]), and admission of resolved addresses ([resolve_admitted],
    [resolve_host_admitted]).  Name resolution is the operating system's: the
    two [to_socket_addrs] calls are variables of the [Resolver] section.
    The secret identity check of the same file is modelled at the end. *)

From S2P Require Import Prelude Text DirPolicy Address.

Local Open Scope string_scope.

(** ** Hosts, ports and blocks *)

Definition split_host_port (s : string) : string * string :=
  match rsplit_once ":" s with
  | Some (h, p) => (h, p)
  | None => (s, "")
  end.

Definition strip_brackets (h : string) : string :=
  default h (s ← strip_prefix "[" h; strip_suffix_char "]" s).

Definition port_admits (pattern target : string) : bool :=
  String.eqb pattern "*" ||
  match parse_uint u16_max pattern, parse_uint u16_max target with
  | Some pattern, Some target => (pattern =? target)%N
  | _, _ => String.eqb pattern target
  end.

Definition canonical_dns_name (host : string) : string :=
  to_ascii_lowercase (trim_end_char "." (strip_brackets host)).

Definition parse_ipv4_identity (host : string) : option Ipv4Addr :=
  let host := strip_brackets host in
  match parse_ipv4 host with
  | Some ip => Some ip
  | None => ip ← parse_ipv6 host; to_ipv4_mapped ip
  end.

Definition parse_ipv6_identity (host : string) : option Ipv6Addr :=
  ip ← parse_ipv6 (strip_brackets host);
  match to_ipv4_mapped ip with None => Some ip | Some _ => None end.

Definition host_eq (lhs rhs : string) : bool :=
  match parse_ipv4_identity lhs, parse_ipv4_identity rhs,
        parse_ipv6_identity lhs, parse_ipv6_identity rhs with
  | Some l, Some r, _, _ => (l =? r)%N
  | _, _, Some l, Some r => (l =? r)%N
  | None, None, None, None => String.eqb (canonical_dns_name lhs) (canonical_dns_name rhs)
  | _, _, _, _ => false
  end.

Definition parse_ipv4_cidr (s : string) : option (Ipv4Addr * N) :=
  '(ip, bits) ← split_once "/" s;
  ip ← parse_ipv4 ip;
  bits ← parse_uint u8_max bits;
  if (bits <=? 32)%N then Some (ip, bits) else None.

(** [!((1u32 << (32 - bits)) - 1)], and [u32::MAX] for [bits = 32]; the
    callers pass [bits ≤ 32]. *)
Definition ipv4_mask (bits : N) : N :=
  if (bits =? 32)%N then N.ones 32
  else N.lxor (N.ones 32) (N.shiftl 1 (32 - bits) - 1).

Definition ipv4_in_cidr (ip base : Ipv4Addr) (bits : N) : bool :=
  if (bits =? 0)%N then true
  else (N.land ip (ipv4_mask bits) =? N.land base (ipv4_mask bits))%N.

Definition parse_ipv6_cidr (s : string) : option (Ipv6Addr * N) :=
  '(ip, bits) ← split_once "/" s;
  ip ← parse_ipv6 (strip_brackets ip);
  bits ← parse_uint u8_max bits;
  if (bits <=? 128)%N then Some (ip, bits) else None.

Definition ipv6_mask (bits : N) : N :=
  if (bits =? 128)%N then N.ones 128
  else N.lxor (N.ones 128) (N.shiftl 1 (128 - bits) - 1).

Definition ipv6_in_cidr (ip base : Ipv6Addr) (bits : N) : bool :=
  if (bits =? 0)%N then true
  else (N.land ip (ipv6_mask bits) =? N.land base (ipv6_mask bits))%N.

(** ** Matching one pattern *)

(** The part of [address_admits] after the port check. *)
Definition host_admits (phost thost : string) : bool :=
  if String.eqb phost "*" then true
  else match parse_ipv4_cidr phost, parse_ipv4_identity thost with
  | Some (base, bits), Some ip => ipv4_in_cidr ip base bits
  | _, _ =>
      match parse_ipv6_cidr phost, parse_ipv6_identity thost with
      | Some (base, bits), Some ip => ipv6_in_cidr ip base bits
      | _, _ => host_eq phost thost
      end
  end.

Definition address_admits (pattern target : string) : bool :=
  let '(phost, pport) := split_host_port pattern in
  let '(thost, tport) := split_host_port target in
  if negb (port_admits pport tport) then false else host_admits phost thost.

(** ** The host-facing grammar *)

(** [char::is_whitespace] on UTF-8 text: the ASCII characters, and the
    encodings of the others. *)
Definition ascii_whitespace (a : ascii) : bool :=
  ((9 <=? N_of_ascii a) && (N_of_ascii a <=? 13) || (N_of_ascii a =? 32))%N.

Definition bytes_str (l : list N) : string :=
  List.fold_right (λ b s, String (ascii_of_N b) s) "" l.

Definition wide_whitespace : list string :=
  map bytes_str ([[194; 133]; [194; 160]; [225; 154; 128]] ++
    map (λ b, [226; 128; b])
      [128; 129; 130; 131; 132; 133; 134; 135; 136; 137; 138; 168; 169; 175] ++
    [[226; 129; 159]; [227; 128; 128]])%N%list.

Definition has_whitespace (s : string) : bool :=
  str_any ascii_whitespace s ||
  existsb (λ w, match split_once_str w s with Some _ => true | None => false end) wide_whitespace.

Definition bracketed_ok (host : string) : bool :=
  match (h ← strip_prefix "[" host; strip_suffix_char "]" h) with
  | Some ip => bool_decide (is_Some (parse_ipv6 ip)) || bool_decide (is_Some (parse_ipv6_cidr ip))
  | None => false
  end.

Definition net_pattern_error (pattern : string) : option string :=
  let body := default pattern (strip_prefix "!" pattern) in
  match rsplit_once ":" body with
  | None => Some ("`" +:+ pattern +:+ "` has no `:port` (write `host:443` or `host:*`)")
  | Some (host, port) =>
      let not_v6_cidr := bool_decide (parse_ipv6_cidr host = None) in
      if String.eqb host "" then Some ("`" +:+ pattern +:+ "` has an empty host")
      else if negb (String.eqb port "*") && bool_decide (parse_uint u16_max port = None) then
        Some ("`" +:+ pattern +:+ "` has port `" +:+ port +:+ "`, which is not `*` or 0-65535")
      else if (has_whitespace host || str_contains "!" host) ||
              (str_contains "*" host && negb (String.eqb host "*")) then
        Some ("`" +:+ pattern +:+ "` has an invalid host `" +:+ host +:+
              "` (only a bare `*` is a wildcard)")
      else
        let bracketed := (starts_with "[" host || ends_with host "]") && not_v6_cidr in
        if bracketed && negb (bracketed_ok host) then
          Some ("`" +:+ pattern +:+ "` has a malformed bracketed IPv6 host `" +:+ host +:+ "`")
        else if negb bracketed && str_contains ":" host &&
                bool_decide (parse_ipv6 host = None) && not_v6_cidr then
          Some ("`" +:+ pattern +:+ "` has a host `" +:+ host +:+
                "` with a stray `:` (bracket IPv6 as `[::1]:80`)")
        else if str_contains "/" host && bool_decide (parse_ipv4_cidr host = None) &&
                not_v6_cidr then
          Some ("`" +:+ pattern +:+ "` has a malformed CIDR block `" +:+ host +:+ "`")
        else None
  end.

(** ** Allowlists *)

Definition is_deny (entry : string) : bool := starts_with "!" entry.

Definition net_denied (allow : list string) (target : string) : bool :=
  existsb (λ d, address_admits d target) (omap (strip_prefix "!") allow).

Definition net_allows (allow : list string) (target : string) : bool :=
  if net_denied allow target then false
  else existsb (λ p, address_admits p target) (List.filter (λ p, negb (is_deny p)) allow).

(** The loop of [net_only]. *)
Fixpoint net_only_loop (allow : list string) (patterns narrowed : list string)
    : result string (list string) :=
  match patterns with
  | [] => Ok narrowed
  | p :: rest =>
      if negb (net_allows allow p) then Err p
      else net_only_loop allow rest (narrowed ++ [p])%list
  end.

Definition net_only (allow : list string) (patterns : string) : result string (list string) :=
  match net_only_loop allow (split_char newline patterns) [] with
  | Ok narrowed => Ok (narrowed ++ List.filter is_deny allow)%list
  | Err p => Err p
  end.

(** ** Admission of resolved addresses *)

Inductive AdmitFailure : Set :=
  | Denied (message : string)
  | Unresolved (message : string).

Definition into_message (failure : AdmitFailure) : string :=
  match failure with Denied message | Unresolved message => message end.

Definition map_err {E F A} (f : E → F) (r : result E A) : result F A :=
  match r with Ok a => Ok a | Err e => Err (f e) end.

Definition bracket_ipv6_host (host : string) : string :=
  if str_contains ":" (strip_brackets host) then "[" +:+ strip_brackets host +:+ "]" else host.

Definition normalize_ip (ip : IpAddr) : IpAddr :=
  match ip with
  | V6 ip => match to_ipv4_mapped ip with Some v4 => V4 v4 | None => V6 ip end
  | V4 ip => V4 ip
  end.

Definition not_permitted (addr : string) : AdmitFailure :=
  Denied ("`" +:+ addr +:+ "` is not permitted by this Net capability").

(** Whether [host] is admitted for the port of some allow entry. *)
Definition host_admitted (allow : list string) (host : string) : bool :=
  existsb (λ entry,
      let '(_, port) := split_host_port entry in
      let port := if String.eqb port "*" then "0" else port in
      net_allows allow (bracket_ipv6_host host +:+ ":" +:+ port))
    (List.filter (λ entry, negb (is_deny entry)) allow).

(** [if !ips.contains(&ip) { ips.push(ip) }] over the answers. *)
Definition push_new (ips : list IpAddr) (ip : IpAddr) : list IpAddr :=
  if bool_decide (ip ∈ ips) then ips else (ips ++ [ip])%list.

Section Resolver.
(** [addr.to_socket_addrs()] of an address text, and [(host,
    port).to_socket_addrs()]; the error is the operating system's text. *)
Context (to_socket_addrs : string → result string (list SocketAddr)).
Context (to_socket_addrs_of : string → N → result string (list SocketAddr)).

Definition resolve_admitted_typed (allow : list string) (addr : string)
    : result AdmitFailure (list SocketAddr) :=
  if net_denied allow addr then Err (not_permitted addr)
  else
    let name_ok := net_allows allow addr in
    match to_socket_addrs addr with
    | Ok resolved =>
        let ip_ok := List.filter (λ sa, net_allows allow (show_socket sa)) resolved in
        match ip_ok with
        | _ :: _ => Ok ip_ok
        | [] =>
            if name_ok : bool then
              let not_denied := List.filter (λ sa, negb (net_denied allow (show_socket sa))) resolved in
              match not_denied with
              | [] => Err (not_permitted addr)
              | _ :: _ => Ok not_denied
              end
            else Err (not_permitted addr)
        end
    | Err e =>
        if name_ok : bool then Err (Unresolved ("`" +:+ addr +:+ "` could not be resolved: " +:+ e))
        else Err (not_permitted addr)
    end.

Definition resolve_admitted (allow : list string) (addr : string)
    : result string (list SocketAddr) :=
  map_err into_message (resolve_admitted_typed allow addr).

Definition resolve_host_admitted_typed (allow : list string) (host : string)
    : result AdmitFailure (list IpAddr) :=
  if negb (host_admitted allow host) then Err (not_permitted host)
  else
    match to_socket_addrs_of (canonical_dns_name host) 0 with
    | Err error => Err (Unresolved ("`" +:+ host +:+ "` could not be resolved: " +:+ error))
    | Ok addrs => Ok (foldl (λ ips addr, push_new ips (normalize_ip (socket_ip addr))) [] addrs)
    end.

Definition resolve_host_admitted (allow : list string) (host : string)
    : result string (list IpAddr) :=
  map_err into_message (resolve_host_admitted_typed allow host).
End Resolver.

(** ** Secrets *)

Definition secret_reveal_suffix (sealed : bool) : string :=
  if sealed then " (sealed)" else " (revealable)".

(** [for (a, b) in seed.iter().zip(secret.iter()) { diff |= a ^ b; }] *)
Definition xor_difference (seed secret : list N) : N :=
  foldl (λ diff '(a, b), N.lor diff (N.lxor a b)) 0%N (zip seed secret).

Definition secret_is_signing_key (signing_key : option (list N)) (secret : list N) : bool :=
  match signing_key with
  | Some seed =>
      if (length seed =? length secret)%nat then (xor_difference seed secret =? 0)%N else false
  | None => false
  end.

Example policy_examples :
  address_admits "10.0.0.0/8:443" "10.1.2.3:443" = true ∧
  address_admits "10.0.0.0/8:443" "11.1.2.3:443" = false ∧
  address_admits "10.0.0.0/8:443" "[::ffff:10.1.2.3]:0443" = true ∧
  address_admits "fe80::/10:*" "[fe81::1]:80" = true ∧
  address_admits "[fe80::]/10:*" "[fe81::1]:80" = true ∧
  address_admits "Example.COM.:443" "example.com:443" = true ∧
  address_admits "*:443" "example.com:80" = false ∧
  net_pattern_error "example.com:443" = None ∧ net_pattern_error "[::1]:*" = None ∧
  net_pattern_error "!10.0.0.0/8:*" = None ∧
  net_pattern_error "*.example.com:443" =
    Some "`*.example.com:443` has an invalid host `*.example.com` (only a bare `*` is a wildcard)" ∧
  net_pattern_error "a b:443" = Some "`a b:443` has an invalid host `a b` (only a bare `*` is a wildcard)" ∧
  net_only ["*:443"; "!10.0.0.0/8:*"] "example.com:443" = Ok ["example.com:443"; "!10.0.0.0/8:*"] ∧
  net_only ["*:443"; "!10.0.0.0/8:*"] "10.0.0.1:443" = Err "10.0.0.1:443".
Proof. vm_compute. repeat split. Qed.

(** * Blocks *)

(** The complement of the low [k] bits within [n] bits keeps a number's
    quotient by [2^k]. *)
Lemma land_high_bits n k x :
  (k ≤ n)%N → (x < 2 ^ n)%N →
  N.land x (N.lxor (N.ones n) (N.shiftl 1 k - 1)) = N.shiftl (N.shiftr x k) k.
Proof.
  intros Hk Hx. replace (N.shiftl 1 k - 1)%N with (N.ones k).
  2: { rewrite N.ones_equiv, N.shiftl_1_l. lia. }
  apply N.bits_inj. intros i. rewrite N.land_spec, N.lxor_spec.
  destruct (N.lt_ge_cases i k) as [Hi|Hi].
  - rewrite N.shiftl_spec_low, !N.ones_spec_low by lia. apply andb_false_r.
  - rewrite N.shiftl_spec_high', N.shiftr_spec', N.sub_add, (N.ones_spec_high k), xorb_false_r by lia.
    destruct (N.lt_ge_cases i n) as [Hn|Hn].
    + by rewrite N.ones_spec_low, andb_true_r by lia.
    + rewrite N.ones_spec_high, andb_false_r by lia. symmetry.
      rewrite <- (N.mod_small x (2 ^ n)) by done. by apply N.mod_pow2_bits_high.
Qed.

Lemma land_high_bits_eqb n k x y :
  (k ≤ n)%N → (x < 2 ^ n)%N → (y < 2 ^ n)%N →
  (N.land x (N.lxor (N.ones n) (N.shiftl 1 k - 1)) =?
   N.land y (N.lxor (N.ones n) (N.shiftl 1 k - 1)))%N = (x / 2 ^ k =? y / 2 ^ k)%N.
Proof.
  intros Hk Hx Hy. rewrite !land_high_bits by done.
  rewrite !N.shiftl_mul_pow2, !N.shiftr_div_pow2.
  apply eq_true_iff_eq. rewrite !N.eqb_eq. split; [|by intros ->].
  intros H%N.mul_cancel_r; [done|]. by apply N.pow_nonzero.
Qed.

Lemma land_ones_small n x : (x < 2 ^ n)%N → N.land x (N.ones n) = x.
Proof. intros Hx. by rewrite N.land_ones, N.mod_small. Qed.

Lemma ipv4_in_cidr_spec ip base bits :
  (ip < 2 ^ 32)%N → (base < 2 ^ 32)%N → (bits ≤ 32)%N →
  ipv4_in_cidr ip base bits = (ip / 2 ^ (32 - bits) =? base / 2 ^ (32 - bits))%N.
Proof.
  intros Hi Hb Hbits. unfold ipv4_in_cidr, ipv4_mask.
  destruct (N.eqb_spec bits 0) as [->|H0]; [by rewrite !N.div_small|].
  destruct (N.eqb_spec bits 32) as [->|H32].
  - by rewrite !land_ones_small, N.sub_diag, N.pow_0_r, !N.div_1_r.
  - apply land_high_bits_eqb; [lia|done..].
Qed.

Lemma ipv6_in_cidr_spec ip base bits :
  (ip < 2 ^ 128)%N → (base < 2 ^ 128)%N → (bits ≤ 128)%N →
  ipv6_in_cidr ip base bits = (ip / 2 ^ (128 - bits) =? base / 2 ^ (128 - bits))%N.
Proof.
  intros Hi Hb Hbits. unfold ipv6_in_cidr, ipv6_mask.
  destruct (N.eqb_spec bits 0) as [->|H0]; [by rewrite !N.div_small|].
  destruct (N.eqb_spec bits 128) as [->|H128].
  - by rewrite !land_ones_small, N.sub_diag, N.pow_0_r, !N.div_1_r.
  - apply land_high_bits_eqb; [lia|done..].
Qed.

(** * Identities *)

(** The address a host text denotes; IPv4-mapped addresses are IPv4. *)
Definition identity (host : string) : option IpAddr :=
  match parse_ipv4_identity host with
  | Some ip => Some (V4 ip)
  | None => V6 <$> parse_ipv6_identity host
  end.

Lemma ipv4_identity_not_ipv6 h v : parse_ipv4_identity h = Some v → parse_ipv6_identity h = None.
Proof.
  unfold parse_ipv4_identity, parse_ipv6_identity. destruct (parse_ipv4 _) as [ip|] eqn:H4.
  - by rewrite (parse_ipv4_not_ipv6 _ _ H4).
  - destruct (parse_ipv6 _) as [ip|]; [|done]. cbn. by intros ->.
Qed.

Lemma host_eq_identity l r :
  host_eq l r = match identity l, identity r with
                | Some a, Some b => bool_decide (a = b)
                | None, None => String.eqb (canonical_dns_name l) (canonical_dns_name r)
                | _, _ => false
                end.
Proof.
  unfold host_eq, identity.
  assert (Hb : ∀ (x y : N) (f : N → IpAddr), (∀ a b, f a = f b → a = b) →
    (x =? y)%N = bool_decide (f x = f y)).
  { intros x y f Hf. destruct (N.eqb_spec x y) as [->|Hne]; [by rewrite bool_decide_eq_true_2|].
    rewrite bool_decide_eq_false_2; [done|]. intros H%Hf. done. }
  destruct (parse_ipv4_identity l) as [a|] eqn:Hl; [rewrite (ipv4_identity_not_ipv6 _ _ Hl)|];
    destruct (parse_ipv4_identity r) as [b|] eqn:Hr; try rewrite (ipv4_identity_not_ipv6 _ _ Hr).
  - apply Hb. by intros ?? [= ->].
  - by destruct (parse_ipv6_identity r).
  - by destruct (parse_ipv6_identity l).
  - destruct (parse_ipv6_identity l), (parse_ipv6_identity r); try done.
    apply Hb. by intros ?? [= ->].
Qed.

Lemma host_eq_refl h : host_eq h h = true.
Proof.
  rewrite host_eq_identity. destruct (identity h); [by apply bool_decide_eq_true_2|].
  apply String.eqb_refl.
Qed.

Lemma host_eq_trans a b c : host_eq a b = true → host_eq b c = host_eq a c.
Proof.
  rewrite !host_eq_identity. destruct (identity a), (identity b); try done.
  - by intros ->%bool_decide_eq_true_1.
  - by intros ->%String.eqb_eq.
Qed.

(** A pattern decides a literal address by its identity alone. *)
Lemma host_admits_identity a p t ip :
  identity p = Some ip → identity t = Some ip → host_admits a p = host_admits a t.
Proof.
  intros Hp Ht.
  assert (parse_ipv4_identity p = parse_ipv4_identity t ∧
          parse_ipv6_identity p = parse_ipv6_identity t) as [H4 H6].
  { unfold identity in Hp, Ht.
    destruct (parse_ipv4_identity p) eqn:H4p, (parse_ipv4_identity t) eqn:H4t; simplify_eq.
    - by rewrite (ipv4_identity_not_ipv6 _ _ H4p), (ipv4_identity_not_ipv6 _ _ H4t).
    - by destruct (parse_ipv6_identity t).
    - by destruct (parse_ipv6_identity p).
    - destruct (parse_ipv6_identity p), (parse_ipv6_identity t); naive_solver. }
  unfold host_admits. rewrite H4, H6, !host_eq_identity, Hp, Ht. done.
Qed.

(** A text that denotes no address is admitted by the wildcard or by name. *)
Lemma host_admits_name a t :
  identity t = None → host_admits a t = String.eqb a "*" || host_eq a t.
Proof.
  unfold identity, host_admits. destruct (parse_ipv4_identity t); [done|].
  destruct (parse_ipv6_identity t); [done|]. intros _.
  destruct (String.eqb a "*"); [done|].
  by destruct (parse_ipv4_cidr a) as [[??]|], (parse_ipv6_cidr a) as [[??]|].
Qed.

Lemma strip_brackets_cases h : strip_brackets h = h ∨ h = "[" +:+ (strip_brackets h +:+ "]").
Proof.
  unfold strip_brackets. destruct (strip_prefix "[" h) as [s|] eqn:Hp; [|by left].
  cbn [mbind option_bind]. destruct (strip_suffix_char "]" s) as [r|] eqn:Hs; [|by left].
  right. apply strip_prefix_Some in Hp as ->. apply strip_suffix_char_Some in Hs as ->. done.
Qed.

Lemma str_contains_brackets c h :
  Ascii.eqb "[" c = false → Ascii.eqb "]" c = false →
  str_contains c (strip_brackets h) = str_contains c h.
Proof.
  intros H1 H2. destruct (strip_brackets_cases h) as [->|He]; [done|].
  rewrite He at 2. rewrite !str_contains_app. cbn [str_contains]. rewrite H1, H2. cbn [orb]. by rewrite orb_false_r.
Qed.

(** A literal address has none of the characters of patterns. *)
Lemma identity_chars c h ip :
  identity h = Some ip → ip_char c = false → Ascii.eqb "[" c = false → Ascii.eqb "]" c = false →
  str_contains c h = false.
Proof.
  intros Hid Hc H1 H2. rewrite <- str_contains_brackets by done.
  assert (str_all ip_char (strip_brackets h) = true) as Hall; [|by eapply str_all_contains].
  unfold identity, parse_ipv4_identity, parse_ipv6_identity in Hid.
  destruct (parse_ipv4 (strip_brackets h)) eqn:H4.
  - eapply str_all_impl, parse_ipv4_chars, H4. exact v4_char_ip.
  - destruct (parse_ipv6 (strip_brackets h)) eqn:H6; [|done]. by eapply parse_ipv6_chars.
Qed.

(** * Blocks as text *)

Lemma digit_not c x : is_ascii_digit x = true → is_ascii_digit c = false → Ascii.eqb x c = false.
Proof. intros Hx Hc. apply ascii_eqb_neq. congruence. Qed.

Lemma strip_brackets_snoc s x :
  Ascii.eqb x "]" = false → strip_brackets (s +:+ String x "") = s +:+ String x "".
Proof.
  intros Hx. destruct (strip_brackets_cases (s +:+ String x "")) as [->|He]; [done|]. exfalso.
  apply (f_equal (strip_suffix_char "]")) in He.
  rewrite <- app_assoc_str, !strip_suffix_char_snoc, Hx in He. discriminate.
Qed.

(** A block's text has a slash and is its own canonical name, up to case. *)
Lemma cidr_text s :
  parse_ipv4_cidr s ≠ None ∨ parse_ipv6_cidr s ≠ None →
  str_contains "/" s = true ∧ canonical_dns_name s = to_ascii_lowercase s.
Proof.
  intros H.
  assert (∃ l r v, split_once "/" s = Some (l, r) ∧ parse_uint u8_max r = Some v)
    as (l & r & v & Hs & Hv).
  { unfold parse_ipv4_cidr, parse_ipv6_cidr in H.
    destruct (split_once "/" s) as [[l r]|]; [|by destruct H]. exists l, r. cbn [mbind option_bind] in H.
    destruct (parse_uint u8_max r) as [v|]; [by exists v|].
    destruct (parse_ipv4 l), (parse_ipv6 (strip_brackets l)); by destruct H. }
  apply split_once_Some in Hs as [-> _].
  apply parse_uint_text in Hv as (_ & q & x & -> & Hx).
  split; [rewrite str_contains_app; cbn [str_contains]; apply orb_true_r|].
  unfold canonical_dns_name.
  replace (l +:+ String "/" (q +:+ String x "")) with ((l +:+ String "/" q) +:+ String x "")
    by (by rewrite app_assoc_str).
  by rewrite strip_brackets_snoc, trim_end_char_snoc by (by apply digit_not).
Qed.

Section CaseOfText.
Context (c : ascii) (Hl : is_ascii_lower c = false) (Hu : is_ascii_upper c = false).

Lemma split_once_lower s :
  split_once c (to_ascii_lowercase s) =
  (λ '(l, r), (to_ascii_lowercase l, to_ascii_lowercase r)) <$> split_once c s.
Proof.
  induction s as [|a s IH]; [done|]. cbn. rewrite ascii_to_lower_other by done.
  destruct (Ascii.eqb a c); [done|]. rewrite IH. by destruct (split_once c s) as [[??]|].
Qed.

Lemma strip_suffix_char_lower s :
  strip_suffix_char c (to_ascii_lowercase s) = to_ascii_lowercase <$> strip_suffix_char c s.
Proof.
  destruct (decide (s = "")) as [->|Hne]; [done|]. destruct (str_snoc s Hne) as (r & x & ->).
  rewrite to_ascii_lowercase_app. cbn [to_ascii_lowercase].
  rewrite !strip_suffix_char_snoc, ascii_to_lower_other by done. by destruct (Ascii.eqb x c).
Qed.
End CaseOfText.

Lemma strip_brackets_lower s :
  strip_brackets (to_ascii_lowercase s) = to_ascii_lowercase (strip_brackets s).
Proof.
  unfold strip_brackets. change (strip_prefix "[") with (read_given_char "[").
  rewrite read_given_char_lower by done. destruct (read_given_char "[" s) as [r|]; [|done]. cbn.
  rewrite strip_suffix_char_lower by done. by destruct (strip_suffix_char "]" r).
Qed.

Lemma parse_digits_lower acc s : parse_digits acc (to_ascii_lowercase s) = parse_digits acc s.
Proof.
  revert acc. induction s as [|a s IH]; intros acc; [done|]. cbn [parse_digits to_ascii_lowercase].
  replace (digit_value (ascii_to_lower a)) with (digit_value a)
    by (by destruct a as [[] [] [] [] [] [] [] []]).
  destruct (digit_value a); [apply IH|done].
Qed.

Lemma parse_uint_lower max s : parse_uint max (to_ascii_lowercase s) = parse_uint max s.
Proof.
  unfold parse_uint. change (strip_prefix "+") with (read_given_char "+").
  rewrite read_given_char_lower by done.
  destruct (read_given_char "+" s) as [r|]; cbn [fmap option_fmap option_map];
    rewrite parse_digits_lower; [by destruct r|by destruct s].
Qed.

Lemma parse_ipv4_cidr_lower s : parse_ipv4_cidr (to_ascii_lowercase s) = parse_ipv4_cidr s.
Proof.
  unfold parse_ipv4_cidr. rewrite split_once_lower by done.
  destruct (split_once "/" s) as [[l r]|]; [|done]. cbn [fmap option_fmap option_map mbind option_bind].
  by rewrite parse_ipv4_lower, parse_uint_lower.
Qed.

Lemma parse_ipv6_cidr_lower s : parse_ipv6_cidr (to_ascii_lowercase s) = parse_ipv6_cidr s.
Proof.
  unfold parse_ipv6_cidr. rewrite split_once_lower by done.
  destruct (split_once "/" s) as [[l r]|]; [|done]. cbn [fmap option_fmap option_map mbind option_bind].
  by rewrite strip_brackets_lower, parse_ipv6_lower, parse_uint_lower.
Qed.

(** * Transitivity *)

Lemma port_admits_trans a p t :
  port_admits a p = true → port_admits p t = true → port_admits a t = true.
Proof.
  unfold port_admits. rewrite !orb_true_iff. intros [Ha|Hap] [Hp|Hpt]; eauto.
  - left. apply String.eqb_eq in Hp as ->. by destruct (parse_uint u16_max a).
  - right. destruct (parse_uint u16_max a) eqn:Ha, (parse_uint u16_max p) eqn:Hp,
      (parse_uint u16_max t) eqn:Ht; try (apply N.eqb_eq in Hap as ->); try done;
      try (apply String.eqb_eq in Hap as ->); try done;
      try (apply String.eqb_eq in Hpt as ->); congruence.
Qed.

(** What the grammar check guarantees of a host that is not an address: the
    wildcard and the blocks are written canonically. *)
Definition regular_host (h : string) : Prop :=
  (str_contains "*" h = true → h = "*") ∧
  (str_contains "/" h = true → parse_ipv4_cidr h ≠ None ∨ parse_ipv6_cidr h ≠ None).

Lemma canonical_contains c h :
  is_ascii_lower c = false → is_ascii_upper c = false →
  Ascii.eqb "[" c = false → Ascii.eqb "]" c = false →
  str_contains c (canonical_dns_name h) = true → str_contains c h = true.
Proof.
  intros Hl Hu H1 H2. unfold canonical_dns_name.
  rewrite <- (str_contains_brackets c h) by done. generalize (strip_brackets h). intros s Hs.
  apply str_contains_trim with "."%char. revert Hs. generalize (trim_end_char "." s). clear -Hl Hu.
  intros s. induction s as [|a s IH]; [done|]. cbn. rewrite ascii_to_lower_other by done.
  rewrite !orb_true_iff. tauto.
Qed.

Lemma host_admits_cong a p t :
  a ≠ "*" → p ≠ "*" → parse_ipv4_cidr a = parse_ipv4_cidr p → parse_ipv6_cidr a = parse_ipv6_cidr p →
  host_eq a p = true → host_admits p t = host_admits a t.
Proof.
  intros Ha%String.eqb_neq Hp%String.eqb_neq H4 H6 Heq. unfold host_admits.
  by rewrite Ha, Hp, H4, H6, (host_eq_trans a p t).
Qed.

(** A block or wildcard is admitted by name only by the same block or by the
    wildcard. *)
Lemma host_admits_pattern a p t :
  regular_host a → identity p = None → a ≠ "*" → host_eq a p = true →
  (p = "*" ∨ parse_ipv4_cidr p ≠ None ∨ parse_ipv6_cidr p ≠ None) →
  host_admits p t = host_admits a t.
Proof.
  intros [Hstar Hslash] Hp Ha Heq Hcase. pose proof Heq as Hname. rewrite host_eq_identity, Hp in Hname.
  destruct (identity a); [done|]. apply String.eqb_eq in Hname. destruct Hcase as [->|Hcidr].
  { destruct Ha. apply Hstar, canonical_contains; [done..|]. by rewrite Hname. }
  destruct (cidr_text p Hcidr) as [Hps Hpc].
  assert (p ≠ "*") by (intros ->; done).
  assert (Has : str_contains "/" a = true).
  { apply canonical_contains; [done..|]. rewrite Hname, Hpc, str_contains_any, str_any_lowercase;
      [by rewrite <- str_contains_any|]. intros x. by apply ascii_to_lower_other. }
  pose proof (Hslash Has) as Hacidr. destruct (cidr_text a Hacidr) as [_ Hac].
  rewrite Hac, Hpc in Hname. apply host_admits_cong; try done.
  - by rewrite <- parse_ipv4_cidr_lower, Hname, parse_ipv4_cidr_lower.
  - by rewrite <- parse_ipv6_cidr_lower, Hname, parse_ipv6_cidr_lower.
Qed.

Lemma identity_not_pattern p ip :
  identity p = Some ip → p ≠ "*" ∧ parse_ipv4_cidr p = None ∧ parse_ipv6_cidr p = None.
Proof.
  intros Hid. pose proof (identity_chars "/" p ip Hid eq_refl eq_refl eq_refl) as Hs.
  apply split_once_None in Hs. unfold parse_ipv4_cidr, parse_ipv6_cidr. rewrite Hs.
  split; [|done]. intros ->. by apply (identity_chars "*") in Hid.
Qed.

Lemma host_admits_plain p t :
  p ≠ "*" → parse_ipv4_cidr p = None → parse_ipv6_cidr p = None → host_admits p t = host_eq p t.
Proof. intros Hp%String.eqb_neq H4 H6. unfold host_admits. by rewrite Hp, H4, H6. Qed.

Lemma host_admits_trans a p t :
  regular_host a → host_admits a p = true → host_admits p t = true → host_admits a t = true.
Proof.
  intros Hreg Hap Hpt. destruct (decide (a = "*")) as [->|Ha]; [done|].
  destruct (identity p) as [ip|] eqn:Hid.
  - destruct (identity_not_pattern _ _ Hid) as (Hp & H4 & H6).
    rewrite host_admits_plain, host_eq_identity, Hid in Hpt by done.
    destruct (identity t) as [ip'|] eqn:Ht; [|done]. apply bool_decide_eq_true_1 in Hpt as <-.
    by rewrite <- (host_admits_identity a p t ip).
  - rewrite host_admits_name, (proj2 (String.eqb_neq a "*") Ha) in Hap by done. cbn [orb] in Hap.
    destruct (decide (p = "*" ∨ parse_ipv4_cidr p ≠ None ∨ parse_ipv6_cidr p ≠ None)) as [Hc|Hc].
    { by rewrite <- (host_admits_pattern a p t). }
    assert (p ≠ "*" ∧ parse_ipv4_cidr p = None ∧ parse_ipv6_cidr p = None) as (Hp & H4 & H6).
    { split_and!; [tauto|apply dec_stable; tauto..]. }
    rewrite host_admits_plain, (host_eq_trans a p t) in Hpt by done.
    rewrite host_admits_name; [by rewrite Hpt, orb_true_r|].
    rewrite <- (host_eq_trans a p t), host_eq_identity, Hid in Hpt by done. by destruct (identity t).
Qed.

(** ** Allowlists *)

(** Every allow entry passes the grammar check of host-facing documents. *)
Definition well_formed_allowlist (allow : list string) : bool :=
  forallb (λ e, is_deny e || bool_decide (net_pattern_error e = None)) allow.

(** The next check of [net_pattern_error] was passed. *)
Local Ltac passes H :=
  match goal with |- (if ?b then Some _ else _) = None → _ => destruct b eqn:H; [done|] end.

Lemma net_pattern_regular e :
  is_deny e = false → net_pattern_error e = None →
  regular_host (split_host_port e).1.
Proof.
  unfold is_deny, starts_with, net_pattern_error, split_host_port.
  destruct (strip_prefix "!" e); [done|]. intros _. cbn [default from_option id].
  destruct (rsplit_once ":" e) as [[h p]|]; [|done].
  do 2 (passes Hskip; clear Hskip). passes Hstar. apply orb_false_iff in Hstar as [_ Hstar].
  do 2 (passes Hskip; clear Hskip). passes Hslash.
  intros _. split; cbn [fst].
  - intros H. rewrite H in Hstar. destruct (String.eqb_spec h "*"); done.
  - intros H. rewrite H in Hslash. cbn [andb] in Hslash.
    apply andb_false_iff in Hslash as [H4|H6]; [left|right]; by eapply bool_decide_eq_false_1.
Qed.

Lemma address_admits_trans a p t :
  regular_host (split_host_port a).1 →
  address_admits a p = true → address_admits p t = true → address_admits a t = true.
Proof.
  unfold address_admits. destruct (split_host_port a) as [ah ap].
  destruct (split_host_port p) as [ph pp], (split_host_port t) as [th tp]. cbn [fst].
  intros Hreg. destruct (port_admits ap pp) eqn:H1; [|done]. intros Hap.
  destruct (port_admits pp tp) eqn:H2; [|done]. intros Hpt.
  rewrite (port_admits_trans _ _ _ H1 H2). cbn [negb] in *. by eapply host_admits_trans.
Qed.

Lemma net_denied_spec allow t :
  net_denied allow t = true ↔ ∃ e d, e ∈ allow ∧ strip_prefix "!" e = Some d ∧ address_admits d t = true.
Proof.
  unfold net_denied. rewrite existsb_exists. split.
  - intros (d & (e & He & Hd)%list_elem_of_In%list_elem_of_omap & Ht). eauto.
  - intros (e & d & He & Hd & Ht). exists d. split; [|done].
    apply list_elem_of_In, list_elem_of_omap. eauto.
Qed.

Lemma net_allows_spec allow t :
  net_allows allow t = true ↔
  net_denied allow t = false ∧ ∃ e, e ∈ allow ∧ is_deny e = false ∧ address_admits e t = true.
Proof.
  unfold net_allows. destruct (net_denied allow t); [naive_solver|]. rewrite existsb_exists.
  setoid_rewrite filter_In. setoid_rewrite <- list_elem_of_In. setoid_rewrite negb_true_iff.
  naive_solver.
Qed.

Lemma net_only_loop_spec allow patterns narrowed r :
  net_only_loop allow patterns narrowed = Ok r →
  r = (narrowed ++ patterns)%list ∧ Forall (λ p, net_allows allow p = true) patterns.
Proof.
  revert narrowed. induction patterns as [|p rest IH]; intros narrowed; cbn.
  { intros [= <-]. by rewrite app_nil_r. }
  destruct (net_allows allow p) eqn:Hp; [|done]. intros [-> Hall]%IH.
  rewrite <- app_assoc. by split; [|constructor].
Qed.

Lemma net_only_spec allow patterns r :
  net_only allow patterns = Ok r →
  r = (split_char newline patterns ++ List.filter is_deny allow)%list ∧
  Forall (λ p, net_allows allow p = true) (split_char newline patterns).
Proof.
  unfold net_only. destruct (net_only_loop _ _ _) as [n|] eqn:Hn; [|done].
  apply net_only_loop_spec in Hn as [-> Hall]. by intros [= <-].
Qed.

(** The deny entries of an allowlist survive narrowing. *)
Lemma net_only_keeps_denies allow patterns r t :
  net_only allow patterns = Ok r → net_denied allow t = true → net_denied r t = true.
Proof.
  intros [-> _]%net_only_spec. rewrite !net_denied_spec.
  intros (e & d & He & Hd & Ht). exists e, d. split; [|done].
  apply elem_of_app. right. apply list_elem_of_In, filter_In.
  rewrite <- list_elem_of_In. split; [done|]. unfold is_deny, starts_with. by rewrite Hd.
Qed.

(** C29: When every allow entry passes the grammar check of host-facing documents,
    an address admitted after narrowing was admitted before: ports and hosts
    compose, a wildcard or block is admitted by name only by itself, and the
    deny entries are carried over. *)
Theorem net_only_never_widens (allow : list string) (patterns : string) (narrowed : list string)
    (target : string) :
  well_formed_allowlist allow = true →
  net_only allow patterns = Ok narrowed → net_allows narrowed target = true →
  net_allows allow target = true.
Proof.
  intros Hwf Hn [Hnd (p & Hp & Hpd & Hpt)]%net_allows_spec.
  apply net_allows_spec. split.
  { destruct (net_denied allow target) eqn:Hd; [|done].
    by rewrite (net_only_keeps_denies _ _ _ _ Hn Hd) in Hnd. }
  apply net_only_spec in Hn as [-> Hall]. rewrite elem_of_app in Hp. destruct Hp as [Hp|Hp].
  2: { apply list_elem_of_In, filter_In in Hp as [_ Hp]. congruence. }
  rewrite list.Forall_forall in Hall. apply Hall in Hp as [_ (a & Ha & Had & Hap)]%net_allows_spec.
  exists a. split_and!; [done..|]. eapply address_admits_trans; [|done..].
  apply net_pattern_regular; [done|].
  unfold well_formed_allowlist in Hwf. rewrite forallb_forall in Hwf.
  apply list_elem_of_In, Hwf in Ha. rewrite Had in Ha. by apply bool_decide_eq_true_1 in Ha.
Qed.

(** Narrowing an allowlist whose hosts are not written canonically can widen
    it: the trailing dot makes the entry a name equal to the wildcard's. *)
Theorem net_only_trailing_dot_widens :
  net_only ["*:443"] "*.:443" = Ok ["*.:443"] ∧
  net_allows ["*.:443"] "203.0.113.7:443" = false ∧
  net_only ["*.:443"] "*:443" = Ok ["*:443"] ∧
  net_allows ["*:443"] "203.0.113.7:443" = true ∧
  net_only ["*:443"] "10.0.0.0/8.:443" = Ok ["10.0.0.0/8.:443"] ∧
  net_allows ["10.0.0.0/8.:443"] "10.1.2.3:443" = false ∧
  net_only ["10.0.0.0/8.:443"] "10.0.0.0/8:443" = Ok ["10.0.0.0/8:443"] ∧
  net_allows ["10.0.0.0/8:443"] "10.1.2.3:443" = true.
Proof. vm_compute. repeat split. Qed.

(** ** Blocks decide addresses arithmetically *)

Lemma parse_ipv4_cidr_bound s base bits :
  parse_ipv4_cidr s = Some (base, bits) → (base < 2 ^ 32)%N ∧ (bits ≤ 32)%N.
Proof.
  unfold parse_ipv4_cidr. destruct (split_once "/" s) as [[l r]|]; [|done]. cbn [mbind option_bind].
  destruct (parse_ipv4 l) as [b|] eqn:Hb; [|done]. cbn [mbind option_bind].
  destruct (parse_uint u8_max r) as [n|]; [|done]. cbn [mbind option_bind].
  destruct (N.leb_spec n 32); [|done]. intros [= <- <-]. split; [by eapply parse_ipv4_bound|done].
Qed.

Lemma parse_ipv6_cidr_bound s base bits :
  parse_ipv6_cidr s = Some (base, bits) → (base < 2 ^ 128)%N ∧ (bits ≤ 128)%N.
Proof.
  unfold parse_ipv6_cidr. destruct (split_once "/" s) as [[l r]|]; [|done]. cbn [mbind option_bind].
  destruct (parse_ipv6 (strip_brackets l)) as [b|] eqn:Hb; [|done]. cbn [mbind option_bind].
  destruct (parse_uint u8_max r) as [n|]; [|done]. cbn [mbind option_bind].
  destruct (N.leb_spec n 128); [|done]. intros [= <- <-]. split; [by eapply parse_ipv6_bound|done].
Qed.

Lemma identity_bound h ip :
  identity h = Some ip → match ip with V4 v => v < 2 ^ 32 | V6 v => v < 2 ^ 128 end%N.
Proof.
  unfold identity, parse_ipv4_identity, parse_ipv6_identity.
  destruct (parse_ipv4 _) as [v|] eqn:H4; [intros [= <-]; by eapply parse_ipv4_bound|].
  destruct (parse_ipv6 _) as [v|] eqn:H6; [|done]. cbn [mbind option_bind].
  destruct (to_ipv4_mapped v) as [w|] eqn:Hm; intros [= <-];
    [by eapply to_ipv4_mapped_bound|by eapply parse_ipv6_bound].
Qed.

(** The address set a host pattern stands for. *)
Definition block_contains (h : string) (ip : IpAddr) : bool :=
  match ip, parse_ipv4_cidr h, parse_ipv6_cidr h with
  | V4 v, Some (base, bits), _ => (v / 2 ^ (32 - bits) =? base / 2 ^ (32 - bits))%N
  | V6 v, _, Some (base, bits) => (v / 2 ^ (128 - bits) =? base / 2 ^ (128 - bits))%N
  | _, _, _ => false
  end.

Lemma cidr_not_identity h : str_contains "/" h = true → identity h = None.
Proof.
  intros Hs. destruct (identity h) as [ip|] eqn:Hid; [|done].
  by rewrite (identity_chars "/" h ip Hid eq_refl eq_refl eq_refl) in Hs.
Qed.

(** What a pattern stands for: the ports and the addresses it covers. *)
Definition covers (pattern : string) (ip : IpAddr) (port : N) : bool :=
  let '(h, p) := split_host_port pattern in
  (bool_decide (p = "*") || bool_decide (parse_uint u16_max p = Some port)) &&
  (bool_decide (h = "*") || block_contains h ip || bool_decide (identity h = Some ip)).

Lemma host_admits_literal host thost ip :
  identity thost = Some ip →
  host_admits host thost = true ↔
  host = "*" ∨ block_contains host ip = true ∨ identity host = Some ip.
Proof.
  intros Hid. pose proof (identity_bound _ _ Hid) as Hbound.
  unfold host_admits. destruct (String.eqb_spec host "*") as [->|Hstar]; [naive_solver|].
  assert (Hnot : parse_ipv4_cidr host ≠ None ∨ parse_ipv6_cidr host ≠ None → identity host = None).
  { intros [Hs _]%cidr_text. by apply cidr_not_identity. }
  assert (Heq : host_eq host thost = true ↔ identity host = Some ip).
  { rewrite host_eq_identity, Hid. destruct (identity host); [|done].
    rewrite bool_decide_eq_true. naive_solver. }
  unfold block_contains. unfold identity in Hid.
  destruct (parse_ipv4_identity thost) as [v|] eqn:H4.
  - injection Hid as <-. rewrite (ipv4_identity_not_ipv6 _ _ H4).
    destruct (parse_ipv4_cidr host) as [[base bits]|] eqn:Hc.
    + apply parse_ipv4_cidr_bound in Hc as [Hb Hbits]. rewrite ipv4_in_cidr_spec by done.
      rewrite Hnot by (by left). naive_solver.
    + destruct (parse_ipv6_cidr host) as [[??]|]; rewrite Heq; naive_solver.
  - destruct (parse_ipv6_identity thost) as [v|] eqn:H6; [|done]. injection Hid as <-.
    destruct (parse_ipv6_cidr host) as [[base bits]|] eqn:Hc.
    + apply parse_ipv6_cidr_bound in Hc as [Hb Hbits].
      destruct (parse_ipv4_cidr host) as [[??]|]; rewrite ipv6_in_cidr_spec by done;
        rewrite Hnot by (by right); naive_solver.
    + destruct (parse_ipv4_cidr host) as [[??]|]; rewrite Heq; naive_solver.
Qed.

Lemma port_admits_number p tport n :
  parse_uint u16_max tport = Some n → port_admits p tport = true ↔ p = "*" ∨ parse_uint u16_max p = Some n.
Proof.
  intros Hn. unfold port_admits. rewrite orb_true_iff, String.eqb_eq, Hn.
  destruct (parse_uint u16_max p) as [m|] eqn:Hm.
  - rewrite N.eqb_eq. naive_solver.
  - rewrite String.eqb_eq. naive_solver.
Qed.

Lemma address_admits_literal pattern target thost tport ip n :
  split_host_port target = (thost, tport) →
  identity thost = Some ip → parse_uint u16_max tport = Some n →
  address_admits pattern target = covers pattern ip n.
Proof.
  intros Ht Hid Hn. unfold address_admits, covers. rewrite Ht.
  destruct (split_host_port pattern) as [h p]. apply eq_true_iff_eq.
  rewrite andb_true_iff, !orb_true_iff, !bool_decide_eq_true, Logic.or_assoc, <- (host_admits_literal h thost ip Hid).
  rewrite <- (port_admits_number p tport n Hn).
  destruct (port_admits p tport); cbn [negb]; naive_solver.
Qed.

(** ** Addresses that are dialled *)

Definition socket_port (sa : SocketAddr) : N :=
  match sa with SocketV4 _ port | SocketV6 _ port _ => port end.

(** A socket address at its machine widths, without a scope. *)
Definition unscoped (sa : SocketAddr) : Prop :=
  match sa with
  | SocketV4 ip port => ip < 2 ^ 32 ∧ port ≤ u16_max
  | SocketV6 ip port scope_id => ip < 2 ^ 128 ∧ port ≤ u16_max ∧ scope_id = 0
  end%N.

Lemma port_text_no_colon s : str_all is_ascii_digit s = true → str_contains ":" s = false.
Proof. intros H. by eapply str_all_contains. Qed.

Lemma identity_plain s : str_contains "[" s = false →
  identity s = match parse_ipv4 s with Some v => Some (V4 v) | None => normalize_ip ∘ V6 <$> parse_ipv6 s end.
Proof.
  intros Hs. unfold identity, parse_ipv4_identity, parse_ipv6_identity.
  assert (strip_brackets s = s) as ->.
  { destruct (strip_brackets_cases s) as [->|He]; [done|]. rewrite He in Hs. done. }
  destruct (parse_ipv4 s); [done|]. destruct (parse_ipv6 s) as [v|]; [|done]. cbn.
  by destruct (to_ipv4_mapped v).
Qed.

Lemma identity_bracketed s : identity ("[" +:+ (s +:+ "]")) =
  match parse_ipv4 s with Some v => Some (V4 v) | None => normalize_ip ∘ V6 <$> parse_ipv6 s end.
Proof.
  unfold identity, parse_ipv4_identity, parse_ipv6_identity.
  assert (strip_brackets ("[" +:+ (s +:+ "]")) = s) as ->.
  { unfold strip_brackets. rewrite strip_prefix_app. cbn [mbind option_bind].
    by rewrite strip_suffix_char_snoc. }
  destruct (parse_ipv4 s); [done|]. destruct (parse_ipv6 s) as [v|]; [|done]. cbn.
  by destruct (to_ipv4_mapped v).
Qed.

(** The text of a resolved address denotes that address. *)
Lemma show_socket_identity sa :
  unscoped sa →
  ∃ host, split_host_port (show_socket sa) = (host, show_N (socket_port sa)) ∧
          identity host = Some (normalize_ip (socket_ip sa)) ∧
          parse_uint u16_max (show_N (socket_port sa)) = Some (socket_port sa).
Proof.
  unfold split_host_port. destruct sa as [ip port|ip port scope]; cbn [unscoped show_socket socket_port socket_ip].
  - intros [Hip Hport]. exists (show_ipv4 ip).
    rewrite app_cons_str, app_nil_l_str, rsplit_once_app by apply port_text_no_colon, show_N_digits. split; [done|].
    pose proof (parse_show_ipv4 ip Hip) as Hp. split; [|by apply parse_show_N].
    rewrite identity_plain; [by rewrite Hp|].
    apply parse_ipv4_chars in Hp. by eapply str_all_contains.
  - intros (Hip & Hport & ->). cbn [N.eqb]. exists ("[" +:+ (show_ipv6 ip +:+ "]")).
    replace ("[" +:+ show_ipv6 ip +:+ "]:" +:+ show_N port)
      with (("[" +:+ (show_ipv6 ip +:+ "]")) +:+ String ":" (show_N port)) by (by rewrite !app_assoc_str).
    rewrite rsplit_once_app by apply port_text_no_colon, show_N_digits. split; [done|].
    split; [|by apply parse_show_N]. rewrite identity_bracketed.
    pose proof (parse_show_ipv6 ip Hip) as Hp. rewrite Hp.
    destruct (parse_ipv4 (show_ipv6 ip)) eqn:H4; [|done]. by rewrite (parse_ipv4_not_ipv6 _ _ H4) in Hp.
Qed.

Lemma address_admits_socket pattern sa :
  unscoped sa →
  address_admits pattern (show_socket sa) = covers pattern (normalize_ip (socket_ip sa)) (socket_port sa).
Proof.
  intros (host & Hs & Hid & Hp)%show_socket_identity. by eapply address_admits_literal.
Qed.

(** ** Addresses with a scope *)

(** The text of an IPv6 address with a scope is no literal: no block and no
    address covers it, only the wildcard and an entry with that text. *)
Definition scoped_text (ip : Ipv6Addr) (scope_id : N) : string := show_ipv6 ip +:+ "%" +:+ show_N scope_id.

Definition covers_text (pattern text : string) (port : N) : bool :=
  let '(h, p) := split_host_port pattern in
  (bool_decide (p = "*") || bool_decide (parse_uint u16_max p = Some port)) &&
  (bool_decide (h = "*") ||
   bool_decide (identity h = None) && bool_decide (canonical_dns_name h = to_ascii_lowercase (trim_end_char "." text))).

(** What covers a resolved address. *)
Definition covers_socket (pattern : string) (sa : SocketAddr) : bool :=
  match sa with
  | SocketV6 ip port scope_id =>
      if (scope_id =? 0)%N then covers pattern (normalize_ip (V6 ip)) port
      else covers_text pattern (scoped_text ip scope_id) port
  | SocketV4 ip port => covers pattern (V4 ip) port
  end.

(** A socket address at its machine widths. *)
Definition socket_width (sa : SocketAddr) : Prop :=
  match sa with
  | SocketV4 ip port => ip < 2 ^ 32 ∧ port ≤ u16_max
  | SocketV6 ip port _ => ip < 2 ^ 128 ∧ port ≤ u16_max
  end%N.

Lemma host_admits_text host thost :
  identity thost = None →
  host_admits host thost = true ↔
  host = "*" ∨ identity host = None ∧ canonical_dns_name host = canonical_dns_name thost.
Proof.
  intros Hid. unfold host_admits. destruct (String.eqb_spec host "*") as [->|Hstar]; [naive_solver|].
  assert (parse_ipv4_identity thost = None ∧ parse_ipv6_identity thost = None) as [-> ->].
  { unfold identity in Hid. by destruct (parse_ipv4_identity thost), (parse_ipv6_identity thost). }
  assert (host_eq host thost = true ↔ identity host = None ∧ canonical_dns_name host = canonical_dns_name thost) as Heq.
  { rewrite host_eq_identity, Hid. destruct (identity host); [naive_solver|]. rewrite String.eqb_eq. naive_solver. }
  destruct (parse_ipv4_cidr host) as [[??]|], (parse_ipv6_cidr host) as [[??]|]; rewrite Heq; naive_solver.
Qed.

Lemma address_admits_scoped pattern ip port scope_id :
  (port ≤ u16_max)%N → scope_id ≠ 0%N →
  address_admits pattern (show_socket (SocketV6 ip port scope_id)) = covers_text pattern (scoped_text ip scope_id) port.
Proof.
  intros Hport Hs. cbn [show_socket]. rewrite (proj2 (N.eqb_neq _ _) Hs).
  set (host := "[" +:+ (scoped_text ip scope_id +:+ "]")).
  assert (split_host_port ("[" +:+ show_ipv6 ip +:+ "%" +:+ show_N scope_id +:+ "]:" +:+ show_N port) = (host, show_N port)) as Ht.
  { unfold split_host_port, host, scoped_text.
    replace ("[" +:+ show_ipv6 ip +:+ "%" +:+ show_N scope_id +:+ "]:" +:+ show_N port)
      with (("[" +:+ ((show_ipv6 ip +:+ "%" +:+ show_N scope_id) +:+ "]")) +:+ String ":" (show_N port)) by (by rewrite !app_assoc_str).
    by rewrite rsplit_once_app by apply port_text_no_colon, show_N_digits. }
  assert (identity host = None) as Hid.
  { destruct (identity host) as [v|] eqn:Hv; [|done].
    pose proof (identity_chars "%" host v Hv eq_refl eq_refl eq_refl) as Hc. unfold host, scoped_text in Hc.
    rewrite !str_contains_app in Hc. cbn in Hc. by rewrite ?orb_true_r in Hc. }
  assert (canonical_dns_name host = to_ascii_lowercase (trim_end_char "." (scoped_text ip scope_id))) as Hname.
  { unfold canonical_dns_name, host, strip_brackets. rewrite strip_prefix_app. cbn [mbind option_bind].
    by rewrite strip_suffix_char_snoc. }
  unfold address_admits, covers_text. rewrite Ht. destruct (split_host_port pattern) as [h p]. apply eq_true_iff_eq.
  rewrite andb_true_iff, !orb_true_iff, andb_true_iff, !bool_decide_eq_true, <- Hname, <- (host_admits_text h host Hid).
  rewrite <- port_admits_number by (by apply parse_show_N). destruct (port_admits p _); cbn [negb]; naive_solver.
Qed.

Lemma address_admits_resolved pattern sa :
  socket_width sa → address_admits pattern (show_socket sa) = covers_socket pattern sa.
Proof.
  destruct sa as [ip port|ip port scope_id]; cbn [socket_width covers_socket].
  - intros H. by rewrite address_admits_socket.
  - intros [Hip Hport]. destruct (N.eqb_spec scope_id 0) as [->|Hs]; [by rewrite address_admits_socket|].
    by apply address_admits_scoped.
Qed.



Lemma net_only_never_widens_witness :
  net_allows ["*:443"; "!10.0.0.0/8:*"] "example.com:443" = true.
Proof.
  apply (net_only_never_widens _ "Example.com.:443" ["Example.com.:443"; "!10.0.0.0/8:*"]);
    vm_compute; reflexivity.
Defined.

Section ResolverFacts.
Context (to_socket_addrs : string → result string (list SocketAddr)).

Lemma resolve_admitted_ok allow addr addrs :
  resolve_admitted_typed to_socket_addrs allow addr = Ok addrs ↔
  net_denied allow addr = false ∧ addrs ≠ [] ∧
  ∃ resolved, to_socket_addrs addr = Ok resolved ∧
    (addrs = List.filter (λ sa, net_allows allow (show_socket sa)) resolved ∨
     List.filter (λ sa, net_allows allow (show_socket sa)) resolved = [] ∧
     net_allows allow addr = true ∧
     addrs = List.filter (λ sa, negb (net_denied allow (show_socket sa))) resolved).
Proof.
  unfold resolve_admitted_typed. destruct (net_denied allow addr); [naive_solver|].
  destruct (to_socket_addrs addr) as [resolved|e]; [|destruct (net_allows allow addr); naive_solver].
  assert (Hres : ∀ P : list SocketAddr → Prop,
    (∃ r, @Ok string _ resolved = Ok r ∧ P r) ↔ P resolved) by naive_solver.
  rewrite Hres. clear Hres.
  destruct (List.filter (λ sa, net_allows allow (show_socket sa)) resolved); [|naive_solver].
  destruct (net_allows allow addr); [|naive_solver].
  destruct (List.filter (λ sa, negb (net_denied allow (show_socket sa))) resolved); naive_solver.
Qed.

(** Failures are classified by the policy, never by the resolver: a name is
    reported unresolved exactly when the policy allows it and the lookup
    failed, everything else that fails is a denial with the fixed text. *)
Theorem resolve_failures_exact (allow : list string) (addr : string) :
  (∀ m, resolve_admitted_typed to_socket_addrs allow addr = Err (Unresolved m) ↔
     net_allows allow addr = true ∧
     ∃ e, to_socket_addrs addr = Err e ∧ m = "`" +:+ addr +:+ "` could not be resolved: " +:+ e) ∧
  (∀ m, resolve_admitted_typed to_socket_addrs allow addr = Err (Denied m) ↔
     Denied m = not_permitted addr ∧
     (net_denied allow addr = true ∨
      net_allows allow addr = false ∧ (∃ e, to_socket_addrs addr = Err e) ∨
      ∃ resolved, to_socket_addrs addr = Ok resolved ∧
        Forall (λ sa, net_allows allow (show_socket sa) = false) resolved ∧
        (net_allows allow addr = false ∨
         Forall (λ sa, net_denied allow (show_socket sa) = true) resolved))).
Proof.
  assert (Hnil : ∀ (f : SocketAddr → bool) l, List.filter f l = [] ↔ Forall (λ x, f x = false) l).
  { intros f l; induction l as [|x l IH]; [done|]. cbn. rewrite Forall_cons_iff.
    destruct (f x); naive_solver. }
  assert (Hneg : ∀ (f : SocketAddr → bool) l,
    Forall (λ x, negb (f x) = false) l ↔ Forall (λ x, f x = true) l).
  { intros f l. apply Forall_iff. intros x. by rewrite negb_false_iff. }
  assert (Hden : net_allows allow addr = true → net_denied allow addr = false).
  { by intros [? _]%net_allows_spec. }
  unfold resolve_admitted_typed, not_permitted.
  destruct (net_denied allow addr) eqn:Hd.
  { destruct (net_allows allow addr); [by specialize (Hden eq_refl)|]. split; naive_solver. }
  destruct (to_socket_addrs addr) as [resolved|e].
  2: { destruct (net_allows allow addr); split; naive_solver. }
  setoid_rewrite <- (Hneg (λ sa, net_denied allow (show_socket sa))). setoid_rewrite <- Hnil.
  assert (Hres : ∀ P : list SocketAddr → Prop,
    (∃ r, @Ok string _ resolved = Ok r ∧ P r) ↔ P resolved) by naive_solver.
  setoid_rewrite Hres. clear Hres.
  destruct (List.filter (λ sa, net_allows allow (show_socket sa)) resolved); [|split; naive_solver].
  destruct (net_allows allow addr); [|split; naive_solver].
  destruct (List.filter (λ sa, negb (net_denied allow (show_socket sa))) resolved); split; naive_solver.
Qed.

(** Every address handed to the dialler was resolved from the requested text,
    no deny entry covers it or the requested text, and an allow entry covers
    it unless the text itself is allowed. *)
Theorem resolve_admitted_sound (allow : list string) (addr : string) (addrs : list SocketAddr)
    (sa : SocketAddr) :
  resolve_admitted to_socket_addrs allow addr = Ok addrs → sa ∈ addrs → unscoped sa →
  (∃ resolved, to_socket_addrs addr = Ok resolved ∧ sa ∈ resolved) ∧
  (∀ e d, e ∈ allow → strip_prefix "!" e = Some d →
          covers d (normalize_ip (socket_ip sa)) (socket_port sa) = false ∧
          address_admits d addr = false) ∧
  ((∃ e, e ∈ allow ∧ is_deny e = false ∧
         covers e (normalize_ip (socket_ip sa)) (socket_port sa) = true) ∨
   net_allows allow addr = true).
Proof.
  unfold resolve_admitted. destruct (resolve_admitted_typed _ _ _) as [l|] eqn:Hr; [|done].
  cbn [map_err]. intros [= <-] Hsa Hu.
  apply resolve_admitted_ok in Hr as (Hd & _ & resolved & Hres & Hcase).
  assert (Hok : sa ∈ resolved ∧ net_denied allow (show_socket sa) = false ∧
    (net_allows allow (show_socket sa) = true ∨ net_allows allow addr = true)).
  { destruct Hcase as [->|(_ & Hname & ->)]; apply list_elem_of_In, filter_In in Hsa as [Hin Hf];
      apply list_elem_of_In in Hin.
    - pose proof Hf as Hf'. apply net_allows_spec in Hf' as [Hnd _]. eauto.
    - apply negb_true_iff in Hf. eauto. }
  destruct Hok as (Hin & Hnd & Hallow). split; [by eauto|]. split.
  - intros e d He Hed. rewrite <- address_admits_socket by done.
    split; apply not_true_iff_false; intros Ht.
    + rewrite (proj2 (net_denied_spec allow (show_socket sa))) in Hnd by eauto. done.
    + rewrite (proj2 (net_denied_spec allow addr)) in Hd by eauto. done.
  - destruct Hallow as [[_ (e & He & Hed & Ht)]%net_allows_spec|]; [left|by right].
    exists e. rewrite address_admits_socket in Ht by done. done.
Qed.

End ResolverFacts.

(** A host that no entry admits is refused before any query: the answer is
    the same for every resolver. *)
Theorem resolve_host_exact (to_socket_addrs_of : string → N → result string (list SocketAddr))
    (allow : list string) (host : string) :
  (host_admitted allow host = false →
   resolve_host_admitted_typed to_socket_addrs_of allow host = Err (not_permitted host)) ∧
  (host_admitted allow host = true →
   match to_socket_addrs_of (canonical_dns_name host) 0%N with
   | Err e => ∃ m, resolve_host_admitted_typed to_socket_addrs_of allow host = Err (Unresolved m)
   | Ok addrs =>
       ∃ ips, resolve_host_admitted_typed to_socket_addrs_of allow host = Ok ips ∧ NoDup ips ∧
         ∀ ip, ip ∈ ips ↔ ∃ sa, sa ∈ addrs ∧ ip = normalize_ip (socket_ip sa)
   end).
Proof.
  unfold resolve_host_admitted_typed. split; intros ->; [done|]. cbn [negb].
  destruct (to_socket_addrs_of _ 0%N) as [addrs|e]; [|by eexists]. eexists. split; [done|].
  assert (Hgen : ∀ l acc, NoDup acc →
    NoDup (foldl (λ ips addr, push_new ips (normalize_ip (socket_ip addr))) acc l) ∧
    ∀ ip, ip ∈ foldl (λ ips addr, push_new ips (normalize_ip (socket_ip addr))) acc l ↔
      ip ∈ acc ∨ ∃ sa, sa ∈ l ∧ ip = normalize_ip (socket_ip sa)).
  { induction l as [|sa l IH]; intros acc Hnd; cbn [foldl].
    { split; [done|]. intros ip. split; [by left|]. intros [|(? & ?%elem_of_nil & _)]; done. }
    assert (Hpush : NoDup (push_new acc (normalize_ip (socket_ip sa))) ∧
      ∀ ip, ip ∈ push_new acc (normalize_ip (socket_ip sa)) ↔ ip ∈ acc ∨ ip = normalize_ip (socket_ip sa)).
    { unfold push_new. case_bool_decide as Hin; [naive_solver|]. split.
      - apply list.NoDup_app. split_and!; [done| |apply NoDup_singleton].
        intros x Hx ->%list_elem_of_singleton. done.
      - intros ip. by rewrite elem_of_app, list_elem_of_singleton. }
    destruct Hpush as [Hnd' Hin']. destruct (IH _ Hnd') as [IH1 IH2]. split; [done|].
    intros ip. rewrite IH2, Hin'. setoid_rewrite elem_of_cons. naive_solver. }
  destruct (Hgen addrs [] (NoDup_nil_2)) as [H1 H2]. split; [done|]. intros ip. rewrite H2.
  split; [intros [?%elem_of_nil|]; done|by right].
Qed.

(** An address written with a scope is not a literal for the policy: a deny
    block that contains it does not stop it, while the same address without
    the scope is refused. *)
Theorem scoped_address_escapes_deny (to_socket_addrs : string → result string (list SocketAddr)) :
  to_socket_addrs "[::1%1]:80" = Ok [SocketV6 1 80 1] →
  to_socket_addrs "[::1]:80" = Ok [SocketV6 1 80 0] →
  resolve_admitted to_socket_addrs ["*:80"; "!::1/128:*"] "[::1%1]:80" = Ok [SocketV6 1 80 1] ∧
  resolve_admitted to_socket_addrs ["*:80"; "!::1/128:*"] "[::1]:80" =
    Err "`[::1]:80` is not permitted by this Net capability".
Proof.
  intros H1 H2. unfold resolve_admitted, resolve_admitted_typed. rewrite H1, H2. by vm_compute.
Qed.

(** ** Secrets *)

Lemma xor_difference_zero seed secret d :
  length seed = length secret →
  foldl (λ diff '(a, b), N.lor diff (N.lxor a b)) d (zip seed secret) = 0%N ↔ d = 0%N ∧ seed = secret.
Proof.
  revert secret d. induction seed as [|a seed IH]; intros [|b secret] d Hlen; try done; cbn.
  { naive_solver. }
  rewrite IH by (by injection Hlen). rewrite N.lor_eq_0_iff, N.lxor_eq_0_iff. naive_solver.
Qed.

(** The constant-time comparison decides byte equality with the host's key. *)
Theorem secret_is_signing_key_exact (signing_key : option (list N)) (secret : list N) :
  secret_is_signing_key signing_key secret = true ↔ signing_key = Some secret.
Proof.
  destruct signing_key as [seed|]; [|done]. cbn [secret_is_signing_key].
  destruct (Nat.eqb_spec (length seed) (length secret)) as [Hlen|Hlen].
  - rewrite N.eqb_eq. unfold xor_difference. rewrite xor_difference_zero by done. naive_solver.
  - split; [done|]. by intros [= ->].
Qed.

(** A resolver with one public and one private answer. *)
Definition sample_resolver (addr : string) : result string (list SocketAddr) :=
  if String.eqb addr "example.com:443"
  then Ok [SocketV4 167772161 443; SocketV4 3405803783 443]
  else if String.eqb addr "[::1%1]:80" then Ok [SocketV6 1 80 1]
  else if String.eqb addr "[::1]:80" then Ok [SocketV6 1 80 0]
  else Err "no such host".

Lemma resolve_admitted_sound_witness :
  resolve_admitted sample_resolver ["example.com:443"; "!10.0.0.0/8:*"] "example.com:443" =
    Ok [SocketV4 3405803783 443] ∧
  covers "10.0.0.0/8:*" (V4 3405803783) 443 = false.
Proof.
  split; [vm_compute; reflexivity|].
  destruct (resolve_admitted_sound sample_resolver ["example.com:443"; "!10.0.0.0/8:*"]
    "example.com:443" [SocketV4 3405803783 443] (SocketV4 3405803783 443)) as (_ & Hd & _).
  - vm_compute. reflexivity.
  - left.
  - vm_compute. split; [reflexivity|discriminate].
  - apply (Hd "!10.0.0.0/8:*"); [right; left|reflexivity].
Defined.

Lemma scoped_address_escapes_deny_witness :
  resolve_admitted sample_resolver ["*:80"; "!::1/128:*"] "[::1%1]:80" = Ok [SocketV6 1 80 1].
Proof. apply scoped_address_escapes_deny; reflexivity. Defined.

Lemma resolve_host_exact_witness :
  resolve_host_admitted_typed (λ _ _, Err "unused") ["example.com:443"] "example.org" =
    Err (not_permitted "example.org").
Proof. apply resolve_host_exact. vm_compute. reflexivity. Defined.
