(* ===== verification/Whitespace.v ===== *)
(** * Whitespace: [str::trim] and [str::split_whitespace]

    Rust's whitespace is the Unicode property; on UTF-8 text that is the
    ASCII blanks and the encodings of the wide ones. *)

From S2P Require Import Prelude Text NetPolicy.

Local Open Scope string_scope.

(** The rest of [s] after a leading whitespace character. *)
Definition strip_whitespace (s : string) : option string :=
  match s with
  | "" => None
  | String a rest =>
      if ascii_whitespace a then Some rest
      else head (omap (λ w, strip_prefix w s) wide_whitespace)
  end.

Fixpoint trim_start_fuel (fuel : nat) (s : string) : string :=
  match fuel with
  | O => s
  | S fuel => match strip_whitespace s with Some rest => trim_start_fuel fuel rest | None => s end
  end.

(** Every step removes a character, so the length is enough. *)
Definition trim_start (s : string) : string := trim_start_fuel (String.length s) s.

Fixpoint trim_end (s : string) : string :=
  match s with
  | "" => ""
  | String a rest => if String.eqb (trim_start s) "" then "" else String a (trim_end rest)
  end.

Definition trim (s : string) : string := trim_end (trim_start s).

(** The word read so far is a word of the result unless it is empty. *)
Definition end_word (word : string) (words : list string) : list string :=
  if String.eqb word "" then words else word :: words.

Fixpoint split_whitespace_fuel (fuel : nat) (s word : string) : list string :=
  match fuel with
  | O => end_word word []
  | S fuel =>
      match strip_whitespace s with
      | Some rest => end_word word (split_whitespace_fuel fuel rest "")
      | None =>
          match s with
          | "" => end_word word []
          | String a rest => split_whitespace_fuel fuel rest (word +:+ String a "")
          end
      end
  end.

Definition split_whitespace (s : string) : list string :=
  split_whitespace_fuel (S (String.length s)) s "".
