(* ===== verification/Authority.v ===== *)
(** * Authority: stable identities, right sets, scopes and capability contracts

    Models the first half of [crates/witchy-cap-model/src/authority.rs]: the
    explicitly assigned identifiers, the closed bitset [RightsSet] with its
    fail-closed decoder, the slice form of the right lattice
    ([rights_are_well_formed], [rights_admit]), authority scopes and the
    contract of each capability kind.  Identifier newtypes over [u16] are
    [N]; [from_raw] and [get] are then the identity. *)

From S2P Require Import Prelude Text Catalog.

Local Open Scope string_scope.

Definition NO_RIGHTS : list CapabilityRight := [].
Definition READ : list CapabilityRight := [Read].
Definition WRITE : list CapabilityRight := [Write].
Definition CONNECT : list CapabilityRight := [Connect].
Definition CONNECT_TCP : list CapabilityRight := [Connect; Tcp].
Definition LISTEN_TCP : list CapabilityRight := [Listen; Tcp].
Definition REVEAL : list CapabilityRight := [Reveal; Seal].
Definition SEAL : list CapabilityRight := [Seal].

(** ** Stable identifiers *)

Module CapabilityKindId.
Definition CONSOLE : N := 0x0001.
Definition CLOCK : N := 0x0002.
Definition RAND : N := 0x0003.
Definition ENV : N := 0x0004.
Definition SECRET : N := 0x0005.
Definition SECRET_STORE : N := 0x0006.
Definition DIR : N := 0x0007.
Definition FILE : N := 0x0008.
Definition NET : N := 0x0009.
Definition FETCH : N := 0x000a.
Definition EXEC : N := 0x000b.
Definition SOCKET : N := 0x0101.
Definition LISTENER : N := 0x0102.
Definition BUILD_OUT : N := 0x0201.
Definition BUILD_READ : N := 0x0202.
Definition BUILD_ENV : N := 0x0203.
Definition BUILD_NET : N := 0x0204.
Definition BUILD_EXEC : N := 0x0205.
End CapabilityKindId.

Module CapabilityRightId.
Definition READ : N := 0x0001.
Definition WRITE : N := 0x0002.
Definition CONNECT : N := 0x0003.
Definition LISTEN : N := 0x0004.
Definition TCP : N := 0x0005.
Definition UDP : N := 0x0006.
Definition UDS : N := 0x0007.
Definition REVEAL : N := 0x0008.
Definition SEAL : N := 0x0009.
End CapabilityRightId.

Definition kind_stable_id (k : CapabilityKind) : N :=
  match k with
  | Console => CapabilityKindId.CONSOLE
  | Clock => CapabilityKindId.CLOCK
  | Rand => CapabilityKindId.RAND
  | Env => CapabilityKindId.ENV
  | Secret => CapabilityKindId.SECRET
  | SecretStore => CapabilityKindId.SECRET_STORE
  | Dir => CapabilityKindId.DIR
  | File => CapabilityKindId.FILE
  | Net => CapabilityKindId.NET
  | Fetch => CapabilityKindId.FETCH
  | Exec => CapabilityKindId.EXEC
  | Socket => CapabilityKindId.SOCKET
  | Listener => CapabilityKindId.LISTENER
  | BuildOut => CapabilityKindId.BUILD_OUT
  | BuildRead => CapabilityKindId.BUILD_READ
  | BuildEnv => CapabilityKindId.BUILD_ENV
  | BuildNet => CapabilityKindId.BUILD_NET
  | BuildExec => CapabilityKindId.BUILD_EXEC
  end.

Definition right_stable_id (r : CapabilityRight) : N :=
  match r with
  | Read => CapabilityRightId.READ
  | Write => CapabilityRightId.WRITE
  | Connect => CapabilityRightId.CONNECT
  | Listen => CapabilityRightId.LISTEN
  | Tcp => CapabilityRightId.TCP
  | Udp => CapabilityRightId.UDP
  | Uds => CapabilityRightId.UDS
  | Reveal => CapabilityRightId.REVEAL
  | Seal => CapabilityRightId.SEAL
  end.

Definition capability_kind_from_id (id : N) : option CapabilityKind :=
  if (id =? CapabilityKindId.CONSOLE)%N then Some Console
  else if (id =? CapabilityKindId.CLOCK)%N then Some Clock
  else if (id =? CapabilityKindId.RAND)%N then Some Rand
  else if (id =? CapabilityKindId.ENV)%N then Some Env
  else if (id =? CapabilityKindId.SECRET)%N then Some Secret
  else if (id =? CapabilityKindId.SECRET_STORE)%N then Some SecretStore
  else if (id =? CapabilityKindId.DIR)%N then Some Dir
  else if (id =? CapabilityKindId.FILE)%N then Some File
  else if (id =? CapabilityKindId.NET)%N then Some Net
  else if (id =? CapabilityKindId.FETCH)%N then Some Fetch
  else if (id =? CapabilityKindId.EXEC)%N then Some Exec
  else if (id =? CapabilityKindId.SOCKET)%N then Some Socket
  else if (id =? CapabilityKindId.LISTENER)%N then Some Listener
  else if (id =? CapabilityKindId.BUILD_OUT)%N then Some BuildOut
  else if (id =? CapabilityKindId.BUILD_READ)%N then Some BuildRead
  else if (id =? CapabilityKindId.BUILD_ENV)%N then Some BuildEnv
  else if (id =? CapabilityKindId.BUILD_NET)%N then Some BuildNet
  else if (id =? CapabilityKindId.BUILD_EXEC)%N then Some BuildExec
  else None.

Definition capability_right_from_id (id : N) : option CapabilityRight :=
  if (id =? CapabilityRightId.READ)%N then Some Read
  else if (id =? CapabilityRightId.WRITE)%N then Some Write
  else if (id =? CapabilityRightId.CONNECT)%N then Some Connect
  else if (id =? CapabilityRightId.LISTEN)%N then Some Listen
  else if (id =? CapabilityRightId.TCP)%N then Some Tcp
  else if (id =? CapabilityRightId.UDP)%N then Some Udp
  else if (id =? CapabilityRightId.UDS)%N then Some Uds
  else if (id =? CapabilityRightId.REVEAL)%N then Some Reveal
  else if (id =? CapabilityRightId.SEAL)%N then Some Seal
  else None.

(** ** Right sets *)

(** Position of a right in the canonical bitset: the shift amount of
    [canonical_bit]. *)
Definition bit_index (r : CapabilityRight) : N :=
  match r with
  | Read => 0
  | Write => 1
  | Connect => 2
  | Listen => 3
  | Tcp => 4
  | Udp => 5
  | Uds => 6
  | Reveal => 7
  | Seal => 8
  end.

Definition canonical_bit (r : CapabilityRight) : N := N.shiftl 1 (bit_index r).

Definition KNOWN_RIGHT_BITS : N := N.shiftl 1 9 - 1.

Inductive RightsSetError : Set :=
  | UnknownBits (bits : N)
  | RightNotAvailable (kind : CapabilityKind) (right : CapabilityRight)
  | RevealWithoutSeal.

Module RightsSet.
(** [bits & mask != 0] *)
Definition has_bits (bits mask : N) : bool := negb (N.land bits mask =? 0)%N.

(** The loop of [from_canonical_bits]: the first present right the kind
    does not have. *)
Fixpoint first_unavailable (kind : CapabilityKind) (bits : N)
    (rights : list CapabilityRight) : option CapabilityRight :=
  match rights with
  | [] => None
  | rt :: rest =>
      if has_bits bits (canonical_bit rt) && negb (Kind.has_right kind rt)
      then Some rt else first_unavailable kind bits rest
  end.

Definition from_canonical_bits (kind : CapabilityKind) (bits : N)
    : result RightsSetError N :=
  let unknown := N.land bits (N.lnot KNOWN_RIGHT_BITS 16) in
  if negb (unknown =? 0)%N then Err (UnknownBits unknown)
  else if has_bits bits (canonical_bit Reveal)
          && negb (has_bits bits (canonical_bit Seal))
  then Err RevealWithoutSeal
  else match first_unavailable kind bits
               [Read; Write; Connect; Listen; Tcp; Udp; Uds; Reveal; Seal] with
       | Some rt => Err (RightNotAvailable kind rt)
       | None => Ok bits
       end.

(** The loop of [from_rights], [bits] being the accumulator. *)
Fixpoint collect (kind : CapabilityKind) (bits : N) (rights : list CapabilityRight)
    : result RightsSetError N :=
  match rights with
  | [] => Ok bits
  | rt :: rest =>
      if negb (Kind.has_right kind rt) then Err (RightNotAvailable kind rt)
      else
        let bits := N.lor bits (canonical_bit rt) in
        let bits := if right_eqb rt Reveal
                    then N.lor bits (canonical_bit Seal) else bits in
        collect kind bits rest
  end.

Definition from_rights (kind : CapabilityKind) (rights : list CapabilityRight)
    : result RightsSetError N :=
  bits ← collect kind 0 rights; from_canonical_bits kind bits.

Definition contains (bits : N) (rt : CapabilityRight) : bool :=
  has_bits bits (canonical_bit rt).

Definition is_well_formed_for (bits : N) (kind : CapabilityKind) : bool :=
  is_ok (from_canonical_bits kind bits).

Definition admits (held : N) (kind : CapabilityKind) (required : N) : bool :=
  is_well_formed_for held kind && is_well_formed_for required kind
  && (N.land required (N.lnot held 16) =? 0)%N.

Definition is_subset_of (child : N) (kind : CapabilityKind) (parent : N) : bool :=
  admits parent kind child.

Definition is_monotone_narrowing (kind : CapabilityKind) (parent child : N) : bool :=
  is_subset_of child kind parent.
End RightsSet.

(** Whether one held right supplies one required right. *)
Definition right_implies (kind : CapabilityKind) (held required : CapabilityRight) : bool :=
  right_eqb held required
  || match kind, held, required with Secret, Reveal, Seal => true | _, _, _ => false end.

(** The loop of [rights_are_well_formed]: every right is in the vocabulary
    and does not occur again. *)
Fixpoint rights_distinct (kind : CapabilityKind) (rights : list CapabilityRight) : bool :=
  match rights with
  | [] => true
  | rt :: rest =>
      if negb (Kind.has_right kind rt) || bool_decide (rt ∈ rest) then false
      else rights_distinct kind rest
  end.

Definition rights_are_well_formed (kind : CapabilityKind)
    (rights : list CapabilityRight) : bool :=
  rights_distinct kind rights
  && (negb (bool_decide (Reveal ∈ rights)) || bool_decide (Seal ∈ rights)).

Definition rights_admit (kind : CapabilityKind) (held required : list CapabilityRight) : bool :=
  rights_are_well_formed kind held && rights_are_well_formed kind required
  && forallb (λ required, existsb (λ held, right_implies kind held required) held) required.

Definition rights_are_monotone_narrowing (kind : CapabilityKind)
    (parent child : list CapabilityRight) : bool := rights_admit kind parent child.

(** ** Target domains *)

Module TargetDomainId.
Definition NATIVE_RUNTIME : N := 0x0001.
Definition BROWSER_BASE : N := 0x0002.
Definition BROWSER_CAPABILITY_PROVIDER : N := 0x0003.
Definition NATIVE_BUILD_WORKER : N := 0x0004.
Definition INTERPRETER_ORACLE : N := 0x7fff.
End TargetDomainId.

Record TargetDomainContract : Set := {
  target_id : N;
  target_name : string;
  shippable : bool;
}.

Definition TARGET_DOMAIN_CONTRACTS : list TargetDomainContract := [
  {| target_id := TargetDomainId.NATIVE_RUNTIME;
     target_name := "native-runtime"; shippable := true |};
  {| target_id := TargetDomainId.BROWSER_BASE;
     target_name := "browser-base"; shippable := true |};
  {| target_id := TargetDomainId.BROWSER_CAPABILITY_PROVIDER;
     target_name := "browser-capability-provider"; shippable := true |};
  {| target_id := TargetDomainId.NATIVE_BUILD_WORKER;
     target_name := "native-build-worker"; shippable := true |};
  {| target_id := TargetDomainId.INTERPRETER_ORACLE;
     target_name := "interpreter-oracle"; shippable := false |}
].

Definition target_domain_contract (id : N) : option TargetDomainContract :=
  List.find (λ contract, (target_id contract =? id)%N) TARGET_DOMAIN_CONTRACTS.

Definition NATIVE : list N :=
  [TargetDomainId.NATIVE_RUNTIME; TargetDomainId.INTERPRETER_ORACLE].
Definition NATIVE_AND_BROWSER_PROVIDER : list N :=
  [TargetDomainId.NATIVE_RUNTIME; TargetDomainId.BROWSER_CAPABILITY_PROVIDER;
   TargetDomainId.INTERPRETER_ORACLE].
Definition CONSOLE_WRITE_TARGETS : list N :=
  [TargetDomainId.NATIVE_RUNTIME; TargetDomainId.BROWSER_BASE;
   TargetDomainId.BROWSER_CAPABILITY_PROVIDER; TargetDomainId.INTERPRETER_ORACLE].
Definition BUILD : list N :=
  [TargetDomainId.NATIVE_BUILD_WORKER; TargetDomainId.INTERPRETER_ORACLE].

(** ** Scopes *)

Inductive AuthorityScopeKind : Set :=
  | ScopeConsoleStreams
  | ScopeClock
  | ScopeRandomness
  | ScopeEnvironmentNames
  | ScopeSecretMaterial
  | ScopeSecretNames
  | ScopeDirectoryTree
  | ScopeFilePath
  | ScopeNetworkAddresses
  | ScopeFetchOrigins
  | ScopeExecutablePrograms
  | ScopeConnectedEndpoint
  | ScopeListeningEndpoint
  | ScopeBuildOutputRoot
  | ScopeBuildReadRoots
  | ScopeBuildEnvironmentNames
  | ScopeBuildNetworkHosts
  | ScopeBuildTools.

#[export] Instance AuthorityScopeKind_eq_dec : EqDecision AuthorityScopeKind.
Proof. solve_decision. Defined.

Definition scope_stable_id (k : AuthorityScopeKind) : N :=
  match k with
  | ScopeConsoleStreams => 0x0001
  | ScopeClock => 0x0002
  | ScopeRandomness => 0x0003
  | ScopeEnvironmentNames => 0x0004
  | ScopeSecretMaterial => 0x0005
  | ScopeSecretNames => 0x0006
  | ScopeDirectoryTree => 0x0007
  | ScopeFilePath => 0x0008
  | ScopeNetworkAddresses => 0x0009
  | ScopeFetchOrigins => 0x000a
  | ScopeExecutablePrograms => 0x000b
  | ScopeConnectedEndpoint => 0x0101
  | ScopeListeningEndpoint => 0x0102
  | ScopeBuildOutputRoot => 0x0201
  | ScopeBuildReadRoots => 0x0202
  | ScopeBuildEnvironmentNames => 0x0203
  | ScopeBuildNetworkHosts => 0x0204
  | ScopeBuildTools => 0x0205
  end.

Definition authority_scope_kind_from_id (id : N) : option AuthorityScopeKind :=
  if (id =? 0x0001)%N then Some ScopeConsoleStreams
  else if (id =? 0x0002)%N then Some ScopeClock
  else if (id =? 0x0003)%N then Some ScopeRandomness
  else if (id =? 0x0004)%N then Some ScopeEnvironmentNames
  else if (id =? 0x0005)%N then Some ScopeSecretMaterial
  else if (id =? 0x0006)%N then Some ScopeSecretNames
  else if (id =? 0x0007)%N then Some ScopeDirectoryTree
  else if (id =? 0x0008)%N then Some ScopeFilePath
  else if (id =? 0x0009)%N then Some ScopeNetworkAddresses
  else if (id =? 0x000a)%N then Some ScopeFetchOrigins
  else if (id =? 0x000b)%N then Some ScopeExecutablePrograms
  else if (id =? 0x0101)%N then Some ScopeConnectedEndpoint
  else if (id =? 0x0102)%N then Some ScopeListeningEndpoint
  else if (id =? 0x0201)%N then Some ScopeBuildOutputRoot
  else if (id =? 0x0202)%N then Some ScopeBuildReadRoots
  else if (id =? 0x0203)%N then Some ScopeBuildEnvironmentNames
  else if (id =? 0x0204)%N then Some ScopeBuildNetworkHosts
  else if (id =? 0x0205)%N then Some ScopeBuildTools
  else None.

(** A 32-byte digest supplied by the canonicalizer; only its equality is
    used. *)
Abbreviation ScopeRestrictionId := (list byte).

Inductive AuthorityScope : Set :=
  | Unrestricted (kind : AuthorityScopeKind)
  | Restricted (kind : AuthorityScopeKind) (restriction : ScopeRestrictionId).

Record ScopeKindMismatch : Set := {
  mismatch_held : AuthorityScopeKind;
  mismatch_required : AuthorityScopeKind;
}.

Module Scope.
Definition kind (s : AuthorityScope) : AuthorityScopeKind :=
  match s with Unrestricted kind | Restricted kind _ => kind end.

Definition restriction (s : AuthorityScope) : option ScopeRestrictionId :=
  match s with Unrestricted _ => None | Restricted _ restriction => Some restriction end.

Definition admits (held required : AuthorityScope) : result ScopeKindMismatch bool :=
  if negb (bool_decide (kind held = kind required)) then
    Err {| mismatch_held := kind held; mismatch_required := kind required |}
  else
    Ok match held, required with
       | Unrestricted _, _ => true
       | Restricted _ held, Restricted _ required => bool_decide (held = required)
       | Restricted _ _, Unrestricted _ => false
       end.

Definition is_monotone_narrowing (parent child : AuthorityScope)
    : result ScopeKindMismatch bool := admits parent child.
End Scope.

(** ** Capability contracts *)

Inductive HostReceiverEncoding : Set := ErasedGhost | ExternRef.

Inductive InternalCarrierEncoding : Set := InternalExternRef.

Inductive RootOriginPolicy : Set := EntryParameter | GhostEntryParameter | DerivedOnly.

Inductive ScopeNarrowingKind : Set :=
  | RightsAscription | EnvOnly | ExecOnly | DirOnly | NetOnly | NetDeny | FetchOnly.

Inductive DerivationKind : Set :=
  | SecretStoreGet | SecretStoreRequire | DirSubtree | DirReadFile | DirWriteFile
  | NetFetch | NetConnect | NetConnectPinned | NetTryConnectPinned
  | NetListen | NetListenTls | ListenerAccept.

#[export] Instance RootOriginPolicy_eq_dec : EqDecision RootOriginPolicy.
Proof. solve_decision. Defined.
#[export] Instance ScopeNarrowingKind_eq_dec : EqDecision ScopeNarrowingKind.
Proof. solve_decision. Defined.
#[export] Instance DerivationKind_eq_dec : EqDecision DerivationKind.
Proof. solve_decision. Defined.

Definition NO_DERIVATIONS : list DerivationKind := [].
Definition SECRET_DERIVATIONS : list DerivationKind := [SecretStoreGet; SecretStoreRequire].
Definition DIR_DERIVATIONS : list DerivationKind := [DirSubtree].
Definition FILE_DERIVATIONS : list DerivationKind := [DirReadFile; DirWriteFile].
Definition FETCH_DERIVATIONS : list DerivationKind := [NetFetch].
Definition SOCKET_DERIVATIONS : list DerivationKind :=
  [NetConnect; NetConnectPinned; NetTryConnectPinned; ListenerAccept].
Definition LISTENER_DERIVATIONS : list DerivationKind := [NetListen; NetListenTls].

Record CapabilityContract : Set := {
  contract_kind : CapabilityKind;
  contract_id : N;
  contract_rights : list CapabilityRight;
  contract_scope : AuthorityScopeKind;
  host_receiver : HostReceiverEncoding;
  internal_carrier : InternalCarrierEncoding;
  root_origin : RootOriginPolicy;
  permitted_derivations : list DerivationKind;
}.

(** The [capability!] macro. *)
Definition capability (kind : CapabilityKind) (rights : list CapabilityRight)
    (scope : AuthorityScopeKind) (host : HostReceiverEncoding)
    (root : RootOriginPolicy) (derivations : list DerivationKind) : CapabilityContract :=
  {| contract_kind := kind; contract_id := kind_stable_id kind;
     contract_rights := rights; contract_scope := scope; host_receiver := host;
     internal_carrier := InternalExternRef; root_origin := root;
     permitted_derivations := derivations |}.

Definition CAPABILITY_CONTRACTS : list CapabilityContract := [
  capability Console READ_WRITE_RIGHTS ScopeConsoleStreams ErasedGhost GhostEntryParameter NO_DERIVATIONS;
  capability Clock NO_RIGHTS ScopeClock ErasedGhost GhostEntryParameter NO_DERIVATIONS;
  capability Rand NO_RIGHTS ScopeRandomness ErasedGhost GhostEntryParameter NO_DERIVATIONS;
  capability Env NO_RIGHTS ScopeEnvironmentNames ExternRef EntryParameter NO_DERIVATIONS;
  capability Secret SECRET_RIGHTS ScopeSecretMaterial ExternRef EntryParameter SECRET_DERIVATIONS;
  capability SecretStore NO_RIGHTS ScopeSecretNames ErasedGhost GhostEntryParameter NO_DERIVATIONS;
  capability Dir READ_WRITE_RIGHTS ScopeDirectoryTree ExternRef EntryParameter DIR_DERIVATIONS;
  capability File READ_WRITE_RIGHTS ScopeFilePath ExternRef EntryParameter FILE_DERIVATIONS;
  capability Net NET_RIGHTS ScopeNetworkAddresses ExternRef EntryParameter NO_DERIVATIONS;
  capability Fetch NO_RIGHTS ScopeFetchOrigins ExternRef EntryParameter FETCH_DERIVATIONS;
  capability Exec NO_RIGHTS ScopeExecutablePrograms ExternRef EntryParameter NO_DERIVATIONS;
  capability Socket NO_RIGHTS ScopeConnectedEndpoint ExternRef DerivedOnly SOCKET_DERIVATIONS;
  capability Listener NO_RIGHTS ScopeListeningEndpoint ExternRef DerivedOnly LISTENER_DERIVATIONS;
  capability BuildOut NO_RIGHTS ScopeBuildOutputRoot ErasedGhost GhostEntryParameter NO_DERIVATIONS;
  capability BuildRead NO_RIGHTS ScopeBuildReadRoots ErasedGhost GhostEntryParameter NO_DERIVATIONS;
  capability BuildEnv NO_RIGHTS ScopeBuildEnvironmentNames ErasedGhost GhostEntryParameter NO_DERIVATIONS;
  capability BuildNet NO_RIGHTS ScopeBuildNetworkHosts ErasedGhost GhostEntryParameter NO_DERIVATIONS;
  capability BuildExec NO_RIGHTS ScopeBuildTools ErasedGhost GhostEntryParameter NO_DERIVATIONS
].

(** [None] is the [expect] failing. *)
Definition capability_contract (kind : CapabilityKind) : option CapabilityContract :=
  List.find (λ contract, kind_eqb (contract_kind contract) kind) CAPABILITY_CONTRACTS.

Definition root_origin_permits_entry (kind : CapabilityKind) : option bool :=
  contract ← capability_contract kind;
  Some (negb (bool_decide (root_origin contract = DerivedOnly))).

(** * Lemmas *)

Lemma contains_testbit b r : RightsSet.contains b r = N.testbit b (bit_index r).
Proof.
  unfold RightsSet.contains, RightsSet.has_bits, canonical_bit.
  rewrite N.shiftl_1_l. destruct (N.testbit b (bit_index r)) eqn:E.
  - apply negb_true_iff, N.eqb_neq. intros H.
    assert (N.testbit (N.land b (2 ^ bit_index r)) (bit_index r) = false) as Hf
      by (by rewrite H, N.bits_0).
    by rewrite N.land_spec, E, N.pow2_bits_true in Hf.
  - apply negb_false_iff, N.eqb_eq. apply N.bits_inj. intros i.
    rewrite N.land_spec, N.bits_0.
    destruct (decide (i = bit_index r)) as [->|Hi]; [by rewrite E|].
    by rewrite N.pow2_bits_false, andb_false_r.
Qed.

(** The nine positions below 9 are exactly the rights. *)
Lemma bit_index_cover i : (i < 9)%N → ∃ r, bit_index r = i.
Proof.
  intros Hi.
  assert (i = 0 ∨ i = 1 ∨ i = 2 ∨ i = 3 ∨ i = 4 ∨ i = 5 ∨ i = 6 ∨ i = 7 ∨ i = 8)%N
    as Hc by lia.
  destruct_or! Hc; subst;
    [exists Read|exists Write|exists Connect|exists Listen|exists Tcp|exists Udp
    |exists Uds|exists Reveal|exists Seal]; done.
Qed.

Lemma bit_index_inj a b : bit_index a = bit_index b → a = b.
Proof. by destruct a, b. Qed.

Lemma bit_index_bound r : (bit_index r < 9)%N.
Proof. by destruct r. Qed.

(** [bits & !KNOWN == 0] of a [u16] says there is no bit from 9 on. *)
Lemma unknown_bits_zero b :
  (b ≤ u16_max)%N →
  N.land b (N.lnot KNOWN_RIGHT_BITS 16) = 0%N ↔ ∀ i, (9 ≤ i)%N → N.testbit b i = false.
Proof.
  intros Hb. assert (b < 2 ^ 16)%N as Hb' by (unfold u16_max in Hb; lia).
  split; intros H.
  - intros i Hi. destruct (decide (i < 16)%N).
    + apply (f_equal (λ x, N.testbit x i)) in H.
      rewrite N.land_spec, N.bits_0, N.lnot_spec_low in H by done.
      change KNOWN_RIGHT_BITS with (N.ones 9) in H.
      rewrite N.ones_spec_high in H by done. by rewrite andb_true_r in H.
    + destruct (decide (b = 0)%N) as [->|]; [apply N.bits_0|].
      apply N.bits_above_log2. apply N.log2_lt_pow2; [lia|].
      eapply N.lt_le_trans; [done|]. apply N.pow_le_mono_r; lia.
  - apply N.bits_inj. intros i. rewrite N.land_spec, N.bits_0.
    destruct (decide (9 ≤ i)%N) as [Hi|Hi]; [by rewrite H|].
    rewrite N.lnot_spec_low by lia. change KNOWN_RIGHT_BITS with (N.ones 9).
    rewrite N.ones_spec_low by lia. by rewrite andb_false_r.
Qed.

Lemma first_unavailable_None k b l :
  RightsSet.first_unavailable k b l = None ↔
  ∀ r, r ∈ l → RightsSet.contains b r = true → r ∈ Kind.rights k.
Proof.
  induction l as [|r l IH]; cbn.
  { split; [|done]. intros _ r Hr. by apply elem_of_nil in Hr. }
  change (RightsSet.has_bits b (canonical_bit r)) with (RightsSet.contains b r).
  unfold Kind.has_right.
  destruct (RightsSet.contains b r) eqn:Hc; cbn.
  - case_bool_decide; cbn; [rewrite IH|split; [done|]].
    + set_solver.
    + intros Hall. exfalso. apply H, Hall; [set_solver|done].
  - rewrite IH. setoid_rewrite elem_of_cons. naive_solver congruence.
Qed.

(** The closed right sets of a kind. *)
Record bits_wf (k : CapabilityKind) (b : N) : Prop := {
  wf_high : ∀ i, (9 ≤ i)%N → N.testbit b i = false;
  wf_avail : ∀ r, RightsSet.contains b r = true → r ∈ Kind.rights k;
  wf_closed : RightsSet.contains b Reveal = true → RightsSet.contains b Seal = true;
}.

Lemma from_canonical_bits_Ok k b s :
  (b ≤ u16_max)%N →
  RightsSet.from_canonical_bits k b = Ok s ↔ s = b ∧ bits_wf k b.
Proof.
  intros Hb. unfold RightsSet.from_canonical_bits.
  change (RightsSet.has_bits b (canonical_bit ?r)) with (RightsSet.contains b r).
  destruct (N.eqb_spec (N.land b (N.lnot KNOWN_RIGHT_BITS 16)) 0) as [Hu|Hu]; cbn [negb];
    [|split; [done|]; intros [_ [Hh _ _]]; by apply unknown_bits_zero in Hh].
  rewrite unknown_bits_zero in Hu by done.
  destruct (RightsSet.contains b Reveal && negb (RightsSet.contains b Seal)) eqn:Hr.
  { split; [done|]. intros [_ [_ _ Hc]]. apply andb_true_iff in Hr as [Hr Hs].
    by rewrite (Hc Hr) in Hs. }
  destruct (RightsSet.first_unavailable _ _ _) as [r|] eqn:Hf.
  - split; [done|]. intros [_ [_ Ha _]]. exfalso.
    assert (RightsSet.first_unavailable k b Right.ALL = None) by
      (apply first_unavailable_None; auto). unfold Right.ALL in *. congruence.
  - rewrite first_unavailable_None in Hf. split.
    + intros [= <-]. split; [done|]. split; [done| |].
      * intros r. apply Hf, Right.right_elem_of_ALL.
      * intros Hrev. rewrite Hrev in Hr. by destruct (RightsSet.contains b Seal).
    + by intros [-> _].
Qed.

Lemma is_well_formed_for_true k b :
  (b ≤ u16_max)%N → RightsSet.is_well_formed_for b k = true ↔ bits_wf k b.
Proof.
  intros Hb. unfold RightsSet.is_well_formed_for.
  pose proof (from_canonical_bits_Ok k b b Hb) as H.
  destruct (RightsSet.from_canonical_bits k b) as [s|] eqn:E; cbn.
  - apply from_canonical_bits_Ok in E; naive_solver.
  - naive_solver.
Qed.

Lemma bits_wf_bound k b : bits_wf k b → (b ≤ u16_max)%N.
Proof.
  intros [Hh _ _]. destruct (decide (b = 0)%N) as [->|Hb]; [done|].
  assert (b < 2 ^ 9)%N; [|unfold u16_max; lia].
  apply N.log2_lt_pow2; [lia|]. destruct (decide (9 ≤ N.log2 b)%N) as [H|]; [|lia].
  apply Hh in H. by rewrite N.bit_log2 in H.
Qed.

(** Two known bitsets with the same rights are equal. *)
Lemma bits_wf_ext k b c :
  bits_wf k b → bits_wf k c →
  (∀ r, RightsSet.contains b r = RightsSet.contains c r) → b = c.
Proof.
  intros Hb Hc H. apply N.bits_inj. intros i.
  destruct (decide (9 ≤ i)%N).
  - by rewrite (wf_high _ _ Hb), (wf_high _ _ Hc).
  - destruct (bit_index_cover i) as [r <-]; [lia|]. by rewrite <- !contains_testbit.
Qed.

Lemma admits_spec k held required :
  (held ≤ u16_max)%N → (required ≤ u16_max)%N →
  RightsSet.admits held k required = true ↔
  bits_wf k held ∧ bits_wf k required ∧
  ∀ r, RightsSet.contains required r = true → RightsSet.contains held r = true.
Proof.
  intros Hh Hr. unfold RightsSet.admits.
  rewrite !andb_true_iff, !is_well_formed_for_true, N.eqb_eq by done.
  rewrite (assoc (∧)). apply and_iff_compat_l'. intros [Hwh Hwr].
  setoid_rewrite contains_testbit. split.
  - intros H r Hreq. apply (f_equal (λ x, N.testbit x (bit_index r))) in H.
    rewrite N.land_spec, N.bits_0, N.lnot_spec_low, Hreq in H
      by (pose proof (bit_index_bound r); lia).
    by apply negb_false_iff in H.
  - intros H. apply N.bits_inj. intros i. rewrite N.land_spec, N.bits_0.
    destruct (decide (9 ≤ i)%N); [by rewrite (wf_high _ _ Hwr)|].
    destruct (bit_index_cover i) as [r <-]; [lia|].
    rewrite N.lnot_spec_low by lia. specialize (H r).
    destruct (N.testbit required (bit_index r)); [|done]. by rewrite H.
Qed.

(** ** Collecting source rights *)

Lemma contains_lor b c r :
  RightsSet.contains (N.lor b c) r = RightsSet.contains b r || RightsSet.contains c r.
Proof. by rewrite !contains_testbit, N.lor_spec. Qed.

Lemma contains_bit r s : RightsSet.contains (canonical_bit s) r = right_eqb r s.
Proof. by destruct r, s. Qed.

(** What [from_rights] means by a list: its members, and [Seal] when
    [Reveal] is one of them. *)
Definition supplied (rights : list CapabilityRight) (r : CapabilityRight) : Prop :=
  r ∈ rights ∨ (r = Seal ∧ Reveal ∈ rights).

Lemma collect_contains k l acc b :
  RightsSet.collect k acc l = Ok b →
  ∀ r, RightsSet.contains b r = true ↔ RightsSet.contains acc r = true ∨ supplied l r.
Proof.
  revert acc. induction l as [|x l IH]; intros acc H r; cbn in H.
  { simplify_eq. unfold supplied. set_solver. }
  destruct (Kind.has_right k x); [|done]. cbn in H.
  rewrite (IH _ H r). unfold supplied.
  setoid_rewrite elem_of_cons. unfold right_eqb.
  case_bool_decide as Hx; rewrite ?contains_lor, ?contains_bit, !orb_true_iff;
    unfold right_eqb; rewrite ?bool_decide_eq_true; naive_solver congruence.
Qed.

Lemma collect_high k l acc b :
  RightsSet.collect k acc l = Ok b →
  (∀ i, (9 ≤ i)%N → N.testbit acc i = false) →
  ∀ i, (9 ≤ i)%N → N.testbit b i = false.
Proof.
  revert acc. induction l as [|x l IH]; intros acc H Hacc i Hi; cbn in H.
  { simplify_eq. by apply Hacc. }
  destruct (Kind.has_right k x); [|done]. cbn in H.
  refine (IH _ H _ i Hi). intros j Hj.
  assert (∀ r, N.testbit (canonical_bit r) j = false) as Hbit.
  { intros r. unfold canonical_bit. rewrite N.shiftl_1_l.
    apply N.pow2_bits_false. pose proof (bit_index_bound r). lia. }
  destruct (right_eqb x Reveal); rewrite !N.lor_spec, ?Hbit, Hacc by done; done.
Qed.

Lemma collect_Ok k l acc :
  (∀ r, r ∈ l → r ∈ Kind.rights k) → ∃ b, RightsSet.collect k acc l = Ok b.
Proof.
  revert acc. induction l as [|x l IH]; intros acc Hl; cbn; [eauto|].
  unfold Kind.has_right. rewrite bool_decide_eq_true_2 by set_solver. cbn.
  apply IH. set_solver.
Qed.

Lemma seal_with_reveal k : Reveal ∈ Kind.rights k → Seal ∈ Kind.rights k.
Proof. destruct k; unfold Kind.rights, READ_WRITE_RIGHTS, NET_RIGHTS, SECRET_RIGHTS; set_solver. Qed.

(** Any list over the kind's vocabulary has a bitset, which holds exactly
    what the list supplies. *)
Lemma from_rights_Ok k l :
  (∀ r, r ∈ l → r ∈ Kind.rights k) →
  ∃ b, RightsSet.from_rights k l = Ok b ∧ bits_wf k b ∧
    ∀ r, RightsSet.contains b r = true ↔ supplied l r.
Proof.
  intros Hl. destruct (collect_Ok k l 0 Hl) as [b Hb].
  assert (∀ r, RightsSet.contains b r = true ↔ supplied l r) as Hc.
  { intros r. rewrite (collect_contains _ _ _ _ Hb r).
    assert (RightsSet.contains 0 r = false) as -> by (by destruct r). naive_solver. }
  assert (bits_wf k b) as Hwf.
  { split.
    - eapply collect_high; [done|]. intros. apply N.bits_0.
    - intros r. rewrite Hc. unfold supplied. naive_solver (eauto using seal_with_reveal).
    - rewrite !Hc. unfold supplied. naive_solver. }
  exists b. split; [|done]. unfold RightsSet.from_rights. rewrite Hb. cbn.
  apply from_canonical_bits_Ok; eauto using bits_wf_bound.
Qed.

Lemma rights_distinct_true k l :
  rights_distinct k l = true ↔ NoDup l ∧ ∀ r, r ∈ l → r ∈ Kind.rights k.
Proof.
  induction l as [|r l IH]; cbn.
  { split; [|done]. intros _. split; [constructor|]. set_solver. }
  unfold Kind.has_right. rewrite list.NoDup_cons. setoid_rewrite elem_of_cons.
  do 2 case_bool_decide; cbn; rewrite ?IH; naive_solver.
Qed.

Lemma rights_wf_true k l :
  rights_are_well_formed k l = true ↔
  NoDup l ∧ (∀ r, r ∈ l → r ∈ Kind.rights k) ∧ (Reveal ∈ l → Seal ∈ l).
Proof.
  unfold rights_are_well_formed. rewrite andb_true_iff, rights_distinct_true.
  do 2 case_bool_decide; naive_solver.
Qed.

Lemma right_implies_true k a b :
  right_implies k a b = true ↔ a = b ∨ (k = Secret ∧ a = Reveal ∧ b = Seal).
Proof.
  unfold right_implies, right_eqb. rewrite orb_true_iff, bool_decide_eq_true.
  destruct k, a, b; naive_solver.
Qed.

Lemma rights_admit_true k held required :
  rights_admit k held required = true ↔
  rights_are_well_formed k held = true ∧ rights_are_well_formed k required = true ∧
  ∀ r, r ∈ required → r ∈ held.
Proof.
  unfold rights_admit. rewrite !andb_true_iff, (assoc (∧)).
  apply and_iff_compat_l'. intros [Hh Hr]. apply rights_wf_true in Hh as (_ & _ & Hh).
  rewrite forallb_forall. setoid_rewrite <- list_elem_of_In.
  setoid_rewrite existsb_exists. setoid_rewrite <- list_elem_of_In.
  setoid_rewrite right_implies_true. naive_solver.
Qed.

(** The list of a decoded set: the vocabulary filtered by membership. *)
Definition rights_of (b : N) : list CapabilityRight :=
  filter (λ r, RightsSet.contains b r = true) Right.ALL.

Lemma elem_of_rights_of b r : r ∈ rights_of b ↔ RightsSet.contains b r = true.
Proof. unfold rights_of. rewrite list_elem_of_filter. naive_solver (eauto using Right.right_elem_of_ALL). Qed.

Lemma rights_of_wf k b : bits_wf k b → rights_are_well_formed k (rights_of b) = true.
Proof.
  intros [_ Ha Hc]. apply rights_wf_true. setoid_rewrite elem_of_rights_of.
  split; [|done]. apply list.NoDup_filter, (bool_decide_unpack _). vm_compute. done.
Qed.

Lemma from_rights_of k b : bits_wf k b → RightsSet.from_rights k (rights_of b) = Ok b.
Proof.
  intros Hb. destruct (from_rights_Ok k (rights_of b)) as (c & Hc & Hwf & Hin).
  { intros r. rewrite elem_of_rights_of. apply (wf_avail _ _ Hb). }
  rewrite Hc. f_equal. eapply bits_wf_ext; [done..|]. intros r. apply eq_bool_prop_intro.
  rewrite !Is_true_true, Hin. unfold supplied. rewrite !elem_of_rights_of.
  pose proof (wf_closed _ _ Hb). naive_solver.
Qed.

Lemma from_rights_wf_list k l b :
  RightsSet.from_rights k l = Ok b → rights_are_well_formed k l = true →
  bits_wf k b ∧ ∀ r, RightsSet.contains b r = true ↔ r ∈ l.
Proof.
  intros Hb (_ & Hl & Hc)%rights_wf_true.
  destruct (from_rights_Ok k l Hl) as (c & Hc' & Hwf & Hin).
  rewrite Hb in Hc'. injection Hc' as <-.
  split; [done|]. intros r. rewrite Hin. unfold supplied. naive_solver.
Qed.

Lemma collect_inv k l acc :
  match RightsSet.collect k acc l with
  | Ok _ => ∀ r, r ∈ l → r ∈ Kind.rights k
  | Err e => ∃ r, r ∈ l ∧ r ∉ Kind.rights k ∧ e = RightNotAvailable k r
  end.
Proof.
  revert acc. induction l as [|x l IH]; intros acc; cbn; [set_solver|].
  unfold Kind.has_right. case_bool_decide; cbn; [|set_solver].
  match goal with |- context [RightsSet.collect k ?a l] => specialize (IH a) end.
  destruct (RightsSet.collect _ _ _); set_solver.
Qed.

Lemma from_rights_Err k l e :
  RightsSet.from_rights k l = Err e →
  ∃ r, r ∈ l ∧ r ∉ Kind.rights k ∧ e = RightNotAvailable k r.
Proof.
  intros He. pose proof (collect_inv k l 0) as Hi. unfold RightsSet.from_rights in He.
  destruct (RightsSet.collect k 0 l) as [b|e'] eqn:Hc; [|by simplify_eq/=].
  destruct (from_rights_Ok k l Hi) as (c & Hf & _).
  unfold RightsSet.from_rights in Hf. rewrite Hc in Hf. cbn in *. congruence.
Qed.

(** * Theorems *)

(** the explicitly assigned numbers identify kinds,
    rights and scope kinds: decoding an identifier inverts [stable_id], no
    other number decodes, and the three identifier spaces therefore have no
    collisions. *)
Theorem stable_ids_roundtrip :
  (∀ k n, capability_kind_from_id n = Some k ↔ n = kind_stable_id k) ∧
  (∀ r n, capability_right_from_id n = Some r ↔ n = right_stable_id r) ∧
  (∀ s n, authority_scope_kind_from_id n = Some s ↔ n = scope_stable_id s).
Proof.
  split_and!; intros x n; (split; [|intros ->; by destruct x]).
  1: unfold capability_kind_from_id.
  2: unfold capability_right_from_id.
  3: unfold authority_scope_kind_from_id.
  all: repeat match goal with
    | |- context [(?i =? ?m)%N] =>
        destruct (N.eqb_spec i m) as [->|_]; [intros H; vm_compute in H; by simplify_eq|]
    end; done.
Qed.

(** the fail-closed decoder accepts a 16-bit
    pattern exactly when it encodes some well-formed list of rights of the
    kind, and then returns it unchanged; encoding a source list fails only
    by naming a right of the list the kind does not have. *)
Theorem rights_set_decodes_exactly k b :
  (b ≤ u16_max)%N →
  (∀ s, RightsSet.from_canonical_bits k b = Ok s ↔
     s = b ∧ ∃ l, rights_are_well_formed k l = true ∧ RightsSet.from_rights k l = Ok b) ∧
  (∀ l e, RightsSet.from_rights k l = Err e →
     ∃ r, r ∈ l ∧ r ∉ Kind.rights k ∧ e = RightNotAvailable k r).
Proof.
  intros Hb. split.
  - intros s. rewrite from_canonical_bits_Ok by done. apply and_iff_compat_l'.
    intros _. split.
    + intros Hwf. exists (rights_of b). auto using rights_of_wf, from_rights_of.
    + intros (l & Hl & Hfrom). by eapply from_rights_wf_list.
  - intros l e He. by apply from_rights_Err.
Qed.

Lemma rights_set_decodes_exactly_witness :
  (384 ≤ u16_max)%N ∧ RightsSet.from_rights Secret [Reveal] = Ok 384%N ∧
  RightsSet.from_canonical_bits Secret 384 = Ok 384%N.
Proof.
  split; [done|]. split; [vm_compute; reflexivity|].
  apply (rights_set_decodes_exactly Secret 384); [done|]. split; [done|].
  exists [Reveal; Seal]. split; vm_compute; reflexivity.
Defined.

(** the bitset test and the slice test are the
    same judgment.  For well-formed lists, [RightsSet::admits] on their
    encodings agrees with [rights_admit] on the lists, and both hold
    exactly when every required right is held. *)
Theorem rights_set_admits_agrees k held required hb rb :
  rights_are_well_formed k held = true → rights_are_well_formed k required = true →
  RightsSet.from_rights k held = Ok hb → RightsSet.from_rights k required = Ok rb →
  RightsSet.admits hb k rb = rights_admit k held required ∧
  (rights_admit k held required = true ↔ ∀ r, r ∈ required → r ∈ held).
Proof.
  intros Hh Hr Hhb Hrb.
  destruct (from_rights_wf_list _ _ _ Hhb Hh) as [Hwh Hch].
  destruct (from_rights_wf_list _ _ _ Hrb Hr) as [Hwr Hcr].
  assert (rights_admit k held required = true ↔ ∀ r, r ∈ required → r ∈ held) as Hadm
    by (rewrite rights_admit_true; naive_solver).
  split; [|done]. apply eq_bool_prop_intro. rewrite !Is_true_true, Hadm.
  rewrite admits_spec by eauto using bits_wf_bound.
  setoid_rewrite Hch. setoid_rewrite Hcr. naive_solver.
Qed.

Lemma rights_set_admits_agrees_witness :
  RightsSet.admits 28 Net 20 = rights_admit Net [Listen; Connect; Tcp] [Tcp; Connect].
Proof.
  refine (proj1 (rights_set_admits_agrees Net [Listen; Connect; Tcp] [Tcp; Connect]
    28 20 _ _ _ _));
    vm_compute; reflexivity.
Defined.

(** narrowing is a partial order on the right sets
    of a kind, whatever the bit patterns: reflexive exactly on the
    well-formed ones, transitive and antisymmetric; a chain of narrowings
    never returns a right that was dropped. *)
Theorem rights_narrowing_order k a b c :
  (a ≤ u16_max)%N → (b ≤ u16_max)%N → (c ≤ u16_max)%N →
  (RightsSet.is_monotone_narrowing k a a = true ↔
     RightsSet.is_well_formed_for a k = true) ∧
  (RightsSet.is_monotone_narrowing k a b = true →
   RightsSet.is_monotone_narrowing k b c = true →
   RightsSet.is_monotone_narrowing k a c = true ∧
   ∀ r, RightsSet.contains a r = false → RightsSet.contains c r = false) ∧
  (RightsSet.is_monotone_narrowing k a b = true →
   RightsSet.is_monotone_narrowing k b a = true → a = b).
Proof.
  intros Ha Hb Hc. unfold RightsSet.is_monotone_narrowing, RightsSet.is_subset_of.
  rewrite !admits_spec, is_well_formed_for_true by done. split_and!.
  - naive_solver.
  - intros (H1 & H2 & H3) (_ & H4 & H5). split; [naive_solver|].
    intros r Hr. destruct (RightsSet.contains c r) eqn:E; [|done].
    apply H5, H3 in E. congruence.
  - intros (H1 & H2 & H3) (_ & _ & H5). eapply bits_wf_ext; [done..|].
    intros r. apply eq_bool_prop_intro. rewrite !Is_true_true. naive_solver.
Qed.

Lemma rights_narrowing_order_witness :
  RightsSet.is_monotone_narrowing Dir 3 1 = true ∧
  (∀ r, RightsSet.contains 3 r = false → RightsSet.contains 1 r = false).
Proof.
  split; [vm_compute; reflexivity|].
  refine (proj2 (proj1 (proj2 (rights_narrowing_order Dir 3 3 1 _ _ _)) _ _));
    first [done|vm_compute; reflexivity].
Defined.

(** scope comparison fails exactly on different scope
    kinds; otherwise an unrestricted scope admits everything, a restricted
    one admits only its own restriction, and narrowing is transitive and
    antisymmetric, so no sequence of identity-checked narrowings widens a
    restricted scope. *)
Theorem scope_admits_order a b c :
  (Scope.kind a ≠ Scope.kind b ↔
     Scope.admits a b =
       Err {| mismatch_held := Scope.kind a; mismatch_required := Scope.kind b |}) ∧
  Scope.admits a a = Ok true ∧
  (Scope.admits a b = Ok true → Scope.admits b c = Ok true → Scope.admits a c = Ok true) ∧
  (Scope.admits a b = Ok true → Scope.admits b a = Ok true → a = b) ∧
  (∀ d, Scope.restriction a = Some d → Scope.admits a b = Ok true →
     Scope.restriction b = Some d).
Proof.
  unfold Scope.admits.
  destruct a as [k1|k1 d1], b as [k2|k2 d2], c as [k3|k3 d3]; cbn;
    repeat case_bool_decide; naive_solver.
Qed.

(** every kind has exactly one
    contract, found by [capability_contract]; it carries the kind's stable
    identifier and right vocabulary, no two kinds share a scope kind, and a
    kind may be an entry parameter exactly when the catalog does not class
    it as derived. *)
Theorem capability_contracts_match_catalog :
  map contract_kind CAPABILITY_CONTRACTS = Kind.ALL ∧
  NoDup (map contract_scope CAPABILITY_CONTRACTS) ∧
  ∀ k, ∃ c, capability_contract k = Some c ∧
    contract_kind c = k ∧ contract_id c = kind_stable_id k ∧
    contract_rights c = Kind.rights k ∧
    scope_stable_id (contract_scope c) = contract_id c ∧
    root_origin_permits_entry k = Some (negb (bool_decide (Kind.class k = Derived))).
Proof.
  split; [done|]. split; [by apply (bool_decide_unpack _); vm_compute|].
  intros k. destruct k; eexists; split; (try reflexivity); by split_and!.
Qed.
