(* ===== verification/AuthorityOps.v ===== *)
(** * AuthorityOps: the semantic operation catalogue and its authority flow

    Models the second half of [crates/witchy-cap-model/src/authority.rs]: the
    typed operation contracts, the 58-row [AUTHORITY_OPERATIONS] table (split
    here by identifier family, in the source's order) and its two lookups.
    The flow relation [derives] is the specification the table's effects
    describe: how one operation turns a held authority into another. *)

From S2P Require Import Prelude Text Catalog Authority.

Local Open Scope string_scope.

Inductive ImportRole : Set :=
  | RootMint | AuthorityAction | AuthorityAttenuation | AuthorityDerivationRole
  | ResultSize | ResultFill | PendingResultDrain | PendingListDrain
  | LaunchInput | PureInfrastructure | InternalService | RuntimeDiagnostic.

Inductive ImportProtocol : Set := Direct | PendingBytes | SplitFill | PendingList.

Record AuthorityOperandRequirement : Set := {
  operand_index : N;
  operand_kind : CapabilityKind;
  operand_rights : list CapabilityRight;
}.

Definition NO_AUTHORITY_OPERANDS : list AuthorityOperandRequirement := [].
Definition EXEC_DIR_REQUIREMENT : list AuthorityOperandRequirement :=
  [{| operand_index := 1; operand_kind := Dir; operand_rights := READ |}].
Definition TLS_SECRET_REQUIREMENT : list AuthorityOperandRequirement :=
  [{| operand_index := 3; operand_kind := Secret; operand_rights := SEAL |}].

Inductive DerivedRights : Set :=
  | NoRights
  | PreserveReceiver
  | Exact (rights : list CapabilityRight)
  | SecretGrantBounded.

Record AuthorityDerivation : Set := {
  derivation_kind : DerivationKind;
  result_kind : CapabilityKind;
  result_rights : DerivedRights;
}.

Inductive AuthorityOperationEffect : Set :=
  | Use
  | Attenuate (narrowing : ScopeNarrowingKind)
  | Derive (derivation : AuthorityDerivation).

Inductive AuthorityFlowEvent : Set :=
  | ReceiveRoot (kind : CapabilityKind)
  | NarrowRights (kind : CapabilityKind)
  | NarrowScope (narrowing : ScopeNarrowingKind)
  | DeriveEvent (derivation : DerivationKind)
  | UseEvent (operation : N).

Record AuthorityOperationContract : Set := {
  op_id : N;
  op_name : string;
  receiver : CapabilityKind;
  required_receiver_rights : list CapabilityRight;
  additional_authority_operands : list AuthorityOperandRequirement;
  effect : AuthorityOperationEffect;
  import_protocol : ImportProtocol;
  targets : list N;
}.

Definition use_op (id : N) (name : string) (receiver : CapabilityKind)
    (rights : list CapabilityRight) (additional : list AuthorityOperandRequirement)
    (protocol : ImportProtocol) (targets : list N) : AuthorityOperationContract :=
  {| op_id := id; op_name := name; receiver := receiver;
     required_receiver_rights := rights; additional_authority_operands := additional;
     effect := Use; import_protocol := protocol; targets := targets |}.

Definition attenuate_op (id : N) (name : string) (receiver : CapabilityKind)
    (rights : list CapabilityRight) (narrowing : ScopeNarrowingKind)
    (protocol : ImportProtocol) (targets : list N) : AuthorityOperationContract :=
  {| op_id := id; op_name := name; receiver := receiver;
     required_receiver_rights := rights;
     additional_authority_operands := NO_AUTHORITY_OPERANDS;
     effect := Attenuate narrowing; import_protocol := protocol; targets := targets |}.

Definition derive_op (id : N) (name : string) (receiver : CapabilityKind)
    (rights : list CapabilityRight) (additional : list AuthorityOperandRequirement)
    (derivation : DerivationKind) (result : CapabilityKind) (rrights : DerivedRights)
    (protocol : ImportProtocol) (targets : list N) : AuthorityOperationContract :=
  {| op_id := id; op_name := name; receiver := receiver;
     required_receiver_rights := rights; additional_authority_operands := additional;
     effect := Derive {| derivation_kind := derivation; result_kind := result;
                         result_rights := rrights |};
     import_protocol := protocol; targets := targets |}.

(** ** The table *)

Definition console_clock_env_operations : list AuthorityOperationContract := [
  use_op 0x00010001 "console.print" Console WRITE
    NO_AUTHORITY_OPERANDS Direct CONSOLE_WRITE_TARGETS;
  use_op 0x00010002 "console.read_line" Console READ
    NO_AUTHORITY_OPERANDS PendingBytes NATIVE_AND_BROWSER_PROVIDER;
  use_op 0x00020001 "clock.now" Clock NO_RIGHTS
    NO_AUTHORITY_OPERANDS Direct NATIVE_AND_BROWSER_PROVIDER;
  use_op 0x00020002 "clock.now_monotonic" Clock NO_RIGHTS
    NO_AUTHORITY_OPERANDS Direct NATIVE_AND_BROWSER_PROVIDER;
  use_op 0x00030001 "rand.rand_u64" Rand NO_RIGHTS NO_AUTHORITY_OPERANDS Direct NATIVE;
  use_op 0x00040001 "env.get_env" Env NO_RIGHTS
    NO_AUTHORITY_OPERANDS SplitFill NATIVE_AND_BROWSER_PROVIDER;
  attenuate_op 0x00040002 "env.only" Env NO_RIGHTS
    EnvOnly Direct NATIVE_AND_BROWSER_PROVIDER
].

Definition secret_exec_operations : list AuthorityOperationContract := [
  derive_op 0x00050001 "secretstore.get" SecretStore NO_RIGHTS
    NO_AUTHORITY_OPERANDS SecretStoreGet Secret SecretGrantBounded Direct NATIVE_AND_BROWSER_PROVIDER;
  derive_op 0x00050002 "secretstore.require" SecretStore NO_RIGHTS
    NO_AUTHORITY_OPERANDS SecretStoreRequire Secret SecretGrantBounded Direct NATIVE_AND_BROWSER_PROVIDER;
  use_op 0x00060001 "crypto.sign" Secret SEAL
    NO_AUTHORITY_OPERANDS Direct NATIVE_AND_BROWSER_PROVIDER;
  use_op 0x00060002 "crypto.public_key" Secret SEAL
    NO_AUTHORITY_OPERANDS Direct NATIVE_AND_BROWSER_PROVIDER;
  use_op 0x00060003 "crypto.reveal" Secret REVEAL
    NO_AUTHORITY_OPERANDS PendingBytes NATIVE_AND_BROWSER_PROVIDER;
  use_op 0x00070001 "exec.exec" Exec NO_RIGHTS EXEC_DIR_REQUIREMENT PendingBytes NATIVE;
  attenuate_op 0x00070002 "exec.only" Exec NO_RIGHTS ExecOnly Direct NATIVE
].

Definition build_file_operations : list AuthorityOperationContract := [
  use_op 0x00080001 "build_out.write_out" BuildOut NO_RIGHTS
    NO_AUTHORITY_OPERANDS Direct BUILD;
  use_op 0x00090001 "build_read.read_build" BuildRead NO_RIGHTS
    NO_AUTHORITY_OPERANDS PendingBytes BUILD;
  use_op 0x000a0001 "build_env.get_build_env" BuildEnv NO_RIGHTS
    NO_AUTHORITY_OPERANDS SplitFill BUILD;
  use_op 0x000b0001 "build_net.fetch_build" BuildNet NO_RIGHTS
    NO_AUTHORITY_OPERANDS PendingBytes BUILD;
  use_op 0x000c0001 "build_exec.run_tool" BuildExec NO_RIGHTS
    NO_AUTHORITY_OPERANDS PendingBytes BUILD;
  use_op 0x000d0001 "file.read" File READ
    NO_AUTHORITY_OPERANDS PendingBytes NATIVE_AND_BROWSER_PROVIDER;
  use_op 0x000d0002 "file.write" File WRITE
    NO_AUTHORITY_OPERANDS Direct NATIVE_AND_BROWSER_PROVIDER
].

Definition dir_read_derive_operations : list AuthorityOperationContract := [
  attenuate_op 0x000e0001 "dir.only" Dir READ DirOnly Direct NATIVE_AND_BROWSER_PROVIDER;
  use_op 0x000e0002 "dir.list" Dir READ
    NO_AUTHORITY_OPERANDS PendingList NATIVE_AND_BROWSER_PROVIDER;
  use_op 0x000e0003 "dir.read" Dir READ
    NO_AUTHORITY_OPERANDS PendingBytes NATIVE_AND_BROWSER_PROVIDER;
  use_op 0x000e0004 "dir.exists" Dir READ
    NO_AUTHORITY_OPERANDS Direct NATIVE_AND_BROWSER_PROVIDER;
  use_op 0x000e0005 "dir.is_dir" Dir READ
    NO_AUTHORITY_OPERANDS Direct NATIVE_AND_BROWSER_PROVIDER;
  derive_op 0x000e0006 "dir.subtree" Dir READ
    NO_AUTHORITY_OPERANDS DirSubtree Dir PreserveReceiver Direct NATIVE_AND_BROWSER_PROVIDER;
  use_op 0x000e0007 "dir.make_dir" Dir WRITE
    NO_AUTHORITY_OPERANDS Direct NATIVE_AND_BROWSER_PROVIDER;
  derive_op 0x000e0008 "dir.read_file" Dir READ
    NO_AUTHORITY_OPERANDS DirReadFile File (Exact READ) Direct NATIVE_AND_BROWSER_PROVIDER;
  derive_op 0x000e0009 "dir.write_file" Dir WRITE
    NO_AUTHORITY_OPERANDS DirWriteFile File (Exact WRITE) Direct NATIVE_AND_BROWSER_PROVIDER
].

Definition dir_write_operations : list AuthorityOperationContract := [
  use_op 0x000e000a "dir.write" Dir WRITE
    NO_AUTHORITY_OPERANDS Direct NATIVE_AND_BROWSER_PROVIDER;
  use_op 0x000e000b "dir.append" Dir WRITE
    NO_AUTHORITY_OPERANDS Direct NATIVE_AND_BROWSER_PROVIDER;
  use_op 0x000e000c "dir.create_new" Dir WRITE
    NO_AUTHORITY_OPERANDS Direct NATIVE_AND_BROWSER_PROVIDER;
  use_op 0x000e000d "dir.replace" Dir WRITE
    NO_AUTHORITY_OPERANDS Direct NATIVE_AND_BROWSER_PROVIDER;
  use_op 0x000e000e "dir.rename" Dir WRITE
    NO_AUTHORITY_OPERANDS Direct NATIVE_AND_BROWSER_PROVIDER;
  use_op 0x000e000f "dir.read_bytes" Dir READ
    NO_AUTHORITY_OPERANDS PendingBytes NATIVE_AND_BROWSER_PROVIDER;
  use_op 0x000e0010 "dir.write_bytes" Dir WRITE
    NO_AUTHORITY_OPERANDS Direct NATIVE_AND_BROWSER_PROVIDER;
  use_op 0x000e0011 "dir.append_bytes" Dir WRITE
    NO_AUTHORITY_OPERANDS Direct NATIVE_AND_BROWSER_PROVIDER;
  use_op 0x000e0012 "dir.set_executable" Dir WRITE
    NO_AUTHORITY_OPERANDS Direct NATIVE_AND_BROWSER_PROVIDER
].

Definition net_operations : list AuthorityOperationContract := [
  derive_op 0x000f0001 "net.connect" Net CONNECT_TCP
    NO_AUTHORITY_OPERANDS NetConnect Socket NoRights Direct NATIVE;
  derive_op 0x000f0003 "net.listen" Net LISTEN_TCP
    NO_AUTHORITY_OPERANDS NetListen Listener NoRights Direct NATIVE;
  derive_op 0x000f0004 "net.listen_tls" Net LISTEN_TCP
    TLS_SECRET_REQUIREMENT NetListenTls Listener NoRights Direct NATIVE;
  attenuate_op 0x000f0005 "net.only" Net NO_RIGHTS NetOnly Direct NATIVE;
  derive_op 0x000f0006 "net.fetch" Net CONNECT_TCP
    NO_AUTHORITY_OPERANDS NetFetch Fetch NoRights Direct NATIVE;
  attenuate_op 0x000f0007 "net.deny" Net NO_RIGHTS NetDeny Direct NATIVE;
  use_op 0x000f0008 "net.resolve" Net CONNECT NO_AUTHORITY_OPERANDS PendingList NATIVE;
  derive_op 0x000f0009 "net.connect_pinned" Net CONNECT_TCP
    NO_AUTHORITY_OPERANDS NetConnectPinned Socket NoRights Direct NATIVE;
  derive_op 0x000f000a "net.try_connect_pinned" Net CONNECT_TCP
    NO_AUTHORITY_OPERANDS NetTryConnectPinned Socket NoRights Direct NATIVE
].

Definition fetch_socket_operations : list AuthorityOperationContract := [
  attenuate_op 0x00100001 "fetch.only" Fetch NO_RIGHTS
    FetchOnly Direct NATIVE_AND_BROWSER_PROVIDER;
  use_op 0x00100002 "fetch.send_raw" Fetch NO_RIGHTS
    NO_AUTHORITY_OPERANDS PendingBytes NATIVE_AND_BROWSER_PROVIDER;
  derive_op 0x00110001 "listener.accept" Listener NO_RIGHTS
    NO_AUTHORITY_OPERANDS ListenerAccept Socket NoRights Direct NATIVE;
  use_op 0x00110002 "listener.serve_pool" Listener NO_RIGHTS
    NO_AUTHORITY_OPERANDS Direct NATIVE;
  use_op 0x00120001 "socket.send_line" Socket NO_RIGHTS NO_AUTHORITY_OPERANDS Direct NATIVE;
  use_op 0x00120002 "socket.send_bytes" Socket NO_RIGHTS
    NO_AUTHORITY_OPERANDS Direct NATIVE;
  use_op 0x00120003 "socket.recv_line" Socket NO_RIGHTS
    NO_AUTHORITY_OPERANDS PendingBytes NATIVE;
  use_op 0x00120004 "socket.recv_all" Socket NO_RIGHTS
    NO_AUTHORITY_OPERANDS PendingBytes NATIVE;
  use_op 0x00120005 "socket.recv_bytes" Socket NO_RIGHTS
    NO_AUTHORITY_OPERANDS PendingBytes NATIVE;
  use_op 0x00120006 "socket.close" Socket NO_RIGHTS NO_AUTHORITY_OPERANDS Direct NATIVE
].

Definition AUTHORITY_OPERATIONS : list AuthorityOperationContract :=
  console_clock_env_operations ++ secret_exec_operations ++ build_file_operations ++
  dir_read_derive_operations ++ dir_write_operations ++ net_operations ++
  fetch_socket_operations.

Definition authority_operation (id : N) : option AuthorityOperationContract :=
  List.find (λ operation, (op_id operation =? id)%N) AUTHORITY_OPERATIONS.

Definition authority_operation_named (name : string) : option AuthorityOperationContract :=
  List.find (λ operation, String.eqb (op_name operation) name) AUTHORITY_OPERATIONS.

(** ** Authority flow *)

(** An authority a program holds: its kind and the rights it carries. *)
Record authority : Set := {
  auth_kind : CapabilityKind;
  auth_rights : list CapabilityRight;
}.

(** The rights a derivation may assign to its result, given the receiver's
    rights and the launch grant of the named secret. *)
Inductive assigns (grant held : list CapabilityRight) :
    DerivedRights → list CapabilityRight → Prop :=
  | assigns_none : assigns grant held NoRights []
  | assigns_preserve : assigns grant held PreserveReceiver held
  | assigns_exact rights : assigns grant held (Exact rights) rights
  | assigns_secret rights :
      rights_admit Secret grant rights = true →
      assigns grant held SecretGrantBounded rights.

(** One event of the authority flow: a rights ascription, or a call of a
    catalogued operation whose receiver rights are held. *)
Inductive derives (grant : list CapabilityRight) : authority → authority → Prop :=
  | derives_narrow kind parent child :
      rights_are_monotone_narrowing kind parent child = true →
      derives grant {| auth_kind := kind; auth_rights := parent |}
                    {| auth_kind := kind; auth_rights := child |}
  | derives_attenuate op narrowing held :
      op ∈ AUTHORITY_OPERATIONS → effect op = Attenuate narrowing →
      rights_admit (receiver op) held (required_receiver_rights op) = true →
      derives grant {| auth_kind := receiver op; auth_rights := held |}
                    {| auth_kind := receiver op; auth_rights := held |}
  | derives_derive op derivation held rights :
      op ∈ AUTHORITY_OPERATIONS → effect op = Derive derivation →
      rights_admit (receiver op) held (required_receiver_rights op) = true →
      assigns grant held (result_rights derivation) rights →
      derives grant {| auth_kind := receiver op; auth_rights := held |}
                    {| auth_kind := result_kind derivation; auth_rights := rights |}.

(** * Coherence of the rows *)

(** The capability each scope narrowing refines. *)
Definition narrowing_receiver (n : ScopeNarrowingKind) : option CapabilityKind :=
  match n with
  | RightsAscription => None
  | EnvOnly => Some Env
  | ExecOnly => Some Exec
  | DirOnly => Some Dir
  | NetOnly | NetDeny => Some Net
  | FetchOnly => Some Fetch
  end.

(** The derivation is permitted by the contract of the kind it produces. *)
Definition derivation_permitted (d : AuthorityDerivation) : bool :=
  match capability_contract (result_kind d) with
  | Some c => bool_decide (derivation_kind d ∈ permitted_derivations c)
  | None => false
  end.

Definition effect_ok (op : AuthorityOperationContract) : bool :=
  match effect op with
  | Use => true
  | Attenuate n => bool_decide (narrowing_receiver n = Some (receiver op))
  | Derive d => derivation_permitted d
  end.

Definition operands_ok (op : AuthorityOperationContract) : bool :=
  forallb (λ o, (0 <? operand_index o)%N &&
                rights_are_well_formed (operand_kind o) (operand_rights o))
    (additional_authority_operands op).

Definition targets_ok (op : AuthorityOperationContract) : bool :=
  forallb (λ t, match target_domain_contract t with Some _ => true | None => false end)
    (targets op)
  && existsb (λ t, match target_domain_contract t with
                   | Some c => shippable c | None => false end) (targets op).

(** A derivation cannot add rights: it keeps the receiver's, takes a part of
    what the operation requires, or is bounded by a secret's grant. *)
Definition derivation_bounded (op : AuthorityOperationContract)
    (d : AuthorityDerivation) : bool :=
  match result_rights d with
  | NoRights => true
  | PreserveReceiver => kind_eqb (result_kind d) (receiver op)
  | Exact rights =>
      rights_are_well_formed (result_kind d) rights &&
      forallb (λ r, bool_decide (r ∈ required_receiver_rights op)) rights
  | SecretGrantBounded =>
      kind_eqb (result_kind d) Secret && kind_eqb (receiver op) SecretStore
  end.

(** The kinds a derivation can lead to, with what it demands of a network
    receiver. *)
Definition derivation_edge (op : AuthorityOperationContract)
    (d : AuthorityDerivation) : bool :=
  match result_kind d with
  | Secret => kind_eqb (receiver op) SecretStore
  | Dir | File => kind_eqb (receiver op) Dir
  | Fetch => kind_eqb (receiver op) Net
             && bool_decide (required_receiver_rights op = CONNECT_TCP)
  | Listener => kind_eqb (receiver op) Net
                && bool_decide (required_receiver_rights op = LISTEN_TCP)
  | Socket => kind_eqb (receiver op) Listener
              || (kind_eqb (receiver op) Net
                  && bool_decide (required_receiver_rights op = CONNECT_TCP))
  | _ => false
  end.

Definition row_ok (op : AuthorityOperationContract) : bool :=
  rights_are_well_formed (receiver op) (required_receiver_rights op)
  && operands_ok op && targets_ok op && effect_ok op
  && match effect op with
     | Derive d => derivation_bounded op d && derivation_edge op d
     | _ => true
     end.

Lemma rows_ok op : op ∈ AUTHORITY_OPERATIONS → row_ok op = true.
Proof.
  intros Hop. assert (forallb row_ok AUTHORITY_OPERATIONS = true) as H
    by (vm_compute; reflexivity).
  rewrite forallb_forall in H. by apply H, list_elem_of_In.
Qed.

Lemma derive_rows_ok op d :
  op ∈ AUTHORITY_OPERATIONS → effect op = Derive d →
  derivation_bounded op d = true ∧ derivation_edge op d = true.
Proof.
  intros Hop He. apply rows_ok in Hop. unfold row_ok in Hop. rewrite He in Hop.
  rewrite !andb_true_iff in Hop. tauto.
Qed.

(** A list searched by a key without duplicates returns each of its rows. *)
Lemma find_unique {A K} (key : A → K) (eqb : A → bool) (l : list A) x :
  (∀ y, eqb y = true ↔ key y = key x) → NoDup (map key l) → x ∈ l →
  List.find eqb l = Some x.
Proof.
  intros Heq. induction l as [|y l IH]; cbn; [set_solver|].
  rewrite list.NoDup_cons. intros [Hy Hnd] [->|Hx]%elem_of_cons.
  - by rewrite (proj2 (Heq y)).
  - destruct (eqb y) eqn:E; [|auto]. apply Heq in E. exfalso. apply Hy.
    rewrite E. apply list_elem_of_fmap. eauto.
Qed.

Lemma operation_ids_NoDup : NoDup (map op_id AUTHORITY_OPERATIONS).
Proof. apply (bool_decide_unpack _). vm_compute. done. Qed.

Lemma operation_names_NoDup : NoDup (map op_name AUTHORITY_OPERATIONS).
Proof. apply (bool_decide_unpack _). vm_compute. done. Qed.

(** * Reachable authorities *)

Definition auth_wf (a : authority) : Prop :=
  rights_are_well_formed (auth_kind a) (auth_rights a) = true.

Lemma admit_wf k held required :
  rights_admit k held required = true → rights_are_well_formed k held = true.
Proof. rewrite rights_admit_true. tauto. Qed.

Lemma derives_wf grant a b : derives grant a b → auth_wf b.
Proof.
  unfold auth_wf. intros [kind p c H|op n held Hop He Hh|op d held r Hop He Hh Ha]; cbn.
  - apply rights_admit_true in H. tauto.
  - by eapply admit_wf.
  - apply derive_rows_ok in He as [Hb _]; [|done]. unfold derivation_bounded in Hb.
    destruct Ha as [| |rights|rights Hg]; [done|..].
    + apply bool_decide_eq_true in Hb as ->. by eapply admit_wf.
    + by apply andb_true_iff in Hb as [? _].
    + apply andb_true_iff in Hb as [Hk _]. apply bool_decide_eq_true in Hk as ->.
      apply rights_admit_true in Hg. tauto.
Qed.

(** Where a right of the result comes from. *)
Lemma derives_rights grant a b r :
  derives grant a b → r ∈ auth_rights b →
  r ∈ auth_rights a ∨ (auth_kind a = SecretStore ∧ auth_kind b = Secret ∧ r ∈ grant).
Proof.
  intros [kind p c H|op n held Hop He Hh|op d held rs Hop He Hh Ha] Hr; cbn in *.
  - left. apply rights_admit_true in H. naive_solver.
  - by left.
  - apply derive_rows_ok in He as [Hb _]; [|done]. unfold derivation_bounded in Hb.
    destruct Ha as [| |rights|rights Hg]; [by apply elem_of_nil in Hr|by left|..].
    + left. apply andb_true_iff in Hb as [_ Hb]. rewrite forallb_forall in Hb.
      apply list_elem_of_In in Hr as Hr'. apply Hb, bool_decide_eq_true in Hr'.
      apply rights_admit_true in Hh. naive_solver.
    + right. rewrite andb_true_iff in Hb. destruct Hb as [H1 H2].
      apply bool_decide_eq_true in H1, H2. apply rights_admit_true in Hg. naive_solver.
Qed.

(** The network endpoints a step can create. *)
Lemma derives_kind grant a b :
  derives grant a b → auth_kind a = auth_kind b ∨
  match auth_kind b with
  | Secret => auth_kind a = SecretStore
  | File => auth_kind a = Dir
  | Fetch => auth_kind a = Net ∧ Connect ∈ auth_rights a ∧ Tcp ∈ auth_rights a
  | Listener => auth_kind a = Net ∧ Listen ∈ auth_rights a ∧ Tcp ∈ auth_rights a
  | Socket => auth_kind a = Listener ∨
      (auth_kind a = Net ∧ Connect ∈ auth_rights a ∧ Tcp ∈ auth_rights a)
  | _ => False
  end.
Proof.
  intros [kind p c H|op n held Hop He Hh|op d held rs Hop He Hh Ha]; cbn; [by left..|].
  apply derive_rows_ok in He as [_ Hb]; [|done]. unfold derivation_edge in Hb.
  apply rights_admit_true in Hh as (_ & _ & Hh).
  destruct (result_kind d); try done;
    rewrite ?orb_true_iff, ?andb_true_iff in Hb; unfold kind_eqb in Hb;
    rewrite ?bool_decide_eq_true in Hb; first [by left|by right|right].
  all: repeat match goal with
         | H : _ ∨ _ |- _ => destruct H as [H|H]; [by left|right]
         | H : _ ∧ _ |- _ => destruct H
         | H : required_receiver_rights _ = _ |- _ => rewrite H in *; clear H
         end.
  all: split; [done|]; split;
    match goal with H : ∀ _, _ |- _ => apply H end; set_solver.
Qed.

(** What a chain of steps can have started from. *)
Definition lineage (grant : list CapabilityRight) (root a : authority) : Prop :=
  (∀ r, r ∈ auth_rights a →
     r ∈ auth_rights root ∨ (auth_kind root = SecretStore ∧ r ∈ grant)) ∧
  (auth_kind a = auth_kind root ∨
   match auth_kind a with
   | Secret => auth_kind root = SecretStore
   | File => auth_kind root = Dir
   | Fetch => auth_kind root = Net ∧
       Connect ∈ auth_rights root ∧ Tcp ∈ auth_rights root
   | Listener => auth_kind root = Net ∧
       Listen ∈ auth_rights root ∧ Tcp ∈ auth_rights root
   | Socket => auth_kind root = Listener ∨
       (auth_kind root = Net ∧ Tcp ∈ auth_rights root ∧
        (Connect ∈ auth_rights root ∨ Listen ∈ auth_rights root))
   | _ => False
   end).

(** A kind with rights of its own that is not the root's can only be a file
    of a directory root or a secret of the store. *)
Lemma lineage_step grant root a b :
  auth_wf a → lineage grant root a → derives grant a b → lineage grant root b.
Proof.
  intros Hwf [Hr Hk] Hd. pose proof (derives_kind _ _ _ Hd) as Hk'. split.
  - intros r Hb. destruct (derives_rights _ _ _ _ Hd Hb) as [Ha|(Ha & _ & Hg)]; [auto|].
    right. split; [|done]. destruct Hk as [Hk|Hk]; [congruence|]. by rewrite Ha in Hk.
  - assert (∀ r, auth_kind root ≠ SecretStore → r ∈ auth_rights a → r ∈ auth_rights root)
      as Hr' by (intros r Hne Ha; destruct (Hr r Ha) as [?|[? _]]; [done|congruence]).
    destruct Hk' as [Hk'|Hk']; [by rewrite <- Hk'|].
    destruct (auth_kind b); try done; right.
    + rewrite Hk' in Hk. by destruct Hk as [<-|[]].
    + rewrite Hk' in Hk. by destruct Hk as [<-|[]].
    + destruct Hk' as (Ha & H1 & H2). rewrite Ha in Hk. destruct Hk as [Hk|[]].
      rewrite <- Hk in *. auto 6.
    + destruct Hk' as [Ha|(Ha & H1 & H2)]; rewrite Ha in Hk.
      * destruct Hk as [Hk|(Hk & H1 & H2)]; [by left|right; auto].
      * destruct Hk as [Hk|[]]. right. rewrite <- Hk in *. auto 6.
    + destruct Hk' as (Ha & H1 & H2). rewrite Ha in Hk. destruct Hk as [Hk|[]].
      rewrite <- Hk in *. auto 6.
Qed.

(** * Theorems *)

(** the 58 rows form a catalogue: identifiers
    and names are unique and both lookups return the row they name; every
    row asks only for well-formed rights of its receiver and of its extra
    operands, names known targets of which one is shippable, narrows only
    its own receiver, and derives only what the contract of the result kind
    permits; each derivation kind belongs to exactly one row. *)
Theorem authority_catalog_coherent :
  length AUTHORITY_OPERATIONS = 58 ∧
  (∀ op, op ∈ AUTHORITY_OPERATIONS →
     authority_operation (op_id op) = Some op ∧
     authority_operation_named (op_name op) = Some op ∧
     rights_are_well_formed (receiver op) (required_receiver_rights op) = true ∧
     operands_ok op = true ∧ targets_ok op = true ∧ effect_ok op = true) ∧
  (∀ n, n ∈ [SecretStoreGet; SecretStoreRequire; DirSubtree; DirReadFile; DirWriteFile;
             NetFetch; NetConnect; NetConnectPinned; NetTryConnectPinned;
             NetListen; NetListenTls; ListenerAccept] →
     length (List.filter (λ op, match effect op with
        | Derive d => bool_decide (derivation_kind d = n) | _ => false end)
        AUTHORITY_OPERATIONS) = 1).
Proof.
  split; [done|]. split.
  - intros op Hop. split_and!.
    1: by apply (find_unique op_id); [intros y; apply N.eqb_eq|apply operation_ids_NoDup|].
    1: by apply (find_unique op_name);
         [intros y; apply String.eqb_eq|apply operation_names_NoDup|].
    all: apply rows_ok in Hop; unfold row_ok in Hop; rewrite !andb_true_iff in Hop; tauto.
  - intros n Hn. rewrite !elem_of_cons, elem_of_nil in Hn.
    destruct_or! Hn; subst; vm_compute; done.
Qed.

(** C3: no sequence of narrowings, attenuations and
    derivations adds authority.  Whatever is reached from a well-formed root
    is well formed; each of its rights is a right of the root, or of the
    launch grant when the root is the secret store; and a reached kind other
    than the root's is a secret of the store, a file of a directory, or a
    network handle of a [Net] root that held the TCP transport and the verb
    it takes. *)
Theorem authority_never_amplifies grant root a :
  auth_wf root → rtc (derives grant) root a → auth_wf a ∧ lineage grant root a.
Proof.
  intros Hroot. revert a.
  refine (rtc_ind_r (λ a, auth_wf a ∧ lineage grant root a) root _ _).
  - split; [done|]. split; [naive_solver|by left].
  - intros x y _ Hstep [Hwf Hl]. split; [by eapply derives_wf|by eapply lineage_step].
Qed.

Lemma authority_never_amplifies_witness :
  rtc (derives []) {| auth_kind := Dir; auth_rights := [Read; Write] |}
                   {| auth_kind := File; auth_rights := [Read] |} ∧
  lineage [] {| auth_kind := Dir; auth_rights := [Read; Write] |}
             {| auth_kind := File; auth_rights := [Read] |}.
Proof.
  assert (rtc (derives []) {| auth_kind := Dir; auth_rights := [Read; Write] |}
                           {| auth_kind := File; auth_rights := [Read] |}) as Hsteps.
  { apply rtc_once.
    apply (derives_derive [] (derive_op 0x000e0008 "dir.read_file" Dir READ
      NO_AUTHORITY_OPERANDS DirReadFile File (Exact READ) Direct
      NATIVE_AND_BROWSER_PROVIDER) {| derivation_kind := DirReadFile;
      result_kind := File; result_rights := Exact READ |});
      [|reflexivity|vm_compute; reflexivity|constructor].
    apply (list_elem_of_lookup_2 _ 28). reflexivity. }
  split; [exact Hsteps|].
  refine (proj2 (authority_never_amplifies [] _ _ _ Hsteps)). vm_compute. reflexivity.
Defined.
