(* ===== verification/Footprint.v ===== *)
(** * Footprint: the capability footprint analyzer

    Models [crates/witchy-caps/src/capabilities.rs] from [CapSet] to
    [run_grant]: which host capabilities, with which rights, the entry points
    of a module demand, seen through user types, and the comparison of two
    footprints the supply-chain gate fails on.  The syntax tree is
    [crates/witchy-syntax/src/ast.rs] without its expression language: the
    [body] of a function, the [default] of a parameter, the [value] of a
    constant, the block of a [comptime] item and the method signatures of a
    trait have no field here, since the analysis never reads them. *)

From S2P Require Import Prelude Text Catalog.

Local Open Scope string_scope.

(** ** Syntax *)

Inductive Convention : Set := Let | Borrow | Var | Own.

Inductive TypeQual : Set :=
  | Frozen | Unique | View
  | BorrowQual (lifetime : string)
  | LegacyBorrow (lifetime : string)
  | BorrowMut (lifetime : string).

Record CallableQualifiers : Set := { pure : bool; once : bool }.

Inductive Ty : Set :=
  | Named (name : string) (args : list Ty)
  | Tuple (elems : list Ty)
  | Slice (inner : Ty)
  | RecordCompose (base : Ty) (fields : list (string * Ty))
  | Fn (params : list Ty) (ret : Ty) (conventions : list Convention)
       (qualifiers : CallableQualifiers)
  | Qualified (qual : TypeQual) (inner : Ty)
  | Dyn (trait_name : string) (args : list Ty).

Record Param : Set := {
  param_name : string;
  param_ty : option Ty;
  param_convention : Convention;
}.

(** A [where] clause entry: variable, trait, trait arguments. *)
Abbreviation Bound := (string * string * list Ty)%type.

Record Function : Set := {
  fn_line : N;
  fn_public : bool;
  fn_pure : bool;
  fn_comptime_only : bool;
  fn_attributes : list string;
  fn_name : string;
  fn_type_params : list string;
  fn_params : list Param;
  fn_ret : option Ty;
  fn_bounds : list Bound;
  fn_is_gen : bool;
  fn_is_async : bool;
}.

Record Variant : Set := {
  variant_name : string;
  variant_line : N;
  variant_fields : list Ty;
  variant_field_names : list string;
  variant_field_lines : list N;
}.

Record TypeDef : Set := {
  type_name : string;
  type_must_consume : bool;
  type_params : list string;
  type_variants : list Variant;
  type_derives : list string;
  type_sealed : bool;
  type_is_capability : bool;
  type_grantable : bool;
  type_packed : bool;
  type_partial_eq_derived : bool;
  type_public_state_derived : bool;
}.

Inductive ImplOrigin : Set := Source | CompilerGenerated.

Record ImplDef : Set := {
  impl_origin : ImplOrigin;
  impl_trait_name : option string;
  impl_trait_args : list Ty;
  impl_type_name : string;
  impl_target_args : list Ty;
  impl_bounds : list Bound;
  impl_methods : list Function;
}.

Inductive Item : Set :=
  | ItemFunction (f : Function)
  | ItemType (t : TypeDef)
  | ItemTrait (name : string) (typarams supertraits : list string)
  | ItemImpl (im : ImplDef)
  | ItemConst (name : string)
  | ItemTypeAlias (name : string) (params : list string) (ty : Ty)
  | ItemComptime.

(** [Module.items] *)
Abbreviation Items := (list Item).

(** [f.params.iter().filter_map(|p| p.ty.as_ref())] *)
Definition param_types (f : Function) : list Ty := omap param_ty (fn_params f).

(** The last piece of [name.rsplit('.')]. *)
Definition unqualified (name : string) : string :=
  match rsplit_once "." name with Some (_, tail) => tail | None => name end.

Definition is_build_capability_type (t : Ty) : bool :=
  match t with
  | Named n _ =>
      match Kind.from_name n with
      | Some kind => bool_decide (Kind.class kind = Build)
      | None => false
      end
  | _ => false
  end.

Definition is_build_entry (f : Function) : bool :=
  String.eqb (unqualified (fn_name f)) "build" &&
  match fn_params f with
  | p :: _ => match param_ty p with Some t => is_build_capability_type t | None => false end
  | [] => false
  end.

Fixpoint build_entrypoint (items : Items) : option Function :=
  match items with
  | [] => None
  | ItemFunction f :: rest => if is_build_entry f then Some f else build_entrypoint rest
  | _ :: rest => build_entrypoint rest
  end.

(** ** Heap mode *)

Inductive HeapMode : Set := Standard | Large.

#[export] Instance HeapMode_eq_dec : EqDecision HeapMode.
Proof. solve_decision. Defined.

Definition from_main_attributes (attributes : list string) : HeapMode :=
  if existsb (λ a, String.eqb a "large_heap") attributes then Large else Standard.

Fixpoint heap_mode (items : Items) : HeapMode :=
  match items with
  | [] => Standard
  | ItemFunction f :: rest =>
      if String.eqb (fn_name f) "main" && negb (fn_comptime_only f)
      then from_main_attributes (fn_attributes f) else heap_mode rest
  | _ :: rest => heap_mode rest
  end.

(** ** Capability sets *)

(** [BTreeSet<&'static str>] and [BTreeMap<&'static str, Rights>]. *)
Abbreviation Rights := (gset string).
Abbreviation CapSet := (gmap string Rights).

(** [out.entry(cap).or_default().extend(rights)] *)
Definition extend_entry (cap : string) (rights : Rights) (out : CapSet) : CapSet :=
  <[cap := default ∅ (out !! cap) ∪ rights]> out.

(** The loop extends one entry per capability of [src], in any order. *)
Definition merge_into (dst src : CapSet) : CapSet :=
  union_with (λ a b, Some (a ∪ b)) dst src.

Definition host_cap (name : string) : option string :=
  match Kind.from_name name with
  | Some kind => if bool_decide (Kind.class kind = Host) then Some (Kind.name kind) else None
  | None => None
  end.

Definition build_cap (name : string) : option string :=
  match Kind.from_name name with
  | Some kind => if bool_decide (Kind.class kind = Build) then Some (Kind.name kind) else None
  | None => None
  end.

Definition right_names (rights : list CapabilityRight) : Rights :=
  list_to_set (map Right.name rights).

Definition full_rights (cap : string) : Rights :=
  match Kind.from_name cap with
  | Some kind => right_names (Kind.rights kind)
  | None => ∅
  end.

Definition right_marker (cap marker : string) : option string :=
  kind ← Kind.from_name cap;
  r ← Kind.right kind marker;
  Some (Right.name r).

(** The marker loop of [rights_from_args]. *)
Definition marked_rights (cap : string) (args : list Ty) : Rights :=
  List.fold_left (λ r a,
    match a with
    | Named n _ => match right_marker cap n with Some m => {[m]} ∪ r | None => r end
    | _ => r
    end) args ∅.

(** An axis of [Net] no marker mentions is full. *)
Definition default_axis (axis : list CapabilityRight) (r : Rights) : Rights :=
  if negb (existsb (λ rt, bool_decide (Right.name rt ∈ r)) axis)
  then r ∪ right_names axis else r.

Definition rights_from_args (cap : string) (args : list Ty) : Rights :=
  match args with
  | [] => full_rights cap
  | _ =>
      let r := marked_rights cap args in
      if String.eqb cap "Net"
      then default_axis NET_TRANSPORT_RIGHTS (default_axis NET_VERB_RIGHTS r) else r
  end.

(** [HashMap<String, CapSet>] *)
Abbreviation Taint := (gmap string CapSet).

Fixpoint caps_in (ty : Ty) (taint : Taint) (out : CapSet) : CapSet :=
  match ty with
  | Qualified _ inner => caps_in inner taint out
  | Slice inner => caps_in inner taint out
  | Named name args =>
      let out := match host_cap name with
                 | Some h => extend_entry h (rights_from_args h args) out
                 | None => out
                 end in
      let out := match taint !! name with
                 | Some caps => merge_into out caps
                 | None => out
                 end in
      List.fold_left (λ out a, caps_in a taint out) args out
  | Dyn _ args => List.fold_left (λ out a, caps_in a taint out) args out
  | Tuple ts => List.fold_left (λ out t, caps_in t taint out) ts out
  | RecordCompose base fields =>
      List.fold_left (λ out f, caps_in (snd f) taint out) fields (caps_in base taint out)
  | Fn _ _ _ _ => out
  end.

Fixpoint build_caps_in (ty : Ty) (out : CapSet) : CapSet :=
  match ty with
  | Qualified _ inner => build_caps_in inner out
  | Slice inner => build_caps_in inner out
  | Named name args =>
      let out := match build_cap name with
                 | Some b => extend_entry b ∅ out
                 | None => out
                 end in
      List.fold_left (λ out a, build_caps_in a out) args out
  | Dyn _ args => List.fold_left (λ out a, build_caps_in a out) args out
  | Tuple ts => List.fold_left (λ out t, build_caps_in t out) ts out
  | RecordCompose base fields =>
      List.fold_left (λ out f, build_caps_in (snd f) out) fields (build_caps_in base out)
  | Fn _ _ _ _ => out
  end.

(** ** User types *)

Definition type_items (items : Items) : list TypeDef :=
  omap (λ it, match it with ItemType t => Some t | _ => None end) items.

(** [map.entry(t.name).or_default()] for every type. *)
Definition taint_init (types : list TypeDef) : Taint :=
  List.fold_left (λ m t, <[type_name t := default ∅ (m !! type_name t)]> m) types ∅.

(** The fields of every variant, in order. *)
Definition type_fields (t : TypeDef) : list Ty :=
  List.concat (map variant_fields (type_variants t)).

(** The body of the inner loop for one type: the new map and [changed]. *)
Definition taint_type (t : TypeDef) (st : Taint * bool) : Taint * bool :=
  let (m, changed) := st in
  let acc := List.fold_left (λ acc fty, caps_in fty m acc) (type_fields t) ∅ in
  let before := default ∅ (m !! type_name t) in
  let slot := merge_into before acc in
  (<[type_name t := slot]> m, changed || negb (bool_decide (slot = before))).

Definition taint_round (types : list TypeDef) (m : Taint) : Taint * bool :=
  List.fold_left (λ st t, taint_type t st) types (m, false).

(** [loop { ...; if !changed { break } }]; [None] when the fuel runs out. *)
Fixpoint taint_loop (fuel : nat) (types : list TypeDef) (m : Taint) : option Taint :=
  match fuel with
  | O => None
  | S fuel' =>
      let (m', changed) := taint_round types m in
      if changed then taint_loop fuel' types m' else Some m'
  end.

(** Every capability and right a round can add: 18 kinds, each alone or with
    one of 9 rights, for every type. *)
Definition taint_fuel (types : list TypeDef) : nat := S (length types * (18 * 10)).

Definition taint_map (items : Items) : option Taint :=
  let types := type_items items in
  taint_loop (taint_fuel types) types (taint_init types).

(** One-variant, one-field types wrapping exactly one capability. *)
Definition brand_of (taint : Taint) (t : TypeDef) : option string :=
  match type_variants t with
  | [v] => match variant_fields v with
           | [fty] => match map_to_list (caps_in fty taint ∅) with
                      | [(cap, _)] => Some cap
                      | _ => None
                      end
           | _ => None
           end
  | _ => None
  end.

Definition brand_map (items : Items) (taint : Taint) : gmap string string :=
  List.fold_left (λ brands t,
    match brand_of taint t with
    | Some cap => <[type_name t := cap]> brands
    | None => brands
    end) (type_items items) ∅.

(** ** Entry points *)

Record Entry : Type := {
  entry_name : string;
  entry_capabilities : CapSet;
  entry_brands : gset string;
}.

Record Footprint : Type := {
  entries : list Entry;
  per_function : list Entry;
  total : CapSet;
  brands : gset string;
  user_caps : gset string;
  build : CapSet;
  heap : HeapMode;
}.

(** The loop of [analyze_signature] over one parameter type. *)
Definition scan_type (is_entry : bool) (taint : Taint) (brands : gmap string string)
    (grantable : gset string) (ty : Ty) (st : CapSet * gset string * gset string)
    : CapSet * gset string * gset string :=
  let '(capabilities, entry_brands, user_caps) := st in
  let user_caps :=
    match ty with
    | Named n _ => if is_entry && bool_decide (n ∈ grantable)
                   then {[n]} ∪ user_caps else user_caps
    | _ => user_caps
    end in
  let caps := caps_in ty taint ∅ in
  if bool_decide (caps = ∅) then (capabilities, entry_brands, user_caps)
  else
    let entry_brands :=
      match ty with
      | Named n _ => match brands !! n with
                     | Some _ => {[n]} ∪ entry_brands
                     | None => entry_brands
                     end
      | _ => entry_brands
      end in
    (merge_into capabilities caps, entry_brands, user_caps).

Definition analyze_signature (name : string) (types : list Ty) (is_entry : bool)
    (taint : Taint) (brands : gmap string string) (grantable user_caps : gset string)
    : Entry * gset string :=
  let '(capabilities, entry_brands, user_caps) :=
    List.fold_left (λ st ty, scan_type is_entry taint brands grantable ty st) types
      (∅, ∅, user_caps) in
  ({| entry_name := name; entry_capabilities := capabilities;
      entry_brands := entry_brands |}, user_caps).

Definition impl_method_entry_name (im : ImplDef) (method : string) : string :=
  match impl_trait_name im with
  | Some trait_name => trait_name +:+ (" for " +:+ (impl_type_name im +:+ ("." +:+ method)))
  | None => impl_type_name im +:+ ("." +:+ method)
  end.

(** The signatures one item contributes: name, parameter types, entry? *)
Definition item_entries (it : Item) : list (string * list Ty * bool) :=
  match it with
  | ItemFunction f =>
      if fn_comptime_only f then []
      else [(fn_name f, param_types f, fn_public f || String.eqb (fn_name f) "main")]
  | ItemImpl im =>
      map (λ m, (impl_method_entry_name im (fn_name m), param_types m, fn_public m))
        (impl_methods im)
  | _ => []
  end.

Record analysis : Type := {
  an_entries : list Entry;
  an_per_function : list Entry;
  an_total : CapSet;
  an_user_caps : gset string;
}.

Definition analyze_entry (taint : Taint) (brands : gmap string string)
    (grantable : gset string) (st : analysis) (sig : string * list Ty * bool) : analysis :=
  let '(name, types, is_entry) := sig in
  let (entry, user_caps) :=
    analyze_signature name types is_entry taint brands grantable (an_user_caps st) in
  if is_entry then
    {| an_entries := an_entries st ++ [entry];
       an_per_function := an_per_function st ++ [entry];
       an_total := merge_into (an_total st) (entry_capabilities entry);
       an_user_caps := user_caps |}
  else
    {| an_entries := an_entries st;
       an_per_function :=
         if bool_decide (entry_capabilities entry = ∅) then an_per_function st
         else an_per_function st ++ [entry];
       an_total := an_total st;
       an_user_caps := user_caps |}.

Definition grantable_names (items : Items) : gset string :=
  list_to_set (map type_name (List.filter type_grantable (type_items items))).

Definition signatures (items : Items) : list (string * list Ty * bool) :=
  List.concat (map item_entries items).

Definition analyze_with (taint : Taint) (items : Items) : Footprint :=
  let brands := brand_map items taint in
  let st := List.fold_left (analyze_entry taint brands (grantable_names items))
    (signatures items)
    {| an_entries := []; an_per_function := []; an_total := ∅; an_user_caps := ∅ |} in
  {| entries := an_entries st;
     per_function := an_per_function st;
     total := an_total st;
     brands := ⋃ (map entry_brands (an_entries st));
     user_caps := an_user_caps st;
     build := match build_entrypoint items with
              | Some b => List.fold_left (λ out ty, build_caps_in ty out) (param_types b) ∅
              | None => ∅
              end;
     heap := heap_mode items |}.

Definition analyze (items : Items) : option Footprint :=
  taint ← taint_map items; Some (analyze_with taint items).

Definition run_grant (items : Items) : option CapSet :=
  fp ← analyze items;
  Some match List.find (λ e, String.eqb (entry_name e) "main") (entries fp) with
       | Some e => entry_capabilities e
       | None => ∅
       end.

(** ** Comparing footprints *)

(** The loop keeps, for each capability of [a], what [b] lacks of it. *)
Definition cap_delta (a b : CapSet) : CapSet :=
  merge (λ ar br,
    match ar, br with
    | None, _ => None
    | Some ar, None => Some ar
    | Some ar, Some br => if bool_decide (ar ∖ br = ∅) then None else Some (ar ∖ br)
    end) a b.

Record FootprintDiff : Type := {
  added : CapSet;
  removed : CapSet;
  build_added : CapSet;
  build_removed : CapSet;
  refinements_dropped : gset string;
  refinements_gained : gset string;
  user_caps_added : gset string;
  user_caps_removed : gset string;
  large_heap_added : bool;
}.

Definition diff (old new : Footprint) : FootprintDiff :=
  {| added := cap_delta (total new) (total old);
     removed := cap_delta (total old) (total new);
     build_added := cap_delta (build new) (build old);
     build_removed := cap_delta (build old) (build new);
     refinements_dropped := brands old ∖ brands new;
     refinements_gained := brands new ∖ brands old;
     user_caps_added := user_caps new ∖ user_caps old;
     user_caps_removed := user_caps old ∖ user_caps new;
     large_heap_added :=
       bool_decide (heap new = Large) && negb (bool_decide (heap old = Large)) |}.

Definition widened (d : FootprintDiff) : bool :=
  negb (bool_decide (added d = ∅)) || negb (bool_decide (build_added d = ∅))
  || negb (bool_decide (user_caps_added d = ∅)) || large_heap_added d.

Definition build_widened (d : FootprintDiff) : bool := negb (bool_decide (build_added d = ∅)).

(** * The set of authority atoms a capability set stands for

    An atom is a capability, or one of its rights. *)

Abbreviation atom := (string * option string)%type.

Definition has (m : CapSet) (x : atom) : Prop :=
  ∃ rs, m !! fst x = Some rs ∧ match snd x with Some r => r ∈ rs | None => True end.

(** The atoms one capability with the given rights contributes. *)
Definition entry_atoms (cap : string) (rights : Rights) (x : atom) : Prop :=
  fst x = cap ∧ match snd x with Some r => r ∈ rights | None => True end.

Lemma has_empty x : ¬ has ∅ x.
Proof. intros (rs & H & _). by rewrite lookup_empty in H. Qed.

Lemma has_lookup m c o :
  has m (c, o) ↔ match m !! c with
                 | Some rs => match o with Some r => r ∈ rs | None => True end
                 | None => False
                 end.
Proof. unfold has. cbn. destruct (m !! c); naive_solver. Qed.

Lemma has_extend_entry cap rs m x :
  has (extend_entry cap rs m) x ↔ has m x ∨ entry_atoms cap rs x.
Proof.
  destruct x as [c o]. rewrite !has_lookup. unfold extend_entry, entry_atoms. cbn.
  destruct (decide (c = cap)) as [->|Hne];
    [rewrite lookup_insert_eq|rewrite lookup_insert_ne by done; tauto].
  destruct (m !! cap) as [rs0|], o as [r|]; cbn; set_solver.
Qed.

Lemma has_merge_into a b x : has (merge_into a b) x ↔ has a x ∨ has b x.
Proof.
  destruct x as [c o]. rewrite !has_lookup. unfold merge_into. rewrite lookup_union_with.
  destruct (a !! c) as [rs|], (b !! c) as [rs'|], o as [r|]; cbn; set_solver.
Qed.

(** Capability sets are determined by their atoms. *)
Lemma has_ext a b : (∀ x, has a x ↔ has b x) → a = b.
Proof.
  intros H. apply map_eq. intros c.
  pose proof (H (c, None)) as Hc. unfold has in Hc. cbn in Hc.
  destruct (a !! c) as [rs|] eqn:Ea, (b !! c) as [rs'|] eqn:Eb; [|naive_solver..].
  f_equal. apply set_eq. intros r. specialize (H (c, Some r)). unfold has in H. cbn in H.
  naive_solver.
Qed.

Lemma empty_has m : m = ∅ ↔ ∀ x, ¬ has m x.
Proof.
  split; [intros ->; apply has_empty|]. intros H. apply has_ext.
  intros x. split; [by intros ?%H|by intros ?%has_empty].
Qed.

(** The order of authority: [sub a b] when [b] has every atom of [a]. *)
Definition sub (a b : CapSet) : Prop := ∀ x, has a x → has b x.

#[export] Instance sub_preorder : PreOrder sub.
Proof. split; unfold sub; [intros ?|intros ???]; eauto. Qed.

Lemma sub_antisym a b : sub a b → sub b a → a = b.
Proof. intros H1 H2. apply has_ext. split; auto. Qed.

#[export] Instance merge_into_proper : Proper (sub ==> sub ==> sub) merge_into.
Proof. intros a a' Ha b b' Hb x. rewrite !has_merge_into. intros [?|?]; auto. Qed.

(** ** What one pass over a type collects *)

(** The atoms [caps_in] adds for a type, given what user types carry. *)
Inductive ty_has (taint : Taint) : Ty → atom → Prop :=
  | ty_has_cap name args h x :
      host_cap name = Some h → entry_atoms h (rights_from_args h args) x →
      ty_has taint (Named name args) x
  | ty_has_taint name args caps x :
      taint !! name = Some caps → has caps x → ty_has taint (Named name args) x
  | ty_has_arg name args a x :
      a ∈ args → ty_has taint a x → ty_has taint (Named name args) x
  | ty_has_dyn name args a x :
      a ∈ args → ty_has taint a x → ty_has taint (Dyn name args) x
  | ty_has_tuple ts t x : t ∈ ts → ty_has taint t x → ty_has taint (Tuple ts) x
  | ty_has_slice t x : ty_has taint t x → ty_has taint (Slice t) x
  | ty_has_qual q t x : ty_has taint t x → ty_has taint (Qualified q t) x
  | ty_has_base base fields x :
      ty_has taint base x → ty_has taint (RecordCompose base fields) x
  | ty_has_field base fields f x :
      f ∈ fields → ty_has taint (snd f) x → ty_has taint (RecordCompose base fields) x.

(** Induction on types with hypotheses for the elements of their lists. *)
Lemma Ty_ind' (P : Ty → Prop) :
  (∀ n args, Forall P args → P (Named n args)) →
  (∀ ts, Forall P ts → P (Tuple ts)) →
  (∀ t, P t → P (Slice t)) →
  (∀ b fs, P b → Forall (P ∘ snd) fs → P (RecordCompose b fs)) →
  (∀ ps r cs q, P (Fn ps r cs q)) →
  (∀ q t, P t → P (Qualified q t)) →
  (∀ n args, Forall P args → P (Dyn n args)) →
  ∀ t, P t.
Proof.
  intros HN HT HS HR HF HQ HD. fix IH 1. intros [n args|ts|t|b fs|ps r cs q|q t|n args].
  - apply HN. induction args; constructor; auto.
  - apply HT. induction ts; constructor; auto.
  - by apply HS.
  - apply HR; [done|]. induction fs as [|[f t] fs]; constructor; [apply IH|auto].
  - apply HF.
  - by apply HQ.
  - apply HD. induction args; constructor; auto.
Qed.

(** A left fold that adds [P]-atoms at each step adds them all. *)
Lemma fold_has {A} (step : CapSet → A → CapSet) (P : A → atom → Prop) l out x :
  Forall (λ a, ∀ out x, has (step out a) x ↔ has out x ∨ P a x) l →
  has (List.fold_left step l out) x ↔ has out x ∨ ∃ a, a ∈ l ∧ P a x.
Proof.
  intros Hl. revert out. induction Hl as [|a l Ha Hl IH]; intros out; cbn; [set_solver|].
  rewrite IH, Ha. setoid_rewrite elem_of_cons. naive_solver.
Qed.

Lemma has_caps_in taint ty out x :
  has (caps_in ty taint out) x ↔ has out x ∨ ty_has taint ty x.
Proof.
  revert out x. induction ty as [n args IH|ts IH|t IH|b fs IHb IH|ps r cs q|q t IH|n args IH]
    using Ty_ind'; intros out x; cbn [caps_in].
  - rewrite (fold_has _ (ty_has taint)) by done.
    assert (has (match taint !! n with Some caps => merge_into
        (match host_cap n with Some h => extend_entry h (rights_from_args h args) out
         | None => out end) caps | None =>
        match host_cap n with Some h => extend_entry h (rights_from_args h args) out
         | None => out end end) x ↔
      has out x ∨ (∃ h, host_cap n = Some h ∧ entry_atoms h (rights_from_args h args) x)
        ∨ ∃ caps, taint !! n = Some caps ∧ has caps x) as ->.
    { destruct (taint !! n), (host_cap n);
        rewrite ?has_merge_into, ?has_extend_entry; naive_solver. }
    split; [naive_solver (eauto using ty_has)|].
    intros [?|Hx]; [by auto|]. inversion Hx; naive_solver.
  - rewrite (fold_has _ (ty_has taint)) by done.
    split; [naive_solver (eauto using ty_has)|].
    intros [?|Hx]; [by auto|]. inversion Hx; naive_solver.
  - rewrite IH. split; (intros [?|Hx]; [by auto|]); [eauto using ty_has|].
    inversion Hx; naive_solver.
  - rewrite (fold_has _ (λ f, ty_has taint (snd f))), IHb by done.
    split; [naive_solver (eauto using ty_has)|].
    intros [?|Hx]; [by auto|]. inversion Hx; naive_solver.
  - split; [by auto|]. intros [?|Hx]; [done|]. inversion Hx.
  - rewrite IH. split; (intros [?|Hx]; [by auto|]); [eauto using ty_has|].
    inversion Hx; naive_solver.
  - rewrite (fold_has _ (ty_has taint)) by done.
    split; [naive_solver (eauto using ty_has)|].
    intros [?|Hx]; [by auto|]. inversion Hx; naive_solver.
Qed.

Lemma has_fold_caps_in taint l out x :
  has (List.fold_left (λ out t, caps_in t taint out) l out) x ↔
  has out x ∨ ∃ t, t ∈ l ∧ ty_has taint t x.
Proof.
  apply fold_has, list.Forall_forall. intros t _ out' x'. apply has_caps_in.
Qed.

(** * What user types carry

    [carries types ty x]: a value of type [ty] confers the atom [x], through
    any nesting of the declared types.  Function types confer nothing. *)
Inductive carries (types : list TypeDef) : Ty → atom → Prop :=
  | carries_cap name args h x :
      host_cap name = Some h → entry_atoms h (rights_from_args h args) x →
      carries types (Named name args) x
  | carries_user t args f x :
      t ∈ types → f ∈ type_fields t → carries types f x →
      carries types (Named (type_name t) args) x
  | carries_arg name args a x :
      a ∈ args → carries types a x → carries types (Named name args) x
  | carries_dyn name args a x :
      a ∈ args → carries types a x → carries types (Dyn name args) x
  | carries_tuple ts t x : t ∈ ts → carries types t x → carries types (Tuple ts) x
  | carries_slice t x : carries types t x → carries types (Slice t) x
  | carries_qual q t x : carries types t x → carries types (Qualified q t) x
  | carries_base base fields x :
      carries types base x → carries types (RecordCompose base fields) x
  | carries_field base fields f x :
      f ∈ fields → carries types (snd f) x → carries types (RecordCompose base fields) x.

Definition thas (m : Taint) (n : string) (x : atom) : Prop :=
  ∃ caps, m !! n = Some caps ∧ has caps x.

(** The map records only what fields of the named type carry. *)
Definition taint_sound (types : list TypeDef) (m : Taint) : Prop :=
  ∀ n x, thas m n x →
    ∃ t f, t ∈ types ∧ type_name t = n ∧ f ∈ type_fields t ∧ carries types f x.

(** The map has everything one more pass over [t] would add. *)
Definition taint_closed (m : Taint) (t : TypeDef) : Prop :=
  ∀ f x, f ∈ type_fields t → ty_has m f x → thas m (type_name t) x.

Definition taint_dom (types : list TypeDef) (m : Taint) : Prop :=
  ∀ t, t ∈ types → is_Some (m !! type_name t).

Lemma ty_has_carries types m ty x :
  taint_sound types m → ty_has m ty x → carries types ty x.
Proof.
  intros Hm. induction 1; try (by econstructor).
  edestruct Hm as (t & f & Ht & <- & Hf & Hc); [by eexists|]. by econstructor.
Qed.

Lemma carries_ty_has types m ty x :
  (∀ t, t ∈ types → taint_closed m t) → carries types ty x → ty_has m ty x.
Proof.
  intros Hm. induction 1; try (by econstructor).
  edestruct Hm as (caps & ? & ?); [done..|]. by eapply ty_has_taint.
Qed.

(** ** One step of the inner loop *)

Lemma taint_type_thas t m c m' c' :
  taint_type t (m, c) = (m', c') →
  ∀ n x, thas m' n x ↔
    thas m n x ∨ (n = type_name t ∧ ∃ f, f ∈ type_fields t ∧ ty_has m f x).
Proof.
  unfold taint_type, thas. intros [= <- _] n x.
  destruct (decide (n = type_name t)) as [->|Hne];
    [|rewrite lookup_insert_ne by done; naive_solver].
  rewrite lookup_insert_eq.
  assert (has (merge_into (default ∅ (m !! type_name t))
    (List.fold_left (λ acc fty, caps_in fty m acc) (type_fields t) ∅)) x ↔
    (∃ caps, m !! type_name t = Some caps ∧ has caps x) ∨
    ∃ f, f ∈ type_fields t ∧ ty_has m f x) as Hslot.
  { rewrite has_merge_into, has_fold_caps_in. pose proof (has_empty x).
    destruct (m !! type_name t); naive_solver. }
  naive_solver.
Qed.

Lemma taint_type_unchanged t m c m' :
  is_Some (m !! type_name t) → taint_type t (m, c) = (m', false) →
  c = false ∧ m' = m ∧ taint_closed m t.
Proof.
  intros [caps Hcaps] H. pose proof (taint_type_thas _ _ _ _ _ H) as Hthas.
  unfold taint_type in H. injection H as <- Hc.
  apply orb_false_iff in Hc as [-> Hc%negb_false_iff%bool_decide_eq_true].
  split; [done|]. rewrite Hc, Hcaps in Hthas |- *. cbn in *.
  rewrite insert_id in Hthas |- * by done. split; [done|].
  intros f x Hf Hx. apply Hthas. right. eauto.
Qed.

(** ** The finite universe of host atoms *)

#[export] Instance has_dec m x : Decision (has m x).
Proof.
  destruct x as [c o].
  unfold has. cbn. destruct (m !! c) as [rs|]; [|right; naive_solver].
  destruct o as [r|]; [|left; eauto].
  destruct (decide (r ∈ rs)); [left|right]; naive_solver.
Defined.

#[export] Instance thas_dec m n x : Decision (thas m n x).
Proof.
  unfold thas. destruct (m !! n) as [caps|].
  - destruct (decide (has caps x)); [left|right]; naive_solver.
  - right. naive_solver.
Defined.

Definition host_atoms : list atom :=
  List.flat_map (λ k, (Kind.name k, None) ::
    map (λ r, (Kind.name k, Some (Right.name r))) Right.ALL) Kind.ALL.

Lemma elem_of_host_atoms c o :
  (c, o) ∈ host_atoms ↔
  ∃ k, c = Kind.name k ∧ match o with Some r => ∃ r', r = Right.name r' | None => True end.
Proof.
  unfold host_atoms. rewrite list_elem_of_In, in_flat_map. split.
  - intros (k & _ & [?|(r & ? & _)%in_map_iff]); simplify_eq; eauto.
  - intros (k & -> & Ho). exists k. split; [apply list_elem_of_In, Kind.kind_elem_of_ALL|].
    destruct o as [r|]; [|by left]. destruct Ho as [r' ->]. right.
    apply in_map_iff. exists r'. split; [done|apply list_elem_of_In, Right.right_elem_of_ALL].
Qed.

Lemma right_marker_name cap n m : right_marker cap n = Some m → ∃ r, m = Right.name r.
Proof.
  unfold right_marker. destruct (Kind.from_name cap); [|done]. cbn.
  destruct (Kind.right _ _); [|done]. intros. simplify_eq/=. eauto.
Qed.

Lemma elem_of_right_names rs m : m ∈ right_names rs → ∃ r, m = Right.name r.
Proof.
  unfold right_names. rewrite elem_of_list_to_set, list_elem_of_fmap. naive_solver.
Qed.

Lemma marked_rights_names cap args m :
  m ∈ marked_rights cap args → ∃ r, m = Right.name r.
Proof.
  unfold marked_rights. assert (m ∈ (∅ : Rights) → ∃ r, m = Right.name r) as H0
    by set_solver. revert H0. generalize (∅ : Rights).
  induction args as [|a args IH]; intros r Hr; cbn; [done|]. apply IH.
  destruct a; try done. destruct (right_marker _ _) eqn:E; [|done].
  apply right_marker_name in E. set_solver.
Qed.

Lemma default_axis_names axis r m :
  (m ∈ r → ∃ r, m = Right.name r) → m ∈ default_axis axis r → ∃ r, m = Right.name r.
Proof.
  unfold default_axis. intros Hr. case_match; [|done].
  rewrite elem_of_union. intros [?|?%elem_of_right_names]; auto.
Qed.

Lemma rights_from_args_names cap args m :
  m ∈ rights_from_args cap args → ∃ r, m = Right.name r.
Proof.
  unfold rights_from_args. destruct args as [|a args].
  - unfold full_rights. destruct (Kind.from_name cap); [apply elem_of_right_names|set_solver].
  - destruct (String.eqb cap "Net"); [|apply marked_rights_names].
    do 2 apply default_axis_names. apply marked_rights_names.
Qed.

Lemma carries_host_atoms types ty x : carries types ty x → x ∈ host_atoms.
Proof.
  induction 1 as [name args h [c o] Hh [Hc Ho]| | | | | | | |]; try done.
  cbn in *. subst c. apply elem_of_host_atoms.
  unfold host_cap in Hh. destruct (Kind.from_name name) as [k|]; [|done].
  case_bool_decide; [|done]. simplify_eq. exists k. split; [done|].
  destruct o; [by eapply rights_from_args_names|done].
Qed.

(** ** Progress of the loop *)

Definition taint_universe (types : list TypeDef) : list (string * atom) :=
  List.flat_map (λ t, map (λ x, (type_name t, x)) host_atoms) types.

(** The number of (type, atom) slots already filled. *)
Definition taint_size (types : list TypeDef) (m : Taint) : nat :=
  length (filter (λ p, thas m (fst p) (snd p)) (taint_universe types)).

Lemma elem_of_universe types n x :
  (n, x) ∈ taint_universe types ↔ (∃ t, t ∈ types ∧ type_name t = n) ∧ x ∈ host_atoms.
Proof.
  unfold taint_universe. rewrite list_elem_of_In, in_flat_map.
  setoid_rewrite <- list_elem_of_In. setoid_rewrite list_elem_of_fmap. naive_solver.
Qed.

Lemma taint_universe_length types : length (taint_universe types) = length types * 180.
Proof.
  unfold taint_universe. induction types as [|t ts IH]; [done|].
  cbn [List.flat_map length]. rewrite length_app, length_map, IH. done.
Qed.

Lemma taint_size_bound types m : taint_size types m < taint_fuel types.
Proof.
  unfold taint_size, taint_fuel. pose proof (taint_universe_length types).
  pose proof (length_filter (λ p, thas m (fst p) (snd p)) (taint_universe types)). lia.
Qed.

Lemma taint_type_sound types t m c m' c' :
  t ∈ types → taint_sound types m → taint_type t (m, c) = (m', c') → taint_sound types m'.
Proof.
  intros Ht Hm H n x. rewrite (taint_type_thas _ _ _ _ _ H).
  intros [?|(-> & f & Hf & Hx)]; [auto|]. eauto 8 using ty_has_carries.
Qed.

Lemma taint_type_dom types t m c m' c' :
  taint_dom types m → taint_type t (m, c) = (m', c') → taint_dom types m'.
Proof.
  unfold taint_type. intros Hm [= <- _] t' Ht'. apply lookup_insert_is_Some'. auto.
Qed.

Lemma taint_type_progress types t m c m' :
  t ∈ types → taint_sound types m → taint_type t (m, c) = (m', true) →
  c = true ∨ taint_size types m < taint_size types m'.
Proof.
  intros Ht Hm H. pose proof (taint_type_sound _ _ _ _ _ _ Ht Hm H) as Hm'.
  pose proof (taint_type_thas _ _ _ _ _ H) as Hthas.
  destruct c; [by left|right]. unfold taint_type in H. cbn in H.
  injection H as Hins Hc. apply negb_true_iff, bool_decide_eq_false in Hc.
  set (before := default ∅ (m !! type_name t)) in *.
  set (slot := merge_into before _) in *.
  assert (∀ x, has slot x ↔ thas m' (type_name t) x) as Hslot.
  { intros x. unfold thas. rewrite <- Hins, lookup_insert_eq. naive_solver. }
  assert (∀ x, has before x ↔ thas m (type_name t) x) as Hbefore.
  { intros x. unfold thas, before. pose proof (has_empty x).
    destruct (m !! type_name t); naive_solver. }
  destruct (decide (Exists (λ x, has slot x ∧ ¬ has before x) host_atoms)) as [Hx|Hx].
  - apply list.Exists_exists in Hx as (x & Hx & Hs & Hb).
    apply (filter_length_lt _ _ _ (type_name t, x)).
    + intros [n y] _. cbn. rewrite Hthas. auto.
    + apply elem_of_universe. eauto.
    + by apply Hslot.
    + cbn. by rewrite <- Hbefore.
  - exfalso. apply Hc, has_ext. intros x. split.
    + intros Hs. destruct (decide (has before x)); [done|]. exfalso. apply Hx.
      apply list.Exists_exists. exists x. split; [|done].
      apply Hslot, Hm' in Hs as (? & ? & _ & _ & _ & Hs). by eapply carries_host_atoms.
    + unfold slot. rewrite has_merge_into. by left.
Qed.

Lemma taint_type_size_mono types t m c m' c' :
  taint_type t (m, c) = (m', c') → (taint_size types m ≤ taint_size types m')%nat.
Proof.
  intros H. apply filter_length_mono. intros [n x] _. cbn.
  rewrite (taint_type_thas _ _ _ _ _ H). auto.
Qed.

Lemma taint_fold_spec types l m c m' c' :
  (∀ t, t ∈ l → t ∈ types) → taint_sound types m → taint_dom types m →
  List.fold_left (λ st t, taint_type t st) l (m, c) = (m', c') →
  taint_sound types m' ∧ taint_dom types m' ∧ (taint_size types m ≤ taint_size types m')%nat ∧
  (c' = true → c = true ∨ taint_size types m < taint_size types m') ∧
  (c' = false → c = false ∧ m' = m ∧ ∀ t, t ∈ l → taint_closed m t).
Proof.
  revert m c. induction l as [|t l IH]; intros m c Hl Hs Hd H; cbn [List.fold_left] in H.
  { simplify_eq. split_and!; auto. intros ->. set_solver. }
  destruct (taint_type t (m, c)) as [m1 c1] eqn:H1.
  assert (t ∈ types) as Ht by (apply Hl; set_solver).
  destruct (IH m1 c1) as (Hs' & Hd' & Hsz & Htrue & Hfalse); [..|done|].
  - set_solver.
  - by eapply taint_type_sound.
  - by eapply taint_type_dom.
  - pose proof (taint_type_size_mono types _ _ _ _ _ H1) as Hsz1.
    split_and!; [done|done|lia| |].
    + intros [->|?]%Htrue; [|right; lia].
      destruct (taint_type_progress types _ _ _ _ Ht Hs H1); [by left|right; lia].
    + intros (-> & -> & Hcl)%Hfalse.
      destruct (taint_type_unchanged t m c m1) as (-> & -> & ?); [by auto|done|].
      split_and!; [done|done|]. intros t' [->|?]%elem_of_cons; auto.
Qed.

Lemma taint_loop_spec types fuel m :
  taint_sound types m → taint_dom types m →
  length types * 180 - taint_size types m < fuel →
  ∃ m', taint_loop fuel types m = Some m' ∧ taint_sound types m' ∧
    ∀ t, t ∈ types → taint_closed m' t.
Proof.
  revert m. induction fuel as [|fuel IH]; intros m Hs Hd Hf; [lia|]. cbn [taint_loop].
  destruct (taint_round types m) as [m' c'] eqn:H.
  destruct (taint_fold_spec types types m false m' c') as (Hs' & Hd' & Hsz & Ht & Hc);
    [done..|]. destruct c'.
  - apply IH; [done..|]. destruct (Ht eq_refl) as [|Hlt]; [done|].
    pose proof (taint_size_bound types m'). unfold taint_fuel in *. lia.
  - destruct (Hc eq_refl) as (_ & -> & Hcl). eauto.
Qed.

Lemma taint_init_lookup types m n :
  (∀ n, m !! n = None ∨ m !! n = Some ∅) →
  let m' := List.fold_left
    (λ (m : Taint) t, <[type_name t := default ∅ (m !! type_name t)]> m) types m in
  (m' !! n = None ∨ m' !! n = Some ∅) ∧
  (is_Some (m !! n) ∨ (∃ t, t ∈ types ∧ type_name t = n) → is_Some (m' !! n)).
Proof.
  revert m. induction types as [|t ts IH]; intros m Hm; cbn.
  { split; [done|]. intros [?|(? & ?%elem_of_nil & _)]; done. }
  destruct (IH (<[type_name t := default ∅ (m !! type_name t)]> m)) as [H1 H2].
  - intros n'. destruct (decide (n' = type_name t)) as [->|];
      [rewrite lookup_insert_eq|rewrite lookup_insert_ne by done; auto].
    right. f_equal. destruct (Hm (type_name t)) as [-> | ->]; done.
  - split; [done|]. intros H. apply H2.
    destruct H as [H|(t' & [->|Ht']%elem_of_cons & <-)]; [left|left|right; eauto].
    + by apply lookup_insert_is_Some'; right.
    + by apply lookup_insert_is_Some'; left.
Qed.

(** The analysis of user types always finishes within its fuel, with a map
    that is sound and closed. *)
Lemma taint_map_spec items :
  ∃ m, taint_map items = Some m ∧ taint_sound (type_items items) m ∧
    ∀ t, t ∈ type_items items → taint_closed m t.
Proof.
  set (types := type_items items). unfold taint_map. fold types.
  apply taint_loop_spec.
  - intros n x (caps & Hc & Hx). exfalso.
    destruct (taint_init_lookup types ∅ n) as [[H|H] _]; [by left| |];
      unfold taint_init in Hc; rewrite H in Hc; simplify_eq. by eapply has_empty.
  - intros t Ht. apply (taint_init_lookup types ∅); [by left|right; eauto].
  - unfold taint_fuel. lia.
Qed.

(** Seen through the computed map, a type has exactly the atoms it carries. *)
Lemma caps_in_exact items m ty x :
  taint_map items = Some m →
  has (caps_in ty m ∅) x ↔ carries (type_items items) ty x.
Proof.
  intros Hm. destruct (taint_map_spec items) as (m' & Hm' & Hs & Hc). simplify_eq.
  rewrite has_caps_in. split.
  - intros [?%has_empty|?]; [done|]. by eapply ty_has_carries.
  - intros. right. by eapply carries_ty_has.
Qed.

(** * Entry points *)

(** What a parameter list confers. *)
Definition params_carry (types : list TypeDef) (tys : list Ty) (x : atom) : Prop :=
  ∃ ty, ty ∈ tys ∧ carries types ty x.

(** The entry of one signature; [scan_type] never reads [user_caps]. *)
Definition entry_of (taint : Taint) (brands : gmap string string) (grantable : gset string)
    (sig : string * list Ty * bool) : Entry :=
  fst (analyze_signature (fst (fst sig)) (snd (fst sig)) (snd sig) taint brands grantable ∅).

Section signatures.
Context (taint : Taint) (brands : gmap string string) (grantable : gset string).

Lemma scan_fold is_entry tys caps eb uc x n :
  let '(caps', _, uc') := List.fold_left
    (λ st ty, scan_type is_entry taint brands grantable ty st) tys (caps, eb, uc) in
  (has caps' x ↔ has caps x ∨ ∃ ty, ty ∈ tys ∧ has (caps_in ty taint ∅) x) ∧
  (n ∈ uc' ↔ n ∈ uc ∨
     (is_entry = true ∧ n ∈ grantable ∧ ∃ args, Named n args ∈ tys)).
Proof.
  revert caps eb uc. induction tys as [|ty tys IH]; intros caps eb uc;
    cbn [List.fold_left]; [set_solver|].
  destruct (scan_type is_entry taint brands grantable ty (caps, eb, uc))
    as [[caps1 eb1] uc1] eqn:Hs.
  assert ((has caps1 x ↔ has caps x ∨ has (caps_in ty taint ∅) x) ∧
    (n ∈ uc1 ↔ n ∈ uc ∨ (is_entry = true ∧ n ∈ grantable ∧ ∃ args, ty = Named n args)))
    as [H1 H2].
  { unfold scan_type in Hs. split.
    - case_bool_decide as He; simplify_eq; rewrite ?has_merge_into; [|done].
      rewrite He. pose proof (has_empty x). naive_solver.
    - assert (uc1 = match ty with Named m _ => if is_entry && bool_decide (m ∈ grantable)
        then {[m]} ∪ uc else uc | _ => uc end) as -> by (case_bool_decide; by simplify_eq).
      clear Hs. destruct ty; try naive_solver.
      destruct is_entry; cbn [andb]; [|naive_solver].
      case_bool_decide as Hg; rewrite ?elem_of_union, ?elem_of_singleton; split.
      + intros [->|?]; [right; eauto|by left].
      + intros [?|(_ & _ & a & [= -> _])]; auto.
      + auto.
      + intros [?|(_ & ? & a & [= -> _])]; done. }
  specialize (IH caps1 eb1 uc1). destruct (List.fold_left _ _ _) as [[caps2 eb2] uc2].
  destruct IH as [IH1 IH2]. rewrite IH1, IH2, H1, H2. setoid_rewrite elem_of_cons.
  naive_solver.
Qed.

Lemma scan_fold_user_irrelevant is_entry tys caps eb uc uc' :
  fst (List.fold_left (λ st ty, scan_type is_entry taint brands grantable ty st)
    tys (caps, eb, uc)) =
  fst (List.fold_left (λ st ty, scan_type is_entry taint brands grantable ty st)
    tys (caps, eb, uc')).
Proof.
  revert caps eb uc uc'. induction tys as [|ty tys IH]; intros caps eb uc uc'; cbn; [done|].
  case_bool_decide; apply IH.
Qed.

Lemma analyze_signature_entry name tys is_entry uc :
  fst (analyze_signature name tys is_entry taint brands grantable uc) =
  entry_of taint brands grantable (name, tys, is_entry).
Proof.
  unfold entry_of, analyze_signature. cbn [fst snd].
  pose proof (scan_fold_user_irrelevant is_entry tys ∅ ∅ uc ∅) as H.
  destruct (List.fold_left _ _ (∅, ∅, uc)) as [[c1 e1] u1].
  destruct (List.fold_left _ _ (∅, ∅, ∅)) as [[c2 e2] u2].
  cbn in *. by simplify_eq.
Qed.

Lemma entry_of_name sig : entry_name (entry_of taint brands grantable sig) = fst (fst sig).
Proof.
  unfold entry_of, analyze_signature. by destruct (List.fold_left _ _ _) as [[? ?] ?].
Qed.

Lemma entry_of_caps sig x :
  has (entry_capabilities (entry_of taint brands grantable sig)) x ↔
  ∃ ty, ty ∈ snd (fst sig) ∧ has (caps_in ty taint ∅) x.
Proof.
  destruct sig as [[name tys] b]. unfold entry_of, analyze_signature. cbn [fst snd].
  pose proof (scan_fold b tys ∅ ∅ ∅ x "") as H.
  destruct (List.fold_left _ _ _) as [[c e] u]. cbn.
  destruct H as [-> _]. pose proof (has_empty x). naive_solver.
Qed.

(** The whole loop of [analyze] over a list of signatures. *)
Lemma analyze_fold sigs st :
  let st' := List.fold_left (analyze_entry taint brands grantable) sigs st in
  an_entries st' = (an_entries st ++
    map (entry_of taint brands grantable) (List.filter snd sigs))%list ∧
  (∀ x, has (an_total st') x ↔ has (an_total st) x ∨
     ∃ name tys ty, (name, tys, true) ∈ sigs ∧ ty ∈ tys ∧ has (caps_in ty taint ∅) x) ∧
  (∀ n, n ∈ an_user_caps st' ↔ n ∈ an_user_caps st ∨
     ∃ name tys args, (name, tys, true) ∈ sigs ∧ Named n args ∈ tys ∧ n ∈ grantable).
Proof.
  revert st. induction sigs as [|[[name tys] b] sigs IH]; intros st; cbn.
  { rewrite app_nil_r. set_solver. }
  pose proof (analyze_signature_entry name tys b (an_user_caps st)) as He.
  assert (∀ n, n ∈ snd (analyze_signature name tys b taint brands grantable
      (an_user_caps st)) ↔ n ∈ an_user_caps st ∨
      (b = true ∧ n ∈ grantable ∧ ∃ args, Named n args ∈ tys)) as Hu.
  { intros n. unfold analyze_signature.
    pose proof (scan_fold b tys ∅ ∅ (an_user_caps st) ("", None) n) as H.
    destruct (List.fold_left _ _ _) as [[c e] u]. cbn. by destruct H. }
  destruct (analyze_signature name tys b taint brands grantable (an_user_caps st))
    as [entry uc] eqn:Ea. cbn in He, Hu. subst entry.
  destruct b.
  - match goal with |- context [List.fold_left _ sigs ?s] => specialize (IH s) end.
    cbn in IH. destruct IH as (-> & H2 & H3). split_and!.
    + by rewrite <- app_assoc.
    + intros x. rewrite H2, has_merge_into, entry_of_caps. cbn.
      setoid_rewrite elem_of_cons. naive_solver.
    + intros n. rewrite H3, Hu. setoid_rewrite elem_of_cons. naive_solver.
  - match goal with |- context [List.fold_left _ sigs ?s] => specialize (IH s) end.
    cbn in IH. destruct IH as (-> & H2 & H3). split_and!; [done|..].
    + intros x. rewrite H2. setoid_rewrite elem_of_cons. naive_solver.
    + intros n. rewrite H3, Hu. setoid_rewrite elem_of_cons. naive_solver.
Qed.
End signatures.

(** The [main] a run enters. *)
Fixpoint main_function (items : Items) : option Function :=
  match items with
  | [] => None
  | ItemFunction f :: rest =>
      if String.eqb (fn_name f) "main" && negb (fn_comptime_only f)
      then Some f else main_function rest
  | _ :: rest => main_function rest
  end.

Lemma impl_name_not_main im m : impl_method_entry_name im m ≠ "main".
Proof.
  intros H. apply (f_equal (str_contains ".")) in H.
  unfold impl_method_entry_name in H. destruct (impl_trait_name im);
    rewrite !str_contains_app in H; cbn in H; rewrite ?orb_true_r in H; done.
Qed.

Lemma main_in_signatures items f :
  main_function items = Some f → ("main", param_types f, true) ∈ signatures items.
Proof.
  intros Hf. unfold signatures.
  induction items as [|it items IH]; [done|]. cbn [map List.concat].
  rewrite elem_of_app. cbn in Hf.
  destruct it as [g| | |im| | |]; try (right; by apply IH).
  destruct (String.eqb (fn_name g) "main" && negb (fn_comptime_only g)) eqn:E;
    [|right; by apply IH]. left. simplify_eq.
  apply andb_true_iff in E as [E1%String.eqb_eq E2%negb_true_iff].
  cbn. rewrite E2, E1. cbn. rewrite orb_true_r. set_solver.
Qed.

Lemma find_main_sig (E : string * list Ty * bool → Entry) items :
  (∀ sig, entry_name (E sig) = fst (fst sig)) →
  List.find (λ e, String.eqb (entry_name e) "main")
    (map E (List.filter snd (signatures items))) =
  (λ f, E ("main", param_types f, true)) <$> main_function items.
Proof.
  intros HE. unfold signatures. induction items as [|it items IH]; [done|].
  cbn [map List.concat]. rewrite List.filter_app, List.map_app.
  destruct it as [f| | |im| | |]; try done.
  - cbn [item_entries main_function].
    destruct (fn_comptime_only f); cbn; [by rewrite andb_false_r|].
    rewrite andb_true_r. destruct (String.eqb_spec (fn_name f) "main") as [Hm|Hm].
    + rewrite orb_true_r. cbn. rewrite HE. cbn. by rewrite Hm.
    + rewrite orb_false_r. destruct (fn_public f); cbn; [|done].
      rewrite HE. cbn. by apply String.eqb_neq in Hm as ->.
  - cbn [item_entries main_function]. rewrite <- IH.
    induction (impl_methods im) as [|m ms IHm]; [done|]. cbn.
    destruct (fn_public m); cbn; [|done]. rewrite HE. cbn.
    by rewrite (proj2 (String.eqb_neq _ _) (impl_name_not_main im _)).
Qed.

Lemma analyze_total_spec items :
  ∃ fp, analyze items = Some fp ∧
    (∀ x, has (total fp) x ↔ ∃ name tys,
       (name, tys, true) ∈ signatures items ∧ params_carry (type_items items) tys x) ∧
    (∀ n, n ∈ user_caps fp ↔ n ∈ grantable_names items ∧ ∃ name tys args,
       (name, tys, true) ∈ signatures items ∧ Named n args ∈ tys).
Proof.
  destruct (taint_map_spec items) as (m & Hm & _). unfold analyze. rewrite Hm. cbn.
  eexists. split; [done|]. cbn.
  edestruct (analyze_fold m (brand_map items m) (grantable_names items))
    as (_ & Ht & Hu). split.
  - intros x. rewrite Ht. cbn. unfold params_carry.
    setoid_rewrite (caps_in_exact items m _ x Hm). pose proof (has_empty x). naive_solver.
  - intros n. rewrite Hu. cbn. set_solver.
Qed.

Lemma run_grant_spec items :
  ∃ grant, run_grant items = Some grant ∧
    ∀ x, has grant x ↔ ∃ f, main_function items = Some f ∧
      params_carry (type_items items) (param_types f) x.
Proof.
  destruct (taint_map_spec items) as (m & Hm & _). unfold run_grant, analyze.
  rewrite Hm. cbn. eexists. split; [done|].
  edestruct (analyze_fold m (brand_map items m) (grantable_names items))
    as (He & _). rewrite He. cbn [an_entries app].
  intros x. rewrite find_main_sig; [|apply entry_of_name].
  destruct (main_function items) as [f|] eqn:E; cbn.
  - rewrite entry_of_caps. cbn. unfold params_carry.
    setoid_rewrite (caps_in_exact items m _ x Hm). naive_solver.
  - split; [by intros ?%has_empty|]. naive_solver.
Qed.

(** * Comparing footprints *)

Lemma has_cap_delta a b c o :
  has (cap_delta a b) (c, o) ↔
  match o with
  | Some r => has a (c, Some r) ∧ ¬ has b (c, Some r)
  | None => has a (c, None) ∧
      (¬ has b (c, None) ∨ ∃ r, has a (c, Some r) ∧ ¬ has b (c, Some r))
  end.
Proof.
  assert (∀ m o, has m (c, o) ↔ match m !! c with
    | Some rs => match o with Some r => r ∈ rs | None => True end
    | None => False end) as Hl by (intros; apply has_lookup).
  rewrite (Hl (cap_delta a b)). unfold cap_delta. rewrite lookup_merge.
  destruct o as [r|]; repeat setoid_rewrite Hl;
    destruct (a !! c) as [ar|], (b !! c) as [br|]; cbn; try tauto;
    case_bool_decide as Hd; cbn.
  - split; [done|]. intros [Ha Hb]. assert (r ∈ ar ∖ br) as Hr by set_solver.
    rewrite Hd in Hr. set_solver.
  - apply elem_of_difference.
  - split; [done|]. intros [_ [?|(r & Ha & Hb)]]; [done|].
    assert (r ∈ ar ∖ br) as Hr by set_solver. rewrite Hd in Hr. set_solver.
  - split; [|done]. intros _. split; [done|]. right.
    apply set_choose_L in Hd as [r Hr%elem_of_difference]. eauto.
Qed.

Lemma cap_delta_empty a b : cap_delta a b = ∅ ↔ sub a b.
Proof.
  rewrite empty_has. split.
  - intros H [c o] Ha. destruct (decide (has b (c, o))) as [|Hb]; [done|].
    exfalso. apply (H (c, o)). apply has_cap_delta. destruct o; auto.
  - intros H [c o] Hd. apply has_cap_delta in Hd. destruct o as [r|].
    + destruct Hd as [Ha Hb]. by apply Hb, H.
    + destruct Hd as [Ha [Hb|(r & Hr & Hb)]]; [by apply Hb, H|by apply Hb, H].
Qed.

(** The runtime, build and user-capability axes of one footprint are within
    another's, and the heap mode is not larger. *)
Definition within (new old : Footprint) : Prop :=
  sub (total new) (total old) ∧ sub (build new) (build old) ∧
  user_caps new ⊆ user_caps old ∧ (heap new = Large → heap old = Large).

Lemma widened_false old new : widened (diff old new) = false ↔ within new old.
Proof.
  unfold widened, within, diff. cbn [added build_added user_caps_added large_heap_added].
  rewrite !orb_false_iff, !negb_false_iff, !bool_decide_eq_true, !cap_delta_empty.
  assert (user_caps new ∖ user_caps old = ∅ ↔ user_caps new ⊆ user_caps old) as ->.
  { split; [|set_solver]. intros H n Hn.
    destruct (decide (n ∈ user_caps old)); [done|]. set_solver. }
  destruct (heap new), (heap old); cbn; naive_solver.
Qed.

Lemma within_trans a b c : within a b → within b c → within a c.
Proof.
  intros (H1 & H2 & H3 & H4) (G1 & G2 & G3 & G4). split_and!.
  - by etransitivity.
  - by etransitivity.
  - set_solver.
  - auto.
Qed.

(** * Theorems *)

(** C1: the analysis of user types terminates and is
    exact.  Within its fuel (one more than the possible type, capability and
    right combinations) the loop reaches a fixed point, and through the
    resulting map every type has precisely the capabilities and rights it
    carries, recursively, under any nesting of brands, records and generics:
    no wrapper hides authority and none is invented. *)
Theorem taint_analysis_exact items :
  ∃ taint, taint_map items = Some taint ∧
    ∀ ty x, has (caps_in ty taint ∅) x ↔ carries (type_items items) ty x.
Proof.
  destruct (taint_map_spec items) as (m & Hm & _). exists m. split; [done|].
  intros ty x. by apply caps_in_exact.
Qed.

(** C2: the footprint's total is exactly the root demand of
    its entry points: an atom is in it when some parameter of a public
    function, of a public method or of [main] carries it, and the user
    capabilities are exactly the bare grantable names those signatures
    take. *)
Theorem footprint_exact items :
  ∃ fp, analyze items = Some fp ∧
    (∀ x, has (total fp) x ↔ ∃ name tys,
       (name, tys, true) ∈ signatures items ∧ params_carry (type_items items) tys x) ∧
    (∀ n, n ∈ user_caps fp ↔ n ∈ grantable_names items ∧ ∃ name tys args,
       (name, tys, true) ∈ signatures items ∧ Named n args ∈ tys).
Proof. apply analyze_total_spec. Qed.

(** a run is granted what [main] asks for and nothing
    else: the grant's atoms are those the parameter types of the first
    runtime [main] carry (none without a [main]), and they are part of the
    module's total. *)
Theorem run_grant_exact items :
  ∃ fp grant, analyze items = Some fp ∧ run_grant items = Some grant ∧
    (∀ x, has grant x ↔ ∃ f, main_function items = Some f ∧
       params_carry (type_items items) (param_types f) x) ∧
    sub grant (total fp).
Proof.
  destruct (run_grant_spec items) as (grant & Hr & Hg).
  destruct (analyze_total_spec items) as (fp & Ha & Ht & _).
  exists fp, grant. split_and!; [done..|].
  intros x (f & Hf & Hx)%Hg. apply Ht. eauto using main_in_signatures.
Qed.

(** the gate is exact and composes.  [widened] is
    false precisely when every capability, right, build capability and user
    capability of the new footprint is already in the old one and it does
    not newly ask for the large heap; and a sequence of updates none of
    which widens never widens as a whole. *)
Theorem widening_gate_sound old mid new :
  (widened (diff old new) = false ↔ within new old) ∧
  (widened (diff old mid) = false → widened (diff mid new) = false →
   widened (diff old new) = false).
Proof.
  split; [apply widened_false|]. rewrite !widened_false. intros H1 H2.
  by eapply within_trans.
Qed.

(** a delta is exactly the missing authority: it holds a
    right when the first set has it and the second does not, adding it to
    the second set gives the union of both, it is part of the first set, and
    it is empty only when the first set is within the second. *)
Theorem cap_delta_exact a b :
  (∀ c r, has (cap_delta a b) (c, Some r) ↔ has a (c, Some r) ∧ ¬ has b (c, Some r)) ∧
  merge_into b (cap_delta a b) = merge_into b a ∧
  sub (cap_delta a b) a ∧ (cap_delta a b = ∅ ↔ sub a b).
Proof.
  split_and!.
  - intros c r. apply has_cap_delta.
  - apply has_ext. intros [c o]. rewrite !has_merge_into, has_cap_delta.
    destruct (decide (has b (c, o))); [naive_solver|]. destruct o; naive_solver.
  - intros [c o]. rewrite has_cap_delta. destruct o; naive_solver.
  - apply cap_delta_empty.
Qed.
