(* ===== verification/ProcessEnv.v ===== *)
(** * ProcessEnv: the gateway to the process environment

    Models [crates/witchy-cap-model/src/process_env.rs].  The environment is
    process state: a map from variable names to operating-system strings,
    beside the live thread count that [thread_count] reads from the system
    ([None] where it cannot be asked) and whether the build has debug
    assertions.  The mutex only serializes the calls, which a sequence of
    calls on the state already is.  [std::env] is modelled as documented:
    [var] fails on a variable that is unset or not Unicode, and mutating a
    name that is empty or holds an equals sign or a NUL panics. *)

From S2P Require Import Prelude Text.

Local Open Scope string_scope.

Inductive OsString : Set :=
  | Unicode (s : string)
  | NotUnicode (bytes : list N).

Record Process : Type := {
  environment : gmap string OsString;
  threads : option N;
  debug_assertions : bool;
}.

Definition set_environment (p : Process) (env : gmap string OsString) : Process :=
  {| environment := env; threads := threads p; debug_assertions := debug_assertions p |}.

(** ** [std::env] *)

Definition nul : ascii := "000".

(** A name the operating system accepts for a variable. *)
Definition variable_name (name : string) : bool :=
  negb (String.eqb name "") && negb (str_contains "=" name) && negb (str_contains nul name).

(** [std::env::var(name).ok()] *)
Definition std_var (p : Process) (name : string) : option string :=
  match environment p !! name with Some (Unicode s) => Some s | _ => None end.

Definition std_remove_var (name : string) : M Process unit :=
  if variable_name name
  then modify (λ p, set_environment p (delete name (environment p)))
  else panic.

Definition std_set_var (name value : string) : M Process unit :=
  if variable_name name && negb (str_contains nul value)
  then modify (λ p, set_environment p (<[name := Unicode value]> (environment p)))
  else panic.

(** ** The gateway *)

Inductive ThreadCheck : Set := Enforce | WaiveForTest.

#[export] Instance ThreadCheck_eq_dec : EqDecision ThreadCheck.
Proof. solve_decision. Defined.

(** Whether [assert_single_threaded] panics: only builds with debug
    assertions probe, and a count that cannot be read passes. *)
Definition multi_threaded (p : Process) : bool :=
  debug_assertions p && match threads p with Some n => (1 <? n)%N | None => false end.

Definition assert_single_threaded : M Process unit :=
  p ← get; if multi_threaded p then panic else mret tt.

Definition var (name : string) : M Process (option string) := gets (λ p, std_var p name).

Definition remove_var_checked (name : string) (check : ThreadCheck) : M Process bool :=
  (if bool_decide (check = Enforce) then assert_single_threaded else mret tt);;
  was_set ← gets (λ p, bool_decide (is_Some (std_var p name)));
  std_remove_var name;;
  mret was_set.

Definition remove_var (name : string) : M Process bool := remove_var_checked name Enforce.

Definition set_var (name value : string) : M Process unit :=
  assert_single_threaded;; std_set_var name value.

Definition set_var_for_test (name value : string) : M Process unit := std_set_var name value.

Definition remove_var_for_test (name : string) : M Process bool :=
  was_set ← gets (λ p, bool_decide (is_Some (std_var p name)));
  std_remove_var name;;
  mret was_set.

(** ** Lemmas *)

(** The mutation is let through: the check passes, and the name is one of a
    variable. *)
Definition may_mutate (p : Process) (check : ThreadCheck) : bool :=
  negb (bool_decide (check = Enforce) && multi_threaded p).

Lemma remove_var_checked_run p name check :
  remove_var_checked name check p =
  if may_mutate p check && variable_name name
  then (set_environment p (delete name (environment p)),
        Done (bool_decide (is_Some (std_var p name))))
  else (p, Panic).
Proof.
  unfold remove_var_checked, may_mutate, assert_single_threaded, std_remove_var.
  unfold mbind, M_bind, mret, M_ret, get, gets, modify, panic.
  destruct check; [rewrite bool_decide_true by done|rewrite bool_decide_false by done];
    cbn; [destruct (multi_threaded p); cbn; [done|]|]; by destruct (variable_name name).
Qed.

Lemma set_var_run p name value :
  set_var name value p =
  if negb (multi_threaded p) && (variable_name name && negb (str_contains nul value))
  then (set_environment p (<[name := Unicode value]> (environment p)), Done tt)
  else (p, Panic).
Proof.
  unfold set_var, assert_single_threaded, std_set_var.
  unfold mbind, M_bind, mret, M_ret, get, modify, panic. cbn.
  destruct (multi_threaded p); cbn; [done|].
  by destruct (variable_name name && negb (str_contains nul value)).
Qed.

Lemma std_var_delete p name other :
  std_var (set_environment p (delete name (environment p))) other =
  if String.eqb other name then None else std_var p other.
Proof.
  unfold std_var. cbn. destruct (String.eqb_spec other name) as [->|Hne].
  - by rewrite lookup_delete_eq.
  - by rewrite lookup_delete_ne.
Qed.

(** ** Properties *)

(** The gateway does what its callers rely on.  A mutation either panics and
    changes nothing (some other thread is live in a checked build, or the
    name or value is none the system accepts), or has its effect and no
    other: a set variable is read back, a removed one is gone, every other
    variable keeps its value.  Removal reports a variable that was readable;
    one whose value is not Unicode is removed and reported as unset. *)
Theorem gateway_exact p name value :
  (∀ p' o, set_var name value p = (p', o) →
     (o = Panic ∧ p' = p) ∨
     (o = Done tt ∧ std_var p' name = Some value ∧
      ∀ other, other ≠ name → environment p' !! other = environment p !! other)) ∧
  (∀ p' o, remove_var name p = (p', o) →
     (o = Panic ∧ p' = p) ∨
     (o = Done (bool_decide (is_Some (std_var p name))) ∧ environment p' !! name = None ∧
      ∀ other, other ≠ name → environment p' !! other = environment p !! other)) ∧
  (multi_threaded p = true → remove_var name p = (p, Panic) ∧ set_var name value p = (p, Panic)).
Proof.
  unfold remove_var. rewrite remove_var_checked_run, set_var_run. unfold may_mutate.
  rewrite bool_decide_true by done. split_and!.
  - intros p' o. destruct (_ && _); intros [= <- <-]; [right|by left].
    unfold std_var. cbn. rewrite lookup_insert_eq. split_and!; [done..|].
    intros other Hne. by rewrite lookup_insert_ne.
  - intros p' o. destruct (_ && _); intros [= <- <-]; [right|by left]. cbn.
    rewrite lookup_delete_eq. split_and!; [done..|].
    intros other Hne. by rewrite lookup_delete_ne.
  - by intros ->.
Qed.
