(* ===== verification/Grants.v ===== *)
(** * Grants: grant documents

    Models [crates/witchy-caps/src/grants.rs]: the document's data, its
    validation, the capability set it confers, the cross-check against a
    computed footprint, the environment-backed secret providers and the
    rejection of documents that expose a secret's variable; and, from
    [capabilities.rs], the rendering of capability sets in messages.  A
    [BTreeMap] is a [gmap] visited in key order.  TOML is a third-party
    format: the model starts from the deserialized document, and the type of
    policy-field values is a parameter. *)

From S2P Require Import Prelude Text Ordered Catalog NetPolicy Footprint ProcessEnv.

Local Open Scope string_scope.

(** ** The document *)

Record FileGrant : Set := { file_path : string; file_rights : list string }.
Record DirGrant : Set := { dir_root : string; dir_rights : list string }.

Record ExecGrantDetail : Set := {
  detail_programs : list string;
  detail_child_paths : list string;
}.

Inductive ExecGrant : Set :=
  | Programs (programs : list string)
  | Detailed (detail : ExecGrantDetail).

Definition programs (e : ExecGrant) : list string :=
  match e with Programs programs => programs | Detailed detail => detail_programs detail end.

Definition child_paths (e : ExecGrant) : list string :=
  match e with Programs _ => [] | Detailed detail => detail_child_paths detail end.

Record SecretGrant : Set := { from : string; sealed : bool }.

Record UserCapGrant (Value : Type) : Type := {
  cap_type : string;
  fields : gmap string Value;
}.
Arguments cap_type {Value}.
Arguments fields {Value}.

Record GrantDoc (Value : Type) : Type := {
  files : gmap string FileGrant;
  dirs : gmap string DirGrant;
  net : gmap string (list string);
  fetch : gmap string (list string);
  env : gmap string (list string);
  exec : gmap string ExecGrant;
  secrets : gmap string SecretGrant;
  user_caps : gmap string (UserCapGrant Value);
}.
Arguments files {Value}.
Arguments dirs {Value}.
Arguments net {Value}.
Arguments fetch {Value}.
Arguments env {Value}.
Arguments exec {Value}.
Arguments secrets {Value}.
Arguments user_caps {Value}.

(** ** Validation *)

Definition non_empty (label field value : string) : result string unit :=
  fail_if (String.eqb value "") ("grant `" +:+ label +:+ "` has an empty " +:+ field).

(** The loop of [check_rights]; [seen] is [rights[..index]]. *)
Fixpoint check_rights_from (label : string) (kind : CapabilityKind) (seen rights : list string)
    : result string unit :=
  match rights with
  | [] => Ok tt
  | name :: rest =>
      fail_if (bool_decide (Kind.right kind name = None))
        ("grant `" +:+ label +:+ "` names unknown right `" +:+ name +:+ "` (expected one of " +:+
         join_with ", " (map Right.name (Kind.rights kind)) +:+ ")");;
      fail_if (bool_decide (name ∈ seen))
        ("grant `" +:+ label +:+ "` names right `" +:+ name +:+ "` twice");;
      check_rights_from label kind (seen ++ [name])%list rest
  end.

Definition check_rights (label : string) (kind : CapabilityKind) (rights : list string)
    : result string unit := check_rights_from label kind [] rights.

Definition secret_provider_variable (from : string) : option string :=
  variable ← strip_prefix "env:" from;
  if String.eqb variable "" then None else Some variable.

Definition validate_file (e : string * FileGrant) : result string unit :=
  let label := "[files]." +:+ fst e in
  non_empty label "path" (file_path (snd e));; check_rights label File (file_rights (snd e)).

Definition validate_dir (e : string * DirGrant) : result string unit :=
  let label := "[dirs]." +:+ fst e in
  non_empty label "root" (dir_root (snd e));; check_rights label Dir (dir_rights (snd e)).

Definition validate_net (e : string * list string) : result string unit :=
  try_each (λ pattern,
    match net_pattern_error pattern with
    | Some error => Err ("grant `[net]." +:+ fst e +:+ "`: " +:+ error)
    | None => Ok tt
    end) (snd e).

Definition validate_fetch (e : string * list string) : result string unit :=
  try_each (non_empty ("[fetch]." +:+ fst e) "origin") (snd e).

Definition validate_env (e : string * list string) : result string unit :=
  try_each (λ variable,
    fail_if (String.eqb variable "" || (str_contains "=" variable || str_contains nul variable))
      ("grant `[env]." +:+ fst e +:+ "` names `" +:+ variable +:+
       "`, which is not an environment variable name")) (snd e).

Definition validate_exec (e : string * ExecGrant) : result string unit :=
  try_each (non_empty ("[exec]." +:+ fst e) "program") (programs (snd e));;
  try_each (non_empty ("[exec]." +:+ fst e) "child-path") (child_paths (snd e)).

Definition validate_secret (e : string * SecretGrant) : result string unit :=
  fail_if (bool_decide (secret_provider_variable (from (snd e)) = None))
    ("grant `[secrets]." +:+ fst e +:+ "` has provider `" +:+ from (snd e) +:+
     "`; expected `env:VAR`").

Definition validate_user_cap {Value} (e : string * UserCapGrant Value) : result string unit :=
  non_empty ("[user_caps]." +:+ fst e) "type" (cap_type (snd e)).

Definition validate {Value} (doc : GrantDoc Value) : result string unit :=
  try_each validate_file (btree_entries (files doc));;
  try_each validate_dir (btree_entries (dirs doc));;
  try_each validate_net (btree_entries (net doc));;
  try_each validate_fetch (btree_entries (fetch doc));;
  try_each validate_env (btree_entries (env doc));;
  try_each validate_exec (btree_entries (exec doc));;
  try_each validate_secret (btree_entries (secrets doc));;
  try_each validate_user_cap (btree_entries (user_caps doc)).

(** [GrantDoc::parse]; the TOML deserializer is the parameter. *)
Definition parse {Value} (from_str : string → result string (GrantDoc Value)) (src : string)
    : result string (GrantDoc Value) :=
  doc ← match from_str src with
        | Ok doc => Ok doc
        | Err e => Err ("grant document is not valid TOML: " +:+ e)
        end;
  validate doc;;
  Ok doc.

(** ** The capability set a document confers *)

Definition collect_rights (kind : CapabilityKind) (rights : list string) : Rights :=
  right_names (omap (Kind.right kind) rights).

(** [map.is_empty()] *)
Definition is_empty {A} (m : gmap string A) : bool := bool_decide (m = ∅).

(** [if !section.is_empty() { cs.insert(cap, rights) }] *)
Definition confer {A} (section : gmap string A) (cap : string) (rights : Rights) (cs : CapSet)
    : CapSet := if is_empty section then cs else <[cap := rights]> cs.

(** [section.values().flat_map(rights)] *)
Definition declared_rights {A} (rights : A → list string) (section : gmap string A) : list string :=
  List.concat (map (λ e, rights (snd e)) (btree_entries section)).

Definition cap_set {Value} (doc : GrantDoc Value) : CapSet :=
  let cs := confer (files doc) "File"
              (collect_rights File (declared_rights file_rights (files doc))) ∅ in
  let cs := confer (dirs doc) "Dir"
              (collect_rights Dir (declared_rights dir_rights (dirs doc))) cs in
  let cs := confer (net doc) "Net"
              (list_to_set ["Connect"; "Listen"; "Tcp"; "Udp"; "Uds"]) cs in
  let cs := confer (fetch doc) "Fetch" ∅ cs in
  let cs := confer (env doc) "Env" ∅ cs in
  let cs := confer (exec doc) "Exec" ∅ cs in
  confer (secrets doc) "SecretStore" ∅ cs.

(** ** The cross-check *)

Record CrossCheck : Type := { over_grant : CapSet; under_grant : CapSet }.

Definition sufficient (c : CrossCheck) : bool := bool_decide (under_grant c = ∅).

Definition clean (c : CrossCheck) : bool :=
  bool_decide (under_grant c = ∅) && bool_decide (over_grant c = ∅).

Definition GRANTABLE : list string :=
  ["Dir"; "File"; "Net"; "Fetch"; "Env"; "Exec"; "Secret"; "SecretStore"].

Definition grantable_only (cs : CapSet) : CapSet :=
  filter (λ e, fst e ∈ GRANTABLE) cs.

Definition cross_check (grant footprint : CapSet) : CrossCheck :=
  let grant := grantable_only grant in
  let footprint := grantable_only footprint in
  let over_grant := cap_delta grant footprint in
  let under_grant := cap_delta footprint grant in
  if bool_decide (is_Some (grant !! "Net")) && bool_decide (is_Some (footprint !! "Net"))
  then {| over_grant := delete "Net" over_grant; under_grant := delete "Net" under_grant |}
  else {| over_grant := over_grant; under_grant := under_grant |}.

(** ** Secret providers *)

(** [String::into_bytes] *)
Definition into_bytes (s : string) : list N := map N_of_ascii (String.list_ascii_of_string s).

Definition resolve_secret_provider (p : Process) (from : string) : result string (list N) :=
  match strip_prefix "env:" from with
  | Some variable =>
      if String.eqb variable "" then Err "secret resolver `env:` has an empty variable name"
      else match std_var p variable with
           | Some value => Ok (into_bytes value)
           | None => Err ("secret resolver `env:" +:+ variable +:+ "`: $" +:+ variable +:+
                          " is not set")
           end
  | None => Err ("unsupported secret resolver `" +:+ from +:+ "` (expected `env:VAR`)")
  end.

(** The resolution loop: the values by name, and the first failure. *)
Fixpoint resolve_all (p : Process) (secrets : list (string * string))
    (resolved : gmap string (list N)) (failure : option string)
    : gmap string (list N) * option string :=
  match secrets with
  | [] => (resolved, failure)
  | (name, from) :: rest =>
      match resolve_secret_provider p from with
      | Ok bytes => resolve_all p rest (<[name := bytes]> resolved) failure
      | Err error =>
          resolve_all p rest resolved
            (match failure with Some e => Some e | None => Some error end)
      end
  end.

(** The stripping loop. *)
Fixpoint strip_all (variables : list string) (check : ThreadCheck) : M Process unit :=
  match variables with
  | [] => mret tt
  | variable :: rest => remove_var_checked variable check;; strip_all rest check
  end.

(** The set [consumed] of provider variables. *)
Definition consumed (secrets : list (string * string)) : gset string :=
  list_to_set (omap (λ s, secret_provider_variable (snd s)) secrets).

Definition resolve_and_consume_secret_env_checked (secrets : list (string * string))
    (check : ThreadCheck) : M Process (gmap string (list N)) :=
  p ← get;
  let '(resolved, failure) := resolve_all p secrets ∅ None in
  strip_all (btree_elements (consumed secrets)) check;;
  match failure with Some error => throw error | None => mret resolved end.

Definition resolve_and_consume_secret_env (secrets : list (string * string))
    : M Process (gmap string (list N)) :=
  resolve_and_consume_secret_env_checked secrets Enforce.

Definition overlap_error (secret from binding variable : string) : string :=
  "secret `" +:+ secret +:+ "` reads `" +:+ from +:+ "`, but `[env]." +:+ binding +:+
  "` also allowlists `" +:+ variable +:+
  "` — a secret's variable cannot also be readable as ordinary configuration. Remove it from `[env]`, or grant the value only as a secret.".

Definition reject_secret_env_overlap (secrets : list (string * string))
    (env_allow : gmap string (list string)) : result string unit :=
  try_each (λ '(secret, from),
    match secret_provider_variable from with
    | None => Ok tt
    | Some variable =>
        try_each (λ '(binding, names),
          fail_if (existsb (λ name, String.eqb name variable) names)
            (overlap_error secret from binding variable)) (btree_entries env_allow)
    end) secrets.

(** ** Rendering capability sets *)

(** One axis of [Net]: nothing when it is full. *)
Definition show_axis (axis : list CapabilityRight) (rights : Rights) : list string :=
  if forallb (λ right, bool_decide (Right.name right ∈ rights)) axis then []
  else List.filter (λ right, bool_decide (right ∈ rights)) (map Right.name axis).

Definition show_cap (name : string) (rights : Rights) : string :=
  if bool_decide (rights = ∅) || bool_decide (rights = full_rights name) then name
  else if String.eqb name "Net" then
    "Net[" +:+ join_with ", " (show_axis NET_VERB_RIGHTS rights ++
                               show_axis NET_TRANSPORT_RIGHTS rights)%list +:+ "]"
  else name +:+ "[" +:+ join_with ", " (btree_elements rights) +:+ "]".

Definition show_caps (caps : CapSet) : string :=
  if bool_decide (caps = ∅) then "(none)"
  else join_with ", " (map (λ e, show_cap (fst e) (snd e)) (btree_entries caps)).

(** * What a document that validates looks like *)

Lemma check_rights_from_Ok label kind seen rights :
  check_rights_from label kind seen rights = Ok tt ↔
  NoDup rights ∧ (∀ r, r ∈ rights → ¬ r ∈ seen ∧ is_Some (Kind.right kind r)).
Proof.
  revert seen. induction rights as [|r rights IH]; intros seen; cbn [check_rights_from].
  { split; [|done]. intros _. split; [constructor|set_solver]. }
  rewrite !fail_if_Ok, !bool_decide_eq_false, IH, list.NoDup_cons. split.
  - intros (Hr & Hs & Hnd & Hall). split_and!; [|done|].
    + intros Hin. apply (Hall _) in Hin. set_solver.
    + intros x [->|Hx]%elem_of_cons; [by rewrite <- not_eq_None_Some|].
      destruct (Hall x Hx). split; [set_solver|done].
  - intros ((Hr & Hnd) & Hall). destruct (Hall r) as [Hs Hk]; [set_solver|].
    split_and!; [by apply not_eq_None_Some|done..|].
    intros x Hx. destruct (Hall x) as [Hxs Hxk]; [set_solver|]. split; [set_solver|done].
Qed.

Definition rights_ok (kind : CapabilityKind) (rights : list string) : Prop :=
  NoDup rights ∧ ∀ r, r ∈ rights → ∃ cr, r = Right.name cr ∧ cr ∈ Kind.rights kind.

Lemma check_rights_Ok label kind rights :
  check_rights label kind rights = Ok tt ↔ rights_ok kind rights.
Proof.
  unfold check_rights, rights_ok. rewrite check_rights_from_Ok.
  assert (∀ r, is_Some (Kind.right kind r) ↔ ∃ cr, r = Right.name cr ∧ cr ∈ Kind.rights kind) as Hr.
  { intros r. unfold is_Some. by setoid_rewrite right_Some. }
  setoid_rewrite Hr. split; intros [Hnd H]; (split; [done|]); intros r Hin;
    destruct (H r Hin); set_solver.
Qed.

Lemma non_empty_Ok label field value : non_empty label field value = Ok tt ↔ value ≠ "".
Proof. unfold non_empty, fail_if. destruct (String.eqb_spec value ""); naive_solver. Qed.

Lemma secret_provider_variable_Some from v :
  secret_provider_variable from = Some v ↔ from = "env:" +:+ v ∧ v ≠ "".
Proof.
  unfold secret_provider_variable. rewrite bind_Some. split.
  - intros (w & Hw & Hv). destruct (String.eqb_spec w ""); simplify_eq.
    split; [|done]. by apply strip_prefix_Some in Hw.
  - intros [-> Hv]. exists v. rewrite strip_prefix_app. split; [done|].
    by destruct (String.eqb_spec v "").
Qed.

(** What validation accepts, section by section.  Less than what the launch
    needs: the variable of a secret may be no name the system accepts, and a
    [Fetch] origin need not parse. *)
Record doc_ok {Value} (doc : GrantDoc Value) : Prop := {
  ok_files : ∀ n f, files doc !! n = Some f → file_path f ≠ "" ∧ rights_ok File (file_rights f);
  ok_dirs : ∀ n d, dirs doc !! n = Some d → dir_root d ≠ "" ∧ rights_ok Dir (dir_rights d);
  ok_net : ∀ n ps p, net doc !! n = Some ps → p ∈ ps → net_pattern_error p = None;
  ok_fetch : ∀ n os o, fetch doc !! n = Some os → o ∈ os → o ≠ "";
  ok_env : ∀ n vs v, env doc !! n = Some vs → v ∈ vs → variable_name v = true;
  ok_exec : ∀ n e s, exec doc !! n = Some e → s ∈ programs e ∨ s ∈ child_paths e → s ≠ "";
  ok_secrets : ∀ n s, secrets doc !! n = Some s → ∃ v, from s = "env:" +:+ v ∧ v ≠ "";
  ok_user_caps : ∀ n u, user_caps doc !! n = Some u → cap_type u ≠ "";
}.

Lemma seq_Ok (a b : result string unit) : (a;; b) = Ok tt ↔ a = Ok tt ∧ b = Ok tt.
Proof. rewrite result_bind_Ok. split; [intros ([] & ? & ?)|intros [? ?]; exists tt]; done. Qed.

Lemma validate_env_Ok k vs :
  validate_env (k, vs) = Ok tt ↔ ∀ v, v ∈ vs → variable_name v = true.
Proof.
  unfold validate_env, variable_name. cbn [fst snd]. rewrite try_each_Ok. apply forall_proper. intros v.
  unfold fail_if. destruct (String.eqb v ""), (str_contains "=" v), (str_contains nul v);
    cbn; naive_solver.
Qed.

Lemma validate_net_Ok k ps :
  validate_net (k, ps) = Ok tt ↔ ∀ p, p ∈ ps → net_pattern_error p = None.
Proof.
  unfold validate_net. cbn [fst snd]. rewrite try_each_Ok. apply forall_proper. intros p.
  destruct (net_pattern_error p); naive_solver.
Qed.

Lemma validate_exec_Ok k x :
  validate_exec (k, x) = Ok tt ↔ ∀ s, s ∈ programs x ∨ s ∈ child_paths x → s ≠ "".
Proof.
  unfold validate_exec. cbn [fst snd]. rewrite seq_Ok, !try_each_Ok. repeat setoid_rewrite non_empty_Ok.
  naive_solver.
Qed.

Lemma validate_secret_Ok k s :
  validate_secret (k, s) = Ok tt ↔ ∃ v, from s = "env:" +:+ v ∧ v ≠ "".
Proof.
  unfold validate_secret, fail_if. cbn [fst snd].
  destruct (secret_provider_variable (from s)) as [v|] eqn:E.
  - rewrite bool_decide_false by done. apply secret_provider_variable_Some in E. naive_solver.
  - rewrite bool_decide_true by done. split; [done|]. intros (v & Hv).
    apply secret_provider_variable_Some in Hv. congruence.
Qed.

Lemma section_Ok {A} (body : string * A → result string unit) (P : A → Prop) (m : gmap string A) :
  (∀ k a, body (k, a) = Ok tt ↔ P a) →
  try_each body (btree_entries m) = Ok tt ↔ ∀ k a, m !! k = Some a → P a.
Proof. intros H. rewrite try_entries_Ok. by setoid_rewrite H. Qed.

Lemma validate_file_Ok k f :
  validate_file (k, f) = Ok tt ↔ file_path f ≠ "" ∧ rights_ok File (file_rights f).
Proof. unfold validate_file. by rewrite seq_Ok, non_empty_Ok, check_rights_Ok. Qed.

Lemma validate_dir_Ok k d :
  validate_dir (k, d) = Ok tt ↔ dir_root d ≠ "" ∧ rights_ok Dir (dir_rights d).
Proof. unfold validate_dir. by rewrite seq_Ok, non_empty_Ok, check_rights_Ok. Qed.

Lemma validate_fetch_Ok k os : validate_fetch (k, os) = Ok tt ↔ ∀ o, o ∈ os → o ≠ "".
Proof. unfold validate_fetch. rewrite try_each_Ok. by setoid_rewrite non_empty_Ok. Qed.

Lemma validate_exact {Value} (doc : GrantDoc Value) : validate doc = Ok tt ↔ doc_ok doc.
Proof.
  unfold validate.
  rewrite !seq_Ok, (section_Ok _ _ _ validate_file_Ok), (section_Ok _ _ _ validate_dir_Ok),
    (section_Ok _ _ _ validate_net_Ok),
    (section_Ok _ _ _ validate_fetch_Ok),
    (section_Ok _ _ _ validate_env_Ok),
    (section_Ok _ _ _ validate_exec_Ok),
    (section_Ok _ _ _ validate_secret_Ok),
    (section_Ok _ _ _ (λ k a, non_empty_Ok _ _ (cap_type a))).
  split; [intros (?&?&?&?&?&?&?&?); constructor; eauto|intros []; split_and!; eauto].
Qed.

(** * What a document confers *)

Lemma lookup_confer {A} (section : gmap string A) cap rights cs c :
  confer section cap rights cs !! c =
  if String.eqb c cap && negb (is_empty section) then Some rights else cs !! c.
Proof.
  unfold confer. destruct (is_empty section); [by rewrite andb_false_r|].
  rewrite andb_true_r. destruct (String.eqb_spec c cap) as [->|Hne].
  - by rewrite lookup_insert_eq.
  - by rewrite lookup_insert_ne.
Qed.

Lemma section_empty {A} (section : gmap string A) :
  negb (is_empty section) = true ↔ ∃ n a, section !! n = Some a.
Proof.
  unfold is_empty. rewrite negb_true_iff, bool_decide_eq_false. split; [apply map_choose|].
  intros (n & a & H) ->. by rewrite lookup_empty in H.
Qed.

Lemma elem_of_declared_rights {A} (rights : A → list string) (section : gmap string A) r :
  r ∈ declared_rights rights section ↔ ∃ n a, section !! n = Some a ∧ r ∈ rights a.
Proof.
  unfold declared_rights. rewrite list_elem_of_In, in_concat. split.
  - intros (l & ([n a] & <- & Hin)%in_map_iff & Hr). exists n, a.
    rewrite <- list_elem_of_In in Hin. rewrite <- list_elem_of_In in Hr. by apply elem_of_btree_entries in Hin.
  - intros (n & a & Hn & Hr). exists (rights a). rewrite in_map_iff, <- list_elem_of_In.
    split; [|done]. exists (n, a). split; [done|]. by apply list_elem_of_In, elem_of_btree_entries.
Qed.

Lemma elem_of_collect_rights kind rights r :
  (∀ r, r ∈ rights → ∃ cr, r = Right.name cr ∧ cr ∈ Kind.rights kind) →
  r ∈ collect_rights kind rights ↔ r ∈ rights.
Proof.
  intros Hok. unfold collect_rights, right_names. rewrite elem_of_list_to_set, list_elem_of_In,
    in_map_iff. split.
  - intros (cr & <- & Hin). apply list_elem_of_In, list_elem_of_omap in Hin as (x & Hx & Hk).
    apply right_Some in Hk as [-> _]. done.
  - intros Hr. destruct (Hok r Hr) as (cr & -> & Hk). exists cr. split; [done|].
    apply list_elem_of_In, list_elem_of_omap. exists (Right.name cr). split; [done|].
    by apply right_Some.
Qed.

(** The atoms of a list of rights, and the authority the entries of a
    document stand for. *)
Definition declares (rights : list string) (o : option string) : Prop :=
  match o with Some r => r ∈ rights | None => True end.

Inductive confers {Value} (doc : GrantDoc Value) : string → option string → Prop :=
  | confers_file n f o :
      files doc !! n = Some f → declares (file_rights f) o → confers doc "File" o
  | confers_dir n d o :
      dirs doc !! n = Some d → declares (dir_rights d) o → confers doc "Dir" o
  | confers_net n ps o :
      net doc !! n = Some ps → declares (map Right.name NET_RIGHTS) o → confers doc "Net" o
  | confers_fetch n os : fetch doc !! n = Some os → confers doc "Fetch" None
  | confers_env n vs : env doc !! n = Some vs → confers doc "Env" None
  | confers_exec n e : exec doc !! n = Some e → confers doc "Exec" None
  | confers_secrets n s : secrets doc !! n = Some s → confers doc "SecretStore" None.

Lemma cap_set_lookup {Value} (doc : GrantDoc Value) c :
  cap_set doc !! c =
  if String.eqb c "SecretStore" && negb (is_empty (secrets doc)) then Some ∅
  else if String.eqb c "Exec" && negb (is_empty (exec doc)) then Some ∅
  else if String.eqb c "Env" && negb (is_empty (env doc)) then Some ∅
  else if String.eqb c "Fetch" && negb (is_empty (fetch doc)) then Some ∅
  else if String.eqb c "Net" && negb (is_empty (net doc))
       then Some (list_to_set ["Connect"; "Listen"; "Tcp"; "Udp"; "Uds"])
  else if String.eqb c "Dir" && negb (is_empty (dirs doc))
       then Some (collect_rights Dir (declared_rights dir_rights (dirs doc)))
  else if String.eqb c "File" && negb (is_empty (files doc))
       then Some (collect_rights File (declared_rights file_rights (files doc)))
  else None.
Proof. unfold cap_set. by rewrite !lookup_confer, lookup_empty. Qed.

Lemma section_rights_ok {A} (rights : A → list string) (section : gmap string A) kind :
  (∀ n a, section !! n = Some a → rights_ok kind (rights a)) →
  ∀ r, r ∈ collect_rights kind (declared_rights rights section) ↔
       ∃ n a, section !! n = Some a ∧ r ∈ rights a.
Proof.
  intros H r. rewrite elem_of_collect_rights; [apply elem_of_declared_rights|].
  intros r' (n & a & Hn & Hr)%elem_of_declared_rights. by apply (H n a).
Qed.

(** The capability set of a document that validates has exactly the
    authority of its entries. *)
Lemma has_cap_set {Value} (doc : GrantDoc Value) c o :
  doc_ok doc → has (cap_set doc) (c, o) ↔ confers doc c o.
Proof.
  intros Hok.
  pose proof (section_rights_ok file_rights (files doc) File (λ n f H, proj2 (ok_files _ Hok n f H))) as Hf.
  pose proof (section_rights_ok dir_rights (dirs doc) Dir (λ n d H, proj2 (ok_dirs _ Hok n d H))) as Hd.
  rewrite has_lookup, cap_set_lookup. split.
  - repeat match goal with
    | |- context [String.eqb c ?s && negb (is_empty ?m)] =>
        destruct (String.eqb_spec c s) as [->|]; cbn [andb];
        [destruct (negb (is_empty m)) eqn:?|]
    end; try done; cbn;
    repeat match goal with
    | H : negb (is_empty _) = true |- _ => apply section_empty in H as (? & ? & ?)
    end;
    destruct o as [r|]; try (by intros ?%not_elem_of_empty); intros Hr;
    try (by econstructor).
    + econstructor; [done|]. cbn in *. set_solver.
    + apply Hd in Hr as (? & ? & ? & ?). by econstructor.
    + apply Hf in Hr as (? & ? & ? & ?). by econstructor.
  - intros H.
    assert (∀ A (m : gmap string A) n a, m !! n = Some a → negb (is_empty m) = true) as Hs
      by (intros; apply section_empty; eauto).
    inversion H as [n f o' Hn Ho|n d o' Hn Ho|n ps o' Hn Ho|n ? Hn|n ? Hn|n ? Hn|n ? Hn]; subst;
      apply Hs in Hn as E; rewrite E; cbn; try done; destruct o as [r|]; try done; cbn in Ho.
    + apply Hf; eauto.
    + apply Hd; eauto.
    + set_solver.
Qed.

(** * The cross-check *)

Lemma has_grantable_only cs c o : has (grantable_only cs) (c, o) ↔ c ∈ GRANTABLE ∧ has cs (c, o).
Proof.
  unfold has, grantable_only. cbn [fst snd]. setoid_rewrite map_lookup_filter_Some. naive_solver.
Qed.

Lemma has_delete m k c o : has (delete k m) (c, o) ↔ c ≠ k ∧ has m (c, o).
Proof.
  rewrite !has_lookup. destruct (decide (c = k)) as [->|Hne].
  - rewrite lookup_delete_eq. tauto.
  - rewrite lookup_delete_ne by done. tauto.
Qed.

(** Authority of [need] that [have] holds, [Net] at the level of presence. *)
Definition covered (need have : CapSet) : Prop :=
  ∀ c o, c ∈ GRANTABLE → has need (c, o) →
    has have (c, if String.eqb c "Net" then None else o).

Lemma has_none m c o : has m (c, o) → has m (c, None).
Proof. rewrite !has_lookup. destruct (m !! c), o; done. Qed.

Lemma has_presence m c : has m (c, None) ↔ is_Some (m !! c).
Proof. rewrite has_lookup. destruct (m !! c); unfold is_Some; naive_solver. Qed.

Lemma covered_at need have c o :
  covered need have → c ∈ GRANTABLE → c ≠ "Net" → has need (c, o) → has have (c, o).
Proof.
  intros H Hc Hn Ho. specialize (H c o Hc Ho). by destruct (String.eqb_spec c "Net").
Qed.

Lemma delta_net_covered need have :
  has have ("Net", None) →
  delete "Net" (cap_delta (grantable_only need) (grantable_only have)) = ∅ ↔ covered need have.
Proof.
  intros Hnet. rewrite empty_has. split.
  - intros H c o Hc Ho. destruct (String.eqb_spec c "Net") as [->|Hne]; [done|].
    destruct (decide (has have (c, o))) as [|Hn]; [done|]. exfalso.
    apply (H (c, o)). rewrite has_delete, has_cap_delta. split; [done|].
    destruct o; rewrite !has_grantable_only; naive_solver.
  - intros H [c o]. rewrite has_delete, has_cap_delta. intros [Hne Hd].
    destruct o as [r|]; rewrite !has_grantable_only in Hd.
    + destruct Hd as [[Hc Ho] Hn]. apply Hn. eauto using covered_at.
    + destruct Hd as [[Hc Ho] [Hn|(r & Hr & Hn)]]; apply Hn; [eauto using covered_at|].
      rewrite has_grantable_only in Hr |- *. naive_solver eauto using covered_at.
Qed.

Lemma delta_no_net_covered need have :
  ¬ (has have ("Net", None) ∧ has need ("Net", None)) →
  cap_delta (grantable_only need) (grantable_only have) = ∅ ↔ covered need have.
Proof.
  intros Hnet. rewrite cap_delta_empty. unfold sub. split.
  - intros H c o Hc Ho. specialize (H (c, o)). rewrite !has_grantable_only in H.
    destruct H as [_ H]; [done|]. destruct (String.eqb_spec c "Net"); eauto using has_none.
  - intros H [c o]. rewrite !has_grantable_only. intros [Hc Ho]. split; [done|].
    destruct (decide (c = "Net")) as [->|]; [|eauto using covered_at].
    exfalso. apply Hnet. specialize (H _ _ Hc Ho). cbn in H. eauto using has_none.
Qed.

Lemma cross_check_spec grant footprint :
  (under_grant (cross_check grant footprint) = ∅ ↔ covered footprint grant) ∧
  (over_grant (cross_check grant footprint) = ∅ ↔ covered grant footprint).
Proof.
  assert (∀ m, is_Some (grantable_only m !! "Net") ↔ has m ("Net", None)) as Hn.
  { intros m. rewrite <- has_presence, has_grantable_only. unfold GRANTABLE. set_solver. }
  unfold cross_check.
  destruct (bool_decide (is_Some (grantable_only grant !! "Net")) &&
            bool_decide (is_Some (grantable_only footprint !! "Net"))) eqn:E; cbn.
  - apply andb_true_iff in E as [E1%bool_decide_eq_true E2%bool_decide_eq_true].
    rewrite Hn in E1, E2. by rewrite !delta_net_covered.
  - apply andb_false_iff in E. rewrite !bool_decide_eq_false, !Hn in E.
    rewrite !delta_no_net_covered by tauto. done.
Qed.

(** * Consuming secret variables *)

(** The environment without the variables a predicate names. *)
Definition without (p : Process) (vars : gset string) : Process :=
  set_environment p (filter (λ e, fst e ∉ vars) (environment p)).

Lemma std_var_without p vars v :
  std_var (without p vars) v = if bool_decide (v ∈ vars) then None else std_var p v.
Proof.
  unfold std_var, without. cbn. destruct (bool_decide (v ∈ vars)) eqn:E.
  - apply bool_decide_eq_true in E. rewrite map_lookup_filter_None_2; [done|].
    right. cbn. naive_solver.
  - apply bool_decide_eq_false in E. destruct (environment p !! v) as [a|] eqn:Ha.
    + by rewrite (map_lookup_filter_Some_2 _ _ _ _ Ha).
    + rewrite map_lookup_filter_None_2; [done|by left].
Qed.

Lemma strip_all_run vs check p :
  strip_all vs check p =
  if forallb variable_name vs && (may_mutate p check || bool_decide (vs = []))
  then (without p (list_to_set vs), Done tt) else (fst (strip_all vs check p), Panic).
Proof.
  revert p. induction vs as [|v vs IH]; intros p.
  { cbn. rewrite orb_true_r. unfold mret, M_ret, without.
    f_equal. destruct p as [env t d]. unfold set_environment. cbn. f_equal. symmetry.
    apply map_filter_id. set_solver. }
  cbn [strip_all forallb]. unfold mbind, M_bind. rewrite remove_var_checked_run.
  rewrite (bool_decide_false (v :: vs = [])), orb_false_r by done.
  destruct (may_mutate p check) eqn:Hm, (variable_name v); cbn [andb fst]; try done.
  2: by rewrite andb_false_r.
  rewrite IH.
  assert (may_mutate (set_environment p (delete v (environment p))) check = true) as ->.
  { revert Hm. by unfold may_mutate, multi_threaded. }
  destruct (forallb variable_name vs); cbn; [|done]. f_equal. unfold without, set_environment. cbn.
  f_equal. apply map_eq. intros n. apply option_eq. intros a.
  rewrite !map_lookup_filter_Some, lookup_delete_Some. cbn. set_solver.
Qed.

Lemma resolve_all_failure p l m f :
  snd (resolve_all p l m f) = None ↔
  f = None ∧ ∀ s, s ∈ l → is_ok (resolve_secret_provider p (snd s)) = true.
Proof.
  revert m f. induction l as [|[n fr] l IH]; intros m f; cbn [resolve_all].
  { cbn. split; [|naive_solver]. intros ->. split; [done|set_solver]. }
  destruct (resolve_secret_provider p fr) as [b|e] eqn:E; rewrite IH.
  - split; [intros [-> H]|intros [-> H]]; (split; [done|]).
    + intros s [->|Hs]%elem_of_cons; [by cbn; rewrite E|auto].
    + intros s Hs. apply H. set_solver.
  - split; [by destruct f; intros []|]. intros [-> H]. exfalso.
    assert (is_ok (resolve_secret_provider p fr) = true) as Hok
      by (apply (H (n, fr)); set_solver). by rewrite E in Hok.
Qed.

Lemma resolve_all_lookup p l m f n b :
  NoDup l.*1 →
  fst (resolve_all p l m f) !! n = Some b ↔
  (∃ fr, (n, fr) ∈ l ∧ resolve_secret_provider p fr = Ok b) ∨
  (m !! n = Some b ∧ ∀ fr, (n, fr) ∈ l → is_ok (resolve_secret_provider p fr) = false).
Proof.
  revert m f. induction l as [|[k fr] l IH]; intros m f Hnd; cbn [resolve_all].
  { cbn. split; [intros H; right; split; [done|set_solver]|]. intros [(? & ? & ?)|[? ?]]; set_solver. }
  cbn [fmap list_fmap fst] in Hnd. apply list.NoDup_cons in Hnd as [Hk Hnd].
  assert (∀ fr', (k, fr') ∈ l → False) as Hkl.
  { intros fr' Hin. apply Hk, list_elem_of_fmap. by exists (k, fr'). }
  destruct (resolve_secret_provider p fr) as [b'|e] eqn:E; rewrite IH by done;
    setoid_rewrite elem_of_cons.
  - destruct (decide (n = k)) as [->|Hne].
    + rewrite lookup_insert_eq. split.
      * intros [(fr' & Hin & _)|[[= ->] _]]; [by apply Hkl in Hin|]. left. naive_solver.
      * intros [(fr' & [[= <-]|Hin] & Hr)|[_ H]].
        -- right. split; [congruence|]. intros ? []%Hkl.
        -- by apply Hkl in Hin.
        -- specialize (H fr (or_introl eq_refl)). by rewrite E in H.
    + rewrite lookup_insert_ne by done. naive_solver.
  - split.
    + intros [(fr' & Hin & Hr)|[Hm H]]; [naive_solver|]. right. split; [done|].
      intros fr' [[= -> ->]|Hin]; [by rewrite E|auto].
    + intros [(fr' & [[= -> ->]|Hin] & Hr)|[Hm H]]; [congruence|naive_solver..].
Qed.

Lemma resolve_all_first_error p l m f e :
  snd (resolve_all p l m f) = Some e →
  f = Some e ∨ ∃ s, s ∈ l ∧ resolve_secret_provider p (snd s) = Err e.
Proof.
  revert m f. induction l as [|[n fr] l IH]; intros m f; cbn [resolve_all]; [by left|].
  destruct (resolve_secret_provider p fr) as [b|e'] eqn:E; intros [Hf|(s & Hs & Hr)]%IH.
  - by left.
  - right. exists s. set_solver.
  - destruct f; simplify_eq; [by left|]. right. exists (n, fr). set_solver.
  - right. exists s. set_solver.
Qed.

(** The stripping goes through: every provider names a variable the system
    accepts, and no other thread is seen by an enforced check. *)
Definition can_strip (p : Process) (check : ThreadCheck) (secrets : list (string * string)) : bool :=
  forallb variable_name (btree_elements (consumed secrets)) &&
  (may_mutate p check || bool_decide (btree_elements (consumed secrets) = [])).

Lemma consume_run p secrets check :
  let run := resolve_and_consume_secret_env_checked secrets check p in
  if can_strip p check secrets
  then run = (without p (consumed secrets),
              match snd (resolve_all p secrets ∅ None) with
              | Some e => Fail e
              | None => Done (fst (resolve_all p secrets ∅ None))
              end)
  else snd run = Panic.
Proof.
  cbv zeta. unfold resolve_and_consume_secret_env_checked, can_strip.
  unfold mbind, M_bind, get. destruct (resolve_all p secrets ∅ None) as [m f]. cbn [fst snd].
  rewrite strip_all_run. destruct (_ && _); [|done].
  assert (list_to_set (btree_elements (consumed secrets)) = consumed secrets) as ->.
  { apply set_eq. intros v. by rewrite elem_of_list_to_set, elem_of_btree_elements. }
  by destruct f.
Qed.

Lemma elem_of_consumed secrets v :
  v ∈ consumed secrets ↔ ∃ n, (n, "env:" +:+ v) ∈ secrets ∧ v ≠ "".
Proof.
  unfold consumed. rewrite elem_of_list_to_set, list_elem_of_omap. split.
  - intros ([n fr] & Hin & Hv). apply secret_provider_variable_Some in Hv as [Hfr Hv].
    cbn in Hfr. subst. eauto.
  - intros (n & Hin & Hv). exists (n, "env:" +:+ v). split; [done|].
    by apply secret_provider_variable_Some.
Qed.

Lemma reject_overlap_Ok secrets env_allow :
  reject_secret_env_overlap secrets env_allow = Ok tt ↔
  ∀ v b names, v ∈ consumed secrets → env_allow !! b = Some names → ¬ v ∈ names.
Proof.
  unfold reject_secret_env_overlap. rewrite try_each_Ok. split.
  - intros H v b names (n & Hin & Hv)%elem_of_consumed Hb Hn. specialize (H _ Hin).
    cbv beta iota in H. rewrite (proj2 (secret_provider_variable_Some _ v)) in H by done.
    rewrite try_entries_Ok in H. specialize (H _ _ Hb). unfold fail_if in H.
    destruct (existsb _ names) eqn:E; [done|]. apply not_true_iff_false in E. apply E.
    apply existsb_exists. exists v. rewrite <- list_elem_of_In, String.eqb_eq. done.
  - intros H [n fr] Hin. destruct (secret_provider_variable fr) as [v|] eqn:Ev; [|done].
    apply secret_provider_variable_Some in Ev as [-> Hv]. apply try_entries_Ok.
    intros b names Hb. unfold fail_if. destruct (existsb _ names) eqn:E; [|done]. exfalso.
    apply existsb_exists in E as (x & Hx & ->%String.eqb_eq). rewrite <- list_elem_of_In in Hx.
    eapply H; [apply elem_of_consumed; eauto|done..].
Qed.

(** * Properties *)

(** C21: The cross-check of a validated document is exact: it finds the grant
    sufficient precisely when every grantable capability and right of the
    footprint is conferred by some entry of the document ([Net] by any entry,
    a bare [Secret] by none), and clean when moreover the entries confer
    nothing that the footprint lacks. *)
Theorem grant_check_exact {Value} (doc : GrantDoc Value) (footprint : CapSet) :
  validate doc = Ok tt →
  let check := cross_check (cap_set doc) footprint in
  let net_presence c (o : option string) := if String.eqb c "Net" then None else o in
  let enough := ∀ c o, c ∈ GRANTABLE → has footprint (c, o) → confers doc c (net_presence c o) in
  (sufficient check = true ↔ enough) ∧
  (clean check = true ↔ enough ∧ ∀ c o, confers doc c o → has footprint (c, net_presence c o)).
Proof.
  intros Hok%validate_exact. cbv zeta.
  destruct (cross_check_spec (cap_set doc) footprint) as [Hu Ho].
  assert (∀ c o, confers doc c o → c ∈ GRANTABLE) as Hg.
  { intros c o []; unfold GRANTABLE; set_solver. }
  unfold sufficient, clean. rewrite andb_true_iff, !bool_decide_eq_true, Hu, Ho.
  unfold covered. setoid_rewrite has_cap_set; [|done..].
  split; [done|]. split; (intros [H1 H2]; split; [done|]); eauto.
Qed.

(** C20: Resolving the secrets of a grant removes their variables whatever
    happens.  When every provider names a variable the system accepts and no
    other thread is seen, the call returns, and both when it returns the
    values and when it fails exactly the provider variables are gone from
    the environment.  It returns the values, each under the name of its own
    secret, precisely when every provider can be read, and otherwise the
    error of one that cannot.  When it panics, nothing of the sort is
    promised. *)
Theorem secrets_consumed p (secrets : list (string * string)) check :
  NoDup secrets.*1 →
  let '(p', o) := resolve_and_consume_secret_env_checked secrets check p in
  if can_strip p check secrets then
    (∀ v, environment p' !! v = if bool_decide (v ∈ consumed secrets) then None
                                else environment p !! v) ∧
    match o with
    | Done m => ∀ n b, m !! n = Some b ↔
        ∃ from, (n, from) ∈ secrets ∧ resolve_secret_provider p from = Ok b
    | Fail e => ∃ n from, (n, from) ∈ secrets ∧ resolve_secret_provider p from = Err e
    | Panic => False
    end ∧
    ((∃ m, o = Done m) ↔ ∀ n v, (n, v) ∈ secrets → is_ok (resolve_secret_provider p v) = true)
  else o = Panic.
Proof.
  intros Hnd. pose proof (consume_run p secrets check) as H. cbv zeta in H.
  destruct (can_strip p check secrets).
  2:{ by destruct (resolve_and_consume_secret_env_checked secrets check p). }
  rewrite H. split.
  { intros v. cbn. apply option_eq. intros a. rewrite map_lookup_filter_Some. cbn.
    case_bool_decide; naive_solver. }
  pose proof (resolve_all_failure p secrets ∅ None) as Hf.
  destruct (snd (resolve_all p secrets ∅ None)) as [e|] eqn:E.
  - split.
    + apply resolve_all_first_error in E as [?|([n fr] & Hs & Hr)]; [done|eauto].
    + split; [by intros [? ?]|]. intros Hall.
      destruct Hf as [_ Hf]. assert (Some e = None) as [=].
      apply Hf. split; [done|]. intros [n v] Hs. by eapply Hall.
  - split.
    + intros n b. rewrite resolve_all_lookup by done.
      rewrite lookup_empty. naive_solver.
    + split; [|eauto]. intros _ n v Hs. by apply (proj1 Hf eq_refl) in Hs.
Qed.

(** ** A provider name the system does not accept *)

(** Two secrets, the first from a name with an equals sign. *)
Definition equals_document : GrantDoc string :=
  {| files := ∅; dirs := ∅; net := ∅; fetch := ∅; env := ∅; exec := ∅;
     secrets := {[ "first" := {| from := "env:A=B"; sealed := true |};
                   "second" := {| from := "env:TOKEN"; sealed := true |} ]};
     user_caps := ∅ |}.

Definition secret_entries {Value} (doc : GrantDoc Value) : list (string * string) :=
  map (λ e, (fst e, from (snd e))) (btree_entries (secrets doc)).

Definition token_process : Process :=
  {| environment := {[ "TOKEN" := Unicode "s3cret"; "HOME" := Unicode "/home/u" ]};
     threads := Some 1%N; debug_assertions := false |}.

(** Validation lets a provider name with an equals sign through, although it
    rejects the same name in an [env] allowlist; launching with such a
    document panics in the stripping loop instead of reporting the provider
    that could not be resolved, and the variables of the secrets that sort
    after it are still in the environment. *)
Theorem secret_name_panics_after_validation :
  validate equals_document = Ok tt ∧
  validate_env ("settings", ["A=B"]) ≠ Ok tt ∧
  resolve_and_consume_secret_env (secret_entries equals_document) token_process =
    (token_process, Panic) ∧
  std_var token_process "TOKEN" = Some "s3cret".
Proof. split_and!; vm_compute; done. Qed.

Lemma secrets_consumed_witness :
  ∃ p' m, resolve_and_consume_secret_env_checked [("gh", "env:TOKEN")] Enforce token_process =
    (p', Done m) ∧ environment p' !! "TOKEN" = None ∧ m !! "gh" = Some (into_bytes "s3cret").
Proof.
  pose proof (secrets_consumed token_process [("gh", "env:TOKEN")] Enforce
    (NoDup_singleton "gh")) as H.
  destruct (resolve_and_consume_secret_env_checked [("gh", "env:TOKEN")] Enforce token_process)
    as [p' o].
  assert (can_strip token_process Enforce [("gh", "env:TOKEN")] = true) as Hs by (by vm_compute).
  rewrite Hs in H. destruct H as (He & Ho & Hd).
  assert (resolve_secret_provider token_process "env:TOKEN" = Ok (into_bytes "s3cret")) as Hr
    by (by vm_compute).
  destruct (proj2 Hd) as [m ->].
  { intros n v Hin. apply list_elem_of_singleton in Hin. injection Hin as -> ->.
    rewrite Hr. exact eq_refl. }
  exists p', m. split_and!; [done| |].
  - rewrite He. by rewrite bool_decide_true by (apply elem_of_consumed; exists "gh"; split; [by constructor|done]).
  - apply Ho. exists "env:TOKEN". split; [by constructor|done].
Defined.

Lemma grant_check_exact_witness :
  sufficient (cross_check (cap_set equals_document) {[ "SecretStore" := ∅ ]}) = true.
Proof.
  destruct (grant_check_exact equals_document {[ "SecretStore" := ∅ ]}) as [[_ H] _]; [by vm_compute|]. apply H. intros c o _ Ho.
  rewrite has_lookup in Ho. destruct (decide (c = "SecretStore")) as [->|Hne].
  - rewrite lookup_singleton_eq in Ho. destruct o; [destruct (not_elem_of_empty _ Ho)|].
    apply (confers_secrets equals_document "first" {| from := "env:A=B"; sealed := true |}).
    vm_compute. exact eq_refl.
  - rewrite lookup_singleton_ne in Ho by congruence. destruct Ho.
Defined.
