(* ===== verification/Menu.v ===== *)
(** * Menu: host grant menus

    Models [crates/witchy-caps/src/menu.rs]: what a host can originate, the
    typed requirements of a program, the portability check and the plan that
    binds requirements to the host's providers.  TOML is third-party: the
    model of [parse] starts from the deserialized [RawMenu], and the type of
    provider settings is a parameter.  A [BTreeMap<CapabilityKind, _>] is an
    association list in declaration order of the kinds. *)

From S2P Require Import Prelude Text Ordered Catalog NetPolicy Whitespace Footprint.

Local Open Scope string_scope.

(** ** Data *)

Inductive MenuAxis : Set := RuntimeAxis | BuildAxis.
Inductive Determinism : Set := Deterministic | Nondeterministic.
Inductive HostFacility : Set := Argv | Vm.

#[export] Instance MenuAxis_eq_dec : EqDecision MenuAxis.
Proof. solve_decision. Defined.
#[export] Instance HostFacility_eq_dec : EqDecision HostFacility.
Proof. solve_decision. Defined.

Definition facility_name (f : HostFacility) : string :=
  match f with Argv => "argv" | Vm => "vm" end.

Definition facility_from_name (name : string) : option HostFacility :=
  if String.eqb name "argv" then Some Argv
  else if String.eqb name "vm" then Some Vm else None.

Definition axis_name (a : MenuAxis) : string :=
  match a with RuntimeAxis => "runtime" | BuildAxis => "build" end.

Record CapabilityRequirement : Set := {
  req_kind : CapabilityKind;
  req_rights : list CapabilityRight;
}.

Record HostRequirements : Set := {
  capabilities : list CapabilityRequirement;
  facilities : list HostFacility;
}.

Record HostGrant (Value : Type) : Type := {
  grant_kind : CapabilityKind;
  grant_rights : list CapabilityRight;
  grant_provider : string;
  grant_determinism : Determinism;
  grant_settings : gmap string Value;
}.
Arguments grant_kind {Value}.
Arguments grant_rights {Value}.
Arguments grant_provider {Value}.
Arguments grant_determinism {Value}.
Arguments grant_settings {Value}.

Record FacilityGrant (Value : Type) : Type := {
  fgrant_facility : HostFacility;
  fgrant_provider : string;
  fgrant_determinism : Determinism;
  fgrant_settings : gmap string Value;
}.
Arguments fgrant_facility {Value}.
Arguments fgrant_provider {Value}.
Arguments fgrant_determinism {Value}.
Arguments fgrant_settings {Value}.

Record EnforcementMenu : Set := {
  filesystem : option string;
  syscalls : option string;
  csp : option string;
}.

Record HostMenu (Value : Type) : Type := {
  menu_host : string;
  menu_axis : MenuAxis;
  menu_grants : list (HostGrant Value);
  menu_facilities : list (FacilityGrant Value);
  menu_enforcement : EnforcementMenu;
}.
Arguments menu_host {Value}.
Arguments menu_axis {Value}.
Arguments menu_grants {Value}.
Arguments menu_facilities {Value}.
Arguments menu_enforcement {Value}.

Record PlannedCapability (Value : Type) : Type := {
  requirement : CapabilityRequirement;
  planned_provider : string;
  planned_determinism : Determinism;
  planned_settings : gmap string Value;
}.
Arguments requirement {Value}.
Arguments planned_provider {Value}.
Arguments planned_determinism {Value}.
Arguments planned_settings {Value}.

Record PlannedFacility (Value : Type) : Type := {
  planned_facility : HostFacility;
  pfacility_provider : string;
  pfacility_determinism : Determinism;
  pfacility_settings : gmap string Value;
}.
Arguments planned_facility {Value}.
Arguments pfacility_provider {Value}.

Record GrantPlan (Value : Type) : Type := {
  plan_host : string;
  plan_axis : MenuAxis;
  plan_capabilities : list (PlannedCapability Value);
  plan_facilities : list (PlannedFacility Value);
}.
Arguments plan_host {Value}.
Arguments plan_axis {Value}.
Arguments plan_capabilities {Value}.
Arguments plan_facilities {Value}.

Record PortabilityReport : Set := {
  missing_capabilities : list CapabilityRequirement;
  missing_rights : list CapabilityRequirement;
  missing_facilities : list HostFacility;
}.

Definition portable (r : PortabilityReport) : bool :=
  match missing_capabilities r, missing_rights r, missing_facilities r with
  | [], [], [] => true
  | _, _, _ => false
  end.

(** ** Requirements *)

Fixpoint position (right : CapabilityRight) (rights : list CapabilityRight) : option N :=
  match rights with
  | [] => None
  | r :: rest => if right_eqb r right then Some 0%N else N.succ <$> position right rest
  end.

Definition right_rank (kind : CapabilityKind) (right : CapabilityRight) : N :=
  default u64_max (position right (Kind.rights kind)).

Definition order_rights (kind : CapabilityKind) (rights : list CapabilityRight)
    : list CapabilityRight := sort_by_key (right_rank kind) rights.

(** [if !rights.contains(&right) { rights.push(right) }] *)
Definition push_right (rights : list CapabilityRight) (right : CapabilityRight)
    : list CapabilityRight := if bool_decide (right ∈ rights) then rights else (rights ++ [right])%list.

Fixpoint typed_rights (kind : CapabilityKind) (names : list string) (typed : list CapabilityRight)
    : result string (list CapabilityRight) :=
  match names with
  | [] => Ok typed
  | name :: rest =>
      right ← ok_or (Kind.right kind name)
        ("unknown right `" +:+ name +:+ "` for capability `" +:+ Kind.name kind +:+ "`");
      typed_rights kind rest (push_right typed right)
  end.

Fixpoint requirements_of (entries : list (string * Rights))
    : result string (list CapabilityRequirement) :=
  match entries with
  | [] => Ok []
  | (name, rights) :: rest =>
      kind ← ok_or (Kind.from_name name)
        ("unknown capability `" +:+ name +:+ "` in host requirements");
      typed ← typed_rights kind (btree_elements rights) [];
      requirements ← requirements_of rest;
      Ok ({| req_kind := kind; req_rights := order_rights kind typed |} :: requirements)
  end.

Definition from_cap_set (caps : CapSet) : result string HostRequirements :=
  requirements ← requirements_of (btree_entries caps);
  Ok {| capabilities := requirements; facilities := [] |}.

Definition require_facility (r : HostRequirements) (f : HostFacility) : HostRequirements :=
  {| capabilities := capabilities r;
     facilities := if bool_decide (f ∈ facilities r) then facilities r
                   else (facilities r ++ [f])%list |}.

(** The discriminant of a kind, which orders the map. *)
Definition kind_rank (k : CapabilityKind) : nat :=
  match k with
  | Console => 0 | Clock => 1 | Rand => 2 | Env => 3 | Secret => 4 | SecretStore => 5
  | Dir => 6 | File => 7 | Net => 8 | Fetch => 9 | Exec => 10 | Socket => 11 | Listener => 12
  | BuildOut => 13 | BuildRead => 14 | BuildEnv => 15 | BuildNet => 16 | BuildExec => 17
  end.

(** [capabilities.entry(kind).or_default()], then the pushes. *)
Fixpoint extend_kind (kind : CapabilityKind) (rights : list CapabilityRight)
    (m : list (CapabilityKind * list CapabilityRight)) : list (CapabilityKind * list CapabilityRight) :=
  match m with
  | [] => [(kind, foldl push_right [] rights)]
  | (k, held) :: rest =>
      if bool_decide (k = kind) then (k, foldl push_right held rights) :: rest
      else if (kind_rank kind <? kind_rank k)%nat then (kind, foldl push_right [] rights) :: m
      else (k, held) :: extend_kind kind rights rest
  end.

(** [facilities.sort(); facilities.dedup()] *)
Definition sorted_facilities (l : list HostFacility) : list HostFacility :=
  ((if bool_decide (Argv ∈ l) then [Argv] else []) ++
   (if bool_decide (Vm ∈ l) then [Vm] else []))%list.

Definition normalized (r : HostRequirements) : HostRequirements :=
  let merged := foldl (λ m q, extend_kind (req_kind q) (req_rights q) m) [] (capabilities r) in
  {| capabilities :=
       map (λ e, {| req_kind := fst e; req_rights := order_rights (fst e) (snd e) |}) merged;
     facilities := sorted_facilities (facilities r) |}.

(** ** Menus *)

Record RawGrant (Value : Type) : Type := {
  raw_provider : string;
  raw_determinism : Determinism;
  raw_rights : list string;
  raw_settings : gmap string Value;
}.
Arguments raw_provider {Value}.
Arguments raw_determinism {Value}.
Arguments raw_rights {Value}.
Arguments raw_settings {Value}.

Record RawMenu (Value : Type) : Type := {
  raw_host : string;
  raw_axis : MenuAxis;
  raw_grants : gmap string (RawGrant Value);
  raw_facilities : gmap string (RawGrant Value);
  raw_enforcement : EnforcementMenu;
}.
Arguments raw_host {Value}.
Arguments raw_axis {Value}.
Arguments raw_grants {Value}.
Arguments raw_facilities {Value}.
Arguments raw_enforcement {Value}.

(** The derived [Debug] of [CapabilityClass]. *)
Definition show_class (c : CapabilityClass) : string :=
  match c with Host => "Host" | Derived => "Derived" | Build => "Build" end.

Definition expected_class (a : MenuAxis) : CapabilityClass :=
  match a with RuntimeAxis => Host | BuildAxis => Build end.

(** [s.trim().is_empty()] *)
Definition blank (s : string) : bool := String.eqb (trim s) "".

Definition nonempty_provider (layer : string) (provider : option string)
    : result string (option string) :=
  match provider with
  | Some p =>
      if blank p then Err ("host menu enforcement `" +:+ layer +:+ "` has an empty provider")
      else Ok provider
  | None => Ok provider
  end.

Fixpoint parse_right_names (kind : CapabilityKind) (names : list string)
    (rights : list CapabilityRight) : result string (list CapabilityRight) :=
  match names with
  | [] => Ok rights
  | name :: rest =>
      right ← ok_or (Kind.right kind name)
        ("unknown right `" +:+ name +:+ "` for capability `" +:+ Kind.name kind +:+ "`");
      fail_if (bool_decide (right ∈ rights))
        ("duplicate right `" +:+ name +:+ "` for capability `" +:+ Kind.name kind +:+ "`");;
      parse_right_names kind rest (rights ++ [right])%list
  end.

Definition parse_rights (kind : CapabilityKind) (names : list string)
    : result string (list CapabilityRight) :=
  fail_if (bool_decide (Kind.rights kind = []) && negb (bool_decide (names = [])))
    ("right-free capability `" +:+ Kind.name kind +:+ "` cannot declare rights");;
  fail_if (negb (bool_decide (Kind.rights kind = [])) && bool_decide (names = []))
    ("host menu capability `" +:+ Kind.name kind +:+
     "` must explicitly declare its provided rights");;
  rights ← parse_right_names kind names [];
  Ok (order_rights kind rights).

Definition parse_grant {Value} (axis : MenuAxis) (e : string * RawGrant Value)
    : result string (HostGrant Value) :=
  let '(name, raw) := e in
  kind ← ok_or (Kind.from_name name) ("host menu contains unknown capability `" +:+ name +:+ "`");
  fail_if (negb (bool_decide (Kind.class kind = expected_class axis)))
    (axis_name axis +:+ " menu cannot grant `" +:+ Kind.name kind +:+ "` (" +:+
     show_class (Kind.class kind) +:+ " capability)");;
  fail_if (blank (raw_provider raw))
    ("host menu capability `" +:+ Kind.name kind +:+ "` has an empty provider");;
  rights ← parse_rights kind (raw_rights raw);
  Ok {| grant_kind := kind; grant_rights := rights; grant_provider := raw_provider raw;
        grant_determinism := raw_determinism raw; grant_settings := raw_settings raw |}.

Definition parse_facility {Value} (axis : MenuAxis) (e : string * RawGrant Value)
    : result string (FacilityGrant Value) :=
  let '(name, raw) := e in
  facility ← ok_or (facility_from_name name)
    ("host menu contains unknown facility `" +:+ name +:+ "`");
  fail_if (bool_decide (axis = BuildAxis))
    ("build menu cannot provide runtime facility `" +:+ facility_name facility +:+ "`");;
  fail_if (negb (bool_decide (raw_rights raw = [])))
    ("host facility `" +:+ facility_name facility +:+ "` cannot declare capability rights");;
  fail_if (blank (raw_provider raw))
    ("host menu facility `" +:+ facility_name facility +:+ "` has an empty provider");;
  Ok {| fgrant_facility := facility; fgrant_provider := raw_provider raw;
        fgrant_determinism := raw_determinism raw; fgrant_settings := raw_settings raw |}.

(** [for x in l { out.push(f(x)?) }] *)
Fixpoint try_map {A B} (f : A → result string B) (l : list A) : result string (list B) :=
  match l with
  | [] => Ok []
  | x :: l => y ← f x; ys ← try_map f l; Ok (y :: ys)
  end.

(** [HostMenu::parse] after deserialization. *)
Definition parse_menu {Value} (raw : RawMenu Value) : result string (HostMenu Value) :=
  fail_if (blank (raw_host raw)) "host menu has an empty `host` name";;
  grants ← try_map (parse_grant (raw_axis raw)) (btree_entries (raw_grants raw));
  facilities ← try_map (parse_facility (raw_axis raw)) (btree_entries (raw_facilities raw));
  fs ← nonempty_provider "filesystem" (filesystem (raw_enforcement raw));
  sc ← nonempty_provider "syscalls" (syscalls (raw_enforcement raw));
  cs ← nonempty_provider "csp" (csp (raw_enforcement raw));
  Ok {| menu_host := raw_host raw; menu_axis := raw_axis raw; menu_grants := grants;
        menu_facilities := facilities;
        menu_enforcement := {| filesystem := fs; syscalls := sc; csp := cs |} |}.

(** ** Checking and planning *)

Section Menus.
Context {Value : Type}.
Implicit Types menu : HostMenu Value.

Definition find_grant menu (kind : CapabilityKind) : option (HostGrant Value) :=
  List.find (λ g, bool_decide (grant_kind g = kind)) (menu_grants menu).

Definition find_facility menu (f : HostFacility) : option (FacilityGrant Value) :=
  List.find (λ g, bool_decide (fgrant_facility g = f)) (menu_facilities menu).

(** What one requirement adds to the two capability lists of the report. *)
Definition check_requirement menu (q : CapabilityRequirement) (report : PortabilityReport)
    : PortabilityReport :=
  match find_grant menu (req_kind q) with
  | None =>
      {| missing_capabilities := (missing_capabilities report ++ [q])%list;
         missing_rights := missing_rights report;
         missing_facilities := missing_facilities report |}
  | Some grant =>
      match List.filter (λ r, negb (bool_decide (r ∈ grant_rights grant))) (req_rights q) with
      | [] => report
      | missing =>
          {| missing_capabilities := missing_capabilities report;
             missing_rights :=
               (missing_rights report ++ [{| req_kind := req_kind q; req_rights := missing |}])%list;
             missing_facilities := missing_facilities report |}
      end
  end.

Definition check_facility menu (f : HostFacility) (report : PortabilityReport) : PortabilityReport :=
  if bool_decide (is_Some (find_facility menu f)) then report
  else {| missing_capabilities := missing_capabilities report;
          missing_rights := missing_rights report;
          missing_facilities := (missing_facilities report ++ [f])%list |}.

Definition check menu (r : HostRequirements) : PortabilityReport :=
  let report := {| missing_capabilities := []; missing_rights := []; missing_facilities := [] |} in
  let report := foldl (λ report q, check_requirement menu q report) report (capabilities r) in
  foldl (λ report f, check_facility menu f report) report (facilities r).

Definition plan_capability menu (q : CapabilityRequirement) : outcome (PlannedCapability Value) :=
  match find_grant menu (req_kind q) with
  | Some grant =>
      Done {| requirement := q; planned_provider := grant_provider grant;
              planned_determinism := grant_determinism grant;
              planned_settings := grant_settings grant |}
  | None => Panic
  end.

Definition plan_facility menu (f : HostFacility) : outcome (PlannedFacility Value) :=
  match find_facility menu f with
  | Some grant =>
      Done {| planned_facility := f; pfacility_provider := fgrant_provider grant;
              pfacility_determinism := fgrant_determinism grant;
              pfacility_settings := fgrant_settings grant |}
  | None => Panic
  end.

Fixpoint outcome_map {A B} (f : A → outcome B) (l : list A) : outcome (list B) :=
  match l with
  | [] => mret []
  | x :: l => y ← f x; ys ← outcome_map f l; mret (y :: ys)
  end.

(** [plan]: a value of [Result], or a panic of one of the two [expect]s. *)
Definition plan menu (r : HostRequirements) : outcome (result PortabilityReport (GrantPlan Value)) :=
  let r := normalized r in
  let report := check menu r in
  if negb (portable report) then mret (Err report)
  else
    caps ← outcome_map (plan_capability menu) (capabilities r);
    facilities ← outcome_map (plan_facility menu) (facilities r);
    mret (Ok {| plan_host := menu_host menu; plan_axis := menu_axis menu;
                plan_capabilities := caps; plan_facilities := facilities |}).
End Menus.

(** * Requirements as sets *)

(** The capability [k], or one of its rights, is among the requirements. *)
Definition requires (r : HostRequirements) (k : CapabilityKind) (o : option CapabilityRight) : Prop :=
  ∃ q, q ∈ capabilities r ∧ req_kind q = k ∧
    match o with Some rt => rt ∈ req_rights q | None => True end.

Lemma elem_of_order_rights kind rights right : right ∈ order_rights kind rights ↔ right ∈ rights.
Proof. unfold order_rights. by rewrite sort_by_key_perm. Qed.

Lemma elem_of_push_right rights right x : x ∈ push_right rights right ↔ x ∈ rights ∨ x = right.
Proof.
  unfold push_right. destruct (bool_decide (right ∈ rights)) eqn:E.
  - apply bool_decide_eq_true in E. naive_solver.
  - rewrite elem_of_app, list_elem_of_singleton. done.
Qed.

Lemma elem_of_push_rights rights held x :
  x ∈ foldl push_right held rights ↔ x ∈ held ∨ x ∈ rights.
Proof.
  revert held. induction rights as [|r rights IH]; intros held; cbn; [set_solver|].
  rewrite IH, elem_of_push_right. set_solver.
Qed.

Lemma NoDup_push_rights rights held : NoDup held → NoDup (foldl push_right held rights).
Proof.
  revert held. induction rights as [|r rights IH]; intros held Hnd; cbn; [done|]. apply IH.
  unfold push_right. destruct (bool_decide (r ∈ held)) eqn:E; [done|].
  apply bool_decide_eq_false in E. apply list.NoDup_app. split_and!; [done|set_solver|].
  apply NoDup_singleton.
Qed.

(** *** The merged map *)

Definition holds (m : list (CapabilityKind * list CapabilityRight)) (k : CapabilityKind)
    (o : option CapabilityRight) : Prop :=
  ∃ held, (k, held) ∈ m ∧ match o with Some rt => rt ∈ held | None => True end.

Definition rank_sorted : list (CapabilityKind * list CapabilityRight) → Prop :=
  StronglySorted (λ a b, kind_rank (fst a) < kind_rank (fst b))%nat.

Lemma kind_rank_inj a b : kind_rank a = kind_rank b → a = b.
Proof. by destruct a, b. Qed.

Lemma extend_kind_keys kind rights m e :
  e ∈ extend_kind kind rights m → fst e = kind ∨ e ∈ m.
Proof.
  induction m as [|[k held] m IH]; cbn [extend_kind].
  - rewrite list_elem_of_singleton. intros ->. by left.
  - case_bool_decide as Hk; [|destruct (kind_rank kind <? kind_rank k)%nat];
      rewrite !elem_of_cons.
    + intros [He|?]; [left; by subst e|auto].
    + intros [He|?]; [left; by subst e|auto].
    + intros [He|?]; [auto|]. destruct IH; auto.
Qed.

Lemma extend_kind_sorted kind rights m :
  rank_sorted m → rank_sorted (extend_kind kind rights m).
Proof.
  unfold rank_sorted. induction 1 as [|[k held] m Hm IH Hk]; cbn [extend_kind];
    [repeat constructor|].
  destruct (bool_decide (k = kind)) eqn:E; [by constructor|]. apply bool_decide_eq_false in E.
  destruct (Nat.ltb_spec (kind_rank kind) (kind_rank k)) as [Hlt|Hge].
  - constructor; [by constructor|]. constructor; [done|].
    eapply list.Forall_impl; [done|]. cbn. lia.
  - constructor; [done|]. apply list.Forall_forall. intros e He.
    apply extend_kind_keys in He as [->|He]; cbn.
    + assert (kind_rank k ≠ kind_rank kind) by (intros ?%kind_rank_inj; done). lia.
    + rewrite list.Forall_forall in Hk. by apply Hk.
Qed.

Lemma extend_kind_holds kind rights m k o :
  rank_sorted m →
  holds (extend_kind kind rights m) k o ↔
  holds m k o ∨ (k = kind ∧ match o with Some rt => rt ∈ rights | None => True end).
Proof.
  unfold rank_sorted, holds. induction 1 as [|[k0 held] m Hm IH Hk]; cbn [extend_kind].
  { setoid_rewrite list_elem_of_singleton. setoid_rewrite elem_of_nil. split.
    - intros (h & [= -> ->] & Ho). right. split; [done|]. destruct o; [|done].
      rewrite elem_of_push_rights in Ho. set_solver.
    - intros [(? & [] & _)|[-> Ho]]. exists (foldl push_right [] rights). split; [done|].
      destruct o; [|done]. rewrite elem_of_push_rights. by right. }
  setoid_rewrite elem_of_cons.
  destruct (bool_decide (k0 = kind)) eqn:E.
  - apply bool_decide_eq_true in E as ->. setoid_rewrite elem_of_cons.
    assert (∀ h, (kind, h) ∈ m → False) as Hnot.
    { intros h Hin. rewrite list.Forall_forall in Hk. specialize (Hk _ Hin). cbn in Hk. lia. }
    split.
    + intros (h & [[= -> ->]|Hin] & Ho); [|naive_solver].
      destruct o as [r|]; [|by left; exists held; auto].
      rewrite elem_of_push_rights in Ho. destruct Ho; [left; exists held; auto|right; auto].
    + intros [(h & [[= -> ->]|Hin] & Ho)|[-> Ho]].
      * exists (foldl push_right held rights). split; [by left|]. destruct o; [|done].
        rewrite elem_of_push_rights. by left.
      * exists h. auto.
      * exists (foldl push_right held rights). split; [by left|]. destruct o; [|done].
        rewrite elem_of_push_rights. by right.
  - destruct (kind_rank kind <? kind_rank k0)%nat; setoid_rewrite elem_of_cons.
    + split.
      * intros (h & [[= -> ->]|Hin%elem_of_cons] & Ho); [|left; exists h; auto]. right.
        split; [done|]. destruct o; [|done]. rewrite elem_of_push_rights in Ho. set_solver.
      * intros [(h & Hin & Ho)|[-> Ho]]; [exists h; split; [right; by apply elem_of_cons|done]|].
        exists (foldl push_right [] rights). split; [by left|]. destruct o; [|done].
        rewrite elem_of_push_rights. by right.
    + split.
      * intros (h & [Heq|Hin] & Ho); [left; exists h; auto|].
        destruct (proj1 IH) as [(h' & ? & ?)|?]; [by exists h|left; exists h'; auto|by right].
      * intros [(h & [Heq|Hin] & Ho)|Hk']; [exists h; auto| |].
        -- destruct (proj2 IH) as (h' & ? & ?); [left; by exists h|]. exists h'. auto.
        -- destruct (proj2 IH) as (h' & ? & ?); [by right|]. exists h'. auto.
Qed.

Lemma merged_spec l m :
  rank_sorted m →
  let merged := foldl (λ m q, extend_kind (req_kind q) (req_rights q) m) m l in
  rank_sorted merged ∧
  ∀ k o, holds merged k o ↔ holds m k o ∨ requires {| capabilities := l; facilities := [] |} k o.
Proof.
  cbv zeta. revert m. induction l as [|q l IH]; intros m Hm; cbn [foldl].
  { split; [done|]. intros k o. split; [by left|]. intros [?|(q & Hq & _)]; [done|].
    by apply elem_of_nil in Hq. }
  destruct (IH _ (extend_kind_sorted (req_kind q) (req_rights q) m Hm)) as [H1 H2].
  split; [done|]. intros k o. rewrite H2, extend_kind_holds by done.
  unfold requires. cbn [capabilities]. setoid_rewrite elem_of_cons. split.
  - intros [[?|[-> Ho]]|(q' & Hq & Hk & Ho)]; [by left|right; exists q; auto|right; exists q'; auto].
  - intros [?|(q' & [->|Hq] & Hk & Ho)]; [auto|left; right; auto|right; exists q'; auto].
Qed.

Lemma normalized_requires r k o : requires (normalized r) k o ↔ requires r k o.
Proof.
  destruct (merged_spec (capabilities r) [] ltac:(constructor)) as [_ H].
  assert (requires r k o ↔ requires {| capabilities := capabilities r; facilities := [] |} k o) as ->
    by done.
  transitivity (holds (foldl (λ m q, extend_kind (req_kind q) (req_rights q) m) [] (capabilities r)) k o).
  - unfold requires, holds, normalized. cbn [capabilities].
    setoid_rewrite list_elem_of_In. setoid_rewrite in_map_iff. setoid_rewrite <- list_elem_of_In.
    split.
    + intros (q & ([k' held] & <- & Hin) & <- & Ho). exists held.
      cbn [req_rights req_kind fst snd] in *. split; [done|].
      destruct o; [by rewrite elem_of_order_rights in Ho|done].
    + intros (held & Hin & Ho). eexists. split; [by exists (k, held)|].
      cbn [req_rights req_kind fst snd]. split; [done|].
      destruct o; [by rewrite elem_of_order_rights|done].
  - rewrite H. split; [intros [(h & Hh & _)|?]; [by apply elem_of_nil in Hh|done]|by right].
Qed.

Lemma sorted_kinds m : rank_sorted m → NoDup m.*1.
Proof.
  unfold rank_sorted. induction 1 as [|[k h] m _ IH Hk]; [constructor|].
  cbn. constructor; [|done]. rewrite list_elem_of_fmap. intros ([k' h'] & -> & Hin).
  rewrite list.Forall_forall in Hk. apply Hk in Hin. cbn in Hin. lia.
Qed.

Lemma normalized_kinds r : NoDup (map req_kind (capabilities (normalized r))).
Proof.
  unfold normalized. cbn [capabilities]. rewrite map_map. cbn [req_kind].
  apply (sorted_kinds _ (proj1 (merged_spec (capabilities r) [] ltac:(constructor)))).
Qed.

Lemma elem_of_sorted_facilities f l : f ∈ sorted_facilities l ↔ f ∈ l.
Proof.
  unfold sorted_facilities. rewrite elem_of_app.
  destruct f; (destruct (bool_decide (Argv ∈ l)) eqn:E1; [apply bool_decide_eq_true in E1|
    apply bool_decide_eq_false in E1]);
  (destruct (bool_decide (Vm ∈ l)) eqn:E2; [apply bool_decide_eq_true in E2|
    apply bool_decide_eq_false in E2]); set_solver.
Qed.

(** * The report *)

Section Reports.
Context {Value : Type}.
Implicit Types menu : HostMenu Value.

(** The menu has the capability, or the right of it. *)
Definition provides menu (k : CapabilityKind) (o : option CapabilityRight) : Prop :=
  ∃ g, find_grant menu k = Some g ∧
    match o with Some rt => rt ∈ grant_rights g | None => True end.

Definition missing_of menu (q : CapabilityRequirement) : option CapabilityRequirement :=
  g ← find_grant menu (req_kind q);
  match List.filter (λ r, negb (bool_decide (r ∈ grant_rights g))) (req_rights q) with
  | [] => None
  | missing => Some {| req_kind := req_kind q; req_rights := missing |}
  end.

Lemma check_requirements menu l report :
  foldl (λ report q, check_requirement menu q report) report l =
  {| missing_capabilities := (missing_capabilities report ++
       List.filter (λ q, bool_decide (find_grant menu (req_kind q) = None)) l)%list;
     missing_rights := (missing_rights report ++ omap (missing_of menu) l)%list;
     missing_facilities := missing_facilities report |}.
Proof.
  revert report. induction l as [|q l IH]; intros report; cbn [foldl].
  { cbn. rewrite !app_nil_r. by destruct report. }
  rewrite IH. unfold check_requirement. cbn [List.filter omap list_omap].
  unfold missing_of at 2. destruct (find_grant menu (req_kind q)) as [g|] eqn:E; cbn [mbind option_bind].
  - rewrite bool_decide_false by done.
    destruct (List.filter _ (req_rights q)) as [|r rs]; cbn; [done|].
    by rewrite <- app_assoc.
  - rewrite bool_decide_true by done. cbn. by rewrite <- app_assoc.
Qed.

Lemma check_facilities menu l report :
  foldl (λ report f, check_facility menu f report) report l =
  {| missing_capabilities := missing_capabilities report;
     missing_rights := missing_rights report;
     missing_facilities := (missing_facilities report ++
       List.filter (λ f, negb (bool_decide (is_Some (find_facility menu f)))) l)%list |}.
Proof.
  revert report. induction l as [|f l IH]; intros report; cbn [foldl].
  { cbn. rewrite app_nil_r. by destruct report. }
  rewrite IH. unfold check_facility. cbn [List.filter].
  destruct (bool_decide (is_Some (find_facility menu f))); cbn; [done|]. by rewrite <- app_assoc.
Qed.

(** The report names exactly what the menu lacks. *)
Lemma check_spec menu r :
  let report := check menu r in
  (∀ k, (∃ q, q ∈ missing_capabilities report ∧ req_kind q = k) ↔
     requires r k None ∧ ¬ provides menu k None) ∧
  (∀ k rt, (∃ q, q ∈ missing_rights report ∧ req_kind q = k ∧ rt ∈ req_rights q) ↔
     requires r k (Some rt) ∧ provides menu k None ∧ ¬ provides menu k (Some rt)) ∧
  (∀ f, f ∈ missing_facilities report ↔ f ∈ facilities r ∧ find_facility menu f = None) ∧
  (∀ q, q ∈ missing_rights report → req_rights q ≠ []).
Proof.
  cbv zeta. unfold check. rewrite check_requirements, check_facilities. cbn. split_and!.
  - intros k. unfold requires, provides. setoid_rewrite list_elem_of_In.
    setoid_rewrite List.filter_In. setoid_rewrite <- list_elem_of_In. split.
    + intros (q & [Hq Hn%bool_decide_eq_true] & <-). split; [eauto|]. intros (g & Hg & _). congruence.
    + intros [(q & Hq & <- & _) Hn]. exists q. split_and!; [done| |done].
      apply bool_decide_eq_true. destruct (find_grant menu (req_kind q)) eqn:E; [|done].
      exfalso. eauto.
  - intros k rt. unfold requires, provides. setoid_rewrite list_elem_of_omap. split.
    + intros (q & (q0 & Hq0 & Hm) & <- & Hrt). unfold missing_of in Hm.
      destruct (find_grant menu (req_kind q0)) as [g|] eqn:E; cbn in Hm; [|done].
      assert (rt ∈ List.filter (λ r0, negb (bool_decide (r0 ∈ grant_rights g))) (req_rights q0) ∧
              req_kind q = req_kind q0) as [Hf ->].
      { destruct (List.filter _ (req_rights q0)); [done|]. by injection Hm as <-. }
      rewrite list_elem_of_In, List.filter_In, <- list_elem_of_In in Hf.
      destruct Hf as [Hr Hg%negb_true_iff%bool_decide_eq_false].
      split_and!; [eauto|eauto|]. intros (g' & Hg' & Hin). congruence.
    + intros ((q & Hq & <- & Hr) & (g & Hg & _) & Hn).
      assert (rt ∈ List.filter (λ r0, negb (bool_decide (r0 ∈ grant_rights g))) (req_rights q)) as Hf.
      { rewrite list_elem_of_In, List.filter_In, <- list_elem_of_In. split; [done|].
        apply negb_true_iff, bool_decide_eq_false. eauto. }
      destruct (List.filter _ (req_rights q)) as [|x xs] eqn:E; [by apply elem_of_nil in Hf|].
      eexists. split; [exists q; split; [done|]; unfold missing_of; rewrite Hg; cbn; by rewrite E|].
      done.
  - intros f. rewrite list_elem_of_In, List.filter_In, <- list_elem_of_In.
    rewrite negb_true_iff, bool_decide_eq_false, <- eq_None_not_Some. done.
  - intros q (q0 & _ & Hm)%list_elem_of_omap. unfold missing_of in Hm.
    destruct (find_grant menu (req_kind q0)) as [g|]; cbn in Hm; [|done].
    destruct (List.filter _ (req_rights q0)); [done|]. by injection Hm as <-.
Qed.

Lemma portable_true report :
  portable report = true ↔
  missing_capabilities report = [] ∧ missing_rights report = [] ∧ missing_facilities report = [].
Proof. destruct report as [[|] [|] [|]]; cbn; naive_solver. Qed.

Lemma portable_spec menu r :
  portable (check menu r) = true ↔
  (∀ k o, requires r k o → provides menu k o) ∧
  (∀ f, f ∈ facilities r → is_Some (find_facility menu f)).
Proof.
  destruct (check_spec menu r) as (Hc & Hr & Hf & Hne). rewrite portable_true. split.
  - intros (Ec & Er & Ef). split.
    + intros k o Hreq.
      assert (provides menu k None) as Hp.
      { destruct (decide (find_grant menu k = None)) as [Hn|[g Hg]%not_eq_None_Some]; [|by exists g].
        exfalso. destruct (proj2 (Hc k)) as (q & Hq & _).
        { split; [destruct Hreq as (q & ? & ? & _); by exists q|]. intros (g & ? & _). congruence. }
        rewrite Ec in Hq. by apply elem_of_nil in Hq. }
      destruct o as [rt|]; [|done].
      destruct Hp as [g [Hg _]]. destruct (decide (rt ∈ grant_rights g)) as [?|Hn]; [by exists g|].
      exfalso. destruct (proj2 (Hr k rt)) as (q & Hq & _).
      { split_and!; [done|by exists g|]. intros (g' & ? & ?). congruence. }
      rewrite Er in Hq. by apply elem_of_nil in Hq.
    + intros f Hin. destruct (find_facility menu f) eqn:E; [by eexists|]. exfalso.
      assert (f ∈ missing_facilities (check menu r)) as Hm by (by apply Hf).
      rewrite Ef in Hm. by apply elem_of_nil in Hm.
  - intros [Hp Hfac].
    assert (∀ A (l : list A), (∀ x, ¬ x ∈ l) → l = []) as Hnil.
    { intros A [|x l] Hx; [done|]. exfalso. apply (Hx x). by left. }
    split_and!; apply Hnil.
    + intros q Hq. destruct (proj1 (Hc (req_kind q))) as [H1 H2]; [by exists q|]. by apply H2, Hp.
    + intros q Hq. pose proof (Hne q Hq) as Hn. destruct (req_rights q) as [|rt rs] eqn:E; [done|].
      destruct (proj1 (Hr (req_kind q) rt)) as (H1 & _ & H2);
        [exists q; rewrite E; split_and!; [done..|by left]|]. by apply H2, Hp.
    + intros f [Hin Hn]%Hf. apply Hfac in Hin as [? ?]. congruence.
Qed.
End Reports.

(** * From footprints to plans *)

Lemma typed_rights_Ok kind names acc l :
  typed_rights kind names acc = Ok l →
  ∀ rt, rt ∈ l ↔ rt ∈ acc ∨ Right.name rt ∈ names.
Proof.
  revert acc. induction names as [|n names IH]; intros acc; cbn [typed_rights].
  { intros [= <-] rt. set_solver. }
  rewrite result_bind_Ok. intros (r & Hr & H) rt. unfold ok_or in Hr.
  destruct (Kind.right kind n) as [r'|] eqn:E; [|done]. injection Hr as ->.
  apply right_Some in E as [-> _]. rewrite (IH _ H), elem_of_push_right, elem_of_cons. split.
  - intros [[?| ->]|?]; auto.
  - intros [?|[?%Right.name_inj|?]]; auto.
Qed.

Lemma requirements_of_Ok entries l k o :
  requirements_of entries = Ok l →
  (∃ q, q ∈ l ∧ req_kind q = k ∧ match o with Some rt => rt ∈ req_rights q | None => True end) ↔
  ∃ rights, (Kind.name k, rights) ∈ entries ∧
    match o with Some rt => Right.name rt ∈ rights | None => True end.
Proof.
  revert l. induction entries as [|[n rights] entries IH]; intros l; cbn [requirements_of].
  { intros [= <-]. split; [intros (q & Hq & _)|intros (r & Hr & _)]; set_solver. }
  rewrite result_bind_Ok. intros (kind & Hk & H). unfold ok_or in Hk.
  destruct (Kind.from_name n) as [kind'|] eqn:E; [|done]. injection Hk as ->.
  apply Kind.from_name_Some in E as ->.
  apply result_bind_Ok in H as (typed & Ht & H). apply result_bind_Ok in H as (l' & Hl & [= <-]).
  specialize (IH l' Hl). pose proof (typed_rights_Ok _ _ _ _ Ht) as Hty.
  setoid_rewrite elem_of_btree_elements in Hty.
  setoid_rewrite elem_of_cons. split.
  - intros (q & [->|Hq] & Hk & Ho).
    + cbn [req_kind req_rights] in *. subst k. exists rights. split; [by left|].
      destruct o as [rt|]; [|done]. rewrite elem_of_order_rights, Hty in Ho. set_solver.
    + destruct (proj1 IH) as (rs & Hrs & Ho'); [by exists q|]. exists rs. auto.
  - intros (rs & [[= Hn ->]|Hrs] & Ho).
    + assert (kind = k) as ->.
      { apply (f_equal Kind.from_name) in Hn. rewrite !Kind.from_name_name in Hn. congruence. }
      eexists. split; [by left|]. cbn [req_kind req_rights]. split; [done|].
      destruct o as [rt|]; [|done]. rewrite elem_of_order_rights, Hty. by right.
    + destruct (proj2 IH) as (q & Hq & Hkq & Hoq); [by exists rs|]. exists q. auto.
Qed.

Lemma from_cap_set_requires caps r k o :
  from_cap_set caps = Ok r → requires r k o ↔ has caps (Kind.name k, Right.name <$> o).
Proof.
  unfold from_cap_set. rewrite result_bind_Ok. intros (l & Hl & [= <-]).
  unfold requires. cbn [capabilities]. rewrite (requirements_of_Ok _ _ _ _ Hl). unfold has. cbn [fst snd].
  setoid_rewrite elem_of_btree_entries. by destruct o.
Qed.

Lemma outcome_map_Done {A B} (f : A → outcome B) (R : A → B → Prop) l :
  (∀ x, x ∈ l → ∃ y, f x = Done y ∧ R x y) →
  ∃ ys, outcome_map f l = Done ys ∧ Forall2 R l ys.
Proof.
  induction l as [|x l IH]; intros H; [exists []; split; [done|constructor]|].
  destruct (H x) as (y & Hy & Hxy); [by left|].
  destruct IH as (ys & Hys & Hall); [intros z Hz; apply H; by right|].
  exists (y :: ys). cbn. rewrite Hy. cbn. rewrite Hys. split; [done|by constructor].
Qed.

Lemma Forall2_map_eq {A B} (g : B → A) l l' : Forall2 (λ x y, g y = x) l l' → map g l' = l.
Proof. induction 1 as [|x y l l' <- _ IH]; cbn; [done|by rewrite IH]. Qed.

(** The capability, or the right of it, is in the plan. *)
Definition planned {Value} (p : GrantPlan Value) (k : CapabilityKind) (o : option CapabilityRight) : Prop :=
  ∃ c, c ∈ plan_capabilities p ∧ req_kind (requirement c) = k ∧
    match o with Some rt => rt ∈ req_rights (requirement c) | None => True end.

(** A planned capability names the provider of the menu's entry for it. *)
Definition from_menu {Value} (menu : HostMenu Value) (c : PlannedCapability Value) : Prop :=
  ∃ g, find_grant menu (req_kind (requirement c)) = Some g ∧
    planned_provider c = grant_provider g ∧ planned_determinism c = grant_determinism g ∧
    planned_settings c = grant_settings g.

Lemma plan_portable {Value} (menu : HostMenu Value) r :
  portable (check menu (normalized r)) = true →
  ∃ p, plan menu r = Done (Ok p) ∧
    map requirement (plan_capabilities p) = capabilities (normalized r) ∧
    map planned_facility (plan_facilities p) = facilities (normalized r) ∧
    Forall (from_menu menu) (plan_capabilities p).
Proof.
  intros Hp. pose proof (proj1 (portable_spec _ _) Hp) as [Hc Hf].
  destruct (outcome_map_Done (plan_capability menu) (λ q c, requirement c = q ∧ from_menu menu c)
    (capabilities (normalized r))) as (caps & Ecaps & Rcaps).
  { intros q Hq. destruct (Hc (req_kind q) None) as (g & Hg & _); [by exists q|].
    unfold plan_capability. rewrite Hg. eexists. split; [done|]. split; [done|].
    exists g. cbn. auto. }
  destruct (outcome_map_Done (plan_facility menu) (λ f p, planned_facility p = f)
    (facilities (normalized r))) as (facs & Efacs & Rfacs).
  { intros f Hin. destruct (Hf f Hin) as [g Hg]. unfold plan_facility. rewrite Hg. by eexists. }
  eexists. unfold plan. rewrite Hp. cbn [negb]. rewrite Ecaps.
  cbn [mbind outcome_bind]. rewrite Efacs. cbn [mbind outcome_bind].
  split; [done|]. cbn [plan_capabilities plan_facilities]. split_and!.
  - apply Forall2_map_eq. eapply Forall2_impl; [|exact Rcaps]. by intros ?? [? _].
  - by apply Forall2_map_eq.
  - clear -Rcaps. induction Rcaps as [|q c l l' [_ ?] _ IH]; by constructor.
Qed.

Lemma planned_requires {Value} (p : GrantPlan Value) r k o :
  map requirement (plan_capabilities p) = capabilities (normalized r) →
  planned p k o ↔ requires r k o.
Proof.
  intros Hcaps.
  rewrite <- normalized_requires. unfold planned, requires. rewrite <- Hcaps.
  setoid_rewrite list_elem_of_In. setoid_rewrite in_map_iff. split.
  - intros (c & Hc & Hk & Ho). exists (requirement c). eauto.
  - intros (q & (c & <- & Hc) & Hk & Ho). eauto.
Qed.

(** * What a parsed menu provides *)

Lemma try_map_Ok {A B} (f : A → result string B) l ys :
  try_map f l = Ok ys → Forall2 (λ x y, f x = Ok y) l ys.
Proof.
  revert ys. induction l as [|x l IH]; intros ys; cbn [try_map]; [by intros [= <-]|].
  rewrite result_bind_Ok. intros (y & Hy & H). apply result_bind_Ok in H as (ys' & Hys & [= <-]).
  constructor; auto.
Qed.

Lemma parse_right_names_Ok kind names acc l :
  parse_right_names kind names acc = Ok l →
  ∀ rt, rt ∈ l ↔ rt ∈ acc ∨ Right.name rt ∈ names.
Proof.
  revert acc. induction names as [|n names IH]; intros acc; cbn [parse_right_names].
  { intros [= <-] rt. set_solver. }
  rewrite result_bind_Ok. intros (r & Hr & H) rt. unfold ok_or in Hr.
  destruct (Kind.right kind n) as [r'|] eqn:E; [|done]. injection Hr as ->.
  apply right_Some in E as [-> _]. apply fail_if_Ok in H as [_ H].
  rewrite (IH _ H), elem_of_app, list_elem_of_singleton, elem_of_cons. split.
  - intros [[?| ->]|?]; auto.
  - intros [?|[?%Right.name_inj|?]]; auto.
Qed.

Lemma parse_grant_Ok {Value} axis name (raw : RawGrant Value) g :
  parse_grant axis (name, raw) = Ok g →
  name = Kind.name (grant_kind g) ∧ Kind.class (grant_kind g) = expected_class axis ∧
  ∀ rt, rt ∈ grant_rights g ↔ Right.name rt ∈ raw_rights raw.
Proof.
  unfold parse_grant. rewrite result_bind_Ok. intros (kind & Hk & H). unfold ok_or in Hk.
  destruct (Kind.from_name name) as [kind'|] eqn:E; [|done]. injection Hk as ->.
  apply Kind.from_name_Some in E as ->.
  apply fail_if_Ok in H as [Hc%negb_false_iff%bool_decide_eq_true H].
  apply fail_if_Ok in H as [_ H]. apply result_bind_Ok in H as (rights & Hr & [= <-]). cbn.
  split_and!; [done..|]. unfold parse_rights in Hr.
  apply fail_if_Ok in Hr as [_ Hr]. apply fail_if_Ok in Hr as [_ Hr].
  apply result_bind_Ok in Hr as (l & Hl & [= <-]). intros rt.
  rewrite elem_of_order_rights, (parse_right_names_Ok _ _ _ _ Hl). set_solver.
Qed.

(** The document declares the capability, or the right of it. *)
Definition declared {Value} (raw : RawMenu Value) (k : CapabilityKind) (o : option CapabilityRight)
    : Prop :=
  ∃ g, raw_grants raw !! Kind.name k = Some g ∧
    match o with Some rt => Right.name rt ∈ raw_rights g | None => True end.

Lemma parse_menu_provides {Value} (raw : RawMenu Value) menu k o :
  parse_menu raw = Ok menu → provides menu k o ↔ declared raw k o.
Proof.
  unfold parse_menu. rewrite fail_if_Ok. intros [_ H].
  apply result_bind_Ok in H as (grants & Hg & H).
  assert (menu_grants menu = grants) as Em.
  { repeat (apply result_bind_Ok in H as (? & _ & H)). by injection H as <-. }
  clear H. apply try_map_Ok in Hg. unfold provides, find_grant, declared. rewrite Em. split.
  - intros (g & Hf & Ho). apply List.find_some in Hf as [Hin Hk%bool_decide_eq_true].
    rewrite <- list_elem_of_In in Hin. apply list_elem_of_lookup in Hin as [i Hi].
    destruct (Forall2_lookup_r _ _ _ _ _ Hg Hi) as ([n r] & Hr & Hp).
    apply parse_grant_Ok in Hp as (-> & _ & Hrt). subst k. exists r.
    split; [apply elem_of_btree_entries; by eapply list_elem_of_lookup_2|].
    destruct o; [by apply Hrt|done].
  - intros (r & Hr%elem_of_btree_entries & Ho). apply list_elem_of_lookup in Hr as [i Hi].
    destruct (Forall2_lookup_l _ _ _ _ _ Hg Hi) as (g & Hgi & Hp).
    apply parse_grant_Ok in Hp as (Hn & _ & Hrt).
    assert (grant_kind g = k) as Hk.
    { apply (f_equal Kind.from_name) in Hn. rewrite !Kind.from_name_name in Hn. congruence. }
    destruct (List.find (λ g, bool_decide (grant_kind g = k)) grants) as [g'|] eqn:Ef.
    + exists g'. split; [done|]. destruct o as [rt|]; [|done].
      apply List.find_some in Ef as [Hin Hk'%bool_decide_eq_true].
      rewrite <- list_elem_of_In in Hin. apply list_elem_of_lookup in Hin as [j Hj].
      destruct (Forall2_lookup_r _ _ _ _ _ Hg Hj) as ([n' r'] & Hr' & Hp').
      apply parse_grant_Ok in Hp' as (Hn' & _ & Hrt'). apply Hrt'.
      assert (r' = r) as ->; [|done].
      apply list_elem_of_lookup_2, elem_of_btree_entries in Hi, Hr'. congruence.
    + exfalso. apply list_elem_of_lookup_2, list_elem_of_In in Hgi.
      pose proof (List.find_none _ _ Ef g Hgi) as Hnone. cbn in Hnone.
      by apply bool_decide_eq_false in Hnone.
Qed.

(** * Properties *)

(** Planning is exact and minimal.  It never panics.  It succeeds precisely
    when the menu has every required capability, right and facility, and the
    plan then holds exactly what was required, every capability once and
    with no right beyond those asked for, from the provider of the menu's
    entry.  When it fails, the report names exactly the capabilities, the
    rights and the facilities the menu lacks. *)
Theorem plan_exact {Value} (menu : HostMenu Value) (r : HostRequirements) :
  let enough := (∀ k o, requires r k o → provides menu k o) ∧
                (∀ f, f ∈ facilities r → is_Some (find_facility menu f)) in
  (∃ p, plan menu r = Done (Ok p) ∧ enough ∧
     (∀ k o, planned p k o ↔ requires r k o) ∧
     NoDup (map (λ c, req_kind (requirement c)) (plan_capabilities p)) ∧
     Forall (from_menu menu) (plan_capabilities p) ∧
     (∀ f, f ∈ map planned_facility (plan_facilities p) ↔ f ∈ facilities r)) ∨
  (∃ report, plan menu r = Done (Err report) ∧ ¬ enough ∧
     (∀ k, (∃ q, q ∈ missing_capabilities report ∧ req_kind q = k) ↔
        requires r k None ∧ ¬ provides menu k None) ∧
     (∀ k rt, (∃ q, q ∈ missing_rights report ∧ req_kind q = k ∧ rt ∈ req_rights q) ↔
        requires r k (Some rt) ∧ provides menu k None ∧ ¬ provides menu k (Some rt)) ∧
     (∀ f, f ∈ missing_facilities report ↔ f ∈ facilities r ∧ find_facility menu f = None)).
Proof.
  cbv zeta.
  assert (∀ f, f ∈ facilities (normalized r) ↔ f ∈ facilities r) as Hfac
    by (intros f; apply elem_of_sorted_facilities).
  assert (portable (check menu (normalized r)) = true ↔
    (∀ k o, requires r k o → provides menu k o) ∧
    (∀ f, f ∈ facilities r → is_Some (find_facility menu f))) as Henough.
  { rewrite portable_spec. repeat setoid_rewrite normalized_requires. by setoid_rewrite Hfac. }
  destruct (portable (check menu (normalized r))) eqn:E.
  - left. destruct (plan_portable menu r E) as (p & Hp & Hcaps & Hfacs & Hmenu).
    exists p. split_and!; [done|by apply Henough..| | |done|].
    + intros k o. by apply planned_requires.
    + rewrite <- (map_map requirement req_kind), Hcaps. apply normalized_kinds.
    + intros f. by rewrite Hfacs.
  - right. exists (check menu (normalized r)). split.
    { unfold plan. by rewrite E. }
    split; [intros H; apply Henough in H; done|].
    destruct (check_spec menu (normalized r)) as (Hc & Hr & Hf & _).
    repeat setoid_rewrite normalized_requires in Hc. repeat setoid_rewrite normalized_requires in Hr.
    setoid_rewrite Hfac in Hf. done.
Qed.

(** From a menu document and a footprint to a launch plan.  The plan exists
    precisely when the document declares every capability and right of the
    analyzed footprint, and it then binds a capability or a right exactly
    when the footprint has it: nothing the menu offers beyond that reaches
    the program. *)
Theorem footprint_plan_exact {Value} (raw : RawMenu Value) menu (caps : CapSet) r :
  parse_menu raw = Ok menu → from_cap_set caps = Ok r →
  ((∃ p, plan menu r = Done (Ok p)) ↔
     ∀ k o, has caps (Kind.name k, Right.name <$> o) → declared raw k o) ∧
  (∀ p, plan menu r = Done (Ok p) →
     ∀ k o, planned p k o ↔ has caps (Kind.name k, Right.name <$> o)).
Proof.
  intros Hm Hr.
  assert (portable (check menu (normalized r)) = true ↔
    ∀ k o, has caps (Kind.name k, Right.name <$> o) → declared raw k o) as Hport.
  { rewrite portable_spec. repeat setoid_rewrite normalized_requires.
    setoid_rewrite (parse_menu_provides raw menu); [|done..].
    setoid_rewrite from_cap_set_requires; [|done..].
    split; [by intros [? _]|]. intros H. split; [done|]. intros f Hf.
    apply elem_of_sorted_facilities in Hf. unfold from_cap_set in Hr.
    apply result_bind_Ok in Hr as (l & _ & [= <-]). by apply elem_of_nil in Hf. }
  rewrite <- Hport. unfold plan at 1. split.
  - destruct (portable (check menu (normalized r))) eqn:E; cbn [negb].
    + split; [done|]. intros _. destruct (plan_portable menu r E) as (p & Hp & _).
      unfold plan in Hp. rewrite E in Hp. by exists p.
    + split; [|done]. intros [p Hp]. done.
  - intros p Hp k o. rewrite <- (from_cap_set_requires caps r) by done.
    destruct (portable (check menu (normalized r))) eqn:E;
      [|unfold plan in Hp; rewrite E in Hp; done].
    destruct (plan_portable menu r E) as (p' & Hp' & Hcaps & _).
    rewrite Hp in Hp'. injection Hp' as <-. by apply planned_requires.
Qed.

(** ** Witness *)

Definition sample_raw : RawMenu unit :=
  {| raw_host := "native"; raw_axis := RuntimeAxis;
     raw_grants := {[ "Dir" := {| raw_provider := "host-fs"; raw_determinism := Nondeterministic;
                                  raw_rights := ["Write"; "Read"]; raw_settings := ∅ |};
                      "Clock" := {| raw_provider := "system"; raw_determinism := Nondeterministic;
                                    raw_rights := []; raw_settings := ∅ |} ]};
     raw_facilities := ∅;
     raw_enforcement := {| filesystem := Some "landlock"; syscalls := None; csp := None |} |}.

Lemma footprint_plan_exact_witness :
  ∃ menu r p, parse_menu sample_raw = Ok menu ∧
    from_cap_set {[ "Dir" := {["Read"]} ]} = Ok r ∧ plan menu r = Done (Ok p) ∧
    planned p Dir (Some Read).
Proof.
  destruct (parse_menu sample_raw) as [menu|] eqn:Em; [|vm_compute in Em; discriminate Em].
  destruct (from_cap_set {[ "Dir" := {["Read"]} ]}) as [r|] eqn:Er;
    [|vm_compute in Er; discriminate Er].
  destruct (footprint_plan_exact sample_raw menu {[ "Dir" := {["Read"]} ]} r Em Er) as [_ H].
  destruct (plan menu r) as [[p|]| |] eqn:Ep;
    [|vm_compute in Em, Er; simplify_eq; vm_compute in Ep; discriminate Ep..].
  exists menu, r, p. split_and!; [reflexivity|reflexivity|exact Ep|]. apply (H p eq_refl).
  exists {["Read"]}. split; [vm_compute; reflexivity|]. by apply elem_of_singleton.
Defined.
