(* ===== verification/CapRights.v ===== *)
(** * CapRights: the rights of a capability as the type checker reads them

    Models [crates/witchy-types/src/typeck/cap_rights.rs]: the rights records
    of the [Console], [Dir], [File], [Net] and [Secret] types, how the
    bracketed markers of a source type select them, how they are printed, and
    the validation of the markers.  The footprint analyzer reads the same
    markers with code of its own ([rights_from_args] of [Footprint]); the
    theorems here compare the two readings.  The derived [Debug] text of a
    type that is not a marker, which only appears inside an error message, is
    a variable. *)

From S2P Require Import Prelude Text Catalog Footprint.

Local Open Scope string_scope.

(** ** Rights records *)

Record ConsoleRights : Set := { console_read : bool; console_write : bool }.
Record DirRights : Set := { dir_read : bool; dir_write : bool }.
Record FileRights : Set := { file_read : bool; file_write : bool }.
Record SecretRights : Set := { secret_reveal : bool; secret_seal : bool }.
Record NetRights : Set := {
  net_connect : bool;
  net_listen : bool;
  net_tcp : bool;
  net_udp : bool;
  net_uds : bool;
}.

#[export] Instance ConsoleRights_eq_dec : EqDecision ConsoleRights.
Proof. solve_decision. Defined.
#[export] Instance DirRights_eq_dec : EqDecision DirRights.
Proof. solve_decision. Defined.
#[export] Instance FileRights_eq_dec : EqDecision FileRights.
Proof. solve_decision. Defined.
#[export] Instance SecretRights_eq_dec : EqDecision SecretRights.
Proof. solve_decision. Defined.
#[export] Instance NetRights_eq_dec : EqDecision NetRights.
Proof. solve_decision. Defined.

Definition console_full : ConsoleRights := {| console_read := true; console_write := true |}.
Definition dir_full : DirRights := {| dir_read := true; dir_write := true |}.
Definition file_full : FileRights := {| file_read := true; file_write := true |}.
Definition secret_full : SecretRights := {| secret_reveal := true; secret_seal := true |}.
Definition secret_sealed : SecretRights := {| secret_reveal := false; secret_seal := true |}.
Definition net_full : NetRights :=
  {| net_connect := true; net_listen := true; net_tcp := true; net_udp := true; net_uds := true |}.

Definition verbs_full (r : NetRights) : bool := net_connect r && net_listen r.
Definition transports_full (r : NetRights) : bool := net_tcp r && net_udp r && net_uds r.

(** ** [Display] *)

Definition show_console (r : ConsoleRights) : string :=
  match console_read r, console_write r with
  | true, true => "Console"
  | true, false => "Console[Read]"
  | false, true => "Console[Write]"
  | false, false => "Console[]"
  end.

Definition show_dir (r : DirRights) : string :=
  match dir_read r, dir_write r with
  | true, true => "Dir"
  | true, false => "Dir[Read]"
  | false, true => "Dir[Write]"
  | false, false => "Dir[]"
  end.

Definition show_file (r : FileRights) : string :=
  match file_read r, file_write r with
  | true, true => "File"
  | true, false => "File[Read]"
  | false, true => "File[Write]"
  | false, false => "File[]"
  end.

Definition show_secret (r : SecretRights) : string :=
  match secret_reveal r, secret_seal r with
  | true, true => "Secret"
  | true, false => "Secret[Reveal]"
  | false, true => "Secret[Seal]"
  | false, false => "Secret[]"
  end.

(** The markers of the narrowed axes. *)
Definition net_parts (r : NetRights) : list string :=
  (if verbs_full r then [] else
     (if net_connect r then ["Connect"] else []) ++ (if net_listen r then ["Listen"] else []))%list
  ++ (if transports_full r then [] else
        (if net_tcp r then ["Tcp"] else []) ++ (if net_udp r then ["Udp"] else [])
        ++ (if net_uds r then ["Uds"] else [])).

Definition show_net (r : NetRights) : string :=
  if verbs_full r && transports_full r then "Net"
  else "Net[" +:+ String.concat ", " (net_parts r) +:+ "]".

(** ** Reading the markers *)

(** One marker of the loop of [read_write_args]. *)
Definition read_write_marker (kind : CapabilityKind) (rw : bool * bool) (a : Ty) : bool * bool :=
  match a with
  | Named n _ =>
      match Kind.right kind n with
      | Some Read => (true, snd rw)
      | Some Write => (fst rw, true)
      | _ => rw
      end
  | _ => rw
  end.

Definition read_write_args (kind : CapabilityKind) (args : list Ty) : option (bool * bool) :=
  match args with
  | [] => None
  | _ => Some (List.fold_left (read_write_marker kind) args (false, false))
  end.

Definition console_rights (args : list Ty) : ConsoleRights :=
  match read_write_args Catalog.Console args with
  | None => console_full
  | Some (read, write) => {| console_read := read; console_write := write |}
  end.

Definition dir_rights (args : list Ty) : DirRights :=
  match read_write_args Catalog.Dir args with
  | None => dir_full
  | Some (read, write) => {| dir_read := read; dir_write := write |}
  end.

Definition file_rights (args : list Ty) : FileRights :=
  match read_write_args Catalog.File args with
  | None => file_full
  | Some (read, write) => {| file_read := read; file_write := write |}
  end.

Definition secret_marker (r : SecretRights) (a : Ty) : SecretRights :=
  match a with
  | Named n _ =>
      match Kind.right Catalog.Secret n with
      | Some Reveal => {| secret_reveal := true; secret_seal := true |}
      | Some Seal => {| secret_reveal := secret_reveal r; secret_seal := true |}
      | _ => r
      end
  | _ => r
  end.

Definition secret_rights (args : list Ty) : SecretRights :=
  match args with
  | [] => secret_full
  | _ => List.fold_left secret_marker args {| secret_reveal := false; secret_seal := false |}
  end.

(** The loop of [net_rights] with its two flags [saw_verb], [saw_transport]. *)
Record NetScan : Set := { scan_rights : NetRights; saw_verb : bool; saw_transport : bool }.

Definition net_none : NetRights :=
  {| net_connect := false; net_listen := false; net_tcp := false; net_udp := false;
     net_uds := false |}.

Definition net_marker (s : NetScan) (a : Ty) : NetScan :=
  let '{| scan_rights := {| net_connect := c; net_listen := l; net_tcp := t; net_udp := u;
                            net_uds := x |}; saw_verb := v; saw_transport := p |} := s in
  let upd c l t u x v p :=
    {| scan_rights := {| net_connect := c; net_listen := l; net_tcp := t; net_udp := u;
                         net_uds := x |}; saw_verb := v; saw_transport := p |} in
  match a with
  | Named n _ =>
      match Kind.right Catalog.Net n with
      | Some Connect => upd true l t u x true p
      | Some Listen => upd c true t u x true p
      | Some Tcp => upd c l true u x v true
      | Some Udp => upd c l t true x v true
      | Some Uds => upd c l t u true v true
      | _ => s
      end
  | _ => s
  end.

Definition net_rights (args : list Ty) : NetRights :=
  match args with
  | [] => net_full
  | _ =>
      let s := List.fold_left net_marker args
                 {| scan_rights := net_none; saw_verb := false; saw_transport := false |} in
      let r := scan_rights s in
      {| net_connect := net_connect r || negb (saw_verb s);
         net_listen := net_listen r || negb (saw_verb s);
         net_tcp := net_tcp r || negb (saw_transport s);
         net_udp := net_udp r || negb (saw_transport s);
         net_uds := net_uds r || negb (saw_transport s) |}
  end.

(** ** Validation of the markers *)

Section validation.
Context (type_debug : Ty → string).

Definition valid_marker (kind : option CapabilityKind) (a : Ty) : bool :=
  match a with
  | Named m [] => match kind with
                  | Some kind => bool_decide (is_Some (Kind.right kind m))
                  | None => false
                  end
  | _ => false
  end.

Definition validate_cap_markers (cap : string) (args : list Ty) : result string unit :=
  let kind := Kind.from_name cap in
  let allowed := match kind with Some k => Kind.rights k | None => [] end in
  match List.find (λ a, negb (valid_marker kind a)) args with
  | None => Ok tt
  | Some a =>
      let found := match a with Named m _ => m | _ => type_debug a end in
      Err ("unknown `" +:+ cap +:+ "` right `" +:+ found +:+ "` — `" +:+ cap +:+ "` admits "
           +:+ String.concat ", " (map Right.name allowed))
  end.
End validation.

(** ** What the markers of a type say *)

(** The arguments carry the marker of the right [r]. *)
Definition marks (kind : CapabilityKind) (args : list Ty) (r : CapabilityRight) : Prop :=
  ∃ n l, Named n l ∈ args ∧ Kind.right kind n = Some r.

Lemma marks_nil kind r : ¬ marks kind [] r.
Proof. intros (n & l & H & _). set_solver. Qed.

Lemma marks_cons kind a args r :
  marks kind (a :: args) r ↔
  (∃ n l, a = Named n l ∧ Kind.right kind n = Some r) ∨ marks kind args r.
Proof. unfold marks. set_solver. Qed.

Ltac marker_step a kind :=
  destruct a as [n l| | | | | |]; simpl; try naive_solver;
  destruct (Kind.right kind n) as [[]|] eqn:E; simpl; naive_solver.

Lemma read_write_fold kind args rw :
  (fst (List.fold_left (read_write_marker kind) args rw) = true
     ↔ fst rw = true ∨ marks kind args Read)
  ∧ (snd (List.fold_left (read_write_marker kind) args rw) = true
     ↔ snd rw = true ∨ marks kind args Write).
Proof.
  revert rw. induction args as [|a args IH]; intros [r w]; simpl.
  { pose proof (marks_nil kind). naive_solver. }
  rewrite !marks_cons. destruct (IH (read_write_marker kind (r, w) a)) as [-> ->]. clear IH.
  marker_step a kind.
Qed.

Lemma read_write_args_spec kind args :
  match read_write_args kind args with
  | None => args = []
  | Some (r, w) => args ≠ [] ∧ (r = true ↔ marks kind args Read)
                   ∧ (w = true ↔ marks kind args Write)
  end.
Proof.
  destruct args as [|a args]; [done|]. unfold read_write_args.
  destruct (read_write_fold kind (a :: args) (false, false)) as [Hr Hw].
  destruct (List.fold_left _ _ _) as [r w]; simpl in *. naive_solver.
Qed.

Lemma secret_fold args r :
  (secret_reveal (List.fold_left secret_marker args r) = true
     ↔ secret_reveal r = true ∨ marks Catalog.Secret args Reveal)
  ∧ (secret_seal (List.fold_left secret_marker args r) = true
     ↔ secret_seal r = true ∨ marks Catalog.Secret args Reveal ∨ marks Catalog.Secret args Seal).
Proof.
  revert r. induction args as [|a args IH]; intros r; simpl.
  { pose proof (marks_nil Catalog.Secret). naive_solver. }
  rewrite !marks_cons. destruct (IH (secret_marker r a)) as [-> ->]. clear IH.
  marker_step a Catalog.Secret.
Qed.

(** [s'] is [s] with the rights of [args] added. *)
Record scan_marks (s : NetScan) (args : list Ty) (s' : NetScan) : Prop := {
  scan_connect : net_connect (scan_rights s') = true
    ↔ net_connect (scan_rights s) = true ∨ marks Catalog.Net args Connect;
  scan_listen : net_listen (scan_rights s') = true
    ↔ net_listen (scan_rights s) = true ∨ marks Catalog.Net args Listen;
  scan_tcp : net_tcp (scan_rights s') = true
    ↔ net_tcp (scan_rights s) = true ∨ marks Catalog.Net args Tcp;
  scan_udp : net_udp (scan_rights s') = true
    ↔ net_udp (scan_rights s) = true ∨ marks Catalog.Net args Udp;
  scan_uds : net_uds (scan_rights s') = true
    ↔ net_uds (scan_rights s) = true ∨ marks Catalog.Net args Uds;
  scan_verb : saw_verb s' = true
    ↔ saw_verb s = true ∨ marks Catalog.Net args Connect ∨ marks Catalog.Net args Listen;
  scan_transport : saw_transport s' = true
    ↔ saw_transport s = true ∨ marks Catalog.Net args Tcp ∨ marks Catalog.Net args Udp
      ∨ marks Catalog.Net args Uds;
}.

Lemma marks_singleton kind n l r : marks kind [Named n l] r ↔ Kind.right kind n = Some r.
Proof. rewrite marks_cons. pose proof (marks_nil kind r). naive_solver. Qed.

Lemma marks_other kind a r : (∀ n l, a ≠ Named n l) → ¬ marks kind [a] r.
Proof. rewrite marks_cons. pose proof (marks_nil kind r). naive_solver. Qed.

Lemma net_marker_scan s a : scan_marks s [a] (net_marker s a).
Proof.
  destruct s as [[c l t u x] v p].
  destruct a as [n ar| | | | | |];
    try match goal with |- scan_marks _ [?a] _ =>
      assert (∀ r, ¬ marks Catalog.Net [a] r) as Hno by (intros r; by apply marks_other);
      split; simpl; naive_solver
    end.
  split; simpl; rewrite ?marks_singleton;
    destruct (Kind.right Catalog.Net n) as [[]|]; simpl; intuition congruence.
Qed.

Lemma marks_app kind a args r : marks kind (a :: args) r ↔ marks kind [a] r ∨ marks kind args r.
Proof. rewrite (marks_cons _ a args), (marks_cons _ a []). pose proof (marks_nil kind r). tauto. Qed.

Lemma net_fold args s : scan_marks s args (List.fold_left net_marker args s).
Proof.
  revert s. induction args as [|a args IH]; intros s; simpl.
  { pose proof (marks_nil Catalog.Net). split; naive_solver. }
  specialize (IH (net_marker s a)). pose proof (net_marker_scan s a) as Ha.
  split; rewrite ?(marks_app _ a args);
    rewrite ?(scan_connect _ _ _ IH), ?(scan_listen _ _ _ IH), ?(scan_tcp _ _ _ IH),
      ?(scan_udp _ _ _ IH), ?(scan_uds _ _ _ IH), ?(scan_verb _ _ _ IH), ?(scan_transport _ _ _ IH),
      ?(scan_connect _ _ _ Ha), ?(scan_listen _ _ _ Ha), ?(scan_tcp _ _ _ Ha),
      ?(scan_udp _ _ _ Ha), ?(scan_uds _ _ _ Ha), ?(scan_verb _ _ _ Ha), ?(scan_transport _ _ _ Ha);
    tauto.
Qed.

(** ** The checker's reading and the analyzer's *)

(** The right [r] of the capability type [kind] written with [args], as the
    checker's rights record has it. *)
Definition held (kind : CapabilityKind) (args : list Ty) (r : CapabilityRight) : bool :=
  match kind, r with
  | Catalog.Console, Read => console_read (console_rights args)
  | Catalog.Console, Write => console_write (console_rights args)
  | Catalog.Dir, Read => dir_read (dir_rights args)
  | Catalog.Dir, Write => dir_write (dir_rights args)
  | Catalog.File, Read => file_read (file_rights args)
  | Catalog.File, Write => file_write (file_rights args)
  | Catalog.Secret, Reveal => secret_reveal (secret_rights args)
  | Catalog.Secret, Seal => secret_seal (secret_rights args)
  | Catalog.Net, Connect => net_connect (net_rights args)
  | Catalog.Net, Listen => net_listen (net_rights args)
  | Catalog.Net, Tcp => net_tcp (net_rights args)
  | Catalog.Net, Udp => net_udp (net_rights args)
  | Catalog.Net, Uds => net_uds (net_rights args)
  | _, _ => false
  end.

Lemma marked_rights_marks kind args r :
  Right.name r ∈ marked_rights (Kind.name kind) args ↔ marks kind args r.
Proof.
  unfold marked_rights.
  assert (∀ acc, Right.name r ∈ List.fold_left (λ (s : Rights) a,
      match a with
      | Named n _ => match right_marker (Kind.name kind) n with Some m => {[m]} ∪ s | None => s end
      | _ => s
      end) args acc ↔ Right.name r ∈ acc ∨ marks kind args r) as H.
  { induction args as [|a args IH]; intros acc; simpl.
    - pose proof (marks_nil kind r). naive_solver.
    - rewrite IH, (marks_app _ a args).
      destruct a as [n l| | | | | |];
        try (rewrite (marks_cons _ _ []); pose proof (marks_nil kind r); naive_solver).
      rewrite marks_singleton. unfold right_marker. rewrite Kind.from_name_name. simpl.
      destruct (Kind.right kind n) as [r'|]; simpl; [|naive_solver].
      rewrite elem_of_union, elem_of_singleton. split; intros Hm.
      + destruct Hm as [[Hm%Right.name_inj|Hm]|Hm]; subst; auto.
      + destruct Hm as [Hm|[[= ->]|Hm]]; auto. }
  rewrite H. set_solver.
Qed.

Lemma default_axis_elem axis s r :
  Right.name r ∈ default_axis axis s
  ↔ Right.name r ∈ s ∨ r ∈ axis ∧ Forall (λ r', Right.name r' ∉ s) axis.
Proof.
  unfold default_axis. destruct (existsb _ axis) eqn:E; simpl.
  - apply existsb_exists in E as (r' & Hin%list_elem_of_In & Hr'%bool_decide_eq_true_1).
    split; [auto|]. intros [?|[_ Hall]]; [done|]. by rewrite list.Forall_forall in Hall; edestruct Hall.
  - rewrite elem_of_union. unfold right_names. rewrite elem_of_list_to_set, list_elem_of_fmap.
    assert (Forall (λ r', Right.name r' ∉ s) axis) as Hall.
    { rewrite list.Forall_forall. intros r' Hin Hr'.
      assert (existsb (λ rt, bool_decide (Right.name rt ∈ s)) axis = true); [|congruence].
      apply existsb_exists. exists r'. split; [by apply list_elem_of_In|by apply bool_decide_eq_true_2]. }
    split.
    + intros [?|(r' & <-%Right.name_inj & ?)]; auto.
    + intros [?|[? _]]; [auto|right; eauto].
Qed.

(** No marker of [args] is on [axis]. *)
Definition unmentioned (args : list Ty) (axis : list CapabilityRight) : Prop :=
  Forall (λ r, ¬ marks Catalog.Net args r) axis.

(** The rights a non-empty marker list selects: those it names, and every
    right of a [Net] axis it does not mention. *)
Definition selects (kind : CapabilityKind) (args : list Ty) (r : CapabilityRight) : Prop :=
  marks kind args r
  ∨ kind = Catalog.Net
    ∧ (r ∈ NET_VERB_RIGHTS ∧ unmentioned args NET_VERB_RIGHTS
       ∨ r ∈ NET_TRANSPORT_RIGHTS ∧ unmentioned args NET_TRANSPORT_RIGHTS).

Lemma elem_of_full_rights kind r : Right.name r ∈ full_rights (Kind.name kind) ↔ r ∈ Kind.rights kind.
Proof.
  unfold full_rights, right_names. rewrite Kind.from_name_name, elem_of_list_to_set, list_elem_of_fmap.
  split; [intros (r' & ->%Right.name_inj & ?); done|eauto].
Qed.

Lemma kind_name_net kind : Kind.name kind = "Net" ↔ kind = Catalog.Net.
Proof. split; [by destruct kind|by intros ->]. Qed.

Lemma rights_from_args_elem kind args r :
  Right.name r ∈ rights_from_args (Kind.name kind) args
  ↔ args = [] ∧ r ∈ Kind.rights kind ∨ args ≠ [] ∧ selects kind args r.
Proof.
  destruct args as [|a args]; [simpl; rewrite elem_of_full_rights; naive_solver|].
  unfold rights_from_args, selects.
  destruct (String.eqb_spec (Kind.name kind) "Net") as [Hn|Hn].
  - apply kind_name_net in Hn as ->.
    rewrite !default_axis_elem, marked_rights_marks.
    assert (Forall (λ r', Right.name r' ∉ marked_rights (Kind.name Catalog.Net) (a :: args))
              NET_VERB_RIGHTS ↔ unmentioned (a :: args) NET_VERB_RIGHTS) as ->.
    { apply Forall_iff. intros r'. by rewrite marked_rights_marks. }
    assert (Forall (λ r', Right.name r' ∉ default_axis NET_VERB_RIGHTS
                (marked_rights (Kind.name Catalog.Net) (a :: args))) NET_TRANSPORT_RIGHTS
              ↔ unmentioned (a :: args) NET_TRANSPORT_RIGHTS) as ->.
    { unfold unmentioned, NET_TRANSPORT_RIGHTS. rewrite !list.Forall_cons, !list.Forall_nil.
      rewrite !default_axis_elem, !marked_rights_marks.
      assert (∀ r', r' ∈ [Tcp; Udp; Uds] → r' ∉ NET_VERB_RIGHTS).
      { unfold NET_VERB_RIGHTS. set_solver. }
      set_solver. }
    naive_solver.
  - rewrite marked_rights_marks. rewrite kind_name_net in Hn. naive_solver.
Qed.

Lemma marks_rights kind args r : marks kind args r → r ∈ Kind.rights kind.
Proof. intros (n & l & _ & [H _]%find_some). by apply list_elem_of_In. Qed.

Lemma held_nil kind r : held kind [] r = true ↔ r ∈ Kind.rights kind.
Proof.
  rewrite <- (bool_decide_eq_true (r ∈ Kind.rights kind)). by destruct kind, r.
Qed.

Lemma not_held_off_catalog kind args r : held kind args r = true → r ∈ Kind.rights kind.
Proof.
  intros H. rewrite <- (bool_decide_eq_true (r ∈ Kind.rights kind)). revert H. by destruct kind, r.
Qed.

Lemma selects_rights kind args r : selects kind args r → r ∈ Kind.rights kind.
Proof.
  intros [?%marks_rights|(-> & [[H _]|[H _]])]; [done| |];
    revert H; unfold NET_VERB_RIGHTS, NET_TRANSPORT_RIGHTS; simpl; unfold NET_RIGHTS; set_solver.
Qed.

Lemma selects_plain kind args r : kind ≠ Catalog.Net → selects kind args r ↔ marks kind args r.
Proof. unfold selects. naive_solver. Qed.

(** The rights of a two-right capability with markers. *)
Lemma read_write_held kind args r :
  args ≠ [] → kind ∈ [Catalog.Console; Catalog.Dir; Catalog.File] → r ∈ READ_WRITE_RIGHTS →
  held kind args r = true ↔ marks kind args r.
Proof.
  intros Hne Hk Hr. pose proof (read_write_args_spec kind args) as H.
  apply list_elem_of_In in Hk as [<-|[<-|[<-|[]]]]; simpl; unfold console_rights, dir_rights, file_rights;
    destruct (read_write_args _ args) as [[rd wr]|]; try done;
    apply list_elem_of_In in Hr as [<-|[<-|[]]]; simpl; naive_solver.
Qed.

Lemma secret_held args r :
  args ≠ [] → r ∈ SECRET_RIGHTS →
  held Catalog.Secret args r = true
  ↔ marks Catalog.Secret args r ∨ r = Seal ∧ marks Catalog.Secret args Reveal.
Proof.
  intros Hne Hr.
  destruct args as [|a args]; [done|].
  pose proof (secret_fold (a :: args) {| secret_reveal := false; secret_seal := false |}) as [H1 H2].
  apply list_elem_of_In in Hr as [<-|[<-|[]]]; unfold held, secret_rights; rewrite ?H1, ?H2; simpl; naive_solver.
Qed.

Lemma unmentioned_scan args s :
  scan_marks {| scan_rights := net_none; saw_verb := false; saw_transport := false |} args s →
  (unmentioned args NET_VERB_RIGHTS ↔ saw_verb s = false)
  ∧ (unmentioned args NET_TRANSPORT_RIGHTS ↔ saw_transport s = false).
Proof.
  intros H. unfold unmentioned, NET_VERB_RIGHTS, NET_TRANSPORT_RIGHTS.
  rewrite <- !not_true_iff_false, (scan_verb _ _ _ H), (scan_transport _ _ _ H).
  rewrite !list.Forall_cons, !list.Forall_nil. simpl. naive_solver.
Qed.

Lemma net_held args r :
  args ≠ [] → r ∈ NET_RIGHTS → held Catalog.Net args r = true ↔ selects Catalog.Net args r.
Proof.
  intros Hne Hr. destruct args as [|a args]; [done|].
  pose proof (net_fold (a :: args)
    {| scan_rights := net_none; saw_verb := false; saw_transport := false |}) as H.
  destruct (unmentioned_scan _ _ H) as [Hv Ht].
  unfold selects. rewrite Hv, Ht. unfold held, net_rights.
  set (s := List.fold_left net_marker (a :: args) _) in *. clearbody s. clear Hv Ht.
  destruct H as [H1 H2 H3 H4 H5 _ _]. simpl in *.
  unfold NET_VERB_RIGHTS, NET_TRANSPORT_RIGHTS. rewrite !elem_of_cons, !elem_of_nil.
  apply list_elem_of_In in Hr as [<-|[<-|[<-|[<-|[<-|[]]]]]]; simpl; rewrite orb_true_iff, negb_true_iff;
    rewrite ?H1, ?H2, ?H3, ?H4, ?H5; clear; intuition congruence.
Qed.

(** The checker adds that [Reveal] implies [Seal]. *)
Lemma held_spec kind args r :
  held kind args r = true
  ↔ (args = [] ∧ r ∈ Kind.rights kind ∨ args ≠ [] ∧ selects kind args r)
    ∨ kind = Catalog.Secret ∧ r = Seal ∧ marks Catalog.Secret args Reveal.
Proof.
  destruct (decide (args = [])) as [->|Hne].
  { rewrite held_nil. pose proof (marks_nil Catalog.Secret Reveal). naive_solver. }
  destruct (decide (r ∈ Kind.rights kind)) as [Hr|Hr].
  - destruct (decide (kind ∈ [Catalog.Console; Catalog.Dir; Catalog.File])) as [Hk|Hk].
    { rewrite read_write_held, selects_plain; try done.
      - set_solver.
      - set_solver.
      - revert Hr. by apply list_elem_of_In in Hk as [<-|[<-|[<-|[]]]]. }
    destruct kind; try (by apply not_elem_of_nil in Hr); try (exfalso; set_solver).
    + rewrite secret_held, selects_plain by done. naive_solver.
    + rewrite net_held by done. naive_solver.
  - split.
    + by intros ?%not_held_off_catalog.
    + intros [[[_ ?]|[_ ?%selects_rights]]|(-> & -> & _)]; [done..|].
      exfalso. apply Hr. simpl. unfold SECRET_RIGHTS. set_solver.
Qed.

(** The two readings differ only in the implied [Seal]. *)
Lemma held_analyzer kind args r :
  held kind args r = true
  ↔ Right.name r ∈ rights_from_args (Kind.name kind) args
    ∨ kind = Catalog.Secret ∧ r = Seal ∧ marks Catalog.Secret args Reveal.
Proof. by rewrite held_spec, rights_from_args_elem. Qed.

Lemma find_none_forall {A} (f : A → bool) l :
  List.find f l = None ↔ Forall (λ a, f a = false) l.
Proof.
  induction l as [|a l IH]; simpl; [split; auto|].
  rewrite list.Forall_cons. destruct (f a); [split; [done|by intros [? _]]|]. rewrite IH. tauto.
Qed.

Lemma valid_marker_spec cap a :
  valid_marker (Kind.from_name cap) a = true
  ↔ ∃ kind r m, cap = Kind.name kind ∧ a = Named m [] ∧ Kind.right kind m = Some r.
Proof.
  destruct a as [m [|? ?]| | | | | |]; try (split; [done|by intros (?&?&?&?&?&?)]).
  simpl. destruct (Kind.from_name cap) as [kind|] eqn:E.
  - apply Kind.from_name_Some in E as ->. rewrite bool_decide_eq_true. split.
    + intros [r Hr]. eauto 10.
    + intros (kind' & r & m' & Hk & [= <-] & Hr).
      assert (kind = kind') as -> by (by destruct kind, kind'). eauto.
  - split; [done|]. intros (kind & r & m' & -> & _). by rewrite Kind.from_name_name in E.
Qed.

(** * Theorems *)

(** Validation is exact: a marker list passes precisely when every
    marker is an argument-less name of a right of that capability.  A list
    that passes never denotes an empty set of rights, and the empty brackets
    [Dir[]], which pass and which the comment on the validation calls "no
    rights", denote every right of the capability. *)
Theorem validated_markers_rights type_debug kind args :
  let ok := validate_cap_markers type_debug (Kind.name kind) args in
  (ok = Ok tt ↔ Forall (λ a, ∃ m r, a = Named m [] ∧ Kind.right kind m = Some r) args)
  ∧ (ok = Ok tt → Kind.rights kind ≠ [] → ∃ r, held kind args r = true)
  ∧ (args = [] → ok = Ok tt ∧ ∀ r, r ∈ Kind.rights kind → held kind args r = true).
Proof.
  intros ok.
  assert (ok = Ok tt ↔ Forall (λ a, ∃ m r, a = Named m [] ∧ Kind.right kind m = Some r) args) as Hok.
  { subst ok. unfold validate_cap_markers.
    transitivity (List.find (λ a, negb (valid_marker (Kind.from_name (Kind.name kind)) a)) args = None).
    { destruct (List.find _ args); naive_solver. }
    rewrite find_none_forall. apply Forall_iff. intros a.
    rewrite negb_false_iff, valid_marker_spec. split.
    - intros (kind' & r & m & Hk & -> & Hr).
      assert (kind = kind') as -> by (by destruct kind, kind'). eauto.
    - intros (m & r & -> & Hr). eauto 10. }
  split_and!; [done| |].
  - intros Hall%Hok Hne. destruct args as [|a args].
    + destruct (Kind.rights kind) as [|r l] eqn:E; [done|].
      exists r. apply held_nil. rewrite E. set_solver.
    + apply Forall_cons_1 in Hall as [(m & r & -> & Hr) _].
      exists r. apply held_spec. left. right. split; [done|]. left. exists m, []. set_solver.
  - intros ->. split; [done|]. intros r. apply held_nil.
Qed.

Lemma validated_markers_rights_witness :
  (∃ r, held Catalog.Dir [Named "Read" []] r = true)
  ∧ (validate_cap_markers (λ _, "") "Dir" [] = Ok tt
     ∧ ∀ r, r ∈ Kind.rights Catalog.Dir → held Catalog.Dir [] r = true).
Proof.
  split.
  - apply (validated_markers_rights (λ _, "") Catalog.Dir [Named "Read" []]); [by vm_compute|done].
  - by apply (validated_markers_rights (λ _, "") Catalog.Dir []).
Defined.
