(* ===== verification/Types.v ===== *)
(** * Types: the checker's type representation

    Models [crates/witchy-types/src/typeck/ty.rs]: the enum [Ty] the checker
    infers over, its rendering in diagnostics and the renaming of the
    lifetime markers of callables.  The second half of the file is the
    structure theory the unifier's proofs use: every type is a variable or a
    head over a list of children ([children], [map_children]), with an
    induction principle, a size and a set of variables stated on that view. *)

From S2P Require Import Prelude Text Footprint CapRights.

Local Open Scope string_scope.

Module Ty.

(** The derived [PartialEq] compares structurally; [Rc] is transparent. *)
Inductive t : Set :=
  | Int | Float | Duration | String | Bytes | Msg | Bool | Unit
  | Console (rights : ConsoleRights)
  | Clock | Rand | Env
  | Secret (rights : SecretRights)
  | Exec | Fetch
  | Dir (rights : DirRights)
  | File (rights : FileRights)
  | Net (rights : NetRights)
  | Socket | Listener
  | BuildOut | BuildRead | BuildEnv | BuildNet | BuildExec
  | List (element : t)
  | Tuple (items : list t)
  | Named (name : string) (args : list t)
  | Dyn (trait_name : string) (args : list t)
  | Fn (params : list t) (ret : t) (conventions : list Convention)
       (reference_params : list bool) (qualifiers : CallableQualifiers)
  | View (payload : t)
  | Var (v : N).

End Ty.

Abbreviation Ty := Ty.t.

#[export] Instance Convention_eq_dec : EqDecision Convention.
Proof. solve_decision. Defined.
#[export] Instance CallableQualifiers_eq_dec : EqDecision CallableQualifiers.
Proof. solve_decision. Defined.

#[export] Instance Ty_eq_dec : EqDecision Ty.
Proof.
  unfold RelDecision. fix go 1. intros a b.
  pose (gol := fix gol (l k : list Ty) {struct l} : Decision (l = k) :=
    match l, k with
    | [], [] => left eq_refl
    | x :: l, y :: k =>
        match go x y, gol l k with
        | left H1, left H2 => left (f_equal2 cons H1 H2)
        | right H1, _ => right (λ E : x :: l = y :: k, H1 (inj Some _ _ (f_equal (@hd_error _) E)))
        | _, right H2 => right (λ E : x :: l = y :: k, H2 (f_equal (@List.tl _) E))
        end
    | [], _ :: _ => right (@List.nil_cons _ _ _)
    | _ :: _, [] => right (λ E, List.nil_cons (eq_sym E))
    end).
  destruct a, b; try (right; discriminate); try (left; reflexivity);
    try match goal with
    | |- Decision (Ty.Fn ?p ?r ?c ?f ?q = Ty.Fn ?p' ?r' ?c' ?f' ?q') =>
        destruct (gol p p'); [|right; congruence]; destruct (go r r'); [|right; congruence];
        destruct (decide (c = c')); [|right; congruence];
        destruct (decide (f = f')); [|right; congruence];
        destruct (decide (q = q')); [|right; congruence]; left; congruence
    | |- Decision (?C ?n ?l = ?C ?n' ?l') =>
        destruct (decide (n = n')); [|right; congruence];
        destruct (gol l l'); [left; congruence|right; congruence]
    | l : list Ty, k : list Ty |- _ => destruct (gol l k); [left; congruence|right; congruence]
    | x : Ty, y : Ty |- Decision (?C ?x = ?C ?y) =>
        destruct (go x y); [left; congruence|right; congruence]
    | |- Decision (?C ?x = ?C ?y) =>
        destruct (decide (x = y)); [left; congruence|right; congruence]
    end.
Defined.

(** ** [Display] *)

Definition show_convention (c : Convention) : string :=
  match c with
  | Footprint.Let => ""
  | Footprint.Borrow => "let "
  | Footprint.Var => "var "
  | Footprint.Own => "own "
  end.

Section show.
Context (show : Ty → string).

(** The [", "]-separated loops over elements; in a callable the i-th
    parameter is prefixed by its convention, [Let] where there is none. *)
Definition show_list : list Ty → string :=
  fix go ts := match ts with
  | [] => ""
  | [t] => show t
  | t :: ts => show t +:+ ", " +:+ go ts
  end.

Definition show_params : list Convention → list Ty → string :=
  fix go conventions ts := match ts with
  | [] => ""
  | [t] => show_convention (default Footprint.Let (head conventions)) +:+ show t
  | t :: ts => show_convention (default Footprint.Let (head conventions)) +:+ show t +:+ ", "
               +:+ go (tail conventions) ts
  end.

Definition show_args (args : list Ty) : string :=
  match args with [] => "" | _ => "(" +:+ show_list args +:+ ")" end.
End show.

Fixpoint show_ty (t : Ty) : string :=
  match t with
  | Ty.Int => "Int" | Ty.Float => "Float" | Ty.Duration => "Duration" | Ty.String => "String"
  | Ty.Bytes => "Bytes" | Ty.Msg => "__Msg" | Ty.Bool => "Bool" | Ty.Unit => "()"
  | Ty.Console r => show_console r
  | Ty.Clock => "Clock" | Ty.Rand => "Rand" | Ty.Env => "Env"
  | Ty.Secret r => show_secret r
  | Ty.Exec => "Exec" | Ty.Fetch => "Fetch"
  | Ty.Dir r => show_dir r
  | Ty.File r => show_file r
  | Ty.Net r => show_net r
  | Ty.Socket => "Socket" | Ty.Listener => "Listener"
  | Ty.BuildOut => "BuildOut" | Ty.BuildRead => "BuildRead" | Ty.BuildEnv => "BuildEnv"
  | Ty.BuildNet => "BuildNet" | Ty.BuildExec => "BuildExec"
  | Ty.List e => "List(" +:+ show_ty e +:+ ")"
  | Ty.Tuple ts => "(" +:+ show_list show_ty ts +:+ ")"
  | Ty.Named n args =>
      match args with
      | [a] => if String.eqb n "Slice" then "&[" +:+ show_ty a +:+ "]"
               else n +:+ show_args show_ty args
      | _ => n +:+ show_args show_ty args
      end
  | Ty.Dyn n args => "dyn " +:+ n +:+ show_args show_ty args
  | Ty.Fn ps r conventions _ q =>
      (if pure q then "pure " else "") +:+ (if once q then "once " else "") +:+ "fn("
      +:+ show_params show_ty conventions ps +:+ ") -> " +:+ show_ty r
  | Ty.View p => "&" +:+ show_ty p
  | Ty.Var _ => "?"
  end.

(** ** Lifetime markers of callables *)

Abbreviation Markers := (gmap string string).

Definition is_marker (name : string) : bool := starts_with "'" name.

(** The branch of [collect_callable_lifetime_markers] that records a name. *)
Definition record_marker (name : string) (markers : Markers) : Markers :=
  if is_marker name && negb (bool_decide (is_Some (markers !! name)))
  then <[name := "'__witchy_bound_" +:+ show_N (N.of_nat (size markers))]> markers
  else markers.

Fixpoint collect_callable_lifetime_markers (ty : Ty) (markers : Markers) : Markers :=
  match ty with
  | Ty.List element => collect_callable_lifetime_markers element markers
  | Ty.View payload => collect_callable_lifetime_markers payload markers
  | Ty.Named name [] => record_marker name markers
  | Ty.Tuple items | Ty.Named _ items | Ty.Dyn _ items =>
      List.fold_left (λ m item, collect_callable_lifetime_markers item m) items markers
  | _ => markers
  end.

Definition collect_params (parameters : list Ty) : Markers :=
  List.fold_left (λ m p, collect_callable_lifetime_markers p m) parameters ∅.

Fixpoint normalize_callable_lifetime_markers (ty : Ty) (markers : Markers) : Ty :=
  let each ts m := List.map (λ item, normalize_callable_lifetime_markers item m) ts in
  match ty with
  | Ty.List element => Ty.List (normalize_callable_lifetime_markers element markers)
  | Ty.View payload => Ty.View (normalize_callable_lifetime_markers payload markers)
  | Ty.Tuple items => Ty.Tuple (each items markers)
  | Ty.Named name arguments =>
      match arguments, markers !! name with
      | [], Some canonical => Ty.Named canonical []
      | _, _ => Ty.Named name (each arguments markers)
      end
  | Ty.Dyn name arguments => Ty.Dyn name (each arguments markers)
  | Ty.Fn parameters result conventions reference_params qualifiers =>
      (* [alpha_normalize_callable] of the nested callable *)
      let own := collect_params parameters in
      Ty.Fn (each parameters own) (normalize_callable_lifetime_markers result own)
        conventions reference_params qualifiers
  | other => other
  end.

Definition alpha_normalize_callable (parameters : list Ty) (result : Ty) : list Ty * Ty :=
  let markers := collect_params parameters in
  (List.map (λ p, normalize_callable_lifetime_markers p markers) parameters,
   normalize_callable_lifetime_markers result markers).

(** ** Types as heads over children *)

Definition children (t : Ty) : list Ty :=
  match t with
  | Ty.List e | Ty.View e => [e]
  | Ty.Tuple ts | Ty.Named _ ts | Ty.Dyn _ ts => ts
  | Ty.Fn ps r _ _ _ => (ps ++ [r])%list
  | _ => []
  end.

Definition map_children (f : Ty → Ty) (t : Ty) : Ty :=
  match t with
  | Ty.List e => Ty.List (f e)
  | Ty.View e => Ty.View (f e)
  | Ty.Tuple ts => Ty.Tuple (List.map f ts)
  | Ty.Named n ts => Ty.Named n (List.map f ts)
  | Ty.Dyn n ts => Ty.Dyn n (List.map f ts)
  | Ty.Fn ps r c rf q => Ty.Fn (List.map f ps) (f r) c rf q
  | _ => t
  end.

Definition is_var (t : Ty) : bool := match t with Ty.Var _ => true | _ => false end.

Lemma ty_nested_ind (P : Ty → Prop) :
  (∀ v, P (Ty.Var v)) →
  (∀ t, is_var t = false → Forall P (children t) → P t) →
  ∀ t, P t.
Proof.
  intros Hvar Hnode. fix go 1. intros t.
  assert (gol : ∀ l : list Ty, Forall P l).
  { fix gol 1. intros [|x l]; constructor; [apply go|apply gol]. }
  destruct t; try (apply Hnode; [reflexivity|simpl]);
    [constructor..|repeat constructor; apply go|apply gol|apply gol|apply gol| |
     repeat constructor; apply go|apply Hvar].
  apply Forall_app_2; [apply gol|repeat constructor; apply go].
Qed.

Lemma map_children_ext f g t : Forall (λ u, f u = g u) (children t) → map_children f t = map_children g t.
Proof.
  destruct t; simpl; rewrite ?Forall_app, ?list.Forall_cons; try done;
    intros H; f_equal; try tauto; try (apply map_ext_Forall; tauto).
Qed.

Lemma map_children_comp f g t : map_children f (map_children g t) = map_children (λ u, f (g u)) t.
Proof. destruct t; simpl; f_equal; auto; apply map_map. Qed.

Lemma children_map f t : children (map_children f t) = List.map f (children t).
Proof. destruct t; simpl; try done. by rewrite map_app. Qed.

Lemma map_children_id f t : Forall (λ u, f u = u) (children t) → map_children f t = t.
Proof.
  intros H. rewrite (map_children_ext f id) by done. clear H.
  destruct t; simpl; f_equal; apply map_id.
Qed.

Lemma map_children_id_inv f t : map_children f t = t → Forall (λ u, f u = u) (children t).
Proof.
  assert (∀ l, List.map f l = l → Forall (λ u, f u = u) l) as Hl.
  { induction l as [|x l IH]; simpl; [done|]. intros [= Hx Hl]. constructor; auto. }
  intros E. apply Hl. by rewrite <- children_map, E.
Qed.

Lemma is_var_map f t : is_var t = false → is_var (map_children f t) = false.
Proof. by destruct t. Qed.

(** *** Variables and size *)

Fixpoint ty_vars (t : Ty) : gset N :=
  match t with
  | Ty.Var v => {[v]}
  | Ty.List e | Ty.View e => ty_vars e
  | Ty.Tuple ts | Ty.Named _ ts | Ty.Dyn _ ts => ⋃ (List.map ty_vars ts)
  | Ty.Fn ps r _ _ _ => ⋃ (List.map ty_vars ps) ∪ ty_vars r
  | _ => ∅
  end.

Definition sum_size (f : Ty → nat) (ts : list Ty) : nat := foldr (λ t n, f t + n)%nat 0%nat ts.

Fixpoint ty_size (t : Ty) : nat :=
  match t with
  | Ty.List e | Ty.View e => S (ty_size e)
  | Ty.Tuple ts | Ty.Named _ ts | Ty.Dyn _ ts => S (sum_size ty_size ts)
  | Ty.Fn ps r _ _ _ => S (sum_size ty_size ps + ty_size r)
  | _ => 1
  end.

Lemma ty_vars_children t v :
  is_var t = false → v ∈ ty_vars t ↔ Exists (λ u, v ∈ ty_vars u) (children t).
Proof.
  assert (∀ l, v ∈ ⋃ List.map ty_vars l ↔ Exists (λ u, v ∈ ty_vars u) l) as Hl.
  { induction l as [|x l IH]; simpl.
    - rewrite Exists_nil. set_solver.
    - rewrite Exists_cons, <- IH. set_solver. }
  destruct t; simpl; intros; rewrite ?Exists_app, ?Exists_cons, ?Exists_nil; try done;
    rewrite ?elem_of_union, ?Hl; set_solver.
Qed.

Lemma ty_size_children t : ty_size t = S (sum_size ty_size (children t)).
Proof.
  destruct t; simpl; try done; try lia.
  f_equal. induction params as [|p ps IH]; simpl; lia.
Qed.

Lemma sum_size_elem f t ts : t ∈ ts → (f t ≤ sum_size f ts)%nat.
Proof. induction 1; simpl; lia. Qed.

Lemma child_smaller u t : u ∈ children t → (ty_size u < ty_size t)%nat.
Proof. intros H. rewrite (ty_size_children t). apply (sum_size_elem ty_size) in H. lia. Qed.

Lemma ty_vars_child u t : u ∈ children t → ty_vars u ⊆ ty_vars t.
Proof.
  intros Hu v Hv. destruct (is_var t) eqn:E; [by destruct t; set_solver|].
  apply ty_vars_children; [done|]. apply list.Exists_exists. eauto.
Qed.

#[export] Hint Resolve child_smaller ty_vars_child : witchy.

(** *** Renaming lifetime markers keeps the structure *)

(** The children [unify] descends into: those of a callable after its
    lifetime markers are renamed. *)
Definition alpha_children (t : Ty) : list Ty :=
  match t with
  | Ty.Fn ps r _ _ _ =>
      let '(ps', r') := alpha_normalize_callable ps r in (ps' ++ [r'])%list
  | _ => children t
  end.

Lemma normalize_shape t m :
  (∃ n c, t = Ty.Named n [] ∧ normalize_callable_lifetime_markers t m = Ty.Named c [])
  ∨ ∃ m', normalize_callable_lifetime_markers t m
          = map_children (λ u, normalize_callable_lifetime_markers u m') t.
Proof.
  destruct t; try (right; exists m; reflexivity);
    [|right; exists (collect_params params); reflexivity].
  simpl. destruct args as [|a args].
  - destruct (m !! name) as [c|]; [left; eauto|right]. by exists m.
  - right. by exists m.
Qed.

Lemma normalize_size t m : ty_size (normalize_callable_lifetime_markers t m) = ty_size t.
Proof.
  revert m. induction t as [v|t Hv IH] using ty_nested_ind; intros m; [done|].
  destruct (normalize_shape t m) as [(n & c & -> & ->)|[m' ->]]; [done|].
  rewrite !ty_size_children, children_map. f_equal. clear Hv.
  induction IH as [|u l Hu IH IHl]; simpl; [done|]. by rewrite Hu, IHl.
Qed.

Lemma normalize_vars t m : ty_vars (normalize_callable_lifetime_markers t m) = ty_vars t.
Proof.
  revert m. induction t as [v|t Hv IH] using ty_nested_ind; intros m; [done|].
  destruct (normalize_shape t m) as [(n & c & -> & ->)|[m' ->]]; [done|].
  apply set_eq. intros v. rewrite !ty_vars_children, children_map by (by rewrite ?is_var_map).
  clear Hv. induction IH as [|u l Hu IH IHl]; simpl; [by rewrite !Exists_nil|].
  by rewrite !Exists_cons, Hu, IHl.
Qed.

Lemma alpha_children_spec t :
  Forall2 (λ u u', ty_size u' = ty_size u ∧ ty_vars u' = ty_vars u) (children t) (alpha_children t).
Proof.
  assert (∀ l, Forall2 (λ u u', ty_size u' = ty_size u ∧ ty_vars u' = ty_vars u) l l) as Hrefl.
  { intros l. induction l; constructor; auto. }
  destruct t; try apply Hrefl. simpl. apply Forall2_app.
  - generalize (collect_params params) as m. intros m.
    induction params as [|p ps IH]; simpl; constructor; auto using normalize_size, normalize_vars.
  - constructor; [|constructor]. auto using normalize_size, normalize_vars.
Qed.

(** No lifetime marker occurs in the type. *)
Fixpoint marker_free (t : Ty) : bool :=
  match t with
  | Ty.Named n [] => negb (is_marker n)
  | Ty.List e | Ty.View e => marker_free e
  | Ty.Tuple ts | Ty.Named _ ts | Ty.Dyn _ ts => forallb marker_free ts
  | Ty.Fn ps r _ _ _ => forallb marker_free ps && marker_free r
  | _ => true
  end.

Lemma marker_free_children t :
  marker_free t = true → Forall (λ u, marker_free u = true) (children t).
Proof.
  destruct t as [| | | | | | | | | | | | | | | | | | | | | | | | |e|ts|n [|a args]|n ts|ps r c rf q|e|v];
    simpl; try (intros; by repeat constructor);
    rewrite ?andb_true_iff, ?forallb_True, ?Forall_app, ?list.Forall_cons; auto.
  - rewrite forallb_forall, list.Forall_forall. setoid_rewrite list_elem_of_In. auto.
  - rewrite forallb_forall. intros [Ha Hl]. constructor; [done|].
    rewrite list.Forall_forall. setoid_rewrite list_elem_of_In. auto.
  - rewrite forallb_forall, list.Forall_forall. setoid_rewrite list_elem_of_In. auto.
  - rewrite forallb_forall. intros [Hl Ha]. split; [|auto].
    rewrite list.Forall_forall. setoid_rewrite list_elem_of_In. auto.
Qed.

Definition only_markers (m : Markers) : Prop := ∀ k, is_Some (m !! k) → is_marker k = true.

Lemma record_marker_only n m : only_markers m → only_markers (record_marker n m).
Proof.
  intros H k. unfold record_marker. destruct (is_marker n) eqn:E; simpl; [|auto].
  destruct (bool_decide _); simpl; [auto|].
  destruct (decide (n = k)) as [<-|Hk]; [done|]. rewrite lookup_insert_ne by done. auto.
Qed.

Lemma collect_only t m : only_markers m → only_markers (collect_callable_lifetime_markers t m).
Proof.
  revert m. induction t as [v|t Hv IH] using ty_nested_ind; intros m Hm; [done|].
  assert (∀ l m, Forall (λ t, ∀ m, only_markers m → only_markers (collect_callable_lifetime_markers t m)) l →
    only_markers m → only_markers (List.fold_left (λ m item, collect_callable_lifetime_markers item m) l m))
    as Hl.
  { intros l. induction l as [|x l IHl]; intros m' Hall Hm'; simpl; [done|].
    apply Forall_cons_1 in Hall as [Hx Hall]. auto. }
  destruct t as [| | | | | | | | | | | | | | | | | | | | | | | | |e|ts|n [|a args]|n ts|ps r c rf q|e|v];
    try done; simpl in *; try (by apply Hl); try (apply Forall_cons_1 in IH as [IH _]; by apply IH).
  - by apply record_marker_only.
  - apply (Hl (a :: args)); done.
Qed.

Lemma collect_params_only ps : only_markers (collect_params ps).
Proof.
  unfold collect_params. assert (only_markers ∅) as H0.
  { intros k [? Hk]. by rewrite lookup_empty in Hk. }
  revert H0. generalize (∅ : Markers). induction ps as [|p ps IH]; simpl; [done|].
  intros m Hm. apply IH. by apply collect_only.
Qed.

Lemma normalize_marker_free t m :
  only_markers m → marker_free t = true → normalize_callable_lifetime_markers t m = t.
Proof.
  revert m. induction t as [v|t Hv IH] using ty_nested_ind; intros m Hm Ht; [done|].
  pose proof (marker_free_children t Ht) as Hc.
  assert (∀ m', only_markers m' →
    map_children (λ u, normalize_callable_lifetime_markers u m') t = t) as Hmap.
  { intros m' Hm'. apply map_children_id. rewrite list.Forall_forall in *. auto. }
  destruct t; try done; try (by apply Hmap).
  - simpl in *. destruct args as [|a args]; [|by apply Hmap].
    destruct (m !! name) eqn:E; [|done].
    by rewrite (Hm name) in Ht by eauto.
  - apply (Hmap (collect_params params)), collect_params_only.
Qed.

Lemma alpha_children_marker_free t : marker_free t = true → alpha_children t = children t.
Proof.
  destruct t; try done. intros H%marker_free_children. simpl in *.
  apply Forall_app in H as [Hp [Hr _]%Forall_cons_1].
  rewrite (normalize_marker_free t) by auto using collect_params_only. f_equal.
  transitivity (List.map id params); [|apply map_id]. apply map_ext_Forall.
  apply (list.Forall_impl _ _ _ Hp). intros p Hpf.
  apply normalize_marker_free; [apply collect_params_only|done].
Qed.
