(* ===== verification/Substitution.v ===== *)
(** * Substitution: the theory of the checker's substitution

    The reference semantics of [Checker::resolve]: a substitution is a finite
    map from variables to types, kept triangular (a binding may mention
    variables that are bound too), and [res] applies it until nothing
    changes.  [acyclic] is the invariant that makes this end, [canon] the
    equality of types unification works up to. *)

From S2P Require Import Prelude Text Footprint CapRights Types.


(** ** Instances *)

Fixpoint inst (θ : N → Ty) (t : Ty) : Ty :=
  match t with
  | Ty.Var v => θ v
  | Ty.List e => Ty.List (inst θ e)
  | Ty.View e => Ty.View (inst θ e)
  | Ty.Tuple ts => Ty.Tuple (List.map (inst θ) ts)
  | Ty.Named n ts => Ty.Named n (List.map (inst θ) ts)
  | Ty.Dyn n ts => Ty.Dyn n (List.map (inst θ) ts)
  | Ty.Fn ps r c rf q => Ty.Fn (List.map (inst θ) ps) (inst θ r) c rf q
  | _ => t
  end.

Lemma inst_node θ t : is_var t = false → inst θ t = map_children (inst θ) t.
Proof. by destruct t. Qed.

Lemma inst_ext θ θ' t : (∀ v, v ∈ ty_vars t → θ v = θ' v) → inst θ t = inst θ' t.
Proof.
  induction t as [v|t Hv IH] using ty_nested_ind; intros H; [apply H; set_solver|].
  rewrite !inst_node by done. apply map_children_ext. rewrite list.Forall_forall in *.
  intros u Hu. apply IH; [done|]. intros v Hin. apply H. by apply (ty_vars_child u t).
Qed.

Lemma inst_id t : inst Ty.Var t = t.
Proof.
  induction t as [v|t Hv IH] using ty_nested_ind; [done|].
  rewrite inst_node by done. by apply map_children_id.
Qed.

Lemma inst_comp θ η t : inst θ (inst η t) = inst (λ v, inst θ (η v)) t.
Proof.
  induction t as [v|t Hv IH] using ty_nested_ind; [done|].
  rewrite (inst_node η), (inst_node _ (map_children _ _)), (inst_node _ t), map_children_comp
    by (by rewrite ?is_var_map).
  by apply map_children_ext.
Qed.

Lemma inst_fixed θ t : (∀ v, v ∈ ty_vars t → θ v = Ty.Var v) → inst θ t = t.
Proof. intros H. by rewrite (inst_ext _ Ty.Var), inst_id. Qed.

Lemma inst_vars θ t w : w ∈ ty_vars (inst θ t) ↔ ∃ v, v ∈ ty_vars t ∧ w ∈ ty_vars (θ v).
Proof.
  induction t as [v|t Hv IH] using ty_nested_ind; [set_solver|].
  rewrite inst_node, ty_vars_children, children_map by (by rewrite ?is_var_map).
  assert (∀ v, v ∈ ty_vars t ↔ Exists (λ u, v ∈ ty_vars u) (children t)) as Hc
    by (intros v; by apply ty_vars_children).
  setoid_rewrite Hc. setoid_rewrite list.Exists_exists.
  rewrite list.Forall_forall in IH. split.
  - intros (u' & (u & <- & Hu%list_elem_of_In)%list_elem_of_In%in_map_iff & Hw).
    apply IH in Hw as (v & ? & ?); eauto.
  - intros (v & (u & Hu & ?) & ?). exists (inst θ u).
    split; [apply list_elem_of_In, in_map, list_elem_of_In, Hu|]. apply IH; eauto.
Qed.

Lemma inst_size θ t v : v ∈ ty_vars t → (ty_size (θ v) ≤ ty_size (inst θ t))%nat.
Proof.
  induction t as [w|t Hv IH] using ty_nested_ind; intros Hin.
  { simpl in Hin. apply elem_of_singleton in Hin as ->. done. }
  apply ty_vars_children in Hin as (u & Hu & Hin)%list.Exists_exists; [|done].
  rewrite list.Forall_forall in IH. specialize (IH u Hu Hin).
  assert (inst θ u ∈ children (inst θ t)) as Hc.
  { rewrite (inst_node θ t), children_map by done. apply list_elem_of_In, in_map, list_elem_of_In, Hu. }
  apply child_smaller in Hc. lia.
Qed.

(** ** One pass and the fixed point *)

Abbreviation Subst := (gmap N Ty).

Definition lookup_var (s : Subst) (v : N) : Ty := default (Ty.Var v) (s !! v).
Definition res (s : Subst) (t : Ty) : Ty := Nat.iter (size s) (inst (lookup_var s)) t.

(** Every variable has a height above the variables of its binding. *)
Record ranked (s : Subst) (rank : N → nat) : Prop := {
  ranked_bound v u : s !! v = Some u → 0 < rank v ∧ ∀ w, w ∈ ty_vars u → rank w < rank v;
  ranked_free v : s !! v = None → rank v = 0;
  ranked_size v : rank v ≤ size s;
}.
Definition acyclic (s : Subst) : Prop := ∃ rank, ranked s rank.

Lemma iter_node n s t :
  is_var t = false →
  Nat.iter n (inst (lookup_var s)) t = map_children (Nat.iter n (inst (lookup_var s))) t.
Proof.
  intros Hv. induction n as [|n IH]; simpl.
  - symmetry. apply map_children_id, list.Forall_forall. done.
  - rewrite IH, inst_node, map_children_comp by (by rewrite ?is_var_map). done.
Qed.

Lemma iter_stable s rank n t :
  ranked s rank → (∀ v, v ∈ ty_vars t → rank v ≤ n) →
  Nat.iter (S n) (inst (lookup_var s)) t = Nat.iter n (inst (lookup_var s)) t.
Proof.
  intros Hr. revert t. induction n as [|n IH]; intros t Ht.
  - simpl. apply inst_fixed. intros v Hv%Ht. unfold lookup_var.
    destruct (s !! v) eqn:E; [|done]. apply (ranked_bound _ _ Hr) in E as [? _]. lia.
  - rewrite (Nat.iter_succ_r (S n)). etransitivity; [apply IH|by rewrite Nat.iter_succ_r]. intros w (v & Hv%Ht & Hw)%inst_vars.
    unfold lookup_var in Hw. destruct (s !! v) eqn:E; simpl in Hw.
    + apply (ranked_bound _ _ Hr) in E as [_ E]. apply E in Hw. lia.
    + apply elem_of_singleton in Hw as ->. rewrite (ranked_free _ _ Hr); [lia|done].
Qed.

Section resolution.
Context (s : Subst) (Hs : acyclic s).

Lemma res_node t : is_var t = false → res s t = map_children (res s) t.
Proof. apply iter_node. Qed.

Lemma res_free v : s !! v = None → res s (Ty.Var v) = Ty.Var v.
Proof.
  intros E. unfold res. generalize (size s). intros n. induction n as [|n IH]; [done|].
  simpl. rewrite IH. simpl. unfold lookup_var. by rewrite E.
Qed.

Lemma res_bound v u : s !! v = Some u → res s (Ty.Var v) = res s u.
Proof.
  intros E. destruct Hs as [rank Hr]. unfold res.
  destruct (size s) as [|k] eqn:Hk.
  { apply map_size_empty_inv in Hk. by rewrite Hk, lookup_empty in E. }
  rewrite Nat.iter_succ_r, (iter_stable s rank); [|done|].
  - simpl. unfold lookup_var. by rewrite E.
  - intros w Hw. pose proof (ranked_size _ _ Hr v).
    destruct (ranked_bound _ _ Hr _ _ E) as [_ Hlt]. apply Hlt in Hw. lia.
Qed.

(** Induction over types along the bindings. *)
Lemma subst_ind (P : Ty → Prop) :
  (∀ v, s !! v = None → P (Ty.Var v)) →
  (∀ v u, s !! v = Some u → P u → P (Ty.Var v)) →
  (∀ t, is_var t = false → Forall P (children t) → P t) →
  ∀ t, P t.
Proof.
  intros Hfree Hbound Hnode. destruct Hs as [rank Hr].
  assert (∀ n t, (∀ v, v ∈ ty_vars t → rank v < n) → P t) as H.
  { induction n as [n IHn] using lt_wf_ind.
    induction t as [v|t Hv IH] using ty_nested_ind; intros Ht.
    - destruct (s !! v) as [u|] eqn:E; [|auto]. apply (Hbound v u E).
      destruct (ranked_bound _ _ Hr _ _ E) as [_ Hlt].
      apply (IHn (rank v)); [apply Ht; set_solver|done].
    - apply Hnode; [done|]. rewrite list.Forall_forall in *. intros u Hu. apply IH; [done|].
      intros v Hin. apply Ht. by apply (ty_vars_child u t). }
  intros t. apply (H (S (size s))). intros v _. pose proof (ranked_size _ _ Hr v). lia.
Qed.

Lemma res_vars_free t v : v ∈ ty_vars (res s t) → s !! v = None.
Proof.
  induction t as [w Hw|w u E IH|t Hv IH] using subst_ind.
  - rewrite res_free by done. simpl. by intros ->%elem_of_singleton.
  - by rewrite (res_bound w u).
  - rewrite res_node, ty_vars_children, children_map by (by rewrite ?is_var_map).
    intros (u' & (u & <- & Hu%list_elem_of_In)%list_elem_of_In%in_map_iff & Hin)%list.Exists_exists.
    rewrite list.Forall_forall in IH. eauto.
Qed.

Lemma res_fixed t : (∀ v, v ∈ ty_vars t → s !! v = None) → res s t = t.
Proof.
  induction t as [v|t Hv IH] using ty_nested_ind; intros H; [apply res_free, H; set_solver|].
  rewrite res_node by done. apply map_children_id. rewrite list.Forall_forall in *.
  intros u Hu. apply IH; [done|]. intros v Hin. apply H. by apply (ty_vars_child u t).
Qed.

Lemma res_idem t : res s (res s t) = res s t.
Proof. apply res_fixed. apply res_vars_free. Qed.

End resolution.

(** Resolving further. *)
Lemma res_extend s s' t : acyclic s → acyclic s' → s ⊆ s' → res s' (res s t) = res s' t.
Proof.
  intros Hs Hs' Hsub. induction t as [v E|v u E IH|t Hv IH] using (subst_ind s Hs).
  - by rewrite (res_free s).
  - rewrite (res_bound s Hs v u), IH by done. symmetry. apply (res_bound s' Hs').
    by eapply lookup_weaken.
  - rewrite (res_node s), !(res_node s'), map_children_comp by (by rewrite ?is_var_map).
    by apply map_children_ext.
Qed.

(** ** Binding a variable *)

Lemma acyclic_empty : acyclic ∅.
Proof. exists (λ _, 0). split; [intros v u; by rewrite lookup_empty|done|intros; lia]. Qed.

Section binding.
Context (s : Subst) (x : N) (t : Ty).
Context (Hs : acyclic s) (Hx : s !! x = None) (Hocc : x ∉ ty_vars t).
Context (Ht : ∀ v, v ∈ ty_vars t → s !! v = None).

Lemma acyclic_bind : acyclic (<[x := t]> s).
Proof.
  destruct Hs as [rank Hr].
  exists (λ v, if decide (v = x) then 1 else if decide (is_Some (s !! v)) then S (rank v) else 0).
  assert (size (<[x := t]> s) = S (size s)) as Hsz by by apply map_size_insert_None.
  split.
  - intros v u. rewrite lookup_insert_Some. intros [[<- <-]|[Hne E]].
    + rewrite decide_True by done. split; [lia|]. intros w Hw.
      rewrite !decide_False; [lia|rewrite (Ht w Hw); by intros [? ?]|by intros ->].
    + rewrite (decide_False (P := v = x)), (decide_True (P := is_Some _)) by eauto.
      destruct (ranked_bound _ _ Hr _ _ E) as [Hpos Hlt]. split; [lia|]. intros w Hw%Hlt.
      destruct (decide (w = x)); [lia|]. destruct (decide _); lia.
  - intros v [E Hne]%lookup_insert_None. rewrite !decide_False; [done|rewrite E; by intros [? ?]|done].
  - intros v. pose proof (ranked_size _ _ Hr v). rewrite Hsz.
    destruct (decide (v = x)); [lia|]. destruct (decide _); lia.
Qed.

Lemma res_bind u :
  res (<[x := t]> s) u = inst (λ v, if decide (v = x) then t else Ty.Var v) (res s u).
Proof.
  pose proof acyclic_bind as Hs'.
  induction u as [v E|v w E IH|u Hv IH] using (subst_ind s Hs).
  - rewrite (res_free s) by done. simpl. destruct (decide (v = x)) as [->|Hne].
    + rewrite (res_bound _ Hs' x t) by by rewrite lookup_insert_eq.
      apply res_fixed; [done|]. intros v Hv. rewrite lookup_insert_ne by set_solver. auto.
    + apply res_free. by rewrite lookup_insert_ne.
  - rewrite (res_bound s Hs v w) by done. rewrite <- IH. apply (res_bound _ Hs').
    rewrite lookup_insert_ne; [done|]. by intros <-; rewrite Hx in E.
  - rewrite (res_node s), (res_node (<[x:=t]> s)), inst_node, map_children_comp
      by (by rewrite ?is_var_map).
    by apply map_children_ext.
Qed.

Lemma res_bind_vars u w :
  w ∈ ty_vars (res (<[x := t]> s) u) → w ≠ x ∧ (w ∈ ty_vars (res s u) ∨ w ∈ ty_vars t).
Proof.
  rewrite res_bind. intros (v & Hv & Hw)%inst_vars.
  destruct (decide (v = x)) as [->|Hne]; [set_solver|].
  simpl in Hw. apply elem_of_singleton in Hw as ->. auto.
Qed.
End binding.

(** [s'] is [s] itself, or binds a variable of [V] away: no type whose
    resolved variables were in [V] resolves to it any more. *)
Definition progress (s : Subst) (V : gset N) (s' : Subst) : Prop :=
  s' = s ∨ ∃ x, x ∈ V ∧ ∀ t, ty_vars (res s t) ⊆ V → ty_vars (res s' t) ⊆ V ∖ {[x]}.

Lemma progress_refl s V : progress s V s.
Proof. by left. Qed.

Lemma progress_vars s V s' t : progress s V s' → ty_vars (res s t) ⊆ V → ty_vars (res s' t) ⊆ V.
Proof. intros [->|(x & _ & H)] Ht; [done|]. apply H in Ht. set_solver. Qed.

Lemma progress_trans s V s1 s2 :
  progress s V s1 → (∀ V', V' ⊆ V → (∀ t, ty_vars (res s t) ⊆ V → ty_vars (res s1 t) ⊆ V') →
    progress s1 V' s2) → progress s V s2.
Proof.
  intros [->|(x & Hx & H)] H2; [by apply H2|].
  right. exists x. split; [done|]. intros t Ht.
  destruct (H2 (V ∖ {[x]})) as [->|(y & Hy & H')]; [set_solver|done|auto|].
  apply H, H' in Ht. set_solver.
Qed.

(** ** The equality of unification *)

(** One spelling of the builtin [Task], and one reference flag per parameter. *)
Definition canon_head (t : Ty) : Ty :=
  match t with
  | Ty.Named n args => Ty.Named (if String.eqb n "task.Task" then "Task"%string else n) args
  | Ty.Fn ps r c rf q =>
      Ty.Fn ps r c (List.map (λ i, default false (rf !! i)) (seq 0 (length ps))) q
  | _ => t
  end.

Fixpoint canon (t : Ty) : Ty :=
  match t with
  | Ty.List e => Ty.List (canon e)
  | Ty.View e => Ty.View (canon e)
  | Ty.Tuple ts => Ty.Tuple (List.map canon ts)
  | Ty.Named n ts => Ty.Named (if String.eqb n "task.Task" then "Task"%string else n) (List.map canon ts)
  | Ty.Dyn n ts => Ty.Dyn n (List.map canon ts)
  | Ty.Fn ps r c rf q =>
      Ty.Fn (List.map canon ps) (canon r) c
        (List.map (λ i, default false (rf !! i)) (seq 0 (length ps))) q
  | _ => t
  end.

Lemma canon_node t : canon t = map_children canon (canon_head t).
Proof. by destruct t. Qed.

Lemma canon_map f t : canon (map_children f t) = map_children (λ u, canon (f u)) (canon_head t).
Proof. destruct t; simpl; try done; by rewrite ?map_map, ?length_map. Qed.

Lemma canon_head_children t : children (canon_head t) = children t.
Proof. by destruct t. Qed.

Lemma canon_map_ext f g t :
  Forall (λ u, canon (f u) = canon (g u)) (children t) →
  canon (map_children f t) = canon (map_children g t).
Proof.
  intros H. rewrite !canon_map. apply map_children_ext. by rewrite canon_head_children.
Qed.

Lemma canon_size t : ty_size (canon t) = ty_size t.
Proof.
  induction t as [v|t Hv IH] using ty_nested_ind; [done|].
  rewrite canon_node, !ty_size_children, children_map, canon_head_children. f_equal. clear Hv.
  induction IH as [|u l Hu IH IHl]; simpl; [done|]. by rewrite Hu, IHl.
Qed.

Lemma canon_children a b : canon a = canon b → Forall2 (λ u w, canon u = canon w) (children a) (children b).
Proof.
  intros E%(f_equal children). rewrite !canon_node, !children_map, !canon_head_children in E.
  revert E. generalize (children b). induction (children a) as [|u l IH]; intros [|w k] E;
    try discriminate; constructor; simplify_eq/=; auto.
Qed.

Lemma canon_var t v : canon t = Ty.Var v ↔ t = Ty.Var v.
Proof. split; [by destruct t|by intros ->]. Qed.

Lemma canon_is_var a b : canon a = canon b → is_var a = is_var b.
Proof. destruct a, b; simpl; congruence. Qed.

Lemma canon_inst_ext θ η t :
  (∀ v, v ∈ ty_vars t → canon (θ v) = canon (η v)) → canon (inst θ t) = canon (inst η t).
Proof.
  induction t as [v|t Hv IH] using ty_nested_ind; intros H; [apply H; set_solver|].
  rewrite !inst_node by done. apply canon_map_ext. rewrite list.Forall_forall in *.
  intros u Hu. apply IH; [done|]. intros v Hin. apply H. by apply (ty_vars_child u t).
Qed.

(** Instances of equal types are equal. *)
Lemma canon_inst θ a b : canon a = canon b → canon (inst θ a) = canon (inst θ b).
Proof.
  assert (∀ t, canon (inst θ t) = inst (λ v, canon (θ v)) (canon t)) as H.
  { intros t. induction t as [v|t Hv IH] using ty_nested_ind; [done|].
    rewrite inst_node, canon_map, canon_node, (inst_node _ (map_children _ _)), map_children_comp
      by (by destruct t).
    apply map_children_ext. by rewrite canon_head_children. }
  intros E. by rewrite !H, E.
Qed.

(** Substitution is a function of the type up to [canon] too. *)
Lemma canon_res s a b : canon a = canon b → canon (res s a) = canon (res s b).
Proof.
  intros E. unfold res. induction (size s) as [|n IH]; [done|]. simpl. by apply canon_inst.
Qed.

(** ** Unifiers *)

(** The assignment [θ] solves the bindings of [s]. *)
Definition solves (θ : N → Ty) (s : Subst) : Prop :=
  ∀ v u, s !! v = Some u → canon (θ v) = canon (inst θ u).

Lemma solves_res θ s t : acyclic s → solves θ s → canon (inst θ (res s t)) = canon (inst θ t).
Proof.
  intros Hs H. induction t as [v E|v u E IH|t Hv IH] using (subst_ind s Hs).
  - by rewrite res_free.
  - rewrite (res_bound s Hs v u), IH by done. symmetry. by apply H.
  - rewrite res_node, !inst_node, map_children_comp by (by rewrite ?is_var_map).
    by apply canon_map_ext.
Qed.

(** A finite type is no instance of a proper part of itself. *)
Lemma no_infinite_type θ x t :
  x ∈ ty_vars t → is_var t = false → canon (θ x) ≠ canon (inst θ t).
Proof.
  intros Hin Hv E%(f_equal ty_size). rewrite !canon_size in E.
  apply ty_vars_children in Hin as (u & Hu & Hin)%list.Exists_exists; [|done].
  apply (inst_size θ) in Hin.
  assert (inst θ u ∈ children (inst θ t)) as Hc.
  { rewrite (inst_node θ t), children_map by done. apply list_elem_of_In, in_map, list_elem_of_In, Hu. }
  apply child_smaller in Hc. lia.
Qed.

(** The resolved types are the substitution's own solution. *)
Lemma res_solves s : acyclic s → solves (λ v, res s (Ty.Var v)) s ∧
  ∀ t, inst (λ v, res s (Ty.Var v)) t = res s t.
Proof.
  intros Hs. assert (∀ t, inst (λ v, res s (Ty.Var v)) t = res s t) as H.
  { intros t. induction t as [v|t Hv IH] using ty_nested_ind; [done|].
    rewrite inst_node, res_node by done. by apply map_children_ext. }
  split; [|done]. intros v u E. by rewrite H, (res_bound s Hs v u).
Qed.
