(* ===== verification/Unify.v ===== *)
(** * Unify: the type checker's substitution and unifier

    Models, of [crates/witchy-types/src/typeck.rs], the inference state of
    [Checker] ([subst], [resolve_cache], [unique_storage_types], [next_var])
    and its operations: [fresh], [resolve] with its two optimisations (report
    only what changed; remember every resolved variable until the next
    binding), [bind_subst_var], [restore_subst], [occurs], [unify],
    [branch_lub], [same_resolved_type] and [check_narrow].

    [resolve] takes [&self] and writes a [RefCell], so it is a computation
    that changes the state.  Recursion through the substitution is not
    structural: it runs on fuel, and running out of it is [Panic] (in the
    program, the overflow of the stack).  For resolution the fuel is the
    number of bindings, for [occurs] the size of the type; for [unify] it is
    an argument, and the theorems show that some amount is always enough.

    The reference for resolution is [res], the substitution applied until
    nothing changes; for unification it is the theory of unifiers over the
    equality [canon a = canon b], which identifies the two spellings of the
    builtin [Task] and the missing and the false reference flags. *)

From S2P Require Import Prelude Text Footprint CapRights Types Substitution.

Local Open Scope string_scope.

(** ** State *)

Record Checker : Type := {
  subst : gmap N Ty;
  resolve_cache : gmap N Ty;
  unique_storage_types : list (Ty * bool);
  next_var : N;
}.

Definition set_resolve_cache (m : gmap N Ty) (c : Checker) : Checker :=
  {| subst := subst c; resolve_cache := m;
     unique_storage_types := unique_storage_types c; next_var := next_var c |}.

(** The state [check] starts from. *)
Definition new_checker : Checker :=
  {| subst := ∅; resolve_cache := ∅; unique_storage_types := []; next_var := 0 |}.

(** [self.next_var += 1] on a [u32], which wraps in a release build. *)
Definition fresh : M Checker Ty :=
  c ← get;
  put {| subst := subst c; resolve_cache := resolve_cache c;
         unique_storage_types := unique_storage_types c;
         next_var := ((next_var c + 1) mod (u32_max + 1))%N |};;
  mret (Ty.Var (next_var c)).

(** ** Resolution *)

Section slices.
Context (resolved_if_changed : Ty → M Checker (option Ty)).

(** [self.resolve(t)] over the given [resolved_if_changed]. *)
Definition resolve_with (t : Ty) : M Checker Ty :=
  r ← resolved_if_changed t; mret (default t r).

(** [types.iter().position(|t| self.resolved_if_changed(t).is_some())] *)
Definition position_changed : list Ty → M Checker (option nat) :=
  fix go ts := match ts with
  | [] => mret None
  | t :: ts =>
      r ← resolved_if_changed t;
      match r with
      | Some _ => mret (Some 0%nat)
      | None => i ← go ts; mret (S <$> i)
      end
  end.

(** Elements before [first_change] are kept, the others resolved. *)
Definition resolve_from : nat → list Ty → M Checker (list Ty) :=
  fix go first_change ts := match ts with
  | [] => mret []
  | t :: ts =>
      match first_change with
      | S k => l ← go k ts; mret (t :: l)
      | O => t' ← resolve_with t; l ← go O ts; mret (t' :: l)
      end
  end.

Definition resolved_slice (ts : list Ty) : M Checker (option (list Ty)) :=
  i ← position_changed ts;
  match i with
  | None => mret None
  | Some first_change => l ← resolve_from first_change ts; mret (Some l)
  end.
End slices.

(** [(result != *t).then_some(result)] *)
Definition then_changed (t result : Ty) : option Ty :=
  if bool_decide (result = t) then None else Some result.

Fixpoint resolved_if_changed (n : nat) : Ty → M Checker (option Ty) :=
  fix go t := match t with
  | Ty.Var v =>
      c ← get;
      match resolve_cache c !! v with
      | Some cached => mret (then_changed t cached)
      | None =>
          result ← match subst c !! v with
                   | Some bound =>
                       match n with
                       | S n => resolve_with (resolved_if_changed n) bound
                       | O => panic
                       end
                   | None => mret t
                   end;
          modify (λ c, set_resolve_cache (<[v := result]> (resolve_cache c)) c);;
          mret (then_changed t result)
      end
  | Ty.List e => r ← go e; mret (Ty.List <$> r)
  | Ty.View payload => r ← go payload; mret (Ty.View <$> r)
  | Ty.Tuple ts => r ← resolved_slice go ts; mret (Ty.Tuple <$> r)
  | Ty.Named name args => r ← resolved_slice go args; mret (Ty.Named name <$> r)
  | Ty.Dyn name args => r ← resolved_slice go args; mret (Ty.Dyn name <$> r)
  | Ty.Fn params ret conventions reference_params qualifiers =>
      resolved_params ← resolved_slice go params;
      resolved_ret ← go ret;
      mret match resolved_params, resolved_ret with
           | None, None => None
           | _, _ => Some (Ty.Fn (default params resolved_params) (default ret resolved_ret)
                             conventions reference_params qualifiers)
           end
  | _ => mret None
  end.

Definition resolve (t : Ty) : M Checker Ty := λ c,
  resolve_with (resolved_if_changed (size (subst c))) t c.

(** ** Binding *)

Fixpoint ty_has_var (t : Ty) : bool :=
  match t with
  | Ty.Var _ => true
  | Ty.List e => ty_has_var e
  | Ty.View payload => ty_has_var payload
  | Ty.Tuple ts => existsb ty_has_var ts
  | Ty.Named _ args | Ty.Dyn _ args => existsb ty_has_var args
  | Ty.Fn ps r _ _ _ => existsb ty_has_var ps || ty_has_var r
  | _ => false
  end.

(** The common end of [bind_subst_var] and [restore_subst]. *)
Definition set_subst (s : gmap N Ty) (c : Checker) : Checker :=
  {| subst := s; resolve_cache := ∅;
     unique_storage_types := List.filter (λ e, negb (ty_has_var (fst e))) (unique_storage_types c);
     next_var := next_var c |}.

Definition bind_subst_var (v : N) (ty : Ty) : M Checker unit :=
  modify (λ c, set_subst (<[v := ty]> (subst c)) c).

Definition restore_subst (saved : gmap N Ty) : M Checker unit := modify (set_subst saved).

Section any.
Context (f : Ty → M Checker bool).

(** [items.iter().any(f)] *)
Definition any_of : list Ty → M Checker bool :=
  fix go ts := match ts with
  | [] => mret false
  | t :: ts => b ← f t; if (b : bool) then mret true else go ts
  end.
End any.

Fixpoint occurs (n : nat) (x : N) (t : Ty) : M Checker bool :=
  match n with
  | O => panic
  | S n =>
      t' ← resolve t;
      match t' with
      | Ty.Var y => mret (x =? y)%N
      | Ty.List inner => occurs n x inner
      | Ty.View payload => occurs n x payload
      | Ty.Tuple items => any_of (occurs n x) items
      | Ty.Named _ args | Ty.Dyn _ args => any_of (occurs n x) args
      | Ty.Fn params ret _ _ _ =>
          b ← any_of (occurs n x) params;
          if (b : bool) then mret true else occurs n x ret
      | _ => mret false
      end
  end.

(** ** Unification *)

Definition same_builtin_nominal_head (left right : string) : bool :=
  String.eqb left right
  || String.eqb left "Task" && String.eqb right "task.Task"
  || String.eqb left "task.Task" && String.eqb right "Task".

(** [(0..len).all(|index| xrefs[index] or false == yrefs[index] or false)] *)
Definition reference_positions_match (len : nat) (xrefs yrefs : list bool) : bool :=
  forallb (λ index, eqb (default false (xrefs !! index)) (default false (yrefs !! index)))
    (seq 0 len).

Section zip.
Context (unify : Ty → Ty → M Checker unit).

(** [for (x, y) in xs.iter().zip(ys) { self.unify(x, y)?; }] *)
Definition unify_zip : list Ty → list Ty → M Checker unit :=
  fix go xs ys := match xs, ys with
  | x :: xs, y :: ys => unify x y;; go xs ys
  | _, _ => mret tt
  end.
End zip.

Definition bind_checked (x : N) (other : Ty) : M Checker unit :=
  b ← occurs (ty_size other) x other;
  throw_if b ("cannot construct the infinite type: a type variable occurs within `"
              +:+ show_ty other +:+ "`");;
  bind_subst_var x other.

Definition mismatch (a b : Ty) : M Checker unit :=
  throw ("expected `" +:+ show_ty a +:+ "`, found `" +:+ show_ty b +:+ "`").

(** The last two arms. *)
Definition unify_rest (a b : Ty) : M Checker unit :=
  if bool_decide (a = b) then mret tt else mismatch a b.

Definition same_len (xs ys : list Ty) : bool := (length xs =? length ys)%nat.

(** The [match] of [unify] on the two resolved types. *)
Definition unify_resolved (unify : Ty → Ty → M Checker unit) (a b : Ty) : M Checker unit :=
  match a, b with
  | Ty.Var x, Ty.Var y => if (x =? y)%N then mret tt else bind_checked x b
  | Ty.Var x, _ => bind_checked x b
  | _, Ty.Var x => bind_checked x a
  | Ty.List x, Ty.List y => unify x y
  | Ty.View x, Ty.View y => unify x y
  | Ty.Tuple xs, Ty.Tuple ys =>
      if same_len xs ys then unify_zip unify xs ys else unify_rest a b
  | Ty.Named x xa, Ty.Named y ya =>
      if same_builtin_nominal_head x y && same_len xa ya
      then unify_zip unify xa ya else unify_rest a b
  | Ty.Dyn x xa, Ty.Dyn y ya =>
      if String.eqb x y && same_len xa ya then unify_zip unify xa ya else unify_rest a b
  | Ty.Fn xp xr xc xrefs xq, Ty.Fn yp yr yc yrefs yq =>
      if same_len xp yp && bool_decide (xc = yc) && bool_decide (xq = yq) then
        if negb (reference_positions_match (length xp) xrefs yrefs)
        then throw "function type erases or changes its borrow/convention relation"
        else
          let '(xp, xr) := alpha_normalize_callable xp xr in
          let '(yp, yr) := alpha_normalize_callable yp yr in
          unify_zip unify xp yp;; unify xr yr
      else unify_rest a b
  | _, _ => unify_rest a b
  end.

Fixpoint unify (n : nat) (a b : Ty) : M Checker unit :=
  match n with
  | O => panic
  | S n =>
      a ← resolve a;
      b ← resolve b;
      unify_resolved (unify n) a b
  end.

Definition branch_lub (n : nat) (left right : Ty) : M Checker Ty :=
  left ← resolve left;
  right ← resolve right;
  match left, right with
  | Ty.Fn lp lr lc lrefs lq, Ty.Fn rp rr rc rrefs rq =>
      if negb (eqb (once lq) (once rq)) then
        throw ("callable branches disagree on invocation cardinality: `" +:+ show_ty left
               +:+ "` versus `" +:+ show_ty right +:+ "`")
      else
        let qualifiers := {| pure := pure lq && pure rq; once := once lq |} in
        let widened_left := Ty.Fn lp lr lc lrefs qualifiers in
        let widened_right := Ty.Fn rp rr rc rrefs qualifiers in
        unify n widened_left widened_right;;
        resolve widened_left
  | _, _ => unify n left right;; resolve left
  end.

(** ** Resolution computes [res] *)

(** The cache holds only what resolution would compute. *)
Definition coherent (c : Checker) : Prop :=
  ∀ v t, resolve_cache c !! v = Some t → t = res (subst c) (Ty.Var v).

Record ready (c : Checker) : Prop := {
  ready_acyclic : acyclic (subst c);
  ready_coherent : coherent c;
}.

(** Equal but for the cache. *)
Record same_facts (c c' : Checker) : Prop := {
  same_subst : subst c' = subst c;
  same_storage : unique_storage_types c' = unique_storage_types c;
  same_next_var : next_var c' = next_var c;
}.

#[export] Instance same_facts_preorder : PreOrder same_facts.
Proof.
  split; [by split|]. intros c1 c2 c3 [] []. split; congruence.
Qed.

(** [m] returns [x] and changes at most the cache, which stays coherent. *)
Definition reads {A} (c : Checker) (m : M Checker A) (x : A) : Prop :=
  ∃ c', m c = (c', Done x) ∧ same_facts c c' ∧ ready c'.

Lemma reads_ret {A} c (x : A) : ready c → reads c (mret x) x.
Proof. intros H. by exists c. Qed.

Lemma reads_bind {A B} c (m : M Checker A) (f : A → M Checker B) x y :
  reads c m x → (∀ c', same_facts c c' → ready c' → reads c' (f x) y) → reads c (m ≫= f) y.
Proof.
  intros (c1 & E1 & H1 & R1) Hf. destruct (Hf c1 H1 R1) as (c2 & E2 & H2 & R2).
  exists c2. split_and!; [|by etrans|done]. unfold mbind, M_bind. by rewrite E1.
Qed.

Lemma reads_mono {A} c (m : M Checker A) x y : reads c m x → x = y → reads c m y.
Proof. by intros ? ->. Qed.

Section slices_spec.
Context (s : Subst) (f : Ty → M Checker (option Ty)).

(** [f] decides whether resolution under [s] changes [t]. *)
Definition decides (t : Ty) : Prop :=
  ∀ c, ready c → subst c = s → reads c (f t) (then_changed t (res s t)).

Fixpoint first_changed (ts : list Ty) : option nat :=
  match ts with
  | [] => None
  | t :: ts => if bool_decide (res s t = t) then S <$> first_changed ts else Some 0%nat
  end.

Lemma first_changed_None ts : first_changed ts = None → List.map (res s) ts = ts.
Proof.
  induction ts as [|t ts IH]; simpl; [done|]. destruct (bool_decide_reflect (res s t = t)); [|done].
  intros E%fmap_None%IH. congruence.
Qed.

Lemma first_changed_Some ts k :
  first_changed ts = Some k →
  (take k ts ++ List.map (res s) (drop k ts) = List.map (res s) ts)%list ∧ List.map (res s) ts ≠ ts.
Proof.
  revert k. induction ts as [|t ts IH]; intros k; simpl; [done|].
  destruct (bool_decide_reflect (res s t = t)) as [E|E].
  - intros (k' & [H1 H2]%IH & ->)%fmap_Some. simpl. split; congruence.
  - intros [= <-]. simpl. split; congruence.
Qed.

Lemma resolve_with_reads t c :
  decides t → ready c → subst c = s → reads c (resolve_with f t) (res s t).
Proof.
  intros Ht Hc Hs. eapply reads_bind; [by apply Ht|]. intros c' _ Hc'.
  eapply reads_mono; [by apply reads_ret|]. unfold then_changed.
  by destruct (bool_decide_reflect (res s t = t)).
Qed.

Lemma position_reads ts c :
  Forall decides ts → ready c → subst c = s → reads c (position_changed f ts) (first_changed ts).
Proof.
  intros Hts. revert c. induction Hts as [|t ts Ht Hts IH]; intros c Hc Hs; simpl.
  { by apply reads_ret. }
  eapply reads_bind; [by apply Ht|]. intros c' Hc' Hr. unfold then_changed.
  destruct (bool_decide _); [|by apply reads_ret].
  eapply reads_bind; [apply IH; [done|by rewrite (same_subst _ _ Hc')]|].
  intros. by apply reads_ret.
Qed.

Lemma resolve_from_reads ts k c :
  Forall decides ts → ready c → subst c = s →
  reads c (resolve_from f k ts) (take k ts ++ List.map (res s) (drop k ts))%list.
Proof.
  intros Hts. revert k c. induction Hts as [|t ts Ht Hts IH]; intros [|k] c Hc Hs; simpl;
    try by apply reads_ret.
  - eapply reads_bind; [by apply resolve_with_reads|]. intros c' Hc' Hr.
    eapply reads_bind; [apply (IH 0%nat); [done|by rewrite (same_subst _ _ Hc')]|].
    intros. by apply reads_ret.
  - eapply reads_bind; [by apply IH|]. intros. by apply reads_ret.
Qed.

Lemma slice_reads ts c :
  Forall decides ts → ready c → subst c = s →
  reads c (resolved_slice f ts)
    (if bool_decide (List.map (res s) ts = ts) then None else Some (List.map (res s) ts)).
Proof.
  intros Hts Hc Hs. eapply reads_bind; [by apply position_reads|]. intros c' Hc' Hr.
  destruct (first_changed ts) as [k|] eqn:E.
  - apply first_changed_Some in E as [E1 E2].
    eapply reads_bind; [by apply resolve_from_reads; rewrite ?(same_subst _ _ Hc')|].
    intros. rewrite E1, bool_decide_eq_false_2 by done. by apply reads_ret.
  - rewrite bool_decide_eq_true_2 by by apply first_changed_None. by apply reads_ret.
Qed.
End slices_spec.

Lemma reads_get {A} c (f : Checker → M Checker A) y : reads c (f c) y → reads c (get ≫= f) y.
Proof. done. Qed.

(** Remembering a resolved variable keeps the cache coherent. *)
Lemma reads_remember {A} c v r (x : A) :
  ready c → r = res (subst c) (Ty.Var v) →
  reads c (modify (λ c, set_resolve_cache (<[v := r]> (resolve_cache c)) c);; mret x) x.
Proof.
  intros [Ha Hc] ->. eexists. split_and!; [reflexivity|by split|]. split; [done|].
  intros w t. simpl. rewrite lookup_insert_Some. intros [[<- <-]|[_ ?]]; [done|by apply Hc].
Qed.

(** The computation of the branch [Ty::Var(v)]. *)
Definition resolve_var (n : nat) (v : N) : M Checker (option Ty) :=
  c ← get;
  match resolve_cache c !! v with
  | Some cached => mret (then_changed (Ty.Var v) cached)
  | None =>
      result ← match subst c !! v with
               | Some bound =>
                   match n with
                   | S n => resolve_with (resolved_if_changed n) bound
                   | O => panic
                   end
               | None => mret (Ty.Var v)
               end;
      modify (λ c, set_resolve_cache (<[v := result]> (resolve_cache c)) c);;
      mret (then_changed (Ty.Var v) result)
  end.

Lemma resolve_var_reads n rank v c :
  (∀ k u c, (k < n)%nat → ready c → ranked (subst c) rank →
     (∀ w, w ∈ ty_vars u → (rank w ≤ k)%nat) →
     reads c (resolved_if_changed k u) (then_changed u (res (subst c) u))) →
  ready c → ranked (subst c) rank → (rank v ≤ n)%nat →
  reads c (resolve_var n v) (then_changed (Ty.Var v) (res (subst c) (Ty.Var v))).
Proof.
  intros IH Hc Hr Hv. apply reads_get.
  destruct (resolve_cache c !! v) as [cached|] eqn:E.
  { apply (ready_coherent _ Hc) in E as ->. by apply reads_ret. }
  eapply (reads_bind _ _ _ (res (subst c) (Ty.Var v))).
  - destruct (subst c !! v) as [u|] eqn:Eu.
    + rewrite (res_bound _ (ready_acyclic _ Hc) v u) by done.
      destruct (ranked_bound _ _ Hr _ _ Eu) as [Hpos Hlt].
      destruct n as [|n]; [lia|]. apply resolve_with_reads; [|done..].
      intros c' Hc' Es. rewrite <- Es. apply IH; [lia|done|by rewrite Es|].
      intros w Hw%Hlt. lia.
    + rewrite res_free by done. by apply reads_ret.
  - intros c' Hs Hc'. apply reads_remember; [done|]. by rewrite (same_subst _ _ Hs).
Qed.

Lemma then_changed_map (C : list Ty → Ty) s ts :
  (∀ x y, C x = C y → x = y) →
  (C <$> (if bool_decide (List.map (res s) ts = ts) then None else Some (List.map (res s) ts)))
  = then_changed (C ts) (C (List.map (res s) ts)).
Proof.
  intros Hinj. unfold then_changed.
  destruct (bool_decide_reflect (List.map (res s) ts = ts)) as [->|Hne].
  - by rewrite bool_decide_eq_true_2.
  - by rewrite bool_decide_eq_false_2 by naive_solver.
Qed.

Lemma reads_leaf c t s :
  map_children (res s) t = t → ready c → reads c (mret None) (then_changed t (map_children (res s) t)).
Proof.
  intros -> Hc. unfold then_changed. rewrite bool_decide_eq_true_2 by done. by apply reads_ret.
Qed.

Lemma reads_slice c n (C : list Ty → Ty) ts :
  (∀ x y, C x = C y → x = y) → (∀ u, u ∈ ts → decides (subst c) (resolved_if_changed n) u) →
  ready c →
  reads c (r ← resolved_slice (resolved_if_changed n) ts; mret (C <$> r))
    (then_changed (C ts) (C (List.map (res (subst c)) ts))).
Proof.
  intros HC Hd Hc. eapply reads_bind; [apply slice_reads; [by apply list.Forall_forall|done..]|].
  intros c' _ Hc'. eapply reads_mono; [by apply reads_ret|]. by apply then_changed_map.
Qed.

Lemma reads_box c n (C : Ty → Ty) t :
  (∀ x y, C x = C y → x = y) → decides (subst c) (resolved_if_changed n) t → ready c →
  reads c (r ← resolved_if_changed n t; mret (C <$> r)) (then_changed (C t) (C (res (subst c) t))).
Proof.
  intros HC Hd Hc. eapply reads_bind; [by apply Hd|]. intros c' _ Hc'.
  eapply reads_mono; [by apply reads_ret|]. unfold then_changed.
  destruct (bool_decide_reflect (res (subst c) t = t)) as [->|Hne]; simpl.
  - by rewrite bool_decide_eq_true_2.
  - by rewrite bool_decide_eq_false_2 by naive_solver.
Qed.

Lemma reads_fn c n ps r conv rf q :
  (∀ u, u ∈ (ps ++ [r])%list → decides (subst c) (resolved_if_changed n) u) → ready c →
  reads c (resolved_if_changed n (Ty.Fn ps r conv rf q))
    (then_changed (Ty.Fn ps r conv rf q)
       (Ty.Fn (List.map (res (subst c)) ps) (res (subst c) r) conv rf q)).
Proof.
  intros Hd Hc.
  assert (resolved_if_changed n (Ty.Fn ps r conv rf q) =
    (resolved_params ← resolved_slice (resolved_if_changed n) ps;
     resolved_ret ← resolved_if_changed n r;
     mret match resolved_params, resolved_ret with
          | None, None => None
          | _, _ => Some (Ty.Fn (default ps resolved_params) (default r resolved_ret) conv rf q)
          end)) as -> by by destruct n.
  eapply reads_bind; [apply slice_reads; [|done..]; apply list.Forall_forall; set_solver|].
  intros c' Hs Hc'. eapply reads_bind.
  { apply Hd; [set_solver|done|apply (same_subst _ _ Hs)]. }
  intros c2 _ Hc2. eapply reads_mono; [by apply reads_ret|]. unfold then_changed.
  destruct (bool_decide_reflect (List.map (res (subst c)) ps = ps)) as [->|Hp],
    (bool_decide_reflect (res (subst c) r = r)) as [->|Hr]; simpl.
  - by rewrite bool_decide_eq_true_2.
  - rewrite bool_decide_eq_false_2; congruence.
  - rewrite bool_decide_eq_false_2; congruence.
  - rewrite bool_decide_eq_false_2; congruence.
Qed.

Lemma resolved_if_changed_reads n rank t c :
  ready c → ranked (subst c) rank → (∀ v, v ∈ ty_vars t → (rank v ≤ n)%nat) →
  reads c (resolved_if_changed n t) (then_changed t (res (subst c) t)).
Proof.
  revert t c. induction n as [n IHn] using lt_wf_ind.
  induction t as [v|t Hv IH] using ty_nested_ind; intros c Hc Hr Ht.
  { assert (resolved_if_changed n (Ty.Var v) = resolve_var n v) as -> by by destruct n.
    apply (resolve_var_reads n rank); auto. apply Ht. set_solver. }
  assert (∀ u, u ∈ children t → decides (subst c) (resolved_if_changed n) u) as Hd.
  { rewrite list.Forall_forall in IH. intros u Hu c' Hc' Es. rewrite <- Es.
    apply IH; [done|done|by rewrite Es|]. intros v Hin. apply Ht. by apply (ty_vars_child u t). }
  clear IHn IH Ht Hr. rewrite res_node by done.
  destruct t; try done; try (destruct n; by apply reads_leaf); simpl children in Hd; simpl map_children.
  - replace (resolved_if_changed n (Ty.List t)) with
      (r ← resolved_if_changed n t; mret (Ty.List <$> r) : M Checker _) by by destruct n.
    apply reads_box; [congruence|apply Hd; set_solver|done].
  - replace (resolved_if_changed n (Ty.Tuple items)) with
      (r ← resolved_slice (resolved_if_changed n) items; mret (Ty.Tuple <$> r) : M Checker _)
      by by destruct n.
    apply (reads_slice c n Ty.Tuple); [congruence|done..].
  - replace (resolved_if_changed n (Ty.Named name args)) with
      (r ← resolved_slice (resolved_if_changed n) args; mret (Ty.Named name <$> r) : M Checker _)
      by by destruct n.
    apply (reads_slice c n (Ty.Named name)); [congruence|done..].
  - replace (resolved_if_changed n (Ty.Dyn trait_name args)) with
      (r ← resolved_slice (resolved_if_changed n) args; mret (Ty.Dyn trait_name <$> r) : M Checker _)
      by by destruct n.
    apply (reads_slice c n (Ty.Dyn trait_name)); [congruence|done..].
  - by apply reads_fn.
  - replace (resolved_if_changed n (Ty.View t)) with
      (r ← resolved_if_changed n t; mret (Ty.View <$> r) : M Checker _) by by destruct n.
    apply reads_box; [congruence|apply Hd; set_solver|done].
Qed.

(** The optimised, memoised resolution agrees with the reference. *)
Lemma resolve_reads t c : ready c → reads c (resolve t) (res (subst c) t).
Proof.
  intros Hc. destruct (ready_acyclic _ Hc) as [rank Hr]. unfold resolve.
  apply (resolve_with_reads (subst c) (resolved_if_changed (size (subst c)))); [|done..].
  intros c' Hc' Es. rewrite <- Es. apply (resolved_if_changed_reads _ rank); [done|by rewrite Es|].
  intros v _. rewrite Es. apply (ranked_size _ _ Hr).
Qed.

(** ** The occurs check *)

Definition has_var (x : N) (t : Ty) : bool := bool_decide (x ∈ ty_vars t).

Lemma has_var_children x t : is_var t = false → has_var x t = existsb (has_var x) (children t).
Proof.
  intros Hv. apply eq_true_iff_eq. unfold has_var.
  rewrite bool_decide_eq_true, ty_vars_children, list.Exists_exists, existsb_exists by done.
  setoid_rewrite bool_decide_eq_true. by setoid_rewrite list_elem_of_In.
Qed.

Lemma any_of_reads (f : Ty → M Checker bool) (p : Ty → bool) s ts c :
  Forall (λ u, ∀ c, ready c → subst c = s → reads c (f u) (p u)) ts →
  ready c → subst c = s → reads c (any_of f ts) (existsb p ts).
Proof.
  intros H. revert c. induction H as [|u ts Hu H IH]; intros c Hc Hs; simpl; [by apply reads_ret|].
  eapply reads_bind; [by apply Hu|]. intros c' Hs' Hc'.
  destruct (p u); [by apply reads_ret|]. apply IH; [done|]. by rewrite (same_subst _ _ Hs').
Qed.

Lemma occurs_reads n x t c :
  ready c → (ty_size (res (subst c) t) ≤ n)%nat →
  reads c (occurs n x t) (has_var x (res (subst c) t)).
Proof.
  revert t c. induction n as [|n IH]; intros t c Hc Hn.
  { rewrite ty_size_children in Hn. lia. }
  simpl. eapply reads_bind; [by apply resolve_reads|]. intros c1 Hs1 Hc1.
  set (s := subst c) in *. pose proof (res_vars_free s (ready_acyclic _ Hc) t) as Hfree.
  pose proof (same_subst _ _ Hs1) as Es. fold s in Es. revert Hn Hfree. generalize (res s t) as t'.
  clear t. intros t Hn Hfree.
  assert (Forall (λ u, ∀ c, ready c → subst c = s → reads c (occurs n x u) (has_var x u)) (children t))
    as Hk.
  { rewrite list.Forall_forall. intros u Hu c2 Hc2 Es2.
    assert (res s u = u) as Eu.
    { apply res_fixed; [rewrite <- Es2; apply Hc2|]. intros v Hin. apply Hfree.
      by apply (ty_vars_child u t). }
    pose proof (child_smaller _ _ Hu).
    eapply reads_mono; [apply IH; [done|]|]; rewrite Es2, Eu; [lia|done]. }
  destruct (is_var t) eqn:Hv.
  { destruct t; try done. eapply reads_mono; [by apply reads_ret|]. unfold has_var. simpl.
    destruct (N.eqb_spec x v) as [->|]; symmetry; [apply bool_decide_eq_true_2|apply bool_decide_eq_false_2];
      set_solver. }
  rewrite has_var_children by done.
  destruct t; try done; try (by apply reads_ret); try (by apply (any_of_reads _ _ s));
    simpl in *.
  - apply Forall_cons_1 in Hk as [Hk _]. rewrite orb_false_r. by apply Hk.
  - apply Forall_app in Hk as [Hp [Hr _]%Forall_cons_1]. rewrite existsb_app. simpl.
    rewrite orb_false_r. eapply reads_bind; [by apply (any_of_reads _ (has_var x) s)|].
    intros c2 Hs2 Hc2. destruct (existsb _ params); [by apply reads_ret|].
    apply Hr; [done|]. by rewrite (same_subst _ _ Hs2).
  - apply Forall_cons_1 in Hk as [Hk _]. rewrite orb_false_r. by apply Hk.
Qed.

(** ** Heads *)

(** The guards of [unify] on two types that are not variables. *)
Definition same_head (a b : Ty) : bool :=
  match a, b with
  | Ty.List _, Ty.List _ | Ty.View _, Ty.View _ => true
  | Ty.Tuple xs, Ty.Tuple ys => same_len xs ys
  | Ty.Named x xa, Ty.Named y ya => same_builtin_nominal_head x y && same_len xa ya
  | Ty.Dyn x xa, Ty.Dyn y ya => String.eqb x y && same_len xa ya
  | Ty.Fn xp _ xc xrefs xq, Ty.Fn yp _ yc yrefs yq =>
      same_len xp yp && bool_decide (xc = yc) && bool_decide (xq = yq)
      && reference_positions_match (length xp) xrefs yrefs
  | _, _ => bool_decide (a = b)
  end.

Definition is_leaf (t : Ty) : bool :=
  match t with
  | Ty.List _ | Ty.View _ | Ty.Tuple _ | Ty.Named _ _ | Ty.Dyn _ _ | Ty.Fn _ _ _ _ _ | Ty.Var _ => false
  | _ => true
  end.

Lemma same_head_leaf a b : is_leaf a = true → same_head a b = bool_decide (a = b).
Proof. by destruct a. Qed.

Lemma canon_leaf a b : is_leaf a = true → canon a = canon b ↔ a = b.
Proof.
  intros Ha. split; [|by intros ->].
  assert (canon a = a) as -> by by destruct a.
  intros ->. by destruct b.
Qed.

Lemma leaf_children t : is_leaf t = true → children t = [].
Proof. by destruct t. Qed.

Lemma same_builtin_spec x y :
  same_builtin_nominal_head x y = true
  ↔ (if String.eqb x "task.Task" then "Task" else x) = (if String.eqb y "task.Task" then "Task" else y).
Proof.
  unfold same_builtin_nominal_head.
  destruct (String.eqb_spec x "task.Task"), (String.eqb_spec y "task.Task"), (String.eqb_spec x y),
    (String.eqb_spec x "Task"), (String.eqb_spec y "Task"); simpl; split; congruence.
Qed.

Lemma same_len_spec xs ys : same_len xs ys = true ↔ length xs = length ys.
Proof. apply Nat.eqb_eq. Qed.

Lemma map_canon_length (xs ys : list Ty) : List.map canon xs = List.map canon ys → length xs = length ys.
Proof. intros H%(f_equal length). by rewrite !length_map in H. Qed.

Lemma reference_positions_spec n xs ys :
  reference_positions_match n xs ys = true
  ↔ List.map (λ i, default false (xs !! i)) (seq 0 n) = List.map (λ i, default false (ys !! i)) (seq 0 n).
Proof.
  unfold reference_positions_match. induction (seq 0 n) as [|i l IH]; simpl; [done|].
  rewrite andb_true_iff, IH, eqb_true_iff. split; [intros [-> ->]; done|by intros [= -> ->]].
Qed.

(** Two types are equal for unification when their heads agree and their
    children are equal. *)
Lemma canon_head_spec a b :
  is_var a = false → is_var b = false →
  canon a = canon b ↔ same_head a b = true ∧ List.map canon (children a) = List.map canon (children b).
Proof.
  intros Ha Hb. destruct (is_leaf a) eqn:El.
  { rewrite canon_leaf, same_head_leaf, bool_decide_eq_true by done. naive_solver. }
  destruct a; try done; clear Ha El.
  all: destruct b; try (split; [discriminate|intros [H%bool_decide_eq_true _]; discriminate]); try done;
    simpl; rewrite ?andb_true_iff, ?same_len_spec, ?same_builtin_spec, ?String.eqb_eq, ?bool_decide_eq_true,
      ?reference_positions_spec.
  - split; [by intros [= ->]|by intros [_ [= ->]]].
  - split; [intros [= H]; auto using map_canon_length|by intros [_ ->]].
  - split; [intros [= -> H]; auto using map_canon_length|by intros [[-> _] ->]].
  - split; [intros [= -> H]; auto using map_canon_length|by intros [[-> _] ->]].
  - rewrite !map_app. simpl. split.
    + intros [= H1 H2 -> H3 ->]. pose proof (map_canon_length _ _ H1) as Hlen.
      rewrite H1, H2. split; [|done]. split_and!; auto. by rewrite H3, Hlen.
    + intros [[[[Hlen ->] ->] H] [H1 H2]%app_inj_2]; [|done].
      injection H2 as H2. by rewrite H1, H2, <- Hlen, H.
  - split; [by intros [= ->]|by intros [_ [= ->]]].
Qed.

Lemma same_head_map f g a b :
  is_var a = false → is_var b = false → same_head (map_children f a) (map_children g b) = same_head a b.
Proof.
  intros Ha Hb. destruct (is_leaf a) eqn:El.
  - assert (map_children f a = a) as -> by by destruct a.
    rewrite !same_head_leaf by done. apply bool_decide_ext.
    split; [intros ->; by destruct b|intros <-; by destruct a].
  - destruct a; try done; destruct b; try done; simpl; unfold same_len; rewrite ?length_map; try done.
Qed.

(** [unify] on types that are not variables pairs the children, *)
Lemma unify_resolved_head u a b c :
  is_var a = false → is_var b = false → same_head a b = true →
  unify_resolved u a b c = unify_zip u (alpha_children a) (alpha_children b) c.
Proof.
  assert (∀ x y c, u x y c = unify_zip u [x] [y] c) as Hone.
  { intros x y c0. simpl. unfold mbind, M_bind. by destruct (u x y c0) as [? [[]|?|]]. }
  assert (∀ x y xs ys c, length xs = length ys →
    (unify_zip u xs ys;; u x y) c = unify_zip u (xs ++ [x]) (ys ++ [y]) c) as Happ.
  { intros x y xs. induction xs as [|x' xs IH]; intros [|y' ys] c0; simpl; try done.
    - intros _. exact (Hone x y c0).
    - intros [= E]. unfold mbind, M_bind in *. destruct (u x' y' c0) as [? [[]|?|]]; [|done..].
      by apply IH. }
  intros Ha Hb E. destruct (is_leaf a) eqn:El.
  - rewrite same_head_leaf, bool_decide_eq_true in E by done. subst b.
    assert (alpha_children a = []) as -> by by destruct a.
    assert (unify_resolved u a a = unify_rest a a) as -> by by destruct a.
    unfold unify_rest. by rewrite bool_decide_eq_true_2.
  - destruct a; try done; destruct b; try done; simpl in E |- *; try apply Hone; try (by rewrite E).
    apply andb_true_iff in E as [E Hr]. rewrite E, Hr. simpl.
    apply andb_true_iff in E as [E _]. apply andb_true_iff in E as [E%same_len_spec _].
    apply Happ. by rewrite !length_map.
Qed.

(** or fails when the heads differ. *)
Lemma unify_resolved_mismatch a b :
  is_var a = false → is_var b = false → same_head a b = false →
  ∃ e, ∀ u c, unify_resolved u a b c = (c, Fail e).
Proof.
  intros Ha Hb E.
  assert (a ≠ b) as Hab.
  { intros <-. assert (same_head a a = true); [by apply canon_head_spec|congruence]. }
  assert (∃ e, ∀ c, unify_rest a b c = (c, Fail e)) as [e He].
  { unfold unify_rest. rewrite bool_decide_eq_false_2 by done. by eexists. }
  destruct (is_leaf a) eqn:El.
  { exists e. intros u c. by replace (unify_resolved u a b) with (unify_rest a b) by by destruct a, b. }
  destruct a; try done; destruct b; try done; simpl in E |- *; try rewrite E; try (by exists e).
  destruct (same_len params params0 && _ && _) eqn:E'; simpl in E; [|by exists e].
  rewrite E. by eexists.
Qed.

(** ** What one call achieves *)

Definition marker_free_subst (s : Subst) : Prop := map_Forall (λ _ t, marker_free t = true) s.

Lemma forallb_Forall (p : Ty → bool) l : forallb p l = true ↔ Forall (λ t, p t = true) l.
Proof. rewrite forallb_forall, list.Forall_forall. by setoid_rewrite list_elem_of_In. Qed.

Lemma marker_free_map f t :
  marker_free t = true → Forall (λ u, marker_free (f u) = true) (children t) →
  marker_free (map_children f t) = true.
Proof.
  assert (∀ l, Forall (λ u, marker_free (f u) = true) l → forallb marker_free (List.map f l) = true) as Hl.
  { intros l H. rewrite forallb_Forall. by apply Forall_map. }
  destruct t as [| | | | | | | | | | | | | | | | | | | | | | | | |e|ts|n [|a args]|n ts|ps r c rf q|e|v];
    simpl; try done; intros _ H.
  - by apply Forall_cons_1 in H as [H _].
  - by apply Hl.
  - apply Forall_cons_1 in H as [-> H]. simpl. by apply Hl.
  - by apply Hl.
  - apply Forall_app in H as [Hp [-> _]%Forall_cons_1]. by rewrite Hl.
  - by apply Forall_cons_1 in H as [H _].
Qed.

Lemma res_marker_free s t :
  acyclic s → marker_free_subst s → marker_free t = true → marker_free (res s t) = true.
Proof.
  intros Hs Hm. induction t as [v E|v u E IH|t Hv IH] using (subst_ind s Hs); intros Ht.
  - by rewrite res_free.
  - rewrite (res_bound s Hs v u) by done. apply IH. by apply (Hm v).
  - rewrite res_node by done. apply marker_free_map; [done|].
    apply marker_free_children in Ht. rewrite list.Forall_forall in *. auto.
Qed.

(** The resolved variables of a list of pairs are in [V]. *)
Definition within_vars (s : Subst) (ps : list (Ty * Ty)) (V : gset N) : Prop :=
  Forall (λ p, ty_vars (res s (fst p)) ⊆ V ∧ ty_vars (res s (snd p)) ⊆ V) ps.

(** The run from [c] to [c'] with result [r] unified the pairs [ps]. *)
Record unified (c : Checker) (ps : list (Ty * Ty)) (c' : Checker) (r : outcome unit) : Prop := {
  un_ready : ready c';
  un_mono : subst c ⊆ subst c';
  un_next : next_var c' = next_var c;
  un_returns : r ≠ Panic;
  un_progress V : within_vars (subst c) ps V → progress (subst c) V (subst c');
  un_markers : marker_free_subst (subst c) →
    Forall (λ p, marker_free (fst p) = true ∧ marker_free (snd p) = true) ps →
    marker_free_subst (subst c');
  un_sound : marker_free_subst (subst c) →
    Forall (λ p, marker_free (fst p) = true ∧ marker_free (snd p) = true) ps →
    r = Done tt →
    Forall (λ p, canon (res (subst c') (fst p)) = canon (res (subst c') (snd p))) ps;
  un_complete θ : marker_free_subst (subst c) →
    Forall (λ p, marker_free (fst p) = true ∧ marker_free (snd p) = true) ps →
    solves θ (subst c) → Forall (λ p, canon (inst θ (fst p)) = canon (inst θ (snd p))) ps →
    r = Done tt ∧ solves θ (subst c');
}.

(** Enough fuel gives one run, whatever the fuel. *)
Definition runs {A} (f : nat → M Checker A) (c c' : Checker) (r : outcome A) : Prop :=
  ∃ n0, ∀ n, (n0 ≤ n)%nat → f n c = (c', r).

Lemma unified_nil c : ready c → unified c [] c (Done tt).
Proof. intros Hc. split; auto using progress_refl. Qed.

(** Two types that resolve to the same children problem. *)
Lemma unified_equiv c c0 c' ps qs r :
  subst c = subst c0 → next_var c = next_var c0 → ready c0 →
  (∀ V, within_vars (subst c0) ps V → within_vars (subst c0) qs V) →
  (marker_free_subst (subst c0) →
   Forall (λ p, marker_free (fst p) = true ∧ marker_free (snd p) = true) ps →
   Forall (λ p, marker_free (fst p) = true ∧ marker_free (snd p) = true) qs
   ∧ (∀ s', acyclic s' → subst c0 ⊆ s' →
       Forall (λ p, canon (res s' (fst p)) = canon (res s' (snd p))) qs →
       Forall (λ p, canon (res s' (fst p)) = canon (res s' (snd p))) ps)
   ∧ (∀ θ, solves θ (subst c0) → Forall (λ p, canon (inst θ (fst p)) = canon (inst θ (snd p))) ps →
       Forall (λ p, canon (inst θ (fst p)) = canon (inst θ (snd p))) qs)) →
  unified c qs c' r → unified c0 ps c' r.
Proof.
  intros Es En Hc0 HV Hm [U1 U2 U3 U4 U5 U6 U7 U8]. rewrite Es in *. split; try done.
  - congruence.
  - auto.
  - intros H1 H2. destruct (Hm H1 H2) as (Q1 & Q2 & Q3). auto.
  - intros H1 H2 Hr. destruct (Hm H1 H2) as (Q1 & Q2 & Q3). apply Q2; [apply U1|done|auto].
  - intros θ H1 H2 Hθ Hp. destruct (Hm H1 H2) as (Q1 & Q2 & Q3). auto.
Qed.

Lemma unified_swap c a b c' r : unified c [(a, b)] c' r → unified c [(b, a)] c' r.
Proof.
  intros [U1 U2 U3 U4 U5 U6 U7 U8]. split; try done; unfold within_vars in *.
  - intros V H. apply U5. revert H. rewrite !list.Forall_singleton. simpl. tauto.
  - intros H1 H2. apply U6; [done|]. revert H2. rewrite !list.Forall_singleton. simpl. tauto.
  - rewrite !list.Forall_singleton in *. simpl in *. intros. symmetry. tauto.
  - intros θ H1 H2 Hθ H3. rewrite !list.Forall_singleton in *. simpl in *.
    apply U8; rewrite ?list.Forall_singleton; simpl; [done|tauto|done|done].
Qed.

Lemma unified_cons c p ps c1 c2 r :
  unified c [p] c1 (Done tt) → unified c1 ps c2 r → unified c (p :: ps) c2 r.
Proof.
  intros [U1 U2 U3 U4 U5 U6 U7 U8] [W1 W2 W3 W4 W5 W6 W7 W8].
  assert (∀ (P : Ty * Ty → Prop), Forall P (p :: ps) → Forall P [p] ∧ Forall P ps) as Hsplit.
  { intros P [? ?]%Forall_cons_1. split; [by apply list.Forall_singleton|done]. }
  split; try done.
  - by etrans.
  - congruence.
  - intros V [HV1 HV2]%Hsplit. apply (progress_trans _ _ (subst c1)); [by apply U5|].
    intros V' HV' Ht. apply W5. unfold within_vars in *. rewrite list.Forall_forall in *.
    intros q Hq. destruct (HV2 q Hq). auto.
  - intros H1 [H2 H3]%Hsplit. auto.
  - intros H1 [H2 H3]%Hsplit Hr. constructor; [|by apply W7; auto].
    specialize (U7 H1 H2 eq_refl). rewrite list.Forall_singleton in U7.
    apply (canon_res (subst c2)) in U7.
    by rewrite !res_extend in U7 by (done || apply U1 || apply W1).
  - intros θ H1 [H2 H3]%Hsplit Hθ [H4 H5]%Hsplit.
    destruct (U8 θ H1 H2 Hθ H4) as [_ Hθ1]. auto.
Qed.

Lemma unified_fail c p ps c1 e : unified c [p] c1 (Fail e) → unified c (p :: ps) c1 (Fail e).
Proof.
  intros [U1 U2 U3 U4 U5 U6 U7 U8].
  assert (∀ (P : Ty * Ty → Prop), Forall P (p :: ps) → Forall P [p]) as Hsplit.
  { intros P [? ?]%Forall_cons_1. by apply list.Forall_singleton. }
  split; try done.
  - intros V HV%Hsplit. auto.
  - intros H1 H2%Hsplit. auto.
  - intros θ H1 H2%Hsplit Hθ H3%Hsplit. by destruct (U8 θ H1 H2 Hθ H3).
Qed.

(** The loop over pairs, given the behaviour of [unify] on each. *)
Lemma unify_zip_runs k m xs ys c V :
  (∀ c a b V, ready c → within_vars (subst c) [(a, b)] V →
     (size V < k ∨ size V ≤ k ∧ ty_size (res (subst c) a) < m)%nat →
     ∃ c' r, runs (λ n, unify n a b) c c' r ∧ unified c [(a, b)] c' r) →
  ready c → within_vars (subst c) (zip xs ys) V →
  (size V < k ∨ size V ≤ k ∧ Forall (λ p, (ty_size (res (subst c) (fst p)) < m)%nat) (zip xs ys))%nat →
  ∃ c' r, runs (λ n, unify_zip (unify n) xs ys) c c' r ∧ unified c (zip xs ys) c' r.
Proof.
  intros Hstep. revert ys c V. induction xs as [|x xs IH]; intros [|y ys] c V Hc HV Hm; simpl;
    try (exists c, (Done tt); split; [by exists 0%nat|by apply unified_nil]).
  apply Forall_cons_1 in HV as [HV1 HV2].
  destruct (Hstep c x y V) as (c1 & r1 & [n1 E1] & U1); [done|by apply list.Forall_singleton| |].
  { destruct Hm as [?|[? [? _]%Forall_cons_1]]; auto. }
  destruct r1 as [[]|e|].
  - assert (∃ V1, within_vars (subst c1) (zip xs ys) V1 ∧
      (size V1 < k ∨ size V1 ≤ k ∧ Forall (λ p, (ty_size (res (subst c1) (fst p)) < m)%nat) (zip xs ys))%nat)
      as (V1 & HV' & Hm').
    { destruct (un_progress _ _ _ _ U1 V) as [Es|(z & Hz & Hp)]; [by apply list.Forall_singleton| |].
      - exists V. rewrite Es. split; [done|]. destruct Hm as [?|[? [_ ?]%Forall_cons_1]]; auto.
      - exists (V ∖ {[z]}). split.
        + unfold within_vars in *. apply (list.Forall_impl _ _ _ HV2). naive_solver.
        + left. rewrite size_difference by set_solver. rewrite size_singleton.
          assert (0 < size V)%nat by (apply Nat.neq_0_lt_0; intros E0%size_empty_inv; set_solver).
          lia. }
    destruct (IH ys c1 V1) as (c2 & r & [n2 E2] & U2); [apply U1|done|done|].
    exists c2, r. split; [|by eapply unified_cons].
    exists (n1 `max` n2). intros n Hn. unfold mbind, M_bind. rewrite E1 by lia. apply E2. lia.
  - exists c1, (Fail e). split; [|by apply unified_fail].
    exists n1. intros n Hn. unfold mbind, M_bind. by rewrite E1.
  - by destruct (un_returns _ _ _ _ U1).
Qed.

(** Binding a free variable to a resolved type, or refusing to. *)
Lemma bind_checked_unified c x t :
  ready c → subst c !! x = None → (∀ v, v ∈ ty_vars t → subst c !! v = None) → t ≠ Ty.Var x →
  ∃ c' r, bind_checked x t c = (c', r) ∧ unified c [(Ty.Var x, t)] c' r.
Proof.
  intros Hc Hx Ht Hne.
  assert (res (subst c) t = t) as Et by (apply res_fixed; [apply Hc|done]).
  destruct (occurs_reads (ty_size t) x t c Hc) as (c1 & E & Hs & Hc1); [by rewrite Et|].
  rewrite Et in E. unfold bind_checked, mbind, M_bind. rewrite E.
  unfold has_var. destruct (bool_decide_reflect (x ∈ ty_vars t)) as [Hin|Hout].
  - eexists c1, _. split; [reflexivity|]. pose proof (same_subst _ _ Hs) as Es.
    assert (is_var t = false) as Hv by (destruct t; try done; set_solver).
    pose proof (same_next_var _ _ Hs) as En.
    split; rewrite ?Es; try done; auto using progress_refl.
    intros θ _ _ _ [Hp _]%Forall_cons_1. by destruct (no_infinite_type θ x t).
  - eexists _, _. split; [reflexivity|]. pose proof (same_subst _ _ Hs) as Es.
    set (s := subst c) in *.
    assert (acyclic (<[x := t]> s)) as Hs' by (apply acyclic_bind; [apply Hc|done..]).
    split; simpl; rewrite ?Es; fold s.
    + split; simpl; [done|]. intros v u. simpl. by rewrite lookup_empty.
    + by apply insert_subseteq.
    + apply (same_next_var _ _ Hs).
    + done.
    + intros V [HV _]%Forall_cons_1. simpl in HV. rewrite (res_free s x Hx), Et in HV.
      right. exists x. split; [set_solver|]. intros u Hu w Hw.
      apply res_bind_vars in Hw as [Hwx Hw]; [|apply Hc|done..]. set_solver.
    + intros Hm [[_ Hf] _]%Forall_cons_1. by apply map_Forall_insert_2.
    + intros _ _ _. apply list.Forall_singleton. simpl.
      by rewrite (res_bound _ Hs' x t) by by rewrite lookup_insert_eq.
    + intros θ _ _ Hθ [Hp _]%Forall_cons_1. split; [done|]. intros v u.
      rewrite lookup_insert_Some. intros [[<- <-]|[_ ?]]; [done|by apply Hθ].
Qed.

Lemma Forall_one {A} (P : A → Prop) x : P x → Forall P [x].
Proof. by repeat constructor. Qed.

Lemma unify_resolves a b c :
  ready c → ∃ c', same_facts c c' ∧ ready c' ∧
    ∀ n, unify (S n) a b c = unify_resolved (unify n) (res (subst c) a) (res (subst c) b) c'.
Proof.
  intros Hc. destruct (resolve_reads a c Hc) as (c1 & E1 & S1 & R1).
  destruct (resolve_reads b c1 R1) as (c2 & E2 & S2 & R2).
  exists c2. split_and!; [by etrans|done|]. intros n. simpl. unfold mbind, M_bind.
  by rewrite E1, E2, (same_subst _ _ S1).
Qed.

(** A pair and its resolved form are the same problem. *)
Lemma unified_resolved c c0 a b c' r :
  same_facts c0 c → ready c0 →
  unified c [(res (subst c0) a, res (subst c0) b)] c' r → unified c0 [(a, b)] c' r.
Proof.
  intros Hs Hc. pose proof (ready_acyclic _ Hc) as Ha.
  apply unified_equiv; [apply Hs|apply Hs|done|..].
  - intros V [HV _]%Forall_cons_1. apply Forall_one. simpl in *. by rewrite !res_idem.
  - intros Hm [[H1 H2] _]%Forall_cons_1. split_and!.
    + apply Forall_one. simpl. auto using res_marker_free.
    + intros s' Hs' Hsub [H _]%Forall_cons_1. apply Forall_one. simpl in *.
      by rewrite !res_extend in H.
    + intros θ Hθ [H _]%Forall_cons_1. apply Forall_one. simpl in *.
      by rewrite !solves_res.
Qed.

Lemma zip_map_canon (f : Ty → Ty) (xs ys : list Ty) :
  length xs = length ys →
  Forall (λ p, canon (f (fst p)) = canon (f (snd p))) (zip xs ys)
  ↔ List.map canon (List.map f xs) = List.map canon (List.map f ys).
Proof.
  revert ys. induction xs as [|x xs IH]; intros [|y ys] Hlen; try done; simpl in *.
  injection Hlen as Hlen. rewrite list.Forall_cons, IH by done. simpl.
  split; [by intros [-> ->]|by intros [= -> ->]].
Qed.

Lemma same_head_children a b : same_head a b = true → length (children a) = length (children b).
Proof.
  destruct (is_leaf a) eqn:El.
  { rewrite same_head_leaf, bool_decide_eq_true by done. by intros ->. }
  destruct a; try done; destruct b; simpl; try done;
    rewrite ?andb_true_iff, ?same_len_spec, ?length_app; simpl; intuition lia.
Qed.

Lemma Forall_zip (P : Ty → Prop) xs ys :
  Forall P xs → Forall P ys → Forall (λ p, P (fst p) ∧ P (snd p)) (zip xs ys).
Proof.
  intros H. revert ys. induction H; intros ys [|]; simpl; constructor; auto.
Qed.

(** The children of [t] after renaming are as large and have the same variables. *)
Lemma alpha_child t u :
  u ∈ alpha_children t → (ty_size u < ty_size t)%nat ∧ ty_vars u ⊆ ty_vars t.
Proof.
  intros [i Hi]%list_elem_of_lookup.
  destruct (Forall2_lookup_r _ _ _ _ _ (alpha_children_spec t) Hi) as (w & Hw & -> & ->).
  apply list_elem_of_lookup_2 in Hw. auto using child_smaller, ty_vars_child.
Qed.

Lemma within_children s a b :
  acyclic s → (∀ v, v ∈ ty_vars a ∪ ty_vars b → s !! v = None) →
  within_vars s (zip (alpha_children a) (alpha_children b)) (ty_vars a ∪ ty_vars b).
Proof.
  intros Hs Hfree. apply (Forall_zip (λ u, ty_vars (res s u) ⊆ ty_vars a ∪ ty_vars b));
    apply list.Forall_forall; intros u [_ Hu]%alpha_child; rewrite res_fixed; try done; set_solver.
Qed.

Lemma smaller_children s a b :
  acyclic s → (∀ v, v ∈ ty_vars a → s !! v = None) →
  Forall (λ p, (ty_size (res s (fst p)) < ty_size a)%nat) (zip (alpha_children a) (alpha_children b)).
Proof.
  intros Hs Hfree. apply list.Forall_forall. intros [u w] Hu%elem_of_zip_l%alpha_child.
  simpl. rewrite res_fixed; [apply Hu|done|]. set_solver.
Qed.

(** Pairing the children of types with the same head solves the pair. *)
Lemma unified_children c a b c' r :
  ready c → is_var a = false → is_var b = false → same_head a b = true →
  (∀ v, v ∈ ty_vars a ∪ ty_vars b → subst c !! v = None) →
  unified c (zip (alpha_children a) (alpha_children b)) c' r → unified c [(a, b)] c' r.
Proof.
  intros Hc Ha Hb Hh Hfree. pose proof (ready_acyclic _ Hc) as Hac.
  pose proof (same_head_children a b Hh) as Hlen.
  apply unified_equiv; [done|done|done|..].
  - intros V [[H1 H2] _]%Forall_cons_1. simpl in *.
    rewrite (res_fixed _ Hac a), (res_fixed _ Hac b) in * by set_solver.
    apply (list.Forall_impl _ _ _ (within_children _ a b Hac Hfree)). set_solver.
  - intros Hm [[H1 H2] _]%Forall_cons_1. simpl in *.
    rewrite !alpha_children_marker_free by done. split_and!.
    + apply (Forall_zip (λ u, marker_free u = true)); by apply marker_free_children.
    + intros s' Hs' _ H. apply Forall_one. simpl. rewrite !(res_node s') by done.
      apply canon_head_spec; [by apply is_var_map..|]. rewrite same_head_map, !children_map by done.
      split; [done|]. by apply zip_map_canon.
    + intros θ _ [H _]%Forall_cons_1. simpl in H. rewrite !inst_node in H by done.
      apply canon_head_spec in H as [_ H]; [|by apply is_var_map..].
      rewrite !children_map in H. by apply zip_map_canon.
Qed.

(** Types with different heads have no unifier. *)
Lemma unified_mismatch c a b e :
  ready c → is_var a = false → is_var b = false → same_head a b = false →
  unified c [(a, b)] c (Fail e).
Proof.
  intros Hc Ha Hb Hh. split; auto using progress_refl; try done.
  intros θ _ _ _ [H _]%Forall_cons_1. simpl in H. rewrite !inst_node in H by done.
  apply canon_head_spec in H as [H _]; [|by apply is_var_map..].
  rewrite same_head_map in H by done. congruence.
Qed.

Lemma unified_refl c t : ready c → unified c [(t, t)] c (Done tt).
Proof.
  intros Hc. split; auto using progress_refl; done.
Qed.

(** A pair with a variable is solved or refused at once. *)
Lemma unify_var_runs c a b :
  ready c → (∀ v, v ∈ ty_vars a → subst c !! v = None) → (∀ v, v ∈ ty_vars b → subst c !! v = None) →
  is_var a || is_var b = true →
  ∃ c' r, (∀ u, unify_resolved u a b c = (c', r)) ∧ unified c [(a, b)] c' r.
Proof.
  intros Hc Fa Fb Hv. destruct (is_var a) eqn:Va.
  - destruct a; try done. destruct (decide (b = Ty.Var v)) as [->|Hne].
    { exists c, (Done tt). split; [|by apply unified_refl]. intros u. simpl. by rewrite N.eqb_refl. }
    destruct (bind_checked_unified c v b) as (c' & r & E & U); [done|apply Fa; set_solver|done|done|].
    exists c', r. split; [|done]. intros u. rewrite <- E.
    destruct b; try done. simpl. by destruct (N.eqb_spec v v0); [congruence|].
  - destruct b; try done.
    destruct (bind_checked_unified c v a) as (c' & r & E & U);
      [done|apply Fb; set_solver|done|by intros ->|].
    exists c', r. split; [|by apply unified_swap]. intros u. rewrite <- E. by destruct a.
Qed.

(** The heart of the file: on every ready state [unify] returns, with some
    fuel and the same result with any more of it, and what it returns is the
    answer of the theory of unifiers. *)
Lemma unify_runs a b c :
  ready c → ∃ c' r, runs (λ n, unify n a b) c c' r ∧ unified c [(a, b)] c' r.
Proof.
  assert (∀ k m c a b, ready c →
    (size (ty_vars (res (subst c) a) ∪ ty_vars (res (subst c) b)) ≤ k)%nat →
    (ty_size (res (subst c) a) ≤ m)%nat →
    ∃ c' r, runs (λ n, unify n a b) c c' r ∧ unified c [(a, b)] c' r) as H;
    [|by intros; eapply H].
  clear a b c. induction k as [k IHk] using lt_wf_ind. induction m as [m IHm] using lt_wf_ind.
  intros c a b Hc Hk Hm.
  destruct (unify_resolves a b c Hc) as (c1 & Hs & Hc1 & E).
  pose proof (res_vars_free _ (ready_acyclic _ Hc) a) as Fa.
  pose proof (res_vars_free _ (ready_acyclic _ Hc) b) as Fb.
  assert (∃ c' r, runs (λ n, unify_resolved (unify n) (res (subst c) a) (res (subst c) b)) c1 c' r
    ∧ unified c1 [(res (subst c) a, res (subst c) b)] c' r) as (c' & r & [n0 Hn] & U).
  2:{ exists c', r. split; [|by eapply unified_resolved].
      exists (S n0). intros [|n] Hle; [lia|]. rewrite E. apply Hn. lia. }
  rewrite <- (same_subst _ _ Hs) in *.
  set (a' := res (subst c1) a) in *. set (b' := res (subst c1) b) in *. clearbody a' b'.
  clear E Hs Hc c a b.
  destruct (is_var a' || is_var b') eqn:Hv.
  { destruct (unify_var_runs c1 a' b') as (c' & r & E & U); [done..|]. exists c', r.
    split; [by exists 0%nat|done]. }
  apply orb_false_iff in Hv as [Va Vb]. destruct (same_head a' b') eqn:Hh.
  - destruct (unify_zip_runs k m (alpha_children a') (alpha_children b') c1 (ty_vars a' ∪ ty_vars b'))
      as (c' & r & [n0 Hn] & U).
    + intros c a b V Hc [[Ha Hb] _]%Forall_cons_1 Hlt. simpl in *.
      assert (size (ty_vars (res (subst c) a) ∪ ty_vars (res (subst c) b)) ≤ size V)%nat as Hsz
        by (apply subseteq_size; set_solver).
      destruct Hlt as [Hlt|[Hle Hlt]].
      * eapply (IHk (size V)); [done|done|done|reflexivity].
      * eapply (IHm (ty_size (res (subst c) a))); [done|done|lia|done].
    + done.
    + apply within_children; [apply Hc1|]. set_solver.
    + right. split; [done|].
      apply (list.Forall_impl _ _ _ (smaller_children _ a' b' (ready_acyclic _ Hc1) Fa)).
      simpl. lia.
    + exists c', r. split; [|by apply unified_children; set_solver].
      exists n0. intros n Hle. rewrite unify_resolved_head by done. by apply Hn.
  - destruct (unify_resolved_mismatch a' b') as [e He]; [done..|].
    exists c1, (Fail e). split; [|by apply unified_mismatch]. by exists 0%nat.
Qed.

(** ** Fuel and sessions *)

(** [f'] returns what [f] returns where that is not out of fuel. *)
Definition refines {A} (f f' : M Checker A) : Prop :=
  ∀ c c' r, f c = (c', r) → r ≠ Panic → f' c = (c', r).

Lemma refines_bind {A B} (m m' : M Checker A) (f f' : A → M Checker B) :
  refines m m' → (∀ x, refines (f x) (f' x)) → refines (m ≫= f) (m' ≫= f').
Proof.
  intros Hm Hf c c' r. unfold mbind, M_bind. destruct (m c) as [c1 r1] eqn:E.
  specialize (Hm c c1 r1 E). destruct r1 as [x|e|]; intros H Hr.
  - rewrite Hm by done. by apply Hf.
  - by rewrite Hm.
  - by destruct Hr; injection H.
Qed.

Lemma refines_refl {A} (m : M Checker A) : refines m m.
Proof. by intros ???. Qed.

Lemma unify_zip_refines u u' xs ys :
  (∀ x y, refines (u x y) (u' x y)) → refines (unify_zip u xs ys) (unify_zip u' xs ys).
Proof.
  intros Hu. revert ys. induction xs as [|x xs IH]; intros [|y ys]; simpl; try apply refines_refl.
  by apply refines_bind.
Qed.

Lemma unify_resolved_refines u u' a b :
  (∀ x y, refines (u x y) (u' x y)) → refines (unify_resolved u a b) (unify_resolved u' a b).
Proof.
  intros Hu. destruct (is_var a || is_var b) eqn:Hv.
  { replace (unify_resolved u' a b) with (unify_resolved u a b); [apply refines_refl|].
    by destruct a; try done; destruct b. }
  apply orb_false_iff in Hv as [Va Vb]. destruct (same_head a b) eqn:Hh.
  - intros c c' r. rewrite !unify_resolved_head by done. by apply unify_zip_refines.
  - destruct (unify_resolved_mismatch a b) as [e He]; [done..|].
    intros c c' r. by rewrite !He.
Qed.

Lemma unify_refines n m a b : (n ≤ m)%nat → refines (unify n a b) (unify m a b).
Proof.
  revert m a b. induction n as [|n IH]; intros [|m] a b Hnm; try lia; simpl.
  - by intros c c' r [= <- <-].
  - by intros c c' r [= <- <-].
  - repeat (apply refines_bind; [apply refines_refl|intros ?]).
    apply unify_resolved_refines. intros t u. apply IH. lia.
Qed.

(** Whatever the fuel, a call that returns returns the one result. *)
Lemma runs_unique a b c c' r n c1 r1 :
  runs (λ n, unify n a b) c c' r → unify n a b c = (c1, r1) → r1 ≠ Panic → (c1, r1) = (c', r).
Proof.
  intros [n0 H] E Hr. specialize (H (n0 `max` n)%nat ltac:(lia)).
  rewrite <- H. symmetry. apply (unify_refines n); [lia|done..].
Qed.

(** The states of a checking session.  [restore_subst] goes back to the
    substitution of an earlier state; a call that ran out of fuel has no
    successor. *)
Inductive session : Checker → Prop :=
  | session_start : session new_checker
  | session_fresh c c' t : session c → fresh c = (c', Done t) → session c'
  | session_resolve c c' t t' : session c → resolve t c = (c', Done t') → session c'
  | session_unify n a b c c' r : session c → unify n a b c = (c', r) → r ≠ Panic → session c'
  | session_restore saved c : session saved → session c → session (set_subst (subst saved) c).

Lemma session_ready c : session c → ready c.
Proof.
  induction 1 as [|c c' t _ [IH1 IH2] E|c c' t t' _ IH E|n a b c c' r _ IH E Hr|saved c _ IH _ _].
  - split; [apply acyclic_empty|]. intros v t. simpl. by rewrite lookup_empty.
  - injection E as <- <-. by split.
  - destruct (resolve_reads t c IH) as (c1 & E1 & _ & R1). by rewrite E1 in E; injection E as <- <-.
  - destruct (unify_runs a b c IH) as (c1 & r1 & H1 & U1).
    pose proof (runs_unique _ _ _ _ _ _ _ _ H1 E Hr) as [= -> ->]. apply U1.
  - split; [apply IH|]. intros v t. simpl. by rewrite lookup_empty.
Qed.

(** * Theorems *)

(** C16: The optimised [resolve] is the substitution.  In every state of
    a session, reporting only changed parts and answering from the cache
    gives exactly the type the bindings denote, applied until nothing
    changes: it never fails, changes nothing but the cache, leaves no bound
    variable in its result and is idempotent. *)
Theorem resolve_agrees c t :
  session c →
  (∃ c', resolve t c = (c', Done (res (subst c) t)) ∧ same_facts c c' ∧ ready c')
  ∧ (∀ v, v ∈ ty_vars (res (subst c) t) → subst c !! v = None)
  ∧ res (subst c) (res (subst c) t) = res (subst c) t.
Proof.
  intros Hc%session_ready. split_and!.
  - by apply resolve_reads.
  - apply res_vars_free, Hc.
  - apply res_idem, Hc.
Qed.

(** In every state of a session, also after failures in the middle
    of a unification and after restoring an earlier substitution, the
    bindings have no cycle and the cache holds only current answers. *)
Theorem session_invariant c : session c → acyclic (subst c) ∧ coherent c.
Proof. intros [H1 H2]%session_ready. done. Qed.

(** C15: [unify] ends.  From any state of a session and on any two types
    (callables with lifetime markers included) some fuel is enough, more
    fuel gives the same state and result, less fuel can only run out; the
    call succeeds or fails with a message, and even a failing call only adds
    bindings and keeps the fresh-variable counter. *)
Theorem unify_terminates a b c :
  session c →
  ∃ n0 c' r, (∀ n, (n0 ≤ n)%nat → unify n a b c = (c', r))
    ∧ (∀ n c1 r1, unify n a b c = (c1, r1) → r1 = Panic ∨ (c1, r1) = (c', r))
    ∧ r ≠ Panic ∧ subst c ⊆ subst c' ∧ next_var c' = next_var c.
Proof.
  intros Hc%session_ready. destruct (unify_runs a b c Hc) as (c' & r & [n0 Hn] & U).
  exists n0, c', r. split_and!; [done| |apply U..].
  intros n c1 r1 E. destruct r1; [right|right|by left];
    (eapply runs_unique; [by exists n0|done|done]).
Qed.

(** C14: Unification is exact on types without lifetime markers: it
    succeeds precisely when some assignment that solves the bindings made so
    far makes the two types equal (up to the spelling of [Task] and absent
    reference flags), and then both sides resolve to equal types and the new
    bindings are most general: every such assignment solves them too.  A
    type error is never reported for types that could be made equal. *)
Theorem unify_exact a b c n c' r :
  session c → marker_free_subst (subst c) → marker_free a = true → marker_free b = true →
  unify n a b c = (c', r) → r ≠ Panic →
  (r = Done tt ↔ ∃ θ, solves θ (subst c) ∧ canon (inst θ a) = canon (inst θ b))
  ∧ (r = Done tt → canon (res (subst c') a) = canon (res (subst c') b))
  ∧ (∀ θ, solves θ (subst c) → canon (inst θ a) = canon (inst θ b) → solves θ (subst c'))
  ∧ marker_free_subst (subst c').
Proof.
  intros Hc%session_ready Hm Ha Hb E Hr. destruct (unify_runs a b c Hc) as (c1 & r1 & H1 & U).
  pose proof (runs_unique _ _ _ _ _ _ _ _ H1 E Hr) as [= <- <-]. clear H1 E.
  assert (Forall (λ p, marker_free (fst p) = true ∧ marker_free (snd p) = true) [(a, b)]) as Hp
    by by apply Forall_one.
  assert (∀ θ, solves θ (subst c) → canon (inst θ a) = canon (inst θ b) → r = Done tt ∧ solves θ (subst c'))
    as Hcomplete.
  { intros θ Hθ Hab. apply (un_complete _ _ _ _ U θ); [done..|]. by apply Forall_one. }
  assert (r = Done tt → canon (res (subst c') a) = canon (res (subst c') b)) as Hsound.
  { intros Hd. by apply (un_sound _ _ _ _ U) in Hd as [H _]%Forall_cons_1. }
  split_and!.
  - split; [|intros (θ & Hθ & Hab); by apply (Hcomplete θ)].
    intros Hd. destruct (res_solves (subst c')) as [Hθ Hi]; [apply U|].
    exists (λ v, res (subst c') (Ty.Var v)). rewrite !Hi. split; [|auto].
    intros v u Hv. apply Hθ. by eapply lookup_weaken; [|apply U].
  - done.
  - intros θ Hθ Hab. by apply Hcomplete.
  - by apply (un_markers _ _ _ _ U).
Qed.

(** Lifetime names leak out of their binders: unifying a callable
    that takes a [Cursor] over an inferred lifetime with one whose two
    parameters share a lifetime succeeds, binding the inference variable to
    the internal name given to the bound lifetime; the two types are then
    still not equal, and the very same call on the resulting state fails. *)
Theorem lifetime_names_leak :
  let cursor l := Ty.Named "Cursor" [l] in
  let callable x y := Ty.Fn [cursor x; cursor y] Ty.Unit [Footprint.Let; Footprint.Let]
                        [false; false] {| pure := false; once := false |} in
  let a := callable (Ty.Var 0) (Ty.Named "'p" []) in
  let b := callable (Ty.Named "'q" []) (Ty.Named "'q" []) in
  let first := unify 4 a b new_checker in
  snd first = Done tt
  ∧ res (subst (fst first)) (Ty.Var 0) = Ty.Named "'__witchy_bound_0" []
  ∧ snd (unify 4 a b (fst first))
    = Fail "expected `'__witchy_bound_1`, found `'__witchy_bound_0`".
Proof. by vm_compute. Qed.

(** ** Witnesses *)

(** After unifying [?0] with [List(?1)] and [?1] with [Int]. *)
Definition sample : Checker :=
  fst (unify 3 (Ty.Var 1) Ty.Int (fst (unify 3 (Ty.Var 0) (Ty.List (Ty.Var 1)) new_checker))).

Lemma sample_session : session sample.
Proof.
  apply (session_unify 3 (Ty.Var 1) Ty.Int (fst (unify 3 (Ty.Var 0) (Ty.List (Ty.Var 1)) new_checker))
           sample (Done tt)); [|by vm_compute|done].
  by apply (session_unify 3 (Ty.Var 0) (Ty.List (Ty.Var 1)) new_checker _ (Done tt));
    [apply session_start|vm_compute|].
Qed.

Lemma resolve_agrees_witness :
  res (subst sample) (Ty.Var 0) = Ty.List Ty.Int
  ∧ ∃ c', resolve (Ty.Var 0) sample = (c', Done (res (subst sample) (Ty.Var 0)))
    ∧ same_facts sample c' ∧ ready c'.
Proof.
  split; [by vm_compute|]. exact (proj1 (resolve_agrees sample (Ty.Var 0) sample_session)).
Defined.

Lemma session_invariant_witness : session sample ∧ acyclic (subst sample) ∧ coherent sample.
Proof. split; [apply sample_session|]. exact (session_invariant sample sample_session). Defined.

Lemma unify_terminates_witness :
  ∃ n0 c' r, (∀ n, (n0 ≤ n)%nat → unify n (Ty.Var 0) Ty.Int sample = (c', r)) ∧ r ≠ Panic.
Proof.
  destruct (unify_terminates (Ty.Var 0) Ty.Int sample sample_session) as (n0 & c' & r & H1 & _ & H2 & _).
  by exists n0, c', r.
Defined.

Lemma unify_exact_witness :
  snd (unify 3 (Ty.Var 2) (Ty.Tuple [Ty.Var 0; Ty.Var 3]) sample) = Done tt
  ∧ ∃ θ, solves θ (subst sample)
      ∧ canon (inst θ (Ty.Var 2)) = canon (inst θ (Ty.Tuple [Ty.Var 0; Ty.Var 3])).
Proof.
  split; [by vm_compute|].
  apply (unify_exact (Ty.Var 2) (Ty.Tuple [Ty.Var 0; Ty.Var 3]) sample 3
           (fst (unify 3 (Ty.Var 2) (Ty.Tuple [Ty.Var 0; Ty.Var 3]) sample)) (Done tt)).
  - apply sample_session.
  - apply map_Forall_to_list. vm_compute. by repeat constructor.
  - done.
  - done.
  - by vm_compute.
  - done.
  - done.
Defined.
