(* ===== verification/Inference.v ===== *)
(** * Inference: operations of the checker over its unifier

    Models, of [crates/witchy-types/src/typeck.rs], the conversion of a source
    type to a checker type ([named_builtin], [to_ty]), the instantiation of a
    generic signature ([fresh_typeparam_map], [subst_vars], [instantiate]),
    the comparison [same_resolved_type], the narrowing ascription
    [check_narrow] and the directional tests of call arguments ([coercible],
    the capability [match] of [coerce_arg], [callable_purity_widening] and
    [coerce_rooted_slice_read_arg]).

    The field [current_typarams] of [Checker] is an argument of [to_ty].  The
    type parameters of a signature are a [HashSet]; the model takes them as a
    list in the order the set is iterated in, and the theorems hold for every
    order. *)

From S2P Require Import Prelude Text Catalog Footprint CapRights Types Substitution Unify.

Local Open Scope string_scope.

(** ** Source types *)

Abbreviation AstType := Footprint.Ty.

Fixpoint type_is_exclusive_reference (ty : AstType) : bool :=
  match ty with
  | Footprint.Qualified (Footprint.BorrowMut _) _ => true
  | Footprint.Qualified (Footprint.Frozen | Footprint.Unique) inner =>
      type_is_exclusive_reference inner
  | _ => false
  end.

(** The rows of [named_builtin] that do not recurse. *)
Definition builtin_leaf (name : string) (args : list AstType) : option Ty :=
  if String.eqb name "Int" then Some Ty.Int
  else if String.eqb name "Float" then Some Ty.Float
  else if String.eqb name "Duration" then Some Ty.Duration
  else if String.eqb name "String" then Some Ty.String
  else if String.eqb name "Bytes" then Some Ty.Bytes
  else if String.eqb name "__Msg" then Some Ty.Msg
  else if String.eqb name "Bool" then Some Ty.Bool
  else if String.eqb name "Nil" then Some Ty.Unit
  else if String.eqb name "Console" then Some (Ty.Console (console_rights args))
  else if String.eqb name "Clock" then Some Ty.Clock
  else if String.eqb name "Rand" then Some Ty.Rand
  else if String.eqb name "Env" then Some Ty.Env
  else if String.eqb name "Secret" then Some (Ty.Secret (secret_rights args))
  else if String.eqb name "Exec" then Some Ty.Exec
  else if String.eqb name "Fetch" then Some Ty.Fetch
  else if String.eqb name "Dir" then Some (Ty.Dir (dir_rights args))
  else if String.eqb name "File" then Some (Ty.File (file_rights args))
  else if String.eqb name "Net" then Some (Ty.Net (net_rights args))
  else if String.eqb name "Socket" then Some Ty.Socket
  else if String.eqb name "Listener" then Some Ty.Listener
  else if String.eqb name "BuildOut" then Some Ty.BuildOut
  else if String.eqb name "BuildRead" then Some Ty.BuildRead
  else if String.eqb name "BuildEnv" then Some Ty.BuildEnv
  else if String.eqb name "BuildNet" then Some Ty.BuildNet
  else if String.eqb name "BuildExec" then Some Ty.BuildExec
  else None.

Definition named_builtin (elem : AstType → M Checker Ty) (name : string) (args : list AstType)
  : M Checker (option Ty) :=
  match builtin_leaf name args with
  | Some t => mret (Some t)
  | None =>
      if String.eqb name "List" then
        e ← match args with a :: _ => elem a | [] => fresh end;
        mret (Some (Ty.List e))
      else mret None
  end.

(** [unreachable!] on a record composition is a panic. *)
Fixpoint to_ty (current_typarams : gmap string N) (t : AstType) : M Checker Ty :=
  match t with
  | Footprint.Qualified Footprint.View inner => e ← to_ty current_typarams inner; mret (Ty.View e)
  | Footprint.Qualified _ inner => to_ty current_typarams inner
  | Footprint.Slice elem => inner ← to_ty current_typarams elem; mret (Ty.Named "Slice" [inner])
  | Footprint.Tuple [] => mret Ty.Unit
  | Footprint.Tuple ts => l ← mapM (to_ty current_typarams) ts; mret (Ty.Tuple l)
  | Footprint.Fn params ret conventions qualifiers =>
      ps ← mapM (to_ty current_typarams) params;
      r ← to_ty current_typarams ret;
      mret (Ty.Fn ps r conventions (List.map type_is_exclusive_reference params) qualifiers)
  | Footprint.Dyn name args => l ← mapM (to_ty current_typarams) args; mret (Ty.Dyn name l)
  | Footprint.RecordCompose _ _ => panic
  | Footprint.Named name args =>
      builtin ← named_builtin (to_ty current_typarams) name args;
      match builtin with
      | Some t => mret t
      | None =>
          match args, str_contains "." name, current_typarams !! name with
          | [], false, Some v => mret (Ty.Var v)
          | _, _, _ => l ← mapM (to_ty current_typarams) args; mret (Ty.Named name l)
          end
      end
  end.

(** ** Instantiation of generic signatures *)

Definition fresh_typeparam (fresh_map : gmap N Ty) (v : N) : M Checker (gmap N Ty) :=
  r ← resolve (Ty.Var v);
  match r with
  | Ty.Var rv =>
      match fresh_map !! rv with
      | Some _ => mret fresh_map
      | None => t ← fresh; mret (<[rv := t]> fresh_map)
      end
  | _ => mret fresh_map
  end.

Fixpoint fresh_typeparams (typarams : list N) (fresh_map : gmap N Ty) : M Checker (gmap N Ty) :=
  match typarams with
  | [] => mret fresh_map
  | v :: rest => m ← fresh_typeparam fresh_map v; fresh_typeparams rest m
  end.

Definition fresh_typeparam_map (typarams : list N) : M Checker (gmap N Ty) :=
  fresh_typeparams typarams ∅.

Fixpoint subst_vars (n : nat) (map : gmap N Ty) (t : Ty) : M Checker Ty :=
  match n with
  | O => panic
  | S n =>
      t' ← resolve t;
      match t' with
      | Ty.Var v => mret (default (Ty.Var v) (map !! v))
      | Ty.List e => e ← subst_vars n map e; mret (Ty.List e)
      | Ty.View payload => p ← subst_vars n map payload; mret (Ty.View p)
      | Ty.Tuple ts => l ← mapM (subst_vars n map) ts; mret (Ty.Tuple l)
      | Ty.Named name args => l ← mapM (subst_vars n map) args; mret (Ty.Named name l)
      | Ty.Dyn name args => l ← mapM (subst_vars n map) args; mret (Ty.Dyn name l)
      | Ty.Fn params ret conventions reference_params qualifiers =>
          ps ← mapM (subst_vars n map) params;
          r ← subst_vars n map ret;
          mret (Ty.Fn ps r conventions reference_params qualifiers)
      | other => mret other
      end
  end.

Definition instantiate (n : nat) (params : list Ty) (ret : Ty) (typarams : list N)
  : M Checker (list Ty * Ty) :=
  fresh_map ← fresh_typeparam_map typarams;
  p ← mapM (subst_vars n fresh_map) params;
  r ← subst_vars n fresh_map ret;
  mret (p, r).

(** ** Comparisons and directional checks *)

Section all.
Context (f : Ty → Ty → M Checker bool).
Definition all_zip : list Ty → list Ty → M Checker bool :=
  fix go xs ys := match xs, ys with
  | x :: xs, y :: ys => b ← f x y; if (b : bool) then go xs ys else mret false
  | _, _ => mret true
  end.
End all.

Fixpoint same_resolved_type (n : nat) (a b : Ty) : M Checker bool :=
  match n with
  | O => panic
  | S n =>
      a ← resolve a;
      b ← resolve b;
      match a, b with
      | Ty.Named x xa, Ty.Named y ya =>
          if same_builtin_nominal_head x y && same_len xa ya
          then all_zip (same_resolved_type n) xa ya
          else mret (bool_decide (a = b))
      | _, _ => mret (bool_decide (a = b))
      end
  end.

(** [!wanted || held] of one right. *)
Definition right_within (wanted held : bool) : bool := negb wanted || held.

(** The rows shared by [check_narrow] and [coerce_arg]: [want] asks for no
    right [has] lacks.  [None] when the two are not the same capability with
    rights. *)
Definition rights_subset (want has : Ty) : option bool :=
  match want, has with
  | Ty.Dir t, Ty.Dir s =>
      Some (right_within (dir_read t) (dir_read s) && right_within (dir_write t) (dir_write s))
  | Ty.File t, Ty.File s =>
      Some (right_within (file_read t) (file_read s) && right_within (file_write t) (file_write s))
  | Ty.Net t, Ty.Net s =>
      Some (right_within (net_connect t) (net_connect s) && right_within (net_listen t) (net_listen s)
            && right_within (net_tcp t) (net_tcp s) && right_within (net_udp t) (net_udp s)
            && right_within (net_uds t) (net_uds s))
  | Ty.Console t, Ty.Console s =>
      Some (right_within (console_read t) (console_read s)
            && right_within (console_write t) (console_write s))
  | Ty.Secret t, Ty.Secret s =>
      Some (right_within (secret_reveal t) (secret_reveal s)
            && right_within (secret_seal t) (secret_seal s))
  | _, _ => None
  end.

(** A target [as] may pin an unconstrained source to. *)
Definition narrowable (target : Ty) : bool :=
  match target with
  | Ty.Dir _ | Ty.File _ | Ty.Net _ | Ty.Console _ | Ty.Secret _ | Ty.Exec | Ty.Fetch => true
  | _ => false
  end.

(** [.map_err(|e| TypeError { message: format!("{prefix}{}", e.message) })] *)
Definition map_error {A} (prefix : string) (m : M Checker A) : M Checker A := λ c,
  match m c with
  | (c', Fail e) => (c', Fail (prefix +:+ e))
  | other => other
  end.

Definition cannot_ascribe (resolved target : Ty) : string :=
  "`as` narrows a capability to a subset of its rights; cannot ascribe `" +:+ show_ty resolved
  +:+ "` as `" +:+ show_ty target +:+ "`".

Definition check_narrow (n : nat) (src target : Ty) : M Checker unit :=
  resolved ← resolve src;
  let check (ok : bool) : M Checker unit :=
    throw_if (negb ok) ("`as` can only drop rights: `" +:+ show_ty target +:+ "` is not a subset of `"
                        +:+ show_ty resolved +:+ "`") in
  match rights_subset target resolved with
  | Some ok => check ok
  | None =>
      match resolved, target with
      | Ty.Exec, Ty.Exec => check true
      | Ty.Fetch, Ty.Fetch => check true
      | Ty.Var _, _ =>
          if narrowable target
          then map_error "in `as` ascription: " (unify n src target)
          else throw (cannot_ascribe resolved target)
      | _, _ => throw (cannot_ascribe resolved target)
      end
  end.

(** The [coercible] test of [coerce_arg] on the resolved types. *)
Definition coercible (expected actual : Ty) : bool := default false (rights_subset expected actual).

Definition callable_purity_widening (expected actual : Ty) : M Checker bool :=
  expected ← resolve expected;
  actual ← resolve actual;
  mret match expected, actual with
       | Ty.Fn _ _ _ _ eq, Ty.Fn _ _ _ _ aq =>
           negb (pure eq) && pure aq && eqb (once eq) (once aq)
       | _, _ => false
       end.

Definition coerce_rooted_slice_read_arg (n : nat) (expected actual : Ty) : M Checker bool :=
  expected ← resolve expected;
  match expected with
  | Ty.List expected_element =>
      actual ← resolve actual;
      match actual with
      | Ty.View payload =>
          payload ← resolve payload;
          match payload with
          | Ty.Named name [argument] =>
              if String.eqb name "Slice" then unify n expected_element argument;; mret true
              else mret false
          | _ => mret false
          end
      | _ => mret false
      end
  | _ => mret false
  end.

(** ** Rights of a capability type *)

(** The capabilities [as] narrows. *)
Definition narrow_kind (t : Ty) : option CapabilityKind :=
  match t with
  | Ty.Dir _ => Some Catalog.Dir
  | Ty.File _ => Some Catalog.File
  | Ty.Net _ => Some Catalog.Net
  | Ty.Console _ => Some Catalog.Console
  | Ty.Secret _ => Some Catalog.Secret
  | Ty.Exec => Some Catalog.Exec
  | Ty.Fetch => Some Catalog.Fetch
  | _ => None
  end.

Definition right_of (t : Ty) (r : CapabilityRight) : bool :=
  match t, r with
  | Ty.Dir s, Read => dir_read s
  | Ty.Dir s, Write => dir_write s
  | Ty.File s, Read => file_read s
  | Ty.File s, Write => file_write s
  | Ty.Console s, Read => console_read s
  | Ty.Console s, Write => console_write s
  | Ty.Secret s, Reveal => secret_reveal s
  | Ty.Secret s, Seal => secret_seal s
  | Ty.Net s, Connect => net_connect s
  | Ty.Net s, Listen => net_listen s
  | Ty.Net s, Tcp => net_tcp s
  | Ty.Net s, Udp => net_udp s
  | Ty.Net s, Uds => net_uds s
  | _, _ => false
  end.

(** [want] is the same capability as [has] with no right [has] lacks. *)
Definition narrows (want has : Ty) : Prop :=
  narrow_kind want = narrow_kind has ∧ is_Some (narrow_kind want)
  ∧ ∀ r, right_of want r = true → right_of has r = true.

Lemma right_within_spec w h : right_within w h = true ↔ (w = true → h = true).
Proof. destruct w, h; simpl; naive_solver. Qed.

Lemma rights_subset_true want has :
  rights_subset want has = Some true → narrows want has.
Proof.
  intros H. destruct want; try done; destruct has; try done; simpl in H; injection H as H;
    rewrite ?andb_true_iff, ?right_within_spec in H;
    (split_and!; [done|by eexists|intros []; simpl; tauto]).
Qed.

Lemma rights_subset_false want has : rights_subset want has = Some false → ¬ narrows want has.
Proof.
  intros H (_ & _ & Hr).
  pose proof (Hr Read). pose proof (Hr Write). pose proof (Hr Connect). pose proof (Hr Listen).
  pose proof (Hr Tcp). pose proof (Hr Udp). pose proof (Hr Uds). pose proof (Hr Reveal).
  pose proof (Hr Seal). clear Hr.
  destruct want; try done; destruct has; try done; simpl in *; injection H as H;
    rewrite <- not_true_iff_false, ?andb_true_iff, ?right_within_spec in H; tauto.
Qed.

Lemma rights_subset_none want has :
  rights_subset want has = None →
  narrows want has ↔ want = Ty.Exec ∧ has = Ty.Exec ∨ want = Ty.Fetch ∧ has = Ty.Fetch.
Proof.
  intros H. split.
  - intros (Hk & [k Hk'] & _). destruct want; try done; destruct has; try done; auto.
  - intros [[-> ->]|[-> ->]]; (split_and!; [done|by eexists|done]).
Qed.

(** ** Reading operations *)

Lemma mapM_reads {A} (f : Ty → M Checker A) (g : Ty → A) s ts c :
  Forall (λ u, ∀ c, ready c → subst c = s → reads c (f u) (g u)) ts →
  ready c → subst c = s → reads c (mapM f ts) (List.map g ts).
Proof.
  intros H. revert c. induction H as [|u ts Hu H IH]; intros c Hc Hs; simpl; [by apply reads_ret|].
  eapply reads_bind; [by apply Hu|]. intros c' Hs' Hc'.
  eapply reads_bind; [apply IH; [done|by rewrite (same_subst _ _ Hs')]|].
  intros. by apply reads_ret.
Qed.

Definition renaming (map : gmap N Ty) (v : N) : Ty := default (Ty.Var v) (map !! v).

Lemma subst_vars_reads n map t c :
  ready c → (ty_size (res (subst c) t) ≤ n)%nat →
  reads c (subst_vars n map t) (inst (renaming map) (res (subst c) t)).
Proof.
  revert t c. induction n as [|n IH]; intros t c Hc Hn.
  { rewrite ty_size_children in Hn. lia. }
  simpl. eapply reads_bind; [by apply resolve_reads|]. intros c1 Hs1 Hc1.
  pose proof (same_subst _ _ Hs1) as Es.
  pose proof (res_vars_free (subst c) (ready_acyclic _ Hc) t) as Hfree.
  revert Hn Hfree Es. generalize (res (subst c) t) as t'. generalize (subst c) as s.
  clear t c Hc Hs1. intros s t Hn Hfree Es.
  assert (∀ u, u ∈ children t → ∀ c, ready c → subst c = s →
    reads c (subst_vars n map u) (inst (renaming map) u)) as Hk.
  { intros u Hu c2 Hc2 Es2. assert (res s u = u) as Eu.
    { apply res_fixed; [rewrite <- Es2; apply Hc2|]. intros v Hin. apply Hfree.
      by apply (ty_vars_child u t). }
    pose proof (child_smaller _ _ Hu).
    eapply reads_mono; [apply IH; [done|]|]; rewrite Es2, Eu; [lia|done]. }
  assert (∀ ts, (∀ u, u ∈ ts → u ∈ children t) → ∀ c, ready c → subst c = s →
    reads c (mapM (subst_vars n map) ts) (List.map (inst (renaming map)) ts)) as Hl.
  { intros ts Hts c2 Hc2 Es2. apply (mapM_reads _ _ s); [|done|done].
    apply list.Forall_forall. auto. }
  destruct t; try (by apply reads_ret); simpl children in *;
    try (eapply reads_bind; [by apply Hl|intros; by apply reads_ret]);
    try (eapply reads_bind; [apply Hk; [set_solver|done..]|intros; by apply reads_ret]).
  eapply reads_bind; [apply Hl; [set_solver|done..]|]. intros c2 Hs2 Hc2.
  eapply reads_bind; [apply Hk; [set_solver|done|by rewrite (same_subst _ _ Hs2)]|].
  intros. by apply reads_ret.
Qed.

(** ** Fresh maps *)

(** [m] sends each unbound representative of the parameters [ps] to a
    variable of its own in [lo, hi). *)
Record generic_map (s : Subst) (lo hi : N) (ps : list N) (m : gmap N Ty) : Prop := {
  generic_dom v : is_Some (m !! v) ↔ ∃ p, p ∈ ps ∧ res s (Ty.Var p) = Ty.Var v;
  generic_fresh v t : m !! v = Some t → ∃ k, t = Ty.Var k ∧ (lo ≤ k < hi)%N;
  generic_inj v w t : m !! v = Some t → m !! w = Some t → v = w;
}.

Lemma generic_map_skip s lo hi ps p m :
  generic_map s lo hi ps m →
  (∀ v, res s (Ty.Var p) = Ty.Var v → is_Some (m !! v)) → generic_map s lo hi (ps ++ [p]) m.
Proof.
  intros [H1 H2 H3] Hp. split; [|done|done]. intros v. rewrite H1. split.
  - intros (q & Hq & E). exists q. set_solver.
  - intros (q & [Hq| ->%list_elem_of_singleton]%elem_of_app & E); [eauto|]. apply H1. auto.
Qed.

Lemma generic_map_add s lo hi ps p m v :
  generic_map s lo hi ps m → m !! v = None → res s (Ty.Var p) = Ty.Var v → (lo ≤ hi)%N →
  generic_map s lo (hi + 1) (ps ++ [p]) (<[v := Ty.Var hi]> m).
Proof.
  intros [H1 H2 H3] Hv Hp Hle. split.
  - intros w. destruct (decide (v = w)) as [<-|Hne].
    + rewrite lookup_insert_eq. split; [|by eexists]. intros _. exists p. set_solver.
    + rewrite lookup_insert_ne, H1 by done. split.
      * intros (q & Hq & E). exists q. set_solver.
      * intros (q & [Hq| ->%list_elem_of_singleton]%elem_of_app & E); [eauto|congruence].
  - intros w t. rewrite lookup_insert_Some. intros [[<- <-]|[_ E]].
    + exists hi. split; [done|lia].
    + apply H2 in E as (k & -> & ?). exists k. split; [done|lia].
  - intros w1 w2 t. rewrite !lookup_insert_Some. intros [[<- <-]|[_ E1]] [[<- E]|[_ E2]]; try done.
    + apply H2 in E2 as (k & [= ->] & ?). lia.
    + subst t. apply H2 in E1 as (k & [= ->] & ?). lia.
    + by eapply H3.
Qed.

(** What [fresh] and reading leave alone. *)
Record advances (c c' : Checker) : Prop := {
  adv_subst : subst c' = subst c;
  adv_ready : ready c';
  adv_storage : unique_storage_types c' = unique_storage_types c;
}.

(** One round of the loop. *)
Lemma fresh_typeparam_spec p done_ps m lo c :
  ready c → generic_map (subst c) lo (next_var c) done_ps m → (lo ≤ next_var c < u32_max)%N →
  ∃ c' m', fresh_typeparam m p c = (c', Done m') ∧ advances c c'
    ∧ generic_map (subst c) lo (next_var c') (done_ps ++ [p]) m'
    ∧ (next_var c ≤ next_var c' ≤ next_var c + 1)%N.
Proof.
  intros Hc Hm Hlo. destruct (resolve_reads (Ty.Var p) c Hc) as (c1 & E1 & Hs1 & Hc1).
  pose proof (same_subst _ _ Hs1) as Es1. pose proof (same_next_var _ _ Hs1) as En1.
  unfold fresh_typeparam, mbind, M_bind. rewrite E1.
  assert (advances c c1) as A1 by by split; [|apply Hc1|apply Hs1].
  assert ((∀ v, res (subst c) (Ty.Var p) = Ty.Var v → is_Some (m !! v)) →
    ∃ c2 m2, (c1, Done m) = (c2, Done m2) ∧ advances c c2
      ∧ generic_map (subst c) lo (next_var c2) (done_ps ++ [p]) m2
      ∧ (next_var c ≤ next_var c2 ≤ next_var c + 1)%N) as Hskip.
  { intros Hp. exists c1, m. rewrite En1. split_and!; [done|done|by apply generic_map_skip|lia..]. }
  destruct (res (subst c) (Ty.Var p)) eqn:Er; try (by apply Hskip).
  destruct (m !! v) eqn:Ev; [apply Hskip; intros ? [= <-]; by eexists|].
  eexists _, _. split; [reflexivity|].
  assert (((next_var c1 + 1) mod (u32_max + 1) = next_var c + 1)%N) as Enext.
  { rewrite En1. apply N.mod_small. unfold u32_max in *. lia. }
  split_and!; simpl; rewrite ?Enext; [|rewrite En1; apply generic_map_add; [done..|lia]|lia..].
  split; [done| |apply Hs1]. by destruct Hc1 as [R1 R2].
Qed.

Lemma fresh_typeparams_spec ps done_ps m lo c :
  ready c → generic_map (subst c) lo (next_var c) done_ps m → (lo ≤ next_var c)%N →
  (next_var c + N.of_nat (length ps) ≤ u32_max)%N →
  ∃ c' m', fresh_typeparams ps m c = (c', Done m') ∧ advances c c'
    ∧ generic_map (subst c) lo (next_var c') (done_ps ++ ps) m'
    ∧ (next_var c ≤ next_var c' ≤ next_var c + N.of_nat (length ps))%N.
Proof.
  revert done_ps m c. induction ps as [|p ps IH]; intros done_ps m c Hc Hm Hlo Hmax.
  { exists c, m. rewrite app_nil_r. split_and!; [done|by split|done|lia..]. }
  simpl length in Hmax.
  destruct (fresh_typeparam_spec p done_ps m lo c) as (c2 & m2 & E2 & [A1 A2 A3] & G2 & N2);
    [done|done|lia|].
  destruct (IH (done_ps ++ [p])%list m2 c2) as (c3 & m3 & E3 & [B1 B2 B3] & G3 & N3);
    [done|by rewrite A1|lia|lia|].
  exists c3, m3. rewrite A1, <- app_assoc in G3.
  split_and!; [|split; congruence|done|simpl length; lia..].
  simpl. unfold mbind at 1, M_bind at 1. by rewrite E2.
Qed.

(** ** Binding and narrowing *)

(** A variable unifies with a type of no variables. *)
Lemma unify_var_ground n x t v c :
  ready c → res (subst c) x = Ty.Var v → ty_vars t = ∅ → is_var t = false →
  ∃ c', unify (S n) x t c = (c', Done tt) ∧ subst c' = <[v := t]> (subst c) ∧ ready c'
    ∧ res (subst c') x = t.
Proof.
  intros Hc Hx Ht Hv. destruct (unify_resolves x t c Hc) as (c1 & Hs & Hc1 & E).
  pose proof (same_subst _ _ Hs) as Es. pose proof (ready_acyclic _ Hc) as Ha.
  assert (res (subst c) t = t) as Et by (apply res_fixed; set_solver).
  assert (subst c !! v = None) as Hfree by (apply (res_vars_free _ Ha x); rewrite Hx; set_solver).
  rewrite E, Hx, Et. destruct (occurs_reads (ty_size t) v t c1) as (c2 & E2 & Hs2 & Hc2);
    [done|by rewrite Es, Et|].
  rewrite Es, Et in E2. unfold has_var in E2. rewrite Ht, bool_decide_eq_false_2 in E2 by set_solver.
  pose proof (same_subst _ _ Hs2) as Es2.
  assert (acyclic (<[v := t]> (subst c))) as Ha' by (apply acyclic_bind; [done..|set_solver|set_solver]).
  exists (set_subst (<[v := t]> (subst c2)) c2).
  assert (subst (set_subst (<[v := t]> (subst c2)) c2) = <[v := t]> (subst c)) as E3
    by (simpl; by rewrite Es2, Es).
  split_and!; [|done| |].
  - assert (unify_resolved (unify n) (Ty.Var v) t c1 = bind_checked v t c1) as -> by by destruct t.
    unfold bind_checked, mbind, M_bind. by rewrite E2.
  - split; [by rewrite E3|]. intros w u. simpl. by rewrite lookup_empty.
  - rewrite E3, <- (res_extend (subst c) _ x), Hx by (done || by apply insert_subseteq).
    rewrite (res_bound _ Ha' v t) by by rewrite lookup_insert_eq.
    apply res_fixed; [done|]. set_solver.
Qed.

Lemma check_narrow_known n src target c :
  ready c → is_var (res (subst c) src) = false →
  ∃ c' r, check_narrow n src target c = (c', r) ∧ same_facts c c' ∧ r ≠ Panic
    ∧ (r = Done tt ↔ narrows target (res (subst c) src)).
Proof.
  intros Hc. destruct (resolve_reads src c Hc) as (c1 & E1 & Hs & _).
  unfold check_narrow, mbind, M_bind. rewrite E1. generalize (res (subst c) src) as t. intros t Hv.
  destruct (rights_subset target t) as [[]|] eqn:Er; simpl.
  - exists c1, (Done tt). split_and!; [done..|]. split; [|done]. intros _. by apply rights_subset_true.
  - eexists c1, _. split_and!; [done..|]. split; [done|]. intros H. by apply rights_subset_false in Er.
  - pose proof (rights_subset_none target t Er) as Hn.
    destruct (decide (target = Ty.Exec ∧ t = Ty.Exec ∨ target = Ty.Fetch ∧ t = Ty.Fetch)) as [H|H].
    + exists c1, (Done tt). split_and!; [|done|done|tauto]. by destruct H as [[-> ->]|[-> ->]].
    + exists c1, (Fail (cannot_ascribe t target)). split_and!; [|done|done|split; [done|tauto]].
      destruct t; try done; destruct target; try done; tauto.
Qed.

Lemma narrowable_kind t : narrowable t = true ↔ is_Some (narrow_kind t).
Proof. split; [intros H; destruct t; try done; by eexists|intros [k Hk]; by destruct t]. Qed.

Lemma check_narrow_var n src target v c :
  ready c → res (subst c) src = Ty.Var v →
  ∃ c' r, check_narrow (S n) src target c = (c', r) ∧ r ≠ Panic
    ∧ (r = Done tt ↔ is_Some (narrow_kind target))
    ∧ (r = Done tt → res (subst c') src = target).
Proof.
  intros Hc Hv. destruct (resolve_reads src c Hc) as (c1 & E1 & Hs & Hc1).
  pose proof (same_subst _ _ Hs) as Es. unfold check_narrow, mbind, M_bind. rewrite E1, Hv.
  assert (rights_subset target (Ty.Var v) = None) as -> by by destruct target.
  pose proof (narrowable_kind target) as Hk. destruct (narrowable target) eqn:Hn.
  - destruct (unify_var_ground n src target v c1) as (c2 & E2 & _ & _ & Hr);
      [done|by rewrite Es|by destruct target|by destruct target|].
    exists c2, (Done tt). split_and!; [|done|naive_solver|done]. unfold map_error. by rewrite E2.
  - eexists c1, _. split_and!; [done..| |done]. split; [done|]. intros ?%Hk. done.
Qed.

(** * Theorems *)

(** C17: [as] never gains a right.  On a source whose type is known the
    ascription succeeds precisely when the target is the same capability and
    asks for no right the source lacks, and it binds nothing; on a source
    that is still a variable it succeeds precisely for the capabilities [as]
    can name, and the source then has exactly the ascribed type.  The
    capability test of call arguments follows the same order. *)
Theorem narrowing_exact n src target c c' r :
  session c → check_narrow (S n) src target c = (c', r) →
  r ≠ Panic
  ∧ (is_var (res (subst c) src) = false →
       (r = Done tt ↔ narrows target (res (subst c) src)) ∧ subst c' = subst c)
  ∧ (is_var (res (subst c) src) = true →
       (r = Done tt ↔ is_Some (narrow_kind target))
       ∧ (r = Done tt → res (subst c') src = target))
  ∧ (∀ want has, coercible want has = true → narrows want has).
Proof.
  intros Hc%session_ready E.
  assert (∀ want has, coercible want has = true → narrows want has) as Hco.
  { intros want has H. apply rights_subset_true. unfold coercible in H.
    by destruct (rights_subset want has) as [[]|]. }
  destruct (is_var (res (subst c) src)) eqn:Hv.
  - destruct (res (subst c) src) eqn:Es; try done.
    destruct (check_narrow_var n src target v c) as (c1 & r1 & E1 & H1 & H2 & H3); [done..|].
    rewrite E1 in E. injection E as <- <-. by split_and!.
  - destruct (check_narrow_known (S n) src target c) as (c1 & r1 & E1 & Hs & H1 & H2); [done..|].
    rewrite E1 in E. injection E as <- <-. split_and!; [done|intros _|done|done].
    split; [done|apply Hs].
Qed.

Lemma narrowing_exact_witness :
  snd (check_narrow 1 (Ty.Dir dir_full) (Ty.Dir {| dir_read := true; dir_write := false |}) sample) = Done tt
  ∧ narrows (Ty.Dir {| dir_read := true; dir_write := false |}) (Ty.Dir dir_full).
Proof.
  split; [by vm_compute|].
  apply (narrowing_exact 0 (Ty.Dir dir_full) (Ty.Dir {| dir_read := true; dir_write := false |})
    sample (fst (check_narrow 1 (Ty.Dir dir_full) (Ty.Dir {| dir_read := true; dir_write := false |}) sample))
    (Done tt)).
  - apply sample_session.
  - by vm_compute.
  - by vm_compute.
Defined.

(** Each call site of a generic function is independent.
    Instantiating a signature replaces exactly the type parameters that are
    still unbound (followed to their representatives) by fresh variables,
    distinct for distinct representatives and never used before, and leaves
    every other inference variable shared; it binds nothing, so a later
    instantiation of the same signature shares no variable with this one
    that was a parameter. *)
Theorem instantiate_exact n params ret typarams c :
  session c → (next_var c + N.of_nat (length typarams) ≤ u32_max)%N →
  Forall (λ t, (ty_size (res (subst c) t) ≤ n)%nat) (ret :: params) →
  ∃ c' m,
    instantiate n params ret typarams c
      = (c', Done (List.map (λ t, inst (renaming m) (res (subst c) t)) params,
                   inst (renaming m) (res (subst c) ret)))
    ∧ generic_map (subst c) (next_var c) (next_var c') typarams m
    ∧ subst c' = subst c ∧ (next_var c ≤ next_var c')%N ∧ ready c'.
Proof.
  intros Hc%session_ready Hmax [Hr Hp]%Forall_cons_1.
  destruct (fresh_typeparams_spec typarams [] ∅ (next_var c) c) as (c1 & m & E1 & [A1 A2 A3] & G & Hn);
    [done| |lia|done|].
  { split; intros v; [|by intros t; rewrite lookup_empty|by intros w t; rewrite lookup_empty].
    rewrite lookup_empty. split; [by intros [? ?]|]. intros (p & Hp' & _). set_solver. }
  assert (reads c1 (p ← mapM (subst_vars n m) params; r ← subst_vars n m ret; mret (p, r))
    (List.map (λ t, inst (renaming m) (res (subst c) t)) params, inst (renaming m) (res (subst c) ret)))
    as (c2 & E2 & Hs2 & Hc2).
  { assert (∀ t c', ready c' → subst c' = subst c → (ty_size (res (subst c) t) ≤ n)%nat →
      reads c' (subst_vars n m t) (inst (renaming m) (res (subst c) t))) as Hsv.
    { intros t c' Hc' <-. by apply subst_vars_reads. }
    eapply reads_bind.
    { apply (mapM_reads _ (λ t, inst (renaming m) (res (subst c) t)) (subst c)); [|done|done].
      apply (list.Forall_impl _ _ _ Hp). auto. }
    intros c' Hs' Hc'. eapply reads_bind; [apply Hsv; [done| |done]|intros; by apply reads_ret].
    by rewrite (same_subst _ _ Hs'). }
  exists c2, m. split_and!; [|by rewrite (same_next_var _ _ Hs2)| | |done].
  - unfold instantiate, fresh_typeparam_map. unfold mbind at 1, M_bind at 1. by rewrite E1.
  - by rewrite (same_subst _ _ Hs2).
  - rewrite (same_next_var _ _ Hs2). lia.
Qed.

Lemma instantiate_exact_witness :
  ∃ c' m, instantiate 5 [Ty.Var 7; Ty.Var 0] (Ty.List (Ty.Var 7)) [7%N] sample
    = (c', Done (List.map (λ t, inst (renaming m) (res (subst sample) t)) [Ty.Var 7; Ty.Var 0],
                 inst (renaming m) (res (subst sample) (Ty.List (Ty.Var 7)))))
    ∧ generic_map (subst sample) (next_var sample) (next_var c') [7%N] m.
Proof.
  destruct (instantiate_exact 5 [Ty.Var 7; Ty.Var 0] (Ty.List (Ty.Var 7)) [7%N] sample)
    as (c' & m & H1 & H2 & _).
  - apply sample_session.
  - by vm_compute.
  - repeat constructor; vm_compute; lia.
  - by exists c', m.
Defined.

Lemma builtin_leaf_rights kind args :
  kind ∈ [Catalog.Console; Catalog.Dir; Catalog.File; Catalog.Net; Catalog.Secret] →
  ∃ t, builtin_leaf (Kind.name kind) args = Some t ∧ narrow_kind t = Some kind
    ∧ ∀ r, right_of t r = held kind args r.
Proof.
  intros H%list_elem_of_In. destruct H as [<-|[<-|[<-|[<-|[<-|[]]]]]]; eexists; (split_and!; [reflexivity|done|by intros []]).
Qed.

(** The type checker and the footprint analyzer read the markers of
    a capability annotation with separate code.  For every kind with rights
    and every argument list, the type an annotation denotes is that
    capability, and it has a right exactly when the analyzer's footprint
    lists it, the [Net] axes and unknown markers included, up to one
    difference: for the checker [Reveal] implies [Seal], while the analyzer
    lists only the markers written.  So [Secret[Reveal]] is the full [Secret]
    to the checker, has no [Seal] in a footprint, and the widening gate
    reports [Secret] as wider than it. *)
Theorem annotation_rights_match_footprint :
  (∀ typarams kind args c,
     kind ∈ [Catalog.Console; Catalog.Dir; Catalog.File; Catalog.Net; Catalog.Secret] →
     ∃ t, to_ty typarams (Footprint.Named (Kind.name kind) args) c = (c, Done t)
       ∧ narrow_kind t = Some kind
       ∧ ∀ r, right_of t r = true
           ↔ Right.name r ∈ rights_from_args (Kind.name kind) args
             ∨ kind = Catalog.Secret ∧ r = Seal ∧ marks Catalog.Secret args Reveal)
  ∧ (let reveal := Footprint.Named "Secret" [Footprint.Named "Reveal" []] in
     let full := Footprint.Named "Secret" [] in
     (∀ c, to_ty ∅ reveal c = to_ty ∅ full c)
     ∧ cap_delta (caps_in full ∅ ∅) (caps_in reveal ∅ ∅) = {["Secret" := {["Seal"]}]}).
Proof.
  split.
  - intros typarams kind args c Hk. destruct (builtin_leaf_rights kind args Hk) as (t & Ht & Hn & Hr).
    exists t. split_and!; [|done|intros r; by rewrite Hr, held_analyzer].
    cbn [to_ty]. unfold named_builtin. by rewrite Ht.
  - split; [done|by vm_compute].
Qed.

Lemma annotation_rights_match_footprint_witness :
  ∃ t, to_ty ∅ (Footprint.Named "Net" [Footprint.Named "Connect" []]) new_checker = (new_checker, Done t)
    ∧ (right_of t Listen = true
       ↔ "Listen" ∈ rights_from_args "Net" [Footprint.Named "Connect" []]
         ∨ Catalog.Net = Catalog.Secret ∧ Listen = Seal ∧ marks Catalog.Secret [Footprint.Named "Connect" []] Reveal).
Proof.
  destruct (proj1 annotation_rights_match_footprint ∅ Catalog.Net [Footprint.Named "Connect" []] new_checker)
    as (t & H1 & _ & H2); [set_solver|].
  exists t. split; [exact H1|exact (H2 Listen)].
Defined.

(** A run of [unify] that succeeds on two callables had equal shapes. *)
Lemma unify_callables n c c' xp xr xc xf xq yp yr yc yf yq :
  ready c → unify n (Ty.Fn xp xr xc xf xq) (Ty.Fn yp yr yc yf yq) c = (c', Done tt) →
  xc = yc ∧ xq = yq ∧ length xp = length yp ∧ ready c'.
Proof.
  intros Hc E.
  assert (ready c') as Hc'.
  { destruct (unify_runs (Ty.Fn xp xr xc xf xq) (Ty.Fn yp yr yc yf yq) c Hc) as (c1 & r1 & H1 & U).
    assert ((c', Done tt) = (c1, r1)) as [= -> <-] by (by eapply runs_unique). apply U. }
  destruct n as [|n]; [done|].
  destruct (unify_resolves (Ty.Fn xp xr xc xf xq) (Ty.Fn yp yr yc yf yq) c Hc) as (c1 & Hs & Hc1 & E1).
  rewrite E1, !res_node in E by done. simpl map_children in E.
  destruct (same_head (Ty.Fn xp xr xc xf xq) (Ty.Fn yp yr yc yf yq)) eqn:Hh.
  - simpl in Hh. rewrite !andb_true_iff, same_len_spec, !bool_decide_eq_true in Hh. naive_solver.
  - destruct (unify_resolved_mismatch
      (Ty.Fn (List.map (res (subst c)) xp) (res (subst c) xr) xc xf xq)
      (Ty.Fn (List.map (res (subst c)) yp) (res (subst c) yr) yc yf yq)) as [e He]; [done..| |].
    + rewrite <- Hh. apply (same_head_map (res (subst c)) (res (subst c))
        (Ty.Fn xp xr xc xf xq) (Ty.Fn yp yr yc yf yq)); done.
    + by rewrite He in E.
Qed.

(** Where two branches are callables, their join keeps a qualifier
    only as far as both promise it: branches that disagree on being [once]
    are refused before anything is bound; otherwise a successful join is a
    callable with the conventions of both that is pure only if both are. *)
Theorem branch_lub_callables n left right c lp lr lc lf lq rp rr rc rf rq :
  session c →
  res (subst c) left = Ty.Fn lp lr lc lf lq → res (subst c) right = Ty.Fn rp rr rc rf rq →
  (once lq ≠ once rq → ∃ c' e, branch_lub n left right c = (c', Fail e) ∧ subst c' = subst c)
  ∧ (∀ c' t, branch_lub n left right c = (c', Done t) →
       once lq = once rq ∧ lc = rc ∧
       ∃ ps r, t = Ty.Fn ps r lc lf {| pure := pure lq && pure rq; once := once lq |}
               ∧ length ps = length lp ∧ length lp = length rp).
Proof.
  intros Hc%session_ready Hl Hr.
  destruct (resolve_reads left c Hc) as (c1 & E1 & S1 & R1).
  destruct (resolve_reads right c1 R1) as (c2 & E2 & S2 & R2).
  pose proof (same_subst _ _ S1) as Es1. pose proof (same_subst _ _ S2) as Es2.
  rewrite Hl in E1. rewrite Es1, Hr in E2.
  assert (branch_lub n left right c =
    (if negb (eqb (once lq) (once rq)) then
       throw ("callable branches disagree on invocation cardinality: `"
              +:+ show_ty (Ty.Fn lp lr lc lf lq) +:+ "` versus `" +:+ show_ty (Ty.Fn rp rr rc rf rq) +:+ "`")
     else
       unify n (Ty.Fn lp lr lc lf {| pure := pure lq && pure rq; once := once lq |})
         (Ty.Fn rp rr rc rf {| pure := pure lq && pure rq; once := once lq |});;
       resolve (Ty.Fn lp lr lc lf {| pure := pure lq && pure rq; once := once lq |})) c2) as ->.
  { unfold branch_lub. unfold mbind at 1, M_bind at 1. rewrite E1.
    unfold mbind at 1, M_bind at 1. by rewrite E2. }
  split.
  - intros Hne. rewrite (proj2 (eqb_false_iff _ _) Hne). simpl. eexists c2, _.
    split; [reflexivity|congruence].
  - intros c' t. destruct (eqb (once lq) (once rq)) eqn:Ho; [|done]. apply eqb_prop in Ho. simpl.
    unfold mbind, M_bind. destruct (unify n _ _ c2) as [c3 [[]|e|]] eqn:E3; [|done..]. intros E4.
    apply unify_callables in E3 as (-> & _ & Hlen & Hc3); [|done].
    destruct (resolve_reads (Ty.Fn lp lr rc lf {| pure := pure lq && pure rq; once := once lq |}) c3 Hc3)
      as (c4 & E5 & _ & _).
    rewrite E5, res_node in E4 by done. injection E4 as _ <-.
    split_and!; [done..|]. eexists _, _. split_and!; [reflexivity|by rewrite length_map|done].
Qed.

Lemma branch_lub_callables_witness :
  let f b := Ty.Fn [Ty.Int] Ty.Bool [Footprint.Let] [false] {| pure := b; once := false |} in
  snd (branch_lub 3 (f true) (f false) sample) = Done (f false)
  ∧ ∃ ps r, f false = Ty.Fn ps r [Footprint.Let] [false] {| pure := false; once := false |}.
Proof.
  intros f. split; [by vm_compute|].
  destruct (branch_lub_callables 3 (f true) (f false) sample
    [Ty.Int] Ty.Bool [Footprint.Let] [false] {| pure := true; once := false |}
    [Ty.Int] Ty.Bool [Footprint.Let] [false] {| pure := false; once := false |} sample_session)
    as [_ H]; [by vm_compute|by vm_compute|].
  destruct (H (fst (branch_lub 3 (f true) (f false) sample)) (f false)) as (_ & _ & ps & r & E & _);
    [by vm_compute|]. by exists ps, r.
Defined.
