(* ===== verification/Launch.v ===== *)
(** * Launch: the launch contract and the heap mode it declares

    Models [crates/witchy-cap-model/src/heap.rs] and the wire format of
    [launch_contract_payload] in [crates/witchy-caps/src/capabilities.rs]:
    the version byte, the capability entries of the run grant in [BTreeMap]
    order, and the heap trailer.  Bytes are [N]. *)

From S2P Require Import Prelude Text Ordered Catalog Footprint.

Local Open Scope string_scope.

(** ** Heap mode *)

Definition PAGE_BYTES : N := N.shiftl 64 10.

Definition max_pages (mode : HeapMode) : N :=
  match mode with Standard => 65536 | Large => 524288 end.

Definition max_bytes (mode : HeapMode) : N := max_pages mode * PAGE_BYTES.

Definition launch_version (mode : HeapMode) : N :=
  match mode with Standard => 1 | Large => 2 end.

Definition launch_trailer (mode : HeapMode) : option N :=
  if bool_decide (mode = Large) then Some 1%N else None.

(** The slice pattern [[2, count, .., 1]] with its length guard. *)
Definition from_launch_contract (payload : list N) : HeapMode :=
  match payload with
  | version :: count :: rest =>
      if (version =? 2)%N && bool_decide (list.last rest = Some 1%N)
         && (N.of_nat (length payload) =? 3 + count * 2)%N
      then Large else Standard
  | _ => Standard
  end.

(** ** The payload *)

Definition launch_cap_tag (name : string) : option N :=
  if String.eqb name "Console" then Some 0%N
  else if String.eqb name "Clock" then Some 1%N
  else if String.eqb name "Rand" then Some 2%N
  else if String.eqb name "Env" then Some 3%N
  else if String.eqb name "Secret" then Some 4%N
  else if String.eqb name "SecretStore" then Some 5%N
  else if String.eqb name "Dir" then Some 6%N
  else if String.eqb name "File" then Some 7%N
  else if String.eqb name "Net" then Some 8%N
  else if String.eqb name "Exec" then Some 9%N
  else if String.eqb name "Fetch" then Some 10%N
  else None.

Definition launch_right_tags (capability : string) : list (string * N) :=
  if String.eqb capability "Console" || String.eqb capability "Dir"
     || String.eqb capability "File"
  then [("Read", N.shiftl 1 0); ("Write", N.shiftl 1 1)]
  else if String.eqb capability "Net"
  then [("Connect", N.shiftl 1 0); ("Listen", N.shiftl 1 1); ("Tcp", N.shiftl 1 2);
        ("Udp", N.shiftl 1 3); ("Uds", N.shiftl 1 4)]
  else if String.eqb capability "Secret"
  then [("Reveal", N.shiftl 1 0); ("Seal", N.shiftl 1 1)]
  else [].

Definition launch_rights_mask (capability : string) (rights : Rights) : N :=
  List.fold_left N.lor
    (omap (λ t, if bool_decide (fst t ∈ rights) then Some (snd t) else None)
       (launch_right_tags capability)) 0%N.

Definition cap_entry (e : string * Rights) : option (list N) :=
  tag ← launch_cap_tag (fst e);
  Some [tag; launch_rights_mask (fst e) (snd e)].

(** [launch_contract_payload] after [run_grant] and [heap_mode]; [None] is
    one of its two [expect]s failing. *)
Definition payload_of (caps : CapSet) (mode : HeapMode) : option (list N) :=
  if (N.of_nat (size caps) <=? u8_max)%N then
    body ← mapM cap_entry (btree_entries caps);
    Some (launch_version mode :: N.of_nat (size caps) :: List.concat body ++
          match launch_trailer mode with Some b => [b] | None => [] end)
  else None.

(** [launch_contract_payload]; [None] when an [expect] panics. *)
Definition launch_contract_payload (items : Items) : option (list N) :=
  caps ← run_grant items; payload_of caps (heap_mode items).

(** * Lemmas *)

(** A grant the analyzer can produce: host capabilities, with rights of
    their own vocabulary. *)
Definition grant_ok (caps : CapSet) : Prop :=
  ∀ c rs, caps !! c = Some rs →
    ∃ k, Kind.class k = Host ∧ c = Kind.name k ∧
      ∀ r, r ∈ rs → ∃ rt, rt ∈ Kind.rights k ∧ r = Right.name rt.

Lemma tag_host k : Kind.class k = Host → is_Some (launch_cap_tag (Kind.name k)).
Proof. by destruct k; eauto. Qed.

Lemma tag_inj k k' :
  Kind.class k = Host → Kind.class k' = Host →
  launch_cap_tag (Kind.name k) = launch_cap_tag (Kind.name k') → k = k'.
Proof. by destruct k, k'. Qed.


Lemma fold_lor_testbit l acc i :
  N.testbit (List.fold_left N.lor l acc) i
  = N.testbit acc i || existsb (λ b, N.testbit b i) l.
Proof.
  revert acc. induction l as [|b l IH]; intros acc; cbn; [by rewrite orb_false_r|].
  by rewrite IH, N.lor_spec, orb_assoc.
Qed.

Lemma mask_testbit cap rs i :
  N.testbit (launch_rights_mask cap rs) i
  = existsb (λ t, bool_decide (fst t ∈ rs) && N.testbit (snd t) i) (launch_right_tags cap).
Proof.
  unfold launch_rights_mask. rewrite fold_lor_testbit, N.bits_0. cbn [orb].
  induction (launch_right_tags cap) as [|[r b] tags IH]; [done|]. cbn [omap list_omap].
  cbn [fst snd existsb]. by case_bool_decide; cbn [andb orb existsb]; rewrite IH.
Qed.

(** The position of a right in the mask of its capability. *)
Definition launch_bit (rt : CapabilityRight) : N :=
  match rt with
  | Read | Connect | Reveal => 0
  | Write | Listen | Seal => 1
  | Tcp => 2
  | Udp => 3
  | Uds => 4
  end.

Lemma right_tags_select (g : string → bool) k rt :
  Kind.class k = Host → rt ∈ Kind.rights k →
  existsb (λ t, g (fst t) && N.testbit (snd t) (launch_bit rt))
    (launch_right_tags (Kind.name k)) = g (Right.name rt).
Proof.
  intros Hk Hrt. destruct k; try done; cbn in Hrt;
    unfold READ_WRITE_RIGHTS, NET_RIGHTS, SECRET_RIGHTS in Hrt;
    repeat (apply elem_of_cons in Hrt as [->|Hrt]); try (by apply elem_of_nil in Hrt);
    vm_compute; repeat match goal with |- context [g ?x] => destruct (g x) end; done.
Qed.

(** Each bit of the mask says whether its right is present. *)
Lemma mask_bit k rt rs :
  Kind.class k = Host → rt ∈ Kind.rights k →
  N.testbit (launch_rights_mask (Kind.name k) rs) (launch_bit rt)
  = bool_decide (Right.name rt ∈ rs).
Proof.
  intros. rewrite mask_testbit. by apply (right_tags_select (λ r, @bool_decide (r ∈ rs) (decide_rel elem_of r rs))).
Qed.

Lemma mask_inj k rs rs' :
  Kind.class k = Host →
  (∀ r, r ∈ rs → ∃ rt, rt ∈ Kind.rights k ∧ r = Right.name rt) →
  (∀ r, r ∈ rs' → ∃ rt, rt ∈ Kind.rights k ∧ r = Right.name rt) →
  launch_rights_mask (Kind.name k) rs = launch_rights_mask (Kind.name k) rs' → rs = rs'.
Proof.
  intros Hk Hrs Hrs' Hm. apply set_eq. intros r.
  assert (∀ rt, rt ∈ Kind.rights k → Right.name rt ∈ rs ↔ Right.name rt ∈ rs') as Hbit.
  { intros rt Hrt. pose proof (mask_bit k rt rs Hk Hrt) as H1.
    rewrite Hm, (mask_bit k rt rs' Hk Hrt) in H1.
    by rewrite <- (bool_decide_eq_true (_ ∈ rs)), <- H1, bool_decide_eq_true. }
  split; [intros H; destruct (Hrs r H) as (rt & ? & ->)
         |intros H; destruct (Hrs' r H) as (rt & ? & ->)]; by apply Hbit.
Qed.

Lemma cap_entry_inj (e e' : string * Rights) l :
  (∃ k, Kind.class k = Host ∧ fst e = Kind.name k ∧
     ∀ r, r ∈ snd e → ∃ rt, rt ∈ Kind.rights k ∧ r = Right.name rt) →
  (∃ k, Kind.class k = Host ∧ fst e' = Kind.name k ∧
     ∀ r, r ∈ snd e' → ∃ rt, rt ∈ Kind.rights k ∧ r = Right.name rt) →
  cap_entry e = Some l → cap_entry e' = Some l → e = e'.
Proof.
  destruct e as [c rs], e' as [c' rs']. cbn.
  intros (k & Hk & -> & Hr) (k' & Hk' & -> & Hr') H H'. unfold cap_entry in *. cbn in *.
  destruct (launch_cap_tag (Kind.name k)) eqn:E; [|done].
  destruct (launch_cap_tag (Kind.name k')) eqn:E'; [|done]. cbn in *. simplify_eq.
  assert (k = k') as <- by (apply tag_inj; congruence).
  f_equal. by eapply mask_inj.
Qed.

Lemma cap_entry_length e l : cap_entry e = Some l → length l = 2.
Proof. unfold cap_entry. destruct (launch_cap_tag _); [|done]. intros. by simplify_eq/=. Qed.

Lemma mapM_entries_length es body :
  mapM cap_entry es = Some body →
  length (List.concat body) = 2 * length es ∧ Forall (λ l, length l = 2) body.
Proof.
  revert body. induction es as [|e es IH]; intros body H.
  { apply mapM_Some in H. by inversion H. }
  apply mapM_Some in H. inversion H as [|? l ? body' He Hes]; simplify_eq.
  apply mapM_Some in Hes. apply IH in Hes as [Hl Hf].
  apply cap_entry_length in He. cbn. rewrite length_app. split; [lia|auto].
Qed.

Lemma concat_pairs_inj {A} (xs ys : list (list A)) :
  Forall (λ l, length l = 2) xs → Forall (λ l, length l = 2) ys →
  List.concat xs = List.concat ys → xs = ys.
Proof.
  intros Hx. revert ys. induction Hx as [|x xs Hxl Hx IH]; intros ys Hy H.
  - destruct Hy as [|y ys Hyl _]; [done|]. destruct y; [done|discriminate].
  - destruct Hy as [|y ys Hyl Hy]; [destruct x; [done|discriminate]|].
    cbn in H. apply app_inj_1 in H as [-> H]; [|lia]. f_equal. auto.
Qed.

Lemma payload_of_Some caps mode p :
  payload_of caps mode = Some p →
  (N.of_nat (size caps) ≤ u8_max)%N ∧
  ∃ body, mapM cap_entry (btree_entries caps) = Some body ∧
    p = (launch_version mode :: N.of_nat (size caps) :: List.concat body ++
         match launch_trailer mode with Some b => [b] | None => [] end)%list.
Proof.
  unfold payload_of. destruct (N.leb_spec (N.of_nat (size caps)) u8_max); [|done].
  destruct (mapM cap_entry _) as [body|]; [|done]. intros. simplify_eq/=. eauto.
Qed.

Lemma payload_heap caps mode p :
  payload_of caps mode = Some p → from_launch_contract p = mode.
Proof.
  intros (Hs & body & Hb & ->)%payload_of_Some.
  apply mapM_entries_length in Hb as [Hl _]. rewrite btree_entries_length in Hl.
  destruct mode; cbn [launch_version from_launch_contract]; [done|].
  change (match launch_trailer Large with Some b => [b] | None => [] end) with [1%N].
  rewrite last_snoc.
  cbn [N.eqb Pos.eqb]. rewrite bool_decide_eq_true_2 by done. cbn [andb].
  cbn [length]. rewrite length_app, Hl. cbn [length].
  destruct (N.eqb_spec (N.of_nat (S (S (2 * size caps + 1))))
    (3 + N.of_nat (size caps) * 2)); [done|lia].
Qed.

(** ** The grants the analyzer produces *)

Lemma right_marker_vocab k n m :
  right_marker (Kind.name k) n = Some m → ∃ r, r ∈ Kind.rights k ∧ m = Right.name r.
Proof.
  unfold right_marker. rewrite Kind.from_name_name. cbn.
  destruct (Kind.right k n) as [r|] eqn:E; [|done]. intros. simplify_eq/=.
  apply right_Some in E as [_ Hr]. eauto.
Qed.

Lemma right_names_vocab rs m : m ∈ right_names rs ↔ ∃ r, r ∈ rs ∧ m = Right.name r.
Proof. unfold right_names. rewrite elem_of_list_to_set, list_elem_of_fmap. naive_solver. Qed.

Lemma marked_rights_vocab k args m :
  m ∈ marked_rights (Kind.name k) args → ∃ r, r ∈ Kind.rights k ∧ m = Right.name r.
Proof.
  unfold marked_rights.
  assert (m ∈ (∅ : Rights) → ∃ r, r ∈ Kind.rights k ∧ m = Right.name r) as H0
    by (by intros ?%elem_of_empty). revert H0. generalize (∅ : Rights).
  induction args as [|a args IH]; intros r Hr; cbn; [done|]. apply IH.
  destruct a; try done. destruct (right_marker _ _) eqn:E; [|done].
  apply right_marker_vocab in E. rewrite elem_of_union, elem_of_singleton.
  intros [->|?]; auto.
Qed.

Lemma default_axis_vocab k axis r m :
  (∀ x, x ∈ axis → x ∈ Kind.rights k) →
  (m ∈ r → ∃ r, r ∈ Kind.rights k ∧ m = Right.name r) →
  m ∈ default_axis axis r → ∃ r, r ∈ Kind.rights k ∧ m = Right.name r.
Proof.
  unfold default_axis. intros Hax Hr. case_match; [|done].
  rewrite elem_of_union, right_names_vocab. intros [?|(x & Hx & ->)]; eauto.
Qed.

Lemma net_transport_vocab x : x ∈ NET_TRANSPORT_RIGHTS → x ∈ Kind.rights Net.
Proof. unfold NET_TRANSPORT_RIGHTS. cbn. unfold NET_RIGHTS. set_solver. Qed.

Lemma net_verb_vocab x : x ∈ NET_VERB_RIGHTS → x ∈ Kind.rights Net.
Proof. unfold NET_VERB_RIGHTS. cbn. unfold NET_RIGHTS. set_solver. Qed.

Lemma rights_from_args_vocab k args m :
  m ∈ rights_from_args (Kind.name k) args → ∃ r, r ∈ Kind.rights k ∧ m = Right.name r.
Proof.
  unfold rights_from_args. destruct args as [|a args].
  - unfold full_rights. rewrite Kind.from_name_name. by rewrite right_names_vocab.
  - destruct (String.eqb_spec (Kind.name k) "Net") as [Hk|]; [|apply marked_rights_vocab].
    assert (k = Net) as -> by (by destruct k).
    apply default_axis_vocab; [apply net_transport_vocab|].
    apply default_axis_vocab; [apply net_verb_vocab|apply marked_rights_vocab].
Qed.

Lemma carries_vocab types ty x :
  carries types ty x → ∃ k, Kind.class k = Host ∧ fst x = Kind.name k ∧
    ∀ r, snd x = Some r → ∃ rt, rt ∈ Kind.rights k ∧ r = Right.name rt.
Proof.
  induction 1 as [name args h [c o] Hh [Hc Ho]| | | | | | | |]; try done.
  cbn in *. subst c. unfold host_cap in Hh.
  destruct (Kind.from_name name) as [k|]; [|done].
  case_bool_decide; [|done]. simplify_eq. exists k. split_and!; [done..|].
  intros r ->. by eapply rights_from_args_vocab.
Qed.

Lemma run_grant_ok items : ∃ grant, run_grant items = Some grant ∧ grant_ok grant.
Proof.
  destruct (run_grant_spec items) as (grant & Hr & Hh). exists grant. split; [done|].
  intros c rs Hc.
  assert (∀ o, has grant (c, o) → ∃ ty, carries (type_items items) ty (c, o)) as Hcar.
  { intros o (f & _ & ty & _ & Hx)%Hh. eauto. }
  destruct (Hcar None) as (ty & (k & Hk & Hn & _)%carries_vocab);
    [by eexists; split|]. cbn in Hn. exists k. split_and!; [done..|].
  intros r Hrr. destruct (Hcar (Some r)) as (ty' & (k' & _ & Hn' & Hv)%carries_vocab);
    [by eexists; split|]. cbn in Hn'.
  assert (k' = k) as -> by (rewrite Hn in Hn'; clear -Hn'; by destruct k, k').
  by apply Hv.
Qed.

Lemma grant_ok_size caps : grant_ok caps → (N.of_nat (size caps) ≤ u8_max)%N.
Proof.
  intros Hg. assert (dom caps ⊆ list_to_set (map Kind.name Kind.ALL)) as Hd.
  { intros c [rs Hc]%elem_of_dom. destruct (Hg _ _ Hc) as (k & _ & -> & _).
    apply elem_of_list_to_set, list_elem_of_fmap. eauto using Kind.kind_elem_of_ALL. }
  apply subseteq_size in Hd. rewrite size_dom in Hd.
  assert (size (list_to_set (map Kind.name Kind.ALL) : gset string) = 18) as Hs
    by (vm_compute; reflexivity).
  rewrite Hs in Hd. unfold u8_max. lia.
Qed.

Lemma payload_total caps mode : grant_ok caps → ∃ p, payload_of caps mode = Some p.
Proof.
  intros Hg. pose proof (grant_ok_size caps Hg) as Hs%N.leb_le.
  unfold payload_of. rewrite Hs.
  destruct (mapM cap_entry (btree_entries caps)) as [body|] eqn:Hb; [by eexists|].
  exfalso. apply mapM_None in Hb. apply list.Exists_exists in Hb as ([c rs] & Hin & Hn).
  apply elem_of_btree_entries in Hin. destruct (Hg _ _ Hin) as (k & Hk & -> & _).
  destruct (tag_host k Hk) as [t Ht]. unfold cap_entry in Hn. cbn in Hn.
  by rewrite Ht in Hn.
Qed.

(** * Theorems *)

(** building the launch contract of a
    module never panics (every capability of its grant has a tag and the
    count fits a byte), and the heap mode read back from the payload is the
    one [main] declares, whatever the grant. *)
Theorem launch_contract_declares_heap items :
  ∃ p grant, run_grant items = Some grant ∧ grant_ok grant ∧
    launch_contract_payload items = Some p ∧
    payload_of grant (heap_mode items) = Some p ∧
    from_launch_contract p = heap_mode items.
Proof.
  destruct (run_grant_ok items) as (grant & Hr & Hg).
  destruct (payload_total grant (heap_mode items) Hg) as [p Hp].
  exists p, grant. unfold launch_contract_payload. rewrite Hr.
  cbn [mbind option_bind]. split_and!; [done..|]. by eapply payload_heap.
Qed.

(** the launch contract identifies what a run
    is given: two grants of host capabilities with equal payloads are the
    same grant with the same heap mode. *)
Theorem launch_contract_injective caps caps' mode mode' p :
  grant_ok caps → grant_ok caps' →
  payload_of caps mode = Some p → payload_of caps' mode' = Some p →
  caps = caps' ∧ mode = mode'.
Proof.
  intros Hg Hg' Hp Hp'.
  assert (mode = mode') as <- by (apply payload_heap in Hp, Hp'; congruence).
  split; [|done]. apply payload_of_Some in Hp as (_ & body & Hb & ->).
  apply payload_of_Some in Hp' as (_ & body' & Hb' & [= _ Hc]).
  apply app_inj_2 in Hc as [Hc _]; [|done].
  apply mapM_entries_length in Hb as Hl. apply mapM_entries_length in Hb' as Hl'.
  apply concat_pairs_inj in Hc as <-; [|apply Hl|apply Hl']. clear Hl Hl'.
  apply btree_entries_inj. apply mapM_Some in Hb, Hb'.
  assert (∀ c rs, (c, rs) ∈ btree_entries caps → caps !! c = Some rs) as H1
    by (intros; by apply elem_of_btree_entries).
  assert (∀ c rs, (c, rs) ∈ btree_entries caps' → caps' !! c = Some rs) as H2
    by (intros; by apply elem_of_btree_entries).
  revert H1 H2 Hb'. generalize (btree_entries caps') as es'.
  induction Hb as [|[c rs] l es body He Hes IH]; intros es' H1 H2 Hb';
    inversion Hb' as [|[c' rs'] l' ? body' He' Hes']; [done|]; subst.
  assert ((c, rs) = (c', rs')) as <-.
  { eapply cap_entry_inj; [| |exact He|exact He'];
      [apply Hg, H1; by left|apply Hg', H2; by left]. }
  f_equal. apply IH; [intros; by apply H1, elem_of_cons; right
                    |intros; by apply H2, elem_of_cons; right|done].
Qed.

Lemma launch_contract_injective_witness :
  payload_of {[ "Clock" := ∅ ]} Standard = Some [1; 1; 1; 0]%N ∧
  ({[ "Clock" := ∅ ]} : CapSet) = {[ "Clock" := ∅ ]} ∧ Standard = Standard.
Proof.
  assert (grant_ok {[ "Clock" := ∅ ]}) as Hg.
  { intros c rs [<- <-]%lookup_singleton_Some. exists Clock.
    split; [reflexivity|]. split; [reflexivity|]. intros r Hr. by apply elem_of_empty in Hr. }
  split; [vm_compute; reflexivity|].
  apply (launch_contract_injective _ _ _ _ [1; 1; 1; 0]%N Hg Hg);
    vm_compute; reflexivity.
Defined.
