(* ===== verification/LaunchDecode.v ===== *)
(** * LaunchDecode: reading a launch contract back

    Models the decoder of the launch section in [src/artifact.rs]: its own
    tables [CAP_TAGS] and [right_tags], [decode_contract], and the
    [invalid_contract] messages.  Locating the section inside the wasm
    container is [wasmparser]'s work and is not modelled.  The theorem
    relates it to the encoder of Launch.v, whose tables are separate code. *)

From S2P Require Import Prelude Text Ordered Catalog Footprint Launch.

Local Open Scope string_scope.

(** * Definitions *)

Definition LAUNCH_SECTION : string := "witchy.launch".

Definition CAP_TAGS : list (string * N) :=
  [("Console", 0%N); ("Clock", 1%N); ("Rand", 2%N); ("Env", 3%N); ("Secret", 4%N);
   ("SecretStore", 5%N); ("Dir", 6%N); ("File", 7%N); ("Net", 8%N); ("Exec", 9%N);
   ("Fetch", 10%N)].

Definition CONSOLE_RIGHT_BITS : list (string * N) :=
  [("Read", N.shiftl 1 0); ("Write", N.shiftl 1 1)].
Definition DIR_RIGHT_BITS : list (string * N) :=
  [("Read", N.shiftl 1 0); ("Write", N.shiftl 1 1)].
Definition NET_RIGHT_BITS : list (string * N) :=
  [("Connect", N.shiftl 1 0); ("Listen", N.shiftl 1 1); ("Tcp", N.shiftl 1 2);
   ("Udp", N.shiftl 1 3); ("Uds", N.shiftl 1 4)].
Definition SECRET_RIGHT_BITS : list (string * N) :=
  [("Reveal", N.shiftl 1 0); ("Seal", N.shiftl 1 1)].

Definition tag_cap (tag : N) : option string :=
  fst <$> List.find (λ e, (snd e =? tag)%N) CAP_TAGS.

Definition right_tags (cap : string) : list (string * N) :=
  if String.eqb cap "Console" then CONSOLE_RIGHT_BITS
  else if String.eqb cap "Dir" || String.eqb cap "File" then DIR_RIGHT_BITS
  else if String.eqb cap "Net" then NET_RIGHT_BITS
  else if String.eqb cap "Secret" then SECRET_RIGHT_BITS
  else [].

Definition invalid_contract (detail : string) : string :=
  "invalid `" +:+ LAUNCH_SECTION +:+ "` metadata: " +:+ detail.

(** [chunks_exact(2)]: a trailing odd byte is left out. *)
Fixpoint pairs (data : list N) : list (N * N) :=
  match data with
  | a :: b :: rest => (a, b) :: pairs rest
  | _ => []
  end.

Definition valid_mask (tags : list (string * N)) : N :=
  List.fold_left (λ mask t, N.lor mask (snd t)) tags 0%N.

Definition decode_rights (tags : list (string * N)) (mask : N) : Rights :=
  List.fold_left
    (λ rs t, if (N.land mask (snd t) =? 0)%N then rs else {[ fst t ]} ∪ rs) tags ∅.

(** One turn of the loop over the entries. *)
Definition decode_entry (caps : CapSet) (entry : N * N) : result string CapSet :=
  cap ← ok_or (tag_cap (fst entry))
          (invalid_contract ("unknown capability tag " +:+ show_N (fst entry)));
  fail_if (negb (N.ldiff (snd entry) (valid_mask (right_tags cap)) =? 0)%N)
    (invalid_contract ("invalid rights for `" +:+ cap +:+ "`"));;
  fail_if (bool_decide (is_Some (caps !! cap)))
    (invalid_contract ("duplicate `" +:+ cap +:+ "` entry"));;
  Ok (<[ cap := decode_rights (right_tags cap) (snd entry) ]> caps).

Fixpoint decode_entries (caps : CapSet) (entries : list (N * N)) : result string CapSet :=
  match entries with
  | [] => Ok caps
  | e :: rest => caps' ← decode_entry caps e; decode_entries caps' rest
  end.

Definition decode_contract (data : list N) : result string CapSet :=
  match data with
  | version :: count :: rest =>
      trailer ← (if (version =? 1)%N then Ok 0%nat
                 else if (version =? 2)%N then Ok 1%nat
                 else Err (invalid_contract ("unsupported version " +:+ show_N version)));
      fail_if (negb (N.of_nat (length data) =? 2 + count * 2 + N.of_nat trailer)%N)
        (invalid_contract "entry count does not match the payload length");;
      fail_if ((trailer =? 1)%nat && negb (bool_decide (list.last data = Some 1%N)))
        (invalid_contract "unknown heap mode");;
      decode_entries ∅ (pairs (take (length rest - trailer) rest))
  | _ => Err (invalid_contract "truncated header")
  end.

(** * Lemmas *)

(** An entry the encoder can be given: a host capability with rights of its
    own vocabulary. *)
Definition entry_ok (e : string * Rights) : Prop :=
  ∃ k, Kind.class k = Host ∧ fst e = Kind.name k ∧
    ∀ r, r ∈ snd e → ∃ rt, rt ∈ Kind.rights k ∧ r = Right.name rt.

Lemma tag_cap_host t c :
  tag_cap t = Some c ↔ ∃ k, Kind.class k = Host ∧ c = Kind.name k ∧
    launch_cap_tag (Kind.name k) = Some t.
Proof.
  split.
  - unfold tag_cap. intros ([c' t'] & [Hin Ht]%List.find_some & ->)%fmap_Some.
    apply N.eqb_eq in Ht. cbn in Ht. subst t'. cbn [fst].
    repeat (destruct Hin as [[= <- <-]|Hin]); [..|done];
      [exists Console|exists Clock|exists Rand|exists Env|exists Secret
      |exists SecretStore|exists Dir|exists File|exists Net|exists Exec|exists Fetch];
      split_and!; reflexivity.
  - intros (k & Hk & -> & Ht). destruct k; try done; cbn in Ht; injection Ht as <-; reflexivity.
Qed.

Lemma right_tags_launch k :
  Kind.class k = Host → right_tags (Kind.name k) = launch_right_tags (Kind.name k).
Proof. by destruct k. Qed.

Lemma ldiff_le a b : N.ldiff a b = 0%N → (a ≤ b)%N.
Proof.
  intros H. assert (N.land a b = a) as <-; [|apply N.land_le_r].
  apply N.bits_inj. intros i. rewrite N.land_spec.
  assert (N.testbit (N.ldiff a b) i = false) as Hi by (by rewrite H, N.bits_0).
  rewrite N.ldiff_spec in Hi. by destruct (N.testbit a i), (N.testbit b i).
Qed.

(** Every mask within the valid one is the mask of the rights it selects. *)
Definition masks_agree (k : CapabilityKind) : bool :=
  forallb (λ n, let mask := N.of_nat n in
    negb (N.ldiff mask (valid_mask (right_tags (Kind.name k))) =? 0)%N
    || (launch_rights_mask (Kind.name k) (decode_rights (right_tags (Kind.name k)) mask) =? mask)%N)
    (seq 0 32).

Lemma valid_mask_small k : (valid_mask (right_tags (Kind.name k)) < 32)%N.
Proof. by destruct k. Qed.

Lemma mask_of_decoded k mask :
  N.ldiff mask (valid_mask (right_tags (Kind.name k))) = 0%N →
  launch_rights_mask (Kind.name k) (decode_rights (right_tags (Kind.name k)) mask) = mask.
Proof.
  intros Hm. assert (masks_agree k = true) as Hall
    by (destruct k; vm_compute; reflexivity).
  unfold masks_agree in Hall. rewrite List.forallb_forall in Hall.
  specialize (Hall (N.to_nat mask)). cbv beta zeta in Hall. rewrite N2Nat.id in Hall.
  rewrite Hm in Hall. cbn [N.eqb negb orb] in Hall. apply N.eqb_eq, Hall, List.in_seq.
  pose proof (ldiff_le _ _ Hm). pose proof (valid_mask_small k). lia.
Qed.

Lemma elem_of_decode_rights tags mask r :
  r ∈ decode_rights tags mask → r ∈ map fst tags.
Proof.
  unfold decode_rights.
  enough (∀ rs : Rights, r ∈ List.fold_left
    (λ rs t, if (N.land mask (snd t) =? 0)%N then rs else {[ fst t ]} ∪ rs) tags rs →
    r ∈ rs ∨ r ∈ map fst tags) as H.
  { intros [Hr|Hr]%H; [by apply elem_of_empty in Hr|done]. }
  induction tags as [|t tags IH]; intros rs H; cbn in *; [by left|].
  apply IH in H as [H|H]; [|right; by apply elem_of_cons; right].
  destruct (N.land mask (snd t) =? 0)%N; [by left|].
  apply elem_of_union in H as [->%elem_of_singleton|H]; [|by left].
  right. by apply elem_of_cons; left.
Qed.

Lemma right_tags_vocab k r :
  r ∈ map fst (right_tags (Kind.name k)) →
  ∃ rt, rt ∈ Kind.rights k ∧ r = Right.name rt.
Proof.
  intros Hr. assert (map fst (right_tags (Kind.name k)) = map Right.name (Kind.rights k)
    ∨ right_tags (Kind.name k) = []) as [H|H] by (destruct k; auto).
  - rewrite H in Hr. apply list_elem_of_fmap in Hr as (rt & -> & Hrt). eauto.
  - rewrite H in Hr. by apply elem_of_nil in Hr.
Qed.

Lemma mask_valid k rs :
  Kind.class k = Host →
  N.ldiff (launch_rights_mask (Kind.name k) rs) (valid_mask (right_tags (Kind.name k))) = 0%N.
Proof.
  intros Hk. apply N.bits_inj. intros i. rewrite N.ldiff_spec, N.bits_0, mask_testbit.
  rewrite <- right_tags_launch by done. generalize (right_tags (Kind.name k)) as tags.
  intros tags. apply andb_false_iff.
  destruct (existsb _ tags) eqn:E; [right|by left].
  apply List.existsb_exists in E as (t & Hin & [_ Ht]%andb_true_iff).
  unfold valid_mask. rewrite negb_false_iff.
  assert (List.fold_left (λ mask t, N.lor mask (snd t)) tags 0%N
    = List.fold_left N.lor (map snd tags) 0%N) as ->.
  { generalize 0%N. clear. induction tags; intros; [done|cbn; auto]. }
  rewrite fold_lor_testbit, N.bits_0. cbn [orb]. apply List.existsb_exists.
  exists (snd t). split; [by apply List.in_map|done].
Qed.

(** Decoding the mask of a set of rights gives the set. *)
Lemma decode_of_mask k rs :
  Kind.class k = Host →
  (∀ r, r ∈ rs → ∃ rt, rt ∈ Kind.rights k ∧ r = Right.name rt) →
  decode_rights (right_tags (Kind.name k)) (launch_rights_mask (Kind.name k) rs) = rs.
Proof.
  intros Hk Hrs. apply (mask_inj k); [done| |done|].
  - intros r Hr%elem_of_decode_rights. by apply right_tags_vocab.
  - by apply mask_of_decoded, mask_valid.
Qed.

(** One turn of the loop undoes one entry of the encoder, and accepts
    nothing else. *)
Lemma decode_entry_exact caps t m caps' :
  decode_entry caps (t, m) = Ok caps' ↔
  ∃ e, entry_ok e ∧ cap_entry e = Some [t; m] ∧ caps !! fst e = None ∧
    caps' = <[ fst e := snd e ]> caps.
Proof.
  unfold decode_entry, fail_if. cbn [fst snd]. split.
  - destruct (tag_cap t) as [c|] eqn:Ht; [|discriminate]. cbn.
    apply tag_cap_host in Ht as (k & Hk & -> & Ht).
    destruct (N.eqb_spec (N.ldiff m (valid_mask (right_tags (Kind.name k)))) 0) as [Hm|];
      [|discriminate]. cbn.
    case_bool_decide as Hn; [discriminate|]. cbn. intros [= <-].
    exists (Kind.name k, decode_rights (right_tags (Kind.name k)) m). cbn [fst snd].
    split_and!; [|unfold cap_entry; cbn [fst snd]; rewrite Ht; cbn; by rewrite mask_of_decoded
                 |by apply eq_None_not_Some|done].
    exists k. split_and!; [done..|]. intros r Hr%elem_of_decode_rights.
    by apply right_tags_vocab.
  - intros ([c rs] & (k & Hk & Hc & Hrs) & He & Hn & ->). cbn [fst snd] in *. subst c.
    unfold cap_entry in He. cbn [fst snd] in He.
    destruct (launch_cap_tag (Kind.name k)) as [t'|] eqn:Ht; [|discriminate].
    cbn in He. injection He as <- <-.
    assert (tag_cap t' = Some (Kind.name k)) as -> by (apply tag_cap_host; eauto).
    cbn. rewrite mask_valid by done. cbn. rewrite bool_decide_eq_false_2
      by (by rewrite Hn; intros [? ?]). cbn. by rewrite decode_of_mask.
Qed.

(** The loop accepts exactly the encodings of distinct entries. *)
Lemma decode_entries_exact body caps caps' :
  decode_entries caps body = Ok caps' ↔
  ∃ es, Forall entry_ok es ∧
    mapM cap_entry es = Some (map (λ e, [fst e; snd e]) body) ∧
    NoDup (map fst es) ∧ Forall (λ e, caps !! fst e = None) es ∧
    caps' = list_to_map es ∪ caps.
Proof.
  revert caps. induction body as [|[t m] body IH]; intros caps; cbn [decode_entries map].
  { split.
    - intros [= <-]. exists []. split_and!; [by constructor..|].
      symmetry. apply (left_id_L ∅ (∪)).
    - intros (es & _ & Hes & _ & _ & ->).
      apply mapM_Some in Hes. inversion Hes; subst. f_equal.
      symmetry. apply (left_id_L ∅ (∪)). }
  split.
  - destruct (decode_entry caps (t, m)) as [caps1|] eqn:He; [|discriminate]. cbn.
    apply decode_entry_exact in He as ([c rs] & Hok & He & Hn & ->).
    intros (es & Hes & Hm & Hnd & Hfr & ->)%IH. cbn [fst snd] in *.
    exists ((c, rs) :: es). split_and!.
    + by constructor.
    + apply mapM_Some in Hm. apply mapM_Some. by constructor.
    + cbn [map fst]. apply list.NoDup_cons. split; [|done].
      intros ([c' rs'] & -> & Hin)%list_elem_of_fmap. rewrite list.Forall_forall in Hfr.
      specialize (Hfr _ Hin). cbn in Hfr. by rewrite lookup_insert_eq in Hfr.
    + constructor; [done|]. eapply list.Forall_impl; [exact Hfr|].
      intros e. by rewrite lookup_insert_None; intros [? _].
    + rewrite list_to_map_cons, <- insert_union_l, insert_union_r; [done|].
      apply not_elem_of_list_to_map_1. intros ([c' rs'] & -> & Hin)%list_elem_of_fmap.
      rewrite list.Forall_forall in Hfr. specialize (Hfr _ Hin). cbn in Hfr.
      by rewrite lookup_insert_eq in Hfr.
  - intros (es & Hes & Hm & Hnd & Hfr & ->). apply mapM_Some in Hm.
    inversion Hm as [|[c rs] l es' body' He Hes' Heq1 Heq2]; subst. cbn [fst snd] in He.
    inversion Hes as [|? ? Hok Hes2]; subst. inversion Hfr as [|? ? Hn Hfr']; subst.
    cbn [map fst] in Hnd. apply list.NoDup_cons in Hnd as [Hnot Hnd]. cbn [fst] in *.
    assert (decode_entry caps (t, m) = Ok (<[c := rs]> caps)) as ->
      by (apply decode_entry_exact; by exists (c, rs)). cbn.
    apply IH. exists es'. split_and!; [done|by apply mapM_Some|done| |].
    + apply list.Forall_forall. intros e Hin. rewrite list.Forall_forall in Hfr'.
      rewrite lookup_insert_ne; [by apply Hfr'|]. intros ->. apply Hnot.
      apply list_elem_of_fmap. eauto.
    + rewrite list_to_map_cons, <- insert_union_l, insert_union_r; [done|].
      by apply not_elem_of_list_to_map_1.
Qed.

Lemma pairs_concat body :
  Forall (λ l : list N, length l = 2) body →
  map (λ e, [fst e; snd e]) (pairs (List.concat body)) = body.
Proof.
  induction 1 as [|l body Hl _ IH]; [done|].
  destruct l as [|a [|b [|]]]; try done. cbn. by f_equal.
Qed.

Lemma concat_pairs n data :
  length data = 2 * n → List.concat (map (λ e, [fst e; snd e]) (pairs data)) = data
    ∧ length (pairs data) = n.
Proof.
  revert data. induction n as [|n IH]; intros data H.
  { by destruct data. }
  destruct data as [|a [|b rest]]; cbn in H; [lia..|].
  destruct (IH rest) as [Hc Hl]; [lia|]. cbn. rewrite Hl. split; [by f_equal; f_equal|done].
Qed.

(** The bytes of a contract with its entries in a given order. *)
Definition contract_bytes (es : list (string * Rights)) (mode : HeapMode) : option (list N) :=
  body ← mapM cap_entry es;
  Some (launch_version mode :: N.of_nat (length es) :: List.concat body ++
        match launch_trailer mode with Some b => [b] | None => [] end)%list.

Lemma payload_contract_bytes caps mode p :
  payload_of caps mode = Some p → contract_bytes (btree_entries caps) mode = Some p.
Proof.
  intros (_ & body & Hb & ->)%payload_of_Some. unfold contract_bytes. rewrite Hb. cbn.
  by rewrite btree_entries_length.
Qed.

Lemma grant_ok_entries caps :
  grant_ok caps ↔ ∀ e, e ∈ map_to_list caps → entry_ok e.
Proof.
  split.
  - intros H [c rs] Hin%elem_of_map_to_list. by apply H.
  - intros H c rs Hc. by apply (H (c, rs)), elem_of_map_to_list.
Qed.

(** A contract whose header announces [mode] decodes just when its entries
    do. *)
Lemma decode_header data caps :
  decode_contract data = Ok caps ↔
  ∃ mode body, data = (launch_version mode :: N.of_nat (length body)
      :: List.concat (map (λ e, [fst e; snd e]) body)
      ++ match launch_trailer mode with Some b => [b] | None => [] end)%list ∧
    decode_entries ∅ body = Ok caps.
Proof.
  split.
  - destruct data as [|v [|c rest]]; [discriminate..|]. unfold decode_contract.
    destruct (N.eqb_spec v 1) as [->|_]; [|destruct (N.eqb_spec v 2) as [->|_]; [|discriminate]];
      intros (n & [= <-] & [Hl [Hlast Hd]%fail_if_Ok]%fail_if_Ok)%result_bind_Ok;
      rewrite negb_false_iff, N.eqb_eq in Hl; cbn [length] in Hl.
    + rewrite Nat.sub_0_r, firstn_all in Hd. exists Standard, (pairs rest).
      destruct (concat_pairs (N.to_nat c) rest) as [Hc Hp]; [lia|]. split; [|exact Hd].
      rewrite Hc, Hp, N2Nat.id. cbn. by rewrite app_nil_r.
    + cbn [andb Nat.eqb] in Hlast. rewrite negb_false_iff, bool_decide_eq_true in Hlast.
      destruct rest as [|x rest' _] using rev_ind; [cbn in Hl; lia|].
      change (2%N :: c :: rest' ++ [x])%list with ((2%N :: c :: rest') ++ [x])%list in Hlast.
      rewrite last_snoc in Hlast. injection Hlast as ->.
      rewrite length_app in Hl, Hd. cbn [length] in Hl, Hd.
      rewrite Nat.add_sub, take_app_length in Hd. exists Large, (pairs rest').
      destruct (concat_pairs (N.to_nat c) rest') as [Hc Hp]; [lia|]. split; [|exact Hd].
      by rewrite Hc, Hp, N2Nat.id.
  - intros (mode & body & -> & Hd).
    assert (length (List.concat (map (λ e : N * N, [fst e; snd e]) body)) = 2 * length body)
      as Hl by (clear; induction body; [done|cbn; lia]).
    assert (pairs (List.concat (map (λ e : N * N, [fst e; snd e]) body)) = body) as Hp
      by (clear; induction body as [|[]]; [done|cbn; by f_equal]).
    unfold decode_contract. destruct mode; cbn [launch_version N.eqb Pos.eqb];
      apply result_bind_Ok; (eexists; split; [reflexivity|]); rewrite !fail_if_Ok.
    + change (match launch_trailer Standard with Some b => [b] | None => [] end) with (@nil N).
      rewrite app_nil_r. cbn [length]. rewrite Hl, Nat.sub_0_r, firstn_all2 by lia.
      rewrite Hp. split_and!; [|done..]. apply negb_false_iff, N.eqb_eq. lia.
    + change (match launch_trailer Large with Some b => [b] | None => [] end) with [1%N].
      cbn [length]. rewrite length_app, Hl. cbn [length].
      rewrite app_comm_cons, app_comm_cons, last_snoc, bool_decide_eq_true_2 by done.
      rewrite Nat.add_sub, take_app_le by lia. rewrite firstn_all2 by lia. rewrite Hp.
      split_and!; [|done..]. apply negb_false_iff, N.eqb_eq. lia.
Qed.

(** * Theorems *)

(** C36: the decoder of the launch section, which has its own tables, is exact
    against the encoder: it accepts a payload precisely when the payload is
    the encoding, with the entries in some order and under some heap mode,
    of the grant it returns, and that grant holds only host capabilities
    with rights of their own vocabulary.  So an unknown tag, a right bit of
    another capability, a second entry for a capability, a wrong count or an
    unknown heap byte is refused.  In particular the payload the compiler
    writes for a module always exists and reads back as the grant of its
    [main] and the heap mode it declares. *)
Theorem launch_decode_exact :
  (∀ data caps, decode_contract data = Ok caps ↔
     grant_ok caps ∧ ∃ mode es, Permutation es (map_to_list caps) ∧
       contract_bytes es mode = Some data) ∧
  (∀ items, ∃ data caps, launch_contract_payload items = Some data ∧
     run_grant items = Some caps ∧ decode_contract data = Ok caps ∧
     from_launch_contract data = heap_mode items).
Proof.
  assert (∀ data caps, decode_contract data = Ok caps ↔
     grant_ok caps ∧ ∃ mode es, Permutation es (map_to_list caps) ∧
       contract_bytes es mode = Some data) as Hexact.
  { intros data caps. rewrite decode_header. split.
    - intros (mode & body & -> & (es & Hok & Hm & Hnd & _ & ->)%decode_entries_exact).
      rewrite (right_id_L ∅ (∪)).
      assert (Permutation es (map_to_list (list_to_map es : CapSet))) as Hp
        by (symmetry; by apply map_to_list_to_map).
      split.
      + apply grant_ok_entries. intros e He. rewrite <- Hp in He.
        rewrite list.Forall_forall in Hok. auto.
      + exists mode, es. split; [done|]. unfold contract_bytes. rewrite Hm. cbn.
        apply length_mapM in Hm. rewrite length_map in Hm. by rewrite Hm.
    - intros (Hg & mode & es & Hp & Hb). unfold contract_bytes in Hb.
      destruct (mapM cap_entry es) as [bs|] eqn:Hm; [|discriminate]. cbn in Hb.
      injection Hb as <-. destruct (mapM_entries_length _ _ Hm) as [_ H2].
      exists mode, (pairs (List.concat bs)). rewrite pairs_concat by done.
      pose proof (length_mapM _ _ _ Hm) as Hlen.
      rewrite <- (pairs_concat bs H2), length_map in Hlen. rewrite <- Hlen. split; [done|].
      apply decode_entries_exact. exists es. rewrite pairs_concat by done.
      rewrite grant_ok_entries in Hg. split_and!; [|done| | |].
      + apply list.Forall_forall. intros e He. apply Hg. by rewrite <- Hp.
      + change (NoDup (fst <$> es)). rewrite Hp. apply NoDup_fst_map_to_list.
      + apply list.Forall_forall. intros e _. apply lookup_empty.
      + rewrite (right_id_L ∅ (∪)). symmetry. rewrite <- (list_to_map_to_list caps).
        apply list_to_map_proper; [|done]. change (NoDup (fst <$> es)). rewrite Hp.
        apply NoDup_fst_map_to_list. }
  split; [exact Hexact|]. intros items.
  destruct (run_grant_ok items) as (grant & Hr & Hg).
  destruct (payload_total grant (heap_mode items) Hg) as [p Hp].
  exists p, grant. unfold launch_contract_payload. rewrite Hr.
  cbn [mbind option_bind]. split_and!; [done..| |by eapply payload_heap].
  apply Hexact. split; [done|]. exists (heap_mode items), (btree_entries grant).
  split; [apply merge_sort_Permutation|by apply payload_contract_bytes].
Qed.
