(* ===== verification/Wire.v ===== *)
(** * Wire: the byte-level input, framing and limits of the worker protocol

    Models [io.rs], [error.rs] and [limits.rs] of
    [crates/witchy-worker-protocol/src].  An [Input] is the unread suffix of
    its bytes ([bytes[cursor..]]); a reading method is a [parser], which
    returns the value and the new suffix or the [ProtocolError].  A writer
    appends to its output, so an encoder is the list of bytes it appends.
    Integers are [N] at the width of the method; [usize] has 64 bits. *)

From S2P Require Import Prelude.

Local Open Scope N_scope.
Local Open Scope list_scope.

Inductive ProtocolError : Set :=
  | BudgetExceeded (field : string)
  | DigestMismatch (field : string)
  | EmptyField (field : string)
  | InvalidDiagnostic
  | InvalidLimit (field : string)
  | InvalidMagic
  | InvalidResponseShape
  | InvalidUtf8
  | LengthOverflow (field : string)
  | NonCanonical
  | NonZeroReserved
  | RequestMismatch
  | TrailingInput
  | Truncated
  | UnknownMessageKind (kind : N)
  | UnknownResponseStatus (status : N)
  | UnknownTarget (target : N)
  | UnsupportedAdmissionSchema (schema : N)
  | UnsupportedProtocolSchema (schema : N).

Abbreviation bytes := (list byte).

Definition len (b : bytes) : N := N.of_nat (length b).

(** ** Little-endian integers *)

Definition byte_of (v : N) : byte := default x00 (Byte.of_N (v mod 256)).

(** [v.to_le_bytes()] at [n] bytes. *)
Fixpoint to_le (n : nat) (v : N) : bytes :=
  match n with
  | O => []
  | S n' => byte_of v :: to_le n' (v / 256)
  end.

(** [uN::from_le_bytes] *)
Fixpoint from_le (b : bytes) : N :=
  match b with
  | [] => 0
  | x :: b' => Byte.to_N x + 256 * from_le b'
  end.

Definition put_u8 (v : N) : bytes := to_le 1 v.
Definition put_u16 (v : N) : bytes := to_le 2 v.
Definition put_u32 (v : N) : bytes := to_le 4 v.
Definition put_u64 (v : N) : bytes := to_le 8 v.

(** [u32::try_from(value.len())] with the field's overflow error. *)
Definition put_bytes (value : bytes) (field : string) : result ProtocolError bytes :=
  if len value <=? u32_max then Ok (put_u32 (len value) ++ value)
  else Err (LengthOverflow field).

(** ** Reading *)

Definition parser (A : Type) : Type := bytes → result ProtocolError (A * bytes).

#[export] Instance parser_ret : MRet parser := λ _ a input, Ok (a, input).
#[export] Instance parser_bind : MBind parser := λ _ _ f p input,
  match p input with Ok (a, rest) => f a rest | Err e => Err e end.

Definition fails {A} (e : ProtocolError) : parser A := λ _, Err e.

(** [if cond { return Err(e) }] while reading *)
Definition reject_if (b : bool) (e : ProtocolError) : parser unit :=
  if b then fails e else mret tt.

(** [result?] while reading *)
Definition lift {A} (r : result ProtocolError A) : parser A :=
  match r with Ok a => mret a | Err e => fails e end.

Definition remaining : parser N := λ input, Ok (len input, input).

Definition finish : parser unit := λ input,
  match input with [] => Ok (tt, []) | _ :: _ => Err TrailingInput end.

Definition take_bytes (n : N) : parser bytes := λ input,
  if n <=? len input
  then Ok (take (N.to_nat n) input, drop (N.to_nat n) input)
  else Err Truncated.

(** [u8], [u16], [u32], [u64] *)
Definition uint (n : nat) : parser N :=
  b ← take_bytes (N.of_nat n); mret (from_le b).

Definition u8 : parser N := uint 1.
Definition u16 : parser N := uint 2.
Definition u32 : parser N := uint 4.
Definition u64 : parser N := uint 8.
Definition array_32 : parser bytes := take_bytes 32.

Definition read_bytes (maximum : N) (field : string) : parser bytes :=
  length ← u32;
  if maximum <? length then fails (BudgetExceeded field) else take_bytes length.

(** ** Frames *)

Definition FRAME_HEADER_BYTES : N := 16.

Definition frame (magic : bytes) (schema kind : N) (payload : bytes)
    : result ProtocolError bytes :=
  if len payload <=? u32_max
  then Ok (magic ++ put_u16 schema ++ put_u8 kind ++ put_u8 0
           ++ put_u32 (len payload) ++ payload)
  else Err (LengthOverflow "frame payload").

Definition payload_reader (magic : bytes) (schema kind : N) : parser bytes :=
  found ← take_bytes (len magic);
  reject_if (negb (bool_decide (found = magic))) InvalidMagic;;
  found_schema ← u16;
  reject_if (negb (found_schema =? schema)) (UnsupportedProtocolSchema found_schema);;
  found_kind ← u8;
  reject_if (negb (found_kind =? kind)) (UnknownMessageKind found_kind);;
  reserved ← u8;
  reject_if (negb (reserved =? 0)) NonZeroReserved;;
  length ← u32;
  left_over ← remaining;
  reject_if (left_over <? length) Truncated;;
  reject_if (length <? left_over) TrailingInput;;
  take_bytes length.

Definition payload (b : bytes) (maximum : N) (magic : bytes) (schema kind : N)
    : result ProtocolError bytes :=
  if maximum <? len b then Err (BudgetExceeded "frame bytes")
  else match payload_reader magic schema kind b with
       | Ok (body, _) => Ok body
       | Err e => Err e
       end.

(** ** Worker limits *)

Definition MAX_SOURCE_BUNDLE_BYTES : N := 64 * 1024 * 1024.
Definition MAX_RESPONSE_BYTES : N := 128 * 1024 * 1024.
Definition MAX_DIAGNOSTIC_BYTES : N := 1024 * 1024.
Definition MAX_CANDIDATE_WIR_BYTES : N := 64 * 1024 * 1024.
Definition MAX_AUTHORITY_WIR_BYTES : N := 64 * 1024 * 1024.
Definition MAX_FINAL_BYTE_PLAN_BYTES : N := 64 * 1024 * 1024.
Definition MAX_CPU_TIME_MS : N := 30 * 60 * 1000.
Definition MAX_WALL_TIME_MS : N := 30 * 60 * 1000.
Definition MAX_MEMORY_BYTES : N := 32 * 1024 * 1024 * 1024.
Definition MAX_SOURCE_FILES : N := 100000.
Definition MAX_RECURSION_DEPTH : N := 4096.
Definition MAX_PARSER_NODES : N := 100000000.
Definition MAX_TYPE_EXPANSIONS : N := 100000000.
Definition MAX_SPECIALIZATIONS : N := 10000000.

Record WorkerLimits : Set := {
  cpu_time_ms : N;
  wall_time_ms : N;
  memory_bytes : N;
  max_source_bytes : N;
  max_response_bytes : N;
  max_source_files : N;
  max_recursion_depth : N;
  max_parser_nodes : N;
  max_type_expansions : N;
  max_specializations : N;
  max_diagnostic_bytes : N;
  max_candidate_wir_bytes : N;
  max_authority_wir_bytes : N;
  max_final_byte_plan_bytes : N;
}.

(** [bounded_u32] and [bounded_u64] *)
Definition bounded (value maximum : N) (field : string) : result ProtocolError unit :=
  if (value =? 0) || (maximum <? value) then Err (InvalidLimit field) else Ok tt.

Definition validate (l : WorkerLimits) : result ProtocolError WorkerLimits :=
  bounded (cpu_time_ms l) MAX_CPU_TIME_MS "cpu time";;
  bounded (wall_time_ms l) MAX_WALL_TIME_MS "wall time";;
  bounded (memory_bytes l) MAX_MEMORY_BYTES "memory bytes";;
  bounded (max_source_bytes l) MAX_SOURCE_BUNDLE_BYTES "source bytes";;
  bounded (max_response_bytes l) MAX_RESPONSE_BYTES "response bytes";;
  bounded (max_source_files l) MAX_SOURCE_FILES "source files";;
  bounded (max_recursion_depth l) MAX_RECURSION_DEPTH "recursion depth";;
  bounded (max_parser_nodes l) MAX_PARSER_NODES "parser nodes";;
  bounded (max_type_expansions l) MAX_TYPE_EXPANSIONS "type expansions";;
  bounded (max_specializations l) MAX_SPECIALIZATIONS "specializations";;
  bounded (max_diagnostic_bytes l) MAX_DIAGNOSTIC_BYTES "diagnostic bytes";;
  bounded (max_candidate_wir_bytes l) MAX_CANDIDATE_WIR_BYTES "candidate WIR bytes";;
  bounded (max_authority_wir_bytes l) MAX_AUTHORITY_WIR_BYTES "AuthorityWIR bytes";;
  bounded (max_final_byte_plan_bytes l) MAX_FINAL_BYTE_PLAN_BYTES "final-byte plan bytes";;
  if (max_response_bytes l <? max_diagnostic_bytes l)
     || (max_response_bytes l <? max_candidate_wir_bytes l)
     || (max_response_bytes l <? max_authority_wir_bytes l)
     || (max_response_bytes l <? max_final_byte_plan_bytes l)
  then Err (InvalidLimit "per-field output exceeds aggregate response bytes")
  else Ok l.

Definition encode_limits (l : WorkerLimits) : bytes :=
  put_u64 (cpu_time_ms l) ++ put_u64 (wall_time_ms l) ++ put_u64 (memory_bytes l)
  ++ put_u64 (max_source_bytes l) ++ put_u64 (max_response_bytes l)
  ++ put_u32 (max_source_files l) ++ put_u32 (max_recursion_depth l)
  ++ put_u64 (max_parser_nodes l) ++ put_u64 (max_type_expansions l)
  ++ put_u64 (max_specializations l) ++ put_u32 (max_diagnostic_bytes l)
  ++ put_u32 (max_candidate_wir_bytes l) ++ put_u32 (max_authority_wir_bytes l)
  ++ put_u32 (max_final_byte_plan_bytes l).

Definition decode_limits : parser WorkerLimits :=
  a ← u64; b ← u64; c ← u64; d ← u64; e ← u64;
  f ← u32; g ← u32;
  h ← u64; i ← u64; j ← u64;
  k ← u32; l ← u32; m ← u32; n ← u32;
  lift (validate {|
    cpu_time_ms := a; wall_time_ms := b; memory_bytes := c; max_source_bytes := d;
    max_response_bytes := e; max_source_files := f; max_recursion_depth := g;
    max_parser_nodes := h; max_type_expansions := i; max_specializations := j;
    max_diagnostic_bytes := k; max_candidate_wir_bytes := l;
    max_authority_wir_bytes := m; max_final_byte_plan_bytes := n |}).

(** * Lemmas *)

Lemma len_app a b : len (a ++ b) = len a + len b.
Proof. unfold len. rewrite length_app. lia. Qed.

Lemma len_nil : len [] = 0.
Proof. done. Qed.

Lemma byte_of_to_N b : byte_of (Byte.to_N b) = b.
Proof.
  unfold byte_of. rewrite N.mod_small by (pose proof (Byte.to_N_bounded b); lia).
  by rewrite Byte.of_to_N.
Qed.

Lemma to_N_byte_of v : Byte.to_N (byte_of v) = v mod 256.
Proof.
  unfold byte_of. destruct (Byte.of_N (v mod 256)) as [b|] eqn:E; cbn.
  - by apply Byte.to_of_N.
  - apply Byte.of_N_None_iff in E. pose proof (N.mod_lt v 256). lia.
Qed.

Lemma length_to_le n v : length (to_le n v) = n.
Proof. revert v. induction n; intros v; cbn; auto. Qed.

Lemma len_to_le n v : len (to_le n v) = N.of_nat n.
Proof. unfold len. by rewrite length_to_le. Qed.

Lemma from_to_le n v : v < 256 ^ N.of_nat n → from_le (to_le n v) = v.
Proof.
  revert v. induction n as [|n IH]; intros v Hv; cbn [to_le from_le].
  { change (256 ^ N.of_nat 0) with 1 in Hv. lia. }
  rewrite Nat2N.inj_succ, N.pow_succ_r' in Hv. rewrite IH.
  - rewrite to_N_byte_of. pose proof (N.div_mod v 256). lia.
  - apply N.Div0.div_lt_upper_bound. lia.
Qed.

Lemma to_from_le b : to_le (length b) (from_le b) = b.
Proof.
  induction b as [|x b IH]; [done|]. cbn [length from_le to_le].
  pose proof (Byte.to_N_bounded x) as Hx. f_equal.
  - rewrite <- (byte_of_to_N x) at 2. unfold byte_of. do 2 f_equal.
    rewrite (N.mul_comm 256), N.Div0.mod_add. done.
  - rewrite (N.mul_comm 256), N.div_add by done.
    rewrite N.div_small by lia. by rewrite N.add_0_l.
Qed.

Lemma from_le_bound b : from_le b < 256 ^ len b.
Proof.
  induction b as [|x b IH]; cbn [from_le]; [done|].
  unfold len in *. cbn [length]. rewrite Nat2N.inj_succ, N.pow_succ_r'.
  pose proof (Byte.to_N_bounded x). lia.
Qed.

(** ** Reading back what was written *)

Lemma take_bytes_app n b rest : len b = n → take_bytes n (b ++ rest) = Ok (b, rest).
Proof.
  intros <-. unfold take_bytes. rewrite len_app.
  rewrite (proj2 (N.leb_le _ _)) by lia. unfold len. rewrite Nat2N.id.
  by rewrite take_app_length, drop_app_length.
Qed.

Lemma take_bytes_Ok n input b rest :
  take_bytes n input = Ok (b, rest) ↔ input = b ++ rest ∧ len b = n.
Proof.
  split.
  - unfold take_bytes. destruct (N.leb_spec n (len input)) as [Hn|]; [|done].
    intros [= <- <-]. rewrite take_drop. split; [done|].
    unfold len in *. rewrite length_take. lia.
  - intros [-> Hb]. by apply take_bytes_app.
Qed.

Lemma uint_app n v rest : v < 256 ^ N.of_nat n → uint n (to_le n v ++ rest) = Ok (v, rest).
Proof.
  intros Hv. unfold uint, mbind, parser_bind.
  rewrite take_bytes_app by apply len_to_le. cbn. by rewrite from_to_le.
Qed.

Lemma uint_Ok n input v rest :
  uint n input = Ok (v, rest) ↔ input = to_le n v ++ rest ∧ v < 256 ^ N.of_nat n.
Proof.
  split.
  - unfold uint, mbind, parser_bind. destruct (take_bytes _ input) as [[b r]|] eqn:E; [|done].
    intros [= <- <-]. apply take_bytes_Ok in E as [-> Hb].
    pose proof (from_le_bound b) as Hf. rewrite Hb in Hf. split; [|done].
    f_equal. rewrite <- (to_from_le b) at 1. f_equal. unfold len in Hb. lia.
  - intros [-> Hv]. by apply uint_app.
Qed.

(** ** Stepping through a reader *)

Lemma bind_Ok {A B} (p : parser A) (f : A → parser B) input r :
  (p ≫= f) input = Ok r ↔ ∃ a mid, p input = Ok (a, mid) ∧ f a mid = Ok r.
Proof.
  unfold mbind, parser_bind. destruct (p input) as [[a mid]|e]; naive_solver.
Qed.

Lemma bind_step {A B} (p : parser A) (f : A → parser B) input a mid :
  p input = Ok (a, mid) → (p ≫= f) input = f a mid.
Proof. unfold mbind, parser_bind. by intros ->. Qed.

Lemma reject_if_Ok b e input u rest :
  reject_if b e input = Ok (u, rest) ↔ b = false ∧ input = rest.
Proof.
  unfold reject_if, fails, mret, parser_ret. destruct b, u.
  - split; [done|]. by intros [? _].
  - split; [by intros [= ->]|]. by intros [_ ->].
Qed.

Lemma reject_false e input : reject_if false e input = Ok (tt, input).
Proof. done. Qed.

Lemma lift_Ok {A} (r : result ProtocolError A) input a rest :
  lift r input = Ok (a, rest) ↔ r = Ok a ∧ input = rest.
Proof.
  unfold lift, fails, mret, parser_ret. destruct r as [x|e].
  - split; [by intros [= -> ->]|]. by intros [[= ->] ->].
  - split; [done|]. by intros [? _].
Qed.

Lemma finish_Ok input u rest : finish input = Ok (u, rest) ↔ input = [] ∧ rest = [].
Proof.
  unfold finish. destruct input, u; (split; [|by intros [? ->]]); [|done].
  by intros [= <-].
Qed.

Lemma remaining_Ok input n rest :
  remaining input = Ok (n, rest) ↔ n = len input ∧ input = rest.
Proof. unfold remaining. split; [by intros [= <- <-]|]. by intros [-> ->]. Qed.

Lemma read_bytes_Ok maximum field input b rest :
  read_bytes maximum field input = Ok (b, rest) ↔
  input = put_u32 (len b) ++ b ++ rest ∧ len b ≤ u32_max ∧ len b ≤ maximum.
Proof.
  unfold read_bytes, u32, put_u32. rewrite bind_Ok. split.
  - intros (n & mid & [-> Hn]%uint_Ok & H).
    destruct (N.ltb_spec maximum n); [done|]. apply take_bytes_Ok in H as [-> <-].
    split; [done|]. change (256 ^ N.of_nat 4) with 4294967296 in Hn. unfold u32_max. lia.
  - intros (-> & Hu & Hm). exists (len b), (b ++ rest). split.
    + apply uint_app. change (256 ^ N.of_nat 4) with 4294967296. unfold u32_max in *. lia.
    + destruct (N.ltb_spec maximum (len b)); [lia|]. by apply take_bytes_app.
Qed.

(** Turn a successful read into the bytes it consumed. *)
Ltac read_inv :=
  repeat match goal with
  | H : (_ ≫= _) _ = Ok _ |- _ => apply bind_Ok in H as (? & ? & ? & H); cbv beta in H
  | H : uint _ _ = Ok _ |- _ => apply uint_Ok in H as [? ?]
  | H : u8 _ = Ok _ |- _ => apply uint_Ok in H as [? ?]
  | H : u16 _ = Ok _ |- _ => apply uint_Ok in H as [? ?]
  | H : u32 _ = Ok _ |- _ => apply uint_Ok in H as [? ?]
  | H : u64 _ = Ok _ |- _ => apply uint_Ok in H as [? ?]
  | H : array_32 _ = Ok _ |- _ => apply take_bytes_Ok in H as [? ?]
  | H : take_bytes _ _ = Ok _ |- _ => apply take_bytes_Ok in H as [? ?]
  | H : read_bytes _ _ _ = Ok _ |- _ => apply read_bytes_Ok in H as (? & ? & ?)
  | H : reject_if _ _ _ = Ok _ |- _ => apply reject_if_Ok in H as [? ?]
  | H : lift _ _ = Ok _ |- _ => apply lift_Ok in H as [? ?]
  | H : finish _ = Ok _ |- _ => apply finish_Ok in H as [? ?]
  | H : remaining _ = Ok _ |- _ => apply remaining_Ok in H as [? ?]
  | u : () |- _ => destruct u
  end.

(** Run a reader over the bytes an encoder wrote. *)
Ltac read_step :=
  match goal with
  | |- (uint _ ≫= _) _ = _ => erewrite bind_step by (apply uint_app; try done)
  | |- (u8 ≫= _) _ = _ => erewrite bind_step by (apply uint_app; try done)
  | |- (u16 ≫= _) _ = _ => erewrite bind_step by (apply uint_app; try done)
  | |- (u32 ≫= _) _ = _ => erewrite bind_step by (apply uint_app; try done)
  | |- (u64 ≫= _) _ = _ => erewrite bind_step by (apply uint_app; try done)
  | |- (array_32 ≫= _) _ = _ => erewrite bind_step by (apply take_bytes_app; try done)
  | |- (take_bytes _ ≫= _) _ = _ => erewrite bind_step by (apply take_bytes_app; try done)
  | |- (remaining ≫= _) _ = _ => erewrite bind_step by reflexivity
  | |- (reject_if false _ ≫= _) _ = _ => erewrite bind_step by apply reject_false
  end; cbv beta.

(** ** Limits *)

Definition in_bound (value maximum : N) : Prop := 0 < value ∧ value ≤ maximum.

(** What [validate] promises. *)
Record limits_ok (l : WorkerLimits) : Prop := {
  ok_cpu : in_bound (cpu_time_ms l) MAX_CPU_TIME_MS;
  ok_wall : in_bound (wall_time_ms l) MAX_WALL_TIME_MS;
  ok_memory : in_bound (memory_bytes l) MAX_MEMORY_BYTES;
  ok_source : in_bound (max_source_bytes l) MAX_SOURCE_BUNDLE_BYTES;
  ok_response : in_bound (max_response_bytes l) MAX_RESPONSE_BYTES;
  ok_files : in_bound (max_source_files l) MAX_SOURCE_FILES;
  ok_depth : in_bound (max_recursion_depth l) MAX_RECURSION_DEPTH;
  ok_nodes : in_bound (max_parser_nodes l) MAX_PARSER_NODES;
  ok_types : in_bound (max_type_expansions l) MAX_TYPE_EXPANSIONS;
  ok_specs : in_bound (max_specializations l) MAX_SPECIALIZATIONS;
  ok_diag : in_bound (max_diagnostic_bytes l) MAX_DIAGNOSTIC_BYTES;
  ok_candidate : in_bound (max_candidate_wir_bytes l) MAX_CANDIDATE_WIR_BYTES;
  ok_authority : in_bound (max_authority_wir_bytes l) MAX_AUTHORITY_WIR_BYTES;
  ok_plan : in_bound (max_final_byte_plan_bytes l) MAX_FINAL_BYTE_PLAN_BYTES;
  ok_aggregate :
    max_diagnostic_bytes l ≤ max_response_bytes l ∧
    max_candidate_wir_bytes l ≤ max_response_bytes l ∧
    max_authority_wir_bytes l ≤ max_response_bytes l ∧
    max_final_byte_plan_bytes l ≤ max_response_bytes l;
}.

Lemma bounded_cases v m field :
  (bounded v m field = Ok tt ∧ in_bound v m) ∨
  (bounded v m field = Err (InvalidLimit field) ∧ ¬ in_bound v m).
Proof.
  unfold bounded, in_bound. destruct (N.eqb_spec v 0), (N.ltb_spec m v); cbn;
    (left; split; [done|lia]) || (right; split; [done|lia]).
Qed.

(** A bound check in front of the rest of a chain. *)
Lemma bounded_bind {A} v m field (k : result ProtocolError A) a :
  (bounded v m field;; k) = Ok a ↔ in_bound v m ∧ k = Ok a.
Proof.
  destruct (bounded_cases v m field) as [[-> H]|[-> H]]; cbn [mbind result_bind].
  - tauto.
  - split; [discriminate|]. tauto.
Qed.

Lemma validate_Ok l l' : validate l = Ok l' ↔ l' = l ∧ limits_ok l.
Proof.
  unfold validate. rewrite !bounded_bind.
  destruct (N.ltb_spec (max_response_bytes l) (max_diagnostic_bytes l)),
    (N.ltb_spec (max_response_bytes l) (max_candidate_wir_bytes l)),
    (N.ltb_spec (max_response_bytes l) (max_authority_wir_bytes l)),
    (N.ltb_spec (max_response_bytes l) (max_final_byte_plan_bytes l)); cbn [orb];
    try (split; [intros H'; destruct_and! H'; discriminate
                |intros [_ Hok]; destruct (ok_aggregate l Hok); exfalso; lia]).
  split.
  - intros H'. destruct_and! H'.
    match goal with H : Ok _ = Ok _ |- _ => injection H as <- end.
    split; [reflexivity|]. split; assumption || (repeat split; assumption).
  - intros [-> []]. repeat (split; [assumption|]). reflexivity.
Qed.

Lemma bounded_bind_Err {A} v m field (k : result ProtocolError A) e :
  (bounded v m field;; k) = Err e → e = InvalidLimit field ∨ k = Err e.
Proof.
  destruct (bounded_cases v m field) as [[-> H]|[-> H]]; cbn [mbind result_bind];
    [by right|]. intros [= <-]. by left.
Qed.

Lemma validate_Err l e : validate l = Err e → ∃ field, e = InvalidLimit field.
Proof.
  unfold validate. intros H.
  do 14 (apply bounded_bind_Err in H as [->|H]; [by eexists|]).
  destruct (_ || _); [|discriminate]. injection H as <-. by eexists.
Qed.

Lemma len_encode_limits l : len (encode_limits l) = 88.
Proof. unfold encode_limits, put_u64, put_u32. by rewrite !len_app, !len_to_le. Qed.

Lemma decode_limits_Ok input l rest :
  decode_limits input = Ok (l, rest) ↔ input = encode_limits l ++ rest ∧ limits_ok l.
Proof.
  unfold decode_limits. split.
  - intros H. read_inv. subst. match goal with H : validate _ = _ |- _ =>
      apply validate_Ok in H as [-> Hok] end.
    split; [|done]. unfold encode_limits, put_u64, put_u32.
    cbn [cpu_time_ms wall_time_ms memory_bytes max_source_bytes max_response_bytes
      max_source_files max_recursion_depth max_parser_nodes max_type_expansions
      max_specializations max_diagnostic_bytes max_candidate_wir_bytes
      max_authority_wir_bytes max_final_byte_plan_bytes].
    by rewrite <- !app_assoc.
  - intros [-> Hok]. unfold encode_limits, put_u64, put_u32. rewrite <- !app_assoc.
    assert (validate l = Ok l) as Hv by (by apply validate_Ok).
    destruct Hok as [????????????? ? _]. unfold in_bound in *.
    repeat (erewrite bind_step by (apply uint_app;
      first [change (256 ^ N.of_nat 8) with 18446744073709551616
            |change (256 ^ N.of_nat 4) with 4294967296];
      eapply N.le_lt_trans; [by destruct_and!|done]); cbv beta).
    apply lift_Ok. split; [|done]. rewrite <- Hv. by destruct l.
Qed.

(** ** Frames *)

Lemma frame_Ok magic schema kind body b :
  frame magic schema kind body = Ok b ↔
  len body ≤ u32_max ∧
  b = magic ++ put_u16 schema ++ put_u8 kind ++ put_u8 0 ++ put_u32 (len body) ++ body.
Proof.
  unfold frame. destruct (N.leb_spec (len body) u32_max); split;
    [by intros [= <-]|by intros [_ ->]|done|intros [? _]; lia].
Qed.

(** [payload] accepts exactly the frames [frame] writes, within the budget. *)
Lemma payload_Ok b maximum magic schema kind body :
  schema < 65536 → kind < 256 →
  payload b maximum magic schema kind = Ok body ↔
  len b ≤ maximum ∧ frame magic schema kind body = Ok b.
Proof.
  intros Hs Hk. rewrite frame_Ok. unfold payload.
  destruct (N.ltb_spec maximum (len b)) as [Hm|Hm]; [split; [done|]; intros [? _]; lia|].
  unfold put_u16, put_u8, put_u32. split.
  - destruct (payload_reader magic schema kind b) as [[body' rest]|] eqn:H; [|done].
    intros [= <-]. unfold payload_reader in H. read_inv. subst.
    repeat match goal with H : negb _ = false |- _ => apply negb_false_iff in H end.
    repeat match goal with
      | H : (_ =? _) = true |- _ => apply N.eqb_eq in H; subst
      | H : bool_decide _ = true |- _ => apply bool_decide_eq_true in H; subst
      | H : (_ <? _) = false |- _ => apply N.ltb_ge in H end.
    rewrite len_app in *. assert (len rest = 0) as Hr by lia.
    assert (rest = []) as -> by (by destruct rest). rewrite app_nil_r in *.
    change (256 ^ N.of_nat 4) with 4294967296 in *. unfold u32_max.
    split_and!; [lia|lia|done].
  - intros (_ & Hb & ->).
    assert (payload_reader magic schema kind
      (magic ++ to_le 2 schema ++ to_le 1 kind ++ to_le 1 0 ++ to_le 4 (len body) ++ body)
      = Ok (body, [])) as ->; [|done].
    unfold payload_reader. read_step. rewrite bool_decide_eq_true_2 by done. cbn [negb].
    do 2 read_step. rewrite N.eqb_refl. cbn [negb]. do 2 read_step.
    rewrite N.eqb_refl. cbn [negb]. do 2 read_step. cbn [N.eqb negb]. read_step.
    erewrite bind_step by (apply uint_app; change (256 ^ N.of_nat 4) with 4294967296;
      unfold u32_max in *; lia). cbv beta. read_step. rewrite N.ltb_irrefl.
    do 2 read_step. apply take_bytes_Ok. by rewrite app_nil_r.
Qed.

(** ** Errors a reader never returns *)

Definition never {A} (e : ProtocolError) (p : parser A) : Prop := ∀ input, p input ≠ Err e.

Lemma never_bind {A B} e (p : parser A) (f : A → parser B) :
  never e p → (∀ a, never e (f a)) → never e (p ≫= f).
Proof.
  intros Hp Hf input. unfold mbind, parser_bind. specialize (Hp input).
  destruct (p input) as [[a rest]|e']; [apply Hf|]. congruence.
Qed.

Lemma never_ret {A} e (a : A) : never e (mret a).
Proof. by intros input. Qed.

Lemma never_fails {A} e e' : e' ≠ e → never e (fails e' : parser A).
Proof. intros He input. unfold fails. congruence. Qed.

Lemma never_reject e b e' : e' ≠ e → never e (reject_if b e').
Proof. intros He. unfold reject_if. destruct b; [by apply never_fails|by apply never_ret]. Qed.

Lemma never_lift {A} e (r : result ProtocolError A) : r ≠ Err e → never e (lift r).
Proof.
  intros He. unfold lift. destruct r; [by apply never_ret|]. apply never_fails. congruence.
Qed.

Lemma never_take e n : e ≠ Truncated → never e (take_bytes n).
Proof. intros He input. unfold take_bytes. destruct (_ <=? _); congruence. Qed.

Lemma never_uint e n : e ≠ Truncated → never e (uint n).
Proof. intros He. apply never_bind; [by apply never_take|]. intros. apply never_ret. Qed.

Lemma never_remaining e : never e remaining.
Proof. by intros input. Qed.

Lemma never_finish e : e ≠ TrailingInput → never e finish.
Proof. intros He [|? ?]; cbn; congruence. Qed.

Lemma never_read_bytes e m field :
  e ≠ Truncated → e ≠ BudgetExceeded field → never e (read_bytes m field).
Proof.
  intros He Hb. apply never_bind; [by apply never_uint|]. intros n.
  destruct (_ <? _); [apply never_fails; congruence|by apply never_take].
Qed.

#[export] Hint Resolve never_bind never_ret never_fails never_reject never_lift never_take
  never_uint never_remaining never_finish never_read_bytes : witchy.

(** Walk through a reader and discharge the error inequalities. *)
Ltac never_tac :=
  repeat match goal with
  | |- never _ (let '_ := ?x in _) => destruct x
  | |- never _ (_ ≫= _) => apply never_bind; [|intros]
  | |- never _ (match ?x with _ => _ end) => destruct x
  | |- never _ _ => solve [unfold u8, u16, u32, u64, array_32 in *; auto with witchy
                          |apply never_lift; auto with witchy]
  end; try discriminate.

Lemma bounded_Err v m field e : bounded v m field = Err e → e = InvalidLimit field.
Proof. destruct (bounded_cases v m field) as [[-> ?]|[-> ?]]; congruence. Qed.

Lemma never_decode_limits e :
  e ≠ Truncated → (∀ field, e ≠ InvalidLimit field) → never e decode_limits.
Proof.
  intros He Hl. unfold decode_limits.
  do 14 (apply never_bind; [by apply never_uint|intros ?]).
  apply never_lift. intros Hv. apply validate_Err in Hv as [field ->]. by eapply Hl.
Qed.

Lemma payload_not_noncanonical b maximum magic schema kind :
  payload b maximum magic schema kind ≠ Err NonCanonical.
Proof.
  unfold payload. destruct (_ <? _); [discriminate|].
  assert (never NonCanonical (payload_reader magic schema kind)) as Hn
    by (unfold payload_reader; never_tac).
  specialize (Hn b). destruct (payload_reader magic schema kind b) as [[? ?]|]; congruence.
Qed.

(** * Theorems *)

(** the resource ceilings are validated exactly and
    survive the wire.  [validate] returns its argument when every ceiling is
    positive and within its hard maximum and no per-field output exceeds the
    aggregate response, and otherwise only an [InvalidLimit]; decoding
    accepts precisely the encodings of validated limits, consuming 88 bytes
    and leaving the rest. *)
Theorem worker_limits_exact :
  (∀ l l', validate l = Ok l' ↔ l' = l ∧ limits_ok l) ∧
  (∀ l e, validate l = Err e → ∃ field, e = InvalidLimit field) ∧
  (∀ input l rest, decode_limits input = Ok (l, rest) ↔
     input = encode_limits l ++ rest ∧ limits_ok l) ∧
  (∀ l, len (encode_limits l) = 88).
Proof.
  split_and!.
  - apply validate_Ok.
  - apply validate_Err.
  - apply decode_limits_Ok.
  - apply len_encode_limits.
Qed.

(** the frame reader and writer agree on every byte: for a
    16-bit schema and an 8-bit kind, [payload] returns a body precisely when
    the input is within the budget and is the frame [frame] writes for that
    body, so two different frames never carry the same body. *)
Theorem frame_exact b maximum magic schema kind body :
  schema < 65536 → kind < 256 →
  payload b maximum magic schema kind = Ok body ↔
  len b ≤ maximum ∧ frame magic schema kind body = Ok b.
Proof. intros. by apply payload_Ok. Qed.

Lemma frame_exact_witness :
  payload (map byte_of [87; 67; 2; 0; 1; 0; 1; 0; 0; 0; 9]) 64 (map byte_of [87; 67]) 2 1
    = Ok (map byte_of [9]).
Proof.
  apply (frame_exact _ 64 (map byte_of [87; 67]) 2 1 (map byte_of [9]));
    [reflexivity|reflexivity|].
  split; [vm_compute; discriminate|vm_compute; reflexivity].
Defined.
