(* ===== verification/WorkerRequest.v ===== *)
(** * WorkerRequest: the canonical request of the compiler worker

    Models [crates/witchy-worker-protocol/src/request.rs].  SHA-256 is the
    [sha2] crate's: a parameter of the functions that hash, of which only the
    digest length is used. *)

From S2P Require Import Prelude Wire.

Local Open Scope N_scope.
Local Open Scope list_scope.

Definition WORKER_PROTOCOL_SCHEMA_V2 : N := 2.
Definition ADMISSION_SCHEMA_V2 : N := 2.
Definition REQUEST_PRELUDE_BYTES : N := 180.
(** [b"WCHREQ02"] *)
Definition REQUEST_MAGIC : bytes := map byte_of [87; 67; 72; 82; 69; 81; 48; 50].
Definition REQUEST_KIND : N := 1.
Definition MAX_REQUEST_FRAME_BYTES : N := MAX_SOURCE_BUNDLE_BYTES + 256.
Definition REQUEST_FIXED_PAYLOAD_BYTES : N := REQUEST_PRELUDE_BYTES - FRAME_HEADER_BYTES.

(** [AdmissionSchemaId { sha256: [u8; 32] }] *)
Record AdmissionSchemaId : Set := { schema_sha256 : bytes }.

Definition admission_v2 (sha256 : bytes) : result ProtocolError AdmissionSchemaId :=
  if bool_decide (sha256 = replicate 32 x00)
  then Err (DigestMismatch "admission schema")
  else Ok {| schema_sha256 := sha256 |}.

Inductive WorkerTarget : Set :=
  | NativeRuntime | BrowserBase | BrowserCapabilityProvider | NativeBuildWorker.

(** [self as u16] *)
Definition target_code (t : WorkerTarget) : N :=
  match t with
  | NativeRuntime => 0x0001
  | BrowserBase => 0x0002
  | BrowserCapabilityProvider => 0x0003
  | NativeBuildWorker => 0x0004
  end.

Definition target_name (t : WorkerTarget) : string :=
  match t with
  | NativeRuntime => "native-runtime"
  | BrowserBase => "browser-base"
  | BrowserCapabilityProvider => "browser-capability-provider"
  | NativeBuildWorker => "native-build-worker"
  end.

Definition target_decode (value : N) : result ProtocolError WorkerTarget :=
  if value =? 0x0001 then Ok NativeRuntime
  else if value =? 0x0002 then Ok BrowserBase
  else if value =? 0x0003 then Ok BrowserCapabilityProvider
  else if value =? 0x0004 then Ok NativeBuildWorker
  else Err (UnknownTarget value).

Record WorkerRequest : Set := {
  admission_schema : AdmissionSchemaId;
  target : WorkerTarget;
  limits : WorkerLimits;
  source_bundle_sha256 : bytes;
  source_bundle : bytes;
}.

Record RequestPrelude : Set := {
  prelude_target : WorkerTarget;
  prelude_limits : WorkerLimits;
  frame_bytes : N;
}.

Definition encode_body (r : WorkerRequest) : result ProtocolError bytes :=
  source ← put_bytes (source_bundle r) "source bundle";
  Ok (put_u16 ADMISSION_SCHEMA_V2 ++ put_u16 0 ++ schema_sha256 (admission_schema r)
      ++ put_u16 (target_code (target r)) ++ put_u16 0 ++ source_bundle_sha256 r
      ++ encode_limits (limits r) ++ source).

Definition encode (r : WorkerRequest) : result ProtocolError bytes :=
  body ← encode_body r;
  encoded ← frame REQUEST_MAGIC WORKER_PROTOCOL_SCHEMA_V2 REQUEST_KIND body;
  fail_if (MAX_REQUEST_FRAME_BYTES <? len encoded) (BudgetExceeded "request frame bytes");;
  Ok encoded.

(** The fields [decode_request] and [decode_request_prelude] read in the
    same order: admission schema, target, source digest and limits. *)
Definition read_fixed : parser (AdmissionSchemaId * WorkerTarget * bytes * WorkerLimits) :=
  admission_version ← u16;
  reject_if (negb (admission_version =? ADMISSION_SCHEMA_V2))
    (UnsupportedAdmissionSchema admission_version);;
  reserved ← u16;
  reject_if (negb (reserved =? 0)) NonZeroReserved;;
  schema_digest ← array_32;
  schema ← lift (admission_v2 schema_digest);
  target_value ← u16;
  tgt ← lift (target_decode target_value);
  reserved ← u16;
  reject_if (negb (reserved =? 0)) NonZeroReserved;;
  expected_source_digest ← array_32;
  lim ← decode_limits;
  mret (schema, tgt, expected_source_digest, lim).

Section hashing.
Context (sha256 : bytes → bytes).

Definition new_request (source : bytes) (tgt : WorkerTarget)
    (schema : AdmissionSchemaId) (lim : WorkerLimits) : result ProtocolError WorkerRequest :=
  lim ← validate lim;
  fail_if (bool_decide (source = [])) (EmptyField "source bundle");;
  fail_if ((max_source_bytes lim <? len source) || (MAX_SOURCE_BUNDLE_BYTES <? len source))
    (BudgetExceeded "source bundle bytes");;
  Ok {| admission_schema := schema; target := tgt; limits := lim;
        source_bundle_sha256 := sha256 source; source_bundle := source |}.

Definition request_sha256 (r : WorkerRequest) : result ProtocolError bytes :=
  encoded ← encode r; Ok (sha256 encoded).

(** The reading half of [decode_request]: the body and nothing after it. *)
Definition read_request
    : parser (AdmissionSchemaId * WorkerTarget * bytes * WorkerLimits * bytes) :=
  '(schema, tgt, digest, lim) ← read_fixed;
  source ← read_bytes (max_source_bytes lim) "source bundle bytes";
  finish;;
  mret (schema, tgt, digest, lim, source).

Definition decode_request (b : bytes) : result ProtocolError WorkerRequest :=
  body ← payload b MAX_REQUEST_FRAME_BYTES REQUEST_MAGIC WORKER_PROTOCOL_SCHEMA_V2
           REQUEST_KIND;
  '(schema, tgt, expected_digest, lim, source, _) ← read_request body;
  fail_if (negb (bool_decide (sha256 source = expected_digest)))
    (DigestMismatch "source bundle");;
  request ← new_request source tgt schema lim;
  fail_if (negb (bool_decide (source_bundle_sha256 request = expected_digest)))
    (DigestMismatch "source bundle");;
  encoded ← encode request;
  fail_if (negb (bool_decide (encoded = b))) NonCanonical;;
  Ok request.
End hashing.

(** The reading half of [decode_request_prelude]. *)
Definition read_prelude : parser (N * WorkerTarget * WorkerLimits * N) :=
  found ← take_bytes (len REQUEST_MAGIC);
  reject_if (negb (bool_decide (found = REQUEST_MAGIC))) InvalidMagic;;
  schema ← u16;
  reject_if (negb (schema =? WORKER_PROTOCOL_SCHEMA_V2)) (UnsupportedProtocolSchema schema);;
  kind ← u8;
  reject_if (negb (kind =? REQUEST_KIND)) (UnknownMessageKind kind);;
  reserved ← u8;
  reject_if (negb (reserved =? 0)) NonZeroReserved;;
  payload_bytes ← u32;
  '(_, tgt, _, lim) ← read_fixed;
  source_bytes ← u32;
  finish;;
  mret (payload_bytes, tgt, lim, source_bytes).

(** [usize] has 64 bits: both [checked_add]s of 32-bit values succeed. *)
Definition decode_request_prelude (b : bytes) : result ProtocolError RequestPrelude :=
  fail_if (negb (len b =? REQUEST_PRELUDE_BYTES)) Truncated;;
  '(payload_bytes, tgt, lim, source_bytes, _) ← read_prelude b;
  fail_if (source_bytes =? 0) (EmptyField "source bundle");;
  fail_if ((max_source_bytes lim <? source_bytes) || (MAX_SOURCE_BUNDLE_BYTES <? source_bytes))
    (BudgetExceeded "source bundle bytes");;
  expected_payload_bytes ← ok_or (checked_add u64_max REQUEST_FIXED_PAYLOAD_BYTES source_bytes)
    (LengthOverflow "request frame");
  fail_if (negb (payload_bytes =? expected_payload_bytes)) NonCanonical;;
  frame_bytes ← ok_or (checked_add u64_max FRAME_HEADER_BYTES payload_bytes)
    (LengthOverflow "request frame");
  fail_if (MAX_REQUEST_FRAME_BYTES <? frame_bytes) (BudgetExceeded "request frame bytes");;
  Ok {| prelude_target := tgt; prelude_limits := lim; frame_bytes := frame_bytes |}.

(** * Lemmas *)

(** What a constructed request promises. *)
Record request_ok (sha256 : bytes → bytes) (r : WorkerRequest) : Prop := {
  rok_schema : schema_sha256 (admission_schema r) ≠ replicate 32 x00;
  rok_schema_len : len (schema_sha256 (admission_schema r)) = 32;
  rok_limits : limits_ok (limits r);
  rok_nonempty : source_bundle r ≠ [];
  rok_source : len (source_bundle r) ≤ max_source_bytes (limits r);
  rok_digest : source_bundle_sha256 r = sha256 (source_bundle r);
}.

Lemma admission_v2_Ok d s :
  admission_v2 d = Ok s ↔ s = {| schema_sha256 := d |} ∧ d ≠ replicate 32 x00.
Proof.
  unfold admission_v2. case_bool_decide; split; [done|by intros [_ ?]|by intros [= <-]|].
  by intros [-> _].
Qed.

Lemma target_decode_Ok v t : target_decode v = Ok t ↔ v = target_code t.
Proof.
  split; [|intros ->; by destruct t]. unfold target_decode.
  repeat match goal with |- context [v =? ?n] =>
    destruct (N.eqb_spec v n) as [->|_]; [by intros [= <-]|] end. done.
Qed.

Lemma put_bytes_Ok v field b :
  put_bytes v field = Ok b ↔ len v ≤ u32_max ∧ b = put_u32 (len v) ++ v.
Proof.
  unfold put_bytes. destruct (N.leb_spec (len v) u32_max); split;
    [by intros [= <-]|by intros [_ ->]|done|intros [? _]; lia].
Qed.

(** The fixed fields as bytes. *)
Definition fixed_bytes (schema : bytes) (tgt : WorkerTarget) (digest : bytes)
    (lim : WorkerLimits) : bytes :=
  put_u16 ADMISSION_SCHEMA_V2 ++ put_u16 0 ++ schema ++ put_u16 (target_code tgt)
  ++ put_u16 0 ++ digest ++ encode_limits lim.

Lemma target_code_bound t : target_code t < 256 ^ N.of_nat 2.
Proof. by destruct t. Qed.

Lemma read_fixed_Ok input schema tgt digest lim rest :
  read_fixed input = Ok (schema, tgt, digest, lim, rest) ↔
  input = fixed_bytes (schema_sha256 schema) tgt digest lim ++ rest ∧
  schema_sha256 schema ≠ replicate 32 x00 ∧ len (schema_sha256 schema) = 32 ∧
  len digest = 32 ∧ limits_ok lim.
Proof.
  unfold read_fixed, fixed_bytes, put_u16, ADMISSION_SCHEMA_V2. split.
  - intros H. read_inv. unfold mret, parser_ret in H. injection H as -> -> -> -> ->.
    repeat match goal with
      | H : negb (_ =? _) = false |- _ => apply negb_false_iff, N.eqb_eq in H
      | H : admission_v2 _ = _ |- _ => apply admission_v2_Ok in H as [-> H]
      | H : target_decode _ = _ |- _ => apply target_decode_Ok in H
      | H : decode_limits _ = _ |- _ => apply decode_limits_Ok in H as [? H] end.
    subst. cbn [schema_sha256]. split_and!; try done. by rewrite <- !app_assoc.
  - intros (-> & Hz & Hs & Hd & Hl). rewrite <- !app_assoc.
    repeat (read_step; cbn [N.eqb Pos.eqb negb]).
    erewrite bind_step by (apply lift_Ok; split; [by apply admission_v2_Ok|done]). cbv beta.
    erewrite bind_step by (apply uint_app, target_code_bound). cbv beta.
    erewrite bind_step by (apply lift_Ok; split; [by apply target_decode_Ok|done]). cbv beta.
    repeat (read_step; cbn [N.eqb Pos.eqb negb]).
    erewrite bind_step by (by apply decode_limits_Ok). by destruct schema.
Qed.

(** ** The bytes of a request *)

Definition request_body (r : WorkerRequest) : bytes :=
  fixed_bytes (schema_sha256 (admission_schema r)) (target r) (source_bundle_sha256 r)
    (limits r) ++ put_u32 (len (source_bundle r)) ++ source_bundle r.

Definition request_bytes (r : WorkerRequest) : bytes :=
  REQUEST_MAGIC ++ put_u16 WORKER_PROTOCOL_SCHEMA_V2 ++ put_u8 REQUEST_KIND ++ put_u8 0
  ++ put_u32 (len (request_body r)) ++ request_body r.

Section request_theory.
Context (sha256 : bytes → bytes) (sha256_length : ∀ b, len (sha256 b) = 32).

Lemma request_digest_len r : request_ok sha256 r → len (source_bundle_sha256 r) = 32.
Proof. intros H. by rewrite (rok_digest _ _ H). Qed.

Lemma request_body_len r :
  request_ok sha256 r →
  len (request_body r) = REQUEST_FIXED_PAYLOAD_BYTES + len (source_bundle r).
Proof.
  intros H. unfold request_body, fixed_bytes, put_u16, put_u32.
  rewrite !len_app, !len_to_le, len_encode_limits, (rok_schema_len _ _ H),
    (request_digest_len r H). unfold REQUEST_FIXED_PAYLOAD_BYTES, REQUEST_PRELUDE_BYTES,
    FRAME_HEADER_BYTES. lia.
Qed.

Lemma request_bytes_len r :
  request_ok sha256 r → len (request_bytes r) = REQUEST_PRELUDE_BYTES + len (source_bundle r).
Proof.
  intros H. unfold request_bytes, put_u16, put_u8, put_u32.
  rewrite !len_app, !len_to_le, request_body_len by done.
  change (len REQUEST_MAGIC) with 8.
  unfold REQUEST_FIXED_PAYLOAD_BYTES, REQUEST_PRELUDE_BYTES, FRAME_HEADER_BYTES. lia.
Qed.

Lemma source_bound r :
  request_ok sha256 r → len (source_bundle r) ≤ MAX_SOURCE_BUNDLE_BYTES.
Proof.
  intros H. destruct (ok_source _ (rok_limits _ _ H)). pose proof (rok_source _ _ H). lia.
Qed.

(** A constructed request always encodes. *)
Lemma encode_ok r : request_ok sha256 r → encode r = Ok (request_bytes r).
Proof.
  intros H. pose proof (source_bound r H) as Hs. unfold MAX_SOURCE_BUNDLE_BYTES in Hs.
  unfold encode.
  rewrite (result_bind_step _ _ (request_body r)); last first.
  { unfold encode_body. erewrite result_bind_step
      by (apply put_bytes_Ok; split; [unfold u32_max; lia|reflexivity]).
    cbv beta. unfold request_body, fixed_bytes. by rewrite <- !app_assoc. }
  rewrite (result_bind_step _ _ (request_bytes r)); last first.
  { apply frame_Ok. split; [|reflexivity]. rewrite request_body_len by done.
    unfold REQUEST_FIXED_PAYLOAD_BYTES, REQUEST_PRELUDE_BYTES, FRAME_HEADER_BYTES, u32_max.
    lia. }
  cbv beta. apply fail_if_false, N.ltb_ge. rewrite request_bytes_len by done.
  unfold MAX_REQUEST_FRAME_BYTES, MAX_SOURCE_BUNDLE_BYTES, REQUEST_PRELUDE_BYTES. lia.
Qed.

Lemma new_request_Ok source tgt schema lim r :
  new_request sha256 source tgt schema lim = Ok r ↔
  r = {| admission_schema := schema; target := tgt; limits := lim;
         source_bundle_sha256 := sha256 source; source_bundle := source |} ∧
  limits_ok lim ∧ source ≠ [] ∧ len source ≤ max_source_bytes lim.
Proof.
  unfold new_request, fail_if, mbind, result_bind.
  destruct (validate lim) as [lim'|e] eqn:Hv.
  - apply validate_Ok in Hv as [-> Hl]. case_bool_decide; [naive_solver|].
    assert (max_source_bytes lim ≤ MAX_SOURCE_BUNDLE_BYTES) by apply (ok_source _ Hl).
    destruct (N.ltb_spec (max_source_bytes lim) (len source)); cbn [orb].
    { split; [done|]. intros (_ & _ & _ & ?). lia. }
    destruct (N.ltb_spec MAX_SOURCE_BUNDLE_BYTES (len source)); [lia|].
    split; [by intros [= <-]|by intros [-> _]].
  - split; [done|]. intros (_ & Hl & _).
    assert (validate lim = Ok lim) by (by apply validate_Ok). congruence.
Qed.

Lemma read_request_Ok body schema tgt digest lim source rest :
  read_request body = Ok (schema, tgt, digest, lim, source, rest) ↔
  rest = [] ∧
  body = fixed_bytes (schema_sha256 schema) tgt digest lim
         ++ put_u32 (len source) ++ source ∧
  schema_sha256 schema ≠ replicate 32 x00 ∧ len (schema_sha256 schema) = 32 ∧
  len digest = 32 ∧ limits_ok lim ∧ len source ≤ max_source_bytes lim.
Proof.
  unfold read_request. split.
  - intros H. apply bind_Ok in H as ([[[schema' tgt'] digest'] lim'] & mid & Hf & H).
    apply read_fixed_Ok in Hf as (-> & Hz & Hs & Hd & Hl). read_inv.
    unfold mret, parser_ret in H. simplify_eq. rewrite app_nil_r. by split_and!.
  - intros (-> & -> & Hz & Hs & Hd & Hl & Hm).
    erewrite bind_step by (by apply read_fixed_Ok). cbv beta iota.
    assert (max_source_bytes lim ≤ u32_max).
    { destruct (ok_source _ Hl). unfold MAX_SOURCE_BUNDLE_BYTES, u32_max in *. lia. }
    erewrite bind_step by (apply read_bytes_Ok; rewrite app_nil_r; split_and!; [done|lia|lia]).
    done.
Qed.

(** Reading fixes every field, so re-encoding gives the input back. *)
Lemma read_request_bytes b body schema tgt digest lim source rest r :
  payload b MAX_REQUEST_FRAME_BYTES REQUEST_MAGIC WORKER_PROTOCOL_SCHEMA_V2 REQUEST_KIND
    = Ok body →
  read_request body = Ok (schema, tgt, digest, lim, source, rest) →
  sha256 source = digest →
  new_request sha256 source tgt schema lim = Ok r →
  request_ok sha256 r ∧ encode r = Ok b.
Proof.
  intros Hp Hr Hd Hn. apply payload_Ok in Hp as [_ Hf]; [|done..].
  apply read_request_Ok in Hr as (_ & Hbody & Hz & Hs & _ & Hl & Hm).
  apply new_request_Ok in Hn as (-> & _ & Hne & _).
  match goal with |- request_ok _ ?r ∧ _ =>
    assert (request_ok sha256 r) as Hok by (by split) end.
  split; [done|]. rewrite encode_ok by done. f_equal.
  apply frame_Ok in Hf as [_ ->]. unfold request_bytes, request_body.
  cbn [admission_schema target limits source_bundle_sha256 source_bundle].
  by rewrite Hbody, <- Hd.
Qed.

Lemma read_fixed_never_noncanonical : never NonCanonical read_fixed.
Proof.
  unfold read_fixed.
  assert (∀ d, admission_v2 d ≠ Err NonCanonical)
    by (intros d; unfold admission_v2; case_bool_decide; discriminate).
  assert (∀ v, target_decode v ≠ Err NonCanonical)
    by (intros v; unfold target_decode; repeat case_match; discriminate).
  assert (never NonCanonical decode_limits) by (by apply never_decode_limits).
  never_tac.
Qed.

Lemma read_request_not_noncanonical body : read_request body ≠ Err NonCanonical.
Proof.
  assert (never NonCanonical read_request) as Hn; [|apply Hn].
  pose proof read_fixed_never_noncanonical. unfold read_request. never_tac.
Qed.

Lemma new_request_not_noncanonical source tgt schema lim :
  new_request sha256 source tgt schema lim ≠ Err NonCanonical.
Proof.
  unfold new_request, fail_if, mbind, result_bind.
  destruct (validate lim) eqn:Hv; [|apply validate_Err in Hv as [? ->]; discriminate].
  case_bool_decide; [discriminate|]. destruct (_ || _); discriminate.
Qed.

Lemma payload_request_bytes r :
  request_ok sha256 r →
  payload (request_bytes r) MAX_REQUEST_FRAME_BYTES REQUEST_MAGIC
    WORKER_PROTOCOL_SCHEMA_V2 REQUEST_KIND = Ok (request_body r).
Proof.
  intros Hok. apply payload_Ok; [done..|]. pose proof (source_bound r Hok) as Hs. split.
  - rewrite request_bytes_len by done. unfold MAX_REQUEST_FRAME_BYTES,
      MAX_SOURCE_BUNDLE_BYTES, REQUEST_PRELUDE_BYTES in *. lia.
  - apply frame_Ok. split; [|done]. rewrite request_body_len by done.
    unfold REQUEST_FIXED_PAYLOAD_BYTES, REQUEST_PRELUDE_BYTES, FRAME_HEADER_BYTES,
      MAX_SOURCE_BUNDLE_BYTES, u32_max in *. lia.
Qed.

Lemma decode_encode_request r b :
  request_ok sha256 r → encode r = Ok b → decode_request sha256 b = Ok r.
Proof.
  intros Hok He. pose proof (encode_ok r Hok) as He'. rewrite He' in He.
  injection He as <-. unfold decode_request.
  rewrite (result_bind_step _ _ _ (payload_request_bytes r Hok)).
  rewrite (result_bind_step _ _ (admission_schema r, target r,
    source_bundle_sha256 r, limits r, source_bundle r, [])); last first.
  { apply read_request_Ok. destruct Hok as [? ? ? ? ? Hd]. split_and!; try done.
    by rewrite Hd. }
  cbv beta iota. rewrite fail_if_false; last first.
  { rewrite bool_decide_eq_true_2; [done|]. by rewrite (rok_digest _ _ Hok). }
  rewrite (result_bind_step _ _ r); last first.
  { apply new_request_Ok. destruct Hok as [? ? ? ? ? Hd]. split_and!; try done.
    rewrite <- Hd. by destruct r. }
  cbv beta. rewrite fail_if_false by (by rewrite bool_decide_eq_true_2).
  rewrite (result_bind_step _ _ _ He'). cbv beta.
  by rewrite fail_if_false by (by rewrite bool_decide_eq_true_2).
Qed.

(** Decoding accepts only encodings, and its last comparison never fails. *)
Lemma decode_request_inv b :
  match decode_request sha256 b with
  | Ok r => request_ok sha256 r ∧ encode r = Ok b
  | Err e => e ≠ NonCanonical
  end.
Proof.
  unfold decode_request.
  destruct (payload b _ _ _ _) as [body|e] eqn:Hp; cbn [mbind result_bind]; last first.
  { intros ->. by apply payload_not_noncanonical in Hp. }
  destruct (read_request body) as [[[[[[schema tgt] digest] lim] source] rest]|e] eqn:Hr;
    cbn [mbind result_bind]; last first.
  { intros ->. by apply read_request_not_noncanonical in Hr. }
  case_bool_decide as Hd; cbn [fail_if negb mbind result_bind]; [|done].
  destruct (new_request sha256 source tgt schema lim) as [r|e] eqn:Hn;
    cbn [mbind result_bind]; last first.
  { intros ->. by apply new_request_not_noncanonical in Hn. }
  destruct (read_request_bytes _ _ _ _ _ _ _ _ _ Hp Hr Hd Hn) as [Hok He].
  rewrite He. assert (source_bundle_sha256 r = digest) as ->.
  { rewrite (rok_digest _ _ Hok). by apply new_request_Ok in Hn as (-> & _). }
  rewrite !bool_decide_eq_true_2 by done. cbn [negb fail_if mbind result_bind].
  rewrite bool_decide_eq_true_2 by done. cbn [negb fail_if mbind result_bind]. auto.
Qed.
End request_theory.

(** ** The prelude *)

(** The first 180 bytes of a request. *)
Definition prelude_bytes (r : WorkerRequest) : bytes :=
  REQUEST_MAGIC ++ put_u16 WORKER_PROTOCOL_SCHEMA_V2 ++ put_u8 REQUEST_KIND ++ put_u8 0
  ++ put_u32 (len (request_body r))
  ++ fixed_bytes (schema_sha256 (admission_schema r)) (target r) (source_bundle_sha256 r)
       (limits r)
  ++ put_u32 (len (source_bundle r)).

Section prelude_theory.
Context (sha256 : bytes → bytes) (sha256_length : ∀ b, len (sha256 b) = 32).

Lemma request_bytes_split r : request_bytes r = prelude_bytes r ++ source_bundle r.
Proof.
  unfold request_bytes, prelude_bytes, request_body at 2. by rewrite <- !app_assoc.
Qed.

Lemma prelude_bytes_len r :
  request_ok sha256 r → len (prelude_bytes r) = REQUEST_PRELUDE_BYTES.
Proof.
  intros H. pose proof (request_bytes_len sha256 sha256_length r H) as Hl.
  rewrite request_bytes_split, len_app in Hl. lia.
Qed.

Lemma u32_bound n : n ≤ u32_max → n < 256 ^ N.of_nat 4.
Proof. change (256 ^ N.of_nat 4) with 4294967296. unfold u32_max. lia. Qed.

Lemma request_lengths_u32 r :
  request_ok sha256 r → len (request_body r) ≤ u32_max ∧ len (source_bundle r) ≤ u32_max.
Proof.
  intros Hok. pose proof (source_bound sha256 r Hok) as Hs.
  rewrite (request_body_len sha256) by done.
  unfold REQUEST_FIXED_PAYLOAD_BYTES, REQUEST_PRELUDE_BYTES, FRAME_HEADER_BYTES,
    MAX_SOURCE_BUNDLE_BYTES, u32_max in *. lia.
Qed.

Lemma read_prelude_ok r :
  request_ok sha256 r →
  read_prelude (prelude_bytes r)
  = Ok (len (request_body r), target r, limits r, len (source_bundle r), []).
Proof.
  intros Hok. destruct (request_lengths_u32 r Hok) as [Hb Hs].
  unfold read_prelude, prelude_bytes, put_u16, put_u8, put_u32.
  read_step. rewrite bool_decide_eq_true_2 by done. cbn [negb].
  repeat (read_step; cbn [N.eqb Pos.eqb negb WORKER_PROTOCOL_SCHEMA_V2 REQUEST_KIND]).
  erewrite bind_step by (by apply uint_app, u32_bound). cbv beta.
  erewrite bind_step by (apply read_fixed_Ok; destruct Hok as [? ? ? ? ? Hd];
    split_and!; try done; by rewrite Hd). cbv beta iota.
  erewrite bind_step; last first.
  { rewrite <- (app_nil_r (to_le 4 _)). by apply uint_app, u32_bound. }
  done.
Qed.

Lemma prelude_ok r :
  request_ok sha256 r →
  decode_request_prelude (prelude_bytes r)
  = Ok {| prelude_target := target r; prelude_limits := limits r;
          frame_bytes := len (request_bytes r) |}.
Proof.
  intros Hok. unfold decode_request_prelude.
  rewrite prelude_bytes_len by done. rewrite fail_if_false by done.
  rewrite (result_bind_step _ _ _ (read_prelude_ok r Hok)). cbv beta iota.
  pose proof (source_bound sha256 r Hok) as Hmax.
  pose proof (rok_source _ _ Hok) as Hsrc.
  assert (len (source_bundle r) ≠ 0) as Hnz.
  { intros H0. apply (rok_nonempty _ _ Hok). destruct (source_bundle r); [done|].
    unfold len in H0. cbn in H0. lia. }
  rewrite fail_if_false by (by apply N.eqb_neq).
  rewrite fail_if_false by (apply orb_false_iff; split; apply N.ltb_ge; lia).
  pose proof (request_body_len sha256 sha256_length r Hok) as Hbody.
  pose proof (request_bytes_len sha256 sha256_length r Hok) as Hbytes.
  unfold MAX_SOURCE_BUNDLE_BYTES in Hmax.
  erewrite result_bind_step; last first.
  { rewrite (proj2 (checked_add_Some _ _ _ (len (request_body r)))); [reflexivity|].
    unfold REQUEST_FIXED_PAYLOAD_BYTES, REQUEST_PRELUDE_BYTES, FRAME_HEADER_BYTES,
      u64_max in *. lia. }
  cbv beta. rewrite fail_if_false by (by rewrite N.eqb_refl).
  erewrite result_bind_step; last first.
  { rewrite (proj2 (checked_add_Some _ _ _ (len (request_bytes r)))); [reflexivity|].
    unfold REQUEST_FIXED_PAYLOAD_BYTES, REQUEST_PRELUDE_BYTES, FRAME_HEADER_BYTES,
      u64_max in *. lia. }
  cbv beta. rewrite fail_if_false; [done|]. apply N.ltb_ge. rewrite Hbytes.
  unfold MAX_REQUEST_FRAME_BYTES, MAX_SOURCE_BUNDLE_BYTES, REQUEST_PRELUDE_BYTES. lia.
Qed.
End prelude_theory.

(** * Theorems *)

(** C34: the request codec is a bijection between checked
    requests and their canonical frames.  Decoding returns a request exactly
    when the bytes are its encoding and it meets every constructor check
    (validated limits, non-zero schema, non-empty source within its ceiling,
    digest of that source); a constructed request always encodes; and the
    final re-encoding comparison never rejects anything the field checks let
    through. *)
Theorem request_codec_exact (sha256 : bytes → bytes) :
  (∀ b, len (sha256 b) = 32) →
  (∀ b r, decode_request sha256 b = Ok r ↔ request_ok sha256 r ∧ encode r = Ok b) ∧
  (∀ r, request_ok sha256 r → ∃ b, encode r = Ok b ∧
     len b = REQUEST_PRELUDE_BYTES + len (source_bundle r)) ∧
  (∀ b, decode_request sha256 b ≠ Err NonCanonical).
Proof.
  intros Hsha. split_and!.
  - intros b r. split; [|intros [? ?]; by apply decode_encode_request].
    intros Hd. pose proof (decode_request_inv sha256 Hsha b) as Hi. by rewrite Hd in Hi.
  - intros r Hr. exists (request_bytes r). split; [by apply (encode_ok sha256)|].
    by apply (request_bytes_len sha256).
  - intros b Hd. pose proof (decode_request_inv sha256 Hsha b) as Hi. by rewrite Hd in Hi.
Qed.

(** A small validated set of limits. *)
Definition sample_limits : WorkerLimits := {|
  cpu_time_ms := 1; wall_time_ms := 1; memory_bytes := 1; max_source_bytes := 8;
  max_response_bytes := 256; max_source_files := 1; max_recursion_depth := 1;
  max_parser_nodes := 1; max_type_expansions := 1; max_specializations := 1;
  max_diagnostic_bytes := 16; max_candidate_wir_bytes := 16;
  max_authority_wir_bytes := 16; max_final_byte_plan_bytes := 16 |}.

Definition sample_hash (b : bytes) : bytes := byte_of (len b) :: replicate 31 x2a.

Definition sample_request : WorkerRequest := {|
  admission_schema := {| schema_sha256 := replicate 32 x01 |};
  target := BrowserBase; limits := sample_limits;
  source_bundle_sha256 := sample_hash [x61; x62]; source_bundle := [x61; x62] |}.

Lemma request_codec_exact_witness :
  decode_request sample_hash (request_bytes sample_request) = Ok sample_request ∧
  decode_request sample_hash (request_bytes sample_request) ≠ Err NonCanonical.
Proof.
  assert (∀ b, len (sample_hash b) = 32) as Hs by reflexivity.
  split; [vm_compute; reflexivity|].
  exact (proj2 (proj2 (request_codec_exact sample_hash Hs)) (request_bytes sample_request)).
Defined.

(** the confinement prelude tells the truth: for any frame
    that will decode, its first 180 bytes are accepted by
    [decode_request_prelude] with the same target and limits and with the
    exact length of the frame, so the resources applied before the source is
    read are those of the request. *)
Theorem prelude_agrees (sha256 : bytes → bytes) b r :
  (∀ b, len (sha256 b) = 32) → decode_request sha256 b = Ok r →
  decode_request_prelude (take (N.to_nat REQUEST_PRELUDE_BYTES) b)
  = Ok {| prelude_target := target r; prelude_limits := limits r; frame_bytes := len b |}.
Proof.
  intros Hsha Hd. pose proof (decode_request_inv sha256 Hsha b) as Hi. rewrite Hd in Hi.
  destruct Hi as [Hok He]. rewrite (encode_ok sha256) in He by done. injection He as <-.
  rewrite request_bytes_split, take_app_length'.
  - rewrite <- request_bytes_split. by apply (prelude_ok sha256).
  - pose proof (prelude_bytes_len sha256 Hsha r Hok) as Hl. unfold len in Hl. lia.
Qed.

Lemma prelude_agrees_witness :
  decode_request_prelude (take 180 (request_bytes sample_request))
  = Ok {| prelude_target := BrowserBase; prelude_limits := sample_limits;
          frame_bytes := 182 |}.
Proof.
  apply (prelude_agrees sample_hash (request_bytes sample_request) sample_request).
  - reflexivity.
  - vm_compute. reflexivity.
Defined.
