(* ===== verification/WorkerResponse.v ===== *)
(** * WorkerResponse: the untrusted answer of the compiler worker

    Models [crates/witchy-worker-protocol/src/response.rs].  A [String] is
    its UTF-8 bytes together with the fact that they decode; [chars] is the
    standard decoder over Unicode scalar values (RFC 3629: no overlong forms,
    no surrogates, nothing above U+10FFFF). *)

From S2P Require Import Prelude Wire WorkerRequest.

Local Open Scope N_scope.
Local Open Scope list_scope.

(** ** UTF-8 *)

Definition in_range (lo hi : N) (b : byte) : bool :=
  (lo <=? Byte.to_N b) && (Byte.to_N b <=? hi).

(** The six low bits of a continuation byte. *)
Definition cont (b : byte) : N := Byte.to_N b - 0x80.
Definition is_cont (b : byte) : bool := in_range 0x80 0xbf b.

(** The second byte's range depends on the first. *)
Definition second_of_three (b0 b1 : byte) : bool :=
  if Byte.to_N b0 =? 0xe0 then in_range 0xa0 0xbf b1
  else if Byte.to_N b0 =? 0xed then in_range 0x80 0x9f b1
  else is_cont b1.

Definition second_of_four (b0 b1 : byte) : bool :=
  if Byte.to_N b0 =? 0xf0 then in_range 0x90 0xbf b1
  else if Byte.to_N b0 =? 0xf4 then in_range 0x80 0x8f b1
  else is_cont b1.

(** [s.chars()] of valid UTF-8; [None] when [String::from_utf8] fails. *)
Fixpoint chars (b : bytes) : option (list N) :=
  match b with
  | [] => Some []
  | b0 :: r0 =>
      if in_range 0 0x7f b0 then cs ← chars r0; Some (Byte.to_N b0 :: cs)
      else match r0 with
      | [] => None
      | b1 :: r1 =>
          if in_range 0xc2 0xdf b0 then
            if is_cont b1 then
              cs ← chars r1; Some (64 * (Byte.to_N b0 - 0xc0) + cont b1 :: cs)
            else None
          else match r1 with
          | [] => None
          | b2 :: r2 =>
              if in_range 0xe0 0xef b0 then
                if second_of_three b0 b1 && is_cont b2 then
                  cs ← chars r2;
                  Some (4096 * (Byte.to_N b0 - 0xe0) + 64 * cont b1 + cont b2 :: cs)
                else None
              else match r2 with
              | [] => None
              | b3 :: r3 =>
                  if in_range 0xf0 0xf4 b0 && second_of_four b0 b1 && is_cont b2
                     && is_cont b3 then
                    cs ← chars r3;
                    Some (262144 * (Byte.to_N b0 - 0xf0) + 4096 * cont b1
                          + 64 * cont b2 + cont b3 :: cs)
                  else None
              end
          end
      end
  end.

(** [String::from_utf8(bytes)] *)
Definition from_utf8 (b : bytes) : result ProtocolError bytes :=
  match chars b with Some _ => Ok b | None => Err InvalidUtf8 end.

(** ** Responses *)

(** [b"WCHRSP02"] *)
Definition RESPONSE_MAGIC : bytes := map byte_of [87; 67; 72; 82; 83; 80; 48; 50].
Definition RESPONSE_KIND : N := 2.

Inductive ResponseStatus : Set := Candidate | Rejected.

#[export] Instance ResponseStatus_eq_dec : EqDecision ResponseStatus.
Proof. solve_decision. Defined.

(** [self.status as u8] *)
Definition status_code (s : ResponseStatus) : N :=
  match s with Candidate => 1 | Rejected => 2 end.

Definition status_decode (value : N) : result ProtocolError ResponseStatus :=
  if value =? 1 then Ok Candidate
  else if value =? 2 then Ok Rejected
  else Err (UnknownResponseStatus value).

Record WorkerResponse : Set := {
  response_request_sha256 : bytes;
  response_limits : WorkerLimits;
  status : ResponseStatus;
  candidate_wir : bytes;
  authority_wir : bytes;
  final_byte_plan : bytes;
  diagnostics : bytes;
}.

Definition check_length (length maximum : N) (field : string) : result ProtocolError unit :=
  if maximum <? length then Err (BudgetExceeded field) else Ok tt.

(** [char::is_control]: the category Cc. *)
Definition is_control (c : N) : bool := (c <=? 0x1f) || ((0x7f <=? c) && (c <=? 0x9f)).

Definition forbidden_diagnostic_character (c : N) : bool :=
  (is_control c && negb ((c =? 10) || (c =? 9)))
  || (c =? 0x061c) || (c =? 0x200e) || (c =? 0x200f)
  || ((0x202a <=? c) && (c <=? 0x202e)) || ((0x2066 <=? c) && (c <=? 0x2069)).

(** A [&str] always decodes, so the default never applies. *)
Definition validate_diagnostics (value : bytes) (maximum : N) : result ProtocolError unit :=
  check_length (len value) maximum "diagnostic bytes";;
  fail_if (existsb forbidden_diagnostic_character (default [] (chars value)))
    InvalidDiagnostic.

Definition encode_response_body (r : WorkerResponse) : result ProtocolError bytes :=
  candidate ← put_bytes (candidate_wir r) "candidate WIR";
  authority ← put_bytes (authority_wir r) "AuthorityWIR";
  plan ← put_bytes (final_byte_plan r) "final-byte plan";
  diag ← put_bytes (diagnostics r) "diagnostics";
  Ok (response_request_sha256 r ++ put_u8 (status_code (status r)) ++ replicate 3 x00
      ++ candidate ++ authority ++ plan ++ diag).

Definition encode_response (r : WorkerResponse) : result ProtocolError bytes :=
  body ← encode_response_body r;
  encoded ← frame RESPONSE_MAGIC WORKER_PROTOCOL_SCHEMA_V2 RESPONSE_KIND body;
  fail_if ((max_response_bytes (response_limits r) <? len encoded)
           || (MAX_RESPONSE_BYTES <? len encoded)) (BudgetExceeded "response frame bytes");;
  Ok encoded.

Section hashing.
Context (sha256 : bytes → bytes).

Definition construct (request : WorkerRequest) (st : ResponseStatus)
    (candidate authority plan diag : bytes) : result ProtocolError WorkerResponse :=
  let lim := limits request in
  check_length (len candidate) (max_candidate_wir_bytes lim) "candidate WIR bytes";;
  check_length (len authority) (max_authority_wir_bytes lim) "AuthorityWIR bytes";;
  check_length (len plan) (max_final_byte_plan_bytes lim) "final-byte plan bytes";;
  validate_diagnostics diag (max_diagnostic_bytes lim);;
  digest ← request_sha256 sha256 request;
  let response := {| response_request_sha256 := digest; response_limits := lim;
    status := st; candidate_wir := candidate; authority_wir := authority;
    final_byte_plan := plan; diagnostics := diag |} in
  encode_response response;;
  Ok response.

Definition candidate (request : WorkerRequest) (wir authority plan diag : bytes)
    : result ProtocolError WorkerResponse :=
  fail_if (bool_decide (wir = [])) (EmptyField "candidate WIR");;
  fail_if (bool_decide (authority = [])) (EmptyField "AuthorityWIR");;
  fail_if (bool_decide (plan = [])) (EmptyField "final-byte plan");;
  construct request Candidate wir authority plan diag.

Definition rejected (request : WorkerRequest) (diag : bytes)
    : result ProtocolError WorkerResponse :=
  fail_if (bool_decide (diag = [])) (EmptyField "rejection diagnostics");;
  construct request Rejected [] [] [] diag.

(** The reading half of [decode_response], [digest] being the expected
    request's. *)
Definition read_response (request : WorkerRequest)
    : parser (bytes * ResponseStatus * bytes * bytes * bytes * bytes) :=
  request_digest ← array_32;
  expected ← lift (request_sha256 sha256 request);
  reject_if (negb (bool_decide (request_digest = expected))) RequestMismatch;;
  status_value ← u8;
  st ← lift (status_decode status_value);
  reserved ← take_bytes 3;
  reject_if (negb (bool_decide (reserved = replicate 3 x00))) NonZeroReserved;;
  let lim := limits request in
  wir ← read_bytes (max_candidate_wir_bytes lim) "candidate WIR bytes";
  authority ← read_bytes (max_authority_wir_bytes lim) "AuthorityWIR bytes";
  plan ← read_bytes (max_final_byte_plan_bytes lim) "final-byte plan bytes";
  diag ← read_bytes (max_diagnostic_bytes lim) "diagnostic bytes";
  finish;;
  mret (request_digest, st, wir, authority, plan, diag).

Definition rebuild (request : WorkerRequest) (st : ResponseStatus)
    (wir authority plan diag : bytes) : result ProtocolError WorkerResponse :=
  match st with
  | Candidate => candidate request wir authority plan diag
  | Rejected =>
      fail_if (negb (bool_decide (wir = [])) || negb (bool_decide (authority = []))
               || negb (bool_decide (plan = []))) InvalidResponseShape;;
      rejected request diag
  end.

Definition decode_response (b : bytes) (request : WorkerRequest)
    : result ProtocolError WorkerResponse :=
  let maximum := N.min (max_response_bytes (limits request)) MAX_RESPONSE_BYTES in
  body ← payload b maximum RESPONSE_MAGIC WORKER_PROTOCOL_SCHEMA_V2 RESPONSE_KIND;
  '(request_digest, st, wir, authority, plan, diag_bytes, _) ← read_response request body;
  diag ← from_utf8 diag_bytes;
  response ← rebuild request st wir authority plan diag;
  fail_if (negb (bool_decide (response_request_sha256 response = request_digest)))
    RequestMismatch;;
  encoded ← encode_response response;
  fail_if (negb (bool_decide (encoded = b))) NonCanonical;;
  Ok response.
End hashing.

(** * Lemmas *)

Definition response_body (r : WorkerResponse) : bytes :=
  response_request_sha256 r ++ put_u8 (status_code (status r)) ++ replicate 3 x00
  ++ put_u32 (len (candidate_wir r)) ++ candidate_wir r
  ++ put_u32 (len (authority_wir r)) ++ authority_wir r
  ++ put_u32 (len (final_byte_plan r)) ++ final_byte_plan r
  ++ put_u32 (len (diagnostics r)) ++ diagnostics r.

(** The status fixes the shape of the answer. *)
Definition shape_ok (r : WorkerResponse) : Prop :=
  match status r with
  | Candidate => candidate_wir r ≠ [] ∧ authority_wir r ≠ [] ∧ final_byte_plan r ≠ []
  | Rejected => candidate_wir r = [] ∧ authority_wir r = [] ∧ final_byte_plan r = [] ∧
                diagnostics r ≠ []
  end.

Definition diagnostics_ok (d : bytes) : Prop :=
  ∃ cs, chars d = Some cs ∧ Forall (λ c, forbidden_diagnostic_character c = false) cs.

(** What an accepted answer to a request promises, besides its size. *)
Record response_ok (sha256 : bytes → bytes) (request : WorkerRequest)
    (r : WorkerResponse) : Prop := {
  sok_digest : request_sha256 sha256 request = Ok (response_request_sha256 r);
  sok_limits : response_limits r = limits request;
  sok_candidate : len (candidate_wir r) ≤ max_candidate_wir_bytes (limits request);
  sok_authority : len (authority_wir r) ≤ max_authority_wir_bytes (limits request);
  sok_plan : len (final_byte_plan r) ≤ max_final_byte_plan_bytes (limits request);
  sok_diag_len : len (diagnostics r) ≤ max_diagnostic_bytes (limits request);
  sok_diag : diagnostics_ok (diagnostics r);
  sok_shape : shape_ok r;
}.

Lemma check_length_bind {A} n m field (k : result ProtocolError A) a :
  (check_length n m field;; k) = Ok a ↔ n ≤ m ∧ k = Ok a.
Proof.
  unfold check_length, mbind, result_bind. destruct (N.ltb_spec m n); split;
    [done|intros [? _]; lia|done|by intros [_ ?]].
Qed.

Lemma check_length_Ok n m field : check_length n m field = Ok tt ↔ n ≤ m.
Proof.
  unfold check_length. destruct (N.ltb_spec m n); split; [done|lia|done|done].
Qed.

Lemma existsb_false {A} (f : A → bool) l :
  existsb f l = false ↔ Forall (λ x, f x = false) l.
Proof.
  induction l as [|x l IH]; cbn; [by split|].
  by rewrite orb_false_iff, list.Forall_cons, IH.
Qed.

Lemma diagnostics_clean d :
  is_Some (chars d) →
  existsb forbidden_diagnostic_character (default [] (chars d)) = false ↔ diagnostics_ok d.
Proof.
  intros [cs Hcs]. unfold diagnostics_ok. rewrite Hcs. cbn. rewrite existsb_false.
  split; [eauto|]. by intros (cs' & [= <-] & H).
Qed.

Lemma validate_diagnostics_Ok d m :
  is_Some (chars d) →
  validate_diagnostics d m = Ok tt ↔ len d ≤ m ∧ diagnostics_ok d.
Proof.
  intros Hd. unfold validate_diagnostics. rewrite check_length_bind.
  rewrite <- diagnostics_clean by done. unfold fail_if.
  destruct (existsb _ _); naive_solver.
Qed.

Lemma put_bytes_bind {A} v field (k : bytes → result ProtocolError A) a :
  (put_bytes v field ≫= k) = Ok a ↔ len v ≤ u32_max ∧ k (put_u32 (len v) ++ v) = Ok a.
Proof.
  rewrite result_bind_Ok. setoid_rewrite put_bytes_Ok. naive_solver.
Qed.

Lemma encode_response_Ok r b :
  encode_response r = Ok b ↔
  len (candidate_wir r) ≤ u32_max ∧ len (authority_wir r) ≤ u32_max ∧
  len (final_byte_plan r) ≤ u32_max ∧ len (diagnostics r) ≤ u32_max ∧
  frame RESPONSE_MAGIC WORKER_PROTOCOL_SCHEMA_V2 RESPONSE_KIND (response_body r) = Ok b ∧
  len b ≤ max_response_bytes (response_limits r) ∧ len b ≤ MAX_RESPONSE_BYTES.
Proof.
  unfold encode_response. rewrite result_bind_Ok. unfold encode_response_body.
  setoid_rewrite put_bytes_bind. setoid_rewrite put_bytes_bind.
  setoid_rewrite put_bytes_bind. setoid_rewrite put_bytes_bind.
  setoid_rewrite result_bind_Ok. setoid_rewrite fail_if_Ok.
  setoid_rewrite orb_false_iff. setoid_rewrite N.ltb_ge. unfold response_body.
  rewrite <- !app_assoc. split.
  - intros (body & (Hc & Ha & Hp & Hd & [= <-]) & b' & Hf & (H1 & H2) & [= ->]).
    rewrite <- ?app_assoc in Hf. by split_and!.
  - intros (Hc & Ha & Hp & Hd & Hf & H1 & H2). eexists. split; [by split_and!|].
    exists b. rewrite <- ?app_assoc. by split_and!.
Qed.

Lemma status_decode_Ok v s : status_decode v = Ok s ↔ v = status_code s.
Proof.
  split; [|intros ->; by destruct s]. unfold status_decode.
  repeat match goal with |- context [v =? ?n] =>
    destruct (N.eqb_spec v n) as [->|_]; [by intros [= <-]|] end. done.
Qed.

Lemma from_utf8_Ok b d : from_utf8 b = Ok d ↔ d = b ∧ is_Some (chars b).
Proof.
  unfold from_utf8. destruct (chars b); split; [intros [= <-]; eauto|by intros [-> _]|done|].
  by intros [_ [? ?]].
Qed.

Section response_theory.
Context (sha256 : bytes → bytes) (sha256_length : ∀ b, len (sha256 b) = 32).

Lemma request_sha256_len request d : request_sha256 sha256 request = Ok d → len d = 32.
Proof. unfold request_sha256. by intros (e & _ & [= <-])%result_bind_Ok. Qed.

Lemma construct_Ok request st c a p d r :
  is_Some (chars d) →
  construct sha256 request st c a p d = Ok r ↔
  (∃ digest, request_sha256 sha256 request = Ok digest ∧
     r = {| response_request_sha256 := digest; response_limits := limits request;
            status := st; candidate_wir := c; authority_wir := a;
            final_byte_plan := p; diagnostics := d |}) ∧
  len c ≤ max_candidate_wir_bytes (limits request) ∧
  len a ≤ max_authority_wir_bytes (limits request) ∧
  len p ≤ max_final_byte_plan_bytes (limits request) ∧
  len d ≤ max_diagnostic_bytes (limits request) ∧ diagnostics_ok d ∧
  ∃ b, encode_response r = Ok b.
Proof.
  intros Hd. unfold construct. rewrite !check_length_bind. split.
  - intros (Hc & Ha & Hp & H). apply result_bind_Ok in H as ([] & Hv & H).
    apply result_bind_Ok in H as (digest & Hdig & H).
    apply result_bind_Ok in H as (b & He & [= <-]).
    apply validate_diagnostics_Ok in Hv as [? ?]; [|done]. split_and!; eauto.
  - intros ((digest & Hdig & ->) & Hc & Ha & Hp & Hl & Hok & b & He).
    split_and!; [done..|]. apply result_bind_Ok. exists tt.
    split; [by apply validate_diagnostics_Ok|]. apply result_bind_Ok. exists digest.
    split; [done|]. apply result_bind_Ok. eauto.
Qed.

Lemma rebuild_Ok request st c a p d r :
  is_Some (chars d) →
  rebuild sha256 request st c a p d = Ok r ↔
  response_ok sha256 request r ∧ (∃ b, encode_response r = Ok b) ∧
  status r = st ∧ candidate_wir r = c ∧ authority_wir r = a ∧
  final_byte_plan r = p ∧ diagnostics r = d.
Proof.
  intros Hd. unfold rebuild, candidate, rejected. split.
  - intros H. destruct st; rewrite ?fail_if_Ok, construct_Ok in H by done.
    + destruct H as (H1 & H2 & H3 & (digest & Hdig & ->) & Hc & Ha & Hp & Hl & Hok & He).
      apply bool_decide_eq_false in H1, H2, H3.
      split_and!; try done; by split.
    + destruct H as (H1 & H2 & (digest & Hdig & ->) & Hc & Ha & Hp & Hl & Hok & He).
      rewrite !orb_false_iff, !negb_false_iff, !bool_decide_eq_true in H1.
      destruct H1 as [[-> ->] ->]. apply bool_decide_eq_false in H2.
      split_and!; try done; by split.
  - intros ([Hdig Hlim Hc Ha Hp Hl Hok Hsh] & He & <- & <- & <- & <- & <-).
    unfold shape_ok in Hsh. destruct (status r) eqn:Hst.
    + destruct Hsh as (? & ? & ?). rewrite !fail_if_Ok, construct_Ok by done.
      rewrite !bool_decide_eq_false_2 by done. split_and!; try done.
      exists (response_request_sha256 r). split; [done|].
      rewrite <- Hlim, <- Hst. by destruct r.
    + destruct Hsh as (Ec & Ea & Ep & ?). rewrite !fail_if_Ok, construct_Ok by done.
      rewrite Ec, Ea, Ep, !bool_decide_eq_true_2, bool_decide_eq_false_2 by done.
      rewrite Ec, Ea, Ep in *. split_and!; try done.
      exists (response_request_sha256 r). split; [done|].
      rewrite <- Hlim, <- Hst, <- Ec at 1. destruct r; cbn in *. by subst.
Qed.

Lemma read_response_Ok request body digest st c a p d rest :
  limits_ok (limits request) →
  read_response sha256 request body = Ok (digest, st, c, a, p, d, rest) ↔
  rest = [] ∧ request_sha256 sha256 request = Ok digest ∧
  len c ≤ max_candidate_wir_bytes (limits request) ∧
  len a ≤ max_authority_wir_bytes (limits request) ∧
  len p ≤ max_final_byte_plan_bytes (limits request) ∧
  len d ≤ max_diagnostic_bytes (limits request) ∧
  body = digest ++ put_u8 (status_code st) ++ replicate 3 x00
    ++ put_u32 (len c) ++ c ++ put_u32 (len a) ++ a ++ put_u32 (len p) ++ p
    ++ put_u32 (len d) ++ d.
Proof.
  intros Hl. unfold read_response. split.
  - intros H. read_inv. unfold mret, parser_ret in H.
    injection H as -> -> -> -> -> -> ->.
    repeat match goal with H : negb _ = false |- _ =>
      apply negb_false_iff, bool_decide_eq_true in H end.
    match goal with H : status_decode _ = _ |- _ => apply status_decode_Ok in H end.
    subst. unfold put_u8. rewrite app_nil_r. by split_and!.
  - intros (-> & Hdig & Hc & Ha & Hp & Hd & ->). unfold put_u8.
    assert (max_candidate_wir_bytes (limits request) ≤ u32_max ∧
      max_authority_wir_bytes (limits request) ≤ u32_max ∧
      max_final_byte_plan_bytes (limits request) ≤ u32_max ∧
      max_diagnostic_bytes (limits request) ≤ u32_max) as (Bc & Ba & Bp & Bd).
    { destruct Hl as [?????????? [_ Bd] [_ Bc] [_ Ba] [_ Bp] _].
      unfold MAX_CANDIDATE_WIR_BYTES, MAX_AUTHORITY_WIR_BYTES,
        MAX_FINAL_BYTE_PLAN_BYTES, MAX_DIAGNOSTIC_BYTES, u32_max in *. lia. }
    erewrite bind_step by (apply take_bytes_app; by eapply request_sha256_len). cbv beta.
    erewrite bind_step by (by apply lift_Ok). cbv beta.
    rewrite bool_decide_eq_true_2 by done. cbn [negb]. read_step.
    erewrite bind_step by (apply uint_app; by destruct st). cbv beta.
    erewrite bind_step by (apply lift_Ok; split; [by apply status_decode_Ok|done]).
    cbv beta. erewrite bind_step by (by apply take_bytes_app). cbv beta.
    rewrite bool_decide_eq_true_2 by done. cbn [negb]. read_step. cbv zeta.
    do 3 (erewrite bind_step by (apply read_bytes_Ok; split_and!; [done|lia|lia]);
          cbv beta).
    erewrite bind_step by (apply read_bytes_Ok; rewrite app_nil_r; split_and!;
      [done|lia|lia]). done.
Qed.

(** The bytes read are those the rebuilt response encodes to. *)
Lemma rebuilt_bytes request b body digest st c a p d rest r :
  limits_ok (limits request) →
  payload b (N.min (max_response_bytes (limits request)) MAX_RESPONSE_BYTES)
    RESPONSE_MAGIC WORKER_PROTOCOL_SCHEMA_V2 RESPONSE_KIND = Ok body →
  read_response sha256 request body = Ok (digest, st, c, a, p, d, rest) →
  is_Some (chars d) → rebuild sha256 request st c a p d = Ok r →
  response_ok sha256 request r ∧ response_request_sha256 r = digest ∧
  encode_response r = Ok b.
Proof.
  intros Hl Hp Hr Hd Hb. apply payload_Ok in Hp as [Hm Hf]; [|done..].
  apply read_response_Ok in Hr as (_ & Hdig & _ & _ & _ & _ & Hbody); [|done].
  apply rebuild_Ok in Hb as (Hok & (b' & He) & Hst & Hc & Ha & Hpl & Hdg); [|done].
  assert (response_request_sha256 r = digest) as Hdr
    by (pose proof (sok_digest _ _ _ Hok); congruence).
  split_and!; [done|done|]. apply encode_response_Ok in He.
  apply encode_response_Ok. destruct He as (H1 & H2 & H3 & H4 & _).
  split_and!; [done..| | |].
  - rewrite <- Hf. f_equal. unfold response_body. by rewrite Hdr, Hst, Hc, Ha, Hpl, Hdg.
  - rewrite (sok_limits _ _ _ Hok). lia.
  - lia.
Qed.

Lemma rebuild_not_noncanonical request st c a p d :
  request_ok sha256 request → rebuild sha256 request st c a p d ≠ Err NonCanonical.
Proof.
  intros Hreq.
  assert (∀ st c a p d, construct sha256 request st c a p d ≠ Err NonCanonical) as Hc.
  { intros ?????. unfold construct, validate_diagnostics, check_length, fail_if,
      request_sha256, encode_response, encode_response_body, put_bytes, frame, mbind,
      result_bind, fail_if. rewrite (encode_ok sha256) by done.
    repeat match goal with |- context [if ?b then _ else _] => destruct b end;
      discriminate. }
  destruct st; unfold rebuild, candidate, rejected, fail_if, mbind, result_bind;
    repeat match goal with |- context [if ?b then _ else _] => destruct b end;
    first [discriminate|apply Hc].
Qed.

Lemma read_response_never request :
  request_ok sha256 request → never NonCanonical (read_response sha256 request).
Proof.
  intros Hreq. unfold read_response.
  assert (∀ v, status_decode v ≠ Err NonCanonical)
    by (intros v; unfold status_decode; repeat case_match; discriminate).
  assert (request_sha256 sha256 request ≠ Err NonCanonical)
    by (unfold request_sha256; by rewrite (encode_ok sha256)).
  never_tac.
Qed.

Lemma decode_response_inv b request :
  request_ok sha256 request →
  match decode_response sha256 b request with
  | Ok r => response_ok sha256 request r ∧ encode_response r = Ok b
  | Err e => e ≠ NonCanonical
  end.
Proof.
  intros Hreq. pose proof (rok_limits _ _ Hreq) as Hl. unfold decode_response.
  destruct (payload b _ _ _ _) as [body|e] eqn:Hp; cbn [mbind result_bind]; last first.
  { intros ->. by apply payload_not_noncanonical in Hp. }
  destruct (read_response sha256 request body)
    as [[[[[[[digest st] c] a] p] d] rest]|e] eqn:Hr; cbn [mbind result_bind]; last first.
  { intros ->. by apply read_response_never in Hr. }
  unfold from_utf8. destruct (chars d) as [cs|] eqn:Hd; cbn [mbind result_bind]; [|done].
  destruct (rebuild sha256 request st c a p d) as [r|e] eqn:Hb;
    cbn [mbind result_bind]; last first.
  { intros ->. by apply rebuild_not_noncanonical in Hb. }
  destruct (rebuilt_bytes _ _ _ _ _ _ _ _ _ _ _ Hl Hp Hr (mk_is_Some _ _ Hd) Hb)
    as (Hok & -> & He).
  rewrite bool_decide_eq_true_2 by done. cbn [negb fail_if mbind result_bind].
  rewrite He. cbn [mbind result_bind].
  rewrite bool_decide_eq_true_2 by done. cbn [negb fail_if mbind result_bind]. auto.
Qed.

Lemma decode_encode_response b request r :
  request_ok sha256 request → response_ok sha256 request r →
  encode_response r = Ok b → decode_response sha256 b request = Ok r.
Proof.
  intros Hreq Hok He. pose proof (rok_limits _ _ Hreq) as Hl.
  pose proof He as (H1 & H2 & H3 & H4 & Hf & H5 & H6)%encode_response_Ok.
  pose proof Hok as [Hdig Hlim Hc Ha Hp Hdl Hd Hsh].
  assert (is_Some (chars (diagnostics r))) as Hu by (destruct Hd as (? & ? & _); eauto).
  unfold decode_response. cbv zeta.
  rewrite (result_bind_step _ _ (response_body r)); last first.
  { apply payload_Ok; [done..|]. rewrite Hlim in H5. split; [lia|done]. }
  rewrite (result_bind_step _ _ (response_request_sha256 r, status r, candidate_wir r,
    authority_wir r, final_byte_plan r, diagnostics r, [])); last first.
  { by apply read_response_Ok. }
  cbv beta iota. rewrite (result_bind_step _ _ (diagnostics r)) by (by apply from_utf8_Ok).
  rewrite (result_bind_step _ _ r); last first.
  { apply rebuild_Ok; [done|]. split_and!; eauto. }
  cbv beta. rewrite fail_if_false by (by rewrite bool_decide_eq_true_2).
  rewrite (result_bind_step _ _ _ He). cbv beta.
  by rewrite fail_if_false by (by rewrite bool_decide_eq_true_2).
Qed.
End response_theory.

(** * Theorems *)

(** C35: an accepted answer is canonical and within what
    the request allowed.  For a checked request, decoding returns a response
    exactly when the bytes are its encoding and it is bound to that
    request's digest, keeps every per-field ceiling, carries clean UTF-8
    diagnostics and has the shape its status demands; the final re-encoding
    comparison never rejects anything the field checks let through. *)
Theorem response_codec_exact (sha256 : bytes → bytes) request :
  (∀ b, len (sha256 b) = 32) → request_ok sha256 request →
  (∀ b r, decode_response sha256 b request = Ok r ↔
     response_ok sha256 request r ∧ encode_response r = Ok b) ∧
  (∀ b, decode_response sha256 b request ≠ Err NonCanonical).
Proof.
  intros Hsha Hreq. split.
  - intros b r. split; [|intros [? ?]; by apply decode_encode_response].
    intros Hd. pose proof (decode_response_inv sha256 Hsha b request Hreq) as Hi.
    by rewrite Hd in Hi.
  - intros b Hd. pose proof (decode_response_inv sha256 Hsha b request Hreq) as Hi.
    by rewrite Hd in Hi.
Qed.

Lemma sample_request_ok : request_ok sample_hash sample_request.
Proof.
  split; try (vm_compute; discriminate); [reflexivity| |reflexivity].
  split; repeat split; vm_compute; done.
Qed.

Lemma response_codec_exact_witness :
  ∃ r b, rejected sample_hash sample_request [x6e; x6f] = Ok r ∧
    encode_response r = Ok b ∧ decode_response sample_hash b sample_request = Ok r.
Proof.
  eexists _, _. split; [vm_compute; reflexivity|]. split; [vm_compute; reflexivity|].
  apply (proj1 (response_codec_exact sample_hash sample_request (λ _, eq_refl)
    sample_request_ok)).
  split; [|vm_compute; reflexivity].
  split; try (vm_compute; first [reflexivity|discriminate]).
  - exists [110; 111]. split; [reflexivity|]. repeat constructor.
  - vm_compute. repeat split; discriminate.
Defined.

(** whatever a worker sends, an accepted response
    fits the request's budget: the frame is at most the aggregate ceiling
    and 128 MiB, and the three blobs and the diagnostics are each within
    their own ceiling; a candidate has all three blobs and a rejection has
    none but says why. *)
Theorem response_within_budget (sha256 : bytes → bytes) request b r :
  (∀ b, len (sha256 b) = 32) → request_ok sha256 request →
  decode_response sha256 b request = Ok r →
  len b ≤ max_response_bytes (limits request) ∧ len b ≤ MAX_RESPONSE_BYTES ∧
  len (candidate_wir r) ≤ max_candidate_wir_bytes (limits request) ∧
  len (authority_wir r) ≤ max_authority_wir_bytes (limits request) ∧
  len (final_byte_plan r) ≤ max_final_byte_plan_bytes (limits request) ∧
  len (diagnostics r) ≤ max_diagnostic_bytes (limits request) ∧
  (candidate_wir r = [] ↔ status r = Rejected) ∧
  (status r = Rejected → diagnostics r ≠ []).
Proof.
  intros Hsha Hreq Hd. pose proof (decode_response_inv sha256 Hsha b request Hreq) as Hi.
  rewrite Hd in Hi. destruct Hi as [[Hdig Hlim Hc Ha Hp Hdl _ Hsh] He].
  apply encode_response_Ok in He as (_ & _ & _ & _ & _ & H5 & H6). rewrite Hlim in H5.
  unfold shape_ok in Hsh. destruct (status r); split_and!; try done; naive_solver.
Qed.

Lemma response_within_budget_witness :
  ∃ b r, decode_response sample_hash b sample_request = Ok r ∧
    len b ≤ max_response_bytes sample_limits.
Proof.
  destruct (rejected sample_hash sample_request [x6e; x6f]) as [r|e] eqn:Hr;
    [|vm_compute in Hr; discriminate].
  destruct (encode_response r) as [b|e] eqn:Hb;
    [|vm_compute in Hr; injection Hr as <-; vm_compute in Hb; discriminate].
  assert (decode_response sample_hash b sample_request = Ok r) as Hd.
  { vm_compute in Hr. injection Hr as <-. vm_compute in Hb. injection Hb as <-.
    vm_compute. reflexivity. }
  exists b, r. split; [exact Hd|].
  apply (response_within_budget sample_hash sample_request b r (λ _, eq_refl)
    sample_request_ok Hd).
Defined.
