(* ===== verification/SyntheticNames.v ===== *)
(** * SyntheticNames: the encoding of anonymous union types in their names

    Models [crates/witchy-syntax/src/synthetic_names.rs]: the parser writes
    the tags and arities of an anonymous union into the name of its type, as
    fixed-width decimals, and every later stage reads them back.  The cursor
    [pos] into the name is the rest of the name; [usize] has 64 bits, so ten
    digits never overflow it. *)

From S2P Require Import Prelude Text Wire WorkerRequest WorkerResponse.

Local Open Scope string_scope.

(** ** Encoding *)

(** [format!("{n:0width$}")] *)
Fixpoint zeros (n : nat) : string :=
  match n with O => "" | S n => String "0" (zeros n) end.
Definition padded (width : nat) (n : N) : string :=
  zeros (width - String.length (show_N n)) +:+ show_N n.

Fixpoint encode_tag_bytes (tag : string) : string :=
  match tag with
  | "" => ""
  | String b tag => padded 3 (N_of_ascii b) +:+ encode_tag_bytes tag
  end.

Definition encode_variant (v : string * N) : string :=
  padded 10 (N.of_nat (String.length (fst v))) +:+ encode_tag_bytes (fst v) +:+ padded 10 (snd v).

Fixpoint encode_variants (vs : list (string * N)) : string :=
  match vs with [] => "" | v :: vs => encode_variant v +:+ encode_variants vs end.

Definition anon_union_type_name (variants : list (string * N)) : string :=
  "__union" +:+ padded 10 (N.of_nat (length variants)) +:+ encode_variants variants.

(** ** Decoding *)

(** [s.get(..width)] with what follows it. *)
Fixpoint split_at (width : nat) (s : string) : option (string * string) :=
  match width, s with
  | O, _ => Some ("", s)
  | S n, String a s => '(part, rest) ← split_at n s; Some (String a part, rest)
  | S _, "" => None
  end.

Definition parse_fixed_width_usize (width : nat) (s : string) : option (N * string) :=
  '(part, rest) ← split_at width s;
  if str_all is_ascii_digit part then v ← parse_uint u64_max part; Some (v, rest) else None.

Fixpoint decode_tag_bytes (len : nat) (s : string) : option (string * string) :=
  match len with
  | O => Some ("", s)
  | S len =>
      '(byte, s) ← parse_fixed_width_usize 3 s;
      if (u8_max <? byte)%N then None
      else '(tag, s) ← decode_tag_bytes len s; Some (String (ascii_of_N byte) tag, s)
  end.

(** [String::from_utf8(bytes).ok()] *)
Definition valid_utf8 (s : string) : bool := bool_decide (is_Some (chars (String.list_byte_of_string s))).

Definition decode_variant (s : string) : option ((string * N) * string) :=
  '(len, s) ← parse_fixed_width_usize 10 s;
  '(tag, s) ← decode_tag_bytes (N.to_nat len) s;
  if negb (valid_utf8 tag) then None
  else '(arity, s) ← parse_fixed_width_usize 10 s; Some ((tag, arity), s).

Fixpoint decode_variants (count : nat) (s : string) : option (list (string * N) * string) :=
  match count with
  | O => Some ([], s)
  | S count =>
      '(v, s) ← decode_variant s;
      '(vs, s) ← decode_variants count s;
      Some (v :: vs, s)
  end.

Definition anon_union_synthetic_variants (name : string) : option (list (string * N)) :=
  rest ← strip_prefix "__union" name;
  if (String.length rest <? 10)%nat then None
  else
    '(count, s) ← parse_fixed_width_usize 10 rest;
    '(variants, s) ← decode_variants (N.to_nat count) s;
    if String.eqb s "" then Some variants else None.

(** ** Fixed-width numbers *)

Lemma str_length_app s t : String.length (s +:+ t) = (String.length s + String.length t)%nat.
Proof. induction s as [|a s IH]; [done|]. rewrite app_cons_str. simpl. by rewrite IH. Qed.

Lemma split_at_app part rest : split_at (String.length part) (part +:+ rest) = Some (part, rest).
Proof. induction part as [|a part IH]; [done|]. rewrite app_cons_str. simpl. by rewrite IH. Qed.

Lemma split_at_Some width s part rest :
  split_at width s = Some (part, rest) ↔ s = part +:+ rest ∧ String.length part = width.
Proof.
  split; [|intros [-> <-]; apply split_at_app].
  revert s part. induction width as [|w IH]; intros s part; simpl; [by intros [= <- <-]|].
  destruct s as [|a s]; [done|]. destruct (split_at w s) as [[p r]|] eqn:E; simpl; [|done].
  intros [= <- <-]. apply IH in E as [-> <-]. by rewrite app_cons_str.
Qed.

(** A digit string of known length is determined by its value. *)
Lemma parse_digits_bounds acc s v :
  parse_digits acc s = Some v →
  (acc * 10 ^ N.of_nat (String.length s) ≤ v < (acc + 1) * 10 ^ N.of_nat (String.length s))%N.
Proof.
  revert acc. induction s as [|a s IH]; intros acc; simpl parse_digits.
  - intros [= <-]. simpl. lia.
  - destruct (digit_value a) as [d|] eqn:E; simpl; [|done]. intros H%IH.
    assert (d < 10)%N.
    { unfold digit_value, is_ascii_digit in E.
      destruct ((48 <=? N_of_ascii a)%N && (N_of_ascii a <=? 57)%N) eqn:E2; [|done].
      apply andb_true_iff in E2 as [?%N.leb_le ?%N.leb_le]. injection E as <-. lia. }
    simpl String.length. rewrite Nat2N.inj_succ, N.pow_succ_r'. nia.
Qed.

Lemma digit_value_inj a b d : digit_value a = Some d → digit_value b = Some d → a = b.
Proof.
  unfold digit_value, is_ascii_digit.
  destruct ((48 <=? N_of_ascii a)%N && _) eqn:Ha; [|done].
  destruct ((48 <=? N_of_ascii b)%N && _) eqn:Hb; [|done].
  apply andb_true_iff in Ha as [?%N.leb_le ?%N.leb_le], Hb as [?%N.leb_le ?%N.leb_le].
  intros [= <-] [= E]. rewrite <- (ascii_N_embedding a), <- (ascii_N_embedding b). f_equal. lia.
Qed.

Lemma parse_digits_inj acc s t v :
  String.length s = String.length t → parse_digits acc s = Some v → parse_digits acc t = Some v → s = t.
Proof.
  revert acc t. induction s as [|a s IH]; intros acc [|b t] Hlen; try done. injection Hlen as Hlen.
  simpl. destruct (digit_value a) as [d|] eqn:Ea; simpl; [|done].
  destruct (digit_value b) as [e|] eqn:Eb; simpl; [|done]. intros Hs Ht.
  pose proof (parse_digits_bounds _ _ _ Hs) as B1. pose proof (parse_digits_bounds _ _ _ Ht) as B2.
  rewrite Hlen in B1.
  assert (acc * 10 + d = acc * 10 + e)%N as E by nia.
  assert (d = e) as <- by lia. f_equal; [by eapply digit_value_inj|by eapply IH].
Qed.

Lemma show_digits_length fuel n w :
  (n < 10 ^ N.of_nat w)%N → (0 < w)%nat → (String.length (show_digits fuel n "") ≤ w)%nat.
Proof.
  revert n w. induction fuel as [|fuel IH]; intros n w Hn Hw; simpl; [lia|].
  destruct (N.eqb_spec (n / 10) 0) as [E|E]; [simpl; lia|].
  rewrite show_digits_acc, str_length_app. simpl.
  destruct w as [|w]; [lia|]. rewrite Nat2N.inj_succ, N.pow_succ_r' in Hn.
  assert (n / 10 < 10 ^ N.of_nat w)%N as Hd by (apply N.Div0.div_lt_upper_bound; lia).
  destruct w as [|w]; [by apply N.lt_1_r in Hd|]. specialize (IH (n / 10)%N (S w) Hd ltac:(lia)). lia.
Qed.

Lemma parse_digits_show_N n : parse_digits 0 (show_N n) = Some n.
Proof.
  unfold show_N. apply parse_show_digits; [|lia].
  rewrite Nat2N.inj_succ, N.pow_succ_r', N2Nat.id. pose proof (N.size_gt n). lia.
Qed.

Lemma zeros_length n : String.length (zeros n) = n.
Proof. induction n; simpl; congruence. Qed.

Lemma padded_spec w n :
  (n < 10 ^ N.of_nat w)%N → (0 < w)%nat →
  String.length (padded w n) = w ∧ parse_digits 0 (padded w n) = Some n
  ∧ str_all is_ascii_digit (padded w n) = true.
Proof.
  intros Hn Hw. pose proof (show_digits_length (S (N.to_nat (N.size n))) n w Hn Hw) as Hl.
  fold (show_N n) in Hl. unfold padded. split_and!.
  - rewrite str_length_app, zeros_length. lia.
  - rewrite parse_digits_app. assert (∀ k, parse_digits 0 (zeros k) = Some 0%N) as ->
      by (intros k; induction k; done).
    apply parse_digits_show_N.
  - rewrite str_all_app, show_N_digits, andb_true_r. generalize (w - String.length (show_N n))%nat.
    intros k. by induction k.
Qed.

Lemma parse_uint_digits max s :
  str_all is_ascii_digit s = true → s ≠ "" →
  parse_uint max s = v ← parse_digits 0 s; if (v <=? max)%N then Some v else None.
Proof.
  intros Hd Hne. unfold parse_uint. destruct (strip_prefix "+" s) as [r|] eqn:E.
  { apply strip_prefix_Some in E as ->. done. }
  by destruct (String.eqb_spec s "").
Qed.

Lemma all_digits_parse s : str_all is_ascii_digit s = true → is_Some (parse_digits 0 s).
Proof.
  generalize 0%N. induction s as [|a s IH]; intros acc; simpl; [by eexists|].
  intros [Ha Hs]%andb_true_iff. unfold digit_value. rewrite Ha. simpl. auto.
Qed.

(** A field reads exactly the padded decimals of its width. *)
Lemma fixed_width_spec w s v rest :
  (0 < w ≤ 10)%nat →
  parse_fixed_width_usize w s = Some (v, rest) ↔ s = padded w v +:+ rest ∧ (v < 10 ^ N.of_nat w)%N.
Proof.
  intros Hw. assert (10 ^ N.of_nat w ≤ u64_max)%N as Hmax.
  { transitivity (10 ^ 10)%N; [apply N.pow_le_mono_r; lia|by vm_compute]. }
  unfold parse_fixed_width_usize. split.
  - destruct (split_at w s) as [[part r]|] eqn:E; simpl; [|done]. apply split_at_Some in E as [-> Hl].
    destruct (str_all is_ascii_digit part) eqn:Hd; [|done].
    rewrite parse_uint_digits by (done || by intros ->; simpl in Hl; lia).
    destruct (parse_digits 0 part) as [x|] eqn:E; simpl; [|done].
    destruct (x <=? u64_max)%N; simpl; [|done]. intros [= -> ->].
    pose proof (parse_digits_bounds _ _ _ E) as B. rewrite Hl in B.
    assert (v < 10 ^ N.of_nat w)%N as Hv by lia.
    destruct (padded_spec w v Hv) as (P1 & P2 & _); [lia|].
    split; [|done]. f_equal. eapply parse_digits_inj; [|done|done]. congruence.
  - intros [-> Hv]. destruct (padded_spec w v Hv) as (P1 & P2 & P3); [lia|].
    rewrite <- P1 at 1. rewrite split_at_app. simpl. rewrite P3.
    rewrite parse_uint_digits, P2; [|done|intros E; rewrite E in P1; simpl in P1; lia].
    simpl. rewrite (proj2 (N.leb_le v u64_max)) by lia. done.
Qed.

(** ** Tags and variants *)

Lemma tag_bytes_spec len s tag rest :
  decode_tag_bytes len s = Some (tag, rest) ↔ s = encode_tag_bytes tag +:+ rest ∧ String.length tag = len.
Proof.
  revert s tag. induction len as [|len IH]; intros s tag; simpl.
  { split; [by intros [= <- <-]|]. intros [-> H]. by destruct tag. }
  split.
  - destruct (parse_fixed_width_usize 3 s) as [[b r]|] eqn:E; simpl; [|done].
    apply fixed_width_spec in E as [-> Hb]; [|lia]. destruct (N.ltb_spec u8_max b); [done|].
    destruct (decode_tag_bytes len r) as [[t r']|] eqn:E; simpl; [|done]. intros [= <- <-].
    apply IH in E as [-> <-]. simpl. unfold u8_max in *.
    rewrite N_ascii_embedding by lia. by rewrite app_assoc_str.
  - intros [-> H]. destruct tag as [|a tag]; [done|]. injection H as H. simpl.
    rewrite app_assoc_str. assert (N_of_ascii a < 256)%N as Ha by apply N_ascii_bounded.
    rewrite (proj2 (fixed_width_spec 3 _ (N_of_ascii a) (encode_tag_bytes tag +:+ rest) ltac:(lia)))
      by (split; [done|simpl; lia]).
    simpl. destruct (N.ltb_spec u8_max (N_of_ascii a)); [unfold u8_max in *; lia|].
    rewrite (proj2 (IH _ tag)) by done. simpl. by rewrite ascii_N_embedding.
Qed.

(** The variants whose fields fit the widths. *)
Definition variant_ok (v : string * N) : Prop :=
  (N.of_nat (String.length (fst v)) < 10 ^ 10)%N ∧ (snd v < 10 ^ 10)%N ∧ valid_utf8 (fst v) = true.

Lemma decode_variant_spec s v rest :
  decode_variant s = Some (v, rest) ↔ s = encode_variant v +:+ rest ∧ variant_ok v.
Proof.
  unfold decode_variant, encode_variant, variant_ok. destruct v as [tag arity]; simpl. split.
  - destruct (parse_fixed_width_usize 10 s) as [[len s1]|] eqn:E1; simpl; [|done].
    apply fixed_width_spec in E1 as [-> H1]; [|lia].
    destruct (decode_tag_bytes (N.to_nat len) s1) as [[t s2]|] eqn:E2; simpl; [|done].
    apply tag_bytes_spec in E2 as [-> H2]. destruct (valid_utf8 t) eqn:Hu; simpl; [|done].
    destruct (parse_fixed_width_usize 10 s2) as [[a s3]|] eqn:E3; simpl; [|done].
    apply fixed_width_spec in E3 as [-> H3]; [|lia]. intros [= -> -> ->].
    assert (N.of_nat (String.length tag) = len) as -> by (rewrite H2; lia).
    by rewrite !app_assoc_str.
  - intros [-> (H1 & H2 & H3)]. rewrite !app_assoc_str.
    rewrite (proj2 (fixed_width_spec 10 _ (N.of_nat (String.length tag))
      (encode_tag_bytes tag +:+ padded 10 arity +:+ rest) ltac:(lia))) by done.
    simpl. rewrite Nat2N.id.
    rewrite (proj2 (tag_bytes_spec (String.length tag) _ tag (padded 10 arity +:+ rest))) by done.
    simpl. rewrite H3. simpl.
    by rewrite (proj2 (fixed_width_spec 10 _ arity rest ltac:(lia))) by done.
Qed.

Lemma decode_variants_spec count s vs rest :
  decode_variants count s = Some (vs, rest)
  ↔ s = encode_variants vs +:+ rest ∧ length vs = count ∧ Forall variant_ok vs.
Proof.
  revert s vs. induction count as [|count IH]; intros s vs; simpl.
  { split; [by intros [= <- <-]|]. intros (-> & H & _). by destruct vs. }
  split.
  - destruct (decode_variant s) as [[v s1]|] eqn:E; simpl; [|done].
    apply decode_variant_spec in E as [-> Hv].
    destruct (decode_variants count s1) as [[ws s2]|] eqn:E; simpl; [|done]. intros [= <- <-].
    apply IH in E as (-> & <- & Hvs). simpl. rewrite app_assoc_str. auto.
  - intros (-> & H & Hall). destruct vs as [|v vs]; [done|]. injection H as H.
    apply Forall_cons_1 in Hall as [Hv Hvs]. simpl. rewrite app_assoc_str.
    rewrite (proj2 (decode_variant_spec _ v (encode_variants vs +:+ rest))) by done. simpl.
    by rewrite (proj2 (IH _ vs)) by done.
Qed.

(** * Theorems *)

(** The name of an anonymous union determines its variants and is
    determined by them: decoding accepts exactly the names the parser writes
    for variants whose tags are valid text and whose counts, tag lengths and
    arities have at most ten digits, and gives back those variants. *)
Theorem anon_union_name_exact name variants :
  anon_union_synthetic_variants name = Some variants
  ↔ name = anon_union_type_name variants ∧ Forall variant_ok variants
    ∧ (N.of_nat (length variants) < 10 ^ 10)%N.
Proof.
  unfold anon_union_synthetic_variants, anon_union_type_name. split.
  - destruct (strip_prefix "__union" name) as [rest|] eqn:E; cbn [mbind option_bind]; [|done].
    apply strip_prefix_Some in E as ->. destruct (String.length rest <? 10)%nat; [done|].
    destruct (parse_fixed_width_usize 10 rest) as [[count s]|] eqn:E1; cbn [mbind option_bind]; [|done].
    apply fixed_width_spec in E1 as [-> Hc]; [|lia].
    destruct (decode_variants (N.to_nat count) s) as [[vs s']|] eqn:E2; cbn [mbind option_bind]; [|done].
    apply decode_variants_spec in E2 as (-> & Hl & Hok).
    destruct (String.eqb_spec s' "") as [->|]; [|done]. intros [= ->].
    assert (N.of_nat (length variants) = count) as -> by (rewrite Hl; lia).
    by rewrite app_nil_r_str.
  - intros (-> & Hok & Hlen). rewrite strip_prefix_app. cbn [mbind option_bind].
    destruct (padded_spec 10 (N.of_nat (length variants)) Hlen) as (P1 & _); [lia|].
    rewrite str_length_app, P1. rewrite (proj2 (Nat.ltb_ge _ _)) by lia.
    rewrite (proj2 (fixed_width_spec 10 _ (N.of_nat (length variants)) (encode_variants variants) ltac:(lia)))
      by done.
    cbn [mbind option_bind]. rewrite Nat2N.id.
    rewrite (proj2 (decode_variants_spec (length variants) _ variants "")) by (by rewrite app_nil_r_str).
    done.
Qed.
