(* ===== verification/Lexer.v ===== *)
(** * Lexer: the token stream of a source text

    Models [crates/witchy-syntax/src/lexer.rs] up to the off-side layout
    (which is [Layout]): the [Lexer] with its position counters and recorded
    comments, trivia, numbers and durations, identifiers and keywords,
    strings with interpolation, tagged literals and operators.

    A [char] is a Unicode scalar value.  The [Vec<char>] with the cursor
    [pos] is kept as the characters read, the last first, and those to
    come.  Line and column numbers are unbounded here; [position_bound]
    shows that they stay below the length of the source, so the [u32]
    counters do not overflow on a source of fewer than 2^32 - 1 characters.
    The value of a float literal is its text, which [f64]'s parser reads. *)

From S2P Require Import Prelude.

Local Open Scope string_scope.

(** * Definitions *)

(** ** Characters *)

Abbreviation char := N.
Abbreviation text := (list char).

Definition chr (a : ascii) : char := N_of_ascii a.
Arguments chr _%_char.

Fixpoint chars (s : string) : text :=
  match s with "" => [] | String a s => chr a :: chars s end.

Definition eqc (c : char) (a : ascii) : bool := (c =? chr a)%N.
Arguments eqc _ _%_char.

Definition next_is (o : option char) (a : ascii) : bool :=
  match o with Some c => eqc c a | None => false end.
Arguments next_is _ _%_char.

Definition newline : char := 10.
Definition tab : char := 9.
Definition quote : char := 34.

Definition between (lo hi c : char) : bool := (lo <=? c)%N && (c <=? hi)%N.

Definition is_digit (c : char) : bool := between 48 57 c.
Definition is_alphabetic (c : char) : bool := between 65 90 c || between 97 122 c.
Definition is_word (c : char) : bool := is_digit c || is_alphabetic c || eqc c "_".

(** [char::is_whitespace], the property White_Space. *)
Definition is_whitespace (c : char) : bool :=
  between 9 13 c || (c =? 32)%N || (c =? 133)%N || (c =? 160)%N || (c =? 5760)%N ||
  between 8192 8202 c || (c =? 8232)%N || (c =? 8233)%N || (c =? 8239)%N || (c =? 8287)%N ||
  (c =? 12288)%N.

(** [char::to_digit] for the radices of literals. *)
Definition digit_value (radix : N) (c : char) : option N :=
  let v := if is_digit c then Some (c - 48)%N
           else if between 97 102 c then Some (c - 87)%N
           else if between 65 70 c then Some (c - 55)%N else None in
  v ← v; if (v <? radix)%N then Some v else None.

Definition is_radix_digit (radix : N) (c : char) : bool :=
  match digit_value radix c with Some _ => true | None => false end.

(** The value of a run of digits. *)
Definition digits_value (radix : N) (t : text) : N :=
  List.fold_left (λ v c, (v * radix + default 0 (digit_value radix c))%N) t 0%N.

Definition i64_max : N := 2 ^ 63 - 1.

(** [i64::from_str_radix] and [u64]'s [parse] on a run of digits. *)
Definition parse_i64 (radix : N) (t : text) : option Z :=
  match t with
  | [] => None
  | _ => let v := digits_value radix t in if (v <=? i64_max)%N then Some (Z.of_N v) else None
  end.

Definition parse_u64 (t : text) : option N :=
  match t with
  | [] => None
  | _ => let v := digits_value 10 t in if (v <? 2 ^ 64)%N then Some v else None
  end.

(** [u as i64] *)
Definition as_i64 (v : N) : Z := if (v <=? i64_max)%N then Z.of_N v else (Z.of_N v - 2 ^ 64)%Z.

(** [i64::checked_mul] *)
Definition checked_mul (a b : Z) : option Z :=
  let v := (a * b)%Z in
  if ((- 2 ^ 63 <=? v) && (v <? 2 ^ 63))%Z then Some v else None.

(** [str::trim_end] *)
Fixpoint trim_end (t : text) : text :=
  match t with
  | [] => []
  | c :: t => match trim_end t with
              | [] => if is_whitespace c then [] else [c]
              | t' => c :: t'
              end
  end.

(** ** Tokens *)

Module Tok.
Inductive t : Set :=
  | Int (n : Z)
  | Float (digits : text)
  | Duration (ms : Z)
  | Str (s : text)
  | Ident (s : text)
  | Lifetime (name : text)
  | TagLit (tag : text) (parts holes : list text) (hole_spans : list (N * N))
  | Fn | Gen | Yield | Async | Await | Let | Var | Match | Pub | If | Else | True | False | Type_
  | Own | Move | Import | While | For | In | Return | Break | Continue | Trait | Impl | Where | As
  | Region | Comptime | Capability
  | LParen | RParen | InterpRBrace | QuoteHoleStart | LBrace | RBrace | DotLBrace | DotLBracket
  | LBracket | RBracket | Comma | Colon | Dot | DotDot | DotDotEq | Underscore | At
  | Eq | EqEq | NotEq | Lt | Gt | LtEq | GtEq | Plus | Minus | Star | Slash | Percent | Bar
  | PlusEq | MinusEq | StarEq | SlashEq | PercentEq | Amp | Caret | Tilde | Shl | Shr
  | LArrow | RArrow | AndAnd | OrOr | Bang | Question | QuestionQuestion
  | Eof.
End Tok.
Abbreviation Tok := Tok.t.

Record Token : Set := {
  kind : Tok;
  line : N;
  col : N;
  end_line : N;
  end_col : N;
}.

Definition point (kind : Tok) (line col : N) : Token :=
  {| kind := kind; line := line; col := col; end_line := line; end_col := col |}.

(** The messages of [LexError]. *)
Inductive Message : Set :=
  | TabIndentation
  | InvalidTupleIndex (t : text)
  | InvalidInteger (t : text)
  | DurationOverflow (t suffix : text)
  | NoDigits (name : string)
  | InvalidRadix (name : string) (t : text)
  | UnterminatedString
  | UnterminatedEscape
  | UnknownEscape (c : char)
  | UnterminatedTagged
  | UnterminatedTaggedEscape
  | UnterminatedInterpolation
  | UnterminatedNestedString
  | PipeOperator
  | BareBrace
  | UnexpectedCharacter (c : char).

Record LexError : Set := { message : Message; error_line : N; error_col : N }.

Definition rebase_inner_position (start_line start_col inner_line inner_col : N) : N * N :=
  if (inner_line =? 1)%N then (start_line, start_col + (inner_col - 1))%N
  else (start_line + inner_line - 1, inner_col)%N.

(** ** The lexer's state *)

Record Comment : Set := { comment_line : N; comment_col : N; comment_text : text }.

Record Lexer : Set := {
  before : text;
  rest : text;
  cur_line : N;
  cur_col : N;
  comments : list Comment;
  trailing_comments : list Comment;
}.

Definition new (src : text) : Lexer :=
  {| before := []; rest := src; cur_line := 1; cur_col := 1; comments := []; trailing_comments := [] |}.

Fixpoint blank_to_newline (read : text) : bool :=
  match read with
  | [] => true
  | c :: read => if (c =? newline)%N then true else if is_whitespace c then blank_to_newline read else false
  end.

Definition at_line_start (l : Lexer) : bool := blank_to_newline (before l).

Fixpoint content_before_newline (ahead : text) : bool :=
  match ahead with
  | [] => false
  | c :: ahead =>
      if (c =? newline)%N then false else if is_whitespace c then content_before_newline ahead else true
  end.

Definition line_has_content (l : Lexer) : bool := content_before_newline (rest l).

Definition peek (l : Lexer) : option char := rest l !! 0%nat.
Definition peek2 (l : Lexer) : option char := rest l !! 1%nat.

(** [bump]; the character it returns is [peek]'s. *)
Definition bump (l : Lexer) : Lexer :=
  match rest l with
  | [] => l
  | c :: ahead =>
      {| before := c :: before l; rest := ahead;
         cur_line := if (c =? newline)%N then (cur_line l + 1)%N else cur_line l;
         cur_col := if (c =? newline)%N then 1%N else (cur_col l + 1)%N;
         comments := comments l; trailing_comments := trailing_comments l |}
  end.

(** [while let Some(c) = self.peek() { if p(c) { text.push(c); self.bump(); } else { break } }] *)
Fixpoint bump_while_from (p : char → bool) (ahead : text) (l : Lexer) : text * Lexer :=
  match ahead with
  | c :: ahead =>
      if p c then let '(t, l) := bump_while_from p ahead (bump l) in (c :: t, l) else ([], l)
  | [] => ([], l)
  end.

Definition bump_while (p : char → bool) (l : Lexer) : text * Lexer := bump_while_from p (rest l) l.

(** A method's result: [Stuck] is a failed [expect], or too little fuel. *)
Inductive verdict (A : Type) : Type :=
  | Good (a : A)
  | Bad (e : LexError)
  | Stuck.
Arguments Good {A} a.
Arguments Bad {A} e.
Arguments Stuck {A}.

(** A [&mut self] method: the state is left as it was when it returned. *)
Definition Lex (A : Type) : Type := Lexer → Lexer * verdict A.

#[export] Instance Lex_ret : MRet Lex := λ _ a l, (l, Good a).
#[export] Instance Lex_bind : MBind Lex := λ _ _ f m l,
  match m l with
  | (l, Good a) => f a l
  | (l, Bad e) => (l, Bad e)
  | (l, Stuck) => (l, Stuck)
  end.

(** [self.err(message)] *)
Definition err {A} (m : Message) : Lex A :=
  λ l, (l, Bad {| message := m; error_line := cur_line l; error_col := cur_col l |}).

Definition throw_at {A} (e : LexError) : Lex A := λ l, (l, Bad e).

Definition stuck {A} : Lex A := λ l, (l, Stuck).

(** Bumping and reading through the receiver. *)
Definition next : Lex (option char) := λ l, (bump l, Good (peek l)).
Definition look {A} (f : Lexer → A) : Lex A := λ l, (l, Good (f l)).
Definition run_while (p : char → bool) : Lex text := λ l, let '(t, l) := bump_while p l in (l, Good t).

Definition ok_or_err {A} (o : option A) (m : Message) : Lex A :=
  match o with Some a => mret a | None => err m end.

(** ** Trivia *)

Definition record_comment (own_line : bool) (line col : N) (read : text) (l : Lexer) : Lexer :=
  let c := {| comment_line := line; comment_col := col; comment_text := trim_end read |} in
  {| before := before l; rest := rest l; cur_line := cur_line l; cur_col := cur_col l;
     comments := if own_line then (comments l ++ [c])%list else comments l;
     trailing_comments := if own_line then trailing_comments l else (trailing_comments l ++ [c])%list |}.

(** The loop of a block comment; the text read with it. *)
Fixpoint block_comment (depth : N) (ahead : text) (l : Lexer) : text * Lexer :=
  if (depth =? 0)%N then ([], l)
  else match ahead with
       | [] => ([], l)
       | c :: ahead1 =>
           match ahead1 with
           | c2 :: ahead2 =>
               if eqc c "/" && eqc c2 "*" then
                 let '(t, l) := block_comment (depth + 1) ahead2 (bump (bump l)) in (c :: c2 :: t, l)
               else if eqc c "*" && eqc c2 "/" then
                 let '(t, l) := block_comment (depth - 1) ahead2 (bump (bump l)) in (c :: c2 :: t, l)
               else let '(t, l) := block_comment depth ahead1 (bump l) in (c :: t, l)
           | [] => ([c], bump l)
           end
       end.

Fixpoint skip_trivia_loop (n : nat) : Lex unit :=
  match n with
  | O => stuck
  | S n => λ l,
      match peek l with
      | Some c =>
          if (c =? tab)%N && at_line_start l && line_has_content l then err TabIndentation l
          else if is_whitespace c then skip_trivia_loop n (bump l)
          else if eqc c "/" && next_is (peek2 l) "/" then
            let '(t, l') := bump_while (λ c, negb (c =? newline)%N) l in
            skip_trivia_loop n (record_comment (at_line_start l) (cur_line l) (cur_col l) t l')
          else if eqc c "/" && next_is (peek2 l) "*" then
            let '(t, l') := block_comment 1 (drop 2 (rest l)) (bump (bump l)) in
            skip_trivia_loop n
              (record_comment (at_line_start l) (cur_line l) (cur_col l) (take 2 (rest l) ++ t) l')
          else (l, Good tt)
      | None => (l, Good tt)
      end
  end.

(** Every round reads a character. *)
Definition skip_trivia : Lex unit := λ l, skip_trivia_loop (S (length (rest l))) l.

(** ** Numbers *)

Definition integer_index : Lex Tok :=
  t ← run_while is_digit;
  v ← ok_or_err (parse_i64 10 t) (InvalidTupleIndex t);
  mret (Tok.Int v).

Definition radix_int (radix : N) (name : string) : Lex Tok :=
  t ← run_while (λ c, eqc c "_" || is_radix_digit radix c);
  let t := List.filter (λ c, negb (eqc c "_")) t in
  match t with
  | [] => err (NoDigits name)
  | _ => v ← ok_or_err (parse_i64 radix t) (InvalidRadix name t); mret (Tok.Int v)
  end.

Definition unit_ms (suffix : text) : option Z :=
  if bool_decide (suffix = chars "ms") then Some 1%Z
  else if bool_decide (suffix = chars "s") then Some 1000%Z
  else if bool_decide (suffix = chars "m") then Some 60000%Z
  else if bool_decide (suffix = chars "h") || bool_decide (suffix = chars "hr") then Some 3600000%Z
  else if bool_decide (suffix = chars "d") then Some 86400000%Z
  else if bool_decide (suffix = chars "w") then Some 604800000%Z
  else None.

Definition parse_integer (t : text) : option Z :=
  match parse_i64 10 t with Some v => Some v | None => as_i64 <$> parse_u64 t end.

(** The suffix is read only when it is a unit. *)
Definition duration_or_int (t : text) (value : Z) : Lex Tok := λ l,
  let '(suffix, l') := bump_while is_alphabetic l in
  match unit_ms suffix with
  | Some unit => (ms ← ok_or_err (checked_mul value unit) (DurationOverflow t suffix);
                  mret (Tok.Duration ms)) l'
  | None => (l, Good (Tok.Int value))
  end.

Definition decimal : Lex Tok :=
  t ← run_while (λ c, is_digit c || eqc c "_");
  let t := List.filter (λ c, negb (eqc c "_")) t in
  fraction ← look (λ l, next_is (peek l) "." && match peek2 l with Some c => is_digit c | None => false end);
  if fraction : bool then
    _ ← next;
    fractional ← run_while is_digit;
    mret (Tok.Float (t ++ chr "." :: fractional))
  else
    value ← ok_or_err (parse_integer t) (InvalidInteger t);
    duration_or_int t value.

Definition number : Lex Tok := λ l,
  if next_is (peek l) "0" then
    if next_is (peek2 l) "x" || next_is (peek2 l) "X" then radix_int 16 "hexadecimal" (bump (bump l))
    else if next_is (peek2 l) "b" || next_is (peek2 l) "B" then radix_int 2 "binary" (bump (bump l))
    else decimal l
  else decimal l.

(** ** Words *)

Definition lifetime : Lex Tok :=
  _ ← next;
  name ← run_while is_word;
  mret (Tok.Lifetime name).

Definition keywords : list (string * Tok) :=
  [("fn", Tok.Fn); ("gen", Tok.Gen); ("yield", Tok.Yield); ("async", Tok.Async); ("await", Tok.Await);
   ("let", Tok.Let); ("var", Tok.Var); ("match", Tok.Match); ("pub", Tok.Pub); ("if", Tok.If);
   ("else", Tok.Else); ("true", Tok.True); ("false", Tok.False); ("type", Tok.Type_); ("own", Tok.Own);
   ("move", Tok.Move); ("import", Tok.Import); ("while", Tok.While); ("for", Tok.For); ("in", Tok.In);
   ("return", Tok.Return); ("break", Tok.Break); ("continue", Tok.Continue); ("trait", Tok.Trait);
   ("impl", Tok.Impl); ("where", Tok.Where); ("as", Tok.As); ("region", Tok.Region);
   ("comptime", Tok.Comptime); ("capability", Tok.Capability); ("_", Tok.Underscore)].

Definition word_token (t : text) : Tok :=
  match List.find (λ k, bool_decide (t = chars (fst k))) keywords with
  | Some k => snd k
  | None => Tok.Ident t
  end.

Definition ident_or_keyword : Lex Tok :=
  t ← run_while is_word;
  mret (word_token t).

(** ** Operators *)

Definition two_char_operators : list (ascii * ascii * Tok) :=
  [("=", "=", Tok.EqEq); ("!", "=", Tok.NotEq); ("<", "=", Tok.LtEq); (">", "=", Tok.GtEq);
   ("<", "-", Tok.LArrow); ("<", "<", Tok.Shl); (">", ">", Tok.Shr); ("-", ">", Tok.RArrow);
   ("+", "=", Tok.PlusEq); ("-", "=", Tok.MinusEq); ("*", "=", Tok.StarEq); ("/", "=", Tok.SlashEq);
   ("%", "=", Tok.PercentEq); ("&", "&", Tok.AndAnd); ("|", "|", Tok.OrOr);
   ("?", "?", Tok.QuestionQuestion); ("$", "{", Tok.QuoteHoleStart); (".", "{", Tok.DotLBrace);
   (".", "[", Tok.DotLBracket)]%char.

Definition one_char_operators : list (ascii * Tok) :=
  [("|", Tok.Bar); ("&", Tok.Amp); ("^", Tok.Caret); ("~", Tok.Tilde); ("!", Tok.Bang); ("=", Tok.Eq);
   ("<", Tok.Lt); (">", Tok.Gt); ("+", Tok.Plus); ("-", Tok.Minus); ("*", Tok.Star); ("/", Tok.Slash);
   ("%", Tok.Percent); ("?", Tok.Question); ("@", Tok.At); ("(", Tok.LParen); (")", Tok.RParen);
   ("}", Tok.RBrace); ("[", Tok.LBracket); ("]", Tok.RBracket); (",", Tok.Comma); (":", Tok.Colon);
   (".", Tok.Dot)]%char.

(** The arms that read one character, and those that read two.  The patterns
    with two characters differ from one another, and stand before the arm of
    their first one. *)
Definition operator : Lex Tok :=
  c ← next;
  match c with
  | None => stuck
  | Some c =>
      two ← look peek;
      if eqc c "|" && next_is two ">" then err PipeOperator
      else if eqc c "." && next_is two "." then
        _ ← next;
        three ← look peek;
        if next_is three "=" then _ ← next; mret Tok.DotDotEq else mret Tok.DotDot
      else match List.find (λ p, eqc c p.1.1 && next_is two p.1.2) two_char_operators with
           | Some p => _ ← next; mret p.2
           | None =>
               if eqc c "{" then err BareBrace
               else match List.find (λ p, eqc c p.1) one_char_operators with
                    | Some p => mret p.2
                    | None => err (UnexpectedCharacter c)
                    end
           end
  end.

(** ** Interpolation holes *)

Record InterpSource : Set := {
  src : text;
  start_line : N;
  start_col : N;
  close_line : N;
  close_col : N;
}.

(** A string inside a hole, to its closing quote. *)
Fixpoint nested_string (n : nat) (t : text) : Lex text :=
  match n with
  | O => stuck
  | S n =>
      c ← next;
      match c with
      | None => err UnterminatedNestedString
      | Some c =>
          if eqc c "\" then
            c ← next;
            nested_string n (t ++ chr "\" :: match c with Some c => [c] | None => [] end)
          else if (c =? quote)%N then mret (t ++ [c])%list
          else nested_string n (t ++ [c])
      end
  end.

(** A string inside a hole whose quotes are escaped. *)
Fixpoint nested_escaped (n : nat) (t : text) : Lex text :=
  match n with
  | O => stuck
  | S n =>
      c ← next;
      match c with
      | None => err UnterminatedNestedString
      | Some c =>
          if eqc c "\" then
            c ← next;
            match c with
            | None => err UnterminatedNestedString
            | Some c => if (c =? quote)%N then mret (t ++ [c])%list
                        else nested_escaped n (t ++ [chr "\"; c])
            end
          else nested_escaped n (t ++ [c])
      end
  end.

(** Enough rounds for what is left to read. *)
Definition fueled {A} (loop : nat → Lex A) : Lex A := λ l, loop (S (length (rest l))) l.

Fixpoint interp_loop (n : nat) (start : N * N) (depth : N) (t : text) : Lex InterpSource :=
  match n with
  | O => stuck
  | S n =>
      here ← look (λ l, (cur_line l, cur_col l));
      c ← next;
      match c with
      | None => err UnterminatedInterpolation
      | Some c =>
          if eqc c "{" then interp_loop n start (depth + 1) (t ++ [c])
          else if eqc c "}" then
            if (depth - 1 =? 0)%N then
              mret {| src := t; start_line := start.1; start_col := start.2;
                      close_line := here.1; close_col := here.2 |}
            else interp_loop n start (depth - 1) (t ++ [c])
          else if (c =? quote)%N then
            t ← fueled (λ n, nested_string n (t ++ [c]));
            interp_loop n start depth t
          else
            escaped ← look (λ l, eqc c "\" && match peek l with Some q => (q =? quote)%N | None => false end);
            if escaped : bool then
              _ ← next;
              t ← fueled (λ n, nested_escaped n (t ++ [quote]));
              interp_loop n start depth t
            else interp_loop n start depth (t ++ [c])
      end
  end.

Definition interp_source : Lex InterpSource :=
  start ← look (λ l, (cur_line l, cur_col l));
  fueled (λ n, interp_loop n start 1 []).

(** ** Strings *)

Definition unescape (c : char) : option char :=
  if eqc c "n" then Some 10%N
  else if eqc c "t" then Some 9%N
  else if eqc c "r" then Some 13%N
  else if eqc c "0" then Some 0%N
  else if eqc c "\" then Some (chr "\")
  else if (c =? quote)%N then Some quote
  else if eqc c "$" then Some (chr "$")
  else None.

Definition escape_sequence (unterminated : Message) : Lex char :=
  c ← next;
  c ← ok_or_err c unterminated;
  ok_or_err (unescape c) (UnknownEscape c).

Definition render_intrinsic : text := chars "@render".

(** The tokens of a hole, moved to where the hole is. *)
Definition rebase (span : InterpSource) (t : Token) : Token :=
  let p := rebase_inner_position (start_line span) (start_col span) (line t) (col t) in
  let q := rebase_inner_position (start_line span) (start_col span) (end_line t) (end_col t) in
  {| kind := kind t; line := p.1; col := p.2; end_line := q.1; end_col := q.2 |}.

Fixpoint before_eof (ts : list Token) : list Token :=
  match ts with
  | [] => []
  | t :: ts => match kind t with Tok.Eof => [] | _ => t :: before_eof ts end
  end.

(** The variables of [string]'s loop. *)
Record Pieces : Set := { literal : text; out : list Token; interpolated : bool }.

Section strings.
(** [Lexer::new(src).tokenize()] *)
Context (tokenize_hole : text → verdict (list Token)).
Context (fstring : bool) (literal_line literal_col : N).

(** The operator before a hole and the literal text before it. *)
Definition segment_tokens (p : Pieces) (line col : N) : list Token :=
  if interpolated p then [point Tok.Plus line col; point (Tok.Str (literal p)) line col]
  else [point Tok.LParen literal_line literal_col; point (Tok.Str (literal p)) literal_line literal_col].

(** The call of the render intrinsic on the hole's tokens. *)
Definition hole_tokens (span : InterpSource) (ts : list Token) : list Token :=
  ([point Tok.Plus (start_line span) (start_col span);
    point (Tok.Ident render_intrinsic) (start_line span) (start_col span);
    point Tok.LParen (start_line span) (start_col span)]
   ++ List.map (rebase span) (before_eof ts)
   ++ [{| kind := Tok.InterpRBrace; line := close_line span; col := close_col span;
          end_line := close_line span; end_col := close_col span + 1 |}])%list.

Definition rebase_error (span : InterpSource) (e : LexError) : LexError :=
  let p := rebase_inner_position (start_line span) (start_col span) (error_line e) (error_col e) in
  {| message := message e; error_line := p.1; error_col := p.2 |}.

Definition emit_interpolation (p : Pieces) : Lex Pieces :=
  segment ← look (λ l, segment_tokens p (cur_line l) (cur_col l));
  span ← interp_source;
  match tokenize_hole (src span) with
  | Stuck => stuck
  | Bad e => throw_at (rebase_error span e)
  | Good ts =>
      mret {| literal := []; out := (out p ++ segment ++ hole_tokens span ts)%list; interpolated := true |}
  end.

Definition push_literal (c : char) (p : Pieces) : Pieces :=
  {| literal := literal p ++ [c]; out := out p; interpolated := interpolated p |}.

Fixpoint string_loop (n : nat) (p : Pieces) : Lex (list Token) :=
  match n with
  | O => stuck
  | S n =>
      c ← next;
      match c with
      | None => err UnterminatedString
      | Some c =>
          after ← look peek;
          if (c =? quote)%N then
            if interpolated p then
              mret (out p ++ [point Tok.Plus literal_line literal_col;
                              point (Tok.Str (literal p)) literal_line literal_col;
                              point Tok.RParen literal_line literal_col])%list
            else mret [point (Tok.Str (literal p)) literal_line literal_col]
          else if eqc c "\" then
            c ← escape_sequence UnterminatedEscape;
            string_loop n (push_literal c p)
          else if eqc c "{" && fstring then
            if next_is after "{" then _ ← next; string_loop n (push_literal c p)
            else p ← emit_interpolation p; string_loop n p
          else if eqc c "}" && fstring then
            if next_is after "}" then _ ← next; string_loop n (push_literal c p)
            else string_loop n (push_literal c p)
          else if eqc c "$" && negb fstring && next_is after "{" then
            _ ← next; p ← emit_interpolation p; string_loop n p
          else string_loop n (push_literal c p)
      end
  end.

(** [string], with the end of its last token set as [tokenize] does. *)
Definition string_tokens : Lex (list Token) :=
  _ ← next;
  fueled (λ n, string_loop n {| literal := []; out := []; interpolated := false |}).
End strings.

(** ** Tagged literals *)

Fixpoint tag_loop (n : nat) (parts holes : list text) (spans : list (N * N)) (t : text)
    : Lex (list text * list text * list (N * N)) :=
  match n with
  | O => stuck
  | S n =>
      c ← next;
      match c with
      | None => err UnterminatedTagged
      | Some c =>
          after ← look peek;
          if (c =? quote)%N then mret ((parts ++ [t])%list, holes, spans)
          else if eqc c "\" then
            c ← escape_sequence UnterminatedTaggedEscape;
            tag_loop n parts holes spans (t ++ [c])
          else if eqc c "$" && next_is after "{" then
            _ ← next;
            span ← interp_source;
            tag_loop n (parts ++ [t]) (holes ++ [src span]) (spans ++ [(start_line span, start_col span)]) []
          else tag_loop n parts holes spans (t ++ [c])
      end
  end.

Definition tag_literal : Lex (list text * list text * list (N * N)) :=
  _ ← next;
  fueled (λ n, tag_loop n [] [] [] []).

(** ** [tokenize] *)

(** [last.end_line = self.line; last.end_col = self.col;] *)
Fixpoint end_last (line col : N) (ts : list Token) : list Token :=
  match ts with
  | [] => []
  | [t] => [{| kind := kind t; Lexer.line := Lexer.line t; Lexer.col := Lexer.col t;
               end_line := line; end_col := col |}]
  | t :: ts => t :: end_last line col ts
  end.

(** The token of one word, number or operator. *)
Definition plain_token (c : char) (after_dot : bool) : Lex Tok := λ l,
  if is_digit c then if after_dot then integer_index l else number l
  else if is_alphabetic c || eqc c "_" then ident_or_keyword l
  else if eqc c "'" && match peek2 l with Some c => is_alphabetic c || eqc c "_" | None => false end
  then lifetime l
  else operator l.

Definition last_token (ts : list Token) : option Token := head (List.rev ts).

Definition after_dot (ts : list Token) : bool :=
  match kind <$> last_token ts with Some Tok.Dot => true | _ => false end.

(** The identifier that a quote directly after it makes a tag. *)
Definition tag_of (ts : list Token) : option (Token * text) :=
  t ← last_token ts; match kind t with Tok.Ident tag => Some (t, tag) | _ => None end.

(** A token that ends where the lexer is. *)
Definition ending_here (k : Tok) (line col : N) : Lex Token :=
  look (λ l, {| kind := k; Lexer.line := line; Lexer.col := col;
                end_line := cur_line l; end_col := cur_col l |}).

Definition end_last_here (ts : list Token) : Lex (list Token) :=
  look (λ l, end_last (cur_line l) (cur_col l) ts).

(** What one round of the loop makes of the tokens before it, when there is
    something to read. *)
Definition round (tokenize_hole : text → verdict (list Token)) (adjacent : bool) (ts : list Token)
    (c : char) : Lex (list Token) := λ l,
  let '(line, col) := (cur_line l, cur_col l) in
  match (if (c =? quote)%N && adjacent then tag_of ts else None) with
  | Some (t, tag) =>
      (lit ← tag_literal;
       t ← ending_here (Tok.TagLit tag lit.1.1 lit.1.2 lit.2) (Lexer.line t) (Lexer.col t);
       mret (removelast ts ++ [t])%list) l
  | None =>
      if (c =? quote)%N then
        (pieces ← string_tokens tokenize_hole false line col;
         pieces ← end_last_here pieces; mret (ts ++ pieces)%list) l
      else if eqc c "f" && match peek2 l with Some q => (q =? quote)%N | None => false end then
        (pieces ← string_tokens tokenize_hole true line col;
         pieces ← end_last_here pieces; mret (ts ++ pieces)%list) (bump l)
      else
        (k ← plain_token c (after_dot ts);
         t ← ending_here k line col; mret (ts ++ [t])%list) l
  end.

Fixpoint tokenize_loop (n : nat) (ts : list Token) : Lex (list Token) :=
  match n with
  | O => stuck
  | S n =>
      before_trivia ← look (λ l, length (before l));
      _ ← skip_trivia;
      c ← look peek;
      match c with
      | None => look (λ l, ts ++ [point Tok.Eof (cur_line l) (cur_col l)])%list
      | Some c =>
          adjacent ← look (λ l, (length (before l) =? before_trivia)%nat);
          ts ← round (λ src, snd (tokenize_loop n [] (new src))) adjacent ts c;
          tokenize_loop n ts
      end
  end.

(** Every round reads a character. *)
Definition tokenize (src : text) : verdict (list Token) :=
  snd (tokenize_loop (S (length src)) [] (new src)).

Definition own_line_comments (src : text) : list Comment :=
  comments (fst (tokenize_loop (S (length src)) [] (new src))).

Definition trailing_comments_of (src : text) : list Comment :=
  trailing_comments (fst (tokenize_loop (S (length src)) [] (new src))).
