(* ===== verification/LexerTotal.v ===== *)
(** * LexerTotal: the lexer reads its source to the end

    Every method of the lexer moves forward through the source by the
    characters it reads, and its counters with it ([reads]); the loops end
    within the rounds they are given.  [tokenize_total] collects this for a
    whole source. *)

From S2P Require Import Prelude Lexer.

Local Open Scope list_scope.

(** * Moving forward *)

(** The position after a character, and after a text. *)
Definition walk_char (p : N * N) (c : char) : N * N :=
  if (c =? newline)%N then (p.1 + 1, 1)%N else (p.1, p.2 + 1)%N.

Definition walk (p : N * N) (t : text) : N * N := List.fold_left walk_char t p.

Definition position (l : Lexer) : N * N := (cur_line l, cur_col l).

(** From [l] the lexer reads [t] and is at [l']. *)
Record reads (l : Lexer) (t : text) (l' : Lexer) : Prop := {
  reads_rest : rest l = t ++ rest l';
  reads_before : before l' = List.rev t ++ before l;
  reads_position : position l' = walk (position l) t;
}.

Lemma reads_refl l : reads l [] l.
Proof. by split. Qed.

Lemma reads_trans l t l1 t' l2 : reads l t l1 → reads l1 t' l2 → reads l (t ++ t') l2.
Proof.
  intros [R1 B1 P1] [R2 B2 P2]. split.
  - by rewrite R1, R2, app_assoc.
  - by rewrite B2, B1, List.rev_app_distr, app_assoc.
  - rewrite P2, P1. unfold walk. by rewrite List.fold_left_app.
Qed.

Lemma bump_reads l c : peek l = Some c → reads l [c] (bump l).
Proof.
  unfold peek. intros H. destruct (rest l) as [|d ahead] eqn:E; [done|]. injection H as ->.
  unfold bump. rewrite E. split; cbn; [done|done|]. unfold position, walk_char. cbn.
  by destruct (c =? newline)%N.
Qed.

Lemma bump_end l : peek l = None → bump l = l.
Proof. unfold peek, bump. by destruct (rest l). Qed.

Lemma reads_length l t l' : reads l t l' → length (rest l) = (length t + length (rest l'))%nat.
Proof. intros H. by rewrite (reads_rest _ _ _ H), length_app. Qed.

Lemma bump_while_from_reads p ahead l :
  ahead = rest l → ∃ t l', bump_while_from p ahead l = (t, l') ∧ reads l t l' ∧
    forallb p t = true ∧ match rest l' with c :: _ => p c = false | [] => True end.
Proof.
  revert l. induction ahead as [|c ahead IH]; intros l E; cbn [bump_while_from].
  { exists [], l. rewrite <- E. split_and!; [done|apply reads_refl|done|done]. }
  destruct (p c) eqn:Ep.
  - assert (peek l = Some c) as Hp by (unfold peek; by rewrite <- E).
    pose proof (bump_reads l c Hp) as Hb. destruct (IH (bump l)) as (t & l' & -> & Hr & Ht & Hend).
    { pose proof (reads_rest _ _ _ Hb) as H. rewrite <- E in H. by injection H. }
    exists (c :: t), l'. split_and!; [done|exact (reads_trans _ _ _ _ _ Hb Hr)| |done]. cbn. by rewrite Ep.
  - exists [], l. rewrite <- E. split_and!; [done|apply reads_refl|done|done].
Qed.

Lemma bump_while_reads p l :
  ∃ t l', bump_while p l = (t, l') ∧ reads l t l' ∧ forallb p t = true ∧
    match rest l' with c :: _ => p c = false | [] => True end.
Proof. by apply bump_while_from_reads. Qed.

Lemma record_comment_reads l t l' own line col read :
  reads l t l' → reads l t (record_comment own line col read l').
Proof. intros [R B P]. by split. Qed.

(** ** Methods *)

(** The method ends, having read what [Q] says of its result. *)
Definition returns {A} (m : Lex A) (l : Lexer) (Q : text → A → Prop) : Prop :=
  ∃ t l' v, m l = (l', v) ∧ reads l t l' ∧
    match v with Good a => Q t a | Bad _ => True | Stuck => False end.

Lemma returns_ret {A} (a : A) l (Q : text → A → Prop) : Q [] a → returns (mret a) l Q.
Proof. intros H. exists [], l, (Good a). split_and!; [done|apply reads_refl|done]. Qed.

Lemma returns_bind {A B} (m : Lex A) (f : A → Lex B) l (Q : text → A → Prop) (R : text → B → Prop) :
  returns m l Q → (∀ t a l', reads l t l' → Q t a → returns (f a) l' (λ t' b, R (t ++ t') b)) →
  returns (m ≫= f) l R.
Proof.
  intros (t & l' & v & Hm & Hr & Hv) Hf. unfold returns, mbind, Lex_bind. rewrite Hm.
  destruct v as [a|e|]; [|by exists t, l', (Bad e)|done].
  destruct (Hf t a l' Hr Hv) as (t' & l2 & v & Hm' & Hr' & Hv'). exists (t ++ t'), l2, v.
  split_and!; [done|by eapply reads_trans|done].
Qed.

Lemma returns_mono {A} (m : Lex A) l (Q R : text → A → Prop) :
  returns m l Q → (∀ t a, Q t a → R t a) → returns m l R.
Proof.
  intros (t & l' & v & Hm & Hr & Hv) H. exists t, l', v. split_and!; [done..|]. destruct v; auto.
Qed.

Lemma returns_look {A} (f : Lexer → A) l (Q : text → A → Prop) : Q [] (f l) → returns (look f) l Q.
Proof. intros H. exists [], l, (Good (f l)). split_and!; [done|apply reads_refl|done]. Qed.

Lemma returns_err {A} m l (Q : text → A → Prop) : returns (err m) l Q.
Proof. eexists [], l, (Bad _). split_and!; [done|apply reads_refl|done]. Qed.

Lemma returns_throw {A} e l (Q : text → A → Prop) : returns (throw_at e) l Q.
Proof. exists [], l, (Bad e). split_and!; [done|apply reads_refl|done]. Qed.

Lemma returns_ok_or_err {A} (o : option A) m l (Q : text → A → Prop) :
  (∀ a, o = Some a → Q [] a) → returns (ok_or_err o m) l Q.
Proof. intros H. destruct o; [by apply returns_ret, H|apply returns_err]. Qed.

Lemma returns_next l (Q : text → option char → Prop) :
  (∀ c, peek l = Some c → Q [c] (Some c)) → (peek l = None → Q [] None) → returns next l Q.
Proof.
  intros Hs Hn. destruct (peek l) as [c|] eqn:E.
  - exists [c], (bump l), (Good (Some c)). unfold next. rewrite E.
    split_and!; [done|by apply bump_reads|by apply Hs].
  - exists [], l, (Good None). unfold next. rewrite E, (bump_end l E).
    split_and!; [done|apply reads_refl|by apply Hn].
Qed.

Lemma returns_run_while p l (Q : text → text → Prop) :
  (∀ t l', reads l t l' → forallb p t = true →
    match rest l' with c :: _ => p c = false | [] => True end → Q t t) → returns (run_while p) l Q.
Proof.
  intros H. destruct (bump_while_reads p l) as (t & l' & E & Hr & Ht & Hend).
  exists t, l', (Good t). unfold run_while. rewrite E. split_and!; [done|done|by eapply H].
Qed.

(** After the characters it has read a method goes on from there. *)
Lemma returns_from {A} (m : Lex A) l t l' (Q : text → A → Prop) (k : Lex A) :
  k l = m l' → reads l t l' → returns m l' (λ t' a, Q (t ++ t') a) → returns k l Q.
Proof.
  intros Hk Hr (t' & l2 & v & Hm & Hr' & Hv). exists (t ++ t'), l2, v.
  split_and!; [by rewrite Hk|by eapply reads_trans|done].
Qed.

(** * Loops and methods end *)

Lemma block_comment_reads depth ahead l :
  ahead = rest l → ∃ t l', block_comment depth ahead l = (t, l') ∧ reads l t l'.
Proof.
  remember (length ahead) as n eqn:Hn. revert depth ahead l Hn.
  induction n as [n IH] using lt_wf_ind. intros depth ahead l -> E.
  destruct ahead as [|c ahead1]; cbn [block_comment].
  { destruct (depth =? 0)%N; exists [], l; split; done || apply reads_refl. }
  destruct (depth =? 0)%N; [exists [], l; split; [done|apply reads_refl]|].
  assert (reads l [c] (bump l)) as H1 by (apply bump_reads; unfold peek; by rewrite <- E).
  assert (rest (bump l) = ahead1) as E1.
  { pose proof (reads_rest _ _ _ H1) as H. rewrite <- E in H. by injection H. }
  assert (∀ depth' ahead' l' t', (length ahead' < length (c :: ahead1))%nat → reads l t' l' →
    ahead' = rest l' → ∃ t l2, (let '(t, l2) := block_comment depth' ahead' l' in (t' ++ t, l2)) = (t, l2) ∧
      reads l t l2) as Hgo.
  { intros depth' ahead' l' t' Hlt Hr E'. destruct (IH _ Hlt depth' ahead' l' eq_refl E') as (t & l2 & -> & H2).
    exists (t' ++ t), l2. split; [done|by eapply reads_trans]. }
  destruct ahead1 as [|c2 ahead2]; [by exists [c], (bump l)|].
  assert (reads l [c; c2] (bump (bump l))) as H2.
  { apply (reads_trans _ [c] (bump l) [c2]); [done|]. apply bump_reads. unfold peek. by rewrite E1. }
  assert (ahead2 = rest (bump (bump l))) as E2.
  { pose proof (reads_rest _ _ _ H2) as H. rewrite <- E in H. by injection H. }
  destruct (_ && _); [apply (Hgo _ _ _ [c; c2]); [cbn; lia|done..]|].
  destruct (_ && _); [apply (Hgo _ _ _ [c; c2]); [cbn; lia|done..]|].
  apply (Hgo _ _ _ [c]); [cbn; lia|done..].
Qed.

Lemma skip_trivia_loop_returns n l :
  (length (rest l) < n)%nat → returns (skip_trivia_loop n) l (λ _ _, True).
Proof.
  revert l. induction n as [|n IH]; intros l Hn; [lia|].
  assert (∀ k t l', k l = skip_trivia_loop n l' → reads l t l' → t ≠ [] →
    returns k l (λ _ _, True)) as Hgo.
  { intros k t l' Hk Hr Ht. apply (returns_from (skip_trivia_loop n) l t l' (λ _ _, True) k Hk Hr). apply IH.
    apply reads_length in Hr. destruct t; [done|]. cbn in Hr. lia. }
  destruct (peek l) as [c|] eqn:Ep.
  2:{ exists [], l, (Good tt). cbn [skip_trivia_loop]. rewrite Ep. split_and!; [done|apply reads_refl|done]. }
  destruct ((c =? tab)%N && at_line_start l && line_has_content l) eqn:E1.
  { exists [], l. eexists. cbn [skip_trivia_loop]. rewrite Ep, E1. split_and!; [done|apply reads_refl|done]. }
  destruct (is_whitespace c) eqn:E2.
  { apply (Hgo _ [c] (bump l)); [cbn [skip_trivia_loop]; by rewrite Ep, E1, E2|by apply bump_reads|done]. }
  destruct (eqc c "/" && next_is (peek2 l) "/") eqn:E3.
  { destruct (bump_while_reads (λ c, negb (c =? newline)%N) l) as (t & l' & Hw & Hr & _ & Hend).
    apply (Hgo _ t (record_comment (at_line_start l) (cur_line l) (cur_col l) t l'));
      [cbn [skip_trivia_loop]; by rewrite Ep, E1, E2, E3, Hw|by apply record_comment_reads|].
    intros ->. pose proof (reads_rest _ _ _ Hr) as H. cbn in H. unfold peek in Ep. rewrite H in Ep.
    destruct (rest l') as [|d ?]; [done|]. injection Ep as ->.
    apply andb_true_iff in E3 as [Hc%N.eqb_eq _]. subst c. done. }
  destruct (eqc c "/" && next_is (peek2 l) "*") eqn:E4.
  2:{ exists [], l, (Good tt). cbn [skip_trivia_loop]. rewrite Ep, E1, E2, E3, E4.
      split_and!; [done|apply reads_refl|done]. }
  unfold peek in Ep. unfold peek2 in E4.
  destruct (rest l) as [|d [|d2 ahead]] eqn:E; [done|by rewrite andb_false_r in E4|]. injection Ep as ->.
  assert (reads l [c; d2] (bump (bump l))) as H2.
  { pose proof (bump_reads l c ltac:(unfold peek; by rewrite E)) as H1.
    apply (reads_trans _ [c] (bump l) [d2]); [done|]. apply bump_reads. unfold peek.
    pose proof (reads_rest _ _ _ H1) as H. rewrite E in H. injection H as <-. done. }
  destruct (block_comment_reads 1 ahead (bump (bump l))) as (t & l' & Hb & Hr).
  { pose proof (reads_rest _ _ _ H2) as H. rewrite E in H. by injection H. }
  apply (Hgo _ ([c; d2] ++ t) (record_comment (at_line_start l) (cur_line l) (cur_col l) ([c; d2] ++ t) l')); [|
    by apply record_comment_reads, (reads_trans _ _ _ _ _ H2)|done].
  cbn [skip_trivia_loop]. unfold peek, peek2. rewrite E. cbn [lookup list_lookup].
  rewrite E1, E2.
  unfold peek2 in E3. rewrite E in E3. cbn [lookup list_lookup] in E3, E4. rewrite E3, E4.
  change (drop 2 (c :: d2 :: ahead)) with ahead. by rewrite Hb.
Qed.

Lemma skip_trivia_returns l : returns skip_trivia l (λ _ _, True).
Proof. apply (skip_trivia_loop_returns (S (length (rest l)))). lia. Qed.

(** ** Bounds on positions *)

(** No line or column reaches beyond this. *)
Definition lim (l : Lexer) : N := (1 + N.of_nat (length (before l) + length (rest l)))%N.

(** The counters are those of the text read. *)
Definition sane (l : Lexer) : Prop := position l = walk (1, 1)%N (List.rev (before l)).

Lemma walk_app p t t' : walk p (t ++ t') = walk (walk p t) t'.
Proof. apply List.fold_left_app. Qed.

Lemma walk_bound t p : ((walk p t).1 <= p.1 + N.of_nat (length t) ∧ (walk p t).2 <= N.max p.2 1 + N.of_nat (length t))%N.
Proof.
  revert p. induction t as [|c t IH]; intros p; [cbn; lia|]. cbn [walk List.fold_left length].
  destruct (IH (walk_char p c)) as [H1 H2]. unfold walk in *. unfold walk_char in *.
  destruct (c =? newline)%N; cbn [fst snd] in *; lia.
Qed.

Lemma walk_positive t p : (1 <= p.1 → 1 <= p.2 → 1 <= (walk p t).1 ∧ 1 <= (walk p t).2)%N.
Proof.
  revert p. induction t as [|c t IH]; intros p H1 H2; [done|]. cbn [walk List.fold_left].
  apply IH; unfold walk_char; destruct (c =? newline)%N; cbn [fst snd]; lia.
Qed.

Lemma sane_new src : sane (new src).
Proof. done. Qed.

Lemma sane_reads l t l' : reads l t l' → sane l → sane l'.
Proof.
  intros [_ B P] H. unfold sane in *. rewrite P, B, List.rev_app_distr, List.rev_involutive, walk_app.
  by rewrite H.
Qed.

Lemma lim_reads l t l' : reads l t l' → lim l' = lim l.
Proof. intros [R B _]. unfold lim. rewrite R, B, !length_app, length_rev. lia. Qed.

Lemma position_bound l :
  sane l → (1 <= cur_line l ∧ cur_line l <= 1 + N.of_nat (length (before l)) ∧
            1 <= cur_col l ∧ cur_col l <= 1 + N.of_nat (length (before l)))%N.
Proof.
  intros H. pose proof (walk_bound (List.rev (before l)) (1, 1)%N) as [H1 H2].
  pose proof (walk_positive (List.rev (before l)) (1, 1)%N) as [H3 H4]; [cbn; lia..|].
  rewrite <- H in H1, H2, H3, H4. rewrite length_rev in H1, H2. cbn [position fst snd] in *. lia.
Qed.

(** A token whose positions lie within a bound, and which is no [Eof]. *)
Definition placed (bound : N) (t : Token) : Prop :=
  (1 <= line t ∧ line t <= bound ∧ 1 <= col t ∧ col t <= bound ∧
   1 <= end_line t ∧ end_line t <= bound ∧ 1 <= end_col t ∧ end_col t <= bound)%N.

Definition fine (bound : N) (t : Token) : Prop := placed bound t ∧ kind t ≠ Tok.Eof.

Lemma position_placed l k : sane l → placed (lim l) (point k (cur_line l) (cur_col l)).
Proof.
  intros H%position_bound. unfold placed, point, lim. cbn. lia.
Qed.

(** ** Plain tokens *)

(** A method that reads something and gives no [Eof]. *)
Definition token_read (t : text) (k : Tok) : Prop := t ≠ [] ∧ k ≠ Tok.Eof.

Lemma run_while_first p l (Q : text → text → Prop) c :
  peek l = Some c → p c = true → (∀ t, Q (c :: t) (c :: t)) → returns (run_while p) l Q.
Proof.
  intros Hc Hp H. apply returns_run_while. intros t l' Hr Ht Hend.
  unfold peek in Hc. rewrite (reads_rest _ _ _ Hr) in Hc. destruct t as [|d t].
  - cbn in Hc. destruct (rest l') as [|d ?]; [done|]. injection Hc as ->. congruence.
  - injection Hc as ->. apply H.
Qed.

Lemma integer_index_returns l c : peek l = Some c → is_digit c = true → returns integer_index l token_read.
Proof.
  intros Hc Hd. unfold integer_index. eapply returns_bind; [by apply (run_while_first _ _ (λ t a, t ≠ []) c)|].
  intros t a l' Hr Ht. cbn beta in Ht. eapply returns_bind; [apply (returns_ok_or_err _ _ _ (λ t _, t = [])); auto|].
  intros t' v l2 _ ->. apply returns_ret. rewrite !app_nil_r. by split.
Qed.

Lemma returns_pass {A} (m : Lex A) l (Q : text → A → Prop) t l' (k : Lex A) :
  k l = m l' → reads l t l' → returns m l' (λ _ a, Q t a) → (∀ t' a, Q t a → Q (t ++ t') a) → returns k l Q.
Proof.
  intros Hk Hr Hm Hq. eapply returns_from; [exact Hk|exact Hr|]. eapply returns_mono; [exact Hm|].
  intros t' a. apply Hq.
Qed.

(** Any result but [Eof]. *)
Definition no_eof (_ : text) (k : Tok) : Prop := k ≠ Tok.Eof.

Lemma checked_token {A} (o : option A) m (f : A → Tok) l :
  (∀ a, f a ≠ Tok.Eof) → returns (v ← ok_or_err o m; mret (f v)) l no_eof.
Proof.
  intros Hf. eapply returns_bind; [apply (returns_ok_or_err _ _ _ (λ _ _, True)); done|].
  intros t v l' _ _. apply returns_ret, Hf.
Qed.

Lemma radix_int_returns radix name l : returns (radix_int radix name) l no_eof.
Proof.
  unfold radix_int. eapply returns_bind; [by apply (returns_run_while _ _ (λ _ _, True))|].
  intros t a l' _ _. cbn beta zeta. destruct (List.filter _ a); [apply returns_err|]. by apply checked_token.
Qed.

Lemma duration_or_int_returns t value l : returns (duration_or_int t value) l no_eof.
Proof.
  destruct (bump_while_reads is_alphabetic l) as (suffix & l' & Hw & Hr & _).
  destruct (unit_ms suffix) as [unit|] eqn:Eu.
  - eapply (returns_pass (ms ← ok_or_err (checked_mul value unit) (DurationOverflow t suffix);
      mret (Tok.Duration ms))); [|exact Hr|by apply checked_token|done].
    unfold duration_or_int. by rewrite Hw, Eu.
  - exists [], l, (Good (Tok.Int value)). unfold duration_or_int. rewrite Hw, Eu.
    split_and!; [done|apply reads_refl|done].
Qed.

Lemma decimal_returns l c : peek l = Some c → is_digit c = true → returns decimal l token_read.
Proof.
  intros Hc Hd. unfold decimal.
  eapply returns_bind; [apply (run_while_first _ _ (λ t _, t ≠ []) c); [done|by rewrite Hd|done]|].
  intros t a l1 _ Ht. cbn beta zeta in Ht |- *.
  eapply returns_bind; [by apply (returns_look _ _ (λ t _, t = []))|].
  intros t0 fraction l2 _ ->. destruct fraction.
  - eapply returns_bind; [by apply (returns_next _ (λ _ _, True))|]. intros t1 o l3 _ _.
    eapply returns_bind; [by apply (returns_run_while _ _ (λ _ _, True))|]. intros t2 b l4 _ _.
    apply returns_ret. split; [|done]. intros [H _]%app_eq_nil. done.
  - eapply returns_bind; [by apply (returns_ok_or_err _ _ _ (λ _ _, True))|]. intros t1 v l3 _ _.
    eapply returns_mono; [apply duration_or_int_returns|]. intros t2 k Hk. split; [|done].
    intros [H _]%app_eq_nil. done.
Qed.

Lemma bump2_reads l c c2 : peek l = Some c → peek2 l = Some c2 → reads l [c; c2] (bump (bump l)).
Proof.
  intros H1 H2. pose proof (bump_reads l c H1) as Hb. apply (reads_trans _ [c] (bump l) [c2] _ Hb).
  apply bump_reads. unfold peek, peek2 in *. rewrite (reads_rest _ _ _ Hb) in H2. exact H2.
Qed.

Lemma number_returns l c : peek l = Some c → is_digit c = true → returns number l token_read.
Proof.
  intros Hc Hd. assert (∀ k radix name (c2 : char), peek2 l = Some c2 →
    k l = radix_int radix name (bump (bump l)) → returns k l token_read) as Hradix.
  { intros k radix name c2 H2 Hk. eapply (returns_pass (radix_int radix name));
      [exact Hk|by eapply bump2_reads|eapply returns_mono; [apply radix_int_returns|]|].
    - intros t k' Hk'. by split.
    - intros t' a [_ Ha]. by split. }
  assert (∀ a, next_is (peek2 l) a = true → ∃ c2, peek2 l = Some c2) as Hsome.
  { intros a H. destruct (peek2 l); [eauto|done]. }
  destruct (next_is (peek l) "0") eqn:E0.
  2:{ exact (returns_from decimal l [] l token_read number ltac:(unfold number; by rewrite E0) (reads_refl l)
        (decimal_returns l c Hc Hd)). }
  destruct (next_is (peek2 l) "x" || next_is (peek2 l) "X") eqn:E1.
  { assert (∃ c2, peek2 l = Some c2) as [c2 H2] by (apply orb_true_iff in E1 as [E|E]; by eapply Hsome).
    eapply (Hradix number 16%N "hexadecimal"%string c2 H2). unfold number. by rewrite E0, E1. }
  destruct (next_is (peek2 l) "b" || next_is (peek2 l) "B") eqn:E2.
  { assert (∃ c2, peek2 l = Some c2) as [c2 H2] by (apply orb_true_iff in E2 as [E|E]; by eapply Hsome).
    eapply (Hradix number 2%N "binary"%string c2 H2). unfold number. by rewrite E0, E1, E2. }
  exact (returns_from decimal l [] l token_read number ltac:(unfold number; by rewrite E0, E1, E2) (reads_refl l)
        (decimal_returns l c Hc Hd)).
Qed.

Lemma lifetime_returns l c : peek l = Some c → returns lifetime l token_read.
Proof.
  intros Hc. unfold lifetime. eapply returns_bind; [apply (returns_next _ (λ t _, t ≠ [])); [done|congruence]|].
  intros t o l1 _ Ht. cbn beta in Ht. eapply returns_bind; [by apply (returns_run_while _ _ (λ _ _, True))|].
  intros t1 b l2 _ _. apply returns_ret. split; [|done]. by intros [H _]%app_eq_nil.
Qed.

Lemma find_snd_Forall {A B} (p : A * B → bool) (P : B → Prop) l x :
  List.find p l = Some x → Forall P (snd <$> l) → P x.2.
Proof.
  intros [Hin _]%List.find_some H. rewrite list.Forall_forall in H. apply H, list_elem_of_fmap.
  exists x. split; [done|by apply list_elem_of_In].
Qed.

Lemma word_token_no_eof t : word_token t ≠ Tok.Eof.
Proof.
  unfold word_token. destruct (List.find _ keywords) as [k|] eqn:E; [|done].
  apply (find_snd_Forall _ (λ k, k ≠ Tok.Eof) _ _ E). by repeat constructor.
Qed.

Lemma ident_or_keyword_returns l c :
  peek l = Some c → is_word c = true → returns ident_or_keyword l token_read.
Proof.
  intros Hc Hw. unfold ident_or_keyword.
  eapply returns_bind; [by apply (run_while_first _ _ (λ t _, t ≠ []) c)|].
  intros t a l1 _ Ht. apply returns_ret. rewrite app_nil_r. split; [exact Ht|apply word_token_no_eof].
Qed.

Lemma operator_returns l c : peek l = Some c → returns operator l token_read.
Proof.
  intros Hc. unfold operator.
  eapply returns_bind; [apply (returns_next _ (λ t o, t = [c] ∧ o = Some c)); [|congruence]|].
  { intros d Hd. rewrite Hc in Hd. by injection Hd as ->. }
  intros t o l1 _ [-> ->]. eapply returns_bind; [by apply (returns_look _ _ (λ _ _, True))|].
  intros t1 two l2 _ _. assert (∀ k t2 l3, k ≠ Tok.Eof →
    returns (mret k) l3 (λ t' b, token_read ([c] ++ t1 ++ t2 ++ t') b)) as Hret.
  { intros k t2 l3 Hk. by apply returns_ret. }
  destruct (_ && _); [apply returns_err|]. destruct (_ && _).
  { eapply returns_bind; [by apply (returns_next _ (λ _ _, True))|]. intros t2 o l3 _ _.
    eapply returns_bind; [by apply (returns_look _ _ (λ _ _, True))|]. intros t3 three l4 _ _.
    destruct (next_is three "="); [|by apply returns_ret].
    eapply returns_bind; [by apply (returns_next _ (λ _ _, True))|]. intros t4 o' l5 _ _. by apply returns_ret. }
  destruct (List.find _ two_char_operators) as [p|] eqn:Ef.
  { eapply returns_bind; [by apply (returns_next _ (λ _ _, True))|]. intros t2 o l3 _ _.
    apply returns_ret. split; [done|]. apply (find_snd_Forall _ (λ k, k ≠ Tok.Eof) _ _ Ef). by repeat constructor. }
  destruct (eqc c "{"); [apply returns_err|].
  destruct (List.find _ one_char_operators) as [p|] eqn:Ef1; [|apply returns_err].
  apply returns_ret. split; [done|]. apply (find_snd_Forall _ (λ k, k ≠ Tok.Eof) _ _ Ef1). by repeat constructor.
Qed.

Lemma plain_token_returns l c dot : peek l = Some c → returns (plain_token c dot) l token_read.
Proof.
  intros Hc. unfold returns, plain_token. destruct (is_digit c) eqn:Ed.
  { destruct dot; [by eapply integer_index_returns|by eapply number_returns]. }
  destruct (is_alphabetic c || eqc c "_") eqn:Ew.
  { eapply ident_or_keyword_returns; [done|]. unfold is_word. by rewrite Ed. }
  destruct (_ && _); [by eapply lifetime_returns|by eapply operator_returns].
Qed.

(** ** Holes *)

Lemma fueled_returns {A} (loop : nat → Lex A) l (Q : text → A → Prop) :
  (∀ n, (length (rest l) < n)%nat → returns (loop n) l Q) → returns (fueled loop) l Q.
Proof. intros H. apply (H (S (length (rest l)))). lia. Qed.

(** The text collected in a hole is no longer than what was read for it. *)
Definition collects (t0 : text) (t t' : text) : Prop := (length t' <= length t0 + length t)%nat.

Lemma reads_shorter l t l' n :
  reads l t l' → t ≠ [] → (length (rest l) < S n)%nat → (length (rest l') < n)%nat.
Proof. intros H%reads_length Ht Hn. destruct t; [done|]. cbn in H. lia. Qed.

Lemma next_some l (Q : text → option char → Prop) :
  (∀ c, peek l = Some c → Q [c] (Some c)) → Q [] None → returns next l Q.
Proof. intros Hs Hn. by apply returns_next. Qed.

(** What [next] read. *)
Definition one_read (t : text) (o : option char) : Prop :=
  match o with Some c => t = [c] | None => t = [] end.

Lemma next_returns l : returns next l one_read.
Proof. by apply returns_next. Qed.

Lemma nested_string_returns n t0 l :
  (length (rest l) < n)%nat → returns (nested_string n t0) l (λ t t', collects t0 t t').
Proof.
  revert t0 l. induction n as [|n IH]; intros t0 l Hn; [lia|]. cbn [nested_string].
  eapply returns_bind; [apply next_returns|]. intros t o l1 Hr Ho. destruct o as [c|]; [|apply returns_err].
  cbn in Ho. subst t. pose proof (reads_shorter _ _ _ _ Hr ltac:(done) Hn) as Hlt.
  destruct (eqc c "\").
  { eapply returns_bind; [apply next_returns|]. intros t o l2 Hr2 Ho2. eapply returns_mono; [apply IH|].
    { apply reads_length in Hr2. lia. }
    unfold collects. intros t1 t2 H. rewrite !length_app in *. cbn in *. destruct o; cbn in *; subst t; cbn in *; lia. }
  destruct (c =? quote)%N.
  { apply returns_ret. unfold collects. rewrite !length_app. cbn. lia. }
  eapply returns_mono; [by apply IH|]. unfold collects. intros t1 t2 H. rewrite !length_app in *. cbn in *. lia.
Qed.

Lemma nested_escaped_returns n t0 l :
  (length (rest l) < n)%nat → returns (nested_escaped n t0) l (λ t t', collects t0 t t').
Proof.
  revert t0 l. induction n as [|n IH]; intros t0 l Hn; [lia|]. cbn [nested_escaped].
  eapply returns_bind; [apply next_returns|]. intros t o l1 Hr Ho. destruct o as [c|]; [|apply returns_err].
  cbn in Ho. subst t. pose proof (reads_shorter _ _ _ _ Hr ltac:(done) Hn) as Hlt.
  destruct (eqc c "\").
  { eapply returns_bind; [apply next_returns|]. intros t o l2 Hr2 Ho2. destruct o as [c2|]; [|apply returns_err].
    cbn in Ho2. subst t. destruct (c2 =? quote)%N.
    { apply returns_ret. unfold collects. rewrite !length_app. cbn. lia. }
    eapply returns_mono; [apply IH|].
    { apply reads_length in Hr2. lia. }
    unfold collects. intros t1 t2 H. rewrite !length_app in *. cbn in *. lia. }
  eapply returns_mono; [by apply IH|]. unfold collects. intros t1 t2 H. rewrite !length_app in *. cbn in *. lia.
Qed.

(** A hole that starts at [start] in a lexer with bound [bound]. *)
Definition hole_of (start : N * N) (bound : N) (room : nat) (s : InterpSource) : Prop :=
  start_line s = start.1 ∧ start_col s = start.2 ∧ (length (src s) < room)%nat ∧
  (1 <= close_line s ∧ close_line s <= bound ∧ 1 <= close_col s ∧ close_col s + 1 <= bound)%N.

Lemma interp_loop_returns n start depth t0 l :
  sane l → (length (rest l) < n)%nat →
  returns (interp_loop n start depth t0) l (λ t s, hole_of start (lim l) (length t0 + length t) s).
Proof.
  revert depth t0 l. induction n as [|n IH]; intros depth t0 l Hs Hn; [lia|]. cbn [interp_loop].
  eapply returns_bind; [by apply (returns_look _ _ (λ t a, t = [] ∧ a = (cur_line l, cur_col l)))|].
  intros t here l1 Hr1 [-> ->]. eapply returns_bind; [apply next_returns|].
  intros t o l2 Hr2 Ho. destruct o as [c|]; [|apply returns_err]. cbn in Ho. subst t.
  pose proof (reads_trans _ _ _ _ _ Hr1 Hr2) as Hr. cbn [app] in Hr |- *.
  pose proof (reads_shorter _ _ _ _ Hr ltac:(done) Hn) as Hlt.
  assert (∀ depth' t1 t2 l3, reads l2 t2 l3 → (length t1 <= length t0 + S (length t2))%nat →
    returns (interp_loop n start depth' t1) l3
      (λ t s, hole_of start (lim l) (length t0 + length (c :: t2 ++ t)) s)) as Hgo.
  { intros depth' t1 t2 l3 Hr3 Hlen. pose proof (reads_trans _ _ _ _ _ Hr Hr3) as Hr'.
    eapply returns_mono; [apply IH; [by eapply sane_reads|apply reads_length in Hr3; lia]|].
    intros t s (? & ? & Hl & ?). rewrite (lim_reads _ _ _ Hr') in *. split_and!; try done; [|lia..].
    cbn [length]. rewrite length_app. lia. }
  assert (∀ t1 depth', (length t1 <= length t0 + 1)%nat → returns (interp_loop n start depth' t1) l2
      (λ t s, hole_of start (lim l) (length t0 + length (c :: t)) s)) as Hgo0.
  { intros t1 depth' Hlen. apply (Hgo depth' t1 [] l2 (reads_refl l2)). cbn. lia. }
  assert (length (t0 ++ [c]) <= length t0 + 1)%nat as Hpush by (rewrite length_app; cbn; lia).
  destruct (eqc c "{"); [by apply Hgo0|]. destruct (eqc c "}") eqn:Eclose.
  { destruct (_ =? 0)%N; [|by apply Hgo0]. apply returns_ret. split_and!; try done; cbn; [lia|..].
    all: pose proof (position_bound l Hs) as Hp; pose proof (position_bound l2 (sane_reads _ _ _ Hr Hs)) as Hp2;
      pose proof (reads_position _ _ _ Hr) as Hpos; apply N.eqb_eq in Eclose; subst c; cbn in Hpos;
      unfold position, lim in *; injection Hpos as Hl Hc;
      rewrite (reads_before _ _ _ Hr), length_app, length_rev in Hp2; cbn in Hp2;
      pose proof (reads_length _ _ _ Hr) as Hrest; cbn in Hrest; lia. }
  destruct (c =? quote)%N.
  { eapply returns_bind; [apply fueled_returns; intros m Hm; by apply nested_string_returns|].
    intros t2 t1 l3 Hr3 Hc. apply (Hgo depth t1 t2 l3 Hr3). unfold collects in Hc.
    rewrite length_app in Hc. cbn in Hc. lia. }
  eapply returns_bind; [by apply (returns_look _ _ (λ t _, t = []))|]. intros t escaped l3 Hr3 ->.
  destruct escaped.
  - eapply returns_bind; [apply next_returns|]. intros t o l4 Hr4 Ho.
    eapply returns_bind; [apply fueled_returns; intros m Hm; by apply nested_escaped_returns|].
    intros t2 t1 l5 Hr5 Hc.
    pose proof (reads_trans _ _ _ _ _ Hr3 (reads_trans _ _ _ _ _ Hr4 Hr5)) as Hr'. cbn [app] in Hr'.
    eapply returns_mono; [apply (Hgo depth t1 _ l5 Hr')|].
    + unfold collects in Hc. rewrite length_app in Hc. cbn in Hc. rewrite length_app. lia.
    + intros t3 s. cbn beta. by rewrite <- app_assoc.
  - eapply returns_mono; [apply (Hgo depth (t0 ++ [c]) [] l3 Hr3); cbn; lia|done].
Qed.

Lemma interp_source_returns l :
  sane l → returns interp_source l (λ t s, hole_of (position l) (lim l) (length t) s).
Proof.
  intros Hs. unfold interp_source.
  eapply returns_bind; [by apply (returns_look _ _ (λ t a, t = [] ∧ a = position l))|].
  intros t start l1 Hr [-> ->]. apply fueled_returns. intros n Hn.
  eapply returns_mono; [apply interp_loop_returns; [by eapply sane_reads|done]|].
  intros t s. by rewrite (lim_reads _ _ _ Hr).
Qed.

(** ** Strings *)

(** What is assumed of the tokens of a hole shorter than [room]. *)
Definition hole_lexer (room : nat) (tokenize_hole : text → verdict (list Token)) : Prop :=
  ∀ s, (length s < room)%nat →
    match tokenize_hole s with
    | Good ts => Forall (placed (1 + N.of_nat (length s))) ts
    | Bad _ => True
    | Stuck => False
    end.

Lemma rebase_inner_bound sl sc il ic a b :
  (1 <= sl ∧ sl <= 1 + a → 1 <= sc ∧ sc <= 1 + a → 1 <= il ∧ il <= 1 + b → 1 <= ic ∧ ic <= 1 + b →
   let p := rebase_inner_position sl sc il ic in
   1 <= p.1 ∧ p.1 <= 1 + (a + b) ∧ 1 <= p.2 ∧ p.2 <= 1 + (a + b))%N.
Proof.
  intros [] [] [] []. unfold rebase_inner_position. destruct (N.eqb_spec il 1); cbn; lia.
Qed.

Lemma before_eof_fine bound ts :
  Forall (placed bound) ts → Forall (fine bound) (before_eof ts).
Proof.
  induction 1 as [|t ts Ht _ IH]; [constructor|]. cbn [before_eof].
  destruct (kind t) eqn:E; try (constructor; [split; [done|by rewrite E]|done]). constructor.
Qed.

Lemma rebase_fine l s t :
  sane l → start_line s = cur_line l → start_col s = cur_col l → (length (src s) < length (rest l))%nat →
  fine (1 + N.of_nat (length (src s))) t → fine (lim l) (rebase s t).
Proof.
  intros Hs Hl Hc Hlen [Ht Hk]. split; [|done]. pose proof (position_bound l Hs) as Hp. unfold placed in *.
  unfold rebase. rewrite Hl, Hc.
  pose proof (rebase_inner_bound (cur_line l) (cur_col l) (line t) (col t) (N.of_nat (length (before l)))
    (N.of_nat (length (src s)))) as H1.
  pose proof (rebase_inner_bound (cur_line l) (cur_col l) (end_line t) (end_col t) (N.of_nat (length (before l)))
    (N.of_nat (length (src s)))) as H2.
  cbv zeta in H1, H2. destruct H1 as (? & ? & ? & ?); [lia..|]. destruct H2 as (? & ? & ? & ?); [lia..|].
  unfold lim. cbn. lia.
Qed.

Lemma fine_point bound k a b :
  (1 <= a ∧ a <= bound ∧ 1 <= b ∧ b <= bound)%N → k ≠ Tok.Eof → fine bound (point k a b).
Proof. intros H Hk. split; [|done]. unfold placed, point. cbn. lia. Qed.

(** Synthetic tokens stand at positions of the source. *)
Ltac points := repeat first [apply Forall_nil_2 | apply Forall_cons_2; [apply fine_point; [lia|done]|]].

Section strings.
Context (tokenize_hole : text → verdict (list Token)) (fstring : bool) (ll lc : N) (bound : N).
Context (room : nat).
Hypothesis holes : hole_lexer room tokenize_hole.
Hypothesis literal_position : (1 <= ll ∧ ll <= bound ∧ 1 <= lc ∧ lc <= bound)%N.

Lemma emit_interpolation_returns p l :
  sane l → lim l = bound → (length (rest l) <= room)%nat → Forall (fine bound) (out p) →
  returns (emit_interpolation tokenize_hole ll lc p) l (λ _ p', Forall (fine bound) (out p')).
Proof using holes literal_position.
  intros Hs Hb Hroom Hout. unfold emit_interpolation.
  assert (1 <= cur_line l ∧ cur_line l <= bound ∧ 1 <= cur_col l ∧ cur_col l <= bound)%N as Hp.
  { pose proof (position_bound l Hs). rewrite <- Hb. unfold lim. lia. }
  eapply returns_bind; [apply (returns_look _ _ (λ t a, t = [] ∧ Forall (fine bound) a))|].
  { split; [done|]. unfold segment_tokens. destruct (interpolated p); points. }
  intros t segment l1 Hr1 [-> Hseg].
  eapply returns_bind; [apply interp_source_returns; by eapply sane_reads|].
  intros t s l2 Hr2 (Hl & Hc & Hlen & Hclose).
  assert (length t <= length (rest l))%nat as Ht.
  { pose proof (reads_length _ _ _ Hr1). pose proof (reads_length _ _ _ Hr2). cbn in *. lia. }
  pose proof (holes (src s) ltac:(lia)) as Hhole.
  destruct (tokenize_hole (src s)) as [ts|e|]; [|apply returns_throw|done].
  apply returns_ret. cbn [out]. rewrite (lim_reads _ _ _ Hr1), Hb in Hclose.
  pose proof (reads_position _ _ _ Hr1) as Hpos. cbn in Hpos. rewrite Hpos in Hl, Hc. cbn in Hl, Hc.
  rewrite !Forall_app. split_and!; [done|done|]. unfold hole_tokens. rewrite Hl, Hc. 
  rewrite !Forall_app. split_and!.
  - points.
  - apply list.Forall_forall. intros x (t0 & <- & Hin)%list_elem_of_In%List.in_map_iff. rewrite <- Hb.
    apply rebase_fine; [done|done|done|lia|]. apply before_eof_fine in Hhole.
    rewrite list.Forall_forall in Hhole. by apply Hhole, list_elem_of_In.
  - apply Forall_singleton. split; [|done]. unfold placed. cbn. lia.
Qed.

Lemma escape_sequence_returns m l : returns (escape_sequence m) l (λ _ _, True).
Proof using.
  unfold escape_sequence. eapply returns_bind; [apply next_returns|]. intros t o l1 _ _.
  eapply returns_bind; [by apply (returns_ok_or_err _ _ _ (λ _ _, True))|]. intros t1 c l2 _ _.
  by apply returns_ok_or_err.
Qed.

Lemma string_loop_returns n p l :
  sane l → lim l = bound → (length (rest l) <= room)%nat → Forall (fine bound) (out p) →
  (length (rest l) < n)%nat →
  returns (string_loop tokenize_hole fstring ll lc n p) l (λ _ ts, Forall (fine bound) ts).
Proof using holes literal_position.
  revert p l. induction n as [|n IH]; intros p l Hs Hb Hroom Hout Hn; [lia|]. cbn [string_loop].
  eapply returns_bind; [apply next_returns|]. intros t o l1 Hr1 Ho. destruct o as [c|]; [|apply returns_err].
  cbn in Ho. subst t. eapply returns_bind; [by apply (returns_look _ _ (λ t _, t = []))|].
  intros t after l2 Hr2 ->. pose proof (reads_trans _ _ _ _ _ Hr1 Hr2) as Hr. cbn [app] in Hr.
  pose proof (reads_shorter _ _ _ _ Hr ltac:(done) Hn) as Hlt.
  assert (∀ p' t' l', reads l2 t' l' → Forall (fine bound) (out p') →
    returns (string_loop tokenize_hole fstring ll lc n p') l' (λ _ ts, Forall (fine bound) ts)) as Hgo.
  { intros p' t' l' Hr' Hout'. pose proof (reads_trans _ _ _ _ _ Hr Hr') as Hr3.
    apply IH; [by eapply sane_reads|by rewrite (lim_reads _ _ _ Hr3)| |done|];
      apply reads_length in Hr', Hr3; lia. }
  assert (∀ p' t' l', reads l2 t' l' → Forall (fine bound) (out p') →
    returns (emit_interpolation tokenize_hole ll lc p' ≫= string_loop tokenize_hole fstring ll lc n) l'
      (λ _ ts, Forall (fine bound) ts)) as Hhole.
  { intros p' t' l' Hr' Hout'. pose proof (reads_trans _ _ _ _ _ Hr Hr') as Hr3.
    eapply returns_bind; [apply emit_interpolation_returns; [by eapply sane_reads|
      by rewrite (lim_reads _ _ _ Hr3)|apply reads_length in Hr3; lia|done]|].
    intros t2 p2 l3 Hr4 Hp2. eapply Hgo; [by eapply reads_trans|done]. }
  destruct (c =? quote)%N.
  { destruct (interpolated p); apply returns_ret; [apply Forall_app; split; [done|]|]; points. }
  destruct (eqc c "\").
  { eapply returns_bind; [apply escape_sequence_returns|]. intros t' d l3 Hr3 _. by eapply Hgo. }
  destruct (eqc c "{" && fstring).
  { destruct (next_is after "{"); [|by apply (Hhole _ _ _ (reads_refl l2))].
    eapply returns_bind; [apply next_returns|]. intros t' d l3 Hr3 _. by eapply Hgo. }
  destruct (eqc c "}" && fstring).
  { destruct (next_is after "}"); [|by apply (Hgo _ _ _ (reads_refl l2))].
    eapply returns_bind; [apply next_returns|]. intros t' d l3 Hr3 _. by eapply Hgo. }
  destruct (_ && _); [|by apply (Hgo _ _ _ (reads_refl l2))].
  eapply returns_bind; [apply next_returns|]. intros t' d l3 Hr3 _. by eapply Hhole.
Qed.

Lemma string_tokens_returns l c :
  peek l = Some c → sane l → lim l = bound → (length (rest l) <= S room)%nat →
  returns (string_tokens tokenize_hole fstring ll lc) l (λ t ts, t ≠ [] ∧ Forall (fine bound) ts).
Proof using holes literal_position.
  intros Hc Hs Hb Hroom. unfold string_tokens.
  eapply returns_bind; [apply (returns_next _ (λ t _, t ≠ [])); [done|congruence]|].
  intros t o l1 Hr Ht. cbn beta in Ht.
  apply fueled_returns. intros n Hn.
  eapply returns_mono; [apply string_loop_returns; [by eapply sane_reads|by rewrite (lim_reads _ _ _ Hr)| |
    constructor|done]|].
  { apply reads_length in Hr. destruct t; [done|]. cbn in Hr. lia. }
  intros t' ts Hts. split; [|done]. by intros [H _]%app_eq_nil.
Qed.
End strings.

(** ** Tagged literals *)

Lemma tag_loop_returns n parts holes spans t0 l :
  sane l → (length (rest l) < n)%nat → returns (tag_loop n parts holes spans t0) l (λ _ _, True).
Proof.
  revert parts holes spans t0 l. induction n as [|n IH]; intros parts holes spans t0 l Hs Hn; [lia|].
  cbn [tag_loop]. eapply returns_bind; [apply next_returns|]. intros t o l1 Hr1 Ho.
  destruct o as [c|]; [|apply returns_err]. cbn in Ho. subst t.
  eapply returns_bind; [by apply (returns_look _ _ (λ t _, t = []))|]. intros t after l2 Hr2 ->.
  pose proof (reads_trans _ _ _ _ _ Hr1 Hr2) as Hr. cbn [app] in Hr.
  pose proof (reads_shorter _ _ _ _ Hr ltac:(done) Hn) as Hlt.
  assert (∀ parts holes spans t1 t' l', reads l2 t' l' →
    returns (tag_loop n parts holes spans t1) l' (λ _ _, True)) as Hgo.
  { intros parts' holes' spans' t1 t' l' Hr'. pose proof (reads_trans _ _ _ _ _ Hr Hr') as Hr3.
    apply IH; [by eapply sane_reads|]. apply reads_length in Hr'. lia. }
  destruct (c =? quote)%N; [by apply returns_ret|]. destruct (eqc c "\").
  { eapply returns_bind; [apply escape_sequence_returns|]. intros t' d l3 Hr3 _. by eapply Hgo. }
  destruct (_ && _); [|by apply (Hgo _ _ _ _ _ _ (reads_refl l2))].
  eapply returns_bind; [apply next_returns|]. intros t' d l3 Hr3 _.
  eapply returns_bind; [apply interp_source_returns|].
  { eapply sane_reads; [exact Hr3|]. by eapply sane_reads. }
  intros t2 s l4 Hr4 _. eapply Hgo. by eapply reads_trans.
Qed.

Lemma tag_literal_returns l c :
  peek l = Some c → sane l → returns tag_literal l (λ t _, t ≠ []).
Proof.
  intros Hc Hs. unfold tag_literal.
  eapply returns_bind; [apply (returns_next _ (λ t _, t ≠ [])); [done|congruence]|].
  intros t o l1 Hr Ht. cbn beta in Ht. apply fueled_returns. intros n Hn.
  eapply returns_mono; [apply tag_loop_returns; [by eapply sane_reads|done]|].
  intros t' a _. by intros [H _]%app_eq_nil.
Qed.

(** ** The loop *)

Lemma walk_placed k s : placed (1 + N.of_nat (length s)) (point k (walk (1, 1) s).1 (walk (1, 1) s).2)%N.
Proof.
  pose proof (walk_bound s (1, 1)%N) as [H1 H2]. destruct (walk_positive s (1, 1)%N) as [H3 H4]; [cbn; lia..|].
  unfold placed, point. cbn [line col end_line end_col fst snd] in *. lia.
Qed.

Lemma fine_placed bound ts : Forall (fine bound) ts → Forall (placed bound) ts.
Proof. induction 1 as [|t ts [Ht _] _ IH]; by constructor. Qed.

Lemma fine_kinds bound ts : Forall (fine bound) ts → Forall (λ t, kind t ≠ Tok.Eof) ts.
Proof. induction 1 as [|t ts [_ Ht] _ IH]; by constructor. Qed.


Lemma end_last_fine bound ts a b :
  Forall (fine bound) ts → (1 <= a ∧ a <= bound ∧ 1 <= b ∧ b <= bound)%N →
  Forall (fine bound) (end_last a b ts).
Proof.
  intros H Hp. induction H as [|t ts [Ht Hk] Hts IH]; [constructor|]. cbn [end_last]. destruct ts as [|t2 ts].
  - apply Forall_singleton. split; [|done]. unfold placed in *. cbn. lia.
  - by constructor.
Qed.

Lemma tag_of_last ts t tag : tag_of ts = Some (t, tag) → ∃ before, ts = before ++ [t].
Proof.
  unfold tag_of, last_token. destruct (List.rev ts) as [|t' r] eqn:E; [done|]. cbn.
  intros H. exists (List.rev r). rewrite <- (List.rev_involutive ts), E. cbn.
  destruct (kind t'); try done. by injection H as -> _.
Qed.

Lemma round_returns tokenize_hole adjacent ts c l :
  peek l = Some c → sane l → hole_lexer (length (rest l)) tokenize_hole → Forall (fine (lim l)) ts →
  returns (round tokenize_hole adjacent ts c) l (λ t ts', t ≠ [] ∧ Forall (fine (lim l)) ts').
Proof.
  intros Hc Hs Hhole Hts. unfold returns, round.
  assert (∀ l' t, reads l t l' →
    (1 <= cur_line l' ∧ cur_line l' <= lim l ∧ 1 <= cur_col l' ∧ cur_col l' <= lim l)%N) as Hpos.
  { intros l' t Hr. pose proof (position_bound l' (sane_reads _ _ _ Hr Hs)). rewrite <- (lim_reads _ _ _ Hr).
    unfold lim. lia. }
  pose proof (Hpos l [] (reads_refl l)) as Hp0.
  assert (∀ (fstring : bool) l1 t1, reads l t1 l1 → (∃ c1, peek l1 = Some c1) →
    returns (pieces ← string_tokens tokenize_hole fstring (cur_line l) (cur_col l);
             pieces ← end_last_here pieces; mret (ts ++ pieces)) l1
      (λ t ts', t ≠ [] ∧ Forall (fine (lim l)) ts')) as Hstring.
  { intros fstring l1 t1 Hr1 [c1 Hc1].
    eapply returns_bind; [eapply (string_tokens_returns _ _ _ _ (lim l) (length (rest l)));
      [done|done|done|by eapply sane_reads|by apply (lim_reads _ _ _ Hr1)|apply reads_length in Hr1; lia]|].
    intros t pieces l2 Hr2 [Ht Hpieces].
    eapply returns_bind; [apply (returns_look _ _ (λ t a, t = [] ∧ Forall (fine (lim l)) a))|].
    { split; [done|]. apply end_last_fine; [done|]. eapply Hpos. by eapply reads_trans. }
    intros t2 pieces2 l3 Hr3 [-> Hp2]. apply returns_ret. rewrite !app_nil_r. split; [done|].
    by apply Forall_app. }
  destruct (if (c =? quote)%N && adjacent then tag_of ts else None) as [[t0 tag]|] eqn:Etag.
  - assert (∃ b, ts = b ++ [t0]) as [b ->].
    { destruct (_ && _); [|done]. by eapply tag_of_last. }
    apply Forall_app in Hts as [Hb Ht0]. rewrite Forall_singleton in Ht0.
    apply (returns_bind tag_literal _ l (λ t _, t ≠ [])); [by eapply tag_literal_returns|].
    intros t lit l1 Hr1 Ht.
    eapply returns_bind; [apply (returns_look _ _ (λ t a, t = [] ∧ fine (lim l) a))|].
    { split; [done|]. split; [|done]. pose proof (Hpos _ _ Hr1). destruct Ht0 as [Ht0 _].
      unfold placed in *. cbn. lia. }
    intros t2 tok l2 _ [-> Htok]. apply returns_ret. rewrite !app_nil_r. split; [done|].
    rewrite removelast_last. apply Forall_app. split; [done|by apply Forall_singleton].
  - destruct (c =? quote)%N; [by apply (Hstring false l [] (reads_refl l)); exists c|].
    destruct (eqc c "f" && _) eqn:Ef.
    + destruct (Hstring true (bump l) [c] (bump_reads _ _ Hc)) as (t & l' & v & Hm & Hr & Hv).
      { apply andb_true_iff in Ef as [_ Ef]. destruct (peek2 l) as [q|] eqn:E2; [|done]. exists q.
        pose proof (reads_rest _ _ _ (bump_reads _ _ Hc)) as H. unfold peek, peek2 in *. by rewrite H in E2. }
      exists (c :: t), l', v.
      split_and!; [exact Hm|exact (reads_trans _ _ _ _ _ (bump_reads _ _ Hc) Hr)|].
      destruct v; [|done..]. destruct Hv. by split.
    + apply (returns_bind (plain_token c (after_dot ts)) _ l token_read); [by apply plain_token_returns|].
      intros t k l1 Hr1 [Ht Hk].
      eapply returns_bind; [apply (returns_look _ _ (λ t a, t = [] ∧ fine (lim l) a))|].
      { split; [done|]. split; [|done]. pose proof (Hpos _ _ Hr1). unfold placed. cbn. lia. }
      intros t2 tok l2 _ [-> Htok]. apply returns_ret. rewrite !app_nil_r. split; [done|].
      apply Forall_app. split; [done|by apply Forall_singleton].
Qed.

(** The whole stream: everything is read, and [Eof] stands at the end. *)
Definition streams (l : Lexer) (t : text) (ts : list Token) : Prop :=
  t = rest l ∧ ∃ body, ts = body ++ [point Tok.Eof (walk (position l) t).1 (walk (position l) t).2] ∧
    Forall (fine (lim l)) body.

Lemma tokenize_loop_returns n ts l :
  sane l → (length (rest l) < n)%nat → Forall (fine (lim l)) ts →
  returns (tokenize_loop n ts) l (streams l).
Proof.
  revert ts l. induction n as [|n IH]; intros ts l Hs Hn Hts; [lia|]. cbn [tokenize_loop].
  eapply returns_bind; [by apply (returns_look _ _ (λ t _, t = []))|]. intros t0 b l0 Hr0 ->.
  eapply returns_bind; [apply skip_trivia_returns|]. intros t1 u l1 Hr1 _.
  eapply returns_bind; [by apply (returns_look _ _ (λ t a, t = [] ∧ a = peek l1))|].
  intros t2 o l2 Hr2 [-> ->].
  pose proof (reads_trans _ _ _ _ _ Hr0 (reads_trans _ _ _ _ _ Hr1 Hr2)) as Hr. cbn [app] in Hr.
  rewrite app_nil_r in Hr.
  assert (peek l1 = peek l2) as ->.
  { unfold peek. by rewrite (reads_rest _ _ _ Hr2). }
  destruct (peek l2) as [c|] eqn:Ep.
  - eapply returns_bind; [by apply (returns_look _ _ (λ t _, t = []))|]. intros t3 adjacent l3 Hr3 ->.
    assert (reads l t1 l3) as Hr'.
    { rewrite <- (app_nil_r t1). by eapply reads_trans. }
    assert (peek l3 = Some c) as Hc. { unfold peek in *. by rewrite (reads_rest _ _ _ Hr3) in Ep. }
    assert (length (rest l3) <= length (rest l))%nat as Hle by (apply reads_length in Hr'; lia).
    eapply returns_bind; [apply round_returns; [exact Hc|by eapply sane_reads| |
      by rewrite (lim_reads _ _ _ Hr')]|].
    { intros s Hlen. pose proof (IH [] (new s) (sane_new s) ltac:(cbn; lia) ltac:(constructor))
        as (t' & l' & v & -> & _ & Hv). cbn. destruct v as [ts'|e|]; [|done|done].
      destruct Hv as (-> & body & -> & Hbody). apply Forall_app. split.
      - by apply fine_placed.
      - apply Forall_singleton, walk_placed. }
    intros t4 ts' l4 Hr4 [Ht4 Hts']. pose proof (reads_trans _ _ _ _ _ Hr' Hr4) as Hr5.
    eapply returns_mono; [apply IH; [by eapply sane_reads| |by rewrite (lim_reads _ _ _ Hr5), <- (lim_reads _ _ _ Hr')]|].
    { apply reads_length in Hr4. destruct t4; [done|]. cbn in Hr4. lia. }
    intros t ts2 (-> & body & -> & Hbody). cbn [app]. split.
    + rewrite (reads_rest _ _ _ Hr5), <- app_assoc. done.
    + exists body. split; [|by rewrite (lim_reads _ _ _ Hr5) in Hbody].
      by rewrite (reads_position _ _ _ Hr5), <- walk_app, <- app_assoc.
  - apply returns_look. cbn [app]. rewrite !app_nil_r. assert (rest l2 = []) as E.
    { unfold peek in Ep. by destruct (rest l2). }
    split.
    + by rewrite (reads_rest _ _ _ Hr), E, app_nil_r.
    + exists ts. split; [|done]. by rewrite <- (reads_position _ _ _ Hr).
Qed.

(** * Property *)

(** C25: The lexer answers every source: it never panics and never runs out of
    rounds, also in the holes of interpolated strings.  A stream of tokens
    ends in its only [Eof], at the position of the end of the source, and no
    line or column of a token exceeds one more than the number of characters,
    so the 32-bit counters do not overflow on sources below 2^32 - 1. *)
Theorem tokenize_total source :
  match tokenize source with
  | Good ts => ∃ body, ts = body ++ [point Tok.Eof (walk (1, 1) source).1 (walk (1, 1) source).2]%N ∧
      Forall (λ t, kind t ≠ Tok.Eof) body ∧
      Forall (placed (1 + N.of_nat (length source))) ts
  | Bad _ => True
  | Stuck => False
  end.
Proof.
  unfold tokenize.
  destruct (tokenize_loop_returns (S (length source)) [] (new source) (sane_new source)) as (t & l' & v & -> & _ & Hv);
    [cbn; lia|constructor|]. cbn [snd]. destruct v as [ts|e|]; [|done|done].
  destruct Hv as (-> & body & -> & Hbody). exists body. split; [done|]. split.
  - by eapply fine_kinds.
  - apply Forall_app. split; [by apply fine_placed|]. apply Forall_singleton, walk_placed.
Qed.
