(* ===== verification/Spelling.v ===== *)
(** * Spelling: printed tokens lex back

    Models the fixed texts in the [Display] of tokens ([lexer.rs]) and the
    literals that the formatter prints ([string_lit], [interp_segment],
    [tagged_part], [duration_literal] and the tagged-literal arm of [expr] in
    [format.rs]), and relates them to the lexer.  [spell] writes any token
    with them, as it stands in a source; it is no function of the code (the
    [Display] of strings, durations and tagged literals is for messages and
    differs).  A sequence of tokens so written, each after a space, is lexed
    to the same tokens, and a printed interpolation to the tokens it stands
    for. *)

From S2P Require Import Prelude Lexer LexerTotal.

Local Open Scope list_scope.

(** * Definitions *)

(** ** Literals of the formatter *)

Definition escape_char (c : char) : text :=
  if (c =? quote)%N then [chr "\"; quote]
  else if eqc c "\" then [chr "\"; chr "\"]
  else if (c =? 10)%N then [chr "\"; chr "n"]
  else if (c =? 9)%N then [chr "\"; chr "t"]
  else if (c =? 13)%N then [chr "\"; chr "r"]
  else if (c =? 0)%N then [chr "\"; chr "0"]
  else if eqc c "$" then [chr "\"; chr "$"]
  else [c].

Definition interp_segment (v : text) : text := List.flat_map escape_char v.

Definition string_lit (v : text) : text := quote :: interp_segment v ++ [quote].

(** A dollar is escaped only before a brace. *)
Fixpoint tagged_part (v : text) : text :=
  match v with
  | [] => []
  | c :: v =>
      (if eqc c "$" then if next_is (head v) "{" then [chr "\"; c] else [c] else escape_char c)
      ++ tagged_part v
  end.

(** The arm [Expr::TaggedLit] of [expr], the holes printed. *)
Fixpoint tagged_parts (parts holes : list text) : text :=
  match parts with
  | [] => []
  | part :: parts =>
      tagged_part part ++
      match holes with
      | hole :: holes => chr "$" :: chr "{" :: hole ++ chr "}" :: tagged_parts parts holes
      | [] => tagged_parts parts []
      end
  end.

Definition tagged_lit (tag : text) (parts holes : list text) : text :=
  tag ++ quote :: tagged_parts parts holes ++ [quote].

(** The literal that [interpolation_sugar] prints from its alternating
    pieces: a segment, and a printed expression with the next segment. *)
Definition interpolated_lit (first : text) (pieces : list (text * text)) : text :=
  quote :: interp_segment first ++
  List.flat_map (λ p, chr "$" :: chr "{" :: fst p ++ chr "}" :: interp_segment (snd p)) pieces ++ [quote].

(** ** Numbers *)

Fixpoint decimal_digits (n : nat) (v : N) (t : text) : text :=
  match n with
  | O => t
  | S n =>
      let t := (48 + v mod 10)%N :: t in
      if (v <? 10)%N then t else decimal_digits n (v / 10) t
  end.

(** A number has at most as many digits as bits. *)
Definition decimal_text (v : N) : text := decimal_digits (S (N.to_nat (N.log2 v))) v [].

Definition int_text (v : Z) : text :=
  if (v <? 0)%Z then chr "-" :: decimal_text (Z.to_N (- v)) else decimal_text (Z.to_N v).

Definition duration_units : list (Z * string) :=
  [(604800000, "w"%string); (86400000, "d"%string); (3600000, "h"%string); (60000, "m"%string);
   (1000, "s"%string)]%Z.

Definition duration_literal (ms : Z) : text :=
  match List.find (λ u, negb (ms =? 0)%Z && (Z.rem ms (fst u) =? 0)%Z) duration_units with
  | Some u => int_text (Z.quot ms (fst u)) ++ chars (snd u)
  | None => int_text ms ++ chars "ms"
  end.

(** ** Tokens *)

(** The tokens whose text does not depend on the source. *)
Definition fixed_text (k : Tok) : option string :=
  (match k with
   | Tok.Fn => Some "fn" | Tok.Gen => Some "gen" | Tok.Yield => Some "yield" | Tok.Async => Some "async"
   | Tok.Await => Some "await" | Tok.Let => Some "let" | Tok.Var => Some "var" | Tok.Match => Some "match"
   | Tok.Pub => Some "pub" | Tok.If => Some "if" | Tok.Else => Some "else" | Tok.True => Some "true"
   | Tok.False => Some "false" | Tok.Type_ => Some "type" | Tok.Own => Some "own" | Tok.Move => Some "move"
   | Tok.Import => Some "import" | Tok.While => Some "while" | Tok.For => Some "for" | Tok.In => Some "in"
   | Tok.Return => Some "return" | Tok.Break => Some "break" | Tok.Continue => Some "continue"
   | Tok.Trait => Some "trait" | Tok.Impl => Some "impl" | Tok.Where => Some "where" | Tok.As => Some "as"
   | Tok.Region => Some "region" | Tok.Comptime => Some "comptime" | Tok.Capability => Some "capability"
   | Tok.LParen => Some "(" | Tok.RParen => Some ")" | Tok.InterpRBrace => Some "}"
   | Tok.QuoteHoleStart => Some "${" | Tok.LBrace => Some "{" | Tok.RBrace => Some "}"
   | Tok.DotLBrace => Some ".{" | Tok.DotLBracket => Some ".[" | Tok.LBracket => Some "["
   | Tok.RBracket => Some "]" | Tok.Comma => Some "," | Tok.Colon => Some ":" | Tok.Dot => Some "."
   | Tok.DotDot => Some ".." | Tok.DotDotEq => Some "..=" | Tok.Underscore => Some "_" | Tok.At => Some "@"
   | Tok.Eq => Some "=" | Tok.EqEq => Some "==" | Tok.NotEq => Some "!=" | Tok.Lt => Some "<"
   | Tok.Gt => Some ">" | Tok.LtEq => Some "<=" | Tok.GtEq => Some ">=" | Tok.Plus => Some "+"
   | Tok.Minus => Some "-" | Tok.Star => Some "*" | Tok.Slash => Some "/" | Tok.Percent => Some "%"
   | Tok.Bar => Some "|" | Tok.PlusEq => Some "+=" | Tok.MinusEq => Some "-=" | Tok.StarEq => Some "*="
   | Tok.SlashEq => Some "/=" | Tok.PercentEq => Some "%=" | Tok.Amp => Some "&" | Tok.Caret => Some "^"
   | Tok.Tilde => Some "~" | Tok.Shl => Some "<<" | Tok.Shr => Some ">>" | Tok.LArrow => Some "<-"
   | Tok.RArrow => Some "->" | Tok.AndAnd => Some "&&" | Tok.OrOr => Some "||" | Tok.Bang => Some "!"
   | Tok.Question => Some "?" | Tok.QuestionQuestion => Some "??"
   | _ => None
   end)%string.

(** A token as it stands in a source: the fixed texts, and literals as the
    formatter prints them.  Not a function of the code. *)
Definition spell (k : Tok) : text :=
  match k with
  | Tok.Int n => int_text n
  | Tok.Float digits => digits
  | Tok.Duration ms => duration_literal ms
  | Tok.Str s => string_lit s
  | Tok.Ident s => s
  | Tok.Lifetime name => chr "'" :: name
  | Tok.TagLit tag parts holes _ => tagged_lit tag parts holes
  | k => match fixed_text k with Some s => chars s | None => [] end
  end.

(** ** What can be spelled *)

Definition word (t : text) : bool :=
  match t with
  | c :: _ => negb (is_digit c) && forallb is_word t
  | [] => false
  end.

Definition identifier (t : text) : bool :=
  word t && negb (existsb (λ k, bool_decide (t = chars (fst k))) keywords).

(** A hole that ends at the brace after it: braces and strings are closed in
    it, and no quote is escaped outside of a string. *)
Inductive hole_mode : Set := HoleCode | HoleString | HoleEscape.

Fixpoint hole_closed (mode : hole_mode) (depth : N) (t : text) : bool :=
  match t with
  | [] => match mode with HoleCode => (depth =? 1)%N | _ => false end
  | c :: t =>
      match mode with
      | HoleCode =>
          if eqc c "{" then hole_closed HoleCode (depth + 1) t
          else if eqc c "}" then (1 <? depth)%N && hole_closed HoleCode (depth - 1) t
          else if (c =? quote)%N then hole_closed HoleString depth t
          else negb (eqc c "\") && hole_closed HoleCode depth t
      | HoleString =>
          if eqc c "\" then hole_closed HoleEscape depth t
          else if (c =? quote)%N then hole_closed HoleCode depth t
          else hole_closed HoleString depth t
      | HoleEscape => hole_closed HoleString depth t
      end
  end.

Definition hole_text (t : text) : bool := hole_closed HoleCode 1 t.

Definition i64_literal (n : Z) : bool := (0 <=? n)%Z && (n <? 2 ^ 63)%Z.

Definition spellable (k : Tok) : bool :=
  match k with
  | Tok.Int n | Tok.Duration n => i64_literal n
  | Tok.Float _ => false
  | Tok.Str _ => true
  | Tok.Ident s => identifier s
  | Tok.Lifetime name => word name
  | Tok.TagLit tag parts holes _ =>
      identifier tag && negb (bool_decide (tag = chars "f")) &&
      (length parts =? S (length holes))%nat && forallb hole_text holes
  | Tok.InterpRBrace | Tok.LBrace | Tok.Eof => false
  | _ => true
  end.

(** No duration directly after a dot, where digits are an element index. *)
Fixpoint dot_safe (ts : list Tok) : bool :=
  match ts with
  | Tok.Dot :: ((Tok.Duration _ :: _) as ts) => false
  | _ :: ts => dot_safe ts
  | [] => true
  end.

Definition space : char := 32.

Definition spell_all (ts : list Tok) : text := List.flat_map (λ k, space :: spell k) ts.

(** Where the holes of a literal are is not spelled. *)
Definition forget_spans (k : Tok) : Tok :=
  match k with Tok.TagLit tag parts holes _ => Tok.TagLit tag parts holes [] | k => k end.

(** * Running the lexer on a known text *)

(** The text after a token. *)
Definition boundary (more : text) : Prop := match more with c :: _ => c = space | [] => True end.

Lemma bump_rest l c t : rest l = c :: t → rest (bump l) = t.
Proof. intros E. unfold bump. by rewrite E. Qed.

Lemma peek_rest l c t : rest l = c :: t → peek l = Some c.
Proof. intros E. unfold peek. by rewrite E. Qed.

Lemma bump_while_exact p t more l :
  rest l = t ++ more → forallb p t = true → match more with c :: _ => p c = false | [] => True end →
  ∃ l', bump_while p l = (t, l') ∧ rest l' = more.
Proof.
  intros E Hp Hm. unfold bump_while. rewrite E. revert l E. induction t as [|c t IH]; intros l E.
  - exists l. split; [|done]. destruct more as [|c more]; [done|]. cbn [app bump_while_from]. by rewrite Hm.
  - cbn in Hp. apply andb_true_iff in Hp as [Hc Hp]. cbn [app bump_while_from]. rewrite Hc.
    destruct (IH Hp (bump l)) as (l' & -> & Hl'); [by eapply bump_rest|]. by exists l'.
Qed.

Lemma run_while_exact p t more l :
  rest l = t ++ more → forallb p t = true → match more with c :: _ => p c = false | [] => True end →
  ∃ l', run_while p l = (l', Good t) ∧ rest l' = more.
Proof.
  intros E Hp Hm. destruct (bump_while_exact p t more l E Hp Hm) as (l' & Hw & Hl'). exists l'.
  unfold run_while. by rewrite Hw.
Qed.

Lemma run_while_moves p l t l' : run_while p l = (l', Good t) → reads l t l'.
Proof.
  unfold run_while. destruct (bump_while_reads p l) as (t0 & l0 & -> & Hr & _). by intros [= -> ->].
Qed.

Lemma boundary_stop p more :
  boundary more → p space = false → match more with c :: _ => p c = false | [] => True end.
Proof. destruct more as [|c more]; [done|]. by intros ->. Qed.

Lemma next_exact l c t : rest l = c :: t → next l = (bump l, Good (Some c)).
Proof. intros E. unfold next. by rewrite (peek_rest _ _ _ E). Qed.

(** A method's first step is known. *)
Lemma bind_good {A B} (m : Lex A) (f : A → Lex B) l l' a :
  m l = (l', Good a) → (m ≫= f) l = f a l'.
Proof. intros H. unfold mbind, Lex_bind. by rewrite H. Qed.

(** ** Digits *)

Lemma digit_char d : (d < 10)%N → is_digit (48 + d) = true ∧ digit_value 10 (48 + d) = Some d.
Proof.
  intros Hd. assert (is_digit (48 + d) = true) as H.
  { unfold is_digit, between. apply andb_true_iff. split; apply N.leb_le; lia. }
  split; [done|]. unfold digit_value. rewrite H. cbn [mbind option_bind].
  replace (48 + d - 48)%N with d by lia. by rewrite (proj2 (N.ltb_lt _ _) Hd).
Qed.

Lemma decimal_digits_value n v t :
  (v < 10 ^ N.of_nat n)%N → (0 < n)%nat →
  List.fold_left (λ v c, (v * 10 + default 0 (digit_value 10 c))%N) (decimal_digits n v t) 0%N =
  List.fold_left (λ v c, (v * 10 + default 0 (digit_value 10 c))%N) t v.
Proof.
  revert v t. induction n as [|n IH]; intros v t Hv Hn; [lia|]. cbn [decimal_digits].
  assert (digit_value 10 (48 + v mod 10) = Some (v mod 10)%N) as Hd.
  { apply digit_char. by apply N.mod_lt. }
  destruct (N.ltb_spec v 10) as [Hlt|Hge].
  - cbn [List.fold_left]. rewrite Hd. cbn [default from_option id]. f_equal. rewrite N.mod_small by done. lia.
  - rewrite IH.
    + cbn [List.fold_left]. rewrite Hd. cbn [default from_option id]. f_equal.
      pose proof (N.div_mod v 10 ltac:(done)). lia.
    + apply N.Div0.div_lt_upper_bound. rewrite Nat2N.inj_succ, N.pow_succ_r' in Hv. done.
    + destruct n; [|lia]. cbn in Hv. lia.
Qed.

Lemma decimal_bound v : (v < 10 ^ N.of_nat (S (N.to_nat (N.log2 v))))%N.
Proof.
  rewrite Nat2N.inj_succ, N2Nat.id. destruct (decide (v = 0)%N) as [->|Hv]; [done|].
  pose proof (N.log2_spec v ltac:(lia)) as [_ H]. eapply N.lt_le_trans; [exact H|].
  apply N.pow_le_mono_l. lia.
Qed.

Lemma decimal_text_value v : digits_value 10 (decimal_text v) = v.
Proof.
  unfold digits_value, decimal_text. rewrite decimal_digits_value; [done|apply decimal_bound|lia].
Qed.

Lemma decimal_digits_all n v t : forallb is_digit t = true → forallb is_digit (decimal_digits n v t) = true.
Proof.
  revert v t. induction n as [|n IH]; intros v t Ht; [done|]. cbn [decimal_digits].
  assert (forallb is_digit ((48 + v mod 10)%N :: t) = true) as H.
  { cbn. rewrite Ht, andb_true_r. apply digit_char. by apply N.mod_lt. }
  destruct (v <? 10)%N; [done|by apply IH].
Qed.

Lemma decimal_text_all v : forallb is_digit (decimal_text v) = true.
Proof. by apply decimal_digits_all. Qed.

Lemma decimal_digits_nonempty n v t : t ≠ [] → decimal_digits n v t ≠ [].
Proof.
  revert v t. induction n as [|n IH]; intros v t Ht; [done|]. cbn [decimal_digits].
  destruct (v <? 10)%N; [done|by apply IH].
Qed.

Lemma decimal_text_nonempty v : decimal_text v ≠ [].
Proof.
  unfold decimal_text. cbn [decimal_digits]. destruct (v <? 10)%N; [done|by apply decimal_digits_nonempty].
Qed.

Lemma int_text_i64 n : i64_literal n = true →
  forallb is_digit (int_text n) = true ∧ (∃ c t, int_text n = c :: t) ∧ parse_i64 10 (int_text n) = Some n.
Proof.
  unfold i64_literal. intros [H0%Z.leb_le H1%Z.ltb_lt]%andb_true_iff. unfold int_text.
  rewrite (proj2 (Z.ltb_ge n 0)) by done. split_and!; [apply decimal_text_all| |].
  - pose proof (decimal_text_nonempty (Z.to_N n)). destruct (decimal_text _); [done|eauto].
  - unfold parse_i64. pose proof (decimal_text_nonempty (Z.to_N n)).
    destruct (decimal_text (Z.to_N n)) as [|c t] eqn:E; [done|]. rewrite <- E, decimal_text_value.
    rewrite (proj2 (N.leb_le _ _)); [f_equal; lia|]. unfold i64_max. lia.
Qed.

Lemma filter_digits t : forallb is_digit t = true → List.filter (λ c, negb (eqc c "_")) t = t.
Proof.
  induction t as [|c t IH]; [done|]. cbn. intros [Hc Ht]%andb_true_iff.
  rewrite IH by done. unfold eqc. destruct (N.eqb_spec c (chr "_")) as [->|]; done.
Qed.

Lemma forallb_impl {A} (p q : A → bool) l :
  (∀ x, p x = true → q x = true) → forallb p l = true → forallb q l = true.
Proof. intros H. rewrite !List.forallb_forall. auto. Qed.

(** Digits are read as a number when no letter of a radix follows them. *)
Lemma number_decimal digits more l :
  rest l = digits ++ more → forallb is_digit digits = true → digits ≠ [] →
  match more with
  | c :: _ => is_digit c = false ∧ eqc c "x" = false ∧ eqc c "X" = false ∧ eqc c "b" = false ∧
      eqc c "B" = false
  | [] => True
  end → number l = decimal l.
Proof.
  intros E Hd Hne Hm. unfold number. destruct (next_is (peek l) "0"); [|done].
  assert (∀ a, (∀ c, is_digit c = true → eqc c a = false) →
    match more with c :: _ => eqc c a = false | [] => True end → next_is (peek2 l) a = false) as Hno.
  { intros a Ha Hma. unfold peek2. rewrite E. destruct digits as [|c [|c2 digits]]; [done| |].
    - destruct more; [done|]. cbn. done.
    - cbn in Hd |- *. apply Ha. by apply andb_true_iff in Hd as [_ [? _]%andb_true_iff]. }
  assert (∀ a, is_digit (chr a) = false → ∀ c, is_digit c = true → eqc c a = false) as Hdig.
  { intros a Ha c Hc. unfold eqc. destruct (N.eqb_spec c (chr a)) as [->|]; [congruence|done]. }
  rewrite !Hno; [done|by apply Hdig|..]; try (by apply Hdig); destruct more; intuition.
Qed.

Lemma decimal_exact digits suffix more l :
  rest l = digits ++ suffix ++ more → forallb is_digit digits = true → digits ≠ [] →
  forallb is_alphabetic suffix = true → boundary more →
  ∃ l1, reads l digits l1 ∧ rest l1 = suffix ++ more ∧ decimal l =
    (value ← ok_or_err (parse_integer digits) (InvalidInteger digits); duration_or_int digits value) l1.
Proof.
  intros E Hd Hne Hs Hb.
  assert (match suffix ++ more with c :: _ => is_digit c || eqc c "_" = false | [] => True end) as Hstop.
  { destruct suffix as [|c suffix]; [by apply (boundary_stop (λ c, is_digit c || eqc c "_"))|].
    cbn in Hs |- *. apply andb_true_iff in Hs as [Hc _]. clear -Hc.
    unfold is_alphabetic, is_digit, eqc, between in *. apply orb_true_iff in Hc. apply orb_false_iff.
    rewrite !andb_true_iff, !N.leb_le in Hc. split; [apply andb_false_iff; rewrite !N.leb_gt; lia|].
    apply N.eqb_neq. cbn. lia. }
  destruct (run_while_exact (λ c, is_digit c || eqc c "_") digits (suffix ++ more) l E) as (l1 & Hw & E1).
  { eapply forallb_impl; [|exact Hd]. by intros c ->. }
  { exact Hstop. }
  exists l1. split; [by eapply run_while_moves|]. split; [done|]. unfold decimal. rewrite (bind_good _ _ _ _ _ Hw). cbv zeta.
  rewrite filter_digits by done. erewrite bind_good by reflexivity.
  assert (next_is (peek l1) "." = false) as ->; [|done].
  unfold peek. rewrite E1. destruct suffix as [|c suffix]; cbn.
  - destruct more as [|c more]; [done|]. cbn in Hb. by subst c.
  - cbn in Hs. apply andb_true_iff in Hs as [Hc _]. unfold eqc. apply N.eqb_neq. intros ->. done.
Qed.

Lemma int_exact n dot c t more l :
  i64_literal n = true → int_text n = c :: t → rest l = int_text n ++ more → boundary more →
  ∃ l', plain_token c dot l = (l', Good (Tok.Int n)) ∧ rest l' = more.
Proof.
  intros Hn Et E Hb. destruct (int_text_i64 n Hn) as (Hd & _ & Hp).
  assert (is_digit c = true) as Hc.
  { rewrite Et in Hd. cbn in Hd. by apply andb_true_iff in Hd as [? _]. }
  unfold plain_token. rewrite Hc. destruct dot.
  - destruct (run_while_exact is_digit (int_text n) more l E Hd) as (l1 & Hw & E1).
    { by apply boundary_stop. }
    exists l1. split; [|done]. unfold integer_index. rewrite (bind_good _ _ _ _ _ Hw), Hp. done.
  - rewrite (number_decimal (int_text n) more l E Hd);
      [|by rewrite Et|destruct more; [done|]; cbn in Hb; by subst].
    destruct (decimal_exact (int_text n) [] more l E Hd) as (l1 & _ & E1 & ->); [by rewrite Et|done|done|].
    exists l1. split; [|done]. unfold parse_integer. rewrite Hp.
    erewrite bind_good by reflexivity. unfold duration_or_int.
    destruct (bump_while_exact is_alphabetic [] more l1 E1) as (l2 & -> & E2); [done|by apply boundary_stop|].
    done.
Qed.

Lemma duration_parts ms : i64_literal ms = true →
  ∃ value suffix unit, duration_literal ms = int_text value ++ suffix ∧ i64_literal value = true ∧
    forallb is_alphabetic suffix = true ∧ unit_ms suffix = Some unit ∧ (value * unit = ms)%Z ∧
    ∃ c t, suffix = c :: t ∧ is_digit c = false ∧ eqc c "x" = false ∧ eqc c "X" = false ∧
      eqc c "b" = false ∧ eqc c "B" = false.
Proof.
  intros Hms. unfold duration_literal. unfold i64_literal in *. apply andb_true_iff in Hms as [H0%Z.leb_le H1%Z.ltb_lt].
  destruct (List.find _ duration_units) as [[unit s]|] eqn:Ef; cbn [fst snd].
  - apply List.find_some in Ef as [Hin [_ Hr%Z.eqb_eq]%andb_true_iff]. cbn [fst] in Hr.
    assert (0 < unit)%Z as Hu by (cbn in Hin; intuition; simplify_eq; lia).
    exists (Z.quot ms unit), (chars s), unit.
    pose proof (Z.quot_rem' ms unit) as Hq. rewrite Hr in Hq.
    pose proof (Z.quot_pos ms unit ltac:(lia) ltac:(lia)) as Hpos.
    assert (Z.quot ms unit <= ms)%Z as Hle by nia.
    split_and!; [done|apply andb_true_iff; split; [apply Z.leb_le|apply Z.ltb_lt]; lia| | |lia|];
      cbn in Hin; intuition; simplify_eq; try done; by eexists _, _.
  - exists ms, (chars "ms"), 1%Z. split_and!; [done| |done|done|lia|by eexists _, _].
    apply andb_true_iff. split; [by apply Z.leb_le|by apply Z.ltb_lt].
Qed.

Lemma duration_exact ms c t more l :
  i64_literal ms = true → duration_literal ms = c :: t → rest l = duration_literal ms ++ more → boundary more →
  ∃ l', plain_token c false l = (l', Good (Tok.Duration ms)) ∧ rest l' = more.
Proof.
  intros Hms Et E Hb. destruct (duration_parts ms Hms) as (v & s & u & Ed & Hv & Hs & Hu & Hmul & Hfirst).
  destruct (int_text_i64 v Hv) as (Hd & (c1 & t1 & Ev) & Hp).
  assert (is_digit c = true) as Hc.
  { rewrite Et, Ev in Ed. injection Ed as -> _. rewrite Ev in Hd. cbn in Hd. by apply andb_true_iff in Hd as [? _]. }
  rewrite Ed, <- app_assoc in E. unfold plain_token. rewrite Hc.
  rewrite (number_decimal (int_text v) (s ++ more) l E Hd).
  2:{ by rewrite Ev. }
  2:{ destruct Hfirst as (c2 & t2 & -> & ?). done. }
  destruct (decimal_exact (int_text v) s more l E Hd) as (l1 & _ & E1 & ->); [by rewrite Ev|done|done|].
  unfold parse_integer. rewrite Hp. erewrite bind_good by reflexivity. unfold duration_or_int.
  destruct (bump_while_exact is_alphabetic s more l1 E1 Hs) as (l2 & -> & E2); [by apply boundary_stop|].
  rewrite Hu. exists l2. split; [|done]. unfold checked_mul. rewrite Hmul.
  unfold i64_literal in Hms. apply andb_true_iff in Hms as [H0%Z.leb_le H1%Z.ltb_lt].
  rewrite (proj2 (Z.leb_le _ _)) by lia. by rewrite (proj2 (Z.ltb_lt _ _)) by lia.
Qed.

(** ** Words and fixed tokens *)

Lemma word_first c t : word (c :: t) = true →
  is_digit c = false ∧ is_alphabetic c || eqc c "_" = true ∧ forallb is_word (c :: t) = true.
Proof.
  unfold word. intros [Hd%negb_true_iff Hw]%andb_true_iff. split_and!; [done| |done].
  cbn in Hw. apply andb_true_iff in Hw as [Hc _]. unfold is_word in Hc. by rewrite Hd in Hc.
Qed.

Lemma identifier_token t : identifier t = true → word t = true ∧ word_token t = Tok.Ident t.
Proof.
  unfold identifier. intros [Hw Hk%negb_true_iff]%andb_true_iff. split; [done|]. unfold word_token.
  destruct (List.find _ keywords) as [k|] eqn:E; [|done]. apply List.find_some in E as [Hin Hk'].
  exfalso. assert (existsb (λ k, bool_decide (t = chars (fst k))) keywords = true); [|congruence].
  apply List.existsb_exists. eauto.
Qed.

Lemma word_exact c t dot more l :
  word (c :: t) = true → rest l = (c :: t) ++ more →
  match more with c :: _ => is_word c = false | [] => True end →
  ∃ l', plain_token c dot l = (l', Good (word_token (c :: t))) ∧ rest l' = more.
Proof.
  intros Hw E Hm. apply word_first in Hw as (Hd & Ha & Hall). unfold plain_token. rewrite Hd, Ha.
  destruct (run_while_exact is_word (c :: t) more l E Hall Hm) as (l1 & H1 & E1). exists l1. split; [|done].
  unfold ident_or_keyword. by rewrite (bind_good _ _ _ _ _ H1).
Qed.

Lemma lifetime_exact name dot more l :
  word name = true → rest l = (chr "'" :: name) ++ more → boundary more →
  ∃ l', plain_token (chr "'") dot l = (l', Good (Tok.Lifetime name)) ∧ rest l' = more.
Proof.
  intros Hw E Hb. destruct name as [|c t]; [done|]. apply word_first in Hw as (_ & Ha & Hall).
  cbn [app] in E. unfold plain_token. change (is_digit (chr "'")) with false.
  change (is_alphabetic (chr "'") || eqc (chr "'") "_") with false.
  assert (eqc (chr "'") "'" && match peek2 l with Some c => is_alphabetic c || eqc c "_" | None => false end
    = true) as ->.
  { unfold peek2. rewrite E. cbn [lookup list_lookup]. by rewrite Ha. }
  unfold lifetime. rewrite (bind_good _ _ _ _ _ (next_exact _ _ _ E)).
  destruct (run_while_exact is_word (c :: t) more (bump l)) as (l1 & H1 & E1);
    [by apply (bump_rest _ _ _ E)|done|by apply boundary_stop|].
  exists l1. split; [|done]. by rewrite (bind_good _ _ _ _ _ H1).
Qed.

Lemma fixed_exact k s c t dot more l :
  spellable k = true → fixed_text k = Some s → chars s = c :: t → rest l = (c :: t) ++ more → boundary more →
  ∃ l', plain_token c dot l = (l', Good k) ∧ rest l' = more.
Proof.
  intros Hk Hs Hc E Hb. destruct l as [b r cl cc cm tc]. cbn [rest] in E. subst r.
  destruct more as [|d more]; [|cbn in Hb; subst d];
    destruct k; try discriminate Hk; try discriminate Hs; injection Hs as <-; injection Hc as <- <-;
    (eexists; split; [vm_compute; reflexivity|reflexivity]).
Qed.

(** ** Starts of tokens *)

(** Not skipped as trivia, whatever follows, and no string of either kind. *)
Definition plain_start (c : char) (t : text) : Prop :=
  is_whitespace c = false ∧ (c =? quote)%N = false ∧
  (eqc c "/" = true → t = [] ∨ t = [chr "="]) ∧ (eqc c "f" = true → next_is (head t) (ascii_of_N 34) = false).

Lemma digit_start c t : is_digit c = true → plain_start c t.
Proof.
  unfold is_digit, between. intros [H1%N.leb_le H2%N.leb_le]%andb_true_iff.
  assert (∀ x, (x < 48 ∨ 57 < x)%N → (c =? x)%N = false) as Hne by (intros x Hx; apply N.eqb_neq; lia).
  split_and!.
  - unfold is_whitespace, between. rewrite !Hne by lia. rewrite !orb_false_iff, !andb_false_iff, !N.leb_gt. lia.
  - apply Hne. unfold quote. lia.
  - unfold eqc. intros H. rewrite Hne in H; [done|cbn; lia].
  - unfold eqc. intros H. rewrite Hne in H; [done|cbn; lia].
Qed.
Lemma word_start c t : word (c :: t) = true → plain_start c t.
Proof.
  intros Hw. pose proof Hw as Hall. apply word_first in Hw as (_ & Ha & Hws).
  assert ((65 <= c ∧ c <= 90) ∨ (97 <= c ∧ c <= 122) ∨ c = 95)%N as Hc.
  { unfold is_alphabetic, eqc, between in Ha. rewrite !orb_true_iff, !andb_true_iff, !N.leb_le, N.eqb_eq in Ha.
    cbn in Ha. lia. }
  assert (∀ x, (x < 65)%N → (c =? x)%N = false) as Hne by (intros x Hx; apply N.eqb_neq; lia).
  assert (∀ x, (122 < x)%N → (c =? x)%N = false) as Hne2 by (intros x Hx; apply N.eqb_neq; lia).
  split_and!.
  - unfold is_whitespace, between. rewrite !Hne by lia. rewrite !Hne2 by lia.
    rewrite !orb_false_iff, !andb_false_iff, !N.leb_gt. lia.
  - apply Hne. unfold quote. lia.
  - unfold eqc. intros H. rewrite Hne in H; [done|cbn; lia].
  - intros _. destruct t as [|d t]; [done|]. cbn in Hws |- *. apply andb_true_iff in Hws as [_ [Hd _]%andb_true_iff].
    unfold eqc. apply N.eqb_neq. intros ->. done.
Qed.

Lemma fixed_start k s c t :
  spellable k = true → fixed_text k = Some s → chars s = c :: t → plain_start c t.
Proof.
  intros Hk Hs Hc. destruct k; try discriminate Hk; try discriminate Hs; injection Hs as <-; injection Hc as <- <-;
    (split_and!; [reflexivity|reflexivity|intros H; try discriminate H; auto|intros H; try discriminate H; auto]).
Qed.

(** ** Holes *)

Lemma nested_string_exact d t :
  hole_closed HoleString d t = true →
  ∃ s t', t = s ++ t' ∧ hole_closed HoleCode d t' = true ∧ (0 < length s)%nat ∧
    ∀ n t0 l more, rest l = t ++ more → (length s ≤ n)%nat →
      ∃ l', nested_string n t0 l = (l', Good (t0 ++ s)) ∧ rest l' = t' ++ more.
Proof.
  remember (length t) as len eqn:Hlen. revert t Hlen. induction len as [len IH] using lt_wf_ind.
  intros t -> H. destruct t as [|c t]; [done|]. cbn [hole_closed] in H. destruct (eqc c "\") eqn:Eb.
  - destruct t as [|c2 t]; [done|]. cbn [hole_closed] in H.
    destruct (IH (length t) ltac:(cbn; lia) t eq_refl H) as (s & t' & -> & Hc & Hs & Hrun).
    exists (c :: c2 :: s), t'. split_and!; [done|done|cbn; lia|]. intros [|n] t0 l more E Hn; [cbn in Hn; lia|].
    cbn [app] in E. cbn [nested_string]. rewrite (bind_good _ _ _ _ _ (next_exact _ _ _ E)), Eb.
    pose proof (bump_rest _ _ _ E) as E1. rewrite (bind_good _ _ _ _ _ (next_exact _ _ _ E1)).
    destruct (Hrun n (t0 ++ [chr "\"; c2]) (bump (bump l)) more) as (l' & -> & E');
      [by apply (bump_rest _ _ _ E1)|cbn in Hn; lia|].
    exists l'. split; [|done]. unfold eqc in Eb. apply N.eqb_eq in Eb. subst c. by rewrite <- app_assoc.
  - destruct (c =? quote)%N eqn:Eq.
    + exists [c], t. split_and!; [done|done|cbn; lia|]. intros [|n] t0 l more E Hn; [cbn in Hn; lia|].
      cbn [app] in E. cbn [nested_string]. rewrite (bind_good _ _ _ _ _ (next_exact _ _ _ E)), Eb, Eq.
      exists (bump l). split; [done|by apply (bump_rest _ _ _ E)].
    + destruct (IH (length t) ltac:(cbn; lia) t eq_refl H) as (s & t' & -> & Hc & Hs & Hrun).
      exists (c :: s), t'. split_and!; [done|done|cbn; lia|]. intros [|n] t0 l more E Hn; [cbn in Hn; lia|].
      cbn [app] in E. cbn [nested_string]. rewrite (bind_good _ _ _ _ _ (next_exact _ _ _ E)), Eb, Eq.
      destruct (Hrun n (t0 ++ [c]) (bump l) more) as (l' & -> & E');
        [by apply (bump_rest _ _ _ E)|cbn in Hn; lia|].
      exists l'. split; [|done]. by rewrite <- app_assoc.
Qed.

Lemma interp_loop_exact t n start d t0 l more :
  hole_closed HoleCode d t = true → rest l = t ++ chr "}" :: more → (length t < n)%nat →
  ∃ l' s, interp_loop n start d t0 l = (l', Good s) ∧ src s = t0 ++ t ∧ rest l' = more.
Proof.
  remember (length t) as len eqn:Hlen. revert t Hlen n d t0 l. induction len as [len IH] using lt_wf_ind.
  intros t -> n d t0 l H E Hn. destruct n as [|n]; [lia|]. cbn [interp_loop].
  erewrite bind_good by reflexivity. destruct t as [|c t].
  { cbn in H. apply N.eqb_eq in H as ->. cbn [app] in E.
    rewrite (bind_good _ _ _ _ _ (next_exact _ _ _ E)).
    change (eqc (chr "}") "{") with false. change (eqc (chr "}") "}") with true. cbv iota. cbn [N.eqb N.sub].
    eexists _, _. split; [reflexivity|]. cbn. split; [by rewrite app_nil_r|by apply (bump_rest _ _ _ E)]. }
  cbn [app] in E. rewrite (bind_good _ _ _ _ _ (next_exact _ _ _ E)). pose proof (bump_rest _ _ _ E) as E1.
  assert (∀ d', hole_closed HoleCode d' t = true → ∃ l' s,
    interp_loop n start d' (t0 ++ [c]) (bump l) = (l', Good s) ∧ src s = t0 ++ c :: t ∧ rest l' = more) as Hgo.
  { intros d' Hd'. destruct (IH (length t) ltac:(cbn; lia) t eq_refl n d' (t0 ++ [c]) (bump l) Hd' E1)
      as (l' & s & Hl & Hs & Hr); [cbn in Hn; lia|]. exists l', s. split_and!; [done| |done].
    by rewrite Hs, <- app_assoc. }
  cbn [hole_closed] in H. destruct (eqc c "{"); [by apply Hgo|]. destruct (eqc c "}").
  { apply andb_true_iff in H as [Hd%N.ltb_lt H]. rewrite (proj2 (N.eqb_neq (d - 1) 0)) by lia. by apply Hgo. }
  destruct (c =? quote)%N eqn:Eq.
  { destruct (nested_string_exact d t H) as (s & t' & -> & Hc & Hs & Hrun). rewrite <- app_assoc in E1.
    destruct (Hrun (S (length (rest (bump l)))) (t0 ++ [c]) (bump l) (chr "}" :: more))
      as (l1 & Hl1 & E2); [by rewrite <- app_assoc|rewrite E1, length_app; lia|].
    rewrite (bind_good (fueled _) _ _ _ _ Hl1).
    destruct (IH (length t') ltac:(cbn; rewrite length_app; lia) t' eq_refl n d ((t0 ++ [c]) ++ s) l1 Hc E2)
      as (l' & s' & Hl & Hs' & Hr); [cbn in Hn; rewrite length_app in Hn; lia|]. exists l', s'.
    split_and!; [done| |done]. by rewrite Hs', <- !app_assoc. }
  apply andb_true_iff in H as [Hb%negb_true_iff H]. erewrite bind_good by reflexivity. rewrite Hb.
  cbn [andb]. by apply Hgo.
Qed.

Lemma interp_source_exact t l more :
  hole_text t = true → rest l = t ++ chr "}" :: more →
  ∃ l' s, interp_source l = (l', Good s) ∧ src s = t ∧ rest l' = more.
Proof.
  intros Ht E. unfold interp_source. erewrite bind_good by reflexivity. unfold fueled.
  apply (interp_loop_exact t _ _ _ [] l more Ht E). rewrite E, length_app. lia.
Qed.

(** ** Text in literals *)

Definition push_text (v : text) (p : Pieces) : Pieces :=
  {| literal := literal p ++ v; out := out p; interpolated := interpolated p |}.

Lemma escape_cases c :
  (∃ e, escape_char c = [chr "\"; e] ∧ unescape e = Some c ∧ (e =? quote)%N = (c =? quote)%N) ∨
  escape_char c = [c] ∧ (c =? quote)%N = false ∧ eqc c "\" = false ∧ eqc c "$" = false.
Proof.
  unfold escape_char. destruct (N.eqb_spec c quote) as [->|]; [left; by exists quote|].
  unfold eqc. destruct (N.eqb_spec c (chr "\")) as [->|]; [left; by exists (chr "\")|].
  destruct (N.eqb_spec c 10) as [->|]; [left; by exists (chr "n")|].
  destruct (N.eqb_spec c 9) as [->|]; [left; by exists (chr "t")|].
  destruct (N.eqb_spec c 13) as [->|]; [left; by exists (chr "r")|].
  destruct (N.eqb_spec c 0) as [->|]; [left; by exists (chr "0")|].
  destruct (N.eqb_spec c (chr "$")) as [->|]; [left; by exists (chr "$")|]. by right.
Qed.

Lemma escape_sequence_exact m l e c more :
  rest l = e :: more → unescape e = Some c → escape_sequence m l = (bump l, Good c).
Proof.
  intros E He. unfold escape_sequence. rewrite (bind_good _ _ _ _ _ (next_exact _ _ _ E)). cbn [ok_or_err].
  erewrite bind_good by reflexivity. by rewrite He.
Qed.

Lemma string_char_exact hole ll lc n p l c more :
  rest l = escape_char c ++ more →
  ∃ l', string_loop hole false ll lc (S n) p l = string_loop hole false ll lc n (push_literal c p) l' ∧
    rest l' = more.
Proof.
  intros E. cbn [string_loop]. destruct (escape_cases c) as [(e & He & Hu & _)|(He & Hq & Hb & Hd)];
    rewrite He in E; cbn [app] in E; rewrite (bind_good _ _ _ _ _ (next_exact _ _ _ E));
    erewrite bind_good by reflexivity.
  - change (chr "\" =? quote)%N with false. change (eqc (chr "\") "\") with true. cbv iota.
    pose proof (bump_rest _ _ _ E) as E1. rewrite (bind_good _ _ _ _ _ (escape_sequence_exact _ _ _ _ _ E1 Hu)).
    exists (bump (bump l)). split; [done|by apply (bump_rest _ _ _ E1)].
  - rewrite Hq, Hb, Hd, !andb_false_r. cbn [andb]. exists (bump l). split; [done|by apply (bump_rest _ _ _ E)].
Qed.

Lemma string_segment_exact hole ll lc v n p l more :
  rest l = interp_segment v ++ more →
  ∃ l', string_loop hole false ll lc (length v + n) p l = string_loop hole false ll lc n (push_text v p) l' ∧
    rest l' = more.
Proof.
  revert p l. induction v as [|c v IH]; intros p l E.
  { exists l. split; [|done]. cbn. unfold push_text. rewrite app_nil_r. by destruct p. }
  cbn [interp_segment List.flat_map] in E. rewrite <- app_assoc in E. cbn [length Nat.add].
  destruct (string_char_exact hole ll lc (length v + n) p l c _ E) as (l1 & -> & E1).
  destruct (IH (push_literal c p) l1 E1) as (l2 & -> & E2). exists l2. split; [|done].
  unfold push_text, push_literal. cbn. by rewrite <- app_assoc.
Qed.

Lemma escape_char_length c : (1 <= length (escape_char c))%nat.
Proof. destruct (escape_cases c) as [(e & -> & _)|[-> _]]; cbn; lia. Qed.

Lemma interp_segment_length v : (length v <= length (interp_segment v))%nat.
Proof.
  induction v as [|c v IH]; [done|]. unfold interp_segment in *. cbn [List.flat_map length].
  rewrite length_app. pose proof (escape_char_length c). lia.
Qed.

Lemma string_lit_exact hole ll lc v l more :
  rest l = string_lit v ++ more →
  ∃ l', string_tokens hole false ll lc l = (l', Good [point (Tok.Str v) ll lc]) ∧ rest l' = more.
Proof.
  intros E. unfold string_lit in E. cbn [app] in E. unfold string_tokens.
  rewrite (bind_good _ _ _ _ _ (next_exact _ _ _ E)). pose proof (bump_rest _ _ _ E) as E1.
  rewrite <- app_assoc in E1. cbn [app] in E1. unfold fueled.
  pose proof (interp_segment_length v) as Hv.
  set (p0 := {| literal := []; out := []; interpolated := false |}).
  destruct (string_segment_exact hole ll lc v (S (length (rest (bump l))) - length v) p0 (bump l) _ E1)
    as (l2 & H2 & E2).
  replace (length v + (S (length (rest (bump l))) - length v))%nat with (S (length (rest (bump l)))) in H2
    by (rewrite E1, length_app; lia).
  rewrite H2. destruct (S (length (rest (bump l))) - length v)%nat as [|n] eqn:En.
  { exfalso. rewrite E1, length_app in En. cbn in En. lia. }
  cbn [string_loop]. rewrite (bind_good _ _ _ _ _ (next_exact _ _ _ E2)). erewrite bind_good by reflexivity.
  change (quote =? quote)%N with true. cbv iota. cbn [push_text interpolated p0 literal app].
  exists (bump l2). split; [done|by apply (bump_rest _ _ _ E2)].
Qed.

(** ** Tagged literals *)

Lemma tagged_part_head v more :
  next_is (head v) "{" = false → next_is (head more) "{" = false →
  next_is (head (tagged_part v ++ more)) "{" = false.
Proof.
  intros Hv Hm. destruct v as [|c v]; [done|]. cbn [tagged_part].
  destruct (eqc c "$"); [by destruct (next_is (head v) "{")|].
  destruct (escape_cases c) as [(e & -> & _)|[-> _]]; done.
Qed.

Lemma tag_char_exact n parts holes spans t0 l c v more :
  rest l = tagged_part (c :: v) ++ more → next_is (head more) "{" = false →
  ∃ l', tag_loop (S n) parts holes spans t0 l = tag_loop n parts holes spans (t0 ++ [c]) l' ∧
    rest l' = tagged_part v ++ more.
Proof.
  intros E Hm. cbn [tagged_part] in E. rewrite <- app_assoc in E. cbn [tag_loop].
  destruct (eqc c "$") eqn:Ed.
  - unfold eqc in Ed. apply N.eqb_eq in Ed as ->. destruct (next_is (head v) "{") eqn:Ev; cbn [app] in E.
    + rewrite (bind_good _ _ _ _ _ (next_exact _ _ _ E)). erewrite bind_good by reflexivity.
      change (chr "\" =? quote)%N with false. change (eqc (chr "\") "\") with true. cbv iota.
      pose proof (bump_rest _ _ _ E) as E1.
      rewrite (bind_good _ _ _ _ _ (escape_sequence_exact _ _ _ (chr "$") _ E1 eq_refl)).
      exists (bump (bump l)). split; [done|by apply (bump_rest _ _ _ E1)].
    + rewrite (bind_good _ _ _ _ _ (next_exact _ _ _ E)). pose proof (bump_rest _ _ _ E) as E1.
      erewrite bind_good by reflexivity. change (chr "$" =? quote)%N with false.
      change (eqc (chr "$") "\") with false. change (eqc (chr "$") "$") with true.
      assert (next_is (peek (bump l)) "{" = false) as ->.
      { pose proof (tagged_part_head v more Ev Hm) as H. rewrite <- E1 in H. unfold peek.
        by destruct (rest (bump l)). }
      exists (bump l). done.
  - destruct (escape_cases c) as [(e & He & Hu & _)|(He & Hq & Hb & _)]; rewrite He in E; cbn [app] in E;
      rewrite (bind_good _ _ _ _ _ (next_exact _ _ _ E)); pose proof (bump_rest _ _ _ E) as E1;
      erewrite bind_good by reflexivity.
    + change (chr "\" =? quote)%N with false. change (eqc (chr "\") "\") with true. cbv iota.
      rewrite (bind_good _ _ _ _ _ (escape_sequence_exact _ _ _ _ _ E1 Hu)).
      exists (bump (bump l)). split; [done|by apply (bump_rest _ _ _ E1)].
    + rewrite Hq, Hb, Ed. by exists (bump l).
Qed.

Lemma tag_part_exact v n parts holes spans t0 l more :
  rest l = tagged_part v ++ more → next_is (head more) "{" = false →
  ∃ l', tag_loop (length v + n) parts holes spans t0 l = tag_loop n parts holes spans (t0 ++ v) l' ∧
    rest l' = more.
Proof.
  revert t0 l. induction v as [|c v IH]; intros t0 l E Hm.
  { exists l. by rewrite app_nil_r. }
  cbn [length Nat.add]. destruct (tag_char_exact (length v + n) parts holes spans t0 l c v more E Hm) as (l1 & -> & E1).
  destruct (IH (t0 ++ [c]) l1 E1 Hm) as (l2 & -> & E2). exists l2. by rewrite <- app_assoc.
Qed.

Lemma tagged_part_length v : (length v <= length (tagged_part v))%nat.
Proof.
  induction v as [|c v IH]; [done|]. cbn [tagged_part length]. rewrite length_app.
  pose proof (escape_char_length c). destruct (eqc c "$"); [destruct (next_is _ _); cbn; lia|lia].
Qed.

Lemma tagged_parts_exact holes parts n parts0 holes0 spans0 l more :
  length parts = S (length holes) → forallb hole_text holes = true →
  rest l = tagged_parts parts holes ++ quote :: more → (length (tagged_parts parts holes) < n)%nat →
  ∃ l' spans, tag_loop n parts0 holes0 spans0 [] l =
      (l', Good (parts0 ++ parts, holes0 ++ holes, spans0 ++ spans)) ∧ rest l' = more.
Proof.
  revert parts n parts0 holes0 spans0 l.
  induction holes as [|hole holes IH]; intros parts n parts0 holes0 spans0 l Hlen Hh E Hn.
  - destruct parts as [|part [|? ?]]; [done| |done]. cbn [tagged_parts] in E, Hn. rewrite app_nil_r in E, Hn.
    pose proof (tagged_part_length part). replace n with (length part + (n - length part))%nat by lia.
    destruct (tag_part_exact part (n - length part) parts0 holes0 spans0 [] l _ E ltac:(done)) as (l1 & -> & E1).
    destruct (n - length part)%nat as [|m] eqn:Em; [lia|]. cbn [tag_loop].
    rewrite (bind_good _ _ _ _ _ (next_exact _ _ _ E1)). erewrite bind_good by reflexivity.
    change (quote =? quote)%N with true. cbv iota. exists (bump l1), [].
    rewrite !app_nil_r. split; [done|by apply (bump_rest _ _ _ E1)].
  - destruct parts as [|part parts]; [done|]. injection Hlen as Hlen. cbn in Hh.
    apply andb_true_iff in Hh as [Hhole Hh]. cbn [tagged_parts] in E, Hn.
    rewrite <- app_assoc in E. cbn [app] in E. rewrite length_app in Hn. cbn in Hn. rewrite length_app in Hn. cbn in Hn.
    pose proof (tagged_part_length part). replace n with (length part + (n - length part))%nat by lia.
    destruct (tag_part_exact part (n - length part) parts0 holes0 spans0 [] l _ E ltac:(done)) as (l1 & -> & E1).
    destruct (n - length part)%nat as [|m] eqn:Em; [lia|]. cbn [tag_loop].
    rewrite (bind_good _ _ _ _ _ (next_exact _ _ _ E1)). pose proof (bump_rest _ _ _ E1) as E2.
    erewrite bind_good by reflexivity. change (chr "$" =? quote)%N with false.
    change (eqc (chr "$") "\") with false. change (eqc (chr "$") "$") with true.
    rewrite (peek_rest _ _ _ E2). change (true && next_is (Some (chr "{")) "{") with true. cbv iota.
    rewrite (bind_good _ _ _ _ _ (next_exact _ _ _ E2)). pose proof (bump_rest _ _ _ E2) as E3.
    rewrite <- app_assoc in E3. cbn [app] in E3.
    destruct (interp_source_exact hole _ _ Hhole E3) as (l4 & s & Hs & Hsrc & E4).
    rewrite (bind_good _ _ _ _ _ Hs), Hsrc. cbn [app].
    destruct (IH parts m (parts0 ++ [part]) (holes0 ++ [hole]) (spans0 ++ [(start_line s, start_col s)]) l4 Hlen Hh E4)
      as (l5 & spans & -> & E5); [lia|].
    exists l5, ((start_line s, start_col s) :: spans). rewrite <- !app_assoc. done.
Qed.

Lemma tag_literal_exact parts holes l more :
  length parts = S (length holes) → forallb hole_text holes = true →
  rest l = quote :: tagged_parts parts holes ++ quote :: more →
  ∃ l' spans, tag_literal l = (l', Good (parts, holes, spans)) ∧ rest l' = more.
Proof.
  intros Hlen Hh E. unfold tag_literal. rewrite (bind_good _ _ _ _ _ (next_exact _ _ _ E)).
  pose proof (bump_rest _ _ _ E) as E1. unfold fueled.
  apply (tagged_parts_exact holes parts _ [] [] [] (bump l) more Hlen Hh E1). rewrite E1, length_app. lia.
Qed.

(** ** One token *)

(** Text that starts neither with whitespace nor with a comment. *)
Definition solid (t : text) : Prop :=
  match t with
  | c :: t => is_whitespace c = false ∧
      (eqc c "/" = true → next_is (head t) "/" = false ∧ next_is (head t) "*" = false)
  | [] => True
  end.

Lemma solid_stays n l : solid (rest l) → skip_trivia_loop (S n) l = (l, Good tt).
Proof.
  intros H. cbn [skip_trivia_loop]. destruct (rest l) as [|c t] eqn:E; [unfold peek; by rewrite E|].
  assert (peek2 l = head t) as E2 by (unfold peek2; rewrite E; by destruct t).
  destruct H as [Hw Hc]. rewrite (peek_rest _ _ _ E), E2, Hw.
  assert ((c =? tab)%N = false) as ->.
  { apply N.eqb_neq. intros ->. done. }
  cbn [andb]. destruct (eqc c "/"); [|done]. destruct (Hc eq_refl) as [-> ->]. done.
Qed.

Lemma skip_solid l : solid (rest l) → skip_trivia l = (l, Good tt).
Proof. apply solid_stays. Qed.

Lemma skip_space l t : rest l = space :: t → solid t → skip_trivia l = (bump l, Good tt).
Proof.
  intros E Ht. pose proof (bump_rest _ _ _ E) as E1. unfold skip_trivia. rewrite E. cbn [length].
  remember (S (length t)) as m eqn:Hm. cbn [skip_trivia_loop]. rewrite (peek_rest _ _ _ E).
  change (space =? tab)%N with false. change (is_whitespace space) with true. cbn [andb].
  rewrite Hm. apply solid_stays. by rewrite E1.
Qed.

(** A round of the loop after a space, and one right after a token. *)
Lemma loop_space n ts l c t :
  rest l = space :: c :: t → solid (c :: t) →
  tokenize_loop (S n) ts l =
  (round (λ s, snd (tokenize_loop n [] (new s))) false ts c ≫= tokenize_loop n) (bump l).
Proof.
  intros E Hs. cbn [tokenize_loop]. erewrite bind_good by reflexivity.
  rewrite (bind_good _ _ _ _ _ (skip_space l _ E Hs)). erewrite bind_good by reflexivity.
  pose proof (bump_rest _ _ _ E) as E1. rewrite (peek_rest _ _ _ E1). erewrite bind_good by reflexivity.
  assert ((length (before (bump l)) =? length (before l))%nat = false) as ->; [|done].
  apply Nat.eqb_neq. unfold bump. rewrite E. cbn. lia.
Qed.

Lemma loop_adjacent n ts l c t :
  rest l = c :: t → solid (c :: t) →
  tokenize_loop (S n) ts l =
  (round (λ s, snd (tokenize_loop n [] (new s))) true ts c ≫= tokenize_loop n) l.
Proof.
  intros E Hs. cbn [tokenize_loop]. erewrite bind_good by reflexivity.
  rewrite (bind_good _ _ _ _ _ (skip_solid l ltac:(by rewrite E))). erewrite bind_good by reflexivity.
  rewrite (peek_rest _ _ _ E). erewrite bind_good by reflexivity. by rewrite Nat.eqb_refl.
Qed.

Lemma loop_end n ts l :
  rest l = [] → tokenize_loop (S n) ts l = (l, Good (ts ++ [point Tok.Eof (cur_line l) (cur_col l)])).
Proof.
  intros E. cbn [tokenize_loop]. erewrite bind_good by reflexivity.
  rewrite (bind_good _ _ _ _ _ (skip_solid l ltac:(by rewrite E))). erewrite bind_good by reflexivity.
  unfold peek. by rewrite E.
Qed.

Lemma start_solid c t more : plain_start c t → boundary more → solid ((c :: t) ++ more).
Proof.
  intros (Hw & _ & Hc & _) Hb. split; [done|]. intros H.
  destruct (Hc H) as [->| ->]; [|done]. cbn. destruct more as [|d more]; [done|]. cbn in Hb. by subst d.
Qed.

Lemma round_plain_eq hole adjacent ts c t more l :
  rest l = (c :: t) ++ more → plain_start c t → (t = [] → boundary more ∨ eqc c "f" = false) →
  round hole adjacent ts c l =
  (k ← plain_token c (after_dot ts);
   t ← ending_here k (cur_line l) (cur_col l); mret (ts ++ [t])) l.
Proof.
  intros E (_ & Hq & _ & Hf) Hb. unfold round. rewrite Hq. cbn [andb].
  assert (eqc c "f" && match peek2 l with Some q => (q =? quote)%N | None => false end = false) as ->; [|done].
  destruct (eqc c "f") eqn:Ef; [|done]. cbn [andb]. specialize (Hf eq_refl). unfold peek2. rewrite E.
  destruct t as [|d t]; [|exact Hf]. destruct more as [|d more]; [done|].
  destruct (Hb eq_refl) as [->|]; done.
Qed.

Lemma round_plain hole adjacent ts c t more l k l' :
  rest l = (c :: t) ++ more → plain_start c t → (t = [] → boundary more ∨ eqc c "f" = false) →
  plain_token c (after_dot ts) l = (l', Good k) →
  ∃ tok, round hole adjacent ts c l = (l', Good (ts ++ [tok])) ∧ kind tok = k.
Proof.
  intros E Hs Hb Hp. rewrite (round_plain_eq hole adjacent ts c t more l E Hs Hb).
  rewrite (bind_good _ _ _ _ _ Hp). erewrite bind_good by reflexivity. eexists. split; [reflexivity|done].
Qed.

Lemma round_string hole ts l v more :
  rest l = string_lit v ++ more →
  ∃ l' tok, round hole false ts quote l = (l', Good (ts ++ [tok])) ∧ kind tok = Tok.Str v ∧ rest l' = more.
Proof.
  intros E. destruct (string_lit_exact hole (cur_line l) (cur_col l) v l more E) as (l' & Hs & E').
  unfold round. change (quote =? quote)%N with true. cbn [andb].
  rewrite (bind_good _ _ _ _ _ Hs). erewrite bind_good by reflexivity. eexists _, _.
  split; [reflexivity|]. done.
Qed.

Lemma last_token_snoc ts t : last_token (ts ++ [t]) = Some t.
Proof. unfold last_token. by rewrite List.rev_app_distr. Qed.

Lemma round_tag hole ts t tag parts holes l more :
  kind t = Tok.Ident tag → length parts = S (length holes) → forallb hole_text holes = true →
  rest l = quote :: tagged_parts parts holes ++ quote :: more →
  ∃ l' tok spans, round hole true (ts ++ [t]) quote l = (l', Good (ts ++ [tok])) ∧
    kind tok = Tok.TagLit tag parts holes spans ∧ rest l' = more.
Proof.
  intros Hk Hlen Hh E. destruct (tag_literal_exact parts holes l more Hlen Hh E) as (l' & spans & Hs & E').
  unfold round. change (quote =? quote)%N with true. cbn [andb]. unfold tag_of.
  rewrite last_token_snoc. cbn [mbind option_bind]. rewrite Hk.
  rewrite (bind_good _ _ _ _ _ Hs). erewrite bind_good by reflexivity.
  rewrite removelast_last. eexists _, _, spans. split; [reflexivity|]. done.
Qed.

(** Tokens that one plain round reads. *)
Lemma plain_spelled k dot more l :
  spellable k = true → (dot = true → ∀ ms, k ≠ Tok.Duration ms) →
  match k with Tok.Str _ | Tok.TagLit _ _ _ _ => False | _ => True end →
  rest l = spell k ++ more → boundary more →
  ∃ c t l', spell k = c :: t ∧ plain_start c t ∧ plain_token c dot l = (l', Good k) ∧ rest l' = more.
Proof.
  intros Hk Hdot Hplain E Hb.
  assert (∀ s, fixed_text k = Some s → spell k = chars s →
    ∃ c t l', spell k = c :: t ∧ plain_start c t ∧ plain_token c dot l = (l', Good k) ∧ rest l' = more) as Hfixed.
  { intros s Hs Ek. destruct (chars s) as [|c t] eqn:Es.
    - exfalso. destruct k; try discriminate Hs; injection Hs as <-; discriminate Es.
    - rewrite Ek in E. destruct (fixed_exact k s c t dot more l Hk Hs Es E Hb) as (l' & H1 & H2).
      exists c, t, l'. split_and!; [done|by eapply fixed_start|done|done]. }
  destruct k; try done; try (by eapply Hfixed).
  - destruct (int_text_i64 n Hk) as (Hd & (c & t & Et) & _). cbn [spell] in E |- *.
    destruct (int_exact n dot c t more l Hk Et E Hb) as (l' & H1 & H2). exists c, t, l'. split_and!; [done| |done|done].
    apply digit_start. rewrite Et in Hd. cbn in Hd. by apply andb_true_iff in Hd as [? _].
  - destruct dot; [by destruct (Hdot eq_refl ms)|]. cbn [spell] in E |- *.
    destruct (duration_parts ms Hk) as (v & s & u & Ed & Hv & _).
    destruct (int_text_i64 v Hv) as (Hd & (c & t & Et) & _).
    assert (duration_literal ms = c :: (t ++ s)) as Ems by (by rewrite Ed, Et).
    destruct (duration_exact ms c (t ++ s) more l Hk Ems E Hb) as (l' & H1 & H2). exists c, (t ++ s), l'.
    split_and!; [done| |done|done]. apply digit_start. rewrite Et in Hd. cbn in Hd. by apply andb_true_iff in Hd as [? _].
  - cbn [spellable spell] in *. destruct (identifier_token s Hk) as [Hw Ht]. destruct s as [|c t]; [done|].
    destruct (word_exact c t dot more l Hw E) as (l' & H1 & H2); [by apply boundary_stop|].
    exists c, t, l'. rewrite Ht in H1. split_and!; [done|by apply word_start|done|done].
  - cbn [spellable spell] in *. destruct (lifetime_exact name dot more l Hk E Hb) as (l' & H1 & H2).
    exists (chr "'"), name, l'. split_and!; [done| |done|done]. by split_and!.
Qed.

(** One printed token of a sequence. *)
Lemma token_step k n ts l more :
  spellable k = true → (after_dot ts = true → ∀ ms, k ≠ Tok.Duration ms) →
  rest l = space :: spell k ++ more → boundary more → (length (rest l) < n)%nat →
  ∃ n' l' tok, tokenize_loop n ts l = tokenize_loop n' (ts ++ [tok]) l' ∧
    forget_spans (kind tok) = forget_spans k ∧ rest l' = more ∧ (length more < n')%nat.
Proof.
  intros Hk Hdot E Hb Hn. destruct n as [|n]; [lia|]. pose proof (bump_rest _ _ _ E) as E1.
  rewrite E in Hn. cbn [length] in Hn. rewrite length_app in Hn.
  destruct (match k with Tok.Str _ | Tok.TagLit _ _ _ _ => false | _ => true end) eqn:Hplain.
  - destruct (plain_spelled k (after_dot ts) more (bump l) Hk Hdot) as (c & t & l' & Es & Hst & Hp & E');
      [by destruct k|done|done|].
    rewrite Es in E, E1. rewrite (loop_space n ts l c (t ++ more) E) by (by apply start_solid).
    destruct (round_plain (λ s, snd (tokenize_loop n [] (new s))) false ts c t more (bump l) k l' E1 Hst)
      as (tok & Hr & Htok); [by left|done|].
    rewrite (bind_good _ _ _ _ _ Hr). exists n, l', tok. split_and!; [done|by rewrite Htok|done|].
    rewrite Es in Hn. cbn in Hn. lia.
  - destruct k; try discriminate Hplain.
    + cbn [spell] in *. rewrite (loop_space n ts l quote (interp_segment s ++ [quote] ++ more)).
      2:{ rewrite E. unfold string_lit. cbn [app]. by rewrite <- app_assoc. }
      2:{ by split. }
      destruct (round_string (λ s, snd (tokenize_loop n [] (new s))) ts (bump l) s more E1) as (l' & tok & Hr & Htok & E').
      rewrite (bind_good _ _ _ _ _ Hr). exists n, l', tok. split_and!; [done|by rewrite Htok|done|].
      unfold string_lit in Hn. cbn in Hn. lia.
    + cbn [spell spellable] in *. apply andb_true_iff in Hk as [Hk Hh]. apply andb_true_iff in Hk as [Hk Hl%Nat.eqb_eq].
      apply andb_true_iff in Hk as [Hid Hf%negb_true_iff%bool_decide_eq_false].
      destruct (identifier_token tag Hid) as [Hw Hword]. destruct tag as [|c t]; [done|].
      unfold tagged_lit in E, E1, Hn. rewrite <- app_assoc in E, E1. cbn [app] in E, E1.
      rewrite <- app_assoc in E, E1. cbn [app] in E, E1.
      rewrite (loop_space n ts l c _ E).
      2:{ destruct (word_start c t Hw) as (H1 & _ & H3 & _). split; [done|]. intros H. exfalso.
          unfold eqc in H. apply N.eqb_eq in H as ->. done. }
      destruct (word_exact c t (after_dot ts) (quote :: tagged_parts parts holes ++ quote :: more) (bump l) Hw E1)
        as (l1 & Hp & E2); [done|]. rewrite Hword in Hp.
      destruct (round_plain (λ s, snd (tokenize_loop n [] (new s))) false ts c t _ (bump l) (Tok.Ident (c :: t)) l1 E1 (word_start _ _ Hw))
        as (tok1 & Hr1 & Htok1); [|exact Hp|].
      { intros ->. right. unfold eqc. apply N.eqb_neq. intros ->. by apply Hf. }
      rewrite (bind_good _ _ _ _ _ Hr1). cbn [length] in Hn. rewrite length_app in Hn. cbn [length] in Hn.
      rewrite length_app in Hn. cbn [length] in Hn. destruct n as [|n]; [lia|].
      rewrite (loop_adjacent n (ts ++ [tok1]) l1 _ _ E2) by (by split).
      destruct (round_tag (λ s, snd (tokenize_loop n [] (new s))) ts tok1 (c :: t) parts holes l1 more Htok1 Hl Hh E2)
        as (l2 & tok & spans & Hr2 & Htok & E3).
      rewrite (bind_good _ _ _ _ _ Hr2). exists n, l2, tok. split_and!; [done|by rewrite Htok|done|lia].
Qed.

Lemma after_dot_snoc ts t : after_dot (ts ++ [t]) = true → kind t = Tok.Dot.
Proof. unfold after_dot. rewrite last_token_snoc. cbn. by destruct (kind t). Qed.

Lemma forget_spans_dot k : forget_spans k = Tok.Dot → k = Tok.Dot.
Proof. by destruct k. Qed.

Lemma spell_all_boundary ks : boundary (spell_all ks).
Proof. by destruct ks. Qed.

Lemma dot_safe_cons k ks : dot_safe (k :: ks) = true →
  dot_safe ks = true ∧ (k = Tok.Dot → ∀ ms ks', ks ≠ Tok.Duration ms :: ks').
Proof.
  intros H. destruct k; (split; [try done|try done]); destruct ks as [|[] ks]; try done.
  all: intros _ ms' ks' [= -> ->]; done.
Qed.

Lemma tokenize_spelled ks n ts l :
  forallb spellable ks = true → dot_safe ks = true →
  (after_dot ts = true → ∀ ms ks', ks ≠ Tok.Duration ms :: ks') →
  rest l = spell_all ks → (length (rest l) < n)%nat →
  ∃ l' toks, tokenize_loop n ts l = (l', Good (ts ++ toks)) ∧
    List.map (λ t, forget_spans (kind t)) toks = List.map forget_spans ks ++ [Tok.Eof].
Proof.
  revert n ts l. induction ks as [|k ks IH]; intros n ts l Hk Hsafe Hdot E Hn.
  { destruct n as [|n]; [lia|]. rewrite (loop_end n ts l E). by eexists _, _. }
  cbn in Hk. apply andb_true_iff in Hk as [Hk Hks]. apply dot_safe_cons in Hsafe as [Hsafe Hnext].
  unfold spell_all in E. cbn [List.flat_map app] in E. fold (spell_all ks) in E.
  destruct (token_step k n ts l (spell_all ks) Hk) as (n' & l' & tok & Hs & Htok & E' & Hn');
    [|done|apply spell_all_boundary|done|].
  { intros Hd ms ->. by apply (Hdot Hd ms ks). }
  destruct (IH n' (ts ++ [tok]) l' Hks Hsafe) as (l2 & toks & Ht & Hkinds); [|done|by rewrite E'|].
  { intros Hd. apply after_dot_snoc in Hd. rewrite Hd in Htok. cbn in Htok. symmetry in Htok.
    apply Hnext. by apply forget_spans_dot. }
  exists l2, (tok :: toks). rewrite Hs, Ht, <- app_assoc. split; [done|]. cbn. by rewrite Htok, Hkinds.
Qed.

(** ** Interpolation *)

Definition kinds (ts : list Token) : list Tok := List.map (λ t, forget_spans (kind t)) ts.

(** A piece of an interpolated literal: the tokens of a hole, and the text
    after it. *)
Definition piece_ok (p : list Tok * text) : bool :=
  forallb spellable (fst p) && dot_safe (fst p) && hole_text (spell_all (fst p)).

Definition piece_text (p : list Tok * text) : text * text := (spell_all (fst p), snd p).

(** The tokens [@render( ... ) + "..."] of a piece. *)
Definition piece_tokens (p : list Tok * text) : list Tok :=
  Tok.Plus :: Tok.Ident render_intrinsic :: Tok.LParen :: List.map forget_spans (fst p) ++
  [Tok.InterpRBrace; Tok.Plus; Tok.Str (snd p)].

Definition literal_text (p : text * text) : text :=
  chr "$" :: chr "{" :: fst p ++ chr "}" :: interp_segment (snd p).

Lemma before_eof_kinds ts ks : (∀ k, k ∈ ks → k ≠ Tok.Eof) → kinds ts = ks ++ [Tok.Eof] → kinds (before_eof ts) = ks.
Proof.
  revert ts. induction ks as [|k ks IH]; intros ts Hk H.
  - destruct ts as [|t ts]; [done|]. cbn in H |- *. injection H as H _. by destruct (kind t).
  - destruct ts as [|t ts]; [done|]. cbn in H |- *. injection H as Ht H.
    assert (kind t ≠ Tok.Eof) as Hne.
    { intros E. apply (Hk k ltac:(set_solver)). rewrite <- Ht, E. done. }
    assert (kinds (before_eof ts) = ks) as Hrest by (apply IH; [set_solver|done]).
    destruct (kind t) eqn:E; try done; cbn; rewrite E, <- Ht; unfold kinds in Hrest |- *; by rewrite Hrest.
Qed.

Lemma spellable_kinds ks : forallb spellable ks = true → ∀ k, k ∈ List.map forget_spans ks → k ≠ Tok.Eof.
Proof.
  intros H k (x & <- & Hx)%list_elem_of_In%List.in_map_iff. eapply List.forallb_forall in H; [|done].
  by destruct x.
Qed.

Lemma kinds_app ts ts' : kinds (ts ++ ts') = kinds ts ++ kinds ts'.
Proof. apply List.map_app. Qed.

Lemma kinds_rebase s ts : kinds (List.map (rebase s) ts) = kinds ts.
Proof. unfold kinds. rewrite List.map_map. done. Qed.

(** The lexer of holes reads printed tokens. *)
Lemma emit_interpolation_exact n ll lc p ks l more :
  forallb spellable ks = true → dot_safe ks = true → hole_text (spell_all ks) = true →
  rest l = spell_all ks ++ chr "}" :: more → (length (rest l) ≤ n)%nat →
  ∃ l' p', emit_interpolation (λ s, snd (tokenize_loop n [] (new s))) ll lc p l = (l', Good p') ∧
    rest l' = more ∧ literal p' = [] ∧ interpolated p' = true ∧
    kinds (out p') = kinds (out p) ++ (if interpolated p then Tok.Plus else Tok.LParen) :: Tok.Str (literal p) ::
      Tok.Plus :: Tok.Ident render_intrinsic :: Tok.LParen :: List.map forget_spans ks ++ [Tok.InterpRBrace].
Proof.
  intros Hk Hs Hh E Hn. unfold emit_interpolation. erewrite bind_good by reflexivity.
  destruct (interp_source_exact _ l _ Hh E) as (l1 & s & Hl1 & Hsrc & E1).
  rewrite (bind_good _ _ _ _ _ Hl1), Hsrc.
  destruct (tokenize_spelled ks n [] (new (spell_all ks)) Hk Hs) as (l2 & toks & Ht & Hkinds); [done|done| |].
  { cbn. rewrite E, length_app in Hn. cbn in Hn. lia. }
  cbn [app] in Ht. rewrite Ht. cbn [snd]. eexists _, _. split; [reflexivity|]. split_and!; [done|done|done|].
  cbn [out]. rewrite !kinds_app. f_equal. unfold hole_tokens. rewrite !kinds_app, kinds_rebase.
  rewrite (before_eof_kinds toks (List.map forget_spans ks) (spellable_kinds ks Hk) Hkinds).
  unfold segment_tokens. by destruct (interpolated p).
Qed.

Lemma string_pieces_exact m ll lc pieces n p l more :
  forallb piece_ok pieces = true → (pieces = [] → interpolated p = true) →
  rest l = List.flat_map (λ p, literal_text (piece_text p)) pieces ++ quote :: more →
  (length (rest l) ≤ n)%nat → (length (rest l) ≤ m)%nat →
  ∃ l' toks, string_loop (λ s, snd (tokenize_loop m [] (new s))) false ll lc n p l = (l', Good toks) ∧
    rest l' = more ∧
    kinds toks = kinds (out p) ++ (if interpolated p then Tok.Plus else Tok.LParen) :: Tok.Str (literal p) ::
      List.flat_map piece_tokens pieces ++ [Tok.RParen].
Proof.
  revert n p l. induction pieces as [|[ks seg] pieces IH]; intros n p l Hok Hint E Hn Hm.
  - destruct n as [|n]; [rewrite E in Hn; cbn in Hn; lia|]. cbn [List.flat_map app] in E. cbn [string_loop].
    rewrite (bind_good _ _ _ _ _ (next_exact _ _ _ E)). erewrite bind_good by reflexivity.
    change (quote =? quote)%N with true. rewrite (Hint eq_refl). cbv iota. eexists _, _. split; [reflexivity|].
    split; [by apply (bump_rest _ _ _ E)|]. rewrite kinds_app. done.
  - destruct n as [|n]; [rewrite E in Hn; cbn in Hn; lia|]. cbn in Hok. apply andb_true_iff in Hok as [Hp Hok].
    unfold piece_ok in Hp. cbn [fst] in Hp. apply andb_true_iff in Hp as [Hp Hh]. apply andb_true_iff in Hp as [Hk Hs].
    cbn [List.flat_map] in E. unfold literal_text at 1 in E. cbn [piece_text fst snd app] in E.
    rewrite <- !app_assoc in E. cbn [app] in E. cbn [string_loop].
    rewrite (bind_good _ _ _ _ _ (next_exact _ _ _ E)). pose proof (bump_rest _ _ _ E) as E1.
    erewrite bind_good by reflexivity. rewrite (peek_rest _ _ _ E1).
    change (chr "$" =? quote)%N with false. change (eqc (chr "$") "\") with false.
    change (eqc (chr "$") "{" && false) with false. change (eqc (chr "$") "}" && false) with false.
    change (eqc (chr "$") "$" && negb false && next_is (Some (chr "{")) "{") with true. cbv iota.
    rewrite (bind_good _ _ _ _ _ (next_exact _ _ _ E1)). pose proof (bump_rest _ _ _ E1) as E2.
    assert (length (rest l) = S (S (length (rest (bump (bump l)))))) as Hlen.
    { rewrite E, E2. done. }
    destruct (emit_interpolation_exact m ll lc p ks (bump (bump l)) _ Hk Hs Hh E2) as (l3 & p3 & H3 & E3 & Hlit & Hi & Hout);
      [lia|].
    rewrite (bind_good _ _ _ _ _ H3). pose proof (interp_segment_length seg) as Hseg.
    assert (length (rest (bump (bump l))) = (length (spell_all ks) + S (length (rest l3)))%nat) as Hlen3.
    { rewrite E2, E3, length_app. reflexivity. }
    assert (length seg <= length (rest l3))%nat as Hfit by (rewrite E3, length_app; lia).
    replace n with (length seg + (n - length seg))%nat by lia.
    destruct (string_segment_exact (λ s, snd (tokenize_loop m [] (new s))) ll lc seg (n - length seg) p3 l3 _ E3)
      as (l4 & -> & E4).
    assert (length (rest l4) + length seg <= length (rest l3))%nat as Hlen4.
    { rewrite E3, <- E4, length_app. lia. }
    destruct (IH (n - length seg)%nat (push_text seg p3) l4 Hok) as (l5 & toks & -> & E5 & Hkinds);
      [done|exact E4|lia|lia|].
    exists l5, toks. split; [done|]. split; [done|]. rewrite Hkinds. cbn [push_text out literal interpolated].
    rewrite Hout, Hi, Hlit. cbn [app List.flat_map]. unfold piece_tokens at 2. cbn [fst snd].
    repeat (rewrite <- !app_assoc; cbn [app]). done.
Qed.

Lemma interpolated_lit_exact m ll lc first pieces l more :
  forallb piece_ok pieces = true → pieces ≠ [] →
  rest l = quote :: interp_segment first ++ List.flat_map (λ p, literal_text (piece_text p)) pieces ++ quote :: more →
  (length (rest l) ≤ S m)%nat →
  ∃ l' toks, string_tokens (λ s, snd (tokenize_loop m [] (new s))) false ll lc l = (l', Good toks) ∧
    rest l' = more ∧
    kinds toks = Tok.LParen :: Tok.Str first :: List.flat_map piece_tokens pieces ++ [Tok.RParen].
Proof.
  intros Hok Hne E Hm. unfold string_tokens. rewrite (bind_good _ _ _ _ _ (next_exact _ _ _ E)).
  pose proof (bump_rest _ _ _ E) as E1. unfold fueled.
  set (p0 := {| literal := []; out := []; interpolated := false |}).
  assert (length (rest l) = S (length (rest (bump l)))) as Hlen by (by rewrite E, E1).
  pose proof (interp_segment_length first) as Hf.
  assert (length first <= length (rest (bump l)))%nat as Hfit by (rewrite E1, length_app; lia).
  destruct (string_segment_exact (λ s, snd (tokenize_loop m [] (new s))) ll lc first
    (S (length (rest (bump l))) - length first) p0 (bump l) _ E1) as (l2 & H2 & E2).
  replace (length first + (S (length (rest (bump l))) - length first))%nat with (S (length (rest (bump l)))) in H2 by lia.
  rewrite H2. assert (length (rest l2) + length first <= length (rest (bump l)))%nat as Hlen2.
  { rewrite E1, <- E2, length_app. lia. }
  apply (string_pieces_exact m ll lc pieces _ (push_text first p0) l2 more Hok); [done|exact E2|lia|lia].
Qed.

Lemma end_last_kinds a b ts : kinds (end_last a b ts) = kinds ts.
Proof. induction ts as [|t [|t2 ts] IH]; [done|done|]. cbn in IH |- *. by rewrite IH. Qed.

(** * Properties *)

(** C24: A sequence of tokens, written with a space before each and literals
    as the formatter prints them, is lexed to the same sequence (up to the
    positions of holes).  The tokens: keywords, operators and punctuation;
    identifiers that are no keywords, and lifetimes; integers and durations
    that are not negative and fit 64 bits; strings with any characters; tagged
    literals whose tag is an identifier other than [f], with one more part
    than holes, and holes that close their own braces and strings and have
    no backslash outside of a string.  No floats, no opening brace (which only
    layout makes), no end of an interpolation, and no duration directly after
    a dot, where digits are an element index. *)
Theorem spelled_tokens_lex_back ks :
  forallb spellable ks = true → dot_safe ks = true →
  ∃ toks, tokenize (spell_all ks) = Good toks ∧
    List.map (λ t, forget_spans (kind t)) toks = List.map forget_spans ks ++ [Tok.Eof].
Proof.
  intros Hk Hs. unfold tokenize.
  destruct (tokenize_spelled ks (S (length (spell_all ks))) [] (new (spell_all ks)) Hk Hs) as (l' & toks & -> & H);
    [done|done|cbn; lia|]. by exists toks.
Qed.

(** A token of every kind of literal. *)
Definition spelled_sample : list Tok :=
  [Tok.Let; Tok.Ident (chars "wait"); Tok.Eq; Tok.Duration 7200000; Tok.Comma; Tok.Str (chars "cost: $5 {x}");
   Tok.Dot; Tok.Int 9223372036854775807; Tok.Lifetime (chars "a");
   Tok.TagLit (chars "sql") [chars "where id = $"; chars " and ${"] [chars "f({1})"] []].

Lemma spelled_tokens_lex_back_witness :
  forallb spellable spelled_sample = true ∧
  ∃ toks, tokenize (spell_all spelled_sample) = Good toks ∧
    List.map (λ t, forget_spans (kind t)) toks = spelled_sample ++ [Tok.Eof].
Proof.
  split; [by vm_compute|].
  exact (spelled_tokens_lex_back spelled_sample ltac:(by vm_compute) ltac:(by vm_compute)).
Defined.

(** An interpolated string as the formatter prints it, with any text in its
    segments, is lexed to the concatenation it stands for: the segments and
    the rendered tokens of the holes, in order. *)
Theorem interpolation_lexes_back first pieces :
  forallb piece_ok pieces = true → pieces ≠ [] →
  ∃ toks, tokenize (interpolated_lit first (List.map piece_text pieces)) = Good toks ∧
    kinds toks = Tok.LParen :: Tok.Str first :: List.flat_map piece_tokens pieces ++ [Tok.RParen; Tok.Eof].
Proof.
  intros Hok Hne. set (source := interpolated_lit first (List.map piece_text pieces)).
  assert (source = quote :: interp_segment first ++
    List.flat_map (λ p, literal_text (piece_text p)) pieces ++ [quote]) as Es.
  { unfold source, interpolated_lit. do 3 f_equal. rewrite !List.flat_map_concat_map, List.map_map. done. }
  unfold tokenize. rewrite (loop_adjacent (length source) [] (new source) quote _ Es) by (by split).
  destruct (interpolated_lit_exact (length source) 1 1 first pieces (new source) [] Hok Hne Es) as (l' & toks & Hs & E & Hk);
    [cbn; lia|].
  assert (∃ toks', round (λ s, snd (tokenize_loop (length source) [] (new s))) true [] quote (new source)
    = (l', Good toks') ∧ kinds toks' = kinds toks) as (toks' & Hr & Hk').
  { unfold round. change (quote =? quote)%N with true. cbn [andb tag_of last_token List.rev head mbind option_bind].
    cbn [cur_line cur_col new]. rewrite (bind_good _ _ _ _ _ Hs). erewrite bind_good by reflexivity.
    eexists. split; [reflexivity|]. apply end_last_kinds. }
  rewrite (bind_good _ _ _ _ _ Hr). assert (∃ m, length source = S m) as [m ->] by (rewrite Es; cbn; eauto).
  rewrite (loop_end m toks' l' E). eexists. split; [reflexivity|].
  rewrite kinds_app, Hk', Hk. cbn. by rewrite <- app_assoc.
Qed.

Definition interpolation_sample : list (list Tok * text) :=
  [([Tok.Ident (chars "x"); Tok.Plus; Tok.Int 1], chars " of "); ([Tok.Str (chars "a}b")], [])].

Lemma interpolation_lexes_back_witness :
  ∃ toks, tokenize (interpolated_lit (chars "n = ") (List.map piece_text interpolation_sample)) = Good toks ∧
    kinds toks = Tok.LParen :: Tok.Str (chars "n = ") ::
      List.flat_map piece_tokens interpolation_sample ++ [Tok.RParen; Tok.Eof].
Proof.
  exact (interpolation_lexes_back (chars "n = ") interpolation_sample ltac:(by vm_compute) ltac:(discriminate)).
Defined.

Lemma walk_digits t a b : forallb is_digit t = true → walk (a, b) t = (a, b + N.of_nat (length t))%N.
Proof.
  revert b. induction t as [|c t IH]; intros b H; [cbn; by rewrite N.add_0_r|].
  cbn in H. apply andb_true_iff in H as [Hc Ht]. cbn [walk List.fold_left]. unfold walk_char at 2. cbn [fst snd].
  assert ((c =? newline)%N = false) as -> by (apply N.eqb_neq; intros ->; done).
  fold (walk (a, b + 1)%N t). rewrite IH by done. f_equal. cbn. lia.
Qed.

Lemma parse_integer_value v :
  parse_integer (decimal_text v) =
  if (v <? 2 ^ 63)%N then Some (Z.of_N v)
  else if (v <? 2 ^ 64)%N then Some (Z.of_N v - 2 ^ 64)%Z else None.
Proof.
  unfold parse_integer, parse_i64, parse_u64. pose proof (decimal_text_nonempty v) as Hne.
  destruct (decimal_text v) as [|c t] eqn:E; [done|]. rewrite <- E, decimal_text_value.
  unfold as_i64, i64_max. destruct (N.ltb_spec v (2 ^ 63)) as [H|H].
  - by rewrite (proj2 (N.leb_le v (2 ^ 63 - 1))) by lia.
  - rewrite (proj2 (N.leb_gt v (2 ^ 63 - 1))) by lia. destruct (v <? 2 ^ 64)%N; [|done]. cbn.
    by rewrite (proj2 (N.leb_gt v (2 ^ 63 - 1))) by lia.
Qed.

Lemma decimal_literal v :
  ∃ c t l1, decimal_text v = c :: t ∧ is_digit c = true ∧ rest l1 = [] ∧
    position l1 = (1, 1 + N.of_nat (length (c :: t)))%N ∧
    plain_token c false (new (c :: t)) =
      (l1, match parse_integer (c :: t) with
           | Some n => Good (Tok.Int n)
           | None => Bad {| message := InvalidInteger (c :: t); error_line := 1;
                            error_col := 1 + N.of_nat (length (c :: t)) |}
           end).
Proof.
  pose proof (decimal_text_all v) as Hd. pose proof (decimal_text_nonempty v) as Hne.
  destruct (decimal_text v) as [|c t]; [done|].
  destruct (decimal_exact (c :: t) [] [] (new (c :: t))) as (l1 & Hr & E1 & Hdec); [by rewrite !app_nil_r|done..|].
  assert (position l1 = (1, 1 + N.of_nat (length (c :: t)))%N) as Hpos.
  { rewrite (reads_position _ _ _ Hr). by apply walk_digits. }
  assert (is_digit c = true) as Hc by (cbn in Hd; by apply andb_true_iff in Hd as [? _]).
  exists c, t, l1. split_and!; [done..|]. unfold plain_token. rewrite Hc.
  rewrite (number_decimal (c :: t) []); [|by rewrite app_nil_r|done..]. rewrite Hdec.
  destruct (parse_integer (c :: t)) as [n|]; cbn [ok_or_err].
  - erewrite bind_good by reflexivity. unfold duration_or_int.
    by destruct (bump_while_exact is_alphabetic [] [] l1 E1) as (l2 & -> & _).
  - injection Hpos as Hl Hcol. unfold mbind, Lex_bind, err. by rewrite Hl, Hcol.
Qed.

Lemma bind_bad {A B} (m : Lex A) (f : A → Lex B) l l' e : m l = (l', Bad e) → (m ≫= f) l = (l', Bad e).
Proof. intros H. unfold mbind, Lex_bind. by rewrite H. Qed.

(** C26: What a decimal literal denotes, for every number: up to the largest
    signed 64-bit integer itself; from there to the largest unsigned one a
    negative number, the value less 2^64, and not only for the magnitude of
    the least integer; beyond that an error at the end of the digits. *)
Theorem integer_literal_value v :
  let width := N.of_nat (length (decimal_text v)) in
  let int n := Good [{| kind := Tok.Int n; line := 1; col := 1; end_line := 1; end_col := 1 + width |};
                     point Tok.Eof 1 (1 + width)] in
  tokenize (decimal_text v) =
  if (v <? 2 ^ 63)%N then int (Z.of_N v)
  else if (v <? 2 ^ 64)%N then int (Z.of_N v - 2 ^ 64)%Z
  else Bad {| message := InvalidInteger (decimal_text v); error_line := 1; error_col := 1 + width |}.
Proof.
  cbv zeta. pose proof (parse_integer_value v) as Hparse.
  destruct (decimal_literal v) as (c & t & l1 & Et & Hc & E1 & Hpos & Hp). rewrite Et in Hparse |- *.
  pose proof (digit_start c t Hc) as Hst. injection Hpos as Hl Hcol. rewrite Hparse in Hp. clear Hparse.
  unfold tokenize. rewrite (loop_adjacent (length (c :: t)) [] (new (c :: t)) c t eq_refl).
  2:{ rewrite <- (app_nil_r (c :: t)). by apply start_solid. }
  set (hole := λ s, snd (tokenize_loop (length (c :: t)) [] (new s))).
  pose proof (round_plain_eq hole true [] c t [] (new (c :: t)) ltac:(by rewrite app_nil_r) Hst ltac:(by left)) as Hr.
  assert (∀ n, plain_token c false (new (c :: t)) = (l1, Good (Tok.Int n)) →
    snd ((round hole true [] c ≫= tokenize_loop (length (c :: t))) (new (c :: t))) =
    Good [{| kind := Tok.Int n; line := 1; col := 1; end_line := 1; end_col := 1 + N.of_nat (length (c :: t)) |};
          point Tok.Eof 1 (1 + N.of_nat (length (c :: t)))]) as Hgood.
  { intros n Hn. rewrite (bind_good _ _ _ _ _ Hn) in Hr. erewrite bind_good in Hr by reflexivity.
    rewrite (bind_good _ _ _ _ _ Hr). cbn [length]. rewrite (loop_end _ _ l1 E1), Hl, Hcol. done. }
  destruct (v <? 2 ^ 63)%N; [by apply Hgood|]. destruct (v <? 2 ^ 64)%N; [by apply Hgood|].
  rewrite (bind_bad _ _ _ _ _ Hp) in Hr. by rewrite (bind_bad _ _ _ _ _ Hr).
Qed.
