(* ===== verification/Layout.v ===== *)
(** * Layout: the off-side rule

    Models [apply_layout] of [crates/witchy-syntax/src/lexer.rs]: tokens are
    grouped into lines with the bracket depth each line starts at; a line
    that ends in [:] or [->] opens a block of virtual braces, which ends at
    a dedent or where the bracket around it closes.

    The two vectors [stack] and [block_bd] of open blocks have their top
    first here.  A line keeps its first token apart from the others, since
    it has one.  The bracket depths, [i32] in the code, are unbounded here:
    they differ only past 2^31 open brackets. *)

From S2P Require Import Prelude Lexer.

Local Open Scope list_scope.

(** * Definitions *)

(** ** Lines *)

Record LayoutLine : Set := {
  indent : N;
  bdepth_start : Z;
  first_token : Token;
  more_tokens : list Token;
}.

Definition toks (l : LayoutLine) : list Token := first_token l :: more_tokens l.

(** How a token changes the bracket depth. *)
Definition opens_bracket (k : Tok) : bool :=
  match k with
  | Tok.LParen | Tok.LBracket | Tok.LBrace | Tok.QuoteHoleStart | Tok.DotLBrace | Tok.DotLBracket => true
  | _ => false
  end.

Definition closes_bracket (k : Tok) : bool :=
  match k with Tok.RParen | Tok.InterpRBrace | Tok.RBracket | Tok.RBrace => true | _ => false end.

Definition depth_change (k : Tok) : Z :=
  if opens_bracket k then 1 else if closes_bracket k then -1 else 0.

(** [lines.last_mut().unwrap().toks.push(t)] *)
Fixpoint push_last (t : Token) (lines : list LayoutLine) : list LayoutLine :=
  match lines with
  | [] => []
  | [l] => [{| indent := indent l; bdepth_start := bdepth_start l; first_token := first_token l;
               more_tokens := more_tokens l ++ [t] |}]
  | l :: lines => l :: push_last t lines
  end.

Definition is_eof (k : Tok) : bool := match k with Tok.Eof => true | _ => false end.
Definition is_colon (k : Tok) : bool := match k with Tok.Colon => true | _ => false end.
Definition is_arrow (k : Tok) : bool := match k with Tok.RArrow => true | _ => false end.

(** Phase 1; the tokens up to [Eof]. *)
Fixpoint group_lines (ts : list Token) (lines : list LayoutLine) (depth : Z) (prev_line : N)
    : list LayoutLine * option Token :=
  match ts with
  | [] => (lines, None)
  | t :: ts =>
      if is_eof (kind t) then (lines, Some t)
      else
        let starts_line := match lines with [] => true | _ => negb (line t =? prev_line)%N end in
        let lines :=
          if starts_line then
            lines ++ [{| indent := col t; bdepth_start := depth; first_token := t; more_tokens := [] |}]
          else push_last t lines in
        group_lines ts lines (depth + depth_change (kind t)) (line t)
  end.

(** ** Blocks *)

Record Blocks : Set := {
  out : list Token;
  stack : list N;
  block_bd : list Z;
  pending : option N;
  bdepth : Z;
}.

Definition vtok (k : Tok) (near : Token) : Token := point k (line near) (col near).

(** [out.last().cloned().unwrap_or_else(|| other.clone())] *)
Definition near (ts : list Token) (other : Token) : Token := default other (head (List.rev ts)).

(** [out.push(vtok(Tok::RBrace, &near))] *)
Definition push_close (ts : list Token) (other : Token) : list Token :=
  ts ++ [vtok Tok.RBrace (near ts other)].

(** The block a header before the line waits for. *)
Definition open_pending (l : LayoutLine) (s : Blocks) : Blocks :=
  match pending s with
  | Some header_indent =>
      if (header_indent <? indent l)%N then
        {| out := out s ++ [vtok Tok.LBrace (first_token l)]; stack := header_indent :: stack s;
           block_bd := bdepth s :: block_bd s; pending := None; bdepth := bdepth s |}
      else
        {| out := out s ++ [vtok Tok.LBrace (first_token l); vtok Tok.RBrace (first_token l)];
           stack := stack s; block_bd := block_bd s; pending := None; bdepth := bdepth s |}
  | None => s
  end.

(** [while stack.last()... && block_bd.last()...] *)
Fixpoint close_dedented (l : LayoutLine) (ts : list Token) (indents : list N) (bds : list Z)
    : list Token * list N * list Z :=
  match indents, bds with
  | top :: indents', bd :: bds' =>
      if (indent l <=? top)%N && (bdepth_start l <=? bd)%Z
      then close_dedented l (push_close ts (first_token l)) indents' bds'
      else (ts, indents, bds)
  | _, _ => (ts, indents, bds)
  end.

Definition dedent (l : LayoutLine) (s : Blocks) : Blocks :=
  let '(ts, indents, bds) := close_dedented l (out s) (stack s) (block_bd s) in
  {| out := ts; stack := indents; block_bd := bds; pending := pending s; bdepth := bdepth s |}.

(** [while block_bd.last().is_some_and(|bd| *bd > new_bd)] *)
Fixpoint close_inner (t : Token) (new_bd : Z) (ts : list Token) (indents : list N) (bds : list Z)
    : list Token * list N * list Z :=
  match bds with
  | bd :: bds' =>
      if (new_bd <? bd)%Z then close_inner t new_bd (push_close ts t) (tail indents) bds'
      else (ts, indents, bds)
  | [] => (ts, indents, bds)
  end.

Definition emit_token (t : Token) (s : Blocks) : Blocks :=
  if closes_bracket (kind t) then
    let new_bd := (bdepth s - 1)%Z in
    let '(ts, indents, bds) := close_inner t new_bd (out s) (stack s) (block_bd s) in
    {| out := ts ++ [t]; stack := indents; block_bd := bds; pending := pending s; bdepth := new_bd |}
  else
    {| out := out s ++ [t]; stack := stack s; block_bd := block_bd s; pending := pending s;
       bdepth := if opens_bracket (kind t) then (bdepth s + 1)%Z else bdepth s |}.

Definition set_pending (header_indent : N) (s : Blocks) : Blocks :=
  {| out := out s; stack := stack s; block_bd := block_bd s; pending := Some header_indent;
     bdepth := bdepth s |}.

(** The tokens of a line; a final [:] is dropped, a final [->] kept. *)
Fixpoint emit_tokens (header_indent : N) (ts : list Token) (s : Blocks) : Blocks :=
  match ts with
  | [] => s
  | t :: ts' =>
      match ts' with
      | [] =>
          if is_colon (kind t) then set_pending header_indent s
          else if is_arrow (kind t) then set_pending header_indent (emit_token t s)
          else emit_token t s
      | _ => emit_tokens header_indent ts' (emit_token t s)
      end
  end.

Definition emit_line (s : Blocks) (l : LayoutLine) : Blocks :=
  emit_tokens (indent l) (toks l) (dedent l (open_pending l s)).

(** What is left open at the end of the input. *)
Fixpoint close_all (eof : Token) (ts : list Token) (indents : list N) : list Token :=
  match indents with
  | [] => ts
  | _ :: indents => close_all eof (push_close ts eof) indents
  end.

Definition finish (eof : Token) (s : Blocks) : list Token :=
  let ts := match pending s with
            | Some _ => let n := near (out s) eof in out s ++ [vtok Tok.LBrace n; vtok Tok.RBrace n]
            | None => out s
            end in
  close_all eof ts (stack s) ++ [eof].

Definition no_blocks : Blocks :=
  {| out := []; stack := []; block_bd := []; pending := None; bdepth := 0 |}.

Definition apply_layout (ts : list Token) : list Token :=
  let '(lines, eof) := group_lines ts [] 0 0 in
  let s := List.fold_left emit_line lines no_blocks in
  match eof with Some eof => finish eof s | None => out s end.

(** * Specification *)

(** ** Nesting *)

Inductive shape : Set := Paren | Square | Brace.

#[export] Instance shape_eq_dec : EqDecision shape.
Proof. solve_decision. Defined.

Definition opening (k : Tok) : option shape :=
  match k with
  | Tok.LParen => Some Paren
  | Tok.LBracket | Tok.DotLBracket => Some Square
  | Tok.LBrace | Tok.DotLBrace | Tok.QuoteHoleStart => Some Brace
  | _ => None
  end.

Definition closing (k : Tok) : option shape :=
  match k with
  | Tok.RParen | Tok.InterpRBrace => Some Paren
  | Tok.RBracket => Some Square
  | Tok.RBrace => Some Brace
  | _ => None
  end.

(** The brackets still open after a token, the innermost first. *)
Definition nest_token (open : option (list shape)) (t : Token) : option (list shape) :=
  open ← open;
  match opening (kind t), closing (kind t) with
  | Some b, _ => Some (b :: open)
  | None, Some b =>
      match open with b' :: open => if bool_decide (b = b') then Some open else None | [] => None end
  | None, None => Some open
  end.

Definition nest (open : option (list shape)) (ts : list Token) : option (list shape) :=
  List.fold_left nest_token ts open.

Definition well_nested (ts : list Token) : Prop := nest (Some []) ts = Some [].

(** ** What is inserted and dropped *)

(** The token is the last of its line. *)
Definition ends_line (t : Token) (ts : list Token) : Prop :=
  match ts with t' :: _ => line t' ≠ line t | [] => True end.

Definition is_header (k : Tok) : bool := is_colon k || is_arrow k.

(** A final [:] becomes an opening brace, a final [->] gets one after it,
    closing braces are inserted, and every other token stays. *)
Inductive laid : list Token → list Token → Prop :=
  | laid_end : laid [] []
  | laid_keep t ts o : (is_header (kind t) = true → ¬ ends_line t ts) → laid ts o → laid (t :: ts) (t :: o)
  | laid_colon t v ts o : kind t = Tok.Colon → ends_line t ts → kind v = Tok.LBrace →
      laid ts o → laid (t :: ts) (v :: o)
  | laid_arrow t v ts o : kind t = Tok.RArrow → ends_line t ts → kind v = Tok.LBrace →
      laid ts o → laid (t :: ts) (t :: v :: o)
  | laid_close v ts o : kind v = Tok.RBrace → laid ts o → laid ts (v :: o).

(** * Phase 1 *)

Definition all_tokens (lines : list LayoutLine) : list Token := List.flat_map toks lines.

Definition change (ts : list Token) : Z := List.fold_right (λ t d, depth_change (kind t) + d)%Z 0%Z ts.

Lemma change_app ts ts' : change (ts ++ ts') = (change ts + change ts')%Z.
Proof. induction ts as [|t ts IH]; [done|]. cbn [app change List.fold_right]. unfold change in *. rewrite IH. lia. Qed.

(** Lines from a depth on: a line starts at the depth its predecessors leave,
    its tokens are on one line of the source, and the next starts another. *)
Fixpoint grouped (d : Z) (lines : list LayoutLine) : Prop :=
  match lines with
  | [] => True
  | l :: rest =>
      bdepth_start l = d ∧ (∀ t, t ∈ more_tokens l → line t = line (first_token l)) ∧
      match rest with l' :: _ => line (first_token l') ≠ line (first_token l) | [] => True end ∧
      grouped (d + change (toks l)) rest
  end.

Lemma grouped_snoc d lines l0 l :
  grouped d (lines ++ [l0]) → bdepth_start l = (d + change (all_tokens (lines ++ [l0])))%Z →
  line (first_token l) ≠ line (first_token l0) → more_tokens l = [] →
  grouped d (lines ++ [l0; l]).
Proof.
  revert d. induction lines as [|l1 lines IH]; intros d H Hd Hl Hm; cbn [app grouped] in H |- *.
  - destruct H as (H1 & H2 & _ & _). split_and!; [done|done|done| |rewrite Hm; set_solver|done|done].
    rewrite Hd. cbn. rewrite app_nil_r. done.
  - destruct H as (H1 & H2 & H3 & H4). split_and!; [done|done|by destruct lines|]. apply IH; [done| |done|done].
    rewrite Hd. change (all_tokens ((l1 :: lines) ++ [l0])) with (toks l1 ++ all_tokens (lines ++ [l0])).
    rewrite change_app. lia.
Qed.

Lemma push_last_snoc t lines l :
  push_last t (lines ++ [l]) = lines ++ [{| indent := indent l; bdepth_start := bdepth_start l;
    first_token := first_token l; more_tokens := more_tokens l ++ [t] |}].
Proof. induction lines as [|l1 lines IH]; [done|]. cbn [app push_last]. rewrite IH. by destruct lines. Qed.

Lemma grouped_last d lines l l' :
  grouped d (lines ++ [l]) → bdepth_start l' = bdepth_start l → first_token l' = first_token l →
  (∀ t, t ∈ more_tokens l' → line t = line (first_token l')) → grouped d (lines ++ [l']).
Proof.
  revert d. induction lines as [|l1 lines IH]; intros d H Hb Hf Hm; cbn [app grouped] in H |- *.
  - destruct H as (H1 & _). split_and!; [by rewrite Hb|done|done|done].
  - destruct H as (H1 & H2 & H3 & H4). split_and!; [done|done| |by apply IH].
    destruct lines; cbn in H3 |- *; [by rewrite Hf|done].
Qed.

Lemma all_tokens_snoc lines l : all_tokens (lines ++ [l]) = all_tokens lines ++ toks l.
Proof. unfold all_tokens. rewrite List.flat_map_app. cbn. by rewrite app_nil_r. Qed.

Lemma list_snoc {A} (l : list A) : l = [] ∨ ∃ l' x, l = l' ++ [x].
Proof. destruct l as [|x l'] using rev_ind; eauto. Qed.

Lemma group_lines_spec body eof lines depth prev :
  (∀ t, t ∈ body → kind t ≠ Tok.Eof) → kind eof = Tok.Eof →
  grouped 0 lines → depth = change (all_tokens lines) →
  (∀ ls l, lines = ls ++ [l] → prev = line (first_token l)) →
  ∃ lines', group_lines (body ++ [eof]) lines depth prev = (lines', Some eof) ∧ grouped 0 lines' ∧
    all_tokens lines' = all_tokens lines ++ body.
Proof.
  intros Hbody He. revert lines depth prev. induction body as [|t body IH]; intros lines depth prev Hg Hd Hp.
  { exists lines. cbn. rewrite He, app_nil_r. done. }
  specialize (IH ltac:(set_solver)). assert (kind t ≠ Tok.Eof) as Ht by (apply Hbody; set_solver).
  assert (∀ lines1, grouped 0 lines1 → all_tokens lines1 = all_tokens lines ++ [t] →
    (∀ ls l, lines1 = ls ++ [l] → line t = line (first_token l)) →
    ∃ lines', group_lines (body ++ [eof]) lines1 (depth + depth_change (kind t)) (line t) = (lines', Some eof) ∧
      grouped 0 lines' ∧ all_tokens lines' = all_tokens lines ++ t :: body) as Hgo.
  { intros lines1 Hg1 Ha1 Hp1. destruct (IH lines1 (depth + depth_change (kind t))%Z (line t) Hg1)
      as (lines' & Hl & Hg' & Ha'); [rewrite Ha1, change_app, Hd; cbn; lia|done|].
    exists lines'. split_and!; [done..|]. by rewrite Ha', Ha1, <- app_assoc. }
  cbn [app group_lines]. assert (is_eof (kind t) = false) as -> by (by destruct (kind t)).
  destruct (list_snoc lines) as [->|(ls & l & ->)].
  - cbn [app]. apply Hgo; [|done|].
    + cbn. split_and!; [by rewrite Hd|set_solver|done|done].
    + intros ls l E. destruct ls as [|? [|? ?]]; [|done|done]. injection E as <-. done.
  - replace (match ls ++ [l] with [] => true | _ => negb (line t =? prev)%N end) with (negb (line t =? prev)%N)
      by (by destruct ls).
    rewrite (Hp ls l eq_refl). destruct (N.eqb_spec (line t) (line (first_token l))) as [Hl|Hl]; cbn [negb].
    + rewrite push_last_snoc. apply Hgo.
      * eapply grouped_last; [exact Hg|done|done|]. cbn. intros x [Hx|Hx%list_elem_of_singleton]%elem_of_app; [|by subst x].
        clear -Hg Hx. revert Hg. generalize 0%Z. induction ls as [|l1 ls IH]; intros d Hg; cbn in Hg.
        -- destruct Hg as (_ & H & _). by apply H.
        -- destruct Hg as (_ & _ & _ & Hg). by eapply IH.
      * rewrite !all_tokens_snoc. by rewrite <- app_assoc.
      * intros ls' l' [_ <-]%app_inj_tail. done.
    + rewrite <- app_assoc. cbn [app]. apply Hgo.
      * apply grouped_snoc; [done|by rewrite Hd|done|done].
      * change [l; _] with ([l] ++ [{| indent := col t; bdepth_start := depth; first_token := t; more_tokens := [] |}]).
        rewrite app_assoc, all_tokens_snoc. done.
      * intros ls' l'. change [l; _] with ([l] ++ [{| indent := col t; bdepth_start := depth; first_token := t;
          more_tokens := [] |}]). rewrite app_assoc. intros [_ <-]%app_inj_tail. done.
Qed.

(** * Nesting is kept *)

(** The open brackets of the source [src] with the open blocks between
    them: a block stands inside as many brackets as its depth says. *)
Inductive woven : list shape → list Z → list shape → Prop :=
  | woven_end : woven [] [] []
  | woven_block src bds open : woven src bds open → woven src (Z.of_nat (length src) :: bds) (Brace :: open)
  | woven_bracket b src bds open : woven src bds open → woven (b :: src) bds (b :: open).

Lemma woven_bound src bds open d : woven src bds open → d ∈ bds → (d <= Z.of_nat (length src))%Z.
Proof.
  induction 1 as [|src bds open _ IH|b src bds open _ IH]; intros Hd; [by apply elem_of_nil in Hd| |].
  - apply elem_of_cons in Hd as [->|Hd]; [lia|by apply IH].
  - specialize (IH Hd). cbn [length]. lia.
Qed.

(** An innermost block, and an innermost bracket. *)
Lemma woven_inner_block src d bds open :
  woven src (d :: bds) open → (Z.of_nat (length src) <= d)%Z →
  ∃ open', open = Brace :: open' ∧ woven src bds open'.
Proof.
  intros H Hd. inversion H as [|? ? open' H'|b src' ? open' H']; subst; [by exists open'|].
  exfalso. pose proof (woven_bound _ _ _ d H' ltac:(set_solver)). cbn [length] in Hd. lia.
Qed.

Lemma woven_inner_bracket b src bds open :
  woven (b :: src) bds open → match bds with d :: _ => (d <= Z.of_nat (length src))%Z | [] => True end →
  ∃ open', open = b :: open' ∧ woven src bds open'.
Proof.
  intros H Hd. inversion H as [|? ? open' H'|? ? ? open' H']; subst; [cbn [length] in Hd; lia|by exists open'].
Qed.

Definition nested (src : list shape) (ts : list Token) (bds : list Z) : Prop :=
  ∃ open, nest (Some []) ts = Some open ∧ woven src bds open.

Lemma nest_app o ts ts' : nest o (ts ++ ts') = nest (nest o ts) ts'.
Proof. apply List.fold_left_app. Qed.

Lemma nest_None ts : nest None ts = None.
Proof. by induction ts. Qed.

Lemma nested_open src ts bds v :
  nested src ts bds → kind v = Tok.LBrace → nested src (ts ++ [v]) (Z.of_nat (length src) :: bds).
Proof.
  intros (open & Ho & Hw) Hv. exists (Brace :: open). rewrite nest_app, Ho. cbn. rewrite Hv.
  split; [done|by constructor].
Qed.

Lemma nested_close src ts d bds v :
  nested src ts (d :: bds) → (Z.of_nat (length src) <= d)%Z → kind v = Tok.RBrace → nested src (ts ++ [v]) bds.
Proof.
  intros (open & Ho & Hw) Hd Hv. destruct (woven_inner_block _ _ _ _ Hw Hd) as (open' & -> & Hw').
  exists open'. rewrite nest_app, Ho. cbn. rewrite Hv. done.
Qed.

Lemma nested_token src src' ts bds t :
  nested src ts bds → nest_token (Some src) t = Some src' →
  (closes_bracket (kind t) = true →
    match bds with d :: _ => (d < Z.of_nat (length src))%Z | [] => True end) →
  nested src' (ts ++ [t]) bds.
Proof.
  intros (open & Ho & Hw) Ht Hbd. unfold nested. rewrite nest_app, Ho. unfold nest, nest_token in *.
  cbn [List.fold_left mbind option_bind] in *.
  assert (closing (kind t) = None ↔ closes_bracket (kind t) = false) as Hcl by (destruct (kind t); split; done).
  destruct (opening (kind t)) as [b|]; [injection Ht as <-; exists (b :: open); split; [done|by constructor]|].
  destruct (closing (kind t)) as [b|]; [|injection Ht as <-; by exists open].
  assert (closes_bracket (kind t) = true) as Hc.
  { destruct (closes_bracket (kind t)); [done|]. pose proof (proj2 Hcl eq_refl) as H. discriminate H. }
  specialize (Hbd Hc). destruct src as [|b' src]; [done|]. case_bool_decide as Hb; [|done]. subst b'.
  injection Ht as <-. destruct (woven_inner_bracket _ _ _ _ Hw) as (open' & -> & Hw').
  { destruct bds; [done|]. cbn [length] in Hbd. lia. }
  exists open'. cbn. by rewrite bool_decide_eq_true_2.
Qed.

Lemma close_inner_nested src t ts indents bds :
  nested src ts bds → length indents = length bds →
  match close_inner t (Z.of_nat (length src) - 1) ts indents bds with
  | (ts', indents', bds') => nested src ts' bds' ∧ length indents' = length bds' ∧
      match bds' with d :: _ => (d < Z.of_nat (length src))%Z | [] => True end
  end.
Proof.
  revert ts indents. induction bds as [|d bds IH]; intros ts indents Hn Hl; cbn [close_inner]; [done|].
  destruct (Z.ltb_spec (Z.of_nat (length src) - 1) d) as [Hd|Hd]; [|split_and!; [done|done|lia]].
  apply IH; [eapply nested_close; [done|lia|done]|]. destruct indents; [done|]. by injection Hl.
Qed.

Lemma close_dedented_nested src l ts indents bds :
  nested src ts bds → length indents = length bds → bdepth_start l = Z.of_nat (length src) →
  match close_dedented l ts indents bds with
  | (ts', indents', bds') => nested src ts' bds' ∧ length indents' = length bds'
  end.
Proof.
  intros Hn Hl Hb. revert ts indents Hn Hl. induction bds as [|d bds IH]; intros ts indents Hn Hl.
  { destruct indents; [done|done]. }
  destruct indents as [|i indents]; [done|]. cbn [close_dedented].
  destruct ((indent l <=? i)%N && (bdepth_start l <=? d)%Z) eqn:E; [|done].
  apply andb_true_iff in E as [_ E%Z.leb_le]. apply IH; [eapply nested_close; [done|lia|done]|by injection Hl].
Qed.

(** The state after the source tokens that leave [src] open. *)
Record balanced (src : list shape) (s : Blocks) : Prop := {
  balanced_nested : nested src (out s) (block_bd s);
  balanced_stack : length (stack s) = length (block_bd s);
  balanced_depth : bdepth s = Z.of_nat (length src);
}.

Lemma open_pending_balanced src l s :
  balanced src s → balanced src (open_pending l s) ∧ pending (open_pending l s) = None.
Proof.
  intros [Hn Hs Hd]. unfold open_pending. destruct (pending s) as [h|] eqn:Ep; [|done].
  destruct (h <? indent l)%N; (split; [split; cbn|done]); [|by rewrite Hs|done| |done|done].
  - rewrite Hd. by apply nested_open.
  - change [vtok Tok.LBrace (first_token l); vtok Tok.RBrace (first_token l)] with
      ([vtok Tok.LBrace (first_token l)] ++ [vtok Tok.RBrace (first_token l)]). rewrite app_assoc.
    apply (nested_close src _ (Z.of_nat (length src))); [by apply nested_open|lia|done].
Qed.

Lemma dedent_balanced src l s :
  balanced src s → bdepth_start l = Z.of_nat (length src) → balanced src (dedent l s).
Proof.
  intros [Hn Hs Hd] Hb. unfold dedent. pose proof (close_dedented_nested src l _ _ _ Hn Hs Hb) as H.
  destruct (close_dedented _ _ _ _) as [[ts indents] bds]. destruct H. by split.
Qed.

Lemma nest_token_length src src' t :
  nest_token (Some src) t = Some src' → Z.of_nat (length src') = (Z.of_nat (length src) + depth_change (kind t))%Z.
Proof.
  unfold nest_token, depth_change. cbn [mbind option_bind].
  destruct (kind t); cbn; intros H; try (injection H as <-; cbn [length]; lia);
    (destruct src as [|b src]; [done|]; case_bool_decide; [|done]; injection H as <-; cbn [length]; lia).
Qed.

Lemma emit_token_balanced src src' t s :
  balanced src s → nest_token (Some src) t = Some src' → balanced src' (emit_token t s).
Proof.
  intros [Hn Hs Hd] Ht. pose proof (nest_token_length _ _ _ Ht) as Hl. unfold emit_token, depth_change in *.
  assert (closes_bracket (kind t) = true → opens_bracket (kind t) = false) as Hexcl by (by destruct (kind t)).
  destruct (closes_bracket (kind t)) eqn:Ec.
  - rewrite (Hexcl eq_refl) in Hl. rewrite Hd.
    pose proof (close_inner_nested src t (out s) (stack s) (block_bd s) Hn Hs) as H.
    destruct (close_inner _ _ _ _ _) as [[ts indents] bds]. destruct H as (H1 & H2 & H3).
    split; cbn; [by eapply nested_token|done|lia].
  - split; cbn; [eapply nested_token; [done|done|by rewrite Ec]|done|].
    rewrite Hd. destruct (opens_bracket (kind t)); lia.
Qed.

Lemma set_pending_balanced src h s : balanced src s → balanced src (set_pending h s).
Proof. by intros [Hn Hs Hd]. Qed.

Lemma emit_tokens_balanced h ts src src' s :
  balanced src s → nest (Some src) ts = Some src' → balanced src' (emit_tokens h ts s).
Proof.
  revert src s. induction ts as [|t ts IH]; intros src s Hb Hn; [by injection Hn as <-|].
  cbn [nest List.fold_left] in Hn. fold (nest (nest_token (Some src) t) ts) in Hn.
  destruct (nest_token (Some src) t) as [src1|] eqn:Et; [|by rewrite nest_None in Hn].
  pose proof (emit_token_balanced _ _ _ _ Hb Et) as Hb1. cbn [emit_tokens]. destruct ts as [|t2 ts].
  - injection Hn as <-. destruct (is_colon (kind t)) eqn:Ec; [|destruct (is_arrow (kind t)); [by apply set_pending_balanced|done]].
    apply set_pending_balanced. unfold nest_token in Et. cbn [mbind option_bind] in Et.
    destruct (kind t); try done. by injection Et as <-.
  - by eapply IH.
Qed.

Lemma emit_line_balanced src src' s l :
  balanced src s → bdepth_start l = Z.of_nat (length src) → nest (Some src) (toks l) = Some src' →
  balanced src' (emit_line s l).
Proof.
  intros Hb Hd Hn. unfold emit_line. eapply emit_tokens_balanced; [|done].
  apply dedent_balanced; [|done]. by apply open_pending_balanced.
Qed.

Lemma nest_length src ts src' :
  nest (Some src) ts = Some src' → Z.of_nat (length src') = (Z.of_nat (length src) + change ts)%Z.
Proof.
  revert src. induction ts as [|t ts IH]; intros src H; [injection H as <-; cbn; lia|].
  cbn [nest List.fold_left] in H. fold (nest (nest_token (Some src) t) ts) in H.
  destruct (nest_token (Some src) t) as [src1|] eqn:Et; [|by rewrite nest_None in H].
  rewrite (IH _ H), (nest_token_length _ _ _ Et). cbn [change List.fold_right]. unfold change. lia.
Qed.

Lemma emit_lines_balanced lines src src' s d :
  balanced src s → grouped d lines → d = Z.of_nat (length src) →
  nest (Some src) (all_tokens lines) = Some src' → balanced src' (List.fold_left emit_line lines s).
Proof.
  revert src s d. induction lines as [|l lines IH]; intros src s d Hb Hg Hd Hn; [by injection Hn as <-|].
  destruct Hg as (H1 & _ & _ & Hg). unfold all_tokens in Hn. cbn [List.flat_map] in Hn. rewrite nest_app in Hn.
  destruct (nest (Some src) (toks l)) as [src1|] eqn:Et; [|by rewrite nest_None in Hn].
  cbn [List.fold_left]. eapply (IH src1); [eapply emit_line_balanced; [done|congruence|done]|exact Hg| |exact Hn].
  rewrite (nest_length _ _ _ Et). lia.
Qed.

Lemma close_all_nested eof ts indents bds :
  nested [] ts bds → length indents = length bds → nested [] (close_all eof ts indents) [].
Proof.
  revert ts bds. induction indents as [|i indents IH]; intros ts bds Hn Hl; destruct bds as [|d bds]; try done.
  cbn [close_all]. injection Hl as Hl. apply (IH _ bds); [|done]. destruct Hn as (open & Ho & Hw).
  eapply nested_close; [by exists open| |done]. inversion Hw; subst. cbn. lia.
Qed.

Lemma finish_nested eof s : kind eof = Tok.Eof → balanced [] s → well_nested (finish eof s).
Proof.
  intros He [Hn Hs _]. unfold finish.
  set (ts := match pending s with Some _ => _ | None => _ end).
  assert (nested [] ts (block_bd s)) as Hts.
  { unfold ts. destruct (pending s) as [h|]; [|done]. set (n := near (out s) eof).
    change [vtok Tok.LBrace n; vtok Tok.RBrace n] with ([vtok Tok.LBrace n] ++ [vtok Tok.RBrace n]).
    rewrite app_assoc. apply (nested_close [] _ 0); [by apply (nested_open [])|done|done]. }
  destruct (close_all_nested eof ts (stack s) (block_bd s) Hts Hs) as (open & Ho & Hw).
  inversion Hw; subst. unfold well_nested. rewrite nest_app, Ho. cbn. by rewrite He.
Qed.

(** * What stays, what is inserted *)

(** What may follow: after a header the brace of its block. *)
Definition goes_on (waiting : option N) (last_line : option N) (ts o : list Token) : Prop :=
  match waiting with
  | None => laid ts o
  | Some _ => ∃ v o', o = v :: o' ∧ kind v = Tok.LBrace ∧ laid ts o' ∧
      match last_line, ts with Some n, t :: _ => line t ≠ n | _, _ => True end
  end.

(** [out s] is the layout of [prefix], up to the brace that is waited for. *)
Definition laid_out (prefix : list Token) (s : Blocks) : Prop :=
  ∀ ts o, goes_on (pending s) (line <$> head (List.rev prefix)) ts o → laid (prefix ++ ts) (out s ++ o).

Lemma laid_closes vs ts o : (∀ v, v ∈ vs → kind v = Tok.RBrace) → laid ts o → laid ts (vs ++ o).
Proof. induction vs as [|v vs IH]; intros Hv H; [done|]. apply laid_close; [set_solver|]. apply IH; [set_solver|done]. Qed.

(** Closing braces after a text. *)
Definition closes (ts ts' : list Token) : Prop := ∃ vs, ts' = ts ++ vs ∧ ∀ v, v ∈ vs → kind v = Tok.RBrace.

Lemma closes_refl ts : closes ts ts.
Proof. exists []. rewrite app_nil_r. split; [done|set_solver]. Qed.

Lemma closes_push ts other ts' : closes (push_close ts other) ts' → closes ts ts'.
Proof.
  intros (vs & -> & Hv). unfold push_close. exists (vtok Tok.RBrace (near ts other) :: vs). rewrite <- app_assoc.
  split; [done|]. intros v [->|H]%elem_of_cons; [done|by apply Hv].
Qed.

Lemma close_dedented_closes l ts indents bds : closes ts (close_dedented l ts indents bds).1.1.
Proof.
  revert ts bds. induction indents as [|i indents IH]; intros ts [|d bds]; try apply closes_refl.
  cbn [close_dedented]. destruct (_ && _); [|apply closes_refl]. eapply closes_push, IH.
Qed.

Lemma close_inner_closes t d ts indents bds : closes ts (close_inner t d ts indents bds).1.1.
Proof.
  revert ts indents. induction bds as [|b bds IH]; intros ts indents; cbn [close_inner]; [apply closes_refl|].
  destruct (_ <? _)%Z; [|apply closes_refl]. eapply closes_push, IH.
Qed.

Lemma close_all_closes eof ts indents : closes ts (close_all eof ts indents).
Proof. revert ts. induction indents as [|i indents IH]; intros ts; [apply closes_refl|]. eapply closes_push, IH. Qed.

(** The start of a line. *)
Lemma start_line_laid prefix l s :
  laid_out prefix s → (∀ t, head (List.rev prefix) = Some t → line (first_token l) ≠ line t) →
  pending (dedent l (open_pending l s)) = None ∧
  ∀ ts o, laid (first_token l :: ts) o →
    laid (prefix ++ first_token l :: ts) (out (dedent l (open_pending l s)) ++ o).
Proof.
  intros Hs Hl. unfold dedent. set (s1 := open_pending l s).
  pose proof (close_dedented_closes l (out s1) (stack s1) (block_bd s1)) as (vs & Hvs & Hv).
  destruct (close_dedented l (out s1) (stack s1) (block_bd s1)) as [[ts1 indents1] bds1]. cbn in Hvs |- *. subst ts1.
  assert (pending s1 = None ∧ ∀ ts o, laid (first_token l :: ts) o →
    laid (prefix ++ first_token l :: ts) (out s1 ++ o)) as [Hp H1].
  { unfold s1, open_pending, laid_out in *. destruct (pending s) as [h|] eqn:Ep; [|by split; [|intros; apply Hs]].
    destruct (h <? indent l)%N; (split; [done|]); intros ts o H; cbn [out]; rewrite <- app_assoc; apply Hs;
      eexists _, _; (split; [reflexivity|]); (split; [done|]); (split; [|destruct (head (List.rev prefix)); [by apply Hl|done]]).
    - done.
    - by apply laid_close. }
  split; [done|]. intros ts o H. rewrite <- app_assoc. apply H1. by apply laid_closes.
Qed.

Lemma emit_token_pending t s : pending (emit_token t s) = pending s.
Proof. unfold emit_token. destruct (closes_bracket _); [|done]. by destruct (close_inner _ _ _ _ _) as [[? ?] ?]. Qed.

(** A token that stays. *)
Lemma emit_token_out t s : ∃ vs, out (emit_token t s) = out s ++ vs ++ [t] ∧ ∀ v, v ∈ vs → kind v = Tok.RBrace.
Proof.
  unfold emit_token. destruct (closes_bracket _).
  - pose proof (close_inner_closes t (bdepth s - 1) (out s) (stack s) (block_bd s)) as (vs & Hvs & Hv).
    destruct (close_inner _ _ _ _ _) as [[ts indents] bds]. cbn in Hvs |- *. subst ts. exists vs.
    by rewrite <- app_assoc.
  - exists []. split; [done|set_solver].
Qed.

(** The tokens of a line, all on line [n] of the source. *)
Lemma emit_tokens_laid h n ts s :
  ts ≠ [] → (∀ t, t ∈ ts → line t = n) → pending s = None →
  ∃ o1, out (emit_tokens h ts s) = out s ++ o1 ∧
    ∀ ts' o, goes_on (pending (emit_tokens h ts s)) (Some n) ts' o → laid (ts ++ ts') (o1 ++ o).
Proof.
  revert s. induction ts as [|t ts IH]; intros s Hne Hn Hp; [done|]. destruct (emit_token_out t s) as (vs & Hout & Hv).
  assert (line t = n) as Ht by (apply Hn; set_solver).
  assert (∀ ts' o, (is_header (kind t) = true → ¬ ends_line t ts') → laid ts' o → laid (t :: ts') (vs ++ t :: o)) as Hkeep.
  { intros ts' o Hh H. apply laid_closes; [done|]. by apply laid_keep. }
  cbn [emit_tokens]. destruct ts as [|t2 ts].
  - assert (∀ ts', match ts' with t' :: _ => line t' ≠ n | [] => True end → ends_line t ts') as Hends.
    { intros [|t' ts'] H; [done|]. cbn. by rewrite Ht. }
    destruct (is_colon (kind t)) eqn:Ec.
    + exists []. cbn. rewrite app_nil_r. split; [done|]. intros ts' o (v & o' & -> & Hvk & H & Hl).
      apply laid_colon; [by destruct (kind t)|by apply Hends|done|done].
    + destruct (is_arrow (kind t)) eqn:Ea.
      * exists (vs ++ [t]). cbn [set_pending out pending]. split; [done|].
        intros ts' o (v & o' & -> & Hvk & H & Hl). rewrite <- app_assoc. apply laid_closes; [done|].
        apply laid_arrow; [by destruct (kind t)|by apply Hends|done|done].
      * exists (vs ++ [t]). split; [done|]. rewrite emit_token_pending, Hp. intros ts' o H.
        rewrite <- app_assoc. apply Hkeep; [|done]. unfold is_header. by rewrite Ec, Ea.
  - destruct (IH (emit_token t s)) as (o1 & Ho & Hlaid); [done|set_solver|by rewrite emit_token_pending|].
    exists ((vs ++ [t]) ++ o1). rewrite Ho, Hout, <- !app_assoc. split; [done|]. intros ts' o Hg.
    rewrite <- !app_assoc. cbn [app]. apply Hkeep; [|by apply Hlaid]. intros _ He. apply He. rewrite Ht. apply Hn. set_solver.
Qed.

Lemma rev_head_app {A} (l l' : list A) : l' ≠ [] → head (List.rev (l ++ l')) = head (List.rev l').
Proof.
  intros H. rewrite List.rev_app_distr. destruct (List.rev l') eqn:E; [|done].
  exfalso. apply H. rewrite <- (List.rev_involutive l'), E. done.
Qed.

Lemma emit_line_laid prefix l s :
  laid_out prefix s → (∀ t, head (List.rev prefix) = Some t → line (first_token l) ≠ line t) →
  (∀ t, t ∈ more_tokens l → line t = line (first_token l)) →
  ∀ ts o, goes_on (pending (emit_line s l)) (Some (line (first_token l))) ts o →
    laid ((prefix ++ toks l) ++ ts) (out (emit_line s l) ++ o).
Proof.
  intros Hs Hl Hm ts o Hg. destruct (start_line_laid prefix l s Hs Hl) as [Hp Hstart]. unfold emit_line in *.
  destruct (emit_tokens_laid (indent l) (line (first_token l)) (toks l) (dedent l (open_pending l s)))
    as (o1 & Ho & Hlaid); [done| |done|].
  { intros t [->|Ht]%elem_of_cons; [done|by apply Hm]. }
  rewrite Ho, <- !app_assoc. apply Hstart. change (first_token l :: more_tokens l ++ ts) with (toks l ++ ts).
  by apply Hlaid.
Qed.

Lemma emit_lines_laid prefix lines s d :
  laid_out prefix s → grouped d lines →
  (∀ t l rest, head (List.rev prefix) = Some t → lines = l :: rest → line (first_token l) ≠ line t) →
  laid_out (prefix ++ all_tokens lines) (List.fold_left emit_line lines s).
Proof.
  revert prefix s d. induction lines as [|l lines IH]; intros prefix s d Hs Hg Hl.
  { cbn. by rewrite app_nil_r. }
  destruct Hg as (_ & Hm & Hnext & Hg). cbn [List.fold_left]. unfold all_tokens. cbn [List.flat_map].
  rewrite app_assoc. fold (all_tokens lines).
  assert (∃ t, head (List.rev (prefix ++ toks l)) = Some t ∧ line t = line (first_token l)) as (tl & Htl & Hline).
  { rewrite rev_head_app by done. destruct (list_snoc (toks l)) as [E|(ts & t & E)]; [done|].
    rewrite E, List.rev_app_distr. exists t. split; [done|]. assert (t ∈ toks l) as Ht by (rewrite E; set_solver).
    apply elem_of_cons in Ht as [->|Ht]; [done|by apply Hm]. }
  eapply IH; [|exact Hg|].
  - intros ts o Hgo. rewrite Htl in Hgo. cbn [fmap option_fmap option_map] in Hgo. rewrite Hline in Hgo.
    apply (emit_line_laid prefix l s Hs); [intros t Ht; by eapply Hl|done|done].
  - intros t l' rest Ht ->. rewrite Htl in Ht. injection Ht as <-. by rewrite Hline.
Qed.

Lemma finish_laid prefix eof s : laid_out prefix s → ∃ o, finish eof s = o ++ [eof] ∧ laid prefix o.
Proof.
  intros Hs. unfold finish. set (ts := match pending s with Some _ => _ | None => _ end).
  destruct (close_all_closes eof ts (stack s)) as (vs & -> & Hv). exists (ts ++ vs). split; [done|].
  assert (laid [] vs) as Hvs.
  { rewrite <- (app_nil_r vs). apply laid_closes; [done|constructor]. }
  rewrite <- (app_nil_r prefix). unfold ts, laid_out in *. destruct (pending s) as [h|].
  - rewrite <- app_assoc. apply Hs. eexists _, _. split; [reflexivity|]. split; [done|].
    split; [by apply laid_close|]. by destruct (line <$> _).
  - by apply Hs.
Qed.

(** * Property *)

(** C23: The off-side rule keeps the program: in the tokens the parser gets, a
    final colon has become an opening brace and a final arrow is followed by
    one, closing braces are inserted, and every other token stands as it was.
    When the brackets of the source nest, so do the brackets and braces of
    the result: a block ends before the bracket around it closes, and no
    dedent ends a block around an open bracket. *)
Theorem layout_faithful body eof :
  (∀ t, t ∈ body → kind t ≠ Tok.Eof) → kind eof = Tok.Eof →
  ∃ o, apply_layout (body ++ [eof]) = o ++ [eof] ∧ laid body o ∧
    (well_nested body → well_nested o).
Proof.
  intros Hbody He. unfold apply_layout.
  destruct (group_lines_spec body eof [] 0 0 Hbody He) as (lines & -> & Hg & Ha); [done|done|by intros [] ?|].
  cbn [all_tokens List.flat_map app] in Ha. set (s := List.fold_left emit_line lines no_blocks).
  assert (laid_out (all_tokens lines) s) as Hlaid.
  { apply (emit_lines_laid [] lines no_blocks 0); [|done|by intros ? ? ? ?]. intros ts o H. exact H. }
  destruct (finish_laid _ eof s Hlaid) as (o & Ho & Hl). exists o. rewrite <- Ha. split_and!; [done|done|].
  intros Hn. assert (balanced [] s) as Hb.
  { apply (emit_lines_balanced lines [] [] no_blocks 0); [|done|done|exact Hn]. split; [|done|done].
    exists []. split; [done|constructor]. }
  pose proof (finish_nested eof s He Hb) as H. rewrite Ho in H. unfold well_nested in *.
  rewrite nest_app in H. destruct (nest (Some []) o) as [open|]; [|done]. cbn in H. by rewrite He in H.
Qed.

(** A call whose argument is a function with a block, in a function. *)
Definition layout_sample : list Token :=
  match tokenize (chars "fn f(x):" ++ newline :: chars "  map(x, fn(c):" ++ newline :: chars "    c + 1)" ++
                  newline :: chars "fn g():" ++ [newline]) with
  | Good ts => ts
  | _ => []
  end.

Definition layout_body : list Token := removelast layout_sample.
Definition layout_eof : Token := List.last layout_sample (point Tok.Eof 0 0).

Lemma layout_body_kinds : ∀ t, t ∈ layout_body → kind t ≠ Tok.Eof.
Proof.
  intros t Ht%list_elem_of_In. assert (forallb (λ t, negb (is_eof (kind t))) layout_body = true) as H by (by vm_compute).
  eapply List.forallb_forall in H; [|exact Ht]. clear Ht. intros E. rewrite E in H. discriminate H.
Qed.

Lemma layout_faithful_witness :
  ∃ o, apply_layout (layout_body ++ [layout_eof]) = o ++ [layout_eof] ∧ well_nested o ∧
    length o = 27%nat.
Proof.
  destruct (layout_faithful layout_body layout_eof layout_body_kinds ltac:(by vm_compute)) as (o & Ho & _ & Hn).
  exists o. split; [exact Ho|]. split; [apply Hn; by vm_compute|].
  apply (f_equal (@length Token)) in Ho. rewrite (length_app o) in Ho. cbn [length] in Ho.
  assert (length (apply_layout (layout_body ++ [layout_eof])) = 28%nat) as Hl by (by vm_compute). lia.
Defined.
