(* ===== verification/FetchProvider.v ===== *)
(** * FetchProvider: the host side of [Fetch]

    Models [crates/witchy-runtime/src/fetch.rs]: origin allowlists and their
    narrowing, the derivation of a Fetch from a Net allowlist, the order of
    checks before a connection, the bytes of the request, the bounded read
    and the parsing of the response.  Bytes are 8-bit characters of a
    [string].  Name resolution and the connection are parameters; a timeout
    is in seconds. *)

From S2P Require Import Prelude Text Address NetPolicy Whitespace FetchUrl SyntheticNames.

Local Open Scope string_scope.

(** ** Errors *)

Inductive FetchError : Set :=
  | FetchDenied (origin : string)
  | InvalidRequest (message : string)
  | Timeout
  | Redirect (status : N)
  | Network (message : string)
  | MalformedResponse (message : string)
  | ResponseTooLarge (limit : N).

Definition code (e : FetchError) : string :=
  match e with
  | FetchDenied _ => "denied"
  | InvalidRequest _ => "invalid-request"
  | Timeout => "timeout"
  | Redirect _ => "redirect"
  | Network _ => "network"
  | MalformedResponse _ => "malformed-response"
  | ResponseTooLarge _ => "response-too-large"
  end.

(** [Display] *)
Definition show_error (e : FetchError) : string :=
  match e with
  | FetchDenied origin => "Fetch origin `" +:+ origin +:+ "` is not granted"
  | InvalidRequest message => "invalid Fetch request: " +:+ message
  | Timeout => "Fetch request timed out"
  | Redirect status => "Fetch redirects are disabled (HTTP status " +:+ show_N status +:+ ")"
  | Network message => "Fetch network error: " +:+ message
  | MalformedResponse message => "malformed Fetch response: " +:+ message
  | ResponseTooLarge limit =>
      "Fetch response exceeds the " +:+ show_N limit +:+ "-byte host limit"
  end.

(** An [std::io::Error]: whether its kind is [TimedOut] or [WouldBlock], and
    its text. *)
Record IoError : Set := { timed_out : bool; io_message : string }.

Definition io_error (e : IoError) : FetchError :=
  if timed_out e then Timeout else Network (io_message e).

(** ** Origins and policies *)

(** [Origin::parse]: the origin of the capability model, its scheme parsed
    again from its text. *)
Definition parse_origin (input : string) : result FetchError FetchOrigin :=
  origin ← map_err InvalidRequest (Origin.parse input);
  scheme ← map_err InvalidRequest (Scheme.parse (Scheme.as_str (origin_scheme origin)));
  Ok {| origin_scheme := scheme; origin_host := origin_host origin;
        origin_port := origin_port origin |}.

(** [ParsedUrl::parse] *)
Definition parse_fetch_url (input : string) (origin_only : bool)
    : result FetchError ParsedFetchUrl :=
  parsed ← map_err InvalidRequest (parse_url input origin_only);
  let origin := url_origin parsed in
  scheme ← map_err InvalidRequest (Scheme.parse (Scheme.as_str (origin_scheme origin)));
  Ok {| url_origin := {| origin_scheme := scheme; origin_host := origin_host origin;
                         origin_port := origin_port origin |};
        url_path_and_query := url_path_and_query parsed |}.

Inductive AllowedOrigins : Set :=
  | AnyOrigin
  | Exact (origins : list FetchOrigin).

Record FetchPolicy : Set := {
  allowed : AllowedOrigins;
  network_floor : option (list string);
  timeout : N;
  max_response_bytes : N;
}.

(** The loop the three constructors share: each origin is parsed, checked,
    and kept once. *)
Fixpoint collect_origins (check : FetchOrigin → result FetchError unit) (origins : list string)
    (kept : list FetchOrigin) : result FetchError (list FetchOrigin) :=
  match origins with
  | [] => Ok kept
  | input :: rest =>
      origin ← parse_origin input;
      check origin;;
      collect_origins check rest
        (if bool_decide (origin ∈ kept) then kept else (kept ++ [origin])%list)
  end.

Definition allow (origins : list string) : result FetchError FetchPolicy :=
  allowed ← collect_origins (λ _, Ok tt) origins [];
  Ok {| allowed := Exact allowed; network_floor := None; timeout := 30;
        max_response_bytes := 16 * 1024 * 1024 |}.

Definition system : FetchPolicy :=
  {| allowed := AnyOrigin; network_floor := None; timeout := 30;
     max_response_bytes := 16 * 1024 * 1024 |}.

(** [format!("{}:{}", display_host(&origin.host), origin.port)] *)
Definition authority_text (o : FetchOrigin) : string :=
  display_fetch_host (origin_host o) +:+ ":" +:+ show_N (origin_port o).

Definition from_net (net_allow : list string) (origins : list string)
    : result FetchError FetchPolicy :=
  allowed ← collect_origins
    (λ origin, fail_if (negb (net_allows net_allow (authority_text origin)))
                 (FetchDenied (Origin.as_str origin))) origins [];
  Ok {| allowed := Exact allowed; network_floor := Some net_allow; timeout := 30;
        max_response_bytes := 16 * 1024 * 1024 |}.

Definition with_limits (p : FetchPolicy) (timeout max_response_bytes : N) : FetchPolicy :=
  {| allowed := allowed p; network_floor := network_floor p; timeout := timeout;
     max_response_bytes := max_response_bytes |}.

Definition admits (p : FetchPolicy) (origin : FetchOrigin) : bool :=
  match allowed p with
  | AnyOrigin => true
  | Exact origins => bool_decide (origin ∈ origins)
  end.

Definition only (p : FetchPolicy) (origins : list string) : result FetchError FetchPolicy :=
  narrowed ← collect_origins
    (λ origin, fail_if (negb (admits p origin)) (FetchDenied (Origin.as_str origin))) origins [];
  Ok {| allowed := Exact narrowed; network_floor := network_floor p; timeout := timeout p;
        max_response_bytes := max_response_bytes p |}.

(** ** Requests and responses *)

Record FetchRequest : Set := {
  method : string;
  url : string;
  request_headers : list (string * string);
  request_body : string;
}.

Record FetchResponse : Set := {
  status : N;
  response_headers : list (string * string);
  response_body : string;
}.

Fixpoint validate_headers (headers : list (string * string)) : result FetchError unit :=
  match headers with
  | [] => Ok tt
  | (name, value) :: rest =>
      map_err InvalidRequest (validate_fetch_header name value);; validate_headers rest
  end.

Definition crlf : string := String "013" (String "010" "").

(** The header lines of the caller, each [name: value]. *)
Fixpoint header_lines (headers : list (string * string)) : string :=
  match headers with
  | [] => ""
  | (name, value) :: rest => name +:+ ": " +:+ value +:+ crlf +:+ header_lines rest
  end.

Definition host_header (u : ParsedFetchUrl) : string :=
  let origin := url_origin u in
  if (origin_port origin =? Scheme.default_port (origin_scheme origin))%N
  then display_fetch_host (origin_host origin) else authority_text origin.

(** The bytes [send] writes. *)
Definition request_wire (u : ParsedFetchUrl) (r : FetchRequest) : string :=
  method r +:+ " " +:+ url_path_and_query u +:+ " HTTP/1.1" +:+ crlf +:+
  "Host: " +:+ host_header u +:+ crlf +:+ "Connection: close" +:+ crlf +:+
  header_lines (request_headers r) +:+
  (if String.eqb (request_body r) "" then ""
   else "Content-Length: " +:+ show_N (N.of_nat (String.length (request_body r))) +:+ crlf) +:+
  crlf +:+ request_body r.

(** [haystack.split("\r\n")]; every piece but the last ends at a separator,
    so one more than the length is enough. *)
Fixpoint split_lines_fuel (fuel : nat) (s : string) : list string :=
  match fuel with
  | O => [s]
  | S fuel =>
      match split_once_str crlf s with
      | Some (line, rest) => line :: split_lines_fuel fuel rest
      | None => [s]
      end
  end.

Definition split_lines (s : string) : list string := split_lines_fuel (S (String.length s)) s.

Definition malformed {A} (message : string) : result FetchError A := Err (MalformedResponse message).

Fixpoint parse_header_lines (lines : list string) : result FetchError (list (string * string)) :=
  match lines with
  | [] => Ok []
  | line :: rest =>
      '(name, value) ← ok_or (split_once ":" line) (MalformedResponse "malformed response header");
      fail_if (String.eqb name "" ||
               (starts_with " " name || starts_with (String "009" "") name))
        (MalformedResponse "obsolete folded response header");;
      headers ← parse_header_lines rest;
      Ok ((name, trim value) :: headers)
  end.

(** *** Chunked bodies *)

Definition hex_value (a : ascii) : option N :=
  let n := N_of_ascii a in
  if is_ascii_digit a then Some (n - 48)%N
  else if (97 <=? n)%N && (n <=? 102)%N then Some (n - 87)%N
  else if (65 <=? n)%N && (n <=? 70)%N then Some (n - 55)%N
  else None.

Fixpoint parse_hex_digits (acc : N) (s : string) : option N :=
  match s with
  | "" => Some acc
  | String a s => d ← hex_value a; parse_hex_digits (acc * 16 + d)%N s
  end.

(** [usize::from_str_radix(s, 16)] on a 64-bit host *)
Definition parse_hex (s : string) : option N :=
  let digits := match strip_prefix "+" s with Some r => r | None => s end in
  if String.eqb digits "" then None
  else v ← parse_hex_digits 0 digits; if (v <=? u64_max)%N then Some v else None.

(** [&s[..n]] and [&s[n..]] *)
Fixpoint take_str (n : nat) (s : string) : string :=
  match n, s with S n, String a s => String a (take_str n s) | _, _ => "" end.
Fixpoint drop_str (n : nat) (s : string) : string :=
  match n, s with S n, String a s => drop_str n s | _, _ => s end.

(** The text of the size line up to a [;], empty when it is not UTF-8. *)
Definition size_text (line : string) : string :=
  if valid_utf8 line then default "" (head (split_char ";" line)) else "".

(** One turn of the loop: the chunk and the rest of the input, or the end. *)
Definition next_chunk (input : string) : result FetchError (option (string * string)) :=
  '(line, input) ← ok_or (split_once_str crlf input)
                     (MalformedResponse "truncated chunk-size line");
  size ← ok_or (parse_hex (trim (size_text line))) (MalformedResponse "invalid chunk size");
  if (size =? 0)%N then Ok None
  else
    chunk_end ← ok_or (checked_add u64_max size 2) (MalformedResponse "truncated chunk body");
    let n := N.to_nat size in
    if (N.of_nat (String.length input) <? chunk_end)%N
    then malformed "truncated chunk body"
    else if negb (String.eqb (take_str 2 (drop_str n input)) crlf)
    then malformed "truncated chunk body"
    else Ok (Some (take_str n input, drop_str (n + 2) input)).

(** [decode_chunked]; [None] is a loop that ran out of turns. *)
Fixpoint decode_chunked_fuel (fuel : nat) (input output : string)
    : option (result FetchError string) :=
  match fuel with
  | O => None
  | S fuel =>
      match next_chunk input with
      | Err e => Some (Err e)
      | Ok None => Some (Ok output)
      | Ok (Some (chunk, input)) => decode_chunked_fuel fuel input (output +:+ chunk)
      end
  end.

(** Every chunk takes at least one byte of the input. *)
Definition decode_chunked (input : string) : result FetchError string :=
  default (malformed "") (decode_chunked_fuel (S (String.length input)) input "").

(** *** The response *)

Definition is_chunked (headers : list (string * string)) : bool :=
  existsb (λ '(name, value),
    eq_ignore_ascii_case name "transfer-encoding" &&
    existsb (λ encoding, eq_ignore_ascii_case (trim encoding) "chunked") (split_char "," value))
    headers.

Definition content_length (headers : list (string * string)) : option N :=
  '(_, value) ← List.find (λ h, eq_ignore_ascii_case (fst h) "content-length") headers;
  parse_uint u64_max value.

Definition parse_status (status_line : string) : result FetchError N :=
  let parts := split_whitespace status_line in
  let version := default "" (head parts) in
  status ← ok_or
    (value ← parts !! 1%nat;
     status ← parse_uint u16_max value;
     if (100 <=? status)%N && (status <=? 599)%N then Some status else None)
    (MalformedResponse "invalid HTTP status line");
  fail_if (negb (starts_with "HTTP/" version)) (MalformedResponse "invalid HTTP version");;
  fail_if ((300 <=? status)%N && (status <? 400)%N) (Redirect status);;
  Ok status.

Definition parse_body (headers : list (string * string)) (body : string)
    : result FetchError string :=
  if is_chunked headers then decode_chunked body
  else match content_length headers with
       | Some length =>
           if (N.of_nat (String.length body) <? length)%N
           then malformed "response body is shorter than Content-Length"
           else Ok (take_str (N.to_nat length) body)
       | None => Ok body
       end.

Definition parse_response (raw : string) : result FetchError FetchResponse :=
  '(head_bytes, body) ← ok_or (split_once_str (crlf +:+ crlf) raw)
                          (MalformedResponse "missing header terminator");
  fail_if (negb (valid_utf8 head_bytes)) (MalformedResponse "response headers are not UTF-8");;
  let lines := split_lines head_bytes in
  status ← parse_status (default "" (head lines));
  headers ← parse_header_lines (tail lines);
  body ← parse_body headers body;
  Ok {| status := status; response_headers := headers; response_body := body |}.

(** The read loop: what the stream returns until its end or an error. *)
Fixpoint receive_all (limit : N) (reads : list (result IoError string)) (raw : string)
    : result FetchError string :=
  match reads with
  | [] => Ok raw
  | Err e :: _ => Err (io_error e)
  | Ok chunk :: rest =>
      if String.eqb chunk "" then Ok raw
      else if (limit <? N.min u64_max (N.of_nat (String.length raw + String.length chunk)))%N
      then Err (ResponseTooLarge limit)
      else receive_all limit rest (raw +:+ chunk)
  end.

Section Transport.
(** [addr.to_socket_addrs()] of an address text, [(host, port).to_socket_addrs()],
    and the connection: the addresses tried, whether TLS is used, the
    authority, the timeout and the bytes written give what is read back. *)
Context (to_socket_addrs : string → result string (list SocketAddr)).
Context (to_socket_addrs_of : string → N → result IoError (list SocketAddr)).
Context (exchange : list SocketAddr → bool → string → N → string →
                    result IoError (list (result IoError string))).

Definition strip_host_brackets (host : string) : string :=
  default host (h ← strip_prefix "[" host; strip_suffix_char "]" h).

Definition resolve (host : string) (port : N) : result FetchError (list SocketAddr) :=
  addresses ← map_err io_error (to_socket_addrs_of (strip_host_brackets host) port);
  match addresses with
  | [] => Err (Network ("origin `" +:+ display_fetch_host host +:+ "` resolved to no addresses"))
  | _ => Ok addresses
  end.

Definition fetch_targets (p : FetchPolicy) (u : ParsedFetchUrl)
    : result FetchError (list SocketAddr) :=
  let origin := url_origin u in
  match network_floor p with
  | Some net_allow =>
      map_err (λ failure,
        match failure with
        | Denied _ => FetchDenied (Origin.as_str origin)
        | Unresolved message => Network message
        end) (resolve_admitted_typed to_socket_addrs net_allow (authority_text origin))
  | None => resolve (origin_host origin) (origin_port origin)
  end.

(** The checks of [send] before any connection. *)
Definition check_request (p : FetchPolicy) (r : FetchRequest) : result FetchError ParsedFetchUrl :=
  map_err InvalidRequest (validate_fetch_method (method r));;
  validate_headers (request_headers r);;
  u ← parse_fetch_url (url r) false;
  fail_if (negb (admits p (url_origin u))) (FetchDenied (Origin.as_str (url_origin u)));;
  Ok u.

Definition send (p : FetchPolicy) (r : FetchRequest) : result FetchError FetchResponse :=
  u ← check_request p r;
  let origin := url_origin u in
  targets ← fetch_targets p u;
  reads ← map_err io_error
    (exchange targets (bool_decide (origin_scheme origin = Https)) (authority_text origin)
       (timeout p) (request_wire u r));
  raw ← receive_all (max_response_bytes p) reads "";
  parse_response raw.
End Transport.

(** * Policies *)

Lemma parse_origin_Ok input o : parse_origin input = Ok o ↔ Origin.parse input = Ok o.
Proof.
  unfold parse_origin, map_err. destruct (Origin.parse input) as [[s h p]|e]; cbn; [|naive_solver].
  rewrite scheme_parse_print. cbn. naive_solver.
Qed.

Lemma parse_fetch_url_Ok input b u : parse_fetch_url input b = Ok u ↔ parse_url input b = Ok u.
Proof.
  unfold parse_fetch_url, map_err. destruct (parse_url input b) as [[[s h p] q]|e]; cbn; [|naive_solver].
  rewrite scheme_parse_print. cbn. naive_solver.
Qed.

Lemma collect_origins_Ok check origins kept l :
  collect_origins check origins kept = Ok l →
  (∀ o, o ∈ l ↔ o ∈ kept ∨ ∃ input, input ∈ origins ∧ Origin.parse input = Ok o) ∧
  (∀ o, o ∈ l → o ∈ kept ∨ check o = Ok tt).
Proof.
  revert kept. induction origins as [|input origins IH]; intros kept; cbn [collect_origins].
  { intros [= <-]. split; [|auto]. intros o. set_solver. }
  rewrite result_bind_Ok. intros (o & Ho & Hc). apply parse_origin_Ok in Ho.
  apply result_bind_Ok in Hc as ([] & Hchk & Hc).
  assert (∀ o', o' ∈ (if bool_decide (o ∈ kept) then kept else (kept ++ [o])%list) ↔
                o' ∈ kept ∨ o' = o) as Hk.
  { intros o'. case_bool_decide; [set_solver|]. rewrite elem_of_app, list_elem_of_singleton. done. }
  apply IH in Hc as [H1 H2]. split.
  - intros o'. rewrite H1, Hk. setoid_rewrite elem_of_cons. split.
    + intros [[?| ->]|(i & Hi & Hp)]; [by left|right; exists input; auto|right; exists i; auto].
    + intros [?|(i & [->|Hi] & Hp)]; [auto| |right; eauto]. left. right. congruence.
  - intros o' Hin. apply H2 in Hin as [Hin|?]; [|by right]. apply Hk in Hin as [?| ->]; auto.
Qed.

Lemma only_Ok p origins q :
  only p origins = Ok q →
  network_floor q = network_floor p ∧
  ∀ o, admits q o = true → admits p o = true ∧ ∃ input, input ∈ origins ∧ Origin.parse input = Ok o.
Proof.
  unfold only. rewrite result_bind_Ok. intros (l & Hl & [= <-]). split; [done|].
  intros o Ho. unfold admits in Ho. cbn in Ho. apply bool_decide_eq_true in Ho.
  destruct (collect_origins_Ok _ _ _ _ Hl) as [H1 H2].
  pose proof (proj1 (H1 o) Ho) as [?|?]; [set_solver|].
  destruct (H2 o Ho) as [?|Hc]; [set_solver|]. split; [|done].
  unfold fail_if in Hc. by destruct (admits p o).
Qed.

Lemma from_net_Ok net_allow origins p :
  from_net net_allow origins = Ok p →
  network_floor p = Some net_allow ∧
  ∀ o, admits p o = true → net_allows net_allow (authority_text o) = true.
Proof.
  unfold from_net. rewrite result_bind_Ok. intros (l & Hl & [= <-]). split; [done|].
  intros o Ho. unfold admits in Ho. cbn in Ho. apply bool_decide_eq_true in Ho.
  destruct (proj2 (collect_origins_Ok _ _ _ _ Hl) o Ho) as [?|Hc]; [set_solver|].
  unfold fail_if in Hc. by destruct (net_allows net_allow (authority_text o)).
Qed.

(** What a program can make of a policy it holds. *)
Inductive derived (p : FetchPolicy) : FetchPolicy → Prop :=
  | derived_refl : derived p p
  | derived_only q origins r : derived p q → only q origins = Ok r → derived p r
  | derived_limits q t n : derived p q → derived p (with_limits q t n).

Lemma derived_within p q :
  derived p q → network_floor q = network_floor p ∧ ∀ o, admits q o = true → admits p o = true.
Proof.
  induction 1 as [|q origins r _ [IHf IH] Hr|q t n _ [IHf IH]]; [done| |].
  - apply only_Ok in Hr as [Hf Ha]. split; [congruence|]. intros o [Ho _]%Ha. auto.
  - done.
Qed.

Lemma check_request_Ok p r u :
  check_request p r = Ok u ↔
  is_http_token (method r) = true ∧ validate_headers (request_headers r) = Ok tt ∧
  parse_url (url r) false = Ok u ∧ admits p (url_origin u) = true.
Proof.
  unfold check_request, validate_fetch_method.
  destruct (is_http_token (method r)); cbn; [|naive_solver].
  destruct (validate_headers (request_headers r)) as [[]|e]; cbn; [|naive_solver].
  rewrite result_bind_Ok. setoid_rewrite parse_fetch_url_Ok. unfold fail_if. split.
  - intros (u' & Hu & H). destruct (admits p (url_origin u')) eqn:Ha; cbn in H; [|done].
    by simplify_eq.
  - intros (_ & _ & Hu & Ha). exists u. by rewrite Ha.
Qed.

Lemma admitted_not_denied net_allow addr addrs tsa sa :
  resolve_admitted_typed tsa net_allow addr = Ok addrs → sa ∈ addrs →
  net_denied net_allow (show_socket sa) = false.
Proof.
  intros (_ & _ & resolved & _ & [->|(_ & _ & ->)])%resolve_admitted_ok Hin;
    rewrite list_elem_of_In in Hin; apply List.filter_In in Hin as [_ Hin].
  - unfold net_allows in Hin. by destruct (net_denied net_allow (show_socket sa)).
  - by apply negb_true_iff in Hin.
Qed.

(** * The bytes of a request *)

Definition cr : ascii := "013".

Fixpoint lines_text (lines : list string) : string :=
  match lines with [] => "" | l :: lines => l +:+ (crlf +:+ lines_text lines) end.

Fixpoint joined (lines : list string) : string :=
  match lines with
  | [] => ""
  | [l] => l
  | l :: lines => l +:+ (crlf +:+ joined lines)
  end.

(** A line that cannot end early or end the head. *)
Definition plain_line (l : string) : Prop := l ≠ "" ∧ str_contains cr l = false.

Lemma joined_end l lines : joined (l :: lines) +:+ crlf = lines_text (l :: lines).
Proof.
  revert l. induction lines as [|m lines IH]; intros l.
  - cbn [joined lines_text]. by rewrite app_nil_r_str.
  - change (joined (l :: m :: lines)) with (l +:+ (crlf +:+ joined (m :: lines))).
    change (lines_text (l :: m :: lines)) with (l +:+ (crlf +:+ lines_text (m :: lines))).
    rewrite <- IH. by rewrite !app_assoc_str.
Qed.

(** Looking for the empty line passes a line that another one follows. *)
Lemma find_end_skip l a rest :
  str_contains cr l = false → a ≠ cr →
  split_once_str (crlf +:+ crlf) (l +:+ (crlf +:+ String a rest)) =
  match split_once_str (crlf +:+ crlf) (String a rest) with
  | Some (x, y) => Some (l +:+ (crlf +:+ x), y)
  | None => None
  end.
Proof.
  intros Hl Ha.
  assert (∀ c s, strip_prefix (crlf +:+ crlf) (String c s) = None →
    split_once_str (crlf +:+ crlf) (String c s) =
    match split_once_str (crlf +:+ crlf) s with
    | Some (x, y) => Some (String c x, y)
    | None => None
    end) as Hstep by (intros c s Hs; cbn [split_once_str]; by rewrite Hs).
  induction l as [|b l IH].
  - rewrite app_nil_l_str. change (crlf +:+ String a rest) with (String cr (String "010" (String a rest))).
    rewrite Hstep, Hstep; [|done|].
    + destruct (split_once_str (crlf +:+ crlf) (String a rest)) as [[x y]|]; done.
    + cbn. destruct (Ascii.eqb_spec "013" a) as [<-|]; [done|]. by destruct a as [[] [] [] [] [] [] [] []].
  - cbn [str_contains] in Hl. apply orb_false_iff in Hl as [Hb Hl]. rewrite app_cons_str.
    assert (strip_prefix (crlf +:+ crlf) (String b (l +:+ (crlf +:+ String a rest))) = None) as Hp.
    { change (crlf +:+ crlf) with (String "013" (String "010" crlf)). cbn [strip_prefix].
      destruct (Ascii.eqb_spec "013" b) as [<-|]; done. }
    rewrite Hstep, IH by done.
    destruct (split_once_str (crlf +:+ crlf) (String a rest)) as [[x y]|]; done.
Qed.

Lemma find_end_lines l lines body :
  Forall plain_line (l :: lines) →
  split_once_str (crlf +:+ crlf) (lines_text (l :: lines) +:+ (crlf +:+ body)) =
  Some (joined (l :: lines), body).
Proof.
  revert l. induction lines as [|m lines IH]; intros l Hp.
  - apply Forall_cons_1 in Hp as [[Hne Hl] _]. cbn [lines_text joined].
    rewrite app_nil_r_str, app_assoc_str, <- (app_assoc_str crlf crlf).
    apply split_once_str_app. done.
  - apply Forall_cons_1 in Hp as [[Hne Hl] Hp]. specialize (IH m Hp).
    apply Forall_cons_1 in Hp as [[Hm Hmc] _].
    change (lines_text (l :: m :: lines)) with (l +:+ (crlf +:+ lines_text (m :: lines))).
    change (joined (l :: m :: lines)) with (l +:+ (crlf +:+ joined (m :: lines))).
    destruct m as [|a m]; [done|]. cbn in Hmc. apply orb_false_iff in Hmc as [Ha _].
    apply ascii_eqb_neq in Ha.
    change (lines_text (String a m :: lines)) with
      (String a (m +:+ (crlf +:+ lines_text lines))) in *.
    rewrite !app_assoc_str. rewrite (app_cons_str a). rewrite find_end_skip by done.
    rewrite <- app_cons_str, IH. done.
Qed.

Lemma split_lines_step fuel l rest :
  str_contains cr l = false →
  split_lines_fuel (S fuel) (l +:+ (crlf +:+ rest)) = l :: split_lines_fuel fuel rest.
Proof.
  intros Hl. cbn [split_lines_fuel]. unfold crlf. by rewrite split_once_str_app.
Qed.

Lemma split_lines_joined fuel l lines :
  Forall plain_line (l :: lines) → (String.length (joined (l :: lines)) < fuel)%nat →
  split_lines_fuel fuel (joined (l :: lines)) = l :: lines.
Proof.
  revert l fuel. induction lines as [|m lines IH]; intros l fuel Hp Hf.
  - apply Forall_cons_1 in Hp as [[Hne Hl] _]. destruct fuel; [lia|]. cbn.
    destruct (split_once_str crlf l) as [[x y]|] eqn:E; [|done]. exfalso.
    apply split_once_str_Some in E as ->. rewrite !str_contains_app in Hl.
    apply orb_false_iff in Hl as [_ Hl]. apply orb_false_iff in Hl as [Hl _]. done.
  - apply Forall_cons_1 in Hp as [[Hne Hl] Hp].
    change (joined (l :: m :: lines)) with (l +:+ (crlf +:+ joined (m :: lines))) in *.
    destruct fuel as [|fuel]; [lia|]. rewrite split_lines_step by done. f_equal. apply IH; [done|].
    rewrite !length_app_str in Hf. change (String.length crlf) with 2%nat in Hf. lia.
Qed.

(** The lines a request is meant to have. *)
Definition request_lines (u : ParsedFetchUrl) (r : FetchRequest) : list string :=
  ([method r +:+ (" " +:+ (url_path_and_query u +:+ " HTTP/1.1"));
    "Host: " +:+ host_header u; "Connection: close"] ++
   map (λ h, fst h +:+ (": " +:+ snd h)) (request_headers r) ++
   (if String.eqb (request_body r) "" then []
    else ["Content-Length: " +:+ show_N (N.of_nat (String.length (request_body r)))]))%list.

Lemma lines_text_app l m : lines_text (l ++ m) = lines_text l +:+ lines_text m.
Proof.
  induction l as [|x l IH]; [done|]. cbn [lines_text app]. by rewrite IH, !app_assoc_str.
Qed.

Lemma header_lines_text headers :
  header_lines headers = lines_text (map (λ h, fst h +:+ (": " +:+ snd h)) headers).
Proof.
  induction headers as [|[n v] headers IH]; [done|]. cbn [header_lines map lines_text fst snd].
  by rewrite IH, !app_assoc_str.
Qed.

Lemma request_wire_lines u r :
  request_wire u r = lines_text (request_lines u r) +:+ (crlf +:+ request_body r).
Proof.
  unfold request_wire, request_lines. rewrite !lines_text_app, header_lines_text.
  cbn [lines_text]. destruct (String.eqb (request_body r) ""); cbn [lines_text];
    rewrite ?app_nil_r_str, ?app_nil_l_str, ?app_assoc_str; done.
Qed.

Lemma url_forbidden_cr s : str_any (λ a, url_forbidden a || Ascii.eqb a "#") s = false →
  str_contains cr s = false ∧ str_contains " " s = false.
Proof.
  intros H. rewrite !str_contains_any. split; (eapply str_any_impl_false; [|done]);
    by intros a ->%ascii_eqb_eq.
Qed.

Lemma host_header_cr u b input :
  parse_url input b = Ok u → str_contains cr (host_header u) = false.
Proof.
  intros [Hh _]%parse_url_canonical. unfold host_header, authority_text.
  rewrite !display_canonical_host by done.
  assert (str_contains cr (origin_host (url_origin u)) = false) as Hc.
  { apply url_forbidden_cr, host_forbidden_url, Hh. }
  destruct (_ =? _)%N; [done|]. rewrite !str_contains_app, Hc. cbn.
  rewrite str_contains_any. apply (digits_avoid _ _); [|apply show_N_digits].
  intros a Ha. by destruct (Ascii.eqb_spec a cr) as [->|].
Qed.

Lemma validate_headers_Ok headers :
  validate_headers headers = Ok tt ↔
  ∀ h, h ∈ headers → validate_fetch_header (fst h) (snd h) = Ok tt.
Proof.
  induction headers as [|[n v] headers IH]; cbn [validate_headers]; [split; [intros _; set_solver|done]|].
  unfold map_err. split.
  - destruct (validate_fetch_header n v) as [[]|] eqn:E; cbn; [|done]. intros H.
    pose proof (proj1 IH H) as Hall. intros h [->|Hh]%elem_of_cons; [done|auto].
  - intros H. pose proof (H (n, v) (list_elem_of_here _ _)) as Hv. cbn in Hv. rewrite Hv. cbn.
    apply (proj2 IH). intros h Hh. apply H. by right.
Qed.

Lemma request_lines_plain p r u :
  check_request p r = Ok u → Forall plain_line (request_lines u r).
Proof.
  intros (Hm & Hh & Hu & _)%check_request_Ok. unfold request_lines.
  assert (∀ s t, str_contains cr s = false → str_contains cr t = false →
          str_contains cr (s +:+ t) = false) as Happ.
  { intros s t Hs Ht. by rewrite str_contains_app, Hs, Ht. }
  pose proof (parse_url_path _ _ _ Hu) as [[Hp _] _].
  apply url_forbidden_cr in Hp as [Hp _]. rewrite validate_headers_Ok in Hh.
  apply Forall_app. split; [|apply Forall_app; split].
  - repeat constructor; try done.
    + unfold is_http_token in Hm. apply andb_true_iff in Hm as [Hm _].
      by destruct (method r).
    + apply Happ; [by apply token_avoids|]. by repeat apply Happ.
    + apply Happ; [done|]. by eapply host_header_cr.
  - apply list.Forall_forall. intros l Hl. apply list_elem_of_In, in_map_iff in Hl as (h & <- & Hin).
    rewrite <- list_elem_of_In in Hin. apply Hh, fetch_header_no_injection in Hin as (Hc & _).
    split; [by destruct (fst h)|]. apply Hc. auto.
  - destruct (String.eqb (request_body r) ""); repeat constructor; [done|].
    apply Happ; [done|]. rewrite str_contains_any. apply digits_avoid; [|apply show_N_digits].
    intros a Ha. by destruct (Ascii.eqb_spec a cr) as [->|].
Qed.

(** * Bounds of the response *)

Lemma length_take_str n s : String.length (take_str n s) = min n (String.length s).
Proof. revert s. induction n as [|n IH]; intros [|a s]; cbn; auto. Qed.

Lemma length_drop_str n s : String.length (drop_str n s) = (String.length s - n)%nat.
Proof. revert s. induction n as [|n IH]; intros [|a s]; cbn; auto. Qed.

Lemma take_drop_str n s : take_str n s +:+ drop_str n s = s.
Proof.
  revert s. induction n as [|n IH]; intros [|a s]; cbn; [done..|]. rewrite app_cons_str. by rewrite IH.
Qed.

Lemma next_chunk_Some input chunk rest :
  next_chunk input = Ok (Some (chunk, rest)) →
  chunk ≠ "" ∧ (String.length chunk + String.length rest + 4 ≤ String.length input)%nat.
Proof.
  unfold next_chunk. rewrite result_bind_Ok. intros ([line after] & Hl & H).
  unfold ok_or in Hl. destruct (split_once_str crlf input) as [[x y]|] eqn:E; [|done].
  injection Hl as -> ->. apply split_once_str_Some in E as ->.
  apply result_bind_Ok in H as (size & _ & H).
  destruct (N.eqb_spec size 0) as [|Hs]; [done|].
  apply result_bind_Ok in H as (ce & Hce & H). unfold ok_or, checked_add in Hce.
  destruct (size + 2 <=? u64_max)%N; [|done]. injection Hce as <-.
  destruct (N.ltb_spec (N.of_nat (String.length after)) (size + 2)) as [|Hlen]; [done|].
  destruct (negb _); [done|]. injection H as <- <-.
  rewrite !length_app_str, length_take_str, length_drop_str. change (String.length crlf) with 2%nat.
  split; [|lia]. intros H0. apply (f_equal String.length) in H0.
  rewrite length_take_str in H0. cbn in H0. lia.
Qed.

Lemma decode_chunked_fuel_bound fuel input output r :
  decode_chunked_fuel fuel input output = Some r →
  match r with
  | Ok body => (String.length body ≤ String.length output + String.length input)%nat
  | Err _ => True
  end.
Proof.
  revert input output. induction fuel as [|fuel IH]; intros input output; cbn; [done|].
  destruct (next_chunk input) as [[[chunk rest]|]|e] eqn:E.
  - intros H%IH. apply next_chunk_Some in E as [_ E]. destruct r; [|done].
    rewrite length_app_str in H. lia.
  - intros [= <-]. lia.
  - by intros [= <-].
Qed.

Lemma decode_chunked_fuel_enough fuel input output :
  (String.length input < fuel)%nat → is_Some (decode_chunked_fuel fuel input output).
Proof.
  revert input output. induction fuel as [|fuel IH]; intros input output Hf; [lia|]. cbn.
  destruct (next_chunk input) as [[[chunk rest]|]|e] eqn:E; [|by eexists..].
  apply IH. apply next_chunk_Some in E as [_ E]. lia.
Qed.

(** The loop ends: its turns suffice. *)
Lemma decode_chunked_run input :
  decode_chunked_fuel (S (String.length input)) input "" = Some (decode_chunked input).
Proof.
  unfold decode_chunked. destruct (decode_chunked_fuel_enough (S (String.length input)) input "")
    as [r ->]; [lia|done].
Qed.

Lemma decode_chunked_bound input body :
  decode_chunked input = Ok body → (String.length body ≤ String.length input)%nat.
Proof.
  intros H. pose proof (decode_chunked_fuel_bound _ _ _ _ (decode_chunked_run input)) as Hb.
  rewrite H in Hb. done.
Qed.

Lemma parse_body_bound headers body b :
  parse_body headers body = Ok b → (String.length b ≤ String.length body)%nat.
Proof.
  unfold parse_body. destruct (is_chunked headers); [apply decode_chunked_bound|].
  destruct (content_length headers) as [n|]; [|by intros [= <-]].
  destruct (_ <? _)%N; [done|]. intros [= <-]. rewrite length_take_str. lia.
Qed.

Lemma parse_status_Ok line st :
  parse_status line = Ok st → (100 ≤ st < 300 ∨ 400 ≤ st ≤ 599)%N.
Proof.
  unfold parse_status. rewrite result_bind_Ok. intros (s & Hs & H). unfold ok_or in Hs.
  destruct (split_whitespace line !! 1%nat) as [v|]; cbn in Hs; [|done].
  destruct (parse_uint u16_max v) as [x|]; cbn in Hs; [|done].
  destruct (N.leb_spec 100 x), (N.leb_spec x 599); cbn in Hs; simplify_eq.
  unfold fail_if in H. destruct (negb _); cbn in H; [done|].
  destruct (N.leb_spec 300 s), (N.ltb_spec s 400); cbn in H; simplify_eq; lia.
Qed.

Lemma parse_response_Ok raw resp :
  parse_response raw = Ok resp →
  (100 ≤ status resp < 300 ∨ 400 ≤ status resp ≤ 599)%N ∧
  (String.length (response_body resp) ≤ String.length raw)%nat.
Proof.
  unfold parse_response. rewrite result_bind_Ok. intros ([h b] & Hs & H).
  unfold ok_or in Hs. destruct (split_once_str (crlf +:+ crlf) raw) as [[x y]|] eqn:E; [|done].
  injection Hs as -> ->. apply split_once_str_Some in E as ->.
  unfold fail_if in H. destruct (negb _); cbn [mbind result_bind] in H; [done|].
  apply result_bind_Ok in H as (st & Hst%parse_status_Ok & H).
  apply result_bind_Ok in H as (hs & _ & H).
  apply result_bind_Ok in H as (body & Hb%parse_body_bound & H).
  injection H as <-. cbn. split; [done|]. rewrite !length_app_str. lia.
Qed.

Lemma receive_bound limit reads raw out :
  (limit < u64_max)%N → (N.of_nat (String.length raw) ≤ limit)%N →
  receive_all limit reads raw = Ok out → (N.of_nat (String.length out) ≤ limit)%N.
Proof.
  intros Hl. revert raw. induction reads as [|[chunk|e] reads IH]; intros raw Hraw; cbn;
    [by intros [= <-]| |done].
  destruct (String.eqb chunk ""); [by intros [= <-]|].
  destruct (N.ltb_spec limit (N.min u64_max (N.of_nat (String.length raw + String.length chunk))));
    [done|]. apply IH. rewrite length_app_str. lia.
Qed.

(** * The chunked encoding *)

Lemma split_crlf_app l r :
  split_once_str crlf l = None → split_once_str crlf (l +:+ (crlf +:+ r)) = Some (l, r).
Proof.
  induction l as [|a l IH]; [done|]. intros H. rewrite app_cons_str.
  cbn [split_once_str] in H |- *.
  destruct (strip_prefix crlf (String a l)) as [?|] eqn:Hp; [done|].
  destruct (split_once_str crlf l) as [[x y]|]; [done|]. rewrite IH by done.
  assert (strip_prefix crlf (String a (l +:+ (crlf +:+ r))) = None) as ->; [|done].
  revert Hp. unfold crlf. cbn [strip_prefix]. destruct (Ascii.eqb "013" a); [|done].
  destruct l as [|b l]; [done|]. rewrite app_cons_str. cbn [strip_prefix].
  by destruct (Ascii.eqb "010" b).
Qed.

Lemma split_crlf_first s l r :
  split_once_str crlf s = Some (l, r) → split_once_str crlf l = None.
Proof.
  revert l. induction s as [|a s IH]; intros l; [done|]. cbn [split_once_str].
  destruct (strip_prefix crlf (String a s)) as [?|] eqn:Hp; [by intros [= <- _]|].
  destruct (split_once_str crlf s) as [[x y]|] eqn:Hs; [|done]. intros [= <- <-].
  specialize (IH x eq_refl). cbn [split_once_str]. rewrite IH.
  assert (strip_prefix crlf (String a x) = None) as ->; [|done].
  apply split_once_str_Some in Hs as ->. revert Hp. unfold crlf. cbn [strip_prefix].
  destruct (Ascii.eqb "013" a); [|done]. destruct x as [|b x]; [done|].
  rewrite app_cons_str. cbn [strip_prefix]. by destruct (Ascii.eqb "010" b).
Qed.

(** A line that announces a chunk of [n] bytes: hexadecimal in any case,
    with any blanks around and any extension after it. *)
Definition size_line (l : string) (n : N) : Prop :=
  split_once_str crlf l = None ∧ parse_hex (trim (size_text l)) = Some n.

(** The bodies the chunked encoding gives an input: the chunks up to the
    first of size zero; what follows it is not looked at. *)
Inductive chunked : string → string → Prop :=
  | chunked_end l rest : size_line l 0 → chunked (l +:+ (crlf +:+ rest)) ""
  | chunked_more l c rest body :
      c ≠ "" → size_line l (N.of_nat (String.length c)) →
      (N.of_nat (String.length c) + 2 ≤ u64_max)%N → chunked rest body →
      chunked (l +:+ (crlf +:+ (c +:+ (crlf +:+ rest)))) (c +:+ body).

Lemma take_str_app n s t : n = String.length s → take_str n (s +:+ t) = s.
Proof. intros ->. induction s as [|a s IH]; [by destruct t|]. rewrite app_cons_str. cbn. by rewrite IH. Qed.

Lemma drop_str_app n s t : n = String.length s → drop_str n (s +:+ t) = t.
Proof. intros ->. induction s as [|a s IH]; [by destruct t|]. rewrite app_cons_str. cbn. done. Qed.

Lemma drop_str_add n m s : drop_str (n + m) s = drop_str m (drop_str n s).
Proof. revert s. induction n as [|n IH]; intros [|a s]; cbn; auto. by destruct m. Qed.

Lemma next_chunk_end input :
  next_chunk input = Ok None ↔ ∃ l rest, input = l +:+ (crlf +:+ rest) ∧ size_line l 0.
Proof.
  unfold next_chunk, size_line. split.
  - rewrite result_bind_Ok. intros ([l rest] & Hl & H). unfold ok_or in Hl.
    destruct (split_once_str crlf input) as [[x y]|] eqn:E; [|done]. injection Hl as -> ->.
    apply result_bind_Ok in H as (size & Hs & H). unfold ok_or in Hs.
    exists l, rest. split; [by apply split_once_str_Some in E|]. split; [by eapply split_crlf_first|].
    destruct (parse_hex (trim (size_text l))) as [n|]; [|done]. injection Hs as Hs. subst n.
    destruct (N.eqb_spec size 0) as [H0|Hne]; [by rewrite H0|].
    apply result_bind_Ok in H as (? & _ & H). destruct (_ <? _)%N; [done|]. by destruct (negb _).
  - intros (l & rest & -> & Hl & Hn). rewrite split_crlf_app by done. cbn. by rewrite Hn.
Qed.

Lemma next_chunk_more input c rest :
  next_chunk input = Ok (Some (c, rest)) ↔
  ∃ l, input = l +:+ (crlf +:+ (c +:+ (crlf +:+ rest))) ∧ c ≠ "" ∧
    size_line l (N.of_nat (String.length c)) ∧ (N.of_nat (String.length c) + 2 ≤ u64_max)%N.
Proof.
  split.
  - intros H. pose proof (next_chunk_Some _ _ _ H) as [Hne _]. revert H.
    unfold next_chunk, size_line. rewrite result_bind_Ok. intros ([l after] & Hl & H).
    unfold ok_or in Hl. destruct (split_once_str crlf input) as [[x y]|] eqn:E; [|done].
    injection Hl as -> ->. apply result_bind_Ok in H as (size & Hs & H). unfold ok_or in Hs.
    destruct (parse_hex (trim (size_text l))) as [n|] eqn:Hp; [|done]. injection Hs as Hs. subst n.
    destruct (N.eqb_spec size 0) as [H0|Hn0]; [done|].
    apply result_bind_Ok in H as (ce & Hce & H). unfold ok_or, checked_add in Hce.
    destruct (N.leb_spec (size + 2) u64_max) as [Hmax|]; [|done]. injection Hce as <-.
    destruct (N.ltb_spec (N.of_nat (String.length after)) (size + 2)) as [|Hlen]; [done|].
    destruct (String.eqb_spec (take_str 2 (drop_str (N.to_nat size) after)) crlf) as [Hc|]; [|done].
    injection H as <- <-.
    assert (N.of_nat (String.length (take_str (N.to_nat size) after)) = size) as Hsz.
    { rewrite length_take_str. lia. }
    exists l. rewrite Hsz. split_and!; [|done|by eapply split_crlf_first|done|done].
    apply split_once_str_Some in E as ->. do 2 f_equal.
    rewrite drop_str_add, <- Hc, !take_drop_str. done.
  - intros (l & -> & Hc & (Hl & Hn) & Hmax). unfold next_chunk. rewrite split_crlf_app by done.
    cbn [ok_or mbind result_bind]. rewrite Hn. cbn [ok_or mbind result_bind].
    destruct (N.eqb_spec (N.of_nat (String.length c)) 0) as [H0|_].
    { destruct c; [done|]. cbn in H0. lia. }
    unfold checked_add. destruct (N.leb_spec (N.of_nat (String.length c) + 2) u64_max); [|lia].
    cbn [ok_or mbind result_bind]. rewrite !length_app_str. change (String.length crlf) with 2%nat.
    destruct (N.ltb_spec (N.of_nat (String.length c + (2 + String.length rest)))
      (N.of_nat (String.length c) + 2)); [lia|].
    rewrite drop_str_add, take_str_app, !(drop_str_app (N.to_nat _)) by lia.
    rewrite (take_str_app 2), (drop_str_app 2) by done. cbn [String.eqb]. done.
Qed.

Lemma decode_fuel_chunked fuel input output b :
  decode_chunked_fuel fuel input output = Some (Ok b) →
  ∃ body, b = output +:+ body ∧ chunked input body.
Proof.
  revert input output. induction fuel as [|fuel IH]; intros input output; cbn; [done|].
  destruct (next_chunk input) as [[[c rest]|]|e] eqn:E; [|intros [= <-]|done].
  - intros (body & -> & Hb)%IH. apply next_chunk_more in E as (l & -> & Hc & Hl & Hm).
    exists (c +:+ body). split; [by rewrite app_assoc_str|]. by constructor.
  - apply next_chunk_end in E as (l & rest & -> & Hl). exists "".
    split; [by rewrite app_nil_r_str|]. by constructor.
Qed.

Lemma chunked_decode_fuel input body :
  chunked input body → ∀ fuel output, (String.length input < fuel)%nat →
  decode_chunked_fuel fuel input output = Some (Ok (output +:+ body)).
Proof.
  induction 1 as [l rest Hl|l c rest body Hc Hl Hm _ IH]; intros fuel output Hf;
    (destruct fuel as [|fuel]; [lia|]); cbn [decode_chunked_fuel].
  - rewrite (proj2 (next_chunk_end _)) by eauto. by rewrite app_nil_r_str.
  - rewrite (proj2 (next_chunk_more _ c rest)) by eauto 10. rewrite IH; [by rewrite app_assoc_str|].
    rewrite !length_app_str in Hf. change (String.length crlf) with 2%nat in Hf. lia.
Qed.

(** * Properties *)

(** C31: A Fetch derived from a Net allowlist stays within it, however it is
    narrowed and limited afterwards: every origin it admits is one the
    allowlist allows, and for any request either the outcome is an error
    that no answer of the network could change, nothing being connected to,
    or the connection goes to the requested, admitted origin over TLS
    exactly when its scheme says so, at resolved addresses none of which the
    allowlist denies. *)
Theorem fetch_stays_within_net
    (to_socket_addrs : string → result string (list SocketAddr))
    (to_socket_addrs_of : string → N → result IoError (list SocketAddr))
    (net_allow origins : list string) (p q : FetchPolicy) (r : FetchRequest) :
  from_net net_allow origins = Ok p → derived p q →
  (∀ o, admits q o = true → net_allows net_allow (authority_text o) = true) ∧
  ((∃ e, ∀ exchange, send to_socket_addrs to_socket_addrs_of exchange q r = Err e) ∨
   (∃ u targets, parse_url (url r) false = Ok u ∧ admits q (url_origin u) = true ∧
      (∀ sa, sa ∈ targets → net_denied net_allow (show_socket sa) = false) ∧
      ∀ exchange, send to_socket_addrs to_socket_addrs_of exchange q r =
        (reads ← map_err io_error
           (exchange targets (bool_decide (origin_scheme (url_origin u) = Https))
              (authority_text (url_origin u)) (timeout q) (request_wire u r));
         raw ← receive_all (max_response_bytes q) reads "";
         parse_response raw))).
Proof.
  intros [Hfloor Hnet]%from_net_Ok [Hf Ha]%derived_within. split; [auto|].
  unfold send. destruct (check_request q r) as [u|e] eqn:Hc; cbn [mbind result_bind];
    [|left; by exists e].
  destruct (fetch_targets to_socket_addrs to_socket_addrs_of q u) as [targets|e] eqn:Ht;
    cbn [mbind result_bind]; [|left; by exists e].
  right. apply check_request_Ok in Hc as (_ & _ & Hu & Hadm).
  exists u, targets. split_and!; [done..| |done].
  unfold fetch_targets in Ht. rewrite Hf, Hfloor in Ht. unfold map_err in Ht.
  destruct (resolve_admitted_typed to_socket_addrs net_allow _) as [addrs|] eqn:Hr; [|done].
  injection Ht as ->. intros sa. by eapply admitted_not_denied.
Qed.

(** C32: A request is framed as it was meant.  When the checks pass, the bytes
    sent have their first empty line right before the body, the lines before
    it are exactly the request line, the provider's headers and the caller's
    headers in order, the request line has exactly the method, the target
    and the version as its three words, and no header of the caller
    replaces one the provider writes: nothing in a method, URL or header
    adds a line, a header or a second request. *)
Theorem fetch_request_framed p r u :
  check_request p r = Ok u →
  (∃ head, split_once_str (crlf +:+ crlf) (request_wire u r) = Some (head, request_body r) ∧
     split_lines head = request_lines u r) ∧
  split_char " " (method r +:+ (" " +:+ (url_path_and_query u +:+ " HTTP/1.1"))) =
    [method r; url_path_and_query u; "HTTP/1.1"] ∧
  (∀ h, h ∈ request_headers r →
     to_ascii_lowercase (fst h) ∉ ["host"; "connection"; "content-length"; "transfer-encoding"]).
Proof.
  intros Hc. pose proof (request_lines_plain _ _ _ Hc) as Hp.
  apply check_request_Ok in Hc as (Hm & Hh & Hu & _). split_and!.
  - rewrite request_wire_lines. unfold request_lines in *. cbn [app] in *.
    eexists. split; [by apply find_end_lines|]. apply split_lines_joined; [done|]. lia.
  - pose proof (parse_url_path _ _ _ Hu) as [[Hpath _] _]. apply url_forbidden_cr in Hpath as [_ Hs].
    assert (str_contains " " (method r) = false) as Hms by (by apply token_avoids).
    change (" " +:+ (url_path_and_query u +:+ " HTTP/1.1"))
      with (String " " (url_path_and_query u +:+ String " " "HTTP/1.1")).
    by rewrite (split_char_app _ _ _ Hms), (split_char_app _ _ _ Hs).
  - intros h Hin. apply (proj1 (validate_headers_Ok _) Hh) in Hin.
    by apply fetch_header_no_injection in Hin as (_ & _ & ?).
Qed.

(** C33: Chunked bodies are decoded exactly: the loop always ends, and it returns
    a body precisely when the input is a sequence of chunks with that
    content up to a chunk of size zero, whatever the case, blanks and
    extensions of the size lines. *)
Theorem chunked_exact input body : decode_chunked input = Ok body ↔ chunked input body.
Proof.
  split.
  - intros H. pose proof (decode_chunked_run input) as Hr. rewrite H in Hr.
    apply decode_fuel_chunked in Hr as (b & -> & Hb). done.
  - intros H. 
    pose proof (chunked_decode_fuel _ _ H (S (String.length input)) "" ltac:(lia)) as Hr.
    rewrite decode_chunked_run in Hr. by injection Hr.
Qed.

(** Whatever the peer sends, a response the caller gets has a body of at
    most the policy's bytes and a status that is no redirect. *)
Theorem fetch_response_bounded to_socket_addrs to_socket_addrs_of exchange p r resp :
  (max_response_bytes p < u64_max)%N →
  send to_socket_addrs to_socket_addrs_of exchange p r = Ok resp →
  (N.of_nat (String.length (response_body resp)) ≤ max_response_bytes p)%N ∧
  (100 ≤ status resp < 300 ∨ 400 ≤ status resp ≤ 599)%N.
Proof.
  intros Hmax. unfold send. rewrite result_bind_Ok. intros (u & _ & H).
  apply result_bind_Ok in H as (targets & _ & H). apply result_bind_Ok in H as (reads & _ & H).
  apply result_bind_Ok in H as (raw & Hraw & H).
  apply receive_bound in Hraw; [|done|cbn; lia].
  apply parse_response_Ok in H as [Hst Hb]. split; [lia|done].
Qed.

(** ** Witnesses *)

Definition sample_policy : FetchPolicy :=
  {| allowed := Exact [{| origin_scheme := Https; origin_host := "example.com"; origin_port := 443 |}];
     network_floor := Some ["example.com:443"]; timeout := 30;
     max_response_bytes := 16 * 1024 * 1024 |}.

Definition sample_request : FetchRequest :=
  {| method := "GET"; url := "https://Example.com/a?b"; request_headers := [("X-Trace", "t 1")];
     request_body := "hello" |}.

Lemma fetch_stays_within_net_witness :
  net_allows ["example.com:443"]
    (authority_text {| origin_scheme := Https; origin_host := "example.com"; origin_port := 443 |})
  = true.
Proof.
  apply (fetch_stays_within_net sample_resolver (λ _ _, Ok []) ["example.com:443"]
    ["https://example.com"] sample_policy sample_policy sample_request); vm_compute;
    [reflexivity|constructor|reflexivity].
Defined.

Definition sample_url : ParsedFetchUrl :=
  {| url_origin := {| origin_scheme := Https; origin_host := "example.com"; origin_port := 443 |};
     url_path_and_query := "/a?b" |}.

Lemma fetch_request_framed_witness :
  ∃ head, split_once_str (crlf +:+ crlf) (request_wire sample_url sample_request) =
            Some (head, "hello") ∧
    split_lines head = ["GET /a?b HTTP/1.1"; "Host: example.com"; "Connection: close";
                        "X-Trace: t 1"; "Content-Length: 5"].
Proof.
  destruct (fetch_request_framed sample_policy sample_request sample_url) as [H _];
    [vm_compute; reflexivity|]. exact H.
Defined.

(** The peer answers in two reads, with a chunked body. *)
Definition sample_exchange (targets : list SocketAddr) (tls : bool) (authority : string)
    (timeout : N) (wire : string) : result IoError (list (result IoError string)) :=
  Ok [Ok ("HTTP/1.1 200 OK" +:+ crlf +:+ "Transfer-Encoding: gzip, Chunked" +:+ crlf);
      Ok (crlf +:+ "5 ;x" +:+ crlf +:+ "hello" +:+ crlf +:+ "0" +:+ crlf +:+ crlf); Ok ""].

Lemma fetch_response_bounded_witness :
  ∃ resp, send sample_resolver (λ _ _, Ok []) sample_exchange sample_policy sample_request = Ok resp ∧
    response_body resp = "hello" ∧
    (N.of_nat (String.length (response_body resp)) ≤ max_response_bytes sample_policy)%N.
Proof.
  destruct (send sample_resolver (λ _ _, Ok []) sample_exchange sample_policy sample_request)
    as [resp|] eqn:E; [|vm_compute in E; discriminate].
  exists resp. split; [reflexivity|]. split; [vm_compute in E; by injection E as <-|].
  apply (fetch_response_bounded sample_resolver (λ _ _, Ok []) sample_exchange sample_policy
    sample_request resp); [vm_compute; reflexivity|exact E].
Defined.
