(* ===== verification/GrantBinding.v ===== *)
(** * GrantBinding: launching a program from a grant document

    Models the launch decision of [src/commands/sandbox.rs]: the binding of
    a document's entries to the parameters of [main], the resolution of its
    secrets, and, from [src/commands/execution.rs], the assembly of the
    capabilities a run is started with.  Paths are their text.  The terminal
    prompt and the resolution of child paths are parameters of the launch. *)

From S2P Require Import Prelude Text Ordered Catalog NetPolicy FetchUrl Footprint ProcessEnv.
From S2P Require Import Grants SyntheticNames FetchProvider.

Local Open Scope string_scope.

(** ** Filesystem rights *)

Record FsRights : Set := { read : bool; write : bool }.

#[export] Instance FsRights_eq_dec : EqDecision FsRights.
Proof. solve_decision. Defined.

(** [Named(n, inner)] with [n == needle] and no arguments. *)
Definition is_marker (needle : string) (a : Ty) : bool :=
  match a with Named n [] => String.eqb n needle | _ => false end.

Definition fs_rights_from_type_args (args : list Ty) : FsRights :=
  match args with
  | [] => {| read := true; write := true |}
  | _ => {| read := existsb (is_marker "Read") args; write := existsb (is_marker "Write") args |}
  end.

(** The first function item called [main]. *)
Fixpoint find_main (items : Items) : option Function :=
  match items with
  | [] => None
  | ItemFunction f :: rest => if String.eqb (fn_name f) "main" then Some f else find_main rest
  | _ :: rest => find_main rest
  end.

Definition main_params (items : Items) : list Param :=
  match find_main items with Some f => fn_params f | None => [] end.

(** [p.ty] as [Some(Named(n, args))]. *)
Definition named_type (p : Param) : option (string * list Ty) :=
  match param_ty p with Some (Named n args) => Some (n, args) | _ => None end.

(** A parameter of the named capability. *)
Definition is_cap (cap : string) (p : Param) : bool :=
  match named_type p with Some (n, _) => String.eqb n cap | None => false end.

Definition param_fs_rights (cap : string) (p : Param) : option FsRights :=
  '(n, args) ← named_type p;
  if String.eqb n cap then Some (fs_rights_from_type_args args) else None.

Definition main_fs_param_rights (items : Items) : list FsRights * list FsRights :=
  match find_main items with
  | Some f => (omap (param_fs_rights "Dir") (fn_params f), omap (param_fs_rights "File") (fn_params f))
  | None => ([], [])
  end.

Fixpoint grant_fs_rights_from (label : string) (out : FsRights) (rights : list string)
    : result string FsRights :=
  match rights with
  | [] => Ok out
  | r :: rest =>
      if String.eqb r "Read"
      then grant_fs_rights_from label {| read := true; write := write out |} rest
      else if String.eqb r "Write"
      then grant_fs_rights_from label {| read := read out; write := true |} rest
      else Err ("grant `" +:+ label +:+ "` names unknown filesystem right `" +:+ r +:+ "`")
  end.

Definition grant_fs_rights (label : string) (rights : list string) : result string FsRights :=
  grant_fs_rights_from label {| read := false; write := false |} rights.

(** The derived [Debug] of [FsRights]. *)
Definition show_bool (b : bool) : string := if b then "true" else "false".
Definition show_fs_rights (r : FsRights) : string :=
  "FsRights { read: " +:+ show_bool (read r) +:+ ", write: " +:+ show_bool (write r) +:+ " }".

Definition require_exact_fs_rights (label : string) (declared required : FsRights)
    : result string unit :=
  fail_if (negb (bool_decide (declared = required)))
    ("grant `" +:+ label +:+ "` rights " +:+ show_fs_rights declared +:+
     " do not match `main` parameter rights " +:+ show_fs_rights required).

(** ** Binding a document to [main] *)

Record GrantBinding : Type := {
  gb_dir_roots : list string;
  gb_file_grants : list string;
  gb_net_grants : list (list string);
  gb_fetch_origins : list string;
  gb_env_allow : option (list string);
  gb_exec_allow : option (list string);
  gb_exec_child_paths : list string;
  gb_user_cap_fields : list (list string);
  gb_over_grant : CapSet;
}.

(** The variables of the parameter loop. *)
Record Loop : Type := {
  l_dir_roots : list string;
  l_file_grants : list string;
  l_net_grants : list (list string);
  l_fetch_origins : list string;
  l_env_allow : option (list string);
  l_exec_allow : option (list string);
  l_exec_child_paths : list string;
  l_user_cap_fields : list (list string);
  l_bound : gset (string * string);
}.

Definition loop_start : Loop :=
  {| l_dir_roots := []; l_file_grants := []; l_net_grants := []; l_fetch_origins := [];
     l_env_allow := None; l_exec_allow := None; l_exec_child_paths := [];
     l_user_cap_fields := []; l_bound := ∅ |}.

(** [grantable.get(n)]: the last grantable type declared with the name. *)
Definition grantable_type (items : Items) (n : string) : option TypeDef :=
  List.fold_left (λ acc it,
    match it with
    | ItemType t => if type_grantable t && String.eqb (type_name t) n then Some t else acc
    | _ => acc
    end) items None.

Definition one_parameter_error (cap : string) : string :=
  "grant documents currently support one `" +:+ cap +:+ "` parameter per entrypoint".

Section Binding.
Context {Value : Type} (as_str : Value → option string).
Context (items : Items) (doc : GrantDoc Value) (grants_path : string).

(** [section.get(&p.name).ok_or_else(..)?] *)
Definition entry_for {A} (section : string) (entries : gmap string A) (name : string)
    : result string A :=
  ok_or (entries !! name)
    ("grant `" +:+ grants_path +:+ "` has no `[" +:+ section +:+ "]." +:+ name +:+
     "` for `main` parameter `" +:+ name +:+ "`").

Definition bind_file (name : string) (args : list Ty) (l : Loop) : result string Loop :=
  g ← entry_for "files" (files doc) name;
  declared ← grant_fs_rights ("[files]." +:+ name) (file_rights g);
  require_exact_fs_rights ("[files]." +:+ name) declared (fs_rights_from_type_args args);;
  Ok {| l_dir_roots := l_dir_roots l; l_file_grants := (l_file_grants l ++ [file_path g])%list;
        l_net_grants := l_net_grants l; l_fetch_origins := l_fetch_origins l;
        l_env_allow := l_env_allow l; l_exec_allow := l_exec_allow l;
        l_exec_child_paths := l_exec_child_paths l; l_user_cap_fields := l_user_cap_fields l;
        l_bound := {[("files", name)]} ∪ l_bound l |}.

Definition bind_dir (name : string) (args : list Ty) (l : Loop) : result string Loop :=
  g ← entry_for "dirs" (dirs doc) name;
  declared ← grant_fs_rights ("[dirs]." +:+ name) (dir_rights g);
  require_exact_fs_rights ("[dirs]." +:+ name) declared (fs_rights_from_type_args args);;
  Ok {| l_dir_roots := (l_dir_roots l ++ [dir_root g])%list; l_file_grants := l_file_grants l;
        l_net_grants := l_net_grants l; l_fetch_origins := l_fetch_origins l;
        l_env_allow := l_env_allow l; l_exec_allow := l_exec_allow l;
        l_exec_child_paths := l_exec_child_paths l; l_user_cap_fields := l_user_cap_fields l;
        l_bound := {[("dirs", name)]} ∪ l_bound l |}.

Definition bind_net (name : string) (l : Loop) : result string Loop :=
  patterns ← entry_for "net" (net doc) name;
  Ok {| l_dir_roots := l_dir_roots l; l_file_grants := l_file_grants l;
        l_net_grants := (l_net_grants l ++ [sort_dedup patterns])%list;
        l_fetch_origins := l_fetch_origins l; l_env_allow := l_env_allow l;
        l_exec_allow := l_exec_allow l; l_exec_child_paths := l_exec_child_paths l;
        l_user_cap_fields := l_user_cap_fields l; l_bound := {[("net", name)]} ∪ l_bound l |}.

Definition bind_fetch (name : string) (l : Loop) : result string Loop :=
  fail_if (negb (bool_decide (l_fetch_origins l = []))) (one_parameter_error "Fetch");;
  origins ← entry_for "fetch" (fetch doc) name;
  map_err (λ error, "grant `[fetch]." +:+ name +:+ "` contains an invalid origin: " +:+
                    show_error error) (allow origins);;
  Ok {| l_dir_roots := l_dir_roots l; l_file_grants := l_file_grants l;
        l_net_grants := l_net_grants l; l_fetch_origins := origins;
        l_env_allow := l_env_allow l; l_exec_allow := l_exec_allow l;
        l_exec_child_paths := l_exec_child_paths l; l_user_cap_fields := l_user_cap_fields l;
        l_bound := {[("fetch", name)]} ∪ l_bound l |}.

Definition bind_env (name : string) (l : Loop) : result string Loop :=
  fail_if (bool_decide (is_Some (l_env_allow l))) (one_parameter_error "Env");;
  names ← entry_for "env" (env doc) name;
  Ok {| l_dir_roots := l_dir_roots l; l_file_grants := l_file_grants l;
        l_net_grants := l_net_grants l; l_fetch_origins := l_fetch_origins l;
        l_env_allow := Some (sort_dedup names); l_exec_allow := l_exec_allow l;
        l_exec_child_paths := l_exec_child_paths l; l_user_cap_fields := l_user_cap_fields l;
        l_bound := {[("env", name)]} ∪ l_bound l |}.

Definition bind_exec (name : string) (l : Loop) : result string Loop :=
  fail_if (bool_decide (is_Some (l_exec_allow l))) (one_parameter_error "Exec");;
  binding ← entry_for "exec" (exec doc) name;
  Ok {| l_dir_roots := l_dir_roots l; l_file_grants := l_file_grants l;
        l_net_grants := l_net_grants l; l_fetch_origins := l_fetch_origins l;
        l_env_allow := l_env_allow l; l_exec_allow := Some (sort_dedup (programs binding));
        l_exec_child_paths := child_paths binding; l_user_cap_fields := l_user_cap_fields l;
        l_bound := {[("exec", name)]} ∪ l_bound l |}.

(** The policy fields of a grantable capability, in its field order. *)
Fixpoint policy_fields (name type_name : string) (fields : gmap string Value)
    (field_names : list string) : result string (list string) :=
  match field_names with
  | [] => Ok []
  | fname :: rest =>
      v ← ok_or (fields !! fname)
            ("`[user_caps]." +:+ name +:+ "` is missing field `" +:+ fname +:+
             "` required by `" +:+ type_name +:+ "`");
      s ← ok_or (as_str v)
            ("`[user_caps]." +:+ name +:+ "` field `" +:+ fname +:+ "` must be a string");
      vals ← policy_fields name type_name fields rest;
      Ok (s :: vals)
  end.

Definition bind_user_cap (name type_name : string) (t : TypeDef) (l : Loop) : result string Loop :=
  uc ← ok_or (user_caps doc !! name)
         ("grant `" +:+ grants_path +:+ "` has no `[user_caps]." +:+ name +:+
          "` for `main` parameter `" +:+ name +:+ "` (type `" +:+ type_name +:+ "`)");
  vals ← policy_fields name type_name (fields uc)
           match head (type_variants t) with Some v => variant_field_names v | None => [] end;
  Ok {| l_dir_roots := l_dir_roots l; l_file_grants := l_file_grants l;
        l_net_grants := l_net_grants l; l_fetch_origins := l_fetch_origins l;
        l_env_allow := l_env_allow l; l_exec_allow := l_exec_allow l;
        l_exec_child_paths := l_exec_child_paths l;
        l_user_cap_fields := (l_user_cap_fields l ++ [vals])%list;
        l_bound := {[("user_caps", name)]} ∪ l_bound l |}.

(** One turn of the parameter loop. *)
Definition bind_param (p : Param) (l : Loop) : result string Loop :=
  match named_type p with
  | None => Ok l
  | Some (n, args) =>
      if String.eqb n "File" then bind_file (param_name p) args l
      else if String.eqb n "Dir" then bind_dir (param_name p) args l
      else if String.eqb n "Net" then bind_net (param_name p) l
      else if String.eqb n "Fetch" then bind_fetch (param_name p) l
      else if String.eqb n "Env" then bind_env (param_name p) l
      else if String.eqb n "Exec" then bind_exec (param_name p) l
      else match grantable_type items n with
           | Some t => bind_user_cap (param_name p) n t l
           | None => Ok l
           end
  end.

Fixpoint bind_params (params : list Param) (l : Loop) : result string Loop :=
  match params with
  | [] => Ok l
  | p :: rest => l ← bind_param p l; bind_params rest l
  end.

(** The entries of one section that no parameter took. *)
Definition check_section (bound : gset (string * string)) (section : string) (names : list string)
    : result string unit :=
  match List.find (λ name, negb (bool_decide ((section, name) ∈ bound))) names with
  | Some name =>
      Err ("grant `" +:+ grants_path +:+ "` entry `[" +:+ section +:+ "]." +:+ name +:+
           "` binds no `main` parameter of that capability -- remove it, or rename it to the parameter it is for")
  | None => Ok tt
  end.

Definition keys {A} (m : gmap string A) : list string := (btree_entries m).*1.

Definition check_unbound (bound : gset (string * string)) : result string unit :=
  try_each (λ '(section, names), check_section bound section names)
    [("files", keys (files doc)); ("dirs", keys (dirs doc)); ("net", keys (net doc));
     ("fetch", keys (fetch doc)); ("env", keys (env doc)); ("exec", keys (exec doc));
     ("user_caps", keys (user_caps doc))].

(** [bind_grant_document] after [run_grant]. *)
Definition bind_needed (needed : CapSet) : result string GrantBinding :=
  let check := cross_check (cap_set doc) needed in
  fail_if (negb (sufficient check))
    ("grant `" +:+ grants_path +:+ "` is insufficient: the code needs " +:+
     show_caps (under_grant check) +:+ " which the grant withholds");;
  l ← bind_params (main_params items) loop_start;
  check_unbound (l_bound l);;
  Ok {| gb_dir_roots := l_dir_roots l; gb_file_grants := l_file_grants l;
        gb_net_grants := l_net_grants l; gb_fetch_origins := l_fetch_origins l;
        gb_env_allow := l_env_allow l; gb_exec_allow := l_exec_allow l;
        gb_exec_child_paths := l_exec_child_paths l;
        gb_user_cap_fields := l_user_cap_fields l; gb_over_grant := over_grant check |}.

(** [bind_grant_document]; [None] is the analysis running out of fuel. *)
Definition bind_grant_document : option (result string GrantBinding) :=
  needed ← run_grant items; Some (bind_needed needed).
End Binding.

(** ** Secrets *)

Definition doc_secrets {Value} (doc : GrantDoc Value) : list (string * string) :=
  map (λ e, (fst e, from (snd e))) (btree_entries (secrets doc)).

(** [.map_err(f)] of a call that changes the process. *)
Definition map_fail {S A} (f : string → string) (m : M S A) : M S A := λ s,
  match m s with (s', Fail e) => (s', Fail (f e)) | run => run end.

Definition resolve_secrets_from {Value} (doc : GrantDoc Value)
    : M Process (gmap string (list N)) :=
  lift_result (map_err (λ error, "grant " +:+ error)
    (reject_secret_env_overlap (doc_secrets doc) (env doc)));;
  map_fail (λ error, "grant " +:+ error) (resolve_and_consume_secret_env (doc_secrets doc)).

(** [runtime::SecretGrant] *)
Record RuntimeSecret : Type := {
  secret_name : string;
  secret_bytes : list N;
  secret_sealed : bool;
}.

(** The loop that pairs the resolved values with the document's entries. *)
Fixpoint name_secrets (grants_path : string) (entries : list (string * SecretGrant))
    (resolved : gmap string (list N)) : result string (list RuntimeSecret) :=
  match entries with
  | [] => Ok []
  | (name, s) :: rest =>
      bytes ← ok_or (resolved !! name)
        ("grant `" +:+ grants_path +:+ "` secret `" +:+ name +:+ "` did not resolve");
      secrets ← name_secrets grants_path rest (delete name resolved);
      Ok ({| secret_name := name; secret_bytes := bytes; secret_sealed := sealed s |} :: secrets)
  end.

(** ** The capabilities of a run *)

Record Capabilities : Type := {
  caps_print : bool;
  caps_console_read : bool;
  caps_args : list string;
  caps_user_cap_fields : list (list string);
  caps_clock : bool;
  caps_rand : bool;
  caps_env : bool;
  caps_env_allow : option (list string);
  caps_exec : bool;
  caps_exec_allow : option (list string);
  caps_exec_child_paths : list string;
  caps_dir_root : option string;
  caps_dir_roots : list string;
  caps_dir_rights : list FsRights;
  caps_dir_read : bool;
  caps_dir_write : bool;
  caps_file_grants : list string;
  caps_file_rights : list FsRights;
  caps_net_allow : option (list string);
  caps_net_grants : list (list string);
  caps_net_connect : bool;
  caps_net_listen : bool;
  caps_fetch_grants : list (list string);
  caps_signing_key : option (list N);
  caps_secrets : list RuntimeSecret;
}.

(** The arguments of [run_compiled] that carry authority. *)
Record LaunchInputs : Type := {
  in_dir_roots : list string;
  in_file_grants : list string;
  in_net_grants : list (list string);
  in_fetch_origins : list string;
  in_env_allow : option (list string);
  in_exec_allow : option (list string);
  in_exec_child_paths : list string;
  in_args : list string;
  in_signing_key : option (list N);
  in_named_secrets : list RuntimeSecret;
  in_user_cap_fields : list (list string);
  in_strict_dir : bool;
}.

Definition granted (grant : CapSet) (cap : string) : bool := bool_decide (is_Some (grant !! cap)).

(** [grant.get(cap).is_some_and(|rights| rights.contains(right))] *)
Definition granted_right (grant : CapSet) (cap marker : string) : bool :=
  match grant !! cap with Some rights => bool_decide (marker ∈ rights) | None => false end.

(** The roots of [Dir] parameters, with the working directory for a lenient
    run that names none. *)
Definition launch_dirs (grant : CapSet) (i : LaunchInputs) : result string (list string) :=
  if granted grant "Dir" then
    match in_dir_roots i with
    | [] =>
        if in_strict_dir i
        then Err "this program's `main` requires a `Dir`, but no subtree was granted (use `--dir <root>`)"
        else Ok ["."]
    | roots => Ok roots
    end
  else Ok [].

Definition launch_files (grant : CapSet) (i : LaunchInputs) : result string (list string) :=
  if granted grant "File" then
    match in_file_grants i with
    | [] => Err "this program's `main` requires a `File`, but none was granted (use `--file <path>`)"
    | paths => Ok paths
    end
  else Ok [].

(** The parameters of [main] of the given capability. *)
Definition typed_params (cap : string) (items : Items) : list Param :=
  List.filter (is_cap cap) (main_params items).

Definition launch_fetch (items : Items) (grant : CapSet) (i : LaunchInputs)
    : result string (list (list string)) :=
  if granted grant "Fetch" then
    fail_if (bool_decide (in_fetch_origins i = []))
      "this program's `main` requires `Fetch`, but no origins were granted (use `--fetch <scheme://host:port>`)";;
    map_err (λ error, "invalid `--fetch` grant: " +:+ show_error error)
      (allow (in_fetch_origins i));;
    Ok (replicate (length (typed_params "Fetch" items)) (in_fetch_origins i))
  else Ok [].

Definition launch_secrets (grant : CapSet) (i : LaunchInputs)
    : option (list N) * list RuntimeSecret :=
  if granted grant "Secret" || granted grant "SecretStore" then
    (in_signing_key i,
     (match in_signing_key i with
      | Some seed => [{| secret_name := "signing"; secret_bytes := seed; secret_sealed := false |}]
      | None => []
      end ++ in_named_secrets i)%list)
  else (None, []).

(** [run_compiled] up to the start of the runtime, after [run_grant]. *)
Definition launch_capabilities (items : Items) (grant : CapSet) (i : LaunchInputs)
    : result string Capabilities :=
  fail_if (granted grant "Secret" && bool_decide (in_signing_key i = None))
    "this program needs a root `Secret` (the signing key), but none was granted — provide `--signing-key <seed-file>` (a named `--secret`/`--secret-file` populates a `SecretStore`, not the bare `Secret`)";;
  roots ← launch_dirs grant i;
  files ← launch_files grant i;
  fetch ← launch_fetch items grant i;
  let '(dir_rights, file_rights) := main_fs_param_rights items in
  let '(signing_key, secrets) := launch_secrets grant i in
  Ok {| caps_print := granted_right grant "Console" "Write";
        caps_console_read := granted_right grant "Console" "Read";
        caps_args := in_args i;
        caps_user_cap_fields := in_user_cap_fields i;
        caps_clock := granted grant "Clock";
        caps_rand := granted grant "Rand";
        caps_env := granted grant "Env";
        caps_env_allow := if granted grant "Env" then in_env_allow i else None;
        caps_exec := granted grant "Exec";
        caps_exec_allow := if granted grant "Exec" then in_exec_allow i else None;
        caps_exec_child_paths := if granted grant "Exec" then in_exec_child_paths i else [];
        caps_dir_root := head roots;
        caps_dir_roots := tail roots;
        caps_dir_rights := if granted grant "Dir" then dir_rights else [];
        caps_dir_read := granted_right grant "Dir" "Read";
        caps_dir_write := granted_right grant "Dir" "Write";
        caps_file_grants := files;
        caps_file_rights := if granted grant "File" then file_rights else [];
        caps_net_allow :=
          if granted grant "Net" then Some (default [] (head (in_net_grants i))) else None;
        caps_net_grants := if granted grant "Net" then tail (in_net_grants i) else [];
        caps_net_connect := granted_right grant "Net" "Connect";
        caps_net_listen := granted_right grant "Net" "Listen";
        caps_fetch_grants := fetch;
        caps_signing_key := signing_key;
        caps_secrets := secrets |}.

(** ** The launch *)

Section Launch.
Context {Value : Type} (as_str : Value → option string).
(** [resolve_exec_child_paths] at the launch directory, and the answer at the
    prompt ([true] when no prompt is shown). *)
Context (resolve_exec_child_paths : list string → result string (list string)).
Context (approved : bool).

(** [run_file_grants] from the parsed document to the start of the run;
    [needed] is the grant [run_grant] computes. *)
Definition launch_from_document (items : Items) (needed : CapSet) (doc : GrantDoc Value)
    (grants_path : string) (args : list string) : M Process Capabilities :=
  b ← lift_result (bind_needed as_str items doc grants_path needed);
  child_paths ← lift_result
    (match gb_exec_child_paths b with [] => Ok [] | paths => resolve_exec_child_paths paths end);
  resolved ← resolve_secrets_from doc;
  named_secrets ← lift_result (name_secrets grants_path (btree_entries (secrets doc)) resolved);
  throw_if (negb approved) "grant not approved — aborting";;
  lift_result (launch_capabilities items needed
    {| in_dir_roots := gb_dir_roots b; in_file_grants := gb_file_grants b;
       in_net_grants := gb_net_grants b; in_fetch_origins := gb_fetch_origins b;
       in_env_allow := gb_env_allow b; in_exec_allow := gb_exec_allow b;
       in_exec_child_paths := child_paths; in_args := args; in_signing_key := None;
       in_named_secrets := named_secrets; in_user_cap_fields := gb_user_cap_fields b;
       in_strict_dir := true |}).
End Launch.

(** * What a binding holds *)

Lemma grant_fs_rights_from_Ok label out rights r :
  grant_fs_rights_from label out rights = Ok r →
  (read r = true ↔ read out = true ∨ "Read" ∈ rights) ∧
  (write r = true ↔ write out = true ∨ "Write" ∈ rights).
Proof.
  revert out. induction rights as [|x rights IH]; intros out; cbn [grant_fs_rights_from].
  { intros [= <-]. set_solver. }
  destruct (String.eqb_spec x "Read") as [->|H1];
    [|destruct (String.eqb_spec x "Write") as [->|H2]; [|done]];
    intros [HR HW]%IH; cbn in HR, HW; rewrite HR, HW, !elem_of_cons; naive_solver.
Qed.

(** The rights an entry declares are those the parameter's type asks for. *)
Definition rights_match (rights : list string) (p : Param) : Prop :=
  ∃ n args, named_type p = Some (n, args) ∧
    ("Read" ∈ rights ↔ read (fs_rights_from_type_args args) = true) ∧
    ("Write" ∈ rights ↔ write (fs_rights_from_type_args args) = true).

Lemma exact_rights label rights declared n args p :
  named_type p = Some (n, args) →
  grant_fs_rights label rights = Ok declared →
  require_exact_fs_rights label declared (fs_rights_from_type_args args) = Ok tt →
  rights_match rights p.
Proof.
  intros Hp [HR HW]%grant_fs_rights_from_Ok Heq. exists n, args. split; [done|].
  unfold require_exact_fs_rights, fail_if in Heq.
  destruct (bool_decide (declared = fs_rights_from_type_args args)) eqn:E; [|done].
  apply bool_decide_eq_true in E as <-. cbn in HR, HW. rewrite HR, HW. naive_solver.
Qed.

Section BindingFacts.
Context {Value : Type} (as_str : Value → option string).
Context (items : Items) (doc : GrantDoc Value) (grants_path : string).

(** The section a parameter is bound from. *)
Definition section_of (p : Param) : option string :=
  '(n, _) ← named_type p;
  if String.eqb n "File" then Some "files"
  else if String.eqb n "Dir" then Some "dirs"
  else if String.eqb n "Net" then Some "net"
  else if String.eqb n "Fetch" then Some "fetch"
  else if String.eqb n "Env" then Some "env"
  else if String.eqb n "Exec" then Some "exec"
  else match grantable_type items n with Some _ => Some "user_caps" | None => None end.

(** The document has an entry of the name in the section. *)
Inductive has_entry : string → string → Prop :=
  | has_file n g : files doc !! n = Some g → has_entry "files" n
  | has_dir n g : dirs doc !! n = Some g → has_entry "dirs" n
  | has_net n ps : net doc !! n = Some ps → has_entry "net" n
  | has_fetch n os : fetch doc !! n = Some os → has_entry "fetch" n
  | has_env n vs : env doc !! n = Some vs → has_entry "env" n
  | has_exec n e : exec doc !! n = Some e → has_entry "exec" n
  | has_user_cap n u : user_caps doc !! n = Some u → has_entry "user_caps" n.

Definition of_cap (cap : string) (ps : list Param) : list Param := List.filter (is_cap cap) ps.

Definition dir_bound (p : Param) (root : string) : Prop :=
  ∃ g, dirs doc !! param_name p = Some g ∧ root = dir_root g ∧ rights_match (dir_rights g) p.

Definition file_bound (p : Param) (path : string) : Prop :=
  ∃ g, files doc !! param_name p = Some g ∧ path = file_path g ∧ rights_match (file_rights g) p.

Definition net_bound (p : Param) (allow : list string) : Prop :=
  ∃ patterns, net doc !! param_name p = Some patterns ∧ allow = sort_dedup patterns.

(** At most one parameter is bound, and then to its own entry. *)
Definition env_bound (ps : list Param) (allow : option (list string)) : Prop :=
  match allow with
  | None => ps = []
  | Some names => ∃ p vs, ps = [p] ∧ env doc !! param_name p = Some vs ∧ names = sort_dedup vs
  end.

Definition exec_bound (ps : list Param) (allow : option (list string)) (paths : list string) : Prop :=
  match allow with
  | None => ps = [] ∧ paths = []
  | Some names => ∃ p e, ps = [p] ∧ exec doc !! param_name p = Some e ∧
      names = sort_dedup (programs e) ∧ paths = child_paths e
  end.

(** The binding has one list of origins for all [Fetch] parameters, not one
    for each: it is the last parameter's, it parses, and every parameter
    before the last has an empty entry (the code refuses a second parameter
    only when the list is not empty). *)
Definition fetch_bound (ps : list Param) (origins : list string) : Prop :=
  (ps = [] ∧ origins = []) ∨
  ∃ qs p, ps = (qs ++ [p])%list ∧ fetch doc !! param_name p = Some origins ∧
    is_ok (allow origins) = true ∧ ∀ q, q ∈ qs → fetch doc !! param_name q = Some [].

Record bound_to (ps : list Param) (l : Loop) : Prop := {
  bt_dirs : Forall2 dir_bound (of_cap "Dir" ps) (l_dir_roots l);
  bt_files : Forall2 file_bound (of_cap "File" ps) (l_file_grants l);
  bt_net : Forall2 net_bound (of_cap "Net" ps) (l_net_grants l);
  bt_fetch : fetch_bound (of_cap "Fetch" ps) (l_fetch_origins l);
  bt_env : env_bound (of_cap "Env" ps) (l_env_allow l);
  bt_exec : exec_bound (of_cap "Exec" ps) (l_exec_allow l) (l_exec_child_paths l);
  bt_bound : ∀ s n, (s, n) ∈ l_bound l ↔
    ∃ p, p ∈ ps ∧ param_name p = n ∧ section_of p = Some s;
  bt_entries : ∀ s n, (s, n) ∈ l_bound l → has_entry s n;
}.

Lemma of_cap_app cap ps p :
  of_cap cap (ps ++ [p]) = (of_cap cap ps ++ (if is_cap cap p then [p] else []))%list.
Proof. unfold of_cap. rewrite List.filter_app. cbn. done. Qed.

(** A turn that binds the parameter [p] to section [s]. *)
Lemma bound_step (ps : list Param) (p : Param) (s : string) (b b' : gset (string * string)) :
  (∀ s n, (s, n) ∈ b ↔ ∃ q, q ∈ ps ∧ param_name q = n ∧ section_of q = Some s) →
  (∀ s n, (s, n) ∈ b → has_entry s n) →
  section_of p = Some s → has_entry s (param_name p) →
  b' = {[(s, param_name p)]} ∪ b →
  (∀ s n, (s, n) ∈ b' ↔ ∃ q, q ∈ (ps ++ [p])%list ∧ param_name q = n ∧ section_of q = Some s) ∧
  (∀ s n, (s, n) ∈ b' → has_entry s n).
Proof.
  intros Hb He Hp Hh ->. split.
  - intros s' n. rewrite elem_of_union, elem_of_singleton, Hb.
    setoid_rewrite elem_of_app. setoid_rewrite list_elem_of_singleton. split.
    + intros [[= -> ->]|(q & Hq & Hn & Hs)]; [by exists p; auto|exists q; auto].
    + intros (q & [Hq| ->] & Hn & Hs); [right; eauto|left]. congruence.
  - intros s' n. rewrite elem_of_union, elem_of_singleton. intros [[= -> ->]|?]; auto.
Qed.

(** A turn that binds nothing. *)
Lemma unbound_step (ps : list Param) (p : Param) (b : gset (string * string)) :
  (∀ s n, (s, n) ∈ b ↔ ∃ q, q ∈ ps ∧ param_name q = n ∧ section_of q = Some s) →
  section_of p = None →
  ∀ s n, (s, n) ∈ b ↔ ∃ q, q ∈ (ps ++ [p])%list ∧ param_name q = n ∧ section_of q = Some s.
Proof.
  intros Hb Hp s n. rewrite Hb. setoid_rewrite elem_of_app. setoid_rewrite list_elem_of_singleton.
  split; [naive_solver|]. intros (q & [Hq| ->] & Hn & Hs); [eauto|congruence].
Qed.

Lemma entry_for_Ok {A} section (entries : gmap string A) name a :
  entry_for grants_path section entries name = Ok a → entries !! name = Some a.
Proof. unfold entry_for, ok_or. destruct (entries !! name); naive_solver. Qed.

Lemma is_cap_named cap p n args : named_type p = Some (n, args) → is_cap cap p = String.eqb n cap.
Proof. unfold is_cap. by intros ->. Qed.

(** The fields a turn for a parameter of another capability leaves alone. *)
Ltac other_caps Hp :=
  rewrite ?of_cap_app, ?(is_cap_named _ _ _ _ Hp); cbn [String.eqb Ascii.eqb Bool.eqb];
  rewrite ?app_nil_r; try done.

Lemma bind_file_step ps p args l l' :
  named_type p = Some ("File", args) → bound_to ps l →
  bind_file doc grants_path (param_name p) args l = Ok l' → bound_to (ps ++ [p]) l'.
Proof.
  intros Hp [] H. unfold bind_file in H.
  apply result_bind_Ok in H as (g & Hg%entry_for_Ok & H).
  apply result_bind_Ok in H as (d & Hd & H). apply result_bind_Ok in H as ([] & Hr & [= <-]).
  destruct (bound_step ps p "files" (l_bound l) ({[("files", param_name p)]} ∪ l_bound l)
    bt_bound0 bt_entries0) as [Hb He];
    [unfold section_of; by rewrite Hp|by econstructor|done|].
  constructor; cbn; other_caps Hp.
  apply Forall2_app; [done|]. repeat constructor. exists g. split_and!; [done..|].
  by eapply exact_rights.
Qed.

Lemma bind_dir_step ps p args l l' :
  named_type p = Some ("Dir", args) → bound_to ps l →
  bind_dir doc grants_path (param_name p) args l = Ok l' → bound_to (ps ++ [p]) l'.
Proof.
  intros Hp [] H. unfold bind_dir in H.
  apply result_bind_Ok in H as (g & Hg%entry_for_Ok & H).
  apply result_bind_Ok in H as (d & Hd & H). apply result_bind_Ok in H as ([] & Hr & [= <-]).
  destruct (bound_step ps p "dirs" (l_bound l) ({[("dirs", param_name p)]} ∪ l_bound l)
    bt_bound0 bt_entries0) as [Hb He];
    [unfold section_of; by rewrite Hp|by econstructor|done|].
  constructor; cbn; other_caps Hp.
  apply Forall2_app; [done|]. repeat constructor. exists g. split_and!; [done..|].
  by eapply exact_rights.
Qed.
Lemma bind_net_step ps p args l l' :
  named_type p = Some ("Net", args) → bound_to ps l →
  bind_net doc grants_path (param_name p) l = Ok l' → bound_to (ps ++ [p]) l'.
Proof.
  intros Hp [] H. unfold bind_net in H.
  apply result_bind_Ok in H as (g & Hg%entry_for_Ok & [= <-]).
  destruct (bound_step ps p "net" (l_bound l) ({[("net", param_name p)]} ∪ l_bound l)
    bt_bound0 bt_entries0) as [Hb He];
    [unfold section_of; by rewrite Hp|by econstructor|done|].
  constructor; cbn; other_caps Hp.
  apply Forall2_app; [done|]. repeat constructor. by exists g.
Qed.

Lemma fetch_bound_step ps p origins origins' :
  fetch_bound ps origins → origins = [] → fetch doc !! param_name p = Some origins' →
  is_ok (allow origins') = true → fetch_bound (ps ++ [p]) origins'.
Proof.
  intros H -> Hp Ha. right. exists ps, p. split_and!; [done..|].
  destruct H as [[-> _]|(qs & q & -> & Hq & _ & Hqs)]; [set_solver|].
  intros x [Hx| ->%list_elem_of_singleton]%elem_of_app; auto.
Qed.

Lemma bind_fetch_step ps p args l l' :
  named_type p = Some ("Fetch", args) → bound_to ps l →
  bind_fetch doc grants_path (param_name p) l = Ok l' → bound_to (ps ++ [p]) l'.
Proof.
  intros Hp [] H. unfold bind_fetch in H.
  apply fail_if_Ok in H as [Hempty H]. apply negb_false_iff, bool_decide_eq_true in Hempty.
  apply result_bind_Ok in H as (g & Hg%entry_for_Ok & H).
  apply result_bind_Ok in H as (pol & Ha & [= <-]).
  destruct (bound_step ps p "fetch" (l_bound l) ({[("fetch", param_name p)]} ∪ l_bound l)
    bt_bound0 bt_entries0) as [Hb He];
    [unfold section_of; by rewrite Hp|by econstructor|done|].
  constructor; cbn; other_caps Hp.
  eapply fetch_bound_step; [done..|]. unfold map_err in Ha. by destruct (allow g).
Qed.

Lemma bind_env_step ps p args l l' :
  named_type p = Some ("Env", args) → bound_to ps l →
  bind_env doc grants_path (param_name p) l = Ok l' → bound_to (ps ++ [p]) l'.
Proof.
  intros Hp [] H. unfold bind_env in H.
  apply fail_if_Ok in H as [Hnone H]. apply bool_decide_eq_false, eq_None_not_Some in Hnone.
  apply result_bind_Ok in H as (g & Hg%entry_for_Ok & [= <-]).
  destruct (bound_step ps p "env" (l_bound l) ({[("env", param_name p)]} ∪ l_bound l)
    bt_bound0 bt_entries0) as [Hb He];
    [unfold section_of; by rewrite Hp|by econstructor|done|].
  constructor; cbn; other_caps Hp.
  rewrite Hnone in bt_env0. cbn in bt_env0. rewrite bt_env0. by exists p, g.
Qed.

Lemma bind_exec_step ps p args l l' :
  named_type p = Some ("Exec", args) → bound_to ps l →
  bind_exec doc grants_path (param_name p) l = Ok l' → bound_to (ps ++ [p]) l'.
Proof.
  intros Hp [] H. unfold bind_exec in H.
  apply fail_if_Ok in H as [Hnone H]. apply bool_decide_eq_false, eq_None_not_Some in Hnone.
  apply result_bind_Ok in H as (g & Hg%entry_for_Ok & [= <-]).
  destruct (bound_step ps p "exec" (l_bound l) ({[("exec", param_name p)]} ∪ l_bound l)
    bt_bound0 bt_entries0) as [Hb He];
    [unfold section_of; by rewrite Hp|by econstructor|done|].
  constructor; cbn; other_caps Hp.
  rewrite Hnone in bt_exec0. destruct bt_exec0 as [-> _]. by exists p, g.
Qed.

(** A parameter of none of the six capabilities with a section. *)
Lemma other_param_step ps p n args :
  named_type p = Some (n, args) ∧ n ∉ ["File"; "Dir"; "Net"; "Fetch"; "Env"; "Exec"] ∨
  named_type p = None →
  ∀ cap, cap ∈ ["File"; "Dir"; "Net"; "Fetch"; "Env"; "Exec"] → of_cap cap (ps ++ [p]) = of_cap cap ps.
Proof.
  intros Hp cap Hcap. rewrite of_cap_app. unfold is_cap.
  destruct Hp as [[-> Hn]| ->]; [|by rewrite app_nil_r].
  destruct (String.eqb_spec n cap) as [->|]; [done|by rewrite app_nil_r].
Qed.

Lemma bind_user_cap_step ps p n args t l l' :
  named_type p = Some (n, args) → n ∉ ["File"; "Dir"; "Net"; "Fetch"; "Env"; "Exec"] →
  grantable_type items n = Some t → section_of p = Some "user_caps" → bound_to ps l →
  bind_user_cap as_str doc grants_path (param_name p) n t l = Ok l' → bound_to (ps ++ [p]) l'.
Proof.
  intros Hp Hn Ht Hs [] H. unfold bind_user_cap in H.
  apply result_bind_Ok in H as (u & Hu & H). apply result_bind_Ok in H as (vals & _ & [= <-]).
  unfold ok_or in Hu. destruct (user_caps doc !! param_name p) as [u'|] eqn:Eu; [|done].
  destruct (bound_step ps p "user_caps" (l_bound l) ({[("user_caps", param_name p)]} ∪ l_bound l)
    bt_bound0 bt_entries0) as [Hb He]; [done|by econstructor|done|].
  constructor; cbn; try done;
    rewrite (other_param_step ps p n args) by (first [by left | set_solver]); done.
Qed.

Lemma unbound_param_step ps p l n args :
  named_type p = Some (n, args) ∧ n ∉ ["File"; "Dir"; "Net"; "Fetch"; "Env"; "Exec"] ∨
  named_type p = None →
  section_of p = None → bound_to ps l → bound_to (ps ++ [p]) l.
Proof.
  intros Hp Hs []. pose proof (unbound_step ps p (l_bound l) bt_bound0 Hs) as Hb.
  constructor; try done; rewrite (other_param_step ps p n args) by (first [done | set_solver]); done.
Qed.

Lemma bind_param_step ps p l l' :
  bound_to ps l → bind_param as_str items doc grants_path p l = Ok l' → bound_to (ps ++ [p]) l'.
Proof.
  intros Hl. unfold bind_param. destruct (named_type p) as [[n args]|] eqn:Hp.
  2:{ intros [= <-]. eapply (unbound_param_step ps p l "" []); [by right| |done].
      unfold section_of. by rewrite Hp. }
  assert (section_of p =
    if String.eqb n "File" then Some "files"
    else if String.eqb n "Dir" then Some "dirs"
    else if String.eqb n "Net" then Some "net"
    else if String.eqb n "Fetch" then Some "fetch"
    else if String.eqb n "Env" then Some "env"
    else if String.eqb n "Exec" then Some "exec"
    else match grantable_type items n with Some _ => Some "user_caps" | None => None end) as Hs.
  { unfold section_of. by rewrite Hp. }
  destruct (String.eqb_spec n "File") as [->|]; [by eapply bind_file_step|].
  destruct (String.eqb_spec n "Dir") as [->|]; [by eapply bind_dir_step|].
  destruct (String.eqb_spec n "Net") as [->|]; [by eapply bind_net_step|].
  destruct (String.eqb_spec n "Fetch") as [->|]; [by eapply bind_fetch_step|].
  destruct (String.eqb_spec n "Env") as [->|]; [by eapply bind_env_step|].
  destruct (String.eqb_spec n "Exec") as [->|]; [by eapply bind_exec_step|].
  assert (n ∉ ["File"; "Dir"; "Net"; "Fetch"; "Env"; "Exec"]) as Hn by set_solver.
  destruct (grantable_type items n) as [t|] eqn:Ht; [by eapply bind_user_cap_step|].
  intros [= <-]. eapply unbound_param_step; [by left|done..].
Qed.

Lemma bind_params_step ps l rest l' :
  bound_to ps l → bind_params as_str items doc grants_path rest l = Ok l' →
  bound_to (ps ++ rest) l'.
Proof.
  revert ps l. induction rest as [|p rest IH]; intros ps l Hl; cbn [bind_params].
  { intros [= <-]. by rewrite app_nil_r. }
  rewrite result_bind_Ok. intros (l1 & H1 & H). rewrite (cons_middle p ps rest), app_assoc.
  eapply IH; [|done]. by eapply bind_param_step.
Qed.

Lemma loop_start_bound : bound_to [] loop_start.
Proof. constructor; cbn; try by constructor. all: set_solver. Qed.

Lemma check_section_Ok bound section names :
  check_section grants_path bound section names = Ok tt ↔
  ∀ n, n ∈ names → (section, n) ∈ bound.
Proof.
  unfold check_section. destruct (List.find _ names) as [n|] eqn:E.
  - apply List.find_some in E as [Hin Hn%negb_true_iff%bool_decide_eq_false].
    rewrite <- list_elem_of_In in Hin. split; [done|]. intros H. by apply H in Hin.
  - split; [|done]. intros _ n Hn. pose proof (List.find_none _ _ E n) as Hf.
    rewrite <- list_elem_of_In in Hf. specialize (Hf Hn).
    by apply negb_false_iff, bool_decide_eq_true in Hf.
Qed.

Lemma elem_of_keys {A} (m : gmap string A) n : n ∈ keys m ↔ is_Some (m !! n).
Proof.
  unfold keys. rewrite list_elem_of_fmap. split.
  - intros ([k a] & -> & Hin%elem_of_btree_entries). by eexists.
  - intros [a Ha%elem_of_btree_entries]. by exists (n, a).
Qed.

Lemma check_unbound_Ok bound :
  check_unbound doc grants_path bound = Ok tt → ∀ s n, has_entry s n → (s, n) ∈ bound.
Proof.
  unfold check_unbound. rewrite try_each_Ok. intros H s n Hn.
  assert (∀ A (m : gmap string A), (s, keys m) ∈
    [("files", keys (files doc)); ("dirs", keys (dirs doc)); ("net", keys (net doc));
     ("fetch", keys (fetch doc)); ("env", keys (env doc)); ("exec", keys (exec doc));
     ("user_caps", keys (user_caps doc))] → is_Some (m !! n) → (s, n) ∈ bound) as Hm.
  { intros A m Hin Hs. specialize (H _ Hin). cbn in H.
    by apply (proj1 (check_section_Ok _ _ _) H), elem_of_keys. }
  destruct Hn; (eapply Hm; [|by eexists]); set_solver.
Qed.
End BindingFacts.

Section LaunchFacts.
Context {Value : Type} (as_str : Value → option string).
Context (items : Items) (doc : GrantDoc Value) (grants_path : string).

(** What [bind_needed] checks and collects. *)
Lemma bind_needed_Ok needed b :
  bind_needed as_str items doc grants_path needed = Ok b →
  covered needed (cap_set doc) ∧
  (∀ s n, has_entry doc s n ↔
     ∃ p, p ∈ main_params items ∧ param_name p = n ∧ section_of items p = Some s) ∧
  Forall2 (dir_bound doc) (typed_params "Dir" items) (gb_dir_roots b) ∧
  Forall2 (file_bound doc) (typed_params "File" items) (gb_file_grants b) ∧
  Forall2 (net_bound doc) (typed_params "Net" items) (gb_net_grants b) ∧
  fetch_bound doc (typed_params "Fetch" items) (gb_fetch_origins b) ∧
  env_bound doc (typed_params "Env" items) (gb_env_allow b) ∧
  exec_bound doc (typed_params "Exec" items) (gb_exec_allow b) (gb_exec_child_paths b).
Proof.
  unfold bind_needed. rewrite fail_if_Ok. intros [Hs H]. apply negb_false_iff in Hs.
  apply bool_decide_eq_true, cross_check_spec in Hs.
  apply result_bind_Ok in H as (l & Hl & H). apply result_bind_Ok in H as ([] & Hu & [= <-]).
  apply (bind_params_step _ _ _ _ [] _ _ _ (loop_start_bound items doc)) in Hl as [].
  cbn [app] in *. split_and!; [done| |done..].
  intros s n. rewrite <- bt_bound0. split; [by apply check_unbound_Ok with grants_path|auto].
Qed.

Lemma section_of_cap p s cap :
  (s, cap) ∈ [("files", "File"); ("dirs", "Dir"); ("net", "Net"); ("fetch", "Fetch");
              ("env", "Env"); ("exec", "Exec")] →
  section_of items p = Some s → is_cap cap p = true.
Proof.
  unfold section_of, is_cap. destruct (named_type p) as [[n args]|]; cbn [mbind option_bind]; [|done].
  intros Hin. rewrite !elem_of_cons, elem_of_nil in Hin.
  repeat match goal with
  | |- (if String.eqb n ?x then _ else _) = _ → _ => destruct (String.eqb_spec n x) as [->|]
  end; try (intros [= <-]; naive_solver).
  destruct (grantable_type items n); [intros [= <-]; naive_solver|done].
Qed.

(** A capability the run needs and a section confers has a parameter. *)
Lemma needed_has_param needed b cap s :
  bind_needed as_str items doc grants_path needed = Ok b →
  (s, cap) ∈ [("net", "Net"); ("env", "Env"); ("exec", "Exec")] →
  granted needed cap = true → ∃ p, p ∈ typed_params cap items.
Proof.
  intros (Hcov & Hbound & _)%bind_needed_Ok Hin Hg.
  apply bool_decide_eq_true in Hg. rewrite <- has_presence in Hg.
  assert (has (cap_set doc) (cap, None)) as Hc.
  { assert (cap ∈ GRANTABLE) as Hgr by (unfold GRANTABLE; set_solver).
    specialize (Hcov cap None Hgr Hg). by destruct (String.eqb cap "Net"). }
  assert (∃ n, has_entry doc s n) as [n Hn].
  { rewrite has_presence, cap_set_lookup in Hc.
    assert (∀ A (m : gmap string A), is_Some (if negb (is_empty m) then Some () else None) →
            ∃ n a, m !! n = Some a) as Hne.
    { intros A m Hm. apply section_empty. destruct (negb (is_empty m)); [done|by destruct Hm]. }
    rewrite !elem_of_cons, elem_of_nil in Hin.
    destruct Hin as [[= -> ->]|[[= -> ->]|[[= -> ->]|[]]]]; cbn in Hc.
    - destruct (Hne _ (net doc)) as (n & a & Ha); [by destruct (negb _)|]. exists n. by econstructor.
    - destruct (Hne _ (env doc)) as (n & a & Ha); [by destruct (negb _)|]. exists n. by econstructor.
    - destruct (Hne _ (exec doc)) as (n & a & Ha); [by destruct (negb _)|]. exists n. by econstructor. }
  apply Hbound in Hn as (p & Hp & _ & Hs). exists p. unfold typed_params.
  rewrite list_elem_of_In, List.filter_In, <- list_elem_of_In. split; [done|].
  eapply section_of_cap; [|done]. set_solver.
Qed.

Lemma name_secrets_Ok entries resolved l :
  NoDup entries.*1 → name_secrets grants_path entries resolved = Ok l →
  ∀ rs, rs ∈ l → ∃ s, (secret_name rs, s) ∈ entries ∧
    resolved !! secret_name rs = Some (secret_bytes rs) ∧ secret_sealed rs = sealed s.
Proof.
  revert resolved l. induction entries as [|[n s] entries IH]; intros resolved l Hnd;
    cbn [name_secrets]; [intros [= <-]; set_solver|].
  cbn [fmap list_fmap fst] in Hnd. apply list.NoDup_cons in Hnd as [Hn Hnd].
  rewrite result_bind_Ok. intros (bytes & Hb & H). unfold ok_or in Hb.
  destruct (resolved !! n) as [bytes'|] eqn:Er; [|done]. injection Hb as ->.
  apply result_bind_Ok in H as (l' & Hl & [= <-]). specialize (IH _ _ Hnd Hl).
  intros rs [->|Hrs]%elem_of_cons; [exists s; cbn; set_solver|].
  destruct (IH rs Hrs) as (s' & Hin & Hr & Hs). exists s'. split; [set_solver|].
  rewrite lookup_delete_ne in Hr; [done|]. intros ->. apply Hn, list_elem_of_fmap. by eexists (_, s').
Qed.

Lemma doc_secrets_names : (doc_secrets doc).*1 = (btree_entries (secrets doc)).*1.
Proof.
  unfold doc_secrets. induction (btree_entries (secrets doc)) as [|e l IH]; [done|].
  cbn. by f_equal.
Qed.

Lemma elem_of_doc_secrets n fr :
  (n, fr) ∈ doc_secrets doc ↔ ∃ s, secrets doc !! n = Some s ∧ from s = fr.
Proof.
  unfold doc_secrets. rewrite list_elem_of_In, in_map_iff. setoid_rewrite <- list_elem_of_In. split.
  - intros ([k s] & [= <- <-] & Hin%elem_of_btree_entries). by exists s.
  - intros (s & Hs%elem_of_btree_entries & <-). by exists (n, s).
Qed.

(** A resolution that returns has stripped every provider variable. *)
Lemma resolve_secrets_from_Done p p' m :
  resolve_secrets_from doc p = (p', Done m) →
  p' = without p (consumed (doc_secrets doc)) ∧
  (∀ v b names, v ∈ consumed (doc_secrets doc) → env doc !! b = Some names → ¬ v ∈ names) ∧
  (∀ n bytes, m !! n = Some bytes → ∃ s, secrets doc !! n = Some s ∧
     resolve_secret_provider p (from s) = Ok bytes).
Proof.
  unfold resolve_secrets_from, mbind, M_bind, lift_result, map_err, map_fail.
  destruct (reject_secret_env_overlap (doc_secrets doc) (env doc)) as [[]|e] eqn:E; [|done].
  pose proof (proj1 (reject_overlap_Ok _ _) E) as Hno.
  unfold mret, M_ret. cbv beta iota. unfold resolve_and_consume_secret_env.
  pose proof (consume_run p (doc_secrets doc) Enforce) as H. cbv zeta in H.
  destruct (can_strip p Enforce (doc_secrets doc)).
  2:{ destruct (resolve_and_consume_secret_env_checked _ _ p) as [q o]. cbn in H. subst o.
      intros Hr. cbn in Hr. discriminate Hr. }
  rewrite H. destruct (snd (resolve_all p (doc_secrets doc) ∅ None)); [done|].
  intros [= <- <-]. split_and!; [done..|].
  intros n bytes Hn. apply resolve_all_lookup in Hn.
  2:{ rewrite doc_secrets_names. apply btree_entries_NoDup. }
  destruct Hn as [(fr & (s & Hs & <-)%elem_of_doc_secrets & Hr)|[Hn _]]; [eauto|].
  by rewrite lookup_empty in Hn.
Qed.
End LaunchFacts.

Lemma launch_capabilities_Ok items grant i caps :
  launch_capabilities items grant i = Ok caps →
  caps_env caps = granted grant "Env" ∧
  caps_env_allow caps = (if granted grant "Env" then in_env_allow i else None) ∧
  caps_exec caps = granted grant "Exec" ∧
  caps_exec_allow caps = (if granted grant "Exec" then in_exec_allow i else None) ∧
  caps_net_allow caps = (if granted grant "Net" then Some (default [] (head (in_net_grants i))) else None) ∧
  caps_net_grants caps = (if granted grant "Net" then tail (in_net_grants i) else []) ∧
  (in_signing_key i = None → caps_signing_key caps = None ∧
     ∀ rs, rs ∈ caps_secrets caps → rs ∈ in_named_secrets i) ∧
  (in_strict_dir i = true → granted grant "Dir" = true →
     (option_list (caps_dir_root caps) ++ caps_dir_roots caps)%list = in_dir_roots i).
Proof.
  unfold launch_capabilities. rewrite fail_if_Ok. intros [_ H].
  apply result_bind_Ok in H as (roots & Hroots & H).
  apply result_bind_Ok in H as (paths & _ & H). apply result_bind_Ok in H as (fetch & _ & H).
  destruct (main_fs_param_rights items) as [dr fr].
  destruct (launch_secrets grant i) as [sk ss] eqn:Es. injection H as <-. cbn.
  split_and!; [done..| |].
  - intros Hk. unfold launch_secrets in Es. rewrite Hk in Es. destruct (_ || _); simplify_eq; auto.
    split; [done|]. set_solver.
  - intros Hstrict Hd. unfold launch_dirs in Hroots. rewrite Hd, Hstrict in Hroots.
    destruct (in_dir_roots i) as [|r rs]; [done|]. by injection Hroots as <-.
Qed.

(** * Properties *)


(** C18: A launch from a document contains the run.  A run that holds [Env] or
    [Exec] holds it for the names of its own entry and never without a list;
    the [Net] allowlists are those of the entries, one for each parameter;
    the signing key is not handed over.  No variable that backs a secret is
    left in the environment, every read the [Env] allowlist admits gives
    what it gave before, and each secret handed over is one of the document,
    sealed when the document says so, with the value its own provider had. *)
Theorem document_launch_contained {Value} (as_str : Value → option string)
    resolve_exec_child_paths approved items needed (doc : GrantDoc Value) grants_path args
    p p' caps :
  launch_from_document as_str resolve_exec_child_paths approved items needed doc grants_path args p
    = (p', Done caps) →
  (caps_env caps = true → ∃ q vs, typed_params "Env" items = [q] ∧
     env doc !! param_name q = Some vs ∧ caps_env_allow caps = Some (sort_dedup vs)) ∧
  (caps_exec caps = true → ∃ q e, typed_params "Exec" items = [q] ∧
     exec doc !! param_name q = Some e ∧ caps_exec_allow caps = Some (sort_dedup (programs e))) ∧
  (granted needed "Net" = true → Forall2 (net_bound doc) (typed_params "Net" items)
     (option_list (caps_net_allow caps) ++ caps_net_grants caps)%list) ∧
  caps_signing_key caps = None ∧
  (∀ n s v, secrets doc !! n = Some s → from s = "env:" +:+ v → v ≠ "" →
     environment p' !! v = None) ∧
  (∀ names v, caps_env_allow caps = Some names → v ∈ names → std_var p' v = std_var p v) ∧
  (∀ rs, rs ∈ caps_secrets caps → ∃ s, secrets doc !! secret_name rs = Some s ∧
     secret_sealed rs = sealed s ∧ resolve_secret_provider p (from s) = Ok (secret_bytes rs)).
Proof.
  unfold launch_from_document. intros H. done_inv.
  repeat match goal with
  | H : lift_result _ _ = (_, Done _) |- _ => apply lift_result_Done in H as [? ->]
  end.
  match goal with H : bind_needed _ _ _ _ _ = Ok ?b |- _ => rename H into Hb; set (bb := b) in * end.
  match goal with H : resolve_secrets_from _ _ = _ |- _ => apply resolve_secrets_from_Done in H
    as (-> & Hno & Hm) end.
  match goal with H : name_secrets _ _ _ = Ok _ |- _ => rename H into Hn end.
  match goal with H : launch_capabilities _ _ _ = Ok _ |- _ => apply launch_capabilities_Ok in H
    as (He & Hea & Hx & Hxa & Hna & Hng & Hs & _) end.
  pose proof (needed_has_param _ _ _ _ _ _ "Env" "env" Hb ltac:(set_solver)) as Penv.
  pose proof (needed_has_param _ _ _ _ _ _ "Exec" "exec" Hb ltac:(set_solver)) as Pexec.
  pose proof (needed_has_param _ _ _ _ _ _ "Net" "net" Hb ltac:(set_solver)) as Pnet.
  pose proof Hb as (_ & _ & _ & _ & Bnet & _ & Benv & Bexec)%bind_needed_Ok.
  cbn [in_env_allow in_exec_allow in_net_grants in_signing_key in_named_secrets] in *.
  destruct (Hs eq_refl) as [Hsk Hss]. split_and!.
  - rewrite He. intros Hg. destruct (Penv Hg) as [q Hq]. rewrite Hg in Hea. rewrite Hea.
    unfold env_bound in Benv. destruct (gb_env_allow bb) as [names|]; [|by rewrite Benv in Hq; set_solver].
    destruct Benv as (q' & vs & Hps & Hvs & ->). eauto.
  - rewrite Hx. intros Hg. destruct (Pexec Hg) as [q Hq]. rewrite Hg in Hxa. rewrite Hxa.
    unfold exec_bound in Bexec. destruct (gb_exec_allow bb) as [names|];
      [|destruct Bexec as [Bexec _]; by rewrite Bexec in Hq; set_solver].
    destruct Bexec as (q' & e & Hps & Hvs & -> & _). eauto.
  - intros Hg. rewrite Hna, Hng, Hg. destruct (Pnet Hg) as [q Hq].
    destruct (gb_net_grants bb) as [|l ls]; [|exact Bnet].
    apply Forall2_length in Bnet. destruct (typed_params "Net" items); [set_solver|done].
  - done.
  - intros n s v Hsec Hfrom Hv. unfold without. cbn. apply map_lookup_filter_None_2. right.
    intros y _ Hin. apply Hin. cbn. apply elem_of_consumed. exists n. split; [|done].
    apply elem_of_doc_secrets. eauto.
  - intros names v Hnames Hv. rewrite std_var_without.
    rewrite bool_decide_false; [done|]. intros Hc. rewrite Hea in Hnames.
    destruct (granted needed "Env"); [|done]. unfold env_bound in Benv. rewrite Hnames in Benv.
    destruct Benv as (q & vs & _ & Hvs & ->). rewrite elem_of_sort_dedup in Hv. by eapply Hno.
  - intros rs Hrs%Hss. eapply name_secrets_Ok in Hn as (s & Hin & Hr & Hse);
      [|apply btree_entries_NoDup|done].
    apply elem_of_btree_entries in Hin. exists s. split_and!; [done..|].
    apply Hm in Hr as (s' & Hs' & Hr). by simplify_eq.
Qed.

(** ** Two [Fetch] parameters *)

Definition param (name : string) (ty : Ty) : Param :=
  {| param_name := name; param_ty := Some ty; param_convention := Let |}.

Definition main_of (params : list Param) : Items :=
  [ItemFunction {| fn_line := 1; fn_public := false; fn_pure := false; fn_comptime_only := false;
     fn_attributes := []; fn_name := "main"; fn_type_params := []; fn_params := params;
     fn_ret := None; fn_bounds := []; fn_is_gen := false; fn_is_async := false |}].

(** [fn main(offline: Fetch, api: Fetch)] *)
Definition two_fetches : Items :=
  main_of [param "offline" (Named "Fetch" []); param "api" (Named "Fetch" [])].

(** [[fetch] offline = [], api = ["https://api.example"]] *)
Definition two_fetch_document : GrantDoc string :=
  {| files := ∅; dirs := ∅; net := ∅;
     fetch := {[ "offline" := []; "api" := ["https://api.example"] ]};
     env := ∅; exec := ∅; secrets := ∅; user_caps := ∅ |}.

(** The guard against a second [Fetch] parameter looks at the origins bound
    so far and not at the parameter, so an entry with an empty allowlist
    does not count: the document below is valid and binds, and the run hands
    both parameters the origins reviewed for the second one. *)
Theorem empty_fetch_entry_widened :
  run_grant two_fetches = Some {[ "Fetch" := ∅ ]} ∧ validate two_fetch_document = Ok tt ∧
  ∃ caps, launch_from_document Some Ok true two_fetches {[ "Fetch" := ∅ ]} two_fetch_document
      "app.grants.toml" [] token_process = (token_process, Done caps) ∧
    caps_fetch_grants caps = [["https://api.example"]; ["https://api.example"]].
Proof.
  split; [by vm_compute|]. split; [by vm_compute|]. eexists. split; vm_compute; reflexivity.
Qed.

(** [fn main(data: Dir[Read], settings: Env, store: SecretStore, api: Net)] *)
Definition sample_main : Items :=
  main_of [param "data" (Named "Dir" [Named "Read" []]); param "settings" (Named "Env" []);
           param "store" (Named "SecretStore" []); param "api" (Named "Net" [])].

Definition sample_document : GrantDoc string :=
  {| files := ∅; dirs := {[ "data" := {| dir_root := "./data"; dir_rights := ["Read"] |} ]};
     net := {[ "api" := ["api.example:443"] ]}; fetch := ∅; env := {[ "settings" := ["HOME"] ]};
     exec := ∅; secrets := {[ "gh" := {| from := "env:TOKEN"; sealed := true |} ]};
     user_caps := ∅ |}.

Definition sample_needed : CapSet :=
  {[ "Dir" := {["Read"]}; "Env" := ∅; "SecretStore" := ∅;
     "Net" := list_to_set ["Connect"; "Listen"; "Tcp"; "Udp"; "Uds"] ]}.


Lemma document_launch_contained_witness :
  ∃ p' caps, launch_from_document Some Ok true sample_main sample_needed sample_document
      "app.grants.toml" [] token_process = (p', Done caps) ∧
    environment p' !! "TOKEN" = None ∧ std_var p' "HOME" = Some "/home/u".
Proof.
  destruct (launch_from_document Some Ok true sample_main sample_needed sample_document
    "app.grants.toml" [] token_process) as [p' [caps|e|]] eqn:E;
    [|vm_compute in E; discriminate E..].
  destruct (document_launch_contained Some Ok true sample_main sample_needed sample_document
    "app.grants.toml" [] token_process p' caps E) as (_ & _ & _ & _ & Hs & Hv & _).
  exists p', caps. split; [reflexivity|]. split.
  - apply (Hs "gh" {| from := "env:TOKEN"; sealed := true |} "TOKEN");
      [vm_compute; reflexivity|reflexivity|discriminate].
  - rewrite (Hv ["HOME"] "HOME"); [vm_compute; reflexivity| |constructor].
    vm_compute in E. injection E as <- <-. reflexivity.
Defined.
