(* ===== verification/Patterns.v ===== *)
(** * Patterns: the patterns of [match] and how the interpreter runs them

    Models [Pattern] and [MatchArm] of [crates/witchy-syntax/src/ast.rs] and
    [match_pattern] of [crates/witchy-interp/src/interpreter/value_ops.rs].
    Of [Value] the variants a pattern can look into are modelled; every other
    variant (bytes, floats, capabilities, closures, dictionaries, references)
    is [Opaque], which only [_] and a name match.  The environment is the
    innermost scope, the list of bindings [define] pushes to. *)

From S2P Require Import Prelude Text.

Local Open Scope string_scope.

Module Pattern.
Inductive t : Set :=
  | Wildcard
  | Var (name : string)
  | Int (n : Z)
  | Str (s : string)
  | Bool (b : bool)
  | Ctor (name : string) (args : list t)
  | AnonCtor (tag : string) (args : list t)
  | Tuple (elems : list t)
  | List (elems : list t) (rest : option (option string))
  | Duration (ms : Z)
  | IntRange (lo hi : Z) (inclusive : bool)
  | Or (alts : list t).
End Pattern.
Abbreviation Pattern := Pattern.t.

Module Value.
Inductive t : Set :=
  | Int (n : Z)
  | Str (s : string)
  | Bool (b : bool)
  | List (items : list t)
  | Tuple (items : list t)
  | Ctor (name : string) (fields : list t)
  | Unit
  | Opaque (id : N).
End Value.
Abbreviation Value := Value.t.

(** The expressions of an arm are only carried along. *)
Record MatchArm (E : Type) : Type := {
  arm_line : N;
  arm_pattern : Pattern;
  arm_guard : option E;
  arm_body : E;
}.
Arguments arm_line {E} _.
Arguments arm_pattern {E} _.
Arguments arm_guard {E} _.
Arguments arm_body {E} _.

(** ** The interpreter's match *)

Abbreviation Env := (list (string * Value)).

Definition define (name : string) (value : Value) (env : Env) : Env := (env ++ [(name, value)])%list.

Section lists.
Context (match_pattern : Pattern → Value → Env → bool * Env).

(** [pats.iter().zip(values).all(|(p, v)| match_pattern(p, v, env))] *)
Definition match_all : list Pattern → list Value → Env → bool * Env :=
  fix go pats values env := match pats, values with
  | p :: pats, v :: values =>
      match match_pattern p v env with
      | (true, env) => go pats values env
      | (false, env) => (false, env)
      end
  | _, _ => (true, env)
  end.

(** [alts.iter().any(|p| match_pattern(p, v, env))] *)
Definition match_any : list Pattern → Value → Env → bool * Env :=
  fix go alts v env := match alts with
  | p :: alts =>
      match match_pattern p v env with
      | (true, env) => (true, env)
      | (false, env) => go alts v env
      end
  | [] => (false, env)
  end.
End lists.

Definition same_length {A B} (xs : list A) (ys : list B) : bool := (length xs =? length ys)%nat.

Fixpoint match_pattern (pat : Pattern) (value : Value) (env : Env) {struct pat} : bool * Env :=
  match pat, value with
  | Pattern.Wildcard, _ => (true, env)
  | Pattern.Var name, v => (true, define name v env)
  | Pattern.Ctor name args, Value.Unit =>
      (String.eqb name "Nil" && match args with [] => true | _ => false end, env)
  | Pattern.Tuple pats, Value.Unit => (match pats with [] => true | _ => false end, env)
  | Pattern.Int a, Value.Int b => ((a =? b)%Z, env)
  | Pattern.Str a, Value.Str b => (String.eqb a b, env)
  | Pattern.Bool a, Value.Bool b => (eqb a b, env)
  | Pattern.Duration a, Value.Int b => ((a =? b)%Z, env)
  | Pattern.IntRange lo hi inclusive, Value.Int b =>
      ((lo <=? b)%Z && (if inclusive then (b <=? hi)%Z else (b <? hi)%Z), env)
  | Pattern.Or alts, v => match_any match_pattern alts v env
  | Pattern.Ctor name args, Value.Ctor vname fields =>
      if String.eqb name vname && same_length args fields
      then match_all match_pattern args fields env else (false, env)
  | Pattern.AnonCtor tag args, Value.Ctor vname fields =>
      if String.eqb vname ("." +:+ tag) && same_length args fields
      then match_all match_pattern args fields env else (false, env)
  | Pattern.Tuple pats, Value.Tuple items =>
      if same_length pats items then match_all match_pattern pats items env else (false, env)
  | Pattern.List elems rest, Value.List items =>
      let len_ok := match rest with
                    | None => (length items =? length elems)%nat
                    | Some _ => (length elems <=? length items)%nat
                    end in
      if negb len_ok then (false, env)
      else match match_all match_pattern elems items env with
           | (false, env) => (false, env)
           | (true, env) =>
               (true, match rest with
                      | Some (Some name) => define name (Value.List (drop (length elems) items)) env
                      | _ => env
                      end)
           end
  | _, _ => (false, env)
  end.

(** ** Whether a pattern matches *)

(** The answer of [match_pattern], which does not depend on the environment. *)
Fixpoint matches (pat : Pattern) (value : Value) : bool :=
  let fix all (pats : list Pattern) (values : list Value) : bool :=
    match pats, values with
    | p :: pats, v :: values => matches p v && all pats values
    | _, _ => true
    end in
  match pat, value with
  | Pattern.Wildcard, _ | Pattern.Var _, _ => true
  | Pattern.Ctor name args, Value.Unit =>
      String.eqb name "Nil" && match args with [] => true | _ => false end
  | Pattern.Tuple pats, Value.Unit => match pats with [] => true | _ => false end
  | Pattern.Int a, Value.Int b => (a =? b)%Z
  | Pattern.Str a, Value.Str b => String.eqb a b
  | Pattern.Bool a, Value.Bool b => eqb a b
  | Pattern.Duration a, Value.Int b => (a =? b)%Z
  | Pattern.IntRange lo hi inclusive, Value.Int b =>
      (lo <=? b)%Z && (if inclusive then (b <=? hi)%Z else (b <? hi)%Z)
  | Pattern.Or alts, v => existsb (λ p, matches p v) alts
  | Pattern.Ctor name args, Value.Ctor vname fields =>
      String.eqb name vname && same_length args fields && all args fields
  | Pattern.AnonCtor tag args, Value.Ctor vname fields =>
      String.eqb vname ("." +:+ tag) && same_length args fields && all args fields
  | Pattern.Tuple pats, Value.Tuple items => same_length pats items && all pats items
  | Pattern.List elems rest, Value.List items =>
      match rest with
      | None => (length items =? length elems)%nat
      | Some _ => (length elems <=? length items)%nat
      end && all elems items
  | _, _ => false
  end.

Definition matches_all (pats : list Pattern) (values : list Value) : bool :=
  (fix all (pats : list Pattern) (values : list Value) : bool :=
    match pats, values with
    | p :: pats, v :: values => matches p v && all pats values
    | _, _ => true
    end) pats values.

Definition sub_patterns (p : Pattern) : list Pattern :=
  match p with
  | Pattern.Ctor _ args | Pattern.AnonCtor _ args => args
  | Pattern.Tuple elems | Pattern.List elems _ => elems
  | Pattern.Or alts => alts
  | _ => []
  end.

Lemma pattern_nested_ind (P : Pattern → Prop) :
  (∀ p, Forall P (sub_patterns p) → P p) → ∀ p, P p.
Proof.
  intros H. fix go 1. intros p.
  assert (gol : ∀ l : list Pattern, Forall P l).
  { fix gol 1. intros [|x l]; constructor; [apply go|apply gol]. }
  apply H. destruct p; simpl; try constructor; apply gol.
Qed.

Lemma match_all_matches pats values env :
  Forall (λ p, ∀ v env, fst (match_pattern p v env) = matches p v) pats →
  fst (match_all match_pattern pats values env) = matches_all pats values.
Proof.
  intros H. revert values env. induction H as [|p pats Hp H IH]; intros [|v values] env; simpl; try done.
  specialize (Hp v env). destruct (match_pattern p v env) as [[] env']; simpl in Hp; rewrite <- Hp; [|done].
  apply IH.
Qed.

Lemma match_any_matches alts v env :
  Forall (λ p, ∀ v env, fst (match_pattern p v env) = matches p v) alts →
  fst (match_any match_pattern alts v env) = existsb (λ p, matches p v) alts.
Proof.
  intros H. revert env. induction H as [|p alts Hp H IH]; intros env; simpl; [done|].
  specialize (Hp v env). destruct (match_pattern p v env) as [[] env']; simpl in Hp; rewrite <- Hp; [done|].
  apply IH.
Qed.

Lemma match_pattern_matches p v env : fst (match_pattern p v env) = matches p v.
Proof.
  revert v env. induction p as [p IH] using pattern_nested_ind. intros v env.
  destruct p; simpl in IH; destruct v; try done; simpl; try (by apply match_any_matches).
  - destruct (String.eqb name name0 && same_length args fields); [|done]. by apply match_all_matches.
  - destruct (String.eqb name _ && same_length args fields); [|done]. by apply match_all_matches.
  - destruct (same_length elems items); [|done]. by apply match_all_matches.
  - pose proof (match_all_matches elems items env IH) as Hall. fold (matches_all elems items).
    destruct (match_all match_pattern elems items env) as [b env']. simpl in Hall. subst b.
    destruct rest as [o|]; simpl.
    + destruct (length elems <=? length items)%nat; [|done]. by destruct (matches_all elems items).
    + destruct (length items =? length elems)%nat; [|done]. by destruct (matches_all elems items).
Qed.
