(* ===== verification/Coverage.v ===== *)
(** * Coverage: exhaustiveness and reachability of [match]

    Models [crates/witchy-types/src/typeck/coverage.rs] and, of [typeck.rs],
    the checks that drive it: [column_ctors], [variant_arg_types],
    [anon_union_variants_for_ty], [rows_exhaustive], [patterns_cover],
    [variant_fields_covered], [check_exhaustive], [check_unreachable] and
    [pattern_refutable].  The declaration tables of [Checker] these read are
    the record [Tables].

    [rows_exhaustive] recurses on the matrix of patterns, which is not
    structural: it runs on fuel, and running out is [Panic].  [patterns_cover]
    does too, with the total size of its patterns. *)

From S2P Require Import Prelude Text Footprint CapRights Types Substitution Unify Inference.
From S2P Require Import SyntheticNames Patterns.

Local Open Scope string_scope.

Record Tables : Type := {
  adt_variants : gmap string (list string);
  ctor_sigs : gmap string (list Ty * Ty);
  cur_module : string;
}.

(** ** [coverage.rs] *)

Section arms.
Context {E : Type} (false_expr : E).

(** [Expr::Bool(false)] is the placeholder body. *)
Definition flatten_or_arms (arms : list (MatchArm E)) : list (MatchArm E) :=
  List.flat_map (λ arm,
    match arm_pattern arm with
    | Pattern.Or alts =>
        List.map (λ alt, {| arm_line := arm_line arm; arm_pattern := alt;
                            arm_guard := arm_guard arm; arm_body := false_expr |}) alts
    | _ => [arm]
    end) arms.
End arms.

Record ColCtor : Type := { ctor_key : string; ctor_args : list Ty }.

Definition TUPLE_CTOR : string := "(tuple)".
Definition LIST_NIL : string := "(nil)".
Definition LIST_CONS : string := "(cons)".

Definition pattern_ctor_key (p : Pattern) : option string :=
  match p with
  | Pattern.Wildcard | Pattern.Var _ => None
  | Pattern.Bool true => Some "true"
  | Pattern.Bool false => Some "false"
  | Pattern.Ctor name _ => Some name
  | Pattern.AnonCtor tag _ => Some ("." +:+ tag)
  | Pattern.Tuple _ => Some TUPLE_CTOR
  | Pattern.List elems rest =>
      match elems, rest with
      | _ :: _, _ => Some LIST_CONS
      | [], None => Some LIST_NIL
      | [], Some _ => None
      end
  | Pattern.Int _ | Pattern.Str _ | Pattern.Duration _ | Pattern.IntRange _ _ _ => Some "(literal)"
  | Pattern.Or _ => None
  end.

Definition specialize_list (elems : list Pattern) (rest : option (option string)) (c : ColCtor)
  : option (list Pattern) :=
  if String.eqb (ctor_key c) LIST_NIL then
    match elems with [] => Some [] | _ => None end
  else if String.eqb (ctor_key c) LIST_CONS then
    match elems, rest with
    | first :: more, _ => Some [first; Pattern.List more rest]
    | [], Some _ => Some [Pattern.Wildcard; Pattern.Wildcard]
    | [], None => None
    end
  else None.

Definition specialize_head (p : Pattern) (c : ColCtor) : option (list Pattern) :=
  let arity := length (ctor_args c) in
  match p with
  | Pattern.Wildcard | Pattern.Var _ => Some (replicate arity Pattern.Wildcard)
  | Pattern.Bool b => if String.eqb (ctor_key c) (if b then "true" else "false") then Some [] else None
  | Pattern.Ctor name args => if String.eqb (ctor_key c) name then Some args else None
  | Pattern.AnonCtor tag args => if String.eqb (ctor_key c) ("." +:+ tag) then Some args else None
  | Pattern.Tuple ps => if String.eqb (ctor_key c) TUPLE_CTOR then Some ps else None
  | Pattern.List elems rest => specialize_list elems rest c
  | Pattern.Int _ | Pattern.Str _ | Pattern.Duration _ | Pattern.IntRange _ _ _ => None
  | Pattern.Or _ => None
  end.

Definition specialize_row (c : ColCtor) (row : list Pattern) : option (list Pattern) :=
  match row with
  | [] => None
  | head :: tail => new_row ← specialize_head head c; Some (new_row ++ tail)%list
  end.

(** [expand_head_or] of the row [head :: tail]. *)
Fixpoint expand_head (tail : list Pattern) (head : Pattern) : list (list Pattern) :=
  match head with
  | Pattern.Or alts => List.flat_map (expand_head tail) alts
  | _ => [head :: tail]
  end.

Definition expand_head_or (row : list Pattern) : list (list Pattern) :=
  match row with
  | [] => [[]]
  | head :: tail => expand_head tail head
  end.

(** [n.to_string()] of an [i64]. *)
Definition show_Z (n : Z) : string :=
  if (n <? 0)%Z then "-" +:+ show_N (Z.to_N (- n)) else show_N (Z.to_N n).

Definition describe_duration_nonneg (ms : Z) : string :=
  let hours := (ms / 3600000)%Z in
  let minutes := ((ms / 60000) mod 60)%Z in
  let seconds := ((ms / 1000) mod 60)%Z in
  let millis := (ms mod 1000)%Z in
  if (0 <? hours)%Z then show_Z hours +:+ "h" +:+ show_Z minutes +:+ "m" +:+ show_Z seconds +:+ "s"
  else if (0 <? minutes)%Z then show_Z minutes +:+ "m" +:+ show_Z seconds +:+ "s"
  else if (0 <? seconds)%Z then show_Z seconds +:+ "s"
  else show_Z millis +:+ "ms".

(** [ms.saturating_abs()] stops at [i64::MAX]. *)
Definition describe_duration_pattern (ms : Z) : string :=
  if (ms <? 0)%Z then "-" +:+ describe_duration_nonneg (Z.min (- ms) (2 ^ 63 - 1))
  else describe_duration_nonneg ms.

Fixpoint describe_pattern (p : Pattern) : string :=
  match p with
  | Pattern.Wildcard => "_"
  | Pattern.Var n => n
  | Pattern.Int n => show_Z n
  | Pattern.Str s => String "034" (s +:+ String "034" "")
  | Pattern.Bool b => if b then "true" else "false"
  | Pattern.Ctor name [] => name
  | Pattern.Ctor name args => name +:+ "(" +:+ String.concat ", " (List.map describe_pattern args) +:+ ")"
  | Pattern.AnonCtor tag [] => "." +:+ tag
  | Pattern.AnonCtor tag args =>
      "." +:+ tag +:+ "(" +:+ String.concat ", " (List.map describe_pattern args) +:+ ")"
  | Pattern.Tuple ps => "(" +:+ String.concat ", " (List.map describe_pattern ps) +:+ ")"
  | Pattern.List _ _ => "list pattern"
  | Pattern.Duration ms => describe_duration_pattern ms
  | Pattern.IntRange lo hi inclusive =>
      show_Z lo +:+ (if inclusive then "..=" else "..") +:+ show_Z hi
  | Pattern.Or alts => String.concat " | " (List.map describe_pattern alts)
  end.

Example describe_quotes : String.length (describe_pattern (Pattern.Str "a")) = 3%nat.
Proof. reflexivity. Qed.

(** ** Constructor signatures *)

(** The slices [union_args[offset..end]] of the loop. *)
Fixpoint split_fields (variants : list (string * N)) (args : list Ty) : option (list (string * list Ty)) :=
  match variants with
  | [] => match args with [] => Some [] | _ => None end
  | (tag, arity) :: variants =>
      if (N.of_nat (length args) <? arity)%N then None
      else rest ← split_fields variants (drop (N.to_nat arity) args);
           Some ((tag, take (N.to_nat arity) args) :: rest)
  end.

Definition anon_union_variants_for_ty (ty : Ty) : M Checker (option (Ty * list (string * list Ty))) :=
  resolved ← resolve ty;
  mret match resolved with
       | Ty.Named name union_args =>
           variants ← anon_union_synthetic_variants name;
           out ← split_fields variants union_args;
           Some (Ty.Named name union_args, out)
       | _ => None
       end.

(** [subst_vars] with the size of the resolved type as its fuel. *)
Definition subst_vars_sized (map : gmap N Ty) (t : Ty) : M Checker Ty := λ c,
  subst_vars (ty_size (res (subst c) t)) map t c.

(** The formal parameters of a variant's result paired with the arguments. *)
Definition formal_map (result : Ty) (actual_args : list Ty) : gmap N Ty :=
  match result with
  | Ty.Named _ formals =>
      List.fold_left (λ m fa, match fst fa with Ty.Var id => <[id := snd fa]> m | _ => m end)
        (zip formals actual_args) ∅
  | _ => ∅
  end.

Definition variant_arg_types (T : Tables) (v : string) (actual_args : list Ty) : M Checker (list Ty) :=
  match ctor_sigs T !! v with
  | None => mret []
  | Some (fields, result) => mapM (subst_vars_sized (formal_map result actual_args)) fields
  end.

Section variants.
Context (T : Tables) (args : list Ty).
Fixpoint variant_ctors (variants : list string) : M Checker (list ColCtor) :=
  match variants with
  | [] => mret []
  | v :: variants =>
      ts ← variant_arg_types T v args;
      rest ← variant_ctors variants;
      mret ({| ctor_key := v; ctor_args := ts |} :: rest)
  end.
End variants.

Definition column_ctors (T : Tables) (ty : Ty) : M Checker (option (list ColCtor)) :=
  match ty with
  | Ty.Bool => mret (Some [{| ctor_key := "true"; ctor_args := [] |};
                           {| ctor_key := "false"; ctor_args := [] |}])
  | Ty.Tuple comps => mret (Some [{| ctor_key := TUPLE_CTOR; ctor_args := comps |}])
  | Ty.List elem => mret (Some [{| ctor_key := LIST_NIL; ctor_args := [] |};
                                {| ctor_key := LIST_CONS; ctor_args := [elem; ty] |}])
  | Ty.Named adt args =>
      union ← anon_union_variants_for_ty ty;
      match union with
      | Some (_, variants) =>
          mret (Some (List.map (λ v, {| ctor_key := "." +:+ fst v; ctor_args := snd v |}) variants))
      | None =>
          match adt_variants T !! adt with
          | None => mret None
          | Some variants => cs ← variant_ctors T args variants; mret (Some cs)
          end
      end
  | _ => mret None
  end.

(** ** The matrix *)

(** [r[0]] panics on an empty row. *)
Definition row_keys (rows : list (list Pattern)) : M Checker (list (option string)) :=
  mapM (λ r, match r with p :: _ => mret (pattern_ctor_key p) | [] => panic end) rows.

Section all_ctors.
Context (f : ColCtor → M Checker bool).
Fixpoint all_ctors (cs : list ColCtor) : M Checker bool :=
  match cs with
  | [] => mret true
  | c :: cs => b ← f c; if (b : bool) then all_ctors cs else mret false
  end.
End all_ctors.

Definition mentions (keys : list (option string)) (key : string) : bool :=
  bool_decide (Some key ∈ keys).

Definition default_rows (rows : list (list Pattern)) : list (list Pattern) :=
  omap (λ r, match r with
             | p :: tail => if bool_decide (pattern_ctor_key p = None) then Some tail else None
             | [] => None
             end) rows.

Fixpoint rows_exhaustive (n : nat) (T : Tables) (types : list Ty) (rows : list (list Pattern))
  : M Checker bool :=
  match n with
  | O => panic
  | S n =>
      let rows := List.flat_map expand_head_or rows in
      match types with
      | [] => mret match rows with [] => false | _ => true end
      | col_ty :: rest =>
          col_ty ← resolve col_ty;
          full ← column_ctors T col_ty;
          present ← row_keys rows;
          match full with
          | Some cs =>
              if forallb (λ c, mentions present (ctor_key c)) cs then
                all_ctors (λ c, rows_exhaustive n T (ctor_args c ++ rest)
                                  (omap (specialize_row c) rows)) cs
              else rows_exhaustive n T rest (default_rows rows)
          | None => rows_exhaustive n T rest (default_rows rows)
          end
      end
  end.

(** ** Nominal types: one column at a time *)

Fixpoint pattern_size (p : Pattern) : nat :=
  let sizes ps := foldr (λ p n, pattern_size p + n)%nat 0%nat ps in
  match p with
  | Pattern.Ctor _ args | Pattern.AnonCtor _ args => S (sizes args)
  | Pattern.Tuple ps | Pattern.List ps _ | Pattern.Or ps => S (sizes ps)
  | _ => 1
  end.

Definition is_catchall (p : Pattern) : bool :=
  match p with Pattern.Wildcard | Pattern.Var _ => true | _ => false end.

(** The argument lists of the patterns of variant [v]. *)
Definition variant_args (v : string) (pats : list Pattern) : list (list Pattern) :=
  omap (λ p, match p with
             | Pattern.Ctor name args => if String.eqb name v then Some args else None
             | _ => None
             end) pats.

Definition is_ctor (p : Pattern) : bool := match p with Pattern.Ctor _ _ => true | _ => false end.

(** [a[0]] of every arm; a missing one panics. *)
Definition first_column (arms : list (list Pattern)) : outcome (list Pattern) :=
  mapM (λ a, match a with p :: _ => Done p | [] => Panic end) arms.

Section cover.
Context (patterns_cover : list Pattern → outcome bool).

Definition fields_covered (arms : list (list Pattern)) : outcome bool :=
  match arms with
  | [_] :: _ => col ← first_column arms; patterns_cover col
  | _ => Done true
  end.

(** [for v in variants { if v_arms.is_empty() || !covered { return false } }] *)
Fixpoint variants_cover (pats : list Pattern) (variants : list string) : outcome bool :=
  match variants with
  | [] => Done true
  | v :: variants =>
      match variant_args v pats with
      | [] => Done false
      | v_arms => b ← fields_covered v_arms;
                  if (b : bool) then variants_cover pats variants else Done false
      end
  end.
End cover.

Fixpoint patterns_cover (n : nat) (T : Tables) (pats : list Pattern) : outcome bool :=
  match n with
  | O => Panic
  | S n =>
      if existsb is_catchall pats then Done true
      else if existsb (λ p, match p with Pattern.Bool _ => true | _ => false end) pats then
        let has b := existsb (λ p, match p with Pattern.Bool x => eqb x b | _ => false end) pats in
        Done (has true && has false)
      else if existsb (λ p, match p with Pattern.Int _ | Pattern.Str _ => true | _ => false end) pats then
        Done false
      else
        match pats with
        | Pattern.Ctor first _ :: _ =>
            if forallb is_ctor pats then
              match ctor_sigs T !! first with
              | Some (_, Ty.Named adt _) =>
                  match adt_variants T !! adt with
                  | Some variants => variants_cover (patterns_cover n T) pats variants
                  | None => Done true
                  end
              | _ => Done true
              end
            else Done true
        | _ => Done true
        end
  end.

Definition patterns_size (pats : list Pattern) : nat :=
  foldr (λ p n, pattern_size p + n)%nat 0%nat pats.

Definition variant_fields_covered (T : Tables) (arms : list (list Pattern)) : outcome bool :=
  fields_covered (patterns_cover (S (foldr (λ a n, patterns_size a + n)%nat 0%nat arms)) T) arms.

(** ** [check_exhaustive] *)

Definition dequalify_home (name home : string) : string :=
  match split_once "." name with
  | Some (module, bare) => if String.eqb module home then bare else name
  | None => name
  end.

Definition backticked (s : string) : string := "`" +:+ s +:+ "`".

Section exhaustive.
Context {E : Type} (T : Tables).

Definition unguarded (arms : list (MatchArm E)) : list Pattern :=
  omap (λ a, match arm_guard a with None => Some (arm_pattern a) | Some _ => None end) arms.

(** The loop over variants after every one is named. *)
Fixpoint check_variant_fields (adt : string) (pats : list Pattern) (variants : list string)
  : M Checker unit :=
  match variants with
  | [] => mret tt
  | v :: variants =>
      match variant_args v pats with
      | [] => check_variant_fields adt pats variants
      | v_arms =>
          covered ← lift_outcome (variant_fields_covered T v_arms);
          throw_if (negb covered)
            ("non-exhaustive match on `" +:+ dequalify_home adt (cur_module T) +:+ "`: `"
             +:+ dequalify_home v (cur_module T)
             +:+ "` is matched but its fields don't cover every case — add a wholesale `"
             +:+ dequalify_home v (cur_module T) +:+ "(_)` arm or a `_`");;
          check_variant_fields adt pats variants
      end
  end.

Definition check_adt (adt : string) (pats : list Pattern) : M Checker unit :=
  match adt_variants T !! adt with
  | None => mret tt
  | Some variants =>
      let missing := List.filter (λ v, match variant_args v pats with [] => true | _ => false end)
                       variants in
      throw_if (match missing with [] => false | _ => true end)
        ("non-exhaustive match on `" +:+ dequalify_home adt (cur_module T) +:+ "`: missing "
         +:+ String.concat ", " (List.map (λ v, backticked (dequalify_home v (cur_module T))) missing));;
      check_variant_fields adt pats variants
  end.

(** The message of a union whose rows do not cover it. *)
Definition union_error (union_ty : Ty) (variants : list (string * list Ty)) (pats : list Pattern) : string :=
  let covers tag := existsb (λ p, match p with
                                  | Pattern.AnonCtor t _ => String.eqb t tag
                                  | _ => false
                                  end) pats in
  let missing := List.filter (λ v, negb (covers (fst v))) variants in
  match missing with
  | [] => "non-exhaustive match on `" +:+ show_ty union_ty
          +:+ "`: a tag payload pattern doesn't cover every case — add a wholesale `.Tag(_)` arm for that tag or a catch-all `_`"
  | _ => "non-exhaustive match on `" +:+ show_ty union_ty +:+ "`: missing "
         +:+ String.concat ", " (List.map (λ v, backticked ("." +:+ fst v)) missing)
  end.

Definition scalar_name (t : Ty) : option string :=
  match t with
  | Ty.Int => Some "Int" | Ty.Float => Some "Float" | Ty.Duration => Some "Duration"
  | Ty.String => Some "String"
  | _ => None
  end.

(** The part of [check_exhaustive] after the matrix of lists and tuples. *)
Definition check_nominal (n : nat) (resolved : Ty) (pats : list Pattern) : M Checker unit :=
  union ← anon_union_variants_for_ty resolved;
  match union with
  | Some (union_ty, variants) =>
      ok ← rows_exhaustive n T [resolved] (List.map (λ p, [p]) pats);
      throw_if (negb ok) (union_error union_ty variants pats)
  | None =>
      match resolved with
      | Ty.Named adt _ => check_adt adt pats
      | _ => mret tt
      end
  end.

Definition check_matrix (n : nat) (resolved : Ty) (pats : list Pattern) (message : string)
  : M Checker unit :=
  ok ← rows_exhaustive n T [resolved] (List.map (λ p, [p]) pats);
  throw_if (negb ok) message.

Definition check_bool (pats : list Pattern) : M Checker unit :=
  let covers b := existsb (λ p, match p with Pattern.Bool x => eqb x b | _ => false end) pats in
  throw_if (negb (covers true && covers false))
    "non-exhaustive match on `Bool`: cover both `true` and `false` (or add `_`)".

Definition scalar_error (kind : string) : string :=
  "non-exhaustive match on `" +:+ kind
  +:+ "`: it has no finite set of cases, so add a catch-all `_` arm (a guard does not make a match exhaustive)".
Definition list_error : string :=
  "non-exhaustive match on list: cover both the empty list `[]` and a non-empty list (`[head, ..tail]`), or add a catch-all `_` arm".
Definition tuple_error : string :=
  "non-exhaustive match on tuple: the arms don't cover every combination of component cases — add the missing case(s) or a catch-all `_` arm".

(** [check_exhaustive] after [self.resolve(scrut)]. *)
Definition check_resolved (n : nat) (resolved : Ty) (pats : list Pattern) : M Checker unit :=
  if existsb is_catchall pats then mret tt
  else if bool_decide (resolved = Ty.Bool) then check_bool pats
  else
    match scalar_name resolved with
    | Some kind => throw (scalar_error kind)
    | None =>
        match resolved with
        | Ty.List _ => check_matrix n resolved pats list_error
        | Ty.Tuple _ => check_matrix n resolved pats tuple_error
        | _ => check_nominal n resolved pats
        end
    end.

Definition check_exhaustive (n : nat) (scrut : Ty) (arms : list (MatchArm E)) : M Checker unit :=
  resolved ← resolve scrut;
  check_resolved n resolved (unguarded arms).
End exhaustive.

(** ** [check_unreachable] *)

Record Seen : Type := {
  saturated : bool;
  seen_ctors : gset string;
  seen_ints : gset Z;
  seen_strs : gset string;
  seen_bools : gset bool;
  seen_durations : gset Z;
}.

Definition nothing_seen : Seen :=
  {| saturated := false; seen_ctors := ∅; seen_ints := ∅; seen_strs := ∅; seen_bools := ∅;
     seen_durations := ∅ |}.

Definition already (s : Seen) (p : Pattern) : bool :=
  saturated s ||
  match p with
  | Pattern.Ctor name _ => bool_decide (name ∈ seen_ctors s)
  | Pattern.AnonCtor tag _ => bool_decide ("." +:+ tag ∈ seen_ctors s)
  | Pattern.Int n => bool_decide (n ∈ seen_ints s)
  | Pattern.Str t => bool_decide (t ∈ seen_strs s)
  | Pattern.Bool b => bool_decide (b ∈ seen_bools s)
  | Pattern.Duration ms => bool_decide (ms ∈ seen_durations s)
  | _ => false
  end.

Definition see_ctor (key : string) (s : Seen) : Seen :=
  {| saturated := saturated s; seen_ctors := {[key]} ∪ seen_ctors s; seen_ints := seen_ints s;
     seen_strs := seen_strs s; seen_bools := seen_bools s; seen_durations := seen_durations s |}.

(** What an unguarded arm adds. *)
Definition see (p : Pattern) (s : Seen) : Seen :=
  match p with
  | Pattern.Wildcard | Pattern.Var _ =>
      {| saturated := true; seen_ctors := seen_ctors s; seen_ints := seen_ints s;
         seen_strs := seen_strs s; seen_bools := seen_bools s; seen_durations := seen_durations s |}
  | Pattern.Ctor name args => if forallb is_catchall args then see_ctor name s else s
  | Pattern.AnonCtor tag args => if forallb is_catchall args then see_ctor ("." +:+ tag) s else s
  | Pattern.Int n =>
      {| saturated := saturated s; seen_ctors := seen_ctors s; seen_ints := {[n]} ∪ seen_ints s;
         seen_strs := seen_strs s; seen_bools := seen_bools s; seen_durations := seen_durations s |}
  | Pattern.Str t =>
      {| saturated := saturated s; seen_ctors := seen_ctors s; seen_ints := seen_ints s;
         seen_strs := {[t]} ∪ seen_strs s; seen_bools := seen_bools s; seen_durations := seen_durations s |}
  | Pattern.Bool b =>
      {| saturated := saturated s; seen_ctors := seen_ctors s; seen_ints := seen_ints s;
         seen_strs := seen_strs s; seen_bools := {[b]} ∪ seen_bools s; seen_durations := seen_durations s |}
  | Pattern.Duration ms =>
      {| saturated := saturated s; seen_ctors := seen_ctors s; seen_ints := seen_ints s;
         seen_strs := seen_strs s; seen_bools := seen_bools s; seen_durations := {[ms]} ∪ seen_durations s |}
  | _ => s
  end.

Fixpoint check_arms {E} (s : Seen) (arms : list (MatchArm E)) : result string unit :=
  match arms with
  | [] => Ok tt
  | arm :: rest =>
      let p := arm_pattern arm in
      let is_trailing_catchall :=
        match rest, arm_guard arm, p with [], None, Pattern.Wildcard => true | _, _, _ => false end in
      if already s p && negb is_trailing_catchall
      then Err ("unreachable match arm: `" +:+ describe_pattern p
                +:+ "` is already covered by an earlier arm")
      else check_arms (match arm_guard arm with None => see p s | Some _ => s end) rest
  end.

Definition check_unreachable {E} (arms : list (MatchArm E)) : result string unit :=
  check_arms nothing_seen arms.

(** ** [pattern_refutable] *)

(** The number of variants of a constructor's type. *)
Definition variant_count (T : Tables) (adt : option string) : option nat :=
  a ← adt; variants ← adt_variants T !! a; Some (length variants).

Definition ctor_adt (T : Tables) (name : string) : option string :=
  match ctor_sigs T !! name with
  | Some (_, Ty.Named adt _) => Some adt
  | _ => None
  end.

Definition let_error (pat : Pattern) (why : string) : string :=
  "`let " +:+ describe_pattern pat +:+ " = …` — " +:+ why.

Definition show_nat (n : nat) : string := show_N (N.of_nat n).

(** [slots[i]], or [Ty::Unit] when the type is not a tuple of that length. *)
Definition slot_types (resolved : Ty) (len : nat) : list Ty :=
  match resolved with
  | Ty.Tuple ts => if (length ts =? len)%nat then ts else replicate len Ty.Unit
  | _ => replicate len Ty.Unit
  end.

Definition tag_fields (tag : string) (variants : list (string * list Ty)) : list Ty :=
  match List.find (λ v, String.eqb (fst v) tag) variants with
  | Some (_, fields) => fields
  | None => []
  end.

Section subs.
Context (pattern_refutable : Pattern → Ty → M Checker (option string)).
Fixpoint first_refutable (ps : list Pattern) (tys : list Ty) : M Checker (option string) :=
  match ps, tys with
  | p :: ps, t :: tys =>
      r ← pattern_refutable p t;
      match r with
      | Some e => mret (Some e)
      | None => first_refutable ps tys
      end
  | _, _ => mret None
  end.
End subs.

Fixpoint pattern_refutable (T : Tables) (pat : Pattern) (ty : Ty) {struct pat} : M Checker (option string) :=
  match pat with
  | Pattern.Wildcard | Pattern.Var _ => mret None
  | Pattern.Tuple ps =>
      resolved ← resolve ty;
      first_refutable (pattern_refutable T) ps (slot_types resolved (length ps))
  | Pattern.Ctor name args =>
      let adt := ctor_adt T name in
      match variant_count T adt with
      | Some (S (S _ as m)) =>
          mret (Some (let_error pat
            ("`" +:+ name +:+ "` is one of " +:+ show_nat (S m) +:+ " variants of `"
             +:+ default "?" adt +:+ "`, so this pattern can fail. Use `if let "
             +:+ describe_pattern pat +:+ " = …:` (with an else), or `match`.")))
      | _ => first_refutable (pattern_refutable T) args (replicate (length args) Ty.Unit)
      end
  | Pattern.AnonCtor tag args =>
      union ← anon_union_variants_for_ty ty;
      match union with
      | None =>
          mret (Some (let_error pat
            "an anonymous union pattern needs an anonymous union scrutinee. Use `match` or add a type annotation."))
      | Some (_, variants) =>
          if (1 <? length variants)%nat then
            mret (Some (let_error pat
              ("`." +:+ tag +:+ "` is one of " +:+ show_nat (length variants)
               +:+ " tags, so this pattern can fail. Use `if let " +:+ describe_pattern pat
               +:+ " = …:` (with an else), or `match`.")))
          else first_refutable (pattern_refutable T) args (tag_fields tag variants)
      end
  | Pattern.Int _ | Pattern.Str _ | Pattern.Bool _ | Pattern.Duration _ =>
      mret (Some (let_error pat
        "a literal pattern can fail to match. Use `if let` (with an else) or `match`."))
  | Pattern.IntRange _ _ _ =>
      mret (Some "a range pattern can fail to match — use `if let` (with an else) or `match`")
  | Pattern.Or _ =>
      mret (Some "an or-pattern can fail to match — use `if let` (with an else) or `match`")
  | Pattern.List _ _ =>
      mret (Some "a list pattern can fail to match (a list's length is never statically known) — use `if let` (with an else) or `match`")
  end.

(** ** The reference matrix *)

Definition union_fields (name : string) (args : list Ty) : option (list (string * list Ty)) :=
  variants ← anon_union_synthetic_variants name; split_fields variants args.

(** The field types of a variant at given arguments. *)
Definition arg_types (s : Subst) (T : Tables) (v : string) (actual : list Ty) : list Ty :=
  match ctor_sigs T !! v with
  | None => []
  | Some (fields, result) =>
      List.map (λ f, inst (renaming (formal_map result actual)) (res s f)) fields
  end.

(** The constructors of a resolved type. *)
Definition signature (s : Subst) (T : Tables) (t : Ty) : option (list ColCtor) :=
  match t with
  | Ty.Bool => Some [{| ctor_key := "true"; ctor_args := [] |}; {| ctor_key := "false"; ctor_args := [] |}]
  | Ty.Tuple comps => Some [{| ctor_key := TUPLE_CTOR; ctor_args := comps |}]
  | Ty.List elem => Some [{| ctor_key := LIST_NIL; ctor_args := [] |};
                          {| ctor_key := LIST_CONS; ctor_args := [elem; t] |}]
  | Ty.Named adt args =>
      match union_fields adt args with
      | Some variants =>
          Some (List.map (λ v, {| ctor_key := "." +:+ fst v; ctor_args := snd v |}) variants)
      | None =>
          variants ← adt_variants T !! adt;
          Some (List.map (λ v, {| ctor_key := v; ctor_args := arg_types s T v args |}) variants)
      end
  | _ => None
  end.

Definition keys_of (rows : list (list Pattern)) : option (list (option string)) :=
  mapM (λ r, match r with p :: _ => Some (pattern_ctor_key p) | [] => None end) rows.

Section all_ref.
Context (f : ColCtor → option bool).
Fixpoint all_ref (cs : list ColCtor) : option bool :=
  match cs with
  | [] => Some true
  | c :: cs => b ← f c; if (b : bool) then all_ref cs else Some false
  end.
End all_ref.

Fixpoint rows_ref (n : nat) (s : Subst) (T : Tables) (types : list Ty) (rows : list (list Pattern))
  : option bool :=
  match n with
  | O => None
  | S n =>
      let rows := List.flat_map expand_head_or rows in
      match types with
      | [] => Some match rows with [] => false | _ => true end
      | t :: rest =>
          present ← keys_of rows;
          match signature s T (res s t) with
          | Some cs =>
              if forallb (λ c, mentions present (ctor_key c)) cs then
                all_ref (λ c, rows_ref n s T (ctor_args c ++ rest) (omap (specialize_row c) rows)) cs
              else rows_ref n s T rest (default_rows rows)
          | None => rows_ref n s T rest (default_rows rows)
          end
      end
  end.

Definition union_of (t : Ty) : option (Ty * list (string * list Ty)) :=
  match t with
  | Ty.Named name args => out ← union_fields name args; Some (t, out)
  | _ => None
  end.

Lemma union_reads t c :
  ready c → reads c (anon_union_variants_for_ty t) (union_of (res (subst c) t)).
Proof.
  intros Hc. eapply reads_bind; [by apply resolve_reads|]. intros c' _ Hc'.
  eapply reads_mono; [by apply reads_ret|]. unfold union_of, union_fields.
  destruct (res (subst c) t); try done. by destruct (anon_union_synthetic_variants name).
Qed.

Lemma variant_arg_types_reads T v args c :
  ready c → reads c (variant_arg_types T v args) (arg_types (subst c) T v args).
Proof.
  intros Hc. unfold variant_arg_types, arg_types.
  destruct (ctor_sigs T !! v) as [[fields result]|]; [|by apply reads_ret].
  apply (mapM_reads _ _ (subst c)); [|done|done]. apply list.Forall_forall.
  intros f _ c' Hc' <-. unfold subst_vars_sized. by apply subst_vars_reads.
Qed.

Lemma variant_ctors_reads T args variants c :
  ready c →
  reads c (variant_ctors T args variants)
    (List.map (λ v, {| ctor_key := v; ctor_args := arg_types (subst c) T v args |}) variants).
Proof.
  revert c. induction variants as [|v variants IH]; intros c Hc; simpl; [by apply reads_ret|].
  eapply reads_bind; [by apply variant_arg_types_reads|]. intros c' Hs Hc'.
  eapply reads_bind; [by apply IH|]. rewrite (same_subst _ _ Hs). intros. by apply reads_ret.
Qed.

Lemma column_ctors_reads T t c :
  ready c → res (subst c) t = t → reads c (column_ctors T t) (signature (subst c) T t).
Proof.
  intros Hc Ht. destruct t; try (by apply reads_ret).
  eapply reads_bind; [by apply union_reads|]. rewrite Ht. intros c' Hs Hc'. simpl.
  destruct (union_fields name args) as [variants|]; simpl; [by apply reads_ret|].
  destruct (adt_variants T !! name) as [variants|]; simpl; [|by apply reads_ret].
  eapply reads_bind; [by apply variant_ctors_reads|]. intros. rewrite (same_subst _ _ Hs).
  by apply reads_ret.
Qed.

Lemma row_keys_reads rows ks c : ready c → keys_of rows = Some ks → reads c (row_keys rows) ks.
Proof.
  unfold row_keys, keys_of. revert ks c. induction rows as [|r rows IH]; intros ks c Hc; simpl.
  { intros [= <-]. by apply reads_ret. }
  destruct r as [|p r]; simpl; [done|]. destruct (mapM _ rows) as [ks'|] eqn:E; simpl; [|done].
  intros [= <-]. eapply reads_bind; [by apply reads_ret|]. intros c' _ Hc'.
  eapply reads_bind; [by apply IH|]. intros. by apply reads_ret.
Qed.

Lemma all_ctors_reads (f : ColCtor → M Checker bool) (g : ColCtor → option bool) s cs b c :
  (∀ x b c, ready c → subst c = s → g x = Some b → reads c (f x) b) →
  ready c → subst c = s → all_ref g cs = Some b → reads c (all_ctors f cs) b.
Proof.
  intros Hf. revert c. induction cs as [|x cs IH]; intros c Hc Hs; simpl.
  { intros [= <-]. by apply reads_ret. }
  destruct (g x) as [[]|] eqn:Eg; simpl; [|intros [= <-]|done].
  - intros H. eapply reads_bind; [by apply Hf|]. intros c' Hs' Hc'. apply IH; [done| |done].
    by rewrite (same_subst _ _ Hs').
  - eapply reads_bind; [by apply Hf|]. intros. by apply reads_ret.
Qed.

Lemma rows_reads n T types rows b c :
  ready c → rows_ref n (subst c) T types rows = Some b → reads c (rows_exhaustive n T types rows) b.
Proof.
  intros Hc E. remember (subst c) as s eqn:Hs. symmetry in Hs. revert types rows b c Hc Hs E.
  induction n as [|n IH]; intros types rows b c Hc Hs E; [done|]. simpl in E |- *.
  set (rows' := List.flat_map expand_head_or rows) in *. clearbody rows'. clear rows.
  destruct types as [|t rest]; [injection E as <-; by apply reads_ret|].
  destruct (keys_of rows') as [ks|] eqn:Ek; simpl in E; [|done].
  eapply reads_bind; [by apply resolve_reads|]. rewrite Hs. intros c1 Hs1 Hc1.
  pose proof (same_subst _ _ Hs1) as Es1. rewrite Hs in Es1.
  eapply reads_bind.
  { apply column_ctors_reads; [done|]. rewrite Es1. apply res_idem. rewrite <- Hs. apply Hc. }
  rewrite Es1. intros c2 Hs2 Hc2. pose proof (same_subst _ _ Hs2) as Es2. rewrite Es1 in Es2.
  eapply reads_bind; [by apply row_keys_reads|]. intros c3 Hs3 Hc3.
  pose proof (same_subst _ _ Hs3) as Es3. rewrite Es2 in Es3.
  destruct (signature s T (res s t)) as [cs|]; [|by apply IH].
  destruct (forallb _ cs); [|by apply IH].
  eapply all_ctors_reads; [|done|done|exact E]. intros x b' c' Hc' Hs' Eb. by apply IH.
Qed.
