(* ===== verification/Exhaustive.v ===== *)
(** * Exhaustive: what the coverage checks promise at run time

    The matrix of [Coverage] is judged against the values themselves.  [typed]
    says which values inhabit a type, with the constructors the checker knows
    of it ([signature]); a type the checker cannot enumerate is open and holds
    any value.  [pat_ok] says that a pattern fits a type: its head is a
    constructor of the type's shape and its arguments fit that constructor's
    fields.  Both are read at the checker's current substitution.

    The file shows that [rows_exhaustive] stops, that it accepts a matrix
    exactly when every vector of inhabitants is matched by a row in the
    interpreter, what [check_exhaustive] gives from that, and that the arms
    [check_unreachable] reports are dead. *)

From S2P Require Import Prelude Text Types Substitution Unify Inference.
From S2P Require Import SyntheticNames Patterns Coverage.

Local Open Scope string_scope.

(** ** Values and patterns of a type *)

(** The constructor and the fields of a value, read at a resolved type. *)
Definition parts (t : Ty) (v : Value) : option (string * list Value) :=
  match t, v with
  | Ty.Bool, Value.Bool b => Some (if b then "true" else "false", [])
  | Ty.Tuple _, Value.Tuple vs => Some (TUPLE_CTOR, vs)
  | Ty.Tuple _, Value.Unit => Some (TUPLE_CTOR, [])
  | Ty.List _, Value.List [] => Some (LIST_NIL, [])
  | Ty.List _, Value.List (x :: xs) => Some (LIST_CONS, [x; Value.List xs])
  | Ty.Named _ _, Value.Ctor name fields => Some (name, fields)
  | Ty.Named _ _, Value.Unit => Some ("Nil", [])
  | _, _ => None
  end.

(** A pattern whose head can meet a value of the type. *)
Definition shape_ok (t : Ty) (p : Pattern) : bool :=
  match t, p with
  | Ty.Bool, Pattern.Bool _ => true
  | Ty.Tuple _, Pattern.Tuple _ => true
  | Ty.List _, Pattern.List _ _ => true
  | Ty.Named name args, Pattern.Ctor _ _ => bool_decide (union_fields name args = None)
  | Ty.Named name args, Pattern.AnonCtor _ _ => bool_decide (is_Some (union_fields name args))
  | _, _ => false
  end.

Definition is_literal (p : Pattern) : bool :=
  match p with
  | Pattern.Int _ | Pattern.Str _ | Pattern.Duration _ | Pattern.IntRange _ _ _ => true
  | _ => false
  end.

Section typed.
Context (s : Subst) (T : Tables).

Inductive typed : Ty → Value → Prop :=
  | typed_open t v : signature s T (res s t) = None → typed t v
  | typed_ctor t v cs c fields :
      signature s T (res s t) = Some cs → c ∈ cs → parts (res s t) v = Some (ctor_key c, fields) →
      Forall2 typed (ctor_args c) fields → typed t v.

Inductive pat_ok : Ty → Pattern → Prop :=
  | ok_catchall t p : is_catchall p = true → pat_ok t p
  | ok_or t alts : Forall (pat_ok t) alts → pat_ok t (Pattern.Or alts)
  | ok_literal t p : signature s T (res s t) = None → is_literal p = true → pat_ok t p
  | ok_ctor t p cs :
      signature s T (res s t) = Some cs → shape_ok (res s t) p = true →
      (∀ key, pattern_ctor_key p = Some key → ∃ c, c ∈ cs ∧ ctor_key c = key) →
      (∀ c args, c ∈ cs → specialize_head p c = Some args → Forall2 pat_ok (ctor_args c) args) →
      pat_ok t p.

(** A set of types that have values and is closed under their fields. *)
Definition inhabited (I : Ty → Prop) : Prop :=
  ∀ t, I t → (∃ v, typed t v)
             ∧ ∀ cs c, signature s T (res s t) = Some cs → c ∈ cs → Forall I (ctor_args c).
End typed.

Definition covers (rows : list (list Pattern)) (vs : list Value) : bool :=
  existsb (λ r, matches_all r vs) rows.

Definition is_or (p : Pattern) : bool := match p with Pattern.Or _ => true | _ => false end.

(** ** Heads of rows *)

Lemma matches_all_cons p ps v vs :
  matches_all (p :: ps) (v :: vs) = matches p v && matches_all ps vs.
Proof. done. Qed.

Lemma matches_all_app ps qs vs ws :
  length ps = length vs →
  matches_all (ps ++ qs) (vs ++ ws) = matches_all ps vs && matches_all qs ws.
Proof.
  revert vs. induction ps as [|p ps IH]; intros [|v vs] H; simplify_eq/=; [done|].
  change (matches p v && matches_all (ps ++ qs) (vs ++ ws)
          = matches p v && matches_all ps vs && matches_all qs ws).
  rewrite IH by done. by rewrite andb_assoc.
Qed.

Lemma matches_wildcards n vs : matches_all (replicate n Pattern.Wildcard) vs = true.
Proof. revert vs. induction n as [|n IH]; intros [|v vs]; try done. apply IH. Qed.

Lemma covers_flat_map {A} (f : A → list (list Pattern)) xs vs :
  covers (List.flat_map f xs) vs = existsb (λ x, covers (f x) vs) xs.
Proof. induction xs as [|x xs IH]; simpl; [done|]. unfold covers in *. by rewrite existsb_app, IH. Qed.

Lemma existsb_andb_r {A} (f : A → bool) b xs : existsb (λ x, f x && b) xs = existsb f xs && b.
Proof. induction xs as [|x xs IH]; simpl; [done|]. rewrite IH. by destruct (f x), b, (existsb f xs). Qed.

Lemma expand_head_covers tail p v vs :
  covers (expand_head tail p) (v :: vs) = matches p v && matches_all tail vs.
Proof.
  induction p as [p IH] using pattern_nested_ind.
  destruct p; try (unfold covers; simpl; by rewrite orb_false_r). simpl expand_head. rewrite covers_flat_map.
  simpl. rewrite <- existsb_andb_r. simpl in IH. induction IH as [|q qs Hq _ IH]; simpl; [done|].
  by rewrite Hq, IH.
Qed.

Lemma expand_covers rows vs :
  Forall (λ r, length r = length vs) rows →
  covers (List.flat_map expand_head_or rows) vs = covers rows vs.
Proof.
  rewrite covers_flat_map. unfold covers at 2. induction 1 as [|r rows Hr _ IH]; simpl; [done|].
  rewrite IH. f_equal. destruct r as [|p tail], vs as [|v vs]; try done. apply expand_head_covers.
Qed.

(** What expansion leaves of a well-typed row. *)
Definition head_row s T (types : list Ty) (r : list Pattern) : Prop :=
  match types, r with
  | [], [] => True
  | t :: types, p :: tail => is_or p = false ∧ pat_ok s T t p ∧ Forall2 (pat_ok s T) types tail
  | _, _ => False
  end.

Lemma pat_ok_or s T t alts : pat_ok s T t (Pattern.Or alts) → Forall (pat_ok s T t) alts.
Proof. inversion 1; simplify_eq/=; try done. by destruct (res s t). Qed.

Lemma expand_head_ok s T t types tail p :
  pat_ok s T t p → Forall2 (pat_ok s T) types tail →
  Forall (head_row s T (t :: types)) (expand_head tail p).
Proof.
  intros Hp Ht. revert Hp. induction p as [p IH] using pattern_nested_ind. intros Hp.
  destruct p; try (by apply Forall_one; split_and!). simpl in *. apply pat_ok_or in Hp as Halts. clear Hp. induction IH as [|q qs Hq _ IH]; simpl; [constructor|].
  apply Forall_cons_1 in Halts as [Hq' Halts]. apply Forall_app_2; auto.
Qed.

Lemma expand_ok s T types rows :
  Forall (Forall2 (pat_ok s T) types) rows →
  Forall (head_row s T types) (List.flat_map expand_head_or rows).
Proof.
  induction 1 as [|r rows Hr _ IH]; simpl; [constructor|]. apply Forall_app_2; [|done].
  destruct Hr; [by repeat constructor|]. by apply expand_head_ok.
Qed.

Lemma head_row_ok s T types r : head_row s T types r → Forall2 (pat_ok s T) types r.
Proof. destruct types, r; simpl; [constructor|done|done|]. intros (_ & ? & ?). by constructor. Qed.

Lemma head_keys s T t types rows :
  Forall (head_row s T (t :: types)) rows → is_Some (keys_of rows).
Proof.
  induction 1 as [|r rows Hr _ [ks IH]]; [by eexists|]. destruct r as [|p tail]; [done|].
  unfold keys_of in *. simpl. rewrite IH. by eexists.
Qed.

(** ** Specialization follows the values *)

Lemma same_length_true {A B} (xs : list A) (ys : list B) : length xs = length ys → same_length xs ys = true.
Proof. intros H. unfold same_length. by apply Nat.eqb_eq. Qed.

Lemma specialize_list_exact elems rest c items fields e :
  parts (Ty.List e) (Value.List items) = Some (ctor_key c, fields) →
  matches (Pattern.List elems rest) (Value.List items)
  = match specialize_list elems rest c with Some ps => matches_all ps fields | None => false end.
Proof.
  destruct items as [|x xs]; intros [= Hk <-]; unfold specialize_list; rewrite <- Hk; simpl.
  - by destruct elems, rest.
  - destruct elems as [|q qs], rest as [o|]; try done; simpl;
      (destruct (matches q x); simpl; [by rewrite andb_true_r|by rewrite andb_false_r]).
Qed.

Lemma specialize_ctor_exact name args c v fields t targs :
  parts (Ty.Named t targs) v = Some (ctor_key c, fields) →
  (ctor_key c = name → length args = length fields) →
  matches (Pattern.Ctor name args) v
  = if String.eqb (ctor_key c) name then matches_all args fields else false.
Proof.
  intros Hp Hl. rewrite String.eqb_sym.
  destruct v; try done; injection Hp as Hk <-; rewrite <- Hk in Hl |- *; cbn [matches].
  - destruct (String.eqb_spec name name0) as [->|]; simpl; [|done].
    by rewrite same_length_true by auto.
  - destruct (String.eqb_spec name "Nil") as [->|]; simpl; [|done].
    specialize (Hl eq_refl). by destruct args.
Qed.

Lemma specialize_anon_exact tag args c v fields t targs :
  parts (Ty.Named t targs) v = Some (ctor_key c, fields) →
  (ctor_key c = "." +:+ tag → length args = length fields) →
  matches (Pattern.AnonCtor tag args) v
  = if String.eqb (ctor_key c) ("." +:+ tag) then matches_all args fields else false.
Proof.
  intros Hp Hl. destruct v; simplify_eq/=.
  - destruct (String.eqb_spec (ctor_key c) ("." +:+ tag)) as [He|]; simpl; [|done].
    by rewrite same_length_true by auto.
  - by replace (ctor_key c) with "Nil".
Qed.

Lemma specialize_tuple_exact ps c v fields ts :
  parts (Ty.Tuple ts) v = Some (ctor_key c, fields) →
  (ctor_key c = TUPLE_CTOR → length ps = length fields) →
  matches (Pattern.Tuple ps) v
  = if String.eqb (ctor_key c) TUPLE_CTOR then matches_all ps fields else false.
Proof.
  intros Hp Hl. destruct v; try done; injection Hp as Hk <-; rewrite <- Hk; simpl.
  - by rewrite same_length_true by auto.
  - specialize (Hl (eq_sym Hk)). by destruct ps.
Qed.

Lemma specialize_shape t p v c fields :
  shape_ok t p = true → parts t v = Some (ctor_key c, fields) →
  (∀ args, specialize_head p c = Some args → length args = length fields) →
  matches p v = match specialize_head p c with Some ps => matches_all ps fields | None => false end.
Proof.
  intros Hs Hp Hl. destruct t, p; try done; cbn [specialize_head] in Hl |- *.
  - destruct v; try done. injection Hp as Hk <-. rewrite <- Hk. by destruct b, b0.
  - destruct v; try done. by eapply specialize_list_exact.
  - erewrite specialize_tuple_exact; [|done|]; [by destruct (String.eqb _ _)|].
    intros Hk. apply Hl. by rewrite Hk, String.eqb_refl.
  - erewrite specialize_ctor_exact; [|done|]; [by destruct (String.eqb _ _)|].
    intros Hk. apply Hl. by rewrite Hk, String.eqb_refl.
  - erewrite specialize_anon_exact; [|done|]; [by destruct (String.eqb _ _)|].
    intros Hk. apply Hl. by rewrite Hk, String.eqb_refl.
Qed.

Lemma pat_ok_args s T t p cs c args :
  pat_ok s T t p → signature s T (res s t) = Some cs → c ∈ cs → specialize_head p c = Some args →
  Forall2 (pat_ok s T) (ctor_args c) args.
Proof.
  intros Hp Hs Hc. inversion Hp as [? ? Hw| | |? ? ? Hs' ? ? Hargs]; simplify_eq/=; try done.
  - destruct p; try done; simpl; intros [= <-]; apply Forall2_same_length_lookup; rewrite length_replicate;
      (split; [done|]); intros i x y _ Hy; apply lookup_replicate in Hy as [-> _]; by constructor.
  - by apply Hargs.
Qed.

Lemma specialize_exact s T t p cs c v fields :
  pat_ok s T t p → is_or p = false → signature s T (res s t) = Some cs → c ∈ cs →
  parts (res s t) v = Some (ctor_key c, fields) → length (ctor_args c) = length fields →
  matches p v = match specialize_head p c with Some ps => matches_all ps fields | None => false end.
Proof.
  intros Hp Ho Hs Hc Hv Hl.
  assert (∀ args, specialize_head p c = Some args → length args = length fields) as Hargs.
  { intros args Ha. rewrite <- Hl. symmetry. by eapply Forall2_length, pat_ok_args. }
  inversion Hp as [? ? Hw| | |]; simplify_eq/=; try done; [|by eapply specialize_shape].
  destruct p; try done; simpl; by rewrite matches_wildcards.
Qed.

Lemma specialize_row_ok s T t types cs c row row' :
  signature s T (res s t) = Some cs → c ∈ cs → head_row s T (t :: types) row →
  specialize_row c row = Some row' → Forall2 (pat_ok s T) (ctor_args c ++ types) row'.
Proof.
  intros Hs Hc Hr. destruct row as [|p tail]; [done|]. destruct Hr as (_ & Hp & Ht). simpl.
  destruct (specialize_head p c) as [args|] eqn:E; simpl; [|done]. intros [= <-].
  apply Forall2_app; [|done]. by eapply pat_ok_args.
Qed.

Lemma specialize_rows_ok s T t types cs c rows :
  signature s T (res s t) = Some cs → c ∈ cs → Forall (head_row s T (t :: types)) rows →
  Forall (Forall2 (pat_ok s T) (ctor_args c ++ types)) (omap (specialize_row c) rows).
Proof.
  intros Hs Hc Hr. apply list.Forall_forall. intros row' (row & Hin & E)%list_elem_of_omap.
  eapply list.Forall_forall in Hr; [|done]. by eapply specialize_row_ok.
Qed.

Lemma specialize_covers s T t types cs c rows v vs fields :
  signature s T (res s t) = Some cs → c ∈ cs → Forall (head_row s T (t :: types)) rows →
  parts (res s t) v = Some (ctor_key c, fields) → length (ctor_args c) = length fields →
  covers (omap (specialize_row c) rows) (fields ++ vs) = covers rows (v :: vs).
Proof.
  intros Hs Hc Hr Hv Hl. induction Hr as [|row rows Hr _ IH]; [done|].
  destruct row as [|p tail]; [done|]. destruct Hr as (Ho & Hp & Ht). unfold covers in *. simpl.
  change (?b && matches_all tail vs) with (b && matches_all tail vs).
  rewrite (specialize_exact _ _ _ _ _ _ _ _ Hp Ho Hs Hc Hv Hl), <- IH.
  destruct (specialize_head p c) as [args|] eqn:E; simpl; [|done].
  rewrite matches_all_app; [done|]. rewrite <- Hl. symmetry. by eapply Forall2_length, pat_ok_args.
Qed.

(** ** The default rows *)

Lemma no_key_matches s T t p v :
  pat_ok s T t p → is_or p = false → pattern_ctor_key p = None → typed s T t v → matches p v = true.
Proof.
  intros Hp Ho Hk Hv. inversion Hp as [? ? Hw| | |? ? ? Hs Hsh]; simplify_eq/=; try done;
    try (by destruct p).
  inversion Hv as [|? ? ? ? ? ? ? Hparts]; simplify_eq/=.
  destruct (res s t), p; try done; simpl in Hk; try (by destruct b).
  destruct elems, rest; try done. by destruct v.
Qed.

Lemma default_rows_ok s T t types rows :
  Forall (head_row s T (t :: types)) rows → Forall (Forall2 (pat_ok s T) types) (default_rows rows).
Proof.
  intros Hr. apply list.Forall_forall. intros row' (row & Hin & E)%list_elem_of_omap.
  eapply list.Forall_forall in Hr; [|done]. destruct row as [|p tail]; [done|].
  by case_bool_decide; simplify_eq; destruct Hr as (? & ? & ?).
Qed.

Lemma default_covers s T t types rows v vs :
  Forall (head_row s T (t :: types)) rows → typed s T t v →
  covers (default_rows rows) vs = true → covers rows (v :: vs) = true.
Proof.
  intros Hr Hv. induction Hr as [|row rows Hr _ IH]; [done|]. destruct row as [|p tail]; [done|].
  destruct Hr as (Ho & Hp & Ht). unfold covers, default_rows in *. simpl.
  case_bool_decide as Hk; simpl.
  - rewrite (no_key_matches _ _ _ _ _ Hp Ho Hk Hv). simpl.
    rewrite !orb_true_iff. intros [?|?]; [by left|right; by apply IH].
  - intros ?. rewrite orb_true_iff. right. by apply IH.
Qed.

Lemma rows_sound n s T types rows vs :
  rows_ref n s T types rows = Some true → Forall (Forall2 (pat_ok s T) types) rows →
  Forall2 (typed s T) types vs → covers rows vs = true.
Proof.
  revert types rows vs. induction n as [|n IH]; intros types rows vs E Hrows Hvs; [done|]. simpl in E.
  rewrite <- expand_covers.
  2: { eapply list.Forall_impl; [done|]. intros r Hr. apply Forall2_length in Hr, Hvs. by rewrite <- Hr. }
  apply expand_ok in Hrows. set (rows' := List.flat_map expand_head_or rows) in *. clearbody rows'.
  destruct types as [|t types].
  { inversion Hvs; subst. destruct rows' as [|row rows']; [done|]. apply Forall_cons_1 in Hrows as [Hr _].
    by destruct row. }
  inversion Hvs as [|? v ? vs' Hv Hvs']; subst.
  destruct (keys_of rows') as [ks|]; simpl in E; [|done].
  assert (rows_ref n s T types (default_rows rows') = Some true → covers rows' (v :: vs') = true) as Hdef.
  { intros E'. eapply default_covers; [done..|]. by eapply IH; [|eapply default_rows_ok|]. }
  destruct (signature s T (res s t)) as [cs|] eqn:Es; [|by apply Hdef].
  destruct (forallb _ cs); [|by apply Hdef]. clear Hdef.
  inversion Hv as [|? ? ? c fields Es' Hc Hparts Hfields]; simplify_eq.
  assert (rows_ref n s T (ctor_args c ++ types) (omap (specialize_row c) rows') = Some true) as Ec.
  { clear -E Hc. induction Hc as [c cs|c c' cs Hc IH]; simpl in E; simplify_option_eq;
      destruct (rows_ref _ _ _ _ _) as [[]|]; naive_solver. }
  rewrite <- (specialize_covers _ _ _ _ _ _ _ _ _ _ Es Hc Hrows Hparts) by by eapply Forall2_length.
  eapply IH; [done|by eapply specialize_rows_ok|by apply Forall2_app].
Qed.

(** ** A rejected matrix has a hole *)

Lemma typed_list s T e v : typed s T (Ty.List e) v → ∃ items, v = Value.List items.
Proof.
  inversion 1 as [? ? Hs|? ? ? ? ? _ _ Hp]; subst; rewrite res_node in * by done; [done|].
  destruct v; try done. by eexists.
Qed.

Lemma assemble s T t cs c fields :
  signature s T (res s t) = Some cs → c ∈ cs → Forall2 (typed s T) (ctor_args c) fields →
  ∃ v, parts (res s t) v = Some (ctor_key c, fields).
Proof.
  intros Hs Hc Hf. destruct (res s t) eqn:Et; try done; cbn [signature] in Hs.
  - injection Hs as <-. apply elem_of_cons in Hc as [->|Hc]; [|apply list_elem_of_singleton in Hc as ->];
      inversion Hf; subst; [by exists (Value.Bool true)|by exists (Value.Bool false)].
  - injection Hs as <-. apply elem_of_cons in Hc as [->|Hc]; [|apply list_elem_of_singleton in Hc as ->];
      simpl in Hf; [inversion Hf; subst; by exists (Value.List [])|].
    apply Forall2_cons_inv_l in Hf as (x & l & _ & Hf & ->).
    apply Forall2_cons_inv_l in Hf as (xs & l' & [items ->]%typed_list & ->%Forall2_nil_inv_l & ->).
    by exists (Value.List (x :: items)).
  - injection Hs as <-. apply list_elem_of_singleton in Hc as ->. by exists (Value.Tuple fields).
  - by exists (Value.Ctor (ctor_key c) fields).
Qed.

Lemma typed_many s T I types :
  inhabited s T I → Forall I types → ∃ vs, Forall2 (typed s T) types vs.
Proof.
  intros HI. induction 1 as [|t types Ht _ [vs IH]]; [by exists []|].
  destruct (HI t Ht) as [[v Hv] _]. exists (v :: vs). by constructor.
Qed.

Lemma other_key p c k : pattern_ctor_key p = Some k → k ≠ ctor_key c → specialize_head p c = None.
Proof.
  intros Hk Hne. assert (∀ x, k = x → String.eqb (ctor_key c) x = false) as Heq.
  { intros x ->. by apply String.eqb_neq. }
  destruct p; try done; simpl in Hk |- *.
  - by destruct b; injection Hk as <-; rewrite Heq.
  - injection Hk as <-. by rewrite Heq.
  - injection Hk as <-. by rewrite Heq.
  - injection Hk as <-. by rewrite Heq.
  - unfold specialize_list. destruct elems, rest; try done; injection Hk as <-; rewrite (Heq _ eq_refl);
      by repeat destruct (String.eqb _ _).
Qed.

Lemma keys_of_elem rows ks p tail : keys_of rows = Some ks → p :: tail ∈ rows → pattern_ctor_key p ∈ ks.
Proof.
  intros E Hin. apply mapM_Some in E. apply list_elem_of_lookup in Hin as [i Hi].
  eapply Forall2_lookup_l in E as (k & Hk & E); [|done]. simpl in E. injection E as <-.
  by eapply list_elem_of_lookup_2.
Qed.

(** A value the column's patterns do not name. *)
Lemma stray_value s T I t types rows ks :
  inhabited s T I → I t → Forall (head_row s T (t :: types)) rows → keys_of rows = Some ks →
  match signature s T (res s t) with
  | Some cs => forallb (λ c, mentions ks (ctor_key c)) cs = false
  | None => True
  end →
  ∃ v, typed s T t v ∧ ∀ p tail, (p :: tail) ∈ rows → pattern_ctor_key p ≠ None → matches p v = false.
Proof.
  intros HI Ht Hr Hks Hsig. destruct (signature s T (res s t)) as [cs|] eqn:Es.
  - apply not_true_iff_false in Hsig. rewrite forallb_forall in Hsig.
    assert (∃ c, c ∈ cs ∧ Some (ctor_key c) ∉ ks) as (c & Hc & Hmiss).
    { clear -Hsig. induction cs as [|c cs IH]; [by destruct Hsig|].
      destruct (decide (Some (ctor_key c) ∈ ks)) as [H|H]; [|exists c; by split; [left|]].
      destruct IH as (c' & ? & ?); [|exists c'; by split; [right|]].
      intros Hcs. apply Hsig. intros x [<-|Hx]; [by apply bool_decide_eq_true_2|by apply Hcs]. }
    destruct (HI t Ht) as [_ Hargs]. destruct (typed_many _ _ _ _ HI (Hargs _ _ Es Hc)) as [fields Hf].
    destruct (assemble _ _ _ _ _ _ Es Hc Hf) as [v Hv]. exists v. split; [by econstructor|].
    intros p tail Hin Hk. eapply list.Forall_forall in Hr; [|done].
    destruct Hr as (Ho & Hp & _).
    pose proof (keys_of_elem _ _ _ _ Hks Hin) as Hmem. destruct (pattern_ctor_key p) as [k|] eqn:Ek; [|done].
    rewrite (specialize_exact _ _ _ _ _ _ _ _ Hp Ho Es Hc Hv) by by eapply Forall2_length.
    by rewrite (other_key p c k) by congruence.
  - exists (Value.Opaque 0). split; [by constructor|]. intros p tail _ Hk. by destruct p.
Qed.

Lemma default_hole rows v vs :
  (∀ p tail, (p :: tail) ∈ rows → pattern_ctor_key p ≠ None → matches p v = false) →
  Forall (λ r, r ≠ []) rows → covers (default_rows rows) vs = false → covers rows (v :: vs) = false.
Proof.
  intros Hv. induction 1 as [|r rows Hr _ IH]; [done|]. destruct r as [|p tail]; [done|].
  unfold covers, default_rows in *. simpl. case_bool_decide as Hk; simpl; rewrite !orb_false_iff.
  - intros [Ht Hd]. split; [by apply andb_false_iff; right|]. apply IH; [|done]. intros. eapply Hv; [by right|done].
  - intros Hd. rewrite (Hv p tail) by first [by left|done]. split; [done|]. apply IH; [|done].
    intros. eapply Hv; [by right|done].
Qed.

Lemma rows_complete n s T I types rows :
  inhabited s T I → rows_ref n s T types rows = Some false → Forall I types →
  Forall (Forall2 (pat_ok s T) types) rows →
  ∃ vs, Forall2 (typed s T) types vs ∧ covers rows vs = false.
Proof.
  intros HI. revert types rows. induction n as [|n IH]; intros types rows E Htypes Hrows; [done|].
  simpl in E. cut (∃ vs, Forall2 (typed s T) types vs
                         ∧ covers (List.flat_map expand_head_or rows) vs = false).
  { intros (vs & Hvs & Hc). exists vs. split; [done|]. rewrite <- Hc. symmetry. apply expand_covers.
    eapply list.Forall_impl; [done|]. intros r Hr. apply Forall2_length in Hr, Hvs. by rewrite <- Hr. }
  apply expand_ok in Hrows. set (rows' := List.flat_map expand_head_or rows) in *. clearbody rows'.
  destruct types as [|t types].
  { exists []. split; [constructor|]. by destruct rows'. }
  destruct (keys_of rows') as [ks|] eqn:Ek; simpl in E; [|done].
  apply Forall_cons_1 in Htypes as [Ht Htypes].
  assert (rows_ref n s T types (default_rows rows') = Some false →
          match signature s T (res s t) with
          | Some cs => forallb (λ c, mentions ks (ctor_key c)) cs = false
          | None => True
          end → ∃ vs, Forall2 (typed s T) (t :: types) vs ∧ covers rows' vs = false) as Hdef.
  { intros E' Hsig. destruct (IH _ _ E' Htypes (default_rows_ok _ _ _ _ _ Hrows)) as (vs & Hvs & Hc).
    destruct (stray_value _ _ _ _ _ _ _ HI Ht Hrows Ek Hsig) as (v & Hv & Hstray).
    exists (v :: vs). split; [by constructor|]. apply default_hole; [done| |done].
    eapply list.Forall_impl; [done|]. by intros [].  }
  destruct (signature s T (res s t)) as [cs|] eqn:Es; [|by apply Hdef].
  destruct (forallb _ cs) eqn:Eall; [|by apply Hdef]. clear Hdef.
  assert (∃ c, c ∈ cs ∧ rows_ref n s T (ctor_args c ++ types) (omap (specialize_row c) rows') = Some false)
    as (c & Hc & Ec).
  { clear -E. induction cs as [|c cs IH]; simpl in E; [done|].
    destruct (rows_ref _ _ _ _ _) as [[]|] eqn:Ec; simpl in E; [|exists c; by split; [left|]|done].
    destruct (IH E) as (c' & ? & ?). exists c'. by split; [right|]. }
  destruct (HI t Ht) as [_ Hargs].
  destruct (IH _ _ Ec (Forall_app_2 _ _ _ (Hargs _ _ Es Hc) Htypes)
              (specialize_rows_ok _ _ _ _ _ _ _ Es Hc Hrows)) as (ws & Hws & Hcov).
  apply Forall2_app_inv_l in Hws as (fields & vs & Hf & Hvs & ->).
  destruct (assemble _ _ _ _ _ _ Es Hc Hf) as [v Hv]. exists (v :: vs).
  split; [constructor; [by econstructor|done]|].
  by rewrite <- (specialize_covers _ _ _ _ _ _ _ _ _ _ Es Hc Hrows Hv) by by eapply Forall2_length.
Qed.

(** ** Termination *)

(** A pattern is measured by the or-free patterns it stands for: how many
    there are, and how many constructors they have together. *)
Definition times (a b : nat * nat) : nat * nat := (a.1 * b.1, a.2 * b.1 + a.1 * b.2)%nat.

Fixpoint measure (p : Pattern) : nat * nat :=
  let row ps := foldr (λ p r, times (measure p) r) (1, 0)%nat ps in
  match p with
  | Pattern.Wildcard | Pattern.Var _ => (1, 0)%nat
  | Pattern.Ctor _ args | Pattern.AnonCtor _ args | Pattern.Tuple args =>
      ((row args).1, (row args).1 + (row args).2)%nat
  | Pattern.List elems _ => ((row elems).1, S (length elems) * (row elems).1 + (row elems).2)%nat
  | Pattern.Or alts =>
      let r := foldr (λ p r, ((measure p).1 + r.1, (measure p).2 + r.2)%nat) (0, 0)%nat alts in
      (Nat.max 1 r.1, r.2)
  | _ => (1, 1)%nat
  end.

Definition row_measure (ps : list Pattern) : nat * nat := foldr (λ p r, times (measure p) r) (1, 0)%nat ps.
Definition row_weight (ps : list Pattern) : nat := (row_measure ps).2.
Definition rows_weight (rows : list (list Pattern)) : nat := sum_list (List.map row_weight rows).

Lemma times_assoc a b c : times a (times b c) = times (times a b) c.
Proof. unfold times. destruct a, b, c; simpl. f_equal; nia. Qed.

Lemma row_measure_app ps qs : row_measure (ps ++ qs) = times (row_measure ps) (row_measure qs).
Proof.
  induction ps as [|p ps IH]; simpl.
  - unfold times. destruct (row_measure qs); simpl. f_equal; lia.
  - unfold row_measure in *. by rewrite IH, times_assoc.
Qed.

Lemma measure_pos p : (1 ≤ (measure p).1)%nat.
Proof.
  induction p as [p IH] using pattern_nested_ind.
  assert (Forall (λ p, 1 ≤ (measure p).1)%nat (sub_patterns p) →
          1 ≤ (row_measure (sub_patterns p)).1)%nat as Hrow.
  { generalize (sub_patterns p). induction 1 as [|q qs Hq _ Hqs]; simpl; [lia|].
    by apply Nat.mul_pos_pos. }
  destruct p; simpl in *; try lia; by apply Hrow.
Qed.

Lemma row_measure_pos ps : (1 ≤ (row_measure ps).1)%nat.
Proof.
  induction ps as [|p ps IH]; simpl; [lia|]. apply Nat.mul_pos_pos; [apply measure_pos|done].
Qed.

Lemma row_weight_cons p tail :
  row_weight (p :: tail)
  = ((measure p).2 * (row_measure tail).1 + (measure p).1 * row_weight tail)%nat.
Proof. done. Qed.

Lemma rows_weight_app rows rows' : rows_weight (rows ++ rows') = (rows_weight rows + rows_weight rows')%nat.
Proof.
  unfold rows_weight. induction rows as [|r rows IH]; simpl; [done|]. rewrite IH. lia.
Qed.

Lemma expand_head_weight tail p : (rows_weight (expand_head tail p) ≤ row_weight (p :: tail))%nat.
Proof.
  induction p as [p IH] using pattern_nested_ind.
  destruct p; try (unfold rows_weight; simpl; lia). simpl expand_head.
  assert (rows_weight (List.flat_map (expand_head tail) alts)
    ≤ (foldr (λ p r, ((measure p).1 + r.1, (measure p).2 + r.2)) (0, 0) alts).2 * (row_measure tail).1
      + (foldr (λ p r, ((measure p).1 + r.1, (measure p).2 + r.2)) (0, 0) alts).1 * row_weight tail)%nat as H.
  { simpl in IH. induction IH as [|q qs Hq _ IH]; simpl; [unfold rows_weight; simpl; lia|].
    rewrite rows_weight_app. rewrite row_weight_cons in Hq. lia. }
  etrans; [exact H|]. rewrite row_weight_cons. simpl measure. cbn [fst snd]. nia.
Qed.

Lemma expand_weight rows : (rows_weight (List.flat_map expand_head_or rows) ≤ rows_weight rows)%nat.
Proof.
  induction rows as [|r rows IH]; simpl; [done|]. rewrite rows_weight_app.
  change (rows_weight (r :: rows)) with (row_weight r + rows_weight rows)%nat.
  assert (rows_weight (expand_head_or r) ≤ row_weight r)%nat; [|lia].
  destruct r as [|p tail]; [done|]. apply expand_head_weight.
Qed.

Lemma wildcards_measure n : row_measure (replicate n Pattern.Wildcard) = (1, 0)%nat.
Proof. induction n as [|n IH]; [done|]. unfold row_measure in *. simpl. by rewrite IH. Qed.

(** Taking a constructor off a pattern leaves fewer. *)
Lemma specialize_measure p c args :
  specialize_head p c = Some args →
  (row_measure args).1 = (measure p).1
  ∧ (if bool_decide (pattern_ctor_key p = None) then (row_measure args).2 ≤ (measure p).2
     else (row_measure args).2 < (measure p).2)%nat.
Proof.
  intros E. pose proof (row_measure_pos args) as Hpos.
  destruct p; try done; cbn [specialize_head] in E;
    try (destruct (String.eqb _ _); [injection E as <-|done]).
  - injection E as <-. rewrite wildcards_measure. simpl. lia.
  - injection E as <-. rewrite wildcards_measure. simpl. lia.
  - rewrite bool_decide_eq_false_2 by by destruct b. simpl. lia.
  - fold (row_measure args0) in *. simpl. fold (row_measure args0). lia.
  - fold (row_measure args0) in *. simpl. fold (row_measure args0). lia.
  - simpl. fold (row_measure elems). lia.
  - unfold specialize_list in E. pose proof (row_measure_pos elems) as Hpos'.
    destruct (String.eqb _ _).
    { destruct elems; [|done]. injection E as <-. destruct rest; simpl; lia. }
    destruct (String.eqb _ _); [|done].
    destruct elems as [|q qs]; [destruct rest; [|done]; injection E as <-; simpl; lia|].
    injection E as <-. simpl. fold (row_measure qs). pose proof (row_measure_pos qs).
    pose proof (measure_pos q). split; nia.
Qed.

Lemma specialize_row_weight c row :
  (match specialize_row c row with Some r => row_weight r | None => 0 end ≤ row_weight row)%nat
  ∧ (∀ p tail, row = p :: tail → is_Some (pattern_ctor_key p) →
     match specialize_row c row with Some r => row_weight r | None => 0 end < row_weight row)%nat.
Proof.
  destruct row as [|p tail]; [split; [done|intros; done]|]. rewrite row_weight_cons. simpl.
  pose proof (row_measure_pos tail) as Ht. pose proof (measure_pos p) as Hp.
  destruct (specialize_head p c) as [args|] eqn:E; simpl.
  - apply specialize_measure in E as [E1 E2]. unfold row_weight. rewrite row_measure_app. simpl. rewrite E1.
    split; [case_bool_decide; nia|]. intros ? ? [= <- <-] [k Hk]. rewrite Hk in E2. simpl in E2. nia.
  - split; [lia|]. intros ? ? [= <- <-] [k Hk].
    assert (1 ≤ (measure p).2)%nat; [|nia].
    destruct p; try done; simpl; try lia; try (pose proof (row_measure_pos args); unfold row_measure in *; lia);
      pose proof (row_measure_pos elems); unfold row_measure in *; lia.
Qed.

Lemma specialize_rows_cons c r rows :
  rows_weight (omap (specialize_row c) (r :: rows))
  = (match specialize_row c r with Some r => row_weight r | None => 0 end
     + rows_weight (omap (specialize_row c) rows))%nat.
Proof. simpl. by destruct (specialize_row c r). Qed.

Lemma rows_weight_cons r rows : rows_weight (r :: rows) = (row_weight r + rows_weight rows)%nat.
Proof. done. Qed.

Lemma specialize_rows_weight c rows :
  (rows_weight (omap (specialize_row c) rows) ≤ rows_weight rows)%nat.
Proof.
  induction rows as [|r rows IH]; [done|]. rewrite specialize_rows_cons, rows_weight_cons.
  destruct (specialize_row_weight c r) as [Hr _]. lia.
Qed.

Lemma specialize_rows_strict c rows p tail :
  p :: tail ∈ rows → is_Some (pattern_ctor_key p) →
  (rows_weight (omap (specialize_row c) rows) < rows_weight rows)%nat.
Proof.
  intros Hin Hk. induction rows as [|r rows IH]; [by apply not_elem_of_nil in Hin|].
  rewrite specialize_rows_cons, rows_weight_cons.
  destruct (specialize_row_weight c r) as [Hr Hs]. pose proof (specialize_rows_weight c rows) as Hrest.
  apply elem_of_cons in Hin as [<-|Hin]; [specialize (Hs _ _ eq_refl Hk); lia|].
  specialize (IH Hin). lia.
Qed.

Lemma default_rows_weight rows : (rows_weight (default_rows rows) ≤ rows_weight rows)%nat.
Proof.
  induction rows as [|[|p tail] rows IH]; [done|exact IH|].
  rewrite rows_weight_cons, row_weight_cons. pose proof (measure_pos p) as Hp.
  unfold default_rows in *. cbn [omap list_omap]. case_bool_decide; rewrite ?rows_weight_cons; nia.
Qed.

Lemma all_ref_mono (f g : ColCtor → option bool) cs b :
  (∀ c b, f c = Some b → g c = Some b) → all_ref f cs = Some b → all_ref g cs = Some b.
Proof.
  intros H. induction cs as [|c cs IH]; simpl; [done|].
  destruct (f c) as [[]|] eqn:E; simpl; [|..|done]; rewrite (H _ _ E); simpl; auto.
Qed.

Lemma rows_ref_mono n m s T types rows b :
  (n ≤ m)%nat → rows_ref n s T types rows = Some b → rows_ref m s T types rows = Some b.
Proof.
  revert m types rows b. induction n as [|n IH]; intros [|m] types rows b Hm; try done; [lia|]. simpl.
  destruct types as [|t types]; [done|]. destruct (keys_of _) as [ks|]; simpl; [|done].
  destruct (signature s T (res s t)) as [cs|]; [|apply IH; lia].
  destruct (forallb _ cs); [|apply IH; lia]. apply all_ref_mono. intros c b'. apply IH. lia.
Qed.

Lemma all_ref_total s T cs (sub : ColCtor → list Ty * list (list Pattern)) :
  (∀ c, c ∈ cs → ∃ n b, rows_ref n s T (sub c).1 (sub c).2 = Some b) →
  ∃ n b, all_ref (λ c, rows_ref n s T (sub c).1 (sub c).2) cs = Some b.
Proof.
  induction cs as [|c cs IH]; intros H; [by exists 0%nat, true|].
  destruct (H c) as (n1 & b1 & E1); [by left|].
  destruct IH as (n2 & b2 & E2); [intros; apply H; by right|].
  exists (Nat.max n1 n2), (if b1 then b2 else false). simpl.
  rewrite (rows_ref_mono n1 _ _ _ _ _ b1) by first [lia|done]. simpl. destruct b1; [|done].
  eapply all_ref_mono; [|exact E2]. intros c' b' E. eapply rows_ref_mono; [|exact E]. lia.
Qed.

Lemma rows_total s T types rows :
  Forall (Forall2 (pat_ok s T) types) rows → ∃ n b, rows_ref n s T types rows = Some b.
Proof.
  remember (rows_weight rows) as w eqn:Hw. assert (rows_weight rows ≤ w)%nat as Hle by lia. clear Hw.
  revert types rows Hle. induction w as [w IHw] using lt_wf_ind. intros types.
  induction types as [|t types IHt]; intros rows Hle Hrows.
  { eexists 1%nat, _. reflexivity. }
  pose proof (expand_weight rows) as Hx. apply expand_ok in Hrows.
  assert (∀ n b, rows_ref (S n) s T (t :: types) rows = Some b →
                 ∃ n b, rows_ref n s T (t :: types) rows = Some b) as Hdone by eauto.
  cbn [rows_ref] in Hdone. set (rows' := List.flat_map expand_head_or rows) in *. clearbody rows'.
  destruct (head_keys _ _ _ _ _ Hrows) as [ks Eks]. rewrite Eks in Hdone. cbn [mbind option_bind] in Hdone.
  destruct (IHt (default_rows rows')) as (n & b & Edef);
    [pose proof (default_rows_weight rows'); lia|by eapply default_rows_ok|].
  destruct (signature s T (res s t)) as [cs|] eqn:Es; [|by eapply Hdone].
  destruct (forallb _ cs) eqn:Eall; [|by eapply Hdone].
  rewrite forallb_forall in Eall.
  destruct (all_ref_total s T cs (λ c, (ctor_args c ++ types, omap (specialize_row c) rows')%list))
    as (n' & b' & E'); [|by eapply Hdone].
  intros c Hc. specialize (Eall c (proj1 (list_elem_of_In _ _) Hc)).
  apply bool_decide_eq_true in Eall. unfold keys_of in Eks. apply mapM_Some in Eks.
  apply list_elem_of_lookup in Eall as [i Hi]. eapply Forall2_lookup_r in Eks as (row & Hrow & Ek); [|done].
  destruct row as [|p tail]; [done|]. injection Ek as Ek. apply list_elem_of_lookup_2 in Hrow.
  pose proof (specialize_rows_strict c rows' p tail Hrow (mk_is_Some _ _ Ek)) as Hlt.
  simpl. eapply (IHw (rows_weight (omap (specialize_row c) rows'))); [lia|done|].
  by eapply specialize_rows_ok.
Qed.

(** ** [check_exhaustive] *)

(** The method keeps the checker's facts and accepts exactly when [b]. *)
Definition verdict (c : Checker) (m : M Checker unit) (b : bool) : Prop :=
  ∃ c', same_facts c c' ∧ if b then m c = (c', Done tt) else ∃ e, m c = (c', Fail e).

Lemma verdict_bind {A} c (m : M Checker A) f x b :
  reads c m x → (∀ c', same_facts c c' → ready c' → verdict c' (f x) b) → verdict c (m ≫= f) b.
Proof.
  intros (c1 & E1 & H1 & R1) Hf. destruct (Hf c1 H1 R1) as (c2 & H2 & E2).
  exists c2. split; [by etrans|]. unfold mbind, M_bind. by rewrite E1.
Qed.

Lemma verdict_throw_unless c b e : verdict c (throw_if (negb b) e) b.
Proof. exists c. split; [done|]. destruct b; simpl; eauto. Qed.

Lemma verdict_ret c : verdict c (mret tt) true.
Proof. by exists c. Qed.

Section arms_theory.
Context {E : Type} (false_expr : E) (T : Tables).
Implicit Types arms : list (MatchArm E).

Definition takes (arm : MatchArm E) (v : Value) : Prop :=
  arm_guard arm = None ∧ ∀ env, fst (match_pattern (arm_pattern arm) v env) = true.

(** The or-patterns [flatten_or_arms] opens completely. *)
Definition flat_or (p : Pattern) : bool :=
  match p with Pattern.Or alts => forallb (negb ∘ is_or) alts | _ => true end.

Definition alternatives (p : Pattern) : list Pattern :=
  match p with Pattern.Or alts => alts | _ => [p] end.

Lemma unguarded_app arms1 arms2 : unguarded (arms1 ++ arms2) = (unguarded arms1 ++ unguarded arms2)%list.
Proof. unfold unguarded. apply omap_app. Qed.

Lemma unguarded_flatten arms :
  unguarded (flatten_or_arms false_expr arms) = List.flat_map alternatives (unguarded arms).
Proof.
  induction arms as [|a arms IH]; [done|].
  change (a :: arms) with ([a] ++ arms)%list. unfold flatten_or_arms in *.
  rewrite flat_map_app, !unguarded_app, IH, flat_map_app. f_equal. unfold unguarded. simpl.
  rewrite !app_nil_r. destruct (arm_pattern a) eqn:Ep; simpl; rewrite ?Ep; try by destruct (arm_guard a).
  destruct (arm_guard a); simpl; rewrite ?app_nil_r; clear.
  - by induction alts.
  - induction alts as [|q qs IH]; simpl; [done|]. f_equal. exact IH.
Qed.

Lemma takes_unguarded arms v :
  existsb (λ p, matches p v) (unguarded arms) = true ↔ ∃ arm, arm ∈ arms ∧ takes arm v.
Proof.
  rewrite existsb_exists. split.
  - intros (p & Hp%list_elem_of_In & Hm). apply list_elem_of_omap in Hp as (a & Ha & Hg).
    destruct (arm_guard a) eqn:Eg; simplify_eq. exists a. split; [done|]. split; [done|].
    intros env. by rewrite match_pattern_matches.
  - intros (a & Ha & Hg & Hm). exists (arm_pattern a). split.
    + apply list_elem_of_In, list_elem_of_omap. exists a. by rewrite Hg.
    + by rewrite <- (match_pattern_matches _ _ []).
Qed.

Lemma alternatives_match v pats :
  existsb (λ p, matches p v) (List.flat_map alternatives pats) = existsb (λ p, matches p v) pats.
Proof.
  induction pats as [|p pats IH]; simpl; [done|]. rewrite existsb_app, IH. f_equal.
  destruct p; simpl; by rewrite ?orb_false_r.
Qed.

Lemma covers_column v pats : covers (List.map (λ p, [p]) pats) [v] = existsb (λ p, matches p v) pats.
Proof.
  induction pats as [|p pats IH]; [done|]. unfold covers in *. simpl. by rewrite IH, andb_true_r.
Qed.
End arms_theory.

(** The scrutinee types whose coverage the checker decides: all but declared
    types and the open types that are not scalars. *)
Definition checked_type (t : Ty) : bool :=
  match t with
  | Ty.Bool | Ty.Int | Ty.Float | Ty.Duration | Ty.String | Ty.List _ | Ty.Tuple _ => true
  | Ty.Named name args => bool_decide (is_Some (union_fields name args))
  | _ => false
  end.

(** [b] tells whether the patterns match every value of the type. *)
Definition settles (s : Subst) (T : Tables) (t : Ty) (pats : list Pattern) (b : bool) : Prop :=
  if b then ∀ v, typed s T t v → existsb (λ p, matches p v) pats = true
  else ∃ v, typed s T t v ∧ existsb (λ p, matches p v) pats = false.

Lemma catchall_settles s T t pats : existsb is_catchall pats = true → settles s T t pats true.
Proof.
  intros (p & Hp & Hc)%existsb_exists v _. apply existsb_exists. exists p. split; [done|]. by destruct p.
Qed.

Lemma column_settles s T I t pats :
  inhabited s T I → I t → Forall (pat_ok s T t) pats →
  ∃ n b, (∀ m, (n ≤ m)%nat → rows_ref m s T [t] (List.map (λ p, [p]) pats) = Some b)
         ∧ settles s T t pats b.
Proof.
  intros HI Ht Hp.
  assert (Forall (Forall2 (pat_ok s T) [t]) (List.map (λ p, [p]) pats)) as Hrows.
  { apply list.Forall_forall. intros r (p & <- & Hin)%list_elem_of_In%in_map_iff.
    constructor; [|constructor]. eapply list.Forall_forall in Hp; [done|by apply list_elem_of_In]. }
  destruct (rows_total _ _ _ _ Hrows) as (n & b & En). exists n, b. split.
  { intros m Hm. by eapply rows_ref_mono. }
  destruct b; simpl.
  - intros v Hv. rewrite <- covers_column. eapply rows_sound; [done..|]. constructor; [done|constructor].
  - destruct (rows_complete _ _ _ _ _ _ HI En ltac:(by repeat constructor) Hrows) as (vs & Hvs & Hc).
    apply Forall2_cons_inv_l in Hvs as (v & vs' & Hv & ->%Forall2_nil_inv_l & ->).
    exists v. by rewrite <- covers_column.
Qed.

(** A pattern the matrix keeps whole. *)
Definition plain (p : Pattern) : Prop := is_or p = false ∧ is_catchall p = false.

Lemma bool_settles s T t pats :
  res s t = Ty.Bool → Forall (pat_ok s T t) pats → Forall plain pats →
  settles s T t pats
    (existsb (λ p, match p with Pattern.Bool x => eqb x true | _ => false end) pats
     && existsb (λ p, match p with Pattern.Bool x => eqb x false | _ => false end) pats).
Proof.
  intros Ht Hp Hpl.
  assert (∀ b, existsb (λ p, match p with Pattern.Bool x => eqb x b | _ => false end) pats
               = existsb (λ p, matches p (Value.Bool b)) pats) as Heq.
  { intros b. clear -Ht Hp Hpl. induction Hp as [|p pats Hp _ IH]; [done|].
    apply Forall_cons_1 in Hpl as [[Ho Hc] Hpl]. simpl. rewrite IH by done. f_equal.
    inversion Hp as [| |? ? Hs|? ? ? Hs Hsh]; simplify_eq; try rewrite Ht in *; try done; by destruct p. }
  rewrite !Heq. destruct (existsb _ pats && _) eqn:Eb; simpl.
  - apply andb_prop in Eb as [E1 E2]. intros v Hv.
    inversion Hv as [? ? Hs|? ? ? ? ? _ _ Hparts]; simplify_eq; try rewrite Ht in *; [done|].
    destruct v; try done. by destruct b.
  - assert (∀ b, typed s T t (Value.Bool b)) as Hv.
    { intros b. eapply typed_ctor with (c := {| ctor_key := if b then "true" else "false"; ctor_args := [] |})
        (fields := []); [by rewrite Ht|destruct b; set_solver|by rewrite Ht|constructor]. }
    apply andb_false_iff in Eb as [?|?]; eauto.
Qed.

Lemma open_settles s T t pats :
  signature s T (res s t) = None → Forall (pat_ok s T t) pats → Forall plain pats →
  settles s T t pats false.
Proof.
  intros Hs Hp Hpl. exists (Value.Opaque 0). split; [by constructor|].
  apply not_true_iff_false. intros (p & Hin%list_elem_of_In & Hm)%existsb_exists.
  eapply list.Forall_forall in Hp; [|done]. eapply list.Forall_forall in Hpl as [Ho Hc]; [|done].
  inversion Hp; simplify_eq; try done; by destruct p.
Qed.

Lemma matrix_verdict T t pats n b c (e : string) :
  ready c → rows_ref n (subst c) T [t] (List.map (λ p, [p]) pats) = Some b →
  verdict c (ok ← rows_exhaustive n T [t] (List.map (λ p, [p]) pats); throw_if (negb ok) e) b.
Proof.
  intros Hc E. eapply verdict_bind; [by apply rows_reads|]. intros c' _ _.
  apply verdict_throw_unless.
Qed.

(** ** Declared types

    On a declared type the checker looks at one field of one variant at a
    time.  That is exact for the patterns below; a variant with two fields is
    not looked into. *)

Fixpoint simple (p : Pattern) : bool :=
  match p with
  | Pattern.Wildcard | Pattern.Var _ | Pattern.Bool _ | Pattern.Int _ | Pattern.Str _ => true
  | Pattern.Ctor _ [] => true
  | Pattern.Ctor _ [q] => simple q
  | _ => false
  end.

(** A listed variant is declared with its type. *)
Definition tables_ok (T : Tables) : Prop :=
  ∀ adt vs v, adt_variants T !! adt = Some vs → v ∈ vs →
              ∃ fields formals, ctor_sigs T !! v = Some (fields, Ty.Named adt formals).

Definition arms_settle (s : Subst) (T : Tables) (types : list Ty) (arms : list (list Pattern)) (b : bool)
  : Prop :=
  if b then ∀ fields, Forall2 (typed s T) types fields → covers arms fields = true
  else ∃ fields, Forall2 (typed s T) types fields ∧ covers arms fields = false.

Definition arms_size (arms : list (list Pattern)) : nat := foldr (λ a n, patterns_size a + n)%nat 0%nat arms.

Lemma column_of {R : Ty → Pattern → Prop} t arms :
  Forall (Forall2 R [t]) arms → ∃ col, arms = List.map (λ p, [p]) col ∧ Forall (R t) col.
Proof.
  induction 1 as [|a arms Ha _ (col & -> & Hcol)]; [by exists []|].
  apply Forall2_cons_inv_l in Ha as (p & l & Hp & ->%Forall2_nil_inv_l & ->).
  exists (p :: col). split; [done|]. by constructor.
Qed.

Lemma first_column_singles col : first_column (List.map (λ p, [p]) col) = Done col.
Proof.
  unfold first_column. induction col as [|p col IH]; [done|]. simpl. unfold mbind, outcome_bind in *.
  by rewrite IH.
Qed.

Lemma arms_size_singles col : arms_size (List.map (λ p, [p]) col) = patterns_size col.
Proof. induction col as [|p col IH]; [done|]. unfold arms_size, patterns_size in *. simpl. rewrite IH. lia. Qed.

Lemma fields_settle s T f types arms :
  arms ≠ [] → (length types ≤ 1)%nat → Forall (Forall2 (pat_ok s T) types) arms →
  (∀ t col, types = [t] → arms = List.map (λ p, [p]) col → Forall (pat_ok s T t) col →
            ∃ b, f col = Done b ∧ settles s T t col b) →
  ∃ b, fields_covered f arms = Done b ∧ arms_settle s T types arms b.
Proof.
  intros Hne Hlen Harms Hf. destruct types as [|t [|]]; [| |simpl in Hlen; lia].
  - exists true. destruct arms as [|a arms]; [done|]. apply Forall_cons_1 in Harms as [Ha _].
    inversion Ha; subst. split; [done|]. intros fields Hfl. inversion Hfl; subst. done.
  - destruct (column_of t arms Harms) as (col & -> & Hcol).
    destruct (Hf t col eq_refl eq_refl Hcol) as (b & Eb & Hb). exists b. split.
    + destruct col as [|p col]; [done|]. unfold fields_covered.
      change (List.map (λ p, [p]) (p :: col)) with ([p] :: List.map (λ p, [p]) col) at 1. cbv iota.
      rewrite first_column_singles. exact Eb.
    + destruct b; simpl in *.
      * intros fields Hfl. apply Forall2_cons_inv_l in Hfl as (v & l & Hv & ->%Forall2_nil_inv_l & ->).
        rewrite covers_column. by apply Hb.
      * destruct Hb as (v & Hv & Hm). exists [v]. rewrite covers_column. split; [|done].
        constructor; [done|constructor].
Qed.

Section nominal.
Context (s : Subst) (T : Tables) (I : Ty → Prop) (HI : inhabited s T I) (HT : tables_ok T).
Context (t : Ty) (adt : string) (targs : list Ty) (variants : list string) (pats : list Pattern).
Hypothesis Ht : res s t = Ty.Named adt targs.
Hypothesis Hun : union_fields adt targs = None.
Hypothesis Hvs : adt_variants T !! adt = Some variants.
Hypothesis HIt : I t.
Hypothesis Hpats : Forall (pat_ok s T t) pats.
Hypothesis Hctor : Forall (λ p, is_ctor p = true) pats.

Lemma nominal_signature :
  signature s T (res s t)
  = Some (List.map (λ v, {| ctor_key := v; ctor_args := arg_types s T v targs |}) variants).
Proof. rewrite Ht. simpl. by rewrite Hun, Hvs. Qed.

Lemma variant_elem v :
  v ∈ variants →
  {| ctor_key := v; ctor_args := arg_types s T v targs |}
  ∈ List.map (λ v, {| ctor_key := v; ctor_args := arg_types s T v targs |}) variants.
Proof. intros Hv. apply list_elem_of_In, in_map_iff. exists v. by rewrite <- list_elem_of_In. Qed.

Lemma variant_args_ok v :
  v ∈ variants → Forall (Forall2 (pat_ok s T) (arg_types s T v targs)) (variant_args v pats).
Proof.
  intros Hv. apply list.Forall_forall. intros args (p & Hin & E)%list_elem_of_omap.
  destruct p; try done. destruct (String.eqb_spec name v) as [->|]; [|done]. simplify_eq.
  eapply list.Forall_forall in Hpats; [|done].
  eapply (pat_ok_args _ _ _ _ _ {| ctor_key := v; ctor_args := _ |}); [done|apply nominal_signature|
    by apply variant_elem|]. simpl. by rewrite String.eqb_refl.
Qed.

Lemma variant_args_covers v val fields :
  v ∈ variants → parts (res s t) val = Some (v, fields) → length (arg_types s T v targs) = length fields →
  existsb (λ p, matches p val) pats = covers (variant_args v pats) fields.
Proof.
  intros Hv Hp Hl. pose proof (variant_args_ok v Hv) as Hok. rewrite Ht in Hp.
  pose proof Hctor as Hct. clear Hpats Hctor.
  induction Hct as [|p ps Hc _ IH]; [done|]. destruct p; try done. unfold variant_args in *.
  cbn [existsb omap list_omap] in Hok |- *.
  rewrite (specialize_ctor_exact name args {| ctor_key := v; ctor_args := [] |} val fields adt targs);
    [|done|].
  - simpl. rewrite String.eqb_sym. destruct (String.eqb name v); simpl.
    + apply Forall_cons_1 in Hok as [_ Hok]. unfold covers in *. simpl. by rewrite IH.
    + by rewrite IH.
  - simpl. intros <-. rewrite String.eqb_refl in Hok. apply Forall_cons_1 in Hok as [Ha _].
    apply Forall2_length in Ha. congruence.
Qed.

(** Coverage of each variant's fields is coverage of the type. *)
Lemma variants_settle (b : bool) :
  (if b then ∀ v, v ∈ variants → arms_settle s T (arg_types s T v targs) (variant_args v pats) true
   else ∃ v, v ∈ variants ∧ arms_settle s T (arg_types s T v targs) (variant_args v pats) false) →
  settles s T t pats b.
Proof.
  destruct b; simpl.
  - intros H val Hval. inversion Hval as [? ? Hs|? ? ? c fields Hs Hc Hparts Hf]; subst;
      rewrite nominal_signature in Hs; [done|]. injection Hs as <-.
    apply list_elem_of_In, in_map_iff in Hc as (v & <- & Hv%list_elem_of_In). simpl in *.
    rewrite (variant_args_covers v val fields Hv Hparts) by by eapply Forall2_length. by apply H.
  - intros (v & Hv & fields & Hf & Hm).
    destruct (assemble s T t _ _ fields nominal_signature (variant_elem v Hv) Hf) as [val Hval].
    exists val. split.
    + eapply typed_ctor; [apply nominal_signature|by apply variant_elem|done|done].
    + rewrite (variant_args_covers v val fields Hv Hval); [done|by eapply Forall2_length].
Qed.

Lemma missing_settles v :
  v ∈ variants → variant_args v pats = [] →
  arms_settle s T (arg_types s T v targs) (variant_args v pats) false.
Proof.
  intros Hv ->. destruct (HI t HIt) as [_ Hargs].
  destruct (typed_many s T I _ HI (Hargs _ _ nominal_signature (variant_elem v Hv))) as [fields Hf].
  by exists fields.
Qed.
End nominal.

Lemma variant_args_size v pats :
  variant_args v pats ≠ [] → (arms_size (variant_args v pats) < patterns_size pats)%nat.
Proof.
  assert (arms_size (variant_args v pats) ≤ patterns_size pats
          ∧ (variant_args v pats ≠ [] → arms_size (variant_args v pats) < patterns_size pats))%nat as [_ H]; [|exact H].
  unfold variant_args. induction pats as [|p pats [IH1 IH2]]; [done|].
  change (patterns_size (p :: pats)) with (pattern_size p + patterns_size pats)%nat.
  destruct p; cbn [omap list_omap]; try (split; [lia|]; intros H; specialize (IH2 H); lia).
  destruct (String.eqb name v); [|split; [lia|]; intros H; specialize (IH2 H); lia].
  change (arms_size (args :: ?l)) with (patterns_size args + arms_size l)%nat.
  change (pattern_size (Pattern.Ctor name args)) with (S (patterns_size args)). lia.
Qed.

Lemma variant_args_simple v pats :
  Forall (λ p, simple p = true) pats →
  Forall (λ a, (length a ≤ 1)%nat ∧ Forall (λ p, simple p = true) a) (variant_args v pats).
Proof.
  intros H. apply list.Forall_forall. intros args (p & Hin & E)%list_elem_of_omap.
  eapply list.Forall_forall in H; [|done]. destruct p; try done. destruct (String.eqb name v); simplify_eq.
  destruct args as [|q [|]]; try done; (split; [simpl; lia|]); [constructor|by apply Forall_one].
Qed.

(** The columns under a declared type. *)
Lemma cover_column s T f t arms :
  arms ≠ [] → Forall (Forall2 (pat_ok s T) t) arms →
  Forall (λ a, (length a ≤ 1)%nat ∧ Forall (λ p, simple p = true) a) arms →
  (∀ t' col, t = [t'] → col ≠ [] → (patterns_size col ≤ arms_size arms)%nat → Forall (pat_ok s T t') col →
             Forall (λ p, simple p = true) col → ∃ b, f col = Done b ∧ settles s T t' col b) →
  ∃ b, fields_covered f arms = Done b ∧ arms_settle s T t arms b.
Proof.
  intros Hne Hok Hs Hf. apply fields_settle; [done| |done|].
  - destruct arms as [|a arms]; [done|]. apply Forall_cons_1 in Hok as [Ha%Forall2_length _].
    apply Forall_cons_1 in Hs as [[Hl _] _]. lia.
  - intros t' col -> -> Hcol. apply Hf; [done| |by rewrite arms_size_singles|done|].
    + by destruct col.
    + apply list.Forall_forall. intros p Hin.
      assert ([p] ∈ List.map (λ p, [p]) col) as Hp
        by (apply list_elem_of_In, in_map_iff; exists p; by rewrite <- list_elem_of_In).
      eapply list.Forall_forall in Hs; [|exact Hp]. by destruct Hs as [_ [Hs _]%Forall_cons_1].
Qed.

Lemma all_ctors_of s T t pats :
  Forall (pat_ok s T t) pats → Forall (λ p, simple p = true) pats →
  existsb is_catchall pats = false →
  existsb (λ p, match p with Pattern.Bool _ => true | _ => false end) pats = false →
  existsb (λ p, match p with Pattern.Int _ | Pattern.Str _ => true | _ => false end) pats = false →
  Forall (λ p, is_ctor p = true) pats.
Proof.
  intros Hok Hs H1 H2 H3. apply list.Forall_forall. intros p Hin.
  eapply list.Forall_forall in Hs; [|done].
  assert (∀ f : Pattern → bool, existsb f pats = false → f p = false) as Hno.
  { intros f Hf. apply not_true_iff_false. intros Hp. apply not_true_iff_false in Hf. apply Hf.
    apply existsb_exists. exists p. by rewrite <- list_elem_of_In. }
  apply Hno in H1, H2, H3. by destruct p.
Qed.

Lemma plain_of pats :
  Forall (λ p, is_or p = false) pats → existsb is_catchall pats = false → Forall plain pats.
Proof.
  intros Hs Hc. apply list.Forall_forall. intros p Hin. split; [by eapply list.Forall_forall in Hs|].
  apply not_true_iff_false. intros Hp. apply not_true_iff_false in Hc. apply Hc.
  apply existsb_exists. exists p. by rewrite <- list_elem_of_In.
Qed.

Lemma simple_plain pats :
  Forall (λ p, simple p = true) pats → existsb is_catchall pats = false → Forall plain pats.
Proof.
  intros Hs. apply plain_of. eapply list.Forall_impl; [exact Hs|]. by intros [].
Qed.

(** The declared type of a column of constructor patterns. *)
Lemma ctor_column s T t p pats :
  tables_ok T → Forall (pat_ok s T t) (p :: pats) → Forall (λ p, is_ctor p = true) (p :: pats) →
  ∃ first args adt targs formals fields variants,
    p = Pattern.Ctor first args ∧ res s t = Ty.Named adt targs ∧ union_fields adt targs = None
    ∧ adt_variants T !! adt = Some variants ∧ ctor_sigs T !! first = Some (fields, Ty.Named adt formals).
Proof.
  intros HT [Hp _]%Forall_cons_1 [Hc _]%Forall_cons_1. destruct p; try done.
  inversion Hp as [| | |? ? cs Hsig Hsh Hkey _]; simplify_eq/=; try done.
  destruct (res s t) eqn:Ht; try done. simpl in Hsh. apply bool_decide_eq_true in Hsh as Hun.
  simpl in Hsig. rewrite Hun in Hsig. destruct (adt_variants T !! name0) as [variants|] eqn:Hvs; [|done].
  simpl in Hsig. injection Hsig as <-. destruct (Hkey name eq_refl) as (c & Hin & <-).
  apply list_elem_of_In, in_map_iff in Hin as (v & <- & Hv%list_elem_of_In).
  destruct (HT _ _ _ Hvs Hv) as (fields & formals & Hf). by repeat eexists.
Qed.

Lemma variants_cover_settle s T I t adt targs variants pats f vs :
  inhabited s T I → res s t = Ty.Named adt targs → union_fields adt targs = None →
  adt_variants T !! adt = Some variants → I t → Forall (pat_ok s T t) pats →
  Forall (λ p, simple p = true) pats → (∀ v, v ∈ vs → v ∈ variants) →
  (∀ t' col, I t' → col ≠ [] → (patterns_size col < patterns_size pats)%nat → Forall (pat_ok s T t') col →
             Forall (λ p, simple p = true) col → ∃ b, f col = Done b ∧ settles s T t' col b) →
  ∃ b, variants_cover f pats vs = Done b ∧
       if b then ∀ v, v ∈ vs → arms_settle s T (arg_types s T v targs) (variant_args v pats) true
       else ∃ v, v ∈ vs ∧ arms_settle s T (arg_types s T v targs) (variant_args v pats) false.
Proof.
  intros HI Ht Hun Hvs HIt Hok Hs Hsub Hf. induction vs as [|v vs IH].
  { exists true. split; [done|]. by intros v Hv%not_elem_of_nil. }
  destruct IH as (b & Eb & Hb); [intros; apply Hsub; by right|]. assert (v ∈ variants) as Hv by (apply Hsub; by left).
  cbn [variants_cover]. destruct (decide (variant_args v pats = [])) as [Ena|Hna].
  { exists false. rewrite Ena. split; [done|]. exists v. split; [by left|].
    by eapply missing_settles. }
  destruct (cover_column s T f (arg_types s T v targs) (variant_args v pats)) as (b' & Eb' & Hb');
    [done|by eapply variant_args_ok|by apply variant_args_simple| |].
  { intros t' col Et Hne Hsz Hcol Hsim. apply Hf; [|done| |done|done].
    - destruct (HI t HIt) as [_ Hargs].
      specialize (Hargs _ _ (nominal_signature _ _ _ _ _ _ Ht Hun Hvs) (variant_elem _ _ _ _ _ Hv)).
      simpl in Hargs. rewrite Et in Hargs. by apply Forall_cons_1 in Hargs as [? _].
    - pose proof (variant_args_size v pats Hna). lia. }
  destruct (variant_args v pats) as [|a arms] eqn:Ea; [done|]. rewrite Eb'.
  exists (b' && b). destruct b'; simpl in *; [|split; [done|]; exists v; rewrite Ea; by split; [left|]].
  split; [done|]. destruct b.
  - intros w [->|Hw]%elem_of_cons; [by rewrite Ea|by apply Hb].
  - destruct Hb as (w & Hw & Hb). exists w. by split; [right|].
Qed.

(** Inside a declared type, [patterns_cover] stops and is exact. *)
Lemma patterns_cover_exact s T I n t pats :
  inhabited s T I → tables_ok T → I t → (patterns_size pats < n)%nat → pats ≠ [] →
  Forall (pat_ok s T t) pats → Forall (λ p, simple p = true) pats →
  ∃ b, patterns_cover n T pats = Done b ∧ settles s T t pats b.
Proof.
  intros HI HT. revert t pats. induction n as [|n IH]; intros t pats HIt Hn Hne Hok Hs; [lia|].
  simpl. destruct (existsb is_catchall pats) eqn:Eca; [eexists; split; [done|]; by apply catchall_settles|].
  assert (Forall plain pats) as Hpl by by apply simple_plain.
  destruct (existsb (λ p, match p with Pattern.Bool _ => true | _ => false end) pats) eqn:Ebool.
  { eexists. split; [done|]. apply existsb_exists in Ebool as (p & Hin%list_elem_of_In & Hp).
    apply bool_settles; [|done|done]. eapply list.Forall_forall in Hok; [|done]. destruct p; try done.
    inversion Hok; simplify_eq/=; try done. by destruct (res s t). }
  destruct (existsb (λ p, match p with Pattern.Int _ | Pattern.Str _ => true | _ => false end) pats) eqn:Elit.
  { eexists. split; [done|]. apply existsb_exists in Elit as (p & Hin%list_elem_of_In & Hp).
    apply open_settles; [|done|done]. eapply list.Forall_forall in Hok; [|done].
    inversion Hok; simplify_eq/=; try done; destruct p; try done; by destruct (res s t). }
  pose proof (all_ctors_of _ _ _ _ Hok Hs Eca Ebool Elit) as Hct.
  destruct pats as [|p pats]; [done|]. destruct (ctor_column _ _ _ _ _ HT Hok Hct)
    as (first & args & adt & targs & formals & fields & variants & -> & Ht & Hun & Hvs & Hsig).
  rewrite (proj2 (forallb_forall _ _)).
  2: { intros q Hq%list_elem_of_In. by eapply list.Forall_forall in Hct. }
  rewrite Hsig, Hvs.
  destruct (variants_cover_settle s T I t adt targs variants (Pattern.Ctor first args :: pats) (patterns_cover n T) variants)
    as (b & Eb & Hb); [done..| |].
  { intros t' col HIt' Hne' Hsz Hcol Hsim. apply IH; [done|lia|done..]. }
  exists b. split; [done|]. by eapply variants_settle.
Qed.

Section declared.
Context (s : Subst) (T : Tables) (I : Ty → Prop) (HI : inhabited s T I) (HT : tables_ok T).
Context (t : Ty) (adt : string) (targs : list Ty) (variants : list string) (pats : list Pattern).
Context (Ht : res s t = Ty.Named adt targs) (Hun : union_fields adt targs = None).
Context (Hvs : adt_variants T !! adt = Some variants) (HIt : I t).
Context (Hok : Forall (pat_ok s T t) pats) (Hs : Forall (λ p, simple p = true) pats).

Lemma variant_fields_settle v :
  v ∈ variants → variant_args v pats ≠ [] →
  ∃ b, variant_fields_covered T (variant_args v pats) = Done b
       ∧ arms_settle s T (arg_types s T v targs) (variant_args v pats) b.
Proof.
  intros Hv Hne. apply cover_column; [done|by eapply variant_args_ok|by apply variant_args_simple|].
  intros t' col Et Hcol Hsz Hpc Hsim. eapply patterns_cover_exact; [exact HI|done| |unfold arms_size in Hsz; lia|done..].
  destruct (HI t HIt) as [_ Hargs].
  specialize (Hargs _ _ (nominal_signature _ _ _ _ _ _ Ht Hun Hvs) (variant_elem _ _ _ _ _ Hv)).
  simpl in Hargs. rewrite Et in Hargs. by apply Forall_cons_1 in Hargs as [? _].
Qed.

Lemma check_variant_fields_verdict vs :
  (∀ v, v ∈ vs → v ∈ variants ∧ variant_args v pats ≠ []) →
  ∃ b, (∀ c, verdict c (check_variant_fields T adt pats vs) b) ∧
       if b then ∀ v, v ∈ vs → arms_settle s T (arg_types s T v targs) (variant_args v pats) true
       else ∃ v, v ∈ vs ∧ arms_settle s T (arg_types s T v targs) (variant_args v pats) false.
Proof.
  induction vs as [|v vs IH]; intros Hsub.
  { exists true. split; [intros; apply verdict_ret|]. by intros v Hv%not_elem_of_nil. }
  destruct IH as (b & Eb & Hb); [intros; apply Hsub; by right|].
  destruct (Hsub v ltac:(by left)) as [Hv Hne]. destruct (variant_fields_settle v Hv Hne) as (b' & Eb' & Hb').
  exists (b' && b). cbn [check_variant_fields].
  destruct (variant_args v pats) as [|a arms] eqn:Ea; [done|]. split.
  - intros c. unfold lift_outcome, mbind, M_bind. rewrite Eb'. simpl. destruct b'; simpl; [apply Eb|].
    exists c. split; [done|]. by eexists.
  - destruct b'; simpl; [|exists v; rewrite Ea; by split; [left|]]. destruct b.
    + intros w [->|Hw]%elem_of_cons; [by rewrite Ea|by apply Hb].
    + destruct Hb as (w & Hw & Hb). exists w. by split; [right|].
Qed.

Lemma check_adt_verdict :
  Forall (λ p, is_ctor p = true) pats →
  ∃ b, (∀ c, verdict c (check_adt T adt pats) b) ∧ settles s T t pats b.
Proof.
  intros Hct. unfold check_adt. rewrite Hvs.
  set (missing := List.filter _ variants).
  assert (∀ v, v ∈ missing ↔ v ∈ variants ∧ variant_args v pats = []) as Hmiss.
  { intros v. unfold missing. rewrite !list_elem_of_In, filter_In.
    destruct (variant_args v pats); split; by intros [??]. }
  clearbody missing. destruct missing as [|m missing].
  - destruct (check_variant_fields_verdict variants) as (b & Eb & Hb).
    { intros v Hv. split; [done|]. intros Ena. apply (not_elem_of_nil v). by apply Hmiss. }
    exists b. split; [exact Eb|]. by eapply variants_settle.
  - exists false. split; [intros c; exists c; split; [done|]; by eexists|].
    destruct (proj1 (Hmiss m) ltac:(by left)) as [Hm Ena].
    eapply variants_settle; [done..|]. exists m. split; [done|]. by eapply missing_settles.
Qed.
End declared.

(** The matches whose coverage the checker decides: on a checked type, or on
    a declared type with [simple] patterns. *)
Definition decided (T : Tables) (t : Ty) (pats : list Pattern) : bool :=
  checked_type t ||
  match t with
  | Ty.Named name _ => bool_decide (is_Some (adt_variants T !! name)) && forallb simple pats
  | _ => false
  end.

Lemma nominal_verdict T I name targs pats c n b :
  ready c → inhabited (subst c) T I → tables_ok T → I (Ty.Named name targs) →
  res (subst c) (Ty.Named name targs) = Ty.Named name targs → decided T (Ty.Named name targs) pats = true →
  Forall (pat_ok (subst c) T (Ty.Named name targs)) pats → Forall plain pats →
  (∀ m, (n ≤ m)%nat → rows_ref m (subst c) T [Ty.Named name targs] (List.map (λ p, [p]) pats) = Some b) →
  settles (subst c) T (Ty.Named name targs) pats b →
  ∃ b, settles (subst c) T (Ty.Named name targs) pats b ∧
       ∀ m c', (n ≤ m)%nat → ready c' → subst c' = subst c →
               verdict c' (check_nominal T m (Ty.Named name targs) pats) b.
Proof.
  intros Hc HI HT HIt Hr Hd Hp Hpl Hn Hb. unfold check_nominal.
  destruct (union_fields name targs) as [out|] eqn:Hun.
  { exists b. split; [done|]. intros m c' Hm Hc' Hs. specialize (Hn m Hm). rewrite <- Hs in Hn, Hr.
    eapply verdict_bind; [by apply union_reads|]. intros c2 Hs2 Hc2. rewrite Hr. unfold union_of.
    rewrite Hun. simpl.
    apply matrix_verdict; [done|]. by rewrite (same_subst _ _ Hs2). }
  unfold decided, checked_type in Hd. rewrite Hun in Hd. simpl in Hd.
  apply andb_prop in Hd as [[variants Hvs]%bool_decide_eq_true Hs].
  assert (Forall (λ p, simple p = true) pats) as Hsim.
  { apply list.Forall_forall. intros p Hin%list_elem_of_In. rewrite forallb_forall in Hs. by apply Hs. }
  destruct (check_adt_verdict (subst c) T I HI HT (Ty.Named name targs) name targs variants pats)
    as (b' & Eb' & Hb'); [done..| |].
  { apply list.Forall_forall. intros p Hin. eapply list.Forall_forall in Hp; [|done].
    eapply list.Forall_forall in Hpl as [Ho Hca]; [|done].
    inversion Hp as [| |? ? Hno|? ? ? ? Hsh]; simplify_eq; try congruence; try done.
    - rewrite Hr in Hno. simpl in Hno. by rewrite Hun, Hvs in Hno.
    - rewrite Hr in Hsh. eapply list.Forall_forall in Hsim; [|done]. by destruct p. }
  exists b'. split; [done|]. intros m c' Hm Hc' Es. rewrite <- Es in Hr.
  eapply verdict_bind; [by apply union_reads|]. intros c2 Hs2 Hc2. rewrite Hr. unfold union_of.
    rewrite Hun. simpl. apply Eb'.
Qed.

Lemma checked_verdict T I t pats c :
  ready c → inhabited (subst c) T I → tables_ok T → I t → res (subst c) t = t → decided T t pats = true →
  Forall (pat_ok (subst c) T t) pats → Forall (λ p, is_or p = false) pats →
  ∃ n b, settles (subst c) T t pats b ∧
         ∀ m c', (n ≤ m)%nat → ready c' → subst c' = subst c → verdict c' (check_resolved T m t pats) b.
Proof.
  intros Hc HI HT Ht Hr Hd Hp Hor. unfold check_resolved.
  destruct (existsb is_catchall pats) eqn:Eca.
  { exists 0%nat, true. split; [by apply catchall_settles|]. intros. apply verdict_ret. }
  pose proof (plain_of _ Hor Eca) as Hpl.
  destruct (column_settles _ _ _ _ _ HI Ht Hp) as (n & b & Hn & Hb).
  case_bool_decide as Hbool.
  { eexists 0%nat, _. split; [by apply bool_settles; rewrite ?Hr|]. intros m c' _ _ _. unfold check_bool.
    apply verdict_throw_unless. }
  destruct (scalar_name t) as [kind|] eqn:Esc.
  { exists 0%nat, false. split; [apply open_settles; [by rewrite Hr; destruct t|done..]|].
    intros m c' _ _ _. exists c'. split; [done|]. by eexists. }
  exists n. destruct t; try done.
  3: by eapply nominal_verdict.
  all: exists b; split; [done|]; intros m c' Hm Hc' Hs; specialize (Hn m Hm); rewrite <- Hs in Hn;
    by apply matrix_verdict.
Qed.

Lemma alternatives_ok s T t pats :
  Forall (pat_ok s T t) pats → Forall (pat_ok s T t) (List.flat_map alternatives pats).
Proof.
  induction 1 as [|p pats Hp _ IH]; simpl; [constructor|]. apply Forall_app_2; [|done].
  destruct p; try (by apply Forall_one). by apply pat_ok_or.
Qed.

Lemma alternatives_flat pats :
  forallb flat_or pats = true → Forall (λ p, is_or p = false) (List.flat_map alternatives pats).
Proof.
  intros H. induction pats as [|p pats IH]; simpl; [constructor|].
  apply andb_prop in H as [Hp H]. apply Forall_app_2; [|by apply IH].
  destruct p; try (by apply Forall_one). simpl in *. apply list.Forall_forall. intros q Hq.
  apply negb_true_iff. rewrite forallb_forall in Hp. apply (Hp q). by apply list_elem_of_In.
Qed.


(** ** [check_unreachable] *)

Definition head_arity (ar : string → nat) (p : Pattern) : Prop :=
  match p with
  | Pattern.Ctor name args => length args = ar name
  | Pattern.AnonCtor tag args => length args = ar ("." +:+ tag)
  | _ => True
  end.

Lemma matches_catchalls ps vs : forallb is_catchall ps = true → matches_all ps vs = true.
Proof.
  revert vs. induction ps as [|p ps IH]; intros [|v vs] H; try done. apply andb_prop in H as [Hp H].
  rewrite matches_all_cons, IH by done. by destruct p.
Qed.

(** What the constructor key of a matching pattern says of the value. *)
Lemma keyed_value ar p key v :
  head_arity ar p → pattern_ctor_key p = Some key → is_ctor p || (match p with Pattern.AnonCtor _ _ => true | _ => false end) = true →
  matches p v = true →
  (∃ fields, v = Value.Ctor key fields ∧ length fields = ar key) ∨ (v = Value.Unit ∧ key = "Nil" ∧ ar key = 0%nat).
Proof.
  intros Ha Hk Hc Hm. destruct p; try done; injection Hk as <-; destruct v; try done; simpl in Ha, Hm.
  - left. apply andb_prop in Hm as [Hm _]. apply andb_prop in Hm as [->%String.eqb_eq Hl%Nat.eqb_eq].
    eexists. split; [done|]. congruence.
  - right. apply andb_prop in Hm as [->%String.eqb_eq Hm]. by destruct args.
  - left. apply andb_prop in Hm as [Hm _]. apply andb_prop in Hm as [->%String.eqb_eq Hl%Nat.eqb_eq].
    eexists. split; [done|]. congruence.
Qed.

(** A constructor arm with irrefutable fields takes every value of its key. *)
Lemma keyed_taken ar p key v :
  head_arity ar p → pattern_ctor_key p = Some key →
  match p with Pattern.Ctor _ args | Pattern.AnonCtor _ args => forallb is_catchall args | _ => false end = true →
  (∃ fields, v = Value.Ctor key fields ∧ length fields = ar key) ∨ (v = Value.Unit ∧ key = "Nil" ∧ ar key = 0%nat) →
  matches p v = true.
Proof.
  intros Ha Hk Hc [(fields & -> & Hl)|(-> & Hn & Hl)]; destruct p; try done; injection Hk as <-; simpl in Ha.
  - simpl. rewrite String.eqb_refl, same_length_true by congruence. by apply matches_catchalls.
  - simpl. rewrite String.eqb_refl, same_length_true by congruence. by apply matches_catchalls.
  - subst name. simpl. rewrite Hl in Ha. by destruct args.
  - done.
Qed.

Lemma seen_grows {A} `{Countable A} (b : bool) (x y : A) (X : gset A) :
  b || bool_decide (x ∈ {[y]} ∪ X) = true → b || bool_decide (x ∈ X) = true ∨ x = y.
Proof.
  rewrite !orb_true_iff, !bool_decide_eq_true, elem_of_union, elem_of_singleton. tauto.
Qed.

(** An arm that becomes covered by seeing [p] matches only what [p] does. *)
Lemma see_covers ar p q s :
  head_arity ar p → head_arity ar q → already (see p s) q = true →
  already s q = true ∨ ∀ v, matches q v = true → matches p v = true.
Proof.
  intros Hp Hq. unfold already. destruct p; cbn [see saturated]; try (intros; by left); try (intros _; right; done).
  1-3, 6: destruct q; try (intros; by left); simpl; intros [?| ->]%seen_grows; first [by left|by right].
  all: destruct (forallb is_catchall args) eqn:Hall; last (intros; by left).
  all: destruct q; try (intros; by left);
    cbn [see_ctor saturated seen_ctors]; intros [?|Hk]%seen_grows; first [by left|right; intros v Hm].
  all: (eapply keyed_taken; [exact Hp|done|done|]; eapply keyed_value; [exact Hq|by rewrite <- Hk|done|done]).
Qed.

Lemma check_arms_dead {E} ar s (pre arms : list (MatchArm E)) e :
  Forall (λ a, head_arity ar (arm_pattern a)) arms →
  (∀ q, head_arity ar q → already s q = true →
        ∀ v, matches q v = true → ∃ a, a ∈ pre ∧ takes a v) →
  check_arms s arms = Err e →
  ∃ before arm after, arms = (before ++ arm :: after)%list ∧
    ∀ v env, fst (match_pattern (arm_pattern arm) v env) = true →
             ∃ a, a ∈ (pre ++ before)%list ∧ takes a v.
Proof.
  intros Har. revert s pre. induction Har as [|arm arms Ha _ IH]; intros s pre Hinv; simpl; [done|].
  destruct (already s (arm_pattern arm) && _) eqn:Eal.
  - intros _. apply andb_prop in Eal as [Eal _]. exists [], arm, arms. split; [done|].
    intros v env. rewrite match_pattern_matches, app_nil_r. by apply Hinv.
  - intros Err. apply (IH _ (pre ++ [arm])%list) in Err as (before & a & after & -> & H).
    + exists (arm :: before), a, after. split; [done|]. intros v env Hm.
      destruct (H v env Hm) as (a' & Hin & Ht). exists a'. split; [|done].
      by rewrite <- app_assoc in Hin.
    + intros q Hq Hal v Hm. destruct (arm_guard arm) eqn:Eg.
      { destruct (Hinv q Hq Hal v Hm) as (a & ? & ?). exists a. split; [|done]. apply elem_of_app. by left. }
      destruct (see_covers _ _ _ _ Ha Hq Hal) as [Hal'|Hsub].
      * destruct (Hinv q Hq Hal' v Hm) as (a & ? & ?). exists a. split; [|done]. apply elem_of_app. by left.
      * exists arm. split; [apply elem_of_app; right; by left|]. split; [done|].
        intros env. rewrite match_pattern_matches. by apply Hsub.
Qed.

(** An arm reported as unreachable is dead: whatever it matches is already
    taken by an earlier unguarded arm.  Constructor patterns have as many
    arguments as their constructor has fields. *)
Theorem unreachable_arms_dead {E} ar (arms : list (MatchArm E)) e :
  Forall (λ a, head_arity ar (arm_pattern a)) arms → check_unreachable arms = Err e →
  ∃ before arm after, arms = (before ++ arm :: after)%list ∧
    ∀ v env, fst (match_pattern (arm_pattern arm) v env) = true → ∃ a, a ∈ before ∧ takes a v.
Proof.
  intros Har Err. apply (check_arms_dead ar nothing_seen []) in Err; [done|done|].
  intros q _ Hal. unfold already, nothing_seen in Hal. simpl in Hal.
  destruct q; simpl in Hal; try done; apply bool_decide_eq_true in Hal; set_solver.
Qed.

(** ** Examples *)

Definition bool_ctor (b : bool) : ColCtor :=
  {| ctor_key := if b then "true" else "false"; ctor_args := [] |}.

Lemma bool_signature s T : signature s T (res s Ty.Bool) = Some [bool_ctor true; bool_ctor false].
Proof. by rewrite res_node. Qed.

Lemma bool_pat_ok s T b : pat_ok s T Ty.Bool (Pattern.Bool b).
Proof.
  eapply ok_ctor; [apply bool_signature|by rewrite res_node| |].
  - intros key Hk. exists (bool_ctor b). split; [destruct b; set_solver|]. by destruct b; injection Hk.
  - intros c args Hc Ha. simpl in Ha. destruct (String.eqb _ _); [|done]. injection Ha as <-.
    apply elem_of_cons in Hc as [->|Hc]; [constructor|]. apply list_elem_of_singleton in Hc as ->. constructor.
Qed.

Lemma bool_typed s T b : typed s T Ty.Bool (Value.Bool b).
Proof.
  eapply (typed_ctor _ _ _ _ _ (bool_ctor b) []); [apply bool_signature|destruct b; set_solver| |constructor].
  by rewrite res_node.
Qed.

Definition no_tables : Tables := {| adt_variants := ∅; ctor_sigs := ∅; cur_module := "main" |}.

Definition arm_of (p : Pattern) : MatchArm unit :=
  {| arm_line := 0; arm_pattern := p; arm_guard := None; arm_body := () |}.

(** [[]], [[true, ..]] and [[false, ..rest]]. *)
Definition list_arms : list (MatchArm unit) :=
  List.map arm_of
    [Pattern.List [] None; Pattern.List [Pattern.Bool true] (Some None);
     Pattern.List [Pattern.Bool false] (Some (Some "rest"))].

Example list_arms_accepted :
  check_exhaustive no_tables 9 (Ty.List Ty.Bool) (flatten_or_arms () list_arms) new_checker
  = (new_checker, Done tt).
Proof. by vm_compute. Qed.

(** A declared type with one variant of two fields, as in
    [type P: P(Bool, Bool)]. *)
Definition pair_tables : Tables :=
  {| adt_variants := {["P" := ["P"]]};
     ctor_sigs := {["P" := ([Ty.Bool; Ty.Bool], Ty.Named "P" [])]};
     cur_module := "main" |}.

Definition pair_arm : MatchArm unit :=
  arm_of (Pattern.Ctor "P" [Pattern.Bool true; Pattern.Bool true]).

(** [type W: W(Bool)] with the arms [W(true)] and [W(true | false)]. *)
Definition wrap_tables : Tables :=
  {| adt_variants := {["W" := ["W"]]}; ctor_sigs := {["W" := ([Ty.Bool], Ty.Named "W" [])]};
     cur_module := "main" |}.

Definition wrap_arms : list (MatchArm unit) :=
  List.map arm_of
    [Pattern.Ctor "W" [Pattern.Bool true];
     Pattern.Ctor "W" [Pattern.Or [Pattern.Bool true; Pattern.Bool false]]].

Lemma wrap_value v : typed ∅ wrap_tables (Ty.Named "W" []) v → ∃ b, v = Value.Ctor "W" [Value.Bool b].
Proof.
  inversion 1 as [? ? Hs|? ? ? c fields Hs Hc Hp Hf]; subst; [done|].
  assert (cs = [{| ctor_key := "W"; ctor_args := [Ty.Bool] |}]) as ->.
  { apply (inj Some). rewrite <- Hs. by vm_compute. }
  apply list_elem_of_singleton in Hc as ->. simpl in Hf.
  apply Forall2_cons_inv_l in Hf as (b & l & Hb & ->%Forall2_nil_inv_l & ->).
  inversion Hb as [? ? Hs'|? ? ? ? ? _ _ Hpb]; subst; [done|]. destruct b; try done.
  exists b. clear -Hp. rewrite res_node in Hp by done. destruct v; try done. by injection Hp as -> ->.
Qed.

(** Declared types escape the guarantee in both directions.  A variant with
    two fields is not looked into: the single arm [P(true, true)] is well
    typed and passes the check, and [P(false, true)] is a value of the type it
    does not match.  And a valid match is refused: the arms [W(true)] and
    [W(true | false)] match every value of the type, and the check fails. *)
Theorem declared_check_gaps n :
  (check_exhaustive pair_tables n (Ty.Named "P" []) (flatten_or_arms () [pair_arm]) new_checker
   = (new_checker, Done tt)
   ∧ pat_ok ∅ pair_tables (Ty.Named "P" []) (arm_pattern pair_arm)
   ∧ typed ∅ pair_tables (Ty.Named "P" []) (Value.Ctor "P" [Value.Bool false; Value.Bool true])
   ∧ ∀ env, fst (match_pattern (arm_pattern pair_arm)
                   (Value.Ctor "P" [Value.Bool false; Value.Bool true]) env) = false)
  ∧ (verdict new_checker (check_exhaustive wrap_tables n (Ty.Named "W" []) (flatten_or_arms () wrap_arms)) false
     ∧ ∀ v, typed ∅ wrap_tables (Ty.Named "W" []) v → ∃ arm, arm ∈ wrap_arms ∧ takes arm v).
Proof.
  split; [split; [by vm_compute|split; [|split; [|done]]]|split].
  - eapply ok_ctor; [by vm_compute|by vm_compute| |].
    + intros key [= <-]. eexists. split; [by left|done].
    + intros c args Hc Ha. apply list_elem_of_singleton in Hc as ->. injection Ha as <-.
      repeat (constructor; [apply bool_pat_ok|]). constructor.
  - eapply typed_ctor; [by vm_compute|by left|done|]. repeat (constructor; [apply bool_typed|]). constructor.
  - exists new_checker. split; [done|]. eexists. by vm_compute.
  - intros v [b ->]%wrap_value. eexists. split; [right; by left|]. split; [done|]. intros env. by destruct b.
Qed.

Lemma list_pat_ok s T e elems rest :
  res s (Ty.List e) = Ty.List e → Forall (pat_ok s T e) elems → pat_ok s T (Ty.List e) (Pattern.List elems rest).
Proof.
  intros Hr H. revert rest. induction H as [|p elems Hp H IH]; intros rest.
  all: eapply ok_ctor; [by rewrite Hr|by rewrite Hr| |].
  - intros key Hk. destruct rest; [done|]. injection Hk as <-. eexists. split; [by left|done].
  - intros c args Hc Ha. apply elem_of_cons in Hc as [->|Hc].
    + injection Ha as <-. constructor.
    + apply list_elem_of_singleton in Hc as ->. destruct rest; [|done]. injection Ha as <-.
      repeat (constructor; [by apply ok_catchall|]). constructor.
  - intros key Hk. injection Hk as <-. eexists. split; [right; by left|done].
  - intros c args Hc Ha. apply elem_of_cons in Hc as [->|Hc]; [done|].
    apply list_elem_of_singleton in Hc as ->. injection Ha as <-.
    constructor; [done|]. constructor; [apply IH|constructor].
Qed.

Lemma list_inhabited T : inhabited ∅ T (λ t, t = Ty.Bool ∨ t = Ty.List Ty.Bool).
Proof.
  intros t [->| ->].
  - split; [exists (Value.Bool true); apply bool_typed|]. intros cs c Hs Hc.
    rewrite bool_signature in Hs. injection Hs as <-.
    apply elem_of_cons in Hc as [->|Hc]; [constructor|]. apply list_elem_of_singleton in Hc as ->. constructor.
  - split.
    + exists (Value.List []). eapply (typed_ctor _ _ _ _ _ {| ctor_key := LIST_NIL; ctor_args := [] |} []);
        [done|by left|done|constructor].
    + intros cs c [= <-] Hc. apply elem_of_cons in Hc as [->|Hc]; [constructor|].
      apply list_elem_of_singleton in Hc as ->. constructor; [by left|]. constructor; [by right|constructor].
Qed.


(** [Some(_)], [None], [Some(0)]. *)
Definition shadowed_arms : list (MatchArm unit) :=
  List.map arm_of [Pattern.Ctor "Some" [Pattern.Wildcard]; Pattern.Ctor "None" [];
                   Pattern.Ctor "Some" [Pattern.Int 0]].

Lemma unreachable_arms_dead_witness :
  ∃ before arm after, shadowed_arms = (before ++ arm :: after)%list ∧
    ∀ v env, fst (match_pattern (arm_pattern arm) v env) = true → ∃ a, a ∈ before ∧ takes a v.
Proof.
  apply (unreachable_arms_dead (λ name, if String.eqb name "Some" then 1%nat else 0%nat) shadowed_arms
           "unreachable match arm: `Some(0)` is already covered by an earlier arm").
  - by repeat constructor.
  - by vm_compute.
Defined.
