(* ===== verification/Irrefutable.v ===== *)
(** * Irrefutable: the patterns [let], [for] and comprehensions accept

    [pattern_refutable] of [crates/witchy-types/src/typeck.rs] reports why a
    pattern can fail.  Where it reports nothing, a well-typed pattern matches
    every value of its type in the interpreter. *)

From S2P Require Import Prelude Text Types Substitution Unify Inference.
From S2P Require Import SyntheticNames Patterns Coverage Exhaustive.

Local Open Scope string_scope.

(** The check passes [Ty::Unit] where it does not know a field's type. *)
Definition stands_for (s : Subst) (t' t : Ty) : Prop := t' = Ty.Unit ∨ res s t' = res s t.

(** The check of [p] answers, and an empty answer is right. *)
Definition vouches (s : Subst) (T : Tables) (p : Pattern) : Prop :=
  ∀ c t', ready c → subst c = s →
    ∃ r, reads c (pattern_refutable T p t') r ∧
         (r = None → ∀ t v, stands_for s t' t → pat_ok s T t p → typed s T t v → matches p v = true).

Lemma stands_units s ts : Forall2 (stands_for s) (replicate (length ts) Ty.Unit) ts.
Proof. induction ts as [|t ts IH]; simpl; constructor; [by left|done]. Qed.

Lemma stands_same s ts : Forall2 (stands_for s) ts ts.
Proof. induction ts as [|t ts IH]; constructor; [by right|done]. Qed.

Lemma first_refutable_vouches s T ps c tys :
  Forall (vouches s T) ps → ready c → subst c = s →
  ∃ r, reads c (first_refutable (pattern_refutable T) ps tys) r ∧
       (r = None → ∀ ts vs, Forall2 (stands_for s) tys ts → Forall2 (pat_ok s T) ts ps →
                            Forall2 (typed s T) ts vs → matches_all ps vs = true).
Proof.
  intros H. revert c tys. induction H as [|p ps Hp _ IH]; intros c tys Hc Hs.
  { exists None. split; [by apply reads_ret|]. done. }
  destruct tys as [|t' tys].
  { exists None. split; [by apply reads_ret|]. intros _ ts vs Hst Hok. inversion Hst; subst. inversion Hok. }
  destruct (Hp c t' Hc Hs) as (r & Hr & Hsound).
  assert (∀ c', ready c' → subst c' = s → ∃ r', reads c' (first_refutable (pattern_refutable T) ps tys) r'
    ∧ (r' = None → ∀ ts vs, Forall2 (stands_for s) tys ts → Forall2 (pat_ok s T) ts ps →
                            Forall2 (typed s T) ts vs → matches_all ps vs = true)) as IH' by auto.
  destruct Hr as (c1 & E1 & Hf & Hc1). destruct (IH' c1 Hc1) as (r' & Hr' & Hsound').
  { by rewrite (same_subst _ _ Hf). }
  destruct r as [e|].
  - exists (Some e). split; [|done]. exists c1. split_and!; [|done|done].
    cbn [first_refutable]. unfold mbind, M_bind. by rewrite E1.
  - exists r'. split.
    + destruct Hr' as (c2 & E2 & Hf2 & Hc2). exists c2. split_and!; [|by etrans|done].
      cbn [first_refutable]. unfold mbind, M_bind. by rewrite E1.
    + intros -> ts vs Hst Hok Hty. inversion Hst as [|? t ? ts' H1 H2]; subst.
      apply Forall2_cons_inv_l in Hok as (q & qs & Hq & Hqs & [= <- <-]).
      apply Forall2_cons_inv_l in Hty as (v & vs' & Hv & Hvs & ->).
      rewrite matches_all_cons. apply andb_true_intro. split; [by eapply Hsound|by eapply Hsound'].
Qed.

(** A type with one constructor: every value is taken apart by it. *)
Lemma only_ctor s T t p c args v :
  pat_ok s T t p → is_or p = false → signature s T (res s t) = Some [c] → typed s T t v →
  specialize_head p c = Some args →
  (∀ fields, Forall2 (typed s T) (ctor_args c) fields → matches_all args fields = true) →
  matches p v = true.
Proof.
  intros Hp Ho Hs Hv Ha H. inversion Hv as [? ? Hn|? ? ? c' fields Hs' Hc Hparts Hf]; simplify_eq.
  apply list_elem_of_singleton in Hc as ->.
  rewrite (specialize_exact _ _ _ _ _ _ _ _ Hp Ho Hs ltac:(by left) Hparts) by by eapply Forall2_length.
  rewrite Ha. by apply H.
Qed.

(** A pattern with a constructor at its head, at a type with constructors. *)
Lemma pat_ok_head s T t p :
  pat_ok s T t p → is_or p = false → is_catchall p = false → is_literal p = false →
  ∃ cs, signature s T (res s t) = Some cs ∧ shape_ok (res s t) p = true
        ∧ (∀ key, pattern_ctor_key p = Some key → ∃ c, c ∈ cs ∧ ctor_key c = key).
Proof. intros Hp Ho Hc Hl. inversion Hp; simplify_eq; try congruence; try done. eauto. Qed.

Lemma vouches_tuple s T ps : acyclic s → Forall (vouches s T) ps → vouches s T (Pattern.Tuple ps).
Proof.
  intros Hac Hps c t' Hc Hs. destruct (resolve_reads t' c Hc) as (c1 & E1 & Hf & Hc1).
  destruct (first_refutable_vouches s T ps c1 (slot_types (res s t') (length ps))) as (r & Hr & Hsound);
    [done|done|by rewrite (same_subst _ _ Hf)|].
  exists r. split.
  { destruct Hr as (c2 & E2 & Hf2 & Hc2). exists c2. split_and!; [|by etrans|done].
    cbn [pattern_refutable]. unfold mbind, M_bind. rewrite E1, Hs. exact E2. }
  intros -> t v Hst Hok Hty. destruct (pat_ok_head _ _ _ _ Hok) as (cs & Hsig & Hsh & _); [done..|].
  destruct (res s t) as [] eqn:Ht; try done. injection Hsig as <-. rename items into comps.
  assert (Forall2 (pat_ok s T) comps ps) as Hargs.
  { eapply (pat_ok_args _ _ _ _ _ {| ctor_key := TUPLE_CTOR; ctor_args := comps |}); [done| |by left|done].
    by rewrite Ht. }
  eapply (only_ctor s T t _ {| ctor_key := TUPLE_CTOR; ctor_args := comps |}); [done|done|by rewrite Ht|done|done|].
  intros fields Hfl. eapply Hsound; [done| |done|done].
  apply Forall2_length in Hargs as Hl. destruct Hst as [->|Heq].
  - rewrite res_node by done. simpl. rewrite <- Hl. apply stands_units.
  - rewrite Heq, Ht. simpl. rewrite <- Hl, Nat.eqb_refl. apply stands_same.
Qed.

Lemma ctor_single s T t name args :
  tables_ok T → pat_ok s T t (Pattern.Ctor name args) →
  (∀ m, variant_count T (ctor_adt T name) ≠ Some (S (S m))) →
  ∃ ts, signature s T (res s t) = Some [{| ctor_key := name; ctor_args := ts |}].
Proof.
  intros HT Hok Hcount. destruct (pat_ok_head _ _ _ _ Hok) as (cs & Hsig & Hsh & Hkey); [done..|].
  destruct (res s t) as [] eqn:Ht; try done; simpl in Hsh; apply bool_decide_eq_true in Hsh as Hun.
  cbn [signature] in Hsig |- *. rewrite Hun in Hsig |- *.
  destruct (adt_variants T !! name0) as [variants|] eqn:Hvs; [|done]. injection Hsig as <-.
  destruct (Hkey name eq_refl) as (cc & Hin & Hck).
  apply list_elem_of_In, in_map_iff in Hin as (w & <- & Hw%list_elem_of_In). simpl in Hck. subst w.
  destruct (HT _ _ _ Hvs Hw) as (fields & formals & Hf).
  unfold variant_count, ctor_adt in Hcount. rewrite Hf in Hcount. cbn [mbind option_bind] in Hcount.
  rewrite Hvs in Hcount. destruct variants as [|w [|w' ws]]; [by apply not_elem_of_nil in Hw| |].
  - apply list_elem_of_singleton in Hw as ->. by eexists.
  - by destruct (Hcount (length ws)).
Qed.

Lemma vouches_ctor s T name args :
  tables_ok T → Forall (vouches s T) args → vouches s T (Pattern.Ctor name args).
Proof.
  intros HT Hargs c t' Hc Hs. cbn [pattern_refutable].
  destruct (first_refutable_vouches s T args c (replicate (length args) Ty.Unit)) as (r & Hr & Hsound); [done..|].
  assert ((∀ m, variant_count T (ctor_adt T name) ≠ Some (S (S m))) → r = None → ∀ t v,
    stands_for s t' t → pat_ok s T t (Pattern.Ctor name args) → typed s T t v →
    matches (Pattern.Ctor name args) v = true) as Hgo.
  { intros Hcount Hnone t v Hst Hok Hty. destruct (ctor_single _ _ _ _ _ HT Hok Hcount) as [ts Hsig].
    assert (specialize_head (Pattern.Ctor name args) {| ctor_key := name; ctor_args := ts |} = Some args) as Ha.
    { simpl. by rewrite String.eqb_refl. }
    pose proof (pat_ok_args _ _ _ _ _ _ _ Hok Hsig ltac:(by left) Ha) as Hpa. simpl in Hpa.
    eapply only_ctor; [done|done|done|done|done|]. intros fields Hfl.
    eapply Hsound; [done| |done|done]. apply Forall2_length in Hpa as <-. apply stands_units. }
  destruct (variant_count T (ctor_adt T name)) as [[|[|m]]|] eqn:Ecount.
  3: eexists; split; [by apply reads_ret|done].
  all: exists r; split; [done|]; by apply Hgo.
Qed.

Lemma union_single s T t tag args variants :
  pat_ok s T t (Pattern.AnonCtor tag args) → (length variants ≤ 1)%nat →
  (∃ name targs, res s t = Ty.Named name targs ∧ union_fields name targs = Some variants) →
  signature s T (res s t) = Some [{| ctor_key := "." +:+ tag; ctor_args := tag_fields tag variants |}].
Proof.
  intros Hok Hlen (name & targs & Ht & Hun). destruct (pat_ok_head _ _ _ _ Hok) as (cs & Hsig & _ & Hkey); [done..|].
  rewrite Ht in Hsig |- *. cbn [signature] in Hsig |- *. rewrite Hun in Hsig |- *. injection Hsig as <-.
  destruct (Hkey _ eq_refl) as (c & Hin & Hc). destruct variants as [|[tag' fields] [|]]; simpl in *; [|clear Hlen|lia].
  { by apply not_elem_of_nil in Hin. }
  apply list_elem_of_singleton in Hin as ->. simpl in Hc. injection Hc as Hc.
  change (tag' = tag) in Hc. subst tag'.
  unfold tag_fields. simpl. by rewrite String.eqb_refl.
Qed.

Lemma vouches_anon s T tag args :
  Forall (vouches s T) args → vouches s T (Pattern.AnonCtor tag args).
Proof.
  intros Hargs c t' Hc Hs. destruct (union_reads t' c Hc) as (c1 & E1 & Hf & Hc1). rewrite Hs in E1.
  cbn [pattern_refutable].
  assert (∀ m r, reads c1 (m (union_of (res s t'))) r →
                 reads c (x ← anon_union_variants_for_ty t'; m x) (r : option string)) as Hbind.
  { intros m r (c2 & E2 & Hf2 & Hc2). exists c2. split_and!; [|by etrans|done].
    unfold mbind, M_bind. rewrite E1. exact E2. }
  destruct (union_of (res s t')) as [[ut variants]|] eqn:Eu.
  2: { eexists. split; [by apply Hbind, reads_ret|done]. }
  destruct (1 <? length variants)%nat eqn:Elen.
  { eexists. split; [apply Hbind; rewrite Elen; by apply reads_ret|done]. }
  destruct (first_refutable_vouches s T args c1 (tag_fields tag variants)) as (r & Hr & Hsound);
    [done|done|by rewrite (same_subst _ _ Hf)|].
  exists r. split; [apply Hbind; rewrite Elen; exact Hr|]. intros -> t v Hst Hok Hty.
  destruct Hst as [->|Heq]; [by rewrite res_node in Eu|]. rewrite Heq in Eu.
  apply Nat.ltb_ge in Elen.
  assert (signature s T (res s t) = Some [{| ctor_key := "." +:+ tag; ctor_args := tag_fields tag variants |}]) as Hsig.
  { eapply union_single; [done|done|]. unfold union_of in Eu. destruct (res s t) as []; try done.
    destruct (union_fields name args0) as [out|] eqn:Eun; [|done]. injection Eu as <- <-. eauto. }
  assert (specialize_head (Pattern.AnonCtor tag args)
            {| ctor_key := "." +:+ tag; ctor_args := tag_fields tag variants |} = Some args) as Ha.
  { cbn [specialize_head ctor_key]. by rewrite String.eqb_refl. }
  pose proof (pat_ok_args _ _ _ _ _ _ _ Hok Hsig ltac:(by left) Ha) as Hpa. simpl in Hpa.
  eapply only_ctor; [done|done|done|done|done|]. intros fields Hfl.
  eapply Hsound; [done|apply stands_same|done|done].
Qed.

Lemma all_vouch s T p : acyclic s → tables_ok T → vouches s T p.
Proof.
  intros Hac HT. induction p as [p IH] using pattern_nested_ind. destruct p; simpl in IH.
  all: try (intros c t' Hc Hs; eexists; split; [by apply reads_ret|done]).
  - by apply vouches_ctor.
  - by apply vouches_anon.
  - by apply vouches_tuple.
Qed.

(** The check of an irrefutable context always answers, and a pattern it does
    not report matches every value of its type, in any environment. *)
Theorem irrefutable_patterns_match T p t c :
  ready c → tables_ok T →
  ∃ r, reads c (pattern_refutable T p t) r ∧
       (r = None → pat_ok (subst c) T t p →
        ∀ v env, typed (subst c) T t v → fst (match_pattern p v env) = true).
Proof.
  intros Hc HT. destruct (all_vouch (subst c) T p (ready_acyclic _ Hc) HT c t Hc eq_refl) as (r & Hr & H).
  exists r. split; [done|]. intros Hn Hok v env Hv. rewrite match_pattern_matches. eapply H; [done|by right|done|done].
Qed.

(** [let P(a, _) = ...] at a type with the single variant [P]. *)
Lemma irrefutable_patterns_match_witness :
  ∃ r, reads new_checker
         (pattern_refutable pair_tables (Pattern.Ctor "P" [Pattern.Var "a"; Pattern.Wildcard]) (Ty.Named "P" [])) r
       ∧ (r = None → pat_ok ∅ pair_tables (Ty.Named "P" []) (Pattern.Ctor "P" [Pattern.Var "a"; Pattern.Wildcard]) →
          ∀ v env, typed ∅ pair_tables (Ty.Named "P" []) v →
                   fst (match_pattern (Pattern.Ctor "P" [Pattern.Var "a"; Pattern.Wildcard]) v env) = true).
Proof.
  apply (irrefutable_patterns_match pair_tables (Pattern.Ctor "P" [Pattern.Var "a"; Pattern.Wildcard])
           (Ty.Named "P" []) new_checker).
  - apply session_ready. constructor.
  - intros adt vs v H Hv. unfold pair_tables in H. cbn [adt_variants] in H. apply lookup_singleton_Some in H as [<- <-]. apply list_elem_of_singleton in Hv as ->.
    by exists [Ty.Bool; Ty.Bool], [].
Defined.

Example pair_pattern_irrefutable :
  snd (pattern_refutable pair_tables (Pattern.Ctor "P" [Pattern.Var "a"; Pattern.Wildcard]) (Ty.Named "P" []) new_checker)
  = Done None.
Proof. by vm_compute. Qed.
