(* ===== verification/SafeWir.v ===== *)
(** * SafeWir: the intermediate representation

    Models the functions of [crates/witchy-wir/src/canonical_safewir.rs] (the
    control-flow graph of a function in static single assignment form) and,
    of [canonical_safewir/check.rs], what a function defines and uses:
    [operation_destinations], [operation_uses], [terminator_uses],
    [successors], [definition_sites], [check_value_definitions] and
    [predecessor_map].

    Identifiers are numbers.  The operations of closures and dictionaries are
    carried with the values they define and use. *)

From S2P Require Import Prelude.

Abbreviation ValueId := N (only parsing).
Abbreviation BlockId := N (only parsing).
Abbreviation LayoutId := N (only parsing).

Module ValueType.
Inductive t : Set :=
  | Int | Float | Bool | Unit | Size | V128
  | InlineAggregate (layout : LayoutId)
  | Ref (layout : LayoutId)
  | Gc (type : N)
  | Capability (kind : N)
  | NullableCapability (kind : N)
  | Callable (signature : N).
End ValueType.
Abbreviation ValueType := ValueType.t.

#[export] Instance value_type_eq_dec : EqDecision ValueType.
Proof. solve_decision. Defined.

Inductive ArithmeticOperator : Set :=
  | Add | Subtract | Multiply | DivideSigned | DivideUnsigned | RemainderSigned | RemainderUnsigned
  | BitAnd | BitOr | BitXor | ShiftLeft | ShiftRightSigned | ShiftRightUnsigned.

Inductive OverflowBehavior : Set := Wrap | Trapping.

Inductive FloatUnaryOperator : Set := Sqrt | TruncateToInt | FromInt.

Inductive ComparisonOperator : Set :=
  | Equal | NotEqual | LessSigned | LessUnsigned | LessEqualSigned | LessEqualUnsigned
  | GreaterSigned | GreaterUnsigned | GreaterEqualSigned | GreaterEqualUnsigned.

#[export] Instance comparison_eq_dec : EqDecision ComparisonOperator.
Proof. solve_decision. Defined.

#[export] Instance comparison_countable : Countable ComparisonOperator.
Proof.
  apply (inj_countable
    (λ o, match o with
          | Equal => 0 | NotEqual => 1 | LessSigned => 2 | LessUnsigned => 3 | LessEqualSigned => 4
          | LessEqualUnsigned => 5 | GreaterSigned => 6 | GreaterUnsigned => 7 | GreaterEqualSigned => 8
          | GreaterEqualUnsigned => 9
          end)
    (λ n, match n with
          | 0 => Some Equal | 1 => Some NotEqual | 2 => Some LessSigned | 3 => Some LessUnsigned
          | 4 => Some LessEqualSigned | 5 => Some LessEqualUnsigned | 6 => Some GreaterSigned
          | 7 => Some GreaterUnsigned | 8 => Some GreaterEqualSigned | 9 => Some GreaterEqualUnsigned
          | _ => None
          end)%nat).
  by intros [].
Defined.

Inductive Extent : Set :=
  | FixedBytes (bytes : N)
  | HeaderPrefix (minimum_bytes : N)
  | Counted (header_bytes : N) (count capacity : ValueId) (stride_bytes : N).

Inductive Ownership : Set := Unique | Shared | Consumed.
Inductive AllocationClass : Set := Bump | ReferenceCounted | Scratch.
Inductive AccessMode : Set := Read | Write.
Inductive HeaderField : Set := Length | Capacity.

Inductive Projection : Set :=
  | Header (field : HeaderField)
  | Field (index : N)
  | Element (index : ValueId)
  | Slice (start length : ValueId).

Record Place : Set := {
  object : ValueId;
  projection : Projection;
  place_type : ValueType;
  access : AccessMode;
}.

Inductive GuardKind : Set := Bounds | Arithmetic | NonNull | DynamicType.

Inductive LoadTransfer : Set :=
  | LoadCopyScalar | LoadCloneShared | BorrowAffine | ClonePresent | TakeLast | TakeNullableUnique
  | TakeOwnedField | LoadMoveUnique.

Inductive StoreTransfer : Set :=
  | StoreCopyScalar | StoreCloneShared | StoreMoveUnique | ReplaceCloneShared | ReplaceMoveUnique.

Definition replaces_owned (t : StoreTransfer) : bool :=
  match t with ReplaceCloneShared | ReplaceMoveUnique => true | _ => false end.

Inductive CallArgument : Set := CallValue (value : ValueId) | Move (value : ValueId).

Inductive HostBufferExtent : Set := BufferSlice | Exact (bytes : N) | AtLeast (bytes : N) | Unknown.

Inductive HostCallArgument : Set :=
  | HostValue (value : ValueId)
  | HostCapability (value : ValueId)
  | Buffer (place : Place) (extent : HostBufferExtent).

(** An operation carried whole, with what it defines and uses. *)
Record Carried : Set := { code : N; carried_destinations : list ValueId; carried_operands : list ValueId }.

Module Operation.
Inductive t : Set :=
  | ClosureOwner (owner : Carried)
  | Dictionary (dictionary : Carried)
  | ConstUnit (destination : ValueId)
  | ConstInt (destination : ValueId) (value : Z)
  | ConstFloat (destination : ValueId) (bits : N)
  | ConstBool (destination : ValueId) (value : bool)
  | ConstSize (destination : ValueId) (value : N)
  | CapabilityNone (destination : ValueId) (kind : N)
  | CapabilitySome (destination source : ValueId)
  | CapabilityIsPresent (destination source : ValueId)
  | CapabilityUnwrap (destination source : ValueId)
  | Arithmetic (destination : ValueId) (operator : ArithmeticOperator) (left right : ValueId)
      (overflow : OverflowBehavior)
  | Compare (destination : ValueId) (operator : ComparisonOperator) (left right : ValueId)
  | NarrowSize (destination value : ValueId) (exact : bool)
  | WidenSize (destination value : ValueId)
  | FloatUnary (destination : ValueId) (operator : FloatUnaryOperator) (value : ValueId)
  | Guard (condition : ValueId) (kind : GuardKind)
  | ReauthenticateRawHeaderExtent (object header : ValueId)
  | Alloc (destination : ValueId) (layout : LayoutId) (extent : Extent) (class : AllocationClass)
  | StaticData (destination : ValueId) (layout : LayoutId) (extent : Extent) (data : N)
  | Load (destination : ValueId) (place : Place) (transfer : LoadTransfer)
  | InitNullableOwned (place : Place)
  | Store (place : Place) (value : ValueId) (transfer : StoreTransfer)
  | CopyBytes (destination source : Place) (length : ValueId)
  | MoveRange (destination source : Place) (count : ValueId)
  | CloneRange (destination source : Place) (count : ValueId)
  | UpdateCount (object count : ValueId)
  | MoveValue (destination source : ValueId)
  | MakeInlineAggregate (destination : ValueId) (layout : LayoutId) (fields : list ValueId)
  | ExtractInlineField (destination aggregate : ValueId) (index : N)
  | CloneRef (destination source : ValueId)
  | Retain (object : ValueId)
  | Release (object : ValueId)
  | DropRef (object : ValueId)
  | Reclaim (object : ValueId)
  | FunctionValue (destination : ValueId) (function : N)
  | Call (destinations : list ValueId) (callee : N) (arguments : list CallArgument)
  | VarCall (destinations : list ValueId) (callee : ValueId) (signature : N) (arguments : list CallArgument)
  | ExternalCall (destinations : list ValueId) (import : N) (arguments : list CallArgument)
  | HostCall (destinations : list ValueId) (import : N) (arguments : list HostCallArgument).
End Operation.
Abbreviation Operation := Operation.t.

Module Terminator.
Inductive t : Set :=
  | Branch (target : BlockId) (arguments : list ValueId)
  | BranchIf (condition : ValueId) (then_target : BlockId) (then_arguments : list ValueId)
      (else_target : BlockId) (else_arguments : list ValueId)
  | Return (values : list ValueId)
  | TailCall (site : N) (callee : N) (arguments : list CallArgument)
  | VarTailCall (site : N) (callee : ValueId) (signature : N) (arguments : list CallArgument)
  | Trap
  | Unreachable.
End Terminator.
Abbreviation Terminator := Terminator.t.

Record BlockParameter : Set := {
  parameter : ValueId;
  parameter_type : ValueType;
  ownership : option Ownership;
}.

Record BasicBlock : Set := {
  block_id : BlockId;
  parameters : list BlockParameter;
  operations : list Operation;
  terminator : Terminator;
}.

Record Function : Type := {
  function_id : N;
  function_signature : N;
  entry : BlockId;
  value_types : gmap ValueId ValueType;
  blocks : list BasicBlock;
}.

#[export] Instance header_field_eq_dec : EqDecision HeaderField.
Proof. solve_decision. Defined.
#[export] Instance projection_eq_dec : EqDecision Projection.
Proof. solve_decision. Defined.
#[export] Instance access_mode_eq_dec : EqDecision AccessMode.
Proof. solve_decision. Defined.
#[export] Instance place_eq_dec : EqDecision Place.
Proof. solve_decision. Defined.
#[export] Instance carried_eq_dec : EqDecision Carried.
Proof. solve_decision. Defined.
#[export] Instance call_argument_eq_dec : EqDecision CallArgument.
Proof. solve_decision. Defined.
#[export] Instance host_buffer_extent_eq_dec : EqDecision HostBufferExtent.
Proof. solve_decision. Defined.
#[export] Instance host_call_argument_eq_dec : EqDecision HostCallArgument.
Proof. solve_decision. Defined.
#[export] Instance extent_eq_dec : EqDecision Extent.
Proof. solve_decision. Defined.
#[export] Instance ownership_eq_dec : EqDecision Ownership.
Proof. solve_decision. Defined.
#[export] Instance allocation_class_eq_dec : EqDecision AllocationClass.
Proof. solve_decision. Defined.
#[export] Instance arithmetic_operator_eq_dec : EqDecision ArithmeticOperator.
Proof. solve_decision. Defined.
#[export] Instance overflow_behavior_eq_dec : EqDecision OverflowBehavior.
Proof. solve_decision. Defined.
#[export] Instance float_unary_operator_eq_dec : EqDecision FloatUnaryOperator.
Proof. solve_decision. Defined.
#[export] Instance guard_kind_eq_dec : EqDecision GuardKind.
Proof. solve_decision. Defined.
#[export] Instance load_transfer_eq_dec : EqDecision LoadTransfer.
Proof. solve_decision. Defined.
#[export] Instance store_transfer_eq_dec : EqDecision StoreTransfer.
Proof. solve_decision. Defined.
#[export] Instance operation_eq_dec : EqDecision Operation.
Proof. solve_decision. Defined.
#[export] Instance terminator_eq_dec : EqDecision Terminator.
Proof. solve_decision. Defined.
#[export] Instance block_parameter_eq_dec : EqDecision BlockParameter.
Proof. solve_decision. Defined.

(** ** Definitions and uses ([check.rs]) *)

Definition operation_destinations (operation : Operation) : list ValueId :=
  match operation with
  | Operation.ClosureOwner owner => carried_destinations owner
  | Operation.Dictionary dictionary => carried_destinations dictionary
  | Operation.ConstInt destination _
  | Operation.ConstFloat destination _
  | Operation.ConstUnit destination
  | Operation.ConstBool destination _
  | Operation.ConstSize destination _
  | Operation.CapabilityNone destination _
  | Operation.CapabilitySome destination _
  | Operation.CapabilityIsPresent destination _
  | Operation.CapabilityUnwrap destination _
  | Operation.Arithmetic destination _ _ _ _
  | Operation.Compare destination _ _ _
  | Operation.NarrowSize destination _ _
  | Operation.WidenSize destination _
  | Operation.FloatUnary destination _ _
  | Operation.Alloc destination _ _ _
  | Operation.StaticData destination _ _ _
  | Operation.Load destination _ _
  | Operation.MoveValue destination _
  | Operation.MakeInlineAggregate destination _ _
  | Operation.ExtractInlineField destination _ _
  | Operation.CloneRef destination _
  | Operation.FunctionValue destination _ => [destination]
  | Operation.Call destinations _ _
  | Operation.VarCall destinations _ _ _
  | Operation.ExternalCall destinations _ _
  | Operation.HostCall destinations _ _ => destinations
  | Operation.Guard _ _
  | Operation.InitNullableOwned _
  | Operation.Store _ _ _
  | Operation.CopyBytes _ _ _
  | Operation.MoveRange _ _ _
  | Operation.CloneRange _ _ _
  | Operation.UpdateCount _ _
  | Operation.ReauthenticateRawHeaderExtent _ _
  | Operation.Retain _
  | Operation.Release _
  | Operation.DropRef _
  | Operation.Reclaim _ => []
  end.

Definition place_uses (place : Place) : list ValueId :=
  object place ::
  match projection place with
  | Header _ | Field _ => []
  | Element index => [index]
  | Slice start length => [start; length]
  end.

Definition argument_uses (arguments : list CallArgument) : list ValueId :=
  List.map (λ a, match a with CallValue v | Move v => v end) arguments.

Definition host_argument_uses (arguments : list HostCallArgument) : list ValueId :=
  List.flat_map (λ a, match a with
                      | HostValue v | HostCapability v => [v]
                      | Buffer place _ => place_uses place
                      end) arguments.

Definition operation_uses (operation : Operation) : list ValueId :=
  match operation with
  | Operation.ClosureOwner owner => carried_operands owner
  | Operation.Dictionary dictionary => carried_operands dictionary
  | Operation.ConstInt _ _
  | Operation.ConstFloat _ _
  | Operation.ConstUnit _
  | Operation.ConstBool _ _
  | Operation.ConstSize _ _
  | Operation.CapabilityNone _ _
  | Operation.Alloc _ _ _ _
  | Operation.StaticData _ _ _ _
  | Operation.FunctionValue _ _ => []
  | Operation.Arithmetic _ _ l r _
  | Operation.Compare _ _ l r => [l; r]
  | Operation.NarrowSize _ value _
  | Operation.WidenSize _ value
  | Operation.FloatUnary _ _ value
  | Operation.Guard value _
  | Operation.MoveValue _ value
  | Operation.CloneRef _ value
  | Operation.Retain value
  | Operation.Release value
  | Operation.DropRef value
  | Operation.Reclaim value
  | Operation.CapabilitySome _ value
  | Operation.CapabilityIsPresent _ value
  | Operation.CapabilityUnwrap _ value => [value]
  | Operation.MakeInlineAggregate _ _ fields => fields
  | Operation.ExtractInlineField _ aggregate _ => [aggregate]
  | Operation.Load _ place _ | Operation.InitNullableOwned place => place_uses place
  | Operation.Store place value _ => place_uses place ++ [value]
  | Operation.CopyBytes destination source length
  | Operation.MoveRange destination source length
  | Operation.CloneRange destination source length =>
      place_uses destination ++ place_uses source ++ [length]
  | Operation.UpdateCount object count => [object; count]
  | Operation.ReauthenticateRawHeaderExtent object header => [object; header]
  | Operation.Call _ _ arguments | Operation.ExternalCall _ _ arguments => argument_uses arguments
  | Operation.HostCall _ _ arguments => host_argument_uses arguments
  | Operation.VarCall _ callee _ arguments => callee :: argument_uses arguments
  end.

Definition terminator_uses (terminator : Terminator) : list ValueId :=
  match terminator with
  | Terminator.Branch _ arguments | Terminator.Return arguments => arguments
  | Terminator.BranchIf condition _ then_arguments _ else_arguments =>
      condition :: then_arguments ++ else_arguments
  | Terminator.TailCall _ _ arguments => argument_uses arguments
  | Terminator.VarTailCall _ callee _ arguments => callee :: argument_uses arguments
  | Terminator.Trap | Terminator.Unreachable => []
  end.

Definition successors (terminator : Terminator) : list BlockId :=
  match terminator with
  | Terminator.Branch target _ => [target]
  | Terminator.BranchIf _ then_target _ else_target _ => [then_target; else_target]
  | _ => []
  end.

(** The errors of [InitialCheckError] these checks give, each with its
    function. *)
Inductive InitialCheckError : Set :=
  | DuplicateBlock (function : N) (block : BlockId)
  | DuplicateValue (function : N) (value : ValueId)
  | MissingBlock (function : N) (block : BlockId)
  | MissingValueType (function : N) (value : ValueId)
  | UndeclaredValue (function : N) (value : ValueId)
  | ValueDoesNotDominateUse (function : N) (value : ValueId) (block : BlockId)
  | TypeMismatch (function : N) (value : ValueId) (expected actual : ValueType)
  | UnsupportedScalarOperation (function : N) (operation : string)
  | UnsupportedInlineAggregateControlFlow (function : N)
  | MemoryDataflowNonConvergence (function : N)
  | DuplicateTailObligation (site : N)
  | UnexpectedTailSite (site : N)
  | TailSiteFunctionMismatch (site expected actual : N)
  | TailSiteBlockMismatch (site : N) (expected actual : BlockId).

(** A [BTreeSet] is read in order. *)
Definition ordered (s : gset N) : list N := merge_sort N.le (elements s).

Section index_blocks.
Context (f : N).
Fixpoint index_from (index : gmap BlockId BasicBlock) (bs : list BasicBlock)
  : result InitialCheckError (gmap BlockId BasicBlock) :=
  match bs with
  | [] => Ok index
  | b :: bs =>
      match index !! block_id b with
      | Some _ => Err (DuplicateBlock f (block_id b))
      | None => index_from (<[block_id b := b]> index) bs
      end
  end.

Fixpoint insert_definitions (definitions : gset ValueId) (values : list ValueId)
  : result InitialCheckError (gset ValueId) :=
  match values with
  | [] => Ok definitions
  | v :: values =>
      if bool_decide (v ∈ definitions) then Err (DuplicateValue f v)
      else insert_definitions ({[v]} ∪ definitions) values
  end.
End index_blocks.

Definition index_blocks (f : Function) : result InitialCheckError (gmap BlockId BasicBlock) :=
  index_from (function_id f) ∅ (blocks f).

(** The values a block defines, in the order of the loops. *)
Definition block_definitions (b : BasicBlock) : list ValueId :=
  List.map parameter (parameters b) ++ List.flat_map operation_destinations (operations b).

Definition check_value_definitions (f : Function) : result InitialCheckError unit :=
  definitions ← insert_definitions (function_id f) ∅ (List.flat_map block_definitions (blocks f));
  _ ← match List.find (λ v, negb (bool_decide (is_Some (value_types f !! v)))) (ordered definitions) with
      | Some v => Err (MissingValueType (function_id f) v)
      | None => Ok tt
      end;
  match List.find (λ v, negb (bool_decide (v ∈ definitions))) (ordered (dom (value_types f))) with
  | Some v => Err (UndeclaredValue (function_id f) v)
  | None => Ok tt
  end.

Record DefinitionSite : Set := { site_block : BlockId; operation_index : option nat }.

(** The insertions of [definition_sites], in order; a later one wins. *)
Definition block_sites (b : BasicBlock) : list (ValueId * DefinitionSite) :=
  List.map (λ p, (parameter p, {| site_block := block_id b; operation_index := None |})) (parameters b)
  ++ List.concat (imap (λ i operation,
       List.map (λ d, (d, {| site_block := block_id b; operation_index := Some i |}))
         (operation_destinations operation)) (operations b)).

Definition definition_sites (f : Function) : gmap ValueId DefinitionSite :=
  List.fold_left (λ m vs, <[vs.1 := vs.2]> m) (List.flat_map block_sites (blocks f)) ∅.

Section predecessor_map.
Context (f : N).
Fixpoint insert_predecessors (from : BlockId) (targets : list BlockId) (m : gmap BlockId (gset BlockId))
  : result InitialCheckError (gmap BlockId (gset BlockId)) :=
  match targets with
  | [] => Ok m
  | t :: targets =>
      match m !! t with
      | None => Err (MissingBlock f t)
      | Some incoming => insert_predecessors from targets (<[t := {[from]} ∪ incoming]> m)
      end
  end.

Fixpoint predecessors_from (bs : list BasicBlock) (m : gmap BlockId (gset BlockId))
  : result InitialCheckError (gmap BlockId (gset BlockId)) :=
  match bs with
  | [] => Ok m
  | b :: bs => m ← insert_predecessors (block_id b) (successors (terminator b)) m; predecessors_from bs m
  end.
End predecessor_map.

Definition predecessor_map (f : Function) (index : gmap BlockId BasicBlock)
  : result InitialCheckError (gmap BlockId (gset BlockId)) :=
  predecessors_from (function_id f) (blocks f) ((λ _, ∅) <$> index).

(** ** A sample

    [for i in 0..length { ...a[i]... }]: the header tests [i < length] and
    the body guards it again. *)
Definition loop_body (guards : list Operation) : BasicBlock :=
  {| block_id := 2; parameters := [];
     operations := Operation.Compare 4 LessUnsigned 2 0 :: guards ++
       [Operation.ConstSize 5 1; Operation.Arithmetic 6 Add 2 5 Wrap];
     terminator := Terminator.Branch 1 [6%N] |}.

Definition loop_entry : BasicBlock :=
  {| block_id := 0;
     parameters := [{| parameter := 0; parameter_type := ValueType.Size; ownership := None |}];
     operations := [Operation.ConstSize 1 0]; terminator := Terminator.Branch 1 [1%N] |}.

Definition loop_header : BasicBlock :=
  {| block_id := 1;
     parameters := [{| parameter := 2; parameter_type := ValueType.Size; ownership := None |}];
     operations := [Operation.Compare 3 LessUnsigned 2 0];
     terminator := Terminator.BranchIf 3 2 [] 3 [] |}.

Definition counting_loop (guards : list Operation) : Function :=
  {| function_id := 0; function_signature := 0; entry := 0;
     value_types := list_to_map [(0%N, ValueType.Size); (1%N, ValueType.Size); (2%N, ValueType.Size);
       (3%N, ValueType.Bool); (4%N, ValueType.Bool); (5%N, ValueType.Size); (6%N, ValueType.Size)];
     blocks := [loop_entry; loop_header; loop_body guards;
       {| block_id := 3; parameters := []; operations := []; terminator := Terminator.Return [2%N] |}] |}.

Definition guarded_loop : Function := counting_loop [Operation.Guard 4 Bounds].

(** The sample's blocks by identifier, and their predecessors. *)
Definition loop_index : gmap BlockId BasicBlock :=
  match index_blocks guarded_loop with Ok index => index | Err _ => ∅ end.

Definition loop_predecessors : gmap BlockId (gset BlockId) :=
  match predecessor_map guarded_loop loop_index with Ok m => m | Err _ => ∅ end.
