(* ===== verification/Dominance.v ===== *)
(** * Dominance: definitions reach their uses

    Models [crates/witchy-wir/src/canonical_safewir/check/dominance.rs] (the
    dominator sets as rows of 64-bit words) and [check_uses_dominate] of
    [check.rs].  A loop runs on fuel and running out is [Panic], as is an
    index out of range.

    The theorems: the fixed point is reached, a block the rows call a
    dominator is on every path from the entry. *)

From S2P Require Import Prelude SafeWir.

(** ** Rows of bits *)

Definition word_max : N := 2 ^ 64 - 1.

(** [row[i / 64] & (1 << (i % 64)) != 0] *)
Definition row_bit (row : list N) (i : nat) : bool :=
  N.testbit (default 0%N (row !! (i / 64)%nat)) (N.of_nat (i mod 64)).

(** [row[i / 64] |= 1 << (i % 64)]; out of range panics. *)
Definition set_bit (row : list N) (i : nat) : outcome (list N) :=
  match row !! (i / 64)%nat with
  | Some w => Done (<[(i / 64)%nat := N.lor w (N.shiftl 1 (N.of_nat (i mod 64)))]> row)
  | None => Panic
  end.

Definition row_at (rows : list (list N)) (i : nat) : outcome (list N) :=
  match rows !! i with Some row => Done row | None => Panic end.

Definition words (count : nat) : nat := ((count + 63) / 64)%nat.

(** [vec![u64::MAX; count.div_ceil(64)]] with the last word masked. *)
Definition all_row (count : nat) : list N :=
  let full := replicate (words count) word_max in
  if (count mod 64 =? 0)%nat then full
  else <[(words count - 1)%nat := (N.shiftl 1 (N.of_nat (count mod 64)) - 1)%N]> full.

(** The rows of the predecessors, intersected. *)
Section meet_rows.
Context (rows : list (list N)).
Fixpoint meet_rest (updated : list N) (rest : list nat) : outcome (list N) :=
  match rest with
  | [] => Done updated
  | p :: rest => row ← row_at rows p; meet_rest (zip_with N.land updated row) rest
  end.
End meet_rows.

Definition updated_row (rows : list (list N)) (width : nat) (block : nat) (incoming : list nat)
  : outcome (list N) :=
  updated ← match incoming with
            | first :: rest => row ← row_at rows first; meet_rest rows row rest
            | [] => Done (replicate width 0%N)
            end;
  set_bit updated block.

(** One pass over the blocks. *)
Section solve_pass.
Context (entry width : nat).
Fixpoint solve_pass (block : nat) (predecessors : list (list nat)) (rows : list (list N)) (changed : bool)
  : outcome (list (list N) * bool) :=
  match predecessors with
  | [] => Done (rows, changed)
  | incoming :: predecessors =>
      if (block =? entry)%nat then solve_pass (S block) predecessors rows changed
      else
        updated ← updated_row rows width block incoming;
        row ← row_at rows block;
        if bool_decide (row = updated) then solve_pass (S block) predecessors rows changed
        else solve_pass (S block) predecessors (<[block := updated]> rows) true
  end.
End solve_pass.

Fixpoint solve_loop (n : nat) (entry width : nat) (predecessors : list (list nat)) (rows : list (list N))
  : outcome (list (list N)) :=
  match n with
  | O => Panic
  | S n =>
      '(rows, changed) ← solve_pass entry width 0 predecessors rows false;
      if (changed : bool) then solve_loop n entry width predecessors rows else Done rows
  end.

Definition solve (n : nat) (entry : nat) (predecessors : list (list nat)) : outcome (list (list N)) :=
  let count := length predecessors in
  let width := words count in
  let rows := replicate count (all_row count) in
  _ ← row_at rows entry;
  entry_row ← set_bit (replicate width 0%N) entry;
  solve_loop n entry width predecessors (<[entry := entry_row]> rows).

(** ** [dominators] *)

Record Dominators : Type := { indices : gmap BlockId nat; rows : list (list N) }.

Definition dominates (d : Dominators) (definition use_block : BlockId) : bool :=
  match indices d !! definition, indices d !! use_block with
  | Some definition, Some use_block => row_bit (default [] (rows d !! use_block)) definition
  | _, _ => false
  end.

(** [while let Some(block) = pending.pop()] *)
Fixpoint reach_loop (n : nat) (f : N) (index : gmap BlockId BasicBlock) (pending : list BlockId)
    (reachable : gset BlockId) : outcome (result InitialCheckError (gset BlockId)) :=
  match n with
  | O => Panic
  | S n =>
      match pending with
      | [] => Done (Ok reachable)
      | block :: pending =>
          if bool_decide (block ∈ reachable) then reach_loop n f index pending reachable
          else
            match index !! block with
            | None => Done (Err (MissingBlock f block))
            | Some body =>
                reach_loop n f index (List.rev (successors (terminator body)) ++ pending)
                  ({[block]} ∪ reachable)
            end
      end
  end.

Definition block_indices (keys : list BlockId) : gmap BlockId nat :=
  list_to_map (imap (λ i b, (b, i)) keys).

(** [predecessors.iter().map(|p| indices.get(p)...).collect::<Result<Vec<_>, _>>()?] *)
Definition incoming_row (f : N) (indices : gmap BlockId nat) (preds : gset BlockId)
  : result InitialCheckError (list nat) :=
  mapM (λ p, ok_or (indices !! p) (MissingBlock f p)) (ordered preds).

(** [for block in blocks.keys()]; a block with no predecessor set panics. *)
Section incoming.
Context (f : N) (indices : gmap BlockId nat) (predecessors : gmap BlockId (gset BlockId)).
Fixpoint incoming_rows (keys : list BlockId) : outcome (result InitialCheckError (list (list nat))) :=
  match keys with
  | [] => Done (Ok [])
  | block :: keys =>
      match predecessors !! block with
      | None => Panic
      | Some preds =>
          match incoming_row f indices preds with
          | Err e => Done (Err e)
          | Ok row =>
              rest ← incoming_rows keys;
              Done (row' ← rest; Ok (row :: row'))
          end
      end
  end.
End incoming.

Definition dominators (n : nat) (f : Function) (index : gmap BlockId BasicBlock)
    (predecessors : gmap BlockId (gset BlockId)) : outcome (result InitialCheckError Dominators) :=
  reached ← reach_loop n (function_id f) index [entry f] ∅;
  match reached with
  | Err e => Done (Err e)
  | Ok _ =>
      let keys := ordered (dom index) in
      let indices := block_indices keys in
      incoming ← incoming_rows (function_id f) indices predecessors keys;
      match incoming with
      | Err e => Done (Err e)
      | Ok incoming =>
          match indices !! entry f with
          | None => Panic
          | Some e => rows ← solve n e incoming; Done (Ok {| indices := indices; rows := rows |})
          end
      end
  end.

(** ** [check_uses_dominate] *)

Section uses.
Context (f : N) (use_block : BlockId) (use_operation_index : nat).
Context (definitions : gmap ValueId DefinitionSite) (d : Dominators).
Fixpoint check_uses_dominate (uses : list ValueId) : result InitialCheckError unit :=
  match uses with
  | [] => Ok tt
  | value :: uses =>
      definition ← ok_or (definitions !! value) (UndeclaredValue f value);
      let ok := if (site_block definition =? use_block)%N
                then match operation_index definition with
                     | None => true
                     | Some i => (i <? use_operation_index)%nat
                     end
                else dominates d (site_block definition) use_block in
      fail_if (negb ok) (ValueDoesNotDominateUse f value use_block);;
      check_uses_dominate uses
  end.
End uses.

(** The dominance part of [check_block_flow]. *)
Definition check_block_uses (f : N) (definitions : gmap ValueId DefinitionSite) (d : Dominators)
    (b : BasicBlock) : result InitialCheckError unit :=
  _ ← mapM (λ '(i, operation), check_uses_dominate f (block_id b) i definitions d (operation_uses operation))
        (imap pair (operations b));
  check_uses_dominate f (block_id b) (length (operations b)) definitions d (terminator_uses (terminator b)).

(** ** Bits *)

Lemma index_split i j : (i / 64 = j / 64 → i mod 64 = j mod 64 → i = j)%nat.
Proof. intros Hd Hm. rewrite (Nat.div_mod_eq i 64), (Nat.div_mod_eq j 64). by rewrite Hd, Hm. Qed.

Lemma row_bit_land u r i : row_bit (zip_with N.land u r) i = row_bit u i && row_bit r i.
Proof.
  unfold row_bit. rewrite lookup_zip_with.
  destruct (u !! (i / 64)%nat) as [a|], (r !! (i / 64)%nat) as [b|]; simpl.
  - apply N.land_spec.
  - by rewrite andb_false_r.
  - done.
  - done.
Qed.

Lemma row_bit_zero width i : row_bit (replicate width 0%N) i = false.
Proof.
  unfold row_bit. destruct (replicate width 0%N !! _) as [w|] eqn:E; simpl; [|done].
  by apply lookup_replicate in E as [-> _].
Qed.

Lemma set_bit_spec row b row' i :
  set_bit row b = Done row' → row_bit row' i = row_bit row i || bool_decide (i = b).
Proof.
  unfold set_bit, row_bit. destruct (row !! (b / 64)%nat) as [w|] eqn:E; [|done]. intros [= <-].
  destruct (decide (i / 64 = b / 64)%nat) as [Hd|Hd].
  - rewrite Hd, list_lookup_insert_eq by by eapply lookup_lt_Some. rewrite E. simpl.
    rewrite N.lor_spec. f_equal. rewrite N.shiftl_1_l, N.pow2_bits_eqb. apply eq_bool_prop_intro.
    rewrite Is_true_true, N.eqb_eq, bool_decide_spec. split.
    + intros H. apply index_split; [done|]. by apply Nat2N.inj in H.
    + by intros ->.
  - rewrite list_lookup_insert_ne by done. rewrite bool_decide_eq_false_2 by congruence. by rewrite orb_false_r.
Qed.

Lemma meet_rest_spec rows u rest u' :
  meet_rest rows u rest = Done u' →
  ∀ i, row_bit u' i = true ↔ row_bit u i = true ∧ ∀ p, p ∈ rest → ∃ r, rows !! p = Some r ∧ row_bit r i = true.
Proof.
  revert u. induction rest as [|p rest IH]; intros u; simpl.
  - intros [= <-] i. split; [|by intros [? _]]. intros H. split; [done|]. by intros p Hp%not_elem_of_nil.
  - unfold row_at. destruct (rows !! p) as [r|] eqn:E; simpl; [|done]. intros H i.
    rewrite (IH _ H), row_bit_land, andb_true_iff. split.
    + intros [[Hu Hr] Hall]. split; [done|]. intros q [->|Hq]%elem_of_cons; [by exists r|by apply Hall].
    + intros [Hu Hall]. split; [split; [done|]|].
      * destruct (Hall p) as (r' & E' & Hr); [by left|]. by simplify_eq.
      * intros q Hq. apply Hall. by right.
Qed.

(** A block's row: itself, and what all its predecessors' rows share. *)
Lemma updated_row_spec rows width b incoming row i :
  updated_row rows width b incoming = Done row →
  row_bit row i = true ↔
  i = b ∨ incoming ≠ [] ∧ ∀ p, p ∈ incoming → ∃ r, rows !! p = Some r ∧ row_bit r i = true.
Proof.
  unfold updated_row. intros H.
  destruct (match incoming with [] => _ | _ => _ end) as [u| |] eqn:Eu; [|done|done].
  cbn [mbind outcome_bind] in H. rewrite (set_bit_spec _ _ _ i H), orb_true_iff, bool_decide_eq_true.
  rewrite (Logic.or_comm _ (i = b)). apply or_iff_compat_l. destruct incoming as [|p rest].
  - injection Eu as <-. rewrite row_bit_zero. split; [done|]. by intros [? _].
  - unfold row_at in Eu. destruct (rows !! p) as [r|] eqn:E; [|done]. cbn [mbind outcome_bind] in Eu.
    rewrite (meet_rest_spec _ _ _ _ Eu). split.
    + intros [Hr Hall]. split; [done|]. intros q [->|Hq]%elem_of_cons; [by exists r|by apply Hall].
    + intros [_ Hall]. split; [|intros q Hq; apply Hall; by right].
      destruct (Hall p) as (r' & E' & Hr); [by left|]. by simplify_eq.
Qed.

Lemma all_row_bit count i : (i < count)%nat → row_bit (all_row count) i = true.
Proof.
  intros Hi. unfold row_bit, all_row, words.
  assert (i / 64 < (count + 63) / 64)%nat as Hw.
  { apply Nat.Div0.div_lt_upper_bound. pose proof (Nat.div_mod_eq (count + 63) 64).
    pose proof (Nat.mod_upper_bound (count + 63) 64). lia. }
  assert (N.testbit word_max (N.of_nat (i mod 64)) = true) as Hmax.
  { unfold word_max. change (2 ^ 64 - 1)%N with (N.ones 64). apply N.ones_spec_low.
    pose proof (Nat.mod_upper_bound i 64). lia. }
  destruct (count mod 64 =? 0)%nat eqn:E.
  { rewrite lookup_replicate_2 by done. exact Hmax. }
  destruct (decide (i / 64 = (count + 63) / 64 - 1)%nat) as [Hd|Hd].
  - rewrite <- Hd, list_lookup_insert_eq by by rewrite length_replicate.
    change (default 0%N (Some ?w)) with w. rewrite N.shiftl_1_l, N.sub_1_r, <- N.ones_equiv. apply N.ones_spec_low.
    apply Nat.eqb_neq in E. pose proof (Nat.div_mod_eq i 64). pose proof (Nat.div_mod_eq count 64).
    pose proof (Nat.mod_upper_bound i 64). pose proof (Nat.mod_upper_bound count 64).
    assert ((count + 63) / 64 = count / 64 + 1)%nat as Hq.
    { symmetry. apply (Nat.div_unique _ 64 _ (count mod 64 - 1)); lia. }
    rewrite Hq in Hd. assert (i mod 64 < count mod 64)%nat as Hlt.
    { clear -H H0 Hd Hi. generalize dependent (i mod 64)%nat. generalize dependent (count mod 64)%nat.
      generalize dependent (i / 64)%nat. generalize dependent (count / 64)%nat. lia. }
    revert Hlt. generalize (i mod 64)%nat (count mod 64)%nat. lia.
  - rewrite list_lookup_insert_ne by lia. rewrite lookup_replicate_2 by done. exact Hmax.
Qed.

(** ** The fixed point *)

(** Bitwise inclusion. *)
Definition sub (a b : N) : Prop := N.land a b = a.
Definition row_sub : list N → list N → Prop := Forall2 sub.
Definition rows_sub : list (list N) → list (list N) → Prop := Forall2 row_sub.

#[export] Instance sub_preorder : PreOrder sub.
Proof.
  split; unfold sub; [intros a; apply N.land_diag|]. intros a b c Hab Hbc.
  by rewrite <- Hab, <- N.land_assoc, Hbc.
Qed.

Lemma sub_land a b c d : sub a c → sub b d → sub (N.land a b) (N.land c d).
Proof.
  unfold sub. intros Ha Hb. apply N.bits_inj. intros i.
  apply (f_equal (λ x, N.testbit x i)) in Ha, Hb. rewrite !N.land_spec in *.
  by destruct (N.testbit a i), (N.testbit b i), (N.testbit c i), (N.testbit d i).
Qed.

Lemma sub_lor a b m : sub a b → sub (N.lor a m) (N.lor b m).
Proof. unfold sub. intros H. by rewrite <- N.lor_land_distr_l, H. Qed.

Lemma sub_le a b : sub a b → (N.to_nat a ≤ N.to_nat b)%nat.
Proof. unfold sub. intros <-. pose proof (N.land_le_r a b). lia. Qed.

Lemma zip_land_sub a b c d :
  row_sub a c → row_sub b d → row_sub (zip_with N.land a b) (zip_with N.land c d).
Proof.
  intros Hac. revert b d. induction Hac as [|x y a c Hxy _ IH]; intros b d Hbd; [constructor|].
  destruct Hbd; simpl; constructor; [by apply sub_land|by apply IH].
Qed.

Lemma set_bit_sub a b i a' : row_sub a b → set_bit a i = Done a' → ∃ b', set_bit b i = Done b' ∧ row_sub a' b'.
Proof.
  unfold set_bit. intros H. destruct (a !! (i / 64)%nat) as [w|] eqn:E; [|done]. intros [= <-].
  eapply Forall2_lookup_l in H as Hw; [|exact E]. destruct Hw as (v & -> & Hwv). eexists. split; [done|].
  apply Forall2_insert; [done|by apply sub_lor].
Qed.

Lemma meet_rest_sub rows rows' u v rest u' :
  rows_sub rows rows' → row_sub u v → meet_rest rows u rest = Done u' →
  ∃ v', meet_rest rows' v rest = Done v' ∧ row_sub u' v'.
Proof.
  intros H. revert u v. induction rest as [|p rest IH]; intros u v Huv; simpl; [intros [= <-]; eauto|].
  unfold row_at. destruct (rows !! p) as [r|] eqn:E; simpl; [|done]. intros Hu.
  eapply Forall2_lookup_l in H as Hr; [|exact E]. destruct Hr as (r' & -> & Hrr). simpl.
  eapply IH; [|exact Hu]. by apply zip_land_sub.
Qed.

Lemma updated_row_sub rows rows' width b incoming u :
  rows_sub rows rows' → updated_row rows width b incoming = Done u →
  ∃ v, updated_row rows' width b incoming = Done v ∧ row_sub u v.
Proof.
  intros H. unfold updated_row. destruct incoming as [|p rest].
  - simpl. intros Hu. eapply set_bit_sub; [|exact Hu]. apply Forall2_same_length_lookup. split; [done|].
    intros i x y Hx Hy. by simplify_eq.
  - unfold row_at. destruct (rows !! p) as [r|] eqn:E; simpl; [|done].
    eapply Forall2_lookup_l in H as Hr; [|exact E]. destruct Hr as (r' & -> & Hrr). simpl.
    destruct (meet_rest rows r rest) as [w| |] eqn:Ew; simpl; [|done|done]. intros Hu.
    destruct (meet_rest_sub _ _ _ _ _ _ H Hrr Ew) as (w' & -> & Hww). simpl. by eapply set_bit_sub.
Qed.

Definition row_mass (row : list N) : nat := sum_list_with N.to_nat row.
Definition rows_mass (rs : list (list N)) : nat := sum_list_with row_mass rs.

Lemma row_sub_mass a b : row_sub a b → (row_mass a ≤ row_mass b)%nat ∧ (row_mass a = row_mass b → a = b).
Proof.
  unfold row_mass. induction 1 as [|x y a b Hxy _ [IH1 IH2]]; simpl; [done|].
  pose proof (sub_le _ _ Hxy). split; [lia|]. intros He.
  assert (x = y) as -> by (apply N2Nat.inj; lia). f_equal. apply IH2. lia.
Qed.

Lemma rows_mass_insert rs i row new :
  rs !! i = Some row → (rows_mass (<[i := new]> rs) + row_mass row = rows_mass rs + row_mass new)%nat.
Proof.
  unfold rows_mass. revert i. induction rs as [|r rs IH]; intros [|i]; simpl; intros E; simplify_eq; [lia|].
  specialize (IH _ E). lia.
Qed.

Lemma row_sub_refl r : row_sub r r.
Proof. unfold row_sub. induction r; constructor; [reflexivity|done]. Qed.

Lemma row_sub_trans a b c : row_sub a b → row_sub b c → row_sub a c.
Proof.
  unfold row_sub. intros H. revert c. induction H as [|x y a b Hxy _ IH]; intros c Hc; inversion Hc; subst;
    constructor; [by transitivity y|by apply IH].
Qed.

Lemma rows_sub_refl rs : rows_sub rs rs.
Proof. unfold rows_sub. induction rs; constructor; [apply row_sub_refl|done]. Qed.

Lemma rows_sub_insert rs i row new :
  rs !! i = Some row → row_sub new row → rows_sub (<[i := new]> rs) rs.
Proof.
  intros E H. rewrite <- (list_insert_id rs i row E) at 2. apply Forall2_insert; [|done]. apply rows_sub_refl.
Qed.

(** One pass and the loop, for the rows that satisfy [good]: rows of one
    width, one for each block. *)
Section fixed_point.
Context (entry width : nat) (predecessors : list (list nat)).
Hypothesis blocks_fit : (length predecessors ≤ width * 64)%nat.
Hypothesis predecessors_fit : Forall (Forall (λ p, p < length predecessors)%nat) predecessors.

Definition good (rs : list (list N)) : Prop :=
  length rs = length predecessors ∧ Forall (λ r, length r = width) rs.

Lemma good_lookup rs i : good rs → (i < length predecessors)%nat → ∃ r, rs !! i = Some r ∧ length r = width.
Proof using Type.
  clear blocks_fit. intros [Hl Hw] Hi. destruct (lookup_lt_is_Some_2 rs i) as [r Hr]; [lia|]. exists r. split; [done|].
  by apply (Forall_lookup_1 _ _ _ _ Hw Hr).
Qed.

Lemma set_bit_total r i :
  length r = width → (i < length predecessors)%nat → ∃ r', set_bit r i = Done r' ∧ length r' = width.
Proof.
  intros Hl Hi. unfold set_bit. destruct (lookup_lt_is_Some_2 r (i / 64)) as [w ->].
  { rewrite Hl. apply Nat.Div0.div_lt_upper_bound. lia. }
  eexists. split; [done|]. by rewrite length_insert.
Qed.

Lemma meet_rest_total rs u rest :
  good rs → length u = width → Forall (λ p, p < length predecessors)%nat rest →
  ∃ u', meet_rest rs u rest = Done u' ∧ length u' = width.
Proof.
  intros Hg. revert u. induction rest as [|p rest IH]; intros u Hu; simpl; [by eauto|].
  intros [Hp Hrest]%Forall_cons_1. destruct (good_lookup rs p Hg Hp) as (r & E & Hr).
  unfold row_at. rewrite E. simpl. apply IH; [|done]. rewrite length_zip_with. lia.
Qed.

Lemma updated_row_total rs i incoming :
  good rs → predecessors !! i = Some incoming →
  ∃ u, updated_row rs width i incoming = Done u ∧ length u = width.
Proof.
  intros Hg E. pose proof (lookup_lt_Some _ _ _ E) as Hi.
  pose proof (Forall_lookup_1 _ _ _ _ predecessors_fit E) as Hin. unfold updated_row.
  destruct incoming as [|p rest]; simpl.
  { apply set_bit_total; [|done]. apply length_replicate. }
  apply Forall_cons_1 in Hin as [Hp Hrest]. destruct (good_lookup rs p Hg Hp) as (r & Er & Hr).
  unfold row_at. rewrite Er. simpl. destruct (meet_rest_total rs r rest Hg Hr Hrest) as (u & -> & Hu).
  by apply set_bit_total.
Qed.

Lemma good_insert rs i u : good rs → length u = width → good (<[i := u]> rs).
Proof. intros [Hl Hw] Hu. split; [by rewrite length_insert|]. by apply Forall_insert. Qed.

(** The rows never grow: each is at least what its predecessors give. *)
Definition shrinking (rs : list (list N)) : Prop :=
  ∀ i incoming u row, i ≠ entry → predecessors !! i = Some incoming →
    updated_row rs width i incoming = Done u → rs !! i = Some row → row_sub u row.

(** Each row is what its predecessors give. *)
Definition solved (rs : list (list N)) : Prop :=
  ∀ i incoming, i ≠ entry → predecessors !! i = Some incoming →
    ∃ u, updated_row rs width i incoming = Done u ∧ rs !! i = Some u.

Lemma shrinking_insert rs i incoming u :
  shrinking rs → i ≠ entry → predecessors !! i = Some incoming → updated_row rs width i incoming = Done u →
  good rs → shrinking (<[i := u]> rs).
Proof.
  intros Hs Hi Ei Eu Hg. destruct (good_lookup rs i Hg) as (row & Er & _); [by eapply lookup_lt_Some|].
  pose proof (rows_sub_insert rs i row u Er (Hs i incoming u row Hi Ei Eu Er)) as Hsub.
  intros j inc v r Hj Ej Ev E. destruct (updated_row_sub _ _ _ _ _ _ Hsub Ev) as (v' & Ev' & Hv).
  destruct (decide (i = j)) as [<-|Hne].
  - rewrite list_lookup_insert_eq in E by (eapply lookup_lt_Some, Er). injection E as <-.
    rewrite Ei in Ej. injection Ej as <-. rewrite Eu in Ev'. by injection Ev' as <-.
  - rewrite list_lookup_insert_ne in E by done. pose proof (Hs j inc v' r Hj Ej Ev' E) as H'.
    eapply row_sub_trans; [exact Hv|exact H'].
Qed.

(** A pass keeps what every update keeps; a pass that changes nothing has the
    fixed point, and one that changes something makes the rows smaller. *)
Section invariant.
Context (Q : list (list N) → Prop).
Hypothesis Q_step : ∀ rs i incoming u, good rs → Q rs → i ≠ entry → predecessors !! i = Some incoming →
  updated_row rs width i incoming = Done u → Q (<[i := u]> rs).

Definition kept (rs : list (list N)) : Prop := good rs ∧ shrinking rs ∧ Q rs.

Lemma solve_pass_spec k rest rs changed :
  kept rs → drop k predecessors = rest →
  ∃ rs' c, solve_pass entry width k rest rs changed = Done (rs', c) ∧ kept rs' ∧
    (rows_mass rs' ≤ rows_mass rs)%nat ∧
    (c = changed ∧ rs' = rs ∧
       (∀ i incoming, (k ≤ i)%nat → i ≠ entry → predecessors !! i = Some incoming →
          ∃ u, updated_row rs width i incoming = Done u ∧ rs !! i = Some u)
     ∨ c = true ∧ (rows_mass rs' < rows_mass rs)%nat).
Proof.
  revert k rs changed. induction rest as [|incoming rest IH]; intros k rs changed Hk Hd; simpl.
  { exists rs, changed. split; [done|]. split; [done|]. split; [done|]. left. split; [done|]. split; [done|].
    intros i inc Hi _ E. apply lookup_lt_Some in E. apply (f_equal length) in Hd. rewrite length_drop in Hd.
    simpl in Hd. lia. }
  assert (predecessors !! k = Some incoming) as Ek.
  { rewrite <- (Nat.add_0_r k), <- lookup_drop, Hd. done. }
  assert (drop (S k) predecessors = rest) as Hd'.
  { rewrite <- (drop_drop predecessors 1 k) || rewrite <- Nat.add_1_r, <- drop_drop. by rewrite Hd. }
  destruct (Nat.eqb_spec k entry) as [->|Hne].
  { destruct (IH (S entry) rs changed Hk Hd') as (rs' & c & -> & Hk' & Hm & Hc).
    exists rs', c. split; [done|]. split; [done|]. split; [done|].
    destruct Hc as [(-> & -> & Hfix)|Hc]; [left|by right]. split; [done|]. split; [done|].
    intros i inc Hi Hie. apply Hfix; lia. }
  destruct Hk as (Hg & Hs & HQ). destruct (updated_row_total rs k incoming Hg Ek) as (u & Eu & Hu).
  rewrite Eu. simpl. destruct (good_lookup rs k Hg) as (row & Er & _); [by eapply lookup_lt_Some|].
  unfold row_at. rewrite Er. simpl. case_bool_decide as Heq.
  - subst u. destruct (IH (S k) rs changed (conj Hg (conj Hs HQ)) Hd') as (rs' & c & -> & Hk' & Hm & Hc).
    exists rs', c. split; [done|]. split; [done|]. split; [done|].
    destruct Hc as [(-> & -> & Hfix)|Hc]; [left|by right]. split; [done|]. split; [done|].
    intros i inc Hi Hie Ei. destruct (decide (i = k)) as [->|]; [|apply Hfix; [lia|done..]].
    rewrite Ek in Ei. injection Ei as <-. by eauto.
  - assert (kept (<[k := u]> rs)) as Hk1.
    { split; [by apply good_insert|]. split; [by eapply shrinking_insert|by eapply Q_step]. }
    assert (rows_mass (<[k := u]> rs) < rows_mass rs)%nat as Hlt.
    { pose proof (rows_mass_insert rs k row u Er). destruct (row_sub_mass u row) as [Hle Hinj].
      { by eapply Hs. }
      assert (row_mass u ≠ row_mass row) by (intros ?; apply Heq; symmetry; auto). lia. }
    destruct (IH (S k) _ true Hk1 Hd') as (rs' & c & -> & Hk' & Hm & Hc).
    exists rs', c. split; [done|]. split; [done|]. split; [lia|]. right.
    destruct Hc as [(-> & -> & _)|[-> Hc]]; split; [done|lia|done|lia].
Qed.

Lemma solve_loop_spec rs :
  kept rs → ∃ n rs', (∀ m, (n ≤ m)%nat → solve_loop m entry width predecessors rs = Done rs') ∧
    kept rs' ∧ solved rs'.
Proof.
  remember (rows_mass rs) as k eqn:Hm. revert rs Hm. induction (lt_wf k) as [k _ IH]. intros rs -> Hk.
  destruct (solve_pass_spec 0 predecessors rs false Hk eq_refl) as (rs' & c & E & Hk' & _ & Hc).
  destruct Hc as [(-> & -> & Hfix)|[-> Hlt]].
  - exists 1%nat, rs. split; [|split; [done|]].
    + intros [|m] Hm; [lia|]. simpl. by rewrite E.
    + intros i incoming Hi Ei. apply Hfix; [lia|done..].
  - destruct (IH _ Hlt rs' eq_refl Hk') as (n & rs2 & Hn & H2). exists (S n), rs2. split; [|done].
    intros [|m] Hm; [lia|]. simpl. rewrite E. simpl. apply Hn. lia.
Qed.
End invariant.
End fixed_point.

(** ** Walks *)

Section walks.
Context {A : Type} (root : A → Prop) (edge : A → A → Prop).

(** A walk from a root to a block, the last block first. *)
Inductive walk : A → list A → Prop :=
  | walk_root b : root b → walk b [b]
  | walk_step p b w : walk p w → edge p b → walk b (b :: w).

Definition on_every_walk (d b : A) : Prop := ∀ w, walk b w → d ∈ w.
End walks.

Lemma set_bit_present row i w :
  row !! (i / 64)%nat = Some w → row_bit row i = true → set_bit row i = Done row.
Proof.
  unfold set_bit, row_bit. intros E. rewrite E. change (default 0%N (Some w)) with w. intros Hb. f_equal.
  etransitivity; [|apply (list_insert_id row (i / 64) w E)]. f_equal. apply N.bits_inj. intros k.
  rewrite N.lor_spec, N.shiftl_1_l, N.pow2_bits_eqb.
  destruct (N.eqb_spec (N.of_nat (i mod 64)) k) as [<-|]; [by rewrite Hb|by rewrite orb_false_r].
Qed.

Lemma zip_land_diag r : zip_with N.land r r = r.
Proof. induction r as [|x r IH]; simpl; [done|]. by rewrite N.land_diag, IH. Qed.

Lemma meet_rest_same rs r rest u :
  (∀ p row, rs !! p = Some row → row = r) → meet_rest rs r rest = Done u → u = r.
Proof.
  intros H. induction rest as [|p rest IH]; simpl; [by intros [= <-]|]. unfold row_at.
  destruct (rs !! p) as [row|] eqn:E; simpl; [|done]. by rewrite (H _ _ E), zip_land_diag.
Qed.

Lemma zero_row_sub r : row_sub (replicate (length r) 0%N) r.
Proof. unfold row_sub. induction r; simpl; constructor; [|done]. by unfold sub. Qed.

Lemma length_all_row count : length (all_row count) = words count.
Proof. unfold all_row. destruct (_ =? _)%nat; rewrite ?length_insert; apply length_replicate. Qed.

Lemma words_fit count : (count ≤ words count * 64)%nat.
Proof.
  unfold words. pose proof (Nat.div_mod_eq (count + 63) 64).
  pose proof (Nat.mod_upper_bound (count + 63) 64 ltac:(lia)). lia.
Qed.

Section solve.
Context (entry : nat) (predecessors : list (list nat)).
Hypothesis entry_fits : (entry < length predecessors)%nat.
Hypothesis predecessors_fit : Forall (Forall (λ p, p < length predecessors)%nat) predecessors.

Definition index_root (b : nat) : Prop := b = entry ∨ predecessors !! b = Some [].
Definition index_edge (p b : nat) : Prop := ∃ incoming, predecessors !! b = Some incoming ∧ p ∈ incoming.
Abbreviation count := (length predecessors).
Abbreviation everywhere := (on_every_walk index_root index_edge).

Definition start_rows (entry_row : list N) : list (list N) :=
  <[entry := entry_row]> (replicate count (all_row count)).

Lemma full_set_bit i r : (i < count)%nat → set_bit (all_row count) i = Done r → r = all_row count.
Proof.
  intros Hi. destruct (lookup_lt_is_Some_2 (all_row count) (i / 64)) as [w E].
  { rewrite length_all_row. apply Nat.Div0.div_lt_upper_bound. pose proof (words_fit count). lia. }
  rewrite (set_bit_present _ _ w E) by by apply all_row_bit. by intros [= <-].
Qed.

Lemma zero_set_bit i r :
  (i < count)%nat → set_bit (replicate (words count) 0%N) i = Done r → row_sub r (all_row count).
Proof.
  intros Hi E. rewrite <- length_all_row in E.
  destruct (set_bit_sub _ _ _ _ (zero_row_sub (all_row count)) E) as (r' & E' & H).
  by rewrite (full_set_bit i r' Hi E') in H.
Qed.

Lemma start_rows_sub r : row_sub r (all_row count) → rows_sub (start_rows r) (replicate count (all_row count)).
Proof.
  intros H. unfold start_rows. eapply rows_sub_insert; [|exact H]. by apply lookup_replicate_2.
Qed.

Lemma start_shrinking r :
  row_sub r (all_row count) → shrinking entry (words count) predecessors (start_rows r).
Proof.
  intros Hr i incoming u row Hi Ei Eu Erow. pose proof (lookup_lt_Some _ _ _ Ei) as Hlt.
  assert (row = all_row count) as ->.
  { unfold start_rows in Erow. rewrite list_lookup_insert_ne in Erow by done.
    by apply lookup_replicate in Erow as [-> _]. }
  destruct (updated_row_sub _ _ _ _ _ _ (start_rows_sub r Hr) Eu) as (v & Ev & Huv).
  eapply row_sub_trans; [exact Huv|]. clear -Ev Hlt entry_fits. unfold updated_row in Ev. destruct incoming as [|p rest].
  { simpl in Ev. by apply (zero_set_bit i). }
  unfold row_at in Ev. destruct (replicate count (all_row count) !! p) as [r'|] eqn:E; [|done].
  apply lookup_replicate in E as [-> _]. simpl in Ev.
  destruct (meet_rest _ _ rest) as [w| |] eqn:Em; [|done|done]. simpl in Ev.
  apply meet_rest_same in Em as ->; [|by intros q row [-> _]%lookup_replicate].
  rewrite (full_set_bit i v Hlt Ev). apply row_sub_refl.
Qed.

(** What the iteration keeps: the entry's row, and every block that is on
    every walk. *)
Definition covering (rs : list (list N)) : Prop :=
  (∃ r, rs !! entry = Some r ∧ ∀ d, row_bit r d = bool_decide (d = entry)) ∧
  ∀ b d r, (d < count)%nat → everywhere d b → rs !! b = Some r → row_bit r d = true.

Lemma everywhere_predecessor d p b : everywhere d b → d ≠ b → index_edge p b → everywhere d p.
Proof.
  intros H Hne He w Hw. pose proof (H _ (walk_step _ _ _ _ _ Hw He)) as Hin.
  by apply elem_of_cons in Hin as [->|].
Qed.

Lemma covering_step rs i incoming u :
  good (words count) predecessors rs → covering rs → i ≠ entry → predecessors !! i = Some incoming →
  updated_row rs (words count) i incoming = Done u → covering (<[i := u]> rs).
Proof.
  intros Hg [Hentry Hc] Hi Ei Eu. split; [by rewrite list_lookup_insert_ne|].
  intros b d r Hd He Er. destruct (decide (i = b)) as [<-|Hne].
  2:{ rewrite list_lookup_insert_ne in Er by done. by eapply Hc. }
  rewrite list_lookup_insert_eq in Er.
  2:{ destruct Hg as [-> _]. by eapply lookup_lt_Some. }
  injection Er as <-. rewrite (updated_row_spec _ _ _ _ _ _ Eu).
  destruct (decide (d = i)) as [->|Hdi]; [by left|right]. split.
  - intros ->. specialize (He [i]). apply Hdi. apply list_elem_of_singleton, He. constructor. by right.
  - intros p Hp. pose proof (Forall_lookup_1 _ _ _ _ predecessors_fit Ei) as Hfit.
    rewrite list.Forall_forall in Hfit. destruct (good_lookup _ _ rs p Hg (Hfit p Hp)) as (r & Er & _).
    exists r. split; [done|]. eapply Hc; [done| |exact Er]. eapply everywhere_predecessor; [exact He|done|].
    by exists incoming.
Qed.

(** The iteration ends, and its rows hold what is on every walk from a root:
    the entry or a block without predecessors. *)
Lemma solve_exact :
  ∃ n rs, (∀ m, (n ≤ m)%nat → solve m entry predecessors = Done rs) ∧
    ∀ b d, (b < count)%nat → (d < count)%nat →
      ∃ r, rs !! b = Some r ∧ (row_bit r d = true ↔ everywhere d b).
Proof.
  assert (length (replicate (words count) 0%N) = words count) as Hz by apply length_replicate.
  destruct (set_bit_total _ predecessors (words_fit count) _ entry Hz entry_fits) as (er & Eer & Hlen).
  assert (kept entry (words count) predecessors covering (start_rows er)) as Hstart.
  { split; [|split; [by apply start_shrinking, (zero_set_bit entry)|]].
    - split; [unfold start_rows; by rewrite length_insert, length_replicate|].
      unfold start_rows. apply Forall_insert; [|done]. apply Forall_replicate, length_all_row.
    - unfold start_rows. split.
      + exists er. rewrite list_lookup_insert_eq by by rewrite length_replicate. split; [done|].
        intros d. by rewrite (set_bit_spec _ _ _ d Eer), row_bit_zero.
      + intros b d r Hd He Er. destruct (decide (entry = b)) as [<-|Hne].
        * rewrite list_lookup_insert_eq in Er by by rewrite length_replicate. injection Er as <-.
          rewrite (set_bit_spec _ _ _ d Eer), row_bit_zero. simpl. apply bool_decide_eq_true.
          apply list_elem_of_singleton, He. constructor. by left.
        * rewrite list_lookup_insert_ne in Er by done. apply lookup_replicate in Er as [-> _].
          by apply all_row_bit. }
  destruct (solve_loop_spec entry (words count) predecessors (words_fit count) predecessors_fit
              covering covering_step _ Hstart) as (n & rs & Hn & (Hg & _ & (er' & Eer' & Hentry) & Hc) & Hsol).
  exists n, rs. split.
  { intros m Hm. unfold solve, row_at. rewrite lookup_replicate_2 by done. simpl. rewrite Eer. simpl. by apply Hn. }
  intros b d Hb Hd. destruct (good_lookup _ _ rs b Hg Hb) as (r & Er & _). exists r. split; [done|].
  split; [|intros He; by eapply Hc]. intros Hbit w Hw.
  clear Hb. revert r Er Hbit. induction Hw as [b Hroot|p b w Hw IH (incoming & Ei & Hp)]; intros r Er Hbit.
  all: destruct (decide (b = entry)) as [->|Hne];
    [rewrite Er in Eer'; injection Eer' as <-; rewrite Hentry in Hbit; apply bool_decide_eq_true in Hbit as ->; by left|].
  - destruct Hroot as [->|Ei]; [done|]. destruct (Hsol b [] Hne Ei) as (u & Eu & Er'). simplify_eq.
    apply (updated_row_spec _ _ _ _ _ _ Eu) in Hbit as [->|[? _]]; [by left|done].
  - destruct (Hsol b incoming Hne Ei) as (u & Eu & Er'). simplify_eq.
    apply (updated_row_spec _ _ _ _ _ _ Eu) in Hbit as [->|[_ Hall]]; [by left|right].
    destruct (Hall p Hp) as (rp & Ep & Hbp). by apply (IH rp).
Qed.
End solve.

(** ** Blocks by identifier *)

Lemma index_from_spec f bs m m' :
  index_from f m bs = Ok m' →
  ∀ id b, m' !! id = Some b ↔ m !! id = Some b ∨ b ∈ bs ∧ block_id b = id.
Proof.
  revert m. induction bs as [|x bs IH]; intros m; simpl.
  - intros [= <-] id b. split; [by left|]. by intros [?|[?%not_elem_of_nil _]].
  - destruct (m !! block_id x) as [|] eqn:E; [done|]. intros H id b. rewrite (IH _ H), elem_of_cons.
    rewrite lookup_insert_Some. split.
    + intros [[[<- <-]|[? ?]]|[? ?]]; tauto.
    + intros [?|[[->|?] <-]]; [|tauto|tauto]. left. right. split; [|done]. intros <-. congruence.
Qed.

Lemma index_blocks_spec f index :
  index_blocks f = Ok index → ∀ id b, index !! id = Some b ↔ b ∈ blocks f ∧ block_id b = id.
Proof.
  intros H id b. rewrite (index_from_spec _ _ _ _ H), lookup_empty. split; [by intros [?|?]|by right].
Qed.

Lemma index_from_NoDup n bs m m' :
  index_from n m bs = Ok m' → NoDup (List.map block_id bs) ∧ ∀ b, b ∈ bs → m !! block_id b = None.
Proof.
  revert m. induction bs as [|b bs IH]; intros m; simpl.
  - intros _. split; [constructor|]. by intros b ?%not_elem_of_nil.
  - destruct (m !! block_id b) eqn:E; [done|]. intros [Hnd Hnone]%IH. split.
    + constructor; [|done]. intros (b' & He & Hb')%list_elem_of_In%in_map_iff. apply list_elem_of_In in Hb'.
      specialize (Hnone b' Hb'). by rewrite He, lookup_insert_eq in Hnone.
    + intros b' [->|Hb']%elem_of_cons; [done|]. specialize (Hnone b' Hb').
      by apply lookup_insert_None in Hnone as [? _].
Qed.

Lemma ordered_elem (s : gset N) x : x ∈ ordered s ↔ x ∈ s.
Proof. unfold ordered. by rewrite merge_sort_Permutation, elem_of_elements. Qed.

Lemma ordered_NoDup (s : gset N) : NoDup (ordered s).
Proof. unfold ordered. rewrite merge_sort_Permutation. apply NoDup_elements. Qed.

Lemma block_indices_lookup keys b i :
  NoDup keys → block_indices keys !! b = Some i ↔ keys !! i = Some b.
Proof.
  intros Hnd. unfold block_indices. rewrite <- elem_of_list_to_map.
  - rewrite elem_of_lookup_imap. split; [by intros (j & y & [= -> ->] & ?)|by eauto].
  - rewrite fmap_imap. replace (imap _ keys) with keys; [done|].
    clear Hnd. induction keys as [|k keys IH]; simpl; [done|]. f_equal. exact IH.
Qed.

Section predecessors.
Context (f : N) (from : BlockId).

Lemma insert_predecessors_spec targets m m' :
  insert_predecessors f from targets m = Ok m' →
  (∀ t, t ∈ targets → is_Some (m !! t)) ∧
  ∀ b, match m !! b with
       | None => m' !! b = None
       | Some s => ∃ s', m' !! b = Some s' ∧ ∀ p, p ∈ s' ↔ p ∈ s ∨ p = from ∧ b ∈ targets
       end.
Proof.
  revert m. induction targets as [|t targets IH]; intros m; simpl.
  - intros [= <-]. split; [by intros t ?%not_elem_of_nil|]. intros b. destruct (m !! b) as [s|]; [|done].
    exists s. split; [done|]. intros p. split; [by left|]. by intros [?|[_ ?%not_elem_of_nil]].
  - destruct (m !! t) as [s|] eqn:E; [|done]. intros H. destruct (IH _ H) as [IH1 IH2]. split.
    + intros x [->|Hx]%elem_of_cons; [by rewrite E|]. specialize (IH1 x Hx).
      destruct (decide (x = t)) as [->|]; [by rewrite E|]. by rewrite lookup_insert_ne in IH1.
    + intros b. specialize (IH2 b). destruct (decide (t = b)) as [<-|Hne].
      * rewrite lookup_insert_eq in IH2. rewrite E. destruct IH2 as (s' & Es & Hs). exists s'. split; [done|].
        intros p. rewrite Hs, elem_of_union, elem_of_singleton, elem_of_cons. tauto.
      * rewrite lookup_insert_ne in IH2 by done. destruct (m !! b) as [sb|]; [|done].
        destruct IH2 as (s' & Es & Hs). exists s'. split; [done|]. intros p. rewrite Hs, elem_of_cons.
        split; [tauto|]. intros [?|[-> [->|?]]]; tauto.
Qed.
End predecessors.

Lemma predecessors_from_spec f bs m m' :
  predecessors_from f bs m = Ok m' →
  (∀ x t, x ∈ bs → t ∈ successors (terminator x) → is_Some (m !! t)) ∧
  ∀ b, match m !! b with
       | None => m' !! b = None
       | Some s => ∃ s', m' !! b = Some s' ∧
           ∀ p, p ∈ s' ↔ p ∈ s ∨ ∃ x, x ∈ bs ∧ p = block_id x ∧ b ∈ successors (terminator x)
       end.
Proof.
  revert m. induction bs as [|x bs IH]; intros m; simpl.
  - intros [= <-]. split; [by intros x t ?%not_elem_of_nil|]. intros b. destruct (m !! b) as [s|]; [|done].
    exists s. split; [done|]. intros p. split; [by left|]. by intros [?|(x & ?%not_elem_of_nil & _)].
  - destruct (insert_predecessors f (block_id x) _ m) as [m1|] eqn:E; simpl; [|done]. intros H.
    destruct (insert_predecessors_spec _ _ _ _ _ E) as [E1 E2]. destruct (IH _ H) as [IH1 IH2]. split.
    + intros y t [->|Hy]%elem_of_cons Ht; [by apply E1|]. specialize (IH1 y t Hy Ht). specialize (E2 t).
      destruct (m !! t); [done|]. rewrite E2 in IH1. by destruct IH1.
    + intros b. specialize (E2 b). specialize (IH2 b). destruct (m !! b) as [s|].
      * destruct E2 as (s1 & E2 & Hs1). rewrite E2 in IH2. destruct IH2 as (s' & Es & Hs). exists s'. split; [done|].
        intros p. rewrite Hs, Hs1. setoid_rewrite elem_of_cons. naive_solver.
      * by rewrite E2 in IH2.
Qed.

(** ** The graph of a function *)

Lemma unvisited_size (index : gmap BlockId BasicBlock) b (visited : gset BlockId) :
  is_Some (index !! b) → b ∉ visited → size (dom index ∖ visited) = S (size (dom index ∖ ({[b]} ∪ visited))).
Proof.
  intros E%elem_of_dom Hb. assert (dom index ∖ visited = {[b]} ∪ dom index ∖ ({[b]} ∪ visited)) as ->.
  { apply leibniz_equiv. intros x. rewrite elem_of_union, !elem_of_difference, elem_of_union, elem_of_singleton.
    destruct (decide (x = b)) as [->|]; tauto. }
  rewrite size_union, size_singleton by set_solver. done.
Qed.

Section graph.
Context (f : Function) (index : gmap BlockId BasicBlock) (predecessors : gmap BlockId (gset BlockId)).
Hypothesis indexed : index_blocks f = Ok index.
Hypothesis mapped : predecessor_map f index = Ok predecessors.
Hypothesis entry_present : is_Some (index !! entry f).

Definition block_edge (p b : BlockId) : Prop :=
  ∃ body, index !! p = Some body ∧ b ∈ successors (terminator body).
Definition block_root (b : BlockId) : Prop :=
  b = entry f ∨ is_Some (index !! b) ∧ ∀ p, ¬ block_edge p b.

Lemma edge_target p b : block_edge p b → is_Some (index !! b).
Proof.
  intros (body & E & Hb). apply (index_blocks_spec _ _ indexed) in E as [Hbody _].
  destruct (predecessors_from_spec _ _ _ _ mapped) as [H _]. specialize (H body b Hbody Hb).
  rewrite lookup_fmap in H. by apply fmap_is_Some in H.
Qed.

Lemma predecessors_lookup b :
  is_Some (index !! b) → ∃ s, predecessors !! b = Some s ∧ ∀ p, p ∈ s ↔ block_edge p b.
Proof.
  intros [body E]. destruct (predecessors_from_spec _ _ _ _ mapped) as [_ H]. specialize (H b).
  rewrite lookup_fmap, E in H. simpl in H. destruct H as (s & Es & Hs). exists s. split; [done|].
  intros p. rewrite Hs. split.
  - intros [?%not_elem_of_empty|(x & Hx & -> & Hb)]; [done|]. exists x. split; [|done].
    by apply (index_blocks_spec _ _ indexed).
  - intros (x & Ex & Hb). apply (index_blocks_spec _ _ indexed) in Ex as [Hx <-]. right. eauto.
Qed.

Lemma successors_length t : (length (successors t) ≤ 2)%nat.
Proof. destruct t; simpl; lia. Qed.

(** The reachability loop ends. *)
Lemma reach_loop_total n pending reachable :
  (∀ b, b ∈ pending → is_Some (index !! b)) →
  (3 * size (dom index ∖ reachable) + length pending < n)%nat →
  ∃ r, reach_loop n (function_id f) index pending reachable = Done (Ok r).
Proof.
  revert pending reachable. induction n as [|n IH]; intros pending reachable Hp Hn; [lia|]. simpl.
  destruct pending as [|b pending]; [by eauto|]. simpl in Hn. case_bool_decide as Hb.
  { apply IH; [|lia]. intros x Hx. apply Hp. by right. }
  destruct (Hp b) as [body E]; [by left|]. rewrite E. apply IH.
  - intros x [Hx|Hx]%elem_of_app; [|apply Hp; by right].
    apply list_elem_of_In, in_rev, list_elem_of_In in Hx. apply (edge_target b). by exists body.
  - rewrite length_app, length_rev. pose proof (successors_length (terminator body)).
    rewrite (unvisited_size index b reachable) in Hn by (by rewrite ?E). lia.
Qed.

Lemma incoming_row_total indices s :
  (∀ p, p ∈ s → is_Some (indices !! p)) →
  ∃ row, incoming_row (function_id f) indices s = Ok row ∧
    ∀ q, q ∈ row ↔ ∃ p, p ∈ s ∧ indices !! p = Some q.
Proof.
  intros H. unfold incoming_row. assert (∀ p, p ∈ ordered s → is_Some (indices !! p)) as H'.
  { intros p Hp. by apply H, ordered_elem. }
  setoid_rewrite <- (ordered_elem s). clear H. induction (ordered s) as [|p l IH]; simpl.
  { exists []. split; [done|]. intros q. split; [by intros ?%not_elem_of_nil|].
    by intros (p & ?%not_elem_of_nil & _). }
  destruct (H' p) as [i Ei]; [by left|]. rewrite Ei. simpl.
  destruct IH as (row & -> & Hrow); [intros x Hx; apply H'; by right|]. simpl.
  exists (i :: row). split; [done|]. intros q. rewrite elem_of_cons, Hrow. setoid_rewrite elem_of_cons. split.
  - intros [->|(p' & ? & ?)]; [exists p|exists p']; tauto.
  - intros (p' & [->|?] & ?); [left; congruence|right; eauto].
Qed.

Abbreviation keys := (ordered (dom index)).

Lemma keys_elem b : b ∈ keys ↔ is_Some (index !! b).
Proof. by rewrite ordered_elem, elem_of_dom. Qed.

(** The index of a block. *)
Definition at_index (i : nat) (b : BlockId) : Prop := keys !! i = Some b.

Lemma incoming_rows_total l :
  (∀ b, b ∈ l → is_Some (index !! b)) →
  ∃ rs, incoming_rows (function_id f) (block_indices keys) predecessors l = Done (Ok rs) ∧
    Forall2 (λ b row, ∀ q, q ∈ row ↔ ∃ p, at_index q p ∧ block_edge p b) l rs.
Proof.
  induction l as [|b l IH]; intros H; simpl; [by exists []|].
  destruct (predecessors_lookup b) as (s & Es & Hs); [apply H; by left|]. rewrite Es.
  destruct (incoming_row_total (block_indices keys) s) as (row & -> & Hrow).
  { intros p Hp. apply Hs in Hp as (body & E & _).
    destruct (list_elem_of_lookup_1 keys p) as [i Ei]; [apply keys_elem; by rewrite E|].
    exists i. apply block_indices_lookup; [apply ordered_NoDup|done]. }
  destruct IH as (rs & -> & Hrs); [intros x Hx; apply H; by right|]. simpl. exists (row :: rs). split; [done|].
  constructor; [|done]. intros q. rewrite Hrow. unfold at_index. split.
  - intros (p & Hp%Hs & Hq%block_indices_lookup); [eauto|apply ordered_NoDup].
  - intros (p & Hq & Hp%Hs). exists p. split; [done|]. apply block_indices_lookup; [apply ordered_NoDup|done].
Qed.

Section transfer.
Context (e : nat) (rs : list (list nat)).
Hypothesis entry_index : at_index e (entry f).
Hypothesis rows_edges : Forall2 (λ b row, ∀ q, q ∈ row ↔ ∃ p, at_index q p ∧ block_edge p b) keys rs.

Lemma index_edge_iff q p i b :
  at_index q p → at_index i b → index_edge rs q i ↔ block_edge p b.
Proof.
  intros Hq Hi. eapply Forall2_lookup_l in rows_edges as (row & Er & Hrow); [|exact Hi]. split.
  - intros (row' & Er' & Hin). rewrite Er in Er'. injection Er' as <-. apply Hrow in Hin as (p' & Hq' & He).
    unfold at_index in *. by simplify_eq.
  - intros He. exists row. split; [done|]. apply Hrow. eauto.
Qed.

Lemma index_root_iff i b : at_index i b → index_root e rs i ↔ block_root b.
Proof.
  intros Hi. eapply Forall2_lookup_l in rows_edges as (row & Er & Hrow); [|exact Hi]. unfold index_root, block_root. split.
  - intros [->|Er'].
    + left. unfold at_index in *. congruence.
    + right. split; [by apply keys_elem, (list_elem_of_lookup_2 _ i)|]. intros p He. rewrite Er in Er'. injection Er' as ->.
      destruct (list_elem_of_lookup_1 keys p) as [q Hq].
      { apply keys_elem. destruct He as (body & E & _). by rewrite E. }
      apply (not_elem_of_nil q), Hrow. by exists p.
  - intros [->|[_ Hno]].
    + left. eapply NoDup_lookup; [apply (ordered_NoDup (dom index))|exact Hi|exact entry_index].
    + right. rewrite Er. f_equal. destruct row as [|q row]; [done|]. destruct (proj1 (Hrow q)) as (p & _ & He); [by left|].
      by destruct (Hno p).
Qed.

Lemma walk_to_blocks i w :
  walk (index_root e rs) (index_edge rs) i w → ∀ b, at_index i b →
  ∃ u, walk block_root block_edge b u ∧ Forall2 at_index w u.
Proof.
  induction 1 as [i Hr|q i w Hw IH He]; intros b Hb.
  - exists [b]. split; [constructor; by apply (index_root_iff i)|by constructor].
  - assert (∃ p, at_index q p) as [p Hp].
    { destruct He as (row & Er & Hq). eapply Forall2_lookup_r in rows_edges as (x & Ex & Hrow); [|exact Er].
      apply Hrow in Hq as (p & Hp & _). eauto. }
    destruct (IH p Hp) as (u & Hu & Hall). exists (b :: u). split; [|by constructor].
    eapply walk_step; [exact Hu|]. by apply (index_edge_iff q p i b).
Qed.

Lemma walk_to_indices b u :
  walk block_root block_edge b u → ∀ i, at_index i b →
  ∃ w, walk (index_root e rs) (index_edge rs) i w ∧ Forall2 at_index w u.
Proof.
  induction 1 as [b Hr|p b u Hu IH He]; intros i Hi.
  - exists [i]. split; [constructor; by apply (index_root_iff i b)|by constructor].
  - destruct (list_elem_of_lookup_1 keys p) as [q Hq].
    { apply keys_elem. destruct He as (body & E & _). by rewrite E. }
    destruct (IH q Hq) as (w & Hw & Hall). exists (i :: w). split; [|by constructor].
    eapply walk_step; [exact Hw|]. by apply (index_edge_iff q p i b).
Qed.

Lemma everywhere_transfer i j b d :
  at_index i b → at_index j d →
  on_every_walk (index_root e rs) (index_edge rs) j i ↔ on_every_walk block_root block_edge d b.
Proof.
  intros Hi Hj. split.
  - intros H u Hu. destruct (walk_to_indices b u Hu i Hi) as (w & Hw & Hall). specialize (H w Hw).
    apply list_elem_of_lookup_1 in H as [k Hk]. eapply Forall2_lookup_l in Hall as (d' & Ed & Hd); [|exact Hk].
    unfold at_index in *. rewrite Hj in Hd. injection Hd as <-. by eapply list_elem_of_lookup_2.
  - intros H w Hw. destruct (walk_to_blocks i w Hw b Hi) as (u & Hu & Hall). specialize (H u Hu).
    apply list_elem_of_lookup_1 in H as [k Hk]. eapply Forall2_lookup_r in Hall as (j' & Ej & Hj'); [|exact Hk].
    rewrite (NoDup_lookup keys j j' d (ordered_NoDup _) Hj Hj'). by eapply list_elem_of_lookup_2.
Qed.
End transfer.

(** The sets are computed, and they are the dominators: [d] dominates [b]
    when it is on every walk to [b] from the entry or from a block without
    predecessors. *)
Lemma dominators_spec :
  ∃ n D, (∀ m, (n ≤ m)%nat → dominators m f index predecessors = Done (Ok D)) ∧
    ∀ d b, is_Some (index !! d) → is_Some (index !! b) →
      dominates D d b = true ↔ on_every_walk block_root block_edge d b.
Proof.
  destruct (list_elem_of_lookup_1 keys (entry f)) as [e He]; [by apply keys_elem|].
  destruct (incoming_rows_total keys) as (rs & Ers & Hrs); [intros b; apply keys_elem|].
  pose proof (Forall2_length Hrs) as Hlen.
  destruct (solve_exact e rs) as (n & rows & Hn & Hex).
  { rewrite <- Hlen. by eapply lookup_lt_Some. }
  { apply Forall_lookup_2. intros i row Er. apply list.Forall_forall. intros q Hq.
    destruct (Forall2_lookup_r _ _ _ _ _ Hrs Er) as (b & Eb & Hrow). destruct (proj1 (Hrow q) Hq) as (p & Hp & _).
    rewrite <- Hlen. by eapply lookup_lt_Some. }
  set (k := (3 * size (dom index ∖ (∅ : gset N)) + 2)%nat).
  exists (max n k), {| indices := block_indices keys; rows := rows |}. split.
  - intros m Hm. unfold dominators.
    destruct (reach_loop_total m [entry f] ∅) as (r & ->).
    { by intros b ->%list_elem_of_singleton. }
    { simpl. unfold k in Hm. lia. }
    cbn [mbind outcome_bind]. rewrite Ers. cbn [mbind outcome_bind].
    rewrite (proj2 (block_indices_lookup keys (entry f) e (ordered_NoDup _)) He).
    rewrite Hn by lia. done.
  - intros d b Hd Hb. unfold dominates. cbn [indices Dominance.rows].
    destruct (list_elem_of_lookup_1 keys d) as [j Hj]; [by apply keys_elem|].
    destruct (list_elem_of_lookup_1 keys b) as [i Hi]; [by apply keys_elem|].
    rewrite (proj2 (block_indices_lookup keys d j (ordered_NoDup _)) Hj).
    rewrite (proj2 (block_indices_lookup keys b i (ordered_NoDup _)) Hi).
    destruct (Hex i j) as (r & Er & Hr); [rewrite <- Hlen; by eapply lookup_lt_Some..|].
    rewrite Er. simpl. rewrite Hr. by apply everywhere_transfer.
Qed.
End graph.

(** C12: the dominator sets are computed, for every function whose blocks and
    branch targets are in order, and they are exact: the bit of [d] in the row
    of [b] is set just when [d] is on every walk to [b] from the entry or
    from a block without predecessors. *)
Theorem dominators_exact f index predecessors :
  index_blocks f = Ok index → predecessor_map f index = Ok predecessors → is_Some (index !! entry f) →
  ∃ n D, (∀ m, (n ≤ m)%nat → dominators m f index predecessors = Done (Ok D)) ∧
    ∀ d b, is_Some (index !! d) → is_Some (index !! b) →
      dominates D d b = true ↔ on_every_walk (block_root f index) (block_edge index) d b.
Proof. apply dominators_spec. Qed.

(** The header of the sample loop dominates its body, the body not the exit. *)
Lemma dominators_exact_witness :
  (∃ n D, (∀ m, (n ≤ m)%nat → dominators m guarded_loop loop_index loop_predecessors = Done (Ok D)) ∧
     ∀ d b, is_Some (loop_index !! d) → is_Some (loop_index !! b) →
       dominates D d b = true ↔ on_every_walk (block_root guarded_loop loop_index) (block_edge loop_index) d b) ∧
  match dominators 20 guarded_loop loop_index loop_predecessors with
  | Done (Ok D) => dominates D 1 2 = true ∧ dominates D 2 3 = false
  | _ => False
  end.
Proof.
  split; [|by vm_compute]. apply (dominators_exact guarded_loop); [by vm_compute|by vm_compute|by eexists].
Defined.
