(* ===== verification/SsaPaths.v ===== *)
(** * SsaPaths: definitions on every path

    What the control-flow checks of
    [crates/witchy-wir/src/canonical_safewir/check.rs] give along the paths
    of a function: where a block's uses are checked against the dominators,
    every path to it defines what it uses.  [check_function] checks the blocks
    that its memory dataflow reaches (modelled in [CheckFlow]);
    [strict_flow] is the stronger condition that all blocks pass, on which
    the theorems about runs rest. *)

From S2P Require Import Prelude SafeWir Dominance.

(** ** The strict condition *)

Definition strict_uses (f : Function) (d : Dominators) : result InitialCheckError unit :=
  _ ← mapM (check_block_uses (function_id f) (definition_sites f) d) (blocks f);
  Ok tt.

(** The control-flow checks with every block's uses; more than the code asks
    of a block it finds unreachable. *)
Definition strict_flow (n : nat) (f : Function) : outcome (result InitialCheckError unit) :=
  match index_blocks f with
  | Err e => Done (Err e)
  | Ok index =>
      match index !! entry f with
      | None => Done (Err (MissingBlock (function_id f) (entry f)))
      | Some _ =>
          match check_value_definitions f with
          | Err e => Done (Err e)
          | Ok _ =>
              match predecessor_map f index with
              | Err e => Done (Err e)
              | Ok predecessors =>
                  d ← dominators n f index predecessors;
                  Done (d ← d; strict_uses f d)
              end
          end
      end
  end.

(** ** Paths *)

Definition block_parameters (b : BasicBlock) : list ValueId := List.map parameter (parameters b).

(** A path to the point before an operation (or the terminator) of a block,
    with the values it has defined. *)
Inductive path (f : Function) (index : gmap BlockId BasicBlock) : BlockId → nat → gset ValueId → Prop :=
  | path_entry b :
      index !! entry f = Some b → path f index (entry f) 0 (list_to_set (block_parameters b))
  | path_operation id i D b op :
      path f index id i D → index !! id = Some b → operations b !! i = Some op →
      path f index id (S i) (D ∪ list_to_set (operation_destinations op))
  | path_edge id D b t b' :
      path f index id (length (operations b)) D → index !! id = Some b →
      t ∈ successors (terminator b) → index !! t = Some b' →
      path f index t 0 (D ∪ list_to_set (block_parameters b')).

(** ** Definition sites *)

Lemma insert_definitions_NoDup f m values m' :
  insert_definitions f m values = Ok m' → NoDup values ∧ ∀ v, v ∈ values → v ∉ m.
Proof.
  revert m. induction values as [|v values IH]; intros m; simpl.
  - intros _. split; [constructor|]. by intros v ?%not_elem_of_nil.
  - case_bool_decide as Hv; [done|]. intros H. apply IH in H as [Hnd Hm]. split.
    + constructor; [|done]. intros Hin. apply (Hm v Hin). set_solver.
    + intros x [->|Hx]%elem_of_cons; [done|]. specialize (Hm x Hx). set_solver.
Qed.

Lemma check_value_definitions_NoDup f :
  check_value_definitions f = Ok tt → NoDup (List.flat_map block_definitions (blocks f)).
Proof.
  unfold check_value_definitions. destruct (insert_definitions _ _ _) as [m|] eqn:E; simpl; [|done].
  intros _. by apply insert_definitions_NoDup in E as [? _].
Qed.

Lemma fold_insert_lookup {V} (l : list (ValueId * V)) (m : gmap ValueId V) v x :
  List.fold_left (λ m vs, <[vs.1 := vs.2]> m) l m !! v = Some x → m !! v = Some x ∨ (v, x) ∈ l.
Proof.
  revert m. induction l as [|[k y] l IH]; intros m; simpl; [by left|].
  intros [H|H]%IH; [|right; by right]. apply lookup_insert_Some in H as [[<- <-]|[_ H]]; [right; by left|by left].
Qed.

Inductive site_of (b : BasicBlock) (v : ValueId) : DefinitionSite → Prop :=
  | site_parameter : v ∈ block_parameters b → site_of b v {| site_block := block_id b; operation_index := None |}
  | site_operation i op : operations b !! i = Some op → v ∈ operation_destinations op →
      site_of b v {| site_block := block_id b; operation_index := Some i |}.

Lemma block_sites_site b v s : (v, s) ∈ block_sites b → site_of b v s.
Proof.
  unfold block_sites. rewrite elem_of_app. intros [H|H].
  - apply list_elem_of_In, in_map_iff in H as (p & [= <- <-] & Hp). constructor.
    apply list_elem_of_In, in_map_iff. eauto.
  - apply list_elem_of_In, in_concat in H as (l & Hl & H). apply list_elem_of_In, elem_of_lookup_imap in Hl as (i & op & -> & E).
    apply in_map_iff in H as (x & [= <- <-] & Hx). econstructor; [exact E|by apply list_elem_of_In].
Qed.

Lemma definition_sites_site f v s :
  definition_sites f !! v = Some s → ∃ b, b ∈ blocks f ∧ site_of b v s.
Proof.
  intros [H|H]%fold_insert_lookup; [by rewrite lookup_empty in H|].
  apply list_elem_of_In, in_flat_map in H as (b & Hb & H). exists b. split; [by apply list_elem_of_In|].
  by apply block_sites_site, list_elem_of_In.
Qed.

(** ** More fuel *)

Lemma reach_loop_more n m f index pending reachable r :
  reach_loop n f index pending reachable = Done r → (n ≤ m)%nat →
  reach_loop m f index pending reachable = Done r.
Proof.
  revert m pending reachable. induction n as [|n IH]; intros [|m] pending reachable H Hm; [done|done|lia|].
  simpl in *. destruct pending as [|b pending]; [done|]. case_bool_decide; [apply IH; [done|lia]|].
  destruct (index !! b); [|done]. apply IH; [done|lia].
Qed.

Lemma solve_loop_more n m e w preds rs r :
  solve_loop n e w preds rs = Done r → (n ≤ m)%nat → solve_loop m e w preds rs = Done r.
Proof.
  revert m rs. induction n as [|n IH]; intros [|m] rs H Hm; [done|done|lia|]. simpl in *.
  destruct (solve_pass _ _ _ _ _ _) as [[rs' c]| |]; simpl in *; [|done|done].
  destruct c; [apply IH; [done|lia]|done].
Qed.

Lemma dominators_more n m f index preds r :
  dominators n f index preds = Done r → (n ≤ m)%nat → dominators m f index preds = Done r.
Proof.
  unfold dominators. intros H Hm. destruct (reach_loop n _ _ _ _) as [x| |] eqn:E; [|done|done].
  rewrite (reach_loop_more _ m _ _ _ _ _ E Hm). simpl in *. destruct x as [x|]; [|done].
  destruct (incoming_rows _ _ _ _) as [[inc|]| |]; simpl in *; [|done..].
  destruct (block_indices _ !! entry f); [|done]. unfold solve in *.
  destruct (row_at _ _); simpl in *; [|done..]. destruct (set_bit _ _); simpl in *; [|done..].
  destruct (solve_loop n _ _ _ _) eqn:E2; simpl in *; [|done..]. by rewrite (solve_loop_more _ m _ _ _ _ _ E2 Hm).
Qed.

(** ** Unique definitions *)

Lemma flat_map_NoDup_index {A B} (g : A → list B) l i j x y v :
  NoDup (List.flat_map g l) → l !! i = Some x → l !! j = Some y → v ∈ g x → v ∈ g y → i = j.
Proof.
  intros Hnd. revert i j. induction l as [|a l IH]; intros i j Hi Hj Hx Hy; [done|].
  simpl in Hnd. apply list.NoDup_app in Hnd as (_ & Hdis & Hnd).
  assert (∀ k z, l !! k = Some z → v ∈ g z → v ∈ List.flat_map g l) as Hin.
  { intros k z Hk Hz. apply list_elem_of_In, in_flat_map. exists z.
    split; apply list_elem_of_In; [by eapply list_elem_of_lookup_2|done]. }
  destruct i as [|i], j as [|j]; simpl in *; simplify_eq; [done| | |].
  - destruct (Hdis v); eauto.
  - destruct (Hdis v); eauto.
  - f_equal. by apply IH.
Qed.

Lemma flat_map_NoDup_part {A B} (g : A → list B) l x : NoDup (List.flat_map g l) → x ∈ l → NoDup (g x).
Proof.
  induction l as [|a l IH]; simpl; [by intros _ ?%not_elem_of_nil|].
  intros (H1 & _ & H2)%list.NoDup_app [->|Hx]%elem_of_cons; auto.
Qed.

Lemma site_definition b v s : site_of b v s → v ∈ block_definitions b.
Proof.
  unfold block_definitions. rewrite elem_of_app. intros [H|i op E H]; [by left|right].
  apply list_elem_of_In, in_flat_map. exists op. split; apply list_elem_of_In; [by eapply list_elem_of_lookup_2|done].
Qed.

Lemma site_unique f b b' v s s' :
  check_value_definitions f = Ok tt → b ∈ blocks f → b' ∈ blocks f → site_of b v s → site_of b' v s' → b = b' ∧ s = s'.
Proof.
  intros Hnd%check_value_definitions_NoDup Hb Hb' Hs Hs'.
  assert (b = b') as <-.
  { apply list_elem_of_lookup_1 in Hb as [i Hi], Hb' as [j Hj].
    assert (i = j) as <- by (eapply flat_map_NoDup_index; eauto using site_definition). congruence. }
  split; [done|]. pose proof (flat_map_NoDup_part _ _ _ Hnd Hb) as (_ & Hdis & Hops)%list.NoDup_app.
  assert (∀ i op, operations b !! i = Some op → v ∈ operation_destinations op →
            v ∈ List.flat_map operation_destinations (operations b)) as Hin.
  { intros i op E H. apply list_elem_of_In, in_flat_map. exists op.
    split; apply list_elem_of_In; [by eapply list_elem_of_lookup_2|done]. }
  destruct Hs as [H|i op E H], Hs' as [H'|j op' E' H']; [done|destruct (Hdis v); eauto..|].
  do 2 f_equal. eapply flat_map_NoDup_index; eauto.
Qed.

Lemma mapM_member {E A B} (g : A → result E B) l l' x :
  mapM g l = Ok l' → x ∈ l → ∃ y, g x = Ok y.
Proof.
  revert l'. induction l as [|a l IH]; intros l'; simpl; [by intros _ ?%not_elem_of_nil|].
  destruct (g a) as [y|] eqn:Ea; simpl; [|done]. destruct (mapM g l) as [ys|] eqn:El; simpl; [|done].
  intros _ [->|Hx]%elem_of_cons; [by eauto|by eapply IH].
Qed.

(** ** The graph of a function *)

Section graph.
Context (f : Function) (index : gmap BlockId BasicBlock) (predecessors : gmap BlockId (gset BlockId)) (d : Dominators).

Record flow_graph : Prop := {
  graph_index : index_blocks f = Ok index;
  graph_entry : is_Some (index !! entry f);
  graph_definitions : check_value_definitions f = Ok tt;
  graph_predecessors : predecessor_map f index = Ok predecessors;
  graph_dominators : ∃ n, dominators n f index predecessors = Done (Ok d);
}.
Hypothesis graph : flow_graph.

Lemma dominates_walks x b :
  is_Some (index !! x) → is_Some (index !! b) → dominates d x b = true →
  on_every_walk (block_root f index) (block_edge index) x b.
Proof.
  intros Hx Hb. destruct (graph_dominators graph) as [n Hn].
  destruct (dominators_spec f index predecessors (graph_index graph) (graph_predecessors graph)
              (graph_entry graph)) as (m & d' & Hm & Hd).
  rewrite <- (Hd x b Hx Hb). replace d' with d; [done|].
  pose proof (dominators_more _ (max n m) _ _ _ _ Hn ltac:(lia)) as H1. rewrite (Hm (max n m)) in H1 by lia. congruence.
Qed.

(** The blocks of a path are a walk, and what they define is defined. *)
Lemma path_walk id i D :
  path f index id i D → ∃ b w, index !! id = Some b ∧
    walk (block_root f index) (block_edge index) id (id :: w) ∧
    (∀ x bx, x ∈ w → index !! x = Some bx → ∀ v, v ∈ block_definitions bx → v ∈ D) ∧
    (∀ v, v ∈ block_parameters b → v ∈ D) ∧
    (∀ j op v, (j < i)%nat → operations b !! j = Some op → v ∈ operation_destinations op → v ∈ D).
Proof.
  induction 1 as [b E|id i D b op _ IH E Eop|id D b t b' _ IH E Ht E'].
  - exists b, []. split; [done|]. split; [constructor; by left|]. split; [by intros x bx ?%not_elem_of_nil|].
    split; [intros v Hv; by apply elem_of_list_to_set|]. lia.
  - destruct IH as (b' & w & E' & Hw & Hall & Hp & Ho). simplify_eq. exists b, w.
    split; [done|]. split; [done|]. split; [intros x bx Hx Ex v Hv; apply elem_of_union_l; by eapply Hall|].
    split; [intros v Hv; apply elem_of_union_l; by apply Hp|].
    intros j op' v Hj Ej Hv. destruct (decide (j = i)) as [->|].
    + rewrite Eop in Ej. injection Ej as <-. apply elem_of_union_r. by apply elem_of_list_to_set.
    + apply elem_of_union_l. eapply Ho; [|done|done]. lia.
  - destruct IH as (b1 & w & E1 & Hw & Hall & Hp & Ho). simplify_eq. exists b', (id :: w). split; [done|].
    split; [eapply walk_step; [exact Hw|by exists b]|]. split; [|split; [|lia]].
    + intros x bx [->|Hx]%elem_of_cons Ex v Hv; apply elem_of_union_l; [|by eapply Hall].
      simplify_eq. unfold block_definitions in Hv. apply elem_of_app in Hv as [Hv|Hv]; [by apply Hp|].
      apply list_elem_of_In, in_flat_map in Hv as (op & Hop & Hv). apply list_elem_of_In, list_elem_of_lookup_1 in Hop as [j Hj].
      eapply Ho; [by eapply lookup_lt_Some|exact Hj|by apply list_elem_of_In].
    + intros v Hv. apply elem_of_union_r. by apply elem_of_list_to_set.
Qed.

Lemma check_uses_spec fid b k uses :
  check_uses_dominate fid b k (definition_sites f) d uses = Ok tt → ∀ v, v ∈ uses →
  ∃ s, definition_sites f !! v = Some s ∧
    (site_block s = b ∧ (∀ i, operation_index s = Some i → (i < k)%nat) ∨
     site_block s ≠ b ∧ dominates d (site_block s) b = true).
Proof.
  induction uses as [|u uses IH]; simpl; [by intros _ v ?%not_elem_of_nil|].
  destruct (definition_sites f !! u) as [s|] eqn:E; simpl; [|done].
  intros H v. rewrite elem_of_cons.
  destruct (N.eqb_spec (site_block s) b) as [He|He].
  - destruct (operation_index s) as [i|] eqn:Ei.
    + destruct (Nat.ltb_spec i k) as [Hlt|]; simpl in H; [|done]. intros [->|Hv]; [|by apply IH].
      exists s. split; [done|]. left. split; [done|]. intros j Hj. congruence.
    + simpl in H. intros [->|Hv]; [|by apply IH]. exists s. split; [done|]. left. split; [done|]. congruence.
  - destruct (dominates d _ _) eqn:Ed; simpl in H; [|done]. intros [->|Hv]; [|by apply IH].
    exists s. split; [done|]. by right.
Qed.

Lemma used_defined fid id i k D uses :
  check_uses_dominate fid id k (definition_sites f) d uses = Ok tt → (k ≤ i)%nat →
  path f index id i D → ∀ v, v ∈ uses → v ∈ D.
Proof.
  intros H Hk Hp v Hv. destruct (check_uses_spec _ _ _ _ H v Hv) as (s & Es & Hs).
  destruct (definition_sites_site _ _ _ Es) as (b & Hb & Hsite).
  destruct (path_walk _ _ _ Hp) as (b' & w & E & Hw & Hall & Hpar & Hop).
  assert (site_block s = block_id b) as Hid by by destruct Hsite.
  assert (index !! block_id b = Some b) as Eb.
  { by apply (index_blocks_spec _ _ (graph_index graph)). }
  rewrite Hid in Hs. destruct Hs as [[Hs Hlt]|[Hs Hdom]].
  - rewrite Hs in Eb. rewrite E in Eb. injection Eb as ->. destruct Hsite as [Hv'|j op Ej Hv']; [by apply Hpar|].
    eapply Hop; [|exact Ej|done]. specialize (Hlt j eq_refl). lia.
  - apply dominates_walks in Hdom; [|by rewrite Eb|by rewrite E]. specialize (Hdom _ Hw).
    apply elem_of_cons in Hdom as [?|Hin]; [done|]. eapply Hall; [exact Hin|exact Eb|by eapply site_definition].
Qed.

(** A block whose uses are checked uses what every path to it defines. *)
Lemma block_operation_defined id i D b op :
  check_block_uses (function_id f) (definition_sites f) d b = Ok tt →
  path f index id i D → index !! id = Some b → operations b !! i = Some op →
  ∀ v, v ∈ operation_uses op → v ∈ D.
Proof.
  intros H Hp Eb Eop. apply (index_blocks_spec _ _ (graph_index graph)) in Eb as [Hb Hid].
  unfold check_block_uses in H. destruct (mapM _ (imap pair (operations b))) as [l|] eqn:E; simpl in H; [|done].
  destruct (mapM_member _ _ _ (i, op) E) as [[] Hu].
  { apply elem_of_lookup_imap. eauto. }
  simpl in Hu. rewrite Hid in Hu. eapply used_defined; [exact Hu| |exact Hp]. lia.
Qed.

Lemma block_terminator_defined id D b :
  check_block_uses (function_id f) (definition_sites f) d b = Ok tt →
  path f index id (length (operations b)) D → index !! id = Some b →
  ∀ v, v ∈ terminator_uses (terminator b) → v ∈ D.
Proof.
  intros H Hp Eb. apply (index_blocks_spec _ _ (graph_index graph)) in Eb as [Hb Hid].
  unfold check_block_uses in H. destruct (mapM _ (imap pair (operations b))) as [l|] eqn:E; simpl in H; [|done].
  rewrite Hid in H. eapply used_defined; [exact H| |exact Hp]. lia.
Qed.
End graph.

(** ** A function that passes the strict checks *)

Section checked.
Context (f : Function) (index : gmap BlockId BasicBlock) (predecessors : gmap BlockId (gset BlockId)) (d : Dominators).

Record flow_checked : Prop := {
  checked_index : index_blocks f = Ok index;
  checked_entry : is_Some (index !! entry f);
  checked_definitions : check_value_definitions f = Ok tt;
  checked_predecessors : predecessor_map f index = Ok predecessors;
  checked_dominators : ∃ n, dominators n f index predecessors = Done (Ok d);
  checked_uses : strict_uses f d = Ok tt;
}.
Hypothesis checked : flow_checked.

Lemma checked_graph : flow_graph f index predecessors d.
Proof. by destruct checked. Qed.

Lemma index_member id b : index !! id = Some b → b ∈ blocks f ∧ block_id b = id.
Proof. by rewrite (index_blocks_spec _ _ (checked_index checked)). Qed.

Lemma block_uses_checked b : b ∈ blocks f → check_block_uses (function_id f) (definition_sites f) d b = Ok tt.
Proof.
  intros Hb. pose proof (checked_uses checked) as H. unfold strict_uses in H.
  destruct (mapM _ (blocks f)) as [l|] eqn:E; simpl in H; [|done].
  destruct (mapM_member _ _ _ _ E Hb) as [[] Hy]. done.
Qed.

(** The values an operation uses are defined on every path to it. *)
Lemma operation_uses_defined id i D b op :
  path f index id i D → index !! id = Some b → operations b !! i = Some op →
  ∀ v, v ∈ operation_uses op → v ∈ D.
Proof.
  intros Hp Eb. destruct (index_member _ _ Eb) as [Hb _].
  by apply (block_operation_defined f index predecessors d checked_graph _ _ _ _ _ (block_uses_checked b Hb) Hp).
Qed.

Lemma terminator_uses_defined id D b :
  path f index id (length (operations b)) D → index !! id = Some b →
  ∀ v, v ∈ terminator_uses (terminator b) → v ∈ D.
Proof.
  intros Hp Eb. destruct (index_member _ _ Eb) as [Hb _].
  by apply (block_terminator_defined f index predecessors d checked_graph _ _ _ (block_uses_checked b Hb) Hp).
Qed.

Lemma path_block id i D : path f index id i D → is_Some (index !! id).
Proof. intros (b & w & E & _)%(path_walk f index). by rewrite E. Qed.

(** [v] is defined by an operation. *)
Definition defined_by (op : Operation) (v : ValueId) : Prop :=
  ∃ id b i, index !! id = Some b ∧ operations b !! i = Some op ∧ v ∈ operation_destinations op.

Lemma defined_by_unique op op' v : defined_by op v → defined_by op' v → op = op'.
Proof.
  intros (id & b & i & E & Eo & Hv) (id' & b' & i' & E' & Eo' & Hv').
  apply index_member in E as [Hb _], E' as [Hb' _].
  destruct (site_unique f b b' v _ _ (checked_definitions checked) Hb Hb' (site_operation b v i op Eo Hv) (site_operation b' v i' op' Eo' Hv'))
    as [<- [= <-]]. congruence.
Qed.

Lemma defined_by_not_parameter op v id b :
  defined_by op v → index !! id = Some b → v ∉ block_parameters b.
Proof.
  intros (id' & b' & i & E & Eo & Hv) Eb Hp. apply index_member in E as [Hb' _], Eb as [Hb _].
  by destruct (site_unique f b b' v _ _ (checked_definitions checked) Hb Hb' (site_parameter b v Hp) (site_operation b' v i op Eo Hv)) as [_ [=]].
Qed.

(** Values whose operands are there when they are. *)
Definition closed (D : gset ValueId) : Prop :=
  ∀ op v u, defined_by op v → v ∈ D → u ∈ operation_uses op → u ∈ D.

Lemma path_closed id i D : path f index id i D → closed D.
Proof.
  induction 1 as [b E|id i D b op Hp IH E Eo|id D b t b' Hp IH E Ht E']; intros op' v u Hdef Hv Hu.
  - apply elem_of_list_to_set in Hv. by destruct (defined_by_not_parameter _ _ _ _ Hdef E Hv).
  - apply elem_of_union_l. apply elem_of_union in Hv as [Hv|Hv]; [by eapply IH|]. apply elem_of_list_to_set in Hv.
    assert (op' = op) as -> by (eapply defined_by_unique; [exact Hdef|by exists id, b, i]).
    by eapply operation_uses_defined.
  - apply elem_of_union_l. apply elem_of_union in Hv as [Hv|Hv]; [by eapply IH|]. apply elem_of_list_to_set in Hv.
    by destruct (defined_by_not_parameter _ _ _ _ Hdef E' Hv).
Qed.

(** A path to an operation that defines a value for the first time. *)
Lemma first_operation id b i op v :
  index !! id = Some b → operations b !! i = Some op → v ∈ operation_destinations op →
  ∀ id' i' D, path f index id' i' D → v ∈ D → ∃ D', path f index id i D' ∧ v ∉ D'.
Proof.
  intros E Eo Hv id' i' D. induction 1 as [b' E'|id' i' D b' op' Hp IH E' Eo'|id' D b' t b2 Hp IH E' Ht E2]; intros HD.
  - apply elem_of_list_to_set in HD. destruct (defined_by_not_parameter op v _ _ ltac:(by exists id, b, i) E' HD).
  - apply elem_of_union in HD as [HD|HD]; [by apply IH|]. apply elem_of_list_to_set in HD.
    destruct (index_member _ _ E) as [Hb Hid], (index_member _ _ E') as [Hb' Hid'].
    destruct (site_unique f b b' v _ _ (checked_definitions checked) Hb Hb' (site_operation b v i op Eo Hv) (site_operation b' v i' op' Eo' HD))
      as [<- [= <-]]. assert (id = id') as <- by congruence.
    destruct (decide (v ∈ D)) as [HvD|HvD]; [by apply IH|by exists D].
  - apply elem_of_union in HD as [HD|HD]; [by apply IH|]. apply elem_of_list_to_set in HD.
    destruct (defined_by_not_parameter op v _ _ ltac:(by exists id, b, i) E2 HD).
Qed.

(** A path that enters a block for the first time. *)
Lemma first_block id b v :
  index !! id = Some b → v ∈ block_parameters b → ∀ id' i' D, path f index id' i' D → v ∈ D →
  ∃ D', path f index id 0 (D' ∪ list_to_set (block_parameters b)) ∧ v ∉ D' ∧ closed D'.
Proof.
  intros E Hv. assert (∀ id2 b2, index !! id2 = Some b2 → v ∈ block_parameters b2 → id2 = id ∧ b2 = b) as Huniq.
  { intros id2 b2 E2 H2. destruct (index_member _ _ E) as [Hb Hid], (index_member _ _ E2) as [Hb2 Hid2].
    destruct (site_unique f b b2 v _ _ (checked_definitions checked) Hb Hb2 (site_parameter b v Hv) (site_parameter b2 v H2)) as [<- _]. split; congruence. }
  intros id' i' D. induction 1 as [b' E'|id' i' D b' op' Hp IH E' Eo'|id' D b' t b2 Hp IH E' Ht E2]; intros HD.
  - apply elem_of_list_to_set in HD. destruct (Huniq _ _ E' HD) as [<- ->]. exists ∅.
    rewrite (left_id_L ∅ (∪)). split; [by constructor|]. split; [set_solver|]. by intros op x u _ ?%not_elem_of_empty.
  - apply elem_of_union in HD as [HD|HD]; [by apply IH|]. apply elem_of_list_to_set in HD.
    destruct (defined_by_not_parameter op' v id b ltac:(by exists id', b', i') E Hv).
  - apply elem_of_union in HD as [HD|HD]; [by apply IH|]. apply elem_of_list_to_set in HD.
    destruct (Huniq _ _ E2 HD) as [-> ->]. destruct (decide (v ∈ D)) as [HvD|HvD]; [by apply IH|].
    exists D. split; [by eapply path_edge|]. split; [done|by eapply path_closed].
Qed.

(** A value is available at a point when every path there defines it. *)
Definition available (id : BlockId) (i : nat) (v : ValueId) : Prop := ∀ D, path f index id i D → v ∈ D.

(** What is defined from a value is not available where that value has just
    been defined. *)
Lemma redefined_operation id b i D op v op' c :
  path f index id i D → index !! id = Some b → operations b !! i = Some op → v ∈ operation_destinations op →
  defined_by op' c → v ∈ operation_uses op' → ¬ available id (S i) c.
Proof.
  intros Hp E Eo Hv Hc Hu Hav. assert (∃ D', path f index id i D' ∧ v ∉ D') as (D' & Hp' & HvD).
  { destruct (decide (v ∈ D)) as [HD|HD]; [by eapply first_operation|by exists D]. }
  specialize (Hav _ (path_operation _ _ _ _ _ _ _ Hp' E Eo)). apply elem_of_union in Hav as [Hav|Hav].
  - apply HvD. by eapply (path_closed _ _ _ Hp').
  - apply elem_of_list_to_set in Hav.
    assert (op' = op) as -> by (eapply defined_by_unique; [exact Hc|by exists id, b, i]).
    apply HvD. by eapply operation_uses_defined.
Qed.

Lemma redefined_parameter id b i D v op' c :
  path f index id i D → index !! id = Some b → v ∈ block_parameters b →
  defined_by op' c → v ∈ operation_uses op' → ¬ available id 0 c.
Proof.
  intros Hp E Hv Hc Hu Hav. assert (v ∈ D) as HD.
  { destruct (path_walk f index _ _ _ Hp) as (b' & w & E' & _ & _ & Hpar & _). simplify_eq. by apply Hpar. }
  destruct (first_block id b v E Hv _ _ _ Hp HD) as (D' & Hp' & HvD & Hcl).
  specialize (Hav _ Hp'). apply elem_of_union in Hav as [Hav|Hav].
  - apply HvD. by eapply Hcl.
  - apply elem_of_list_to_set in Hav. by apply (defined_by_not_parameter _ _ _ _ Hc E).
Qed.

Lemma available_operation id i b op v :
  index !! id = Some b → operations b !! i = Some op → available id (S i) v →
  available id i v ∨ v ∈ operation_destinations op.
Proof.
  intros E Eo Hav. destruct (decide (v ∈ operation_destinations op)) as [|Hn]; [by right|left].
  intros D Hp. specialize (Hav _ (path_operation _ _ _ _ _ _ _ Hp E Eo)). apply elem_of_union in Hav as [?|Hv]; [done|].
  by apply elem_of_list_to_set in Hv.
Qed.

Lemma available_edge id b t b' v :
  index !! id = Some b → t ∈ successors (terminator b) → index !! t = Some b' → available t 0 v →
  available id (length (operations b)) v ∨ v ∈ block_parameters b'.
Proof.
  intros E Ht E' Hav. destruct (decide (v ∈ block_parameters b')) as [|Hn]; [by right|left].
  intros D Hp. specialize (Hav _ (path_edge _ _ _ _ _ _ _ Hp E Ht E')). apply elem_of_union in Hav as [?|Hv]; [done|].
  by apply elem_of_list_to_set in Hv.
Qed.
End checked.

Lemma strict_flow_checked n f index :
  strict_flow n f = Done (Ok tt) → index_blocks f = Ok index → ∃ preds d, flow_checked f index preds d.
Proof.
  unfold strict_flow. intros H E. rewrite E in H. destruct (index !! entry f) as [b|] eqn:Eb; [|done].
  destruct (check_value_definitions f) as [[]|] eqn:Ev; [|done].
  destruct (predecessor_map f index) as [preds|] eqn:Ep; [|done].
  destruct (dominators n f index preds) as [[d|]| |] eqn:Ed; simpl in H; [|done..].
  injection H as H. exists preds, d. constructor; [done|by rewrite Eb|done|done|by exists n|done].
Qed.

(** The strict checks end with a verdict. *)
Theorem strict_flow_terminates f : ∃ n r, ∀ m, (n ≤ m)%nat → strict_flow m f = Done r.
Proof.
  unfold strict_flow. destruct (index_blocks f) as [index|e] eqn:Ei; [|by eexists 0%nat, _].
  destruct (index !! entry f) as [b|] eqn:Eb; [|by eexists 0%nat, _].
  destruct (check_value_definitions f) as [u|e]; [|by eexists 0%nat, _].
  destruct (predecessor_map f index) as [preds|e] eqn:Ep; [|by eexists 0%nat, _].
  destruct (dominators_spec f index preds Ei Ep) as (n & d & Hn & _); [by rewrite Eb|].
  exists n, (strict_uses f d). intros m Hm. by rewrite Hn.
Qed.
