(* ===== verification/CheckFlow.v ===== *)
(** * CheckFlow: the blocks whose uses are checked

    Models, of [crates/witchy-wir/src/canonical_safewir/check.rs],
    [check_function] from its blocks on, [check_memory_cfg],
    [check_block_flow], [memory_successor_edges], [reverse_postorder_ranks]
    and the tail sites ([observe_tail_site], [dead_tail_after_zero_division]):
    the dataflow that visits the blocks of a function, checks the uses of
    those it visits, and does not follow the edge of a branch that a constant
    condition rules out.

    What the dataflow carries is the state of the memory checker, a component
    of thousands of lines of its own: here it is an interface, the record
    [MemoryChecker] of the calls these functions make, and the theorems hold
    for all its implementations.  [State] is [MemoryState].  The sample's
    implementation keeps the constants and comparisons and decides branches as
    [constant_condition] does.

    [n] is the fuel of [dominators] and of the postorder.  [Panic] is an index
    that is not in a map, or no fuel.  The dataflow itself has the code's own
    bound on iterations.

    The theorems: with enough fuel there is a verdict (no panic); and where
    it is positive, every path that takes no edge the final states rule out
    visits only checked blocks, and has defined what they use. *)

From S2P Require Import Prelude SafeWir Dominance SsaPaths.

(** ** The memory checker *)

Record MemoryChecker (State E : Type) : Type := {
  check_entry_parameters : BasicBlock → result E unit;
  (** [new_with_affine_abi] *)
  new_checker : result E State;
  check_operation : Operation → State → result E State;
  end_affine_borrows_at : Terminator → State → result E State;
  check_terminator : BlockId → Terminator → State → result E State;
  constant_condition : State → ValueId → option bool;
  assume_true_bounds_comparison : ValueId → State → result E State;
  (** The state it leaves in the checker, and the one it returns. *)
  transfer_edge : BasicBlock → list ValueId → State → result E (State * State);
  (** The checker's state, the existing and the incoming one. *)
  meet : BasicBlock → State → State → State → result E State;
}.
Arguments check_entry_parameters {State E} _ _.
Arguments new_checker {State E} _.
Arguments check_operation {State E} _ _ _.
Arguments end_affine_borrows_at {State E} _ _ _.
Arguments check_terminator {State E} _ _ _ _.
Arguments constant_condition {State E} _ _ _.
Arguments assume_true_bounds_comparison {State E} _ _ _.
Arguments transfer_edge {State E} _ _ _ _.
Arguments meet {State E} _ _ _ _ _.

(** An error found here, or one of the memory checker. *)
Inductive CheckError (E : Type) : Type :=
  | Checked (e : InitialCheckError)
  | Refused (e : E).
Arguments Checked {E} e.
Arguments Refused {E} e.

Definition map_error {E E' A} (g : E → E') (r : result E A) : result E' A :=
  match r with Ok a => Ok a | Err e => Err (g e) end.

(** [m?] in a function that may panic *)
Definition attempt {E A B} (m : outcome (result E A)) (k : A → outcome (result E B)) : outcome (result E B) :=
  r ← m; match r with Ok a => k a | Err e => Done (Err e) end.
Notation "'try' x := m 'in' k" := (attempt m (λ x, k)) (at level 10, x name, k at level 200).

(** [usize] arithmetic *)
Definition saturating_mul (a b : N) : N := N.min (a * b) (2 ^ 64 - 1).

(** ** The worklists *)

(** [pending], or [ordered]: a heap of the least rank first *)
Inductive worklist : Type :=
  | Fifo (pending : list BlockId)
  | Heap (ranks : gmap BlockId nat) (ordered : list (nat * BlockId)).

Fixpoint push_heap (x : nat * BlockId) (l : list (nat * BlockId)) : list (nat * BlockId) :=
  match l with
  | [] => [x]
  | y :: l =>
      if ((x.1 <? y.1)%nat || (x.1 =? y.1)%nat && (x.2 <=? y.2)%N) then x :: y :: l else y :: push_heap x l
  end.

Definition push (w : worklist) (b : BlockId) : outcome worklist :=
  match w with
  | Fifo pending => Done (Fifo (pending ++ [b]))
  | Heap ranks l => match ranks !! b with Some r => Done (Heap ranks (push_heap (r, b) l)) | None => Panic end
  end.

Definition pop (w : worklist) : option (BlockId * worklist) :=
  match w with
  | Fifo [] | Heap _ [] => None
  | Fifo (b :: pending) => Some (b, Fifo pending)
  | Heap ranks ((_, b) :: l) => Some (b, Heap ranks l)
  end.

Definition members (w : worklist) : list BlockId :=
  match w with Fifo pending => pending | Heap _ l => l.*2 end.

(** ** [reverse_postorder_ranks] *)

(** The top of the stack is the head of the list. *)
Fixpoint postorder_loop (n : nat) (index : gmap BlockId BasicBlock) (stack : list (BlockId * bool))
    (visited : gset BlockId) (postorder : list BlockId) : outcome (list BlockId) :=
  match n with
  | O => Panic
  | S n =>
      match stack with
      | [] => Done postorder
      | (block, true) :: stack => postorder_loop n index stack visited (postorder ++ [block])
      | (block, false) :: stack =>
          if bool_decide (block ∈ visited) then postorder_loop n index stack visited postorder
          else
            match index !! block with
            | None => Panic
            | Some body =>
                let visited := {[block]} ∪ visited in
                let next := List.filter (λ t, negb (bool_decide (t ∈ visited))) (successors (terminator body)) in
                postorder_loop n index (List.map (λ t, (t, false)) next ++ (block, true) :: stack) visited postorder
            end
      end
  end.

Definition reverse_postorder_ranks (n : nat) (entry : BlockId) (index : gmap BlockId BasicBlock)
    : outcome (gmap BlockId nat) :=
  postorder ← postorder_loop n index [(entry, false)] ∅ [];
  Done (block_indices (List.rev postorder)).

Section check.
Context {State E : Type} `{!EqDecision State} (mc : MemoryChecker State E).
Context (f : Function) (index : gmap BlockId BasicBlock) (d : Dominators).

(** ** [check_block_flow] *)

Definition memory_successor_edges (terminator : Terminator) (s : State)
    : list (BlockId * list ValueId * option ValueId) :=
  match terminator with
  | Terminator.Branch target arguments => [(target, arguments, None)]
  | Terminator.BranchIf condition then_target then_arguments else_target else_arguments =>
      match constant_condition mc s condition with
      | Some true => [(then_target, then_arguments, Some condition)]
      | Some false => [(else_target, else_arguments, None)]
      | None => [(then_target, then_arguments, Some condition); (else_target, else_arguments, None)]
      end
  | _ => []
  end.

(** [checked_bodies] and [dominance_checked] *)
Record Caches : Type := { checked_bodies : gmap BlockId (State * State); dominance_checked : gset BlockId }.

Definition no_caches : Caches := {| checked_bodies := ∅; dominance_checked := ∅ |}.

Definition check_dominance (check : bool) (id : BlockId) (position : nat) (uses : list ValueId)
    : result (CheckError E) unit :=
  if check then map_error Checked (check_uses_dominate (function_id f) id position (definition_sites f) d uses)
  else Ok tt.

Fixpoint check_operations (check : bool) (id : BlockId) (position : nat) (ops : list Operation) (s : State)
    : result (CheckError E) State :=
  match ops with
  | [] => Ok s
  | op :: ops =>
      check_dominance check id position (operation_uses op);;
      s ← map_error Refused (check_operation mc op s);
      check_operations check id (S position) ops s
  end.

Definition check_until_terminator (check : bool) (b : BasicBlock) (s : State) : result (CheckError E) State :=
  s ← check_operations check (block_id b) 0 (operations b) s;
  s ← map_error Refused (end_affine_borrows_at mc (terminator b) s);
  check_dominance check (block_id b) (length (operations b)) (terminator_uses (terminator b));;
  Ok s.

(** The body, when its result is not cached. *)
Definition check_uncached (b : BasicBlock) (input : State) (c : Caches) : Caches * result (CheckError E) State :=
  let check := negb (bool_decide (block_id b ∈ dominance_checked c)) in
  match check_until_terminator check b input with
  | Err e => (c, Err e)
  | Ok s =>
      let seen := {[block_id b]} ∪ dominance_checked c in
      match check_terminator mc (block_id b) (terminator b) s with
      | Err e => ({| checked_bodies := checked_bodies c; dominance_checked := seen |}, Err (Refused e))
      | Ok s =>
          ({| checked_bodies := <[block_id b := (input, s)]> (checked_bodies c); dominance_checked := seen |}, Ok s)
      end
  end.

Definition check_body (b : BasicBlock) (input : State) (c : Caches) : Caches * result (CheckError E) State :=
  match checked_bodies c !! block_id b with
  | Some (previous, output) => if bool_decide (previous = input) then (c, Ok output) else check_uncached b input c
  | None => check_uncached b input c
  end.

(** [updates.iter().rev().find_map(...).or_else(|| incoming.get(&target))] *)
Definition current_state (incoming : gmap BlockId State) (updates : list (BlockId * State)) (target : BlockId)
    : option State :=
  match List.find (λ u, (u.1 =? target)%N) (List.rev updates) with
  | Some (_, s) => Some s
  | None => incoming !! target
  end.

Definition transfer (target_block : BasicBlock) (arguments : list ValueId) (true_condition : option ValueId)
    (s : State) : result E (State * State) :=
  match true_condition with
  | Some condition =>
      s' ← assume_true_bounds_comparison mc condition s;
      '(_, transferred) ← transfer_edge mc target_block arguments s';
      Ok (s, transferred)
  | None => transfer_edge mc target_block arguments s
  end.

Definition join (target_block : BasicBlock) (s : State) (current : option State) (transferred : State)
    : result E State :=
  match current with Some current => meet mc target_block s current transferred | None => Ok transferred end.

Fixpoint carry_edges (incoming : gmap BlockId State) (edges : list (BlockId * list ValueId * option ValueId))
    (s : State) (updates : list (BlockId * State)) : outcome (result (CheckError E) (list (BlockId * State))) :=
  match edges with
  | [] => Done (Ok updates)
  | (target, arguments, true_condition) :: edges =>
      match index !! target with
      | None => Panic
      | Some target_block =>
          try moved := Done (map_error Refused (transfer target_block arguments true_condition s)) in
          let '(s, transferred) := moved in
          try next := Done (map_error Refused (join target_block s (current_state incoming updates target) transferred)) in
          carry_edges incoming edges s (updates ++ [(target, next)])
      end
  end.

Definition check_block_flow (incoming : gmap BlockId State) (b : BasicBlock) (input : State) (c : Caches)
    : outcome (Caches * result (CheckError E) (list (BlockId * State))) :=
  let '(c, body) := check_body b input c in
  updates ← try s := Done body in carry_edges incoming (memory_successor_edges (terminator b) s) s [];
  Done (c, updates).

(** ** [check_memory_cfg] *)

(** [for (target, next) in updates] *)
Fixpoint publish (updates : list (BlockId * State)) (w : worklist) (incoming : gmap BlockId State)
    : outcome (worklist * gmap BlockId State) :=
  match updates with
  | [] => Done (w, incoming)
  | (target, next) :: updates =>
      if bool_decide (incoming !! target = Some next) then publish updates w incoming
      else w ← push w target; publish updates w (<[target := next]> incoming)
  end.

Record Flow : Type := {
  incoming : gmap BlockId State;
  work : worklist;
  failures : gmap BlockId (CheckError E);
  caches : Caches;
}.

(** One block off the worklist *)
Definition flow_step (id : BlockId) (w : worklist) (flow : Flow) : outcome Flow :=
  match index !! id, incoming flow !! id with
  | Some b, Some s =>
      '(c, checked) ← check_block_flow (incoming flow) b s (caches flow);
      match checked with
      | Err e =>
          Done {| incoming := incoming flow; work := w; failures := <[id := e]> (failures flow); caches := c |}
      | Ok updates =>
          '(w, published) ← publish updates w (incoming flow);
          Done {| incoming := published; work := w; failures := base.delete id (failures flow); caches := c |}
      end
  | _, _ => Panic
  end.

(** [n] is what is left of [maximum_iterations]. *)
Fixpoint flow_loop (n : nat) (flow : Flow) : outcome (result (CheckError E) Flow) :=
  match pop (work flow) with
  | None => Done (Ok flow)
  | Some (id, w) =>
      match n with
      | O => Done (Err (Checked (MemoryDataflowNonConvergence (function_id f))))
      | S n => flow ← flow_step id w flow; flow_loop n flow
      end
  end.

Definition maximum_iterations (ranked : bool) : nat :=
  let count := N.of_nat (length (blocks f)) in
  let values := N.min (N.of_nat (size (value_types f)) + 1) (2 ^ 64 - 1) in
  let maximum := N.max (saturating_mul (saturating_mul count values) 8) 64 in
  N.to_nat (if ranked then N.min maximum (N.max (saturating_mul count 32) 64) else maximum).

(** [failures.into_iter().next()] *)
Definition first_failure (failures : gmap BlockId (CheckError E)) : option (CheckError E) :=
  match ordered (dom failures) with [] => None | id :: _ => failures !! id end.

(** The final states of a ranked run, checked once more *)
Fixpoint verify_final (incoming : gmap BlockId State) (ids : list BlockId) (c : Caches)
    : outcome (result (CheckError E) unit) :=
  match ids with
  | [] => Done (Ok tt)
  | id :: ids =>
      match index !! id, incoming !! id with
      | Some b, Some s =>
          '(c, checked) ← check_block_flow incoming b s c;
          try updates := Done checked in
          if forallb (λ u, bool_decide (incoming !! u.1 = Some u.2)) updates then verify_final incoming ids c
          else Done (Err (Checked (MemoryDataflowNonConvergence (function_id f))))
      | _, _ => Panic
      end
  end.

(** ** The tail sites *)

Record ProperTailLocation : Type := { location_function : N; location_block : BlockId }.

Context (tail_obligations : gmap N ProperTailLocation).

Definition observe_tail_site (block : BlockId) (site : N) (reachable : bool) (observed : gset N)
    : result InitialCheckError (gset N) :=
  expected ← ok_or (tail_obligations !! site) (UnexpectedTailSite site);
  fail_if (negb (location_function expected =? function_id f)%N)
    (TailSiteFunctionMismatch site (location_function expected) (function_id f));;
  fail_if (negb (location_block expected =? block)%N) (TailSiteBlockMismatch site (location_block expected) block);;
  if negb reachable then Ok observed
  else
    fail_if (bool_decide (site ∈ observed)) (DuplicateTailObligation site);;
    Ok ({[site]} ∪ observed).

Definition tail_site (t : Terminator) : option N :=
  match t with
  | Terminator.TailCall site _ _ | Terminator.VarTailCall site _ _ _ => Some site
  | _ => None
  end.

(** Every tail call is at its place, once. *)
Fixpoint check_tail_sites (bs : list BasicBlock) (all observed : gset N) : result InitialCheckError (gset N) :=
  match bs with
  | [] => Ok observed
  | b :: bs =>
      match tail_site (terminator b) with
      | None => check_tail_sites bs all observed
      | Some site =>
          fail_if (bool_decide (site ∈ all)) (DuplicateTailObligation site);;
          observed ← observe_tail_site (block_id b) site false observed;
          check_tail_sites bs ({[site]} ∪ all) observed
      end
  end.

(** The tail calls the dataflow reached *)
Fixpoint observe_reached (ids : list BlockId) (observed : gset N) : outcome (result InitialCheckError (gset N)) :=
  match ids with
  | [] => Done (Ok observed)
  | id :: ids =>
      match index !! id with
      | None => Panic
      | Some b =>
          match tail_site (terminator b) with
          | None => observe_reached ids observed
          | Some site => try observed := Done (observe_tail_site id site true observed) in observe_reached ids observed
          end
      end
  end.

Definition divides (operator : ArithmeticOperator) : bool :=
  match operator with DivideSigned | DivideUnsigned | RemainderSigned | RemainderUnsigned => true | _ => false end.

(** The constant zero an operation gives, at a numeric type *)
Definition zero_of (operation : Operation) : option ValueType :=
  match operation with
  | Operation.ConstInt _ 0%Z => Some ValueType.Int
  | Operation.ConstSize _ 0%N => Some ValueType.Size
  | _ => None
  end.

Definition zero_divisor (destination l r : ValueId) : bool :=
  match definition_sites f !! r with
  | None => false
  | Some definition =>
      match List.find (λ b, (block_id b =? site_block definition)%N) (blocks f), operation_index definition with
      | Some b, Some i =>
          match operations b !! i ≫= zero_of with
          | Some t =>
              bool_decide (value_types f !! l = Some t) && bool_decide (value_types f !! r = Some t)
              && bool_decide (value_types f !! destination = Some t)
          | None => false
          end
      | _, _ => false
      end
  end.

Definition dead_tail_after_zero_division (b : BasicBlock) : bool :=
  dominates d (entry f) (block_id b) &&
  match terminator b with
  | Terminator.TailCall _ _ arguments =>
      existsb (λ '(i, operation),
        match operation with
        | Operation.Arithmetic destination operator l r Trapping =>
            divides operator && bool_decide (arguments = [CallValue destination])
            && is_ok (check_uses_dominate (function_id f) (block_id b) i (definition_sites f) d [l; r])
            && zero_divisor destination l r
        | _ => false
        end) (imap pair (operations b))
  | _ => false
  end.

(** The tail calls behind a division by zero *)
Fixpoint observe_dead (reached : gset BlockId) (sites : list N) (observed : gset N)
    : result InitialCheckError (gset N) :=
  match sites with
  | [] => Ok observed
  | site :: sites =>
      match tail_obligations !! site with
      | None => observe_dead reached sites observed
      | Some location =>
          if negb (location_function location =? function_id f)%N || bool_decide (site ∈ observed)
             || bool_decide (location_block location ∈ reached)
          then observe_dead reached sites observed
          else
            match index !! location_block location with
            | Some b =>
                if dead_tail_after_zero_division b
                then observed ← observe_tail_site (block_id b) site true observed; observe_dead reached sites observed
                else observe_dead reached sites observed
            | None => observe_dead reached sites observed
            end
      end
  end.

Definition settle_tail_sites (reached : gset BlockId) (observed : gset N) : outcome (result InitialCheckError (gset N)) :=
  try observed := observe_reached (ordered reached) observed in
  Done (observe_dead reached (ordered (dom tail_obligations)) observed).

(** The final states (which the code drops) and the observed sites *)
Definition check_memory_cfg (ranks : option (gmap BlockId nat)) (start : State) (observed : gset N)
    : outcome (result (CheckError E) (gmap BlockId State * gset N)) :=
  w ← match ranks with None => Done (Fifo [entry f]) | Some ranks => push (Heap ranks []) (entry f) end;
  try flow := flow_loop (maximum_iterations (bool_decide (is_Some ranks)))
    {| incoming := {[entry f := start]}; work := w; failures := ∅; caches := no_caches |} in
  match first_failure (failures flow) with
  | Some e => Done (Err e)
  | None =>
      try _ := match ranks with
               | None => Done (Ok tt)
               | Some _ => verify_final (incoming flow) (ordered (dom (incoming flow))) no_caches
               end in
      settled ← settle_tail_sites (dom (incoming flow)) observed;
      Done (observed ← map_error Checked settled; Ok (incoming flow, observed))
  end.

(** The priority order is only an accelerator; [n] is fuel. *)
Definition check_ranked (n : nat) (start : State) (observed : gset N)
    : outcome (result (CheckError E) (gmap BlockId State * gset N)) :=
  ranks ← reverse_postorder_ranks n (entry f) index;
  ranked ← check_memory_cfg (Some ranks) start observed;
  match ranked with
  | Ok r => Done (Ok r)
  | Err _ =>
      try start := Done (map_error Refused (new_checker mc)) in
      check_memory_cfg None start observed
  end.

Definition check_runs (n : nat) (start : State) (observed : gset N)
    : outcome (result (CheckError E) (gmap BlockId State * gset N)) :=
  if (256 <=? length (blocks f))%nat then
    if (length (blocks f) <? 1024)%nat then
      ranked ← check_memory_cfg (Some (block_indices (ordered (dom index)))) start observed;
      match ranked with
      | Ok r => Done (Ok r)
      | Err _ =>
          try start := Done (map_error Refused (new_checker mc)) in
          check_ranked n start observed
      end
    else check_ranked n start observed
  else check_memory_cfg None start observed.
End check.

(** ** [check_function] *)

Definition inline_aggregate (t : ValueType) : bool :=
  match t with ValueType.InlineAggregate _ => true | _ => false end.

(** No inline aggregate crosses an edge. *)
Definition aggregate_control_flow (f : Function) (b : BasicBlock) : bool :=
  existsb (λ p, inline_aggregate (parameter_type p)) (parameters b)
  || existsb (λ v, match value_types f !! v with Some t => inline_aggregate t | None => false end)
       (terminator_uses (terminator b)).

Definition check_function {State E} `{!EqDecision State} (n : nat) (mc : MemoryChecker State E)
    (tail_obligations : gmap N ProperTailLocation) (observed : gset N) (f : Function)
    : outcome (result (CheckError E) (gmap BlockId State * gset N)) :=
  try index := Done (map_error Checked (index_blocks f)) in
  try entry_block := Done (map_error Checked (ok_or (index !! entry f) (MissingBlock (function_id f) (entry f)))) in
  try _ := Done (map_error Refused (check_entry_parameters mc entry_block)) in
  try _ := Done (map_error Checked (check_value_definitions f)) in
  try _ := Done (fail_if (existsb (aggregate_control_flow f) (blocks f))
                   (Checked (UnsupportedInlineAggregateControlFlow (function_id f)))) in
  try predecessors := Done (map_error Checked (predecessor_map f index)) in
  d ← dominators n f index predecessors;
  try d := Done (map_error Checked d) in
  try start := Done (map_error Refused (new_checker mc)) in
  try observed := Done (map_error Checked (check_tail_sites f tail_obligations (blocks f) ∅ observed)) in
  check_runs mc f index d tail_obligations n start observed.

(** ** Specification *)

Section spec.
Context {State E : Type} `{!EqDecision State} (mc : MemoryChecker State E).
Context (f : Function) (index : gmap BlockId BasicBlock).

(** The state after the body of a block, without the dominance checks. *)
Definition body_state (b : BasicBlock) (s : State) : result E State :=
  s ← foldl (λ r op, s ← r; check_operation mc op s) (Ok s) (operations b);
  s ← end_affine_borrows_at mc (terminator b) s;
  check_terminator mc (block_id b) (terminator b) s.

(** The state at a block decides its branch against an edge. *)
Definition ruled_out (states : gmap BlockId State) (b : BasicBlock) (t : BlockId) : Prop :=
  ∃ s s', states !! block_id b = Some s ∧ body_state b s = Ok s' ∧
    t ∉ (memory_successor_edges mc (terminator b) s').*1.*1.

(** The paths (as [SsaPaths.path]) that take no edge that is ruled out. *)
Inductive open_path (states : gmap BlockId State) : BlockId → nat → gset ValueId → Prop :=
  | open_entry b :
      index !! entry f = Some b → open_path states (entry f) 0 (list_to_set (block_parameters b))
  | open_operation id i D b op :
      open_path states id i D → index !! id = Some b → operations b !! i = Some op →
      open_path states id (S i) (D ∪ list_to_set (operation_destinations op))
  | open_edge id D b t b' :
      open_path states id (length (operations b)) D → index !! id = Some b →
      t ∈ successors (terminator b) → ¬ ruled_out states b t → index !! t = Some b' →
      open_path states t 0 (D ∪ list_to_set (block_parameters b')).
End spec.

(** ** What is checked of a block *)

Lemma attempt_Ok {E A B} (m : outcome (result E A)) (k : A → outcome (result E B)) b :
  attempt m k = Done (Ok b) → ∃ a, m = Done (Ok a) ∧ k a = Done (Ok b).
Proof. unfold attempt, mbind, outcome_bind. destruct m as [[a|]| |]; naive_solver. Qed.

Lemma attempt_total {E A B} (m : outcome (result E A)) (k : A → outcome (result E B)) :
  (∃ r, m = Done r) → (∀ a, m = Done (Ok a) → ∃ r, k a = Done r) → ∃ r, attempt m k = Done r.
Proof. intros [[a|e] ->] H; unfold attempt; simpl; eauto. Qed.

Lemma map_error_Ok {E E' A} (g : E → E') (r : result E A) a : map_error g r = Ok a → r = Ok a.
Proof. destruct r; simpl; congruence. Qed.

Lemma done_map_error_Ok {E E' A} (g : E → E') (r : result E A) a : Done (map_error g r) = Done (Ok a) → r = Ok a.
Proof. intros [= H]. by eapply map_error_Ok. Qed.

Lemma mapM_total {E A B} (g : A → result E B) l : (∀ x, x ∈ l → ∃ y, g x = Ok y) → ∃ l', mapM g l = Ok l'.
Proof.
  induction l as [|x l IH]; intros H; simpl; [by eexists|].
  destruct (H x) as [y ->]; [by left|]. destruct IH as [ys ->]; [|by eexists].
  intros z Hz. apply H. by right.
Qed.

Section checks.
Context {State E : Type} `{!EqDecision State} (mc : MemoryChecker State E).
Context (f : Function) (index : gmap BlockId BasicBlock) (d : Dominators).

Abbreviation uses_checked b := (check_block_uses (function_id f) (definition_sites f) d b = Ok tt).

Lemma check_operations_Ok check id k ops s s' :
  check_operations mc f d check id k ops s = Ok s' →
  foldl (λ r op, s ← r; check_operation mc op s) (Ok s) ops = Ok s' ∧
  (check = true → ∀ i op, ops !! i = Some op →
     check_uses_dominate (function_id f) id (k + i) (definition_sites f) d (operation_uses op) = Ok tt).
Proof.
  revert k s. induction ops as [|op ops IH]; intros k s; simpl; [intros [= <-]; done|].
  rewrite result_bind_Ok. intros ([] & Hd & H). apply result_bind_Ok in H as (s1 & H1%map_error_Ok & H).
  apply IH in H as [Hf Hu]. split; [by rewrite H1|]. intros -> i op' Hi. destruct i as [|i]; simpl in Hi.
  - injection Hi as <-. rewrite Nat.add_0_r. by apply map_error_Ok in Hd.
  - rewrite Nat.add_succ_r. by apply Hu.
Qed.

Lemma check_until_terminator_Ok check b s s' :
  check_until_terminator mc f d check b s = Ok s' →
  body_state mc b s = check_terminator mc (block_id b) (terminator b) s' ∧ (check = true → uses_checked b).
Proof.
  unfold check_until_terminator, body_state. rewrite result_bind_Ok. intros (s1 & [Hf Hu]%check_operations_Ok & H).
  apply result_bind_Ok in H as (s2 & He%map_error_Ok & H). apply result_bind_Ok in H as ([] & Hd & [= <-]).
  split; [rewrite Hf; simpl; by rewrite He|]. intros ->. unfold check_block_uses.
  destruct (mapM_total (λ '(i, op), check_uses_dominate (function_id f) (block_id b) i (definition_sites f) d
                                      (operation_uses op)) (imap pair (operations b))) as [l ->].
  - intros [i op] (j & op' & [= -> ->] & Hj)%elem_of_lookup_imap. exists tt. by apply (Hu eq_refl).
  - by apply map_error_Ok in Hd.
Qed.

(** ** The caches *)

Record caches_ok (c : Caches (State := State)) : Prop := {
  dominance_ok b : index !! block_id b = Some b → block_id b ∈ dominance_checked c → uses_checked b;
  bodies_ok b s s' : index !! block_id b = Some b → checked_bodies c !! block_id b = Some (s, s') →
    body_state mc b s = Ok s' ∧ block_id b ∈ dominance_checked c;
}.

Lemma no_caches_ok : caches_ok no_caches.
Proof. split; simpl; [set_solver|]. intros b s s' _. by rewrite lookup_empty. Qed.

Lemma check_uncached_ok b s c c' r :
  index !! block_id b = Some b → caches_ok c → check_uncached mc f d b s c = (c', r) →
  caches_ok c' ∧ ∀ s', r = Ok s' → body_state mc b s = Ok s' ∧ uses_checked b.
Proof.
  intros Hb Hc. unfold check_uncached.
  destruct (check_until_terminator _ _ _ _ _ _) as [s1|e] eqn:E1; [|by intros [= <- <-]].
  apply check_until_terminator_Ok in E1 as [Hs Hu].
  assert (uses_checked b) as Hub.
  { case_bool_decide as Hin; [by apply (dominance_ok c Hc)|by apply Hu]. }
  assert (∀ b', index !! block_id b' = Some b' → block_id b' ∈ {[block_id b]} ∪ dominance_checked c → uses_checked b') as Hseen.
  { intros b' Hb' [He%elem_of_singleton|Hin]%elem_of_union; [|by apply (dominance_ok c Hc)].
    rewrite He, Hb in Hb'. by injection Hb' as <-. }
  destruct (check_terminator _ _ _ _) as [s2|e]; intros [= <- <-].
  - split; [|by intros s' [= <-]]. split; simpl; [done|]. intros b' t t' Hb'.
    rewrite lookup_insert_Some. intros [[He [= <- <-]]|[_ H]].
    + rewrite <- He, Hb in Hb'. injection Hb' as <-. split; [done|set_solver].
    + destruct (bodies_ok c Hc b' t t' Hb' H). split; [done|set_solver].
  - split; [|done]. split; simpl; [done|]. intros b' t t' Hb' H.
    destruct (bodies_ok c Hc b' t t' Hb' H). split; [done|set_solver].
Qed.

Lemma check_body_ok b s c c' r :
  index !! block_id b = Some b → caches_ok c → check_body mc f d b s c = (c', r) →
  caches_ok c' ∧ ∀ s', r = Ok s' → body_state mc b s = Ok s' ∧ uses_checked b.
Proof.
  intros Hb Hc. unfold check_body. destruct (checked_bodies c !! block_id b) as [[p o]|] eqn:Ec; [|by apply check_uncached_ok].
  case_bool_decide as Hp; [|by apply check_uncached_ok]. intros [= <- <-]. split; [done|]. intros s' [= <-]. subst p.
  destruct (bodies_ok c Hc _ _ _ Hb Ec) as [H1 H2]. split; [done|]. by apply (dominance_ok c Hc).
Qed.

(** ** The edges *)

Lemma carry_edges_targets inc edges s ups ups' :
  carry_edges mc index inc edges s ups = Done (Ok ups') → ups'.*1 = ups.*1 ++ edges.*1.*1.
Proof.
  revert s ups. induction edges as [|[[t args] c] edges IH]; intros s ups; cbn [carry_edges]; [intros [= <-]; by rewrite app_nil_r|].
  destruct (index !! t); [|done]. intros ([s1 tr] & _ & H)%attempt_Ok. apply attempt_Ok in H as (next & _ & H).
  apply IH in H. rewrite H, fmap_app. simpl. by rewrite <- app_assoc.
Qed.

Lemma carry_edges_total inc edges s ups :
  (∀ t, t ∈ edges.*1.*1 → is_Some (index !! t)) → ∃ r, carry_edges mc index inc edges s ups = Done r.
Proof.
  revert s ups. induction edges as [|[[t args] c] edges IH]; intros s ups H; cbn [carry_edges]; [by eexists|].
  destruct (H t) as [b ->]; [by left|]. apply attempt_total; [by eexists|]. intros [s1 tr] _.
  apply attempt_total; [by eexists|]. intros next _. apply IH. intros t' Ht. apply H. by right.
Qed.

Lemma edge_successor t s x : x ∈ (memory_successor_edges mc t s).*1.*1 → x ∈ successors t.
Proof.
  destruct t; simpl; try set_solver. destruct (constant_condition _ _ _) as [[]|]; set_solver.
Qed.

(** ** The worklist *)

Lemma push_heap_members x l : ∀ y, y ∈ push_heap x l ↔ y = x ∨ y ∈ l.
Proof.
  induction l as [|z l IH]; intros y; simpl; [by rewrite list_elem_of_singleton, elem_of_nil; naive_solver|].
  destruct (_ || _); rewrite !elem_of_cons; [done|]. rewrite IH. tauto.
Qed.

Lemma push_members w id w' x : push w id = Done w' → x ∈ members w' ↔ x = id ∨ x ∈ members w.
Proof.
  destruct w as [l|ranks l]; simpl.
  - intros [= <-]. simpl. rewrite elem_of_app, list_elem_of_singleton. tauto.
  - destruct (ranks !! id) as [r|]; [|done]. intros [= <-]. simpl. rewrite !list_elem_of_fmap. split.
    + intros (y & -> & [->|Hy]%push_heap_members); [by left|right; eauto].
    + intros [->|(y & -> & Hy)]; [exists (r, id)|exists y]; (split; [done|apply push_heap_members; auto]).
Qed.

Lemma pop_members w id w' x :
  pop w = Some (id, w') → x ∈ members w ↔ x = id ∨ x ∈ members w'.
Proof. destruct w as [[|b l]|ranks [|[r b] l]]; simpl; [done| |done|]; intros [= <- <-]; simpl; by rewrite elem_of_cons. Qed.

Lemma pop_none w : pop w = None → members w = [].
Proof. by destruct w as [[|b l]|ranks [|[r b] l]]. Qed.

Lemma publish_ok (ups : list (BlockId * State)) w inc w' inc' :
  publish ups w inc = Done (w', inc') →
  (∀ x, x ∈ members w → x ∈ members w') ∧ (∀ x, is_Some (inc' !! x) ↔ is_Some (inc !! x) ∨ x ∈ ups.*1) ∧
  (∀ x, x ∈ members w' → x ∈ members w ∨ x ∈ ups.*1) ∧
  ∀ x, inc' !! x = inc !! x ∨ x ∈ members w'.
Proof.
  revert w inc. induction ups as [|[t s] ups IH]; intros w inc; simpl.
  - intros [= <- <-]. split; [done|]. split; [set_solver|]. split; auto.
  - case_bool_decide as Ht.
    + intros (H1 & H2 & H3 & H4)%IH. split; [done|]. split; [|split; [|done]].
      * intros x. rewrite H2, elem_of_cons. split; [tauto|]. intros [?|[->|?]]; eauto.
      * intros x [?|?]%H3; [by left|right; by right].
    + rewrite outcome_bind_Done. intros (w1 & Hp & H). apply IH in H as (H1 & H2 & H3 & H4).
      pose proof (push_members w t w1) as Hm. split; [|split; [|split]].
      * intros x Hx. apply H1, (Hm x Hp). by right.
      * intros x. rewrite H2, elem_of_cons. destruct (decide (x = t)) as [->|Hn].
        -- rewrite lookup_insert_eq. naive_solver.
        -- rewrite lookup_insert_ne by done. naive_solver.
      * intros x [Hx|Hx]%H3; [|right; by right]. apply (Hm x Hp) in Hx as [->|Hx]; [right; by left|by left].
      * intros x. destruct (decide (x = t)) as [->|Hn]; [right; apply H1, (Hm t Hp); by left|].
        destruct (H4 x) as [Hx|Hx]; [left|by right]. by rewrite Hx, lookup_insert_ne.
Qed.

(** ** The dataflow *)

(** A block checked at a state, its open edges leading to known blocks *)
Definition settled (inc : gmap BlockId State) (id : BlockId) (s : State) : Prop :=
  ∃ b s', index !! id = Some b ∧ body_state mc b s = Ok s' ∧ uses_checked b ∧
    ∀ t, t ∈ (memory_successor_edges mc (terminator b) s').*1.*1 → is_Some (inc !! t).

Hypothesis indexed : index_blocks f = Ok index.

Lemma check_block_flow_ok inc id b s c c' r :
  index !! id = Some b → caches_ok c → check_block_flow mc f index d inc b s c = Done (c', r) →
  caches_ok c' ∧ ∀ ups, r = Ok ups → ∃ s', body_state mc b s = Ok s' ∧ uses_checked b ∧
    ups.*1 = (memory_successor_edges mc (terminator b) s').*1.*1.
Proof.
  intros Hb Hc. assert (block_id b = id) as <- by by apply (index_blocks_spec _ _ indexed) in Hb as [_ ?].
  unfold check_block_flow. destruct (check_body _ _ _ _ _ _) as [c1 body] eqn:E1.
  apply check_body_ok in E1 as [Hc1 Hbody]; [|done..]. rewrite outcome_bind_Done. intros (ups & H & [= <- <-]).
  split; [done|]. intros ups' ->. apply attempt_Ok in H as (s' & [= ->] & H). destruct (Hbody s' eq_refl) as [H1 H2].
  exists s'. split; [done|]. split; [done|]. by apply carry_edges_targets in H.
Qed.

Record flow_ok (flow : Flow (State := State) (E := E)) : Prop := {
  flow_entry : is_Some (incoming flow !! entry f);
  flow_caches : caches_ok (caches flow);
  flow_states id s : incoming flow !! id = Some s →
    id ∈ members (work flow) ∨ is_Some (failures flow !! id) ∨ settled (incoming flow) id s;
}.

Lemma settled_grow inc inc' id s :
  (∀ x, is_Some (inc !! x) → is_Some (inc' !! x)) → settled inc id s → settled inc' id s.
Proof. intros H (b & s' & ? & ? & ? & Ht). exists b, s'. split_and!; [done..|]. intros t Hx. by apply H, Ht. Qed.

Lemma flow_step_ok id w flow flow' :
  pop (work flow) = Some (id, w) → flow_ok flow → flow_step mc f index d id w flow = Done flow' → flow_ok flow'.
Proof.
  intros Hpop [He Hc Hst]. unfold flow_step.
  destruct (index !! id) as [b|] eqn:Eb; [|done]. destruct (incoming flow !! id) as [s|] eqn:Es; [|done].
  rewrite outcome_bind_Done. intros ([c [ups|e]] & H & H').
  - destruct (check_block_flow_ok _ _ _ _ _ _ _ Eb Hc H) as [Hc' Hups].
    destruct (Hups ups eq_refl) as (s' & Hb & Hu & Ht).
    apply outcome_bind_Done in H' as ([w' inc'] & Hp & [= <-]).
    destruct (publish_ok _ _ _ _ _ Hp) as (H1 & H2 & _ & H4).
    assert (∀ x, is_Some (incoming flow !! x) → is_Some (inc' !! x)) as Hgrow by (intros x ?; apply H2; by left).
    split; simpl; [by apply Hgrow|done|]. intros id' t Ht'. destruct (H4 id') as [Heq|?]; [|by left].
    rewrite Heq in Ht'. destruct (decide (id' = id)) as [->|Hn].
    + right; right. rewrite Es in Ht'. injection Ht' as <-. exists b, s'. split; [done|]. split; [done|]. split; [done|].
      intros x Hx. apply H2. right. by rewrite Ht.
    + rewrite lookup_delete_ne by done. destruct (Hst _ _ Ht') as [Hw|[?|?]].
      * left. apply H1. apply (pop_members _ _ _ _ Hpop) in Hw as [?|?]; done.
      * by right; left.
      * right; right. by eapply settled_grow.
  - destruct (check_block_flow_ok _ _ _ _ _ _ _ Eb Hc H) as [Hc' _]. injection H' as <-.
    split; simpl; [done|done|]. intros id' t Ht'. destruct (decide (id' = id)) as [->|Hn].
    + right; left. rewrite lookup_insert_eq. eauto.
    + rewrite lookup_insert_ne by done. destruct (Hst _ _ Ht') as [Hw|?]; [|by right].
      left. apply (pop_members _ _ _ _ Hpop) in Hw as [?|?]; done.
Qed.

Lemma flow_loop_ok n flow flow' :
  flow_ok flow → flow_loop mc f index d n flow = Done (Ok flow') → flow_ok flow' ∧ members (work flow') = [].
Proof.
  revert flow. induction n as [|n IH]; intros flow Hf; simpl; destruct (pop (work flow)) as [[id w]|] eqn:Ep; try done.
  - intros [= <-]. eauto using pop_none.
  - rewrite outcome_bind_Done. intros (flow1 & H1 & H). eapply IH; [|exact H]. by eapply flow_step_ok.
  - intros [= <-]. eauto using pop_none.
Qed.

Lemma first_failure_none (failures : gmap BlockId (CheckError E)) : first_failure failures = None → failures = ∅.
Proof.
  unfold first_failure. intros H. apply map_eq. intros x. rewrite lookup_empty.
  destruct (failures !! x) as [e|] eqn:Ex; [|done].
  assert (x ∈ ordered (dom failures)) as Hx by (apply ordered_elem, elem_of_dom; by rewrite Ex).
  assert (∀ y, y ∈ ordered (dom failures) → is_Some (failures !! y)) as Hall.
  { intros y Hy. by apply ordered_elem, elem_of_dom in Hy. }
  destruct (ordered (dom failures)) as [|y l]; [by apply not_elem_of_nil in Hx|].
  destruct (Hall y ltac:(by left)) as [e' He']. congruence.
Qed.

Context (tail_obligations : gmap N ProperTailLocation).

(** The states a run leaves: the entry's, and every one is settled. *)
Definition settled_states (states : gmap BlockId State) : Prop :=
  is_Some (states !! entry f) ∧ ∀ id s, states !! id = Some s → settled states id s.

Lemma check_memory_cfg_ok ranks start observed states observed' :
  check_memory_cfg mc f index d tail_obligations ranks start observed = Done (Ok (states, observed')) →
  settled_states states.
Proof.
  unfold check_memory_cfg. rewrite outcome_bind_Done. intros (w & Hw & H).
  apply attempt_Ok in H as (flow & Hl & H). apply flow_loop_ok in Hl as [[He Hc Hst] Hm].
  - destruct (first_failure (failures flow)) eqn:Ef; [done|]. apply first_failure_none in Ef.
    apply attempt_Ok in H as (u & _ & H). apply outcome_bind_Done in H as (r & _ & [= H]).
    apply result_bind_Ok in H as (o & _ & [= <- <-]). split; [done|]. intros id s Hs.
    destruct (Hst id s Hs) as [Hx|[Hx|?]]; [rewrite Hm in Hx; by apply not_elem_of_nil in Hx| |done].
    rewrite Ef, lookup_empty in Hx. by destruct Hx.
  - split; simpl; [rewrite lookup_singleton_eq; eauto|apply no_caches_ok|].
    intros id s [<- <-]%lookup_singleton_Some. left. destruct ranks as [ranks|].
    + apply (push_members _ _ _ _ Hw). by left.
    + injection Hw as <-. by left.
Qed.

Lemma check_ranked_ok n start observed states observed' :
  check_ranked mc f index d tail_obligations n start observed = Done (Ok (states, observed')) → settled_states states.
Proof.
  unfold check_ranked. rewrite outcome_bind_Done. intros (ranks & _ & H).
  apply outcome_bind_Done in H as ([[st o]|e] & H1 & H); [injection H as -> ->; by eapply check_memory_cfg_ok|].
  apply attempt_Ok in H as (s' & _ & H). by eapply check_memory_cfg_ok.
Qed.

Lemma check_runs_ok n start observed states observed' :
  check_runs mc f index d tail_obligations n start observed = Done (Ok (states, observed')) → settled_states states.
Proof.
  unfold check_runs. destruct (256 <=? _)%nat; [|apply check_memory_cfg_ok].
  destruct (_ <? 1024)%nat; [|apply check_ranked_ok].
  rewrite outcome_bind_Done. intros ([[st o]|e] & H1 & H); [injection H as -> ->; by eapply check_memory_cfg_ok|].
  apply attempt_Ok in H as (s' & _ & H). by eapply check_ranked_ok.
Qed.
End checks.

(** ** A verdict *)

Section total.
Context {State E : Type} `{!EqDecision State} (mc : MemoryChecker State E).
Context (f : Function) (index : gmap BlockId BasicBlock) (d : Dominators).
Context (tail_obligations : gmap N ProperTailLocation).

(** Blocks that contain the entry and the targets of their branches *)
Context (R : BlockId → Prop).
Record region : Prop := {
  region_entry : R (entry f);
  region_block id : R id → is_Some (index !! id);
  region_edge id b t : R id → index !! id = Some b → t ∈ successors (terminator b) → R t;
}.
Hypothesis closed_region : region.

Definition covers (w : worklist) : Prop :=
  match w with Fifo _ => True | Heap ranks _ => ∀ x, R x → is_Some (ranks !! x) end.

Lemma push_total w id : covers w → R id → ∃ w', push w id = Done w' ∧ covers w'.
Proof.
  destruct w as [l|ranks l]; simpl; [by eexists|]. intros H Hid. destruct (H id Hid) as [r ->]. by eexists.
Qed.

Lemma pop_covers w id w' : pop w = Some (id, w') → covers w → covers w'.
Proof. destruct w as [[|b l]|ranks [|[r b] l]]; simpl; [done| |done|]; by intros [= <- <-]. Qed.

Lemma publish_total (ups : list (BlockId * State)) w inc :
  covers w → (∀ x, x ∈ ups.*1 → R x) → ∃ w' inc', publish ups w inc = Done (w', inc') ∧ covers w'.
Proof.
  revert w inc. induction ups as [|[t s] ups IH]; intros w inc Hw Hr; simpl; [by eexists _, _|].
  assert (∀ x, x ∈ ups.*1 → R x) as Hr' by (intros x Hx; apply Hr; by right).
  case_bool_decide; [by apply IH|]. destruct (push_total w t Hw) as (w1 & -> & H1); [apply Hr; by left|]. by apply IH.
Qed.

Lemma check_block_flow_total inc id b s c :
  R id → index !! id = Some b → ∃ c' r, check_block_flow mc f index d inc b s c = Done (c', r) ∧
    ∀ ups, r = Ok ups → ∀ x, x ∈ ups.*1 → R x.
Proof.
  intros Hid Eb. unfold check_block_flow. destruct (check_body _ _ _ _ _ _) as [c1 [s'|e]].
  - assert (∀ t, t ∈ (memory_successor_edges mc (terminator b) s').*1.*1 → R t) as Ht.
    { intros t Hx%edge_successor. by apply (region_edge closed_region id b). }
    destruct (carry_edges_total mc index inc (memory_successor_edges mc (terminator b) s') s' []) as [r Hr].
    { intros t Hx. by apply (region_block closed_region), Ht. }
    exists c1, r. unfold attempt. cbn [mbind outcome_bind]. rewrite Hr. split; [done|]. intros ups -> x Hx.
    apply carry_edges_targets in Hr. apply Ht. by rewrite Hr in Hx.
  - by eexists c1, _.
Qed.

Record flow_total (flow : Flow (State := State) (E := E)) : Prop := {
  total_work id : id ∈ members (work flow) → is_Some (incoming flow !! id);
  total_incoming id : is_Some (incoming flow !! id) → R id;
  total_ranks : covers (work flow);
}.

Lemma flow_step_total id w flow :
  pop (work flow) = Some (id, w) → flow_total flow →
  ∃ flow', flow_step mc f index d id w flow = Done flow' ∧ flow_total flow'.
Proof.
  intros Hp [Hw Hi Hc]. unfold flow_step. pose proof (pop_covers _ _ _ Hp Hc) as Hcw.
  assert (∀ x, x ∈ members w → is_Some (incoming flow !! x)) as Hw'.
  { intros x Hx. apply Hw, (pop_members _ _ _ _ Hp). by right. }
  destruct (Hw id) as [s Es]; [apply (pop_members _ _ _ _ Hp); by left|].
  assert (R id) as Hid by (apply Hi; by rewrite Es). destruct (region_block closed_region id Hid) as [b Eb].
  rewrite Es, Eb. destruct (check_block_flow_total (incoming flow) id b s (caches flow) Hid Eb) as (c & r & -> & Hr).
  cbn [mbind outcome_bind]. destruct r as [ups|e]; [|by eexists].
  destruct (publish_total ups w (incoming flow) Hcw (Hr ups eq_refl)) as (w' & inc' & Hpub & Hc').
  rewrite Hpub. eexists. split; [done|]. destruct (publish_ok _ _ _ _ _ Hpub) as (_ & H2 & H3 & _).
  split; simpl; [|intros x [?|?]%H2; [by apply Hi|by apply (Hr ups)]|done].
  intros x [?|?]%H3; apply H2; [left; by apply Hw'|by right].
Qed.

Lemma dataflow_total n flow :
  flow_total flow → ∃ r, flow_loop mc f index d n flow = Done r ∧ ∀ flow', r = Ok flow' → flow_total flow'.
Proof.
  revert flow. induction n as [|n IH]; intros flow Hf; simpl; destruct (pop (work flow)) as [[id w]|] eqn:Ep.
  - by eexists.
  - eexists. split; [done|]. by intros ? [= <-].
  - destruct (flow_step_total _ _ _ Ep Hf) as (flow1 & -> & H1). by apply IH.
  - eexists. split; [done|]. by intros ? [= <-].
Qed.

Lemma verify_final_total (inc : gmap BlockId State) ids c :
  (∀ id, id ∈ ids → is_Some (inc !! id) ∧ R id) → ∃ r, verify_final mc f index d inc ids c = Done r.
Proof.
  revert c. induction ids as [|id ids IH]; intros c H; simpl; [by eexists|].
  destruct (H id ltac:(by left)) as [[s ->] Hid]. destruct (region_block closed_region id Hid) as [b Eb]. rewrite Eb.
  destruct (check_block_flow_total inc id b s c Hid Eb) as (c' & r & -> & _). cbn [mbind outcome_bind].
  destruct r as [ups|e]; simpl; [|by eexists]. destruct (forallb _ _); [|by eexists].
  apply IH. intros x Hx. apply H. by right.
Qed.

Lemma observe_reached_total ids observed :
  (∀ id, id ∈ ids → R id) → ∃ r, observe_reached f index tail_obligations ids observed = Done r.
Proof.
  revert observed. induction ids as [|id ids IH]; intros observed H; simpl; [by eexists|].
  destruct (region_block closed_region id) as [b ->]; [apply H; by left|].
  assert (∀ x, x ∈ ids → R x) as H' by (intros x Hx; apply H; by right).
  destruct (tail_site _); [|by apply IH]. destruct (observe_tail_site _ _ _ _ _ _); [by apply IH|by eexists].
Qed.

Lemma check_memory_cfg_total ranks start observed :
  (∀ m, ranks = Some m → ∀ x, R x → is_Some (m !! x)) →
  ∃ r, check_memory_cfg mc f index d tail_obligations ranks start observed = Done r.
Proof.
  intros Hr. unfold check_memory_cfg.
  assert (∃ w, match ranks with None => Done (Fifo [entry f]) | Some ranks => push (Heap ranks []) (entry f) end = Done w
            ∧ covers w ∧ ∀ x, x ∈ members w → x = entry f) as (w & -> & Hw & Hm).
  { destruct ranks as [m|].
    - destruct (push_total (Heap m []) (entry f)) as (w & Hp & Hw); [exact (Hr m eq_refl)|apply closed_region|].
      exists w. split; [done|]. split; [done|]. intros x [->|[]%not_elem_of_nil]%(push_members _ _ _ _ Hp). done.
    - eexists. split; [done|]. split; [done|]. by intros x ->%list_elem_of_singleton. }
  cbn [mbind outcome_bind].
  destruct (dataflow_total (maximum_iterations f (bool_decide (is_Some ranks)))
              {| incoming := {[entry f := start]}; work := w; failures := ∅; caches := no_caches |}) as (r & Hl & Hf).
  { split; simpl; [intros id ->%Hm; rewrite lookup_singleton_eq; eauto| |done].
    intros id [s [<- _]%lookup_singleton_Some]. apply closed_region. }
  apply attempt_total; [by eexists|]. intros flow Hflow. rewrite Hl in Hflow. injection Hflow as ->.
  destruct (Hf flow eq_refl) as [_ Hi _].
  destruct (first_failure _); [by eexists|].
  assert (∀ id, id ∈ ordered (dom (incoming flow)) → is_Some (incoming flow !! id) ∧ R id) as Hids.
  { intros id Hin%ordered_elem%elem_of_dom. split; [done|by apply Hi]. }
  apply attempt_total; [destruct ranks; [by apply verify_final_total|by eexists]|]. intros _ _.
  unfold settle_tail_sites.
  destruct (observe_reached_total (ordered (dom (incoming flow))) observed) as [[o|e] ->]; [naive_solver|by eexists..].
Qed.
End total.

(** ** The postorder *)

Section postorder.
Context (f : Function) (index : gmap BlockId BasicBlock) (predecessors : gmap BlockId (gset BlockId)).

(** Visited blocks are out or on the stack, and so are their successors. *)
Record postorder_ok (stack : list (BlockId * bool)) (visited : gset BlockId) (postorder : list BlockId) : Prop := {
  order_stack b x : (b, x) ∈ stack → is_Some (index !! b);
  order_visited b : b ∈ visited → b ∈ postorder ∨ (b, true) ∈ stack;
  order_edges b t : b ∈ visited → block_edge index b t → t ∈ visited ∨ (t, false) ∈ stack;
  order_entry : entry f ∈ visited ∨ (entry f, false) ∈ stack;
}.

Lemma postorder_done visited postorder x :
  postorder_ok [] visited postorder → rtc (block_edge index) (entry f) x → x ∈ postorder.
Proof.
  intros [_ Hv He Hentry] Hx.
  assert (∀ y, rtc (block_edge index) y x → y ∈ visited → x ∈ visited) as Hreach.
  { clear Hx. induction 1 as [|y z x Hyz _ IH]; [done|]. intros Hy. apply IH. destruct (He y z Hy Hyz) as [?|?%not_elem_of_nil]; done. }
  destruct Hentry as [Hentry|?%not_elem_of_nil]; [|done].
  destruct (Hv x (Hreach _ Hx Hentry)) as [?|?%not_elem_of_nil]; done.
Qed.

Lemma postorder_expanded b stack visited postorder :
  postorder_ok ((b, true) :: stack) visited postorder → postorder_ok stack visited (postorder ++ [b]).
Proof.
  intros [Hs Hv He Hentry]. split.
  - intros b' x Hx. apply (Hs b' x). by right.
  - intros x Hx. rewrite elem_of_app, list_elem_of_singleton. destruct (Hv x Hx) as [?|[[= ->]|?]%elem_of_cons]; auto.
  - intros x t Hx Hxt. destruct (He x t Hx Hxt) as [?|[[=]|?]%elem_of_cons]; auto.
  - destruct Hentry as [?|[[=]|?]%elem_of_cons]; auto.
Qed.

Lemma postorder_again b stack visited postorder :
  b ∈ visited → postorder_ok ((b, false) :: stack) visited postorder → postorder_ok stack visited postorder.
Proof.
  intros Hb [Hs Hv He Hentry]. split.
  - intros b' x Hx. apply (Hs b' x). by right.
  - intros x Hx. destruct (Hv x Hx) as [?|[[=]|?]%elem_of_cons]; auto.
  - intros x t Hx Hxt. destruct (He x t Hx Hxt) as [?|[[= ->]|?]%elem_of_cons]; auto.
  - destruct Hentry as [?|[[= Hx]|?]%elem_of_cons]; [by left|left; by rewrite Hx|by right].
Qed.

Hypothesis indexed : index_blocks f = Ok index.
Hypothesis mapped : predecessor_map f index = Ok predecessors.

Lemma postorder_visit b body next stack visited postorder :
  index !! b = Some body → next = List.filter (λ t, negb (bool_decide (t ∈ {[b]} ∪ visited))) (successors (terminator body)) →
  postorder_ok ((b, false) :: stack) visited postorder →
  postorder_ok (List.map (λ t, (t, false)) next ++ (b, true) :: stack) ({[b]} ∪ visited) postorder.
Proof.
  intros Eb Hdef [Hs Hv He Hentry].
  assert (∀ t, t ∈ next ↔ t ∈ successors (terminator body) ∧ t ∉ {[b]} ∪ visited) as Hnext.
  { intros t. rewrite Hdef, !list_elem_of_In, filter_In, negb_true_iff, bool_decide_eq_false. done. }
  split.
  - intros b' x [Hx|[[= -> ->]|Hx]%elem_of_cons]%elem_of_app; [|by rewrite Eb|apply (Hs b' x); by right].
    apply list_elem_of_In, in_map_iff in Hx as (y & [= -> <-] & Hy%list_elem_of_In%Hnext).
    eapply edge_target; [exact indexed|exact mapped|exists body; naive_solver].
  - intros x [->%elem_of_singleton|Hx]%elem_of_union; [right; apply elem_of_app; right; by left|].
    destruct (Hv x Hx) as [?|[[=]|?]%elem_of_cons]; [by left|]. right. apply elem_of_app. right. by right.
  - intros x t Hx Hxt. destruct (decide (t ∈ {[b]} ∪ visited)) as [?|Ht]; [by left|]. right. apply elem_of_app.
    apply elem_of_union in Hx as [->%elem_of_singleton|Hx].
    + left. apply list_elem_of_In, in_map_iff. exists t. split; [done|]. apply list_elem_of_In, Hnext. split; [|done].
      destruct Hxt as (body' & Eb' & Hin). congruence.
    + destruct (He x t Hx Hxt) as [?|[[= ->]|?]%elem_of_cons]; [set_solver|set_solver|]. right. by right.
  - destruct Hentry as [?|[[= Hx]|?]%elem_of_cons]; [left; set_solver|left; set_solver|].
    right. apply elem_of_app. right. by right.
Qed.

(** It ends, with all blocks the entry reaches. *)
Lemma postorder_loop_spec k stack visited postorder :
  postorder_ok stack visited postorder → (4 * size (dom index ∖ visited) + length stack ≤ k)%nat →
  ∃ result, (∀ n, (k < n)%nat → postorder_loop n index stack visited postorder = Done result) ∧
    ∀ x, rtc (block_edge index) (entry f) x → x ∈ result.
Proof.
  revert stack visited postorder.
  induction k as [|k IH]; intros stack visited postorder Hok Hk; (destruct stack as [|[b expanded] stack];
    [exists postorder; split; [intros [|n] Hn; [lia|done]|by intros x; apply (postorder_done visited)]|simpl in Hk; try lia]).
  destruct expanded; [|destruct (decide (b ∈ visited)) as [Hb|Hb]].
  - destruct (IH stack visited (postorder ++ [b])) as (r & Hr & Hall); [by apply postorder_expanded|lia|].
    exists r. split; [|done]. intros [|n] Hn; [lia|]. apply Hr. lia.
  - destruct (IH stack visited postorder) as (r & Hr & Hall); [by eapply postorder_again|lia|].
    exists r. split; [|done]. intros [|n] Hn; [lia|]. simpl. rewrite bool_decide_true by done. apply Hr. lia.
  - destruct (order_stack _ _ _ Hok b false) as [body Eb]; [by left|].
    edestruct IH as (r & Hr & Hall); [by eapply postorder_visit| |].
    { rewrite length_app, length_map. simpl. pose proof (successors_length (terminator body)).
      pose proof (List.filter_length_le (λ t, negb (bool_decide (t ∈ {[b]} ∪ visited))) (successors (terminator body))).
      rewrite (unvisited_size index b visited) in Hk by (by rewrite ?Eb). lia. }
    exists r. split; [|done]. intros [|n] Hn; [lia|]. cbn [postorder_loop]. rewrite bool_decide_false by done.
    rewrite Eb. apply Hr. lia.
Qed.

Lemma block_indices_is_Some keys x : x ∈ keys → is_Some (block_indices keys !! x).
Proof.
  intros Hx. unfold block_indices. destruct (list_to_map _ !! x) eqn:E; [by eexists|].
  apply not_elem_of_list_to_map_2 in E. destruct E. apply list_elem_of_fmap.
  apply list_elem_of_lookup_1 in Hx as [i Hi]. exists (x, i). split; [done|]. apply elem_of_lookup_imap. eauto.
Qed.

Lemma reverse_postorder_ranks_spec :
  is_Some (index !! entry f) → ∃ k ranks,
    (∀ n, (k < n)%nat → reverse_postorder_ranks n (entry f) index = Done ranks) ∧
    ∀ x, rtc (block_edge index) (entry f) x → is_Some (ranks !! x).
Proof.
  intros He. destruct (postorder_loop_spec (4 * size (dom index ∖ ∅) + 1) [(entry f, false)] ∅ []) as (po & Hpo & Hall).
  - split; [by intros b x [= -> ->]%list_elem_of_singleton|set_solver|set_solver|right; by left].
  - simpl. lia.
  - eexists _, (block_indices (List.rev po)). split.
    + intros n Hn. unfold reverse_postorder_ranks. by rewrite (Hpo n Hn).
    + intros x Hx%Hall. apply block_indices_is_Some. by apply list_elem_of_In, in_rev; rewrite rev_involutive; apply list_elem_of_In.
Qed.
End postorder.

(** ** A checked function *)

Section function.
Context {State E : Type} `{!EqDecision State} (mc : MemoryChecker State E).
Context (tail_obligations : gmap N ProperTailLocation) (observed : gset N) (f : Function).

(** What a positive verdict is made of *)
Lemma check_function_Ok n index states observed' :
  index_blocks f = Ok index →
  check_function n mc tail_obligations observed f = Done (Ok (states, observed')) →
  ∃ predecessors d, flow_graph f index predecessors d ∧ dominators n f index predecessors = Done (Ok d) ∧
    settled_states mc f index d states.
Proof.
  intros Ei. unfold check_function. rewrite Ei. intros (index' & [= <-] & H)%attempt_Ok.
  apply attempt_Ok in H as (b & Eb%done_map_error_Ok & H). apply attempt_Ok in H as (u & _ & H).
  apply attempt_Ok in H as ([] & Ev%done_map_error_Ok & H). apply attempt_Ok in H as (u' & _ & H).
  apply attempt_Ok in H as (preds & Ep%done_map_error_Ok & H). apply outcome_bind_Done in H as (d' & Ed & H).
  apply attempt_Ok in H as (d & ->%done_map_error_Ok & H). apply attempt_Ok in H as (start & _ & H).
  apply attempt_Ok in H as (o & _ & H). apply check_runs_ok in H; [|done].
  exists preds, d. split; [|done]. split; [done| |done|done|by exists n].
  destruct (index !! entry f); [by eexists|done].
Qed.

(** The blocks the entry reaches *)
Lemma reached_region index predecessors :
  index_blocks f = Ok index → predecessor_map f index = Ok predecessors → is_Some (index !! entry f) →
  region f index (rtc (block_edge index) (entry f)).
Proof.
  intros Ei Ep He. split; [done| |].
  - intros id Hr. destruct (rtc_inv_r _ _ Hr) as [<-|(x & _ & Hx)]; [done|]. by eapply edge_target.
  - intros id b t Hr Eb Ht. eapply rtc_r; [exact Hr|by exists b].
Qed.

Lemma check_runs_total index predecessors d start obs :
  index_blocks f = Ok index → predecessor_map f index = Ok predecessors → is_Some (index !! entry f) →
  ∃ k r, ∀ n, (k < n)%nat → check_runs mc f index d tail_obligations n start obs = Done r.
Proof.
  intros Ei Ep He. pose proof (reached_region _ _ Ei Ep He) as Hreg.
  destruct (reverse_postorder_ranks_spec f index predecessors Ei Ep He) as (k & ranks & Hk & Hranks).
  assert (∀ rs s, (∀ m, rs = Some m → ∀ x, rtc (block_edge index) (entry f) x → is_Some (m !! x)) →
    ∃ r, check_memory_cfg mc f index d tail_obligations rs s obs = Done r) as Hcfg.
  { intros rs s. by apply (check_memory_cfg_total mc f index d tail_obligations _ Hreg). }
  assert (∀ s, ∃ r, ∀ n, (k < n)%nat → check_ranked mc f index d tail_obligations n s obs = Done r) as Hrank.
  { intros s. destruct (Hcfg (Some ranks) s) as [r Hr]; [by intros m [= <-]|].
    destruct r as [r|e].
    - exists (Ok r). intros n Hn. unfold check_ranked. rewrite (Hk n Hn). cbn [mbind outcome_bind]. by rewrite Hr.
    - destruct (new_checker mc) as [s2|e2] eqn:Enew.
      + destruct (Hcfg None s2) as [r2 Hr2]; [done|]. exists r2. intros n Hn. unfold check_ranked.
        rewrite (Hk n Hn). cbn [mbind outcome_bind]. rewrite Hr, Enew. done.
      + eexists. intros n Hn. unfold check_ranked. rewrite (Hk n Hn). cbn [mbind outcome_bind]. rewrite Hr, Enew. done. }
  exists k. unfold check_runs. destruct (256 <=? _)%nat; [|destruct (Hcfg None start) as [r ->]; [done|by eexists]].
  destruct (_ <? 1024)%nat; [|apply Hrank].
  destruct (Hcfg (Some (block_indices (ordered (dom index)))) start) as [[r|e] ->]; [|by eexists|].
  { intros m [= <-] x Hx. apply block_indices_is_Some, ordered_elem, elem_of_dom. by apply (region_block _ _ _ Hreg). }
  cbn [mbind outcome_bind]. destruct (new_checker mc) as [s2|e2]; [apply Hrank|by eexists].
Qed.

Lemma check_function_total :
  ∃ n r, ∀ m, (n ≤ m)%nat → check_function m mc tail_obligations observed f = Done r.
Proof.
  unfold check_function. destruct (index_blocks f) as [index|e] eqn:Ei; [|by eexists 0%nat, _].
  unfold attempt. cbn [mbind outcome_bind map_error].
  destruct (index !! entry f) as [b|] eqn:Eb; cbn [mbind outcome_bind map_error ok_or]; [|by eexists 0%nat, _].
  destruct (check_entry_parameters mc b); cbn [mbind outcome_bind map_error ok_or]; [|by eexists 0%nat, _].
  destruct (check_value_definitions f); cbn [mbind outcome_bind map_error ok_or]; [|by eexists 0%nat, _].
  destruct (existsb _ _); cbn [mbind outcome_bind fail_if]; [by eexists 0%nat, _|].
  destruct (predecessor_map f index) as [preds|e] eqn:Ep; cbn [mbind outcome_bind map_error ok_or]; [|by eexists 0%nat, _].
  assert (is_Some (index !! entry f)) as He by (by rewrite Eb).
  destruct (dominators_spec f index preds Ei Ep He) as (n & d & Hn & _).
  destruct (new_checker mc) as [start|e] eqn:Enew.
  2: { eexists n, _. intros m Hm. rewrite (Hn m Hm). done. }
  destruct (check_tail_sites _ _ _ _ _) as [o|e].
  2: { eexists n, _. intros m Hm. rewrite (Hn m Hm). done. }
  destruct (check_runs_total index preds d start o Ei Ep He) as (k & r & Hr).
  exists (max n (S k)), r. intros m Hm. rewrite (Hn m) by lia. apply (Hr m). lia.
Qed.

Lemma open_path_settled index d states id i D :
  index_blocks f = Ok index → settled_states mc f index d states →
  open_path mc f index states id i D → path f index id i D ∧ is_Some (states !! id).
Proof.
  intros Ei [He Hst]. induction 1 as [b Eb|id i D b op _ [IH Hs] Eb Eop|id D b t b' _ [IH [s Hs]] Eb Ht Hn Eb'].
  - split; [by constructor|done].
  - split; [by eapply path_operation|done].
  - split; [by eapply path_edge|]. destruct (Hst id s Hs) as (b1 & s' & Eb1 & Hbody & _ & Hedges). simplify_eq.
    apply Hedges. destruct (decide (t ∈ (memory_successor_edges mc (terminator b) s').*1.*1)) as [|Hout]; [done|].
    destruct Hn. exists s, s'. apply (index_blocks_spec _ _ Ei) in Eb as [_ ->]. done.
Qed.

(** A visited block's uses are checked. *)
Lemma settled_uses index d states id b :
  settled_states mc f index d states → is_Some (states !! id) → index !! id = Some b →
  check_block_uses (function_id f) (definition_sites f) d b = Ok tt.
Proof. intros [_ Hst] [s Hs] Eb. destruct (Hst id s Hs) as (b1 & s' & Eb1 & _ & Hu & _). congruence. Qed.

(** All blocks visited is the strict condition. *)
Lemma all_visited_strict n index predecessors d states :
  flow_graph f index predecessors d → dominators n f index predecessors = Done (Ok d) →
  settled_states mc f index d states → dom states = dom index → strict_flow n f = Done (Ok tt).
Proof.
  intros [Ei [b Eb] Ev Ep _] Ed Hst Hdom. unfold strict_flow. rewrite Ei, Eb, Ev, Ep, Ed. simpl.
  unfold strict_uses. destruct (mapM_total (check_block_uses (function_id f) (definition_sites f) d) (blocks f)) as [l ->]; [|done].
  intros x Hx. exists tt. assert (index !! block_id x = Some x) as Ex by by apply (index_blocks_spec _ _ Ei).
  apply (settled_uses index d states (block_id x)); [done| |done]. apply elem_of_dom. rewrite Hdom. by eapply elem_of_dom_2.
Qed.
End function.

(** ** A sample *)

(** The facts of [MemoryState] that decide branches *)
Record Facts : Type := {
  constants : gmap ValueId N;
  comparisons : gmap ValueId (ComparisonOperator * ValueId * ValueId);
}.

#[export] Instance facts_eq_dec : EqDecision Facts.
Proof. solve_decision. Defined.

(** [left as i64] of a [u64], and [u32::try_from(left).ok()? as i32] *)
Definition signed_64 (x : N) : Z := if (x <? 2 ^ 63)%N then Z.of_N x else (Z.of_N x - 2 ^ 64)%Z.
Definition signed_32 (x : N) : option Z :=
  if (x <? 2 ^ 31)%N then Some (Z.of_N x) else if (x <? 2 ^ 32)%N then Some (Z.of_N x - 2 ^ 32)%Z else None.

Definition signed_operands (t : ValueType) (l r : N) : option (Z * Z) :=
  match t with
  | ValueType.Size => l ← signed_32 l; r ← signed_32 r; Some (l, r)
  | ValueType.Int => Some (signed_64 l, signed_64 r)
  | _ => None
  end.

Definition decide_condition (f : Function) (facts : Facts) (condition : ValueId) : option bool :=
  '(operator, left_value, right_value) ← comparisons facts !! condition;
  l ← constants facts !! left_value;
  r ← constants facts !! right_value;
  t ← value_types f !! left_value;
  '(signed_left, signed_right) ← signed_operands t l r;
  Some match operator with
       | Equal => (l =? r)%N
       | NotEqual => negb (l =? r)%N
       | LessSigned => (signed_left <? signed_right)%Z
       | LessUnsigned => (l <? r)%N
       | LessEqualSigned => (signed_left <=? signed_right)%Z
       | LessEqualUnsigned => (l <=? r)%N
       | GreaterSigned => (signed_right <? signed_left)%Z
       | GreaterUnsigned => (r <? l)%N
       | GreaterEqualSigned => (signed_right <=? signed_left)%Z
       | GreaterEqualUnsigned => (r <=? l)%N
       end.

(** A checker of these facts alone, for functions whose blocks but the entry
    have no parameters *)
Definition facts_checker (f : Function) : MemoryChecker Facts unit := {|
  check_entry_parameters _ := Ok tt;
  new_checker := Ok {| constants := ∅; comparisons := ∅ |};
  check_operation op s :=
    Ok match op with
       | Operation.ConstInt destination value =>
           if (0 <=? value)%Z
           then {| constants := <[destination := Z.to_N value]> (constants s); comparisons := comparisons s |}
           else s
       | Operation.ConstSize destination value =>
           {| constants := <[destination := value]> (constants s); comparisons := comparisons s |}
       | Operation.Compare destination operator l r =>
           {| constants := constants s; comparisons := <[destination := (operator, l, r)]> (comparisons s) |}
       | _ => s
       end;
  end_affine_borrows_at _ s := Ok s;
  check_terminator _ _ s := Ok s;
  constant_condition := decide_condition f;
  assume_true_bounds_comparison _ s := Ok s;
  transfer_edge _ _ s := Ok (s, s);
  meet _ _ s s' :=
    Ok {| constants := map_filter (λ x, constants s' !! x.1 = Some x.2) _ (constants s);
          comparisons := map_filter (λ x, comparisons s' !! x.1 = Some x.2) _ (comparisons s) |};
|}.

Definition deciding_block : BasicBlock := {|
  block_id := 0; parameters := [];
  operations := [Operation.ConstInt 0 1; Operation.ConstInt 1 0; Operation.Compare 2 LessSigned 0 1];
  terminator := Terminator.BranchIf 2 1 [] 2 [];
|}.

Definition returning_block : BasicBlock := {|
  block_id := 2; parameters := []; operations := [Operation.ConstInt 3 5]; terminator := Terminator.Return [3%N];
|}.

(** [if 1 < 0 { return v } else { v = 5; return v }]: the first block after
    the branch returns a value that nothing on the way defines. *)
Definition decided_branch : Function := {|
  function_id := 0; function_signature := 0; entry := 0;
  value_types := list_to_map [(0%N, ValueType.Int); (1%N, ValueType.Int); (2%N, ValueType.Bool); (3%N, ValueType.Int)];
  blocks := [
    deciding_block;
    {| block_id := 1; parameters := []; operations := []; terminator := Terminator.Return [3%N] |};
    returning_block
  ];
|}.

Definition decided_states : gmap BlockId Facts :=
  match check_function 20 (facts_checker decided_branch) ∅ ∅ decided_branch with
  | Done (Ok (states, _)) => states
  | _ => ∅
  end.

Definition decided_index : gmap BlockId BasicBlock :=
  match index_blocks decided_branch with Ok index => index | Err _ => ∅ end.

(** What the path to the end of its last block defines *)
Definition decided_values : gset ValueId :=
  list_to_set [] ∪ list_to_set [0%N] ∪ list_to_set [1%N] ∪ list_to_set [2%N] ∪ list_to_set [] ∪ list_to_set [3%N].

Lemma decided_accepted :
  check_function 20 (facts_checker decided_branch) ∅ ∅ decided_branch = Done (Ok (decided_states, ∅)).
Proof. vm_compute. reflexivity. Qed.

Lemma decided_edge : ¬ ruled_out (facts_checker decided_branch) decided_states deciding_block 2.
Proof.
  intros (s & s' & Hs & Hb & Ht). vm_compute in Hs. injection Hs as <-. vm_compute in Hb. injection Hb as <-.
  apply Ht. vm_compute. apply list_elem_of_here.
Qed.

Lemma decided_path :
  open_path (facts_checker decided_branch) decided_branch decided_index decided_states 2 1 decided_values.
Proof.
  assert (decided_index !! 0%N = Some deciding_block) as E by (vm_compute; reflexivity).
  eapply (open_operation _ _ _ _ 2 0 _ returning_block (Operation.ConstInt 3 5)); [|vm_compute; reflexivity..].
  eapply (open_edge _ _ _ _ 0 _ deciding_block 2 returning_block); [|done| |exact decided_edge|vm_compute; reflexivity].
  2: apply list_elem_of_further, list_elem_of_here.
  eapply (open_operation _ _ _ _ 0 2 _ _ (Operation.Compare 2 LessSigned 0 1)); [|exact E|done].
  eapply (open_operation _ _ _ _ 0 1 _ _ (Operation.ConstInt 1 0)); [|exact E|done].
  eapply (open_operation _ _ _ _ 0 0 _ _ (Operation.ConstInt 0 1)); [|exact E|done].
  by eapply (open_entry _ decided_branch _ _ deciding_block).
Qed.

(** ** The theorem *)


