(* ===== verification/ScalarMachine.v ===== *)
(** * ScalarMachine: what a function of the representation does

    The scalar part of [check_operation]
    ([crates/witchy-wir/src/canonical_safewir/check.rs]) and the machine a
    function stands for, as the encoder
    ([crates/witchy-wir/src/canonical_wasmir/emit.rs]) emits its operations:
    a value is a WebAssembly local of the width of its type, read as zero
    before it is set; constants, integer comparisons, width changes, guards
    and branches compute on the locals.  Every other operation (memory,
    arithmetic, calls, floats, host) is the parameter [perform], a relation
    from the locals and a world to a trap or to results and a new world. *)

From S2P Require Import Prelude SafeWir SsaPaths.

(** ** The scalar checks *)

Definition require_value_type (f : Function) (value : ValueId) : result InitialCheckError ValueType :=
  ok_or (value_types f !! value) (MissingValueType (function_id f) value).

Definition require_type (f : Function) (value : ValueId) (expected : ValueType) : result InitialCheckError unit :=
  actual ← require_value_type f value;
  fail_if (negb (bool_decide (actual = expected))) (TypeMismatch (function_id f) value expected actual).

Definition scalar_arithmetic_is_backend_total (type : ValueType) (operator : ArithmeticOperator)
    (overflow : OverflowBehavior) : bool :=
  match type, operator, overflow with
  | (ValueType.Int | ValueType.Size),
    (Add | Subtract | Multiply | BitAnd | BitOr | BitXor | ShiftLeft | ShiftRightSigned | ShiftRightUnsigned), Wrap => true
  | (ValueType.Int | ValueType.Size),
    (DivideSigned | DivideUnsigned | RemainderSigned | RemainderUnsigned), Trapping => true
  | (ValueType.Int | ValueType.Size), Add, Trapping => true
  | ValueType.Float, (Add | Subtract | Multiply | DivideSigned | DivideUnsigned), Wrap => true
  | _, _, _ => false
  end.

Definition scalar_comparison_is_backend_total (type : ValueType) (operator : ComparisonOperator) : bool :=
  match type with
  | ValueType.Int | ValueType.Size | ValueType.Float => true
  | ValueType.Bool => match operator with Equal | NotEqual => true | _ => false end
  | _ => false
  end.

Definition u32_limit : N := 2 ^ 32.

(** The arms of [check_operation] that read the function alone; the others
    are judged with the module. *)
Definition check_scalar_operation (f : Function) (operation : Operation) : result InitialCheckError unit :=
  let unsupported s := Err (UnsupportedScalarOperation (function_id f) s) in
  match operation with
  | Operation.ConstInt destination _ => require_type f destination ValueType.Int
  | Operation.ConstFloat destination _ => require_type f destination ValueType.Float
  | Operation.ConstUnit destination => require_type f destination ValueType.Unit
  | Operation.ConstBool destination _ => require_type f destination ValueType.Bool
  | Operation.ConstSize destination value =>
      require_type f destination ValueType.Size;;
      if (value <? u32_limit)%N then Ok tt else unsupported "ConstSize outside Wasm32"%string
  | Operation.CapabilityNone destination kind => require_type f destination (ValueType.NullableCapability kind)
  | Operation.CapabilitySome destination source =>
      actual ← require_value_type f source;
      match actual with
      | ValueType.Capability kind => require_type f destination (ValueType.NullableCapability kind)
      | _ => Err (TypeMismatch (function_id f) source (ValueType.Capability 0) actual)
      end
  | Operation.CapabilityIsPresent destination source =>
      require_type f destination ValueType.Bool;;
      actual ← require_value_type f source;
      match actual with
      | ValueType.NullableCapability _ => Ok tt
      | _ => Err (TypeMismatch (function_id f) source (ValueType.NullableCapability 0) actual)
      end
  | Operation.CapabilityUnwrap destination source =>
      actual ← require_value_type f source;
      match actual with
      | ValueType.NullableCapability kind => require_type f destination (ValueType.Capability kind)
      | _ => Err (TypeMismatch (function_id f) source (ValueType.NullableCapability 0) actual)
      end
  | Operation.Arithmetic destination operator l r overflow =>
      type ← require_value_type f destination;
      if negb (scalar_arithmetic_is_backend_total type operator overflow)
      then unsupported "Arithmetic operator/type/overflow combination"%string
      else require_type f l type;; require_type f r type
  | Operation.Compare destination operator l r =>
      require_type f destination ValueType.Bool;;
      type ← require_value_type f l;
      if negb (scalar_comparison_is_backend_total type operator)
      then unsupported "Compare operator/type combination"%string
      else require_type f r type
  | Operation.NarrowSize destination value _ =>
      require_type f destination ValueType.Size;; require_type f value ValueType.Int
  | Operation.WidenSize destination value =>
      require_type f destination ValueType.Int;; require_type f value ValueType.Size
  | Operation.FloatUnary destination operator value =>
      let '(operand, type) := match operator with
                              | Sqrt => (ValueType.Float, ValueType.Float)
                              | TruncateToInt => (ValueType.Float, ValueType.Int)
                              | FromInt => (ValueType.Int, ValueType.Float)
                              end in
      require_type f destination type;; require_type f value operand
  | Operation.Guard condition _ => require_type f condition ValueType.Bool
  | _ => Ok tt
  end.

(** Every operation of the function passes its scalar check. *)
Definition scalar_checked (f : Function) : Prop :=
  ∀ b op, b ∈ blocks f → op ∈ operations b → check_scalar_operation f op = Ok tt.

(** ** Locals *)

Abbreviation locals := (gmap ValueId N).

Definition u64_limit : N := 2 ^ 64.

(** What a local of a type holds ([wasm_value_type]). *)
Definition fit (type : option ValueType) (x : N) : N :=
  match type with
  | Some (ValueType.Int) => (x mod u64_limit)%N
  | Some (ValueType.Bool | ValueType.Unit | ValueType.Size) => (x mod u32_limit)%N
  | _ => x
  end.

Definition get (e : locals) (v : ValueId) : N := default 0%N (e !! v).

Definition set (f : Function) (e : locals) (v : ValueId) (x : N) : locals := <[v := fit (value_types f !! v) x]> e.

Fixpoint set_all (f : Function) (e : locals) (vs : list ValueId) (xs : list N) : locals :=
  match vs, xs with
  | v :: vs, x :: xs => set_all f (set f e v x) vs xs
  | _, _ => e
  end.

(** ** Scalar operations *)

Definition signed (limit x : N) : Z := if (2 * x <? limit)%N then Z.of_N x else (Z.of_N x - Z.of_N limit)%Z.

Definition compare_words (limit : N) (operator : ComparisonOperator) (x y : N) : bool :=
  match operator with
  | Equal => (x =? y)%N
  | NotEqual => negb (x =? y)%N
  | LessSigned => (signed limit x <? signed limit y)%Z
  | LessUnsigned => (x <? y)%N
  | LessEqualSigned => (signed limit x <=? signed limit y)%Z
  | LessEqualUnsigned => (x <=? y)%N
  | GreaterSigned => (signed limit y <? signed limit x)%Z
  | GreaterUnsigned => (y <? x)%N
  | GreaterEqualSigned => (signed limit y <=? signed limit x)%Z
  | GreaterEqualUnsigned => (y <=? x)%N
  end.

(** The width [emit_compare] compares at, if it compares integers. *)
Definition compare_limit (type : option ValueType) : option N :=
  match type with
  | Some (ValueType.Int) => Some u64_limit
  | Some (ValueType.Size | ValueType.Bool) => Some u32_limit
  | _ => None
  end.

(** A scalar operation sets locals or traps; another is the world's. *)
Inductive effect : Type := Next (e : locals) | Traps | World.

Definition scalar_effect (f : Function) (e : locals) (operation : Operation) : effect :=
  match operation with
  | Operation.ConstInt destination value => Next (set f e destination (Z.to_N (value mod Z.of_N u64_limit)))
  | Operation.ConstBool destination value => Next (set f e destination (if value : bool then 1 else 0))
  | Operation.ConstSize destination value => Next (set f e destination value)
  | Operation.Compare destination operator l r =>
      match compare_limit (value_types f !! l) with
      | Some limit => Next (set f e destination (if compare_words limit operator (get e l) (get e r) then 1 else 0))
      | None => World
      end
  | Operation.NarrowSize destination value exact =>
      if negb exact && (u32_limit - 1 <? get e value)%N then Traps
      else Next (set f e destination (get e value mod u32_limit))
  | Operation.WidenSize destination value => Next (set f e destination (get e value))
  | Operation.Guard condition _ => if (get e condition =? 0)%N then Traps else Next e
  | _ => World
  end.

(** ** The machine *)

Section machine.
Context {W : Type} (perform : Operation → locals → W → option (list N * W) → Prop).

Inductive state : Type :=
  | Running (block : BlockId) (operation : nat) (e : locals) (w : W)
  | Returned (values : list N) (w : W)
  | TailCalled (site callee : N) (arguments : list N) (w : W)
  | VarTailCalled (site callee signature : N) (arguments : list N) (w : W)
  | Trapped (w : W).

Definition final (s : state) : Prop := match s with Running _ _ _ _ => False | _ => True end.

Section run.
Context (f : Function) (index : gmap BlockId BasicBlock).

(** [None] is a target that is no block. *)
Definition enter (e : locals) (w : W) (target : BlockId) (arguments : list ValueId) : option state :=
  b ← index !! target;
  Some (Running target 0 (set_all f e (block_parameters b) (List.map (get e) arguments)) w).

Definition leave (e : locals) (w : W) (terminator : Terminator) : option state :=
  match terminator with
  | Terminator.Branch target arguments => enter e w target arguments
  | Terminator.BranchIf condition then_target then_arguments else_target else_arguments =>
      if (get e condition =? 0)%N then enter e w else_target else_arguments
      else enter e w then_target then_arguments
  | Terminator.Return values => Some (Returned (List.map (get e) values) w)
  | Terminator.TailCall site callee arguments =>
      Some (TailCalled site callee (List.map (get e) (argument_uses arguments)) w)
  | Terminator.VarTailCall site callee signature arguments =>
      Some (VarTailCalled site (get e callee) signature (List.map (get e) (argument_uses arguments)) w)
  | Terminator.Trap | Terminator.Unreachable => Some (Trapped w)
  end.

Inductive step : state → state → Prop :=
  | step_next id b i op e e' w :
      index !! id = Some b → operations b !! i = Some op → scalar_effect f e op = Next e' →
      step (Running id i e w) (Running id (S i) e' w)
  | step_trap id b i op e w :
      index !! id = Some b → operations b !! i = Some op → scalar_effect f e op = Traps →
      step (Running id i e w) (Trapped w)
  | step_world id b i op e w xs w' :
      index !! id = Some b → operations b !! i = Some op → scalar_effect f e op = World →
      perform op e w (Some (xs, w')) →
      step (Running id i e w) (Running id (S i) (set_all f e (operation_destinations op) xs) w')
  | step_world_trap id b i op e w :
      index !! id = Some b → operations b !! i = Some op → scalar_effect f e op = World →
      perform op e w None → step (Running id i e w) (Trapped w)
  | step_leave id b e w s :
      index !! id = Some b → leave e w (terminator b) = Some s →
      step (Running id (length (operations b)) e w) s.

(** The state in which the function starts on its arguments. *)
Definition start (arguments : list N) (w : W) : option state :=
  b ← index !! entry f;
  Some (Running (entry f) 0 (set_all f ∅ (block_parameters b) arguments) w).

Definition reaches (arguments : list N) (w : W) (s : state) : Prop :=
  ∃ s0, start arguments w = Some s0 ∧ rtc step s0 s.
End run.
End machine.

Arguments state : clear implicits.

(** ** Locals keep to their width *)

Lemma get_set f e v x u : get (set f e v x) u = if bool_decide (u = v) then fit (value_types f !! v) x else get e u.
Proof.
  unfold get, set. case_bool_decide as H; [subst; by rewrite lookup_insert_eq|by rewrite lookup_insert_ne].
Qed.

Lemma get_set_all_other f vs e xs u : u ∉ vs → get (set_all f e vs xs) u = get e u.
Proof.
  revert e xs. induction vs as [|v vs IH]; intros e xs Hu; [done|]. destruct xs as [|x xs]; [done|].
  apply not_elem_of_cons in Hu as [Huv Hu]. simpl. rewrite IH by done. rewrite get_set.
  by rewrite bool_decide_eq_false_2.
Qed.

(** Every integer local holds a word of its width. *)
Definition fits (f : Function) (e : locals) : Prop := ∀ v, fit (value_types f !! v) (get e v) = get e v.

Lemma fit_idempotent type x : fit type (fit type x) = fit type x.
Proof.
  assert (∀ m, m ≠ 0 → (x mod m) mod m = x mod m)%N as H by (intros m Hm; by apply N.Div0.mod_mod).
  destruct type as [[]|]; simpl; by try apply H.
Qed.

Lemma fits_empty f : fits f ∅.
Proof. intros v. unfold get. rewrite lookup_empty. simpl. by destruct (value_types f !! v) as [[]|]. Qed.

Lemma fits_set f e v x : fits f e → fits f (set f e v x).
Proof.
  intros H u. rewrite get_set. case_bool_decide as Hu; [subst; apply fit_idempotent|apply H].
Qed.

Lemma fits_set_all f vs e xs : fits f e → fits f (set_all f e vs xs).
Proof.
  revert e xs. induction vs as [|v vs IH]; intros e xs H; [done|]. destruct xs as [|x xs]; [done|]. simpl.
  by apply IH, fits_set.
Qed.

Lemma fits_size f e v : fits f e → value_types f !! v = Some ValueType.Size → (get e v < u32_limit)%N.
Proof. intros H E. specialize (H v). rewrite E in H. simpl in H. rewrite <- H. by apply N.mod_lt. Qed.

Lemma fits_effect f e op e' : fits f e → scalar_effect f e op = Next e' → fits f e'.
Proof.
  intros H. destruct op; simpl; try done; repeat case_match; intros; simplify_eq; try by apply fits_set. done.
Qed.

Lemma effect_other f e op e' u :
  scalar_effect f e op = Next e' → u ∉ operation_destinations op → get e' u = get e u.
Proof.
  destruct op; simpl; try done; repeat case_match; intros E Hu; simplify_eq; try done;
    rewrite get_set, bool_decide_eq_false_2 by set_solver; done.
Qed.
