(* ===== verification/ScalarLocals.v ===== *)
(** * ScalarLocals: values that share a WebAssembly local

    Models [crates/witchy-wir/src/canonical_wasmir/scalar_locals.rs] (the
    allocation [slots] of shared locals to scalar temporaries and its
    independent check [verify]) and the part of [local_layout]
    ([canonical_wasmir/emit.rs]) that gives every value its local.  An index
    is a number without bound: a function has fewer than 2^32 values.

    The machine of [ScalarMachine] has one local per value.  Here it runs on
    the locals of a layout, where a write to one value changes all that share
    its local, and the theorem compares the two. *)

From S2P Require Import Prelude SafeWir Dominance SsaPaths ScalarMachine.

(** * Definitions *)

(** A slot of a pool, the pool one of three kinds. *)
Abbreviation Slot := (nat * N)%type.

(** ** [slots] *)

(** Where a value is used, if in one block and not by what pins it. *)
Abbreviation UseSite := (option (BlockId * nat)).

Definition note_use (uses : gmap ValueId UseSite) (value : ValueId) (block : BlockId) (position : nat)
    (pinned : bool) : gmap ValueId UseSite :=
  match uses !! value with
  | None => <[value := if pinned then None else Some (block, position)]> uses
  | Some (Some (previous, last)) =>
      <[value := if negb pinned && (previous =? block)%N then Some (block, Nat.max last position) else None]> uses
  | Some None => uses
  end.

Definition scalar_destination (operation : Operation) : option ValueId :=
  match operation with
  | Operation.ConstInt destination _
  | Operation.ConstFloat destination _
  | Operation.ConstBool destination _
  | Operation.ConstUnit destination
  | Operation.ConstSize destination _
  | Operation.Arithmetic destination _ _ _ _
  | Operation.Compare destination _ _ _
  | Operation.NarrowSize destination _ _
  | Operation.WidenSize destination _
  | Operation.FloatUnary destination _ _
  | Operation.Load destination _ _
  | Operation.MoveValue destination _ => Some destination
  | _ => None
  end.

Definition scalar_kind (type : ValueType) : option nat :=
  match type with
  | ValueType.Bool | ValueType.Unit | ValueType.Size => Some 0%nat
  | ValueType.Int => Some 1%nat
  | ValueType.Float => Some 2%nat
  | _ => None
  end.

Definition runtime_uses (operation : Operation) : list ValueId :=
  (operation_uses operation ++
  match operation with
  | Operation.Alloc _ _ (Counted _ count capacity _) _ => [count; capacity]
  | _ => []
  end)%list.

Definition makes_aggregate (operation : Operation) : bool :=
  match operation with Operation.MakeInlineAggregate _ _ _ => true | _ => false end.

Definition note_uses (block : BlockId) (position : nat) (pinned : bool) (values : list ValueId)
    (uses : gmap ValueId UseSite) : gmap ValueId UseSite :=
  List.fold_left (λ uses v, note_use uses v block position pinned) values uses.

Fixpoint note_operations (block : BlockId) (position : nat) (operations : list Operation)
    (uses : gmap ValueId UseSite) : gmap ValueId UseSite :=
  match operations with
  | [] => uses
  | operation :: operations =>
      note_operations block (S position) operations
        (note_uses block position (makes_aggregate operation) (runtime_uses operation) uses)
  end.

Definition note_block (uses : gmap ValueId UseSite) (b : BasicBlock) : gmap ValueId UseSite :=
  note_uses (block_id b) (length (operations b)) true (terminator_uses (terminator b))
    (note_operations (block_id b) 0 (operations b) uses).

Definition use_sites (f : Function) : gmap ValueId UseSite := List.fold_left note_block (blocks f) ∅.

(** From a definition to the last use. *)
Record Interval : Set := { begin : nat; until : nat; temporary : ValueId }.

Section intervals.
Context (f : Function) (uses : gmap ValueId UseSite) (block : BlockId) (kind : nat).

(** The interval an operation adds to the pool of a kind. *)
Definition interval (position : nat) (operation : Operation) : option Interval :=
  value ← scalar_destination operation;
  type ← value_types f !! value;
  k ← scalar_kind type;
  use ← uses !! value;
  '(use_block, last) ← use;
  if (k =? kind)%nat && (use_block =? block)%N && (position <=? last)%nat
  then Some {| begin := position; until := last; temporary := value |} else None.

Fixpoint intervals_from (position : nat) (operations : list Operation) : list Interval :=
  match operations with
  | [] => []
  | operation :: operations =>
      (match interval position operation with Some i => [i] | None => [] end ++
       intervals_from (S position) operations)%list
  end.
End intervals.

(** [active], a [BTreeMap] ordered by the end of the interval and the value. *)
Abbreviation Active := (list ((nat * ValueId) * N)).

Record Pool : Type := {
  pool_size : N;
  free : gset N;
  active : Active;
  assigned : gmap ValueId Slot;
}.

(** The loop that pops the intervals that ended before [b]. *)
Fixpoint expire (b : nat) (active : Active) (free : gset N) : Active * gset N :=
  match active with
  | ((last, value), slot) :: rest =>
      if (last <? b)%nat then expire b rest ({[slot]} ∪ free) else (active, free)
  | [] => ([], free)
  end.

Definition key_before (a b : nat * ValueId) : bool :=
  (fst a <? fst b)%nat || ((fst a =? fst b)%nat && (snd a <? snd b)%N).

Fixpoint activate (key : nat * ValueId) (slot : N) (active : Active) : Active :=
  match active with
  | [] => [(key, slot)]
  | (k, s) :: rest =>
      if key_before key k then (key, slot) :: active
      else if bool_decide (key = k) then (key, slot) :: rest
      else (k, s) :: activate key slot rest
  end.

(** One interval; [pop_first] takes the least free slot. *)
Definition assign_interval (kind : nat) (p : Pool) (i : Interval) : Pool :=
  let '(still, free) := expire (begin i) (active p) (free p) in
  let '(slot, free, size) :=
    match ordered free with
    | slot :: _ => (slot, free ∖ {[slot]}, pool_size p)
    | [] => (pool_size p, free, (pool_size p + 1)%N)
    end in
  {| pool_size := size; free := free; active := activate (until i, temporary i) slot still;
     assigned := <[temporary i := (kind, slot)]> (assigned p) |}.

(** [(0..size).collect()] *)
Definition all_slots (size : N) : gset N := list_to_set (N.of_nat <$> seq 0 (N.to_nat size)).

Definition assign_kind (f : Function) (uses : gmap ValueId UseSite) (b : BasicBlock)
    (st : list N * gmap ValueId Slot) (kind : nat) : list N * gmap ValueId Slot :=
  let size := default 0%N (fst st !! kind) in
  let p := List.fold_left (assign_interval kind)
             (intervals_from f uses (block_id b) kind 0 (operations b))
             {| pool_size := size; free := all_slots size; active := []; assigned := snd st |} in
  (<[kind := pool_size p]> (fst st), assigned p).

Definition assign_block (f : Function) (uses : gmap ValueId UseSite)
    (st : list N * gmap ValueId Slot) (b : BasicBlock) : list N * gmap ValueId Slot :=
  List.fold_left (assign_kind f uses b) [0; 1; 2]%nat st.

Definition slots (f : Function) : gmap ValueId Slot :=
  snd (List.fold_left (assign_block f (use_sites f)) (blocks f) ([0; 0; 0]%N, ∅)).

(** ** [verify] *)

Definition definitions (operation : Operation) : list ValueId :=
  match operation with
  | Operation.ClosureOwner owner => carried_destinations owner
  | Operation.Dictionary operation => carried_destinations operation
  | Operation.ConstInt destination _ | Operation.ConstFloat destination _
  | Operation.ConstBool destination _ | Operation.ConstUnit destination
  | Operation.ConstSize destination _ | Operation.CapabilityNone destination _
  | Operation.CapabilitySome destination _ | Operation.CapabilityIsPresent destination _
  | Operation.CapabilityUnwrap destination _ | Operation.Arithmetic destination _ _ _ _
  | Operation.Compare destination _ _ _ | Operation.NarrowSize destination _ _
  | Operation.WidenSize destination _ | Operation.FloatUnary destination _ _
  | Operation.Alloc destination _ _ _ | Operation.StaticData destination _ _ _
  | Operation.Load destination _ _ | Operation.MoveValue destination _
  | Operation.MakeInlineAggregate destination _ _ | Operation.ExtractInlineField destination _ _
  | Operation.FunctionValue destination _ | Operation.CloneRef destination _ => [destination]
  | Operation.Call destinations _ _ | Operation.VarCall destinations _ _ _
  | Operation.ExternalCall destinations _ _ | Operation.HostCall destinations _ _ => destinations
  | Operation.Guard _ _ | Operation.InitNullableOwned _ | Operation.Store _ _ _
  | Operation.CopyBytes _ _ _ | Operation.MoveRange _ _ _ | Operation.CloneRange _ _ _
  | Operation.UpdateCount _ _ | Operation.Retain _ | Operation.Release _
  | Operation.DropRef _ | Operation.Reclaim _ | Operation.ReauthenticateRawHeaderExtent _ _ => []
  end.

(** The entries of a [BTreeMap], in the order of its keys. *)
Definition by_value {A} (m : gmap ValueId A) : list (ValueId * A) :=
  omap (λ v, (λ a, (v, a)) <$> m !! v) (ordered (dom m)).

Definition physical (type : option ValueType) : option nat :=
  match type with
  | Some (ValueType.Bool | ValueType.Unit | ValueType.Size) => Some 0%nat
  | Some (ValueType.Int) => Some 1%nat
  | Some (ValueType.Float) => Some 2%nat
  | _ => None
  end.

Fixpoint check_kinds (f : Function) (entries : list (ValueId * Slot)) : result unit unit :=
  match entries with
  | [] => Ok tt
  | (value, (kind, _)) :: entries =>
      k ← ok_or (physical (value_types f !! value)) tt;
      fail_if (negb (kind =? k)%nat) tt;;
      check_kinds f entries
  end.

Abbreviation Sites := (gmap ValueId (BlockId * nat)).

Section sites.
Context (slots : gmap ValueId Slot).

Definition has_slot (value : ValueId) : bool := bool_decide (is_Some (slots !! value)).

(** The loops over the values an operation defines, over the operations of a
    block and over the blocks. *)
Fixpoint define_values (block : BlockId) (position : nat) (operation : Operation) (values : list ValueId)
    (sites : Sites) : result unit Sites :=
  match values with
  | [] => Ok sites
  | value :: values =>
      if negb (has_slot value) then define_values block position operation values sites
      else
        fail_if (negb (bool_decide (scalar_destination operation = Some value))
                 || bool_decide (is_Some (sites !! value))) tt;;
        define_values block position operation values (<[value := (block, position)]> sites)
  end.

Fixpoint define_operations (block : BlockId) (position : nat) (operations : list Operation)
    (sites : Sites) : result unit Sites :=
  match operations with
  | [] => Ok sites
  | operation :: operations =>
      sites ← define_values block position operation (definitions operation) sites;
      define_operations block (S position) operations sites
  end.

Fixpoint define_blocks (bs : list BasicBlock) (seen : gset BlockId) (sites : Sites) : result unit Sites :=
  match bs with
  | [] => Ok sites
  | b :: bs =>
      fail_if (bool_decide (block_id b ∈ seen)) tt;;
      fail_if (existsb (λ p, has_slot (parameter p)) (parameters b)) tt;;
      sites ← define_operations (block_id b) 0 (operations b) sites;
      define_blocks bs ({[block_id b]} ∪ seen) sites
  end.

(** The uses, in the same loops. *)
Context (sites : Sites).

Fixpoint use_values (block : BlockId) (position : nat) (aggregate : bool) (values : list ValueId)
    (ends : gmap ValueId nat) : result unit (gmap ValueId nat) :=
  match values with
  | [] => Ok ends
  | value :: values =>
      match sites !! value with
      | None => use_values block position aggregate values ends
      | Some (definition_block, begin) =>
          fail_if (negb (definition_block =? block)%N || (position <=? begin)%nat || aggregate) tt;;
          use_values block position aggregate values (<[value := position]> ends)
      end
  end.

Fixpoint use_operations (block : BlockId) (position : nat) (operations : list Operation)
    (ends : gmap ValueId nat) : result unit (gmap ValueId nat) :=
  match operations with
  | [] => Ok ends
  | operation :: operations =>
      ends ← use_values block position (makes_aggregate operation) (runtime_uses operation) ends;
      use_operations block (S position) operations ends
  end.

Fixpoint use_blocks (bs : list BasicBlock) (ends : gmap ValueId nat) : result unit (gmap ValueId nat) :=
  match bs with
  | [] => Ok ends
  | b :: bs =>
      ends ← use_operations (block_id b) 0 (operations b) ends;
      fail_if (existsb has_slot (terminator_uses (terminator b))) tt;;
      use_blocks bs ends
  end.

(** [sites[value]] panics when there is no site. *)
Context (ends : gmap ValueId nat).

Abbreviation Key := (BlockId * nat * N)%type.

Fixpoint group (entries : list (ValueId * Slot)) (by_slot : gmap Key (list (nat * nat)))
    : outcome (result unit (gmap Key (list (nat * nat)))) :=
  match entries with
  | [] => Done (Ok by_slot)
  | (value, (kind, slot)) :: entries =>
      match sites !! value with
      | None => Panic
      | Some (block, begin) =>
          match ends !! value with
          | None => Done (Err tt)
          | Some last =>
              group entries
                (<[(block, kind, slot) := (default [] (by_slot !! (block, kind, slot)) ++ [(begin, last)])%list]>
                  by_slot)
          end
      end
  end.
End sites.

(** The order of pairs that [sort_unstable] sorts by. *)
Definition pair_le (p q : nat * nat) : Prop := fst p < fst q ∨ fst p = fst q ∧ snd p ≤ snd q.

#[export] Instance pair_le_dec : RelDecision pair_le.
Proof. intros p q. unfold pair_le. apply _. Defined.

(** [windows(2).any(|pair| pair[0].1 >= pair[1].0)] *)
Fixpoint overlapping (intervals : list (nat * nat)) : bool :=
  match intervals with
  | p :: (q :: _) as rest => (fst q <=? snd p)%nat || overlapping rest
  | _ => false
  end.

Definition verify (f : Function) (slots : gmap ValueId Slot) : outcome (result unit unit) :=
  let sites :=
    check_kinds f (by_value slots);;
    sites ← define_blocks slots (blocks f) ∅ ∅;
    fail_if (negb (size sites =? size slots)%nat) tt;;
    ends ← use_blocks slots sites (blocks f) ∅;
    Ok (sites, ends) in
  match sites with
  | Err e => Done (Err e)
  | Ok (sites, ends) =>
      r ← group sites ends (by_value slots) ∅;
      Done (by_slot ← r;
            fail_if (existsb (λ e, overlapping (merge_sort pair_le (snd e))) (map_to_list by_slot)) tt)
  end.

(** ** [local_layout] *)

Module ValType.
Inductive t : Set := I32 | I64 | F64 | V128 | EXTERNREF.
End ValType.
Abbreviation ValType := ValType.t.

Inductive LayoutError : Set :=
  | MissingEntry (block : BlockId)
  | ParameterLayoutMismatch
  | UnsupportedLayout
  | UnsupportedValueType (value : ValueId) (type : ValueType).

Definition wasm_value_type (value : ValueId) (type : ValueType) : result LayoutError ValType :=
  match type with
  | ValueType.Int => Ok ValType.I64
  | ValueType.Float => Ok ValType.F64
  | ValueType.Bool | ValueType.Unit => Ok ValType.I32
  | ValueType.Size => Ok ValType.I32
  | ValueType.Ref _ => Ok ValType.I32
  | ValueType.Gc _ => Ok ValType.EXTERNREF
  | ValueType.Capability _ => Ok ValType.EXTERNREF
  | ValueType.NullableCapability _ => Ok ValType.EXTERNREF
  | ValueType.V128 => Ok ValType.V128
  | ValueType.Callable _ => Ok ValType.I32
  | ValueType.InlineAggregate _ => Err (UnsupportedValueType value type)
  end.

(** The values' locals; [shared] are the locals of the slots met so far. *)
Record LocalLayout : Type := {
  local_indices : gmap ValueId nat;
  extra_types : list ValType;
  shared : gmap Slot nat;
}.

(** The loop over the parameters of the entry. *)
Fixpoint parameter_indices (f : Function) (position : nat) (ps : list BlockParameter)
    (signature : list ValueType) (indices : gmap ValueId nat) : result LayoutError (gmap ValueId nat) :=
  match ps, signature with
  | p :: ps, type :: signature =>
      fail_if (negb (bool_decide (parameter_type p = type))
               || negb (bool_decide (value_types f !! parameter p = Some (parameter_type p)))
               || bool_decide (is_Some (indices !! parameter p))) ParameterLayoutMismatch;;
      parameter_indices f (S position) ps signature (<[parameter p := position]> indices)
  | _, _ => Ok indices
  end.

(** A new local after the parameters and the locals so far. *)
Definition new_local (arity : nat) (type : ValType) (l : LocalLayout) : nat * LocalLayout :=
  ((arity + length (extra_types l))%nat,
   {| local_indices := local_indices l; extra_types := extra_types l ++ [type]; shared := shared l |}).

Definition set_index (value : ValueId) (index : nat) (l : LocalLayout) : LocalLayout :=
  {| local_indices := <[value := index]> (local_indices l); extra_types := extra_types l; shared := shared l |}.

Definition share (slot : Slot) (index : nat) (l : LocalLayout) : LocalLayout :=
  {| local_indices := local_indices l; extra_types := extra_types l; shared := <[slot := index]> (shared l) |}.

Fixpoint value_locals (arity : nat) (slots : gmap ValueId Slot) (values : list (ValueId * ValueType))
    (l : LocalLayout) : result LayoutError LocalLayout :=
  match values with
  | [] => Ok l
  | (value, type) :: values =>
      if bool_decide (is_Some (local_indices l !! value)) then value_locals arity slots values l
      else
        match type with
        | ValueType.InlineAggregate _ => value_locals arity slots values l
        | _ =>
            ty ← wasm_value_type value type;
            let '(index, l) :=
              match slots !! value with
              | Some slot =>
                  match shared l !! slot with
                  | Some index => (index, l)
                  | None => let '(index, l) := new_local arity ty l in (index, share slot index l)
                  end
              | None => new_local arity ty l
              end in
            value_locals arity slots values (set_index value index l)
        end
  end.

Definition local_layout (f : Function) (signature : list ValueType) : outcome (result LayoutError LocalLayout) :=
  match List.find (λ b, (block_id b =? entry f)%N) (blocks f) with
  | None => Done (Err (MissingEntry (entry f)))
  | Some b =>
      if negb (length (parameters b) =? length signature)%nat then Done (Err ParameterLayoutMismatch)
      else
        match parameter_indices f 0 (parameters b) signature ∅ with
        | Err e => Done (Err e)
        | Ok indices =>
            v ← verify f (slots f);
            match v with
            | Err _ => Done (Err UnsupportedLayout)
            | Ok _ =>
                Done (value_locals (length (parameters b)) (slots f) (by_value (value_types f))
                        {| local_indices := indices; extra_types := []; shared := ∅ |})
            end
        end
  end.

(** ** The machine on a layout's locals

    An inline aggregate takes no local: what it is made of is read where it
    is used.  Here it is kept apart, under its own name. *)

Abbreviation storage := (gmap (nat + ValueId) N).

Definition place (l : LocalLayout) (v : ValueId) : nat + ValueId :=
  match local_indices l !! v with Some i => inl i | None => inr v end.

Definition fetch (l : LocalLayout) (s : storage) (v : ValueId) : N := default 0%N (s !! place l v).

Definition store (f : Function) (l : LocalLayout) (s : storage) (v : ValueId) (x : N) : storage :=
  <[place l v := fit (value_types f !! v) x]> s.

Fixpoint store_all (f : Function) (l : LocalLayout) (s : storage) (vs : list ValueId) (xs : list N) : storage :=
  match vs, xs with
  | v :: vs, x :: xs => store_all f l (store f l s v x) vs xs
  | _, _ => s
  end.

(** The values as a read of the storage sees them. *)
Definition seen (l : LocalLayout) (s : storage) : locals :=
  set_to_map (λ v, (v, fetch l s v))
    (dom (local_indices l) ∪ list_to_set (omap (λ k, match k.1 with inr v => Some v | inl _ => None end) (map_to_list s))).

Section stored.
Context {W : Type} (perform : Operation → locals → W → option (list N * W) → Prop).
Context (f : Function) (index : gmap BlockId BasicBlock) (l : LocalLayout).

Inductive stored : Type :=
  | Stored (block : BlockId) (operation : nat) (s : storage) (w : W)
  | Stopped (s : state W).

Definition stored_enter (s : storage) (w : W) (target : BlockId) (arguments : list ValueId) : option stored :=
  b ← index !! target;
  Some (Stored target 0 (store_all f l s (block_parameters b) (List.map (fetch l s) arguments)) w).

Definition stored_leave (s : storage) (w : W) (terminator : Terminator) : option stored :=
  match terminator with
  | Terminator.Branch target arguments => stored_enter s w target arguments
  | Terminator.BranchIf condition then_target then_arguments else_target else_arguments =>
      if (fetch l s condition =? 0)%N then stored_enter s w else_target else_arguments
      else stored_enter s w then_target then_arguments
  | Terminator.Return values => Some (Stopped (Returned (List.map (fetch l s) values) w))
  | Terminator.TailCall site callee arguments =>
      Some (Stopped (TailCalled site callee (List.map (fetch l s) (argument_uses arguments)) w))
  | Terminator.VarTailCall site callee signature arguments =>
      Some (Stopped (VarTailCalled site (fetch l s callee) signature
                       (List.map (fetch l s) (argument_uses arguments)) w))
  | Terminator.Trap | Terminator.Unreachable => Some (Stopped (Trapped w))
  end.

Inductive stored_step : stored → stored → Prop :=
  | stored_next id b i op s e w :
      index !! id = Some b → operations b !! i = Some op → scalar_effect f (seen l s) op = Next e →
      stored_step (Stored id i s w)
        (Stored id (S i) (store_all f l s (operation_destinations op) (List.map (get e) (operation_destinations op))) w)
  | stored_trap id b i op s w :
      index !! id = Some b → operations b !! i = Some op → scalar_effect f (seen l s) op = Traps →
      stored_step (Stored id i s w) (Stopped (Trapped w))
  | stored_world id b i op s w xs w' :
      index !! id = Some b → operations b !! i = Some op → scalar_effect f (seen l s) op = World →
      perform op (seen l s) w (Some (xs, w')) →
      stored_step (Stored id i s w) (Stored id (S i) (store_all f l s (operation_destinations op) xs) w')
  | stored_world_trap id b i op s w :
      index !! id = Some b → operations b !! i = Some op → scalar_effect f (seen l s) op = World →
      perform op (seen l s) w None → stored_step (Stored id i s w) (Stopped (Trapped w))
  | stored_leaves id b s w t :
      index !! id = Some b → stored_leave s w (terminator b) = Some t →
      stored_step (Stored id (length (operations b)) s w) t.

Definition stored_start (arguments : list N) (w : W) : option stored :=
  b ← index !! entry f;
  Some (Stored (entry f) 0 (store_all f l ∅ (block_parameters b) arguments) w).

Definition stored_reaches (arguments : list N) (w : W) (t : stored) : Prop :=
  ∃ t0, stored_start arguments w = Some t0 ∧ rtc stored_step t0 t.
End stored.

Arguments stored : clear implicits.
Arguments Stored {W} block operation s w.
Arguments Stopped {W} s.

(** * What [verify] finds out *)

Lemma definitions_destinations op : definitions op = operation_destinations op.
Proof. by destruct op. Qed.

Lemma by_value_elem {A} (m : gmap ValueId A) v a : (v, a) ∈ by_value m ↔ m !! v = Some a.
Proof.
  unfold by_value. rewrite list_elem_of_omap. split.
  - intros (u & _ & Hu). destruct (m !! u) eqn:E; simpl in Hu; by simplify_eq.
  - intros H. exists v. rewrite ordered_elem, elem_of_dom, H. by split; [eexists|].
Qed.

Lemma by_value_NoDup {A} (m : gmap ValueId A) : NoDup (by_value m).*1.
Proof.
  assert ((by_value m).*1 = ordered (dom m)) as ->; [|apply ordered_NoDup].
  unfold by_value. assert (∀ v, v ∈ ordered (dom m) → is_Some (m !! v)) as H
    by (intros v; by rewrite ordered_elem, elem_of_dom).
  induction (ordered (dom m)) as [|v vs IH]; [done|]. simpl.
  destruct (H v) as [a ->]; [by left|]. simpl. f_equal. apply IH. intros u Hu. apply H. by right.
Qed.

Section verified.
Context (f : Function) (slots : gmap ValueId Slot).

Definition defined_at (b : BasicBlock) (i : nat) (v : ValueId) : Prop :=
  b ∈ blocks f ∧ ∃ op, operations b !! i = Some op ∧ v ∈ operation_destinations op.

Definition used_at (b : BasicBlock) (i : nat) (v : ValueId) : Prop :=
  b ∈ blocks f ∧ ∃ op, operations b !! i = Some op ∧ v ∈ runtime_uses op.

(** What a storage map must be for its values to share locals. *)
Record shareable : Prop := {
  shareable_kind v k s : slots !! v = Some (k, s) → physical (value_types f !! v) = Some k;
  shareable_ids : NoDup (List.map block_id (blocks f));
  shareable_parameter b v : b ∈ blocks f → v ∈ block_parameters b → slots !! v = None;
  shareable_scalar b op v :
    b ∈ blocks f → op ∈ operations b → v ∈ operation_destinations op → is_Some (slots !! v) →
    scalar_destination op = Some v;
  shareable_once b b' i i' v :
    defined_at b i v → defined_at b' i' v → is_Some (slots !! v) → block_id b = block_id b' ∧ i = i';
  shareable_defined v : is_Some (slots !! v) → ∃ b i, defined_at b i v;
  shareable_use b b' i j v :
    defined_at b i v → used_at b' j v → is_Some (slots !! v) → block_id b' = block_id b ∧ i < j;
  shareable_used v : is_Some (slots !! v) → ∃ b j, used_at b j v;
  shareable_aggregate b op v :
    b ∈ blocks f → op ∈ operations b → makes_aggregate op = true → v ∈ runtime_uses op → slots !! v = None;
  shareable_terminator b v : b ∈ blocks f → v ∈ terminator_uses (terminator b) → slots !! v = None;
  shareable_apart u v slot b i j :
    u ≠ v → slots !! u = Some slot → slots !! v = Some slot → defined_at b i u → defined_at b j v →
    (∀ k, used_at b k u → k < j) ∨ (∀ k, used_at b k v → k < i);
}.

Lemma has_slot_spec v : has_slot slots v = true ↔ is_Some (slots !! v).
Proof. unfold has_slot. by rewrite bool_decide_eq_true. Qed.

Lemma scalar_destinations op v : scalar_destination op = Some v → operation_destinations op = [v].
Proof. destruct op; simpl; intros; by simplify_eq. Qed.

(** ** The sites *)

(** [insert], refusing a key that is present. *)
Fixpoint insert_fresh (l : list (ValueId * (BlockId * nat))) (m : Sites) : result unit Sites :=
  match l with
  | [] => Ok m
  | (v, x) :: l => if bool_decide (is_Some (m !! v)) then Err tt else insert_fresh l (<[v := x]> m)
  end.

Lemma insert_fresh_app l l' m : insert_fresh (l ++ l') m = (insert_fresh l m ≫= insert_fresh l').
Proof. revert m. induction l as [|[v x] l IH]; intros m; [done|]. simpl. by case_bool_decide. Qed.

Lemma insert_fresh_Ok l m m' :
  insert_fresh l m = Ok m' ↔ NoDup l.*1 ∧ (∀ v, v ∈ l.*1 → m !! v = None) ∧ m' = list_to_map l ∪ m.
Proof.
  revert m. induction l as [|[v x] l IH]; intros m; simpl.
  - rewrite map_empty_union. split; [intros [= ->]|by intros (_ & _ & ->)].
    split_and!; [apply NoDup_nil_2| |done]. by intros v Hv%not_elem_of_nil.
  - rewrite list.NoDup_cons. case_bool_decide as Hv.
    { split; [done|]. intros (_ & H & _). destruct Hv as [y Hy]. rewrite H in Hy; [done|by left]. }
    rewrite IH. apply eq_None_not_Some in Hv. split.
    + intros (Hn & Hf & ->). split_and!; [|done| |].
      * intros Hin. specialize (Hf v Hin). by rewrite lookup_insert_eq in Hf.
      * intros u [->|Hu]%elem_of_cons; [done|]. specialize (Hf u Hu).
        by apply lookup_insert_None in Hf as [? _].
      * rewrite <- insert_union_r; [by rewrite insert_union_l|]. apply not_elem_of_list_to_map.
        intros Hin. specialize (Hf v Hin). by rewrite lookup_insert_eq in Hf.
    + intros ([Hni Hn] & Hf & ->). split_and!; [done| |].
      * intros u Hu. rewrite lookup_insert_ne; [apply Hf; by right|]. by intros ->.
      * rewrite <- insert_union_r; [by rewrite insert_union_l|]. by apply not_elem_of_list_to_map.
Qed.

(** The sites of the operations of a block. *)
Fixpoint located (block : BlockId) (position : nat) (ops : list Operation) : list (ValueId * (BlockId * nat)) :=
  match ops with
  | [] => []
  | op :: ops =>
      match scalar_destination op with
      | Some v => if has_slot slots v then [(v, (block, position))] else []
      | None => []
      end ++ located block (S position) ops
  end.

Lemma located_elem block position ops v x :
  (v, x) ∈ located block position ops ↔
  ∃ i op, ops !! i = Some op ∧ scalar_destination op = Some v ∧ is_Some (slots !! v) ∧
    x = (block, (position + i)%nat).
Proof.
  revert position. induction ops as [|op ops IH]; intros position; simpl.
  - split; [by intros ?%not_elem_of_nil|]. by intros (i & ? & ? & _).
  - rewrite elem_of_app, IH; setoid_rewrite <- has_slot_spec. split.
    + intros [H|(i & op' & H & Hs & Hv & ->)].
      * destruct (scalar_destination op) as [u|] eqn:E; [|by apply not_elem_of_nil in H].
        destruct (has_slot slots u) eqn:Eu; [|by apply not_elem_of_nil in H].
        apply list_elem_of_singleton in H. simplify_eq. exists 0%nat, op. by rewrite Nat.add_0_r.
      * exists (S i), op'. by rewrite Nat.add_succ_r.
    + intros ([|i] & op' & H & Hs & Hv & ->); simpl in H.
      * simplify_eq. left. rewrite Hs, Hv, Nat.add_0_r. by apply list_elem_of_singleton.
      * right. exists i, op'. by rewrite Nat.add_succ_r.
Qed.

Definition slots_scalar (ops : list Operation) : Prop :=
  ∀ op v, op ∈ ops → v ∈ operation_destinations op → is_Some (slots !! v) → scalar_destination op = Some v.

Lemma define_values_other block position op vs sites :
  (∀ v, v ∈ vs → has_slot slots v = false) → define_values slots block position op vs sites = Ok sites.
Proof.
  induction vs as [|v vs IH]; intros H; [done|]. simpl. rewrite (H v) by by left. simpl.
  apply IH. intros u Hu. apply H. by right.
Qed.

Lemma define_values_Ok block position op sites sites' :
  define_values slots block position op (operation_destinations op) sites = Ok sites' ↔
  slots_scalar [op] ∧ insert_fresh (located block position [op]) sites = Ok sites'.
Proof.
  unfold slots_scalar. setoid_rewrite list_elem_of_singleton. cbn [located]. rewrite app_nil_r.
  destruct (scalar_destination op) as [v|] eqn:E.
  - rewrite (scalar_destinations op v E). simpl. destruct (has_slot slots v); simpl.
    + rewrite bool_decide_eq_true_2 by done. simpl. unfold fail_if. case_bool_decide; simpl.
      * split; [done|by intros [_ ?]].
      * split; [|by intros [_ ?]]. intros H'. split; [|done].
        intros op' u -> Hu _. rewrite (scalar_destinations op v E) in Hu.
        apply list_elem_of_singleton in Hu. by rewrite Hu.
    + split; [|by intros [_ ?]]. intros H'. split; [|done].
      intros op' u -> Hu _. rewrite (scalar_destinations op v E) in Hu.
      apply list_elem_of_singleton in Hu. by rewrite Hu.
  - simpl. split.
    + intros H. assert (∀ vs, define_values slots block position op vs sites = Ok sites' →
        sites = sites' ∧ ∀ v, v ∈ vs → has_slot slots v = false) as Hvs.
      { clear H. intros vs. induction vs as [|v vs IH]; simpl.
        - intros [= ->]. split; [done|]. by intros v Hv%not_elem_of_nil.
        - destruct (has_slot slots v) eqn:Ev; simpl.
          + by rewrite E.
          + intros [-> H]%IH. split; [done|]. by intros u [->|Hu]%elem_of_cons; [|apply H]. }
      apply Hvs in H as [-> H]. split; [|done]. intros op' v -> Hv Hs%has_slot_spec. by rewrite H in Hs.
    + intros [H [= ->]]. apply define_values_other. intros v Hv.
      destruct (has_slot slots v) eqn:Ev; [|done]. apply has_slot_spec in Ev.
      by rewrite (H op v eq_refl Hv Ev) in E.
Qed.

Lemma slots_scalar_cons op ops : slots_scalar (op :: ops) ↔ slots_scalar [op] ∧ slots_scalar ops.
Proof.
  unfold slots_scalar. setoid_rewrite elem_of_cons. setoid_rewrite elem_of_nil. naive_solver.
Qed.

Lemma define_operations_Ok block position ops sites sites' :
  define_operations slots block position ops sites = Ok sites' ↔
  slots_scalar ops ∧ insert_fresh (located block position ops) sites = Ok sites'.
Proof.
  revert position sites. induction ops as [|op ops IH]; intros position sites.
  - simpl. split; [|by intros [_ ?]]. intros H. split; [|done]. by intros op v ?%not_elem_of_nil.
  - cbn [define_operations]. rewrite slots_scalar_cons, result_bind_Ok. setoid_rewrite IH.
    rewrite definitions_destinations. setoid_rewrite define_values_Ok.
    change (located block position (op :: ops)) with
      (match scalar_destination op with
       | Some v => if has_slot slots v then [(v, (block, position))] else []
       | None => []
       end ++ located block (S position) ops).
    rewrite insert_fresh_app, result_bind_Ok. cbn [located]. rewrite app_nil_r. naive_solver.
Qed.

Definition all_located (bs : list BasicBlock) : list (ValueId * (BlockId * nat)) :=
  List.flat_map (λ b, located (block_id b) 0 (operations b)) bs.

Lemma existsb_slot {A} (g : A → ValueId) l :
  existsb (λ x, has_slot slots (g x)) l = false ↔ ∀ v, v ∈ List.map g l → slots !! v = None.
Proof.
  rewrite <- not_true_iff_false, existsb_exists. split.
  - intros H v (x & <- & Hx)%list_elem_of_In%in_map_iff. apply eq_None_not_Some. intros Hs. apply H.
    exists x. by rewrite has_slot_spec.
  - intros H (x & Hx & Hs%has_slot_spec). rewrite H in Hs; [by destruct Hs|].
    by apply list_elem_of_In, in_map.
Qed.

Lemma define_blocks_Ok bs seen sites sites' :
  define_blocks slots bs seen sites = Ok sites' ↔
  NoDup (List.map block_id bs) ∧ (∀ b, b ∈ bs → block_id b ∉ seen) ∧
  (∀ b v, b ∈ bs → v ∈ block_parameters b → slots !! v = None) ∧
  (∀ b, b ∈ bs → slots_scalar (operations b)) ∧ insert_fresh (all_located bs) sites = Ok sites'.
Proof.
  revert seen sites. induction bs as [|b bs IH]; intros seen sites; simpl.
  - split; [|by intros (_ & _ & _ & _ & ?)]. intros ?.
    split_and!; [apply NoDup_nil_2|by intros ? ?%not_elem_of_nil|by intros ? ? ?%not_elem_of_nil|by intros ? ?%not_elem_of_nil|done].
  - rewrite !fail_if_Ok, result_bind_Ok, bool_decide_eq_false, existsb_slot. setoid_rewrite define_operations_Ok.
    setoid_rewrite IH. rewrite insert_fresh_app, result_bind_Ok, list.NoDup_cons. setoid_rewrite elem_of_cons.
    setoid_rewrite elem_of_union. setoid_rewrite elem_of_singleton. fold (block_parameters b).
    assert (block_id b ∉ List.map block_id bs ↔ ∀ x, x ∈ bs → block_id x ≠ block_id b) as Hb.
    { rewrite list_elem_of_In, in_map_iff. setoid_rewrite <- list_elem_of_In. naive_solver. }
    rewrite Hb. naive_solver.
Qed.

(** ** The uses *)

Section uses.
Context (sites : Sites).

Definition sited (v : ValueId) : bool := bool_decide (is_Some (sites !! v)).

Fixpoint used (position : nat) (ops : list Operation) : list (ValueId * nat) :=
  match ops with
  | [] => []
  | op :: ops => List.map (λ v, (v, position)) (List.filter sited (runtime_uses op)) ++ used (S position) ops
  end.

Definition record_uses (l : list (ValueId * nat)) (ends : gmap ValueId nat) : gmap ValueId nat :=
  List.fold_left (λ m p, <[p.1 := p.2]> m) l ends.

Definition uses_follow (block : BlockId) (position : nat) (ops : list Operation) : Prop :=
  ∀ i op v B begin, ops !! i = Some op → v ∈ runtime_uses op → sites !! v = Some (B, begin) →
    B = block ∧ begin < position + i ∧ makes_aggregate op = false.

Lemma used_elem position ops v j :
  (v, j) ∈ used position ops ↔
  ∃ i op, ops !! i = Some op ∧ v ∈ runtime_uses op ∧ is_Some (sites !! v) ∧ j = (position + i)%nat.
Proof.
  revert position. induction ops as [|op ops IH]; intros position; simpl.
  - split; [by intros ?%not_elem_of_nil|]. by intros (i & ? & ? & _).
  - rewrite elem_of_app, IH. unfold sited. split.
    + intros [H|(i & op' & H & Hu & Hs & ->)].
      * apply list_elem_of_In, in_map_iff in H as (u & [= -> <-] & [Hin Hs]%filter_In).
        exists 0%nat, op. rewrite Nat.add_0_r. rewrite bool_decide_eq_true in Hs.
        by rewrite list_elem_of_In.
      * exists (S i), op'. by rewrite Nat.add_succ_r.
    + intros ([|i] & op' & H & Hu & Hs & ->); simpl in H.
      * simplify_eq. left. apply list_elem_of_In, in_map_iff. exists v. rewrite Nat.add_0_r. split; [done|].
        apply filter_In. by rewrite <- list_elem_of_In, bool_decide_eq_true.
      * right. exists i, op'. by rewrite Nat.add_succ_r.
Qed.

Lemma use_values_Ok block position aggregate vs ends ends' :
  use_values sites block position aggregate vs ends = Ok ends' ↔
  (∀ v B begin, v ∈ vs → sites !! v = Some (B, begin) → B = block ∧ begin < position ∧ aggregate = false) ∧
  ends' = record_uses (List.map (λ v, (v, position)) (List.filter sited vs)) ends.
Proof.
  revert ends. induction vs as [|v vs IH]; intros ends; simpl.
  - split; [intros [= ->]; split; [|done]; by intros ? ? ? ?%not_elem_of_nil|by intros [_ ->]].
  - unfold sited at 1. destruct (sites !! v) as [[B begin]|] eqn:E.
    + rewrite fail_if_Ok, IH, bool_decide_eq_true_2 by done. simpl.
      rewrite !orb_false_iff, negb_false_iff, N.eqb_eq, Nat.leb_gt. setoid_rewrite elem_of_cons. split.
      * intros [[[-> ?] ->] [H0 ->]]. split; [|done]. intros u B' beg [->|Hu] Hs; [by simplify_eq|by eauto].
      * intros [H ->]. destruct (H v B begin (or_introl eq_refl) E) as (-> & ? & ->).
        split; [done|]. split; [|done]. intros u B' beg Hu. apply H. by right.
    + rewrite IH, bool_decide_eq_false_2 by by intros []. setoid_rewrite elem_of_cons. split.
      * intros [H ->]. split; [|done]. intros u B' beg [->|Hu] Hs; [by simplify_eq|by eauto].
      * intros [H ->]. split; [|done]. intros u B' beg Hu. apply H. by right.
Qed.

Lemma record_uses_app l l' ends : record_uses (l ++ l') ends = record_uses l' (record_uses l ends).
Proof. apply fold_left_app. Qed.

Lemma use_operations_Ok block position ops ends ends' :
  use_operations sites block position ops ends = Ok ends' ↔
  uses_follow block position ops ∧ ends' = record_uses (used position ops) ends.
Proof.
  revert position ends. induction ops as [|op ops IH]; intros position ends.
  - simpl. split; [intros [= ->]; by split|by intros [_ ->]].
  - cbn [use_operations used]. rewrite result_bind_Ok, record_uses_app. setoid_rewrite IH.
    setoid_rewrite use_values_Ok. unfold uses_follow. split.
    + intros (ends1 & [H1 ->] & [H2 ->]). split; [|done]. intros [|i] op' v B begin; simpl; intros Hop Hv Hs.
      * simplify_eq. rewrite Nat.add_0_r. by eapply H1.
      * rewrite Nat.add_succ_r. by eapply H2.
    + intros [H ->]. eexists. split; [split; [|done]|split; [|done]].
      * intros v B begin Hv Hs. specialize (H 0%nat op v B begin eq_refl Hv Hs). by rewrite Nat.add_0_r in H.
      * intros i op' v B begin Hop Hv Hs. specialize (H (S i) op' v B begin Hop Hv Hs).
        by rewrite Nat.add_succ_r in H.
Qed.

Definition all_used (bs : list BasicBlock) : list (ValueId * nat) :=
  List.flat_map (λ b, used 0 (operations b)) bs.

Lemma use_blocks_Ok bs ends ends' :
  use_blocks slots sites bs ends = Ok ends' ↔
  (∀ b, b ∈ bs → uses_follow (block_id b) 0 (operations b)) ∧
  (∀ b v, b ∈ bs → v ∈ terminator_uses (terminator b) → slots !! v = None) ∧
  ends' = record_uses (all_used bs) ends.
Proof.
  revert ends. induction bs as [|b bs IH]; intros ends; simpl.
  - split; [intros [= ->]|by intros (_ & _ & ->)].
    split_and!; [by intros ? ?%not_elem_of_nil|by intros ? ? ?%not_elem_of_nil|done].
  - rewrite result_bind_Ok, record_uses_app. setoid_rewrite use_operations_Ok. setoid_rewrite fail_if_Ok.
    setoid_rewrite IH. setoid_rewrite (existsb_slot id). rewrite map_id. setoid_rewrite elem_of_cons.
    split.
    + intros (? & [? ->] & ? & ? & ? & ->). naive_solver.
    + intros (H1 & H2 & ->). eexists. split; [split; [apply H1; by left|done]|].
      split_and!; [intros v; apply H2; by left|naive_solver..|done].
Qed.

(** Positions of a value do not decrease. *)
Definition ascending (p q : ValueId * nat) : Prop := p.1 = q.1 → p.2 ≤ q.2.

Lemma used_ascending position ops : StronglySorted ascending (used position ops).
Proof.
  revert position. induction ops as [|op ops IH]; intros position; [constructor|]. cbn [used].
  apply StronglySorted_app_2; [| |apply IH].
  - intros [v i] [u j] (w & [= -> <-] & _)%list_elem_of_In%in_map_iff (k & ? & _ & _ & _ & ->)%used_elem _.
    simpl. lia.
  - induction (List.filter sited (runtime_uses op)) as [|v vs IHv]; [constructor|]. simpl. constructor; [done|].
    apply Forall_forall. by intros [u j] (w & [= -> <-] & _)%in_map_iff _.
Qed.

Lemma all_used_ascending bs :
  NoDup (List.map block_id bs) → (∀ b, b ∈ bs → uses_follow (block_id b) 0 (operations b)) →
  StronglySorted ascending (all_used bs).
Proof.
  induction bs as [|b bs IH]; simpl; [constructor|]. intros [Hb Hn]%list.NoDup_cons Hu.
  apply StronglySorted_app_2; [|apply used_ascending|apply IH; [done|intros; apply Hu; by right]].
  intros [v i] [u j] (k & op & Hk & Hv & [[B beg] Hs] & _)%used_elem Hj Heq. simpl in Heq. subst u.
  apply list_elem_of_In, in_flat_map in Hj as (b' & Hb'%list_elem_of_In & Hj%list_elem_of_In).
  apply used_elem in Hj as (k' & op' & Hk' & Hv' & _ & _).
  destruct (Hu b (list_elem_of_here _ _) _ _ _ _ _ Hk Hv Hs) as [-> _].
  destruct (Hu b' (list_elem_of_further _ _ _ Hb') _ _ _ _ _ Hk' Hv' Hs) as [He _].
  destruct Hb. rewrite He. by apply list_elem_of_In, in_map, list_elem_of_In.
Qed.

Lemma record_uses_last l ends v i :
  StronglySorted ascending l → (v, i) ∈ l → ∃ e, record_uses l ends !! v = Some e ∧ i ≤ e.
Proof.
  induction l as [|[u j] l IH] using rev_ind; intros Hs Hv; [by apply not_elem_of_nil in Hv|].
  rewrite record_uses_app. simpl. apply StronglySorted_app in Hs as (Hcross & Hs & _).
  destruct (decide (u = v)) as [->|Hne].
  - exists j. rewrite lookup_insert_eq. split; [done|].
    apply elem_of_app in Hv as [Hv|[= ->]%list_elem_of_singleton]; [|done].
    by apply (Hcross (v, i) (v, j)); [|by left|].
  - rewrite lookup_insert_ne by done. apply elem_of_app in Hv as [Hv|[= -> _]%list_elem_of_singleton]; [|done].
    by apply IH.
Qed.

Lemma record_uses_use l v e : record_uses l ∅ !! v = Some e → (v, e) ∈ l.
Proof.
  by intros [H|H]%fold_insert_lookup; [rewrite lookup_empty in H|].
Qed.
End uses.

(** ** The intervals of a slot *)

Definition apart (p q : nat * nat) : Prop := p.2 < q.1 ∨ q.2 < p.1.

Lemma overlapping_cons p l :
  Forall (λ q, q.1 ≤ q.2) l → overlapping (p :: l) = false ↔ Forall (λ q, p.2 < q.1) l ∧ overlapping l = false.
Proof.
  revert p. induction l as [|q l IH]; intros p Hl; [simpl; split; [by split; [constructor|]|done]|].
  apply list.Forall_cons in Hl as [Hq Hl].
  change (overlapping (p :: q :: l)) with ((fst q <=? snd p)%nat || overlapping (q :: l)).
  rewrite orb_false_iff, Nat.leb_gt, list.Forall_cons. split; [|naive_solver].
  intros [Hpq Ho]. split; [|done]. split; [done|]. apply (IH q Hl) in Ho as [Ho _].
  eapply list.Forall_impl; [exact Ho|]. simpl. lia.
Qed.

Lemma overlapping_sound l p q :
  Forall (λ q, q.1 ≤ q.2) l → overlapping l = false → p ∈ l → q ∈ l → p ≠ q → apart p q.
Proof.
  intros Hl. induction l as [|x l IH]; [by intros _ ?%not_elem_of_nil|].
  apply list.Forall_cons in Hl as [Hx Hl]. intros [Hf Ho]%overlapping_cons; [|done].
  rewrite list.Forall_forall in Hf. unfold apart in *.
  intros [->|Hp]%elem_of_cons [->|Hq]%elem_of_cons Hne; [done|left; by apply Hf|right; by apply Hf|by apply IH].
Qed.

Lemma overlapping_complete l :
  Forall (λ q, q.1 ≤ q.2) l → StronglySorted pair_le l → NoDup l →
  (∀ p q, p ∈ l → q ∈ l → p ≠ q → apart p q) → overlapping l = false.
Proof.
  induction l as [|p l IH]; [done|]. intros [Hp Hl]%list.Forall_cons Hs [Hn Hd]%list.NoDup_cons Ha.
  apply overlapping_cons; [done|]. apply StronglySorted_inv in Hs as [Hs Hh]. split.
  - apply list.Forall_forall. intros q Hq. rewrite list.Forall_forall in Hh. specialize (Hh q Hq).
    rewrite list.Forall_forall in Hl. specialize (Hl q Hq). unfold pair_le in Hh.
    destruct (Ha p q) as [?|?]; [by left|by right|by intros ->|done|lia].
  - apply IH; [done..|]. intros x y Hx Hy. apply Ha; by right.
Qed.

#[local] Instance pair_le_total : Total pair_le.
Proof. intros p q. unfold pair_le. lia. Qed.

#[local] Instance pair_le_transitive : Transitive pair_le.
Proof. intros p q r. unfold pair_le. lia. Qed.

Lemma overlapping_sorted l :
  Forall (λ q, q.1 ≤ q.2) l → NoDup l →
  overlapping (merge_sort pair_le l) = false ↔ ∀ p q, p ∈ l → q ∈ l → p ≠ q → apart p q.
Proof.
  intros Hl Hn. pose proof (merge_sort_Permutation pair_le l) as Hp. split.
  - intros Ho p q. rewrite <- Hp. by apply overlapping_sound; [rewrite Hp|].
  - intros Ha. apply overlapping_complete.
    + by rewrite Hp.
    + apply Sorted_StronglySorted; [apply _|]. apply Sorted_merge_sort, _.
    + by rewrite Hp.
    + intros p q. rewrite Hp. apply Ha.
Qed.

Section group.
Context (sites : Sites) (ends : gmap ValueId nat).

(** The interval of an entry, if it is in the slot of a block. *)
Definition in_slot (key : BlockId * nat * N) (entry : ValueId * Slot) : option (nat * nat) :=
  '(block, begin) ← sites !! entry.1;
  last ← ends !! entry.1;
  if bool_decide (key = (block, entry.2.1, entry.2.2)) then Some (begin, last) else None.

Lemma group_Ok entries by_slot :
  (∀ v s, (v, s) ∈ entries → is_Some (sites !! v)) →
  ∃ r, group sites ends entries by_slot = Done r ∧
  (is_ok r = true ↔ ∀ v s, (v, s) ∈ entries → is_Some (ends !! v)) ∧
  (∀ m key, r = Ok m → default [] (m !! key) = default [] (by_slot !! key) ++ omap (in_slot key) entries).
Proof.
  revert by_slot. induction entries as [|[v [k s]] entries IH]; intros by_slot Hs.
  { exists (Ok by_slot). split_and!; [done| |].
    - split; [by intros _ ? ? ?%not_elem_of_nil|done].
    - intros m key [= ->]. simpl. by rewrite app_nil_r. }
  destruct (Hs v (k, s)) as [[block begin] Hv]; [by left|]. cbn [group]. rewrite Hv.
  destruct (ends !! v) as [last|] eqn:Ev.
  - destruct (IH (<[(block, k, s) := default [] (by_slot !! (block, k, s)) ++ [(begin, last)]]> by_slot))
      as (r & -> & Hr & Hm); [intros u x Hu; apply (Hs u x); by right|].
    exists r. split_and!; [done| |].
    + rewrite Hr. split; [|by intros H u x Hu; apply (H u x); right].
      intros H u x [[= -> ->]|Hu]%elem_of_cons; [by eexists|by eapply H].
    + intros m key ->. rewrite (Hm m key eq_refl). cbn [omap list_omap]. unfold in_slot at 2. simpl. rewrite Hv, Ev.
      simpl. case_bool_decide as Hk.
      * subst key. rewrite lookup_insert_eq. simpl. by rewrite <- app_assoc.
      * by rewrite lookup_insert_ne by done.
  - exists (Err tt). split_and!; [done| |done]. split; [done|]. intros H.
    destruct (H v (k, s)) as [? ?]; [by left|]. by simplify_eq.
Qed.
End group.

(** ** [verify] is exact *)

Lemma check_kinds_Ok entries :
  check_kinds f entries = Ok tt ↔ ∀ v k s, (v, (k, s)) ∈ entries → physical (value_types f !! v) = Some k.
Proof.
  induction entries as [|[v [k s]] entries IH]; [split; [by intros _ ? ? ? ?%not_elem_of_nil|done]|].
  cbn [check_kinds]. rewrite result_bind_Ok. setoid_rewrite fail_if_Ok. setoid_rewrite negb_false_iff.
  setoid_rewrite Nat.eqb_eq. setoid_rewrite IH. setoid_rewrite elem_of_cons. split.
  - intros (k' & Hk & <- & H) u k0 s' [[= -> -> ->]|Hu]; [|by eapply H].
    by destruct (physical _); simpl in Hk; simplify_eq.
  - intros H. exists k. rewrite (H v k s (or_introl eq_refl)). split_and!; [done..|].
    intros u k' s' Hu. eapply H. by right.
Qed.

Lemma all_located_elem bs v x :
  (v, x) ∈ all_located bs ↔
  ∃ b i op, b ∈ bs ∧ operations b !! i = Some op ∧ scalar_destination op = Some v ∧ is_Some (slots !! v) ∧
    x = (block_id b, i).
Proof.
  unfold all_located. rewrite list_elem_of_In, in_flat_map. setoid_rewrite <- list_elem_of_In.
  setoid_rewrite located_elem. simpl. naive_solver.
Qed.

Lemma sites_spec sites v x :
  define_blocks slots (blocks f) ∅ ∅ = Ok sites → sites !! v = Some x ↔ (v, x) ∈ all_located (blocks f).
Proof.
  intros (_ & _ & _ & _ & (Hn & _ & ->)%insert_fresh_Ok)%define_blocks_Ok.
  rewrite map_union_empty. symmetry. by apply elem_of_list_to_map.
Qed.

Lemma sites_slots sites v : define_blocks slots (blocks f) ∅ ∅ = Ok sites → is_Some (sites !! v) → is_Some (slots !! v).
Proof. intros H [x Hx]. apply (sites_spec _ _ _ H), all_located_elem in Hx as (b & i & op & _ & _ & _ & ? & _). done. Qed.

Lemma size_sites sites :
  define_blocks slots (blocks f) ∅ ∅ = Ok sites →
  size sites = size slots ↔ ∀ v, is_Some (slots !! v) ↔ is_Some (sites !! v).
Proof.
  intros H. rewrite <- !size_dom. setoid_rewrite <- elem_of_dom. split.
  - intros Hs v. by rewrite (set_subseteq_size_eq (dom sites) (dom slots));
      [|intros u; rewrite !elem_of_dom; by apply sites_slots|lia].
  - intros Hv. f_equal. apply set_eq. intros v. by rewrite Hv.
Qed.

Definition slot_intervals (sites : Sites) (ends : gmap ValueId nat) (key : BlockId * nat * N) : list (nat * nat) :=
  omap (in_slot sites ends key) (by_value slots).

Lemma no_overlap_group (by_slot : gmap (BlockId * nat * N) (list (nat * nat))) (g : BlockId * nat * N → list (nat * nat)) :
  (∀ key, default [] (by_slot !! key) = g key) →
  existsb (λ e, overlapping (merge_sort pair_le (snd e))) (map_to_list by_slot) = false ↔
  ∀ key, overlapping (merge_sort pair_le (g key)) = false.
Proof.
  intros Hg. rewrite <- not_true_iff_false, existsb_exists. split.
  - intros H key. rewrite <- Hg. destruct (by_slot !! key) as [l|] eqn:E; [|done]. simpl.
    apply not_true_is_false. intros Ho. apply H. exists (key, l). split; [|done].
    by apply list_elem_of_In, elem_of_map_to_list.
  - intros H ([key l] & Hin%list_elem_of_In%elem_of_map_to_list & Ho). specialize (H key).
    rewrite <- Hg, Hin in H. simpl in *. congruence.
Qed.

Record verifies (sites : Sites) (ends : gmap ValueId nat) : Prop := {
  verifies_kinds v k s : slots !! v = Some (k, s) → physical (value_types f !! v) = Some k;
  verifies_sites : define_blocks slots (blocks f) ∅ ∅ = Ok sites;
  verifies_sited v : is_Some (slots !! v) ↔ is_Some (sites !! v);
  verifies_uses : use_blocks slots sites (blocks f) ∅ = Ok ends;
  verifies_ends v : is_Some (slots !! v) → is_Some (ends !! v);
  verifies_apart key : overlapping (merge_sort pair_le (slot_intervals sites ends key)) = false;
}.

Lemma verify_parts :
  ∃ r, verify f slots = Done r ∧ (is_ok r = true ↔ ∃ sites ends, verifies sites ends).
Proof.
  assert (check_kinds f (by_value slots) = Ok tt ↔
          ∀ v k s, slots !! v = Some (k, s) → physical (value_types f !! v) = Some k) as Hk.
  { rewrite check_kinds_Ok. by setoid_rewrite by_value_elem. }
  unfold verify. destruct (check_kinds f (by_value slots)) as [[]|[]] eqn:Ek; cbn [mbind result_bind].
  2:{ eexists. split; [done|]. split; [done|]. intros (? & ? & H). destruct H as [H _ _ _ _ _].
      by apply Hk in H. }
  destruct (define_blocks slots (blocks f) ∅ ∅) as [sites|[]] eqn:Ed; cbn [mbind result_bind].
  2:{ eexists. split; [done|]. split; [done|]. intros (? & ? & H). destruct H as [_ H _ _ _ _].
      by rewrite Ed in H. }
  pose proof (size_sites sites Ed) as Hsize. unfold fail_if at 1.
  destruct (size sites =? size slots)%nat eqn:Es; cbn [negb mbind result_bind].
  2:{ eexists. split; [done|]. split; [done|]. intros (? & ? & H). destruct H as [_ H Hd _ _ _].
      rewrite Ed in H. injection H as <-. apply (proj2 Hsize) in Hd. by apply Nat.eqb_neq in Es. }
  apply Nat.eqb_eq in Es. rewrite Hsize in Es. clear Hsize.
  destruct (use_blocks slots sites (blocks f) ∅) as [ends|[]] eqn:Eu; cbn [mbind result_bind].
  2:{ eexists. split; [done|]. split; [done|]. intros (? & ? & H). destruct H as [_ H _ Hu _ _].
      rewrite Ed in H. injection H as <-. by rewrite Eu in Hu. }
  destruct (group_Ok sites ends (by_value slots) ∅) as (r & -> & Hr & Hm).
  { intros v s Hv%by_value_elem. apply Es. by eexists. }
  cbn [mbind outcome_bind]. eexists. split; [done|].
  assert ((∀ v s, (v, s) ∈ by_value slots → is_Some (ends !! v)) ↔ ∀ v, is_Some (slots !! v) → is_Some (ends !! v))
    as Hends.
  { setoid_rewrite by_value_elem. split; [intros H v [s Hs]; by eapply H|intros H v s Hs; apply H; by eexists]. }
  rewrite Hends in Hr. clear Hends. destruct r as [m|e]; cbn [mbind result_bind].
  - assert (∀ key, default [] (m !! key) = slot_intervals sites ends key) as Hg.
    { intros key. rewrite (Hm m key eq_refl). by rewrite lookup_empty. }
    pose proof (no_overlap_group m _ Hg) as Ho. split.
    + intros H. exists sites, ends. split; [by apply Hk|done|done|done|by apply Hr|].
      apply Ho. revert H. unfold fail_if. by destruct (existsb _ _).
    + intros (? & ? & H). destruct H as [_ H1 _ H2 _ H3]. rewrite Ed in H1. injection H1 as <-.
      rewrite Eu in H2. injection H2 as <-. apply Ho in H3. by rewrite H3.
  - split; [done|]. intros (? & ? & H). destruct H as [_ H1 _ H2 H3 _]. rewrite Ed in H1. injection H1 as <-.
    rewrite Eu in H2. injection H2 as <-. by apply Hr in H3.
Qed.

Lemma same_block bs b b' :
  NoDup (List.map block_id bs) → b ∈ bs → b' ∈ bs → block_id b = block_id b' → b = b'.
Proof.
  intros Hn [i Hi]%list_elem_of_lookup [j Hj]%list_elem_of_lookup He.
  assert (i = j) as ->; [|by simplify_eq]. eapply (NoDup_lookup _ _ _ (block_id b) Hn).
  - change (List.map block_id bs) with (block_id <$> bs). by rewrite list_lookup_fmap, Hi.
  - change (List.map block_id bs) with (block_id <$> bs). rewrite list_lookup_fmap, Hj. simpl. by rewrite He.
Qed.

Lemma all_used_elem sites bs v j :
  (v, j) ∈ all_used sites bs ↔
  ∃ b op, b ∈ bs ∧ operations b !! j = Some op ∧ v ∈ runtime_uses op ∧ is_Some (sites !! v).
Proof.
  unfold all_used. rewrite list_elem_of_In, in_flat_map. setoid_rewrite <- list_elem_of_In.
  setoid_rewrite used_elem. simpl. naive_solver.
Qed.

(** What the maps [verify] builds say. *)
Section maps.
Context (sites : Sites) (ends : gmap ValueId nat).
Context (Hids : NoDup (List.map block_id (blocks f))).
Context (Hscalar : ∀ b, b ∈ blocks f → slots_scalar (operations b)).
Context (Hsites : ∀ v x, sites !! v = Some x ↔ (v, x) ∈ all_located (blocks f)).
Context (Hfollow : ∀ b, b ∈ blocks f → uses_follow sites (block_id b) 0 (operations b)).
Context (Hends : ends = record_uses (all_used sites (blocks f)) ∅).

Lemma site_defined v block i :
  sites !! v = Some (block, i) ↔ is_Some (slots !! v) ∧ ∃ b, defined_at b i v ∧ block_id b = block.
Proof using Hscalar Hsites.
  rewrite Hsites, all_located_elem. unfold defined_at. split.
  - intros (b & i' & op & Hb & Hop & Hd & Hs & [= -> ->]). split; [done|]. exists b. split; [|done].
    split; [done|]. exists op. split; [done|]. rewrite (scalar_destinations op v Hd). by left.
  - intros (Hs & b & (Hb & op & Hop & Hv) & <-). exists b, i, op. split_and!; [done..| |done|done].
    apply (Hscalar b Hb op v); [by eapply list_elem_of_lookup_2|done..].
Qed.

Lemma end_last v e :
  ends !! v = Some e →
  (∃ b, used_at b e v) ∧ ∀ b k, used_at b k v → k ≤ e.
Proof using Hids Hfollow Hends.
  intros He. rewrite Hends in He. pose proof (record_uses_use _ _ _ He) as (b & op & Hb & Hop & Hv & Hs)%all_used_elem.
  split; [exists b; split; [done|]; by exists op|]. intros b' k (Hb' & op' & Hop' & Hv').
  destruct (record_uses_last (all_used sites (blocks f)) ∅ v k) as (e' & He' & Hk).
  - by apply all_used_ascending.
  - apply all_used_elem. by exists b', op'.
  - by simplify_eq.
Qed.

Lemma end_exists v : is_Some (sites !! v) → (∃ b k, used_at b k v) → is_Some (ends !! v).
Proof using Hids Hfollow Hends.
  intros Hs (b & k & Hb & op & Hop & Hv). rewrite Hends.
  destruct (record_uses_last (all_used sites (blocks f)) ∅ v k) as (e & He & _); [by apply all_used_ascending| |by eexists].
  apply all_used_elem. by exists b, op.
Qed.

Lemma slot_interval_elem key p :
  p ∈ slot_intervals sites ends key ↔
  ∃ v, slots !! v = Some (key.1.2, key.2) ∧ sites !! v = Some (key.1.1, p.1) ∧ ends !! v = Some p.2.
Proof using.
  clear Hends. unfold slot_intervals. rewrite list_elem_of_omap. split.
  - intros ([v [k s]] & Hv%by_value_elem & Hi). unfold in_slot in Hi. simpl in Hi.
    destruct (sites !! v) as [[block begin]|] eqn:Es; simpl in Hi; [|done].
    destruct (ends !! v) as [last|] eqn:Ee; simpl in Hi; [|done].
    case_bool_decide; [|done]. simplify_eq. exists v. done.
  - intros (v & Hs & Hb & He). exists (v, (key.1.2, key.2)). split; [by apply by_value_elem|].
    unfold in_slot. simpl. rewrite Hb, He. simpl. destruct key as [[? ?] ?], p. simpl.
    by rewrite bool_decide_eq_true_2.
Qed.

(** An interval begins before it ends. *)
Lemma slot_intervals_wf key : Forall (λ p, p.1 ≤ p.2) (slot_intervals sites ends key).
Proof using Hids Hfollow Hends.
  apply list.Forall_forall. intros p (v & _ & Hs & He)%slot_interval_elem.
  apply end_last in He as [(b & Hb & op & Hop & Hv) _].
  destruct (Hfollow b Hb _ _ _ _ _ Hop Hv Hs) as (_ & Hlt & _). lia.
Qed.

(** Two values of one site are one. *)
Lemma site_inj u v x : sites !! u = Some x → sites !! v = Some x → u = v.
Proof using Hids Hsites.
  rewrite !Hsites, !all_located_elem.
  intros (b & i & op & Hb & Hop & Hd & _ & ->) (b' & i' & op' & Hb' & Hop' & Hd' & _ & [= He <-]).
  assert (b = b') as <- by by eapply same_block. congruence.
Qed.
End maps.

Lemma verifies_shareable sites ends : verifies sites ends → shareable.
Proof.
  intros [Hk Hd Hsited Hu He Ho]. pose proof (λ v x, sites_spec sites v x Hd) as Hsites.
  apply define_blocks_Ok in Hd as (Hids & _ & Hp & Hscalar & _).
  apply use_blocks_Ok in Hu as (Hfollow & Ht & Hends).
  pose proof (site_defined sites Hscalar Hsites) as Hsite.
  pose proof (end_last sites ends Hids Hfollow Hends) as Hlast.
  assert (∀ b i v, defined_at b i v → is_Some (slots !! v) → sites !! v = Some (block_id b, i)) as Hat.
  { intros b i v Hb Hs. apply Hsite. split; [done|]. by exists b. }
  split; try done.
  - intros b op v Hb. by apply Hscalar.
  - intros b b' i i' v Hb Hb' Hs. apply Hat in Hb, Hb'; [|done..]. by simplify_eq.
  - intros v Hs. pose proof Hs as [[block i] Hv]%Hsited. apply Hsite in Hv as (_ & b & Hb & _). by exists b, i.
  - intros b b' i j v Hb (Hb' & op & Hop & Hv) Hs. apply Hat in Hb; [|done].
    destruct (Hfollow b' Hb' _ _ _ _ _ Hop Hv Hb) as (-> & ? & _). by split; [|lia].
  - intros v Hs. apply He in Hs as [e Hv]. apply Hlast in Hv as [[b Hb] _]. by exists b, e.
  - intros b op v Hb [j Hop]%list_elem_of_lookup Ha Hv. apply eq_None_not_Some. intros [[block i] Hs]%Hsited.
    destruct (Hfollow b Hb _ _ _ _ _ Hop Hv Hs) as (_ & _ & Hn). congruence.
  - intros u v [k s] b i j Hne Hus Hvs Hu Hv. apply Hat in Hu, Hv; [|by eexists..].
    destruct (He u) as [eu Heu]; [by eexists|]. destruct (He v) as [ev Hev]; [by eexists|].
    destruct (overlapping_sound (merge_sort pair_le (slot_intervals sites ends (block_id b, k, s))) (i, eu) (j, ev))
      as [H|H]; simpl in *.
    + rewrite merge_sort_Permutation. by apply (slot_intervals_wf sites ends Hids Hfollow Hends).
    + apply Ho.
    + rewrite merge_sort_Permutation, slot_interval_elem. by exists u.
    + rewrite merge_sort_Permutation, slot_interval_elem. by exists v.
    + intros [= -> _]. apply Hne. by eapply (site_inj sites Hids Hsites).
    + left. intros m Hm. apply Hlast in Heu as [_ Heu]. specialize (Heu b m Hm). lia.
    + right. intros m Hm. apply Hlast in Hev as [_ Hev]. specialize (Hev b m Hm). lia.
Qed.

Lemma located_NoDup block position ops : NoDup (located block position ops).
Proof.
  revert position. induction ops as [|op ops IH]; intros position; [apply NoDup_nil_2|]. cbn [located].
  apply list.NoDup_app. split_and!; [| |apply IH].
  - destruct (scalar_destination op) as [v|]; [|apply NoDup_nil_2].
    destruct (has_slot slots v); [apply NoDup_singleton|apply NoDup_nil_2].
  - intros [v x] H (i & op' & _ & _ & _ & ->)%located_elem.
    destruct (scalar_destination op) as [u|]; [|by apply not_elem_of_nil in H].
    destruct (has_slot slots u); [|by apply not_elem_of_nil in H].
    apply list_elem_of_singleton in H. simplify_eq. lia.
Qed.

Lemma all_located_NoDup bs : NoDup (List.map block_id bs) → NoDup (all_located bs).
Proof.
  induction bs as [|b bs IH]; simpl; [intros _; apply NoDup_nil_2|]. intros [Hb Hn]%list.NoDup_cons.
  apply list.NoDup_app. split_and!; [apply located_NoDup| |by apply IH].
  intros [v x] (i & op & _ & _ & _ & ->)%located_elem (b' & i' & op' & Hb' & _ & _ & _ & [= He _])%all_located_elem.
  apply Hb. rewrite He. by apply list_elem_of_In, in_map, list_elem_of_In.
Qed.

Lemma NoDup_omap {A B} (g : A → option B) l :
  NoDup l → (∀ x y z, x ∈ l → y ∈ l → g x = Some z → g y = Some z → x = y) → NoDup (omap g l).
Proof.
  induction l as [|x l IH]; [intros; apply NoDup_nil_2|]. intros [Hx Hl]%list.NoDup_cons Hg. simpl.
  assert (NoDup (omap g l)) as Hn by (apply IH; [done|]; intros ? ? ? ? ?; apply Hg; by right).
  destruct (g x) as [z|] eqn:E; [|done]. apply list.NoDup_cons. split; [|done].
  intros (y & Hy & Ez)%list_elem_of_omap. apply Hx. by rewrite (Hg x y z); [|left|right|..].
Qed.

Lemma in_slot_site sites ends key e z : in_slot sites ends key e = Some z → sites !! e.1 = Some (key.1.1, z.1).
Proof.
  unfold in_slot. destruct (sites !! e.1) as [[block begin]|]; simpl; [|done].
  destruct (ends !! e.1); simpl; [|done]. case_bool_decide as Hk; [|done]. intros [= <-]. by rewrite Hk.
Qed.

Lemma shareable_located : shareable → NoDup (all_located (blocks f)).*1.
Proof.
  intros H. pose proof (shareable_ids H) as Hids.
  apply NoDup_fmap_fst; [|by apply all_located_NoDup].
  intros v x y (b & i & op & Hb & Hop & Hd & Hs & ->)%all_located_elem (b' & i' & op' & Hb' & Hop' & Hd' & _ & ->)%all_located_elem.
  destruct (shareable_once H b b' i i' v) as [-> ->]; [| |done|done].
  - split; [done|]. exists op. rewrite (scalar_destinations op v Hd). split; [done|by left].
  - split; [done|]. exists op'. rewrite (scalar_destinations op' v Hd'). split; [done|by left].
Qed.

Lemma shareable_verifies : shareable → ∃ sites ends, verifies sites ends.
Proof.
  intros H. pose proof (shareable_ids H) as Hids.
  pose proof (shareable_located H) as Hn.
  assert (∀ b, b ∈ blocks f → slots_scalar (operations b)) as Hscalar
    by (intros b Hb op v; by apply (shareable_scalar H)).
  assert (define_blocks slots (blocks f) ∅ ∅ = Ok (list_to_map (all_located (blocks f)) ∪ ∅)) as Hdef.
  { apply define_blocks_Ok. split_and!; [done|set_solver|apply (shareable_parameter H)|done|].
    apply insert_fresh_Ok. split_and!; [done|by intros; apply lookup_empty|done]. }
  set (sites := list_to_map (all_located (blocks f)) ∪ ∅) in *.
  pose proof (λ v x, sites_spec sites v x Hdef) as Hsites.
  pose proof (site_defined sites Hscalar Hsites) as Hsite.
  assert (∀ b, b ∈ blocks f → uses_follow sites (block_id b) 0 (operations b)) as Hfollow.
  { intros b Hb i op v B begin Hop Hv (Hs & b' & Hd & <-)%Hsite.
    destruct (shareable_use H b' b begin i v Hd) as [-> ?]; [split; [done|by exists op]|done|].
    split_and!; [done..|]. apply not_true_is_false. intros Ha.
    rewrite (shareable_aggregate H b op v) in Hs; [by destruct Hs|done|by eapply list_elem_of_lookup_2|done..]. }
  pose proof (λ v, end_exists sites _ Hids Hfollow eq_refl v) as Hexists.
  pose proof (end_last sites _ Hids Hfollow eq_refl) as Hlast.
  pose proof (slot_intervals_wf sites _ Hids Hfollow eq_refl) as Hwf.
  assert (∀ v, is_Some (slots !! v) ↔ is_Some (sites !! v)) as Hsited.
  { intros v. split; [|by apply sites_slots]. intros Hs. destruct (shareable_defined H v Hs) as (b & i & Hd).
    exists (block_id b, i). apply Hsite. split; [done|]. by exists b. }
  exists sites, (record_uses (all_used sites (blocks f)) ∅). split.
  - apply (shareable_kind H).
  - done.
  - done.
  - apply use_blocks_Ok. split_and!; [done|apply (shareable_terminator H)|done].
  - intros v Hs. apply Hexists; [by apply Hsited|by apply (shareable_used H)].
  - intros key. apply overlapping_sorted; [apply Hwf| |].
    + apply NoDup_omap; [eapply NoDup_fmap_1, by_value_NoDup|].
      intros [u su] [v sv] z Hu%by_value_elem Hv%by_value_elem Zu%in_slot_site Zv%in_slot_site.
      assert (u = v) as <- by by eapply (site_inj sites Hids Hsites). by simplify_eq.
    + intros p q (u & Hus & Hu & Heu)%slot_interval_elem (v & Hvs & Hv & Hev)%slot_interval_elem Hne.
      assert (u ≠ v) as Huv. { intros ->. apply Hne. destruct p, q. simpl in *. congruence. }
      apply Hsite in Hu as (_ & b & Hdu & Hb), Hv as (_ & b' & Hdv & Hb').
      assert (b' = b) as -> by (eapply same_block; [done|apply Hdv|apply Hdu|congruence]).
      apply Hlast in Heu as [[bu Hbu] _], Hev as [[bv Hbv] _].
      assert (bu = b) as ->.
      { eapply same_block; [done|apply Hbu|apply Hdu|].
        eapply (shareable_use H b bu _ _ u); [done..|by eexists]. }
      assert (bv = b) as ->.
      { eapply same_block; [done|apply Hbv|apply Hdv|].
        eapply (shareable_use H b bv _ _ v); [done..|by eexists]. }
      destruct (shareable_apart H u v _ b _ _ Huv Hus Hvs Hdu Hdv) as [Ha|Ha]; [left|right]; by apply Ha.
Qed.
End verified.

(** [verify] returns, and accepts exactly the maps whose values can share. *)
Lemma verify_shareable f slots : ∃ r, verify f slots = Done r ∧ (is_ok r = true ↔ shareable f slots).
Proof.
  destruct (verify_parts f slots) as (r & Hr & H). exists r. split; [done|]. rewrite H. split.
  - intros (sites & ends & Hv). by eapply verifies_shareable.
  - apply shareable_verifies.
Qed.

(** * The layout *)

Definition wasm_type (type : ValueType) : option ValType :=
  match wasm_value_type 0 type with Ok ty => Some ty | Err _ => None end.

(** The type a local is declared with: parameters, then the extra locals. *)
Definition declared (signature : list ValueType) (l : LocalLayout) (i : nat) : option ValType :=
  match signature !! i with
  | Some type => wasm_type type
  | None => extra_types l !! (i - length signature)%nat
  end.

Definition kind_type (kind : nat) : ValType :=
  match kind with 0 => ValType.I32 | 1 => ValType.I64 | _ => ValType.F64 end%nat.

Lemma wasm_value_type_Ok v type ty : wasm_value_type v type = Ok ty → wasm_type type = Some ty.
Proof. unfold wasm_type. by destruct type; simpl; intros; simplify_eq. Qed.

Lemma physical_type type k : physical (Some type) = Some k → wasm_type type = Some (kind_type k).
Proof. by destruct type; simpl; intros; simplify_eq. Qed.

Section layout.
Context (f : Function) (signature : list ValueType) (slots : gmap ValueId Slot).
Context (kinds : ∀ v k s, slots !! v = Some (k, s) → physical (value_types f !! v) = Some k).

Record laid_out (l : LocalLayout) : Prop := {
  laid_bound v i : local_indices l !! v = Some i → i < length signature + length (extra_types l);
  laid_apart u v i : local_indices l !! u = Some i → local_indices l !! v = Some i →
    u = v ∨ ∃ s, slots !! u = Some s ∧ slots !! v = Some s;
  laid_type v i type : local_indices l !! v = Some i → value_types f !! v = Some type →
    declared signature l i = wasm_type type;
  laid_shared s i : shared l !! s = Some i → length signature ≤ i < length signature + length (extra_types l) ∧
    declared signature l i = Some (kind_type s.1) ∧ ∀ v, local_indices l !! v = Some i → slots !! v = Some s;
  laid_shared_inj s s' i : shared l !! s = Some i → shared l !! s' = Some i → s = s';
}.

Lemma parameter_indices_Ok position ps types m m' :
  parameter_indices f position ps types m = Ok m' →
  length ps = length types → drop position signature = types →
  (∀ v i, m !! v = Some i → i < position ∧ (∃ type, signature !! i = Some type ∧ value_types f !! v = Some type) ∧
     ∀ u, m !! u = Some i → u = v) →
  ∀ v i, m' !! v = Some i → i < length signature ∧
    (∃ type, signature !! i = Some type ∧ value_types f !! v = Some type) ∧ ∀ u, m' !! u = Some i → u = v.
Proof using.
  clear kinds. revert position types m. induction ps as [|p ps IH]; intros position types m H Hlen Hdrop Hm.
  - destruct types; [|done]. simpl in H. injection H as <-. intros v i Hv.
    destruct (Hm v i Hv) as (Hi & Ht & Hu). split_and!; [|done..].
    destruct Ht as (type & Ht & _). by eapply lookup_lt_Some.
  - destruct types as [|type types]; [done|]. cbn [parameter_indices] in H.
    apply fail_if_Ok in H as [[[Ht Hv]%orb_false_iff Hf]%orb_false_iff H].
    apply negb_false_iff, bool_decide_eq_true in Ht, Hv. apply bool_decide_eq_false, eq_None_not_Some in Hf.
    apply drop_cons_lookup in Hdrop as [Hp Hdrop].
    eapply IH; [exact H|by injection Hlen|done|]. intros v i [[<- <-]|[Hne Hi]]%lookup_insert_Some.
    + split_and!; [lia|exists type; by rewrite <- Ht at 2|].
      intros u [[<- _]|[_ Hu]]%lookup_insert_Some; [done|]. apply Hm in Hu. lia.
    + destruct (Hm v i Hi) as (Hlt & Hty & Hu). split_and!; [lia|done|].
      intros u [[_ <-]|[_ Hu']]%lookup_insert_Some; [lia|by apply Hu].
Qed.

Lemma declared_new l type i :
  i < length signature + length (extra_types l) →
  declared signature (new_local (length signature) type l).2 i = declared signature l i.
Proof using.
  intros Hi. unfold declared. destruct (signature !! i) eqn:E; [done|]. simpl.
  apply lookup_ge_None in E. rewrite lookup_app_l; [done|lia].
Qed.

Lemma declared_new_last l type :
  declared signature (new_local (length signature) type l).2 (length signature + length (extra_types l)) = Some type.
Proof using.
  unfold declared. rewrite lookup_ge_None_2 by lia. simpl.
  rewrite lookup_app_r by lia. by replace (_ - _ - _)%nat with 0%nat by lia.
Qed.

(** A value that takes a local of its own. *)
Lemma laid_own l v type ty :
  laid_out l → local_indices l !! v = None → slots !! v = None →
  value_types f !! v = Some type → wasm_value_type v type = Ok ty →
  laid_out (set_index v (length signature + length (extra_types l)) (new_local (length signature) ty l).2).
Proof using kinds.
  intros [Hb Ha Ht Hs Hi] Hv Hn Htype Hty%wasm_value_type_Ok. split; simpl.
  - intros u i [[<- <-]|[_ Hu]]%lookup_insert_Some; rewrite length_app; simpl; [lia|].
    apply Hb in Hu. lia.
  - intros u w i [[<- <-]|[_ Hu]]%lookup_insert_Some [[<- Hw]|[_ Hw]]%lookup_insert_Some.
    + by left.
    + apply Hb in Hw. lia.
    + subst i. apply Hb in Hu. lia.
    + by eapply Ha.
  - intros u i type' [[<- <-]|[_ Hu]]%lookup_insert_Some Hut.
    + simplify_eq. rewrite Hty. apply (declared_new_last l ty).
    + rewrite <- (Ht u i type' Hu Hut). apply (declared_new l ty). by apply Hb in Hu.
  - intros s i Hsi. destruct (Hs s i Hsi) as (Hr & Hd & Hall). rewrite length_app. simpl. split_and!; [lia|lia| |].
    + rewrite <- Hd. apply (declared_new l ty). lia.
    + intros u [[_ <-]|[_ Hu]]%lookup_insert_Some; [lia|by apply Hall].
  - done.
Qed.

(** The first value of a slot. *)
Lemma laid_first l v slot type ty :
  laid_out l → local_indices l !! v = None → slots !! v = Some slot → shared l !! slot = None →
  value_types f !! v = Some type → wasm_value_type v type = Ok ty →
  laid_out (set_index v (length signature + length (extra_types l))
    (share slot (length signature + length (extra_types l)) (new_local (length signature) ty l).2)).
Proof using kinds.
  intros [Hb Ha Ht Hs Hi] Hv Hn Hsh Htype Hty%wasm_value_type_Ok.
  assert (ty = kind_type slot.1) as Hkind.
  { destruct slot as [k s]. pose proof (kinds v k s Hn) as Hk. rewrite Htype in Hk. apply physical_type in Hk.
    simpl. congruence. }
  split; simpl.
  - intros u i [[<- <-]|[_ Hu]]%lookup_insert_Some; rewrite length_app; simpl; [lia|].
    apply Hb in Hu. lia.
  - intros u w i [[<- <-]|[_ Hu]]%lookup_insert_Some [[<- Hw]|[_ Hw]]%lookup_insert_Some.
    + by left.
    + apply Hb in Hw. lia.
    + subst i. apply Hb in Hu. lia.
    + by eapply Ha.
  - intros u i type' [[<- <-]|[_ Hu]]%lookup_insert_Some Hut.
    + simplify_eq. rewrite Hty. apply (declared_new_last l).
    + rewrite <- (Ht u i type' Hu Hut). apply (declared_new l ty). by apply Hb in Hu.
  - intros s i [[<- <-]|[_ Hsi]]%lookup_insert_Some; rewrite length_app; simpl.
    + split_and!; [lia|lia| |].
      * rewrite <- Hkind. apply (declared_new_last l).
      * intros u [[<- _]|[_ Hu]]%lookup_insert_Some; [done|]. apply Hb in Hu. lia.
    + destruct (Hs s i Hsi) as (Hr & Hd & Hall). split_and!; [lia|lia| |].
      * rewrite <- Hd. apply (declared_new l ty). lia.
      * intros u [[_ <-]|[_ Hu]]%lookup_insert_Some; [lia|by apply Hall].
  - intros s s' i [[<- <-]|[_ H1]]%lookup_insert_Some [[<- H2]|[_ H2]]%lookup_insert_Some.
    + done.
    + apply Hs in H2. lia.
    + subst i. apply Hs in H1. lia.
    + by eapply Hi.
Qed.

(** A value that joins a slot. *)
Lemma laid_join l v slot i type :
  laid_out l → slots !! v = Some slot → shared l !! slot = Some i → value_types f !! v = Some type →
  laid_out (set_index v i l).
Proof using kinds.
  intros [Hb Ha Ht Hs Hi] Hn Hsh Htype. destruct (Hs slot i Hsh) as (Hr & Hd & Hall).
  assert (wasm_type type = Some (kind_type slot.1)) as Hkind.
  { destruct slot as [k s]. pose proof (kinds v k s Hn) as Hk. rewrite Htype in Hk. by apply physical_type in Hk. }
  split; simpl.
  - intros u j [[<- <-]|[_ Hu]]%lookup_insert_Some; [lia|by eapply Hb].
  - intros u w j [[<- <-]|[_ Hu]]%lookup_insert_Some [[<- Hw]|[_ Hw]]%lookup_insert_Some.
    + by left.
    + right. exists slot. split; [done|by apply Hall].
    + subst j. right. exists slot. split; [by apply Hall|done].
    + by eapply Ha.
  - intros u j type' [[<- <-]|[_ Hu]]%lookup_insert_Some Hut; [|by eapply Ht].
    simplify_eq. by rewrite Hkind.
  - intros s j Hsj. destruct (Hs s j Hsj) as (Hr' & Hd' & Hall'). split_and!; [lia|lia|done|].
    intros u [[<- <-]|[_ Hu]]%lookup_insert_Some; [|by apply Hall']. by rewrite (Hi s slot i).
  - done.
Qed.

Lemma value_locals_laid values l l' :
  value_locals (length signature) slots values l = Ok l' →
  (∀ v type, (v, type) ∈ values → value_types f !! v = Some type) → laid_out l → laid_out l'.
Proof using kinds.
  revert l. induction values as [|[v type] values IH]; intros l H Hv Hl; [by injection H as <-|].
  assert (value_types f !! v = Some type) as Htype by (apply Hv; by left).
  assert (∀ u t, (u, t) ∈ values → value_types f !! u = Some t) as Hv' by (intros; apply Hv; by right).
  cbn [value_locals] in H. case_bool_decide as Hi; [by eapply IH|]. apply eq_None_not_Some in Hi.
  assert (∀ r, (ty ← wasm_value_type v type; r ty) = Ok l' →
    ∃ ty, wasm_value_type v type = Ok ty ∧ r ty = Ok l') as Hinv by (intros r; apply result_bind_Ok).
  destruct type; try solve [eapply IH; [exact H|done|done]]; apply Hinv in H as (ty & Hty & H);
    (destruct (slots !! v) as [slot|] eqn:Es; [destruct (shared l !! slot) as [i|] eqn:Eh|]; simpl in H).
  all: eapply IH; [exact H|done|].
  all: first [by eapply laid_join|by eapply laid_first|by eapply laid_own].
Qed.
End layout.

Lemma local_layout_Ok f signature l :
  local_layout f signature = Done (Ok l) → shareable f (slots f) ∧ laid_out f signature (slots f) l.
Proof.
  unfold local_layout. destruct (List.find _ (blocks f)) as [b|]; [|done].
  destruct (length (parameters b) =? length signature)%nat eqn:Elen; [|done]. apply Nat.eqb_eq in Elen. simpl.
  destruct (parameter_indices f 0 (parameters b) signature ∅) as [m|] eqn:Em; [|done].
  destruct (verify_shareable f (slots f)) as (r & -> & Hr). cbn [mbind outcome_bind].
  destruct r as [[]|]; [|done]. intros [= H]. assert (shareable f (slots f)) as Hs by by apply Hr.
  split; [done|]. rewrite Elen in H. eapply (value_locals_laid f signature (slots f) (shareable_kind f _ Hs)); [exact H| |].
  { intros v type. by rewrite by_value_elem. }
  pose proof (parameter_indices_Ok f signature 0 _ _ _ _ Em Elen eq_refl) as Hm.
  assert (∀ v i, m !! v = Some i → i < length signature ∧
    (∃ type, signature !! i = Some type ∧ value_types f !! v = Some type) ∧ ∀ u, m !! u = Some i → u = v) as Hp
    by (apply Hm; by intros).
  split; simpl.
  - intros v i Hv. apply Hp in Hv. lia.
  - intros u v i Hu Hv. left. by eapply Hp.
  - intros v i type (_ & (type' & Hi & Hv) & _)%Hp Ht. unfold declared. rewrite Hi. by simplify_eq.
  - by intros s i Hi.
  - by intros s s' i Hi.
Qed.

(** * Running on shared locals *)

(** What is known of the operations outside the scalar part: they read the
    values [runtime_uses] lists, and give one result per destination. *)
Record operands_only {W} (perform : Operation → locals → W → option (list N * W) → Prop) : Prop := {
  operands_read op e e' w r :
    (∀ v, v ∈ runtime_uses op → get e v = get e' v) → perform op e w r → perform op e' w r;
  operands_results op e w xs w' :
    perform op e w (Some (xs, w')) → length xs = length (operation_destinations op);
}.

Lemma seen_fetch l s v : get (seen l s) v = fetch l s v.
Proof.
  unfold seen, get. set (D := _ ∪ list_to_set _).
  destruct (decide (v ∈ D)) as [Hv|Hv].
  - assert (set_to_map (λ v, (v, fetch l s v)) D !! v = Some (fetch l s v)) as ->; [|done].
    apply lookup_set_to_map; [done|]. by exists v.
  - assert (set_to_map (λ v, (v, fetch l s v)) D !! v = None) as ->.
    { apply eq_None_not_Some. intros [x (u & Hu & [= -> _])%lookup_set_to_map]; done. }
    unfold D in Hv. apply not_elem_of_union in Hv as [Hi Hs]. unfold fetch, place.
    apply not_elem_of_dom in Hi. rewrite Hi. simpl. destruct (s !! inr v) as [x|] eqn:E; [|done].
    destruct Hs. apply elem_of_list_to_set, list_elem_of_omap. exists (inr v, x).
    by rewrite elem_of_map_to_list.
Qed.

(** A scalar operation reads its operands and writes its destination. *)
Lemma effect_uses f op e e' :
  (∀ v, v ∈ operation_uses op → get e v = get e' v) →
  match scalar_effect f e op with
  | Next e1 => ∃ xs, length xs = length (operation_destinations op) ∧ length xs ≤ 1 ∧
      e1 = set_all f e (operation_destinations op) xs ∧
      scalar_effect f e' op = Next (set_all f e' (operation_destinations op) xs)
  | Traps => scalar_effect f e' op = Traps
  | World => scalar_effect f e' op = World
  end.
Proof.
  intros H. destruct op; simpl in *; try done; try (by eexists [_]).
  - rewrite <- (H left), <- (H right) by set_solver.
    destruct (compare_limit _); [by eexists [_]|done].
  - rewrite <- (H value) by set_solver. destruct (_ && _); [done|by eexists [_]].
  - rewrite <- (H value) by set_solver. by eexists [_].
  - rewrite <- (H condition) by set_solver. destruct (_ =? _)%N; [done|].
    exists []. split_and!; [done|simpl; lia|done..].
Qed.

Section run.
Context {W : Type} (perform : Operation → locals → W → option (list N * W) → Prop).
Context (Hperform : operands_only perform).
Context (f : Function) (index : gmap BlockId BasicBlock) (signature : list ValueType) (l : LocalLayout).
Context (Hindex : index_blocks f = Ok index).
Context (Hshare : shareable f (slots f)) (Hlaid : laid_out f signature (slots f) l).

Lemma place_apart u v : place l u = place l v → u ≠ v → ∃ s, slots f !! u = Some s ∧ slots f !! v = Some s.
Proof using Hlaid.
  unfold place. destruct (local_indices l !! u) as [i|] eqn:Eu, (local_indices l !! v) as [j|] eqn:Ev;
    intros H Hne; simplify_eq.
  by destruct (laid_apart _ _ _ _ Hlaid u v j Eu Ev) as [->|?].
Qed.

(** The values whose local still holds them before operation [i]. *)
Definition current (b : BasicBlock) (i : nat) (v : ValueId) : Prop :=
  slots f !! v = None ∨ ∃ k j, defined_at f b k v ∧ used_at f b j v ∧ k < i ∧ i ≤ j.

Definition agree (b : BasicBlock) (i : nat) (e : locals) (s : storage) : Prop :=
  ∀ v, current b i v → get e v = fetch l s v.

Lemma current_operand b i op v :
  b ∈ blocks f → operations b !! i = Some op → v ∈ runtime_uses op → current b i v.
Proof using Hshare.
  intros Hb Hop Hv. destruct (slots f !! v) as [s|] eqn:E; [right|by left].
  assert (is_Some (slots f !! v)) as Hs by by eexists.
  destruct (shareable_defined _ _ Hshare v Hs) as (b' & k & Hd).
  assert (used_at f b i v) as Hu by (split; [done|by exists op]).
  destruct (shareable_use _ _ Hshare b' b k i v Hd Hu Hs) as [He Hlt].
  assert (b' = b) as -> by (eapply same_block; [apply (shareable_ids _ _ Hshare)|apply Hd|done|done]).
  by exists k, i.
Qed.

(** A value in use does not share with one that is defined. *)
Lemma in_use_apart b i j k u d :
  defined_at f b k u → used_at f b j u → k ≤ i → i ≤ j → defined_at f b i d → place l u = place l d → u = d.
Proof using Hshare Hlaid.
  intros Hk Hj Hki Hij Hd Hp. destruct (decide (u = d)) as [->|Hne]; [done|].
  destruct (place_apart u d Hp Hne) as (s & Hus & Hds). assert (is_Some (slots f !! d)) as Hsd by by eexists.
  destruct (shareable_used _ _ Hshare d Hsd) as (b' & j' & Hj').
  destruct (shareable_use _ _ Hshare b b' i j' d Hd Hj' Hsd) as [He Hlt].
  assert (b' = b) as -> by (eapply same_block; [apply (shareable_ids _ _ Hshare)|apply Hj'|apply Hd|done]).
  destruct (shareable_apart _ _ Hshare u d s b k i Hne Hus Hds Hk Hd) as [H|H].
  - specialize (H j Hj). lia.
  - specialize (H j' Hj'). lia.
Qed.

(** What survives operation [i] does not share the local it writes. *)
Lemma current_apart b i op u d :
  b ∈ blocks f → operations b !! i = Some op → d ∈ operation_destinations op → current b (S i) u →
  place l u = place l d → u = d.
Proof using Hshare Hlaid.
  intros Hb Hop Hd [Hu|(k & j & Hk & Hj & Hki & Hij)] Hp.
  - destruct (decide (u = d)) as [->|Hne]; [done|]. destruct (place_apart u d Hp Hne) as (s & ? & _). congruence.
  - eapply (in_use_apart b i j k); [done|done|lia|lia|split; [done|by exists op]|done].
Qed.

(** An operation's result does not share with its operands. *)
Lemma operand_apart b i op u d :
  b ∈ blocks f → operations b !! i = Some op → u ∈ runtime_uses op → d ∈ operation_destinations op →
  place l u = place l d → u = d.
Proof using Hshare Hlaid.
  intros Hb Hop Hu Hd Hp. destruct (current_operand b i op u Hb Hop Hu) as [Hn|(k & j & Hk & Hj & Hki & Hij)].
  - destruct (decide (u = d)) as [->|Hne]; [done|]. destruct (place_apart u d Hp Hne) as (s & ? & _). congruence.
  - eapply (in_use_apart b i j k); [done|done|lia|lia|split; [done|by exists op]|done].
Qed.

Lemma agree_write (P : ValueId → Prop) ds xs e s :
  (∀ u d, P u → d ∈ ds → place l u = place l d → u = d) →
  (∀ u, P u → get e u = fetch l s u ∨ u ∈ ds ∧ length xs = length ds) →
  ∀ u, P u → get (set_all f e ds xs) u = fetch l (store_all f l s ds xs) u.
Proof using.
  revert xs e s. induction ds as [|d ds IH]; intros xs e s Hp He u Hu.
  { destruct (He u Hu) as [H|[?%not_elem_of_nil _]]; [|done]. by destruct xs. }
  destruct xs as [|x xs]; [by destruct (He u Hu) as [H|[_ ?]]|]. simpl. apply IH; [| |done].
  - intros v d' Hv Hd. apply Hp; [done|by right].
  - clear u Hu. intros u Hu. rewrite get_set. unfold fetch, store. case_bool_decide as Hud.
    + left. subst u. by rewrite lookup_insert_eq.
    + assert (place l u ≠ place l d) as Hne by (intros Hpl; apply Hud, Hp; [done|by left|done]).
      rewrite lookup_insert_ne by done.
      destruct (He u Hu) as [H|[[->|Hin]%elem_of_cons Hlen]]; [by left|done|].
      right. split; [done|by injection Hlen].
Qed.

Lemma agree_next b i op xs e s :
  b ∈ blocks f → operations b !! i = Some op → length xs = length (operation_destinations op) →
  agree b i e s →
  agree b (S i) (set_all f e (operation_destinations op) xs) (store_all f l s (operation_destinations op) xs).
Proof using Hshare Hlaid.
  intros Hb Hop Hlen Ha u Hu. revert u Hu. apply agree_write.
  - intros u d Hu Hd. by eapply current_apart.
  - intros u [Hu|(k & j & Hk & Hj & Hki & Hij)]; [left; apply Ha; by left|].
    destruct (decide (k = i)) as [->|Hne].
    + right. destruct Hk as (_ & op' & Hop' & Hin). by simplify_eq.
    + left. apply Ha. right. exists k, j. split_and!; [done|done|lia|lia].
Qed.

(** A stored scalar result is written as it was computed. *)
Lemma store_results e s ds xs :
  length xs ≤ 1 → length xs = length ds →
  store_all f l s ds (List.map (get (set_all f e ds xs)) ds) = store_all f l s ds xs.
Proof using.
  intros H1 H2. destruct ds as [|d [|]], xs as [|x [|]]; try done; [|simpl in *; lia].
  simpl. rewrite get_set, bool_decide_eq_true_2 by done. unfold store. by rewrite fit_idempotent.
Qed.

Lemma agree_enter b i b' e s xs :
  b' ∈ blocks f → agree b i e s →
  agree b' 0 (set_all f e (block_parameters b') xs) (store_all f l s (block_parameters b') xs).
Proof using Hshare Hlaid.
  intros Hb' Ha u Hu. revert u Hu. apply agree_write.
  - intros u d Hu Hd Hp. destruct (decide (u = d)) as [->|Hne]; [done|].
    destruct (place_apart u d Hp Hne) as (s' & _ & Hds).
    by rewrite (shareable_parameter _ _ Hshare b' d Hb' Hd) in Hds.
  - intros u [Hu|(k & j & _ & _ & ? & _)]; [|lia]. left. apply Ha. by left.
Qed.

Inductive sim : state W → stored W → Prop :=
  | sim_running id b i e s w :
      index !! id = Some b → agree b i e s → sim (Running id i e w) (Stored id i s w)
  | sim_final t : final t → sim t (Stopped t).

Lemma indexed_block id b : index !! id = Some b → b ∈ blocks f.
Proof using Hindex. intros H. by apply (index_blocks_spec _ _ Hindex) in H as [? _]. Qed.

Lemma enter_sim b i e s w target arguments :
  agree b i e s → List.map (get e) arguments = List.map (fetch l s) arguments →
  match enter f index e w target arguments, stored_enter f index l s w target arguments with
  | Some t, Some u => sim t u
  | None, None => True
  | _, _ => False
  end.
Proof using Hindex Hshare Hlaid.
  intros Ha He. unfold enter, stored_enter. destruct (index !! target) as [b'|] eqn:E; simpl; [|done].
  rewrite He. econstructor; [done|]. eapply agree_enter; [by eapply indexed_block|done].
Qed.

Lemma leave_sim b e s w :
  b ∈ blocks f → agree b (length (operations b)) e s →
  match leave f index e w (terminator b), stored_leave f index l s w (terminator b) with
  | Some t, Some u => sim t u
  | None, None => True
  | _, _ => False
  end.
Proof using Hindex Hshare Hlaid.
  clear Hperform perform. intros Hb Ha.
  assert (∀ v, v ∈ terminator_uses (terminator b) → get e v = fetch l s v) as Hv.
  { intros v Hv. apply Ha. left. by eapply (shareable_terminator _ _ Hshare). }
  assert (∀ vs, (∀ v, v ∈ vs → v ∈ terminator_uses (terminator b)) →
    List.map (get e) vs = List.map (fetch l s) vs) as Hvs.
  { intros vs H. apply map_ext_in. intros v ?%list_elem_of_In. by apply Hv, H. }
  destruct (terminator b) as [target arguments|condition t1 a1 t2 a2|values|site callee arguments|
    site callee signature' arguments| |] eqn:Et; simpl in *.
  - eapply enter_sim; [done|by apply Hvs].
  - rewrite Hv by by left. destruct (_ =? _)%N.
    + eapply enter_sim; [done|]. apply Hvs. set_solver.
    + eapply enter_sim; [done|]. apply Hvs. set_solver.
  - rewrite Hvs by done. by constructor.
  - rewrite Hvs by done. by constructor.
  - rewrite Hvs by (intros; by right). rewrite Hv by by left. by constructor.
  - by constructor.
  - by constructor.
Qed.

Lemma agree_operands b i op e s :
  b ∈ blocks f → operations b !! i = Some op → agree b i e s →
  ∀ v, v ∈ runtime_uses op → get e v = get (seen l s) v.
Proof using Hshare. intros Hb Hop Ha v Hv. rewrite seen_fetch. apply Ha. by eapply current_operand. Qed.

Lemma operation_operand op v : v ∈ operation_uses op → v ∈ runtime_uses op.
Proof using. intros H. apply elem_of_app. by left. Qed.

Lemma step_stored t t' u :
  step perform f index t t' → sim t u → ∃ u', stored_step perform f index l u u' ∧ sim t' u'.
Proof using Hperform Hindex Hshare Hlaid.
  intros Hstep Hsim. destruct Hsim as [id b i e s w Hb Ha|t Hf]; [|by destruct Hstep].
  inversion Hstep as [? b' ? op ? e' ? Hb' Hop He|? b' ? op ? ? Hb' Hop He|? b' ? op ? ? xs w' Hb' Hop He Hp
    |? b' ? op ? ? Hb' Hop He Hp|? b' ? ? ? Hb' Hl]; subst; simplify_eq.
  all: pose proof (indexed_block _ _ Hb) as Hbf.
  1-4: pose proof (agree_operands b i op e s Hbf Hop Ha) as Hu.
  1-4: pose proof (effect_uses f op e (seen l s) (λ v Hv, Hu v (operation_operand op v Hv))) as Hef.
  1-4: rewrite He in Hef.
  - destruct Hef as (xs & Hlen & H1 & -> & Hs). eexists. split; [by eapply stored_next|].
    rewrite store_results by done. econstructor; [done|]. by apply agree_next.
  - eexists. split; [by eapply stored_trap|by constructor].
  - eexists. split; [eapply stored_world; [done..|]; by eapply (operands_read _ Hperform)|].
    econstructor; [done|]. apply agree_next; [done..| |done]. by eapply (operands_results _ Hperform).
  - eexists. split; [eapply stored_world_trap; [done..|]; by eapply (operands_read _ Hperform)|by constructor].
  - pose proof (leave_sim b e s w Hbf Ha) as H. rewrite Hl in H.
    destruct (stored_leave _ _ _ _ _ _) as [u'|] eqn:E; [|done]. exists u'. split; [|done]. by eapply stored_leaves.
Qed.

Lemma stored_step_step t u u' :
  stored_step perform f index l u u' → sim t u → ∃ t', step perform f index t t' ∧ sim t' u'.
Proof using Hperform Hindex Hshare Hlaid.
  intros Hstep Hsim. destruct Hsim as [id b i e s w Hb Ha|t Hf]; [|by inversion Hstep].
  inversion Hstep as [? b' ? op ? e' ? Hb' Hop He|? b' ? op ? ? Hb' Hop He|? b' ? op ? ? xs w' Hb' Hop He Hp
    |? b' ? op ? ? Hb' Hop He Hp|? b' ? ? ? Hb' Hl]; subst; simplify_eq.
  all: pose proof (indexed_block _ _ Hb) as Hbf.
  1-4: pose proof (agree_operands b i op e s Hbf Hop Ha) as Hu.
  1-4: pose proof (effect_uses f op (seen l s) e (λ v Hv, eq_sym (Hu v (operation_operand op v Hv)))) as Hef.
  1-4: rewrite He in Hef.
  - destruct Hef as (xs & Hlen & H1 & -> & Hs). eexists. split; [by eapply step_next|].
    rewrite store_results by done. econstructor; [done|]. by apply agree_next.
  - eexists. split; [by eapply step_trap|by constructor].
  - eexists. split; [eapply step_world; [done..|]; eapply (operands_read _ Hperform); [|done]; intros v Hv; by rewrite Hu|].
    econstructor; [done|]. apply agree_next; [done..| |done]. by eapply (operands_results _ Hperform).
  - eexists. split; [eapply step_world_trap; [done..|]; eapply (operands_read _ Hperform); [|done]; intros v Hv; by rewrite Hu|].
    by constructor.
  - pose proof (leave_sim b e s w Hbf Ha) as H. rewrite Hl in H.
    destruct (leave _ _ _ _ _) as [t'|] eqn:E; [|done]. exists t'. split; [|done]. by eapply step_leave.
Qed.

Lemma start_sim arguments w :
  match start f index arguments w, stored_start f index l arguments w with
  | Some t, Some u => sim t u
  | None, None => True
  | _, _ => False
  end.
Proof using Hindex Hshare Hlaid.
  unfold start, stored_start. destruct (index !! entry f) as [b|] eqn:E; simpl; [|done]. econstructor; [done|].
  eapply (agree_enter b 0); [by eapply indexed_block|]. intros v _. unfold get, fetch. by rewrite !lookup_empty.
Qed.

Lemma run_stored t u t' : rtc (step perform f index) t t' → sim t u →
  ∃ u', rtc (stored_step perform f index l) u u' ∧ sim t' u'.
Proof using Hperform Hindex Hshare Hlaid.
  intros Hr. revert u. induction Hr as [t|t t1 t' Hs _ IH]; intros u Hsim; [by exists u|].
  destruct (step_stored t t1 u Hs Hsim) as (u1 & Hu1 & Hs1). destruct (IH u1 Hs1) as (u' & Hu' & Hs').
  exists u'. split; [by eapply rtc_l|done].
Qed.

Lemma stored_run t u u' : rtc (stored_step perform f index l) u u' → sim t u →
  ∃ t', rtc (step perform f index) t t' ∧ sim t' u'.
Proof using Hperform Hindex Hshare Hlaid.
  intros Hr. revert t. induction Hr as [u|u u1 u' Hs _ IH]; intros t Hsim; [by exists t|].
  destruct (stored_step_step t u u1 Hs Hsim) as (t1 & Ht1 & Hs1). destruct (IH t1 Hs1) as (t' & Ht' & Hs').
  exists t'. split; [by eapply rtc_l|done].
Qed.

Lemma shared_locals_run arguments w t :
  final t →
  reaches perform f index arguments w t ↔ stored_reaches perform f index l arguments w (Stopped t).
Proof using Hperform Hindex Hshare Hlaid.
  intros Hf. pose proof (start_sim arguments w) as Hstart. split.
  - intros (t0 & H0 & Hr). rewrite H0 in Hstart. destruct (stored_start _ _ _ _ _) as [u0|] eqn:E; [|done].
    destruct (run_stored t0 u0 t Hr Hstart) as (u' & Hu' & Hs). exists u0. split; [done|].
    inversion Hs; subst; done.
  - intros (u0 & H0 & Hr). rewrite H0 in Hstart. destruct (start _ _ _ _) as [t0|] eqn:E; [|done].
    destruct (stored_run t0 u0 _ Hr Hstart) as (t' & Ht' & Hs). exists t0. split; [done|].
    by inversion Hs; subst.
Qed.
End run.

(** * Properties *)

(** C10: The check of a storage map returns, without a panic, and accepts
    exactly the maps under which values may share locals: a value in a slot
    has the slot's kind, is defined once, by a scalar operation, is used after
    its definition, in its block only, and neither by a terminator nor by an
    inline aggregate; and of two values of a slot defined in one block, one
    is used for the last time before the other is defined. *)
Theorem verify_exact f slots : ∃ r, verify f slots = Done r ∧ (r = Ok tt ↔ shareable f slots).
Proof.
  destruct (verify_shareable f slots) as (r & Hr & H). exists r. split; [done|]. rewrite <- H.
  by destruct r as [[]|].
Qed.

(** C9: A function that gets a layout runs on the layout's locals, where
    scalar temporaries share, as on a local per value: the same final states
    are reached from the same arguments, for operations that read only the
    operands listed for them.  A value's local is declared with the value's
    type.  An operation's result shares with none of its operands, so that
    its code may read them late; and the fields of an inline aggregate, which
    are read again where the aggregate is used, share with nothing. *)
Theorem shared_locals_sound {W} (perform : Operation → locals → W → option (list N * W) → Prop) f index signature l :
  operands_only perform → index_blocks f = Ok index → local_layout f signature = Done (Ok l) →
  (∀ arguments w t, final t →
     reaches perform f index arguments w t ↔ stored_reaches perform f index l arguments w (Stopped t)) ∧
  (∀ v i type, local_indices l !! v = Some i → value_types f !! v = Some type →
     declared signature l i = wasm_type type) ∧
  (∀ b op u d, b ∈ blocks f → op ∈ operations b → u ∈ runtime_uses op → d ∈ operation_destinations op →
     place l u = place l d → u = d) ∧
  (∀ b d layout fields u v, b ∈ blocks f → Operation.MakeInlineAggregate d layout fields ∈ operations b →
     u ∈ fields → place l u = place l v → u = v).
Proof.
  intros Hp Hi (Hs & Hl)%local_layout_Ok. split_and!.
  - intros arguments w t. by eapply shared_locals_run.
  - apply (laid_type _ _ _ _ Hl).
  - intros b op u d Hb [i Hop]%list_elem_of_lookup. by eapply operand_apart.
  - intros b d layout fields u v Hb Hop Hu Hpl. destruct (decide (u = v)) as [->|Hne]; [done|].
    destruct (place_apart f signature l Hl u v Hpl Hne) as (s & Hus & _).
    rewrite (shareable_aggregate _ _ Hs b _ u Hb Hop eq_refl) in Hus; [done|].
    by apply operation_operand.
Qed.

(** The additions of the sample; other operations trap. *)
Definition adds (op : Operation) (e : locals) (w : unit) (r : option (list N * unit)) : Prop :=
  match op with
  | Operation.Arithmetic _ Add x y _ => r = Some ([get e x + get e y]%N, w)
  | _ => r = None
  end.

Lemma adds_operands : operands_only adds.
Proof.
  split.
  - intros [] e e' w r H; try done. destruct operator; try done. simpl. intros ->.
    by rewrite !H by (apply operation_operand; simpl; set_solver).
  - intros [] e w xs w' H; try done. destruct operator; try done. simpl in H. by simplify_eq.
Qed.

Lemma shared_locals_sound_witness :
  ∃ index l, index_blocks guarded_loop = Ok index ∧
    local_layout guarded_loop [ValueType.Size] = Done (Ok l) ∧ place l 4 = place l 5 ∧
    ∀ t, final t →
      reaches adds guarded_loop index [3%N] tt t ↔
      stored_reaches adds guarded_loop index l [3%N] tt (Stopped t).
Proof.
  destruct (index_blocks guarded_loop) as [index|] eqn:Ei; [|vm_compute in Ei; discriminate].
  destruct (local_layout guarded_loop [ValueType.Size]) as [[l|]| |] eqn:El; try (vm_compute in El; discriminate).
  exists index, l. split; [done|]. split; [done|]. split.
  { vm_compute in El. injection El as <-. reflexivity. }
  intros t. exact (proj1 (shared_locals_sound adds guarded_loop index [ValueType.Size] l adds_operands Ei El) [3%N] tt t).
Defined.
