(* ===== verification/SlotAllocation.v ===== *)
(** * SlotAllocation: the allocation of shared locals is accepted

    [slots] ([crates/witchy-wir/src/canonical_wasmir/scalar_locals.rs]) packs
    the intervals of scalar temporaries into pools, [verify] checks the
    result without it.  When values are defined once and a block uses what it
    defines only afterwards, the check never refuses the allocation. *)

From S2P Require Import Prelude SafeWir Dominance SsaPaths ScalarMachine ScalarLocals.

(** * The table of uses *)

(** One call of [note_use]. *)
Record event : Set := { used_value : ValueId; event_block : BlockId; event_position : nat; event_pinned : bool }.

Definition note (uses : gmap ValueId UseSite) (n : event) : gmap ValueId UseSite :=
  note_use uses (used_value n) (event_block n) (event_position n) (event_pinned n).

Definition value_events (block : BlockId) (position : nat) (pinned : bool) (vs : list ValueId) : list event :=
  List.map (λ v, {| used_value := v; event_block := block; event_position := position; event_pinned := pinned |}) vs.

Fixpoint operation_events (block : BlockId) (position : nat) (ops : list Operation) : list event :=
  match ops with
  | [] => []
  | op :: ops =>
      value_events block position (makes_aggregate op) (runtime_uses op) ++ operation_events block (S position) ops
  end.

Definition block_events (b : BasicBlock) : list event :=
  operation_events (block_id b) 0 (operations b) ++
  value_events (block_id b) (length (operations b)) true (terminator_uses (terminator b)).

Lemma note_uses_events block position pinned vs uses :
  note_uses block position pinned vs uses = List.fold_left note (value_events block position pinned vs) uses.
Proof. revert uses. induction vs as [|v vs IH]; intros uses; [done|]. apply IH. Qed.

Lemma note_operations_events block position ops uses :
  note_operations block position ops uses = List.fold_left note (operation_events block position ops) uses.
Proof.
  revert position uses. induction ops as [|op ops IH]; intros position uses; [done|]. simpl.
  by rewrite fold_left_app, IH, note_uses_events.
Qed.

Lemma use_sites_events f : use_sites f = List.fold_left note (List.flat_map block_events (blocks f)) ∅.
Proof.
  unfold use_sites. generalize (∅ : gmap ValueId UseSite).
  induction (blocks f) as [|b bs IH]; intros uses; [done|]. simpl. rewrite fold_left_app, IH. f_equal.
  unfold note_block, block_events. by rewrite fold_left_app, note_uses_events, note_operations_events.
Qed.

Lemma operation_events_elem block position ops n :
  n ∈ operation_events block position ops ↔
  ∃ i op, ops !! i = Some op ∧ used_value n ∈ runtime_uses op ∧ event_block n = block ∧
    event_position n = (position + i)%nat ∧ event_pinned n = makes_aggregate op.
Proof.
  revert position. induction ops as [|op ops IH]; intros position; simpl.
  - split; [by intros ?%not_elem_of_nil|]. by intros (i & ? & ? & _).
  - rewrite elem_of_app, IH. unfold value_events. rewrite list_elem_of_In, in_map_iff.
    setoid_rewrite <- list_elem_of_In. split.
    + intros [(v & <- & Hv)|(i & op' & H & Hv & Hb & Hp & Ha)].
      * exists 0%nat, op. simpl. by rewrite Nat.add_0_r.
      * exists (S i), op'. by rewrite Nat.add_succ_r.
    + intros ([|i] & op' & H & Hv & Hb & Hp & Ha); simpl in H.
      * simplify_eq. left. exists (used_value n). split; [|done]. destruct n. simpl in *. subst.
        by rewrite Nat.add_0_r.
      * right. exists i, op'. by rewrite Nat.add_succ_r in Hp.
Qed.

(** What the entry of a value says of all its uses. *)
Lemma fold_note events v :
  match List.fold_left note events ∅ !! v with
  | None => ∀ n, n ∈ events → used_value n ≠ v
  | Some (Some (block, last)) =>
      (∀ n, n ∈ events → used_value n = v →
         event_block n = block ∧ event_position n ≤ last ∧ event_pinned n = false) ∧
      ∃ n, n ∈ events ∧ used_value n = v ∧ event_position n = last
  | Some None => True
  end.
Proof.
  induction events as [|n events IH] using rev_ind; [simpl; rewrite lookup_empty; by intros ? ?%not_elem_of_nil|].
  rewrite fold_left_app. simpl. unfold note at 1, note_use. set (m := List.fold_left note events ∅) in *.
  assert (∀ n', n' ∈ events ++ [n] ↔ n' ∈ events ∨ n' = n) as Happ
    by (intros n'; by rewrite elem_of_app, list_elem_of_singleton).
  destruct (decide (used_value n = v)) as [Hv|Hne].
  - rewrite Hv. destruct (m !! v) as [[[block last]|]|] eqn:E.
    + rewrite lookup_insert_eq. destruct IH as (Hall & n0 & Hn0 & Hv0 & Hp0).
      destruct (event_pinned n) eqn:Ep; simpl; [done|]. destruct (N.eqb_spec block (event_block n)) as [->|]; [|done].
      split.
      * intros n' [Hn| ->]%Happ Hv'; [|split_and!; [done|lia|done]].
        destruct (Hall n' Hn Hv') as (? & ? & ?). split_and!; [done|lia|done].
      * destruct (Nat.max_spec last (event_position n)) as [[? ->]|[? ->]].
        -- exists n. rewrite Happ. auto.
        -- exists n0. rewrite Happ. auto.
    + by rewrite E.
    + rewrite lookup_insert_eq. destruct (event_pinned n) eqn:Ep; [done|]. split.
      * intros n' [Hn| ->]%Happ Hv'; [by destruct (IH n' Hn)|by split_and!].
      * exists n. rewrite Happ. auto.
  - match goal with |- match ?l with _ => _ end => assert (l = m !! v) as -> end.
    { by destruct (m !! used_value n) as [[[]|]|]; rewrite ?lookup_insert_ne by done. }
    destruct (m !! v) as [[[block last]|]|]; [|done|].
    + destruct IH as (Hall & n0 & Hn0 & ?). split; [|exists n0; rewrite Happ; auto].
      intros n' [Hn| ->]%Happ Hv'; [by apply Hall|done].
    + intros n' [Hn| ->]%Happ; [by apply IH|done].
Qed.

Lemma use_site_spec f v block last :
  use_sites f !! v = Some (Some (block, last)) →
  (∀ b i, used_at f b i v → block_id b = block ∧ i ≤ last) ∧ (∃ b, used_at f b last v) ∧
  (∀ b op, b ∈ blocks f → op ∈ operations b → v ∈ runtime_uses op → makes_aggregate op = false) ∧
  (∀ b, b ∈ blocks f → v ∉ terminator_uses (terminator b)).
Proof.
  rewrite use_sites_events. intros H. pose proof (fold_note (List.flat_map block_events (blocks f)) v) as Hf.
  rewrite H in Hf. destruct Hf as (Hall & n & Hn & Hv & Hp).
  assert (∀ b i op, b ∈ blocks f → operations b !! i = Some op → v ∈ runtime_uses op →
    block_id b = block ∧ i ≤ last ∧ makes_aggregate op = false) as Hops.
  { intros b i op Hb Hop Hu.
    apply (Hall {| used_value := v; event_block := block_id b; event_position := i; event_pinned := makes_aggregate op |});
      [|done]. apply list_elem_of_In, in_flat_map. exists b. rewrite <- !list_elem_of_In. split; [done|].
    apply elem_of_app. left. apply operation_events_elem. by exists i, op. }
  assert (∀ b, b ∈ blocks f → v ∉ terminator_uses (terminator b)) as Hterm.
  { intros b Hb Hu.
    destruct (Hall {| used_value := v; event_block := block_id b; event_position := length (operations b); event_pinned := true |})
      as (_ & _ & ?); [|done|done]. apply list_elem_of_In, in_flat_map. exists b. rewrite <- !list_elem_of_In.
    split; [done|]. apply elem_of_app. right. apply list_elem_of_In, in_map_iff. exists v.
    by rewrite <- list_elem_of_In. }
  split_and!; [| | |done].
  - intros b i (Hb & op & Hop & Hu). by destruct (Hops b i op Hb Hop Hu) as (? & ? & _).
  - apply list_elem_of_In, in_flat_map in Hn as (b & Hb & Hn). apply list_elem_of_In in Hb. apply list_elem_of_In in Hn.
    exists b. split; [done|]. apply elem_of_app in Hn as [Hn|Hn].
    + apply operation_events_elem in Hn as (i & op & Hop & Hu & _ & Hi & _). exists op. by simplify_eq/=.
    + apply list_elem_of_In, in_map_iff in Hn as (u & <- & Hu%list_elem_of_In). simpl in Hv. subst u.
      by destruct (Hterm b Hb).
  - intros b op Hb [i Hop]%list_elem_of_lookup Hu. by destruct (Hops b i op Hb Hop Hu) as (_ & _ & ?).
Qed.

(** * The pool *)

Lemma expire_spec b active free still free' :
  expire b active free = (still, free') →
  ∃ gone, active = gone ++ still ∧ (∀ e, e ∈ gone → e.1.1 < b) ∧ ∀ s, s ∈ free' ↔ s ∈ free ∨ s ∈ gone.*2.
Proof.
  revert free. induction active as [|[[last v] slot] active IH]; intros free; simpl.
  - intros [= <- <-]. exists []. split_and!; [done|by intros ? ?%not_elem_of_nil|set_solver].
  - destruct (Nat.ltb_spec last b) as [Hlt|_].
    + intros (gone & -> & Hg & Hf)%IH. exists (((last, v), slot) :: gone). split_and!; [done| |].
      * by intros e [->|He]%elem_of_cons; [|apply Hg].
      * intros s. rewrite Hf. simpl. set_solver.
    + intros [= <- <-]. exists []. split_and!; [done|by intros ? ?%not_elem_of_nil|set_solver].
Qed.

Lemma activate_perm key slot active :
  key ∉ active.*1 → activate key slot active ≡ₚ (key, slot) :: active.
Proof.
  induction active as [|[k s] active IH]; simpl; [done|]. intros [Hk Hn]%not_elem_of_cons.
  destruct (key_before key k); [done|]. rewrite bool_decide_eq_false_2 by done.
  rewrite IH by done. apply Permutation_swap.
Qed.

Section pool.
Context (kind : nat) (base : gmap ValueId Slot).

Record packed (past : list Interval) (p : Pool) : Prop := {
  packed_slot i : i ∈ past → ∃ s, assigned p !! temporary i = Some (kind, s);
  packed_other v : (∀ i, i ∈ past → temporary i ≠ v) → assigned p !! v = base !! v;
  packed_free s : s ∈ free p → (s < pool_size p)%N;
  packed_active k s : (k, s) ∈ active p → (s < pool_size p)%N ∧ s ∉ free p;
  packed_distinct : NoDup (active p).*2;
  packed_key last v s : ((last, v), s) ∈ active p → ∃ i, i ∈ past ∧ until i = last ∧ temporary i = v;
  packed_cover i s : i ∈ past → assigned p !! temporary i = Some (kind, s) →
    ((until i, temporary i), s) ∈ active p ∨ ∃ x, x ∈ past ∧ until i < begin x;
  packed_apart i j s : i ∈ past → j ∈ past → temporary i ≠ temporary j →
    assigned p !! temporary i = Some (kind, s) → assigned p !! temporary j = Some (kind, s) →
    until i < begin j ∨ until j < begin i;
}.

Lemma packed_start size :
  packed [] {| pool_size := size; free := all_slots size; active := []; assigned := base |}.
Proof.
  split; simpl.
  - by intros i ?%not_elem_of_nil.
  - done.
  - intros s (n & -> & Hn%elem_of_seq)%elem_of_list_to_set%list_elem_of_fmap. lia.
  - by intros k s ?%not_elem_of_nil.
  - apply NoDup_nil_2.
  - by intros last v s ?%not_elem_of_nil.
  - by intros i s ?%not_elem_of_nil.
  - by intros i j s ?%not_elem_of_nil.
Qed.

(** The slot an interval takes, and what is left. *)
Lemma take_slot (still : Active) (free0 : gset N) size :
  (∀ s, s ∈ free0 → (s < size)%N) → (∀ k s, (k, s) ∈ still → (s < size)%N ∧ s ∉ free0) →
  ∃ slot free1 size1,
    match ordered free0 with
    | slot :: _ => (slot, free0 ∖ {[slot]}, size)
    | [] => (size, free0, (size + 1)%N)
    end = (slot, free1, size1) ∧
    slot ∉ still.*2 ∧ (slot < size1)%N ∧ slot ∉ free1 ∧ (size ≤ size1)%N ∧ free1 ⊆ free0.
Proof using.
  intros Hf Hs. assert (∀ s, s ∈ still.*2 → (s < size)%N ∧ s ∉ free0) as Hs'.
  { intros s ([k s'] & -> & Hin)%list_elem_of_fmap. by eapply Hs. }
  destruct (ordered free0) as [|slot rest] eqn:E.
  - exists size, free0, (size + 1)%N. split_and!; [done| |lia| |lia|done].
    + intros H%Hs'. lia.
    + intros H%Hf. lia.
  - assert (slot ∈ free0) as Hin by (rewrite <- ordered_elem, E; by left).
    exists slot, (free0 ∖ {[slot]}), size. split_and!; [done| |by apply Hf|set_solver|lia|set_solver].
    by intros [_ H]%Hs'.
Qed.

(** What an interval does to the pool. *)
Lemma assign_interval_parts past p x :
  packed past p → (∀ i, i ∈ past → temporary i ≠ temporary x) →
  ∃ still slot free1 size1 active1,
    assign_interval kind p x = {| pool_size := size1; free := free1; active := active1;
                                  assigned := <[temporary x := (kind, slot)]> (assigned p) |} ∧
    active1 ≡ₚ ((until x, temporary x), slot) :: still ∧ NoDup (slot :: still.*2) ∧
    (∀ k s, (k, s) ∈ active p → (k, s) ∈ still ∨ k.1 < begin x) ∧
    (∀ k s, (k, s) ∈ still → (k, s) ∈ active p ∧ s ∉ free1) ∧
    (slot < size1)%N ∧ slot ∉ free1 ∧ (pool_size p ≤ size1)%N ∧ (∀ s, s ∈ free1 → (s < size1)%N).
Proof using.
  intros [_ _ Hfree Hactive Hdist Hkey _ _] Hx. unfold assign_interval.
  destruct (expire (begin x) (active p) (free p)) as [still free0] eqn:Ee.
  apply expire_spec in Ee as (gone & Hg & Hlast & Hf0).
  rewrite Hg, fmap_app in Hdist. apply list.NoDup_app in Hdist as (_ & Hdis & Hdist).
  assert (∀ k s, (k, s) ∈ still → (s < pool_size p)%N ∧ s ∉ free0) as Hstill.
  { intros k s Hin. destruct (Hactive k s) as [Hlt Hnf]; [rewrite Hg; apply elem_of_app; by right|].
    split; [done|]. rewrite Hf0. intros [?|Hgo]; [done|]. apply (Hdis s Hgo).
    apply list_elem_of_fmap. by exists (k, s). }
  assert (∀ s, s ∈ free0 → (s < pool_size p)%N) as Hf0'.
  { intros s [?|([k s'] & -> & Hin)%list_elem_of_fmap]%Hf0; [by apply Hfree|].
    simpl. eapply (Hactive k). rewrite Hg. apply elem_of_app. by left. }
  destruct (take_slot still free0 (pool_size p) Hf0' Hstill)
    as (slot & free1 & size1 & -> & Hns & Hlt & Hnf & Hle & Hsub).
  exists still, slot, free1, size1, (activate (until x, temporary x) slot still). split_and!; [done|..|done|done|done|].
  - apply activate_perm. intros ([[last v] s] & Heq & Hin)%list_elem_of_fmap. simpl in Heq. injection Heq as <- <-.
    destruct (Hkey (until x) (temporary x) s) as (i & Hi & _ & Ht); [rewrite Hg; apply elem_of_app; by right|].
    by destruct (Hx i Hi).
  - by apply list.NoDup_cons.
  - intros k s Hin. rewrite Hg in Hin. apply elem_of_app in Hin as [Hin|Hin]; [|by left].
    right. by apply Hlast in Hin.
  - intros k s Hin. rewrite Hg, elem_of_app. destruct (Hstill k s Hin). split; [by right|set_solver].
  - intros s Hs%Hsub%Hf0'. lia.
Qed.

Lemma packed_step past p x :
  packed past p → (∀ i, i ∈ past → begin i < begin x ∧ temporary i ≠ temporary x) →
  packed (past ++ [x]) (assign_interval kind p x).
Proof using.
  intros Hp Hx.
  destruct (assign_interval_parts past p x Hp) as (still & slot & free1 & size1 & active1 & -> & Hperm & Hdist &
    Hold & Hstill & Hlt & Hnf & Hle & Hfree1); [intros i Hi; by apply Hx|].
  destruct Hp as [Hslot Hother Hfree Hactive _ Hkey Hcover Hapart].
  assert (∀ i, i ∈ past ++ [x] ↔ i ∈ past ∨ i = x) as Hpast
    by (intros i; by rewrite elem_of_app, list_elem_of_singleton).
  assert (∀ e, e ∈ active1 ↔ e = ((until x, temporary x), slot) ∨ e ∈ still) as Hact
    by (intros e; by rewrite Hperm, elem_of_cons).
  assert (∀ i, i ∈ past → <[temporary x := (kind, slot)]> (assigned p) !! temporary i = assigned p !! temporary i) as Hkeep.
  { intros i Hi. apply lookup_insert_ne. destruct (Hx i Hi). congruence. }
  (* an earlier interval of the slot is over *)
  assert (∀ i, i ∈ past → assigned p !! temporary i = Some (kind, slot) → until i < begin x) as Hover.
  { intros i Hi Hs. destruct (Hcover i slot Hi Hs) as [Hin|(y & Hy & Hiy)]; [|destruct (Hx y Hy); lia].
    apply Hold in Hin as [Hin|?]; [|done]. apply list.NoDup_cons in Hdist as [Hns _].
    destruct Hns. apply list_elem_of_fmap. by exists ((until i, temporary i), slot). }
  split; cbn [pool_size free active assigned].
  - intros i [Hi| ->]%Hpast; [rewrite Hkeep by done; by apply Hslot|].
    exists slot. by rewrite lookup_insert_eq.
  - intros v Hv. rewrite lookup_insert_ne by (apply Hv, Hpast; by right).
    apply Hother. intros i Hi. apply Hv, Hpast. by left.
  - done.
  - intros k s [[= _ ->]|Hin]%Hact; [done|]. destruct (Hstill k s Hin) as [Ha Hn]. apply Hactive in Ha. split; [lia|done].
  - by rewrite Hperm.
  - intros last v s [[= -> -> ->]|Hin]%Hact; [exists x; rewrite Hpast; auto|].
    apply Hstill in Hin as [Hin _]. destruct (Hkey last v s Hin) as (i & Hi & ?). exists i. rewrite Hpast. auto.
  - intros i s [Hi| ->]%Hpast Hs.
    + rewrite Hkeep in Hs by done. destruct (Hcover i s Hi Hs) as [Hin|(y & Hy & Hiy)].
      * apply Hold in Hin as [Hin|?]; [left; apply Hact; by right|]. right. exists x. rewrite Hpast. auto.
      * right. exists y. rewrite Hpast. auto.
    + rewrite lookup_insert_eq in Hs. injection Hs as ->. left. apply Hact. by left.
  - intros i j s [Hi| ->]%Hpast [Hj| ->]%Hpast Hne His Hjs; [..|done].
    + rewrite Hkeep in His, Hjs by done. by eapply Hapart.
    + rewrite lookup_insert_eq in Hjs. rewrite Hkeep in His by done. left. apply Hover; [done|congruence].
    + rewrite lookup_insert_eq in His. rewrite Hkeep in Hjs by done. right. apply Hover; [done|congruence].
Qed.

Lemma packed_fold ivs past p :
  packed past p → StronglySorted (λ i j, begin i < begin j) (past ++ ivs) →
  NoDup (List.map temporary (past ++ ivs)) →
  packed (past ++ ivs) (List.fold_left (assign_interval kind) ivs p).
Proof using.
  revert past p. induction ivs as [|x ivs IH]; intros past p Hp Hs Hn; [by rewrite app_nil_r|]. simpl.
  rewrite cons_middle, app_assoc in Hs, Hn |- *. apply IH; [|done|done]. apply packed_step; [done|].
  intros i Hi. apply StronglySorted_app in Hs as (_ & Hs & _). apply StronglySorted_app in Hs as (Hs & _ & _).
  split; [apply Hs; [done|by left]|]. rewrite map_app in Hn. apply list.NoDup_app in Hn as (Hn & _ & _).
  rewrite map_app in Hn. apply list.NoDup_app in Hn as (_ & Hn & _). intros He.
  apply (Hn (temporary i)); [by apply list_elem_of_In, in_map, list_elem_of_In|]. rewrite He. by left.
Qed.
End pool.

(** * The intervals of a function *)

Section allocation.
Context (f : Function).
Hypothesis checked : check_value_definitions f = Ok tt.
Hypothesis ids : NoDup (List.map block_id (blocks f)).

(** An operation's interval in the pool of a kind. *)
Definition has_interval (b : BasicBlock) (kind : nat) (x : Interval) : Prop :=
  ∃ op type, operations b !! begin x = Some op ∧ scalar_destination op = Some (temporary x) ∧
    value_types f !! temporary x = Some type ∧ scalar_kind type = Some kind ∧
    use_sites f !! temporary x = Some (Some (block_id b, until x)) ∧ begin x ≤ until x.

Lemma interval_Some uses block kind position op x :
  interval f uses block kind position op = Some x ↔
  position = begin x ∧ scalar_destination op = Some (temporary x) ∧
  (∃ type, value_types f !! temporary x = Some type ∧ scalar_kind type = Some kind) ∧
  uses !! temporary x = Some (Some (block, until x)) ∧ begin x ≤ until x.
Proof using.
  clear checked ids. unfold interval. split.
  - destruct (scalar_destination op) as [v|]; simpl; [|done].
    destruct (value_types f !! v) as [type|] eqn:Et; simpl; [|done].
    destruct (scalar_kind type) as [k|] eqn:Ek; simpl; [|done].
    destruct (uses !! v) as [[[use_block last]|]|] eqn:Eu; simpl; [|done..].
    destruct (_ && _) eqn:E; [|done]. intros [= <-]. simpl.
    apply andb_true_iff in E as [[->%Nat.eqb_eq ->%N.eqb_eq]%andb_true_iff Hle%Nat.leb_le].
    split_and!; [done..|by exists type|done|done].
  - intros (-> & -> & (type & Et & Ek) & Eu & Hle). simpl. rewrite Et. simpl. rewrite Ek. simpl. rewrite Eu. simpl.
    rewrite Nat.eqb_refl, N.eqb_refl, (proj2 (Nat.leb_le _ _) Hle). by destruct x.
Qed.

Lemma intervals_elem uses block kind position ops x :
  x ∈ intervals_from f uses block kind position ops ↔
  ∃ i op, ops !! i = Some op ∧ interval f uses block kind (position + i) op = Some x.
Proof using.
  clear checked ids. revert position. induction ops as [|op ops IH]; intros position; simpl.
  - split; [by intros ?%not_elem_of_nil|]. by intros (i & ? & ? & _).
  - rewrite elem_of_app, IH. split.
    + intros [H|(i & op' & H & Hi)].
      * exists 0%nat, op. rewrite Nat.add_0_r. destruct (interval _ _ _ _ _ _); [|by apply not_elem_of_nil in H].
        by apply list_elem_of_singleton in H as ->.
      * exists (S i), op'. by rewrite Nat.add_succ_r.
    + intros ([|i] & op' & H & Hi); simpl in H.
      * simplify_eq. left. rewrite Nat.add_0_r in Hi. rewrite Hi. by apply list_elem_of_singleton.
      * right. exists i, op'. by rewrite Nat.add_succ_r in Hi.
Qed.

Abbreviation intervals b kind := (intervals_from f (use_sites f) (block_id b) kind 0 (operations b)).

Lemma intervals_spec b kind x : x ∈ intervals b kind ↔ has_interval b kind x.
Proof using.
  clear checked ids. rewrite intervals_elem. unfold has_interval. setoid_rewrite interval_Some. simpl. naive_solver.
Qed.

Lemma intervals_sorted uses block kind position ops :
  StronglySorted (λ i j, begin i < begin j) (intervals_from f uses block kind position ops).
Proof using.
  clear checked ids. revert position. induction ops as [|op ops IH]; intros position; simpl; [constructor|].
  apply StronglySorted_app_2; [| |apply IH].
  - intros i j Hi (k & op' & _ & (Hj & _)%interval_Some)%intervals_elem.
    destruct (interval f uses block kind position op) as [x|] eqn:E; [|by apply not_elem_of_nil in Hi].
    apply list_elem_of_singleton in Hi as ->. apply interval_Some in E as (E & _). lia.
  - destruct (interval _ _ _ _ _ _); repeat constructor.
Qed.

(** A value is the temporary of one interval. *)
Lemma interval_defined b kind x : b ∈ blocks f → has_interval b kind x → defined_at f b (begin x) (temporary x).
Proof using.
  clear checked ids. intros Hb (op & _ & Hop & Hd & _). split; [done|]. exists op. split; [done|].
  rewrite (scalar_destinations _ _ Hd). by left.
Qed.

Lemma defined_once b b' i i' v : defined_at f b i v → defined_at f b' i' v → b = b' ∧ i = i'.
Proof using checked ids.
  intros (Hb & op & Hop & Hv) (Hb' & op' & Hop' & Hv').
  by destruct (site_unique f b b' v _ _ checked Hb Hb' (site_operation b v i op Hop Hv)
    (site_operation b' v i' op' Hop' Hv')) as [-> [= ->]].
Qed.

Lemma interval_unique b b' kind kind' x x' :
  b ∈ blocks f → b' ∈ blocks f → has_interval b kind x → has_interval b' kind' x' →
  temporary x = temporary x' → b = b' ∧ kind = kind' ∧ x = x'.
Proof using checked ids.
  intros Hb Hb' Hx Hx' He. pose proof (interval_defined _ _ _ Hb Hx) as Hd.
  pose proof (interval_defined _ _ _ Hb' Hx') as Hd'. rewrite He in Hd.
  destruct (defined_once _ _ _ _ _ Hd Hd') as [-> Hbeg].
  destruct Hx as (op & type & _ & _ & Ht & Hk & Hu & _), Hx' as (op' & type' & _ & _ & Ht' & Hk' & Hu' & _).
  rewrite He in Ht, Hu. destruct x, x'. simpl in *. by simplify_eq.
Qed.

Lemma intervals_temporaries b kind : b ∈ blocks f → NoDup (List.map temporary (intervals b kind)).
Proof using checked ids.
  intros Hb. change (NoDup (temporary <$> intervals b kind)). apply NoDup_fmap_2_strong.
  - intros x y Hx%intervals_spec Hy%intervals_spec He. by destruct (interval_unique b b kind kind x y) as (_ & _ & ?).
  - pose proof (intervals_sorted (use_sites f) (block_id b) kind 0 (operations b)) as Hs.
    induction Hs as [|x l Hs IH Hf]; [apply NoDup_nil_2|]. apply list.NoDup_cons. split; [|done].
    intros Hin. rewrite Forall_forall in Hf. apply list_elem_of_In in Hin. specialize (Hf x Hin). lia.
Qed.

(** ** One pass: a block and a kind *)

Lemma assign_kind_spec st b kind :
  b ∈ blocks f →
  let result := snd (assign_kind f (use_sites f) b st kind) in
  (∀ v, (∀ x, has_interval b kind x → temporary x ≠ v) → result !! v = snd st !! v) ∧
  (∀ x, has_interval b kind x → ∃ s, result !! temporary x = Some (kind, s)) ∧
  (∀ x y s, has_interval b kind x → has_interval b kind y → temporary x ≠ temporary y →
     result !! temporary x = Some (kind, s) → result !! temporary y = Some (kind, s) →
     until x < begin y ∨ until y < begin x).
Proof using checked ids.
  intros Hb. unfold assign_kind. simpl. set (size := default 0%N (fst st !! kind)).
  pose proof (packed_fold kind (snd st) (intervals b kind) [] _ (packed_start kind (snd st) size)
    (intervals_sorted _ _ _ _ _) (intervals_temporaries b kind Hb)) as [Hslot Hother _ _ _ _ _ Hapart].
  simpl in *. split_and!.
  - intros v Hv. apply Hother. intros x Hx%intervals_spec. by apply Hv.
  - intros x Hx%intervals_spec. by apply Hslot.
  - intros x y s Hx%intervals_spec Hy%intervals_spec. by apply Hapart.
Qed.

Definition passes : list (BasicBlock * nat) :=
  List.flat_map (λ b, [(b, 0); (b, 1); (b, 2)]%nat) (blocks f).

Lemma slots_passes :
  slots f = snd (List.fold_left (λ st p, assign_kind f (use_sites f) p.1 st p.2) passes ([0; 0; 0]%N, ∅)).
Proof using.
  clear checked ids. unfold slots, passes. generalize ([0; 0; 0]%N, ∅ : gmap ValueId Slot).
  induction (blocks f) as [|b bs IH]; intros st; [done|]. simpl. by rewrite IH.
Qed.

Lemma passes_elem b kind : (b, kind) ∈ passes ↔ b ∈ blocks f ∧ (kind = 0 ∨ kind = 1 ∨ kind = 2)%nat.
Proof using.
  clear checked ids. unfold passes. rewrite list_elem_of_In, in_flat_map. setoid_rewrite <- list_elem_of_In.
  setoid_rewrite elem_of_cons. setoid_rewrite elem_of_cons. setoid_rewrite list_elem_of_singleton. naive_solver.
Qed.

Record allocated (past : list (BasicBlock * nat)) (result : gmap ValueId Slot) : Prop := {
  allocated_from v : is_Some (result !! v) → ∃ b kind x, (b, kind) ∈ past ∧ has_interval b kind x ∧ temporary x = v;
  allocated_slot b kind x : (b, kind) ∈ past → has_interval b kind x → ∃ s, result !! temporary x = Some (kind, s);
  allocated_apart b kind x y s : (b, kind) ∈ past → has_interval b kind x → has_interval b kind y →
    temporary x ≠ temporary y →
    result !! temporary x = Some (kind, s) → result !! temporary y = Some (kind, s) →
    until x < begin y ∨ until y < begin x;
}.

Lemma allocated_passes ps st :
  (∀ b kind, (b, kind) ∈ ps → b ∈ blocks f) → st.2 = ∅ →
  allocated ps (snd (List.fold_left (λ st p, assign_kind f (use_sites f) p.1 st p.2) ps st)).
Proof using checked ids.
  intros Hps H0. induction ps as [|[b kind] ps IH] using rev_ind.
  { simpl. rewrite H0. split.
    - intros v [x Hx]. by rewrite lookup_empty in Hx.
    - by intros b kind x ?%not_elem_of_nil.
    - by intros b kind x y s ?%not_elem_of_nil. }
  rewrite fold_left_app. cbn [fold_left fst snd]. set (st1 := List.fold_left _ ps st) in *.
  assert (∀ b' k', (b', k') ∈ ps ++ [(b, kind)] ↔ (b', k') ∈ ps ∨ b' = b ∧ k' = kind) as Happ
    by (intros b' k'; rewrite elem_of_app, list_elem_of_singleton; naive_solver).
  assert (b ∈ blocks f) as Hb by (apply (Hps b kind), Happ; by right).
  destruct IH as [Hfrom Hslot Hapart]; [intros b' k' Hin; apply (Hps b' k'), Happ; by left|].
  destruct (assign_kind_spec st1 b kind Hb) as (Hother & Hnew & Hnewapart). cbv zeta in *.
  set (result := snd (assign_kind f (use_sites f) b st1 kind)) in *.
  (* an interval of another pass keeps its slot *)
  assert (∀ b' k' x, (b', k') ∈ ps → has_interval b' k' x → (b' = b ∧ k' = kind) ∨
    result !! temporary x = snd st1 !! temporary x) as Hkeep.
  { intros b' k' x Hin Hx. destruct (decide (k' = kind ∧ block_id b' = block_id b)) as [[-> Hid]|Hne].
    - left. split; [|done]. eapply same_block; [|apply (Hps b' kind), Happ; by left|done|done].
      exact ids.
    - right. apply Hother. intros y Hy He. apply Hne.
      destruct (interval_unique b b' kind k' y x) as (-> & -> & _); [done|apply (Hps b' k'), Happ; by left|done..]. }
  split.
  - intros v [s Hs]. destruct (decide (Exists (λ x, temporary x = v) (intervals b kind)))
      as [(x & Hx & Hv)%list.Exists_exists|Hno].
    + exists b, kind, x. rewrite Happ. split_and!; [by right|by apply intervals_spec|done].
    + rewrite Hother in Hs.
      * destruct (Hfrom v) as (b' & k' & x & Hin & Hx & Hv); [by eexists|]. exists b', k', x. rewrite Happ. auto.
      * intros x Hx Hv. apply Hno, list.Exists_exists. exists x. by rewrite intervals_spec.
  - intros b' k' x [Hin|[-> ->]]%Happ Hx; [|by apply Hnew].
    destruct (Hkeep b' k' x Hin Hx) as [[-> ->]|Ex]; [by apply Hnew|].
    destruct (Hslot b' k' x Hin Hx) as [s Hs]. exists s. by rewrite Ex.
  - intros b' k' x y s [Hin|[-> ->]]%Happ Hx Hy Hne Hxs Hys; [|by eapply Hnewapart].
    destruct (Hkeep b' k' x Hin Hx) as [[-> ->]|Ex]; [by eapply Hnewapart|].
    destruct (Hkeep b' k' y Hin Hy) as [[-> ->]|Ey]; [by eapply Hnewapart|].
    rewrite Ex in Hxs. rewrite Ey in Hys. by eapply Hapart.
Qed.

Lemma slots_allocated : allocated passes (slots f).
Proof using checked ids. rewrite slots_passes. apply allocated_passes; [|done]. by intros b kind [? _]%passes_elem. Qed.

(** A value with a slot has an interval, in the block that defines it. *)
Lemma slot_interval v kind s :
  slots f !! v = Some (kind, s) →
  ∃ b x, b ∈ blocks f ∧ has_interval b kind x ∧ temporary x = v ∧ defined_at f b (begin x) v.
Proof using checked ids.
  intros Hs. destruct slots_allocated as [Hfrom Hslot _].
  destruct (Hfrom v) as (b & k & x & Hin & Hx & <-); [by eexists|].
  destruct (Hslot b k x Hin Hx) as [s' Hs']. simplify_eq. apply passes_elem in Hin as [Hb _].
  exists b, x. split_and!; [done..|]. by eapply interval_defined.
Qed.

(** A block uses a value that it defines after the definition, counting all
    that the encoder reads. *)
Definition uses_in_order : bool :=
  forallb (λ b, forallb (λ '(i, op), forallb (λ v, forallb (λ '(j, def),
    negb (bool_decide (v ∈ operation_destinations def)) || (j <? i)%nat) (imap pair (operations b)))
    (runtime_uses op)) (imap pair (operations b))) (blocks f).

Lemma imap_pair_elem {A} (l : list A) i x : In (i, x) (imap pair l) ↔ l !! i = Some x.
Proof using.
  rewrite <- list_elem_of_In, elem_of_lookup_imap. naive_solver.
Qed.

Lemma use_follows b i j v :
  uses_in_order = true → defined_at f b i v → used_at f b j v → i < j.
Proof using.
  clear checked ids. intros H (Hb & def & Hdef & Hv) (_ & op & Hop & Hu). unfold uses_in_order in H.
  rewrite forallb_forall in H. apply list_elem_of_In in Hb. specialize (H b Hb). rewrite forallb_forall in H.
  specialize (H (j, op) (proj2 (imap_pair_elem _ _ _) Hop)). cbn beta iota in H. rewrite forallb_forall in H.
  apply list_elem_of_In in Hu. specialize (H v Hu). rewrite forallb_forall in H.
  specialize (H (i, def) (proj2 (imap_pair_elem _ _ _) Hdef)). cbn beta iota in H.
  rewrite bool_decide_eq_true_2 in H by done. simpl in H. by apply Nat.ltb_lt.
Qed.

Lemma slots_shareable : uses_in_order = true → shareable f (slots f).
Proof using checked ids.
  intros Hext.
  assert (∀ v, is_Some (slots f !! v) → ∃ b kind s x, b ∈ blocks f ∧ has_interval b kind x ∧ temporary x = v ∧
    defined_at f b (begin x) v ∧ slots f !! v = Some (kind, s)) as Hint.
  { intros v [[kind s] Hs]. destruct (slot_interval v kind s Hs) as (b & x & ? & ? & ? & ?).
    by exists b, kind, s, x. }
  assert (∀ v, is_Some (slots f !! v) → ∃ block last, use_sites f !! v = Some (Some (block, last))) as Huse.
  { intros v (b & kind & s & x & _ & (op & type & _ & _ & _ & _ & Hu & _) & <- & _)%Hint. by eexists _, _. }
  split.
  - intros v k s (b & x & _ & (op & type & _ & _ & Ht & Hk & _) & <- & _)%slot_interval. rewrite Ht.
    by destruct type.
  - exact ids.
  - intros b v Hb Hp. apply eq_None_not_Some. intros (b' & _ & _ & x & _ & _ & _ & (Hb' & op & Hop & Hd) & _)%Hint.
    by destruct (site_unique f b b' v _ _ checked Hb Hb' (site_parameter b v Hp)
      (site_operation b' v _ op Hop Hd)) as [_ [=]].
  - intros b op v Hb [i Hop]%list_elem_of_lookup Hd (b' & _ & _ & x & _ & (op' & _ & Hop' & Hd' & _) & <- & Hdef & _)%Hint.
    destruct (defined_once b b' i (begin x) (temporary x)) as [<- ->]; [|done|by simplify_eq].
    split; [done|by exists op].
  - intros b b' i i' v Hd Hd' _. by destruct (defined_once b b' i i' v Hd Hd') as [<- <-].
  - intros v (b & _ & _ & x & _ & _ & _ & Hd & _)%Hint. by eexists _, _.
  - intros b b' i j v Hd Hu (b0 & kind & s & x & Hb0 & (op & type & _ & _ & _ & _ & Hus & _) & <- & Hdef & _)%Hint.
    apply use_site_spec in Hus as (Hall & _). destruct (Hall b' j Hu) as [Hid _].
    destruct (defined_once b b0 _ _ _ Hd Hdef) as [<- _].
    assert (b' = b) as ->.
    { eapply same_block; [|apply Hu|done|done]. exact ids. }
    split; [done|]. by eapply use_follows.
  - intros v (block & last & Hu)%Huse. apply use_site_spec in Hu as (_ & (b & Hb) & _). by exists b, last.
  - intros b op v Hb Hop Ha Hv. apply eq_None_not_Some. intros (block & last & Hu)%Huse.
    apply use_site_spec in Hu as (_ & _ & H & _). by rewrite (H b op Hb Hop Hv) in Ha.
  - intros b v Hb Hv. apply eq_None_not_Some. intros (block & last & Hu)%Huse.
    apply use_site_spec in Hu as (_ & _ & _ & H). by apply (H b Hb).
  - intros u v [kind s] b i j Hne Hus Hvs Hud Hvd.
    destruct (slot_interval u kind s Hus) as (bu & x & Hbu & Hx & <- & Hxd).
    destruct (slot_interval v kind s Hvs) as (bv & y & Hbv & Hy & <- & Hyd).
    destruct (defined_once _ _ _ _ _ Hud Hxd) as [<- ->]. destruct (defined_once _ _ _ _ _ Hvd Hyd) as [<- ->].
    assert ((b, kind) ∈ passes) as Hin.
    { apply passes_elem. split; [done|]. destruct Hx as (_ & type & _ & _ & _ & Hk & _).
      destruct type; simpl in Hk; simplify_eq; auto. }
    destruct (allocated_apart _ _ slots_allocated b kind x y s Hin Hx Hy Hne Hus Hvs) as [H|H].
    + left. intros k Hk. destruct Hx as (_ & _ & _ & _ & _ & _ & Hu & _).
      apply use_site_spec in Hu as (Hall & _). destruct (Hall b k Hk). lia.
    + right. intros k Hk. destruct Hy as (_ & _ & _ & _ & _ & _ & Hu & _).
      apply use_site_spec in Hu as (Hall & _). destruct (Hall b k Hk). lia.
Qed.
End allocation.

(** * A checked function gets its layout *)

Lemma value_locals_total arity slots values l : ∃ l', value_locals arity slots values l = Ok l'.
Proof.
  revert l. induction values as [|[v type] values IH]; intros l; [by eexists|]. simpl.
  case_bool_decide; [apply IH|].
  destruct type; try apply IH; simpl; destruct (slots !! v) as [slot|]; try destruct (shared l !! slot); apply IH.
Qed.

Lemma parameter_indices_total f position ps m :
  (∀ p, p ∈ ps → value_types f !! parameter p = Some (parameter_type p) ∧ m !! parameter p = None) →
  NoDup (List.map parameter ps) → ∃ m', parameter_indices f position ps (List.map parameter_type ps) m = Ok m'.
Proof.
  revert position m. induction ps as [|p ps IH]; intros position m Hps Hn; [by eexists|].
  cbn [List.map parameter_indices] in *. apply list.NoDup_cons in Hn as [Hp Hn].
  destruct (Hps p) as [Ht Hm]; [by left|]. rewrite fail_if_false.
  - apply IH; [|done]. intros q Hq. destruct (Hps q) as [Hqt Hqm]; [by right|]. split; [done|].
    rewrite lookup_insert_ne; [done|]. intros He. apply Hp. rewrite He.
    by apply list_elem_of_In, in_map, list_elem_of_In.
  - rewrite Ht, Hm, !bool_decide_eq_true_2 by done. by rewrite bool_decide_eq_false_2 by (by intros []).
Qed.

(** * Property *)

(** C11: Let a function have distinct block identifiers and one definition per
    value, and let no block read a value (the count and the capacity of an
    allocation included) at or before its own definition of it.  Then the
    allocation of shared locals passes its check, and when the parameters of
    the entry block have the types recorded for their values the function
    gets a layout for the signature of these types. *)
Theorem allocation_accepted f index :
  index_blocks f = Ok index → check_value_definitions f = Ok tt → uses_in_order f = true →
  verify f (slots f) = Done (Ok tt) ∧
  ∀ b, b ∈ blocks f → block_id b = entry f →
    (∀ p, p ∈ parameters b → value_types f !! parameter p = Some (parameter_type p)) →
    ∃ l, local_layout f (List.map parameter_type (parameters b)) = Done (Ok l).
Proof.
  intros Hi Hd He. destruct (index_from_NoDup _ _ _ _ Hi) as [Hids _].
  pose proof (slots_shareable f Hd Hids He) as Hs.
  assert (verify f (slots f) = Done (Ok tt)) as Hv.
  { destruct (verify_shareable f (slots f)) as ([[]|] & Hr & H); [done|]. by apply H in Hs. }
  split; [done|]. intros b Hb Hentry Hp. unfold local_layout.
  destruct (List.find _ (blocks f)) as [b'|] eqn:Ef.
  2:{ pose proof (find_none _ _ Ef b (proj1 (list_elem_of_In _ _) Hb)) as H. simpl in H.
      by rewrite Hentry, N.eqb_refl in H. }
  apply find_some in Ef as [Hb'%list_elem_of_In Hid%N.eqb_eq].
  assert (b' = b) as -> by (eapply same_block; [exact Hids|done|done|congruence]).
  rewrite length_map, Nat.eqb_refl. simpl.
  destruct (parameter_indices_total f 0 (parameters b) ∅) as [m ->].
  { intros p Hin. by split; [apply Hp|]. }
  { pose proof (check_value_definitions_NoDup _ Hd) as Hn.
    apply (flat_map_NoDup_part _ _ _ Hn), list.NoDup_app in Hb as [? _]. done. }
  rewrite Hv. cbn [mbind outcome_bind].
  destruct (value_locals_total (length (parameters b)) (slots f) (by_value (value_types f))
    {| local_indices := m; extra_types := []; shared := ∅ |}) as [l ->]. by exists l.
Qed.

Lemma allocation_accepted_witness :
  index_blocks guarded_loop = Ok loop_index ∧ check_value_definitions guarded_loop = Ok tt ∧
  uses_in_order guarded_loop = true ∧
  verify guarded_loop (slots guarded_loop) = Done (Ok tt) ∧ slots guarded_loop !! 4%N = slots guarded_loop !! 5%N.
Proof.
  assert (index_blocks guarded_loop = Ok loop_index) as H1 by by vm_compute.
  assert (check_value_definitions guarded_loop = Ok tt) as H2 by by vm_compute.
  assert (uses_in_order guarded_loop = true) as H3 by by vm_compute.
  split; [exact H1|]. split; [exact H2|]. split; [exact H3|].
  split; [exact (proj1 (allocation_accepted guarded_loop loop_index H1 H2 H3))|by vm_compute].
Defined.
