(* ===== verification/ForwardCfg.v ===== *)
(** * ForwardCfg: scheduling a control-flow graph for structured code

    Models [crates/witchy-wir/src/canonical_wasmir/forward_cfg.rs]: the
    topological schedule of an acyclic graph and its regions inside a loop,
    the blocks that only lead to a trap, and the depth of a branch among the
    labels of scheduled blocks.  A graph is the map from blocks to their
    successors.  The loops run on fuel, [Panic] when it runs out; the bounds
    chosen are proved enough, so that every function here returns. *)

From S2P Require Import Prelude SafeWir Dominance.

(** * Definitions *)

Abbreviation Graph := (gmap BlockId (list BlockId)).

(** The entries of a [BTreeMap], in the order of its keys. *)
Definition entries (edges : Graph) : list (BlockId * list BlockId) :=
  omap (λ b, (λ s, (b, s)) <$> edges !! b) (ordered (dom edges)).

Definition edge_count (edges : Graph) : nat :=
  sum_list_with (λ e, length (snd e)) (entries edges).

(** ** [schedule] *)

(** [while let Some(block) = pending.pop()]; the top of the stack first. *)
Fixpoint reach (n : nat) (edges : Graph) (pending : list BlockId) (reachable : gset BlockId)
    : outcome (result unit (gset BlockId)) :=
  match n with
  | O => Panic
  | S n =>
      match pending with
      | [] => Done (Ok reachable)
      | block :: pending =>
          match edges !! block with
          | None => Done (Err tt)
          | Some successors =>
              if bool_decide (block ∈ reachable) then reach n edges pending reachable
              else reach n edges (List.rev successors ++ pending) ({[block]} ∪ reachable)
          end
      end
  end.

(** [for target in successors { *incoming.get_mut(target).ok_or(())? += 1 }] *)
Fixpoint count_targets (targets : list BlockId) (incoming : gmap BlockId nat)
    : result unit (gmap BlockId nat) :=
  match targets with
  | [] => Ok incoming
  | target :: targets =>
      count ← ok_or (incoming !! target) tt;
      count_targets targets (<[target := S count]> incoming)
  end.

Fixpoint count_incoming (rows : list (BlockId * list BlockId)) (incoming : gmap BlockId nat)
    : result unit (gmap BlockId nat) :=
  match rows with
  | [] => Ok incoming
  | (_, successors) :: rows => incoming ← count_targets successors incoming; count_incoming rows incoming
  end.

(** One pass over the targets of a block that is put in the order; [Panic]
    when a count would fall below zero. *)
Fixpoint settle (targets : list BlockId) (incoming : gmap BlockId nat) (ready : gset BlockId)
    : outcome (result unit (gmap BlockId nat * gset BlockId)) :=
  match targets with
  | [] => Done (Ok (incoming, ready))
  | target :: targets =>
      match incoming !! target with
      | None => Done (Err tt)
      | Some O => Panic
      | Some (S count) =>
          settle targets (<[target := count]> incoming)
            (if (count =? 0)%nat then {[target]} ∪ ready else ready)
      end
  end.

(** [while let Some(block) = ready.pop_first()] *)
Fixpoint order_loop (n : nat) (edges : Graph) (incoming : gmap BlockId nat) (ready : gset BlockId)
    (order : list BlockId) : outcome (result unit (list BlockId)) :=
  match n with
  | O => Panic
  | S n =>
      match ordered ready with
      | [] => Done (Ok order)
      | block :: _ =>
          match edges !! block with
          | None => Panic
          | Some targets =>
              r ← settle targets incoming (ready ∖ {[block]});
              match r with
              | Ok (incoming, ready) => order_loop n edges incoming ready (order ++ [block])
              | Err e => Done (Err e)
              end
          end
      end
  end.

Definition no_incoming (edges : Graph) : gmap BlockId nat := (λ _, 0%nat) <$> edges.

Definition ready_blocks (incoming : gmap BlockId nat) : gset BlockId :=
  dom (filter (λ e, snd e = 0%nat) incoming).

Definition schedule (entry : BlockId) (edges : Graph) : outcome (result unit (option (list BlockId))) :=
  r ← reach (2 + edge_count edges) edges [entry] ∅;
  match r with
  | Err e => Done (Err e)
  | Ok reachable =>
      if negb (size reachable =? size edges)%nat then Done (Err tt)
      else
        match count_incoming (entries edges) (no_incoming edges) with
        | Err e => Done (Err e)
        | Ok incoming =>
            r ← order_loop (S (size edges)) edges incoming (ready_blocks incoming) [];
            match r with
            | Err e => Done (Err e)
            | Ok order =>
                if negb (length order =? size edges)%nat then Done (Ok None)
                else if negb (bool_decide (head order = Some entry)) then Done (Err tt)
                else Done (Ok (Some order))
            end
        end
  end.

(** ** [doomed] *)

Definition push_predecessor (block target : BlockId) (predecessors : Graph) : Graph :=
  <[target := default [] (predecessors !! target) ++ [block]]> predecessors.

Definition predecessor_lists (edges : Graph) : Graph :=
  List.fold_left (λ m e, List.fold_left (λ m t, push_predecessor (fst e) t m) (snd e) m)
    (entries edges) ∅.

(** The inner loop over the predecessors of a doomed block; [Panic] when a
    count would fall below zero. *)
Fixpoint close_predecessors (predecessors : list BlockId) (open : gmap BlockId nat)
    (doomed : gset BlockId) (pending : list BlockId)
    : outcome (gmap BlockId nat * gset BlockId * list BlockId) :=
  match predecessors with
  | [] => Done (open, doomed, pending)
  | p :: predecessors =>
      match open !! p with
      | None => close_predecessors predecessors open doomed pending
      | Some O => Panic
      | Some (S count) =>
          let open := <[p := count]> open in
          if (count =? 0)%nat && negb (bool_decide (p ∈ doomed))
          then close_predecessors predecessors open ({[p]} ∪ doomed) (p :: pending)
          else close_predecessors predecessors open doomed pending
      end
  end.

Fixpoint doomed_loop (n : nat) (predecessors : Graph) (open : gmap BlockId nat)
    (doomed : gset BlockId) (pending : list BlockId) : outcome (gset BlockId) :=
  match n with
  | O => Panic
  | S n =>
      match pending with
      | [] => Done doomed
      | block :: pending =>
          '(open, doomed, pending) ←
            close_predecessors (default [] (predecessors !! block)) open doomed pending;
          doomed_loop n predecessors open doomed pending
      end
  end.

Definition doomed (edges : Graph) (traps : list BlockId) : outcome (gset BlockId) :=
  let start := list_to_set traps : gset BlockId in
  doomed_loop (S (size start + size edges)) (predecessor_lists edges) (length <$> edges) start
    (List.rev (ordered start)).

(** ** Branches *)

Definition cold_arm (doomed : gset BlockId) (then_target : BlockId) (then_arguments : nat)
    (else_target : BlockId) (else_arguments : nat) : option bool :=
  match bool_decide (then_target ∈ doomed), bool_decide (else_target ∈ doomed) with
  | true, false => if (then_arguments =? 0)%nat then Some true else None
  | false, true => if (else_arguments =? 0)%nat then Some false else None
  | _, _ => None
  end.

Definition checked_sub (a b : nat) : option nat := if (a <? b)%nat then None else Some (a - b)%nat.

Definition depth (current target : nat) (conditional : bool) : option nat :=
  d ← checked_sub target current;
  d ← checked_sub d 1;
  let d := (d + if conditional then 1 else 0)%nat in
  if (N.of_nat d <=? u32_max)%N then Some d else None.

(** ** Regions *)

Definition inside (boundaries : list BlockId) (targets : list BlockId) : list BlockId :=
  List.filter (λ t, negb (bool_decide (t ∈ boundaries))) targets.

Fixpoint portion_loop (n : nat) (edges : Graph) (boundaries : list BlockId) (pending : list BlockId)
    (portion : Graph) : outcome (result unit Graph) :=
  match n with
  | O => Panic
  | S n =>
      match pending with
      | [] => Done (Ok portion)
      | block :: pending =>
          if bool_decide (is_Some (portion !! block))
          then portion_loop n edges boundaries pending portion
          else
            match edges !! block with
            | None => Done (Err tt)
            | Some targets =>
                if forallb (λ t, bool_decide (is_Some (edges !! t))) targets
                then
                  let successors := inside boundaries targets in
                  portion_loop n edges boundaries (List.rev successors ++ pending)
                    (<[block := successors]> portion)
                else Done (Err tt)
            end
      end
  end.

Definition region (entry : BlockId) (edges : Graph) (boundaries : list BlockId)
    : outcome (result unit (option (list BlockId))) :=
  if bool_decide (entry ∈ boundaries) then Done (Err tt)
  else
    r ← portion_loop (2 + edge_count edges) edges boundaries [entry] ∅;
    match r with
    | Err e => Done (Err e)
    | Ok portion => schedule entry portion
    end.

Definition repeatable_region (entry : BlockId) (stop : option BlockId) (edges : Graph)
    (boundaries : list BlockId) (emitted : gset BlockId) (remaining : nat)
    : outcome (result unit (option nat)) :=
  r ← region entry edges (boundaries ++ option_list stop);
  match r with
  | Err e => Done (Err e)
  | Ok None => Done (Ok None)
  | Ok (Some order) =>
      if (length order <=? remaining)%nat && forallb (λ b, bool_decide (b ∈ emitted)) order
      then Done (Ok (Some (length order))) else Done (Err tt)
  end.

(** ** Samples *)

Definition diamond : Graph :=
  list_to_map [(0, [1; 2]); (1, [3]); (2, [3; 4]); (3, []); (4, [])]%N.
Definition looped : Graph := list_to_map [(0, [1]); (1, [2; 3]); (2, [1]); (3, [])]%N.

Example schedule_diamond :
  schedule 0 diamond = Done (Ok (Some [0; 1; 2; 3; 4]%N)) ∧ schedule 0 looped = Done (Ok None) ∧
  schedule 1 diamond = Done (Err tt) ∧
  region 1 looped [1%N] = Done (Err tt) ∧
  region 2 looped [1%N] = Done (Ok (Some [2%N])) ∧
  region 0 looped [2%N] = Done (Ok (Some [0; 1; 3]%N)) ∧
  doomed diamond [4%N] = Done {[4%N]} ∧
  doomed diamond [3; 4]%N = Done (list_to_set [0; 1; 2; 3; 4]%N).
Proof. vm_compute. repeat split; reflexivity. Qed.

(** * Graphs *)

Definition edge (edges : Graph) (s t : BlockId) : Prop := ∃ ts, edges !! s = Some ts ∧ t ∈ ts.

(** Every target is a block and every block is reached from [entry]. *)
Record rooted (entry : BlockId) (edges : Graph) : Prop := {
  rooted_entry : is_Some (edges !! entry);
  rooted_targets s t : edge edges s t → is_Some (edges !! t);
  rooted_reach b : is_Some (edges !! b) → rtc (edge edges) entry b;
}.

Lemma elem_of_entries edges b s : (b, s) ∈ entries edges ↔ edges !! b = Some s.
Proof.
  unfold entries. rewrite list_elem_of_omap. split.
  - intros (x & _ & E). apply fmap_Some in E as (s' & E & [= -> ->]). done.
  - intros E. exists b. split; [|by rewrite E].
    apply ordered_elem. by eapply elem_of_dom_2.
Qed.

Lemma entries_NoDup edges : NoDup (map fst (entries edges)).
Proof.
  unfold entries. pose proof (ordered_NoDup (dom edges)) as H.
  induction H as [|b l Hb _ IH]; [by constructor|]. cbn [omap list_omap].
  destruct (edges !! b) as [s|] eqn:E; cbn; [|done]. rewrite ?E. cbn. constructor; [|done].
  intros ([b' s'] & -> & Hin)%list_elem_of_fmap. apply list_elem_of_omap in Hin as (x & Hx & E').
  cbn in *. apply fmap_Some in E' as (? & _ & [= -> ->]). done.
Qed.

Lemma length_entries edges : length (entries edges) = size edges.
Proof.
  assert (Permutation (entries edges) (map_to_list edges)) as ->; [|by apply length_map_to_list].
  apply NoDup_Permutation.
  - apply (NoDup_fmap_1 fst), entries_NoDup.
  - apply NoDup_map_to_list.
  - intros [b s]. by rewrite elem_of_entries, elem_of_map_to_list.
Qed.

(** ** Sums over the blocks outside a set *)

Definition outside (edges : Graph) (w : list BlockId → nat) (R : gset BlockId) : nat :=
  sum_list_with (λ e, if bool_decide (fst e ∈ R) then 0%nat else w (snd e)) (entries edges).

Lemma outside_list_same (l : list (BlockId * list BlockId)) (w : list BlockId → nat)
    (b : BlockId) (R : gset BlockId) :
  b ∉ map fst l →
  sum_list_with (λ e, if bool_decide (fst e ∈ {[b]} ∪ R) then 0%nat else w (snd e)) l =
  sum_list_with (λ e, if bool_decide (fst e ∈ R) then 0%nat else w (snd e)) l.
Proof.
  induction l as [|[c s] l IH]; intros Hb; [done|]. cbn [map fst snd sum_list_with] in *.
  apply not_elem_of_cons in Hb as [Hbc Hb]. rewrite IH by done. f_equal.
  by rewrite (bool_decide_ext (c ∈ {[b]} ∪ R) (c ∈ R)) by set_solver.
Qed.

Lemma outside_add edges w b s R :
  edges !! b = Some s → b ∉ R → outside edges w R = (w s + outside edges w ({[b]} ∪ R))%nat.
Proof.
  intros E Hb. unfold outside. pose proof (entries_NoDup edges) as Hnd.
  apply elem_of_entries in E. revert Hnd E. generalize (entries edges) as l.
  induction l as [|[c ts] l IH]; intros Hnd Hin; [by apply elem_of_nil in Hin|].
  cbn [map fst snd sum_list_with] in *. apply list.NoDup_cons in Hnd as [Hc Hnd].
  apply elem_of_cons in Hin as [[= -> ->]|Hin].
  - rewrite bool_decide_eq_false_2 by done. rewrite bool_decide_eq_true_2 by set_solver.
    by rewrite outside_list_same.
  - rewrite IH by done. assert (b ≠ c) as Hbc.
    { intros ->. apply Hc. apply list_elem_of_fmap. by exists (c, s). }
    rewrite (bool_decide_ext (c ∈ {[b]} ∪ R) (c ∈ R)) by set_solver. lia.
Qed.

Lemma outside_zero edges w R :
  outside edges w R = 0%nat ↔ ∀ b s, edges !! b = Some s → b ∉ R → w s = 0%nat.
Proof.
  unfold outside. setoid_rewrite <- elem_of_entries.
  induction (entries edges) as [|[c ts] l IH]; cbn [sum_list_with fst snd].
  { split; [|done]. intros _ b s Hin. by apply elem_of_nil in Hin. }
  rewrite Nat.eq_add_0, IH. split.
  - intros [H1 H2] b s [[= -> ->]|Hin]%elem_of_cons Hb; [|by eapply H2].
    by rewrite bool_decide_eq_false_2 in H1.
  - intros H. split; [|intros; eapply H; [by right|done]].
    case_bool_decide as Hc; [done|]. eapply H; [by left|done].
Qed.

Lemma outside_pos edges w R :
  (0 < outside edges w R)%nat → ∃ b s, edges !! b = Some s ∧ b ∉ R ∧ (0 < w s)%nat.
Proof.
  unfold outside. setoid_rewrite <- elem_of_entries.
  induction (entries edges) as [|[c ts] l IH]; cbn [sum_list_with fst snd]; [lia|].
  case_bool_decide as Hc.
  - intros (b & s & Hin & H)%IH. exists b, s. split; [by right|done].
  - destruct (decide (0 < w ts)%nat).
    + intros _. exists c, ts. split; [by left|done].
    + intros H. destruct IH as (b & s & Hin & H'); [lia|]. exists b, s. split; [by right|done].
Qed.

Lemma outside_empty edges : outside edges length ∅ = edge_count edges.
Proof.
  unfold outside, edge_count. induction (entries edges) as [|e l IH]; [done|].
  cbn [sum_list_with]. by rewrite IH, bool_decide_eq_false_2 by set_solver.
Qed.

(** ** Reachability *)

Lemma reach_spec n edges entry pending R :
  (outside edges length R + length pending < n)%nat →
  (∀ b, b ∈ R → is_Some (edges !! b) ∧ rtc (edge edges) entry b) →
  (∀ b, b ∈ pending → rtc (edge edges) entry b) →
  (∀ b t, b ∈ R → edge edges b t → t ∈ R ∨ t ∈ pending) →
  match reach n edges pending R with
  | Done (Ok R') =>
      (∀ b, b ∈ R' → is_Some (edges !! b) ∧ rtc (edge edges) entry b) ∧
      (∀ b t, b ∈ R' → edge edges b t → t ∈ R') ∧ R ⊆ R' ∧ list_to_set pending ⊆ R'
  | Done (Err _) => ∃ b, rtc (edge edges) entry b ∧ edges !! b = None
  | _ => False
  end.
Proof.
  revert pending R. induction n as [|n IH]; intros pending R Hn HR Hp Hc; [lia|]. cbn [reach].
  destruct pending as [|b pending].
  { split_and!; [done| |done|set_solver]. intros b t Hb Ht.
    destruct (Hc b t Hb Ht) as [?|Hnil]; [done|by apply elem_of_nil in Hnil]. }
  cbn [length] in Hn. destruct (edges !! b) as [s|] eqn:E; [|exists b; split; [apply Hp; by left|done]].
  case_bool_decide as Hb.
  - assert (∀ x t, x ∈ R → edge edges x t → t ∈ R ∨ t ∈ pending) as Hc'.
    { intros x t Hx Ht. destruct (Hc x t Hx Ht) as [?|[->|?]%elem_of_cons]; auto. }
    assert (∀ x, x ∈ pending → rtc (edge edges) entry x) as Hp' by (intros; apply Hp; by right).
    specialize (IH pending R ltac:(lia) HR Hp' Hc').
    destruct (reach n edges pending R) as [[R'|]| |]; [|done..].
    destruct IH as (H1 & H2 & H3 & H4). split_and!; [done..|]. cbn [list_to_set]. set_solver.
  - rewrite (outside_add _ _ _ _ _ E Hb) in Hn.
    assert (∀ x, x ∈ {[b]} ∪ R → is_Some (edges !! x) ∧ rtc (edge edges) entry x) as HR'.
    { intros x [->%elem_of_singleton|Hx]%elem_of_union; [|by apply HR].
      split; [by rewrite E|apply Hp; by left]. }
    assert (∀ x, x ∈ (List.rev s ++ pending)%list → rtc (edge edges) entry x) as Hp'.
    { intros x [Hx|Hx]%elem_of_app; [|apply Hp; by right].
      apply list_elem_of_In, in_rev, list_elem_of_In in Hx.
      eapply rtc_r; [apply Hp; by left|]. by exists s. }
    assert (∀ x t, x ∈ {[b]} ∪ R → edge edges x t →
      t ∈ {[b]} ∪ R ∨ t ∈ (List.rev s ++ pending)%list) as Hc'.
    { intros x t [->%elem_of_singleton|Hx]%elem_of_union Ht.
      - destruct Ht as (s' & E' & Ht). simplify_eq. right. apply elem_of_app. left.
        by apply list_elem_of_In, in_rev; rewrite rev_involutive; apply list_elem_of_In.
      - destruct (Hc x t Hx Ht) as [?|[->|?]%elem_of_cons]; [left; set_solver..|].
        right. apply elem_of_app. by right. }
    specialize (IH (List.rev s ++ pending)%list ({[b]} ∪ R) ltac:(rewrite length_app, length_rev; lia) HR' Hp' Hc').
    destruct (reach n edges (List.rev s ++ pending) ({[b]} ∪ R)) as [[R'|]| |]; [|done..].
    destruct IH as (H1 & H2 & H3 & H4). split_and!; [done|done|set_solver|].
    rewrite list_to_set_app in H4. cbn [list_to_set]. set_solver.
Qed.

(** ** Counting edges *)

(** How often a block occurs among targets. *)
Definition occurrences (t : BlockId) (ts : list BlockId) : nat := count_occ N.eq_dec ts t.

Lemma occurrences_cons t u ts :
  occurrences t (u :: ts) = ((if decide (u = t) then 1 else 0) + occurrences t ts)%nat.
Proof. unfold occurrences. cbn. destruct (N.eq_dec u t), (decide (u = t)); done. Qed.

Lemma occurrences_pos t ts : (0 < occurrences t ts)%nat ↔ t ∈ ts.
Proof. unfold occurrences. rewrite list_elem_of_In. symmetry. apply count_occ_In. Qed.

Lemma count_targets_spec ts (m : gmap BlockId nat) :
  match count_targets ts m with
  | Ok m' => (∀ t, t ∈ ts → is_Some (m !! t)) ∧
      ∀ b, m' !! b = (λ c, c + occurrences b ts)%nat <$> m !! b
  | Err _ => ∃ t, t ∈ ts ∧ m !! t = None
  end.
Proof.
  revert m. induction ts as [|t ts IH]; intros m; cbn [count_targets].
  { split; [intros t Ht; by apply elem_of_nil in Ht|]. intros b.
    destruct (m !! b); cbn; [by rewrite Nat.add_0_r|done]. }
  destruct (m !! t) as [c|] eqn:E; cbn [ok_or mbind result_bind]; [|exists t; split; [by left|done]].
  specialize (IH (<[t := S c]> m)). destruct (count_targets ts _) as [m'|].
  - destruct IH as [H1 H2]. split.
    + intros x [->|Hx]%elem_of_cons; [by rewrite E|]. destruct (decide (x = t)) as [->|]; [by rewrite E|].
      apply H1 in Hx. by rewrite lookup_insert_ne in Hx.
    + intros b. rewrite H2, occurrences_cons. destruct (decide (t = b)) as [->|].
      * rewrite lookup_insert_eq, E. cbn. f_equal. lia.
      * by rewrite lookup_insert_ne.
  - destruct IH as (x & Hx & Hn). exists x. split; [by right|].
    by apply lookup_insert_None in Hn as [? _].
Qed.

Lemma count_incoming_spec rows (m : gmap BlockId nat) :
  match count_incoming rows m with
  | Ok m' => ∀ b, m' !! b = (λ c, c + sum_list_with (λ e, occurrences b (snd e)) rows)%nat <$> m !! b
  | Err _ => ∃ e t, e ∈ rows ∧ t ∈ snd e ∧ m !! t = None
  end.
Proof.
  revert m. induction rows as [|[s ts] rows IH]; intros m; cbn [count_incoming].
  { intros b. destruct (m !! b); cbn; [by rewrite Nat.add_0_r|done]. }
  pose proof (count_targets_spec ts m) as Ht. destruct (count_targets ts m) as [m1|];
    cbn [mbind result_bind].
  - destruct Ht as [_ Ht]. specialize (IH m1). destruct (count_incoming rows m1) as [m2|err].
    + intros b. rewrite IH, Ht. destruct (m !! b); cbn [fmap option_fmap option_map]; [|done].
      cbn [sum_list_with snd]. f_equal. lia.
    + destruct IH as (e & t & He & Hte & Hn). exists e, t. split_and!; [by right|done|].
      rewrite Ht in Hn. by destruct (m !! t).
  - destruct Ht as (t & Ht & Hn). exists (s, ts), t. split_and!; [by left|done..].
Qed.

(** The edges into a block from blocks not yet in the order. *)
Definition waiting (edges : Graph) (done : gset BlockId) (b : BlockId) : nat :=
  outside edges (occurrences b) done.

Lemma waiting_start edges b :
  waiting edges ∅ b = sum_list_with (λ e, occurrences b (snd e)) (entries edges).
Proof.
  unfold waiting, outside. induction (entries edges) as [|e l IH]; [done|].
  cbn [sum_list_with]. by rewrite IH, bool_decide_eq_false_2 by set_solver.
Qed.

Lemma waiting_pos edges done b :
  (0 < waiting edges done b)%nat ↔ ∃ s, s ∉ done ∧ edge edges s b.
Proof.
  split.
  - intros (s & ts & E & Hs & Hb%occurrences_pos)%outside_pos. exists s. split; [done|]. by exists ts.
  - intros (s & Hs & ts & E & Hb). apply occurrences_pos in Hb.
    unfold waiting. rewrite (outside_add _ _ _ _ _ E Hs). lia.
Qed.

Lemma settle_spec ts (m : gmap BlockId nat) (ready : gset BlockId) :
  (∀ t, t ∈ ts → ∃ c, m !! t = Some c ∧ (occurrences t ts ≤ c)%nat) →
  ∃ m' ready', settle ts m ready = Done (Ok (m', ready')) ∧
    (∀ b, m' !! b = (λ c, c - occurrences b ts)%nat <$> m !! b) ∧
    (∀ b, b ∈ ready' ↔ b ∈ ready ∨ b ∈ ts ∧ m !! b = Some (occurrences b ts)).
Proof.
  revert m ready. induction ts as [|t ts IH]; intros m ready H; cbn [settle].
  { exists m, ready. split_and!; [done| |].
    - intros b. destruct (m !! b); cbn; [by rewrite Nat.sub_0_r|done].
    - intros b. split; [by left|]. intros [?|[Hb _]]; [done|by apply elem_of_nil in Hb]. }
  destruct (H t) as (c & E & Hc); [by left|]. rewrite E.
  rewrite occurrences_cons, decide_True in Hc by done. destruct c as [|c]; [lia|].
  destruct (IH (<[t := c]> m) (if (c =? 0)%nat then {[t]} ∪ ready else ready))
    as (m' & ready' & Hs & Hm & Hr).
  { intros x Hx. destruct (decide (t = x)) as [->|Hne].
    - exists c. split; [by rewrite lookup_insert_eq|lia].
    - destruct (H x) as (cx & Ex & Hcx); [by right|]. rewrite occurrences_cons in Hcx.
      rewrite decide_False in Hcx by done. exists cx. by rewrite lookup_insert_ne. }
  exists m', ready'. split_and!; [done| |].
  - intros b. rewrite Hm, occurrences_cons. destruct (decide (t = b)) as [->|].
    + rewrite lookup_insert_eq, E. cbn. done.
    + by rewrite lookup_insert_ne.
  - intros b. rewrite Hr, occurrences_cons. destruct (decide (t = b)) as [->|Hne].
    + rewrite lookup_insert_eq, E. destruct (Nat.eqb_spec c 0) as [->|Hc0].
      * split; [|intros _; left; set_solver]. intros _. right. split; [by left|].
        f_equal. lia.
      * split.
        -- intros [?|[Hb Heq]]; [by left|]. right. split; [by left|]. injection Heq as ->. done.
        -- intros [?|[_ Heq]]; [by left|]. right. injection Heq as Heq.
           split; [|f_equal; lia]. apply occurrences_pos. lia.
    + rewrite lookup_insert_ne by done. rewrite elem_of_cons.
      destruct (c =? 0)%nat; set_solver.
Qed.

(** ** The order *)

(** [order] lists blocks after all their predecessors. *)
Definition forward (edges : Graph) (order : list BlockId) : Prop :=
  ∀ s t j, order !! j = Some t → edge edges s t → ∃ i, (i < j)%nat ∧ order !! i = Some s.

Record ordering (edges : Graph) (incoming : gmap BlockId nat) (ready : gset BlockId)
    (order : list BlockId) : Prop := {
  ordering_NoDup : NoDup order;
  ordering_blocks b : b ∈ order → is_Some (edges !! b);
  ordering_incoming b : is_Some (edges !! b) →
    incoming !! b = Some (waiting edges (list_to_set order) b);
  ordering_ready b : b ∈ ready ↔
    is_Some (edges !! b) ∧ b ∉ order ∧ waiting edges (list_to_set order) b = 0%nat;
  ordering_forward : forward edges order;
}.

Lemma waiting_step edges order block targets b :
  edges !! block = Some targets → block ∉ order →
  waiting edges (list_to_set order) b =
    (occurrences b targets + waiting edges (list_to_set (order ++ [block])) b)%nat.
Proof.
  intros E Hb. unfold waiting.
  rewrite (outside_add _ _ _ _ _ E) by (by rewrite elem_of_list_to_set).
  do 2 f_equal. rewrite list_to_set_app_L. cbn [list_to_set]. set_solver.
Qed.

Lemma waiting_zero edges order b s :
  waiting edges (list_to_set order) b = 0%nat → edge edges s b → s ∈ order.
Proof.
  intros Hw Hs. destruct (decide (s ∈ order)) as [|Hn]; [done|].
  assert (0 < waiting edges (list_to_set order) b)%nat; [|lia].
  apply waiting_pos. exists s. by rewrite elem_of_list_to_set.
Qed.

Section ordering_step.
Context (edges : Graph) (targets_present : ∀ s t, edge edges s t → is_Some (edges !! t)).

Lemma ordering_step incoming ready order block targets incoming' ready' :
  ordering edges incoming ready order → block ∈ ready → edges !! block = Some targets →
  (∀ b, incoming' !! b = (λ c, c - occurrences b targets)%nat <$> incoming !! b) →
  (∀ b, b ∈ ready' ↔ b ∈ ready ∖ {[block]} ∨
     b ∈ targets ∧ incoming !! b = Some (occurrences b targets)) →
  ordering edges incoming' ready' (order ++ [block]).
Proof.
  intros H Hblock E Hi Hr. apply (ordering_ready _ _ _ _ H) in Hblock as (_ & Hnot & Hzero).
  pose proof (λ b, waiting_step _ _ _ _ b E Hnot) as Hstep.
  assert (block ∉ targets) as Hself.
  { intros Hin. apply Hnot. eapply waiting_zero; [done|]. by exists targets. }
  assert (∀ b, b ∈ targets → b ∉ order) as Hback.
  { intros b Hb (j & Hj)%list_elem_of_lookup.
    destruct (ordering_forward _ _ _ _ H block b j Hj) as (i & _ & Hin); [by exists targets|].
    apply Hnot, list_elem_of_lookup. eauto. }
  split.
  - apply list.NoDup_app. split_and!; [apply H| |apply NoDup_singleton].
    intros x Hx ->%list_elem_of_singleton. done.
  - intros b [Hb| ->%list_elem_of_singleton]%elem_of_app; [by apply H|by rewrite E].
  - intros b Hb. rewrite Hi, (ordering_incoming _ _ _ _ H b Hb). cbn. f_equal. rewrite Hstep. lia.
  - intros b. rewrite Hr, elem_of_difference, (ordering_ready _ _ _ _ H b), not_elem_of_app,
      list_elem_of_singleton, elem_of_singleton. specialize (Hstep b). split.
    + intros [[(Hb & Ho & Hw) Hne]|[Hb Hw]].
      * split_and!; [done..|lia].
      * assert (is_Some (edges !! b)) as Hsome by (apply (targets_present block); by exists targets).
        rewrite (ordering_incoming _ _ _ _ H b Hsome) in Hw. injection Hw as Hw.
        split_and!; [done|by apply Hback|by intros ->|lia].
    + intros (Hb & (Ho & Hne) & Hw). destruct (decide (b ∈ targets)) as [Hin|Hout].
      * right. split; [done|]. rewrite (ordering_incoming _ _ _ _ H b Hb). f_equal. lia.
      * left. split_and!; [done..| |done].
        assert (¬ (0 < occurrences b targets)%nat) by (by rewrite occurrences_pos). lia.
  - intros s t j Hj Hs. apply lookup_app_Some in Hj as [Hj|[Hlen Hj]].
    + destruct (ordering_forward _ _ _ _ H s t j Hj Hs) as (i & Hi' & Ht). exists i.
      split; [done|]. by apply lookup_app_l_Some.
    + apply list_lookup_singleton_Some in Hj as [Hj <-].
      apply (waiting_zero _ _ _ _ Hzero), list_elem_of_lookup in Hs as (i & Hs). exists i.
      split; [apply lookup_lt_Some in Hs; lia|by apply lookup_app_l_Some].
Qed.

Lemma ordering_length incoming ready order :
  ordering edges incoming ready order → (length order ≤ size edges)%nat.
Proof.
  intros H. rewrite <- size_dom. rewrite <- (size_list_to_set (C:=gset BlockId) order) by apply H.
  apply subseteq_size. intros b Hb%elem_of_list_to_set. by apply elem_of_dom, H.
Qed.

Lemma order_loop_spec n incoming ready order :
  ordering edges incoming ready order → (size edges < n + length order)%nat →
  ∃ order' incoming', order_loop n edges incoming ready order = Done (Ok order') ∧
    ordering edges incoming' ∅ order'.
Proof.
  revert incoming ready order. induction n as [|n IH]; intros incoming ready order H Hn.
  { apply ordering_length in H. lia. }
  cbn [order_loop]. destruct (ordered ready) as [|block rest] eqn:Ho.
  { exists order, incoming. split; [done|]. assert (ready = ∅) as <-; [|done].
    apply elem_of_equiv_empty_L. intros x Hx%ordered_elem. rewrite Ho in Hx. by apply elem_of_nil in Hx. }
  assert (block ∈ ready) as Hblock by (apply ordered_elem; rewrite Ho; by left).
  pose proof (proj1 (ordering_ready _ _ _ _ H block) Hblock) as ([targets E] & Hnot & Hzero).
  rewrite E.
  destruct (settle_spec targets incoming (ready ∖ {[block]})) as (m' & r' & Hs & Hm & Hr).
  { intros t Ht. eexists. split; [apply (ordering_incoming _ _ _ _ H), (targets_present block); by exists targets|].
    rewrite (waiting_step _ _ _ _ t E Hnot). lia. }
  rewrite Hs. cbn [mbind outcome_bind].
  apply IH; [by eapply ordering_step|]. rewrite length_app. cbn. lia.
Qed.
End ordering_step.

(** ** Cycles *)

(** A finite set in which every block has a predecessor holds a cycle. *)
Lemma backward_cycle (R : BlockId → BlockId → Prop) (U : gset BlockId) b :
  b ∈ U → (∀ x, x ∈ U → ∃ y, y ∈ U ∧ R y x) → ∃ x, tc R x x.
Proof.
  intros Hb Hpred.
  assert (∀ n, (∃ x, tc R x x) ∨ ∃ l, length l = S n ∧ NoDup l ∧
    (∀ x, x ∈ l → x ∈ U) ∧ ∃ h, head l = Some h ∧ ∀ x, x ∈ l → rtc R h x) as Hn.
  { induction n as [|n [?|(l & Hl & Hnd & HU & h & Hh & Hr)]]; [|by left|].
    - right. exists [b]. split_and!; [done|apply NoDup_singleton| |].
      + by intros x ->%list_elem_of_singleton.
      + exists b. split; [done|]. by intros x ->%list_elem_of_singleton.
    - destruct (Hpred h) as (y & Hy & Hyh).
      { apply HU. destruct l; [done|]. cbn in Hh. simplify_eq. by left. }
      destruct (decide (y ∈ l)) as [Hin|Hnin].
      + left. exists y. eapply tc_rtc_r; [by apply tc_once|]. auto.
      + right. exists (y :: l). split_and!; [cbn; lia|by constructor| |].
        * intros x [->|?]%elem_of_cons; auto.
        * exists y. split; [done|]. intros x [->|Hx]%elem_of_cons; [done|].
          eapply rtc_l; [done|]. auto. }
  destruct (Hn (size U)) as [?|(l & Hl & Hnd & HU & _)]; [done|]. exfalso.
  assert (size (list_to_set l : gset BlockId) ≤ size U)%nat as Hle.
  { apply subseteq_size. by intros x Hx%elem_of_list_to_set; apply HU. }
  rewrite size_list_to_set in Hle by done. lia.
Qed.

(** Along edges positions of a forward order grow. *)
Lemma forward_tc edges order s t j :
  forward edges order → tc (edge edges) s t → order !! j = Some t →
  ∃ i, (i < j)%nat ∧ order !! i = Some s.
Proof.
  intros Hf Ht. revert j. induction Ht as [s t Hst|s x t Hsx Hxt IH]; intros j Hj.
  - by eapply Hf.
  - destruct (IH j Hj) as (k & Hk & Hx). destruct (Hf s x k Hx Hsx) as (i & Hi & Hs).
    exists i. split; [lia|done].
Qed.

(** ** The schedule *)

Lemma rooted_present entry edges b :
  rooted entry edges → rtc (edge edges) entry b → is_Some (edges !! b).
Proof.
  intros H Hb. apply rtc_inv_r in Hb as [<-|(s & _ & Hs)]; [apply H|].
  by apply (rooted_targets _ _ H s).
Qed.

Lemma reach_dom entry edges (R : gset BlockId) :
  (∀ b, b ∈ R → is_Some (edges !! b) ∧ rtc (edge edges) entry b) →
  (∀ b t, b ∈ R → edge edges b t → t ∈ R) → entry ∈ R →
  size R = size edges ↔ rooted entry edges.
Proof.
  intros HR Hclosed Hentry.
  assert (R ⊆ dom edges) as Hsub by (intros b [Hb _]%HR; by apply elem_of_dom).
  rewrite <- size_dom. split.
  - intros Hsize. assert (R = dom edges) as Heq by (apply set_subseteq_size_eq; [done|lia]).
    split.
    + by apply HR.
    + intros s t Hst. apply HR. apply (Hclosed s); [|done]. rewrite Heq.
      destruct Hst as (ts & E & _). by eapply elem_of_dom_2.
    + intros b Hb. apply HR. rewrite Heq. by apply elem_of_dom.
  - intros H. f_equal. apply set_eq. intros b. split; [apply Hsub|].
    intros [ts Hb]%elem_of_dom. assert (rtc (edge edges) entry b) as Hr by (apply H; by exists ts).
    assert (∀ x y, rtc (edge edges) x y → x ∈ R → y ∈ R) as Hgo; [|by eapply Hgo].
    clear -Hclosed. intros x y. induction 1 as [|x y z Hxy _ IH]; [done|]. eauto.
Qed.

Lemma ordering_start entry edges incoming :
  rooted entry edges → count_incoming (entries edges) (no_incoming edges) = Ok incoming →
  ordering edges incoming (ready_blocks incoming) [].
Proof.
  intros H Hc. assert (∀ b, incoming !! b = (λ _, waiting edges ∅ b) <$> edges !! b) as Hs.
  { intros b. pose proof (count_incoming_spec (entries edges) (no_incoming edges)) as Hs.
    rewrite Hc in Hs. rewrite Hs, waiting_start. unfold no_incoming. rewrite lookup_fmap.
    by destruct (edges !! b). }
  split.
  - constructor.
  - intros b Hb. by apply elem_of_nil in Hb.
  - intros b [ts E]. by rewrite Hs, E.
  - intros b. unfold ready_blocks. rewrite elem_of_dom. unfold is_Some.
    setoid_rewrite map_lookup_filter_Some. setoid_rewrite Hs. split.
    + intros (c & E & Hc0). cbn in Hc0. subst c. destruct (edges !! b) as [ts|]; [|done].
      cbn in E. injection E as E. split_and!; [by exists ts|apply not_elem_of_nil|done].
    + intros ([ts E] & _ & Hw). rewrite E. cbn. exists 0%nat. split; [by f_equal|done].
  - intros s t j Hj. done.
Qed.

Definition scheduled (entry : BlockId) (edges : Graph) (order : list BlockId) : Prop :=
  head order = Some entry ∧ NoDup order ∧ (∀ b, b ∈ order ↔ is_Some (edges !! b)) ∧
  forward edges order.

Lemma ordering_complete entry edges incoming order :
  rooted entry edges → ordering edges incoming ∅ order →
  if (length order =? size edges)%nat then scheduled entry edges order
  else ∃ b, tc (edge edges) b b.
Proof.
  intros H Ho. destruct (Nat.eqb_spec (length order) (size edges)) as [Hl|Hl].
  - assert (list_to_set order = dom edges) as Heq.
    { apply set_subseteq_size_eq; [intros b Hb%elem_of_list_to_set; by apply elem_of_dom, Ho|].
      rewrite size_dom, size_list_to_set by apply Ho. lia. }
    assert (∀ b, b ∈ order ↔ is_Some (edges !! b)) as Hin.
    { intros b. by rewrite <- elem_of_dom, <- Heq, elem_of_list_to_set. }
    split_and!; [|apply Ho|done|apply Ho].
    destruct order as [|h rest].
    { pose proof (rooted_entry _ _ H) as He. apply Hin in He. by apply elem_of_nil in He. }
    cbn. f_equal. assert (rtc (edge edges) entry h) as Hr by (apply H, Hin; by left).
    apply rtc_inv_r in Hr as [->|(s & _ & Hs)]; [done|].
    destruct (ordering_forward _ _ _ _ Ho s h 0) as (i & Hi & _); [done|done|lia].
  - assert (∃ b, b ∈ dom edges ∖ list_to_set order) as [b Hb].
    { apply set_choose_L. intros Hempty. apply Hl.
      pose proof (ordering_length _ _ _ _ Ho) as Hle.
      assert (size (dom edges) ≤ size (list_to_set order : gset BlockId))%nat as Hge.
      { apply subseteq_size. intros x Hx.
        destruct (decide (x ∈ (list_to_set order : gset BlockId))) as [|Hn]; [done|]. exfalso.
        apply (not_elem_of_empty (C:=gset BlockId) x). rewrite <- Hempty.
        by apply elem_of_difference. }
      rewrite size_dom, size_list_to_set in Hge by apply Ho. lia. }
    apply (backward_cycle _ (dom edges ∖ list_to_set order) b); [done|]. clear b Hb.
    intros b [Hb Hn]%elem_of_difference. rewrite elem_of_list_to_set in Hn.
    apply elem_of_dom in Hb.
    assert (0 < waiting edges (list_to_set order) b)%nat as (s & Hs & Hsb)%waiting_pos.
    { destruct (waiting edges (list_to_set order) b) eqn:Hw; [|lia]. exfalso.
      apply (not_elem_of_empty (C:=gset BlockId) b). by apply Ho. }
    exists s. split; [|done]. apply elem_of_difference. split; [|done].
    destruct Hsb as (ts & E & _). by eapply elem_of_dom_2.
Qed.

Lemma schedule_spec entry edges :
  match schedule entry edges with
  | Done (Ok (Some order)) => rooted entry edges ∧ scheduled entry edges order
  | Done (Ok None) => rooted entry edges ∧ ∃ b, tc (edge edges) b b
  | Done (Err _) => ¬ rooted entry edges
  | _ => False
  end.
Proof.
  unfold schedule. pose proof (reach_spec (2 + edge_count edges) edges entry [entry] ∅) as Hr.
  rewrite outside_empty in Hr. cbn [length] in Hr. specialize (Hr ltac:(lia)).
  specialize (Hr ltac:(set_solver) ltac:(by intros b ->%list_elem_of_singleton) ltac:(set_solver)).
  destruct (reach _ edges [entry] ∅) as [[R|]| |]; cbn [mbind outcome_bind]; [|
    |done|done].
  2:{ destruct Hr as (b & Hb & Hn). intros H. pose proof (rooted_present _ _ _ H Hb) as [? ?].
      congruence. }
  destruct Hr as (H1 & H2 & _ & H4). assert (entry ∈ R) as He by set_solver.
  pose proof (reach_dom entry edges R H1 H2 He) as Hdom.
  destruct (Nat.eqb_spec (size R) (size edges)) as [Hsize|Hsize]; cbn [negb]; [|tauto].
  apply Hdom in Hsize as Hroot.
  pose proof (count_incoming_spec (entries edges) (no_incoming edges)) as Hc.
  destruct (count_incoming (entries edges) (no_incoming edges)) as [incoming|err] eqn:Ei.
  2:{ exfalso. destruct Hc as ([s ts] & t & Hin & Ht & Hn). apply elem_of_entries in Hin.
      unfold no_incoming in Hn. rewrite lookup_fmap, fmap_None in Hn.
      destruct (rooted_targets _ _ Hroot s t) as [? ?]; [by exists ts|]. congruence. }
  pose proof (ordering_start _ _ _ Hroot Ei) as Hstart.
  destruct (order_loop_spec edges (rooted_targets _ _ Hroot) (S (size edges)) incoming _ [] Hstart)
    as (order & incoming' & -> & Ho); [cbn; lia|]. cbn [mbind outcome_bind].
  pose proof (ordering_complete _ _ _ _ Hroot Ho) as Hfin.
  destruct (length order =? size edges)%nat; cbn [negb]; [|done].
  rewrite bool_decide_eq_true_2 by apply Hfin. done.
Qed.

(** ** Blocks that only lead to a trap *)

(** Every path from the block ends at a trap. *)
Inductive leads_to_trap (edges : Graph) (traps : list BlockId) : BlockId → Prop :=
  | trap_here b : b ∈ traps → leads_to_trap edges traps b
  | trap_ahead b ts : edges !! b = Some ts → ts ≠ [] →
      (∀ t, t ∈ ts → leads_to_trap edges traps t) → leads_to_trap edges traps b.

Lemma push_predecessor_occurrences (b t p u : BlockId) (m : Graph) :
  occurrences p (default [] (push_predecessor b t m !! u)) =
  (occurrences p (default [] (m !! u)) + if decide (p = b ∧ u = t) then 1 else 0)%nat.
Proof.
  unfold push_predecessor. destruct (decide (u = t)) as [->|Hu].
  - rewrite lookup_insert_eq. cbn [default from_option id]. unfold occurrences.
    rewrite count_occ_app. cbn. destruct (N.eq_dec b p) as [->|Hb].
    + by rewrite decide_True.
    + rewrite decide_False; [done|]. by intros [-> _].
  - rewrite lookup_insert_ne by done. destruct (decide (p = b ∧ u = t)) as [[_ ?]|]; [done|lia].
Qed.

Lemma push_row_occurrences b ts p u (m : Graph) :
  occurrences p (default [] (List.fold_left (λ m t, push_predecessor b t m) ts m !! u)) =
  (occurrences p (default [] (m !! u)) + if decide (p = b) then occurrences u ts else 0)%nat.
Proof.
  revert m. induction ts as [|t ts IH]; intros m; cbn [List.fold_left].
  { destruct (decide (p = b)); cbn; lia. }
  rewrite IH, push_predecessor_occurrences, occurrences_cons.
  destruct (decide (p = b)) as [->|], (decide (t = u)) as [->|];
    repeat case_decide; naive_solver lia.
Qed.

Lemma predecessor_lists_occurrences edges p u :
  occurrences p (default [] (predecessor_lists edges !! u)) =
  default 0%nat (occurrences u <$> edges !! p).
Proof.
  unfold predecessor_lists.
  enough (∀ l (m : Graph), NoDup (map fst l) →
    occurrences p (default [] (List.fold_left (λ m e,
      List.fold_left (λ m t, push_predecessor (fst e) t m) (snd e) m) l m !! u)) =
    (occurrences p (default [] (m !! u)) +
     default 0 (occurrences u <$> (list_to_map l : Graph) !! p))%nat) as H.
  { rewrite H by apply entries_NoDup. rewrite lookup_empty. cbn [default from_option].
    change (occurrences p (id [])) with 0%nat. rewrite Nat.add_0_l. do 2 f_equal. destruct (edges !! p) as [ts|] eqn:E.
    - apply elem_of_list_to_map_1; [apply entries_NoDup|by apply elem_of_entries].
    - apply not_elem_of_list_to_map_1. intros ([b ts] & -> & Hin)%list_elem_of_fmap.
      apply elem_of_entries in Hin. cbn in *. congruence. }
  induction l as [|[b ts] l IH]; intros m Hnd; cbn [List.fold_left].
  { rewrite list_to_map_nil, lookup_empty. cbn. lia. }
  cbn [map fst] in Hnd. apply list.NoDup_cons in Hnd as [Hb Hnd]. rewrite IH by done.
  cbn [fst snd]. rewrite push_row_occurrences, list_to_map_cons.
  destruct (decide (p = b)) as [->|Hne].
  - rewrite lookup_insert_eq. rewrite (not_elem_of_list_to_map_1 l b) by done. cbn. lia.
  - rewrite lookup_insert_ne by done. lia.
Qed.

Lemma close_predecessors_spec ps (open : gmap BlockId nat) (doomed : gset BlockId) pending :
  (∀ p c, open !! p = Some c → (occurrences p ps ≤ c)%nat) →
  ∃ open' new, close_predecessors ps open doomed pending =
      Done (open', list_to_set new ∪ doomed, (new ++ pending)%list) ∧
    (∀ b, open' !! b = (λ c, c - occurrences b ps)%nat <$> open !! b) ∧
    NoDup new ∧
    (∀ b, b ∈ new ↔ b ∉ doomed ∧ b ∈ ps ∧ open !! b = Some (occurrences b ps)).
Proof.
  revert open doomed pending. induction ps as [|p ps IH]; intros open doomed pending H;
    cbn [close_predecessors].
  { exists open, []. cbn [list_to_set app]. split_and!; [do 2 f_equal; f_equal; set_solver| |constructor|].
    - intros b. destruct (open !! b); cbn; [by rewrite Nat.sub_0_r|done].
    - intros b. split; [by intros ?%elem_of_nil|]. by intros (_ & ?%elem_of_nil & _). }
  destruct (open !! p) as [c|] eqn:E.
  2:{ destruct (IH open doomed pending) as (open' & new & Hrun & Ho & Hnd & Hnew).
      { intros x c Hx. specialize (H x c Hx). rewrite occurrences_cons in H. lia. }
      exists open', new. split_and!; [done| |done|].
      - intros b. rewrite Ho, occurrences_cons. destruct (decide (p = b)) as [->|]; [by rewrite E|done].
      - intros b. rewrite Hnew, occurrences_cons, elem_of_cons.
        destruct (decide (p = b)) as [->|]; [rewrite E; naive_solver|]. naive_solver. }
  pose proof (H p c E) as Hc. rewrite occurrences_cons, decide_True in Hc by done.
  destruct c as [|c]; [lia|].
  assert (∀ x cx, <[p := c]> open !! x = Some cx → (occurrences x ps ≤ cx)%nat) as H'.
  { intros x cx Hx. destruct (decide (p = x)) as [->|Hne].
    - rewrite lookup_insert_eq in Hx. injection Hx as <-. lia.
    - rewrite lookup_insert_ne in Hx by done. specialize (H x cx Hx).
      rewrite occurrences_cons, decide_False in H by done. done. }
  assert (∀ b, (λ c, c - occurrences b ps)%nat <$> <[p := c]> open !! b =
    (λ c, c - occurrences b (p :: ps))%nat <$> open !! b) as Hopen.
  { intros b. rewrite occurrences_cons. destruct (decide (p = b)) as [->|].
    - by rewrite lookup_insert_eq, E.
    - by rewrite lookup_insert_ne. }
  destruct (Nat.eqb_spec c 0) as [->|Hc0]; cbn [andb]; [case_bool_decide as Hd|]; cbn [negb].
  - (* already doomed *)
    destruct (IH (<[p := 0%nat]> open) doomed pending H') as (open' & new & Hrun & Ho & Hnd & Hnew).
    exists open', new. split_and!; [done|intros b; by rewrite Ho, Hopen|done|].
    intros b. rewrite Hnew, occurrences_cons, elem_of_cons. destruct (decide (p = b)) as [->|].
    + naive_solver.
    + rewrite lookup_insert_ne by done. naive_solver.
  - (* newly doomed *)
    destruct (IH (<[p := 0%nat]> open) ({[p]} ∪ doomed) (p :: pending) H')
      as (open' & new & Hrun & Ho & Hnd & Hnew).
    exists open', (new ++ [p])%list. split_and!.
    + rewrite Hrun, list_to_set_app_L. cbn [list_to_set]. rewrite <- (assoc_L (++)). cbn [app].
      do 2 f_equal. f_equal. set_solver.
    + intros b. by rewrite Ho, Hopen.
    + apply list.NoDup_app. split_and!; [done| |apply NoDup_singleton].
      intros x Hx ->%list_elem_of_singleton. apply Hnew in Hx as [Hx _]. set_solver.
    + intros b. rewrite elem_of_app, Hnew, list_elem_of_singleton, occurrences_cons, elem_of_cons.
      destruct (decide (p = b)) as [->|Hne].
      * split; [|by right]. intros _. split_and!; [done|by left|]. rewrite E. f_equal. lia.
      * rewrite lookup_insert_ne by done. set_solver.
  - destruct (IH (<[p := c]> open) doomed pending H') as (open' & new & Hrun & Ho & Hnd & Hnew).
    exists open', new. split_and!; [done|intros b; by rewrite Ho, Hopen|done|].
    intros b. rewrite Hnew, occurrences_cons, elem_of_cons. destruct (decide (p = b)) as [->|Hne].
    + rewrite lookup_insert_eq, E. split.
      * intros (Hb & Hin & [= ->]). split_and!; [done|by left|done].
      * intros (Hb & _ & [= Heq]). split_and!; [done| |f_equal; lia].
        apply occurrences_pos. lia.
    + rewrite lookup_insert_ne by done. naive_solver.
Qed.

(** The targets not yet known to lead to a trap. *)
Definition remaining (P : gset BlockId) (ts : list BlockId) : nat :=
  length (List.filter (λ t, negb (bool_decide (t ∈ P))) ts).

Lemma remaining_step (P : gset BlockId) x ts :
  x ∉ P → remaining P ts = (occurrences x ts + remaining ({[x]} ∪ P) ts)%nat.
Proof.
  intros Hx. unfold remaining. induction ts as [|t ts IH]; [done|].
  rewrite occurrences_cons. cbn [List.filter]. destruct (decide (t = x)) as [->|Hne].
  - rewrite (bool_decide_eq_false_2 (x ∈ P)), (bool_decide_eq_true_2 (x ∈ {[x]} ∪ P)) by set_solver.
    cbn [negb length]. lia.
  - rewrite (bool_decide_ext (t ∈ {[x]} ∪ P) (t ∈ P)) by set_solver.
    destruct (bool_decide (t ∈ P)); cbn [negb length]; lia.
Qed.

Lemma remaining_zero (P : gset BlockId) ts : remaining P ts = 0%nat ↔ ∀ t, t ∈ ts → t ∈ P.
Proof.
  unfold remaining. rewrite length_zero_iff_nil. induction ts as [|t ts IH]; cbn [List.filter].
  { split; [intros _ t Ht; by apply elem_of_nil in Ht|done]. }
  case_bool_decide as Ht; cbn [negb].
  - rewrite IH. split; [intros H x [->|?]%elem_of_cons; auto|intros H x Hx; apply H; by right].
  - split; [done|]. intros H. exfalso. apply Ht, H. by left.
Qed.

Lemma remaining_empty ts : remaining ∅ ts = length ts.
Proof.
  unfold remaining. induction ts as [|t ts IH]; [done|]. cbn [List.filter].
  rewrite bool_decide_eq_false_2 by apply not_elem_of_empty. cbn. by rewrite IH.
Qed.

(** What the loop keeps: [P] are the blocks it has taken from the stack. *)
Record closing (edges : Graph) (traps : list BlockId) (P : gset BlockId)
    (open : gmap BlockId nat) (D : gset BlockId) (pending : list BlockId) : Prop := {
  closing_open b : open !! b = remaining P <$> edges !! b;
  closing_set : D = P ∪ list_to_set pending;
  closing_fresh : NoDup pending;
  closing_apart b : b ∈ pending → b ∉ P;
  closing_sound b : b ∈ D → leads_to_trap edges traps b;
  closing_traps b : b ∈ traps → b ∈ D;
  closing_closed b ts : edges !! b = Some ts → ts ≠ [] → remaining P ts = 0%nat → b ∈ D;
  closing_known b : b ∈ D → b ∈ traps ∨ is_Some (edges !! b);
}.

Lemma closing_step edges traps P open D block pending open' new :
  closing edges traps P open D (block :: pending) →
  let ps := default [] (predecessor_lists edges !! block) in
  (∀ b, open' !! b = (λ c, c - occurrences b ps)%nat <$> open !! b) → NoDup new →
  (∀ b, b ∈ new ↔ b ∉ D ∧ b ∈ ps ∧ open !! b = Some (occurrences b ps)) →
  closing edges traps ({[block]} ∪ P) open' (list_to_set new ∪ D) (new ++ pending).
Proof.
  intros H ps Ho Hnd Hnew.
  assert (block ∉ P) as Hblock by (apply (closing_apart _ _ _ _ _ _ H); by left).
  assert (∀ b ts, edges !! b = Some ts → occurrences b ps = occurrences block ts) as Hps.
  { intros b ts E. unfold ps. by rewrite predecessor_lists_occurrences, E. }
  assert (∀ b ts, edges !! b = Some ts → b ∈ new ↔ b ∉ D ∧ block ∈ ts ∧ remaining ({[block]} ∪ P) ts = 0%nat)
    as Hnew'.
  { intros b ts E. rewrite Hnew, (closing_open _ _ _ _ _ _ H), E, <- !occurrences_pos, (Hps b ts E).
    cbn. rewrite (remaining_step P block ts Hblock). split; intros (Hd & Hin & Heq); split_and!;
      [done|done|injection Heq as Heq; lia|done|done|f_equal; lia]. }
  assert (∀ b, b ∈ new → is_Some (edges !! b)) as Hpresent.
  { intros b (_ & _ & Hb)%Hnew. rewrite (closing_open _ _ _ _ _ _ H) in Hb.
    by destruct (edges !! b). }
  assert (∀ t, t ∈ {[block]} ∪ P → t ∈ D) as HD.
  { intros t Ht. rewrite (closing_set _ _ _ _ _ _ H). cbn [list_to_set]. set_solver. }
  pose proof (closing_fresh _ _ _ _ _ _ H) as Hf. apply list.NoDup_cons in Hf as [Hbp Hf].
  split.
  - intros b. rewrite Ho, (closing_open _ _ _ _ _ _ H). destruct (edges !! b) as [ts|] eqn:E; [|done].
    cbn. f_equal. rewrite (Hps b ts E), (remaining_step P block ts Hblock). lia.
  - rewrite (closing_set _ _ _ _ _ _ H), list_to_set_app_L. cbn [list_to_set]. set_solver.
  - apply list.NoDup_app. split_and!; [done| |done]. intros x Hx Hp.
    apply Hnew in Hx as [Hx _]. apply Hx. rewrite (closing_set _ _ _ _ _ _ H). cbn [list_to_set].
    apply elem_of_union_r, elem_of_union_r. by apply elem_of_list_to_set.
  - intros b Hb Hin. apply elem_of_app in Hb as [Hb|Hb].
    + apply Hnew in Hb as [Hb _]. apply Hb, HD, Hin.
    + apply elem_of_union in Hin as [->%elem_of_singleton|Hin]; [done|].
      eapply (closing_apart _ _ _ _ _ _ H); [by right|done].
  - intros b [Hb%elem_of_list_to_set|Hb]%elem_of_union; [|by apply H].
    pose proof (Hpresent b Hb) as [ts E].
    pose proof (proj1 (Hnew' b ts E) Hb) as (_ & Hin & Hr).
    eapply trap_ahead; [done|by intros ->; apply elem_of_nil in Hin|].
    intros t Ht. apply (closing_sound _ _ _ _ _ _ H), HD.
    exact (proj1 (remaining_zero _ _) Hr t Ht).
  - intros b Hb. apply elem_of_union_r. by apply H.
  - intros b ts E Hne Hr. apply elem_of_union. destruct (decide (b ∈ D)) as [|Hd]; [by right|left].
    apply elem_of_list_to_set, (Hnew' b ts E). split_and!; [done| |done].
    destruct (decide (block ∈ ts)) as [|Hout]; [done|]. exfalso. apply Hd.
    apply (closing_closed _ _ _ _ _ _ H b ts E Hne). rewrite (remaining_step P block ts Hblock), Hr.
    assert (¬ (0 < occurrences block ts)%nat) by (by rewrite occurrences_pos). lia.
  - intros b [Hb%elem_of_list_to_set|Hb]%elem_of_union; [right; by apply Hpresent|by apply H].
Qed.

Lemma doomed_loop_spec n edges traps P open D pending :
  closing edges traps P open D pending →
  (size ((list_to_set traps ∪ dom edges) ∖ P) < n)%nat →
  ∃ P' open', doomed_loop n (predecessor_lists edges) open D pending = Done P' ∧
    closing edges traps P' open' P' [].
Proof.
  revert P open D pending. induction n as [|n IH]; intros P open D pending H Hn; [lia|].
  cbn [doomed_loop]. destruct pending as [|block pending].
  { exists D, open. split; [done|]. assert (D = P) as HDP; [|by rewrite HDP in H |- *].
    rewrite (closing_set _ _ _ _ _ _ H). cbn [list_to_set]. set_solver. }
  set (ps := default [] (predecessor_lists edges !! block)).
  assert (block ∉ P) as Hblock by (apply (closing_apart _ _ _ _ _ _ H); by left).
  destruct (close_predecessors_spec ps open D pending) as (open' & new & -> & Ho & Hnd & Hnew).
  { intros p c Hp. rewrite (closing_open _ _ _ _ _ _ H) in Hp. unfold ps.
    rewrite predecessor_lists_occurrences. destruct (edges !! p) as [ts|]; cbn in *; [|lia].
    injection Hp as <-. rewrite (remaining_step P block ts Hblock). lia. }
  cbn [mbind outcome_bind]. eapply IH; [by eapply closing_step|].
  assert (block ∈ (list_to_set traps ∪ dom edges) ∖ P) as Hin.
  { apply elem_of_difference. split; [|done]. apply elem_of_union.
    rewrite elem_of_list_to_set, elem_of_dom. apply (closing_known _ _ _ _ _ _ H).
    rewrite (closing_set _ _ _ _ _ _ H). cbn [list_to_set]. set_solver. }
  assert ((list_to_set traps ∪ dom edges) ∖ P =
    {[block]} ∪ (list_to_set traps ∪ dom edges) ∖ ({[block]} ∪ P)) as Heq.
  { apply set_eq. intros x. destruct (decide (x = block)) as [->|]; set_solver. }
  rewrite Heq, size_union, size_singleton in Hn by set_solver. lia.
Qed.

Lemma doomed_spec edges traps :
  ∃ D, doomed edges traps = Done D ∧ ∀ b, b ∈ D ↔ leads_to_trap edges traps b.
Proof.
  unfold doomed. set (start := list_to_set traps : gset BlockId).
  destruct (doomed_loop_spec (S (size start + size edges)) edges traps ∅ (length <$> edges) start
    (List.rev (ordered start))) as (D & open' & Hrun & HD).
  - assert (∀ b, b ∈ List.rev (ordered start) ↔ b ∈ traps) as Hin.
    { intros b. rewrite list_elem_of_In, <- in_rev, <- list_elem_of_In, ordered_elem.
      unfold start. by rewrite elem_of_list_to_set. }
    split.
    + intros b. rewrite lookup_fmap. destruct (edges !! b); [|done]. cbn. by rewrite remaining_empty.
    + apply set_eq. intros b. rewrite elem_of_union, !elem_of_list_to_set, Hin. set_solver.
    + apply NoDup_ListNoDup, List.NoDup_rev, NoDup_ListNoDup, ordered_NoDup.
    + intros b _. apply not_elem_of_empty.
    + intros b Hb. apply trap_here. by apply elem_of_list_to_set in Hb.
    + intros b Hb. by apply elem_of_list_to_set.
    + intros b ts _ Hne Hr. rewrite remaining_empty in Hr. by destruct ts.
    + intros b Hb. left. by apply elem_of_list_to_set in Hb.
  - rewrite difference_empty_L. pose proof (size_union_alt start (dom edges)) as Hu.
    assert (size (dom edges ∖ start) ≤ size (dom edges))%nat as Hle
      by (apply subseteq_size; set_solver).
    rewrite size_dom in Hle. unfold start in *. lia.
  - exists D. split; [done|]. intros b. split; [apply HD|].
    induction 1 as [b Hb|b ts E Hne _ IH]; [by apply HD|].
    eapply (closing_closed _ _ _ _ _ _ HD); [done..|]. by apply remaining_zero.
Qed.

(** ** Regions *)

(** The edges that do not leave the region. *)
Definition inner (edges : Graph) (boundaries : list BlockId) (s t : BlockId) : Prop :=
  edge edges s t ∧ t ∉ boundaries.

(** The region has no block without an entry in the graph or with a target
    without one. *)
Definition intact (entry : BlockId) (edges : Graph) (boundaries : list BlockId) : Prop :=
  ∀ b, rtc (inner edges boundaries) entry b →
    ∃ ts, edges !! b = Some ts ∧ ∀ t, t ∈ ts → is_Some (edges !! t).

Lemma elem_of_inside boundaries ts t : t ∈ inside boundaries ts ↔ t ∈ ts ∧ t ∉ boundaries.
Proof.
  unfold inside. rewrite !list_elem_of_In, List.filter_In, negb_true_iff, bool_decide_eq_false.
  by rewrite list_elem_of_In.
Qed.

Section portion.
Context (entry : BlockId) (edges : Graph) (boundaries : list BlockId).

(** The rows collected so far are those of blocks of the region. *)
Definition collected (portion : Graph) : Prop :=
  ∀ b ss, portion !! b = Some ss → rtc (inner edges boundaries) entry b ∧
    ∃ ts, edges !! b = Some ts ∧ ss = inside boundaries ts ∧ ∀ t, t ∈ ts → is_Some (edges !! t).

Lemma portion_loop_spec n pending portion :
  (outside edges length (dom portion) + length pending < n)%nat →
  collected portion →
  (∀ b, b ∈ pending → rtc (inner edges boundaries) entry b) →
  (∀ b t, edge portion b t → is_Some (portion !! t) ∨ t ∈ pending) →
  match portion_loop n edges boundaries pending portion with
  | Done (Ok portion') => collected portion' ∧
      (∀ b t, edge portion' b t → is_Some (portion' !! t)) ∧
      (∀ b, b ∈ pending → is_Some (portion' !! b)) ∧ portion ⊆ portion'
  | Done (Err _) => ¬ intact entry edges boundaries
  | _ => False
  end.
Proof.
  revert pending portion. induction n as [|n IH]; intros pending portion Hn Hcol Hp Hc; [lia|].
  cbn [portion_loop]. destruct pending as [|b pending].
  { split_and!; [done| |by intros b ?%elem_of_nil|done]. intros b t Ht.
    destruct (Hc b t Ht) as [?|?%elem_of_nil]; done. }
  cbn [length] in Hn. case_bool_decide as Hb.
  - assert (∀ x t, edge portion x t → is_Some (portion !! t) ∨ t ∈ pending) as Hc'.
    { intros x t Ht. destruct (Hc x t Ht) as [?|[->|?]%elem_of_cons]; auto. }
    specialize (IH pending portion ltac:(lia) Hcol ltac:(intros; apply Hp; by right) Hc').
    destruct (portion_loop n edges boundaries pending portion) as [[p'|]| |]; [|done..].
    destruct IH as (H1 & H2 & H3 & H4). split_and!; [done..| |done].
    intros x [->|Hx]%elem_of_cons; [|auto]. destruct Hb as [ss Hb]. exists ss.
    by eapply lookup_weaken.
  - destruct (edges !! b) as [ts|] eqn:E.
    2:{ intros Hi. destruct (Hi b) as (ts & E' & _); [apply Hp; by left|]. congruence. }
    destruct (forallb _ ts) eqn:Ht.
    2:{ intros Hi. destruct (Hi b) as (ts' & E' & Hall); [apply Hp; by left|]. simplify_eq.
        apply not_true_iff_false in Ht. apply Ht, List.forallb_forall.
        intros t Hin%list_elem_of_In. by apply bool_decide_eq_true, Hall. }
    rewrite List.forallb_forall in Ht. apply eq_None_not_Some in Hb as Hnone.
    assert (b ∉ dom portion) as Hdom by (by apply not_elem_of_dom).
    rewrite (outside_add _ _ _ _ _ E Hdom) in Hn.
    assert (length (inside boundaries ts) ≤ length ts)%nat as Hlen
      by (unfold inside; clear; induction ts as [|t ts IH]; cbn; [done|]; destruct (negb _); cbn; lia).
    set (rows := <[b := inside boundaries ts]> portion).
    assert (rows !! b = Some (inside boundaries ts)) as Hrow by apply lookup_insert_eq.
    assert (∀ x, b ≠ x → rows !! x = portion !! x) as Hother by (intros; by apply lookup_insert_ne).
    assert (collected rows) as Hcol'.
    { intros x ss Hx. destruct (decide (b = x)) as [<-|Hne]; [|rewrite Hother in Hx by done; by apply Hcol].
      rewrite Hrow in Hx. injection Hx as <-. split; [apply Hp; by left|]. exists ts.
      split_and!; [done..|]. intros t Hin%list_elem_of_In. by apply (bool_decide_eq_true_1 _ (Ht t Hin)). }
    assert (∀ x, x ∈ (List.rev (inside boundaries ts) ++ pending)%list →
      rtc (inner edges boundaries) entry x) as Hp'.
    { intros x [Hx|Hx]%elem_of_app; [|apply Hp; by right].
      apply list_elem_of_In, in_rev, list_elem_of_In, elem_of_inside in Hx as [Hx Hout].
      eapply rtc_r; [apply Hp; by left|]. split; [by exists ts|done]. }
    assert (∀ x t, edge rows x t →
      is_Some (rows !! t) ∨ t ∈ (List.rev (inside boundaries ts) ++ pending)%list) as Hc'.
    { intros x t (ss & Hx & Hin). destruct (decide (b = x)) as [<-|Hne].
      - rewrite Hrow in Hx. injection Hx as <-. right. apply elem_of_app. left.
        by apply list_elem_of_In, in_rev; rewrite rev_involutive; apply list_elem_of_In.
      - rewrite Hother in Hx by done. destruct (decide (b = t)) as [<-|]; [left; by rewrite Hrow|].
        rewrite Hother by done. destruct (Hc x t) as [?|[->|?]%elem_of_cons]; [by exists ss|by left|done|].
        right. apply elem_of_app. by right. }
    specialize (IH (List.rev (inside boundaries ts) ++ pending)%list rows).
    unfold rows in IH at 1. rewrite dom_insert_L, length_app, length_rev in IH.
    specialize (IH ltac:(lia) Hcol' Hp' Hc').
    destruct (portion_loop n edges boundaries _ rows) as [[p'|]| |]; [|done..].
    destruct IH as (H1 & H2 & H3 & H4). split_and!; [done|done| |].
    + intros x [->|Hx]%elem_of_cons; [|apply H3, elem_of_app; by right].
      exists (inside boundaries ts). by eapply lookup_weaken.
    + etrans; [by apply insert_subseteq|done].
Qed.
End portion.

Lemma portion_edge entry edges boundaries portion s t :
  collected entry edges boundaries portion →
  edge portion s t ↔ is_Some (portion !! s) ∧ inner edges boundaries s t.
Proof.
  intros Hcol. split.
  - intros (ss & Hs & Ht). destruct (Hcol s ss Hs) as (_ & ts & E & -> & _).
    apply elem_of_inside in Ht as [Ht Hout]. split; [by eexists|]. split; [by exists ts|done].
  - intros [[ss Hs] [(ts & E & Ht) Hout]]. destruct (Hcol s ss Hs) as (_ & ts' & E' & -> & _).
    simplify_eq. eexists. split; [done|]. by apply elem_of_inside.
Qed.

Lemma portion_complete entry edges boundaries portion :
  collected entry edges boundaries portion →
  (∀ b t, edge portion b t → is_Some (portion !! t)) → is_Some (portion !! entry) →
  rooted entry portion ∧ intact entry edges boundaries ∧
  ∀ b, is_Some (portion !! b) ↔ rtc (inner edges boundaries) entry b.
Proof.
  intros Hcol Hclosed Hentry.
  assert (∀ b, rtc (inner edges boundaries) entry b →
    is_Some (portion !! b) ∧ rtc (edge portion) entry b) as Hreach.
  { apply (rtc_ind_r (λ b, is_Some (portion !! b) ∧ rtc (edge portion) entry b)); [done|].
    intros s t _ Hst [Hs Hr].
    assert (edge portion s t) as He by (by apply (portion_edge entry edges boundaries)).
    split; [by eapply Hclosed|by eapply rtc_r]. }
  assert (∀ b, is_Some (portion !! b) → rtc (inner edges boundaries) entry b) as Hback.
  { intros b [ss Hb]. by apply (Hcol b ss Hb). }
  split_and!.
  - split; [done|done|]. intros b Hb. by apply Hreach, Hback.
  - intros b Hb. destruct (proj1 (Hreach b Hb)) as [ss Hs].
    destruct (Hcol b ss Hs) as (_ & ts & E & _ & Hall). by exists ts.
  - intros b. split; [apply Hback|intros Hb; by apply Hreach].
Qed.

Lemma portion_tc entry edges boundaries portion b c :
  collected entry edges boundaries portion →
  tc (edge portion) b c → tc (inner edges boundaries) b c ∧ is_Some (portion !! b).
Proof.
  intros Hcol. induction 1 as [x y Hxy|x y z Hxy _ IH];
    apply (portion_edge entry edges boundaries _ _ _ Hcol) in Hxy as [Hx Hxy].
  - split; [by apply tc_once|done].
  - split; [|done]. eapply tc_l; [done|by apply IH].
Qed.

(** A region in order: its blocks, once each, after their predecessors in
    it. *)
Definition region_scheduled (entry : BlockId) (edges : Graph) (boundaries order : list BlockId)
    : Prop :=
  head order = Some entry ∧ NoDup order ∧
  (∀ b, b ∈ order ↔ rtc (inner edges boundaries) entry b) ∧
  ∀ s t j, order !! j = Some t → rtc (inner edges boundaries) entry s →
    inner edges boundaries s t → ∃ i, (i < j)%nat ∧ order !! i = Some s.

Lemma region_spec entry edges boundaries :
  match region entry edges boundaries with
  | Done (Ok (Some order)) =>
      (entry ∉ boundaries) ∧ intact entry edges boundaries ∧
      region_scheduled entry edges boundaries order
  | Done (Ok None) =>
      (entry ∉ boundaries) ∧ intact entry edges boundaries ∧
      ∃ b, rtc (inner edges boundaries) entry b ∧ tc (inner edges boundaries) b b
  | Done (Err _) => entry ∈ boundaries ∨ ¬ intact entry edges boundaries
  | _ => False
  end.
Proof.
  unfold region. case_bool_decide as Hentry; [by left|].
  pose proof (portion_loop_spec entry edges boundaries (2 + edge_count edges) [entry] ∅) as Hp.
  rewrite dom_empty_L, outside_empty in Hp. cbn [length] in Hp. specialize (Hp ltac:(lia)).
  specialize (Hp ltac:(by intros b ss H; rewrite lookup_empty in H)
    ltac:(by intros b ->%list_elem_of_singleton)
    ltac:(by intros b t (ss & H & _); rewrite lookup_empty in H)).
  destruct (portion_loop _ edges boundaries [entry] ∅) as [[portion|]| |];
    cbn [mbind outcome_bind]; [|by right|done|done].
  destruct Hp as (Hcol & Hclosed & Hin & _).
  destruct (portion_complete entry edges boundaries portion Hcol Hclosed) as (Hroot & Hi & Hdom).
  { apply Hin. by left. }
  pose proof (schedule_spec entry portion) as Hs.
  destruct (schedule entry portion) as [[[order|]|]| |]; [| |done..].
  - destruct Hs as [_ (Hh & Hnd & Hb & Hf)]. unfold region_scheduled. split_and!; [done..| |].
    + intros b. by rewrite Hb, Hdom.
    + intros s t j Hj Hs Hst. eapply Hf; [done|].
      apply (portion_edge entry edges boundaries); [done|]. split; [by apply Hdom|done].
  - destruct Hs as [_ [b Hb]]. split_and!; [done..|]. exists b.
    apply (portion_tc entry edges boundaries) in Hb as [Hb Hs]; [|done]. split; [by apply Hdom|done].
Qed.

Lemma tc_source edges b c : tc (edge edges) b c → is_Some (edges !! b).
Proof. destruct 1 as [? ? (ts & E & _)|? ? ? (ts & E & _) _]; by exists ts. Qed.

Lemma scheduled_acyclic entry edges order : scheduled entry edges order → ∀ b, ¬ tc (edge edges) b b.
Proof.
  intros (_ & Hnd & Hin & Hf) b Hb. assert (b ∈ order) as [j Hj]%list_elem_of_lookup.
  { by apply Hin, (tc_source _ _ _ Hb). }
  destruct (forward_tc _ _ _ _ _ Hf Hb Hj) as (i & Hi & Hj').
  pose proof (NoDup_lookup _ _ _ _ Hnd Hj Hj'). lia.
Qed.

(** * Property *)

(** C8: Scheduling returns on every graph and is exact.  A graph is refused
    precisely when a target is no block, the entry is none, or some block is
    not reached from it; of the others, an order is given when the graph has
    no cycle and none when it has one.  The order begins with the entry and
    lists every block once, each after all its predecessors.  The same holds
    of a region, the blocks reached from an entry without entering a
    boundary. *)
Theorem schedule_exact entry edges boundaries :
  (∃ r, schedule entry edges = Done r ∧
     match r with
     | Ok (Some order) => rooted entry edges ∧ scheduled entry edges order ∧
         ∀ b, ¬ tc (edge edges) b b
     | Ok None => rooted entry edges ∧ ∃ b, tc (edge edges) b b
     | Err _ => ¬ rooted entry edges
     end) ∧
  (∃ r, region entry edges boundaries = Done r ∧
     match r with
     | Ok (Some order) => (entry ∉ boundaries) ∧ intact entry edges boundaries ∧
         region_scheduled entry edges boundaries order
     | Ok None => (entry ∉ boundaries) ∧ intact entry edges boundaries ∧
         ∃ b, rtc (inner edges boundaries) entry b ∧ tc (inner edges boundaries) b b
     | Err _ => entry ∈ boundaries ∨ ¬ intact entry edges boundaries
     end).
Proof.
  split.
  - pose proof (schedule_spec entry edges) as H.
    destruct (schedule entry edges) as [r| |]; [|done..]. exists r. split; [done|].
    destruct r as [[order|]|]; [|done..]. destruct H as [Hr Hs]. split_and!; [done..|].
    by eapply scheduled_acyclic.
  - pose proof (region_spec entry edges boundaries) as H.
    destruct (region entry edges boundaries) as [r| |]; [|done..]. by exists r.
Qed.
