(* ===== verification/ForwardEmit.v ===== *)
(** * ForwardEmit: structured code for an acyclic function

    Models the encoder's path for a function (or a part of a loop) whose
    control flow has a schedule: [emit_forward] of
    [crates/witchy-wir/src/canonical_wasmir/structured_forward.rs] with the
    pieces of [structured.rs] it uses ([emit_branch_arguments],
    [emit_terminator], the head of [encode_function]).  The instructions are
    those written to the body; what is emitted for an operation is one
    instruction that does what [ScalarMachine] says of the operation.  A
    local is named by its value: which index it gets is [local_layout]'s.

    WebAssembly's structured control is modelled by parsing the flat code
    into nested blocks and by a big-step semantics of those.  The theorem
    compares it with the control-flow graph that the function stands for. *)

From S2P Require Import Prelude Ordered SafeWir Dominance SsaPaths ScalarMachine ForwardCfg.

(** * Definitions *)

Module Wasm.
Inductive t : Set :=
  | Block
  | If
  | Else
  | End
  | Br (label : nat)
  | BrIf (label : nat)
  | LocalGet (value : ValueId)
  | LocalSet (value : ValueId)
  | I32Eqz
  | Operation (operation : SafeWir.Operation)
  | Return
  | ReturnCall (site callee : N)
  | ReturnCallIndirect (site signature : N)
  | Unreachable.
End Wasm.
Abbreviation Wasm := Wasm.t.

Inductive EncodeError : Set :=
  | UnsupportedControlFlow (operation : string)
  | UnsupportedSignature (signature : N)
  | MissingFunction (function : N)
  | MissingValue (value : ValueId)
  | MissingTarget (block : BlockId)
  | Unencodable (operation : Operation).

(** [blocks_by_id]: a later block of the same identifier replaces the first. *)
Definition blocks_by_id (f : Function) : gmap BlockId BasicBlock :=
  List.fold_left (λ m b, <[block_id b := b]> m) (blocks f) ∅.

Definition successors_by_block (f : Function) : Graph :=
  (λ b, successors (terminator b)) <$> blocks_by_id f.

(** The blocks [doomed] starts from. *)
Definition trap_blocks (f : Function) : list BlockId :=
  List.map block_id (List.filter (λ b,
    match terminator b with Terminator.Trap | Terminator.Unreachable => true | _ => false end)
    (blocks f)).

Section emitter.
Context (f : Function).
(** The values with a local, the functions and signatures with an index, and
    the operations [emit_instruction] refuses. *)
Context (layout : gset ValueId) (functions signatures : gset N).
Context (encodable : Operation → bool).
(** [label_depth] of the [escape_label] of a block, outside the blocks that
    are being emitted. *)
Context (escape : BlockId → option nat).
Context (doomed_blocks : gset BlockId).

Definition local (v : ValueId) : result EncodeError unit :=
  fail_if (negb (bool_decide (v ∈ layout))) (MissingValue v).

Definition emit_gets (vs : list ValueId) : result EncodeError (list Wasm) :=
  try_each local vs;; Ok (List.map Wasm.LocalGet vs).

Definition emit_sets (vs : list ValueId) : result EncodeError (list Wasm) :=
  try_each local vs;; Ok (List.map Wasm.LocalSet vs).

Definition emit_branch_arguments (target : BlockId) (arguments : list ValueId)
    : result EncodeError (list Wasm) :=
  _ ← ok_or (blocks_by_id f !! target) (MissingTarget target);
  b ← ok_or (List.find (λ b, (block_id b =? target)%N) (blocks f)) (MissingTarget target);
  fail_if (negb (length (parameters b) =? length arguments)%nat)
    (UnsupportedControlFlow "branch arity");;
  gets ← emit_gets arguments;
  sets ← emit_sets (List.rev (block_parameters b));
  Ok (gets ++ sets)%list.

Definition emit_terminator (terminator : Terminator) : result EncodeError (list Wasm) :=
  match terminator with
  | Terminator.Branch _ _ => Err (UnsupportedControlFlow "Branch")
  | Terminator.BranchIf _ _ _ _ _ => Err (UnsupportedControlFlow "BranchIf")
  | Terminator.Return values =>
      gets ← emit_gets values; Ok (gets ++ [Wasm.Return])%list
  | Terminator.TailCall site callee arguments =>
      gets ← emit_gets (argument_uses arguments);
      fail_if (negb (bool_decide (callee ∈ functions))) (MissingFunction callee);;
      Ok (gets ++ [Wasm.ReturnCall site callee])%list
  | Terminator.VarTailCall site callee signature arguments =>
      gets ← emit_gets (argument_uses arguments);
      get ← emit_gets [callee];
      fail_if (negb (bool_decide (signature ∈ signatures))) (UnsupportedSignature signature);;
      Ok (gets ++ get ++ [Wasm.ReturnCallIndirect site signature])%list
  | Terminator.Trap | Terminator.Unreachable => Ok [Wasm.Unreachable]
  end.

Section order.
Context (order : list BlockId).

Definition positions : gmap BlockId nat :=
  List.fold_left (λ m p, <[p.1 := p.2]> m) (imap (λ i b, (b, i)) order) ∅.

(** The closure [depth] of [emit_forward]. *)
Definition branch_depth (position : nat) (target : BlockId) (conditional : bool)
    : result EncodeError nat :=
  match (t ← positions !! target; depth position t conditional) with
  | Some d => Ok d
  | None =>
      ok_or
        (base ← escape target;
         let extra := (length order - position - 1 + if conditional then 1 else 0)%nat in
         if (N.of_nat extra <=? u32_max)%N && (N.of_nat (base + extra) <=? u32_max)%N
         then Some (base + extra)%nat else None)
        (UnsupportedControlFlow "non-forward scheduled edge")
  end.

Definition emit_branch (position : nat) (target : BlockId) (arguments : list ValueId)
    : result EncodeError (list Wasm) :=
  d ← branch_depth position target false;
  code ← emit_branch_arguments target arguments;
  Ok (code ++ [Wasm.Br d])%list.

(** The conditional whose [cold] arm takes no arguments. *)
Definition emit_cold_branch (position : nat) (condition : ValueId) (then_cold : bool)
    (cold hot : BlockId) (hot_arguments : list ValueId) : result EncodeError (list Wasm) :=
  cold_depth ← branch_depth position cold false;
  hot_depth ← branch_depth position hot false;
  get ← emit_gets [condition];
  code ← emit_branch_arguments hot hot_arguments;
  Ok (get ++ (if then_cold then [] else [Wasm.I32Eqz]) ++ [Wasm.BrIf cold_depth] ++ code
        ++ [Wasm.Br hot_depth])%list.

Definition emit_branch_if (position : nat) (condition : ValueId) (then_target : BlockId)
    (then_arguments : list ValueId) (else_target : BlockId) (else_arguments : list ValueId)
    : result EncodeError (list Wasm) :=
  match cold_arm doomed_blocks then_target (length then_arguments) else_target
          (length else_arguments) with
  | Some true => emit_cold_branch position condition true then_target else_target else_arguments
  | Some false => emit_cold_branch position condition false else_target then_target then_arguments
  | None =>
      then_depth ← branch_depth position then_target true;
      else_depth ← branch_depth position else_target true;
      get ← emit_gets [condition];
      then_code ← emit_branch_arguments then_target then_arguments;
      else_code ← emit_branch_arguments else_target else_arguments;
      Ok (get ++ [Wasm.If] ++ then_code ++ [Wasm.Br then_depth; Wasm.Else] ++ else_code
            ++ [Wasm.Br else_depth; Wasm.End])%list
  end.

Definition emit_block_end (position : nat) (terminator : Terminator)
    : result EncodeError (list Wasm) :=
  match terminator with
  | Terminator.Branch target arguments => emit_branch position target arguments
  | Terminator.BranchIf condition then_target then_arguments else_target else_arguments =>
      emit_branch_if position condition then_target then_arguments else_target else_arguments
  | t => emit_terminator t
  end.

Definition emit_operation (operation : Operation) : result EncodeError unit :=
  fail_if (negb (encodable operation)) (Unencodable operation).

Definition emit_block (position : nat) (id : BlockId) : result EncodeError (list Wasm) :=
  block ← ok_or (blocks_by_id f !! id) (MissingTarget id);
  try_each emit_operation (operations block);;
  code ← emit_block_end position (terminator block);
  Ok (List.map Wasm.Operation (operations block) ++ code)%list.

(** The loop over the scheduled blocks. *)
Fixpoint emit_blocks (position : nat) (rest : list BlockId) (emitted : gset BlockId)
    : result EncodeError (list Wasm * gset BlockId) :=
  match rest with
  | [] => Ok ([], emitted)
  | id :: rest =>
      fail_if (bool_decide (id ∈ emitted)) (UnsupportedControlFlow "forward block emitted twice");;
      code ← emit_block position id;
      more ← emit_blocks (S position) rest ({[id]} ∪ emitted);
      Ok (((if (position =? 0)%nat then [] else [Wasm.End]) ++ code ++ fst more)%list, snd more)
  end.

Definition emit_forward (emitted : gset BlockId) : result EncodeError (list Wasm * gset BlockId) :=
  more ← emit_blocks 0 order emitted;
  Ok ((replicate (length order - 1) Wasm.Block ++ fst more)%list, snd more).
End order.
End emitter.

(** [encode_function] up to the loop encoder ([Ok None]).  The source and the
    lowered function are one here, so that their entries agree; the [End]
    that closes the body is the end of the list; the layout's locals are
    given. *)
Definition encode_function (f : Function) (layout : gset ValueId) (functions signatures : gset N)
    (encodable : Operation → bool) : outcome (result EncodeError (option (list Wasm))) :=
  let edges := successors_by_block f in
  match List.find (λ t, negb (bool_decide (is_Some (blocks_by_id f !! t))))
          (List.flat_map snd (entries edges)) with
  | Some t => Done (Err (MissingTarget t))
  | None =>
      doomed_blocks ← doomed edges (trap_blocks f);
      r ← schedule (entry f) edges;
      match r with
      | Err _ => Done (Err (UnsupportedControlFlow "invalid forward CFG"))
      | Ok None => Done (Ok None)
      | Ok (Some order) =>
          Done ('(code, emitted) ← emit_forward f layout functions signatures encodable
                                     (λ _, None) doomed_blocks order ∅;
                fail_if (negb (size emitted =? length (blocks f))%nat)
                  (UnsupportedControlFlow "unstructured or unreachable block");;
                Ok (Some code))
      end
  end.

(** ** Structured code *)

Inductive code : Set :=
  | CPlain (instruction : Wasm)
  | CBlock (body : list code)
  | CIf (then_body else_body : list code).

(** An open block with what precedes it, the last first. *)
Inductive frame : Set :=
  | InBlock (before : list code)
  | InThen (before : list code)
  | InElse (before then_body : list code).

Fixpoint parse (stack : list frame) (seen : list code) (l : list Wasm) : option (list code) :=
  match l with
  | [] => match stack with [] => Some (List.rev seen) | _ => None end
  | Wasm.Block :: l => parse (InBlock seen :: stack) [] l
  | Wasm.If :: l => parse (InThen seen :: stack) [] l
  | Wasm.Else :: l =>
      match stack with
      | InThen before :: stack => parse (InElse before (List.rev seen) :: stack) [] l
      | _ => None
      end
  | Wasm.End :: l =>
      match stack with
      | InBlock before :: stack => parse stack (CBlock (List.rev seen) :: before) l
      | InThen before :: stack => parse stack (CIf (List.rev seen) [] :: before) l
      | InElse before then_body :: stack =>
          parse stack (CIf then_body (List.rev seen) :: before) l
      | [] => None
      end
  | i :: l => parse stack (CPlain i :: seen) l
  end.

(** ** Semantics *)

Section semantics.
Context {W : Type} (perform : Operation → locals → W → option (list N * W) → Prop) (f : Function).

(** How code ends: at its end with operands on the stack, in a branch to an
    enclosing label, or with the function. *)
Inductive ending : Type :=
  | Fell (stack : list N) (e : locals) (w : W)
  | Jumped (label : nat) (e : locals) (w : W)
  | Finished (s : state W).

(** The operands of a [return] are the stack of the frame, the last on top. *)
Inductive exec : list code → list N → locals → W → ending → Prop :=
  | exec_end st e w : exec [] st e w (Fell st e w)
  | exec_next op rest st e e' w o :
      scalar_effect f e op = Next e' → exec rest st e' w o →
      exec (CPlain (Wasm.Operation op) :: rest) st e w o
  | exec_trap op rest st e w :
      scalar_effect f e op = Traps →
      exec (CPlain (Wasm.Operation op) :: rest) st e w (Finished (Trapped w))
  | exec_world op rest st e w xs w' o :
      scalar_effect f e op = World → perform op e w (Some (xs, w')) →
      exec rest st (set_all f e (operation_destinations op) xs) w' o →
      exec (CPlain (Wasm.Operation op) :: rest) st e w o
  | exec_world_trap op rest st e w :
      scalar_effect f e op = World → perform op e w None →
      exec (CPlain (Wasm.Operation op) :: rest) st e w (Finished (Trapped w))
  | exec_get v rest st e w o :
      exec rest (get e v :: st) e w o → exec (CPlain (Wasm.LocalGet v) :: rest) st e w o
  | exec_set v x rest st e w o :
      exec rest st (set f e v x) w o → exec (CPlain (Wasm.LocalSet v) :: rest) (x :: st) e w o
  | exec_eqz x rest st e w o :
      exec rest ((if (x =? 0)%N then 1%N else 0%N) :: st) e w o →
      exec (CPlain Wasm.I32Eqz :: rest) (x :: st) e w o
  | exec_br n rest st e w : exec (CPlain (Wasm.Br n) :: rest) st e w (Jumped n e w)
  | exec_br_taken n x rest st e w :
      x ≠ 0%N → exec (CPlain (Wasm.BrIf n) :: rest) (x :: st) e w (Jumped n e w)
  | exec_br_not_taken n rest st e w o :
      exec rest st e w o → exec (CPlain (Wasm.BrIf n) :: rest) (0%N :: st) e w o
  | exec_return rest st e w :
      exec (CPlain Wasm.Return :: rest) st e w (Finished (Returned (List.rev st) w))
  | exec_return_call site callee rest st e w :
      exec (CPlain (Wasm.ReturnCall site callee) :: rest) st e w
        (Finished (TailCalled site callee (List.rev st) w))
  | exec_return_call_indirect site signature x rest st e w :
      exec (CPlain (Wasm.ReturnCallIndirect site signature) :: rest) (x :: st) e w
        (Finished (VarTailCalled site x signature (List.rev st) w))
  | exec_unreachable rest st e w :
      exec (CPlain Wasm.Unreachable :: rest) st e w (Finished (Trapped w))
  | exec_block_end body rest st e w e' w' o :
      exec body [] e w (Fell [] e' w') → exec rest st e' w' o →
      exec (CBlock body :: rest) st e w o
  | exec_block_exit body rest st e w e' w' o :
      exec body [] e w (Jumped 0 e' w') → exec rest st e' w' o →
      exec (CBlock body :: rest) st e w o
  | exec_block_out body rest st e w n e' w' :
      exec body [] e w (Jumped (S n) e' w') → exec (CBlock body :: rest) st e w (Jumped n e' w')
  | exec_block_finished body rest st e w s :
      exec body [] e w (Finished s) → exec (CBlock body :: rest) st e w (Finished s)
  | exec_if then_body else_body x rest st e w o :
      exec (CBlock (if (x =? 0)%N then else_body else then_body) :: rest) st e w o →
      exec (CIf then_body else_body :: rest) (x :: st) e w o.
End semantics.

(** * Parsing *)

Fixpoint flatten_code (c : code) : list Wasm :=
  match c with
  | CPlain i => [i]
  | CBlock body => Wasm.Block :: List.flat_map flatten_code body ++ [Wasm.End]
  | CIf t e =>
      Wasm.If :: List.flat_map flatten_code t ++
      Wasm.Else :: List.flat_map flatten_code e ++ [Wasm.End]
  end%list.

Abbreviation flatten := (List.flat_map flatten_code).

(** An instruction that opens or closes nothing. *)
Definition plain (i : Wasm) : bool :=
  match i with Wasm.Block | Wasm.If | Wasm.Else | Wasm.End => false | _ => true end.

Fixpoint well_formed (c : code) : bool :=
  match c with
  | CPlain i => plain i
  | CBlock body => forallb well_formed body
  | CIf t e => forallb well_formed t && forallb well_formed e
  end.

(** [code] has lists of itself, over which induction is to go too. *)
Lemma code_ind' (P : code → Prop) :
  (∀ i, P (CPlain i)) → (∀ body, Forall P body → P (CBlock body)) →
  (∀ t e, Forall P t → Forall P e → P (CIf t e)) → ∀ c, P c.
Proof.
  intros H1 H2 H3. fix IH 1. intros [i|body|t e]; [apply H1|apply H2|apply H3].
  - induction body; constructor; auto.
  - induction t; constructor; auto.
  - induction e; constructor; auto.
Qed.

Lemma parse_plain i stack seen l :
  plain i = true → parse stack seen (i :: l) = parse stack (CPlain i :: seen) l.
Proof. by destruct i. Qed.

Definition parses (c : code) : Prop :=
  well_formed c = true → ∀ stack seen l,
    parse stack seen (flatten_code c ++ l)%list = parse stack (c :: seen) l.

Lemma parse_list cs :
  Forall parses cs → forallb well_formed cs = true → ∀ stack seen l,
  parse stack seen (flatten cs ++ l)%list = parse stack (List.rev cs ++ seen)%list l.
Proof.
  induction 1 as [|c cs Hc _ IH]; intros Hw stack seen l; [done|]. cbn [forallb] in Hw.
  apply andb_true_iff in Hw as [Hwc Hw]. cbn [List.flat_map List.rev]. rewrite <- app_assoc, Hc by done.
  by rewrite IH, <- app_assoc.
Qed.

Lemma parse_code c : parses c.
Proof.
  induction c as [i|body IH|t e IHt IHe] using code_ind'; intros Hw stack seen l; cbn [flatten_code].
  - by apply parse_plain.
  - cbn [well_formed] in Hw. cbn [app parse]. rewrite <- app_assoc, parse_list by done.
    cbn [app parse]. by rewrite app_nil_r, rev_involutive.
  - cbn [well_formed] in Hw. apply andb_true_iff in Hw as [Ht He].
    cbn [app parse]. rewrite <- app_assoc, parse_list by done. cbn [app parse].
    rewrite <- app_assoc, parse_list by done. cbn [app parse].
    by rewrite !app_nil_r, !rev_involutive.
Qed.

(** Code that is written down well nested is read back. *)
Lemma parse_flatten cs : forallb well_formed cs = true → parse [] [] (flatten cs) = Some cs.
Proof.
  intros Hw. rewrite <- (app_nil_r (flatten cs)), parse_list; [|apply list.Forall_forall; intros; apply parse_code|done].
  cbn [parse]. by rewrite app_nil_r, rev_involutive.
Qed.

(** Scheduled blocks nest: each is in the blocks of those after it. *)
Fixpoint nest (inner : list code) (rest : list (list code)) : list code :=
  match rest with
  | [] => inner
  | next :: rest => nest (CBlock inner :: next) rest
  end.

Lemma flatten_nest inner rest :
  flatten (nest inner rest) =
  (replicate (length rest) Wasm.Block ++ flatten inner ++
   List.flat_map (λ next, Wasm.End :: flatten next) rest)%list.
Proof.
  revert inner. induction rest as [|next rest IH]; intros inner; cbn [nest length].
  { cbn. by rewrite app_nil_r. }
  rewrite IH. cbn [List.flat_map flatten_code]. rewrite replicate_S_end.
  rewrite <- !app_assoc. cbn [app]. by rewrite <- !app_assoc.
Qed.

Lemma nest_well_formed inner rest :
  forallb well_formed inner = true → Forall (λ next, forallb well_formed next = true) rest →
  forallb well_formed (nest inner rest) = true.
Proof.
  intros Hi Hr. revert inner Hi. induction Hr as [|next rest Hn _ IH]; intros inner Hi; [done|].
  cbn [nest]. apply IH. cbn [forallb well_formed]. by rewrite Hi, Hn.
Qed.

(** * Executing nested blocks *)

Section nesting.
Context {W : Type} (perform : Operation → locals → W → option (list N * W) → Prop) (f : Function).
Abbreviation exec := (exec perform f).

(** What follows when the innermost of nested blocks has ended. *)
Inductive continue : list (list code) → ending (W:=W) → ending (W:=W) → Prop :=
  | continue_last o : continue [] o o
  | continue_exit next rest e w o1 o :
      exec next [] e w o1 → continue rest o1 o → continue (next :: rest) (Jumped 0 e w) o
  | continue_fell next rest e w o1 o :
      exec next [] e w o1 → continue rest o1 o → continue (next :: rest) (Fell [] e w) o
  | continue_out next rest n e w o :
      continue rest (Jumped n e w) o → continue (next :: rest) (Jumped (S n) e w) o
  | continue_finished next rest s o :
      continue rest (Finished s) o → continue (next :: rest) (Finished s) o.

Lemma exec_nest inner rest e w o :
  exec (nest inner rest) [] e w o ↔ ∃ o1, exec inner [] e w o1 ∧ continue rest o1 o.
Proof.
  revert inner o. induction rest as [|next rest IH]; intros inner o; cbn [nest].
  { split; [intros H; exists o; split; [done|constructor]|].
    intros (o1 & H & Hc). by inversion Hc; subst. }
  rewrite IH. split.
  - intros (o1 & H & Hc). inversion H; subst; eexists; (split; [eassumption|]);
      econstructor; eassumption.
  - intros (o1 & H & Hc). inversion Hc; subst; eexists; (split; [|eassumption]).
    + by eapply exec_block_exit.
    + by eapply exec_block_end.
    + by eapply exec_block_out.
    + by eapply exec_block_finished.
Qed.

(** A branch to a scheduled block goes there. *)
Lemma continue_jump rest n e w o :
  continue rest (Jumped n e w) o ↔
  match rest !! n with
  | Some next => ∃ o1, exec next [] e w o1 ∧ continue (drop (S n) rest) o1 o
  | None => o = Jumped (n - length rest) e w
  end.
Proof.
  revert n. induction rest as [|next rest IH]; intros n.
  { cbn. rewrite Nat.sub_0_r. split; [by inversion 1|intros ->; constructor]. }
  destruct n as [|n]; cbn [lookup list_lookup drop length].
  - split; [inversion 1; subst; eauto|]. intros (o1 & H & Hc). by econstructor.
  - change (S n - S (length rest))%nat with (n - length rest)%nat. rewrite <- IH. split.
    + by inversion 1.
    + by constructor.
Qed.

Lemma continue_done rest s o : continue rest (Finished s) o ↔ o = Finished s.
Proof.
  induction rest as [|next rest IH].
  - split; [by inversion 1|intros ->; constructor].
  - rewrite <- IH. split; [by inversion 1|by constructor].
Qed.
End nesting.

(** * The code of one block *)

Lemma set_all_app f vs vs' xs xs' e :
  length vs = length xs →
  set_all f e (vs ++ vs') (xs ++ xs') = set_all f (set_all f e vs xs) vs' xs'.
Proof.
  revert xs e. induction vs as [|v vs IH]; intros [|x xs] e H; try done.
  cbn [app set_all]. apply IH. by injection H.
Qed.

Lemma set_all_set f vs xs e v x :
  v ∉ vs → set_all f (set f e v x) vs xs = set f (set_all f e vs xs) v x.
Proof.
  revert xs e. induction vs as [|u vs IH]; intros [|y xs] e Hv; try done.
  apply not_elem_of_cons in Hv as [Huv Hv]. cbn [set_all]. rewrite <- IH by done. f_equal.
  unfold set. by apply insert_insert_ne.
Qed.

Lemma set_all_none f vs e : set_all f e vs [] = e.
Proof. by destruct vs. Qed.

(** Setting parameters from the last to the first is setting them in order,
    when they are distinct. *)
Lemma set_all_rev f vs xs e :
  NoDup vs → length vs = length xs →
  set_all f e (List.rev vs) (List.rev xs) = set_all f e vs xs.
Proof.
  intros Hnd. revert xs e. induction Hnd as [|v vs Hv _ IH]; intros [|x xs] e Hl; try done.
  injection Hl as Hl. cbn [List.rev set_all]. rewrite set_all_app by (by rewrite !length_rev).
  rewrite IH by done. cbn [set_all]. by rewrite set_all_set.
Qed.

Definition plains (l : list Wasm) : list code := List.map CPlain l.

Lemma flatten_plains l : flatten (plains l) = l.
Proof. induction l as [|i l IH]; [done|]. cbn. by f_equal. Qed.

Lemma plains_well_formed l : forallb plain l = true → forallb well_formed (plains l) = true.
Proof. induction l as [|i l IH]; [done|]. cbn. intros [-> H]%andb_true_iff. auto. Qed.

Lemma flatten_app cs cs' : flatten (cs ++ cs') = (flatten cs ++ flatten cs')%list.
Proof. apply flat_map_app. Qed.

Section block.
Context {W : Type} (perform : Operation → locals → W → option (list N * W) → Prop).
Context (f : Function) (index : gmap BlockId BasicBlock).
Abbreviation exec := (exec perform f).

Lemma exec_gets vs rest st e w o :
  exec (plains (List.map Wasm.LocalGet vs) ++ rest) st e w o ↔
  exec rest (List.rev (List.map (get e) vs) ++ st) e w o.
Proof.
  revert st. induction vs as [|v vs IH]; intros st; [done|].
  cbn [plains List.map List.rev app]. rewrite <- app_assoc. cbn [app]. rewrite <- IH. split.
  - by inversion 1; subst.
  - by constructor.
Qed.

Lemma exec_sets vs xs rest st e w o :
  length vs = length xs →
  exec (plains (List.map Wasm.LocalSet vs) ++ rest) (xs ++ st) e w o ↔
  exec rest st (set_all f e vs xs) w o.
Proof.
  revert xs e. induction vs as [|v vs IH]; intros [|x xs] e Hl; try done. injection Hl as Hl.
  cbn [plains List.map app set_all]. rewrite <- IH by done. split.
  - by inversion 1; subst.
  - by constructor.
Qed.

Lemma exec_branch rest n st e w o :
  exec (CPlain (Wasm.Br n) :: rest) st e w o ↔ o = Jumped n e w.
Proof. split; [by inversion 1; subst|intros ->; constructor]. Qed.

Lemma exec_get_iff v rest st e w o :
  exec (CPlain (Wasm.LocalGet v) :: rest) st e w o ↔ exec rest (get e v :: st) e w o.
Proof. split; [by inversion 1; subst|by constructor]. Qed.

Lemma exec_eqz_iff x rest st e w o :
  exec (CPlain Wasm.I32Eqz :: rest) (x :: st) e w o ↔
  exec rest ((if (x =? 0)%N then 1%N else 0%N) :: st) e w o.
Proof. split; [by inversion 1; subst|by constructor]. Qed.

Lemma exec_br_if n x rest st e w o :
  exec (CPlain (Wasm.BrIf n) :: rest) (x :: st) e w o ↔
  if (x =? 0)%N then exec rest st e w o else o = Jumped n e w.
Proof.
  destruct (N.eqb_spec x 0) as [->|Hx]; (split; [by inversion 1; subst|]).
  - by constructor.
  - intros ->. by constructor.
Qed.

(** An [if] whose arms end in branches past its label. *)
Lemma exec_if_branches t e' x nt ne rest st e w o (et ee : locals) :
  (∀ o, exec t [] e w o ↔ o = Jumped (S nt) et w) →
  (∀ o, exec e' [] e w o ↔ o = Jumped (S ne) ee w) →
  exec (CIf t e' :: rest) (x :: st) e w o ↔
  o = if (x =? 0)%N then Jumped ne ee w else Jumped nt et w.
Proof.
  intros Ht He. split.
  - intros H. inversion H as [| | | | | | | | | | | | | | | | | | |? ? ? ? ? ? ? ? H']; subst.
    destruct (x =? 0)%N; inversion H'; subst;
      match goal with H : ForwardEmit.exec _ _ _ [] _ _ _ |- _ => first [apply Ht in H|apply He in H] end;
      by simplify_eq.
  - intros ->. constructor. destruct (x =? 0)%N.
    + by apply exec_block_out, He.
    + by apply exec_block_out, Ht.
Qed.

(** What the operations of a block do; [None] is a trap. *)
Inductive runs : list Operation → locals → W → option locals → W → Prop :=
  | runs_end e w : runs [] e w (Some e) w
  | runs_next op ops e e' w r w' :
      scalar_effect f e op = Next e' → runs ops e' w r w' → runs (op :: ops) e w r w'
  | runs_trap op ops e w : scalar_effect f e op = Traps → runs (op :: ops) e w None w
  | runs_world op ops e w xs w1 r w' :
      scalar_effect f e op = World → perform op e w (Some (xs, w1)) →
      runs ops (set_all f e (operation_destinations op) xs) w1 r w' → runs (op :: ops) e w r w'
  | runs_world_trap op ops e w :
      scalar_effect f e op = World → perform op e w None → runs (op :: ops) e w None w.

(** A block is run from its start and left in state [s]. *)
Definition block_exits (b : BasicBlock) (e : locals) (w : W) (s : state W) : Prop :=
  ∃ r w', runs (operations b) e w r w' ∧
    match r with Some e' => leave f index e' w' (terminator b) = Some s | None => s = Trapped w' end.

Lemma exec_operations ops rest e w o :
  exec (plains (List.map Wasm.Operation ops) ++ rest) [] e w o ↔
  ∃ r w', runs ops e w r w' ∧
    match r with Some e' => exec rest [] e' w' o | None => o = Finished (Trapped w') end.
Proof.
  revert e w. induction ops as [|op ops IH]; intros e w.
  { cbn [List.map plains app]. split; [intros H; exists (Some e), w; split; [constructor|done]|].
    intros (r & w' & H & Ho). by inversion H; subst. }
  cbn [List.map plains app]. split.
  - inversion 1; subst.
    + match goal with H : exec _ _ _ _ _ |- _ => apply IH in H as (r & w' & Hr & Ho) end.
      exists r, w'. split; [by eapply runs_next|done].
    + exists None, w. split; [by constructor|done].
    + match goal with H : exec _ _ _ _ _ |- _ => apply IH in H as (r & w'' & Hr & Ho) end.
      exists r, w''. split; [by eapply runs_world|done].
    + exists None, w. split; [by apply runs_world_trap|done].
  - intros (r & w' & H & Ho). inversion H; subst.
    + eapply exec_next; [done|]. apply IH. eauto.
    + rewrite Ho. by apply exec_trap.
    + eapply exec_world; [done..|]. apply IH. eauto.
    + rewrite Ho. by apply exec_world_trap.
Qed.
End block.

Lemma index_from_fold g m bs m' :
  index_from g m bs = Ok m' → List.fold_left (λ m b, <[block_id b := b]> m) bs m = m'.
Proof.
  revert m. induction bs as [|b bs IH]; intros m; cbn; [by intros [= ->]|].
  destruct (m !! block_id b); [done|]. apply IH.
Qed.

Lemma try_local layout vs : try_each (local layout) vs = Ok tt ↔ ∀ v, v ∈ vs → v ∈ layout.
Proof.
  rewrite try_each_Ok. unfold local, fail_if. split; intros H v Hv; specialize (H v Hv).
  - by case_bool_decide.
  - by rewrite bool_decide_eq_true_2.
Qed.

Lemma scheduled_position order b i : positions order !! b = Some i → order !! i = Some b.
Proof.
  intros H. apply fold_insert_lookup in H as [H|H]; [by rewrite lookup_empty in H|].
  apply elem_of_lookup_imap in H as (j & x & [= -> ->] & Hx). done.
Qed.

Lemma cold_arm_true D t e (ts es : list ValueId) :
  cold_arm D t (length ts) e (length es) = Some true → ts = [].
Proof. unfold cold_arm. destruct ts; [done|]. by repeat case_bool_decide; cbn; repeat case_match. Qed.

Lemma cold_arm_false D t e (ts es : list ValueId) :
  cold_arm D t (length ts) e (length es) = Some false → es = [].
Proof. unfold cold_arm. destruct es; [done|]. by repeat case_bool_decide; cbn; repeat case_match. Qed.

Section emission.
Context {W : Type} (perform : Operation → locals → W → option (list N * W) → Prop).
Context (f : Function) (index : gmap BlockId BasicBlock).
Context (layout : gset ValueId) (functions signatures : gset N) (encodable : Operation → bool).
Context (escape : BlockId → option nat) (doomed_blocks : gset BlockId) (order : list BlockId).
Hypothesis indexed : index_blocks f = Ok index.
Hypothesis distinct : NoDup (List.flat_map block_definitions (blocks f)).
Hypothesis targets : ∀ id b t,
  index !! id = Some b → t ∈ successors (terminator b) → is_Some (index !! t).
(** Labels outside the scheduled blocks are not for those. *)
Hypothesis outer : ∀ b, b ∈ order → escape b = None.
Abbreviation exec := (exec perform f).

Lemma blocks_by_id_index : blocks_by_id f = index.
Proof using indexed. by eapply index_from_fold. Qed.

Lemma find_block target b :
  index !! target = Some b → List.find (λ b, (block_id b =? target)%N) (blocks f) = Some b.
Proof using indexed.
  intros E. apply (index_blocks_spec _ _ indexed) in E as [Hb <-].
  destruct (List.find _ (blocks f)) as [b'|] eqn:Ef.
  - apply List.find_some in Ef as [Hb' Hid%N.eqb_eq]. apply list_elem_of_In in Hb'.
    assert (index !! block_id b = Some b) as H1 by (by apply (index_blocks_spec _ _ indexed)).
    assert (index !! block_id b = Some b') as H2 by (by apply (index_blocks_spec _ _ indexed)).
    congruence.
  - exfalso. apply list_elem_of_In in Hb. pose proof (List.find_none _ _ Ef b Hb) as H.
    cbn in H. by rewrite N.eqb_refl in H.
Qed.

Lemma parameters_NoDup target b : index !! target = Some b → NoDup (block_parameters b).
Proof using indexed distinct.
  intros E. apply (index_blocks_spec _ _ indexed) in E as [Hb _].
  pose proof (flat_map_NoDup_part _ _ _ distinct Hb) as H. unfold block_definitions in H.
  by apply list.NoDup_app in H as [H _].
Qed.

(** Arguments are transferred as the graph's edge does. *)
Lemma emit_branch_arguments_exec target arguments code :
  emit_branch_arguments f layout target arguments = Ok code →
  ∃ b, index !! target = Some b ∧ forallb plain code = true ∧ ∀ rest st e w o,
    exec (plains code ++ rest) st e w o ↔
    exec rest st (set_all f e (block_parameters b) (List.map (get e) arguments)) w o.
Proof using indexed distinct.
  unfold emit_branch_arguments. rewrite blocks_by_id_index.
  destruct (index !! target) as [b|] eqn:E; [|done]. rewrite (find_block _ _ E).
  cbn [ok_or mbind result_bind]. intros [Hl H]%fail_if_Ok.
  apply negb_false_iff, Nat.eqb_eq in Hl. unfold emit_gets, emit_sets in H.
  apply result_bind_Ok in H as (gets & Hg & H). apply result_bind_Ok in Hg as ([] & _ & [= <-]).
  apply result_bind_Ok in H as (sets & Hs & [= <-]). apply result_bind_Ok in Hs as ([] & _ & [= <-]).
  exists b. split; [done|]. split.
  - rewrite forallb_app, andb_true_iff. split; apply List.forallb_forall; intros i Hi;
      apply List.in_map_iff in Hi as (v & <- & _); done.
  - intros rest st e w o. unfold plains. rewrite List.map_app, <- app_assoc.
    change (List.map CPlain (List.map Wasm.LocalGet arguments)) with
      (plains (List.map Wasm.LocalGet arguments)).
    rewrite exec_gets.
    change (List.map CPlain (List.map Wasm.LocalSet (List.rev (block_parameters b)))) with
      (plains (List.map Wasm.LocalSet (List.rev (block_parameters b)))).
    assert (length (block_parameters b) = length (List.map (get e) arguments)) as Hlen
      by (unfold block_parameters; by rewrite !length_map).
    rewrite exec_sets by (by rewrite !length_rev).
    by rewrite set_all_rev by (done || by eapply parameters_NoDup).
Qed.

(** The label of an [if] adds one to the depth. *)
Lemma branch_depth_if position target d :
  branch_depth escape order position target true = Ok d →
  ∃ d', d = S d' ∧ branch_depth escape order position target false = Ok d'.
Proof using outer.
  unfold branch_depth. destruct (positions order !! target) as [t|] eqn:Ep; cbn [mbind option_bind].
  - apply scheduled_position, list_elem_of_lookup_2, outer in Ep as ->. cbn [mbind option_bind].
    unfold depth. destruct (checked_sub t position) as [d1|]; cbn [mbind option_bind]; [|done].
    destruct (checked_sub d1 1) as [d2|]; cbn [mbind option_bind]; [|done].
    rewrite Nat.add_0_r. destruct (N.leb_spec (N.of_nat (d2 + 1)) u32_max) as [Hle|]; [|done].
    intros [= <-]. exists d2. split; [lia|]. by rewrite (proj2 (N.leb_le _ _)) by lia.
  - destruct (escape target) as [base|]; [|done]. cbn [mbind option_bind].
    destruct (_ && _) eqn:E; [|done]. apply andb_true_iff in E as [E1%N.leb_le E2%N.leb_le].
    intros [= <-]. exists (base + (length order - position - 1))%nat. split; [lia|].
    rewrite Nat.add_0_r. rewrite (proj2 (N.leb_le _ _)) by lia.
    rewrite (proj2 (N.leb_le _ _)) by lia. done.
Qed.
(** How a state in which a block is left shows in the code: a branch from
    the block at [position], or the end of the function. *)
Definition left_at (position : nat) (s : state W) (o : ending (W:=W)) : Prop :=
  match s with
  | Running target i e w =>
      i = 0%nat ∧ ∃ d, branch_depth escape order position target false = Ok d ∧ o = Jumped d e w
  | s => o = Finished s
  end.

(** Code that does what [leaving] says, when it is well nested. *)
Definition implements (position : nat) (code : list Wasm)
    (leaving : locals → W → option (state W)) : Prop :=
  ∃ cs, code = flatten cs ∧ forallb well_formed cs = true ∧
    ∀ e w o, exec cs [] e w o ↔ ∃ s, leaving e w = Some s ∧ left_at position s o.

Lemma enter_present target b e w arguments :
  index !! target = Some b →
  enter (W:=W) f index e w target arguments =
  Some (Running target 0 (set_all f e (block_parameters b) (List.map (get e) arguments)) w).
Proof. unfold enter. by intros ->. Qed.

(** A state reached by an edge is left by the branch to its block. *)
Lemma left_running position target d e w o :
  branch_depth escape order position target false = Ok d →
  o = Jumped d e w ↔ ∃ s, Some (Running target 0 e w) = Some s ∧ left_at position s o.
Proof.
  intros Hd. split.
  - intros ->. eexists. split; [done|]. cbn. eauto.
  - intros (s & [= <-] & _ & d' & Hd' & ->). congruence.
Qed.

Lemma emit_branch_implements position target arguments code :
  emit_branch f layout escape order position target arguments = Ok code →
  implements position code (λ e w, enter f index e w target arguments).
Proof using indexed distinct.
  unfold emit_branch. intros (d & Hd & H)%result_bind_Ok. apply result_bind_Ok in H as (args & Ha & [= <-]).
  destruct (emit_branch_arguments_exec _ _ _ Ha) as (b & Eb & Hp & Hexec).
  exists (plains args ++ [CPlain (Wasm.Br d)])%list. split_and!.
  - rewrite flatten_app, flatten_plains. done.
  - rewrite forallb_app, andb_true_iff. split; [by apply plains_well_formed|done].
  - intros e w o. rewrite Hexec, exec_branch, (enter_present _ _ _ _ _ Eb). by apply left_running.
Qed.

Lemma emit_cold_branch_implements position condition then_cold cold hot hot_arguments code :
  emit_cold_branch f layout escape order position condition then_cold cold hot hot_arguments = Ok code →
  is_Some (index !! cold) →
  implements position code (λ e w,
    if eqb then_cold (negb (get e condition =? 0)%N) then enter f index e w cold []
    else enter f index e w hot hot_arguments).
Proof using indexed distinct.
  unfold emit_cold_branch. intros (cd & Hcd & H)%result_bind_Ok [bc Ebc].
  apply result_bind_Ok in H as (hd & Hhd & H). apply result_bind_Ok in H as (g & Hg & H).
  apply result_bind_Ok in H as (args & Ha & [= <-]).
  unfold emit_gets in Hg. apply result_bind_Ok in Hg as ([] & _ & [= <-]).
  destruct (emit_branch_arguments_exec _ _ _ Ha) as (b & Eb & Hp & Hexec).
  set (tail := (CPlain (Wasm.BrIf cd) :: plains args ++ [CPlain (Wasm.Br hd)])%list).
  exists (CPlain (Wasm.LocalGet condition) ::
    (if then_cold then tail else CPlain Wasm.I32Eqz :: tail)). split_and!.
  - destruct then_cold; cbn [flat_map flatten_code app List.map]; unfold tail;
      cbn [flat_map flatten_code app]; by rewrite flatten_app, flatten_plains.
  - assert (forallb well_formed tail = true) as Ht.
    { unfold tail. cbn [forallb well_formed plain]. rewrite forallb_app.
      by rewrite plains_well_formed by done. }
    by destruct then_cold.
  - intros e w o.
    assert (∀ x, exec tail [x] e w o ↔
      o = if (x =? 0)%N
          then Jumped hd (set_all f e (block_parameters b) (List.map (get e) hot_arguments)) w
          else Jumped cd e w) as Htail.
    { intros x. unfold tail. rewrite exec_br_if. destruct (x =? 0)%N; [|done].
      by rewrite Hexec, exec_branch. }
    rewrite exec_get_iff.
    destruct then_cold; rewrite ?exec_eqz_iff, Htail; destruct (get e condition =? 0)%N eqn:Hz;
      cbn [negb eqb N.eqb];
      rewrite ?(enter_present _ _ _ _ _ Eb), ?(enter_present _ _ _ _ _ Ebc), ?set_all_none;
      by apply left_running.
Qed.
Lemma emit_branch_if_implements position condition then_target then_arguments else_target
    else_arguments code :
  emit_branch_if f layout escape doomed_blocks order position condition then_target then_arguments
    else_target else_arguments = Ok code →
  is_Some (index !! then_target) → is_Some (index !! else_target) →
  implements position code (λ e w, leave f index e w
    (Terminator.BranchIf condition then_target then_arguments else_target else_arguments)).
Proof using indexed distinct outer.
  unfold emit_branch_if. intros H Hthen Helse. cbn [leave].
  destruct (cold_arm _ _ _ _ _) as [[]|] eqn:Hcold.
  - apply cold_arm_true in Hcold as ->.
    apply emit_cold_branch_implements in H as (cs & -> & Hw & H); [|done].
    exists cs. split_and!; [done..|]. intros e w o. rewrite H.
    by destruct (get e condition =? 0)%N.
  - apply cold_arm_false in Hcold as ->.
    apply emit_cold_branch_implements in H as (cs & -> & Hw & H); [|done].
    exists cs. split_and!; [done..|]. intros e w o. rewrite H.
    by destruct (get e condition =? 0)%N.
  - apply result_bind_Ok in H as (td & Htd & H). apply result_bind_Ok in H as (ed & Hed & H).
    apply result_bind_Ok in H as (g & Hg & H). apply result_bind_Ok in H as (ta & Hta & H).
    apply result_bind_Ok in H as (ea & Hea & [= <-]).
    unfold emit_gets in Hg. apply result_bind_Ok in Hg as ([] & _ & [= <-]).
    apply branch_depth_if in Htd as (nt & -> & Htd). apply branch_depth_if in Hed as (ne & -> & Hed).
    destruct (emit_branch_arguments_exec _ _ _ Hta) as (bt & Ebt & Hpt & Hxt).
    destruct (emit_branch_arguments_exec _ _ _ Hea) as (be & Ebe & Hpe & Hxe).
    exists [CPlain (Wasm.LocalGet condition);
            CIf (plains ta ++ [CPlain (Wasm.Br (S nt))]) (plains ea ++ [CPlain (Wasm.Br (S ne))])].
    split_and!.
    + cbn [flat_map flatten_code app List.map]. rewrite !flatten_app, !flatten_plains.
      cbn [flat_map flatten_code app]. rewrite <- !app_assoc. cbn [app]. by rewrite <- !app_assoc.
    + cbn [forallb well_formed plain andb]. rewrite !forallb_app, !plains_well_formed by done. done.
    + intros e w o. rewrite exec_get_iff, exec_if_branches;
        [|intros o'; by rewrite Hxt, exec_branch|intros o'; by rewrite Hxe, exec_branch].
      destruct (get e condition =? 0)%N; rewrite ?(enter_present _ _ _ _ _ Ebt),
        ?(enter_present _ _ _ _ _ Ebe); by apply left_running.
Qed.

(** Operands pushed in order and an instruction that ends the function. *)
Lemma gets_implements position vs i (fin : locals → W → state W) :
  plain i = true → (∀ e w a b c d, fin e w ≠ Running a b c d) →
  (∀ e w o, exec [CPlain i] (List.rev (List.map (get e) vs)) e w o ↔ o = Finished (fin e w)) →
  implements position (List.map Wasm.LocalGet vs ++ [i]) (λ e w, Some (fin e w)).
Proof.
  intros Hi Hfin Hexec. exists (plains (List.map Wasm.LocalGet vs) ++ [CPlain i])%list. split_and!.
  - by rewrite flatten_app, flatten_plains.
  - rewrite forallb_app, plains_well_formed; [cbn; by rewrite Hi|]. apply List.forallb_forall.
    intros x (v & <- & _)%List.in_map_iff. done.
  - intros e w o. rewrite exec_gets, app_nil_r, Hexec. specialize (Hfin e w). split.
    + intros ->. eexists. split; [done|]. by destruct (fin e w); [exfalso; eapply Hfin|..].
    + intros (s & [= <-] & H). by destruct (fin e w); [exfalso; eapply Hfin|..].
Qed.

Lemma emit_terminator_implements position t code :
  emit_terminator layout functions signatures t = Ok code →
  implements position code (λ e w, leave f index e w t).
Proof.
  intros H. destruct t; cbn [emit_terminator] in H; [done|done|..];
    unfold emit_gets in H; cbn [leave].
  - apply result_bind_Ok in H as (g & Hg & [= <-]). apply result_bind_Ok in Hg as ([] & _ & [= <-]).
    apply gets_implements; [done..|]. intros e w o.
    split; [inversion 1; subst; by rewrite rev_involutive|intros ->].
    rewrite <- (rev_involutive (List.map (get e) values)) at 2. constructor.
  - apply result_bind_Ok in H as (g & Hg & [Hk [= <-]]%fail_if_Ok).
    apply result_bind_Ok in Hg as ([] & _ & [= <-]).
    apply gets_implements; [done..|]. intros e w o.
    split; [inversion 1; subst; by rewrite rev_involutive|intros ->].
    rewrite <- (rev_involutive (List.map (get e) (argument_uses arguments))) at 2. constructor.
  - apply result_bind_Ok in H as (g & Hg & H). apply result_bind_Ok in Hg as ([] & _ & [= <-]).
    apply result_bind_Ok in H as (g & Hg & [Hk [= <-]]%fail_if_Ok).
    apply result_bind_Ok in Hg as ([] & _ & [= <-]).
    change [Wasm.LocalGet callee] with (List.map Wasm.LocalGet [callee]).
    rewrite app_assoc, <- List.map_app.
    apply gets_implements; [done..|]. intros e w o. rewrite List.map_app, rev_app_distr.
    split; [inversion 1; subst; by rewrite rev_involutive|intros ->].
    rewrite <- (rev_involutive (List.map (get e) (argument_uses arguments))) at 2. constructor.
  - injection H as <-. apply (gets_implements position []); [done..|]. intros e w o.
    split; [by inversion 1; subst|intros ->; constructor].
  - injection H as <-. apply (gets_implements position []); [done..|]. intros e w o.
    split; [by inversion 1; subst|intros ->; constructor].
Qed.

Lemma emit_block_implements position id code :
  emit_block f layout functions signatures encodable escape doomed_blocks order position id = Ok code →
  ∃ b cs, index !! id = Some b ∧ code = flatten cs ∧ forallb well_formed cs = true ∧
    ∀ e w o, exec cs [] e w o ↔ ∃ s, block_exits perform f index b e w s ∧ left_at position s o.
Proof using indexed distinct targets outer.
  unfold emit_block. rewrite blocks_by_id_index. intros (b & Eb & H)%result_bind_Ok.
  destruct (index !! id) as [b'|] eqn:E; [|done]. injection Eb as ->.
  apply result_bind_Ok in H as ([] & _ & H). apply result_bind_Ok in H as (tail & Ht & [= <-]).
  assert (implements position tail (λ e w, leave f index e w (terminator b))) as (cs & -> & Hw & Hx).
  { pose proof (λ t, targets id b t E) as Htargets. destruct (terminator b) eqn:Et;
      cbn [emit_block_end] in Ht; try by apply emit_terminator_implements.
    - by apply emit_branch_implements.
    - apply emit_branch_if_implements; [done|apply Htargets; cbn; set_solver..]. }
  exists b, (plains (List.map Wasm.Operation (operations b)) ++ cs)%list. split_and!; [done| | |].
  - by rewrite flatten_app, flatten_plains.
  - rewrite forallb_app, Hw, plains_well_formed; [done|]. apply List.forallb_forall.
    intros x (v & <- & _)%List.in_map_iff. done.
  - intros e w o. rewrite exec_operations. unfold block_exits. split.
    + intros (r & w' & Hr & Ho). destruct r as [e'|].
      * apply Hx in Ho as (s & Hl & Hs). exists s. split; [by exists (Some e'), w'|done].
      * exists (Trapped w'). split; [by exists None, w'|done].
    + intros (s & (r & w' & Hr & Hs) & Ho). exists r, w'. split; [done|]. destruct r as [e'|].
      * apply Hx. eauto.
      * by rewrite Hs in Ho.
Qed.
(** Every edge of an emitted block has a branch. *)
Lemma emit_block_depths position id code b t :
  emit_block f layout functions signatures encodable escape doomed_blocks order position id = Ok code →
  index !! id = Some b → t ∈ successors (terminator b) →
  ∃ d, branch_depth escape order position t false = Ok d.
Proof using indexed outer.
  unfold emit_block. rewrite blocks_by_id_index. intros H Eb. rewrite Eb in H.
  cbn [ok_or mbind result_bind] in H. apply result_bind_Ok in H as ([] & _ & H).
  apply result_bind_Ok in H as (tail & Ht & _). destruct (terminator b) as [target arguments|c u ta v ea| | | | |];
    cbn [successors]; intros Hin; try by apply elem_of_nil in Hin.
  - apply list_elem_of_singleton in Hin as ->. cbn [emit_block_end] in Ht. unfold emit_branch in Ht.
    apply result_bind_Ok in Ht as (d & Hd & _). eauto.
  - cbn [emit_block_end] in Ht. unfold emit_branch_if, emit_cold_branch in Ht.
    destruct (cold_arm _ _ _ _ _) as [[]|];
      apply result_bind_Ok in Ht as (d1 & Hd1 & Ht); apply result_bind_Ok in Ht as (d2 & Hd2 & _).
    + apply elem_of_cons in Hin as [->| ->%list_elem_of_singleton]; eauto.
    + apply elem_of_cons in Hin as [->| ->%list_elem_of_singleton]; eauto.
    + apply branch_depth_if in Hd1 as (? & _ & ?), Hd2 as (? & _ & ?).
      apply elem_of_cons in Hin as [->| ->%list_elem_of_singleton]; eauto.
Qed.

(** The tree of the block at a position. *)
Record block_tree (position : nat) (id : BlockId) (cs : list code) : Prop := {
  tree_well_formed : forallb well_formed cs = true;
  tree_block : ∃ b, index !! id = Some b ∧
    (∀ e w o, exec cs [] e w o ↔ ∃ s, block_exits perform f index b e w s ∧ left_at position s o) ∧
    ∀ t, t ∈ successors (terminator b) → ∃ d, branch_depth escape order position t false = Ok d;
}.

Lemma emit_blocks_trees position rest emitted code emitted' :
  emit_blocks f layout functions signatures encodable escape doomed_blocks order position rest emitted
    = Ok (code, emitted') →
  ∃ ts, length ts = length rest ∧
    (∀ j id, rest !! j = Some id → ∃ cs, ts !! j = Some cs ∧ block_tree (position + j) id cs) ∧
    NoDup rest ∧ (∀ id, id ∈ rest → id ∉ emitted) ∧ emitted' = list_to_set rest ∪ emitted ∧
    code = match position, ts with
           | O, t :: ts => (flatten t ++ List.flat_map (λ t, Wasm.End :: flatten t) ts)%list
           | _, ts => List.flat_map (λ t, Wasm.End :: flatten t) ts
           end.
Proof using indexed distinct targets outer.
  revert position emitted code emitted'.
  induction rest as [|id rest IH]; intros position emitted code emitted' H; cbn [emit_blocks] in H.
  { injection H as <- <-. exists []. split_and!; [done|done|constructor| |set_solver|by destruct position].
    intros id Hid. by apply elem_of_nil in Hid. }
  apply fail_if_Ok in H as [Hnew%bool_decide_eq_false H].
  apply result_bind_Ok in H as (body & Hb & H). apply result_bind_Ok in H as ([more emitted1] & Hm & H).
  injection H as <- <-. destruct (IH _ _ _ _ Hm) as (ts & Hl & Hts & Hnd & Hfresh & -> & ->).
  destruct (emit_block_implements _ _ _ Hb) as (b & cs & Eb & -> & Hw & Hx).
  exists (cs :: ts). split_and!.
  - cbn. by rewrite Hl.
  - intros [|j] x Hj; cbn in Hj.
    + injection Hj as <-. exists cs. split; [done|]. rewrite Nat.add_0_r. split; [done|].
      exists b. split_and!; [done..|]. intros t Ht. by eapply emit_block_depths.
    + destruct (Hts j x Hj) as (cs' & Hcs & Htree). exists cs'. split; [done|].
      by rewrite Nat.add_succ_comm in Htree.
  - constructor; [|done]. intros Hin. apply (Hfresh id Hin). set_solver.
  - intros x [->|Hx']%elem_of_cons; [done|]. specialize (Hfresh x Hx'). set_solver.
  - cbn [list_to_set fst snd]. set_solver.
  - cbn [fst]. destruct position; cbn [Nat.eqb app List.flat_map]; done.
Qed.
End emission.

(** * The region as a whole *)

Section travel.
Context {W : Type} (perform : Operation → locals → W → option (list N * W) → Prop).
Context (f : Function) (index : gmap BlockId BasicBlock).

(** A block of the region about to run. *)
Definition at_block (order : list BlockId) (s : state W) : Prop :=
  ∃ id e w, s = Running id 0 e w ∧ id ∈ order.

(** From the start of a block through blocks of the region, until [s] is
    reached, which is a final state or the start of a block outside. *)
Inductive travels (order : list BlockId) : BlockId → locals → W → state W → Prop :=
  | travel_out id b e w s :
      index !! id = Some b → block_exits perform f index b e w s → ¬ at_block order s →
      travels order id e w s
  | travel_on id b e w id' e' w' s :
      index !! id = Some b → block_exits perform f index b e w (Running id' 0 e' w') →
      id' ∈ order → travels order id' e' w' s → travels order id e w s.

Lemma leave_target e w t id i e' w' :
  leave f index e w t = Some (Running (W:=W) id i e' w') → i = 0%nat ∧ id ∈ successors t.
Proof.
  destruct t; cbn [leave successors]; try done.
  - unfold enter. destruct (index !! target); [|done]. cbn. intros [= <- <- _ _]. set_solver.
  - unfold enter. destruct (_ =? 0)%N; (destruct (index !! _); [|done]); cbn; intros [= <- <- _ _]; set_solver.
Qed.

Lemma exits_target b e w id i e' w' :
  block_exits perform f index b e w (Running id i e' w') → i = 0%nat ∧ id ∈ successors (terminator b).
Proof. intros ([e1|] & w1 & _ & H); [by eapply leave_target|done]. Qed.

Context (escape : BlockId → option nat) (order : list BlockId) (ts : list (list code)).
Hypothesis outer : ∀ b, b ∈ order → escape b = None.
Hypothesis distinct : NoDup order.
Hypothesis trees : length ts = length order ∧ ∀ j id, order !! j = Some id →
  ∃ cs, ts !! j = Some cs ∧ block_tree perform f index escape order j id cs.

(** How the end of a journey shows outside the region. *)
Definition shown (s : state W) (o : ending (W:=W)) : Prop :=
  match s with
  | Running id i e w => i = 0%nat ∧ ∃ label, escape id = Some label ∧ o = Jumped label e w
  | s => o = Finished s
  end.

(** A branch from a scheduled block goes to a later one or leaves. *)
Lemma branch_depth_cases i target d :
  branch_depth escape order i target false = Ok d →
  (∃ j, order !! j = Some target ∧ (i < j)%nat ∧ d = (j - i - 1)%nat) ∨
  ((target ∉ order) ∧ ∃ base, escape target = Some base ∧ d = (base + (length order - i - 1))%nat).
Proof using outer.
  clear trees. unfold branch_depth. destruct (positions order !! target) as [j|] eqn:Ej; cbn [mbind option_bind].
  - apply scheduled_position in Ej. rewrite (outer target) by (by eapply list_elem_of_lookup_2).
    unfold depth. destruct (checked_sub j i) as [d1|] eqn:E1; cbn [mbind option_bind]; [|done].
    destruct (checked_sub d1 1) as [d2|] eqn:E2; cbn [mbind option_bind]; [|done].
    unfold checked_sub in E1, E2. destruct (Nat.ltb_spec j i); [done|].
    destruct (Nat.ltb_spec d1 1); [done|]. simplify_eq.
    destruct (_ <=? _)%N; [|done]. intros [= <-]. left. exists j. split_and!; [done|lia|lia].
  - destruct (escape target) as [base|] eqn:Ee; [|done]. cbn [mbind option_bind].
    destruct (_ && _); [|done]. intros [= <-]. right. split.
    + intros Hin. by rewrite (outer _ Hin) in Ee.
    + exists base. split; [done|lia].
Qed.

Lemma drop_later j i : (i < j)%nat → drop (S (j - i - 1)) (drop (S i) ts) = drop (S j) ts.
Proof using. clear trees. intros H. rewrite drop_drop. f_equal. lia. Qed.

(** The code from a scheduled block on is the journey from that block. *)
Lemma travels_exec i id cs e w o :
  order !! i = Some id → ts !! i = Some cs →
  (∃ o1, exec perform f cs [] e w o1 ∧ continue perform f (drop (S i) ts) o1 o) ↔
  ∃ s, travels order id e w s ∧ shown s o.
Proof using outer trees.
  destruct trees as [Hlen Htrees].
  remember (length order - i)%nat as n eqn:Hn. revert i id cs e w o Hn.
  induction n as [n IH] using lt_wf_ind. intros i id cs e w o -> Hi Hcs.
  destruct (Htrees i id Hi) as (cs' & Hcs' & [_ (b & Eb & Hexec & Hdepth)]). simplify_eq.
  apply lookup_lt_Some in Hi as Hlt.
  assert (∀ id' e' w' d, branch_depth escape order i id' false = Ok d →
    continue perform f (drop (S i) ts) (Jumped d e' w') o ↔
    if decide (id' ∈ order) then ∃ s, travels order id' e' w' s ∧ shown s o
    else shown (Running id' 0 e' w') o) as Hgo.
  { intros id' e' w' d Hd. rewrite continue_jump. apply branch_depth_cases in Hd
      as [(j & Hj & Hij & ->)|(Hout & base & Ebase & ->)].
    - rewrite decide_True by (by eapply list_elem_of_lookup_2).
      rewrite lookup_drop. replace (S i + (j - i - 1))%nat with j by lia.
      destruct (Htrees j id' Hj) as (cs1 & Hcs1 & _). rewrite Hcs1, drop_later by done.
      apply (IH (length order - j)%nat); [apply lookup_lt_Some in Hj; lia|done..].
    - rewrite decide_False by done. rewrite lookup_drop, lookup_ge_None_2 by lia.
      rewrite length_drop, Hlen. replace (base + (length order - i - 1) - (length order - S i))%nat
        with base by lia.
      cbn. rewrite Ebase. naive_solver. }
  split.
  - intros (o1 & (s & Hs & Hl)%Hexec & Hc). destruct s as [id' k e' w'| | | |]; cbn in Hl.
    1:{ destruct Hl as (-> & d & Hd & ->). apply (Hgo _ _ _ _ Hd) in Hc.
        destruct (decide (id' ∈ order)) as [Hin|Hout].
        - destruct Hc as (s & Ht & Ho). exists s. split; [by eapply travel_on|done].
        - exists (Running id' 0 e' w'). split; [|done]. eapply travel_out; [done..|].
          intros (? & ? & ? & [= <- <- <-] & ?). done. }
    all: rewrite Hl in Hc; apply continue_done in Hc; eexists;
      (split; [eapply travel_out; [exact Eb|exact Hs|]; by intros (? & ? & ? & ? & _)|exact Hc]).
  - intros (s & Ht & Ho). inversion Ht as [? b' ? ? ? Eb' Hs Hout|? b' ? ? id' e' w' ? Eb' Hs Hin Hrest];
      subst; rewrite Eb in Eb'; injection Eb' as <-.
    + destruct s as [id' k e' w'| | | |].
      1:{ destruct (exits_target _ _ _ _ _ _ _ Hs) as [-> Hsucc]. destruct (Hdepth _ Hsucc) as [d Hd].
          exists (Jumped d e' w'). split; [apply Hexec; eexists; split; [done|]; cbn; eauto|].
          apply (Hgo _ _ _ _ Hd). rewrite decide_False; [done|]. intros Hin. apply Hout.
          by exists id', e', w'. }
      all: eexists; (split; [apply Hexec; eexists; (split; [exact Hs|]); cbn; reflexivity|]);
        apply continue_done; exact Ho.
    + destruct (exits_target _ _ _ _ _ _ _ Hs) as [_ Hsucc]. destruct (Hdepth _ Hsucc) as [d Hd].
      exists (Jumped d e' w'). split; [apply Hexec; eexists; split; [done|]; cbn; eauto|].
      apply (Hgo _ _ _ _ Hd). rewrite decide_True by done. eauto.
Qed.
End travel.

(** * Journeys and steps *)

Section steps.
Context {W : Type} (perform : Operation → locals → W → option (list N * W) → Prop).
Context (f : Function) (index : gmap BlockId BasicBlock) (order : list BlockId).
Abbreviation step := (step perform f index).
Abbreviation travels := (travels perform f index order).

Definition inside_region (s : state W) : Prop := ∃ id i e w, s = Running id i e w ∧ id ∈ order.

(** A step of the graph's machine from a block of the region. *)
Definition region_step (s s' : state W) : Prop := inside_region s ∧ step s s'.

Lemma runs_steps id b i ops e w r w' :
  runs perform f ops e w r w' → index !! id = Some b → id ∈ order →
  drop i (operations b) = ops → (i ≤ length (operations b))%nat →
  rtc region_step (Running id i e w)
    match r with Some e' => Running id (length (operations b)) e' w' | None => Trapped w' end.
Proof.
  intros Hr Eb Hin. assert (∀ i e w s, step (Running id i e w) s → region_step (Running id i e w) s) as Hone.
  { intros j e0 w0 s Hs. split; [by exists id, j, e0, w0|done]. }
  revert i. induction Hr as [e w|op ops e e' w r w' He _ IH|op ops e w He|op ops e w xs w1 r w' He Hp _ IH
    |op ops e w He Hp]; intros i Hd Hi.
  { apply (f_equal length) in Hd. rewrite length_drop in Hd. cbn in Hd.
    by replace (length (operations b)) with i by lia. }
  all: apply drop_cons_lookup in Hd as (Hop & Hd); pose proof (lookup_lt_Some _ _ _ Hop) as Hle.
  - eapply rtc_l; [apply Hone; by eapply step_next|]. by apply IH.
  - eapply rtc_l; [apply Hone; by eapply step_trap|done].
  - eapply rtc_l; [apply Hone; by eapply step_world|]. by apply IH.
  - eapply rtc_l; [apply Hone; by eapply step_world_trap|done].
Qed.

Lemma exits_steps id b e w s :
  index !! id = Some b → id ∈ order → block_exits perform f index b e w s →
  rtc region_step (Running id 0 e w) s.
Proof.
  intros Eb Hin (r & w' & Hr & Hs).
  pose proof (runs_steps id b 0 _ e w r w' Hr Eb Hin eq_refl ltac:(lia)) as Hsteps.
  destruct r as [e'|]; [|by subst].
  eapply rtc_r; [exact Hsteps|]. split; [by eexists _, _, _, _|]. by eapply step_leave.
Qed.

Lemma travels_steps id e w s :
  id ∈ order → travels id e w s → rtc region_step (Running id 0 e w) s ∧ ¬ inside_region s.
Proof.
  intros Hin H. induction H as [id b e w s Eb Hs Hout|id b e w id' e' w' s Eb Hs Hin' _ IH].
  - split; [by eapply exits_steps|]. intros (id' & i & e' & w' & -> & Hid).
    destruct (exits_target _ _ _ _ _ _ _ _ _ _ Hs) as [-> _]. apply Hout. by exists id', e', w'.
  - destruct (IH Hin') as [Hr Hn]. split; [|done]. etrans; [by eapply exits_steps|done].
Qed.

(** The rest of a block from operation [i], and what follows. *)
Definition remainder (id : BlockId) (i : nat) (e : locals) (w : W) (s : state W) : Prop :=
  ∃ b r w1, index !! id = Some b ∧ runs perform f (drop i (operations b)) e w r w1 ∧
    match r with
    | None => s = Trapped w1
    | Some e1 => ∃ s1, leave f index e1 w1 (terminator b) = Some s1 ∧
        (s1 = s ∧ ¬ at_block order s1 ∨
         ∃ id' e' w', s1 = Running id' 0 e' w' ∧ id' ∈ order ∧ travels id' e' w' s)
    end.

Lemma remainder_travels id e w s : remainder id 0 e w s → travels id e w s.
Proof.
  intros (b & r & w1 & Eb & Hr & H). destruct r as [e1|].
  - destruct H as (s1 & Hl & [[-> Hn]|(id' & e' & w' & -> & Hin & Ht)]).
    + eapply travel_out; [done| |done]. by exists (Some e1), w1.
    + eapply travel_on; [done| |done|done]. by exists (Some e1), w1.
  - subst s. eapply travel_out; [done|by exists None, w1|]. by intros (? & ? & ? & ? & _).
Qed.

Lemma outside_steps s s' : ¬ inside_region s → rtc region_step s s' → s' = s.
Proof. intros Hs H. destruct H as [|? ? ? [Hin _] _]; done. Qed.

Lemma remainder_op id b i op e w r w1 s :
  index !! id = Some b → operations b !! i = Some op →
  runs perform f (op :: drop (S i) (operations b)) e w r w1 →
  match r with
  | None => s = Trapped w1
  | Some e1 => ∃ s1, leave f index e1 w1 (terminator b) = Some s1 ∧
      (s1 = s ∧ ¬ at_block order s1 ∨
       ∃ id' e' w', s1 = Running id' 0 e' w' ∧ id' ∈ order ∧ travels id' e' w' s)
  end →
  remainder id i e w s.
Proof. intros Eb Hop Hr H. exists b, r, w1. split_and!; [done| |done]. by rewrite (drop_S _ _ _ Hop). Qed.

Lemma steps_remainder s0 s :
  rtc region_step s0 s → ¬ inside_region s →
  ∀ id i e w, s0 = Running id i e w → id ∈ order → remainder id i e w s.
Proof.
  induction 1 as [s0|s0 s1 s [_ Hstep] Hrest IH]; intros Hs id i e w -> Hin.
  { exfalso. apply Hs. by exists id, i, e, w. }
  specialize (IH Hs).
  inversion Hstep as [? b ? op ? e1 ? Eb Hop He|? b ? op ? ? Eb Hop He|? b ? op ? ? xs w1 Eb Hop He Hp
    |? b ? op ? ? Eb Hop He Hp|? b ? ? ? Eb Hl]; subst.
  - destruct (IH _ _ _ _ eq_refl Hin) as (b1 & r & w1 & Eb' & Hr & H).
    rewrite Eb in Eb'. injection Eb' as <-. eapply remainder_op; [done|done| |done]. by eapply runs_next.
  - apply outside_steps in Hrest; [|by intros (? & ? & ? & ? & ? & _)]. subst s.
    eapply (remainder_op _ _ _ _ _ _ None); [done|done| |done]. by apply runs_trap.
  - destruct (IH _ _ _ _ eq_refl Hin) as (b1 & r & w2 & Eb' & Hr & H).
    rewrite Eb in Eb'. injection Eb' as <-. eapply remainder_op; [done|done| |done]. by eapply runs_world.
  - apply outside_steps in Hrest; [|by intros (? & ? & ? & ? & ? & _)]. subst s.
    eapply (remainder_op _ _ _ _ _ _ None); [done|done| |done]. by apply runs_world_trap.
  - exists b, (Some e), w. split_and!; [done|rewrite drop_all; constructor|]. exists s1. split; [done|].
    destruct s1 as [id' j e' w'| | | |].
    2-5: left; split; [|by intros (? & ? & ? & ? & _)]; symmetry; apply outside_steps; [|done];
      by intros (? & ? & ? & ? & ? & _).
    destruct (leave_target _ _ _ _ _ _ _ _ _ Hl) as [-> _]. destruct (decide (id' ∈ order)) as [Hin'|Hout].
    + right. exists id', e', w'. split_and!; [done|done|]. apply remainder_travels.
      by apply (IH _ _ _ _ eq_refl).
    + left. split.
      * symmetry. apply outside_steps; [|done]. intros (? & ? & ? & ? & Heq & ?). by simplify_eq.
      * intros (? & ? & ? & Heq & ?). by simplify_eq.
Qed.

(** Running block by block is running step by step until the region is left. *)
Lemma travels_region id e w s :
  id ∈ order → travels id e w s ↔ rtc region_step (Running id 0 e w) s ∧ ¬ inside_region s.
Proof.
  intros Hin. split; [by apply travels_steps|]. intros [H Hs].
  apply remainder_travels. by eapply steps_remainder.
Qed.
End steps.

(** * The whole function *)

Lemma targets_entries edges t : t ∈ List.flat_map snd (entries edges) → ∃ s, edge edges s t.
Proof.
  intros (p & Hp & Ht)%list_elem_of_In%List.in_flat_map. apply list_elem_of_In in Hp, Ht.
  unfold entries in Hp. apply list_elem_of_omap in Hp as (s & _ & Hs). exists s.
  destruct (edges !! s) as [ts|] eqn:E; [|done]. injection Hs as <-. by exists ts.
Qed.

(** What a function's code and its graph have to do with each other. *)
Section whole.
Context {W : Type} (perform : Operation → locals → W → option (list N * W) → Prop).
Context (f : Function) (index : gmap BlockId BasicBlock).
Context (layout : gset ValueId) (functions signatures : gset N) (encodable : Operation → bool).
Hypothesis indexed : index_blocks f = Ok index.

Lemma successors_by_block_lookup id :
  successors_by_block f !! id = (λ b, successors (terminator b)) <$> index !! id.
Proof using indexed. unfold successors_by_block. by rewrite lookup_fmap, (blocks_by_id_index f index indexed). Qed.

Lemma successors_by_block_present id : is_Some (successors_by_block f !! id) ↔ is_Some (index !! id).
Proof using indexed. by rewrite successors_by_block_lookup, fmap_is_Some. Qed.

(** The parts of a successful encoding. *)
Lemma encode_function_parts code :
  encode_function f layout functions signatures encodable = Done (Ok (Some code)) →
  ∃ doomed_blocks order more,
    scheduled (entry f) (successors_by_block f) order ∧ rooted (entry f) (successors_by_block f) ∧
    emit_blocks f layout functions signatures encodable (λ _, None) doomed_blocks order 0 order ∅
      = Ok more ∧
    code = (replicate (length order - 1) Wasm.Block ++ fst more)%list.
Proof using.
  unfold encode_function. destruct (List.find _ _) as [|]; [done|].
  destruct (doomed_spec (successors_by_block f) (trap_blocks f)) as (D & -> & _).
  cbn [mbind outcome_bind].
  pose proof (schedule_spec (entry f) (successors_by_block f)) as Hs.
  destruct (schedule _ _) as [[[order|]|]| |]; cbn [mbind outcome_bind]; [|done..].
  intros H. injection H as H. apply result_bind_Ok in H as ([code1 emitted] & Hf & H).
  unfold emit_forward in Hf. apply result_bind_Ok in Hf as (more & Hm & Hf). injection Hf as <- <-.
  apply fail_if_Ok in H as [_ H]. injection H as <-. exists D, order, more. by destruct Hs.
Qed.

Lemma enter_some e w target arguments id i e' w' :
  enter f index e w target arguments = Some (Running (W:=W) id i e' w') → is_Some (index !! id).
Proof using. unfold enter. destruct (index !! target) eqn:E; [|done]. cbn. intros [= <- _ _ _]. by rewrite E. Qed.

Lemma step_present s id i e w : step perform f index s (Running id i e w) → is_Some (index !! id).
Proof using.
  inversion 1 as [? ? ? ? ? ? ? Eb| |? ? ? ? ? ? ? ? Eb| |? b ? ? ? Eb Hl]; subst; [by eexists..|].
  destruct (terminator b); cbn [leave] in Hl; try done.
  - by eapply enter_some.
  - destruct (_ =? _)%N; by eapply enter_some.
Qed.

(** A final state is reached inside the graph when the journey ends there. *)
Lemma reaches_travels order b arguments w s :
  scheduled (entry f) (successors_by_block f) order → rooted (entry f) (successors_by_block f) →
  index !! entry f = Some b →
  final s ∧ reaches perform f index arguments w s ↔
  travels perform f index order (entry f) (set_all f ∅ (block_parameters b) arguments) w s.
Proof using indexed.
  intros (Hhead & _ & Hin & _) Hroot Eb.
  assert (entry f ∈ order) as He by apply Hin, Hroot.
  rewrite travels_region by done. unfold reaches, start. rewrite Eb. cbn [mbind option_bind].
  assert (∀ s0 s1, rtc (step perform f index) s0 s1 → final s1 → rtc (region_step perform f index order) s0 s1) as Hgo.
  { induction 1 as [|s0 s1 s2 H01 _ IH]; intros Hf; [done|]. eapply rtc_l; [|by apply IH]. split; [|done].
    inversion H01; subst; eexists _, _, _, _; (split; [done|]);
      apply Hin, successors_by_block_present; by eexists. }
  split.
  - intros (Hf & s0 & [= <-] & Hr). split; [by apply Hgo|]. intros (? & ? & ? & ? & -> & _). done.
  - intros [Hr Hn]. split.
    + destruct s as [id i e' w'| | | |]; try exact I. exfalso. apply Hn. exists id, i, e', w'. split; [done|].
      apply Hin, successors_by_block_present. apply rtc_inv_r in Hr as [[= <- _ _ _]|(s1 & _ & [_ Hs])];
        [by exists b|by eapply step_present].
    + eexists. split; [done|]. clear -Hr. induction Hr as [|? ? ? [_ H] _ IH]; [done|]. by eapply rtc_l.
Qed.
(** The code of the function, executed from the first block's parameters. *)
Lemma encoded_travels code :
  check_value_definitions f = Ok tt →
  encode_function f layout functions signatures encodable = Done (Ok (Some code)) →
  ∃ cs order, parse [] [] code = Some cs ∧
    scheduled (entry f) (successors_by_block f) order ∧ rooted (entry f) (successors_by_block f) ∧
    ∀ e w o, exec perform f cs [] e w o ↔
      ∃ s, travels perform f index order (entry f) e w s ∧ shown (λ _, None) s o.
Proof using indexed.
  intros Hdef (D & order & [flat emitted] & Hsch & Hroot & Hm & ->)%encode_function_parts.
  destruct Hsch as (Hhead & Hnd & Hin & Hf).
  assert (∀ id b t, index !! id = Some b → t ∈ successors (terminator b) → is_Some (index !! t)) as Htargets.
  { intros id b t Eb Ht. apply successors_by_block_present, (rooted_targets _ _ Hroot id).
    exists (successors (terminator b)). by rewrite successors_by_block_lookup, Eb. }
  destruct (emit_blocks_trees perform f index layout functions signatures encodable (λ _, None) D order
    indexed (check_value_definitions_NoDup _ Hdef) Htargets (λ _ _, eq_refl) _ _ _ _ _ Hm)
    as (ts & Hlen & Htrees & _ & _ & _ & ->).
  destruct order as [|first later]; [done|]. injection Hhead as ->.
  destruct ts as [|t ts]; [done|]. injection Hlen as Hlen.
  exists (nest t ts), (entry f :: later). split_and!; [|done|done|].
  - cbn [fst length]. replace (S (length later) - 1)%nat with (length ts) by lia. rewrite <- flatten_nest. apply parse_flatten, nest_well_formed.
    + destruct (Htrees 0%nat (entry f) eq_refl) as (cs & [= <-] & Htree). apply Htree.
    + apply list.Forall_forall. intros x [j Hj]%list_elem_of_lookup.
      destruct (lookup_lt_is_Some_2 later j) as [id Hid].
      { rewrite <- Hlen. by apply lookup_lt_Some in Hj. }
      destruct (Htrees (S j) id Hid) as (cs & Hcs & Htree). change (ts !! j = Some cs) in Hcs. rewrite Hj in Hcs. injection Hcs as <-.
      apply Htree.
  - intros e w o. rewrite exec_nest.
    apply (travels_exec perform f index (λ _, None) (entry f :: later) (t :: ts) (λ _ _, eq_refl)
      (conj (f_equal S Hlen) Htrees) 0 (entry f) t e w o eq_refl eq_refl).
Qed.
End whole.

(** * Nothing is refused *)

Definition transfers (t : Terminator) : list (BlockId * list ValueId) :=
  match t with
  | Terminator.Branch target arguments => [(target, arguments)]
  | Terminator.BranchIf _ then_target then_arguments else_target else_arguments =>
      [(then_target, then_arguments); (else_target, else_arguments)]
  | _ => []
  end.

(** What the layout, the indices and the checks before it give the encoder. *)
Record prepared (f : Function) (index : gmap BlockId BasicBlock) (layout : gset ValueId)
    (functions signatures : gset N) (encodable : Operation → bool) : Prop := {
  prepared_values id b v : index !! id = Some b →
    v ∈ (block_parameters b ++ terminator_uses (terminator b))%list → v ∈ layout;
  prepared_operations id b op : index !! id = Some b → op ∈ operations b → encodable op = true;
  prepared_callee id b site callee arguments : index !! id = Some b →
    terminator b = Terminator.TailCall site callee arguments → callee ∈ functions;
  prepared_signature id b site callee signature arguments : index !! id = Some b →
    terminator b = Terminator.VarTailCall site callee signature arguments → signature ∈ signatures;
  prepared_arity id b target arguments b' : index !! id = Some b →
    (target, arguments) ∈ transfers (terminator b) → index !! target = Some b' →
    length (parameters b') = length arguments;
  prepared_blocks : (N.of_nat (length (blocks f)) <= u32_max)%N;
}.

Lemma fold_insert_present {V} (l : list (ValueId * V)) (m : gmap ValueId V) v :
  is_Some (m !! v) ∨ v ∈ (fst <$> l) → is_Some (List.fold_left (λ m vs, <[vs.1 := vs.2]> m) l m !! v).
Proof.
  revert m. induction l as [|[k y] l IH]; intros m H; cbn [List.fold_left].
  { destruct H as [H|H]; [done|]. by apply elem_of_nil in H. }
  apply IH. cbn [fst snd]. destruct (decide (k = v)) as [->|Hk]; [left; by rewrite lookup_insert_eq|].
  rewrite lookup_insert_ne by done. destruct H as [H|H]; [by left|right].
  cbn in H. apply elem_of_cons in H as [->|H]; [by destruct Hk|done].
Qed.

Lemma positions_complete order b i : NoDup order → order !! i = Some b → positions order !! b = Some i.
Proof.
  intros Hnd Hi. destruct (fold_insert_present (imap (λ i b, (b, i)) order) ∅ b) as [j Hj].
  { right. apply list_elem_of_fmap. exists (b, i). split; [done|]. apply elem_of_lookup_imap. eauto. }
  assert (i = j) as <-; [|done]. eapply NoDup_lookup; [done..|]. by apply scheduled_position.
Qed.

Section complete.
Context (f : Function) (index : gmap BlockId BasicBlock).
Context (layout : gset ValueId) (functions signatures : gset N) (encodable : Operation → bool).
Context (doomed_blocks : gset BlockId) (order : list BlockId).
Hypothesis indexed : index_blocks f = Ok index.
Hypothesis ready : prepared f index layout functions signatures encodable.
Hypothesis schedules : scheduled (entry f) (successors_by_block f) order.
Hypothesis targets : ∀ id b t,
  index !! id = Some b → t ∈ successors (terminator b) → is_Some (index !! t).
Hypothesis short : (N.of_nat (length order) <= u32_max)%N.

Lemma emit_gets_Ok vs : (∀ v, v ∈ vs → v ∈ layout) → emit_gets layout vs = Ok (List.map Wasm.LocalGet vs).
Proof using. intros H. unfold emit_gets. by rewrite (proj2 (try_local layout vs) H). Qed.

Lemma emit_sets_Ok vs : (∀ v, v ∈ vs → v ∈ layout) → emit_sets layout vs = Ok (List.map Wasm.LocalSet vs).
Proof using. intros H. unfold emit_sets. by rewrite (proj2 (try_local layout vs) H). Qed.

Lemma branch_depth_total i id b t conditional :
  order !! i = Some id → index !! id = Some b → t ∈ successors (terminator b) →
  ∃ d, branch_depth (λ _, None) order i t conditional = Ok d.
Proof using indexed schedules targets short.
  intros Hi Eb Ht. destruct schedules as (_ & Hnd & Hin & Hf).
  assert (t ∈ order) as [j Hj]%list_elem_of_lookup.
  { apply Hin, (successors_by_block_present f index indexed). by eapply targets. }
  destruct (Hf id t j Hj) as (i' & Hlt & Hi').
  { exists (successors (terminator b)). by rewrite (successors_by_block_lookup f index indexed), Eb. }
  assert (i = i') as <- by (by eapply NoDup_lookup). apply lookup_lt_Some in Hj as Hlen.
  unfold branch_depth. rewrite (positions_complete _ _ _ Hnd Hj). cbn [mbind option_bind].
  unfold depth, checked_sub. destruct (Nat.ltb_spec j i); [lia|]. cbn [mbind option_bind].
  destruct (Nat.ltb_spec (j - i) 1); [lia|]. cbn [mbind option_bind].
  rewrite (proj2 (N.leb_le _ _)) by (destruct conditional; lia). eauto.
Qed.

Lemma emit_branch_arguments_total id b target arguments :
  index !! id = Some b → (target, arguments) ∈ transfers (terminator b) →
  ∃ code, emit_branch_arguments f layout target arguments = Ok code.
Proof using indexed ready targets.
  intros Eb Ht. assert (target ∈ successors (terminator b) ∧ ∀ v, v ∈ arguments → v ∈ layout) as [Hs Hv].
  { pose proof (prepared_values _ _ _ _ _ _ ready id b) as Hv. clear -Eb Ht Hv.
    destruct (terminator b); cbn in *; split; set_solver. }
  destruct (targets _ _ _ Eb Hs) as [b' Eb'].
  unfold emit_branch_arguments. rewrite (blocks_by_id_index f index indexed), Eb'.
  rewrite (find_block f index indexed _ _ Eb'). cbn [ok_or mbind result_bind].
  rewrite (prepared_arity _ _ _ _ _ _ ready id b target arguments b' Eb Ht Eb'), Nat.eqb_refl.
  cbn [negb fail_if mbind result_bind]. rewrite emit_gets_Ok by done. cbn [mbind result_bind].
  rewrite emit_sets_Ok; [cbn [mbind result_bind]; eauto|]. intros v Hin.
  apply (prepared_values _ _ _ _ _ _ ready target b' v Eb'), elem_of_app. left.
  by rewrite list_elem_of_In, <- in_rev, <- list_elem_of_In in Hin.
Qed.

Lemma emit_block_end_total i id b :
  order !! i = Some id → index !! id = Some b →
  ∃ code, emit_block_end f layout functions signatures (λ _, None) doomed_blocks order i (terminator b)
    = Ok code.
Proof using indexed ready schedules targets short.
  intros Hi Eb. pose proof (λ t c, branch_depth_total i id b t c Hi Eb) as Hdepth.
  pose proof (λ t a, emit_branch_arguments_total id b t a Eb) as Hargs.
  assert (∀ vs, (∀ v, v ∈ vs → v ∈ terminator_uses (terminator b)) →
    emit_gets layout vs = Ok (List.map Wasm.LocalGet vs)) as Hgets.
  { intros vs Hvs. apply emit_gets_Ok. intros v Hv. eapply (prepared_values _ _ _ _ _ _ ready); [done|].
    apply elem_of_app. right. by apply Hvs. }
  pose proof (prepared_callee _ _ _ _ _ _ ready id b) as Hcallee.
  pose proof (prepared_signature _ _ _ _ _ _ ready id b) as Hsig.
  destruct (terminator b) as [t a|c t ta e ea| | | | |]; cbn [emit_block_end emit_terminator].
  - unfold emit_branch. destruct (Hdepth t false) as [d ->]; [cbn; set_solver|].
    destruct (Hargs t a) as [code ->]; [cbn; set_solver|]. cbn [mbind result_bind]. eauto.
  - unfold emit_branch_if, emit_cold_branch.
    destruct (Hdepth t true) as [d1 ->]; [cbn; set_solver|].
    destruct (Hdepth t false) as [d2 ->]; [cbn; set_solver|].
    destruct (Hdepth e true) as [d3 ->]; [cbn; set_solver|].
    destruct (Hdepth e false) as [d4 ->]; [cbn; set_solver|].
    destruct (Hargs t ta) as [code1 ->]; [cbn; set_solver|].
    destruct (Hargs e ea) as [code2 ->]; [cbn; set_solver|].
    rewrite Hgets by (cbn; set_solver). destruct (cold_arm _ _ _ _ _) as [[]|]; cbn [mbind result_bind]; eauto.
  - rewrite Hgets by done. cbn [mbind result_bind]. eauto.
  - rewrite Hgets by done. rewrite bool_decide_eq_true_2 by (by eapply Hcallee).
    cbn [mbind result_bind negb fail_if]. eauto.
  - rewrite !Hgets by (cbn; set_solver). rewrite bool_decide_eq_true_2 by (by eapply Hsig).
    cbn [mbind result_bind negb fail_if]. eauto.
  - eauto.
  - eauto.
Qed.

Lemma emit_block_total i id :
  order !! i = Some id →
  ∃ code, emit_block f layout functions signatures encodable (λ _, None) doomed_blocks order i id = Ok code.
Proof using indexed ready schedules targets short.
  intros Hi. assert (is_Some (index !! id)) as [b Eb].
  { apply (successors_by_block_present f index indexed), schedules. by eapply list_elem_of_lookup_2. }
  unfold emit_block. rewrite (blocks_by_id_index f index indexed), Eb. cbn [ok_or mbind result_bind].
  rewrite (proj2 (try_each_Ok _ _)).
  2:{ intros op Hop. unfold emit_operation. by rewrite (prepared_operations _ _ _ _ _ _ ready id b op Eb Hop). }
  cbn [mbind result_bind]. destruct (emit_block_end_total i id b Hi Eb) as [code ->].
  cbn [mbind result_bind]. eauto.
Qed.

Lemma emit_blocks_total i rest emitted :
  drop i order = rest → (∀ b, b ∈ rest → b ∉ emitted) →
  ∃ code, emit_blocks f layout functions signatures encodable (λ _, None) doomed_blocks order i rest emitted
    = Ok (code, list_to_set rest ∪ emitted).
Proof using indexed ready schedules targets short.
  revert i emitted. induction rest as [|id rest IH]; intros i emitted Hd Hnew; cbn [emit_blocks].
  { exists []. do 2 f_equal. set_solver. }
  assert (NoDup (id :: rest)) as [Hid _]%list.NoDup_cons.
  { rewrite <- Hd. eapply sublist_NoDup; [apply schedules|apply sublist_drop]. }
  apply drop_cons_lookup in Hd as (Hi & Hd).
  rewrite bool_decide_eq_false_2 by (apply Hnew; set_solver). cbn [fail_if mbind result_bind].
  destruct (emit_block_total i id Hi) as [code ->]. cbn [mbind result_bind].
  destruct (IH (S i) ({[id]} ∪ emitted) Hd) as [more ->].
  { intros b Hb. specialize (Hnew b). set_solver. }
  cbn [mbind result_bind fst snd]. eexists. do 2 f_equal. cbn [list_to_set]. set_solver.
Qed.
End complete.

Lemma blocks_size f index : index_blocks f = Ok index → length (blocks f) = size index.
Proof.
  intros H. assert (∀ g m bs m', index_from g m bs = Ok m' → size m' = (length bs + size m)%nat) as Hs.
  { clear. intros g m bs. revert m. induction bs as [|b bs IH]; intros m m' H; cbn in H; [by injection H as <-|].
    destruct (m !! block_id b) eqn:E; [done|]. rewrite (IH _ _ H), map_size_insert_None by done. cbn. lia. }
  rewrite (Hs _ _ _ _ H). rewrite map_size_empty. lia.
Qed.

Lemma scheduled_size entry edges order : scheduled entry edges order → length order = size edges.
Proof.
  intros (_ & Hnd & Hin & _). rewrite <- size_dom, <- (size_list_to_set (C:=gset BlockId)) by done.
  f_equal. apply set_eq. intros b. by rewrite elem_of_list_to_set, elem_of_dom.
Qed.

(** * Cold blocks *)

Section cold.
Context {W : Type} (perform : Operation → locals → W → option (list N * W) → Prop).
Context (f : Function) (index : gmap BlockId BasicBlock).
Hypothesis indexed : index_blocks f = Ok index.
Abbreviation step := (step perform f index).
Abbreviation cold := (leads_to_trap (successors_by_block f) (trap_blocks f)).

Lemma trap_block_terminator id b :
  index !! id = Some b → id ∈ trap_blocks f →
  terminator b = Terminator.Trap ∨ terminator b = Terminator.Unreachable.
Proof using indexed.
  intros Eb (b' & <- & [Hb' Ht]%List.filter_In)%list_elem_of_In%List.in_map_iff.
  apply list_elem_of_In in Hb'. assert (index !! block_id b' = Some b') as Eb'
    by (by apply (index_blocks_spec _ _ indexed)).
  rewrite Eb in Eb'. injection Eb' as ->. destruct (terminator b'); try discriminate; auto.
Qed.

(** In a cold block, or trapped. *)
Definition cooling (s : state W) : Prop :=
  match s with Running id _ _ _ => cold id | Trapped _ => True | _ => False end.

Lemma leave_ahead b e w s :
  successors (terminator b) ≠ [] → leave f index e w (terminator b) = Some s →
  ∃ id e' w', s = Running (W:=W) id 0 e' w' ∧ id ∈ successors (terminator b).
Proof using.
  clear indexed. intros Hne Hl. assert (∀ t a, enter f index e w t a = Some s → ∃ id e' w', s = Running id 0 e' w' ∧ id = t) as He.
  { intros t a. unfold enter. destruct (index !! t); [|done]. cbn. intros [= <-]. by eexists _, _, _. }
  destruct (terminator b); cbn [leave successors] in *; try done.
  - destruct (He _ _ Hl) as (id & e' & w' & -> & ->). set_solver.
  - destruct (_ =? _)%N; destruct (He _ _ Hl) as (id & e' & w' & -> & ->); set_solver.
Qed.

Lemma leave_cold id b e w s :
  index !! id = Some b → cold id → leave f index e w (terminator b) = Some s → cooling s.
Proof using indexed.
  intros Eb Hc Hl. inversion Hc as [? Ht|? ts Ets Hne Hall]; subst.
  { destruct (trap_block_terminator id b Eb Ht) as [E|E]; rewrite E in Hl; by injection Hl as <-. }
  rewrite (successors_by_block_lookup f index indexed), Eb in Ets. injection Ets as <-.
  destruct (leave_ahead b e w s Hne Hl) as (id' & e' & w' & -> & Hin). by apply Hall.
Qed.

Lemma cooling_steps s s' : rtc step s s' → cooling s → cooling s'.
Proof using indexed.
  induction 1 as [|s s1 s2 Hs _ IH]; intros Hc; [done|]. apply IH. clear IH.
  inversion Hs; subst; cbn in Hc |- *; try done. by eapply leave_cold.
Qed.

Definition stops : state W → Prop := Acc (λ s' s, step s s').

Lemma trapped_stops w : stops (Trapped w).
Proof using. constructor. intros s Hs. inversion Hs. Qed.

Lemma block_stops id b i e w :
  index !! id = Some b → (∀ e w s, leave f index e w (terminator b) = Some s → stops s) →
  stops (Running id i e w).
Proof using.
  intros Eb Hl. remember (S (length (operations b)) - i)%nat as n eqn:Hn. revert i e w Hn.
  induction n as [n IH] using lt_wf_ind. intros i e w ->. constructor. intros s Hs.
  change (stops s).
  assert (∀ op, operations b !! i = Some op → ∀ e w, stops (Running id (S i) e w)) as Hnext.
  { intros op Hop%lookup_lt_Some e1 w1. apply (IH (S (length (operations b)) - S i)%nat); [lia|done]. }
  inversion Hs as [? b' ? ? ? ? ? Eb'|? b' ? ? ? ? Eb'|? b' ? ? ? ? ? ? Eb'|? b' ? ? ? ? Eb'|? b' ? ? ? Eb'];
    subst; rewrite Eb in Eb'; injection Eb' as <-; eauto using trapped_stops.
Qed.

(** From a cold block the machine stops. *)
Lemma cold_stops id i e w : cold id → stops (Running id i e w).
Proof using indexed.
  intros Hc. revert i e w. induction Hc as [id Ht|id ts Ets Hne _ IH]; intros i e w.
  all: destruct (index !! id) as [b|] eqn:Eb;
    [|constructor; intros s Hs; inversion Hs; congruence].
  - apply (block_stops id b); [done|]. intros e1 w1 s Hl.
    destruct (trap_block_terminator id b Eb Ht) as [E|E]; rewrite E in Hl; injection Hl as <-;
      apply trapped_stops.
  - apply (block_stops id b); [done|]. intros e1 w1 s Hl.
    rewrite (successors_by_block_lookup f index indexed), Eb in Ets. injection Ets as <-.
    destruct (leave_ahead b e1 w1 s Hne Hl) as (id' & e' & w' & -> & Hin). by apply IH.
Qed.
End cold.

(** ** A sample

    The larger of two sizes, a trap when they are equal; the arguments of the
    first branch change places. *)
Definition size_parameter (v : ValueId) : BlockParameter :=
  {| parameter := v; parameter_type := ValueType.Size; ownership := None |}.

Definition larger : Function :=
  {| function_id := 0; function_signature := 0; entry := 0;
     value_types := list_to_map [(0%N, ValueType.Size); (1%N, ValueType.Size); (2%N, ValueType.Bool);
       (3%N, ValueType.Size); (4%N, ValueType.Size); (5%N, ValueType.Bool); (6%N, ValueType.Size)];
     blocks := [
       {| block_id := 0; parameters := [size_parameter 0; size_parameter 1];
          operations := [Operation.Compare 2 Equal 0 1]; terminator := Terminator.BranchIf 2 4 [] 1 [1%N; 0%N] |};
       {| block_id := 1; parameters := [size_parameter 3; size_parameter 4];
          operations := [Operation.Compare 5 LessUnsigned 3 4]; terminator := Terminator.BranchIf 5 2 [] 3 [3%N] |};
       {| block_id := 2; parameters := []; operations := []; terminator := Terminator.Branch 3 [4%N] |};
       {| block_id := 3; parameters := [size_parameter 6]; operations := []; terminator := Terminator.Return [6%N] |};
       {| block_id := 4; parameters := []; operations := []; terminator := Terminator.Trap |}] |}.

Definition larger_index : gmap BlockId BasicBlock :=
  match index_blocks larger with Ok index => index | Err _ => ∅ end.

Definition larger_layout : gset ValueId := {[0; 1; 2; 3; 4; 5; 6]}%N.

Definition larger_code : list Wasm :=
  match encode_function larger larger_layout ∅ ∅ (λ _, true) with Done (Ok (Some code)) => code | _ => [] end.

Definition no_world (op : Operation) (e : locals) (w : unit) (r : option (list N * unit)) : Prop := False.

Lemma larger_prepared : prepared larger larger_index larger_layout ∅ ∅ (λ _, true).
Proof.
  assert (∀ id b, larger_index !! id = Some b → b ∈ blocks larger ∧ block_id b = id) as Hin
    by (intros id b H; by apply (index_blocks_spec larger larger_index eq_refl)).
  assert (∀ vs : list ValueId, forallb (λ v, bool_decide (v ∈ larger_layout)) vs = true →
    ∀ v, v ∈ vs → v ∈ larger_layout) as Hvs.
  { intros vs H v Hv%list_elem_of_In. eapply List.forallb_forall in H; [|done]. by apply bool_decide_eq_true in H. }
  split.
  - intros id b v [Hb _]%Hin. revert v. repeat (apply elem_of_cons in Hb as [->|Hb]; [by apply Hvs|]). by apply elem_of_nil in Hb.
  - done.
  - intros id b site callee arguments [Hb _]%Hin Ht.
    repeat (apply elem_of_cons in Hb as [->|Hb]; [discriminate Ht|]). by apply elem_of_nil in Hb.
  - intros id b site callee signature arguments [Hb _]%Hin Ht.
    repeat (apply elem_of_cons in Hb as [->|Hb]; [discriminate Ht|]). by apply elem_of_nil in Hb.
  - intros id b target arguments b' [Hb _]%Hin Ht [Hb' Hid]%Hin.
    repeat (apply elem_of_cons in Hb as [->|Hb]; [cbn in Ht|]); [..|by apply elem_of_nil in Hb];
    repeat (apply elem_of_cons in Ht as [[= -> ->]|Ht]); try (by apply elem_of_nil in Ht);
    repeat (apply elem_of_cons in Hb' as [->|Hb']; [cbn in Hid; try discriminate; reflexivity|]);
    by apply elem_of_nil in Hb'.
  - by vm_compute.
Qed.

Lemma step_leave_at {W} perform f index id b i e (w : W) s :
  index !! id = Some b → i = length (operations b) → leave f index e w (terminator b) = Some s →
  step perform f index (Running id i e w) s.
Proof. intros Eb -> Hl. by eapply step_leave. Qed.

Lemma larger_run : reaches no_world larger larger_index [7%N; 5%N] tt (Returned [7%N] tt).
Proof.
  eexists. split; [vm_compute; reflexivity|].
  do 6 (eapply rtc_l; [first [eapply step_next; [vm_compute; reflexivity..]
    |eapply step_leave_at; [vm_compute; reflexivity..]]|]). done.
Qed.

(** * Properties *)

(** C6: The code emitted for an acyclic function is the function: it is well
    nested, and executed as WebAssembly on any arguments and world it ends
    exactly in the final states (returns, tail calls, traps) that the
    control-flow graph reaches, and in nothing else; no branch leaves it. *)
Theorem forward_emission_exact {W} perform f index layout functions signatures encodable code :
  index_blocks f = Ok index → check_value_definitions f = Ok tt →
  encode_function f layout functions signatures encodable = Done (Ok (Some code)) →
  ∃ cs b, parse [] [] code = Some cs ∧ index !! entry f = Some b ∧
    ∀ arguments (w : W) o,
      exec perform f cs [] (set_all f ∅ (block_parameters b) arguments) w o ↔
      ∃ s, o = Finished s ∧ final s ∧ reaches perform f index arguments w s.
Proof.
  intros Hi Hdef Hcode.
  destruct (encoded_travels perform f index _ _ _ _ Hi code Hdef Hcode) as (cs & order & Hcs & Hsch & Hroot & Hx).
  destruct (proj1 (successors_by_block_present f index Hi _) (rooted_entry _ _ Hroot)) as [b Eb].
  exists cs, b. split_and!; [done..|]. intros arguments w o. rewrite Hx. split.
  - intros (s & Ht & Ho). pose proof Ht as Hr. apply (reaches_travels _ _ _ Hi) in Hr as [Hf Hr]; [|done..].
    exists s. destruct s; [done|by cbn in Ho..].
  - intros (s & -> & Hf & Hr). exists s. split; [by apply (reaches_travels _ _ _ Hi order b)|].
    by destruct s.
Qed.

Lemma forward_emission_exact_witness :
  ∃ cs b, parse [] [] larger_code = Some cs ∧ larger_index !! entry larger = Some b ∧
    exec no_world larger cs [] (set_all larger ∅ (block_parameters b) [7%N; 5%N]) tt
      (Finished (Returned [7%N] tt)).
Proof.
  destruct (forward_emission_exact no_world larger larger_index larger_layout ∅ ∅ (λ _, true) larger_code
    ltac:(by vm_compute) ltac:(by vm_compute) ltac:(by vm_compute)) as (cs & b & Hcs & Eb & Hx).
  exists cs, b. split; [exact Hcs|]. split; [exact Eb|]. apply Hx.
  exists (Returned [7%N] tt). split; [reflexivity|]. split; [exact I|]. exact larger_run.
Defined.

(** C7: Nothing is refused that can be encoded: when every value has a local,
    callees and signatures have an index and branches have the arity of their
    target, the encoder returns; it emits code precisely when every block is
    reached and the graph has no cycle, hands a cyclic graph to the loop
    encoder, and fails precisely when a target is missing or a block is not
    reached. *)
Theorem forward_emission_total f index layout functions signatures encodable :
  index_blocks f = Ok index → prepared f index layout functions signatures encodable →
  ∃ r, encode_function f layout functions signatures encodable = Done r ∧
    match r with
    | Ok (Some _) => rooted (entry f) (successors_by_block f) ∧
        ∀ b, ¬ tc (edge (successors_by_block f)) b b
    | Ok None => rooted (entry f) (successors_by_block f) ∧
        ∃ b, tc (edge (successors_by_block f)) b b
    | Err _ => ¬ rooted (entry f) (successors_by_block f)
    end.
Proof.
  intros Hi Hp. unfold encode_function. rewrite (blocks_by_id_index f index Hi).
  destruct (List.find _ _) as [t|] eqn:Ef.
  { eexists. split; [done|]. apply List.find_some in Ef as [Ht%list_elem_of_In Hn]. intros Hr.
    apply targets_entries in Ht as [s0 Hs]. pose proof (rooted_targets _ _ Hr _ _ Hs) as Hp'.
    apply (successors_by_block_present f index Hi) in Hp'. by rewrite bool_decide_eq_true_2 in Hn. }
  destruct (doomed_spec (successors_by_block f) (trap_blocks f)) as (D & -> & _).
  cbn [mbind outcome_bind]. pose proof (schedule_spec (entry f) (successors_by_block f)) as Hs.
  destruct (schedule _ _) as [[[order|]|]| |]; cbn [mbind outcome_bind]; [|eauto|eauto|done..].
  destruct Hs as [Hr Hs]. pose proof (scheduled_size _ _ _ Hs) as Hlen.
  assert (length (blocks f) = length order) as Hsize.
  { rewrite Hlen, (blocks_size f index Hi). unfold successors_by_block.
    by rewrite map_size_fmap, (blocks_by_id_index f index Hi). }
  destruct (emit_blocks_total f index layout functions signatures encodable D order Hi Hp Hs) with (i:=0%nat)
    (rest:=order) (emitted:=∅ : gset BlockId) as [code Hcode]; [| |done|set_solver|].
  - intros id b t Eb Ht. apply (successors_by_block_present f index Hi), (rooted_targets _ _ Hr id).
    exists (successors (terminator b)). by rewrite (successors_by_block_lookup f index Hi), Eb.
  - rewrite <- Hsize. apply Hp.
  - unfold emit_forward. rewrite Hcode. cbn [mbind result_bind fst snd].
    rewrite (right_id_L ∅ union), size_list_to_set, Hsize, Nat.eqb_refl by apply Hs.
    cbn [negb fail_if mbind result_bind]. eexists. split; [done|]. split; [done|].
    by eapply scheduled_acyclic.
Qed.

Lemma forward_emission_total_witness :
  ∃ r, encode_function larger larger_layout ∅ ∅ (λ _, true) = Done r ∧
    match r with Ok (Some _) => True | _ => False end.
Proof.
  destruct (forward_emission_total larger larger_index larger_layout ∅ ∅ (λ _, true) ltac:(by vm_compute)
    larger_prepared) as (r & Hr & _).
  exists r. split; [exact Hr|]. vm_compute in Hr. injection Hr as <-. exact I.
Defined.

(** The blocks marked as cold are those from which every path ends in a
    trap, and a run from one of them stops, in no final state but a trap. *)
Theorem doomed_runs_trap {W} perform f index id i e (w : W) :
  index_blocks f = Ok index →
  ∃ cold, doomed (successors_by_block f) (trap_blocks f) = Done cold ∧
    (∀ b, b ∈ cold ↔ leads_to_trap (successors_by_block f) (trap_blocks f) b) ∧
    (id ∈ cold →
     Acc (λ s' s, step perform f index s s') (Running id i e w) ∧
     ∀ s, rtc (step perform f index) (Running id i e w) s → final s → ∃ w', s = Trapped w').
Proof.
  intros Hi. destruct (doomed_spec (successors_by_block f) (trap_blocks f)) as (D & HD & Hspec).
  exists D. split_and!; [done|done|]. intros Hc%Hspec. split; [by apply cold_stops|].
  intros s Hr Hf. apply (cooling_steps perform f index Hi) in Hr; [|done].
  destruct s; try done. eauto.
Qed.

Lemma doomed_runs_trap_witness :
  ∃ s, rtc (step no_world larger larger_index) (Running 4 0 ∅ tt) s ∧ s = Trapped tt ∧
    Acc (λ s' s, step no_world larger larger_index s s') (Running 4 0 ∅ tt).
Proof.
  destruct (doomed_runs_trap no_world larger larger_index 4 0 ∅ tt ltac:(by vm_compute))
    as (cold & Hc & _ & Hrun).
  assert (4%N ∈ cold) as H4 by (vm_compute in Hc; injection Hc as <-; by vm_compute).
  exists (Trapped tt). split; [|split; [reflexivity|exact (proj1 (Hrun H4))]].
  eapply rtc_l; [eapply step_leave_at; [vm_compute; reflexivity..]|apply rtc_refl].
Defined.
