(* ===== verification/GuardAnalysis.v ===== *)
(** * GuardAnalysis: which guards are implied

    Models [implied_guards] and [redundant_bounds_guards] of
    [crates/witchy-wir/src/canonical_safewir/analysis.rs]: a forward dataflow
    over the blocks of a function that collects what guards, branches and
    width changes prove of its scalar values.  [raw_byte_layouts] is the
    argument [raw_bytes], the set of layouts it found.  The worklist runs on
    fuel; running out is [Panic].

    The theorems on this file's definitions are in [GuardTermination] and
    [GuardSound]. *)

From S2P Require Import Prelude SafeWir.

(** ** Facts *)

Inductive Operand : Set := Value (v : ValueId) | Constant (c : N).

#[export] Instance operand_eq_dec : EqDecision Operand.
Proof. solve_decision. Defined.

#[export] Instance operand_countable : Countable Operand.
Proof.
  apply (inj_countable' (λ o, match o with Value v => inl v | Constant c => inr c end)
           (λ s, match s with inl v => Value v | inr c => Constant c end)).
  by intros [].
Defined.

Definition Relation : Set := ComparisonOperator * Operand * Operand.
Definition IntBound : Set := ComparisonOperator * ValueId * ValueId.

#[export] Instance relation_eq_dec : EqDecision Relation := _.
#[export] Instance relation_countable : Countable Relation := _.
#[export] Instance int_bound_eq_dec : EqDecision IntBound := _.
#[export] Instance int_bound_countable : Countable IntBound := _.

Record Facts : Type := {
  relations : gset Relation;
  upper : gmap ValueId N;
  int_bounds : gset IntBound;
}.

#[export] Instance facts_eq_dec : EqDecision Facts.
Proof. solve_decision. Defined.

(** [Facts::default()] *)
Definition no_facts : Facts := {| relations := ∅; upper := ∅; int_bounds := ∅ |}.

Definition meet_bound (a b : option N) : option N :=
  match a, b with Some a, Some b => Some (N.max a b) | _, _ => None end.

Definition meet (self other : Facts) : Facts := {|
  relations := relations self ∩ relations other;
  upper := merge meet_bound (upper self) (upper other);
  int_bounds := int_bounds self ∩ int_bounds other;
|}.

(** [iter.min()] *)
Fixpoint minimum (l : list N) : option N :=
  match l with
  | [] => None
  | x :: l => match minimum l with None => Some x | Some m => Some (N.min x m) end
  end.

Definition checked_sub1 (limit : N) : option N := if (limit =? 0)%N then None else Some (limit - 1)%N.

(** The bound a relation against a constant gives [value]. *)
Definition relational_bound (value : ValueId) (r : Relation) : option N :=
  match r with
  | (operator, Value l, Constant limit) =>
      if (l =? value)%N
      then match operator with
           | LessUnsigned => checked_sub1 limit
           | LessEqualUnsigned => Some limit
           | _ => None
           end
      else None
  | _ => None
  end.

Definition upper_of (self : Facts) (value : ValueId) (extra : gmap ValueId N) : option N :=
  minimum (option_list (upper self !! value)
           ++ omap (relational_bound value) (elements (relations self))
           ++ option_list (extra !! value)).

Definition at_most (self : Facts) (l r : Operand) : bool :=
  bool_decide ((LessUnsigned, l, r) ∈ relations self) || bool_decide ((LessEqualUnsigned, l, r) ∈ relations self).

Definition is_value (o : Operand) : bool := match o with Value _ => true | Constant _ => false end.
Definition is_constant (o : Operand) : bool := match o with Value _ => false | Constant _ => true end.

Definition proves (self : Facts) (operator : ComparisonOperator) (l r : Operand) : bool :=
  if bool_decide ((LessUnsigned, l, r) ∈ relations self)
     || bool_decide (operator = LessEqualUnsigned) && at_most self l r
  then true
  else bool_decide (operator = LessUnsigned)
       && existsb (λ '(first, from, middle),
            bool_decide (first = LessUnsigned) && bool_decide (from = l) && is_value middle && at_most self middle r)
            (elements (relations self)).

Definition bound (self : Facts) (value : ValueId) (up : N) : Facts :=
  let up := match upper self !! value with Some b => N.min b up | None => up end in
  {| relations := relations self; upper := <[value := up]> (upper self); int_bounds := int_bounds self |}.

Definition add_relation (self : Facts) (r : Relation) : Facts :=
  {| relations := {[r]} ∪ relations self; upper := upper self; int_bounds := int_bounds self |}.

Definition survives (arguments parameters : list ValueId) (v : ValueId) : bool :=
  negb (bool_decide (v ∈ arguments)) && negb (bool_decide (v ∈ parameters)).

Definition operand_survives (arguments parameters : list ValueId) (o : Operand) : bool :=
  match o with Value v => survives arguments parameters v | Constant _ => true end.

Definition across (self : Facts) (arguments parameters : list ValueId) : Facts :=
  let kept := survives arguments parameters in
  let operand := operand_survives arguments parameters in
  {| relations := filter (λ r : Relation, operand r.1.2 && operand r.2 = true) (relations self);
     upper := filter (λ vb : ValueId * N, kept vb.1 = true) (upper self);
     int_bounds := filter (λ r : IntBound, kept r.1.2 && kept r.2 = true) (int_bounds self) |}.

(** [widened_size_bounds] *)
Definition widened_size_bounds (facts : Facts) : gmap ValueId N :=
  List.fold_left (λ bounds '(operator, int, size),
    match upper_of facts size ∅ with
    | None => bounds
    | Some up =>
        let up := if bool_decide (operator = LessUnsigned) then (up - 1)%N else up in
        let b := default up (bounds !! int) in
        <[int := N.min b up]> bounds
    end) (elements (int_bounds facts)) ∅.

(** ** What the operations of the function define *)

Record Tables : Type := {
  constants : gmap ValueId N;
  comparisons : gmap ValueId (ComparisonOperator * ValueId * ValueId);
  widened : gmap ValueId ValueId;
}.

Definition add_constant (t : Tables) (v : ValueId) (c : N) : Tables :=
  {| constants := <[v := c]> (constants t); comparisons := comparisons t; widened := widened t |}.

Definition record_definition (t : Tables) (operation : Operation) : Tables :=
  match operation with
  | Operation.ConstSize destination value => add_constant t destination value
  | Operation.ConstInt destination value =>
      if (0 <=? value)%Z then add_constant t destination (Z.to_N value) else t
  | Operation.Compare destination operator l r =>
      {| constants := constants t; comparisons := <[destination := (operator, l, r)]> (comparisons t);
         widened := widened t |}
  | Operation.WidenSize destination value =>
      {| constants := constants t; comparisons := comparisons t;
         widened := <[destination := value]> (widened t) |}
  | _ => t
  end.

Definition no_tables : Tables := {| constants := ∅; comparisons := ∅; widened := ∅ |}.

Definition tables (f : Function) : Tables :=
  List.fold_left record_definition (List.flat_map operations (blocks f)) no_tables.

Definition operand (t : Tables) (v : ValueId) : Operand :=
  match constants t !! v with Some c => Constant c | None => Value v end.

Definition value_type (f : Function) (v : ValueId) : option ValueType := value_types f !! v.

Definition unsigned_order (o : ComparisonOperator) : bool :=
  match o with LessUnsigned | LessEqualUnsigned => true | _ => false end.

Definition size_relation (f : Function) (t : Tables) (condition : ValueId) : option Relation :=
  match comparisons t !! condition with
  | Some (operator, l, r) =>
      if unsigned_order operator && bool_decide (value_type f l = Some ValueType.Size)
         && bool_decide (value_type f r = Some ValueType.Size)
      then Some (operator, operand t l, operand t r) else None
  | None => None
  end.

Definition guarded (f : Function) (t : Tables) (operation : Operation) : option Relation :=
  match operation with
  | Operation.Guard condition (Bounds | Arithmetic) => size_relation f t condition
  | _ => None
  end.

(** An operation after which an earlier bounds guard is not trusted. *)
Definition invalidates (f : Function) (operation : Operation) : bool :=
  match operation with
  | Operation.UpdateCount _ _ | Operation.Reclaim _ => true
  | Operation.Load _ _ transfer =>
      match transfer with TakeLast | TakeNullableUnique | TakeOwnedField => true | _ => false end
  | Operation.Call _ _ arguments | Operation.VarCall _ _ _ arguments =>
      existsb (λ a, match a with
                    | Move v => match value_type f v with Some (ValueType.Ref _) => true | _ => false end
                    | CallValue _ => false
                    end) arguments
  | _ => false
  end.

Definition raw_element (f : Function) (raw_bytes : gset LayoutId) (place : Place) : bool :=
  match projection place with
  | Element _ =>
      bool_decide (place_type place = ValueType.Size)
      && match value_type f (object place) with
         | Some (ValueType.Ref layout) => bool_decide (layout ∈ raw_bytes)
         | _ => false
         end
  | _ => false
  end.

Definition u32_max : N := 2 ^ 32 - 1.

Definition narrowed (t : Tables) (facts : Facts) (destination value : ValueId) : gset Relation :=
  list_to_set (omap (λ '(operator, l, size),
    if (l =? value)%N then Some (operator, Value destination, operand t size) else None)
    (elements (int_bounds facts))).

(** The facts an operation adds, guards aside ([step]). *)
Definition step_facts (f : Function) (t : Tables) (raw_bytes : gset LayoutId) (facts : Facts) (operation : Operation)
  : Facts :=
  if invalidates f operation
  then {| relations := filter (λ r : Relation, is_constant r.2 = true) (relations facts);
          upper := upper facts; int_bounds := int_bounds facts |}
  else
    match operation with
    | Operation.Load destination place _ =>
        if raw_element f raw_bytes place then bound facts destination 255 else facts
    | Operation.WidenSize destination value =>
        match upper facts !! value with Some up => bound facts destination up | None => facts end
    | Operation.NarrowSize destination value _ =>
        let facts' := match upper facts !! value with
                      | Some up => bound facts destination (N.min up u32_max)
                      | None => facts
                      end in
        {| relations := narrowed t facts' destination value ∪ relations facts';
           upper := upper facts'; int_bounds := int_bounds facts' |}
    | _ => facts
    end.

(** The facts a true branch on [condition] adds ([assume]). *)
Definition assume_true (f : Function) (t : Tables) (facts : Facts) (condition : ValueId) : Facts :=
  match comparisons t !! condition with
  | Some (operator, l, r) =>
      if unsigned_order operator then
        let strict := bool_decide (operator = LessUnsigned) in
        let kind := value_type f l in
        let is_int := bool_decide (kind = Some ValueType.Int) in
        let is_size := bool_decide (kind = Some ValueType.Size) in
        if (is_int || is_size) && bool_decide (value_type f r = kind) then
          let facts := match constants t !! r with
                       | Some limit =>
                           match (if strict then checked_sub1 limit else Some limit) with
                           | Some up => bound facts l up
                           | None => facts
                           end
                       | None => facts
                       end in
          let facts := match (if is_int then widened t !! r else None) with
                       | Some size => {| relations := relations facts; upper := upper facts;
                                         int_bounds := {[(operator, l, size)]} ∪ int_bounds facts |}
                       | None => facts
                       end in
          if strict && is_size then add_relation facts (operator, operand t l, operand t r) else facts
        else facts
      else facts
  | None => facts
  end.

(** ** The dataflow *)

Definition Point : Set := BlockId * nat.

Section flow.
Context (f : Function) (t : Tables) (raw_bytes : gset LayoutId) (contributes : Point → bool).

(** One operation of a block: a guard that contributes, then the step. *)
Definition operation_facts (facts : Facts) (at_ : Point) (operation : Operation) : Facts :=
  let facts := match guarded f t operation with
               | Some fact => if contributes at_ then add_relation facts fact else facts
               | None => facts
               end in
  step_facts f t raw_bytes facts operation.

Fixpoint block_facts (block : BlockId) (position : nat) (ops : list Operation) (facts : Facts) : Facts :=
  match ops with
  | [] => facts
  | op :: ops => block_facts block (S position) ops (operation_facts facts (block, position) op)
  end.

Definition edges (terminator : Terminator) : list (BlockId * list ValueId * option ValueId) :=
  match terminator with
  | Terminator.Branch target arguments => [(target, arguments, None)]
  | Terminator.BranchIf condition then_target then_arguments else_target else_arguments =>
      [(then_target, then_arguments, Some condition); (else_target, else_arguments, None)]
  | _ => []
  end.

(** The facts an edge carries. *)
Definition edge_facts (facts : Facts) (arguments : list ValueId) (condition : option ValueId)
    (parameters : list ValueId) : Facts :=
  let outgoing := match condition with Some c => assume_true f t facts c | None => facts end in
  if bool_decide (arguments = []) && bool_decide (parameters = []) then outgoing
  else across outgoing arguments parameters.

Definition positions : gmap BlockId nat :=
  List.fold_left (λ m bi, <[bi.1 := bi.2]> m) (imap (λ i b, (block_id b, i)) (blocks f)) ∅.

(** The edges of a block, each into its target's entry. *)
Fixpoint flow_edges (es : list (BlockId * list ValueId * option ValueId)) (facts : Facts)
    (entries : list (option Facts)) (pending : list nat) : outcome (list (option Facts) * list nat) :=
  match es with
  | [] => Done (entries, pending)
  | (target, arguments, condition) :: es =>
      match positions !! target with
      | None => flow_edges es facts entries pending
      | Some target =>
          match blocks f !! target, entries !! target with
          | Some b, Some previous =>
              let outgoing := edge_facts facts arguments condition (List.map parameter (parameters b)) in
              let met := match previous with None => outgoing | Some previous => meet previous outgoing end in
              if bool_decide (previous = Some met) then flow_edges es facts entries pending
              else flow_edges es facts (<[target := Some met]> entries) (pending ++ [target])
          | _, _ => Panic
          end
      end
  end.

Fixpoint flow_loop (n : nat) (entries : list (option Facts)) (pending : list nat)
  : outcome (list (option Facts)) :=
  match n with
  | O => Panic
  | S n =>
      match pending with
      | [] => Done entries
      | at_ :: pending =>
          match blocks f !! at_, entries !! at_ with
          | Some block, Some (Some facts) =>
              let facts := block_facts (block_id block) 0 (operations block) facts in
              '(entries, pending) ← flow_edges (edges (terminator block)) facts entries pending;
              flow_loop n entries pending
          | _, _ => Panic
          end
      end
  end.

(** ** The verdicts *)

Definition below_constant (facts : Facts) (fact : Relation) : bool :=
  match fact with
  | (operator, Value l, Constant limit) =>
      match upper facts !! l with
      | Some up => match operator with LessUnsigned => (up <? limit)%N | _ => (up <=? limit)%N end
      | None => false
      end
  | _ => false
  end.

Definition guard_holds (facts : Facts) (fact : Relation) : bool :=
  below_constant facts fact || let '(operator, l, r) := fact in proves facts operator l r.

Definition narrowing_fits (facts : Facts) (value : ValueId) : bool :=
  existsb (λ '(_, int, _), (int =? value)%N) (elements (int_bounds facts))
  || match upper_of facts value (widened_size_bounds facts) with
     | Some up => (up <=? u32_max)%N
     | None => false
     end.

(** The verdicts of the operations of a block, and the facts after them. *)
Fixpoint block_verdicts (block : BlockId) (position : nat) (ops : list Operation) (facts : Facts)
    (implied : gmap Point bool) : gmap Point bool * Facts :=
  match ops with
  | [] => (implied, facts)
  | op :: ops =>
      let at_ := (block, position) in
      let implied := match guarded f t op with
                     | Some fact => <[at_ := guard_holds facts fact]> implied
                     | None => implied
                     end in
      let after_guard := match guarded f t op with
                         | Some fact => if contributes at_ then add_relation facts fact else facts
                         | None => facts
                         end in
      let implied := match op with
                     | Operation.NarrowSize _ value false => <[at_ := narrowing_fits after_guard value]> implied
                     | _ => implied
                     end in
      block_verdicts block (S position) ops (step_facts f t raw_bytes after_guard op) implied
  end.

Definition branch_holds (facts : Facts) (condition : ValueId) : option bool :=
  match comparisons t !! condition with
  | Some (operator, l, r) =>
      let kind := value_type f l in
      let is_int := bool_decide (kind = Some ValueType.Int) in
      if unsigned_order operator && (is_int || bool_decide (kind = Some ValueType.Size))
         && bool_decide (value_type f r = kind)
      then Some
        match constants t !! r with
        | Some limit =>
            match upper_of facts l (widened_size_bounds facts) with
            | Some up => match operator with LessUnsigned => (up <? limit)%N | _ => (up <=? limit)%N end
            | None => false
            end
        | None =>
            if is_int then
              match widened t !! r with
              | Some size => bool_decide ((LessUnsigned, l, size) ∈ int_bounds facts)
                             || bool_decide ((operator, l, size) ∈ int_bounds facts)
              | None => false
              end
            else proves facts operator (operand t l) (operand t r)
        end
      else None
  | None => None
  end.

Definition block_implied (block : BasicBlock) (facts : Facts) (implied : gmap Point bool) : gmap Point bool :=
  let '(implied, facts) := block_verdicts (block_id block) 0 (operations block) facts implied in
  match terminator block with
  | Terminator.BranchIf condition _ _ _ _ =>
      match branch_holds facts condition with
      | Some holds => <[(block_id block, length (operations block)) := holds]> implied
      | None => implied
      end
  | _ => implied
  end.

Fixpoint verdicts (bs : list BasicBlock) (entries : list (option Facts)) (implied : gmap Point bool)
  : gmap Point bool :=
  match bs, entries with
  | b :: bs, Some facts :: entries => verdicts bs entries (block_implied b facts implied)
  | _ :: bs, None :: entries => verdicts bs entries implied
  | _, _ => implied
  end.
End flow.

Definition implied_guards (n : nat) (f : Function) (raw_bytes : gset LayoutId) (contributes : Point → bool)
  : outcome (gmap Point bool) :=
  let t := tables f in
  match positions f !! entry f with
  | None => Done ∅
  | Some start =>
      entries ← flow_loop f t raw_bytes contributes n
                  (<[start := Some no_facts]> (replicate (length (blocks f)) None)) [start];
      Done (verdicts f t raw_bytes contributes (blocks f) entries ∅)
  end.

(** ** [redundant_bounds_guards] *)

Record Replacements : Type := {
  replacement_indices : gset ValueId;
  strict_comparisons : gmap ValueId (ValueId * ValueId);
  size_constants : gset ValueId;
}.

Definition record_replacement (r : Replacements) (operation : Operation) : Replacements :=
  match operation with
  | Operation.Store place _ transfer =>
      if replaces_owned transfer then
        match projection place with
        | Element index => {| replacement_indices := {[index]} ∪ replacement_indices r;
                              strict_comparisons := strict_comparisons r; size_constants := size_constants r |}
        | _ => r
        end
      else r
  | Operation.Compare destination LessUnsigned l ri =>
      {| replacement_indices := replacement_indices r;
         strict_comparisons := <[destination := (l, ri)]> (strict_comparisons r);
         size_constants := size_constants r |}
  | Operation.ConstSize destination _ =>
      {| replacement_indices := replacement_indices r; strict_comparisons := strict_comparisons r;
         size_constants := {[destination]} ∪ size_constants r |}
  | _ => r
  end.

Definition replaces_slot (r : Replacements) (operation : Operation) : bool :=
  match operation with
  | Operation.Guard condition Bounds =>
      match strict_comparisons r !! condition with
      | Some (index, count) =>
          bool_decide (index ∈ replacement_indices r) && negb (bool_decide (count ∈ size_constants r))
      | None => false
      end
  | _ => false
  end.

(** Every point of the function's operations, in order. *)
Definition operation_points (f : Function) : list (Point * Operation) :=
  List.flat_map (λ b, imap (λ i op, ((block_id b, i), op)) (operations b)) (blocks f).

Definition redundant_bounds_guards (n : nat) (f : Function) (raw_bytes : gset LayoutId)
  : outcome (gmap Point bool) :=
  redundant ← implied_guards n f raw_bytes (λ _, true);
  let r := List.fold_left record_replacement (List.flat_map operations (blocks f))
             {| replacement_indices := ∅; strict_comparisons := ∅; size_constants := ∅ |} in
  Done (List.fold_left (λ m '(p, op), if replaces_slot r op then <[p := false]> m else m)
          (operation_points f) redundant).
