(* ===== verification/GuardFlow.v ===== *)
(** * GuardFlow: the dataflow of the guard analysis ends in a fixed point

    The worklist of [implied_guards]
    ([crates/witchy-wir/src/canonical_safewir/analysis.rs]) ends: an entry
    is reached once, and after that only weakens.  What it ends with is a
    fixed point: the facts at a block's entry are no stronger than what each
    edge into it carries. *)

From S2P Require Import Prelude SafeWir GuardAnalysis.

(** ** Weaker facts *)

(** [a] claims nothing that [b] does not. *)
Record weaker (a b : Facts) : Prop := {
  weaker_relations : relations a ⊆ relations b;
  weaker_upper : ∀ v u, upper a !! v = Some u → ∃ u', upper b !! v = Some u' ∧ (u' ≤ u)%N;
  weaker_bounds : int_bounds a ⊆ int_bounds b;
}.

#[export] Instance weaker_preorder : PreOrder weaker.
Proof.
  split.
  - intros a. split; [done| |done]. intros v u E. exists u. split; [done|lia].
  - intros a b c [H1 H2 H3] [H4 H5 H6]. split; [by transitivity (relations b)| |by transitivity (int_bounds b)].
    intros v u E. destruct (H2 v u E) as (u' & E' & Hu). destruct (H5 v u' E') as (u2 & E2 & Hu2).
    exists u2. split; [done|lia].
Qed.

Lemma meet_upper_lookup a b v u :
  upper (meet a b) !! v = Some u →
  ∃ x y, upper a !! v = Some x ∧ upper b !! v = Some y ∧ u = N.max x y.
Proof.
  unfold meet. simpl. rewrite lookup_merge.
  destruct (upper a !! v) as [x|], (upper b !! v) as [y|]; simpl; try done. intros [= <-]. eauto.
Qed.

Lemma meet_weaker_l a b : weaker (meet a b) a.
Proof.
  split; [simpl; set_solver| |simpl; set_solver]. intros v u (x & y & Hx & Hy & ->)%meet_upper_lookup.
  exists x. split; [done|lia].
Qed.

Lemma meet_weaker_r a b : weaker (meet a b) b.
Proof.
  split; [simpl; set_solver| |simpl; set_solver]. intros v u (x & y & Hx & Hy & ->)%meet_upper_lookup.
  exists y. split; [done|lia].
Qed.

(** ** The size of facts *)

Section mass.
Context (B : N).

Definition upper_bounded (a : Facts) : Prop := ∀ v u, upper a !! v = Some u → (u ≤ B)%N.

Definition upper_mass (m : gmap ValueId N) : nat :=
  sum_list_with (λ vb, S (N.to_nat (B - vb.2))) (map_to_list m).

Definition facts_mass (a : Facts) : nat :=
  (size (relations a) + size (int_bounds a) + upper_mass (upper a))%nat.

Lemma upper_mass_insert v u m :
  m !! v = None → upper_mass (<[v := u]> m) = (S (N.to_nat (B - u)) + upper_mass m)%nat.
Proof.
  intros E. unfold upper_mass.
  assert (∀ l l' : list (N * N), l ≡ₚ l' →
    sum_list_with (λ vb, S (N.to_nat (B - vb.2))) l = sum_list_with (λ vb, S (N.to_nat (B - vb.2))) l') as Hperm.
  { induction 1; simpl; lia. }
  rewrite (Hperm _ _ (map_to_list_insert m v u E)). done.
Qed.

Lemma upper_mass_weaker m1 m2 :
  (∀ v u, m1 !! v = Some u → (u ≤ B)%N) →
  (∀ v u, m1 !! v = Some u → ∃ u', m2 !! v = Some u' ∧ (u' ≤ u)%N) →
  (upper_mass m1 ≤ upper_mass m2)%nat ∧ (upper_mass m1 = upper_mass m2 → m1 = m2).
Proof.
  revert m1. induction m2 as [|v x m2 E IH] using map_ind; intros m1 Hb Hw.
  { assert (m1 = ∅) as ->; [|done]. apply map_eq. intros v. rewrite lookup_empty.
    destruct (m1 !! v) as [u|] eqn:Eu; [|done]. destruct (Hw v u Eu) as (u' & Eu' & _). by rewrite lookup_empty in Eu'. }
  assert (∀ w u, delete v m1 !! w = Some u → m1 !! w = Some u ∧ w ≠ v) as Hd.
  { intros w u Hw'. by apply lookup_delete_Some in Hw' as [? ?]. }
  destruct (IH (delete v m1)) as [Hle Heq].
  { intros w u [? _]%Hd. by eapply Hb. }
  { intros w u [Hwu Hne]%Hd. destruct (Hw w u Hwu) as (u' & Eu' & Hu). rewrite lookup_insert_ne in Eu' by done. eauto. }
  rewrite upper_mass_insert by done. destruct (m1 !! v) as [u|] eqn:Eu.
  - rewrite <- (insert_delete_id m1 v u Eu) at 1 2 3. rewrite upper_mass_insert by apply lookup_delete_eq.
    destruct (Hw v u Eu) as (u' & Eu' & Hu). rewrite lookup_insert_eq in Eu'. injection Eu' as <-.
    pose proof (Hb v u Eu). split; [lia|]. intros H'. assert (u = x) as -> by lia.
    rewrite Heq by lia. done.
  - rewrite delete_id in Hle, Heq by done. lia.
Qed.

Lemma facts_mass_weaker a b :
  upper_bounded a → weaker a b → (facts_mass a ≤ facts_mass b)%nat ∧ (facts_mass a = facts_mass b → a = b).
Proof.
  intros Hb [H1 H2 H3]. destruct (upper_mass_weaker (upper a) (upper b) Hb H2) as [Hu Hueq].
  pose proof (subseteq_size _ _ H1). pose proof (subseteq_size _ _ H3). unfold facts_mass. split; [lia|].
  intros He. assert (upper a = upper b) as E2 by (apply Hueq; lia).
  assert (∀ {A} `{Countable A} (X Y : gset A), X ⊆ Y → size X = size Y → X = Y) as Hset.
  { intros A ? ? X Y HXY Hs. apply leibniz_equiv. apply set_subseteq_size_equiv; [done|lia]. }
  assert (relations a = relations b) as E1 by (apply Hset; [done|lia]).
  assert (int_bounds a = int_bounds b) as E3 by (apply Hset; [done|lia]).
  destruct a, b. simpl in *. by subst.
Qed.

(** ** Bounds of what the steps add *)

Lemma bounded_bound a v u : upper_bounded a → (u ≤ B)%N → upper_bounded (bound a v u).
Proof.
  intros Ha Hu w x. unfold bound. simpl. rewrite lookup_insert_Some. intros [[<- <-]|[_ E]]; [|by eapply Ha].
  destruct (upper a !! v); lia.
Qed.

Context (f : Function) (t : Tables) (raw_bytes : gset LayoutId) (contributes : Point → bool).
Hypothesis small_bounds : (u32_max ≤ B)%N.
Hypothesis constants_bounded : ∀ v c, constants t !! v = Some c → (c ≤ B)%N.

Lemma bounded_same a r ib : upper_bounded a → upper_bounded {| relations := r; upper := upper a; int_bounds := ib |}.
Proof. done. Qed.

Lemma step_facts_bounded a op : upper_bounded a → upper_bounded (step_facts f t raw_bytes a op).
Proof.
  intros Ha. unfold step_facts. destruct (invalidates f op); [done|].
  destruct op as [| | | | | | | | | | | | |d v ex|d v| | | | | |d pl tr| | | | | | | | | | | | | | | | | | |]; try done.
  - destruct (upper a !! v) as [u|] eqn:E; [|done]. apply (bounded_same (bound a d (N.min u u32_max))).
    apply bounded_bound; [done|]. pose proof (Ha _ _ E). lia.
  - destruct (upper a !! v) as [u|] eqn:E; [|done]. apply bounded_bound; [done|by eapply Ha].
  - destruct (raw_element _ _ _); [|done]. apply bounded_bound; [done|]. unfold u32_max in *. lia.
Qed.

Lemma operation_facts_bounded a p op : upper_bounded a → upper_bounded (operation_facts f t raw_bytes contributes a p op).
Proof. intros Ha. unfold operation_facts. apply step_facts_bounded. by destruct (guarded f t op), (contributes p). Qed.

Lemma block_facts_bounded b i ops a : upper_bounded a → upper_bounded (block_facts f t raw_bytes contributes b i ops a).
Proof. revert i a. induction ops as [|op ops IH]; intros i a Ha; simpl; [done|]. by apply IH, operation_facts_bounded. Qed.

Lemma assume_true_bounded a c : upper_bounded a → upper_bounded (assume_true f t a c).
Proof.
  intros Ha. unfold assume_true. destruct (comparisons t !! c) as [[[o l] r]|]; [|done].
  destruct (unsigned_order o); [|done]. case_match; [|done].
  assert (∀ u : option N, (∀ x, u = Some x → (x ≤ B)%N) →
    upper_bounded (match u with Some up => bound a l up | None => a end)) as Hb.
  { intros [u|] Hu; [|done]. apply bounded_bound; [done|by apply Hu]. }
  assert (upper_bounded (match constants t !! r with
                   | Some limit => match (if bool_decide (o = LessUnsigned) then checked_sub1 limit else Some limit) with
                                   | Some up => bound a l up | None => a end
                   | None => a end)) as H'.
  { destruct (constants t !! r) as [limit|] eqn:E; [|done]. apply Hb. pose proof (constants_bounded _ _ E).
    intros x. unfold checked_sub1. destruct (bool_decide (o = LessUnsigned)); [|intros Hx; by simplify_eq].
    destruct (limit =? 0)%N; [done|]. intros Hx. simplify_eq. lia. }
  revert H'. match goal with |- upper_bounded ?x → _ => generalize x end. intros a1 Ha1.
  cbv zeta. case_match; case_match; exact Ha1.
Qed.

Lemma edge_facts_bounded a args c ps : upper_bounded a → upper_bounded (edge_facts f t a args c ps).
Proof.
  intros Ha. unfold edge_facts.
  assert (upper_bounded (match c with Some c => assume_true f t a c | None => a end)) as H'.
  { destruct c; [by apply assume_true_bounded|done]. }
  destruct (_ && _); [exact H'|]. intros v u. simpl. intros [E _]%map_lookup_filter_Some. by eapply H'.
Qed.
End mass.

(** ** The worklist *)

Section flow.
Context (f : Function) (t : Tables) (raw_bytes : gset LayoutId) (contributes : Point → bool) (B : N).
Hypothesis small_bounds : (u32_max ≤ B)%N.
Hypothesis constants_bounded : ∀ v c, constants t !! v = Some c → (c ≤ B)%N.
Hypothesis positions_fit : ∀ b i, positions f !! b = Some i → (i < length (blocks f))%nat.

Abbreviation Edge := (BlockId * list ValueId * option ValueId)%type.

Definition entry_mass (e : option Facts) : nat := match e with Some a => facts_mass B a | None => 0 end.
Definition entries_mass (es : list (option Facts)) : nat := sum_list_with entry_mass es.
Definition nones (es : list (option Facts)) : nat :=
  sum_list_with (λ e : option Facts, match e with None => 1 | Some _ => 0 end)%nat es.

Lemma sum_list_with_insert {A} (g : A → nat) l i x y :
  l !! i = Some x → (sum_list_with g (<[i := y]> l) + g x = sum_list_with g l + g y)%nat.
Proof.
  revert i. induction l as [|z l IH]; intros [|i]; simpl; intros E; simplify_eq; [lia|]. specialize (IH _ E). lia.
Qed.

(** The worklist's state: every block has an entry, and a pending block has
    been reached. *)
Record flow_state (es : list (option Facts)) (pending : list nat) : Prop := {
  state_length : length es = length (blocks f);
  state_pending : ∀ p, p ∈ pending → ∃ a, es !! p = Some (Some a);
  state_bounded : ∀ p a, es !! p = Some (Some a) → upper_bounded B a;
}.

(** An edge whose facts [a] its target's entry respects. *)
Definition respects (es : list (option Facts)) (a : Facts) (e : Edge) : Prop :=
  ∀ q b, positions f !! e.1.1 = Some q → blocks f !! q = Some b →
    ∃ x, es !! q = Some (Some x) ∧ weaker x (edge_facts f t a e.1.2 e.2 (List.map parameter (parameters b))).

(** [es'] is [es] weakened, with what changed pending. *)
Definition weakens (es es' : list (option Facts)) (pending : list nat) : Prop :=
  ∀ q x, es !! q = Some (Some x) →
    ∃ x', es' !! q = Some (Some x') ∧ weaker x' x ∧ (x' = x ∨ q ∈ pending).

Definition progresses (es es' : list (option Facts)) (pending pending' : list nat) : Prop :=
  es' = es ∧ pending' = pending ∨
  (nones es' < nones es)%nat ∨
  (nones es' = nones es ∧ entries_mass es' < entries_mass es)%nat.

Lemma respects_weakens es es' pending a e : weakens es es' pending → respects es a e → respects es' a e.
Proof.
  intros Hw Hr q b Eq Eb. destruct (Hr q b Eq Eb) as (x & Ex & Hx). destruct (Hw q x Ex) as (x' & Ex' & Hx' & _).
  exists x'. split; [done|]. by transitivity x.
Qed.

Lemma weakens_trans es1 es2 es3 p2 p3 :
  weakens es1 es2 p2 → weakens es2 es3 p3 → (∀ q, q ∈ p2 → q ∈ p3) → weakens es1 es3 p3.
Proof.
  intros H1 H2 Hp q x E. destruct (H1 q x E) as (y & Ey & Hy & Hcy). destruct (H2 q y Ey) as (z & Ez & Hz & Hcz).
  exists z. split; [done|]. split; [by transitivity y|]. destruct Hcz as [->|?]; [|by right].
  destruct Hcy as [->|?]; [by left|right; by apply Hp].
Qed.

Lemma progresses_trans es1 es2 es3 p1 p2 p3 :
  progresses es1 es2 p1 p2 → progresses es2 es3 p2 p3 → progresses es1 es3 p1 p3.
Proof.
  intros [[-> ->]|H1]; [done|]. intros [[-> ->]|H2]; [by right|]. right.
  destruct H1 as [H1|[H1 H1']], H2 as [H2|[H2 H2']]; lia.
Qed.

(** Storing the met facts at a target's entry. *)
Lemma update_entry es pending q (previous : option Facts) (out : Facts) :
  let met := match previous with None => out | Some p => meet p out end in
  flow_state es pending → es !! q = Some previous → upper_bounded B out → previous ≠ Some met →
  flow_state (<[q := Some met]> es) (pending ++ [q]) ∧ weakens es (<[q := Some met]> es) (pending ++ [q]) ∧
  progresses es (<[q := Some met]> es) pending (pending ++ [q]) ∧ weaker met out.
Proof.
  intros met [Hl Hp Hb] Eq Hout Hne. pose proof (lookup_lt_Some _ _ _ Eq) as Hlt.
  assert (upper_bounded B met) as Hmet.
  { unfold met. destruct previous as [p|]; [|done]. intros v u (x & y & Hx & Hy & ->)%meet_upper_lookup.
    pose proof (Hb _ _ Eq v x Hx). pose proof (Hout v y Hy). lia. }
  assert (∀ x, previous = Some x → weaker met x) as Hprev by (intros x ->; apply meet_weaker_l).
  split; [split; [by rewrite length_insert| |]|split; [|split]].
  - intros p Hp'. destruct (decide (q = p)) as [<-|Hqp].
    + exists met. by apply list_lookup_insert_eq.
    + rewrite list_lookup_insert_ne by done. apply Hp. apply elem_of_app in Hp' as [?|?%list_elem_of_singleton]; [done|congruence].
  - intros p a Ea. destruct (decide (q = p)) as [<-|Hqp].
    + rewrite list_lookup_insert_eq in Ea by done. by injection Ea as <-.
    + rewrite list_lookup_insert_ne in Ea by done. by eapply Hb.
  - intros p x Ex. destruct (decide (q = p)) as [<-|Hqp].
    + exists met. rewrite list_lookup_insert_eq by done. split; [done|]. rewrite Eq in Ex. injection Ex as ->.
      split; [by apply Hprev|right]. apply elem_of_app. right. by apply list_elem_of_singleton.
    + exists x. rewrite list_lookup_insert_ne by done. split; [done|]. split; [reflexivity|by left].
  - right. pose proof (sum_list_with_insert (λ e : option Facts, match e with None => 1 | Some _ => 0 end)%nat es q previous (Some met) Eq) as Hn.
    pose proof (sum_list_with_insert entry_mass es q previous (Some met) Eq) as Hm.
    fold (nones es) in Hn. fold (nones (<[q := Some met]> es)) in Hn. fold (entries_mass es) in Hm.
    fold (entries_mass (<[q := Some met]> es)) in Hm. destruct previous as [p|]; simpl in Hn, Hm; [right|left; lia].
    destruct (facts_mass_weaker B met p Hmet (Hprev p eq_refl)) as [Hle Heq].
    assert (facts_mass B met ≠ facts_mass B p) by (intros ?; apply Hne; f_equal; symmetry; auto). lia.
  - unfold met. destruct previous; [apply meet_weaker_r|reflexivity].
Qed.

Lemma flow_edges_spec es_l a es pending :
  flow_state es pending → upper_bounded B a →
  ∃ es' pending', flow_edges f t es_l a es pending = Done (es', pending') ∧ flow_state es' pending' ∧
    weakens es es' pending' ∧ (∀ q, q ∈ pending → q ∈ pending') ∧ progresses es es' pending pending' ∧
    (∀ e, e ∈ es_l → respects es' a e) ∧
    (∀ q, es !! q = Some None → ∀ x, es' !! q = Some (Some x) → q ∈ pending').
Proof.
  intros Hs Ha. revert es pending Hs. induction es_l as [|[[target args] c] es_l IH]; intros es pending Hs; simpl.
  { exists es, pending. split; [done|]. split; [done|]. split; [|split; [done|split; [by left|split]]].
    - intros q x E. exists x. split; [done|]. split; [reflexivity|by left].
    - by intros e ?%not_elem_of_nil.
    - intros q E x E'. congruence. }
  destruct (positions f !! target) as [q|] eqn:Eq.
  2:{ destruct (IH es pending Hs) as (es' & p' & -> & Hs' & Hw & Hp & Hpr & Hr & Hn). exists es', p'.
      split; [done|]. split; [done|]. split; [done|]. split; [done|]. split; [done|]. split; [|done].
      intros e [->|He]%elem_of_cons; [|by apply Hr]. intros q b E. simpl in E. congruence. }
  pose proof (positions_fit _ _ Eq) as Hlt.
  destruct (lookup_lt_is_Some_2 (blocks f) q Hlt) as [b Eb]. rewrite Eb.
  destruct (lookup_lt_is_Some_2 es q) as [previous Ep]; [by rewrite (state_length _ _ Hs)|]. rewrite Ep.
  set (out := edge_facts f t a args c (List.map parameter (parameters b))).
  assert (upper_bounded B out) as Hout by by apply edge_facts_bounded.
  assert (∀ es2 p2 x, flow_state es2 p2 → es2 !! q = Some (Some x) → weaker x out → respects es2 a (target, args, c)) as Hresp.
  { intros es2 p2 x _ Ex Hx q' b' Eq' Eb'. simpl in Eq'. rewrite Eq in Eq'. injection Eq' as <-.
    rewrite Eb in Eb'. injection Eb' as <-. by exists x. }
  cbv zeta. case_bool_decide as Hsame.
  - destruct (IH es pending Hs) as (es' & p' & -> & Hs' & Hw & Hp & Hpr & Hr & Hn). exists es', p'.
    split; [done|]. split; [done|]. split; [done|]. split; [done|]. split; [done|]. split; [|done].
    intros e [->|He]%elem_of_cons; [|by apply Hr]. eapply respects_weakens; [exact Hw|].
    rewrite Hsame in Ep. eapply Hresp; [exact Hs|exact Ep|]. destruct previous; [apply meet_weaker_r|reflexivity].
  - destruct (update_entry es pending q previous out Hs Ep Hout Hsame) as (Hs1 & Hw1 & Hpr1 & Hwk).
    set (met := match previous with None => out | Some p => meet p out end) in *.
    destruct (IH _ _ Hs1) as (es' & p' & -> & Hs' & Hw & Hp & Hpr & Hr & Hn). exists es', p'.
    split; [done|]. split; [done|]. split; [by eapply weakens_trans|].
    split; [intros x Hx; apply Hp, elem_of_app; by left|]. split; [by eapply progresses_trans|]. split.
    + intros e [->|He]%elem_of_cons; [|by apply Hr]. eapply respects_weakens; [exact Hw|].
      eapply Hresp; [exact Hs1|apply list_lookup_insert_eq|exact Hwk]. by eapply lookup_lt_Some.
    + intros r Er x Ex. destruct (decide (q = r)) as [<-|Hqr].
      * apply Hp, elem_of_app. right. by apply list_elem_of_singleton.
      * eapply Hn; [|exact Ex]. by rewrite list_lookup_insert_ne.
Qed.

(** The facts that leave a block, from its entry facts. *)
Definition leaving (b : BasicBlock) (a : Facts) : Facts :=
  block_facts f t raw_bytes contributes (block_id b) 0 (operations b) a.

(** A block whose edges are all respected. *)
Definition settled (es : list (option Facts)) (p : nat) : Prop :=
  ∀ b a e, blocks f !! p = Some b → es !! p = Some (Some a) → e ∈ edges (terminator b) → respects es (leaving b a) e.

Definition flowing (es : list (option Facts)) (pending : list nat) : Prop :=
  ∀ p a, es !! p = Some (Some a) → p ∈ pending ∨ settled es p.

(** The loop ends, and then every block it reached is settled. *)
Lemma flow_loop_total es pending :
  flow_state es pending → flowing es pending →
  ∃ n es', (∀ m, (n ≤ m)%nat → flow_loop f t raw_bytes contributes m es pending = Done es') ∧
    length es' = length (blocks f) ∧ (∀ p a, es' !! p = Some (Some a) → settled es' p) ∧
    ∀ q x, es !! q = Some (Some x) → ∃ x', es' !! q = Some (Some x') ∧ weaker x' x.
Proof.
  remember (nones es) as k eqn:Hk. remember (entries_mass es) as m eqn:Hm. remember (length pending) as l eqn:Hl.
  revert m l es pending Hk Hm Hl. induction (lt_wf k) as [k _ IHk]. intros m.
  induction (lt_wf m) as [m _ IHm]. intros l. induction (lt_wf l) as [l _ IHl]. intros es pending Hk Hm Hl Hs Hf.
  destruct pending as [|p pending].
  { exists 1%nat, es. split; [by intros [|j] ?; [lia|]|]. split; [apply Hs|]. split.
    - intros p a E. by destruct (Hf p a E) as [?%not_elem_of_nil|?].
    - intros q x E. exists x. split; [done|reflexivity]. }
  destruct (state_pending _ _ Hs p) as [a Ea]; [by left|].
  destruct (lookup_lt_is_Some_2 (blocks f) p) as [b Eb].
  { rewrite <- (state_length _ _ Hs). by eapply lookup_lt_Some. }
  assert (flow_state es pending) as Hs0.
  { destruct Hs as [H1 H2 H3]. split; [done| |done]. intros q Hq. apply H2. by right. }
  assert (upper_bounded B (leaving b a)) as Hb by (apply block_facts_bounded; [done..|by eapply state_bounded]).
  destruct (flow_edges_spec (edges (terminator b)) (leaving b a) es pending Hs0 Hb)
    as (es1 & p1 & E1 & Hs1 & Hw & Hp & Hpr & Hr & Hn).
  assert (flowing es1 p1) as Hf1.
  { intros q x Ex. destruct (es !! q) as [[y|]|] eqn:Ey.
    - destruct (Hw q y Ey) as (y' & Ey' & _ & [->|?]); [|by left]. rewrite Ex in Ey'. injection Ey' as ->.
      destruct (decide (q ∈ p1)) as [|Hnin]; [by left|right].
      assert (q = p ∨ settled es q) as [->|Hset].
      { destruct (Hf q y Ey) as [[->|Hq]%elem_of_cons|?]; [by left| |by right]. by apply Hp in Hq. }
      + intros b' a' e Eb' Ea' He. rewrite Eb in Eb'. injection Eb' as <-. rewrite Ex in Ea'. injection Ea' as <-.
        rewrite Ea in Ey. injection Ey as <-. by apply Hr.
      + intros b' a' e Eb' Ea' He. rewrite Ex in Ea'. injection Ea' as <-. eapply respects_weakens; [exact Hw|].
        by eapply Hset.
    - left. by eapply Hn.
    - apply lookup_ge_None in Ey. apply lookup_lt_Some in Ex. rewrite (state_length _ _ Hs1) in Ex.
      rewrite (state_length _ _ Hs) in Ey. lia. }
  assert (∃ n es', (∀ j, (n ≤ j)%nat → flow_loop f t raw_bytes contributes j es1 p1 = Done es') ∧
    length es' = length (blocks f) ∧ (∀ p a, es' !! p = Some (Some a) → settled es' p) ∧
    ∀ q x, es1 !! q = Some (Some x) → ∃ x', es' !! q = Some (Some x') ∧ weaker x' x) as (n & es' & Hn' & Hlen & Hset & Hq).
  { destruct Hpr as [[-> ->]|[Hlt|[Heq Hlt]]].
    - eapply (IHl (length pending)); [simpl in Hl; lia|done..].
    - eapply IHk; [rewrite Hk; exact Hlt|reflexivity..|done|done].
    - eapply IHm; [rewrite Hm; exact Hlt|by rewrite Heq|reflexivity..|done|done]. }
  exists (S n), es'. split; [|split; [done|split; [done|]]].
  - intros [|j] Hj; [lia|]. cbn [flow_loop]. rewrite Eb, Ea. fold (leaving b a). cbv zeta.
    change (block_facts f t raw_bytes contributes (block_id b) 0 (operations b) a) with (leaving b a).
    rewrite E1. cbn [mbind outcome_bind]. apply Hn'. lia.
  - intros q x Ex. destruct (Hw q x Ex) as (y & Ey & Hy & _). destruct (Hq q y Ey) as (z & Ez & Hz).
    exists z. split; [done|]. by transitivity y.
Qed.
End flow.

(** ** The whole analysis *)

Lemma positions_from l k (m : gmap BlockId nat) id p :
  List.fold_left (λ m bi, <[bi.1 := bi.2]> m) (imap (λ i b, (block_id b, (k + i)%nat)) l) m !! id = Some p →
  m !! id = Some p ∨ ∃ i b, p = (k + i)%nat ∧ l !! i = Some b ∧ block_id b = id.
Proof.
  revert k m. induction l as [|x l IH]; intros k m; simpl; [by left|].
  replace (imap _ l) with (imap (λ i b, (block_id b, (S k + i)%nat)) l)
    by (apply imap_ext; intros i y _; simpl; f_equal; lia).
  intros [H|(i & b & -> & E & Hb)]%IH.
  - apply lookup_insert_Some in H as [[<- <-]|[_ H]]; [right; exists 0%nat, x; split; [lia|done]|by left].
  - right. exists (S i), b. split; [lia|done].
Qed.

Lemma positions_lookup f id p : positions f !! id = Some p → ∃ b, blocks f !! p = Some b ∧ block_id b = id.
Proof.
  intros H. apply (positions_from (blocks f) 0) in H as [H|(i & b & -> & H)]; [by rewrite lookup_empty in H|]. by exists b.
Qed.

Lemma positions_total f b : b ∈ blocks f → is_Some (positions f !! block_id b).
Proof.
  assert (∀ l k (m : gmap BlockId nat), b ∈ l ∨ is_Some (m !! block_id b) →
    is_Some (List.fold_left (λ m bi, <[bi.1 := bi.2]> m) (imap (λ i b, (block_id b, (k + i)%nat)) l) m !! block_id b)) as H.
  { induction l as [|x l IH]; intros k m; simpl; [by intros [?%not_elem_of_nil|?]|]. intros H.
    replace (imap _ l) with (imap (λ i b, (block_id b, (S k + i)%nat)) l)
      by (apply imap_ext; intros i y _; simpl; f_equal; lia).
    apply IH. destruct H as [[->|H]%elem_of_cons|H]; [right; by rewrite lookup_insert_eq|by left|right].
    destruct (decide (block_id x = block_id b)) as [->|]; [by rewrite lookup_insert_eq|by rewrite lookup_insert_ne]. }
  intros Hb. apply (H (blocks f) 0%nat). by left.
Qed.

Definition constants_limit (t : Tables) : N := map_fold (λ _ c b, N.max c b) u32_max (constants t).

Lemma constants_limit_spec t :
  (u32_max ≤ constants_limit t)%N ∧ ∀ v c, constants t !! v = Some c → (c ≤ constants_limit t)%N.
Proof.
  unfold constants_limit. generalize (constants t). intros m.
  refine (map_fold_weak_ind (λ b m, (u32_max ≤ b)%N ∧ ∀ v c, m !! v = Some c → (c ≤ b)%N) _ _ _ _ m).
  - split; [lia|]. intros v c. by rewrite lookup_empty.
  - intros v c m' b E [H1 H2]. split; [lia|]. intros w x. rewrite lookup_insert_Some.
    intros [[<- <-]|[_ Ex]]; [lia|]. specialize (H2 _ _ Ex). lia.
Qed.

(** The entries the analysis ends with. *)
Record fixed_entries (f : Function) (raw_bytes : gset LayoutId) (contributes : Point → bool)
    (es : list (option Facts)) : Prop := {
  fixed_length : length es = length (blocks f);
  fixed_settled : ∀ p a, es !! p = Some (Some a) → settled f (tables f) raw_bytes contributes es p;
  fixed_start : ∀ p, positions f !! entry f = Some p → ∃ a, es !! p = Some (Some a) ∧ weaker a no_facts;
}.

Lemma implied_guards_total f raw_bytes contributes :
  ∃ n m, (∀ k, (n ≤ k)%nat → implied_guards k f raw_bytes contributes = Done m) ∧
    (is_Some (positions f !! entry f) → ∃ es, fixed_entries f raw_bytes contributes es ∧
       m = verdicts f (tables f) raw_bytes contributes (blocks f) es ∅).
Proof.
  unfold implied_guards. destruct (positions f !! entry f) as [start|] eqn:E.
  2:{ exists 0%nat, ∅. split; [done|]. by intros [? [=]]. }
  destruct (positions_lookup _ _ _ E) as (b & Eb & _). pose proof (lookup_lt_Some _ _ _ Eb) as Hlt.
  destruct (constants_limit_spec (tables f)) as [Hsmall Hconst].
  set (es0 := <[start := Some no_facts]> (replicate (length (blocks f)) None)).
  assert (es0 !! start = Some (Some no_facts)) as Estart.
  { apply list_lookup_insert_eq. by rewrite length_replicate. }
  assert (∀ p a, es0 !! p = Some (Some a) → p = start ∧ a = no_facts) as Honly.
  { intros p a Ep. destruct (decide (start = p)) as [<-|Hne]; [split; congruence|].
    unfold es0 in Ep. rewrite list_lookup_insert_ne in Ep by done. by apply lookup_replicate in Ep as [[=] _]. }
  destruct (flow_loop_total f (tables f) raw_bytes contributes (constants_limit (tables f)) Hsmall Hconst)
    with (es := es0) (pending := [start]) as (n & es & Hn & Hlen & Hset & Hweak).
  - intros id p (b' & Eb' & _)%positions_lookup. by eapply lookup_lt_Some.
  - split.
    + unfold es0. by rewrite length_insert, length_replicate.
    + intros p ->%list_elem_of_singleton. eauto.
    + intros p a [-> ->]%Honly v u. simpl. by rewrite lookup_empty.
  - intros p a [-> ->]%Honly. left. by apply list_elem_of_singleton.
  - exists n, (verdicts f (tables f) raw_bytes contributes (blocks f) es ∅). split.
    + intros k Hk. rewrite Hn by done. done.
    + intros _. exists es. split; [|done]. split; [done|done|]. intros p Ep. rewrite E in Ep. injection Ep as <-.
      by apply Hweak.
Qed.

(** the guard analysis ends on every function: with enough fuel it gives
    one answer, and more fuel the same. *)
Theorem implied_guards_terminates f raw_bytes contributes :
  ∃ n m, ∀ k, (n ≤ k)%nat → implied_guards k f raw_bytes contributes = Done m.
Proof. destruct (implied_guards_total f raw_bytes contributes) as (n & m & H & _). eauto. Qed.
