(* ===== verification/GuardSound.v ===== *)
(** * GuardSound: an implied guard holds

    Soundness of [implied_guards]
    ([crates/witchy-wir/src/canonical_safewir/analysis.rs]) on the machine of
    [ScalarMachine]: for a function that passes the scalar checks, and the
    control-flow checks in all its blocks, whenever the machine stands at a guard, a narrowing or a
    conditional branch the analysis calls implied, the guard's condition is
    true, the narrowed value fits, the branch is taken.

    A value of a loop is defined again and again, and the analysis does not
    forget what it knew of it.  The proof is that a fact is known only if it
    is known on every path, and the facts of a path name only values the
    path has defined: so nothing is known of a value where it has just been
    defined. *)

From S2P Require Import Prelude SafeWir Dominance SsaPaths ScalarMachine GuardAnalysis GuardFlow.

(** ** What facts mean *)

Definition eval (e : locals) (o : Operand) : N := match o with Value v => get e v | Constant c => c end.

Definition ordered_words (o : ComparisonOperator) (x y : N) : Prop :=
  match o with
  | LessUnsigned => (x < y)%N
  | LessEqualUnsigned => (x ≤ y)%N
  | _ => False
  end.

Section meaning.
Context (f : Function).

Record holds (e : locals) (a : Facts) : Prop := {
  holds_relations : ∀ o l r, (o, l, r) ∈ relations a → ordered_words o (eval e l) (eval e r);
  holds_upper : ∀ v u, upper a !! v = Some u → (get e v ≤ u)%N;
  holds_bounds : ∀ o i s, (o, i, s) ∈ int_bounds a →
    value_types f !! s = Some ValueType.Size ∧ ordered_words o (get e i) (get e s);
}.

(** The values facts speak of. *)
Definition mentions (a : Facts) (v : ValueId) : Prop :=
  (∃ o l r, (o, l, r) ∈ relations a ∧ (l = Value v ∨ r = Value v)) ∨
  is_Some (upper a !! v) ∨
  (∃ o i s, (o, i, s) ∈ int_bounds a ∧ (i = v ∨ s = v)).

Lemma holds_frame e e' a : holds e a → (∀ v, mentions a v → get e' v = get e v) → holds e' a.
Proof.
  intros [H1 H2 H3] Hf. split.
  - intros o l r H. replace (eval e' l) with (eval e l); [replace (eval e' r) with (eval e r); [by apply H1|]|].
    + destruct r as [v|]; [|done]. symmetry. apply Hf. left. eauto 10.
    + destruct l as [v|]; [|done]. symmetry. apply Hf. left. eauto 10.
  - intros v u E. rewrite Hf; [by apply H2|]. right. left. by rewrite E.
  - intros o i s H. rewrite !Hf; [by apply H3| |]; right; right; eauto 10.
Qed.

Lemma holds_weaker e a b : weaker a b → holds e b → holds e a.
Proof.
  intros [W1 W2 W3] [H1 H2 H3]. split.
  - intros o l r H. by apply H1, W1.
  - intros v u E. destruct (W2 v u E) as (u' & E' & Hu). specialize (H2 v u' E'). lia.
  - intros o i s H. by apply (H3 o), W3.
Qed.

Lemma mentions_weaker a b v : weaker a b → mentions a v → mentions b v.
Proof.
  intros [W1 W2 W3] [(o & l & r & H & Hv)|[[u E]|(o & i & s & H & Hv)]].
  - left. exists o, l, r. split; [by apply W1|done].
  - right. left. destruct (W2 v u E) as (u' & E' & _). by rewrite E'.
  - right. right. exists o, i, s. split; [by apply W3|done].
Qed.

Lemma holds_no_facts e : holds e no_facts.
Proof. split; [set_solver| |set_solver]. intros v u. simpl. by rewrite lookup_empty. Qed.

Lemma holds_bound e a v u : holds e a → (get e v ≤ u)%N → holds e (bound a v u).
Proof.
  intros [H1 H2 H3] Hu. split; [done| |done]. intros w x. simpl. rewrite lookup_insert_Some.
  intros [[<- <-]|[_ E]]; [|by apply H2]. destruct (upper a !! v) as [y|] eqn:E; [|done].
  specialize (H2 v y E). lia.
Qed.

Lemma holds_add_relation e a o l r : holds e a → ordered_words o (eval e l) (eval e r) → holds e (add_relation a (o, l, r)).
Proof.
  intros [H1 H2 H3] Hr. split; [|done|done]. intros o' l' r'. simpl. rewrite elem_of_union, elem_of_singleton.
  intros [[= -> -> ->]|H]; [done|by apply H1].
Qed.

(** Bounds derived from facts. *)

Lemma minimum_bound x l m : (∀ y, y ∈ l → (x ≤ y)%N) → minimum l = Some m → (x ≤ m)%N.
Proof.
  revert m. induction l as [|y l IH]; intros m H; [done|]. simpl. pose proof (H y ltac:(by left)).
  destruct (minimum l) as [k|]; intros [= <-]; [|done]. assert (x ≤ k)%N; [|lia]. apply IH; [|done].
  intros z Hz. apply H. by right.
Qed.

Lemma option_list_member {A} (o : option A) x : x ∈ option_list o ↔ o = Some x.
Proof. destruct o; simpl; rewrite ?list_elem_of_singleton; [naive_solver|]. by rewrite elem_of_nil. Qed.

Lemma upper_of_holds e a v extra u :
  holds e a → (∀ x, extra !! v = Some x → (get e v ≤ x)%N) → upper_of a v extra = Some u → (get e v ≤ u)%N.
Proof.
  intros [H1 H2 H3] Hex. apply minimum_bound. intros y. rewrite !elem_of_app, !option_list_member, list_elem_of_omap.
  intros [E|[([[o l] r] & Hr & E)|E]]; [by apply H2| |by apply Hex].
  apply elem_of_elements, H1 in Hr. unfold relational_bound in E. destruct l as [w|k], r as [k'|limit]; try done.
  destruct (N.eqb_spec w v) as [->|]; [|done]. destruct o; try done; simpl in Hr.
  - unfold checked_sub1 in E. destruct (N.eqb_spec limit 0); [done|]. injection E as <-. lia.
  - injection E as <-. done.
Qed.

Lemma widened_size_bounds_holds e a v u :
  holds e a → widened_size_bounds a !! v = Some u → (get e v ≤ u)%N.
Proof.
  intros H. unfold widened_size_bounds.
  assert (∀ o i s, (o, i, s) ∈ elements (int_bounds a) →
    value_types f !! s = Some ValueType.Size ∧ ordered_words o (get e i) (get e s)) as Hall.
  { intros o i s Hin. by apply (holds_bounds _ _ H), elem_of_elements. }
  assert (∀ v u, (∅ : gmap ValueId N) !! v = Some u → (get e v ≤ u)%N) as H0 by (intros w x; by rewrite lookup_empty).
  match goal with |- List.fold_left ?G _ _ !! _ = _ → _ => set (F := G) end.
  enough (∀ l m, (∀ v u, m !! v = Some u → (get e v ≤ u)%N) → (∀ o i s, (o, i, s) ∈ l →
      value_types f !! s = Some ValueType.Size ∧ ordered_words o (get e i) (get e s)) →
      List.fold_left F l m !! v = Some u → (get e v ≤ u)%N) as Hl by by apply Hl.
  clear H0 Hall. intros l. induction l as [|[[o i] s] l IH]; intros m Hm Hall; simpl; [apply Hm|].
  apply IH; [|intros o' i' s' Hin; apply Hall; by right].
  unfold F. destruct (upper_of a s ∅) as [up|] eqn:Eu; [|done].
  assert (get e s ≤ up)%N as Hs by (eapply upper_of_holds; [exact H| |exact Eu]; intros x; by rewrite lookup_empty).
  destruct (Hall o i s ltac:(by left)) as [_ Ho].
  set (b := if bool_decide (o = LessUnsigned) then (up - 1)%N else up).
  assert (get e i ≤ b)%N as Hb.
  { unfold b. case_bool_decide as Hlt; [subst; simpl in Ho; lia|]. destruct o; simpl in Ho; try done. lia. }
  intros w x. rewrite lookup_insert_Some. intros [[<- <-]|[_ E]]; [|by apply Hm].
  destruct (m !! i) as [y|] eqn:Ey; simpl; [|lia]. specialize (Hm _ _ Ey). lia.
Qed.

Lemma at_most_holds e a l r : holds e a → at_most a l r = true → (eval e l ≤ eval e r)%N.
Proof.
  intros H. unfold at_most. rewrite orb_true_iff, !bool_decide_eq_true.
  intros [Hr|Hr]; apply (holds_relations _ _ H) in Hr; simpl in Hr; lia.
Qed.

Lemma proves_holds e a o l r :
  holds e a → unsigned_order o = true → proves a o l r = true → ordered_words o (eval e l) (eval e r).
Proof.
  intros H Ho. unfold proves. destruct (_ || _) eqn:E1.
  - intros _. apply orb_true_iff in E1 as [E1|E1].
    + apply bool_decide_eq_true, (holds_relations _ _ H) in E1. simpl in E1. destruct o; simpl in *; try done. lia.
    + apply andb_true_iff in E1 as [->%bool_decide_eq_true E1]. by apply (at_most_holds e a).
  - intros [->%bool_decide_eq_true Hex]%andb_true_iff. apply existsb_exists in Hex as ([[o' from] mid] & Hin & Hex).
    rewrite !andb_true_iff, !bool_decide_eq_true in Hex. destruct Hex as [[[-> ->] _] Hm].
    apply list_elem_of_In, elem_of_elements, (holds_relations _ _ H) in Hin. simpl in Hin.
    apply (at_most_holds e a) in Hm; [|done]. simpl. lia.
Qed.

Lemma guard_holds_sound e a o l r :
  holds e a → unsigned_order o = true → guard_holds a (o, l, r) = true → ordered_words o (eval e l) (eval e r).
Proof.
  intros H Ho. unfold guard_holds. rewrite orb_true_iff. intros [Hb|Hp]; [|by eapply proves_holds].
  simpl in Hb. destruct l as [v|k], r as [k'|limit]; try done. destruct (upper a !! v) as [u|] eqn:E; [|done].
  apply (holds_upper _ _ H) in E. destruct o; try done; simpl; [apply N.ltb_lt in Hb|apply N.leb_le in Hb]; lia.
Qed.

Lemma narrowing_fits_sound e a v :
  holds e a → fits f e → narrowing_fits a v = true → (get e v < u32_limit)%N.
Proof.
  intros H Hfit. unfold narrowing_fits. rewrite orb_true_iff. intros [Hex|Hu].
  - apply existsb_exists in Hex as ([[o i] s] & Hin & He). apply N.eqb_eq in He as ->.
    apply list_elem_of_In, elem_of_elements, (holds_bounds _ _ H) in Hin as [Hs Ho].
    pose proof (fits_size _ _ _ Hfit Hs). destruct o; simpl in Ho; try done; lia.
  - destruct (upper_of a v _) as [u|] eqn:E; [|done]. apply N.leb_le in Hu.
    apply (upper_of_holds e) in E; [|done|intros x; by apply widened_size_bounds_holds].
    unfold u32_max, u32_limit in *. lia.
Qed.
End meaning.

(** ** What the tables say *)

Section tables.
Context (ops : list Operation).

Record tables_of (t : Tables) : Prop := {
  table_constants : ∀ v c, constants t !! v = Some c →
    Operation.ConstSize v c ∈ ops ∨ ∃ z, Operation.ConstInt v z ∈ ops ∧ (0 ≤ z)%Z ∧ c = Z.to_N z;
  table_comparisons : ∀ v o l r, comparisons t !! v = Some (o, l, r) → Operation.Compare v o l r ∈ ops;
  table_widened : ∀ v s, widened t !! v = Some s → Operation.WidenSize v s ∈ ops;
}.

Lemma record_definition_tables t op : op ∈ ops → tables_of t → tables_of (record_definition t op).
Proof.
  intros Hop [H1 H2 H3]. destruct op as [| | |d z| | |d c| | | | | |d o l r| |d s| | | | | | | | | | | | | | | | | | | | | | | | |];
    simpl; try done.
  - destruct (0 <=? z)%Z eqn:Ez; [|done]. apply Z.leb_le in Ez. split; [|done|done]. intros v c. simpl.
    rewrite lookup_insert_Some. intros [[<- <-]|[_ E]]; [|by apply H1]. right. by exists z.
  - split; [|done|done]. intros v c'. simpl. rewrite lookup_insert_Some.
    intros [[<- <-]|[_ E]]; [by left|by apply H1].
  - split; [done| |done]. intros v o' l' r'. simpl. rewrite lookup_insert_Some.
    intros [[<- [= <- <- <-]]|[_ E]]; [done|by apply H2].
  - split; [done|done|]. intros v s'. simpl. rewrite lookup_insert_Some. intros [[<- <-]|[_ E]]; [done|by apply H3].
Qed.
End tables.

Lemma tables_sound f : tables_of (List.flat_map operations (blocks f)) (tables f).
Proof.
  unfold tables. assert (tables_of (List.flat_map operations (blocks f)) no_tables) as H.
  { split; simpl; intros *; by rewrite lookup_empty. }
  assert (∀ l t, (∀ op, op ∈ l → op ∈ List.flat_map operations (blocks f)) →
    tables_of (List.flat_map operations (blocks f)) t →
    tables_of (List.flat_map operations (blocks f)) (List.fold_left record_definition l t)) as Hl.
  { induction l as [|op l IH]; intros t Hin Ht; [done|]. simpl. apply IH; [intros x Hx; apply Hin; by right|].
    apply record_definition_tables; [|done]. apply Hin. by left. }
  by apply Hl.
Qed.

(** ** What is known of the values an operation defines *)

Definition known (f : Function) (e : locals) (op : Operation) : Prop :=
  match op with
  | Operation.ConstInt d z => get e d = Z.to_N (z mod Z.of_N u64_limit)
  | Operation.ConstSize d c => get e d = c
  | Operation.Compare d o l r =>
      match compare_limit (value_types f !! l) with
      | Some limit => get e d = if compare_words limit o (get e l) (get e r) then 1%N else 0%N
      | None => True
      end
  | Operation.WidenSize d v => get e d = get e v
  | _ => True
  end.

Lemma known_frame f e e' op :
  known f e op → (∀ v, v ∈ operation_destinations op ∨ v ∈ operation_uses op → get e' v = get e v) → known f e' op.
Proof.
  intros H Hf. destruct op; simpl in *; try done.
  - rewrite Hf; [done|left; by left].
  - rewrite Hf; [done|left; by left].
  - destruct (compare_limit _); [|done]. rewrite !Hf; [done|right; right; by left|right; by left|left; by left].
  - rewrite !Hf; [done|right; by left|left; by left].
Qed.

Lemma index_blocks_unique f index i j b :
  index_blocks f = Ok index → blocks f !! i = Some b → blocks f !! j = Some b → i = j.
Proof.
  intros [Hnd _]%index_from_NoDup Hi Hj. assert (∀ k, blocks f !! k = Some b → List.map block_id (blocks f) !! k = Some (block_id b)) as H.
  { intros k Hk. change (List.map block_id (blocks f)) with (block_id <$> blocks f). by rewrite list_lookup_fmap, Hk. }
  eapply NoDup_lookup; eauto.
Qed.

Section sound.
Context (f : Function) (index : gmap BlockId BasicBlock) (predecessors : gmap BlockId (gset BlockId)) (d : Dominators).
Hypothesis checked : flow_checked f index predecessors d.
Hypothesis scalars : scalar_checked f.
(** [ConstInt] holds an [i64]. *)
Hypothesis int_constants : ∀ b v z, b ∈ blocks f → Operation.ConstInt v z ∈ operations b →
  (- 2 ^ 63 ≤ z < 2 ^ 63)%Z.

Abbreviation t := (tables f).
Abbreviation defined := (defined_by index).
Abbreviation available_at := (available f index).
Abbreviation closed_set := (closed index).

Lemma operation_defined op v :
  op ∈ List.flat_map operations (blocks f) → v ∈ operation_destinations op → defined op v.
Proof.
  intros H Hv. apply list_elem_of_In, in_flat_map in H as (b & Hb & H). apply list_elem_of_In in Hb, H.
  apply list_elem_of_lookup_1 in H as [i Hi]. exists (block_id b), b, i. split; [|done].
  by apply (index_blocks_spec _ _ (checked_index _ _ _ _ checked)).
Qed.

Lemma defined_member op v : defined op v → ∃ b, b ∈ blocks f ∧ op ∈ operations b.
Proof.
  intros (id & b & i & E & Eo & _). exists b. split; [|by eapply list_elem_of_lookup_2].
  by apply (index_blocks_spec _ _ (checked_index _ _ _ _ checked)) in E as [? _].
Qed.

Lemma defined_checked op v : defined op v → check_scalar_operation f op = Ok tt.
Proof. intros (b & Hb & Ho)%defined_member. by eapply scalars. Qed.

Lemma comparison_defined v o l r : comparisons t !! v = Some (o, l, r) → defined (Operation.Compare v o l r) v.
Proof. intros H. apply operation_defined; [by apply (table_comparisons _ _ (tables_sound f))|by left]. Qed.

Lemma widened_defined v s : widened t !! v = Some s → defined (Operation.WidenSize v s) v.
Proof. intros H. apply operation_defined; [by apply (table_widened _ _ (tables_sound f))|by left]. Qed.

Lemma require_type_spec v type : require_type f v type = Ok tt → value_types f !! v = Some type.
Proof.
  unfold require_type, require_value_type, ok_or. destruct (value_types f !! v) as [a|]; simpl; [|done].
  case_bool_decide; simpl; [by subst|done].
Qed.

Lemma widened_type v s : widened t !! v = Some s → value_types f !! s = Some ValueType.Size.
Proof.
  intros H%widened_defined%defined_checked. simpl in H.
  destruct (require_type f v _) as [[]|]; simpl in H; [|done]. by apply require_type_spec.
Qed.

(** The locals agree with the definitions of the values in [D]. *)
Definition knows (e : locals) (D : ValueId → Prop) : Prop := ∀ op v, defined op v → D v → known f e op.

Lemma constant_known e D v c :
  knows e D → D v → constants t !! v = Some c → get e v = c.
Proof.
  intros Hk Hv [H|(z & H & Hz & ->)]%(table_constants _ _ (tables_sound f)).
  - apply (Hk (Operation.ConstSize v c) v); [|done]. apply operation_defined; [done|by left].
  - assert (defined (Operation.ConstInt v z) v) as Hd by (apply operation_defined; [done|by left]).
    pose proof (Hk _ _ Hd Hv) as Hg. simpl in Hg. rewrite Hg, Z.mod_small; [done|].
    apply defined_member in Hd as (b & Hb & Ho). pose proof (int_constants _ _ _ Hb Ho). unfold u64_limit. lia.
Qed.

Lemma operand_eval e D v : knows e D → D v → eval e (operand t v) = get e v.
Proof.
  intros Hk Hv. unfold operand. destruct (constants t !! v) as [c|] eqn:E; [|done]. simpl.
  symmetry. by eapply constant_known.
Qed.

(** A comparison that came out true orders its operands. *)
Lemma comparison_true e D c o l r :
  knows e D → D c → comparisons t !! c = Some (o, l, r) → unsigned_order o = true →
  (value_types f !! l = Some ValueType.Int ∨ value_types f !! l = Some ValueType.Size) →
  get e c ≠ 0%N ↔ ordered_words o (get e l) (get e r).
Proof.
  intros Hk Hc Ec Ho Hl. pose proof (Hk _ _ (comparison_defined _ _ _ _ Ec) Hc) as H. simpl in H.
  assert (get e c = if compare_words u64_limit o (get e l) (get e r) then 1 else 0)%N as ->.
  { destruct Hl as [El|El]; rewrite El in H; simpl in H; rewrite H; by destruct o. }
  destruct o; try done; simpl; [destruct (N.ltb_spec (get e l) (get e r))|destruct (N.leb_spec (get e l) (get e r))].
  all: split; intros; first [done|lia|congruence].
Qed.

(** ** What a step mentions *)

Lemma operand_value v w : operand t v = Value w → w = v.
Proof. unfold operand. destruct (constants t !! v); [done|]. by intros [= ->]. Qed.

Lemma guarded_spec op o x y :
  guarded f t op = Some (o, x, y) →
  ∃ c k l r, op = Operation.Guard c k ∧ comparisons t !! c = Some (o, l, r) ∧ unsigned_order o = true ∧
    value_types f !! l = Some ValueType.Size ∧ x = operand t l ∧ y = operand t r.
Proof.
  unfold guarded, size_relation. intros H.
  destruct op as [| | | | | | | | | | | | | | | |c k| | | | | | | | | | | | | | | | | | | | | | |]; try done.
  assert (match comparisons t !! c with
          | Some (o, l, r) => if unsigned_order o && bool_decide (value_type f l = Some ValueType.Size)
                                 && bool_decide (value_type f r = Some ValueType.Size)
                              then Some (o, operand t l, operand t r) else None
          | None => None end = Some (o, x, y)) as H' by by destruct k.
  destruct (comparisons t !! c) as [[[o' l] r]|] eqn:E; [|done]. destruct (_ && _) eqn:Eb; [|done].
  rewrite !andb_true_iff, !bool_decide_eq_true in Eb. destruct Eb as [[Ho El] _]. injection H' as -> <- <-.
  by exists c, k, l, r.
Qed.

Lemma mentions_add_relation a o x y v :
  mentions (add_relation a (o, x, y)) v → mentions a v ∨ x = Value v ∨ y = Value v.
Proof.
  intros [(o' & l & r & H & Hv)|[H|H]].
  - simpl in H. apply elem_of_union in H as [[= -> -> ->]%elem_of_singleton|H]; [tauto|]. left. left. eauto 10.
  - left. right. by left.
  - left. right. by right.
Qed.

Lemma mentions_bound a w u v : mentions (bound a w u) v → mentions a v ∨ v = w.
Proof.
  intros [H|[H|H]]; [left; by left| |left; right; by right]. simpl in H.
  destruct (decide (v = w)) as [|Hne]; [by right|]. rewrite lookup_insert_ne in H by done. left. right. by left.
Qed.

Lemma mentions_step raw_bytes a op v :
  mentions (step_facts f t raw_bytes a op) v → mentions a v ∨ v ∈ operation_destinations op.
Proof.
  unfold step_facts. destruct (invalidates f op).
  { intros [(o & l & r & H & Hv)|[H|H]].
    - simpl in H. apply elem_of_filter in H as [_ H]. left. left. eauto 10.
    - left. right. by left.
    - left. right. by right. }
  destruct op as [| | | | | | | | | | | | |ds w ex|ds w| | | | | |ds pl tr| | | | | | | | | | | | | | | | | | |]; try by left.
  - cbv zeta. simpl.
    set (a' := match upper a !! w with Some up => bound a ds (N.min up u32_max) | None => a end).
    assert (∀ x, mentions a' x → mentions a x ∨ x = ds) as Ha'.
    { intros x. unfold a'. destruct (upper a !! w); [apply mentions_bound|by left]. }
    assert (int_bounds a' = int_bounds a) as Eib by (unfold a'; by destruct (upper a !! w)).
    intros [(o & l & r & H & Hv)|[H|H]].
    + simpl in H. apply elem_of_union in H as [H|H].
      * unfold narrowed in H. apply elem_of_list_to_set, list_elem_of_omap in H as ([[o' l'] s] & Hin & Heq).
        destruct (l' =? w)%N; [|done]. injection Heq as <- <- <-. apply elem_of_elements in Hin. rewrite Eib in Hin.
        destruct Hv as [[= ->]|Hs]; [right; by left|]. apply operand_value in Hs as ->. left. right. right. eauto 10.
      * destruct (Ha' v) as [?| ->]; [left; eauto 10|by left|right; by left].
    + destruct (Ha' v) as [?| ->]; [right; by left|by left|right; by left].
    + destruct (Ha' v) as [?| ->]; [right; by right|by left|right; by left].
  - destruct (upper a !! w); [|by left]. intros [?| ->]%mentions_bound; [by left|right; by left].
  - destruct (raw_element _ _ _); [|by left]. intros [?| ->]%mentions_bound; [by left|right; by left].
Qed.

(** The facts after the guard of an operation. *)
Definition after_guard (contributes : Point → bool) (a : Facts) (p : Point) (op : Operation) : Facts :=
  match guarded f t op with
  | Some fact => if contributes p then add_relation a fact else a
  | None => a
  end.

Lemma mentions_guard contributes D a p op v :
  closed_set D → (∀ u, u ∈ operation_uses op → u ∈ D) → (∀ u, mentions a u → u ∈ D) →
  mentions (after_guard contributes a p op) v → v ∈ D.
Proof.
  intros Hcl Hu Ha. unfold after_guard. destruct (guarded f t op) as [[[o x] y]|] eqn:E; [|apply Ha].
  destruct (contributes p); [|apply Ha]. apply guarded_spec in E as (c & k & l & r & -> & Ec & _ & _ & -> & ->).
  pose proof (Hcl _ _ l (comparison_defined _ _ _ _ Ec) (Hu c ltac:(by left)) ltac:(by left)).
  pose proof (Hcl _ _ r (comparison_defined _ _ _ _ Ec) (Hu c ltac:(by left)) ltac:(right; by left)).
  intros [?|[<-%operand_value|<-%operand_value]]%mentions_add_relation; [by apply Ha|done|done].
Qed.

Lemma mentions_assume D a c v :
  closed_set D → c ∈ D → (∀ u, mentions a u → u ∈ D) → mentions (assume_true f t a c) v → v ∈ D.
Proof.
  intros Hcl Hc Ha. unfold assume_true. destruct (comparisons t !! c) as [[[o l] r]|] eqn:Ec; [|apply Ha].
  pose proof (Hcl _ _ l (comparison_defined _ _ _ _ Ec) Hc ltac:(by left)) as Hl.
  pose proof (Hcl _ _ r (comparison_defined _ _ _ _ Ec) Hc ltac:(right; by left)) as Hr.
  destruct (unsigned_order o); [|apply Ha]. cbv zeta. destruct (_ && _); [|apply Ha].
  set (a1 := match constants t !! r with Some _ => _ | None => a end).
  assert (∀ u, mentions a1 u → u ∈ D) as H1.
  { intros u. unfold a1. destruct (constants t !! r) as [k|]; [|apply Ha].
    destruct (if bool_decide (o = LessUnsigned) then checked_sub1 k else Some k); [|apply Ha].
    intros [?| ->]%mentions_bound; [by apply Ha|done]. }
  clearbody a1.
  set (a2 := match (if bool_decide (value_type f l = Some ValueType.Int) then widened t !! r else None) with Some _ => _ | None => a1 end).
  assert (∀ u, mentions a2 u → u ∈ D) as H2.
  { intros u. unfold a2. destruct (bool_decide (value_type f l = Some ValueType.Int)); [|apply H1].
    destruct (widened t !! r) as [s|] eqn:Es; [|apply H1].
    pose proof (Hcl _ _ s (widened_defined _ _ Es) Hr ltac:(by left)) as Hs.
    intros [H|[H|(o' & i & s' & H & Hu)]]; [apply H1; by left|apply H1; right; by left|]. simpl in H.
    apply elem_of_union in H as [[= -> -> ->]%elem_of_singleton|H]; [by destruct Hu as [<-|<-]|].
    apply H1. right. right. eauto 10. }
  clearbody a2. destruct (_ && _); [|apply H2].
  intros [?|[<-%operand_value|<-%operand_value]]%mentions_add_relation; [by apply H2|done|done].
Qed.

Lemma across_weaker a args ps : weaker (across a args ps) a.
Proof.
  split; simpl; [set_solver| |set_solver]. intros v u [E _]%map_lookup_filter_Some. exists u. split; [done|lia].
Qed.

Lemma across_mentions a args ps v : mentions (across a args ps) v → v ∉ ps.
Proof.
  assert (∀ u, survives args ps u = true → u ∉ ps) as Hs.
  { intros u. unfold survives. rewrite andb_true_iff, !negb_true_iff, !bool_decide_eq_false. tauto. }
  intros [(o & l & r & H & Hv)|[[u H]|(o & i & s & H & Hv)]]; simpl in H.
  - apply elem_of_filter in H as [Hk _]. simpl in Hk. apply andb_true_iff in Hk as [Hl Hr].
    destruct Hv as [->| ->]; by apply Hs.
  - apply map_lookup_filter_Some in H as [_ Hk]. by apply Hs.
  - apply elem_of_filter in H as [Hk _]. simpl in Hk. apply andb_true_iff in Hk as [Hl Hr].
    destruct Hv as [->| ->]; by apply Hs.
Qed.

Lemma edge_mentions D a args c ps v :
  closed_set D → (∀ x, c = Some x → x ∈ D) → (∀ u, mentions a u → u ∈ D) →
  mentions (edge_facts f t a args c ps) v → v ∈ D ∧ v ∉ ps.
Proof.
  intros Hcl Hc Ha. unfold edge_facts.
  assert (∀ u, mentions (match c with Some c => assume_true f t a c | None => a end) u → u ∈ D) as H'.
  { intros u. destruct c as [x|]; [|apply Ha]. apply mentions_assume; [done|by apply Hc|done]. }
  destruct (bool_decide (args = []) && bool_decide (ps = [])) eqn:E.
  - apply andb_true_iff in E as [_ ->%bool_decide_eq_true]. intros H. split; [by apply H'|by apply not_elem_of_nil].
  - intros H. split; [|by eapply across_mentions]. apply H'. eapply mentions_weaker; [apply across_weaker|exact H].
Qed.

(** ** Steps keep facts true *)

Lemma fit_le type x : (fit type x ≤ x)%N.
Proof. destruct type as [[]|]; simpl; try lia; apply N.Div0.mod_le. Qed.

Lemma holds_step_frame raw_bytes e e' a op :
  (∀ v, mentions a v → get e' v = get e v) → holds f e a →
  (∀ ds pl tr, op = Operation.Load ds pl tr → raw_element f raw_bytes pl = true → (get e' ds ≤ 255)%N) →
  (∀ ds w ex, op ≠ Operation.NarrowSize ds w ex) → (∀ ds w, op ≠ Operation.WidenSize ds w) →
  holds f e' (step_facts f t raw_bytes a op).
Proof.
  intros Hf Ha Hload Hn Hw. pose proof (holds_frame f e e' a Ha Hf) as Ha'. unfold step_facts.
  destruct (invalidates f op).
  { eapply holds_weaker; [|exact Ha']. split; simpl; [set_solver| |done]. intros v u E. exists u. split; [done|lia]. }
  destruct op as [| | | | | | | | | | | | |ds w ex|ds w| | | | | |ds pl tr| | | | | | | | | | | | | | | | | | |]; try done.
  - by destruct (Hn ds w ex).
  - by destruct (Hw ds w).
  - destruct (raw_element f raw_bytes pl) eqn:E; [|done]. apply holds_bound; [done|]. by eapply Hload.
Qed.

Lemma narrow_value e e' ds w ex :
  value_types f !! ds = Some ValueType.Size →
  scalar_effect f e (Operation.NarrowSize ds w ex) = Next e' → get e' ds = (get e w mod u32_limit)%N.
Proof.
  intros Eds. simpl. destruct (_ && _); [done|]. intros [= <-]. rewrite get_set, bool_decide_eq_true_2, Eds by done.
  simpl. by apply N.Div0.mod_mod.
Qed.

Lemma holds_narrow raw_bytes e e' a D ds w ex :
  (∀ v, mentions a v → get e' v = get e v) → holds f e a → fits f e →
  knows e D → (∀ v, mentions a v → D v) → value_types f !! ds = Some ValueType.Size →
  scalar_effect f e (Operation.NarrowSize ds w ex) = Next e' →
  holds f e' (step_facts f t raw_bytes a (Operation.NarrowSize ds w ex)).
Proof.
  intros Hf Ha Hfit Hk HD Eds He. pose proof (holds_frame f e e' a Ha Hf) as Ha'.
  pose proof (narrow_value _ _ _ _ _ Eds He) as Hv. unfold step_facts. simpl.
  set (a' := match upper a !! w with Some up => bound a ds (N.min up u32_max) | None => a end).
  assert (holds f e' a') as H'.
  { unfold a'. destruct (upper a !! w) as [u|] eqn:E; [|done]. apply holds_bound; [done|].
    rewrite Hv. pose proof (holds_upper _ _ _ Ha _ _ E). pose proof (N.Div0.mod_le (get e w) u32_limit).
    pose proof (N.mod_lt (get e w) u32_limit ltac:(done)). unfold u32_max, u32_limit in *. lia. }
  assert (int_bounds a' = int_bounds a) as Eib by (unfold a'; by destruct (upper a !! w)).
  split; [|apply H'|apply H']. intros o l r H. simpl in H. apply elem_of_union in H as [H|H].
  2:{ by apply (holds_relations _ _ _ H'). }
  unfold narrowed in H. apply elem_of_list_to_set, list_elem_of_omap in H as ([[o' l'] s] & Hin & Heq).
  destruct (N.eqb_spec l' w) as [->|]; [|done]. injection Heq as <- <- <-.
  apply elem_of_elements in Hin. rewrite Eib in Hin. pose proof (holds_bounds _ _ _ Ha _ _ _ Hin) as [Hs Ho].
  assert (mentions a s) as Hms by (right; right; eauto 10).
  assert (eval e' (operand t s) = get e s) as ->.
  { rewrite <- (operand_eval e D s Hk (HD s Hms)). unfold operand. destruct (constants t !! s); [done|]. by apply Hf. }
  simpl. rewrite Hv. pose proof (fits_size _ _ _ Hfit Hs).
  assert (get e w < u32_limit)%N as Hw by (destruct o'; simpl in Ho; try done; lia).
  by rewrite N.mod_small.
Qed.

Lemma holds_scalar_step raw_bytes e e' a D op :
  (∀ v, mentions a v → get e' v = get e v) → holds f e a → fits f e →
  knows e D → (∀ v, mentions a v → D v) → check_scalar_operation f op = Ok tt →
  scalar_effect f e op = Next e' → holds f e' (step_facts f t raw_bytes a op).
Proof.
  intros Hf Ha Hfit Hk HD Hop He.
  destruct op as [| | | | | | | | | | | | |ds w ex|ds w| | | | | |ds pl tr| | | | | | | | | | | | | | | | | | |] eqn:Eop;
    try (eapply holds_step_frame; [exact Hf|exact Ha|intros; simplify_eq; done|congruence|congruence]).
  - simpl in Hop. destruct (require_type f ds ValueType.Size) as [[]|] eqn:Eds; simpl in Hop; [|done].
    apply require_type_spec in Eds. by eapply holds_narrow.
  - pose proof (holds_frame f e e' a Ha Hf) as Ha'. unfold step_facts. simpl.
    destruct (upper a !! w) as [u|] eqn:E; [|done]. apply holds_bound; [done|]. simpl in He. injection He as <-.
    rewrite get_set, bool_decide_eq_true_2 by done. pose proof (holds_upper _ _ _ Ha _ _ E).
    pose proof (fit_le (value_types f !! ds) (get e w)). lia.
Qed.

Definition closed_under (D : ValueId → Prop) : Prop :=
  ∀ op v u, defined op v → D v → u ∈ operation_uses op → D u.

Lemma holds_guard contributes e a D p op :
  holds f e a → knows e D → closed_under D → (∀ v, v ∈ operation_uses op → D v) →
  scalar_effect f e op = Next e ∨ guarded f t op = None → holds f e (after_guard contributes a p op).
Proof.
  intros Ha Hk Hcl Hu He. unfold after_guard. destruct (guarded f t op) as [[[o x] y]|] eqn:E; [|done].
  destruct He as [He|]; [|done]. destruct (contributes p); [|done].
  apply guarded_spec in E as (c & k & l & r & -> & Ec & Ho & Hl & -> & ->). simpl in He.
  assert (D c) as Hc by (apply Hu; by left).
  pose proof (Hcl _ _ l (comparison_defined _ _ _ _ Ec) Hc ltac:(by left)) as HlD.
  pose proof (Hcl _ _ r (comparison_defined _ _ _ _ Ec) Hc ltac:(right; by left)) as HrD.
  apply holds_add_relation; [done|]. rewrite (operand_eval e D), (operand_eval e D) by done.
  apply (comparison_true e D c); [done|done|done|done|by right|].
  by destruct (N.eqb_spec (get e c) 0).
Qed.

Lemma holds_assume e a D c :
  holds f e a → knows e D → closed_under D → D c → get e c ≠ 0%N → holds f e (assume_true f t a c).
Proof.
  intros Ha Hk Hcl Hc Hnz. unfold assume_true. destruct (comparisons t !! c) as [[[o l] r]|] eqn:Ec; [|done].
  destruct (unsigned_order o) eqn:Ho; [|done]. cbv zeta.
  destruct ((_ || _) && _) eqn:Ek; [|done]. rewrite andb_true_iff, orb_true_iff, !bool_decide_eq_true in Ek.
  destruct Ek as [Hkind Hsame].
  pose proof (Hcl _ _ l (comparison_defined _ _ _ _ Ec) Hc ltac:(by left)) as HlD.
  pose proof (Hcl _ _ r (comparison_defined _ _ _ _ Ec) Hc ltac:(right; by left)) as HrD.
  pose proof (proj1 (comparison_true e D c o l r Hk Hc Ec Ho Hkind) Hnz) as Hlr.
  set (a1 := match constants t !! r with Some _ => _ | None => a end).
  assert (holds f e a1) as H1.
  { unfold a1. destruct (constants t !! r) as [k|] eqn:Er; [|done].
    pose proof (constant_known e D r k Hk HrD Er) as Hr. destruct o; try done; simpl in *.
    - unfold checked_sub1. destruct (N.eqb_spec k 0); [done|].
      apply holds_bound; [done|]. lia.
    - apply holds_bound; [done|]. lia. }
  clearbody a1.
  set (a2 := match (if bool_decide (value_type f l = Some ValueType.Int) then widened t !! r else None) with Some _ => _ | None => a1 end).
  assert (holds f e a2) as H2.
  { unfold a2. destruct (bool_decide (value_type f l = Some ValueType.Int)); [|done].
    destruct (widened t !! r) as [s|] eqn:Es; [|done]. split; [apply H1|apply H1|]. intros o' i s' H. simpl in H.
    apply elem_of_union in H as [[= -> -> ->]%elem_of_singleton|H]; [|by eapply (holds_bounds _ _ _ H1)].
    split; [by eapply widened_type|]. pose proof (Hk _ _ (widened_defined _ _ Es) HrD) as Hw. simpl in Hw.
    by rewrite <- Hw. }
  clearbody a2. destruct (_ && _); [|done]. apply holds_add_relation; [done|].
  by rewrite (operand_eval e D), (operand_eval e D).
Qed.

(** ** The entries of a fixed point *)

Context (raw_bytes : gset LayoutId) (contributes : Point → bool) (es : list (option Facts)).
Hypothesis fixed : fixed_entries f raw_bytes contributes es.

(** The facts at a point: the entry's, stepped over the operations before it. *)
Definition point_facts (id : BlockId) (i : nat) : option Facts :=
  p ← positions f !! id;
  b ← blocks f !! p;
  e ← es !! p;
  a ← e;
  Some (block_facts f t raw_bytes contributes id 0 (take i (operations b)) a).

Lemma block_position id b : index !! id = Some b → ∃ p, positions f !! id = Some p ∧ blocks f !! p = Some b.
Proof.
  intros E. pose proof (index_blocks_spec _ _ (checked_index _ _ _ _ checked)) as Hix.
  apply Hix in E as Hb. destruct Hb as [Hb <-]. destruct (positions_total f b Hb) as [p Ep]. exists p. split; [done|].
  destruct (positions_lookup _ _ _ Ep) as (b' & Eb & Hid). rewrite Eb. f_equal.
  assert (index !! block_id b' = Some b') as E' by (apply Hix; split; [by eapply list_elem_of_lookup_2|done]).
  rewrite Hid in E'. congruence.
Qed.

Lemma block_facts_snoc id k ops op a :
  block_facts f t raw_bytes contributes id k (ops ++ [op]) a =
  step_facts f t raw_bytes
    (after_guard contributes (block_facts f t raw_bytes contributes id k ops a) (id, (k + length ops)%nat) op) op.
Proof.
  revert k a. induction ops as [|x ops IH]; intros k a; simpl; [by rewrite Nat.add_0_r|].
  rewrite IH. by replace (S k + length ops)%nat with (k + S (length ops))%nat by lia.
Qed.

Lemma point_facts_operation id b i op a :
  index !! id = Some b → operations b !! i = Some op → point_facts id i = Some a →
  point_facts id (S i) = Some (step_facts f t raw_bytes (after_guard contributes a (id, i) op) op).
Proof.
  intros E Eo. destruct (block_position id b E) as (p & Ep & Eb). unfold point_facts. rewrite Ep. simpl. rewrite Eb. simpl.
  destruct (es !! p) as [[x|]|]; simpl; [|done..]. intros [= <-]. f_equal.
  rewrite (take_S_r _ _ op Eo), block_facts_snoc. simpl. rewrite length_take_le; [done|].
  apply lookup_lt_Some in Eo. lia.
Qed.

Lemma point_facts_entry a : point_facts (entry f) 0 = Some a → weaker a no_facts.
Proof.
  unfold point_facts. destruct (positions f !! entry f) as [p|] eqn:Ep; simpl; [|done].
  destruct (blocks f !! p); simpl; [|done]. destruct (fixed_start _ _ _ _ fixed p Ep) as (x & Ex & Hx).
  rewrite Ex. simpl. by intros [= <-].
Qed.

Lemma point_facts_start b : index !! entry f = Some b → is_Some (point_facts (entry f) 0).
Proof.
  intros (p & Ep & Eb)%block_position. destruct (fixed_start _ _ _ _ fixed p Ep) as (x & Ex & _).
  unfold point_facts. rewrite Ep. simpl. rewrite Eb. simpl. rewrite Ex. done.
Qed.

Lemma point_facts_edge id b target b' args c a :
  index !! id = Some b → (target, args, c) ∈ edges (terminator b) → index !! target = Some b' →
  point_facts id (length (operations b)) = Some a →
  ∃ x, point_facts target 0 = Some x ∧ weaker x (edge_facts f t a args c (block_parameters b')).
Proof.
  intros E He E' Ha. destruct (block_position id b E) as (p & Ep & Eb), (block_position target b' E') as (q & Eq & Eb').
  unfold point_facts in *. rewrite Ep in Ha. simpl in Ha. rewrite Eb in Ha. simpl in Ha.
  destruct (es !! p) as [[y|]|] eqn:Ey; simpl in Ha; [|done..]. injection Ha as <-.
  destruct (fixed_settled _ _ _ _ fixed p y Ey b y _ Eb Ey He q b' Eq Eb') as (x & Ex & Hx).
  exists x. rewrite Eq. simpl. rewrite Eb'. simpl. rewrite Ex. split; [done|].
  unfold leaving in Hx. rewrite firstn_all. simpl in Hx.
  apply (index_blocks_spec _ _ (checked_index _ _ _ _ checked)) in E as [_ <-]. exact Hx.
Qed.

Lemma edges_successor target args c term :
  (target, args, c) ∈ edges term → target ∈ successors term ∧ (∀ x, c = Some x → x ∈ terminator_uses term).
Proof.
  destruct term; simpl; rewrite ?elem_of_cons, ?elem_of_nil; try done.
  - intros [H|[]]. simplify_eq. split; [by left|done].
  - intros [H|[H|[]]]; simplify_eq; (split; [tauto|]); [|done]. intros x Hx. simplify_eq. by left.
Qed.

Lemma successor_edge target term : target ∈ successors term → ∃ args c, (target, args, c) ∈ edges term.
Proof.
  destruct term; simpl; rewrite ?elem_of_cons, ?elem_of_nil; try done.
  - intros [->|[]]. eexists _, _. by left.
  - intros [->|[->|[]]]; eexists _, _; [by left|right; by left].
Qed.

(** The facts of a point name only what each path to it has defined. *)
Lemma path_mentions id i D :
  path f index id i D → ∃ a, point_facts id i = Some a ∧ ∀ v, mentions a v → v ∈ D.
Proof.
  induction 1 as [b E|id i D b op Hp (a & Ea & Ha) E Eo|id D b t' b' Hp (a & Ea & Ha) E Ht E'].
  - destruct (point_facts_start b E) as [a Ea]. exists a. split; [done|]. intros v Hv.
    apply (mentions_weaker _ _ _ (point_facts_entry _ Ea)) in Hv.
    destruct Hv as [(o & l & r & H & _)|[[u H]|(o & l & r & H & _)]]; simpl in H; [set_solver| |set_solver].
    by rewrite lookup_empty in H.
  - eexists. split; [by eapply point_facts_operation|]. intros v [Hv|Hv]%mentions_step.
    + apply elem_of_union_l. eapply mentions_guard; [by eapply path_closed| |exact Ha|exact Hv].
      by eapply operation_uses_defined.
    + apply elem_of_union_r. by apply elem_of_list_to_set.
  - destruct (successor_edge _ _ Ht) as (args & c & He).
    destruct (point_facts_edge _ _ _ _ _ _ _ E He E' Ea) as (x & Ex & Hx). exists x. split; [done|].
    intros v Hv. apply elem_of_union_l.
    eapply (edge_mentions D a args c); [by eapply path_closed| |exact Ha|by eapply mentions_weaker].
    intros y Hy. eapply terminator_uses_defined; [done|exact Hp|exact E|].
    by eapply (edges_successor _ _ _ _ He).
Qed.

Lemma mentions_available id i a v : point_facts id i = Some a → mentions a v → available_at id i v.
Proof. intros Ea Hv D (a' & Ea' & Ha)%path_mentions. apply Ha. congruence. Qed.

Lemma available_closed id i : closed_under (available_at id i).
Proof. intros op v u Hd Hv Hu D Hp. eapply path_closed; [done|exact Hp|exact Hd|by apply Hv|done]. Qed.

(** A value is not available where it is about to be defined. *)
Lemma fresh_destination id i D b op v :
  path f index id i D → index !! id = Some b → operations b !! i = Some op → v ∈ operation_destinations op →
  ¬ available_at id i v.
Proof.
  intros Hp E Eo Hv Hav. destruct (first_operation _ _ _ _ checked id b i op v E Eo Hv _ _ _ Hp (Hav _ Hp))
    as (D' & Hp' & Hn). by apply Hn, Hav.
Qed.

(** ** The invariant of a run *)

Record sound_point (id : BlockId) (i : nat) (e : locals) : Prop := {
  point_path : ∃ D, path f index id i D;
  point_fits : fits f e;
  point_knows : knows e (available_at id i);
  point_holds : ∃ a, point_facts id i = Some a ∧ holds f e a;
}.

Lemma sound_start b xs :
  index !! entry f = Some b → sound_point (entry f) 0 (set_all f ∅ (block_parameters b) xs).
Proof.
  intros E. split.
  - eexists. by constructor.
  - apply fits_set_all, fits_empty.
  - intros op v Hd Hv. specialize (Hv _ (path_entry _ _ _ E)). apply elem_of_list_to_set in Hv.
    by destruct (defined_by_not_parameter _ _ _ _ checked _ _ _ _ Hd E Hv).
  - destruct (point_facts_start b E) as [a Ea]. exists a. split; [done|].
    eapply holds_weaker; [by apply point_facts_entry|apply holds_no_facts].
Qed.

Lemma known_fresh e e' op :
  fits f e → scalar_effect f e op = Next e' → check_scalar_operation f op = Ok tt →
  (∀ v, v ∈ operation_destinations op → v ∉ operation_uses op) → known f e' op.
Proof.
  intros Hfit He Hop Hnu.
  destruct op as [| | |ds z| | |ds c| | | | | |ds o l r| |ds w| | | | | | | | | | | | | | | | | | | | | | | | |]; try done.
  - simpl in *. injection He as <-. apply require_type_spec in Hop. rewrite get_set, bool_decide_eq_true_2, Hop by done.
    simpl. apply N.mod_small. pose proof (Z.mod_pos_bound z (Z.of_N u64_limit) ltac:(done)) as Hz.
    change (Z.pos (2 ^ 64)) with (Z.of_N u64_limit). revert Hz. generalize (z mod Z.of_N u64_limit)%Z, u64_limit. intros r m Hr. clear -Hr. lia.
  - simpl in *. injection He as <-. destruct (require_type f ds _) as [[]|] eqn:Et; simpl in Hop; [|done].
    apply require_type_spec in Et. rewrite get_set, bool_decide_eq_true_2, Et by done. simpl.
    destruct (N.ltb_spec c u32_limit); [|done]. by apply N.mod_small.
  - simpl in *. destruct (require_type f ds _) as [[]|] eqn:Et; simpl in Hop; [|done]. apply require_type_spec in Et.
    destruct (compare_limit _) as [limit|]; [|done]. injection He as <-.
    pose proof (Hnu ds ltac:(by left)) as Hds. rewrite !get_set, (bool_decide_eq_true_2 (ds = ds)), Et by done.
    rewrite !bool_decide_eq_false_2 by set_solver. by destruct (compare_words _ _ _ _).
  - simpl in *. destruct (require_type f ds _) as [[]|] eqn:Et; simpl in Hop; [|done]. apply require_type_spec in Et, Hop.
    injection He as <-. pose proof (Hnu ds ltac:(by left)) as Hds.
    rewrite !get_set, (bool_decide_eq_true_2 (ds = ds)), Et by done. rewrite bool_decide_eq_false_2 by set_solver.
    simpl. apply N.mod_small. pose proof (fits_size _ _ _ Hfit Hop). unfold u64_limit, u32_limit in *. lia.
Qed.

Lemma known_world e e' op : scalar_effect f e op = World → known f e' op.
Proof.
  destruct op; simpl; try done.
  - destruct (compare_limit _); [done|done].
Qed.

(** The definitions of available values hold after an operation. *)
Lemma knows_operation id i D b op e e' :
  path f index id i D → index !! id = Some b → operations b !! i = Some op →
  knows e (available_at id i) → (∀ u, u ∉ operation_destinations op → get e' u = get e u) →
  known f e' op → knows e' (available_at id (S i)).
Proof.
  intros Hp E Eo Hk Hf Hop op' v Hd Hv. destruct (available_operation _ _ _ _ _ _ _ E Eo Hv) as [Hav|Hin].
  - destruct (decide (v ∈ operation_destinations op)) as [Hin|Hnin].
    { replace op' with op; [done|]. eapply defined_by_unique; [done|by exists id, b, i|exact Hd]. }
    eapply known_frame; [by apply (Hk op' v)|]. intros u Hu. apply Hf. intros Hdest. destruct Hu as [Hu|Hu].
    + apply Hnin. replace op with op'; [by destruct Hd as (? & ? & ? & ? & ? & ?)|].
      eapply (defined_by_unique _ _ _ _ checked _ _ u); [|by exists id, b, i].
      destruct Hd as (id' & b' & i' & E1 & E2 & _). by exists id', b', i'.
    + by eapply (redefined_operation _ _ _ _ checked id b i D op u op' v).
  - replace op' with op; [done|]. eapply defined_by_unique; [done|by exists id, b, i|exact Hd].
Qed.

Lemma sound_operation id i b op e e' :
  index !! id = Some b → operations b !! i = Some op → sound_point id i e → fits f e' →
  (∀ u, u ∉ operation_destinations op → get e' u = get e u) → known f e' op →
  (∀ a, (∀ v, mentions a v → get e' v = get e v) → holds f e a → (∀ v, mentions a v → available_at id i v) →
     holds f e' (step_facts f t raw_bytes a op)) →
  (scalar_effect f e op = Next e ∨ guarded f t op = None) →
  sound_point id (S i) e'.
Proof.
  intros E Eo [[D Hp] Hfit Hk (a & Ea & Ha)] Hfit' Hf Hop Hstep Hg.
  assert (∀ v, v ∈ operation_uses op → available_at id i v) as Hu.
  { intros v Hv D' Hp'. by eapply operation_uses_defined. }
  split; [eexists; by eapply path_operation|done|by eapply knows_operation|].
  eexists. split; [by eapply point_facts_operation|].
  assert (∀ v, mentions (after_guard contributes a (id, i) op) v → available_at id i v) as Hm.
  { intros v Hv D' Hp'. eapply mentions_guard; [by eapply path_closed| | |exact Hv].
    - intros u Hu'. by apply Hu.
    - intros u Hu'. by apply (mentions_available id i a u Ea Hu'). }
  apply Hstep; [|by eapply holds_guard; [|exact Hk|apply available_closed| |]|exact Hm].
  intros v Hv. apply Hf. intros Hd. by eapply fresh_destination; [exact Hp|exact E|exact Eo|exact Hd|apply Hm].
Qed.

Lemma sound_edge id b target b' args c e :
  index !! id = Some b → (target, args, c) ∈ edges (terminator b) → index !! target = Some b' →
  (∀ x, c = Some x → get e x ≠ 0%N) → sound_point id (length (operations b)) e →
  sound_point target 0 (set_all f e (block_parameters b') (List.map (get e) args)).
Proof.
  intros E He E' Hc [[D Hp] Hfit Hk (a & Ea & Ha)]. destruct (edges_successor _ _ _ _ He) as [Ht Huse].
  pose proof (path_edge _ _ _ _ _ _ _ Hp E Ht E') as Hp'.
  assert (∀ u, u ∉ block_parameters b' →
    get (set_all f e (block_parameters b') (List.map (get e) args)) u = get e u) as Hf by (intros u; apply get_set_all_other).
  assert (∀ x, c = Some x → available_at id (length (operations b)) x) as Hav.
  { intros x Hx D' HD'. eapply terminator_uses_defined; [done|exact HD'|exact E|by apply Huse]. }
  split; [by eexists|by apply fits_set_all| |].
  - intros op v Hd Hv. pose proof (defined_by_not_parameter _ _ _ _ checked _ _ _ _ Hd E') as Hnp.
    destruct (available_edge _ _ _ _ _ _ _ E Ht E' Hv) as [Hv'|]; [|done].
    eapply known_frame; [by apply (Hk op v)|]. intros u Hu. apply Hf. intros Hpar. destruct Hu as [Hu|Hu].
    + destruct Hd as (id' & b1 & i' & E1 & E2 & _).
      by apply (defined_by_not_parameter _ _ _ _ checked op u target b'); [exists id', b1, i'|..].
    + by eapply (redefined_parameter _ _ _ _ checked target b' 0 _ u op v).
  - destruct (point_facts_edge _ _ _ _ _ _ _ E He E' Ea) as (x & Ex & Hx). exists x. split; [done|].
    assert (∀ v, mentions x v → v ∉ block_parameters b') as Hm.
    { intros v Hv. eapply (edge_mentions D a args c); [by eapply path_closed| | |by eapply mentions_weaker].
      - intros y Hy. by apply Hav.
      - intros y Hy. by apply (mentions_available _ _ _ _ Ea Hy). }
    eapply (holds_frame f e); [|intros v Hv; by apply Hf, Hm]. eapply holds_weaker; [exact Hx|]. unfold edge_facts.
    assert (holds f e (match c with Some c => assume_true f t a c | None => a end)) as H'.
    { destruct c as [y|]; [|done].
      eapply holds_assume; [done|exact Hk|apply available_closed|by apply Hav|by apply Hc]. }
    destruct (_ && _); [done|]. eapply holds_weaker; [apply across_weaker|exact H'].
Qed.

Section run.
Context {W : Type} (perform : Operation → locals → W → option (list N * W) → Prop).

(** A [Size] element of a raw-byte layout reads a byte. *)
Definition reads_bytes : Prop := ∀ ds pl tr e w xs w',
  raw_element f raw_bytes pl = true → perform (Operation.Load ds pl tr) e w (Some (xs, w')) →
  ∃ x, xs = [x] ∧ (x ≤ 255)%N.
Hypothesis bytes : reads_bytes.

Definition sound_state (s : state W) : Prop :=
  match s with Running id i e _ => sound_point id i e | _ => True end.

Lemma sound_enter e w target args b c id s :
  index !! id = Some b → (target, args, c) ∈ edges (terminator b) → (∀ x, c = Some x → get e x ≠ 0%N) →
  sound_point id (length (operations b)) e → enter f index e w target args = Some s → sound_state s.
Proof.
  intros E He Hc Hs. unfold enter. destruct (index !! target) as [b'|] eqn:E'; simpl; [|done]. intros [= <-].
  by apply (sound_edge id b target b' args c).
Qed.

Lemma sound_step s s' : step perform f index s s' → sound_state s → sound_state s'.
Proof.
  destruct 1 as [id b i op e e' w E Eo He|id b i op e w E Eo He|id b i op e w xs w' E Eo He Hpf|id b i op e w E Eo He Hpf
    |id b e w s E Hl]; intros Hs; simpl in *; try done.
  - assert (check_scalar_operation f op = Ok tt) as Hop.
    { eapply (scalars b); [|by eapply list_elem_of_lookup_2].
      by apply (index_blocks_spec _ _ (checked_index _ _ _ _ checked)) in E as [? _]. }
    assert (∀ v, v ∈ operation_destinations op → v ∉ operation_uses op) as Hnu.
    { intros v Hd Hu. destruct (point_path _ _ _ Hs) as [D Hp].
      eapply fresh_destination; [exact Hp|exact E|exact Eo|exact Hd|].
      intros D' Hp'. by eapply operation_uses_defined. }
    eapply sound_operation; [exact E|exact Eo|exact Hs
      |eapply fits_effect; [apply (point_fits _ _ _ Hs)|exact He]|intros u; by eapply effect_other
      |eapply known_fresh; [apply (point_fits _ _ _ Hs)|exact He|exact Hop|exact Hnu]| |].
    + intros a Hf Ha Hav. eapply holds_scalar_step;
        [exact Hf|exact Ha|apply (point_fits _ _ _ Hs)|apply (point_knows _ _ _ Hs)|exact Hav|done|done].
    + destruct op; try by right. left. simpl in *. destruct (get e condition =? 0)%N; [done|]. congruence.
  - eapply sound_operation; [exact E|exact Eo|exact Hs|apply fits_set_all, (point_fits _ _ _ Hs)|intros u; apply get_set_all_other
      |by eapply known_world| |].
    + intros a Hf Ha Hav. eapply holds_step_frame; [exact Hf|exact Ha| |by intros ds v ex ->; simpl in He; repeat case_match|by intros ds v ->].
      intros ds pl tr -> Hraw. destruct (bytes _ _ _ _ _ _ _ Hraw Hpf) as (x & -> & Hx). simpl.
      rewrite get_set, bool_decide_eq_true_2 by done. pose proof (fit_le (value_types f !! ds) x). lia.
    + right. destruct op; try done. simpl in He. by destruct (get e condition =? 0)%N.
  - destruct (terminator b) as [target args|c tt ta et ea|vs|st cl args|st cl sg args| |] eqn:Et; simpl in Hl;
      try by injection Hl as <-.
    + eapply (sound_enter e w target args b None); [exact E|rewrite Et; by left|done|exact Hs|exact Hl].
    + destruct (N.eqb_spec (get e c) 0) as [Hz|Hz].
      * eapply (sound_enter e w et ea b None); [exact E|rewrite Et; right; by left|done|exact Hs|exact Hl].
      * eapply (sound_enter e w tt ta b (Some c)); [exact E|rewrite Et; by left|by intros x [= ->]|exact Hs|exact Hl].
Qed.

Lemma sound_reaches arguments w s : reaches perform f index arguments w s → sound_state s.
Proof.
  intros (s0 & Hstart & Hrun). unfold start in Hstart. destruct (index !! entry f) as [b|] eqn:E; simpl in Hstart; [|done].
  injection Hstart as <-. assert (sound_state (Running (entry f) 0 (set_all f ∅ (block_parameters b) arguments) w)) as H0.
  { simpl. by apply sound_start. }
  revert H0. induction Hrun as [|s1 s2 s3 Hstep _ IH]; [done|]. intros H0. apply IH. by eapply sound_step.
Qed.
End run.

(** ** The verdicts *)

Definition operation_verdict (a : Facts) (op : Operation) : Prop :=
  (∃ fact, guarded f t op = Some fact ∧ guard_holds a fact = true) ∨
  (∃ ds v, op = Operation.NarrowSize ds v false ∧ narrowing_fits a v = true).

Definition block_verdict (b : BasicBlock) (a : Facts) (p : Point) : Prop :=
  (∃ i op, p = (block_id b, i) ∧ operations b !! i = Some op ∧
     operation_verdict (block_facts f t raw_bytes contributes (block_id b) 0 (take i (operations b)) a) op) ∨
  (∃ c tt ta et ea, p = (block_id b, length (operations b)) ∧ terminator b = Terminator.BranchIf c tt ta et ea ∧
     branch_holds f t (block_facts f t raw_bytes contributes (block_id b) 0 (operations b) a) c = Some true).

Lemma insert_true (m : gmap Point bool) p q x : <[p := x]> m !! q = Some true → m !! q = Some true ∨ q = p ∧ x = true.
Proof. rewrite lookup_insert_Some. intros [[-> ->]|[_ ?]]; tauto. Qed.

Lemma block_verdicts_spec id k ops a m :
  let r := block_verdicts f t raw_bytes contributes id k ops a m in
  r.2 = block_facts f t raw_bytes contributes id k ops a ∧
  ∀ p, r.1 !! p = Some true → m !! p = Some true ∨
    ∃ i op, p = (id, (k + i)%nat) ∧ ops !! i = Some op ∧
      operation_verdict (block_facts f t raw_bytes contributes id k (take i ops) a) op.
Proof.
  revert k a m. induction ops as [|op ops IH]; intros k a m; simpl; [by split; [|left]|].
  match goal with |- context [block_verdicts _ _ _ _ _ _ _ ?a1 ?m1] => set (a' := a1); set (m' := m1) end.
  assert (a' = operation_facts f t raw_bytes contributes a (id, k) op) as Ea by done.
  destruct (IH (S k) a' m') as [H1 H2]. split; [by rewrite H1|]. intros p Hp.
  destruct (H2 p Hp) as [Hm|(i & op' & -> & Eo & Hv)].
  - assert (m !! p = Some true ∨ p = (id, k) ∧ operation_verdict a op) as [?|[-> Hv]]; [|by left|].
    { unfold m' in Hm. destruct (guarded f t op) as [fact|] eqn:Eg.
      - assert (∀ ds v ex, op ≠ Operation.NarrowSize ds v ex) as Hn by (intros ds v ex ->; done).
        destruct op; try done; apply insert_true in Hm as [?|[-> Hg]]; [by left|right; split; [done|left; eauto]..].
      - destruct op as [| | | | | | | | | | | | |ds v []| | | | | | | | | | | | | | | | | | | | | | | | | |]; try by left.
        apply insert_true in Hm as [?|[-> Hg]]; [by left|]. right. split; [done|right; eauto]. }
    right. exists 0%nat, op. rewrite Nat.add_0_r. by split.
  - right. exists (S i), op'. split; [f_equal; lia|]. split; [done|]. simpl. by rewrite <- Ea.
Qed.

Lemma block_implied_spec b a m p :
  block_implied f t raw_bytes contributes b a m !! p = Some true → m !! p = Some true ∨ block_verdict b a p.
Proof.
  unfold block_implied. destruct (block_verdicts_spec (block_id b) 0 (operations b) a m) as [H1 H2].
  destruct (block_verdicts f t raw_bytes contributes (block_id b) 0 (operations b) a m) as [m' a']. simpl in *. subst a'.
  assert (m' !! p = Some true → m !! p = Some true ∨ block_verdict b a p) as Hm.
  { intros [?|(i & op & -> & Eo & Hv)]%H2; [by left|]. right. left. by exists i, op. }
  destruct (terminator b) as [|c tt ta et ea| | | | |] eqn:Et; try done.
  destruct (branch_holds _ _ _ _) as [h|] eqn:Eh; [|done]. intros [?|[-> ->]]%insert_true; [by apply Hm|].
  right. right. by exists c, tt, ta, et, ea.
Qed.

Lemma verdicts_spec bs xs m p :
  verdicts f t raw_bytes contributes bs xs m !! p = Some true → m !! p = Some true ∨
  ∃ j b a, bs !! j = Some b ∧ xs !! j = Some (Some a) ∧ block_verdict b a p.
Proof.
  revert xs m. induction bs as [|b bs IH]; intros [|[a|] xs] m; simpl; try by left.
  - intros [H|(j & b' & a' & Hb & Ha & Hv)]%IH.
    + apply block_implied_spec in H as [?|Hv]; [by left|right]. by exists 0%nat, b, a.
    + right. by exists (S j), b', a'.
  - intros [H|(j & b' & a' & Hb & Ha & Hv)]%IH; [by left|right]. by exists (S j), b', a'.
Qed.

Lemma branch_holds_sound e a D c :
  holds f e a → knows e D → closed_under D → D c → branch_holds f t a c = Some true → get e c ≠ 0%N.
Proof.
  intros Ha Hk Hcl Hc. unfold branch_holds. destruct (comparisons t !! c) as [[[o l] r]|] eqn:Ec; [|done].
  destruct (_ && _) eqn:Ek; [|done]. rewrite !andb_true_iff, orb_true_iff, !bool_decide_eq_true in Ek.
  destruct Ek as [[Ho Hkind] Hsame].
  pose proof (Hcl _ _ l (comparison_defined _ _ _ _ Ec) Hc ltac:(by left)) as HlD.
  pose proof (Hcl _ _ r (comparison_defined _ _ _ _ Ec) Hc ltac:(right; by left)) as HrD.
  intros [= Hb]. apply (comparison_true e D c o l r Hk Hc Ec Ho Hkind).
  destruct (constants t !! r) as [k|] eqn:Er.
  - rewrite <- (constant_known e D r k Hk HrD Er) in Hb. destruct (upper_of a l _) as [u|] eqn:Eu; [|done].
    apply (upper_of_holds f e) in Eu; [|done|intros x; by apply (widened_size_bounds_holds f)].
    destruct o; try done; simpl; [apply N.ltb_lt in Hb|apply N.leb_le in Hb]; lia.
  - case_bool_decide as Hint.
    + destruct (widened t !! r) as [s|] eqn:Es; [|done].
      pose proof (Hk _ _ (widened_defined _ _ Es) HrD) as Hw. simpl in Hw. rewrite Hw.
      rewrite orb_true_iff, !bool_decide_eq_true in Hb.
      destruct Hb as [Hb|Hb]; apply (holds_bounds _ _ _ Ha) in Hb as [_ Hb]; [|done].
      destruct o; try done; simpl in *; lia.
    + apply (proves_holds f e a) in Hb; [|done|done]. by rewrite !(operand_eval e D) in Hb.
Qed.

(** What a verdict says of the locals at its point. *)
Record point_holds_at (b : BasicBlock) (i : nat) (e : locals) : Prop := {
  guard_true : ∀ c k, operations b !! i = Some (Operation.Guard c k) → get e c ≠ 0%N;
  narrowing_true : ∀ ds v, operations b !! i = Some (Operation.NarrowSize ds v false) → (get e v < u32_limit)%N;
  branch_true : ∀ c tt ta et ea, i = length (operations b) →
    terminator b = Terminator.BranchIf c tt ta et ea → get e c ≠ 0%N;
}.

Lemma verdict_sound id b i e :
  index !! id = Some b → sound_point id i e →
  verdicts f t raw_bytes contributes (blocks f) es ∅ !! (id, i) = Some true → point_holds_at b i e.
Proof.
  intros E Hs Hv. apply verdicts_spec in Hv as [Hv|(j & b' & x & Eb' & Ex & Hv)]; [by rewrite lookup_empty in Hv|].
  pose proof (index_blocks_spec _ _ (checked_index _ _ _ _ checked)) as Hix.
  assert (block_id b' = id) as Hid.
  { destruct Hv as [(? & ? & [= -> ->] & _)|(? & ? & ? & ? & ? & [= -> ->] & _)]; done. }
  assert (b' = b) as ->.
  { assert (index !! id = Some b') as E' by (apply Hix; split; [by eapply list_elem_of_lookup_2|done]). congruence. }
  destruct (block_position id b E) as (p & Ep & Eb).
  assert (p = j) as ->.
  { by eapply index_blocks_unique; [apply (checked_index _ _ _ _ checked)|..]. }
  destruct Hs as [[D Hp] Hfit Hk (a & Ea & Ha)].
  assert (∀ k, point_facts id k = Some (block_facts f t raw_bytes contributes id 0 (take k (operations b)) x)) as Hpf.
  { intros k. unfold point_facts. rewrite Ep. simpl. rewrite Eb. simpl. by rewrite Ex. }
  rewrite Hpf in Ea. injection Ea as <-. unfold block_verdict in Hv. rewrite Hid in Hv.
  destruct Hv as [(i' & op & [= <-] & Eo & Hv)|(c & tt & ta & et & ea & [= ->] & Et & Hv)].
  - destruct Hv as [([[o y] z] & Eg & Hg)|(ds & v & -> & Hn)].
    + apply guarded_spec in Eg as Hspec. destruct Hspec as (c & k & l & r & -> & Ec & Ho & Hl & -> & ->).
      split; [|congruence|intros; subst; by apply lookup_lt_Some in Eo; lia].
      intros c' k' Eo'. rewrite Eo in Eo'. injection Eo' as <- <-.
      assert (available_at id i c) as Hc.
      { intros D' Hp'. eapply operation_uses_defined; [done|exact Hp'|exact E|exact Eo|by left]. }
      pose proof (available_closed id i _ _ l (comparison_defined _ _ _ _ Ec) Hc ltac:(by left)) as HlD.
      pose proof (available_closed id i _ _ r (comparison_defined _ _ _ _ Ec) Hc ltac:(right; by left)) as HrD.
      apply (comparison_true e _ c o l r Hk Hc Ec Ho); [by right|].
      apply (guard_holds_sound f e _ o) in Hg; [|done|done]. by rewrite !(operand_eval e _ _ Hk) in Hg.
    + split; [congruence| |intros; subst; by apply lookup_lt_Some in Eo; lia].
      intros ds' v' Eo'. rewrite Eo in Eo'. injection Eo' as <- <-. by eapply narrowing_fits_sound.
  - split.
    + intros c' k' Eo. apply lookup_lt_Some in Eo. lia.
    + intros ds' v' Eo. apply lookup_lt_Some in Eo. lia.
    + intros c' tt' ta' et' ea' _ Et'. rewrite Et in Et'. injection Et' as <- <- <- <- <-.
      rewrite firstn_all in Ha. eapply branch_holds_sound; [exact Ha|exact Hk|apply available_closed| |exact Hv].
      intros D' Hp'. eapply terminator_uses_defined; [done|exact Hp'|exact E|]. rewrite Et. by left.
Qed.
End sound.

(** ** The analysis *)

Lemma flow_loop_more f t raw_bytes contributes n m es pending r :
  flow_loop f t raw_bytes contributes n es pending = Done r → (n ≤ m)%nat →
  flow_loop f t raw_bytes contributes m es pending = Done r.
Proof.
  revert m es pending. induction n as [|n IH]; intros [|m] es pending H Hm; [done|done|lia|].
  cbn [flow_loop] in *. destruct pending as [|p pending]; [done|].
  destruct (blocks f !! p); [|done]. destruct (es !! p) as [[a|]|]; [|done..]. cbv zeta in *.
  destruct (flow_edges _ _ _ _ _ _) as [[es' p']| |]; cbn [mbind outcome_bind] in *; [|done..].
  apply IH; [done|lia].
Qed.

Lemma implied_guards_more f raw_bytes contributes n m r :
  implied_guards n f raw_bytes contributes = Done r → (n ≤ m)%nat → implied_guards m f raw_bytes contributes = Done r.
Proof.
  unfold implied_guards. intros H Hm. destruct (positions f !! entry f); [|done].
  destruct (flow_loop f _ raw_bytes contributes n _ _) as [es| |] eqn:E; cbn [mbind outcome_bind] in H; [|done..].
  by rewrite (flow_loop_more _ _ _ _ _ _ _ _ _ E Hm).
Qed.

(** [ConstInt] holds an [i64]. *)
Definition int_constants (f : Function) : Prop :=
  ∀ b v z, b ∈ blocks f → Operation.ConstInt v z ∈ operations b → (- 2 ^ 63 ≤ z < 2 ^ 63)%Z.

Lemma implied_point_sound {W} (perform : Operation → locals → W → option (list N * W) → Prop)
    f index predecessors d raw_bytes contributes n m arguments w id b i e w' :
  flow_checked f index predecessors d → scalar_checked f → int_constants f → reads_bytes f raw_bytes perform →
  implied_guards n f raw_bytes contributes = Done m → m !! (id, i) = Some true →
  index !! id = Some b → reaches perform f index arguments w (Running id i e w') → point_holds_at b i e.
Proof.
  intros Hc Hs Hi Hb Hn Hm E Hr. destruct (implied_guards_total f raw_bytes contributes) as (k & m' & Hk & Hfix).
  assert (m' = m) as ->.
  { pose proof (implied_guards_more _ _ _ _ (max n k) _ Hn ltac:(lia)) as H1. rewrite Hk in H1 by lia. by injection H1. }
  destruct Hfix as (es & Hes & ->).
  { destruct (checked_entry _ _ _ _ Hc) as [b0 E0]. pose proof (index_member _ _ _ _ Hc _ _ E0) as [Hb0 <-].
    by apply positions_total. }
  eapply verdict_sound; try eassumption.
  exact (sound_reaches f index predecessors d Hc Hs Hi raw_bytes contributes es Hes perform Hb arguments w _ Hr).
Qed.

(** Deciding the scalar checks and the range of the constants. *)
Lemma scalar_checked_intro f :
  forallb (λ b, forallb (λ op, match check_scalar_operation f op with Ok _ => true | Err _ => false end) (operations b))
    (blocks f) = true → scalar_checked f.
Proof.
  intros H b op Hb Ho. rewrite forallb_forall in H. specialize (H b (proj1 (list_elem_of_In _ _) Hb)).
  rewrite forallb_forall in H. specialize (H op (proj1 (list_elem_of_In _ _) Ho)).
  by destruct (check_scalar_operation f op) as [[]|].
Qed.

Definition is_i64 (op : Operation) : bool :=
  match op with Operation.ConstInt _ z => (- 2 ^ 63 <=? z)%Z && (z <? 2 ^ 63)%Z | _ => true end.

Lemma int_constants_intro f : forallb (λ b, forallb is_i64 (operations b)) (blocks f) = true → int_constants f.
Proof.
  intros H b v z Hb Ho. rewrite forallb_forall in H. specialize (H b (proj1 (list_elem_of_In _ _) Hb)).
  rewrite forallb_forall in H. specialize (H _ (proj1 (list_elem_of_In _ _) Ho)). simpl in H. lia.
Qed.

(** C5: soundness of the guard analysis.  When a run of a function,
    all blocks of which pass the control-flow checks ([strict_flow]), stands
    at a point the analysis calls implied, the guard there holds, the narrowed
    value fits 32 bits, the branch is taken to its true edge: for every choice
    of the guards that establish facts. *)
Theorem implied_guards_sound {W} (perform : Operation → locals → W → option (list N * W) → Prop)
    k f index raw_bytes contributes n m arguments w id b i e w' :
  strict_flow k f = Done (Ok tt) → index_blocks f = Ok index → scalar_checked f → int_constants f →
  reads_bytes f raw_bytes perform →
  implied_guards n f raw_bytes contributes = Done m → m !! (id, i) = Some true →
  index !! id = Some b → reaches perform f index arguments w (Running id i e w') →
  (∀ c kind, operations b !! i = Some (Operation.Guard c kind) → get e c ≠ 0%N) ∧
  (∀ ds v, operations b !! i = Some (Operation.NarrowSize ds v false) → (get e v < 2 ^ 32)%N) ∧
  (∀ c tt ta et ea, i = length (operations b) → terminator b = Terminator.BranchIf c tt ta et ea → get e c ≠ 0%N).
Proof.
  intros Hf Hi Hs Hc Hb Hn Hm E Hr. destruct (strict_flow_checked _ _ _ Hf Hi) as (preds & d & Hchecked).
  destruct (implied_point_sound perform _ _ _ _ _ _ _ _ _ _ _ _ _ _ _ Hchecked Hs Hc Hb Hn Hm E Hr) as [H1 H2 H3].
  split; [exact H1|]. split; [exact H2|exact H3].
Qed.

(** The sample's world: it adds. *)
Definition adds (op : Operation) (e : locals) (w : unit) (r : option (list N * unit)) : Prop :=
  match op with
  | Operation.Arithmetic _ Add l ri Wrap => r = Some ([(get e l + get e ri)%N], tt)
  | _ => False
  end.

(** The locals at the body's guard, in the first round of a loop to 2. *)
Definition body_locals : locals :=
  set guarded_loop (set guarded_loop (set guarded_loop (set guarded_loop (set guarded_loop ∅ 0 2) 1 0) 2 0) 3 1) 4 1.

Lemma body_reached : reaches adds guarded_loop loop_index [2%N] tt (Running 2 1 body_locals tt).
Proof.
  eexists. split; [reflexivity|].
  eapply rtc_l; [eapply step_next; reflexivity|]. eapply rtc_l; [by eapply (step_leave adds guarded_loop loop_index 0 loop_entry)|].
  eapply rtc_l; [eapply step_next; reflexivity|]. eapply rtc_l; [by eapply (step_leave adds guarded_loop loop_index 1 loop_header)|].
  eapply rtc_l; [eapply step_next; reflexivity|]. apply rtc_refl.
Qed.

Definition loop_verdicts : gmap Point bool :=
  match implied_guards 20 guarded_loop ∅ (λ _, false) with Done m => m | _ => ∅ end.

Lemma implied_guards_sound_witness : loop_verdicts !! (2%N, 1%nat) = Some true ∧ get body_locals 4 ≠ 0%N.
Proof.
  split; [by vm_compute|].
  eapply (proj1 (implied_guards_sound adds 20 guarded_loop loop_index ∅ (λ _, false) 20 loop_verdicts [2%N] tt 2
    (loop_body [Operation.Guard 4 Bounds]) 1 body_locals tt
    ltac:(by vm_compute) ltac:(by vm_compute) (scalar_checked_intro guarded_loop eq_refl)
    (int_constants_intro guarded_loop eq_refl) ltac:(by intros ds pl tr e w xs w' _ [])
    ltac:(by vm_compute) ltac:(by vm_compute) eq_refl body_reached)). reflexivity.
Defined.
