(* ===== verification/GuardRewrite.v ===== *)
(** * GuardRewrite: removing implied guards changes nothing

    Models, of [crates/witchy-wir/src/canonical_safewir/optimize.rs], the
    relation a bounds-guard rewrite must satisfy ([check_function_relation])
    and, function by function, the two rewrites: [rewrite] of the checked
    pass and [remove_redundant_bounds_guards_before_check], with
    [foldable_branches], [reachable_blocks] and [defined_values].

    The theorem: a function related to a checked one has its outcomes, on
    the machine of [ScalarMachine]. *)

From S2P Require Import Prelude SafeWir Dominance SsaPaths ScalarMachine GuardAnalysis GuardFlow GuardSound.

(** ** The relation *)

Inductive RewriteRelationError : Set :=
  | RevisionMismatch | ModuleMetadataChanged | FunctionShapeChanged | BlockShapeChanged | OperationChanged
  | GuardHasNoLocalComparison | GuardHasNoEarlierSurvivingMatch.

Definition defined_values (f : Function) : gset ValueId := list_to_set (List.flat_map block_definitions (blocks f)).

(** [before_blocks.find(|before| before.id == after.id)]: the block, and
    where the iterator stands after it. *)
Fixpoint find_block (id : BlockId) (bs : list BasicBlock) : option (BasicBlock * list BasicBlock) :=
  match bs with
  | [] => None
  | b :: bs => if (block_id b =? id)%N then Some (b, bs) else find_block id bs
  end.

Fixpoint pair_blocks (kept : gset BlockId) (before after : list BasicBlock)
  : result RewriteRelationError (list (BasicBlock * BasicBlock)) :=
  match after with
  | [] => Ok []
  | a :: after =>
      '(b, before) ← ok_or (find_block (block_id a) before) BlockShapeChanged;
      fail_if (existsb (λ t, negb (bool_decide (t ∈ kept))) (successors (terminator a))) BlockShapeChanged;;
      pairs ← pair_blocks kept before after;
      Ok ((b, a) :: pairs)
  end.

Definition removable (op : Operation) : bool :=
  match op with Operation.Guard _ (Bounds | Arithmetic) => true | _ => false end.

(** A narrowing that became exact. *)
Definition made_exact (before : Operation) (after : option Operation) : bool :=
  match before, after with
  | Operation.NarrowSize destination value false, Some (Operation.NarrowSize destination' value' true) =>
      (destination =? destination')%N && (value =? value')%N
  | _, _ => false
  end.

(** [after] keeps the operations of [before] in order, less some guards. *)
Section match_operations.
Context (reprove : bool) (block : BlockId).
Fixpoint match_operations (index : nat) (before after : list Operation) (removed : gset Point) (changed : bool)
  : result RewriteRelationError (gset Point * bool) :=
  match before with
  | [] => match after with [] => Ok (removed, changed) | _ :: _ => Err OperationChanged end
  | op :: before =>
      if bool_decide (head after = Some op) then match_operations (S index) before (tail after) removed changed
      else if negb reprove && made_exact op (head after)
      then match_operations (S index) before (tail after) removed true
      else if removable op then match_operations (S index) before after ({[(block, index)]} ∪ removed) changed
      else Err OperationChanged
  end.
End match_operations.

(** The terminators: equal, or a branch folded to its true edge. *)
Definition match_terminators (before after : Terminator) : result RewriteRelationError bool :=
  if bool_decide (before = after) then Ok false
  else
    match before, after with
    | Terminator.BranchIf _ then_target then_arguments _ _, Terminator.Branch target arguments =>
        fail_if (negb (then_target =? target)%N || negb (bool_decide (then_arguments = arguments))) BlockShapeChanged;;
        Ok true
    | _, _ => Err BlockShapeChanged
    end.

Record Differences : Type := { removed : gset Point; folded : list Point; changed : bool }.

Definition match_block (reprove : bool) (before after : BasicBlock) (r : Differences)
  : result RewriteRelationError Differences :=
  fail_if (negb (block_id before =? block_id after)%N || negb (bool_decide (parameters before = parameters after)))
    BlockShapeChanged;;
  fold ← match_terminators (terminator before) (terminator after);
  let folded' := if fold : bool then folded r ++ [(block_id before, length (operations before))] else folded r in
  '(removed', changed') ← match_operations reprove (block_id before) 0 (operations before) (operations after) (removed r)
                            (changed r || fold);
  Ok {| removed := removed'; folded := folded';
        changed := changed' || negb (length (operations before) =? length (operations after))%nat |}.

Fixpoint match_blocks (reprove : bool) (pairs : list (BasicBlock * BasicBlock)) (r : Differences)
  : result RewriteRelationError Differences :=
  match pairs with
  | [] => Ok r
  | (before, after) :: pairs => r ← match_block reprove before after r; match_blocks reprove pairs r
  end.

(** Everything but the proof that what is gone was implied. *)
Definition match_functions (before after : Function) (reprove : bool) : result RewriteRelationError Differences :=
  fail_if (negb (function_id before =? function_id after)%N
           || negb (function_signature before =? function_signature after)%N
           || negb (entry before =? entry after)%N) FunctionShapeChanged;;
  let defined := defined_values after in
  fail_if (negb (bool_decide (filter (λ vt : ValueId * ValueType, vt.1 ∈ defined) (value_types before) = value_types after)))
    FunctionShapeChanged;;
  let kept := list_to_set (List.map block_id (blocks after)) : gset BlockId in
  fail_if (negb (bool_decide (entry before ∈ kept))) BlockShapeChanged;;
  pairs ← pair_blocks kept (blocks before) (blocks after);
  match_blocks reprove pairs
    {| removed := ∅; folded := []; changed := negb (size kept =? length (blocks before))%nat |}.

Definition check_function_relation (n : nat) (before after : Function) (raw_bytes : gset LayoutId) (reprove : bool)
  : outcome (result RewriteRelationError bool) :=
  match match_functions before after reprove with
  | Err e => Done (Err e)
  | Ok r =>
      let reproved := (if reprove then elements (removed r) else []) ++ folded r in
      match reproved with
      | [] => Done (Ok (changed r))
      | _ :: _ =>
          implied ← implied_guards n before raw_bytes (λ p, negb (bool_decide (p ∈ removed r)));
          Done (if existsb (λ p, negb (bool_decide (implied !! p = Some true))) reproved
                then Err GuardHasNoEarlierSurvivingMatch else Ok (changed r))
      end
  end.

(** ** The rewrites *)

(** [block.operations.retain(..)] by position. *)
Fixpoint retain_from (block : BlockId) (index : nat) (keep : Point → Operation → bool) (ops : list Operation)
  : list Operation :=
  match ops with
  | [] => []
  | op :: ops => if keep (block, index) op then op :: retain_from block (S index) keep ops
                 else retain_from block (S index) keep ops
  end.

Definition with_blocks (f : Function) (bs : list BasicBlock) : Function :=
  {| function_id := function_id f; function_signature := function_signature f; entry := entry f;
     value_types := value_types f; blocks := bs |}.

(** [rewrite], on one function, with the answers [redundant] of
    [BoundsGuardRedundancy]. *)
Definition rewrite_function (redundant : gmap Point bool) (f : Function) : Function :=
  with_blocks f
    (List.map (λ b, {| block_id := block_id b; parameters := parameters b;
                       operations := retain_from (block_id b) 0
                         (λ p op, negb (removable op) || negb (bool_decide (redundant !! p = Some true))) (operations b);
                       terminator := terminator b |}) (blocks f)).

Definition is_bounds_guard (op : Operation) : bool :=
  match op with Operation.Guard _ Bounds => true | _ => false end.

Definition is_branch_if (t : Terminator) : bool :=
  match t with Terminator.BranchIf _ _ _ _ _ => true | _ => false end.

Definition removed_guards (f : Function) (redundant : gmap Point bool) : gset Point :=
  list_to_set (List.map fst (List.filter
    (λ pop, is_bounds_guard pop.2 && bool_decide (redundant !! pop.1 = Some true)) (operation_points f))).

Definition implied_branches (f : Function) (redundant : gmap Point bool) : gset Point :=
  list_to_set (omap (λ b, let point := (block_id b, length (operations b)) in
    if is_branch_if (terminator b) && bool_decide (redundant !! point = Some true) then Some point else None) (blocks f)).

Definition foldable_branches (n : nat) (f : Function) (redundant : gmap Point bool) (raw_bytes : gset LayoutId)
  : outcome (gset Point) :=
  let gone := removed_guards f redundant in
  let branches := implied_branches f redundant in
  if bool_decide (branches = ∅) || bool_decide (gone = ∅) then Done branches
  else
    implied ← implied_guards n f raw_bytes (λ p, negb (bool_decide (p ∈ gone)));
    Done (filter (λ p, implied !! p = Some true) branches).

(** [reachable_blocks]; the last block of an identifier gives its terminator. *)
Fixpoint reachable_loop (n : nat) (terminators : gmap BlockId Terminator) (pending : list BlockId)
    (reachable : gset BlockId) : outcome (gset BlockId) :=
  match n with
  | O => Panic
  | S n =>
      match pending with
      | [] => Done reachable
      | b :: pending =>
          if bool_decide (b ∈ reachable) then reachable_loop n terminators pending reachable
          else
            let next := match terminators !! b with Some t => List.rev (successors t) | None => [] end in
            reachable_loop n terminators (next ++ pending) ({[b]} ∪ reachable)
      end
  end.

Definition reachable_blocks (n : nat) (f : Function) : outcome (gset BlockId) :=
  let terminators := List.fold_left (λ m b, <[block_id b := terminator b]> m) (blocks f) (∅ : gmap BlockId Terminator) in
  reachable_loop n terminators [entry f] ∅.

Definition fold_terminator (foldable : bool) (t : Terminator) : Terminator :=
  match t with
  | Terminator.BranchIf _ then_target then_arguments _ _ =>
      if foldable then Terminator.Branch then_target then_arguments else t
  | _ => t
  end.

Definition make_exact (implied : bool) (op : Operation) : Operation :=
  match op with
  | Operation.NarrowSize destination value exact =>
      if implied then Operation.NarrowSize destination value true else op
  | _ => op
  end.

Definition rewrite_block (redundant : gmap Point bool) (foldable : gset Point) (b : BasicBlock) : BasicBlock :=
  let implied p := bool_decide (redundant !! p = Some true) in
  {| block_id := block_id b; parameters := parameters b;
     operations :=
       retain_from (block_id b) 0 (λ p op, negb (implied p) || negb (is_bounds_guard op))
         (imap (λ i op, make_exact (implied (block_id b, i)) op) (operations b));
     terminator := fold_terminator (bool_decide ((block_id b, length (operations b)) ∈ foldable)) (terminator b) |}.

(** [remove_redundant_bounds_guards_before_check], on one function. *)
Definition remove_redundant_function (n : nat) (f : Function) (redundant : gmap Point bool) (raw_bytes : gset LayoutId)
  : outcome Function :=
  foldable ← foldable_branches n f redundant raw_bytes;
  let f := with_blocks f (List.map (rewrite_block redundant foldable) (blocks f)) in
  reachable ← reachable_blocks n f;
  let f := with_blocks f (List.filter (λ b, bool_decide (block_id b ∈ reachable)) (blocks f)) in
  let defined := defined_values f in
  Done {| function_id := function_id f; function_signature := function_signature f; entry := entry f;
          value_types := filter (λ vt : ValueId * ValueType, vt.1 ∈ defined) (value_types f); blocks := blocks f |}.

(** ** What the relation gives *)

(** [after] is [before] from position [k] on, less guards of [gone]. *)
Inductive thinned (gone : gset Point) (id : BlockId) : nat → list Operation → list Operation → Prop :=
  | thinned_nil k : thinned gone id k [] []
  | thinned_keep k op before after :
      thinned gone id (S k) before after → thinned gone id k (op :: before) (op :: after)
  | thinned_drop k c kind before after :
      (id, k) ∈ gone → thinned gone id (S k) before after →
      thinned gone id k (Operation.Guard c kind :: before) after.

Lemma thinned_mono gone gone' id k before after :
  gone ⊆ gone' → thinned gone id k before after → thinned gone' id k before after.
Proof. intros Hg. induction 1; constructor; [done|set_solver|done]. Qed.

Lemma thinned_cons_inv gone id k op before after :
  thinned gone id k (op :: before) after →
  (∃ after', after = op :: after' ∧ thinned gone id (S k) before after') ∨
  (∃ c kind, op = Operation.Guard c kind ∧ (id, k) ∈ gone ∧ thinned gone id (S k) before after).
Proof. inversion 1; subst; [left|right]; eauto. Qed.

Lemma thinned_nil_inv gone id k after : thinned gone id k [] after → after = [].
Proof. by inversion 1. Qed.

Lemma match_operations_thinned id k before after gone ch gone' ch' :
  match_operations true id k before after gone ch = Ok (gone', ch') →
  gone ⊆ gone' ∧ thinned gone' id k before after.
Proof.
  revert k after gone ch. induction before as [|op before IH]; intros k after gone ch; simpl.
  - destruct after; [|done]. intros [= <- <-]. split; [done|constructor].
  - case_bool_decide as Hh.
    + destruct after as [|x after]; [done|]. injection Hh as ->. simpl. intros [Hg Ht]%IH. split; [done|by constructor].
    + destruct (removable op) eqn:Er; [|done]. intros [Hg Ht]%IH. split; [set_solver|].
      destruct op as [| | | | | | | | | | | | | | | |c kind| | | | | | | | | | | | | | | | | | | | | | |]; try done.
      constructor; [set_solver|done].
Qed.

Definition folded_to (before after : Terminator) : Prop :=
  ∃ c then_target then_arguments else_target else_arguments,
    before = Terminator.BranchIf c then_target then_arguments else_target else_arguments ∧
    after = Terminator.Branch then_target then_arguments.

Lemma match_terminators_spec before after fold :
  match_terminators before after = Ok fold →
  if fold : bool then folded_to before after else before = after.
Proof.
  unfold match_terminators. case_bool_decide as He; [by intros [= <-]|].
  destruct before as [|c tt ta et ea| | | | |], after as [target' args| | | | | |]; try done.
  destruct (negb _ || negb _) eqn:E; simpl; [done|]. intros [= <-].
  rewrite orb_false_iff, !negb_false_iff, N.eqb_eq, bool_decide_eq_true in E. destruct E as [-> ->].
  by exists c, target', args, et, ea.
Qed.

(** A block of [after] and the block of [before] it stands for. *)
Record block_related (r : Differences) (b a : BasicBlock) : Prop := {
  related_id : block_id b = block_id a;
  related_parameters : parameters b = parameters a;
  related_operations : thinned (removed r) (block_id b) 0 (operations b) (operations a);
  related_terminator : terminator b = terminator a ∨
    (block_id b, length (operations b)) ∈ folded r ∧ folded_to (terminator b) (terminator a);
}.

Definition extends (r r' : Differences) : Prop :=
  removed r ⊆ removed r' ∧ ∀ p, p ∈ folded r → p ∈ folded r'.

Lemma block_related_extends r r' b a : extends r r' → block_related r b a → block_related r' b a.
Proof.
  intros [H1 H2] [R1 R2 R3 R4]. split; [done|done|by eapply thinned_mono|].
  destruct R4 as [?|[? ?]]; [by left|right]. split; [by apply H2|done].
Qed.

Lemma match_block_spec b a r r' :
  match_block true b a r = Ok r' → extends r r' ∧ block_related r' b a.
Proof.
  unfold match_block. destruct (negb _ || negb _) eqn:E; simpl; [done|].
  rewrite orb_false_iff, !negb_false_iff, N.eqb_eq, bool_decide_eq_true in E. destruct E as [Hid Hpar].
  destruct (match_terminators _ _) as [fold|] eqn:Et; simpl; [|done]. apply match_terminators_spec in Et.
  destruct (match_operations _ _ _ _ _ _ _) as [[gone ch]|] eqn:Eo; simpl; [|done].
  apply match_operations_thinned in Eo as [Hg Ht]. intros [= <-]. split.
  - split; [done|]. simpl. intros p Hp. destruct fold; [apply elem_of_app; by left|done].
  - split; [done|done|done|]. simpl. destruct fold; [right|by left]. split; [|done].
    apply elem_of_app. right. by apply list_elem_of_singleton.
Qed.

Lemma match_blocks_spec pairs r r' :
  match_blocks true pairs r = Ok r' → extends r r' ∧ ∀ b a, (b, a) ∈ pairs → block_related r' b a.
Proof.
  revert r. induction pairs as [|[b a] pairs IH]; intros r; simpl.
  - intros [= <-]. split; [done|]. by intros b a ?%not_elem_of_nil.
  - destruct (match_block true b a r) as [r1|] eqn:E; simpl; [|done]. intros [Hx Hall]%IH.
    apply match_block_spec in E as [Hx1 Hr]. split.
    + destruct Hx1 as [H1 H2], Hx as [H3 H4]. split; [set_solver|auto].
    + intros b' a' [[= -> ->]|Hin]%elem_of_cons; [by eapply block_related_extends|by apply Hall].
Qed.

Lemma find_block_spec id bs b rest :
  find_block id bs = Some (b, rest) → b ∈ bs ∧ block_id b = id ∧ ∀ x, x ∈ rest → x ∈ bs.
Proof.
  induction bs as [|x bs IH]; simpl; [done|]. destruct (N.eqb_spec (block_id x) id) as [He|].
  - intros [= -> ->]. split; [by left|]. split; [done|]. intros y Hy. by right.
  - intros (Hb & Hid & Hrest)%IH. split; [by right|]. split; [done|]. intros y Hy. right. by apply Hrest.
Qed.

Lemma pair_blocks_spec kept before after pairs :
  pair_blocks kept before after = Ok pairs → ∀ a, a ∈ after →
  (∃ b, (b, a) ∈ pairs ∧ b ∈ before ∧ block_id b = block_id a) ∧ ∀ t, t ∈ successors (terminator a) → t ∈ kept.
Proof.
  revert before pairs. induction after as [|a after IH]; intros before pairs; simpl; [by intros _ x ?%not_elem_of_nil|].
  destruct (find_block (block_id a) before) as [[b rest]|] eqn:Ef; simpl; [|done].
  destruct (existsb _ _) eqn:Ex; simpl; [done|].
  destruct (pair_blocks kept rest after) as [ps|] eqn:Ep; simpl; [|done]. intros [= <-] x.
  apply find_block_spec in Ef as (Hb & Hid & Hrest). intros [->|Hx]%elem_of_cons.
  - split; [exists b; split; [by left|done]|]. intros t Ht. apply not_true_iff_false in Ex.
    destruct (decide (t ∈ kept)) as [|Hn]; [done|]. destruct Ex. apply existsb_exists. exists t.
    split; [by apply list_elem_of_In|]. by rewrite bool_decide_eq_false_2.
  - destruct (IH _ _ Ep x Hx) as [(b' & Hp & Hb' & Hid') Hs]. split; [|done].
    exists b'. split; [by right|]. split; [by apply Hrest|done].
Qed.

(** Two functions that match, and what of the first is gone. *)
Record functions_related (before after : Function) (r : Differences) : Prop := {
  functions_entry : entry before = entry after;
  functions_types : filter (λ vt : ValueId * ValueType, vt.1 ∈ defined_values after) (value_types before) = value_types after;
  functions_start : ∃ a, a ∈ blocks after ∧ block_id a = entry after;
  functions_blocks : ∀ a, a ∈ blocks after → ∃ b, b ∈ blocks before ∧ block_related r b a;
  functions_targets : ∀ a t, a ∈ blocks after → t ∈ successors (terminator a) →
    ∃ a', a' ∈ blocks after ∧ block_id a' = t;
}.

Lemma match_functions_spec before after r :
  match_functions before after true = Ok r → functions_related before after r.
Proof.
  unfold match_functions. destruct (negb _ || negb _ || negb _) eqn:E1; simpl; [done|]. destruct (bool_decide (filter _ _ = _)) eqn:E2; simpl; [|done].
  apply bool_decide_eq_true in E2. case_bool_decide as E3; simpl; [|done]. destruct (pair_blocks _ _ _) as [pairs|] eqn:Ep; simpl; [|done].
  intros [_ Hm]%match_blocks_spec. rewrite !orb_false_iff, !negb_false_iff, !N.eqb_eq in E1. destruct E1 as [_ Hentry].
  assert (∀ t : BlockId, t ∈ (list_to_set (List.map block_id (blocks after)) : gset BlockId) →
    ∃ a, a ∈ blocks after ∧ block_id a = t) as Hkept.
  { intros t Ht. apply elem_of_list_to_set, list_elem_of_In, in_map_iff in Ht as (a & <- & Ha). exists a.
    split; [by apply list_elem_of_In|done]. }
  split; [done|done|rewrite <- Hentry; by apply Hkept| |].
  - intros a Ha. destruct (pair_blocks_spec _ _ _ _ Ep a Ha) as [(b & Hin & Hb & _) _]. exists b.
    split; [done|by apply Hm].
  - intros a t Ha Ht. apply Hkept. by apply (pair_blocks_spec _ _ _ _ Ep a Ha).
Qed.

Lemma check_function_relation_spec n before after raw_bytes ch :
  check_function_relation n before after raw_bytes true = Done (Ok ch) →
  ∃ r, functions_related before after r ∧
    (removed r = ∅ ∧ folded r = [] ∨
     ∃ m, implied_guards n before raw_bytes (λ p, negb (bool_decide (p ∈ removed r))) = Done m ∧
       (∀ p, p ∈ removed r → m !! p = Some true) ∧ ∀ p, p ∈ folded r → m !! p = Some true).
Proof.
  unfold check_function_relation. destruct (match_functions before after true) as [r|] eqn:E; [|done].
  apply match_functions_spec in E. intros H. exists r. split; [done|].
  set (l := elements (removed r) ++ folded r) in H.
  assert (l = [] ∧ removed r = ∅ ∧ folded r = [] ∨
    ∃ m, implied_guards n before raw_bytes (λ p, negb (bool_decide (p ∈ removed r))) = Done m ∧
      ∀ p, p ∈ l → m !! p = Some true) as [(_ & H1 & H2)|(m & Hm & Hall)].
  { destruct l as [|p l'] eqn:El.
    - left. split; [done|]. apply app_eq_nil in El as [H1 H2]. split; [|done]. apply leibniz_equiv. by apply elements_empty_inv.
    - right. destruct (implied_guards _ _ _ _) as [m| |]; cbn [mbind outcome_bind] in H; [|done..]. exists m. split; [done|].
      intros q Hq. destruct (existsb _ _) eqn:Ex; [done|]. destruct (decide (m !! q = Some true)) as [|Hn]; [done|].
      apply not_true_iff_false in Ex. destruct Ex. apply existsb_exists. exists q.
      split; [by apply list_elem_of_In|]. by rewrite bool_decide_eq_false_2. }
  - by left.
  - right. exists m. split; [done|]. split; intros p Hp; apply Hall, elem_of_app; [left; by apply elem_of_elements|by right].
Qed.

(** ** The simulation *)

Section simulation.
Context {W : Type} (perform : Operation → locals → W → option (list N * W) → Prop).
Context (before after : Function) (r : Differences).
Context (indexb indexa : gmap BlockId BasicBlock).
Context (arguments : list N) (w0 : W).
Hypothesis related : functions_related before after r.
Hypothesis indexed_before : index_blocks before = Ok indexb.
Hypothesis indexed_after : index_blocks after = Ok indexa.
Hypothesis scalars_after : scalar_checked after.
(** What is gone was true whenever [before] came to it. *)
Hypothesis gone_holds : ∀ id b i e w, indexb !! id = Some b →
  (id, i) ∈ removed r ∨ (id, i) ∈ folded r →
  reaches perform before indexb arguments w0 (Running id i e w) → point_holds_at b i e.

Lemma after_block id a : indexa !! id = Some a → a ∈ blocks after ∧ block_id a = id.
Proof. by rewrite (index_blocks_spec _ _ indexed_after). Qed.

Lemma before_block id a : indexa !! id = Some a → ∃ b, indexb !! id = Some b ∧ block_related r b a.
Proof.
  intros [Ha <-]%after_block. destruct (functions_blocks _ _ _ related a Ha) as (b & Hb & Hr). exists b. split; [|done].
  apply (index_blocks_spec _ _ indexed_before). split; [done|apply Hr].
Qed.

Lemma same_type v : v ∈ defined_values after → value_types before !! v = value_types after !! v.
Proof.
  intros Hv. rewrite <- (functions_types _ _ _ related). symmetry.
  destruct (value_types before !! v) as [ty|] eqn:E.
  - by apply map_lookup_filter_Some.
  - apply map_lookup_filter_None. by left.
Qed.

Lemma kept_type v ty : value_types after !! v = Some ty → value_types before !! v = Some ty.
Proof. rewrite <- (functions_types _ _ _ related). by intros [? _]%map_lookup_filter_Some. Qed.

Lemma defined_values_block a v : a ∈ blocks after → v ∈ block_definitions a → v ∈ defined_values after.
Proof.
  intros Ha Hv. apply elem_of_list_to_set, list_elem_of_In, in_flat_map. exists a. split; by apply list_elem_of_In.
Qed.

Lemma parameters_defined a v : a ∈ blocks after → v ∈ block_parameters a → v ∈ defined_values after.
Proof. intros Ha Hv. eapply defined_values_block; [exact Ha|]. apply elem_of_app. by left. Qed.

Lemma destinations_defined a op v :
  a ∈ blocks after → op ∈ operations a → v ∈ operation_destinations op → v ∈ defined_values after.
Proof.
  intros Ha Ho Hv. eapply defined_values_block; [exact Ha|]. apply elem_of_app. right.
  apply list_elem_of_In, in_flat_map. exists op. split; by apply list_elem_of_In.
Qed.

Lemma set_same e v x : v ∈ defined_values after → set before e v x = set after e v x.
Proof. intros Hv. unfold set. by rewrite same_type. Qed.

Lemma set_all_same vs e xs :
  (∀ v, v ∈ vs → v ∈ defined_values after) → set_all before e vs xs = set_all after e vs xs.
Proof.
  revert e xs. induction vs as [|v vs IH]; intros e [|x xs] Hv; [done..|]. simpl.
  rewrite set_same by (apply Hv; by left). apply IH. intros u Hu. apply Hv. by right.
Qed.

Lemma effect_same a op e :
  a ∈ blocks after → op ∈ operations a → scalar_effect before e op = scalar_effect after e op.
Proof.
  intros Ha Ho. pose proof (destinations_defined a op) as Hd. pose proof (scalars_after a op Ha Ho) as Hs.
  destruct op as [| | |ds z| |ds bv|ds c| | | | | |ds o l ri|ds v ex|ds v| | | | | | | | | | | | | | | | | | | | | | | | |]; try done;
    simpl; rewrite ?set_same by (apply Hd; [done|done|by left]); try done.
  simpl in Hs. destruct (require_type after ds ValueType.Bool) as [[]|]; simpl in Hs; [|done].
  unfold require_value_type, ok_or in Hs. destruct (value_types after !! l) as [ty|] eqn:El; simpl in Hs; [|done].
  rewrite (kept_type _ _ El). destruct (compare_limit _); [|done]. by rewrite set_same by (apply Hd; [done|done|by left]).
Qed.

Definition similar (s s' : state W) : Prop :=
  match s, s' with
  | Running id i e w, Running id' j e' w' =>
      id' = id ∧ e' = e ∧ w' = w ∧
      ∃ b a, indexb !! id = Some b ∧ indexa !! id = Some a ∧ block_related r b a ∧
        (i ≤ length (operations b))%nat ∧ (j ≤ length (operations a))%nat ∧
        thinned (removed r) id i (drop i (operations b)) (drop j (operations a))
  | Running _ _ _ _, _ | _, Running _ _ _ _ => False
  | _, _ => s' = s
  end.

Lemma similar_entry id b a e w :
  indexb !! id = Some b → indexa !! id = Some a → block_related r b a → similar (Running id 0 e w) (Running id 0 e w).
Proof.
  intros Eb Ea Hr. simpl. split; [done|]. split; [done|]. split; [done|]. exists b, a.
  split; [done|]. split; [done|]. split; [done|]. split; [lia|]. split; [lia|].
  rewrite !drop_0. apply (index_blocks_spec _ _ indexed_before) in Eb as [_ <-]. apply Hr.
Qed.

Lemma enter_similar a e w target args :
  a ∈ blocks after → target ∈ successors (terminator a) →
  ∃ s s', enter before indexb e w target args = Some s ∧ enter after indexa e w target args = Some s' ∧ similar s s'.
Proof.
  intros Ha Ht. destruct (functions_targets _ _ _ related a target Ha Ht) as (a' & Ha' & Hid).
  assert (indexa !! target = Some a') as Ea by (by apply (index_blocks_spec _ _ indexed_after)).
  destruct (before_block _ _ Ea) as (b' & Eb & Hr). unfold enter. rewrite Ea, Eb. simpl.
  eexists _, _. split; [done|]. split; [done|]. unfold block_parameters. rewrite (related_parameters _ _ _ Hr).
  rewrite set_all_same; [by eapply similar_entry|]. intros v. by apply parameters_defined.
Qed.

Lemma leave_similar id b a e w :
  indexb !! id = Some b → indexa !! id = Some a → block_related r b a →
  reaches perform before indexb arguments w0 (Running id (length (operations b)) e w) →
  ∃ s s', leave before indexb e w (terminator b) = Some s ∧ leave after indexa e w (terminator a) = Some s' ∧ similar s s'.
Proof.
  intros Eb Ea Hr Hreach. destruct (after_block _ _ Ea) as [Ha _].
  pose proof (index_blocks_spec _ _ indexed_before id b) as [Hib _]. destruct (Hib Eb) as [_ Hid].
  destruct (related_terminator _ _ _ Hr) as [Ht|[Hf (c & tt & ta & et & ea & Hb & Ht)]].
  - rewrite Ht. pose proof (enter_similar a e w) as He.
    destruct (terminator a) as [target args|c tt ta et ea|vs|st cl args|st cl sg args| |] eqn:Eta; simpl; try by eexists _, _.
    + apply He; [done|by left].
    + destruct (get e c =? 0)%N; apply He; [done|right; by left|done|by left].
  - assert (get e c ≠ 0%N) as Hc.
    { rewrite Hid in Hf. eapply (branch_true _ _ _ (gone_holds _ _ _ _ _ Eb (or_intror Hf) Hreach)); [done|exact Hb]. }
    rewrite Hb, Ht. simpl. rewrite (proj2 (N.eqb_neq _ _) Hc). eapply enter_similar; [exact Ha|]. rewrite Ht. by left.
Qed.

Lemma drop_nil_length {A} (l : list A) i : (i ≤ length l)%nat → drop i l = [] → i = length l.
Proof. intros Hi H. apply (f_equal length) in H. rewrite length_drop in H. simpl in H. lia. Qed.

Lemma lookup_drop_cons {A} (l : list A) i x : l !! i = Some x → drop i l = x :: drop (S i) l.
Proof. intros H. by apply drop_S. Qed.

(** A removed guard is passed. *)
Lemma removed_step id b i c k e w :
  indexb !! id = Some b → operations b !! i = Some (Operation.Guard c k) → (id, i) ∈ removed r →
  reaches perform before indexb arguments w0 (Running id i e w) →
  scalar_effect before e (Operation.Guard c k) = Next e.
Proof.
  intros Eb Eo Hr Hreach. simpl. pose proof (guard_true _ _ _ (gone_holds _ _ _ _ _ Eb (or_introl Hr) Hreach) c k Eo) as Hc.
  by rewrite (proj2 (N.eqb_neq _ _) Hc).
Qed.

Lemma reaches_step s s' :
  reaches perform before indexb arguments w0 s → step perform before indexb s s' →
  reaches perform before indexb arguments w0 s'.
Proof. intros (s0 & Hs & Hr) Hst. exists s0. split; [done|]. by eapply rtc_r. Qed.

(** The state after a kept operation. *)
Lemma similar_next id b a i j op e w :
  indexb !! id = Some b → indexa !! id = Some a → block_related r b a →
  operations b !! i = Some op → operations a !! j = Some op →
  thinned (removed r) id (S i) (drop (S i) (operations b)) (drop (S j) (operations a)) →
  similar (Running id (S i) e w) (Running id (S j) e w).
Proof.
  intros Eb Ea Hr Ei Ej Ht. apply lookup_lt_Some in Ei, Ej. simpl. split; [done|]. split; [done|]. split; [done|].
  exists b, a. split; [done|]. split; [done|]. split; [done|]. split; [lia|]. split; [lia|done].
Qed.

Lemma forward s t s' :
  similar s t → reaches perform before indexb arguments w0 s → step perform before indexb s s' →
  ∃ t', rtc (step perform after indexa) t t' ∧ similar s' t'.
Proof.
  intros Hsim Hreach Hstep. destruct t as [id' j e' w'| | | |]; [|destruct Hstep; done..].
  destruct Hstep as [id b i op e e1 w E Eo He|id b i op e w E Eo He|id b i op e w xs w1 E Eo He Hp|id b i op e w E Eo He Hp|id b e w s E Hl].
  all: destruct Hsim as (-> & -> & -> & b' & a & Eb & Ea & Hr & Hi & Hj & Ht); rewrite E in Eb; injection Eb as <-;
    destruct (after_block _ _ Ea) as [Ha _].
  all: try (rewrite (lookup_drop_cons _ _ _ Eo) in Ht;
    destruct (thinned_cons_inv _ _ _ _ _ _ Ht) as [(ys & Hys & Ht')|(c & k & -> & Hin & Ht')];
    [apply drop_cons_lookup in Hys as [Ej <-];
     pose proof (effect_same a op e Ha ltac:(by eapply list_elem_of_lookup_2)) as Heff
    |pose proof (removed_step _ _ _ _ _ _ _ E Eo Hin Hreach) as Hnext]).
  - eexists. split; [apply rtc_once; eapply step_next; [exact Ea|exact Ej|by rewrite <- Heff]|].
    eapply similar_next; [exact E|exact Ea|exact Hr|exact Eo|exact Ej|exact Ht'].
  - rewrite He in Hnext. injection Hnext as ->. eexists. split; [apply rtc_refl|].
    simpl. split; [done|]. split; [done|]. split; [done|]. exists b, a. apply lookup_lt_Some in Eo.
    split; [done|]. split; [done|]. split; [done|]. split; [lia|]. split; [lia|done].
  - eexists. split; [apply rtc_once; eapply step_trap; [exact Ea|exact Ej|by rewrite <- Heff]|done].
  - congruence.
  - eexists. split; [apply rtc_once; eapply step_world; [exact Ea|exact Ej|by rewrite <- Heff|exact Hp]|].
    rewrite set_all_same; [eapply similar_next; [exact E|exact Ea|exact Hr|exact Eo|exact Ej|exact Ht']|].
    intros v. by eapply destinations_defined, list_elem_of_lookup_2.
  - congruence.
  - eexists. split; [apply rtc_once; eapply step_world_trap; [exact Ea|exact Ej|by rewrite <- Heff|exact Hp]|done].
  - congruence.
  - rewrite drop_all in Ht. apply thinned_nil_inv in Ht as Hnil. apply drop_nil_length in Hnil; [|done]. subst j.
    destruct (leave_similar _ _ _ _ _ E Ea Hr Hreach) as (s1 & s2 & H1 & H2 & Hs). rewrite Hl in H1. injection H1 as <-.
    exists s2. split; [|done]. apply rtc_once. by eapply step_leave.
Qed.

Lemma reaches_rtc s s' :
  reaches perform before indexb arguments w0 s → rtc (step perform before indexb) s s' →
  reaches perform before indexb arguments w0 s'.
Proof. intros H Hr. induction Hr as [|x y z Hxy _ IH]; [done|]. apply IH. by eapply reaches_step. Qed.

(** [before] passes removed guards until it stands where [after] does. *)
Lemma skip_removed id b a i j e w :
  indexb !! id = Some b → (i ≤ length (operations b))%nat → (j ≤ length (operations a))%nat →
  thinned (removed r) id i (drop i (operations b)) (drop j (operations a)) →
  reaches perform before indexb arguments w0 (Running id i e w) →
  ∃ i', rtc (step perform before indexb) (Running id i e w) (Running id i' e w) ∧
    ((∃ op, operations b !! i' = Some op ∧ operations a !! j = Some op ∧
        thinned (removed r) id (S i') (drop (S i') (operations b)) (drop (S j) (operations a))) ∨
     i' = length (operations b) ∧ j = length (operations a)).
Proof.
  intros Eb. remember (length (operations b) - i)%nat as m eqn:Hm. revert i Hm.
  induction m as [|m IH]; intros i Hm Hi Hj Ht Hreach.
  - assert (i = length (operations b)) as -> by lia. rewrite drop_all in Ht. apply thinned_nil_inv in Ht.
    exists (length (operations b)). split; [apply rtc_refl|]. right. split; [done|by apply drop_nil_length].
  - destruct (lookup_lt_is_Some_2 (operations b) i) as [op Eo]; [lia|]. rewrite (lookup_drop_cons _ _ _ Eo) in Ht.
    destruct (thinned_cons_inv _ _ _ _ _ _ Ht) as [(ys & Hys & Ht')|(c & k & -> & Hin & Ht')].
    + apply drop_cons_lookup in Hys as [Ej <-]. exists i. split; [apply rtc_refl|]. left. by exists op.
    + pose proof (step_next perform before indexb _ _ _ _ _ _ w Eb Eo (removed_step _ _ _ _ _ _ _ Eb Eo Hin Hreach)) as Hst.
      destruct (IH (S i)) as (i' & Hrun & Hal); [lia|lia|done|done|by eapply reaches_step|].
      exists i'. split; [by eapply rtc_l|done].
Qed.

Lemma backward s t t' :
  similar s t → reaches perform before indexb arguments w0 s → step perform after indexa t t' →
  ∃ s', rtc (step perform before indexb) s s' ∧ similar s' t'.
Proof.
  intros Hsim Hreach Hstep. destruct s as [id i e w| | | |]; [|destruct Hstep; done..].
  assert (∃ j, t = Running id j e w) as [j ->].
  { destruct t; [|done..]. destruct Hsim as (-> & -> & -> & _). eauto. }
  destruct Hsim as (_ & _ & _ & b & a & Eb & Ea & Hr & Hi & Hj & Ht). destruct (after_block _ _ Ea) as [Ha _].
  destruct (skip_removed _ _ _ _ _ _ _ Eb Hi Hj Ht Hreach) as (i' & Hrun & Hal).
  pose proof (reaches_rtc _ _ Hreach Hrun) as Hreach'.
  assert (∃ s', step perform before indexb (Running id i' e w) s' ∧ similar s' t') as (s' & Hst & Hs).
  { inversion Hstep as [? a1 ? op ? e1 ? E1 Eo He|? a1 ? op ? ? E1 Eo He|? a1 ? op ? ? xs w1 E1 Eo He Hp|? a1 ? op ? ? E1 Eo He Hp
      |? a1 ? ? s1 E1 Hl]; subst; rewrite Ea in E1; injection E1 as <-.
    all: destruct Hal as [(op' & Ei & Ej & Ht')|[-> Hlen]];
      try (apply lookup_lt_Some in Eo; lia); try (rewrite lookup_ge_None_2 in Ej by lia; done).
    all: try (rewrite Eo in Ej; injection Ej as <-;
      pose proof (effect_same a op e Ha ltac:(by eapply list_elem_of_lookup_2)) as Heff; rewrite <- Heff in He).
    - eexists. split; [by eapply step_next|]. by eapply similar_next.
    - eexists. split; [by eapply step_trap|done].
    - eexists. split; [by eapply step_world|]. rewrite set_all_same; [by eapply similar_next|].
      intros v. by eapply destinations_defined, list_elem_of_lookup_2.
    - eexists. split; [by eapply step_world_trap|done].
    - destruct (leave_similar _ _ _ _ _ Eb Ea Hr Hreach') as (s1' & s2 & H1 & H2 & Hs). rewrite Hl in H2. injection H2 as <-.
      exists s1'. split; [by eapply step_leave|done]. }
  exists s'. split; [|done]. by eapply rtc_r.
Qed.

Lemma similar_start s t :
  start before indexb arguments w0 = Some s → start after indexa arguments w0 = Some t → similar s t.
Proof.
  unfold start. rewrite (functions_entry _ _ _ related). destruct (indexb !! entry after) as [b|] eqn:Eb; simpl; [|done].
  destruct (indexa !! entry after) as [a|] eqn:Ea; simpl; [|done]. intros [= <-] [= <-].
  destruct (before_block _ _ Ea) as (b' & Eb' & Hr). rewrite Eb in Eb'. injection Eb' as <-.
  destruct (after_block _ _ Ea) as [Ha _]. unfold block_parameters. rewrite (related_parameters _ _ _ Hr).
  rewrite set_all_same; [by eapply similar_entry|]. intros v. by apply parameters_defined.
Qed.

Lemma starts : is_Some (start before indexb arguments w0) ∧ is_Some (start after indexa arguments w0).
Proof.
  destruct (functions_start _ _ _ related) as (a & Ha & Hid).
  assert (indexa !! entry after = Some a) as Ea by (by apply (index_blocks_spec _ _ indexed_after)).
  destruct (before_block _ _ Ea) as (b & Eb & _). unfold start. rewrite (functions_entry _ _ _ related), Eb, Ea. done.
Qed.

(** Each run of one has a similar run of the other. *)
Lemma runs_forward s :
  reaches perform before indexb arguments w0 s → ∃ t, reaches perform after indexa arguments w0 t ∧ similar s t.
Proof.
  intros (s0 & Hs0 & Hrun). destruct starts as [_ [t0 Ht0]]. pose proof (similar_start _ _ Hs0 Ht0) as Hsim.
  assert (∃ t, rtc (step perform after indexa) t0 t ∧ similar s t) as (t & Ht & Hs); [|exists t; split; [by exists t0|done]].
  clear Ht0. assert (reaches perform before indexb arguments w0 s0) as Hr0 by (exists s0; split; [done|apply rtc_refl]).
  clear Hs0. revert t0 Hsim Hr0. induction Hrun as [s|s1 s2 s3 Hst _ IH]; intros t0 Hsim Hr0.
  { exists t0. split; [apply rtc_refl|done]. }
  destruct (forward _ _ _ Hsim Hr0 Hst) as (t1 & Ht1 & Hs1).
  destruct (IH t1 Hs1) as (t & Ht & Hs); [by eapply reaches_step|]. exists t. split; [by etransitivity|done].
Qed.

Lemma runs_backward t :
  reaches perform after indexa arguments w0 t → ∃ s, reaches perform before indexb arguments w0 s ∧ similar s t.
Proof.
  intros (t0 & Ht0 & Hrun). destruct starts as [[s0 Hs0] _]. pose proof (similar_start _ _ Hs0 Ht0) as Hsim.
  assert (reaches perform before indexb arguments w0 s0) as Hr0 by (exists s0; split; [done|apply rtc_refl]).
  clear Ht0 Hs0. revert s0 Hsim Hr0. induction Hrun as [t|t1 t2 t3 Hst _ IH]; intros s0 Hsim Hr0; [by exists s0|].
  destruct (backward _ _ _ Hsim Hr0 Hst) as (s1 & Hs1 & Hs). apply (IH s1 Hs). by eapply reaches_rtc.
Qed.

Lemma similar_final s t : similar s t → final s ∨ final t → t = s.
Proof. destruct s, t; simpl; try done. by intros _ [[]|[]]. Qed.

Lemma same_outcomes s :
  final s → reaches perform before indexb arguments w0 s ↔ reaches perform after indexa arguments w0 s.
Proof.
  intros Hf. split.
  - intros (t & Ht & Hs)%runs_forward. by rewrite <- (similar_final _ _ Hs (or_introl Hf)).
  - intros (t & Ht & Hs)%runs_backward. by rewrite (similar_final _ _ Hs (or_intror Hf)).
Qed.
End simulation.

(** C4: a rewrite the relation accepts changes no outcome.  A function
    related to one that passes the checks in all its blocks returns the same values, makes the same tail
    calls and traps in the same worlds, on every argument list and from every
    world, whatever the world does. *)
Theorem related_function_same_outcomes {W} (perform : Operation → locals → W → option (list N * W) → Prop)
    k before after indexb indexa raw_bytes n changed arguments w s :
  strict_flow k before = Done (Ok tt) → index_blocks before = Ok indexb → scalar_checked before →
  int_constants before → reads_bytes before raw_bytes perform →
  index_blocks after = Ok indexa → scalar_checked after →
  check_function_relation n before after raw_bytes true = Done (Ok changed) → final s →
  reaches perform before indexb arguments w s ↔ reaches perform after indexa arguments w s.
Proof.
  intros Hf Hi Hs Hc Hb Hia Hsa Hrel Hfin. destruct (strict_flow_checked _ _ _ Hf Hi) as (preds & d & Hchecked).
  destruct (check_function_relation_spec _ _ _ _ _ Hrel) as (r & Hr & Hgone).
  eapply same_outcomes; [exact Hr|exact Hi|exact Hia|exact Hsa| |exact Hfin].
  intros id b i e w' E Hp Hreach. destruct Hgone as [[H1 H2]|(m & Hm & H1 & H2)].
  - rewrite H1, H2 in Hp. destruct Hp as [?%not_elem_of_empty|?%not_elem_of_nil]; done.
  - eapply implied_point_sound; [exact Hchecked|exact Hs|exact Hc|exact Hb|exact Hm| |exact E|exact Hreach].
    destruct Hp; auto.
Qed.

Definition unguarded_index : gmap BlockId BasicBlock :=
  match index_blocks (counting_loop []) with Ok index => index | Err _ => ∅ end.

(** The sample loop without the guard in its body. *)
Lemma related_function_same_outcomes_witness :
  check_function_relation 20 guarded_loop (counting_loop []) ∅ true = Done (Ok true) ∧
  ∀ arguments s, final s →
    reaches adds guarded_loop loop_index arguments tt s ↔ reaches adds (counting_loop []) unguarded_index arguments tt s.
Proof.
  split; [by vm_compute|]. intros arguments s Hs.
  apply (related_function_same_outcomes adds 20 guarded_loop (counting_loop []) loop_index unguarded_index ∅ 20 true arguments tt s
    ltac:(by vm_compute) ltac:(by vm_compute) (scalar_checked_intro guarded_loop eq_refl)
    (int_constants_intro guarded_loop eq_refl) ltac:(by intros ds pl tr e w xs w' _ [])
    ltac:(by vm_compute) (scalar_checked_intro (counting_loop []) eq_refl) ltac:(by vm_compute) Hs).
Defined.
