(* ===== verification/Execution.v ===== *)
(** * Execution: the executable contract of a resumable task

    Models [crates/witchy-types/src/typed_execution.rs]: the shape of a typed
    execution (frame lanes, states with their transitions, operation sites,
    queues, cancellation) and [validate], with the fixpoint analysis of
    must-consume lanes.  Identifiers are the [u32] inside their newtypes,
    as [N]; [as u32] truncates.  A vector index out of range is [Panic]. *)

From S2P Require Import Prelude Text Footprint.

Local Open Scope string_scope.

(** ** Shapes *)

Abbreviation ExecutionShapeId := N.
Abbreviation ExecutionStateId := N.
Abbreviation FrameLaneId := N.
Abbreviation OperationSiteId := N.
Abbreviation QueueShapeId := N.

(** [SourceExecutionMode] of [witchy-canonical-source] *)
Inductive SourceExecutionMode : Set := Normal | Opt.

Module LaneOwnership.
Inductive t : Set := Copy | Move | MustConsume.
End LaneOwnership.

Record FrameLane : Set := {
  lane_id : FrameLaneId;
  lane_ty : Ty;
  lane_ownership : LaneOwnership.t;
  initially_initialized : bool;
}.

Inductive ExecutionOperation : Set :=
  | ChannelSend | ChannelReceive | Select | Spawn | Join | Host | Yield | Cancellation.

Inductive ExecutionEdgeCondition : Set :=
  | Always
  | Boolean (lane : FrameLaneId) (when : bool)
  | VariantIs (lane : FrameLaneId) (tag : N)
  | SelectArm (operation : OperationSiteId) (arm : N).

Inductive LaneAction : Set :=
  | Copy (from to : FrameLaneId)
  | Move (from to : FrameLaneId)
  | Write (to : FrameLaneId)
  | Clear (lane : FrameLaneId)
  | Discharge (lane : FrameLaneId).

Module ExecutionOutcome.
Inductive t : Set :=
  | Continue (next : ExecutionStateId)
  | Ready (next : ExecutionStateId)
  | Blocked (operation : OperationSiteId) (retry : ExecutionStateId)
  | Complete
  | PropagateError
  | Trap.
End ExecutionOutcome.

Record ExecutionTransition : Set := {
  tr_condition : ExecutionEdgeCondition;
  tr_actions : list LaneAction;
  tr_outcome : ExecutionOutcome.t;
}.

Record ExecutionState : Set := {
  state_id : ExecutionStateId;
  transitions : list ExecutionTransition;
}.

Inductive QueueCapacity : Set := Rendezvous | Fixed (capacity : N) | Dynamic.

Inductive PayloadOwnership : Set := Inline | BufferRoot | Boxed.

Record QueueShape : Set := {
  queue_id : QueueShapeId;
  queue_capacity : QueueCapacity;
  payload_layout_fingerprint : list byte;
  queue_ownership : PayloadOwnership;
}.

Record OperationArm : Set := {
  arm_ordinal : N;
  arm_operation : ExecutionOperation;
  arm_endpoint_lane : FrameLaneId;
  arm_input_lanes : list FrameLaneId;
  arm_result_lanes : list FrameLaneId;
  arm_queue : option QueueShapeId;
  arm_ownership : PayloadOwnership;
}.

Record OperationSite : Set := {
  site_id : OperationSiteId;
  site_kind : ExecutionOperation;
  site_input_lanes : list FrameLaneId;
  site_result_lanes : list FrameLaneId;
  site_pending_move_lanes : list FrameLaneId;
  site_fallback_state : option ExecutionStateId;
  site_queue : option QueueShapeId;
  site_arms : list OperationArm;
}.

Record CancellationTransition : Set := {
  cancel_operation : OperationSiteId;
  cancel_state : ExecutionStateId;
}.

Record TypedExecutionShape : Set := {
  shape_id : ExecutionShapeId;
  shape_mode : SourceExecutionMode;
  shape_entry : ExecutionStateId;
  shape_frame : list FrameLane;
  shape_result_lanes : list FrameLaneId;
  shape_states : list ExecutionState;
  shape_operations : list OperationSite;
  shape_queues : list QueueShape;
  shape_cancellation : option CancellationTransition;
}.

#[export] Instance ownership_eq_dec : EqDecision LaneOwnership.t.
Proof. solve_decision. Defined.
#[export] Instance operation_eq_dec : EqDecision ExecutionOperation.
Proof. solve_decision. Defined.
#[export] Instance payload_ownership_eq_dec : EqDecision PayloadOwnership.
Proof. solve_decision. Defined.
#[export] Instance condition_eq_dec : EqDecision ExecutionEdgeCondition.
Proof. solve_decision. Defined.

(** ** Structural checks *)

(** [n as u32] *)
Definition as_u32 (n : nat) : N := (N.of_nat n mod (u32_max + 1))%N.

(** The loop of [dense] from the expected index on. *)
Fixpoint dense_from (label : string) (expected : nat) (ids : list N) : outcome unit :=
  match ids with
  | [] => mret tt
  | actual :: ids =>
      fail_when (negb (actual =? as_u32 expected)%N) (label +:+ " IDs must be dense");;
      dense_from label (S expected) ids
  end.

Definition dense (label : string) (ids : list N) : outcome unit := dense_from label 0 ids.

Definition validate_action (action : LaneAction) (lane_count : N) : outcome unit :=
  let lane (l : FrameLaneId) :=
    if (l <? lane_count)%N then Done tt else Fail "transition references absent frame lane" in
  match action with
  | Copy from to | Move from to => lane from;; lane to
  | Write to => lane to
  | Clear value | Discharge value => lane value
  end.

Definition validate_condition (condition : ExecutionEdgeCondition) (lane_count : N)
    (operations : list OperationSite) : outcome unit :=
  match condition with
  | Always => Done tt
  | Boolean lane _ | VariantIs lane _ =>
      if (lane <? lane_count)%N then Done tt
      else Fail "execution edge condition references absent frame lane"
  | SelectArm operation arm =>
      match operations !! N.to_nat operation with
      | None => Fail "execution edge condition references absent operation"
      | Some operation =>
          fail_when (negb (bool_decide (site_kind operation = Select)))
            "execution select-arm condition names a non-select operation";;
          fail_when (N.of_nat (length (site_arms operation)) <=? arm)%N
            "execution select-arm condition references absent select arm"
      end
  end.

(** The body of the loop over the transitions of a state. *)
Definition validate_transition (sh : TypedExecutionShape) (t : ExecutionTransition)
    : outcome unit :=
  let lane_count := as_u32 (length (shape_frame sh)) in
  let state_count := as_u32 (length (shape_states sh)) in
  let operation_count := as_u32 (length (shape_operations sh)) in
  for_each (λ action, validate_action action lane_count) (tr_actions t);;
  validate_condition (tr_condition t) lane_count (shape_operations sh);;
  match tr_outcome t with
  | ExecutionOutcome.Continue next | ExecutionOutcome.Ready next =>
      fail_when (state_count <=? next)%N "execution transition has absent successor"
  | ExecutionOutcome.Blocked operation retry =>
      fail_when ((operation_count <=? operation)%N || (state_count <=? retry)%N)
        "blocked transition has absent operation or retry state"
  | _ => Done tt
  end.

Definition validate_state (sh : TypedExecutionShape) (st : ExecutionState) : outcome unit :=
  fail_when (bool_decide (transitions st = []))
    ("execution state " +:+ show_N (state_id st) +:+ " has no transition");;
  for_each (validate_transition sh) (transitions st).

(** [queue.is_some_and(|queue| queue.0 as usize >= self.queues.len())] *)
Definition absent_queue (sh : TypedExecutionShape) (queue : option QueueShapeId) : bool :=
  match queue with
  | Some q => (N.of_nat (length (shape_queues sh)) <=? q)%N
  | None => false
  end.

(** The body of the loop over the arms of an operation. *)
Definition validate_arm (sh : TypedExecutionShape) (expected_arm : N) (arm : OperationArm)
    : outcome unit :=
  let lane_count := as_u32 (length (shape_frame sh)) in
  fail_when (negb (arm_ordinal arm =? expected_arm)%N)
    "operation arm IDs must be dense and ordered";;
  fail_when ((lane_count <=? arm_endpoint_lane arm)%N
    || existsb (λ lane, lane_count <=? lane)%N (arm_input_lanes arm ++ arm_result_lanes arm)%list)
    "operation arm references absent frame lane";;
  fail_when (absent_queue sh (arm_queue arm)) "operation arm references absent queue shape";;
  match arm_operation arm, arm_queue arm with
  | ChannelSend, None | ChannelReceive, None => Fail "channel select arm has no queue binding"
  | ChannelSend, Some q | ChannelReceive, Some q =>
      queue ← index (shape_queues sh) q;
      fail_when (negb (bool_decide (queue_ownership queue = arm_ownership arm)))
        "channel select arm ownership disagrees with queue shape"
  | _, Some _ => Fail "non-channel select arm has a queue binding"
  | _, None => Done tt
  end.

(** The loop over the arms; [expected_arm] is a [u32] counter. *)
Fixpoint validate_arms (sh : TypedExecutionShape) (expected_arm : N)
    (arms : list OperationArm) : outcome unit :=
  match arms with
  | [] => Done tt
  | arm :: arms =>
      validate_arm sh expected_arm arm;;
      validate_arms sh ((expected_arm + 1) mod (u32_max + 1)) arms
  end.

Definition validate_operation (sh : TypedExecutionShape) (op : OperationSite) : outcome unit :=
  let lane_count := as_u32 (length (shape_frame sh)) in
  let state_count := as_u32 (length (shape_states sh)) in
  for_each (λ lane, fail_when (lane_count <=? lane)%N "operation references absent frame lane")
    (site_input_lanes op ++ site_result_lanes op ++ site_pending_move_lanes op)%list;;
  fail_when (match site_fallback_state op with Some st => (state_count <=? st)%N | None => false end)
    "operation fallback references absent state";;
  fail_when (absent_queue sh (site_queue op)) "operation references absent queue shape";;
  (let queue_is_some := match site_queue op with Some _ => true | None => false end in
   let arms_is_empty := bool_decide (site_arms op = []) in
   match site_kind op with
   | ChannelSend | ChannelReceive =>
       fail_when (negb queue_is_some || negb arms_is_empty)
         "direct channel operation must have one queue and no select arms"
   | Select =>
       fail_when (queue_is_some || arms_is_empty)
         "select operation must have ordered arms and no direct queue"
   | Spawn | Join | Host | Yield | Cancellation =>
       fail_when (queue_is_some || negb arms_is_empty)
         "non-channel operation cannot carry queue or select-arm bindings"
   end);;
  validate_arms sh 0 (site_arms op).

(** The body of the second loop over the transitions. *)
Definition validate_select_edge (sh : TypedExecutionShape) (t : ExecutionTransition)
    : outcome unit :=
  match tr_condition t with
  | SelectArm operation arm =>
      operation ← index (shape_operations sh) operation;
      fail_when (negb (bool_decide (site_kind operation = Select))
        || negb (bool_decide (is_Some (site_arms operation !! N.to_nat arm))))
        "select-arm edge does not name a declared select arm"
  | _ => Done tt
  end.

Definition validate_cancellation (sh : TypedExecutionShape) : outcome unit :=
  match shape_cancellation sh with
  | None => Done tt
  | Some c =>
      fail_when ((as_u32 (length (shape_operations sh)) <=? cancel_operation c)%N
        || (as_u32 (length (shape_states sh)) <=? cancel_state c)%N)
        "cancellation transition has absent operation or cleanup state";;
      operation ← index (shape_operations sh) (cancel_operation c);
      fail_when (negb (bool_decide (site_kind operation = Cancellation)))
        "cancellation transition must name a cancellation operation"
  end.

(** ** Must-consume lanes

    A mask holds, for every lane, the set of possible states of a must lane
    as two bits; a lane that is not must-consume has 0. *)

Definition EMPTY : N := 1.
Definition LIVE : N := 2.

Abbreviation mask := (list N).

Definition must_lanes (sh : TypedExecutionShape) : list bool :=
  map (λ lane, bool_decide (lane_ownership lane = LaneOwnership.MustConsume)) (shape_frame sh).

(** [mask & LIVE != 0] *)
Definition may_live (v : N) : bool := negb (N.land v LIVE =? 0)%N.

(** The body of the loop of [apply_must_actions]. *)
Definition apply_must_action (must : list bool) (action : LaneAction) (initialized : mask)
    : outcome mask :=
  match action with
  | Copy from to =>
      must_from ← index must from;
      fail_when must_from "execution transition copies a must-consume frame lane";;
      must_to ← index must to;
      fail_when must_to
        "execution transition writes a non-must value into a must-consume frame lane";;
      mret initialized
  | Move from to =>
      must_from ← index must from;
      (if must_from then
         v ← index initialized from;
         fail_when (negb (v =? LIVE)%N)
           "execution transition moves a must-consume frame lane not live on every path"
       else mret tt);;
      must_to ← index must to;
      fail_when (negb (Bool.eqb must_from must_to))
        "execution transition changes must-consume lane ownership";;
      if must_from : bool then
        (if negb (from =? to)%N then
           v ← index initialized to;
           fail_when (may_live v)
             "execution transition overwrites a live must-consume frame lane"
         else mret tt);;
        initialized ← assign initialized from EMPTY;
        assign initialized to LIVE
      else mret initialized
  | Write to =>
      must_to ← index must to;
      if must_to : bool then
        v ← index initialized to;
        fail_when (may_live v)
          "execution transition overwrites a live must-consume frame lane";;
        assign initialized to LIVE
      else mret initialized
  | Clear lane =>
      must ← index must lane;
      fail_when must
        "execution transition clears a must-consume frame lane without disposition";;
      mret initialized
  | Discharge lane =>
      must ← index must lane;
      fail_when must
        "execution transition has no checked runtime disposition proof for a must-consume frame lane";;
      mret initialized
  end.

Definition apply_must_actions (must : list bool) (actions : list LaneAction)
    (initialized : mask) : outcome mask :=
  for_fold (apply_must_action must) actions initialized.

(** [for (existing, incoming) in existing.iter_mut().zip(&next)] *)
Fixpoint join_masks (existing incoming : mask) : mask :=
  match existing, incoming with
  | e :: existing, i :: incoming => N.lor e i :: join_masks existing incoming
  | existing, _ => existing
  end.

(** The masks reached so far and the states still to visit. *)
Record worklist : Set := {
  masks : list (option mask);
  pending : list ExecutionStateId;
}.

(** Join a mask into a target state, queueing the state when it changed. *)
Definition propagate (target : ExecutionStateId) (next : mask) (w : worklist)
    : outcome worklist :=
  existing ← index (masks w) target;
  let joined := match existing with Some e => join_masks e next | None => next end in
  states ← assign (masks w) target (Some joined);
  mret {| masks := states;
          pending := if bool_decide (existing = Some joined) then pending w
                     else (pending w ++ [target])%list |}.

(** Whether [state_index] is the cleanup state of the cancellation. *)
Definition is_cleanup (sh : TypedExecutionShape) (state_index : ExecutionStateId) : bool :=
  match shape_cancellation sh with
  | Some c => (cancel_state c =? state_index)%N
  | None => false
  end.

(** The checks on a completing edge, from lane [lane] on. *)
Fixpoint check_complete (sh : TypedExecutionShape) (cleanup : bool) (lane : nat) (next : mask)
    : outcome unit :=
  match next with
  | [] => mret tt
  | live :: next =>
      let result := existsb (λ r, N.to_nat r =? lane)%nat (shape_result_lanes sh) in
      fail_when (may_live live && (negb result || cleanup))
        "execution completion leaves a must-consume frame lane undisposed";;
      (if result && negb cleanup then
         must ← index (must_lanes sh) (N.of_nat lane);
         fail_when (must && negb (live =? LIVE)%N)
           "execution completion lacks a produced must-consume result"
       else mret tt);;
      check_complete sh cleanup (S lane) next
  end.

(** The body of the loop over the transitions of the visited state. *)
Definition visit_transition (sh : TypedExecutionShape) (state_index : ExecutionStateId)
    (initialized : mask) (t : ExecutionTransition) (w : worklist) : outcome worklist :=
  next ← apply_must_actions (must_lanes sh) (tr_actions t) initialized;
  w ← match tr_outcome t with
      | ExecutionOutcome.Continue st | ExecutionOutcome.Ready st
      | ExecutionOutcome.Blocked _ st => propagate st next w
      | ExecutionOutcome.Complete =>
          check_complete sh (is_cleanup sh state_index) 0 next;; mret w
      | ExecutionOutcome.PropagateError =>
          fail_when (existsb may_live next)
            "execution error propagation leaves a must-consume frame lane undisposed";;
          mret w
      | ExecutionOutcome.Trap => mret w
      end;
  match tr_outcome t, shape_cancellation sh with
  | ExecutionOutcome.Blocked _ _, Some cancel => propagate (cancel_state cancel) next w
  | _, _ => mret w
  end.

(** [while let Some(state_index) = pending.pop_front()]; running out of fuel
    counts as a panic, which [validate] is shown never to reach. *)
Fixpoint must_loop (fuel : nat) (sh : TypedExecutionShape) (w : worklist) : outcome unit :=
  match pending w with
  | [] => mret tt
  | state_index :: rest =>
      match fuel with
      | 0 => Panic
      | S fuel =>
          found ← index (masks w) state_index;
          match found with
          | None => Panic
          | Some initialized =>
              st ← index (shape_states sh) state_index;
              w ← for_fold (visit_transition sh state_index initialized) (transitions st)
                    {| masks := masks w; pending := rest |};
              must_loop fuel sh w
          end
      end
  end.

(** The mask of the entry state. *)
Definition entry_mask (sh : TypedExecutionShape) : mask :=
  map (λ lane, if bool_decide (lane_ownership lane = LaneOwnership.MustConsume)
               then if initially_initialized lane then LIVE else EMPTY
               else 0%N) (shape_frame sh).

(** Every visit after the first is paid for by a mask that grew: a mask is
    installed once per state and every lane of it grows up to 3. *)
Definition must_fuel (sh : TypedExecutionShape) : nat :=
  length (shape_states sh) * S (3 * length (shape_frame sh)).

Definition validate_must_lane_paths (sh : TypedExecutionShape) : outcome unit :=
  if negb (existsb (λ must, must) (must_lanes sh)) then mret tt
  else
    states ← assign (replicate (length (shape_states sh)) None) (shape_entry sh)
               (Some (entry_mask sh));
    must_loop (must_fuel sh) sh {| masks := states; pending := [shape_entry sh] |}.

(** [validate] up to its last check. *)
Definition validate_declarations (sh : TypedExecutionShape) : outcome unit :=
  dense "frame lane" (map lane_id (shape_frame sh));;
  dense "execution state" (map state_id (shape_states sh));;
  dense "operation site" (map site_id (shape_operations sh));;
  dense "queue shape" (map queue_id (shape_queues sh));;
  fail_when (negb (bool_decide (is_Some (shape_states sh !! N.to_nat (shape_entry sh)))))
    "execution entry state is absent";;
  fail_when (existsb (λ lane, as_u32 (length (shape_frame sh)) <=? lane)%N (shape_result_lanes sh))
    "execution result binding references absent frame lane";;
  for_each (validate_state sh) (shape_states sh);;
  for_each (validate_operation sh) (shape_operations sh);;
  for_each (λ st, for_each (validate_select_edge sh) (transitions st)) (shape_states sh);;
  validate_cancellation sh.

Definition validate (sh : TypedExecutionShape) : outcome unit :=
  validate_declarations sh;;
  validate_must_lane_paths sh.

(** * What a validated shape promises *)

Local Close Scope string_scope.

Definition lane_in (sh : TypedExecutionShape) (l : FrameLaneId) : Prop :=
  N.to_nat l < length (shape_frame sh).
Definition state_in (sh : TypedExecutionShape) (s : ExecutionStateId) : Prop :=
  N.to_nat s < length (shape_states sh).
Definition operation_in (sh : TypedExecutionShape) (o : OperationSiteId) : Prop :=
  N.to_nat o < length (shape_operations sh).
Definition queue_in (sh : TypedExecutionShape) (q : QueueShapeId) : Prop :=
  N.to_nat q < length (shape_queues sh).

Definition action_ok (sh : TypedExecutionShape) (a : LaneAction) : Prop :=
  match a with
  | Copy from to | Move from to => lane_in sh from ∧ lane_in sh to
  | Write l | Clear l | Discharge l => lane_in sh l
  end.

Definition condition_ok (sh : TypedExecutionShape) (c : ExecutionEdgeCondition) : Prop :=
  match c with
  | Always => True
  | Boolean l _ | VariantIs l _ => lane_in sh l
  | SelectArm o arm => ∃ op, shape_operations sh !! N.to_nat o = Some op ∧
      site_kind op = Select ∧ N.to_nat arm < length (site_arms op)
  end.

Definition outcome_ok (sh : TypedExecutionShape) (o : ExecutionOutcome.t) : Prop :=
  match o with
  | ExecutionOutcome.Continue n | ExecutionOutcome.Ready n => state_in sh n
  | ExecutionOutcome.Blocked op r => operation_in sh op ∧ state_in sh r
  | _ => True
  end.

Record transition_ok (sh : TypedExecutionShape) (t : ExecutionTransition) : Prop := {
  tok_actions : ∀ a, a ∈ tr_actions t → action_ok sh a;
  tok_condition : condition_ok sh (tr_condition t);
  tok_outcome : outcome_ok sh (tr_outcome t);
}.

Definition is_channel (o : ExecutionOperation) : bool :=
  match o with ChannelSend | ChannelReceive => true | _ => false end.

Record arm_ok (sh : TypedExecutionShape) (arm : OperationArm) : Prop := {
  aok_lanes : ∀ l, l ∈ (arm_endpoint_lane arm :: arm_input_lanes arm ++ arm_result_lanes arm)%list →
    lane_in sh l;
  aok_queue : is_channel (arm_operation arm) = true ↔ is_Some (arm_queue arm);
  aok_bound : ∀ q, arm_queue arm = Some q → ∃ queue,
    shape_queues sh !! N.to_nat q = Some queue ∧ queue_ownership queue = arm_ownership arm;
}.

Record operation_ok (sh : TypedExecutionShape) (op : OperationSite) : Prop := {
  ook_lanes : ∀ l,
    l ∈ (site_input_lanes op ++ site_result_lanes op ++ site_pending_move_lanes op)%list →
    lane_in sh l;
  ook_fallback : ∀ st, site_fallback_state op = Some st → state_in sh st;
  ook_queue : is_channel (site_kind op) = true ↔ is_Some (site_queue op);
  ook_queue_in : ∀ q, site_queue op = Some q → queue_in sh q;
  ook_select : site_kind op = Select ↔ site_arms op ≠ [];
  ook_arms : ∀ arm, arm ∈ site_arms op → arm_ok sh arm;
  ook_ordinals : ∀ k arm, site_arms op !! k = Some arm → arm_ordinal arm = as_u32 k;
}.

Record shape_ok (sh : TypedExecutionShape) : Prop := {
  sok_entry : state_in sh (shape_entry sh);
  sok_results : ∀ l, l ∈ shape_result_lanes sh → lane_in sh l;
  sok_nonempty : ∀ st, st ∈ shape_states sh → transitions st ≠ [];
  sok_transitions : ∀ st t, st ∈ shape_states sh → t ∈ transitions st → transition_ok sh t;
  sok_operations : ∀ op, op ∈ shape_operations sh → operation_ok sh op;
  sok_cancellation : ∀ c, shape_cancellation sh = Some c → state_in sh (cancel_state c) ∧
    ∃ op, shape_operations sh !! N.to_nat (cancel_operation c) = Some op ∧
          site_kind op = Cancellation;
}.

Lemma as_u32_le n : (as_u32 n ≤ N.of_nat n)%N.
Proof. unfold as_u32. by apply N.Div0.mod_le. Qed.

Lemma below_as_u32 x n : (x <? as_u32 n)%N = true → N.to_nat x < n.
Proof. rewrite N.ltb_lt. pose proof (as_u32_le n). lia. Qed.

Lemma not_above_as_u32 x n : (x < as_u32 n)%N → N.to_nat x < n.
Proof. pose proof (as_u32_le n). lia. Qed.

Lemma as_u32_succ n : as_u32 (S n) = ((as_u32 n + 1) mod (u32_max + 1))%N.
Proof.
  unfold as_u32. rewrite Nat2N.inj_succ, <- N.add_1_r.
  by rewrite N.Div0.add_mod_idemp_l.
Qed.

(** Splits [m;; k = Done x] hypotheses into their parts. *)
Ltac outcome_inv := repeat match goal with
  | H : (fail_when _ _;; _) = Done _ |- _ => apply fail_when_Done in H as [? H]
  | H : fail_when _ _ = Done _ |- _ => apply fail_when_unit in H
  | H : (_ ≫= _) = Done _ |- _ => apply outcome_bind_Done in H as (? & ? & H)
  | H : index _ _ = Done _ |- _ => apply index_Done in H
  | H : assign _ _ _ = Done _ |- _ => apply assign_Done in H as [? H]
  | H : _ || _ = false |- _ => apply orb_false_iff in H as [? ?]
  | H : negb _ = false |- _ => apply negb_false_iff in H
  | H : bool_decide _ = true |- _ => apply bool_decide_eq_true in H
  | H : bool_decide _ = false |- _ => apply bool_decide_eq_false in H
  | H : (_ <=? _)%N = false |- _ => apply N.leb_gt in H
  | H : mret _ = Done _ |- _ => injection H as <-
  | x : unit |- _ => destruct x
  | H : for_each _ _ = Done _ |- _ => rewrite for_each_Done in H; cbv beta in H
  end.

Lemma validate_action_ok sh a :
  validate_action a (as_u32 (length (shape_frame sh))) = Done tt → action_ok sh a.
Proof.
  unfold action_ok, lane_in. destruct a; cbn; intros H; outcome_inv;
    repeat case_match; simplify_eq; eauto using below_as_u32.
Qed.

Lemma validate_condition_ok sh c :
  validate_condition c (as_u32 (length (shape_frame sh))) (shape_operations sh) = Done tt →
  condition_ok sh c.
Proof.
  destruct c as [|l w|l t|o arm]; cbn; [done|case_match; [|done]..|].
  - intros _. by apply below_as_u32.
  - intros _. by apply below_as_u32.
  - destruct (shape_operations sh !! N.to_nat o) as [op|] eqn:Ho; [|done]. intros H. outcome_inv.
    exists op. split_and!; [done..|lia].
Qed.

Lemma validate_transition_ok sh t : validate_transition sh t = Done tt → transition_ok sh t.
Proof.
  unfold validate_transition. intros H. outcome_inv. split.
  - intros a Ha. apply validate_action_ok. eauto.
  - by apply validate_condition_ok.
  - unfold outcome_ok, state_in, operation_in. destruct (tr_outcome t); outcome_inv;
      eauto using not_above_as_u32.
Qed.

Lemma existsb_false_elem {A} (f : A → bool) l : existsb f l = false ↔ ∀ x, x ∈ l → f x = false.
Proof.
  rewrite <- not_true_iff_false, existsb_exists. split.
  - intros H x Hx. apply not_true_iff_false. intros Hf. apply H. exists x.
    by rewrite list_elem_of_In in Hx.
  - intros H (x & Hx & Hf). rewrite <- list_elem_of_In in Hx. by rewrite H in Hf.
Qed.

Lemma absent_queue_false sh q :
  absent_queue sh q = false ↔ ∀ id, q = Some id → queue_in sh id.
Proof.
  unfold absent_queue, queue_in. destruct q as [id|]; [|done]. rewrite N.leb_gt. split.
  - intros H ? [= <-]. lia.
  - intros H. specialize (H id eq_refl). lia.
Qed.

Lemma validate_arm_ok sh k arm :
  validate_arm sh k arm = Done tt → arm_ok sh arm ∧ arm_ordinal arm = k.
Proof.
  unfold validate_arm. intros H. outcome_inv.
  match goal with H : existsb _ _ = false |- _ => rewrite existsb_false_elem in H end.
  match goal with H : absent_queue _ _ = false |- _ => rewrite absent_queue_false in H end.
  split; [split|by apply N.eqb_eq].
  - intros l [->|Hl]%elem_of_cons; unfold lane_in; apply not_above_as_u32; [done|].
    apply N.leb_gt. eauto.
  - destruct (arm_operation arm), (arm_queue arm); cbn; naive_solver.
  - intros q Hq. rewrite Hq in H. destruct (arm_operation arm); try done; outcome_inv; eauto.
Qed.

Lemma validate_arms_ok sh k arms :
  validate_arms sh (as_u32 k) arms = Done tt →
  (∀ arm, arm ∈ arms → arm_ok sh arm) ∧
  (∀ i arm, arms !! i = Some arm → arm_ordinal arm = as_u32 (k + i)).
Proof.
  revert k. induction arms as [|a arms IH]; intros k; cbn [validate_arms].
  { split; [intros ? ?; set_solver|done]. }
  intros H. outcome_inv. rewrite <- as_u32_succ in H. destruct (IH _ H) as [Ha Ho].
  match goal with H : validate_arm _ _ _ = _ |- _ => apply validate_arm_ok in H as [? ?] end.
  split; [intros arm [->|?]%elem_of_cons; auto|].
  intros [|i] arm; cbn; [intros [= <-]; by rewrite Nat.add_0_r|].
  intros Hi%Ho. by rewrite Nat.add_succ_r, <- Nat.add_succ_l.
Qed.

Lemma validate_operation_ok sh op : validate_operation sh op = Done tt → operation_ok sh op.
Proof.
  unfold validate_operation. intros H. outcome_inv.
  match goal with H : absent_queue _ _ = false |- _ => rewrite absent_queue_false in H end.
  apply (validate_arms_ok sh 0) in H as [Harms Hord].
  split; [| | |done| |done|done].
  - intros l Hl. unfold lane_in. apply not_above_as_u32.
    match goal with H : ∀ x, _ ∈ _ → fail_when _ _ = _ |- _ => specialize (H l Hl) end.
    by outcome_inv.
  - intros st Hst. rewrite Hst in *. outcome_inv. by apply not_above_as_u32.
  - destruct (site_kind op), (site_queue op); cbn in *; naive_solver.
  - destruct (site_kind op), (site_queue op); cbn in *; try done; outcome_inv; naive_solver.
Qed.

(** Walks through a chain of checks that cannot panic, keeping what the
    earlier ones established. *)
Ltac no_panic := repeat match goal with
  | |- (_ ≫= _) ≠ Panic => apply outcome_bind_no_panic; [|intros ? ?]
  | |- fail_when _ _ ≠ Panic => apply fail_when_no_panic
  | |- for_each _ _ ≠ Panic => apply for_each_no_panic; intros ? ?
  | |- Done _ ≠ Panic => done
  | |- Fail _ ≠ Panic => done
  | |- mret _ ≠ Panic => done
  end.

Lemma dense_no_panic label ids : dense label ids ≠ Panic.
Proof.
  unfold dense. generalize 0. induction ids as [|i ids IH]; intros n; cbn [dense_from]; no_panic.
  apply IH.
Qed.

Lemma validate_state_no_panic sh st : validate_state sh st ≠ Panic.
Proof.
  unfold validate_state, validate_transition, validate_action, validate_condition.
  no_panic; repeat case_match; no_panic; repeat case_match; done.
Qed.

Lemma validate_arms_no_panic sh k arms : validate_arms sh k arms ≠ Panic.
Proof.
  revert k. induction arms as [|a arms IH]; intros k; cbn [validate_arms]; no_panic; [|apply IH].
  unfold validate_arm. no_panic. outcome_inv.
  match goal with H : absent_queue _ _ = false |- _ =>
    rewrite absent_queue_false in H; revert H end.
  destruct (arm_operation a), (arm_queue a) as [q|]; intros Hq; no_panic;
    apply index_no_panic; exact (Hq _ eq_refl).
Qed.

Lemma validate_operation_no_panic sh op : validate_operation sh op ≠ Panic.
Proof.
  unfold validate_operation. no_panic; [destruct (site_kind op); no_panic|].
  apply validate_arms_no_panic.
Qed.

Lemma validate_select_edge_no_panic sh t : transition_ok sh t → validate_select_edge sh t ≠ Panic.
Proof.
  intros [_ Hc _]. unfold validate_select_edge. destruct (tr_condition t); no_panic.
  destruct Hc as (op & Hop & _). apply index_no_panic. by eapply lookup_lt_Some.
Qed.

Lemma validate_cancellation_no_panic sh : validate_cancellation sh ≠ Panic.
Proof.
  unfold validate_cancellation. case_match; no_panic. outcome_inv.
  apply index_no_panic. by apply not_above_as_u32.
Qed.

(** The checks before the must-lane analysis establish [shape_ok]. *)
Lemma validate_declarations_ok (sh : TypedExecutionShape) :
  validate_declarations sh = Done tt → shape_ok sh.
Proof.
  unfold validate_declarations. intros H. outcome_inv. split.
  - by apply lookup_lt_is_Some.
  - intros l Hl. unfold lane_in. apply not_above_as_u32, N.leb_gt.
    match goal with H : existsb _ _ = false |- _ =>
      by apply (proj1 (existsb_false_elem _ _) H l) end.
  - intros st Hst. match goal with H : ∀ x, _ → validate_state _ _ = _ |- _ =>
      specialize (H st Hst); unfold validate_state in H end. by outcome_inv.
  - intros st t Hst Ht. match goal with H : ∀ x, _ → validate_state _ _ = _ |- _ =>
      specialize (H st Hst); unfold validate_state in H end. outcome_inv.
    apply validate_transition_ok. eauto.
  - intros op Hop. apply validate_operation_ok. eauto.
  - intros c Hc. match goal with H : validate_cancellation _ = _ |- _ =>
      unfold validate_cancellation in H; rewrite Hc in H end. outcome_inv.
    split; [by apply not_above_as_u32|eauto].
Qed.

(** ** The fixpoint of the must-lane analysis *)

Record mask_ok (sh : TypedExecutionShape) (m : mask) : Prop := {
  mok_length : length m = length (shape_frame sh);
  mok_bits : ∀ v, v ∈ m → (v < 4)%N;
}.

(** One mask allows every lane state the other does. *)
Definition mask_le : mask → mask → Prop := Forall2 (λ x y, N.lor x y = y).

#[export] Instance mask_le_preorder : PreOrder mask_le.
Proof.
  split.
  - intros m. induction m; constructor; [apply N.lor_diag|done].
  - intros a b c Hab. revert c. induction Hab as [|x y a b Hxy Hab IH]; intros c Hbc;
      inversion Hbc as [|? z ? c' Hyz Hbc']; subst; constructor; [|by apply IH].
    by rewrite <- Hyz, N.lor_assoc, Hxy.
Qed.

Lemma lor_lt4 x y : (x < 4 → y < 4 → N.lor x y < 4)%N.
Proof.
  intros Hx Hy.
  assert (x = 0 ∨ x = 1 ∨ x = 2 ∨ x = 3)%N as Cx by lia.
  assert (y = 0 ∨ y = 1 ∨ y = 2 ∨ y = 3)%N as Cy by lia.
  destruct_or!; subst; done.
Qed.

Lemma lor_grows x y : (x ≤ N.lor x y)%N.
Proof.
  destruct (N.le_gt_cases x (N.lor x y)) as [|H]; [done|].
  exfalso. apply N.lt_nge in H. apply H. apply N.ldiff_le.
  apply N.bits_inj. intros n. rewrite N.ldiff_spec, N.lor_spec, N.bits_0. by destruct (N.testbit x n).
Qed.

(** How much of the lattice a mask has used up. *)
Definition weight (m : mask) : nat := sum_list_with N.to_nat m.

Lemma weight_le m n : Forall (λ v, v < 4)%N m → length m = n → weight m ≤ 3 * n.
Proof.
  intros H <-. unfold weight. induction H as [|v m Hv H IH]; cbn; [done|].
  unfold weight in *. lia.
Qed.

Lemma mask_ok_bits sh m : mask_ok sh m → Forall (λ v, v < 4)%N m.
Proof. intros [_ H]. by apply list.Forall_forall. Qed.

Lemma join_masks_spec e i :
  length e = length i →
  mask_le e (join_masks e i) ∧ mask_le i (join_masks e i) ∧
  length (join_masks e i) = length e ∧
  (Forall (λ v, v < 4)%N e → Forall (λ v, v < 4)%N i → Forall (λ v, v < 4)%N (join_masks e i)) ∧
  weight e ≤ weight (join_masks e i) ∧
  (join_masks e i ≠ e → weight e < weight (join_masks e i)).
Proof.
  unfold weight. revert i. induction e as [|x e IH]; intros [|y i] Hl; try done; cbn in *.
  destruct (IH i ltac:(lia)) as (He & Hi & Hlen & H4 & Hw & Hc). pose proof (lor_grows x y).
  split_and!; [| |lia| |lia|].
  - constructor; [|done]. by rewrite N.lor_assoc, N.lor_diag.
  - constructor; [|done]. by rewrite N.lor_comm, <- N.lor_assoc, N.lor_diag.
  - intros [Hx He4]%list.Forall_cons [Hy Hi4]%list.Forall_cons. constructor; [by apply lor_lt4|auto].
  - intros Hne. destruct (decide (join_masks e i = e)) as [Heq|Hn]; [|specialize (Hc Hn); lia].
    assert (N.lor x y ≠ x) by (intros Hx; apply Hne; by rewrite Hx, Heq). lia.
Qed.

Lemma apply_must_action_ok sh a m :
  action_ok sh a → mask_ok sh m →
  apply_must_action (must_lanes sh) a m ≠ Panic ∧
  ∀ m', apply_must_action (must_lanes sh) a m = Done m' → mask_ok sh m'.
Proof.
  intros Ha [Hlen Hm].
  assert (∀ l, lane_in sh l → index (must_lanes sh) l ≠ Panic) as Hmust.
  { intros l Hl. apply index_no_panic. unfold must_lanes. by rewrite length_map. }
  assert (∀ l, lane_in sh l → index m l ≠ Panic) as Hidx.
  { intros l Hl. apply index_no_panic. unfold lane_in in Hl. lia. }
  assert (∀ l v (m0 : mask), lane_in sh l → length m0 = length m → assign m0 l v ≠ Panic) as Hassign.
  { intros l v m0 Hl H0. apply assign_no_panic. unfold lane_in in Hl. lia. }
  split.
  - destruct a; cbn in *; destruct_and?; repeat (no_panic || case_match); auto.
    all: outcome_inv; subst; apply Hassign; [done|by rewrite length_insert].
  - intros m' H. split.
    + destruct a; cbn in H; outcome_inv; repeat case_match; outcome_inv; subst; simplify_eq/=;
        by rewrite ?length_insert.
    + intros v Hv. destruct a; cbn in H; outcome_inv; repeat case_match; outcome_inv; subst;
        simplify_eq/=; auto;
        repeat match goal with
        | H : _ ∈ <[_:=_]> _ |- _ => apply elem_of_insert_inv in H as [-> |H]
        end; auto; done.
Qed.

Lemma for_fold_inv {A B} (I : B → Prop) (body : A → B → outcome B) l b :
  I b →
  (∀ x b, x ∈ l → I b → body x b ≠ Panic ∧ ∀ b', body x b = Done b' → I b') →
  for_fold body l b ≠ Panic ∧ ∀ b', for_fold body l b = Done b' → I b'.
Proof.
  revert b. induction l as [|x l IH]; intros b Hb Hbody; cbn [for_fold].
  { split; [done|]. by intros b' [= <-]. }
  destruct (Hbody x b ltac:(set_solver) Hb) as [Hp Hd].
  split; [apply outcome_bind_no_panic; [done|]|];
    intros b' Hb'; [|apply outcome_bind_Done in Hb' as (b1 & Hb1 & Hb'); revert b' Hb'];
    (apply IH; [by apply Hd|intros; apply Hbody; set_solver]).
Qed.

Lemma apply_must_actions_ok sh actions m :
  (∀ a, a ∈ actions → action_ok sh a) → mask_ok sh m →
  apply_must_actions (must_lanes sh) actions m ≠ Panic ∧
  ∀ m', apply_must_actions (must_lanes sh) actions m = Done m' → mask_ok sh m'.
Proof. intros Ha Hm. apply for_fold_inv; [done|]. eauto using apply_must_action_ok. Qed.

(** ** Worklists *)

Definition mask_at (ms : list (option mask)) (s : ExecutionStateId) (m : mask) : Prop :=
  ms !! N.to_nat s = Some (Some m).

(** The state has been given a mask that allows [next]. *)
Definition reached (ms : list (option mask)) (s : ExecutionStateId) (next : mask) : Prop :=
  ∃ m, mask_at ms s m ∧ mask_le next m.

Record worklist_ok (sh : TypedExecutionShape) (w : worklist) : Prop := {
  wok_length : length (masks w) = length (shape_states sh);
  wok_masks : ∀ s m, mask_at (masks w) s m → mask_ok sh m;
  wok_pending : ∀ s, s ∈ pending w → ∃ m, mask_at (masks w) s m;
}.

(** How much of the lattice the analysis has used up. *)
Definition used (ms : list (option mask)) : nat :=
  sum_list_with (λ o, match o with Some m => S (weight m) | None => 0 end) ms.

Record grows (w w' : worklist) : Prop := {
  gr_masks : ∀ s m, mask_at (masks w) s m → reached (masks w') s m;
  gr_changed : ∀ s m, mask_at (masks w') s m → mask_at (masks w) s m ∨ s ∈ pending w';
  gr_pending : ∀ s, s ∈ pending w → s ∈ pending w';
  gr_used : used (masks w) + length (pending w') ≤ used (masks w') + length (pending w);
}.

Lemma reached_grows w w' s m : grows w w' → reached (masks w) s m → reached (masks w') s m.
Proof.
  intros Hg (m0 & Hm0 & Hle). destruct (gr_masks _ _ Hg _ _ Hm0) as (m1 & Hm1 & Hle').
  exists m1. split; [done|]. by transitivity m0.
Qed.

#[export] Instance grows_preorder : PreOrder grows.
Proof.
  split.
  - intros w. split; [|auto|auto|lia]. intros s m Hm. by exists m.
  - intros a b c Hab Hbc. split.
    + intros s m Hm. eapply reached_grows; [done|]. by eapply gr_masks.
    + intros s m Hm. destruct (gr_changed _ _ Hbc _ _ Hm) as [H|H]; [|by right].
      destruct (gr_changed _ _ Hab _ _ H) as [H'|H']; [by left|right]. by eapply gr_pending.
    + intros s Hs. by eapply gr_pending, gr_pending.
    + pose proof (gr_used _ _ Hab). pose proof (gr_used _ _ Hbc). lia.
Qed.

Lemma used_insert ms k o o' :
  ms !! k = Some o →
  used (<[k := o']> ms) + match o with Some m => S (weight m) | None => 0 end =
  used ms + match o' with Some m => S (weight m) | None => 0 end.
Proof.
  revert k. unfold used. induction ms as [|x ms IH]; intros [|k] Hk; simplify_eq/=; [lia|].
  specialize (IH _ Hk). lia.
Qed.

Lemma used_le sh w :
  worklist_ok sh w → used (masks w) ≤ must_fuel sh.
Proof.
  intros [Hlen Hok _]. unfold must_fuel. rewrite <- Hlen.
  assert (∀ o, o ∈ masks w → ∀ m, o = Some m → mask_ok sh m) as H.
  { intros o [k Hk]%list_elem_of_lookup m ->. apply (Hok (N.of_nat k)). unfold mask_at.
    by rewrite Nat2N.id. }
  clear Hok Hlen. unfold used. induction (masks w) as [|o ms IH]; cbn; [done|].
  assert (match o with Some m => S (weight m) | None => 0 end ≤ S (3 * length (shape_frame sh))).
  { destruct o as [m|]; [|lia]. specialize (H (Some m) ltac:(set_solver) m eq_refl).
    apply le_n_S, weight_le; [by eapply mask_ok_bits|by destruct H]. }
  assert (sum_list_with (λ o, match o with Some m => S (weight m) | None => 0 end) ms
    ≤ length ms * S (3 * length (shape_frame sh))) by (apply IH; intros; eapply H; set_solver).
  lia.
Qed.

(** The mask [propagate] installs over [o]. *)
Definition joined_mask (o : option mask) (next : mask) : mask :=
  match o with Some e => join_masks e next | None => next end.

Lemma joined_mask_ok sh o next :
  mask_ok sh next → (∀ e, o = Some e → mask_ok sh e) →
  mask_ok sh (joined_mask o next) ∧ mask_le next (joined_mask o next) ∧
  (∀ e, o = Some e → mask_le e (joined_mask o next)) ∧
  (o ≠ Some (joined_mask o next) →
   match o with Some m => S (weight m) | None => 0 end < S (weight (joined_mask o next))).
Proof.
  intros Hn He. destruct o as [e|]; cbn; [|split_and!; [done..|by intros _; lia]].
  specialize (He e eq_refl). pose proof He as [Hel He4].
  destruct (join_masks_spec e next) as (H1 & H2 & H3 & H4 & H5 & H6).
  { rewrite Hel. by destruct Hn. }
  split_and!; [split; [congruence|]|done|by intros ? [= <-]|].
  - apply list.Forall_forall, H4; by eapply mask_ok_bits.
  - intros Hne. rewrite <- Nat.succ_lt_mono. apply H6. congruence.
Qed.

Lemma mask_at_insert ms target m s :
  N.to_nat target < length ms →
  (s = target ∧ ∀ m', mask_at (<[N.to_nat target := Some m]> ms) s m' ↔ m' = m) ∨
  (s ≠ target ∧ ∀ m', mask_at (<[N.to_nat target := Some m]> ms) s m' ↔ mask_at ms s m').
Proof.
  intros Hlt. unfold mask_at. destruct (decide (s = target)) as [->|Hne]; [left|right].
  - split; [done|]. intros m'. rewrite list_lookup_insert_eq by done. naive_solver.
  - split; [done|]. intros m'. rewrite list_lookup_insert_ne; [done|].
    intros Heq. apply Hne. by apply N2Nat.inj.
Qed.

Lemma propagate_ok sh target next w :
  state_in sh target → mask_ok sh next → worklist_ok sh w →
  ∃ w', propagate target next w = Done w' ∧ worklist_ok sh w' ∧ grows w w' ∧
        reached (masks w') target next.
Proof.
  intros Ht Hn [Hlen Hok Hp].
  assert (N.to_nat target < length (masks w)) as Hlt by (unfold state_in in Ht; lia).
  destruct (lookup_lt_is_Some_2 _ _ Hlt) as [o Ho].
  destruct (joined_mask_ok sh o next Hn) as (Hj & Hnj & Hej & Hwj).
  { intros e ->. by eapply Hok. }
  exists {| masks := <[N.to_nat target := Some (joined_mask o next)]> (masks w);
       pending := if bool_decide (o = Some (joined_mask o next)) then pending w
                  else pending w ++ [target] |}.
  set (j := joined_mask o next) in *. pose proof (mask_at_insert (masks w) target j) as Hat.
  split_and!.
  - unfold propagate, index, assign. rewrite Ho.
    cbn [mbind outcome_bind]. by rewrite (bool_decide_eq_true_2 (_ < _) Hlt).
  - split; cbn [masks pending].
    + by rewrite length_insert.
    + intros s m Hm. destruct (Hat s Hlt) as [[-> Hs]|[_ Hs]]; apply Hs in Hm; [by subst|eauto].
    + intros s Hs. destruct (Hat s Hlt) as [[-> Hs']|[Hne Hs']]; [exists j; by apply Hs'|].
      destruct (Hp s) as [m Hm]; [|exists m; by apply Hs']. case_bool_decide; set_solver.
  - split; cbn [masks pending].
    + intros s m Hm. destruct (Hat s Hlt) as [[-> Hs]|[Hne Hs]].
      * exists j. split; [by apply Hs|]. apply Hej. unfold mask_at in Hm. congruence.
      * exists m. split; [by apply Hs|done].
    + intros s m Hm. destruct (Hat s Hlt) as [[-> Hs]|[Hne Hs]]; apply Hs in Hm; [|by left].
      case_bool_decide as He; [|right; set_solver]. left. unfold mask_at. congruence.
    + intros s Hs. case_bool_decide; set_solver.
    + pose proof (used_insert _ _ _ (Some j) Ho) as Hu. cbv iota in Hu.
      case_bool_decide as He.
      * clearbody j. subst o. lia.
      * specialize (Hwj He). rewrite length_app. cbn [length]. lia.
  - destruct (Hat target Hlt) as [[_ Hs]|[Hne _]]; [|done]. exists j. split; [by apply Hs|done].
Qed.

(** What the analysis has established about one edge of a visited state. *)
Definition edge_covered (sh : TypedExecutionShape) (ms : list (option mask))
    (s : ExecutionStateId) (m : mask) (t : ExecutionTransition) : Prop :=
  ∃ next, apply_must_actions (must_lanes sh) (tr_actions t) m = Done next ∧
  match tr_outcome t with
  | ExecutionOutcome.Continue n | ExecutionOutcome.Ready n => reached ms n next
  | ExecutionOutcome.Blocked _ r => reached ms r next ∧
      ∀ c, shape_cancellation sh = Some c → reached ms (cancel_state c) next
  | ExecutionOutcome.Complete => check_complete sh (is_cleanup sh s) 0 next = Done tt
  | ExecutionOutcome.PropagateError => existsb may_live next = false
  | ExecutionOutcome.Trap => True
  end.

Lemma edge_covered_grows sh w w' s m t :
  grows w w' → edge_covered sh (masks w) s m t → edge_covered sh (masks w') s m t.
Proof.
  intros Hg (next & Hn & H). exists next. split; [done|].
  destruct (tr_outcome t); destruct_and?; split_and?; eauto using reached_grows.
Qed.

Lemma check_complete_no_panic sh cleanup k next :
  k + length next ≤ length (shape_frame sh) → check_complete sh cleanup k next ≠ Panic.
Proof.
  revert k. induction next as [|v next IH]; intros k Hk; cbn [check_complete]; no_panic.
  - case_match; no_panic. apply index_no_panic. unfold must_lanes.
    rewrite length_map, Nat2N.id. cbn in Hk. lia.
  - apply IH. cbn in Hk. lia.
Qed.

Section analysis.
Context (sh : TypedExecutionShape) (Hsh : shape_ok sh).

Lemma visit_transition_ok s m t w :
  transition_ok sh t → mask_ok sh m → worklist_ok sh w →
  visit_transition sh s m t w ≠ Panic ∧
  ∀ w', visit_transition sh s m t w = Done w' →
    worklist_ok sh w' ∧ grows w w' ∧ edge_covered sh (masks w') s m t.
Proof.
  intros [Hact _ Hout] Hm Hw. unfold visit_transition, edge_covered.
  destruct (apply_must_actions_ok sh (tr_actions t) m Hact Hm) as [Hnp Hok].
  destruct (apply_must_actions (must_lanes sh) (tr_actions t) m) as [next|e|] eqn:Happ;
    [|done..]. specialize (Hok next eq_refl). cbn [mbind outcome_bind].
  destruct (tr_outcome t) as [n|n|o r| | |]; cbn [outcome_ok] in Hout.
  - destruct (propagate_ok sh n next w Hout Hok Hw) as (w' & -> & Hw' & Hg & Hr).
    split; [done|]. intros ? [= <-]. split_and!; [done|done|by exists next].
  - destruct (propagate_ok sh n next w Hout Hok Hw) as (w' & -> & Hw' & Hg & Hr).
    split; [done|]. intros ? [= <-]. split_and!; [done|done|by exists next].
  - destruct Hout as [_ Hr].
    destruct (propagate_ok sh r next w Hr Hok Hw) as (w1 & -> & Hw1 & Hg1 & Hr1).
    cbn [mbind outcome_bind]. destruct (shape_cancellation sh) as [c|] eqn:Hc.
    + destruct (propagate_ok sh (cancel_state c) next w1) as (w2 & -> & Hw2 & Hg2 & Hr2);
        [by apply (sok_cancellation _ Hsh)|done..|].
      split; [done|]. intros ? [= <-]. split_and!; [done|by transitivity w1|].
      exists next. split_and!; [done|by eapply reached_grows|by intros ? [= <-]].
    + split; [done|]. intros ? [= <-]. split_and!; [done..|]. by exists next.
  - pose proof (check_complete_no_panic sh (is_cleanup sh s) 0 next) as Hc.
    destruct (check_complete sh (is_cleanup sh s) 0 next) as [[]|e|] eqn:Hchk; cbn.
    + split; [done|]. intros ? [= <-]. split_and!; [done|done|by exists next].
    + done.
    + destruct Hok as [Hl _]. by destruct Hc; [rewrite Hl|].
  - destruct (existsb may_live next) eqn:He; cbn; [done|].
    split; [done|]. intros ? [= <-]. split_and!; [done|done|by exists next].
  - split; [done|]. intros ? [= <-]. split_and!; [done|done|by exists next].
Qed.

Lemma visit_state_ok s m ts w :
  (∀ t, t ∈ ts → transition_ok sh t) → mask_ok sh m → worklist_ok sh w →
  for_fold (visit_transition sh s m) ts w ≠ Panic ∧
  ∀ w', for_fold (visit_transition sh s m) ts w = Done w' →
    worklist_ok sh w' ∧ grows w w' ∧ ∀ t, t ∈ ts → edge_covered sh (masks w') s m t.
Proof.
  intros Hts Hm. revert w. induction ts as [|t ts IH]; intros w Hw; cbn [for_fold].
  { split; [done|]. intros ? [= <-]. split_and!; [done..|]. intros t Ht. set_solver. }
  destruct (visit_transition_ok s m t w) as [Hnp Hd]; [apply Hts; set_solver|done..|].
  destruct (visit_transition sh s m t w) as [w1|e|]; [|done..]. cbn [mbind outcome_bind].
  destruct (Hd w1 eq_refl) as (Hw1 & Hg1 & He1).
  destruct (IH ltac:(intros; apply Hts; set_solver) w1 Hw1) as [Hnp2 Hd2].
  split; [done|]. intros w2 H2. destruct (Hd2 w2 H2) as (Hw2 & Hg2 & He2).
  split_and!; [done|by transitivity w1|].
  intros t' [->|Ht']%elem_of_cons; [by eapply edge_covered_grows|auto].
Qed.

(** Every state with a mask is waiting to be visited or all its edges are
    covered. *)
Definition closed_but_pending (w : worklist) : Prop :=
  ∀ s m st t, mask_at (masks w) s m → s ∉ pending w →
    shape_states sh !! N.to_nat s = Some st → t ∈ transitions st →
    edge_covered sh (masks w) s m t.

(** Visiting [s], which leaves the front of the queue, keeps the invariant. *)
Lemma closed_after_visit w w' s m st rest :
  closed_but_pending w → pending w = s :: rest → mask_at (masks w) s m →
  shape_states sh !! N.to_nat s = Some st →
  grows {| masks := masks w; pending := rest |} w' →
  (∀ t, t ∈ transitions st → edge_covered sh (masks w') s m t) →
  closed_but_pending w'.
Proof.
  intros Hcl Hp Hm Hst Hg He s' m' st' t Hm' Hnp' Hst' Ht.
  destruct (gr_changed _ _ Hg _ _ Hm') as [Hold|?]; [|done]. cbn in Hold.
  destruct (decide (s' = s)) as [->|Hne].
  - assert (m' = m ∧ st' = st) as [-> ->] by (unfold mask_at in *; split; congruence). auto.
  - apply (edge_covered_grows _ {| masks := masks w; pending := rest |}); [done|].
    eapply Hcl; [done| |done..]. rewrite Hp. intros [->|Hr]%elem_of_cons; [done|].
    by apply Hnp', (gr_pending _ _ Hg).
Qed.

Lemma must_loop_ok fuel w :
  worklist_ok sh w → closed_but_pending w →
  must_fuel sh + length (pending w) ≤ fuel + used (masks w) →
  must_loop fuel sh w ≠ Panic ∧
  (must_loop fuel sh w = Done tt → ∃ w', worklist_ok sh w' ∧ pending w' = [] ∧
    closed_but_pending w' ∧ ∀ s m, mask_at (masks w) s m → reached (masks w') s m).
Proof.
  revert w. induction fuel as [|fuel IH]; intros w Hw Hcl Hf; cbn [must_loop];
    pose proof (used_le sh w Hw) as Hu; destruct (pending w) as [|s rest] eqn:Hp.
  1, 3: split; [done|]; intros _; exists w; split_and!; [done..|]; intros s m Hm; by exists m.
  { cbn in Hf. lia. }
  destruct (wok_pending _ _ Hw s) as [m Hm]; [rewrite Hp; set_solver|].
  assert (state_in sh s) as Hs.
  { unfold state_in. rewrite <- (wok_length _ _ Hw). by eapply lookup_lt_Some. }
  destruct (lookup_lt_is_Some_2 _ _ Hs) as [st Hst].
  unfold index. rewrite Hm, Hst. cbn [mbind outcome_bind].
  destruct (visit_state_ok s m (transitions st) {| masks := masks w; pending := rest |})
    as [Hnp Hd].
  { intros t Ht. eapply sok_transitions; [done| |done]. by eapply list_elem_of_lookup_2. }
  { by eapply wok_masks. }
  { destruct Hw as [H1 H2 H3]. split; cbn; [done..|]. intros s' Hs'. apply H3. rewrite Hp. set_solver. }
  destruct (for_fold _ _ _) as [w1|e|]; [|done..]. destruct (Hd w1 eq_refl) as (Hw1 & Hg & He).
  cbn [mbind outcome_bind].
  assert (closed_but_pending w1) as Hcl1 by (by eapply closed_after_visit).
  destruct (IH w1 Hw1 Hcl1) as [Hnp1 Hd1].
  { pose proof (gr_used _ _ Hg) as Hgu. cbn [masks pending length] in *. lia. }
  split; [done|]. intros H. destruct (Hd1 H) as (w2 & Hw2 & Hp2 & Hcl2 & Hr2).
  exists w2. split_and!; [done..|]. intros s' m' Hm'.
  destruct (gr_masks _ _ Hg s' m') as (m1 & Hm1 & Hle); [done|].
  destruct (Hr2 _ _ Hm1) as (m2 & Hm2 & Hle2). exists m2. split; [done|]. by transitivity m1.
Qed.
End analysis.

(** The masks the analysis ends with: the entry state has the states its
    lanes start in, and every edge of a state with a mask is covered. *)
Record must_solution (sh : TypedExecutionShape) (ms : list (option mask)) : Prop := {
  ms_masks : ∀ s m, mask_at ms s m → mask_ok sh m;
  ms_entry : reached ms (shape_entry sh) (entry_mask sh);
  ms_edges : ∀ s m st t, mask_at ms s m → shape_states sh !! N.to_nat s = Some st →
    t ∈ transitions st → edge_covered sh ms s m t;
}.

Lemma entry_mask_ok sh : mask_ok sh (entry_mask sh).
Proof.
  unfold entry_mask. split; [by rewrite length_map|].
  intros v (lane & -> & _)%list_elem_of_fmap. repeat case_match; done.
Qed.

Lemma validate_must_lane_paths_ok sh :
  shape_ok sh →
  validate_must_lane_paths sh ≠ Panic ∧
  (validate_must_lane_paths sh = Done tt →
   existsb (λ must, must) (must_lanes sh) = true → ∃ ms, must_solution sh ms).
Proof.
  intros Hsh. unfold validate_must_lane_paths.
  destruct (existsb _ (must_lanes sh)) eqn:Hany; cbn [negb]; [|done].
  pose proof (sok_entry _ Hsh) as Hentry. unfold state_in in Hentry.
  unfold assign. rewrite bool_decide_eq_true_2 by (by rewrite length_replicate).
  cbn [mbind outcome_bind].
  set (ms0 := <[N.to_nat (shape_entry sh) := Some (entry_mask sh)]>
    (replicate (length (shape_states sh)) None)).
  assert (∀ s m, mask_at ms0 s m → s = shape_entry sh ∧ m = entry_mask sh) as Hms0.
  { intros s m Hm. destruct (mask_at_insert (replicate (length (shape_states sh)) None)
      (shape_entry sh) (entry_mask sh) s) as [[-> H]|[_ H]]; [by rewrite length_replicate| |];
      apply H in Hm; [done|]. apply lookup_replicate in Hm as [? _]. done. }
  assert (mask_at ms0 (shape_entry sh) (entry_mask sh)) as Hat.
  { apply list_lookup_insert_eq. by rewrite length_replicate. }
  destruct (must_loop_ok sh Hsh (must_fuel sh) {| masks := ms0; pending := [shape_entry sh] |})
    as [Hnp Hd].
  - split; cbn [masks pending].
    + unfold ms0. by rewrite length_insert, length_replicate.
    + intros s m [-> ->]%Hms0. apply entry_mask_ok.
    + intros s ->%list_elem_of_singleton. eauto.
  - intros s m st t [-> ->]%Hms0 Hp. cbn in Hp. set_solver.
  - cbn [masks pending length].
    pose proof (used_insert (replicate (length (shape_states sh)) None)
      (N.to_nat (shape_entry sh)) None (Some (entry_mask sh))) as Hu.
    rewrite lookup_replicate in Hu. specialize (Hu ltac:(done)). cbv iota in Hu. fold ms0 in Hu. lia.
  - split; [done|]. intros H _. destruct (Hd H) as (w & Hw & Hp & Hcl & Hr).
    exists (masks w). split; [apply Hw|by apply Hr|].
    intros s m st t Hm Hst Ht. eapply Hcl; [done| |done..]. rewrite Hp. set_solver.
Qed.

Lemma validate_declarations_no_panic sh : validate_declarations sh ≠ Panic.
Proof.
  unfold validate_declarations. no_panic; try apply dense_no_panic.
  - apply validate_state_no_panic.
  - apply validate_operation_no_panic.
  - apply validate_select_edge_no_panic. outcome_inv.
    match goal with H : ∀ x, _ → validate_state _ _ = _, Hs : _ ∈ shape_states _ |- _ =>
      specialize (H _ Hs); unfold validate_state in H end. outcome_inv.
    apply validate_transition_ok. eauto.
  - apply validate_cancellation_no_panic.
Qed.

Lemma validate_ok sh : validate sh = Done tt →
  shape_ok sh ∧
  (existsb (λ must, must) (must_lanes sh) = true → ∃ ms, must_solution sh ms).
Proof.
  unfold validate. intros H. outcome_inv.
  match goal with H : validate_declarations _ = _ |- _ => apply validate_declarations_ok in H end.
  split; [done|]. by apply validate_must_lane_paths_ok.
Qed.

Lemma validate_no_panic sh : validate sh ≠ Panic.
Proof.
  unfold validate. apply outcome_bind_no_panic.
  - apply validate_declarations_no_panic.
  - intros [] H%validate_declarations_ok. by apply validate_must_lane_paths_ok.
Qed.

(** Validating a shape always returns: the worklist of the must-lane analysis
    empties within its bound whatever the shape, and no index is out of
    range.  An accepted shape has an entry state, refers only to lanes,
    states, operations, arms and queues it declares, and binds queues exactly
    on its channel operations and arms. *)
Theorem validate_total (sh : TypedExecutionShape) :
  (validate sh = Done tt ∧ shape_ok sh) ∨ ∃ e, validate sh = Fail e.
Proof.
  destruct (validate sh) as [[]|e|] eqn:Hv; [left; by destruct (validate_ok sh)|by right; exists e|].
  by apply validate_no_panic in Hv.
Qed.
