(* ===== verification/AsyncProgram.v ===== *)
(** * AsyncProgram: the canonical async program

    Models [crates/witchy-types/src/async_program.rs]: the backend-neutral
    program built from typed executions and final closure layouts, its
    structural validation, its canonical bytes and fingerprint, and the
    binding of a shape to a backend's layout.  The hash function [blake3] is
    third-party code and a variable of the [Fingerprint] section. *)

From S2P Require Import Prelude Text Footprint Wire Execution.

Local Open Scope string_scope.

Definition ASYNC_PROGRAM_SCHEMA_VERSION : N := 2.

Abbreviation AsyncProgramStateId := N.
Abbreviation AsyncProgramOperationId := N.
Abbreviation FinalCallableIndex := N.

Record AsyncStateEdge : Set := {
  edge_condition : ExecutionEdgeCondition;
  edge_actions : list LaneAction;
  edge_outcome : ExecutionOutcome.t;
}.

Record FinalStateBinding : Set := {
  fs_state : AsyncProgramStateId;
  fs_callable : FinalCallableIndex;
  fs_capture_to_lane : list N;
  fs_edges : list AsyncStateEdge;
}.

Record AsyncOperationArm : Set := {
  ar_ordinal : N;
  ar_operation : ExecutionOperation;
  ar_endpoint_lane : N;
  ar_input_lanes : list N;
  ar_result_lanes : list N;
  ar_queue : option QueueShapeId;
  ar_ownership : PayloadOwnership;
}.

Record AsyncOperationBinding : Set := {
  op_id : AsyncProgramOperationId;
  op_kind : ExecutionOperation;
  op_input_lanes : list N;
  op_result_lanes : list N;
  op_pending_move_lanes : list N;
  op_fallback_state : option AsyncProgramStateId;
  op_queue : option QueueShapeId;
  op_arms : list AsyncOperationArm;
}.

Record AsyncCancellationTransition : Set := {
  ac_operation : AsyncProgramOperationId;
  ac_state : AsyncProgramStateId;
}.

Record AsyncBackendStateBinding : Set := {
  bs_state : AsyncProgramStateId;
  bs_callable : FinalCallableIndex;
  bs_capture_to_lane : list N;
}.

Record AsyncBackendBinding : Set := {
  bb_shape : ExecutionShapeId;
  bb_mode : SourceExecutionMode;
  bb_closure_layout_fingerprint : list byte;
  bb_states : list AsyncBackendStateBinding;
}.

Record FinalTypedAsyncStateBinding : Set := {
  ft_state : ExecutionStateId;
  ft_callable : FinalCallableIndex;
  ft_capture_to_lane : list FrameLaneId;
}.

Inductive DynamicAsyncBoundary : Set :=
  | DynamicAsyncCall | DynamicSelectEndpoint | OpaqueHostOperation | UnsupportedTypedOperation.

Record FinalTypedAsyncExecution : Set := {
  fe_execution : TypedExecutionShape;
  fe_closure_layout_fingerprint : list byte;
  fe_state_bindings : list FinalTypedAsyncStateBinding;
  fe_dynamic_boundaries : list DynamicAsyncBoundary;
}.

Record AsyncExecutionShape : Set := {
  as_id : ExecutionShapeId;
  as_mode : SourceExecutionMode;
  as_closure_layout_fingerprint : list byte;
  as_frame : list FrameLane;
  as_entry : AsyncProgramStateId;
  as_result_lanes : list N;
  as_states : list FinalStateBinding;
  as_operations : list AsyncOperationBinding;
  as_queues : list QueueShape;
  as_cancellation : option AsyncCancellationTransition;
  as_dynamic_boundaries : list DynamicAsyncBoundary;
}.

Record AsyncProgram : Set := {
  schema_version : N;
  semantic_fingerprint : list byte;
  execution_shapes : list AsyncExecutionShape;
}.

#[export] Instance mode_eq_dec : EqDecision SourceExecutionMode.
Proof. solve_decision. Defined.

(** ** Binding a shape to a backend *)

(** The loop over the zipped states. *)
Fixpoint validate_state_bindings (expected : nat)
    (states : list (FinalStateBinding * AsyncBackendStateBinding)) : outcome unit :=
  match states with
  | [] => mret tt
  | (semantic, backend) :: rest =>
      fail_when (negb (bs_state backend =? as_u32 expected)%N ||
                 negb (bs_state backend =? fs_state semantic)%N ||
                 negb (bs_callable backend =? fs_callable semantic)%N ||
                 negb (bool_decide (bs_capture_to_lane backend = fs_capture_to_lane semantic)))
        "async backend state binding drifted from canonical layout";;
      validate_state_bindings (S expected) rest
  end.

Definition validate_backend_binding (sh : AsyncExecutionShape) (binding : AsyncBackendBinding)
    : outcome unit :=
  fail_when (negb (bb_shape binding =? as_id sh)%N)
    "async backend binding names a different execution shape";;
  fail_when (negb (bool_decide (bb_mode binding = as_mode sh)))
    "async backend execution mode drifted from checked source";;
  fail_when (negb (bool_decide (bb_closure_layout_fingerprint binding =
                                as_closure_layout_fingerprint sh)))
    "async backend closure layout fingerprint drifted";;
  fail_when (negb (length (bb_states binding) =? length (as_states sh))%nat)
    "async backend state binding count drifted";;
  validate_state_bindings 0 (zip (as_states sh) (bb_states binding)).

Definition typed_state (st : FinalStateBinding) : ExecutionState :=
  {| state_id := fs_state st;
     transitions := map (λ e, {| tr_condition := edge_condition e;
                                 tr_actions := edge_actions e;
                                 tr_outcome := edge_outcome e |}) (fs_edges st) |}.

Definition typed_arm (a : AsyncOperationArm) : OperationArm :=
  {| arm_ordinal := ar_ordinal a; arm_operation := ar_operation a;
     arm_endpoint_lane := ar_endpoint_lane a; arm_input_lanes := ar_input_lanes a;
     arm_result_lanes := ar_result_lanes a; arm_queue := ar_queue a;
     arm_ownership := ar_ownership a |}.

Definition typed_operation (op : AsyncOperationBinding) : OperationSite :=
  {| site_id := op_id op; site_kind := op_kind op;
     site_input_lanes := op_input_lanes op; site_result_lanes := op_result_lanes op;
     site_pending_move_lanes := op_pending_move_lanes op;
     site_fallback_state := op_fallback_state op; site_queue := op_queue op;
     site_arms := map typed_arm (op_arms op) |}.

(** The shape [into_typed_execution] builds. *)
Definition typed_shape (sh : AsyncExecutionShape) : TypedExecutionShape :=
  {| shape_id := as_id sh; shape_mode := as_mode sh; shape_entry := as_entry sh;
     shape_frame := as_frame sh; shape_result_lanes := as_result_lanes sh;
     shape_states := map typed_state (as_states sh);
     shape_operations := map typed_operation (as_operations sh);
     shape_queues := as_queues sh;
     shape_cancellation :=
       (λ c, {| cancel_operation := ac_operation c; cancel_state := ac_state c |})
         <$> as_cancellation sh |}.

Definition into_typed_execution (sh : AsyncExecutionShape) (binding : AsyncBackendBinding)
    : outcome TypedExecutionShape :=
  validate_backend_binding sh binding;;
  Execution.validate (typed_shape sh);;
  mret (typed_shape sh).

(** ** Structure *)

Definition validate_edge_condition (condition : ExecutionEdgeCondition)
    (lane_count operation_count : N) : outcome unit :=
  match condition with
  | Always => Done tt
  | Boolean lane _ | VariantIs lane _ =>
      if (lane <? lane_count)%N then Done tt
      else Fail "async edge condition references absent frame lane"
  | SelectArm operation _ =>
      if (operation <? operation_count)%N then Done tt
      else Fail "async edge condition references absent operation"
  end.

(** [lane as usize >= shape.frame.len()] *)
Definition beyond {A} (l : list A) (id : N) : bool := (N.of_nat (length l) <=? id)%N.
Definition some_beyond {A} (l : list A) (id : option N) : bool :=
  match id with Some id => beyond l id | None => false end.

(** The bodies of the loops over the states, operations and arms. *)
Definition check_state (sh : AsyncExecutionShape) (expected : nat) (b : FinalStateBinding)
    : outcome unit :=
  fail_when (negb (fs_state b =? as_u32 expected)%N) "async state IDs must be dense";;
  for_each (λ lane, fail_when (beyond (as_frame sh) lane)
    "async capture binding references absent frame lane") (fs_capture_to_lane b);;
  fail_when (bool_decide (fs_edges b = [])) "async state has no canonical edge";;
  for_each (λ e, validate_edge_condition (edge_condition e) (N.of_nat (length (as_frame sh)))
                   (N.of_nat (length (as_operations sh)))) (fs_edges b).

Definition check_arm (sh : AsyncExecutionShape) (ordinal : nat) (a : AsyncOperationArm)
    : outcome unit :=
  fail_when (negb (ar_ordinal a =? as_u32 ordinal)%N)
    "async operation arms must preserve dense source order";;
  fail_when (beyond (as_frame sh) (ar_endpoint_lane a) ||
             existsb (beyond (as_frame sh)) (ar_input_lanes a ++ ar_result_lanes a)%list)
    "async operation arm references absent frame lane";;
  fail_when (some_beyond (as_queues sh) (ar_queue a))
    "async operation arm references absent queue shape".

(** [for (i, x) in l.iter().enumerate() { body(i, x)? }] *)
Fixpoint for_enum {A} (body : nat → A → outcome unit) (i : nat) (l : list A) : outcome unit :=
  match l with
  | [] => mret tt
  | x :: l => body i x;; for_enum body (S i) l
  end.

Definition check_operation (sh : AsyncExecutionShape) (expected : nat) (op : AsyncOperationBinding)
    : outcome unit :=
  fail_when (negb (op_id op =? as_u32 expected)%N) "async operation IDs must be dense";;
  fail_when (existsb (beyond (as_frame sh))
      (op_input_lanes op ++ op_result_lanes op ++ op_pending_move_lanes op)%list)
    "async operation references absent frame lane";;
  fail_when (some_beyond (as_states sh) (op_fallback_state op))
    "async operation fallback references absent state";;
  fail_when (some_beyond (as_queues sh) (op_queue op))
    "async operation references absent queue shape";;
  for_enum (check_arm sh) 0 (op_arms op).

Definition check_cancellation (sh : AsyncExecutionShape) : outcome unit :=
  match as_cancellation sh with
  | None => mret tt
  | Some c =>
      fail_when (beyond (as_operations sh) (ac_operation c) || beyond (as_states sh) (ac_state c))
        "async cancellation references an absent operation or state";;
      op ← index (as_operations sh) (ac_operation c);
      fail_when (negb (bool_decide (op_kind op = Cancellation)))
        "async cancellation must name a cancellation operation"
  end.

(** The binding built from the shape itself. *)
Definition own_binding (sh : AsyncExecutionShape) : AsyncBackendBinding :=
  {| bb_shape := as_id sh; bb_mode := as_mode sh;
     bb_closure_layout_fingerprint := as_closure_layout_fingerprint sh;
     bb_states := map (λ st, {| bs_state := fs_state st; bs_callable := fs_callable st;
                                bs_capture_to_lane := fs_capture_to_lane st |}) (as_states sh) |}.

Definition check_shape (expected : nat) (sh : AsyncExecutionShape) : outcome unit :=
  fail_when (negb (as_id sh =? as_u32 expected)%N) "async execution shape IDs must be dense";;
  for_enum (λ lane field, fail_when (negb (lane_id field =? as_u32 lane)%N)
    "async frame lane IDs must be dense") 0 (as_frame sh);;
  fail_when (beyond (as_states sh) (as_entry sh)) "async execution entry references absent state";;
  fail_when (existsb (beyond (as_frame sh)) (as_result_lanes sh))
    "async result binding references absent frame lane";;
  for_enum (check_state sh) 0 (as_states sh);;
  for_enum (λ expected_queue queue, fail_when (negb (queue_id queue =? as_u32 expected_queue)%N)
    "async queue IDs must be dense") 0 (as_queues sh);;
  for_enum (check_operation sh) 0 (as_operations sh);;
  check_cancellation sh;;
  into_typed_execution sh (own_binding sh);;
  mret tt.

Definition validate_structure (p : AsyncProgram) : outcome unit :=
  fail_when (negb (schema_version p =? ASYNC_PROGRAM_SCHEMA_VERSION)%N)
    "unsupported async-program schema version";;
  for_enum check_shape 0 (execution_shapes p).

(** ** Canonical bytes

    An encoder returns the bytes it appends. *)

Local Open Scope list_scope.

Definition push_u32 (value : N) : bytes := to_le 4 value.

Definition push_len (value : nat) : outcome bytes :=
  if (N.of_nat value <=? u32_max)%N then Done (push_u32 (N.of_nat value))
  else Fail "async-program canonical length exceeds u32".

Definition push_tag (tag : N) : bytes := to_le 1 tag.
Definition push_bool (b : bool) : bytes := push_tag (if b then 1 else 0)%N.

Definition push_u32s (values : list N) : outcome bytes :=
  len ← push_len (length values); mret (len ++ concat (map push_u32 values)).

(** [push_len] of a list and its elements in order. *)
Fixpoint push_each {A} (encode : A → outcome bytes) (l : list A) : outcome bytes :=
  match l with
  | [] => mret []
  | x :: l => b ← encode x; rest ← push_each encode l; mret (b ++ rest)
  end.
Definition push_list {A} (encode : A → outcome bytes) (l : list A) : outcome bytes :=
  len ← push_len (length l); elements ← push_each encode l; mret (len ++ elements).

Definition encode_optional_u32 (value : option N) : bytes :=
  match value with Some v => push_tag 1 ++ push_u32 v | None => push_tag 0 end.

Definition lane_ownership_tag (o : LaneOwnership.t) : N :=
  match o with LaneOwnership.Copy => 0 | LaneOwnership.Move => 1 | LaneOwnership.MustConsume => 2 end.

Definition payload_ownership_tag (o : PayloadOwnership) : N :=
  match o with Inline => 0 | BufferRoot => 1 | Boxed => 2 end.

Definition operation_tag (op : ExecutionOperation) : N :=
  match op with
  | ChannelSend => 0 | ChannelReceive => 1 | Select => 2 | Spawn => 3
  | Join => 4 | Host => 5 | Yield => 6 | Cancellation => 7
  end.

Definition encode_condition (condition : ExecutionEdgeCondition) : bytes :=
  match condition with
  | Always => push_tag 0
  | Boolean lane when => push_tag 1 ++ push_u32 lane ++ push_bool when
  | VariantIs lane tag => push_tag 2 ++ push_u32 lane ++ push_u32 tag
  | SelectArm operation arm => push_tag 3 ++ push_u32 operation ++ push_u32 arm
  end.

Definition encode_action (action : LaneAction) : bytes :=
  match action with
  | Copy from to => push_tag 0 ++ push_u32 from ++ push_u32 to
  | Move from to => push_tag 1 ++ push_u32 from ++ push_u32 to
  | Write to => push_tag 2 ++ push_u32 to
  | Clear lane => push_tag 3 ++ push_u32 lane
  | Discharge lane => push_tag 4 ++ push_u32 lane
  end.

Definition encode_actions (actions : list LaneAction) : outcome bytes :=
  push_list (λ a, mret (encode_action a)) actions.

Definition encode_outcome (o : ExecutionOutcome.t) : bytes :=
  match o with
  | ExecutionOutcome.Continue state => push_tag 0 ++ push_u32 state
  | ExecutionOutcome.Ready state => push_tag 1 ++ push_u32 state
  | ExecutionOutcome.Blocked operation retry => push_tag 2 ++ push_u32 operation ++ push_u32 retry
  | ExecutionOutcome.Complete => push_tag 3
  | ExecutionOutcome.PropagateError => push_tag 4
  | ExecutionOutcome.Trap => push_tag 5
  end.

(** The loop bodies of [canonical_bytes]. *)
Definition encode_lane (lane : FrameLane) : outcome bytes :=
  mret (push_u32 (lane_id lane) ++ push_tag (lane_ownership_tag (lane_ownership lane)) ++
        push_bool (initially_initialized lane)).

Definition encode_edge (e : AsyncStateEdge) : outcome bytes :=
  actions ← encode_actions (edge_actions e);
  mret (encode_condition (edge_condition e) ++ actions ++ encode_outcome (edge_outcome e)).

Definition encode_state (st : FinalStateBinding) : outcome bytes :=
  captures ← push_u32s (fs_capture_to_lane st);
  edges ← push_list encode_edge (fs_edges st);
  mret (push_u32 (fs_state st) ++ push_u32 (fs_callable st) ++ captures ++ edges).

Definition encode_capacity (c : QueueCapacity) : bytes :=
  match c with
  | Rendezvous => push_tag 0
  | Fixed capacity => push_tag 1 ++ push_u32 capacity
  | Dynamic => push_tag 2
  end.

Definition encode_queue (q : QueueShape) : outcome bytes :=
  mret (push_u32 (queue_id q) ++ encode_capacity (queue_capacity q) ++
        payload_layout_fingerprint q ++ push_tag (payload_ownership_tag (queue_ownership q))).

Definition encode_arm (a : AsyncOperationArm) : outcome bytes :=
  inputs ← push_u32s (ar_input_lanes a);
  results ← push_u32s (ar_result_lanes a);
  mret (push_u32 (ar_ordinal a) ++ push_tag (operation_tag (ar_operation a)) ++
        push_u32 (ar_endpoint_lane a) ++ inputs ++ results ++
        encode_optional_u32 (ar_queue a) ++ push_tag (payload_ownership_tag (ar_ownership a))).

Definition encode_operation (op : AsyncOperationBinding) : outcome bytes :=
  inputs ← push_u32s (op_input_lanes op);
  results ← push_u32s (op_result_lanes op);
  pending ← push_u32s (op_pending_move_lanes op);
  arms ← push_list encode_arm (op_arms op);
  mret (push_u32 (op_id op) ++ push_tag (operation_tag (op_kind op)) ++ inputs ++ results ++
        pending ++ encode_optional_u32 (op_fallback_state op) ++
        encode_optional_u32 (op_queue op) ++ arms).

Definition encode_cancellation (c : option AsyncCancellationTransition) : bytes :=
  match c with
  | Some c => push_tag 1 ++ push_u32 (ac_operation c) ++ push_u32 (ac_state c)
  | None => push_tag 0
  end.

Definition boundary_tag (b : DynamicAsyncBoundary) : N :=
  match b with
  | DynamicAsyncCall => 0 | DynamicSelectEndpoint => 1
  | OpaqueHostOperation => 2 | UnsupportedTypedOperation => 3
  end.

Definition mode_tag (m : SourceExecutionMode) : N := match m with Normal => 0 | Opt => 1 end.

Definition encode_shape (sh : AsyncExecutionShape) : outcome bytes :=
  frame ← push_list encode_lane (as_frame sh);
  results ← push_u32s (as_result_lanes sh);
  states ← push_list encode_state (as_states sh);
  queues ← push_list encode_queue (as_queues sh);
  operations ← push_list encode_operation (as_operations sh);
  boundaries ← push_list (λ b, mret (push_tag (boundary_tag b))) (as_dynamic_boundaries sh);
  mret (push_u32 (as_id sh) ++ push_tag (mode_tag (as_mode sh)) ++
        as_closure_layout_fingerprint sh ++ frame ++ push_u32 (as_entry sh) ++ results ++
        states ++ queues ++ operations ++ encode_cancellation (as_cancellation sh) ++ boundaries).

Definition canonical_bytes (p : AsyncProgram) : outcome bytes :=
  validate_structure p;;
  shapes ← push_list encode_shape (execution_shapes p);
  mret (push_u32 (schema_version p) ++ shapes).

(** ** Construction *)

(** The checks of the sorted bindings. *)
Definition check_final_binding (frame : list FrameLane) (i : nat) (b : FinalTypedAsyncStateBinding)
    : outcome unit :=
  fail_when (negb (ft_state b =? as_u32 i)%N) "final async state binding IDs must be dense";;
  fail_when (existsb (beyond frame) (ft_capture_to_lane b))
    "final async capture binding references absent frame lane".

Definition final_state (st : ExecutionState) (b : FinalTypedAsyncStateBinding) : FinalStateBinding :=
  {| fs_state := state_id st; fs_callable := ft_callable b;
     fs_capture_to_lane := ft_capture_to_lane b;
     fs_edges := map (λ t, {| edge_condition := tr_condition t; edge_actions := tr_actions t;
                              edge_outcome := tr_outcome t |}) (transitions st) |}.

Definition async_arm (a : OperationArm) : AsyncOperationArm :=
  {| ar_ordinal := arm_ordinal a; ar_operation := arm_operation a;
     ar_endpoint_lane := arm_endpoint_lane a; ar_input_lanes := arm_input_lanes a;
     ar_result_lanes := arm_result_lanes a; ar_queue := arm_queue a;
     ar_ownership := arm_ownership a |}.

Definition async_operation (op : OperationSite) : AsyncOperationBinding :=
  {| op_id := site_id op; op_kind := site_kind op;
     op_input_lanes := site_input_lanes op; op_result_lanes := site_result_lanes op;
     op_pending_move_lanes := site_pending_move_lanes op;
     op_fallback_state := site_fallback_state op; op_queue := site_queue op;
     op_arms := map async_arm (site_arms op) |}.

Definition into_async_shape (f : FinalTypedAsyncExecution) : outcome AsyncExecutionShape :=
  let execution := fe_execution f in
  Execution.validate execution;;
  fail_when (negb (length (fe_state_bindings f) =? length (shape_states execution))%nat)
    "final async state binding count drifted from typed execution";;
  let bindings := sort_by_key ft_state (fe_state_bindings f) in
  for_enum (check_final_binding (shape_frame execution)) 0 bindings;;
  mret {| as_id := shape_id execution; as_mode := shape_mode execution;
          as_closure_layout_fingerprint := fe_closure_layout_fingerprint f;
          as_frame := shape_frame execution; as_entry := shape_entry execution;
          as_result_lanes := shape_result_lanes execution;
          as_states := zip_with final_state (shape_states execution) bindings;
          as_operations := map async_operation (shape_operations execution);
          as_queues := shape_queues execution;
          as_cancellation :=
            (λ c, {| ac_operation := cancel_operation c; ac_state := cancel_state c |})
              <$> shape_cancellation execution;
          as_dynamic_boundaries := fe_dynamic_boundaries f |}.

(** [executions.into_iter().map(into_async_shape).collect::<Result<_, _>>()] *)
Fixpoint collect_shapes (l : list FinalTypedAsyncExecution) : outcome (list AsyncExecutionShape) :=
  match l with
  | [] => mret []
  | f :: l => sh ← into_async_shape f; rest ← collect_shapes l; mret (sh :: rest)
  end.

Section Fingerprint.
Context (blake3 : bytes → bytes).

Definition computed_fingerprint (p : AsyncProgram) : outcome bytes :=
  b ← canonical_bytes p; mret (blake3 b).

Definition new_program (shapes : list AsyncExecutionShape) : outcome AsyncProgram :=
  let program := {| schema_version := ASYNC_PROGRAM_SCHEMA_VERSION;
                    semantic_fingerprint := replicate 32 x00; execution_shapes := shapes |} in
  validate_structure program;;
  fingerprint ← computed_fingerprint program;
  mret {| schema_version := ASYNC_PROGRAM_SCHEMA_VERSION; semantic_fingerprint := fingerprint;
          execution_shapes := shapes |}.

Definition from_final_typed_executions (executions : list FinalTypedAsyncExecution)
    : outcome AsyncProgram :=
  shapes ← collect_shapes executions; new_program shapes.

Definition validate_program (p : AsyncProgram) : outcome unit :=
  validate_structure p;;
  fingerprint ← computed_fingerprint p;
  fail_when (negb (bool_decide (semantic_fingerprint p = fingerprint)))
    "async-program semantic fingerprint does not match canonical bytes".
End Fingerprint.

(** * The canonical bytes determine the program *)

(** The widths of the machine integers and arrays of the program. *)
Definition fits_u32 (v : N) : Prop := (v ≤ u32_max)%N.
Definition fits_option (o : option N) : Prop := match o with Some v => fits_u32 v | None => True end.
Definition fits_condition (c : ExecutionEdgeCondition) : Prop :=
  match c with
  | Always => True
  | Boolean lane _ => fits_u32 lane
  | VariantIs lane tag => fits_u32 lane ∧ fits_u32 tag
  | SelectArm operation arm => fits_u32 operation ∧ fits_u32 arm
  end.
Definition fits_action (a : LaneAction) : Prop :=
  match a with
  | Copy from to | Move from to => fits_u32 from ∧ fits_u32 to
  | Write lane | Clear lane | Discharge lane => fits_u32 lane
  end.
Definition fits_outcome (o : ExecutionOutcome.t) : Prop :=
  match o with
  | ExecutionOutcome.Continue s | ExecutionOutcome.Ready s => fits_u32 s
  | ExecutionOutcome.Blocked op s => fits_u32 op ∧ fits_u32 s
  | _ => True
  end.
Definition fits_lane (l : FrameLane) : Prop := fits_u32 (lane_id l).
Definition fits_edge (e : AsyncStateEdge) : Prop :=
  fits_condition (edge_condition e) ∧ Forall fits_action (edge_actions e) ∧ fits_outcome (edge_outcome e).
Definition fits_state (st : FinalStateBinding) : Prop :=
  fits_u32 (fs_state st) ∧ fits_u32 (fs_callable st) ∧ Forall fits_u32 (fs_capture_to_lane st) ∧
  Forall fits_edge (fs_edges st).
Definition fits_queue (q : QueueShape) : Prop :=
  fits_u32 (queue_id q) ∧ match queue_capacity q with Fixed c => fits_u32 c | _ => True end ∧
  length (payload_layout_fingerprint q) = 32%nat.
Definition fits_arm (a : AsyncOperationArm) : Prop :=
  fits_u32 (ar_ordinal a) ∧ fits_u32 (ar_endpoint_lane a) ∧ Forall fits_u32 (ar_input_lanes a) ∧
  Forall fits_u32 (ar_result_lanes a) ∧ fits_option (ar_queue a).
Definition fits_operation (op : AsyncOperationBinding) : Prop :=
  fits_u32 (op_id op) ∧ Forall fits_u32 (op_input_lanes op) ∧ Forall fits_u32 (op_result_lanes op) ∧
  Forall fits_u32 (op_pending_move_lanes op) ∧ fits_option (op_fallback_state op) ∧
  fits_option (op_queue op) ∧ Forall fits_arm (op_arms op).
Definition fits_shape (sh : AsyncExecutionShape) : Prop :=
  fits_u32 (as_id sh) ∧ length (as_closure_layout_fingerprint sh) = 32%nat ∧
  Forall fits_lane (as_frame sh) ∧ fits_u32 (as_entry sh) ∧ Forall fits_u32 (as_result_lanes sh) ∧
  Forall fits_state (as_states sh) ∧ Forall fits_queue (as_queues sh) ∧
  Forall fits_operation (as_operations sh) ∧
  match as_cancellation sh with Some c => fits_u32 (ac_operation c) ∧ fits_u32 (ac_state c) | None => True end.
Definition fits_program (p : AsyncProgram) : Prop :=
  fits_u32 (schema_version p) ∧ Forall fits_shape (execution_shapes p).

(** What the bytes show of a lane and of a shape: everything but the types
    of the lanes, which the closure layout fingerprint stands for. *)
Definition erase_lane (l : FrameLane) : N * LaneOwnership.t * bool :=
  (lane_id l, lane_ownership l, initially_initialized l).
Definition erase_shape (sh : AsyncExecutionShape) :=
  (as_id sh, as_mode sh, as_closure_layout_fingerprint sh, map erase_lane (as_frame sh), as_entry sh,
   as_result_lanes sh, as_states sh, as_queues sh, as_operations sh, as_cancellation sh,
   as_dynamic_boundaries sh).

Lemma ret_inj {A} (a b : A) : (mret a : outcome A) = Done b → a = b.
Proof. by intros [=]. Qed.

(** An encoder from whose output, followed by anything, the encoded value is
    read back up to [view]. *)
Definition code {A B} (fits : A → Prop) (view : A → B) (enc : A → outcome bytes) : Prop :=
  ∀ x y bx by_ r s, fits x → fits y → enc x = Done bx → enc y = Done by_ →
    bx ++ r = by_ ++ s → view x = view y ∧ r = s.

Lemma app_split {A} (b c r s : list A) : length b = length c → b ++ r = c ++ s → b = c ∧ r = s.
Proof. intros Hl H. by apply app_inj_1. Qed.

Lemma to_le_split n v w r s :
  (v < 256 ^ N.of_nat n)%N → (w < 256 ^ N.of_nat n)%N → to_le n v ++ r = to_le n w ++ s → v = w ∧ r = s.
Proof.
  intros Hv Hw H. apply app_split in H as [H ->]; [|by rewrite !length_to_le]. split; [|done].
  by rewrite <- (from_to_le n v Hv), H, from_to_le.
Qed.

Lemma u32_split v w r s :
  fits_u32 v → fits_u32 w → push_u32 v ++ r = push_u32 w ++ s → v = w ∧ r = s.
Proof. intros Hv Hw. apply to_le_split; unfold fits_u32, u32_max in *; cbn; lia. Qed.

Lemma tag_split v w r s :
  (v < 256)%N → (w < 256)%N → push_tag v ++ r = push_tag w ++ s → v = w ∧ r = s.
Proof. intros Hv Hw. by apply to_le_split. Qed.

Lemma bool_split a b r s : push_bool a ++ r = push_bool b ++ s → a = b ∧ r = s.
Proof. intros [H ->]%tag_split; [|by destruct a|by destruct b]. by destruct a, b. Qed.

Lemma push_len_split n m bn bm r s :
  push_len n = Done bn → push_len m = Done bm → bn ++ r = bm ++ s → n = m ∧ r = s.
Proof.
  unfold push_len. destruct (N.leb_spec (N.of_nat n) u32_max); [|done].
  destruct (N.leb_spec (N.of_nat m) u32_max); [|done]. intros [= <-] [= <-] [H' ->]%u32_split; [|done..].
  split; [lia|done].
Qed.

Lemma push_each_code {A B} fits (view : A → B) enc l m bl bm r s :
  code fits view enc → length l = length m → Forall fits l → Forall fits m →
  push_each enc l = Done bl → push_each enc m = Done bm → bl ++ r = bm ++ s →
  map view l = map view m ∧ r = s.
Proof.
  intros Hc. revert m bl bm r s. induction l as [|x l IH]; intros [|y m] bl bm r s Hlen Hl Hm; try done.
  { intros [= <-] [= <-] H. by split. }
  apply Forall_cons_1 in Hl as [Hx Hl]. apply Forall_cons_1 in Hm as [Hy Hm]. cbn [push_each].
  intros (bx & Ex & (bl' & El & [= <-])%outcome_bind_Done)%outcome_bind_Done
         (by_ & Ey & (bm' & Em & [= <-])%outcome_bind_Done)%outcome_bind_Done.
  rewrite <- !app_assoc. intros H. destruct (Hc _ _ _ _ _ _ Hx Hy Ex Ey H) as [Hv Hr].
  destruct (IH m bl' bm' r s) as [Hvs ->]; [by injection Hlen|done..|]. cbn. by rewrite Hv, Hvs.
Qed.

Lemma push_list_code {A B} fits (view : A → B) enc :
  code fits view enc → code (Forall fits) (map view) (push_list enc).
Proof.
  intros Hc l m bl bm r s Hl Hm. unfold push_list.
  intros (ll & El & (el & Fl & [= <-])%outcome_bind_Done)%outcome_bind_Done
         (lm & Em & (em & Fm & [= <-])%outcome_bind_Done)%outcome_bind_Done.
  rewrite <- !app_assoc. intros [Hlen H]%(push_len_split _ _ _ _ _ _ El Em).
  by eapply push_each_code.
Qed.

Lemma push_u32s_code : code (Forall fits_u32) id push_u32s.
Proof.
  assert (Heq : ∀ l, push_each (λ v, mret (push_u32 v)) l = Done (concat (map push_u32 l))).
  { induction l as [|x l IH]; [done|]. cbn [push_each]. rewrite IH. done. }
  assert (Hl : ∀ l, push_u32s l = push_list (λ v, mret (push_u32 v)) l).
  { intros l. unfold push_u32s, push_list. rewrite Heq. done. }
  intros l m bl bm r s Hfl Hfm. rewrite !Hl. intros El Em H.
  destruct (push_list_code fits_u32 id (λ v, mret (push_u32 v))) with l m bl bm r s as [Hv ->]; try done.
  - intros x y bx by_ r' s' Hx Hy [= <-] [= <-]. by apply u32_split.
  - by rewrite !map_id in Hv.
Qed.

Lemma push_list_code_id {A} (fits : A → Prop) enc :
  code fits id enc → code (Forall fits) id (push_list enc).
Proof.
  intros Hc l m bl bm r s Hl Hm El Em H.
  destruct (push_list_code _ _ _ Hc _ _ _ _ _ _ Hl Hm El Em H) as [Hv ->]. by rewrite !map_id in Hv.
Qed.

Lemma enum_split {A} (tag : A → N) a b r s :
  (∀ x, tag x < 256)%N → (∀ x y, tag x = tag y → x = y) →
  push_tag (tag a) ++ r = push_tag (tag b) ++ s → a = b ∧ r = s.
Proof. intros Hb Hi [H ->]%tag_split; [|done..]. split; [by apply Hi|done]. Qed.

Lemma operation_split a b r s :
  push_tag (operation_tag a) ++ r = push_tag (operation_tag b) ++ s → a = b ∧ r = s.
Proof. apply enum_split; [by intros []|by intros [] []]. Qed.
Lemma payload_split a b r s :
  push_tag (payload_ownership_tag a) ++ r = push_tag (payload_ownership_tag b) ++ s → a = b ∧ r = s.
Proof. apply enum_split; [by intros []|by intros [] []]. Qed.
Lemma ownership_split a b r s :
  push_tag (lane_ownership_tag a) ++ r = push_tag (lane_ownership_tag b) ++ s → a = b ∧ r = s.
Proof. apply enum_split; [by intros []|by intros [] []]. Qed.
Lemma boundary_split a b r s :
  push_tag (boundary_tag a) ++ r = push_tag (boundary_tag b) ++ s → a = b ∧ r = s.
Proof. apply enum_split; [by intros []|by intros [] []]. Qed.
Lemma mode_split a b r s :
  push_tag (mode_tag a) ++ r = push_tag (mode_tag b) ++ s → a = b ∧ r = s.
Proof. apply enum_split; [by intros []|by intros [] []]. Qed.

(** Reads the next field of two equal encodings [H]. *)
Ltac peel H :=
  repeat rewrite <- !app_assoc in H;
  lazymatch type of H with
  | push_u32 _ ++ _ = push_u32 _ ++ _ => apply u32_split in H as [? H]; [|assumption..]
  | push_tag (operation_tag _) ++ _ = _ => apply operation_split in H as [? H]
  | push_tag (payload_ownership_tag _) ++ _ = _ => apply payload_split in H as [? H]
  | push_tag (lane_ownership_tag _) ++ _ = _ => apply ownership_split in H as [? H]
  | push_tag (boundary_tag _) ++ _ = _ => apply boundary_split in H as [? H]
  | push_tag (mode_tag _) ++ _ = _ => apply mode_split in H as [? H]
  | push_tag _ ++ _ = push_tag _ ++ _ => apply tag_split in H as [? H]; [|done..]; try discriminate
  | push_bool _ ++ _ = push_bool _ ++ _ => apply bool_split in H as [? H]
  end.

(** Closes a goal about two values of one variant type whose fields were
    all read. *)
Ltac variants H := destruct_and?; repeat peel H; try discriminate; split; congruence.

Lemma optional_split o p r s :
  fits_option o → fits_option p →
  encode_optional_u32 o ++ r = encode_optional_u32 p ++ s → o = p ∧ r = s.
Proof. intros Ho Hp H. destruct o, p; cbn [encode_optional_u32 fits_option] in *; variants H. Qed.

Lemma condition_split c d r s :
  fits_condition c → fits_condition d →
  encode_condition c ++ r = encode_condition d ++ s → c = d ∧ r = s.
Proof. intros Hc Hd H. destruct c, d; cbn [encode_condition fits_condition] in *; variants H. Qed.

Lemma action_code : code fits_action id (λ a, mret (encode_action a)).
Proof.
  intros a b ? ? r s Ha Hb <-%ret_inj <-%ret_inj H.
  destruct a, b; cbn [encode_action fits_action] in *; variants H.
Qed.

Lemma outcome_split o p r s :
  fits_outcome o → fits_outcome p → encode_outcome o ++ r = encode_outcome p ++ s → o = p ∧ r = s.
Proof. intros Ho Hp H. destruct o, p; cbn [encode_outcome fits_outcome] in *; variants H. Qed.

Lemma capacity_split c d r s :
  match c with Fixed n => fits_u32 n | _ => True end →
  match d with Fixed n => fits_u32 n | _ => True end →
  encode_capacity c ++ r = encode_capacity d ++ s → c = d ∧ r = s.
Proof. intros Hc Hd H. destruct c, d; cbn [encode_capacity] in *; variants H. Qed.

Lemma cancellation_split c d r s :
  match c with Some c => fits_u32 (ac_operation c) ∧ fits_u32 (ac_state c) | None => True end →
  match d with Some c => fits_u32 (ac_operation c) ∧ fits_u32 (ac_state c) | None => True end →
  encode_cancellation c ++ r = encode_cancellation d ++ s → c = d ∧ r = s.
Proof.
  intros Hc Hd H. destruct c as [[]|], d as [[]|];
    cbn [encode_cancellation ac_operation ac_state] in *; variants H.
Qed.

Lemma lane_code : code fits_lane erase_lane encode_lane.
Proof.
  intros a b ? ? r s Ha Hb <-%ret_inj <-%ret_inj H. unfold fits_lane in *.
  do 3 peel H. unfold erase_lane. split; congruence.
Qed.

Lemma edge_code : code fits_edge id encode_edge.
Proof.
  intros [ca aa oa] [cb ab ob] ? ? r s (Hca & Haa & Hoa) (Hcb & Hab & Hob).
  cbn [edge_condition edge_actions edge_outcome] in *.
  intros (xa & Ea & <-%ret_inj)%outcome_bind_Done (xb & Eb & <-%ret_inj)%outcome_bind_Done H.
  cbn [edge_condition edge_actions edge_outcome] in *. rewrite <- ?app_assoc in H.
  apply condition_split in H as [-> H]; [|done..].
  apply (push_list_code_id _ _ action_code _ _ _ _ _ _ Haa Hab Ea Eb) in H as [Hv H].
  apply outcome_split in H as [-> ->]; [|done..]. cbn [id] in *. split; congruence.
Qed.

Lemma state_code : code fits_state id encode_state.
Proof.
  intros [sa ca la ea] [sb cb lb eb] ? ? r s (H1 & H2 & H3 & H4) (K1 & K2 & K3 & K4).
  cbn [fs_state fs_callable fs_capture_to_lane fs_edges] in *.
  intros (xa & Ea & (ya & Fa & <-%ret_inj)%outcome_bind_Done)%outcome_bind_Done
         (xb & Eb & (yb & Fb & <-%ret_inj)%outcome_bind_Done)%outcome_bind_Done H.
  cbn [fs_state fs_callable fs_capture_to_lane fs_edges] in *. do 2 peel H.
  apply (push_u32s_code _ _ _ _ _ _ H3 K3 Ea Eb) in H as [Hl H].
  apply (push_list_code_id _ _ edge_code _ _ _ _ _ _ H4 K4 Fa Fb) in H as [He H].
  cbn [id] in *. split; congruence.
Qed.

Lemma queue_code : code fits_queue id encode_queue.
Proof.
  intros [ia ca pa oa] [ib cb pb ob] ? ? r s (H1 & H2 & H3) (K1 & K2 & K3) <-%ret_inj <-%ret_inj H.
  cbn [queue_id queue_capacity payload_layout_fingerprint queue_ownership] in *. peel H.
  rewrite <- ?app_assoc in H. apply capacity_split in H as [? H]; [|done..].
  apply app_split in H as [? H]; [|congruence]. peel H. cbn [id]. split; congruence.
Qed.

Lemma arm_code : code fits_arm id encode_arm.
Proof.
  intros [] [] ? ? r s (H1 & H2 & H3 & H4 & H5) (K1 & K2 & K3 & K4 & K5).
  cbn [ar_ordinal ar_operation ar_endpoint_lane ar_input_lanes ar_result_lanes ar_queue ar_ownership] in *.
  intros (xa & Ea & (ya & Fa & <-%ret_inj)%outcome_bind_Done)%outcome_bind_Done
         (xb & Eb & (yb & Fb & <-%ret_inj)%outcome_bind_Done)%outcome_bind_Done H.
  cbn [ar_ordinal ar_operation ar_endpoint_lane ar_input_lanes ar_result_lanes ar_queue ar_ownership] in *.
  do 3 peel H. apply (push_u32s_code _ _ _ _ _ _ H3 K3 Ea Eb) in H as [? H].
  apply (push_u32s_code _ _ _ _ _ _ H4 K4 Fa Fb) in H as [? H].
  apply optional_split in H as [? H]; [|done..]. peel H. cbn [id] in *. split; congruence.
Qed.

Lemma operation_code : code fits_operation id encode_operation.
Proof.
  intros [] [] ? ? r s (H1 & H2 & H3 & H4 & H5 & H6 & H7) (K1 & K2 & K3 & K4 & K5 & K6 & K7).
  cbn [op_id op_kind op_input_lanes op_result_lanes op_pending_move_lanes op_fallback_state op_queue op_arms] in *.
  unfold encode_operation.
  cbn [op_id op_kind op_input_lanes op_result_lanes op_pending_move_lanes op_fallback_state op_queue op_arms].
  intros (xa & Ea & (ya & Fa & (za & Ga & (wa & Ha & <-%ret_inj)%outcome_bind_Done)%outcome_bind_Done)
            %outcome_bind_Done)%outcome_bind_Done
         (xb & Eb & (yb & Fb & (zb & Gb & (wb & Hb & <-%ret_inj)%outcome_bind_Done)%outcome_bind_Done)
            %outcome_bind_Done)%outcome_bind_Done H.
  do 2 peel H. apply (push_u32s_code _ _ _ _ _ _ H2 K2 Ea Eb) in H as [? H].
  apply (push_u32s_code _ _ _ _ _ _ H3 K3 Fa Fb) in H as [? H].
  apply (push_u32s_code _ _ _ _ _ _ H4 K4 Ga Gb) in H as [? H].
  apply optional_split in H as [? H]; [|done..]. apply optional_split in H as [? H]; [|done..].
  apply (push_list_code_id _ _ arm_code _ _ _ _ _ _ H7 K7 Ha Hb) in H as [? H].
  cbn [id] in *. split; congruence.
Qed.

Lemma boundary_code : code (λ _, True) id (λ b, mret (push_tag (boundary_tag b))).
Proof. intros a b ? ? r s _ _ <-%ret_inj <-%ret_inj H. by peel H. Qed.

Lemma shape_code : code fits_shape erase_shape encode_shape.
Proof.
  intros x y ex ey r s (H1 & H2 & H3 & H4 & H5 & H6 & H7 & H8 & H9) (K1 & K2 & K3 & K4 & K5 & K6 & K7 & K8 & K9).
  unfold encode_shape.
  intros (fx & Ex1 & (rx & Ex2 & (sx & Ex3 & (qx & Ex4 & (ox & Ex5 & (bx & Ex6 & <-%ret_inj)%outcome_bind_Done)
    %outcome_bind_Done)%outcome_bind_Done)%outcome_bind_Done)%outcome_bind_Done)%outcome_bind_Done
   (fy & Ey1 & (ry & Ey2 & (sy & Ey3 & (qy & Ey4 & (oy & Ey5 & (by_ & Ey6 & <-%ret_inj)%outcome_bind_Done)
    %outcome_bind_Done)%outcome_bind_Done)%outcome_bind_Done)%outcome_bind_Done)%outcome_bind_Done H.
  do 2 peel H. rewrite <- ?app_assoc in H. apply app_split in H as [? H]; [|congruence].
  apply (push_list_code _ _ _ lane_code _ _ _ _ _ _ H3 K3 Ex1 Ey1) in H as [? H].
  peel H. rewrite <- ?app_assoc in H.
  apply (push_u32s_code _ _ _ _ _ _ H5 K5 Ex2 Ey2) in H as [? H].
  apply (push_list_code_id _ _ state_code _ _ _ _ _ _ H6 K6 Ex3 Ey3) in H as [? H].
  apply (push_list_code_id _ _ queue_code _ _ _ _ _ _ H7 K7 Ex4 Ey4) in H as [? H].
  apply (push_list_code_id _ _ operation_code _ _ _ _ _ _ H8 K8 Ex5 Ey5) in H as [? H].
  apply cancellation_split in H as [? H]; [|done..].
  apply (push_list_code_id _ _ boundary_code _ _ _ _ _ _
    (Forall_true _ _ (λ _, I)) (Forall_true _ _ (λ _, I)) Ex6 Ey6) in H as [? H].
  unfold erase_shape. cbn [id] in *. split; congruence.
Qed.

Lemma canonical_bytes_inj p q b :
  fits_program p → fits_program q → canonical_bytes p = Done b → canonical_bytes q = Done b →
  schema_version p = schema_version q ∧
  map erase_shape (execution_shapes p) = map erase_shape (execution_shapes q).
Proof.
  intros [Hp1 Hp2] [Hq1 Hq2]. unfold canonical_bytes.
  intros (? & _ & (x & Ex & <-%ret_inj)%outcome_bind_Done)%outcome_bind_Done
         (? & _ & (y & Ey & H%ret_inj)%outcome_bind_Done)%outcome_bind_Done.
  apply (f_equal (λ l, l ++ [])) in H. peel H.
  apply (push_list_code _ _ _ shape_code _ _ _ _ _ _ Hq2 Hp2 Ey Ex) in H as [H' _]. done.
Qed.

(** * Bindings and lowering *)

Definition own_state (st : FinalStateBinding) : AsyncBackendStateBinding :=
  {| bs_state := fs_state st; bs_callable := fs_callable st;
     bs_capture_to_lane := fs_capture_to_lane st |}.

Definition states_dense (n : nat) (states : list FinalStateBinding) : Prop :=
  ∀ i st, states !! i = Some st → fs_state st = as_u32 (n + i).

Lemma validate_state_bindings_exact n states bound :
  length bound = length states →
  validate_state_bindings n (zip states bound) = Done tt ↔
  bound = map own_state states ∧ states_dense n states.
Proof.
  revert n bound. induction states as [|st states IH]; intros n [|b bound] Hlen; try done.
  cbn [zip zip_with validate_state_bindings map]. rewrite fail_when_Done, IH by (by injection Hlen).
  rewrite !orb_false_iff, !negb_false_iff, !N.eqb_eq, bool_decide_eq_true. split.
  - intros ([[[H1 H2] H3] H4] & -> & Hd). split.
    + f_equal. destruct b. cbn in *. unfold own_state. congruence.
    + intros [|i] st' Hi; cbn in Hi; [injection Hi as <-; rewrite Nat.add_0_r; congruence|].
      rewrite (Hd i st' Hi). f_equal. lia.
  - intros [[= -> ->] Hd]. cbn. pose proof (Hd 0%nat st eq_refl) as H0. rewrite Nat.add_0_r in H0.
    split_and!; try done. intros i st' Hi. rewrite (Hd (S i) st' Hi). f_equal. lia.
Qed.

(** A backend's binding is accepted exactly when it is the shape's own. *)
Lemma backend_binding_exact sh b :
  states_dense 0 (as_states sh) → validate_backend_binding sh b = Done tt ↔ b = own_binding sh.
Proof.
  intros Hd. unfold validate_backend_binding. rewrite !fail_when_Done, !negb_false_iff.
  rewrite N.eqb_eq, !bool_decide_eq_true, Nat.eqb_eq. split.
  - intros (H1 & H2 & H3 & H4 & H5%validate_state_bindings_exact); [|done].
    destruct b, H5 as [H5 _]. cbn in *. unfold own_binding, own_state in *. congruence.
  - intros ->. cbn [own_binding bb_shape bb_mode bb_closure_layout_fingerprint bb_states].
    split_and!; try done; [by rewrite length_map|].
    apply validate_state_bindings_exact; [by rewrite length_map|done].
Qed.

Lemma into_typed_execution_exact sh b e :
  states_dense 0 (as_states sh) →
  into_typed_execution sh b = Done e ↔
  b = own_binding sh ∧ Execution.validate (typed_shape sh) = Done tt ∧ e = typed_shape sh.
Proof.
  intros Hd. unfold into_typed_execution. split.
  - intros ([] & Hb & ([] & Hv & <-%ret_inj)%outcome_bind_Done)%outcome_bind_Done.
    by apply backend_binding_exact in Hb.
  - intros (-> & Hv & ->). apply outcome_bind_Done. exists tt. split; [by apply backend_binding_exact|].
    by rewrite Hv.
Qed.

Lemma for_enum_Done {A} (body : nat → A → outcome unit) n l :
  for_enum body n l = Done tt ↔ ∀ i x, l !! i = Some x → body (n + i)%nat x = Done tt.
Proof.
  revert n. induction l as [|x l IH]; intros n; cbn [for_enum].
  { split; [by intros _ i y|done]. }
  rewrite outcome_bind_Done. setoid_rewrite IH. split.
  - intros ([] & Hx & Hl) [|i] y Hi; cbn in Hi.
    + injection Hi as <-. by rewrite Nat.add_0_r.
    + rewrite <- (Hl i y Hi). f_equal. lia.
  - intros H. exists tt. split; [rewrite <- (Nat.add_0_r n); by apply (H 0%nat)|].
    intros i y Hi. rewrite <- (H (S i) y Hi). f_equal. lia.
Qed.

Lemma dense_from_Done label n ids :
  dense_from label n ids = Done tt → ∀ i v, ids !! i = Some v → v = as_u32 (n + i).
Proof.
  revert n. induction ids as [|x ids IH]; intros n; cbn [dense_from]; [by intros _ i v|].
  rewrite fail_when_Done, negb_false_iff, N.eqb_eq. intros [-> H] [|i] v Hi; cbn in Hi.
  - injection Hi as <-. by rewrite Nat.add_0_r.
  - rewrite (IH (S n) H i v Hi). f_equal. lia.
Qed.

Lemma validated_states_dense sh i st :
  Execution.validate sh = Done tt → shape_states sh !! i = Some st → state_id st = as_u32 i.
Proof.
  unfold validate, validate_declarations, dense. intros H Hi. outcome_inv.
  match goal with H : dense_from "execution state" _ _ = _ |- _ => apply (dense_from_Done _ 0) with (i := i) (v := state_id st) in H end; [done|].
  by rewrite list_lookup_fmap, Hi.
Qed.

Lemma typed_state_final st b : typed_state (final_state st b) = st.
Proof.
  destruct st as [i ts]. unfold typed_state, final_state. cbn. f_equal.
  rewrite map_map. rewrite <- (map_id ts) at 2. apply map_ext. by intros [].
Qed.

Lemma typed_operation_async op : typed_operation (async_operation op) = op.
Proof.
  destruct op as [? ? ? ? ? ? ? arms]. unfold typed_operation, async_operation. cbn. f_equal.
  rewrite map_map. rewrite <- (map_id arms) at 2. apply map_ext. by intros [].
Qed.

(** Lowering a typed execution and binding the result gives it back. *)
Lemma into_async_shape_Done f sh :
  into_async_shape f = Done sh →
  typed_shape sh = fe_execution f ∧ Execution.validate (fe_execution f) = Done tt ∧
  states_dense 0 (as_states sh).
Proof.
  unfold into_async_shape. intros H.
  apply outcome_bind_Done in H as ([] & Hv & H). apply fail_when_Done in H as [Hlen H].
  apply outcome_bind_Done in H as ([] & Hb & <-%ret_inj). rewrite negb_false_iff, Nat.eqb_eq in Hlen.
  set (bindings := sort_by_key ft_state (fe_state_bindings f)) in *.
  assert (Hl : length bindings = length (shape_states (fe_execution f))).
  { unfold bindings. by rewrite sort_by_key_perm. }
  assert (Hs : map typed_state (zip_with final_state (shape_states (fe_execution f)) bindings) =
               shape_states (fe_execution f)).
  { revert Hl. generalize bindings (shape_states (fe_execution f)). clear.
    intros bs sts. revert bs. induction sts as [|st sts IH]; intros [|b bs] Hl; try done.
    cbn [zip_with map]. rewrite typed_state_final, IH by (by injection Hl). done. }
  split_and!; [|done|].
  - unfold typed_shape. cbn. rewrite Hs, map_map.
    rewrite (map_ext _ id typed_operation_async), map_id.
    destruct (fe_execution f) as [? ? ? ? ? ? ? ? [[]|]]; done.
  - cbn [as_states]. intros i st Hi. apply lookup_zip_with_Some in Hi as (st' & b & -> & Hst & _).
    cbn. by eapply validated_states_dense.
Qed.

Lemma collect_shapes_Done fs shapes :
  collect_shapes fs = Done shapes → Forall2 (λ f sh, into_async_shape f = Done sh) fs shapes.
Proof.
  revert shapes. induction fs as [|f fs IH]; intros shapes; cbn [collect_shapes].
  { intros <-%ret_inj. constructor. }
  intros (sh & Hf & (rest & Hr & <-%ret_inj)%outcome_bind_Done)%outcome_bind_Done.
  constructor; [done|by apply IH].
Qed.

Lemma new_program_Done blake3 shapes p :
  new_program blake3 shapes = Done p →
  execution_shapes p = shapes ∧ schema_version p = ASYNC_PROGRAM_SCHEMA_VERSION ∧
  validate_structure p = Done tt ∧ validate_program blake3 p = Done tt.
Proof.
  unfold new_program. intros ([] & Hs & (fp & Hf & <-%ret_inj)%outcome_bind_Done)%outcome_bind_Done.
  assert (Hsame : ∀ q, schema_version q = ASYNC_PROGRAM_SCHEMA_VERSION → execution_shapes q = shapes →
    validate_structure q = Done tt ∧ computed_fingerprint blake3 q = Done fp).
  { intros [v g l] Hv Hl. cbn in Hv, Hl. subst. split; [exact Hs|].
    revert Hf. unfold computed_fingerprint, canonical_bytes.
    cbn [schema_version execution_shapes]. done. }
  destruct (Hsame {| schema_version := ASYNC_PROGRAM_SCHEMA_VERSION; semantic_fingerprint := fp;
                     execution_shapes := shapes |} eq_refl eq_refl) as [Hs' Hf'].
  split_and!; [done..|]. unfold validate_program. rewrite Hs'. cbn [mbind outcome_bind].
  rewrite Hf'. cbn [mbind outcome_bind semantic_fingerprint].
  apply fail_when_unit. by rewrite bool_decide_eq_true_2.
Qed.

Lemma validate_structure_shape p i sh :
  validate_structure p = Done tt → execution_shapes p !! i = Some sh → check_shape i sh = Done tt.
Proof.
  unfold validate_structure. intros [_ H]%fail_when_Done Hi.
  by apply (proj1 (for_enum_Done _ 0 _) H i sh Hi).
Qed.

Lemma check_shape_Done i sh :
  check_shape i sh = Done tt →
  as_id sh = as_u32 i ∧ states_dense 0 (as_states sh) ∧
  into_typed_execution sh (own_binding sh) = Done (typed_shape sh).
Proof.
  unfold check_shape. intros H. outcome_inv.
  match goal with H : for_enum (check_state _) _ _ = _ |- _ => rename H into Hst end.
  match goal with H : into_typed_execution _ _ = _ |- _ => rename H into Ht end.
  assert (Hd : states_dense 0 (as_states sh)).
  { intros j st Hj. apply (proj1 (for_enum_Done _ 0 _) Hst j st) in Hj.
    unfold check_state in Hj. outcome_inv. by apply N.eqb_eq. }
  split_and!; [by apply N.eqb_eq|done|]. pose proof Ht as Ht'.
  apply into_typed_execution_exact in Ht' as (_ & _ & ->); done.
Qed.

(** C37: Lowering typed executions to a program loses nothing and adds nothing:
    the program validates, and its [i]-th shape binds to a backend exactly
    when the backend presents the shape's own final layout, giving the very
    typed execution it was built from. *)
Theorem lowering_preserves_executions (blake3 : bytes → bytes) (fs : list FinalTypedAsyncExecution)
    (p : AsyncProgram) (i : nat) (f : FinalTypedAsyncExecution) :
  from_final_typed_executions blake3 fs = Done p → fs !! i = Some f →
  validate_program blake3 p = Done tt ∧
  ∃ sh, execution_shapes p !! i = Some sh ∧ as_id sh = as_u32 i ∧
    as_closure_layout_fingerprint sh = fe_closure_layout_fingerprint f ∧
    ∀ b e, into_typed_execution sh b = Done e ↔ b = own_binding sh ∧ e = fe_execution f.
Proof.
  unfold from_final_typed_executions. intros (shapes & Hc & Hn)%outcome_bind_Done Hi.
  apply new_program_Done in Hn as (Hshapes & _ & Hs & Hv). split; [done|].
  apply collect_shapes_Done in Hc.
  destruct (Forall2_lookup_l _ _ _ _ _ Hc Hi) as (sh & Hsh & Hf). exists sh. rewrite Hshapes.
  split; [done|]. pose proof Hsh as Hsh'. rewrite <- Hshapes in Hsh'.
  apply (validate_structure_shape _ _ _ Hs), check_shape_Done in Hsh' as (Hid & Hd & Ht).
  pose proof Hf as Hf'. apply into_async_shape_Done in Hf' as (Heq & Hval & _).
  split_and!; [done| |].
  - unfold into_async_shape in Hf. outcome_inv. done.
  - intros b e. rewrite into_typed_execution_exact, Heq, Hval by done. naive_solver.
Qed.

(** C38: Two validated programs with the same fingerprint are the same program,
    but for the types of their lanes, unless the hash function collides. *)
Theorem fingerprint_binds_program (blake3 : bytes → bytes) (p q : AsyncProgram) :
  fits_program p → fits_program q →
  validate_program blake3 p = Done tt → validate_program blake3 q = Done tt →
  semantic_fingerprint p = semantic_fingerprint q →
  map erase_shape (execution_shapes p) = map erase_shape (execution_shapes q) ∨
  ∃ b c, b ≠ c ∧ blake3 b = blake3 c.
Proof.
  intros Hp Hq Vp Vq Hfp. unfold validate_program, computed_fingerprint in Vp, Vq. outcome_inv.
  match goal with H1 : canonical_bytes p = Done ?b, H2 : canonical_bytes q = Done ?c |- _ =>
    destruct (decide (b = c)) as [<-|Hne]; [left; by eapply canonical_bytes_inj|right; exists b, c] end.
  split; [done|]. congruence.
Qed.

Lemma for_enum_no_panic {A} (body : nat → A → outcome unit) n l :
  (∀ i x, x ∈ l → body i x ≠ Panic) → for_enum body n l ≠ Panic.
Proof.
  revert n. induction l as [|x l IH]; intros n H; [done|]. cbn [for_enum].
  apply outcome_bind_no_panic; [apply H; left|]. intros _ _. apply IH. intros i y Hy. apply H. by right.
Qed.

Lemma validate_backend_binding_no_panic sh b : validate_backend_binding sh b ≠ Panic.
Proof.
  unfold validate_backend_binding. no_panic. generalize 0%nat (zip (as_states sh) (bb_states b)).
  intros n l. revert n. induction l as [|[s c] l IH]; intros n; cbn [validate_state_bindings]; no_panic.
  apply IH.
Qed.

Lemma into_typed_execution_no_panic sh b : into_typed_execution sh b ≠ Panic.
Proof.
  unfold into_typed_execution. no_panic; [apply validate_backend_binding_no_panic|].
  apply validate_no_panic.
Qed.

Lemma check_cancellation_no_panic sh : check_cancellation sh ≠ Panic.
Proof.
  unfold check_cancellation. destruct (as_cancellation sh) as [c|]; [|done]. no_panic.
  apply index_no_panic. outcome_inv. unfold beyond in *. outcome_inv. lia.
Qed.

Lemma check_shape_no_panic i sh : check_shape i sh ≠ Panic.
Proof.
  unfold check_shape, check_state, check_operation, check_arm. no_panic;
    try (apply for_enum_no_panic; intros ? ? _; no_panic);
    try (apply for_enum_no_panic; intros ? ? _; no_panic).
  - unfold validate_edge_condition. by repeat case_match.
  - apply check_cancellation_no_panic.
  - apply into_typed_execution_no_panic.
Qed.

Lemma push_list_no_panic {A} (enc : A → outcome bytes) l :
  (∀ x, enc x ≠ Panic) → push_list enc l ≠ Panic.
Proof.
  intros H. assert (Heach : push_each enc l ≠ Panic).
  { induction l as [|x l IH]; cbn [push_each]; no_panic; [apply H|apply IH]. }
  unfold push_list. no_panic; [by unfold push_len; case_match|done].
Qed.

Lemma push_u32s_no_panic l : push_u32s l ≠ Panic.
Proof. unfold push_u32s. no_panic. by unfold push_len; case_match. Qed.

Lemma encode_shape_no_panic sh : encode_shape sh ≠ Panic.
Proof.
  unfold encode_shape, encode_lane, encode_queue.
  repeat first [progress no_panic | apply push_u32s_no_panic | apply push_list_no_panic; intros ?
    | progress unfold encode_state, encode_operation, encode_edge, encode_arm, encode_actions ].
Qed.

Lemma validate_structure_no_panic p : validate_structure p ≠ Panic.
Proof.
  unfold validate_structure. no_panic. apply for_enum_no_panic. intros i sh _. apply check_shape_no_panic.
Qed.

Lemma computed_fingerprint_no_panic blake3 p : computed_fingerprint blake3 p ≠ Panic.
Proof.
  unfold computed_fingerprint, canonical_bytes. no_panic; [apply validate_structure_no_panic|].
  apply push_list_no_panic, encode_shape_no_panic.
Qed.

Lemma into_async_shape_no_panic f : into_async_shape f ≠ Panic.
Proof.
  unfold into_async_shape. no_panic; [apply validate_no_panic|].
  apply for_enum_no_panic. intros i b _. unfold check_final_binding. no_panic.
Qed.

Lemma validate_program_no_panic blake3 p : validate_program blake3 p ≠ Panic.
Proof.
  unfold validate_program. no_panic; [apply validate_structure_no_panic|apply computed_fingerprint_no_panic].
Qed.

(** Building, validating and binding programs answers on every input: no
    index is out of range, malformed input is an error value. *)
Theorem async_program_never_panics (blake3 : bytes → bytes) (fs : list FinalTypedAsyncExecution)
    (p : AsyncProgram) (sh : AsyncExecutionShape) (b : AsyncBackendBinding) :
  from_final_typed_executions blake3 fs ≠ Panic ∧ validate_program blake3 p ≠ Panic ∧
  into_typed_execution sh b ≠ Panic.
Proof.
  split_and!; [| |apply into_typed_execution_no_panic].
  - unfold from_final_typed_executions, new_program. no_panic;
      [|apply validate_structure_no_panic|apply computed_fingerprint_no_panic].
    induction fs as [|f fs IH]; cbn [collect_shapes]; no_panic; [apply into_async_shape_no_panic|apply IH].
  - apply validate_program_no_panic.
Qed.

(** ** A program *)

Definition sample_execution (ty : Ty) : TypedExecutionShape :=
  {| shape_id := 0; shape_mode := Normal; shape_entry := 0;
     shape_frame := [{| lane_id := 0; lane_ty := ty; lane_ownership := LaneOwnership.Copy;
                        initially_initialized := true |}];
     shape_result_lanes := [0%N];
     shape_states := [{| state_id := 0; transitions := [{| tr_condition := Boolean 0 true;
                           tr_actions := []; tr_outcome := ExecutionOutcome.Continue 1 |};
                         {| tr_condition := Always; tr_actions := [];
                            tr_outcome := ExecutionOutcome.Complete |}] |};
                      {| state_id := 1; transitions := [{| tr_condition := Always;
                           tr_actions := []; tr_outcome := ExecutionOutcome.Complete |}] |}];
     shape_operations := []; shape_queues := []; shape_cancellation := None |}.

Definition sample_final (ty : Ty) : FinalTypedAsyncExecution :=
  {| fe_execution := sample_execution ty; fe_closure_layout_fingerprint := replicate 32 x01;
     fe_state_bindings := [{| ft_state := 1; ft_callable := 8; ft_capture_to_lane := [0%N] |};
                           {| ft_state := 0; ft_callable := 7; ft_capture_to_lane := [] |}];
     fe_dynamic_boundaries := [OpaqueHostOperation] |}.

(** A stand-in for the hash: the first bytes of its input. *)
Definition sample_hash (b : bytes) : bytes := take 32 b.

Definition sample_program (ty : Ty) : AsyncProgram :=
  Eval vm_compute in
  match from_final_typed_executions sample_hash [sample_final ty] with
  | Done p => p
  | _ => {| schema_version := 0; semantic_fingerprint := []; execution_shapes := [] |}
  end.

Lemma lowering_preserves_executions_witness :
  validate_program sample_hash (sample_program (Tuple [])) = Done tt ∧
  ∃ sh, execution_shapes (sample_program (Tuple [])) !! 0%nat = Some sh ∧
        into_typed_execution sh (own_binding sh) = Done (sample_execution (Tuple [])).
Proof.
  destruct (lowering_preserves_executions sample_hash [sample_final (Tuple [])] (sample_program (Tuple []))
    0 (sample_final (Tuple []))) as (Hv & sh & Hsh & _ & _ & Hb); [vm_compute; reflexivity|reflexivity|].
  split; [exact Hv|]. exists sh. split; [exact Hsh|]. by apply Hb.
Defined.

Lemma sample_program_fits ty : fits_program (sample_program ty).
Proof. repeat first [done | apply Forall_cons_2 | apply Forall_nil_2 | split]. Qed.

Lemma fingerprint_binds_program_witness :
  map erase_shape (execution_shapes (sample_program (Tuple []))) =
    map erase_shape (execution_shapes (sample_program (Named "Int" []))) ∨
  ∃ b c, b ≠ c ∧ sample_hash b = sample_hash c.
Proof.
  apply fingerprint_binds_program;
    [apply sample_program_fits..|vm_compute; reflexivity|vm_compute; reflexivity|reflexivity].
Defined.
