(* ===== verification/Kernel.v ===== *)
(** * Kernel: one typed execution and its wait record

    Models [crates/witchy-interp/src/typed_async.rs]: the state machine that
    runs a validated execution shape, one turn at a time, with the single
    wait record an execution owns.  A method is a computation of [M]: it
    returns a value, an error or a panic, and in every case the execution it
    leaves behind, since an [Err] returned half way keeps the lanes already
    changed. *)

From S2P Require Import Prelude Execution AsyncProgram.

Local Open Scope string_scope.

Module KernelStatus.
Inductive t : Set :=
  | Ready
  | Waiting (operation : OperationSiteId)
  | Complete
  | PropagatedError
  | Trapped.
End KernelStatus.

Module KernelTurn.
Inductive t : Set :=
  | Continued (next : ExecutionStateId)
  | BecameReady (next : ExecutionStateId)
  | Blocked (operation : OperationSiteId)
  | Complete
  | PropagatedError
  | Trapped.
End KernelTurn.

Module OperationCommit.
Inductive t : Set :=
  | Ready (operation : OperationSiteId)
  | SelectArm (operation : OperationSiteId) (arm : N).
End OperationCommit.

#[export] Instance status_eq_dec : EqDecision KernelStatus.t.
Proof. solve_decision. Defined.
#[export] Instance turn_eq_dec : EqDecision KernelTurn.t.
Proof. solve_decision. Defined.

Record TypedExecution : Set := {
  shape : TypedExecutionShape;
  state : ExecutionStateId;
  initialized : list bool;
  status : KernelStatus.t;
  cancellation : option (OperationSiteId * ExecutionStateId);
}.

Definition set_state (s : ExecutionStateId) (e : TypedExecution) : TypedExecution :=
  {| shape := shape e; state := s; initialized := initialized e; status := status e;
     cancellation := cancellation e |}.
Definition set_initialized (l : list bool) (e : TypedExecution) : TypedExecution :=
  {| shape := shape e; state := state e; initialized := l; status := status e;
     cancellation := cancellation e |}.
Definition set_status (st : KernelStatus.t) (e : TypedExecution) : TypedExecution :=
  {| shape := shape e; state := state e; initialized := initialized e; status := st;
     cancellation := cancellation e |}.

Definition new (sh : TypedExecutionShape) : outcome TypedExecution :=
  validate sh;;
  mret {| shape := sh; state := shape_entry sh;
          initialized := map initially_initialized (shape_frame sh);
          status := KernelStatus.Ready;
          cancellation := (λ c, (cancel_operation c, cancel_state c)) <$> shape_cancellation sh |}.

Definition from_async_shape (sh : AsyncExecutionShape) (binding : AsyncBackendBinding)
    : outcome TypedExecution :=
  sh ← into_typed_execution sh binding; new sh.

Definition has_cancellation_transition (e : TypedExecution) : bool :=
  match cancellation e with Some _ => true | None => false end.

(** ** Observing the wait record *)

Definition waiting_operation (e : TypedExecution)
    : result string (OperationSiteId * ExecutionOperation) :=
  match status e with
  | KernelStatus.Waiting operation =>
      site ← ok_or (shape_operations (shape e) !! N.to_nat operation)
               "operation vanished after validation";
      Ok (operation, site_kind site)
  | _ => Err "execution has no installed operation wait record"
  end.

Definition waiting_queue_operation (e : TypedExecution)
    : result string (OperationSiteId * QueueShapeId * ExecutionOperation) :=
  '(operation, kind) ← match waiting_operation e with
                       | Ok r => Ok r
                       | Err _ => Err "execution has no installed queue wait record"
                       end;
  site ← ok_or (shape_operations (shape e) !! N.to_nat operation)
           "operation vanished after validation";
  queue ← ok_or (site_queue site) "waiting operation has no typed queue binding";
  Ok (operation, queue, kind).

(** The [map] and [collect] over the arms: the first arm without a queue
    decides the error. *)
Fixpoint collect_arms (arms : list OperationArm)
    : result string (list (N * ExecutionOperation * QueueShapeId)) :=
  match arms with
  | [] => Ok []
  | arm :: arms =>
      queue ← ok_or (arm_queue arm) "typed select arm has no queue binding";
      rest ← collect_arms arms;
      Ok ((arm_ordinal arm, arm_operation arm, queue) :: rest)
  end.

Definition waiting_select_arms (e : TypedExecution)
    : result string (OperationSiteId * list (N * ExecutionOperation * QueueShapeId)) :=
  match status e with
  | KernelStatus.Waiting operation =>
      site ← ok_or (shape_operations (shape e) !! N.to_nat operation)
               "operation vanished after validation";
      fail_if (negb (bool_decide (site_kind site = Select)))
        "execution wait is not a typed select operation";;
      arms ← collect_arms (site_arms site);
      Ok (operation, arms)
  | _ => Err "execution has no installed select wait record"
  end.

(** ** Turns *)

(** [self.initialized[lane.0 as usize] = v] *)
Definition set_lane (l : FrameLaneId) (v : bool) : M TypedExecution unit :=
  e ← get;
  lanes ← lift_outcome (assign (initialized e) l v);
  modify (set_initialized lanes).

Definition lane (l : FrameLaneId) : M TypedExecution bool :=
  e ← get;
  some_or (initialized e !! N.to_nat l) "execution lane vanished after validation".

Definition apply_action (action : LaneAction) : M TypedExecution unit :=
  match action with
  | Copy from to => lane from;; set_lane to true
  | Move from to =>
      v ← lane from;
      throw_if (negb v) "move from uninitialized frame lane";;
      set_lane from false;; set_lane to true
  | Write to => set_lane to true
  | Clear l | Discharge l => set_lane l false
  end.

Fixpoint apply_all (actions : list LaneAction) : M TypedExecution unit :=
  match actions with
  | [] => mret tt
  | a :: actions => apply_action a;; apply_all actions
  end.

(** The final [match] of [turn_selected]. *)
Definition follow (o : ExecutionOutcome.t) : M TypedExecution KernelTurn.t :=
  match o with
  | ExecutionOutcome.Continue next =>
      modify (set_state next);; mret (KernelTurn.Continued next)
  | ExecutionOutcome.Ready next =>
      modify (set_state next);; mret (KernelTurn.BecameReady next)
  | ExecutionOutcome.Blocked operation retry =>
      modify (set_state retry);;
      modify (set_status (KernelStatus.Waiting operation));;
      mret (KernelTurn.Blocked operation)
  | ExecutionOutcome.Complete =>
      modify (set_status KernelStatus.Complete);; mret KernelTurn.Complete
  | ExecutionOutcome.PropagateError =>
      modify (set_status KernelStatus.PropagatedError);; mret KernelTurn.PropagatedError
  | ExecutionOutcome.Trap =>
      modify (set_status KernelStatus.Trapped);; mret KernelTurn.Trapped
  end.

Definition turn_selected (transition_index : nat) : M TypedExecution KernelTurn.t :=
  e ← get;
  throw_if (negb (bool_decide (status e = KernelStatus.Ready))) "execution is not ready";;
  st ← some_or (shape_states (shape e) !! N.to_nat (state e))
         "execution state vanished after validation";
  t ← some_or (transitions st !! transition_index) "execution selected absent transition";
  apply_all (tr_actions t);;
  follow (tr_outcome t).

Definition turn : M TypedExecution KernelTurn.t :=
  e ← get;
  st ← some_or (shape_states (shape e) !! N.to_nat (state e))
         "execution state vanished after validation";
  match transitions st with
  | [t] =>
      throw_if (negb (bool_decide (tr_condition t = Always)))
        "execution state requires an explicit selected edge";;
      turn_selected 0
  | _ => throw "execution state requires an explicit selected edge"
  end.

(** ** Wait records *)

Definition wake (operation : OperationSiteId) : M TypedExecution unit :=
  e ← get;
  match status e with
  | KernelStatus.Waiting waiting =>
      if (waiting =? operation)%N then modify (set_status KernelStatus.Ready)
      else throw "wake operation does not own this execution wait record"
  | _ => throw "wake for execution without an installed wait record"
  end.

(** Whether a retry edge is the one a commit takes. *)
Definition edge_matches (operation : OperationSiteId) (selected_arm : option N)
    (c : ExecutionEdgeCondition) : bool :=
  match c, selected_arm with
  | Always, None => true
  | SelectArm edge_operation arm, Some selected_arm =>
      (edge_operation =? operation)%N && (arm =? selected_arm)%N
  | _, _ => false
  end.

(** The indices of the matching transitions, from index [i] on. *)
Fixpoint matching_edges (operation : OperationSiteId) (selected_arm : option N) (i : nat)
    (ts : list ExecutionTransition) : list nat :=
  match ts with
  | [] => []
  | t :: ts =>
      let rest := matching_edges operation selected_arm (S i) ts in
      if edge_matches operation selected_arm (tr_condition t) then i :: rest else rest
  end.

Definition matching_commit_transition (operation : OperationSiteId) (selected_arm : option N)
    : M TypedExecution nat :=
  e ← get;
  st ← some_or (shape_states (shape e) !! N.to_nat (state e))
         "execution state vanished after validation";
  match matching_edges operation selected_arm 0 (transitions st) with
  | [i] => mret i
  | [] => throw "operation commit has no matching retry transition"
  | _ => throw "operation commit has ambiguous retry transitions"
  end.

(** [for lane in lanes { self.initialized[lane] = true }] *)
Fixpoint set_lanes (lanes : list FrameLaneId) : M TypedExecution unit :=
  match lanes with
  | [] => mret tt
  | l :: lanes => set_lane l true;; set_lanes lanes
  end.

(** The result lanes a commit initializes. *)
Definition commit_lanes (site : OperationSite) (selected_arm : option N)
    : M TypedExecution (list FrameLaneId) :=
  match selected_arm with
  | None =>
      throw_if (bool_decide (site_kind site = Select))
        "select commit requires a source-ordered arm";;
      mret (site_result_lanes site)
  | Some arm =>
      candidate ← some_or (List.find (λ c, arm_ordinal c =? arm)%N (site_arms site))
        "commit selected absent operation arm";
      mret (arm_result_lanes candidate)
  end.

Definition commit_operation (commit : OperationCommit.t) : M TypedExecution KernelTurn.t :=
  let '(operation, selected_arm) :=
    match commit with
    | OperationCommit.Ready operation => (operation, None)
    | OperationCommit.SelectArm operation arm => (operation, Some arm)
    end in
  e ← get;
  waiting ← match status e with
            | KernelStatus.Waiting waiting => mret waiting
            | _ => throw "commit for execution without an installed wait record"
            end;
  throw_if (negb (waiting =? operation)%N)
    "commit operation does not own this execution wait record";;
  operation_site ← some_or (shape_operations (shape e) !! N.to_nat operation)
    "operation vanished after validation";
  result_lanes ← commit_lanes operation_site selected_arm;
  transition_index ← matching_commit_transition operation selected_arm;
  set_lanes result_lanes;;
  modify (set_status KernelStatus.Ready);;
  turn_selected transition_index.

Definition abort_operation (operation : OperationSiteId) : M TypedExecution unit :=
  e ← get;
  (match status e with
   | KernelStatus.Waiting waiting =>
       throw_if (negb (waiting =? operation)%N)
         "abort operation does not own this execution wait record"
   | _ => throw "abort for execution without an installed wait record"
   end);;
  operation_site ← some_or (shape_operations (shape e) !! N.to_nat operation)
    "operation vanished after validation";
  fallback ← some_or (site_fallback_state operation_site)
    "operation has no fallback state for aborted registration";
  set_lanes (site_pending_move_lanes operation_site);;
  modify (set_state fallback);;
  modify (set_status KernelStatus.Ready).

Definition is_terminal (s : KernelStatus.t) : bool :=
  match s with
  | KernelStatus.Complete | KernelStatus.PropagatedError | KernelStatus.Trapped => true
  | _ => false
  end.

Definition request_cancellation : M TypedExecution bool :=
  e ← get;
  match cancellation e with
  | None => throw "execution shape has no cancellation transition"
  | Some (_, cleanup) =>
      if is_terminal (status e) then mret false
      else if (state e =? cleanup)%N && bool_decide (status e = KernelStatus.Ready)
      then mret false
      else modify (set_state cleanup);; modify (set_status KernelStatus.Ready);; mret true
  end.

(** ** Every call on an execution *)

Inductive kernel_call : Set :=
  | CallTurn
  | CallTurnSelected (transition : nat)
  | CallWake (operation : OperationSiteId)
  | CallCommit (commit : OperationCommit.t)
  | CallAbort (operation : OperationSiteId)
  | CallRequestCancellation.

(** What a call returns when it returns [Ok]. *)
Inductive kernel_answer : Set :=
  | Turned (t : KernelTurn.t)
  | Unit
  | Requested (b : bool).

Definition run_call (c : kernel_call) : M TypedExecution kernel_answer :=
  match c with
  | CallTurn => t ← turn; mret (Turned t)
  | CallTurnSelected i => t ← turn_selected i; mret (Turned t)
  | CallWake op => wake op;; mret Unit
  | CallCommit c => t ← commit_operation c; mret (Turned t)
  | CallAbort op => abort_operation op;; mret Unit
  | CallRequestCancellation => b ← request_cancellation; mret (Requested b)
  end.

(** A call was made, whatever it returned. *)
Definition called (e e' : TypedExecution) : Prop := ∃ c o, run_call c e = (e', o).

(** * Lemmas *)

(** The errors whose texts say that a declared part has disappeared. *)
Definition vanished_errors : list string := [
  "operation vanished after validation";
  "execution state vanished after validation";
  "execution lane vanished after validation"].

Local Close Scope string_scope.

Record kernel_inv (sh : TypedExecutionShape) (e : TypedExecution) : Prop := {
  ki_shape : shape e = sh;
  ki_state : state_in sh (state e);
  ki_lanes : length (initialized e) = length (shape_frame sh);
  ki_waiting : ∀ op, status e = KernelStatus.Waiting op → operation_in sh op;
  ki_cancellation :
    cancellation e = (λ c, (cancel_operation c, cancel_state c)) <$> shape_cancellation sh;
}.

Section safety.
Context (sh : TypedExecutionShape) (Hsh : shape_ok sh).
Implicit Types e : TypedExecution.

Definition inv_error (s : string) (e : TypedExecution) : Prop :=
  kernel_inv sh e ∧ s ∉ vanished_errors.

Abbreviation safe m := (triple (kernel_inv sh) m (λ _, kernel_inv sh) inv_error).

Lemma safe_from {A} (m : M TypedExecution A) e :
  kernel_inv sh e → safe m → triple (λ e', e' = e) m (λ _, kernel_inv sh) inv_error.
Proof. intros He Hm. eapply triple_pre; [exact Hm|]. by intros ? ->. Qed.

Lemma inv_error_intro (s : string) e : kernel_inv sh e → bool_decide (s ∉ vanished_errors) = true →
  inv_error s e.
Proof. intros ? ?%bool_decide_eq_true. by split. Qed.

Lemma set_lane_safe l v : lane_in sh l → safe (set_lane l v).
Proof.
  intros Hl e [Hs Hst Hlen Hw Hc]. unfold set_lane, lift_outcome, assign, mbind, M_bind, get, modify.
  unfold lane_in in Hl. rewrite bool_decide_eq_true_2 by lia.
  split; cbn; [done..| |done|done]. by rewrite length_insert.
Qed.

Lemma lane_safe l : lane_in sh l → safe (lane l).
Proof.
  intros Hl e He. pose proof He as [_ _ Hlen _ _]. unfold lane, mbind, M_bind, get, some_or.
  unfold lane_in in Hl. destruct (lookup_lt_is_Some_2 (initialized e) (N.to_nat l)) as [v ->];
    [lia|done].
Qed.

Lemma apply_action_safe a : action_ok sh a → safe (apply_action a).
Proof.
  destruct a as [f t|f t|t|l|l]; cbn; intros Ha; destruct_and?.
  - apply triple_seq; [by apply lane_safe|]. intros _. by apply set_lane_safe.
  - apply triple_seq; [by apply lane_safe|]. intros v.
    apply triple_throw_if_bind; [intros _ e He; by apply inv_error_intro|intros _].
    apply triple_seq; [by apply set_lane_safe|]. intros _. by apply set_lane_safe.
  - by apply set_lane_safe.
  - by apply set_lane_safe.
  - by apply set_lane_safe.
Qed.

Lemma apply_all_safe actions : (∀ a, a ∈ actions → action_ok sh a) → safe (apply_all actions).
Proof.
  induction actions as [|a actions IH]; intros H; cbn [apply_all]; [by apply triple_ret|].
  apply triple_seq; [apply apply_action_safe, H; set_solver|]. intros _. apply IH. set_solver.
Qed.

Lemma set_lanes_safe lanes : (∀ l, l ∈ lanes → lane_in sh l) → safe (set_lanes lanes).
Proof.
  induction lanes as [|l lanes IH]; intros H; cbn [set_lanes]; [by apply triple_ret|].
  apply triple_seq; [apply set_lane_safe, H; set_solver|]. intros _. apply IH. set_solver.
Qed.

Lemma set_state_safe s : state_in sh s → safe (modify (set_state s)).
Proof. intros Hs. apply triple_modify. intros e []. by split. Qed.

Lemma set_status_safe st :
  (∀ op, st = KernelStatus.Waiting op → operation_in sh op) → safe (modify (set_status st)).
Proof. intros Hs. apply triple_modify. intros e []. by split. Qed.

Lemma follow_safe o : outcome_ok sh o → safe (follow o).
Proof.
  destruct o; cbn; intros Ho; destruct_and?;
    repeat (apply triple_seq; [first [by apply set_state_safe|apply set_status_safe]|intros _]);
    try (by apply triple_ret); naive_solver.
Qed.

(** The current state and its transitions are declared. *)
Lemma current_state e : kernel_inv sh e → ∃ st,
  shape_states (shape e) !! N.to_nat (state e) = Some st ∧
  ∀ i t, transitions st !! i = Some t → transition_ok sh t.
Proof.
  intros [Hs Hst _ _ _]. destruct (lookup_lt_is_Some_2 _ _ Hst) as [st Hlk]. exists st.
  rewrite Hs. split; [done|]. intros i t Ht. eapply sok_transitions; [done| |];
    by eapply list_elem_of_lookup_2.
Qed.

Lemma turn_selected_safe i : safe (turn_selected i).
Proof.
  apply triple_get_bind. intros e He.
  apply triple_throw_if_bind; [by intros _ ? ->; apply inv_error_intro|intros _].
  destruct (current_state e He) as (st & -> & Hts).
  apply triple_some_or_bind; [done|]. intros ? [= <-].
  apply triple_some_or_bind; [by intros _ ? ->; apply inv_error_intro|]. intros t [Ha Hc Ho]%Hts.
  apply safe_from; [done|]. apply triple_seq; [by apply apply_all_safe|]. intros _.
  by apply follow_safe.
Qed.

Lemma turn_safe : safe turn.
Proof.
  apply triple_get_bind. intros e He. destruct (current_state e He) as (st & -> & _).
  apply triple_some_or_bind; [done|]. intros ? [= <-].
  destruct (transitions st) as [|t [|]];
    try by (apply triple_throw; intros ? ->; apply inv_error_intro).
  apply triple_throw_if_bind; [by intros _ ? ->; apply inv_error_intro|intros _].
  apply safe_from; [done|]. apply turn_selected_safe.
Qed.

Lemma wake_safe op : safe (wake op).
Proof.
  apply triple_get_bind. intros e He. destruct (status e);
    try by (apply triple_throw; intros ? ->; apply inv_error_intro).
  destruct (_ =? op)%N; [|by apply triple_throw; intros ? ->; apply inv_error_intro].
  apply safe_from; [done|]. by apply set_status_safe.
Qed.

Lemma matching_commit_transition_safe op arm : safe (matching_commit_transition op arm).
Proof.
  apply triple_get_bind. intros e He. destruct (current_state e He) as (st & -> & _).
  apply triple_some_or_bind; [done|]. intros ? [= <-].
  destruct (matching_edges _ _ _ _) as [|i [|]];
    try by (apply triple_throw; intros ? ->; apply inv_error_intro).
  apply triple_ret. by intros ? ->.
Qed.

(** The operation a wait record names is declared. *)
Lemma current_operation e op : kernel_inv sh e → status e = KernelStatus.Waiting op → ∃ site,
  shape_operations (shape e) !! N.to_nat op = Some site ∧ operation_ok sh site.
Proof.
  intros He Hw. pose proof (ki_waiting _ _ He op Hw) as Hop.
  destruct (lookup_lt_is_Some_2 _ _ Hop) as [site Hs]. exists site.
  rewrite (ki_shape _ _ He). split; [done|]. eapply sok_operations; [done|].
  by eapply list_elem_of_lookup_2.
Qed.

Lemma commit_lanes_safe site arm :
  operation_ok sh site →
  triple (kernel_inv sh) (commit_lanes site arm)
    (λ lanes e, kernel_inv sh e ∧ ∀ l, l ∈ lanes → lane_in sh l) inv_error.
Proof.
  intros Hop. destruct arm as [arm|]; cbn.
  - apply triple_some_or_bind; [by intros _ e He; apply inv_error_intro|].
    intros c [Hc _]%find_some. apply triple_ret. intros e He. split; [done|].
    intros l Hl. rewrite <- list_elem_of_In in Hc.
    apply (aok_lanes _ _ (ook_arms _ _ Hop c Hc)). set_solver.
  - apply triple_throw_if_bind; [by intros _ e He; apply inv_error_intro|intros _].
    apply triple_ret. intros e He. split; [done|]. intros l Hl. apply (ook_lanes _ _ Hop). set_solver.
Qed.

Lemma commit_operation_safe c : safe (commit_operation c).
Proof.
  unfold commit_operation.
  destruct (match c with OperationCommit.Ready operation => (operation, None)
    | OperationCommit.SelectArm operation arm => (operation, Some arm) end) as [op arm].
  apply triple_get_bind. intros e He. destruct (status e) as [|w| | |] eqn:Hst;
    try (intros ? ->; by apply inv_error_intro).
  apply (triple_throw_if_bind (λ e', e' = e)); [by intros _ ? ->; apply inv_error_intro|].
  intros Hw. apply negb_false_iff, N.eqb_eq in Hw as ->.
  destruct (current_operation e op He Hst) as (site & Hsite & Hop). rewrite Hsite.
  apply triple_some_or_bind; [done|]. intros ? [= <-]. apply safe_from; [done|].
  eapply triple_bind; [by apply commit_lanes_safe|]. intros lanes s' [Hs' Hl]. revert s' Hs'.
  change (safe (i ← matching_commit_transition op arm; set_lanes lanes;;
    modify (set_status KernelStatus.Ready);; turn_selected i)).
  apply triple_seq; [apply matching_commit_transition_safe|]. intros i.
  apply triple_seq; [by apply set_lanes_safe|]. intros _.
  apply triple_seq; [by apply set_status_safe|]. intros _. apply turn_selected_safe.
Qed.

Lemma abort_operation_safe op : safe (abort_operation op).
Proof.
  apply triple_get_bind. intros e He. destruct (status e) as [|w| | |] eqn:Hst;
    try (intros ? ->; by apply inv_error_intro).
  apply triple_throw_if_bind; [by intros _ ? ->; apply inv_error_intro|].
  intros Hw. apply negb_false_iff, N.eqb_eq in Hw as ->.
  destruct (current_operation e op He Hst) as (site & -> & Hop).
  apply triple_some_or_bind; [done|]. intros ? [= <-].
  apply triple_some_or_bind; [by intros _ ? ->; apply inv_error_intro|]. intros fallback Hf.
  apply safe_from; [done|].
  apply triple_seq; [apply set_lanes_safe; intros l Hl; apply (ook_lanes _ _ Hop); set_solver|].
  intros _. apply triple_seq; [by apply set_state_safe, (ook_fallback _ _ Hop)|]. intros _.
  by apply set_status_safe.
Qed.

Lemma request_cancellation_safe : safe request_cancellation.
Proof.
  apply triple_get_bind. intros e He. rewrite (ki_cancellation _ _ He).
  destruct (shape_cancellation sh) as [c|] eqn:Hc; cbn;
    [|by apply triple_throw; intros ? ->; apply inv_error_intro].
  repeat case_match; try by (apply triple_ret; intros ? ->).
  apply safe_from; [done|]. apply triple_seq; [by apply set_state_safe, (sok_cancellation _ Hsh)|].
  intros _. apply triple_seq; [by apply set_status_safe|]. intros _. by apply triple_ret.
Qed.

Lemma run_call_safe c : safe (run_call c).
Proof.
  destruct c; cbn; apply triple_seq; try (intros; by apply triple_ret);
    auto using turn_safe, turn_selected_safe, wake_safe, commit_operation_safe,
      abort_operation_safe, request_cancellation_safe.
Qed.
End safety.

Lemma new_inv sh e : new sh = Done e → validate sh = Done tt ∧ shape_ok sh ∧ kernel_inv sh e.
Proof.
  unfold new. intros ([] & Hv & H)%outcome_bind_Done. injection H as <-.
  destruct (validate_ok sh Hv) as [Hsh _]. split_and!; [done..|].
  split; cbn; [done|by apply sok_entry|by rewrite length_map|done|done].
Qed.

Lemma called_inv sh e e' : shape_ok sh → kernel_inv sh e → called e e' → kernel_inv sh e'.
Proof.
  intros Hsh He (c & o & Hc). pose proof (run_call_safe sh Hsh c e He) as H. rewrite Hc in H.
  destruct o; [done|apply H|done].
Qed.

Lemma reachable_inv sh e0 e : new sh = Done e0 → rtc called e0 e → shape_ok sh ∧ kernel_inv sh e.
Proof.
  intros (_ & Hsh & He0)%new_inv Hr. split; [done|]. induction Hr; eauto using called_inv.
Qed.

(** An execution started on a validated shape can be driven by any sequence
    of calls with any arguments, failed calls included: no call indexes out
    of range, and none reports that a state, lane or operation of the shape
    has vanished. *)
Theorem kernel_never_panics (sh : TypedExecutionShape) (e0 e : TypedExecution) (c : kernel_call) :
  new sh = Done e0 → rtc called e0 e →
  ∃ e', (∃ a, run_call c e = (e', Done a)) ∨
        (∃ s, run_call c e = (e', Fail s) ∧ s ∉ vanished_errors).
Proof.
  intros Hnew Hr. destruct (reachable_inv _ _ _ Hnew Hr) as [Hsh He].
  pose proof (run_call_safe sh Hsh c e He) as H. destruct (run_call c e) as [e' [a|s|]];
    [by eauto|destruct H; eauto|done].
Qed.

(** ** The wait record *)

(** The call claims the wait record of this operation. *)
Definition claims (c : kernel_call) (op : OperationSiteId) : bool :=
  match c with
  | CallWake o | CallAbort o => (o =? op)%N
  | CallCommit (OperationCommit.Ready o) | CallCommit (OperationCommit.SelectArm o _) =>
      (o =? op)%N
  | _ => false
  end.

Lemma turn_not_ready e : status e ≠ KernelStatus.Ready → ∃ s, turn e = (e, Fail s).
Proof.
  intros Hst. unfold turn, turn_selected, mbind, M_bind, get, some_or, throw_if.
  destruct (shape_states _ !! _) as [st|]; [|by eexists]. cbn.
  destruct (transitions st) as [|t [|]]; [by eexists| |by eexists]. cbn.
  destruct (bool_decide (tr_condition t = Always)); cbn; [|by eexists].
  rewrite bool_decide_eq_false_2 by done. by eexists.
Qed.

(** A waiting execution is moved only by a call that names the operation it
    waits for, or by cancellation; every other call, a stale or duplicate
    wake-up among them, fails and leaves the execution as it was. *)
Theorem wait_record_exclusive (e : TypedExecution) (op : OperationSiteId) (c : kernel_call) :
  status e = KernelStatus.Waiting op → claims c op = false → c ≠ CallRequestCancellation →
  ∃ s, run_call c e = (e, Fail s).
Proof.
  intros Hst Hc Hn. destruct c as [|i|o|[o|o a]|o|]; cbn in Hc |- *; try done.
  - destruct (turn_not_ready e) as [s Hs]; [by rewrite Hst|]. exists s.
    unfold mbind, M_bind. by rewrite Hs.
  - eexists. unfold turn_selected, mbind, M_bind, get. rewrite Hst. done.
  - eexists. unfold wake, mbind, M_bind, get. rewrite Hst, N.eqb_sym, Hc. done.
  - eexists. unfold commit_operation, mbind, M_bind, get. rewrite Hst. cbn.
    rewrite N.eqb_sym, Hc. done.
  - eexists. unfold commit_operation, mbind, M_bind, get. rewrite Hst. cbn.
    rewrite N.eqb_sym, Hc. done.
  - eexists. unfold abort_operation, mbind, M_bind, get. rewrite Hst. cbn.
    rewrite N.eqb_sym, Hc. done.
Qed.

(** A finished execution never runs again: every call leaves it as it was,
    and a cancellation request is at most declined. *)
Theorem terminal_absorbing (e : TypedExecution) (c : kernel_call) :
  is_terminal (status e) = true →
  ∃ o, run_call c e = (e, o) ∧ ∀ a, o = Done a → a = Requested false.
Proof.
  intros Hst. assert (status e ≠ KernelStatus.Ready) as Hr by (intros H; by rewrite H in Hst).
  destruct c as [|i|o|[o|o a]|o|]; cbn.
  - destruct (turn_not_ready e Hr) as [s Hs]. exists (Fail s). unfold mbind, M_bind. by rewrite Hs.
  - eexists. unfold turn_selected, mbind, M_bind, get. rewrite bool_decide_eq_false_2 by done. done.
  - unfold wake, mbind, M_bind, get. destruct (status e); try done; by eexists.
  - unfold commit_operation, mbind, M_bind, get. destruct (status e); try done; by eexists.
  - unfold commit_operation, mbind, M_bind, get. destruct (status e); try done; by eexists.
  - unfold abort_operation, mbind, M_bind, get. destruct (status e); try done; by eexists.
  - unfold request_cancellation, mbind, M_bind, get. rewrite Hst.
    destruct (cancellation e) as [[]|]; [exists (Done (Requested false))|eexists];
      (split; [reflexivity|]); [by intros ? [= <-]|done].
Qed.

(** ** Must-consume lanes along a run *)

(** The effect of actions on the initialized flags. *)
Definition lanes_after (a : LaneAction) (lanes : list bool) : list bool :=
  match a with
  | Copy _ to | Write to => <[N.to_nat to := true]> lanes
  | Move from to => <[N.to_nat to := true]> (<[N.to_nat from := false]> lanes)
  | Clear l | Discharge l => <[N.to_nat l := false]> lanes
  end.

(** The execution after the outcome of an edge. *)
Definition after_outcome (o : ExecutionOutcome.t) (e : TypedExecution) : TypedExecution :=
  match o with
  | ExecutionOutcome.Continue n | ExecutionOutcome.Ready n => set_state n e
  | ExecutionOutcome.Blocked op r => set_status (KernelStatus.Waiting op) (set_state r e)
  | ExecutionOutcome.Complete => set_status KernelStatus.Complete e
  | ExecutionOutcome.PropagateError => set_status KernelStatus.PropagatedError e
  | ExecutionOutcome.Trap => set_status KernelStatus.Trapped e
  end.

Lemma set_lane_Done l v e e' u : set_lane l v e = (e', Done u) →
  e' = set_initialized (<[N.to_nat l := v]> (initialized e)) e.
Proof.
  intros H. unfold set_lane in H. done_inv. unfold lift_outcome in *.
  match goal with H : (_, assign _ _ _) = _ |- _ => injection H as <- H end.
  by match goal with H : assign _ _ _ = _ |- _ => apply assign_Done in H as [_ ->] end.
Qed.

Lemma apply_action_Done a e e' u : apply_action a e = (e', Done u) →
  e' = set_initialized (lanes_after a (initialized e)) e.
Proof.
  destruct a; cbn [apply_action lanes_after]; intros H; unfold lane in H; done_inv;
    repeat match goal with H : set_lane _ _ _ = _ |- _ => apply set_lane_Done in H end;
    by subst.
Qed.

Lemma apply_all_Done actions e e' u : apply_all actions e = (e', Done u) →
  e' = set_initialized (List.fold_left (λ l a, lanes_after a l) actions (initialized e)) e.
Proof.
  revert e. induction actions as [|a actions IH]; intros e H; cbn [apply_all] in H; done_inv.
  - by destruct e.
  - match goal with H : apply_action _ _ = _ |- _ => apply apply_action_Done in H; subst end.
    apply IH in H. by subst.
Qed.

Lemma follow_Done o e e' t : follow o e = (e', Done t) → e' = after_outcome o e.
Proof. destruct o; cbn [follow after_outcome]; intros H; by done_inv. Qed.

Lemma turn_selected_Done i e e' t : turn_selected i e = (e', Done t) →
  status e = KernelStatus.Ready ∧ ∃ st tr,
    shape_states (shape e) !! N.to_nat (state e) = Some st ∧ transitions st !! i = Some tr ∧
    e' = after_outcome (tr_outcome tr) (set_initialized
           (List.fold_left (λ l a, lanes_after a l) (tr_actions tr) (initialized e)) e).
Proof.
  intros H. unfold turn_selected in H. done_inv.
  match goal with H : negb _ = false |- _ => apply negb_false_iff, bool_decide_eq_true in H end.
  split; [done|]. eexists _, _. split_and!; [done..|].
  match goal with H : apply_all _ _ = _ |- _ => apply apply_all_Done in H; subst end.
  by apply follow_Done in H.
Qed.

(** A lane value allows a lane that is live, or empty. *)
Definition allows (v : N) (live : bool) : Prop := N.testbit v (if live then 1 else 0) = true.

Definition is_must (sh : TypedExecutionShape) (i : nat) : Prop := must_lanes sh !! i = Some true.

(** The mask allows the flags of every must lane. *)
Definition agrees (sh : TypedExecutionShape) (m : mask) (lanes : list bool) : Prop :=
  ∀ i v b, is_must sh i → m !! i = Some v → lanes !! i = Some b → allows v b.

Section must.
Context (sh : TypedExecutionShape).

Lemma agrees_le m m' lanes : agrees sh m lanes → mask_le m m' → agrees sh m' lanes.
Proof.
  intros Ha Hle i v b Hi Hv Hb. destruct (Forall2_lookup_r _ _ _ _ _ Hle Hv) as (v0 & Hv0 & <-).
  unfold allows. rewrite N.lor_spec. by rewrite (Ha i v0 b).
Qed.

Lemma agrees_insert m lanes i v b :
  agrees sh m lanes → allows v b →
  agrees sh (<[i := v]> m) (<[i := b]> lanes).
Proof.
  intros Ha Hvb j w c Hj Hw Hc. destruct (decide (i = j)) as [->|Hne].
  - apply list_lookup_insert_Some in Hw as [(_ & -> & _)|[? _]]; [|done].
    apply list_lookup_insert_Some in Hc as [(_ & -> & _)|[? _]]; done.
  - rewrite list_lookup_insert_ne in Hw by done.
    rewrite list_lookup_insert_ne in Hc by done. by eapply Ha.
Qed.

Lemma agrees_insert_other m lanes i b :
  agrees sh m lanes → ¬ is_must sh i → agrees sh m (<[i := b]> lanes).
Proof.
  intros Ha Hi j v c Hj Hv Hc. destruct (decide (i = j)) as [->|Hne]; [done|].
  rewrite list_lookup_insert_ne in Hc by done. by eapply Ha.
Qed.

Lemma agrees_action a m m' lanes :
  agrees sh m lanes → apply_must_action (must_lanes sh) a m = Done m' →
  agrees sh m' (lanes_after a lanes).
Proof.
  intros Ha Hm. assert (∀ i, must_lanes sh !! i = Some false → ¬ is_must sh i) as Hnot.
  { unfold is_must. congruence. }
  destruct a as [f t|f t|t|l|l]; cbn [apply_must_action lanes_after] in *; outcome_inv.
  - subst. eauto using agrees_insert_other.
  - destruct x; outcome_inv; subst.
    + apply agrees_insert; [|done]. by apply agrees_insert.
    + match goal with H : Bool.eqb _ _ = true |- _ => apply eqb_prop in H; subst end.
      eauto using agrees_insert_other.
  - destruct x; outcome_inv; subst; [by apply agrees_insert|eauto using agrees_insert_other].
  - subst. eauto using agrees_insert_other.
  - subst. eauto using agrees_insert_other.
Qed.

Lemma agrees_actions actions m m' lanes :
  agrees sh m lanes → apply_must_actions (must_lanes sh) actions m = Done m' →
  agrees sh m' (List.fold_left (λ l a, lanes_after a l) actions lanes).
Proof.
  unfold apply_must_actions. revert m lanes.
  induction actions as [|a actions IH]; intros m lanes Ha Hm; cbn in Hm |- *.
  - by injection Hm as <-.
  - apply outcome_bind_Done in Hm as (m1 & Hm1 & Hm). eapply IH; [|done]. by eapply agrees_action.
Qed.

Lemma check_complete_Done cleanup k next j v :
  check_complete sh cleanup k next = Done tt → next !! j = Some v →
  let result := existsb (λ r, N.to_nat r =? k + j) (shape_result_lanes sh) in
  (may_live v = true → result = true ∧ cleanup = false) ∧
  (result = true → cleanup = false → is_must sh (k + j) → v = LIVE).
Proof.
  revert k j. induction next as [|w next IH]; intros k j Hc Hj; [done|].
  cbn [check_complete] in Hc. outcome_inv. destruct j as [|j]; cbn in Hj.
  - injection Hj as ->. rewrite Nat.add_0_r. cbv zeta.
    destruct (existsb _ _), cleanup, (may_live v); cbn in *; try done; split; try done.
    all: intros _ _ Hm; outcome_inv; rewrite Nat2N.id in *; unfold is_must in Hm.
    all: match goal with H : must_lanes _ !! _ = _ |- _ => rewrite H in Hm; injection Hm as -> end.
    all: cbn in *; outcome_inv; by apply N.eqb_eq.
  - rewrite Nat.add_succ_r, <- Nat.add_succ_l. by apply IH.
Qed.

Lemma allows_live v : allows v true → may_live v = true.
Proof.
  unfold allows, may_live. intros Hv. apply negb_true_iff, N.eqb_neq. intros H0.
  assert (N.testbit (N.land v LIVE) 1 = false) as H by (by rewrite H0).
  rewrite N.land_spec, Hv in H. done.
Qed.

(** What the analysis guarantees about the current flags. *)
Definition held (ms : list (option mask)) (s : ExecutionStateId) (lanes : list bool) : Prop :=
  ∃ m, mask_at ms s m ∧ agrees sh m lanes.

Definition live_must (e : TypedExecution) (i : nat) : Prop :=
  is_must sh i ∧ initialized e !! i = Some true.

Definition must_inv (ms : list (option mask)) (e : TypedExecution) : Prop :=
  match status e with
  | KernelStatus.Ready => held ms (state e) (initialized e)
  | KernelStatus.Waiting _ => held ms (state e) (initialized e) ∧
      ∀ c, shape_cancellation sh = Some c → held ms (cancel_state c) (initialized e)
  | KernelStatus.Complete =>
      ∀ i, is_must sh i → initialized e !! i = Some true ↔
        is_cleanup sh (state e) = false ∧ ∃ r, r ∈ shape_result_lanes sh ∧ N.to_nat r = i
  | KernelStatus.PropagatedError => ∀ i, ¬ live_must e i
  | KernelStatus.Trapped => True
  end.

Lemma reached_held ms s m lanes : reached ms s m → agrees sh m lanes → held ms s lanes.
Proof. intros (m' & Hm' & Hle) Ha. exists m'. eauto using agrees_le. Qed.

Lemma result_lane_iff i :
  existsb (λ r, N.to_nat r =? i) (shape_result_lanes sh) = true ↔
  ∃ r, r ∈ shape_result_lanes sh ∧ N.to_nat r = i.
Proof.
  rewrite existsb_exists. split; intros (r & Hr & Hi); exists r.
  - rewrite list_elem_of_In. by rewrite Nat.eqb_eq in Hi.
  - rewrite <- list_elem_of_In. by rewrite Nat.eqb_eq.
Qed.

Lemma lanes_after_length actions lanes :
  length (List.fold_left (λ l a, lanes_after a l) actions lanes) = length lanes.
Proof.
  revert lanes. induction actions as [|a actions IH]; intros lanes; [done|]. cbn. rewrite IH.
  destruct a; cbn; by rewrite ?length_insert.
Qed.

(** A must lane has a value in the mask and a flag. *)
Lemma must_lane_values (m : mask) (lanes : list bool) i :
  is_must sh i → mask_ok sh m → length lanes = length (shape_frame sh) →
  ∃ v b, m !! i = Some v ∧ lanes !! i = Some b.
Proof.
  unfold is_must, must_lanes. intros Hi%lookup_lt_Some [Hm _] Hl. rewrite length_map in Hi.
  destruct (lookup_lt_is_Some_2 m i) as [v Hv]; [lia|].
  destruct (lookup_lt_is_Some_2 lanes i) as [b Hb]; [lia|]. eauto.
Qed.

Lemma complete_exact cleanup next lanes i :
  check_complete sh cleanup 0 next = Done tt → agrees sh next lanes → mask_ok sh next →
  length lanes = length (shape_frame sh) → is_must sh i →
  lanes !! i = Some true ↔
  cleanup = false ∧ ∃ r, r ∈ shape_result_lanes sh ∧ N.to_nat r = i.
Proof.
  intros Hc Ha Hok Hl Hi. destruct (must_lane_values next lanes i Hi Hok Hl) as (v & b & Hv & Hb).
  pose proof (Ha i v b Hi Hv Hb) as Hab.
  destruct (check_complete_Done cleanup 0 next i v Hc Hv) as [H1 H2]. cbn in H1, H2.
  rewrite <- result_lane_iff, Hb. split.
  - intros [= ->]. destruct (H1 (allows_live v Hab)). done.
  - intros [-> Hr]. specialize (H2 Hr eq_refl Hi). subst v. by destruct b.
Qed.

Lemma must_inv_outcome ms e e' tr st :
  must_solution sh ms → shape_ok sh → kernel_inv sh e →
  held ms (state e) (initialized e) →
  shape_states sh !! N.to_nat (state e) = Some st → tr ∈ transitions st →
  status e = KernelStatus.Ready →
  e' = after_outcome (tr_outcome tr) (set_initialized
    (List.fold_left (λ l a, lanes_after a l) (tr_actions tr) (initialized e)) e) →
  must_inv ms e'.
Proof.
  intros Hms Hsh He (m & Hm & Ha) Hst Htr Hready ->.
  destruct (ms_edges _ _ Hms _ _ _ _ Hm Hst Htr) as (next & Hn & Hcov).
  destruct (sok_transitions _ Hsh st tr) as [Hact _ _]; [by eapply list_elem_of_lookup_2|done|].
  assert (mask_ok sh next) as Hok
    by (eapply (apply_must_actions_ok sh); [done| |done]; by eapply ms_masks).
  pose proof (agrees_actions _ _ _ _ Ha Hn) as Hag.
  pose proof (lanes_after_length (tr_actions tr) (initialized e)) as Hlen.
  set (lanes := List.fold_left _ _ _) in *. rewrite (ki_lanes _ _ He) in Hlen. clearbody lanes.
  unfold must_inv. destruct (tr_outcome tr); cbn in Hcov |- *; rewrite ?Hready;
    eauto using reached_held.
  - destruct Hcov as [Hr Hc]. eauto using reached_held.
  - intros i Hi. by eapply complete_exact.
  - intros i [Hi Hb]. cbn in Hb.
    destruct (must_lane_values next lanes i Hi Hok Hlen) as (v & b & Hv & Hb').
    assert (may_live v = false) as Hf.
    { apply (proj1 (existsb_false_elem _ _) Hcov). by eapply list_elem_of_lookup_2. }
    assert (b = true) as -> by congruence.
    by rewrite (allows_live v (Hag i v true Hi Hv Hb)) in Hf.
Qed.

(** ** Runs the analysis speaks about

    The analysis follows the edges of the shape, so it knows nothing of lanes
    that an operation result initializes, of the fallback state of an aborted
    registration, or of a cancellation that arrives while the execution is
    ready.  The two definitions below state the discipline under which its
    verdict is about the run. *)

(** No operation result arrives in a must lane. *)
Definition results_not_must : Prop :=
  ∀ op l, op ∈ shape_operations sh →
    l ∈ site_result_lanes op ∨ (∃ arm, arm ∈ site_arms op ∧ l ∈ arm_result_lanes arm) →
    ¬ is_must sh (N.to_nat l).

(** A successful call other than an abort, where a cancellation finds the
    execution waiting. *)
Definition driven (e e' : TypedExecution) : Prop :=
  ∃ c a, run_call c e = (e', Done a) ∧
    match c with
    | CallAbort _ => False
    | CallRequestCancellation => ∃ op, status e = KernelStatus.Waiting op
    | _ => True
    end.

Lemma turn_selected_must ms i e e' t :
  must_solution sh ms → shape_ok sh → kernel_inv sh e → must_inv ms e →
  turn_selected i e = (e', Done t) → must_inv ms e'.
Proof.
  intros Hms Hsh He Hi (Hr & st & tr & Hst & Htr & Heq)%turn_selected_Done.
  rewrite (ki_shape _ _ He) in Hst. unfold must_inv in Hi. rewrite Hr in Hi.
  eapply must_inv_outcome; [done..| |done|done]. by eapply list_elem_of_lookup_2.
Qed.

Lemma set_lanes_Done lanes e e' u : set_lanes lanes e = (e', Done u) →
  e' = set_initialized (List.fold_left (λ l x, <[N.to_nat x := true]> l) lanes (initialized e)) e.
Proof.
  revert e. induction lanes as [|l lanes IH]; intros e H; cbn [set_lanes] in H; done_inv.
  - by destruct e.
  - match goal with H : set_lane _ _ _ = _ |- _ => apply set_lane_Done in H; subst end.
    apply IH in H. by subst.
Qed.

Lemma agrees_set_lanes m lanes l :
  agrees sh m l → (∀ x, x ∈ lanes → ¬ is_must sh (N.to_nat x)) →
  agrees sh m (List.fold_left (λ l x, <[N.to_nat x := true]> l) lanes l).
Proof.
  revert l. induction lanes as [|x lanes IH]; intros l Ha Hn; [done|]. cbn. apply IH.
  - apply agrees_insert_other; [done|]. apply Hn. set_solver.
  - intros y Hy. apply Hn. set_solver.
Qed.

Lemma set_lanes_length lanes (l : list bool) :
  length (List.fold_left (λ l x, <[N.to_nat x := true]> l) lanes l) = length l.
Proof.
  revert l. induction lanes as [|x lanes IH]; intros l; [done|]. cbn.
  by rewrite IH, length_insert.
Qed.

Lemma commit_lanes_Done site arm e e' lanes : commit_lanes site arm e = (e', Done lanes) →
  e' = e ∧ ∀ l, l ∈ lanes → l ∈ site_result_lanes site ∨
                            ∃ arm, arm ∈ site_arms site ∧ l ∈ arm_result_lanes arm.
Proof.
  destruct arm as [arm|]; cbn; intros H; done_inv; [|auto]. split; [done|].
  match goal with H : List.find _ _ = Some _ |- _ => apply find_some in H as [H%list_elem_of_In _] end.
  eauto.
Qed.

Lemma matching_commit_transition_Done op arm e e' i :
  matching_commit_transition op arm e = (e', Done i) → e' = e.
Proof.
  unfold matching_commit_transition. intros H. done_inv.
  destruct (matching_edges _ _ _ _) as [|? [|]]; by done_inv.
Qed.

(** A commit initializes result lanes of the awaited operation, then takes an
    edge of the retry state. *)
Lemma commit_operation_Done c e e' t : commit_operation c e = (e', Done t) →
  ∃ op site lanes i, status e = KernelStatus.Waiting op ∧
    shape_operations (shape e) !! N.to_nat op = Some site ∧
    (∀ l, l ∈ lanes → l ∈ site_result_lanes site ∨
                      ∃ arm, arm ∈ site_arms site ∧ l ∈ arm_result_lanes arm) ∧
    turn_selected i (set_status KernelStatus.Ready (set_initialized
      (List.fold_left (λ l x, <[N.to_nat x := true]> l) lanes (initialized e)) e)) = (e', Done t).
Proof.
  unfold commit_operation.
  destruct (match c with OperationCommit.Ready operation => (operation, None)
    | OperationCommit.SelectArm operation arm => (operation, Some arm) end) as [op arm].
  intros H. apply M_bind_Done in H as (? & ? & H0 & H). injection H0 as <- <-.
  destruct (status e) as [|w| | |] eqn:Hst; done_inv; try discriminate.
  match goal with H : negb _ = false |- _ => apply negb_false_iff, N.eqb_eq in H as -> end.
  match goal with H : commit_lanes _ _ _ = _ |- _ => apply commit_lanes_Done in H as [-> Hl] end.
  match goal with H : matching_commit_transition _ _ _ = _ |- _ =>
    apply matching_commit_transition_Done in H as -> end.
  match goal with H : set_lanes _ _ = _ |- _ => apply set_lanes_Done in H; subst end.
  eexists op, _, _, _. by split_and!.
Qed.

Lemma commit_must ms c e e' t :
  must_solution sh ms → shape_ok sh → results_not_must → kernel_inv sh e → must_inv ms e →
  commit_operation c e = (e', Done t) → must_inv ms e'.
Proof.
  intros Hms Hsh Hres He Hi (op & site & lanes & i & Hst & Hsite & Hl & Ht)%commit_operation_Done.
  rewrite (ki_shape _ _ He) in Hsite. eapply turn_selected_must; [done..| | |exact Ht].
  - destruct He as [? ? ? ? ?]. split; cbn; [done|done| |done|done]. by rewrite set_lanes_length.
  - unfold must_inv in *. rewrite Hst in Hi. destruct Hi as [(m & Hm & Ha) _]. cbn.
    exists m. split; [done|]. apply agrees_set_lanes; [done|]. intros x Hx.
    eapply Hres; [by eapply list_elem_of_lookup_2|by apply Hl].
Qed.

Lemma driven_must ms e e' :
  must_solution sh ms → shape_ok sh → results_not_must → kernel_inv sh e → must_inv ms e →
  driven e e' → must_inv ms e'.
Proof.
  intros Hms Hsh Hres He Hi (c & a & Hrun & Hc). destruct c as [|i|op|c|op|]; cbn in Hrun; try done.
  - done_inv. match goal with H : turn _ = _ |- _ => unfold turn in H end. done_inv.
    destruct (transitions _) as [|? [|]]; done_inv. by eapply turn_selected_must.
  - done_inv. by eapply turn_selected_must.
  - done_inv. match goal with H : wake _ _ = _ |- _ => unfold wake in H end. done_inv.
    unfold must_inv in Hi. destruct (status _); try done. case_match; done_inv. apply Hi.
  - done_inv. by eapply commit_must.
  - destruct Hc as [op Hw]. done_inv.
    match goal with H : request_cancellation _ = _ |- _ => unfold request_cancellation in H end.
    done_inv. unfold must_inv in Hi. rewrite (ki_cancellation _ _ He), Hw in *.
    destruct (shape_cancellation sh) as [c|] eqn:Hcan; cbn in *; [|done].
    rewrite bool_decide_eq_false_2, andb_false_r in * by done. done_inv.
    destruct Hi as [_ Hi]. by apply Hi.
Qed.

Lemma new_must ms e : new sh = Done e → must_solution sh ms → must_inv ms e.
Proof.
  unfold new. intros ([] & _ & H)%outcome_bind_Done Hms. injection H as <-. unfold must_inv. cbn.
  eapply reached_held; [by apply ms_entry|]. intros i v b Hi Hv Hb.
  unfold is_must, must_lanes, entry_mask in *.
  apply list_lookup_fmap_Some in Hi as (lane & Hi & Hlane).
  apply list_lookup_fmap_Some in Hv as (lane' & -> & Hlane').
  apply list_lookup_fmap_Some in Hb as (lane'' & -> & Hlane'').
  simplify_eq. rewrite <- Hi. by destruct (initially_initialized _).
Qed.
End must.

(** C28: A validated shape discharges its must-consume lanes, under two
    conditions: no operation of the shape delivers a result in a must lane,
    and the execution is driven only by calls that succeed and are turns,
    wake-ups, commits, or cancellations of a waiting execution (no abort).
    Then an execution that has completed holds a live must lane exactly for each must
    lane among its declared results, and none at all when it completed in the
    cleanup state; an execution that has propagated an error holds none. *)
Theorem must_lanes_discharged (sh : TypedExecutionShape) (e0 e : TypedExecution) :
  new sh = Done e0 → results_not_must sh → rtc driven e0 e →
  (status e = KernelStatus.Complete → ∀ i, is_must sh i →
     initialized e !! i = Some true ↔
     is_cleanup sh (state e) = false ∧ ∃ r, r ∈ shape_result_lanes sh ∧ N.to_nat r = i) ∧
  (status e = KernelStatus.PropagatedError → ∀ i, is_must sh i →
     initialized e !! i = Some false).
Proof.
  intros Hnew Hres Hr. destruct (new_inv _ _ Hnew) as (Hv & Hsh & He0).
  destruct (validate_ok sh Hv) as [_ Hsol].
  destruct (existsb (λ must, must) (must_lanes sh)) eqn:Hany.
  2:{ assert (∀ i, ¬ is_must sh i) as Hno.
      { intros i Hi. by specialize (proj1 (existsb_false_elem _ _) Hany true
          ltac:(by eapply list_elem_of_lookup_2)). }
      split; intros _ i Hi; by destruct (Hno i). }
  destruct (Hsol eq_refl) as [ms Hms]. pose proof (new_must sh ms e0 Hnew Hms) as Hm0.
  assert (kernel_inv sh e ∧ must_inv sh ms e) as [He Hm].
  { clear Hnew. induction Hr as [|e1 e2 e3 H12 _ IH]; [done|].
    apply IH; [|by eapply driven_must]. destruct H12 as (c & a & Hrun & _).
    eapply called_inv; [done..|]. by exists c, (Done a). }
  unfold must_inv in Hm. split; intros Hst; rewrite Hst in Hm; [done|]. intros i Hi.
  assert (i < length (shape_frame sh)) as Hlt.
  { apply lookup_lt_Some in Hi. unfold must_lanes in Hi. by rewrite length_map in Hi. }
  destruct (lookup_lt_is_Some_2 (initialized e) i) as [[|] Hb]; [|by destruct (Hm i)|done].
  rewrite (ki_lanes _ _ He). done.
Qed.

(** ** Sample shapes *)

Definition sample_lane (id : N) (own : LaneOwnership.t) (init : bool) : FrameLane :=
  {| lane_id := id; lane_ty := Footprint.Tuple []; lane_ownership := own;
     initially_initialized := init |}.

Definition sample_site (id : N) (kind : ExecutionOperation) (results : list FrameLaneId)
    (queue : option QueueShapeId) : OperationSite :=
  {| site_id := id; site_kind := kind; site_input_lanes := []; site_result_lanes := results;
     site_pending_move_lanes := []; site_fallback_state := None; site_queue := queue;
     site_arms := [] |}.

Definition sample_state (id : N) (actions : list LaneAction) (o : ExecutionOutcome.t)
    : ExecutionState :=
  {| state_id := id;
     transitions := [{| tr_condition := Always; tr_actions := actions; tr_outcome := o |}] |}.

Definition sample_queue (id : N) (capacity : QueueCapacity) : QueueShape :=
  {| queue_id := id; queue_capacity := capacity; payload_layout_fingerprint := [];
     queue_ownership := Inline |}.

(** Waits for a message, then hands its must lane over as the result. *)
Definition receiver_shape : TypedExecutionShape :=
  {| shape_id := 0; shape_mode := Normal; shape_entry := 0;
     shape_frame := [sample_lane 0 LaneOwnership.MustConsume true;
                     sample_lane 1 LaneOwnership.MustConsume false;
                     sample_lane 2 LaneOwnership.Copy false];
     shape_result_lanes := [1%N];
     shape_states := [sample_state 0 [] (ExecutionOutcome.Blocked 0 1);
                      sample_state 1 [Move 0 1] ExecutionOutcome.Complete;
                      sample_state 2 [] ExecutionOutcome.Trap];
     shape_operations := [sample_site 0 ChannelReceive [2%N] (Some 0%N);
                          sample_site 1 Cancellation [] None];
     shape_queues := [sample_queue 0 (Fixed 1)];
     shape_cancellation := Some {| cancel_operation := 1; cancel_state := 2 |} |}.

(** The execution [new] returns. *)
Definition started (sh : TypedExecutionShape) : TypedExecution :=
  {| shape := sh; state := shape_entry sh;
     initialized := map initially_initialized (shape_frame sh);
     status := KernelStatus.Ready;
     cancellation := (λ c, (cancel_operation c, cancel_state c)) <$> shape_cancellation sh |}.

Lemma kernel_never_panics_witness : ∃ e',
  (∃ a, run_call (CallCommit (OperationCommit.Ready 0))
          (fst (run_call CallTurn (started receiver_shape))) = (e', Done a)) ∨
  (∃ s, run_call (CallCommit (OperationCommit.Ready 0))
          (fst (run_call CallTurn (started receiver_shape))) = (e', Fail s) ∧
        s ∉ vanished_errors).
Proof.
  apply (kernel_never_panics receiver_shape (started receiver_shape)).
  - reflexivity.
  - apply rtc_once. exists CallTurn, (snd (run_call CallTurn (started receiver_shape))).
    reflexivity.
Defined.

Lemma wait_record_exclusive_witness : ∃ s,
  run_call (CallWake 1) (fst (run_call CallTurn (started receiver_shape))) =
  (fst (run_call CallTurn (started receiver_shape)), Fail s).
Proof. apply (wait_record_exclusive _ 0); [reflexivity|reflexivity|discriminate]. Defined.

Lemma terminal_absorbing_witness : ∃ o,
  run_call CallRequestCancellation (set_status KernelStatus.Complete (started receiver_shape)) =
  (set_status KernelStatus.Complete (started receiver_shape), o) ∧
  ∀ a, o = Done a → a = Requested false.
Proof. apply terminal_absorbing. reflexivity. Defined.

(** The execution of the receiver after its commit. *)
Definition receiver_done : TypedExecution :=
  fst (run_call (CallCommit (OperationCommit.Ready 0))
         (fst (run_call CallTurn (started receiver_shape)))).

Lemma must_lanes_discharged_witness :
  initialized receiver_done !! 1 = Some true ↔
  is_cleanup receiver_shape (state receiver_done) = false ∧
  ∃ r, r ∈ shape_result_lanes receiver_shape ∧ N.to_nat r = 1.
Proof.
  refine (proj1 (must_lanes_discharged receiver_shape (started receiver_shape) receiver_done
    _ _ _) _ _ _).
  - reflexivity.
  - intros op l Hop Hl Hm.
    assert (l = 2%N) as ->; [|discriminate Hm].
    cbn in Hop. repeat (apply elem_of_cons in Hop as [->|Hop]); cbn in Hl; set_solver.
  - eapply rtc_l; [|apply rtc_once].
    + exists CallTurn, (Turned (KernelTurn.Blocked 0)). split; [vm_compute; reflexivity|exact I].
    + exists (CallCommit (OperationCommit.Ready 0)), (Turned KernelTurn.Complete).
      split; [vm_compute; reflexivity|exact I].
  - reflexivity.
  - reflexivity.
Defined.

(** Hands its must lane over in its only turn; the cleanup state, which no
    blocked edge leads to, propagates an error. *)
Definition ready_cancel_shape : TypedExecutionShape :=
  {| shape_id := 0; shape_mode := Normal; shape_entry := 0;
     shape_frame := [sample_lane 0 LaneOwnership.MustConsume true;
                     sample_lane 1 LaneOwnership.MustConsume false];
     shape_result_lanes := [1%N];
     shape_states := [sample_state 0 [Move 0 1] ExecutionOutcome.Complete;
                      sample_state 1 [] ExecutionOutcome.PropagateError];
     shape_operations := [sample_site 0 Cancellation [] None];
     shape_queues := [];
     shape_cancellation := Some {| cancel_operation := 0; cancel_state := 1 |} |}.

(** Receives into a must lane and completes without using it. *)
Definition result_leak_shape : TypedExecutionShape :=
  {| shape_id := 0; shape_mode := Normal; shape_entry := 0;
     shape_frame := [sample_lane 0 LaneOwnership.MustConsume false];
     shape_result_lanes := [];
     shape_states := [sample_state 0 [] (ExecutionOutcome.Blocked 0 1);
                      sample_state 1 [] ExecutionOutcome.Complete];
     shape_operations := [sample_site 0 ChannelReceive [0%N] (Some 0%N)];
     shape_queues := [sample_queue 0 (Fixed 1)];
     shape_cancellation := None |}.

(** Outside that discipline the analysis does not speak about the run: there
    is an accepted shape whose execution, cancelled while ready, propagates
    an error with a live must lane, and an accepted shape whose execution
    completes with a live must lane that an operation result filled and that
    is not a result of the execution. *)
Theorem must_analysis_gaps :
  (∃ sh e0 e1 e2, new sh = Done e0 ∧
     run_call CallRequestCancellation e0 = (e1, Done (Requested true)) ∧
     run_call CallTurn e1 = (e2, Done (Turned KernelTurn.PropagatedError)) ∧
     live_must sh e2 0) ∧
  (∃ sh e0 e1 e2, new sh = Done e0 ∧
     run_call CallTurn e0 = (e1, Done (Turned (KernelTurn.Blocked 0))) ∧
     run_call (CallCommit (OperationCommit.Ready 0)) e1 =
       (e2, Done (Turned KernelTurn.Complete)) ∧
     live_must sh e2 0 ∧ shape_result_lanes sh = []).
Proof.
  split.
  - exists ready_cancel_shape, (started ready_cancel_shape). eexists _, _. by split_and!.
  - exists result_leak_shape, (started result_leak_shape). eexists _, _. by split_and!.
Qed.
