(* ===== verification/Queue.v ===== *)
(** * Queue: one typed queue and its waiters

    Models [TypedQueue] of [crates/witchy-interp/src/typed_queue.rs]: a
    channel of opaque payload identities with a rendezvous, fixed or dynamic
    capacity, its blocked senders and receivers, cancellation of one
    registration and close.  Registrations carry a [u64] sequence number. *)

From S2P Require Import Prelude Execution.

Local Open Scope string_scope.

Abbreviation QueuePayload := N.

Record QueueWait : Set := {
  wait_execution : N;
  wait_operation : OperationSiteId;
  wait_generation : N;
  wait_arm : option N;
}.

#[export] Instance queue_wait_eq_dec : EqDecision QueueWait.
Proof. solve_decision. Defined.

Module QueueSend.
Inductive t : Set :=
  | Committed (receiver : option QueueWait)
  | Blocked
  | Closed.
End QueueSend.

Module QueueReceive.
Inductive t : Set :=
  | Payload (payload : QueuePayload) (sender : option QueueWait)
  | Blocked
  | Closed.
End QueueReceive.

#[export] Instance queue_send_eq_dec : EqDecision QueueSend.t.
Proof. solve_decision. Defined.
#[export] Instance queue_receive_eq_dec : EqDecision QueueReceive.t.
Proof. solve_decision. Defined.

Module QueueCloseWake.
Inductive t : Set :=
  | Send (wait : QueueWait) (payload : QueuePayload)
  | Receive (wait : QueueWait).
End QueueCloseWake.

Record PendingSend : Set := {
  ps_wait : QueueWait;
  ps_payload : QueuePayload;
  ps_sequence : N;
}.

Record PendingReceive : Set := {
  pr_wait : QueueWait;
  pr_sequence : N;
}.

Record TypedQueue : Set := {
  q_shape : QueueShape;
  q_payloads : list QueuePayload;
  q_send_waiters : list PendingSend;
  q_receive_waiters : list PendingReceive;
  q_next_wait_sequence : N;
  q_closed : bool;
}.

Definition new_queue (sh : QueueShape) : TypedQueue :=
  {| q_shape := sh; q_payloads := []; q_send_waiters := []; q_receive_waiters := [];
     q_next_wait_sequence := 0; q_closed := false |}.

Definition set_payloads (l : list QueuePayload) (q : TypedQueue) : TypedQueue :=
  {| q_shape := q_shape q; q_payloads := l; q_send_waiters := q_send_waiters q;
     q_receive_waiters := q_receive_waiters q; q_next_wait_sequence := q_next_wait_sequence q;
     q_closed := q_closed q |}.
Definition set_send_waiters (l : list PendingSend) (q : TypedQueue) : TypedQueue :=
  {| q_shape := q_shape q; q_payloads := q_payloads q; q_send_waiters := l;
     q_receive_waiters := q_receive_waiters q; q_next_wait_sequence := q_next_wait_sequence q;
     q_closed := q_closed q |}.
Definition set_receive_waiters (l : list PendingReceive) (q : TypedQueue) : TypedQueue :=
  {| q_shape := q_shape q; q_payloads := q_payloads q; q_send_waiters := q_send_waiters q;
     q_receive_waiters := l; q_next_wait_sequence := q_next_wait_sequence q;
     q_closed := q_closed q |}.
Definition set_next_wait_sequence (n : N) (q : TypedQueue) : TypedQueue :=
  {| q_shape := q_shape q; q_payloads := q_payloads q; q_send_waiters := q_send_waiters q;
     q_receive_waiters := q_receive_waiters q; q_next_wait_sequence := n;
     q_closed := q_closed q |}.
Definition set_closed (b : bool) (q : TypedQueue) : TypedQueue :=
  {| q_shape := q_shape q; q_payloads := q_payloads q; q_send_waiters := q_send_waiters q;
     q_receive_waiters := q_receive_waiters q; q_next_wait_sequence := q_next_wait_sequence q;
     q_closed := b |}.

Definition has_buffer_capacity (q : TypedQueue) : bool :=
  match queue_capacity (q_shape q) with
  | Rendezvous => false
  | Fixed capacity => (N.of_nat (length (q_payloads q)) <? capacity)%N
  | Dynamic => true
  end.

Definition send (payload : QueuePayload) : M TypedQueue QueueSend.t :=
  q ← get;
  if q_closed q then mret QueueSend.Closed
  else match q_receive_waiters q with
       | receiver :: rest =>
           modify (set_receive_waiters rest);;
           mret (QueueSend.Committed (Some (pr_wait receiver)))
       | [] =>
           if has_buffer_capacity q then
             modify (set_payloads (q_payloads q ++ [payload])%list);;
             mret (QueueSend.Committed None)
           else mret QueueSend.Blocked
       end.

Definition reject_duplicate (wait : QueueWait) : M TypedQueue unit :=
  q ← get;
  throw_if (existsb (λ p, bool_decide (ps_wait p = wait)) (q_send_waiters q)
            || existsb (λ p, bool_decide (pr_wait p = wait)) (q_receive_waiters q))
    "execution already has this queue wait registration".

Definition reserve_wait_sequence : M TypedQueue N :=
  q ← get;
  next ← some_or (checked_add u64_max (q_next_wait_sequence q) 1)
           "typed queue wait sequence overflow";
  modify (set_next_wait_sequence next);;
  mret (q_next_wait_sequence q).

Definition register_send (wait : QueueWait) (payload : QueuePayload)
    : M TypedQueue QueueSend.t :=
  reject_duplicate wait;;
  result ← send payload;
  (if bool_decide (result = QueueSend.Blocked) then
     sequence ← reserve_wait_sequence;
     modify (λ q, set_send_waiters (q_send_waiters q ++
       [{| ps_wait := wait; ps_payload := payload; ps_sequence := sequence |}])%list q)
   else mret tt);;
  mret result.

Definition promote_one_sender : M TypedQueue (option QueueWait) :=
  q ← get;
  if negb (has_buffer_capacity q) then mret None
  else match q_send_waiters q with
       | [] => mret None
       | sender :: rest =>
           modify (set_send_waiters rest);;
           modify (λ q, set_payloads (q_payloads q ++ [ps_payload sender])%list q);;
           mret (Some (ps_wait sender))
       end.

Definition receive : M TypedQueue QueueReceive.t :=
  q ← get;
  match q_payloads q with
  | payload :: rest =>
      modify (set_payloads rest);;
      sender ← promote_one_sender;
      mret (QueueReceive.Payload payload sender)
  | [] =>
      match q_send_waiters q with
      | sender :: rest =>
          modify (set_send_waiters rest);;
          mret (QueueReceive.Payload (ps_payload sender) (Some (ps_wait sender)))
      | [] => mret (if q_closed q then QueueReceive.Closed else QueueReceive.Blocked)
      end
  end.

Definition register_receive (wait : QueueWait) : M TypedQueue QueueReceive.t :=
  reject_duplicate wait;;
  result ← receive;
  (if bool_decide (result = QueueReceive.Blocked) then
     sequence ← reserve_wait_sequence;
     modify (λ q, set_receive_waiters (q_receive_waiters q ++
       [{| pr_wait := wait; pr_sequence := sequence |}])%list q)
   else mret tt);;
  mret result.

(** [iter().position(p)] followed by [remove(index)]: drops the first element
    with the property, if there is one. *)
Fixpoint remove_first {A} (p : A → bool) (l : list A) : option (list A) :=
  match l with
  | [] => None
  | x :: l => if p x then Some l else cons x <$> remove_first p l
  end.

Definition cancel (wait : QueueWait) : M TypedQueue bool :=
  q ← get;
  match remove_first (λ p, bool_decide (ps_wait p = wait)) (q_send_waiters q) with
  | Some rest => modify (set_send_waiters rest);; mret true
  | None =>
      match remove_first (λ p, bool_decide (pr_wait p = wait)) (q_receive_waiters q) with
      | Some rest => modify (set_receive_waiters rest);; mret true
      | None => mret false
      end
  end.

Definition close : M TypedQueue (list QueueCloseWake.t) :=
  q ← get;
  if q_closed q then mret []
  else
    modify (set_closed true);;
    let wakes :=
      (map (λ s, (ps_sequence s, QueueCloseWake.Send (ps_wait s) (ps_payload s)))
         (q_send_waiters q) ++
       map (λ r, (pr_sequence r, QueueCloseWake.Receive (pr_wait r))) (q_receive_waiters q))%list in
    modify (set_send_waiters []);;
    modify (set_receive_waiters []);;
    mret (map snd (sort_by_key fst wakes)).

(** ** Every call on a queue, and what has happened to the payloads *)

Inductive queue_call : Set :=
  | CallSend (payload : QueuePayload)
  | CallRegisterSend (wait : QueueWait) (payload : QueuePayload)
  | CallReceive
  | CallRegisterReceive (wait : QueueWait)
  | CallCancel (wait : QueueWait)
  | CallClose.

Inductive queue_answer : Set :=
  | Sent (s : QueueSend.t)
  | Received (r : QueueReceive.t)
  | Cancelled (b : bool)
  | Woken (wakes : list QueueCloseWake.t).

Definition run_queue (c : queue_call) : M TypedQueue queue_answer :=
  match c with
  | CallSend p => r ← send p; mret (Sent r)
  | CallRegisterSend w p => r ← register_send w p; mret (Sent r)
  | CallReceive => r ← receive; mret (Received r)
  | CallRegisterReceive w => r ← register_receive w; mret (Received r)
  | CallCancel w => b ← cancel w; mret (Cancelled b)
  | CallClose => wakes ← close; mret (Woken wakes)
  end.

(** The payloads a queue has taken, in order; those it has handed to a
    receiver, in order; those it has given back to their senders. *)
Record history : Set := {
  accepted : list QueuePayload;
  delivered : list QueuePayload;
  returned : list QueuePayload;
}.

Local Close Scope string_scope.

Definition accept (p : QueuePayload) (h : history) : history :=
  {| accepted := accepted h ++ [p]; delivered := delivered h; returned := returned h |}.
Definition deliver (p : QueuePayload) (h : history) : history :=
  {| accepted := accepted h; delivered := delivered h ++ [p]; returned := returned h |}.
Definition withdraw (ps : list QueuePayload) (h : history) : history :=
  {| accepted := accepted h; delivered := delivered h; returned := returned h ++ ps |}.

Definition wake_payload (w : QueueCloseWake.t) : option QueuePayload :=
  match w with QueueCloseWake.Send _ p => Some p | QueueCloseWake.Receive _ => None end.

(** The payload a sender registered under [w] is waiting with. *)
Definition waiting_payload (w : QueueWait) (q : TypedQueue) : list QueuePayload :=
  match List.find (λ p, bool_decide (ps_wait p = w)) (q_send_waiters q) with
  | Some p => [ps_payload p]
  | None => []
  end.

Definition note (q : TypedQueue) (c : queue_call) (o : outcome queue_answer) (h : history)
    : history :=
  match c, o with
  | CallSend p, Done (Sent (QueueSend.Committed r))
  | CallRegisterSend _ p, Done (Sent (QueueSend.Committed r)) =>
      match r with Some _ => deliver p (accept p h) | None => accept p h end
  | CallRegisterSend _ p, Done (Sent QueueSend.Blocked) => accept p h
  | CallReceive, Done (Received (QueueReceive.Payload p _))
  | CallRegisterReceive _, Done (Received (QueueReceive.Payload p _)) => deliver p h
  | CallCancel w, Done (Cancelled true) => withdraw (waiting_payload w q) h
  | CallClose, Done (Woken wakes) => withdraw (omap wake_payload wakes) h
  | _, _ => h
  end.

Definition queue_step (s s' : TypedQueue * history) : Prop :=
  ∃ c o, run_queue c (fst s) = (fst s', o) ∧ snd s' = note (fst s) c o (snd s).

Definition empty_history : history := {| accepted := []; delivered := []; returned := [] |}.

(** * Lemmas *)

Definition waits (q : TypedQueue) : list QueueWait :=
  map ps_wait (q_send_waiters q) ++ map pr_wait (q_receive_waiters q).

Record queue_ok (q : TypedQueue) : Prop := {
  qok_capacity : match queue_capacity (q_shape q) with
    | Rendezvous => q_payloads q = []
    | Fixed c => N.of_nat (length (q_payloads q)) ≤ c
    | Dynamic => q_send_waiters q = []
    end%N;
  qok_senders : q_send_waiters q ≠ [] → has_buffer_capacity q = false;
  qok_receivers : q_receive_waiters q ≠ [] → q_payloads q = [] ∧ q_send_waiters q = [];
  qok_closed : q_closed q = true → q_send_waiters q = [] ∧ q_receive_waiters q = [];
  qok_send_order : StronglySorted (λ x y, ps_sequence x ≤ ps_sequence y)%N (q_send_waiters q);
  qok_receive_order :
    StronglySorted (λ x y, pr_sequence x ≤ pr_sequence y)%N (q_receive_waiters q);
  qok_send_next : ∀ p, p ∈ q_send_waiters q → (ps_sequence p < q_next_wait_sequence q)%N;
  qok_receive_next : ∀ p, p ∈ q_receive_waiters q → (pr_sequence p < q_next_wait_sequence q)%N;
  qok_waits : NoDup (waits q);
}.

(** What [send] does, by the state of the queue. *)
Lemma send_cases q p :
  (q_closed q = true ∧ send p q = (q, Done QueueSend.Closed)) ∨
  (q_closed q = false ∧ ∃ r rest, q_receive_waiters q = r :: rest ∧
     send p q = (set_receive_waiters rest q, Done (QueueSend.Committed (Some (pr_wait r))))) ∨
  (q_closed q = false ∧ q_receive_waiters q = [] ∧ has_buffer_capacity q = true ∧
     send p q = (set_payloads (q_payloads q ++ [p]) q, Done (QueueSend.Committed None))) ∨
  (q_closed q = false ∧ q_receive_waiters q = [] ∧ has_buffer_capacity q = false ∧
     send p q = (q, Done QueueSend.Blocked)).
Proof.
  unfold send, mbind, M_bind, get, modify. destruct (q_closed q); [by left|right].
  destruct (q_receive_waiters q) as [|r rest]; [right|left; eauto 6].
  destruct (has_buffer_capacity q); [by left|by right].
Qed.

(** A queue with a blocked sender has no room, and then room for one after a
    payload is taken. *)
Lemma capacity_after_pop q p rest :
  queue_ok q → q_send_waiters q ≠ [] → q_payloads q = p :: rest →
  has_buffer_capacity (set_payloads rest q) = true.
Proof.
  intros Hok Hs Hp. pose proof (qok_capacity _ Hok) as Hc. pose proof (qok_senders _ Hok Hs) as Hn.
  unfold has_buffer_capacity in *. cbn. rewrite Hp in *. destruct (queue_capacity _); [done| |done].
  apply N.ltb_lt. cbn in Hc. lia.
Qed.

Lemma receive_cases q :
  queue_ok q →
  (∃ p rest, q_payloads q = p :: rest ∧ q_send_waiters q = [] ∧
     receive q = (set_payloads rest q, Done (QueueReceive.Payload p None))) ∨
  (∃ p rest s ss, q_payloads q = p :: rest ∧ q_send_waiters q = s :: ss ∧
     receive q = (set_payloads (rest ++ [ps_payload s]) (set_send_waiters ss q),
                  Done (QueueReceive.Payload p (Some (ps_wait s))))) ∨
  (∃ s ss, q_payloads q = [] ∧ q_send_waiters q = s :: ss ∧
     receive q = (set_send_waiters ss q,
                  Done (QueueReceive.Payload (ps_payload s) (Some (ps_wait s))))) ∨
  (q_payloads q = [] ∧ q_send_waiters q = [] ∧
     receive q = (q, Done (if q_closed q then QueueReceive.Closed else QueueReceive.Blocked))).
Proof.
  intros Hok. unfold receive, promote_one_sender, mbind, M_bind, get, modify.
  destruct (q_payloads q) as [|p rest] eqn:Hp, (q_send_waiters q) as [|s ss] eqn:Hs; cbn.
  - do 3 right. done.
  - right; right; left. eauto 8.
  - left. exists p, rest. rewrite Hs. split_and!; [done..|]. by destruct (has_buffer_capacity _).
  - right; left. exists p, rest, s, ss. rewrite Hs.
    rewrite (capacity_after_pop q p rest) by (by rewrite ?Hs). by split_and!.
Qed.

Lemma new_queue_ok sh : queue_ok (new_queue sh).
Proof.
  split; cbn; try done; try constructor; try (intros ? ?; set_solver).
  destruct (queue_capacity sh); [done|lia|done].
Qed.

Lemma elem_of_sublist {A} (l k : list A) x : l `sublist_of` k → x ∈ l → x ∈ k.
Proof. induction 1; set_solver. Qed.

Lemma map_sublist {A B} (f : A → B) (l k : list A) :
  l `sublist_of` k → map f l `sublist_of` map f k.
Proof. induction 1; cbn; by constructor. Qed.

Lemma sorted_sublist {A} (R : A → A → Prop) (l k : list A) :
  l `sublist_of` k → StronglySorted R k → StronglySorted R l.
Proof.
  induction 1 as [|x l k Hs IH|x l k Hs IH]; intros Hk; [done| |];
    apply StronglySorted_inv in Hk as [Hk Hx]; [|auto].
  constructor; [auto|]. rewrite list.Forall_forall in Hx |- *. eauto using elem_of_sublist.
Qed.

Lemma NoDup_sublist {A} (l k : list A) : l `sublist_of` k → NoDup k → NoDup l.
Proof.
  induction 1 as [|x l k Hs IH|x l k Hs IH]; intros Hk; [done| |];
    apply list.NoDup_cons in Hk as [Hx Hk]; [|auto].
  apply list.NoDup_cons. split; [|auto]. eauto using elem_of_sublist.
Qed.

(** Forgetting receivers keeps the invariant. *)
Lemma queue_ok_receivers q l :
  queue_ok q → l `sublist_of` q_receive_waiters q → queue_ok (set_receive_waiters l q).
Proof.
  intros [] Hs. split; cbn; try done.
  - intros Hl. apply qok_receivers0. intros Hn. rewrite Hn in Hs. by apply sublist_nil_r in Hs.
  - intros Hc. destruct (qok_closed0 Hc) as [-> Hr]. split; [done|].
    rewrite Hr in Hs. by apply sublist_nil_r in Hs.
  - by eapply sorted_sublist.
  - eauto using elem_of_sublist.
  - eapply NoDup_sublist; [|done]. unfold waits. cbn. apply sublist_app; [done|].
    by apply map_sublist.
Qed.

(** Forgetting senders keeps the invariant. *)
Lemma queue_ok_senders q l :
  queue_ok q → l `sublist_of` q_send_waiters q → queue_ok (set_send_waiters l q).
Proof.
  intros [] Hs. assert (q_send_waiters q = [] → l = []) as Hnil.
  { intros Hn. rewrite Hn in Hs. by apply sublist_nil_r in Hs. }
  split; cbn; try done.
  - destruct (queue_capacity (q_shape q)); auto.
  - intros Hl. apply qok_senders0. auto.
  - intros Hr. destruct (qok_receivers0 Hr). auto.
  - intros Hc. destruct (qok_closed0 Hc). auto.
  - by eapply sorted_sublist.
  - eauto using elem_of_sublist.
  - eapply NoDup_sublist; [|done]. unfold waits. cbn. apply sublist_app; [|done].
    by apply map_sublist.
Qed.

(** A buffer that changes keeps the invariant when it fits, leaves blocked
    senders blocked and no receiver waits. *)
Lemma queue_ok_payloads q l :
  queue_ok q → q_receive_waiters q = [] →
  match queue_capacity (q_shape q) with
  | Rendezvous => l = [] | Fixed c => N.of_nat (length l) ≤ c | Dynamic => True end%N →
  (q_send_waiters q ≠ [] → has_buffer_capacity (set_payloads l q) = false) →
  queue_ok (set_payloads l q).
Proof.
  intros [] Hr Hl Hs. split; cbn; try done.
  destruct (queue_capacity (q_shape q)); done.
Qed.

Lemma queue_ok_push q p :
  queue_ok q → q_receive_waiters q = [] → has_buffer_capacity q = true →
  queue_ok (set_payloads (q_payloads q ++ [p]) q).
Proof.
  intros Hok Hr Hc. apply queue_ok_payloads; [done..| |].
  - unfold has_buffer_capacity in Hc. destruct (queue_capacity _); try done.
    apply N.ltb_lt in Hc. rewrite length_app. cbn. lia.
  - intros Hs. by rewrite (qok_senders _ Hok Hs) in Hc.
Qed.

Lemma queue_ok_pop q p rest :
  queue_ok q → q_payloads q = p :: rest → q_send_waiters q = [] → queue_ok (set_payloads rest q).
Proof.
  intros Hok Hp Hs. apply queue_ok_payloads; [done| | |by rewrite Hs].
  - destruct (q_receive_waiters q) as [|r l] eqn:Hr; [done|].
    destruct (qok_receivers _ Hok) as [Hn _]; by rewrite ?Hr, ?Hn in *.
  - pose proof (qok_capacity _ Hok) as Hc. rewrite Hp in Hc.
    destruct (queue_capacity _); [done|cbn in Hc; lia|done].
Qed.

Lemma queue_ok_promote q p rest s ss :
  queue_ok q → q_payloads q = p :: rest → q_send_waiters q = s :: ss →
  queue_ok (set_payloads (rest ++ [ps_payload s]) (set_send_waiters ss q)).
Proof.
  intros Hok Hp Hs.
  assert (queue_ok (set_send_waiters ss q)) as Hok'.
  { apply queue_ok_senders; [done|]. rewrite Hs. by constructor. }
  pose proof (qok_senders _ Hok) as Hf. rewrite Hs in Hf. specialize (Hf ltac:(done)).
  pose proof (qok_capacity _ Hok) as Hc. unfold has_buffer_capacity in Hf. rewrite Hp in Hc, Hf.
  apply queue_ok_payloads; [done| | |]; cbn.
  - destruct (q_receive_waiters q) as [|r l] eqn:Hr; [done|].
    destruct (qok_receivers _ Hok) as [Hn _]; by rewrite ?Hr, ?Hn in *.
  - destruct (queue_capacity _); [done| |done]. rewrite length_app. cbn in *. lia.
  - intros _. unfold has_buffer_capacity. cbn.
    destruct (queue_capacity _); [done| |done]. rewrite length_app. cbn in *.
    apply N.ltb_ge. apply N.ltb_ge in Hf. lia.
Qed.

(** A queue with one more blocked sender, or receiver. *)
Definition add_sender (w : QueueWait) (p : QueuePayload) (q : TypedQueue) : TypedQueue :=
  set_send_waiters (q_send_waiters q ++
    [{| ps_wait := w; ps_payload := p; ps_sequence := q_next_wait_sequence q |}])
    (set_next_wait_sequence (q_next_wait_sequence q + 1) q).
Definition add_receiver (w : QueueWait) (q : TypedQueue) : TypedQueue :=
  set_receive_waiters (q_receive_waiters q ++
    [{| pr_wait := w; pr_sequence := q_next_wait_sequence q |}])
    (set_next_wait_sequence (q_next_wait_sequence q + 1) q).

Lemma existsb_wait {A} (f : A → QueueWait) (w : QueueWait) (l : list A) :
  existsb (λ p, bool_decide (f p = w)) l = bool_decide (w ∈ map f l).
Proof.
  apply eq_true_iff_eq. rewrite existsb_exists, bool_decide_eq_true, list_elem_of_fmap. split.
  - intros (x & Hx & Hw%bool_decide_eq_true). exists x. by rewrite list_elem_of_In.
  - intros (x & -> & Hx). exists x. rewrite <- list_elem_of_In. by rewrite bool_decide_eq_true.
Qed.

Lemma reject_duplicate_cases w q :
  (w ∈ waits q ∧ ∃ e, reject_duplicate w q = (q, Fail e)) ∨
  (w ∉ waits q ∧ reject_duplicate w q = (q, Done tt)).
Proof.
  unfold reject_duplicate, mbind, M_bind, get, throw_if. rewrite !existsb_wait.
  unfold waits. rewrite elem_of_app. repeat case_bool_decide; cbn; [left..|right];
    (split; [tauto|]); [by eexists..|done].
Qed.

Lemma register_send_cases w p q :
  (∃ e, register_send w p q = (q, Fail e)) ∨
  (∃ q' r, send p q = (q', Done r) ∧ r ≠ QueueSend.Blocked ∧
     register_send w p q = (q', Done r)) ∨
  (w ∉ waits q ∧ send p q = (q, Done QueueSend.Blocked) ∧ (q_next_wait_sequence q < u64_max)%N ∧
     register_send w p q = (add_sender w p q, Done QueueSend.Blocked)).
Proof.
  unfold register_send, mbind, M_bind.
  destruct (reject_duplicate_cases w q) as [(_ & e & ->)|[Hw ->]]; [left; eauto|].
  destruct (send_cases q p) as [(_ & Hs)|[(_ & r & rest & _ & Hs)|[(_ & _ & _ & Hs)|(_ & _ & _ & Hs)]]];
    rewrite Hs; cbn; [by right; left; eauto 6..|].
  rewrite bool_decide_eq_true_2 by done. unfold reserve_wait_sequence, mbind, M_bind, get, some_or.
  destruct (checked_add u64_max (q_next_wait_sequence q) 1) as [n|] eqn:Hn; [|left; eexists; reflexivity].
  apply checked_add_Some in Hn as [-> Hn]. right; right. split_and!; [done..|lia|done].
Qed.

Lemma register_receive_cases w q :
  queue_ok q →
  (∃ e, register_receive w q = (q, Fail e)) ∨
  (∃ q' r, receive q = (q', Done r) ∧ r ≠ QueueReceive.Blocked ∧
     register_receive w q = (q', Done r)) ∨
  (w ∉ waits q ∧ receive q = (q, Done QueueReceive.Blocked) ∧
     q_payloads q = [] ∧ q_send_waiters q = [] ∧ q_closed q = false ∧
     register_receive w q = (add_receiver w q, Done QueueReceive.Blocked)).
Proof.
  intros Hok. unfold register_receive, mbind, M_bind.
  destruct (reject_duplicate_cases w q) as [(_ & e & ->)|[Hw ->]]; [left; eauto|].
  destruct (receive_cases q Hok)
    as [(p & rest & _ & _ & Hr)|[(p & rest & s & ss & _ & _ & Hr)|[(s & ss & _ & _ & Hr)|(Hp & Hs & Hr)]]];
    rewrite Hr; cbn; [by right; left; eauto 6..|].
  destruct (q_closed q) eqn:Hc; cbn; [by right; left; eauto 6|].
  rewrite bool_decide_eq_true_2 by done. unfold reserve_wait_sequence, mbind, M_bind, get, some_or.
  destruct (checked_add u64_max (q_next_wait_sequence q) 1) as [n|] eqn:Hn; [|left; eexists; reflexivity].
  apply checked_add_Some in Hn as [-> Hn]. right; right. by split_and!.
Qed.

Lemma sorted_snoc {A} (f : A → N) (l : list A) x :
  StronglySorted (λ a b, f a ≤ f b)%N l → (∀ y, y ∈ l → (f y ≤ f x)%N) →
  StronglySorted (λ a b, f a ≤ f b)%N (l ++ [x]).
Proof.
  induction 1 as [|y l _ IH Hy]; intros Hx; cbn; [by repeat constructor|].
  constructor; [apply IH; intros; apply Hx; set_solver|].
  rewrite list.Forall_forall in Hy |- *. intros z [Hz| ->%list_elem_of_singleton]%elem_of_app.
  - auto.
  - apply Hx. set_solver.
Qed.

Lemma queue_ok_add_sender w p q :
  queue_ok q → w ∉ waits q → q_closed q = false → q_receive_waiters q = [] →
  has_buffer_capacity q = false → queue_ok (add_sender w p q).
Proof.
  intros [] Hw Hc Hr Hcap. split; cbn; try done.
  - unfold has_buffer_capacity in Hcap. by destruct (queue_capacity (q_shape q)).
  - by rewrite Hc.
  - apply (sorted_snoc ps_sequence); [done|]. intros y Hy%qok_send_next0. cbn. lia.
  - intros x [Hx%qok_send_next0| ->%list_elem_of_singleton]%elem_of_app; cbn; lia.
  - rewrite Hr. set_solver.
  - unfold waits in *. cbn. rewrite Hr in *. cbn in *. rewrite app_nil_r in *. rewrite map_app.
    cbn. apply list.NoDup_app. split_and!; [done| |repeat constructor; set_solver].
    intros x Hx ->%list_elem_of_singleton. done.
Qed.

Lemma queue_ok_add_receiver w q :
  queue_ok q → w ∉ waits q → q_closed q = false → q_payloads q = [] → q_send_waiters q = [] →
  queue_ok (add_receiver w q).
Proof.
  intros [] Hw Hc Hp Hs. split; cbn; try done.
  - by rewrite Hc.
  - apply (sorted_snoc pr_sequence); [done|]. intros y Hy%qok_receive_next0. cbn. lia.
  - rewrite Hs. set_solver.
  - intros x [Hx%qok_receive_next0| ->%list_elem_of_singleton]%elem_of_app; cbn; lia.
  - unfold waits in *. cbn. rewrite Hs in *. cbn in *. rewrite map_app.
    cbn. apply list.NoDup_app. split_and!; [done| |repeat constructor; set_solver].
    intros x Hx ->%list_elem_of_singleton. done.
Qed.

Lemma filter_all {A} (P : A → Prop) `{∀ x, Decision (P x)} (l : list A) :
  (∀ x, x ∈ l → P x) → filter P l = l.
Proof.
  induction l as [|x l IH]; intros H0; [done|]. rewrite filter_cons_True by (apply H0; set_solver).
  f_equal. apply IH. set_solver.
Qed.

Lemma remove_first_filter {A} (f : A → QueueWait) (w : QueueWait) (l : list A) :
  NoDup (map f l) →
  remove_first (λ p, bool_decide (f p = w)) l =
  if bool_decide (w ∈ map f l) then Some (filter (λ p, f p ≠ w) l) else None.
Proof.
  induction l as [|x l IH]; cbn [map remove_first]; intros Hnd.
  { rewrite bool_decide_eq_false_2 by set_solver. done. }
  apply list.NoDup_cons in Hnd as [Hx Hnd]. rewrite IH by done.
  destruct (decide (f x = w)) as [<-|Hne].
  - rewrite (bool_decide_eq_true_2 (f x = f x)) by done.
    rewrite (bool_decide_eq_true_2 (f x ∈ f x :: map f l)) by set_solver.
    rewrite filter_cons_False by naive_solver. rewrite filter_all; [done|].
    intros y Hy Heq. apply Hx. rewrite <- Heq. apply list_elem_of_fmap. eauto.
  - rewrite (bool_decide_eq_false_2 (f x = w)) by done. rewrite filter_cons_True by done.
    case_bool_decide as Hin; [rewrite bool_decide_eq_true_2 by set_solver|
      rewrite bool_decide_eq_false_2 by set_solver]; done.
Qed.

(** A queue without the registration [w]. *)
Definition without (w : QueueWait) (q : TypedQueue) : TypedQueue :=
  set_receive_waiters (filter (λ p, pr_wait p ≠ w) (q_receive_waiters q))
    (set_send_waiters (filter (λ p, ps_wait p ≠ w) (q_send_waiters q)) q).

Lemma elem_of_map_ne {A B} (f : A → B) (l : list A) w : w ∉ map f l → ∀ x, x ∈ l → f x ≠ w.
Proof. intros Hn x Hx Heq. apply Hn. rewrite <- Heq. apply list_elem_of_fmap. eauto. Qed.

Lemma cancel_equation w q :
  queue_ok q → cancel w q = (without w q, Done (bool_decide (w ∈ waits q))).
Proof.
  intros Hok. pose proof (qok_waits _ Hok) as (Hs & Hd & Hr)%list.NoDup_app.
  unfold cancel, mbind, M_bind, get. rewrite !remove_first_filter by done.
  unfold without, waits. destruct (decide (w ∈ map ps_wait (q_send_waiters q))) as [Hw|Hw].
  - rewrite (bool_decide_eq_true_2 _ Hw). rewrite bool_decide_eq_true_2 by set_solver.
    rewrite (filter_all _ (q_receive_waiters q)); [by destruct q|].
    apply elem_of_map_ne. auto.
  - rewrite (bool_decide_eq_false_2 _ Hw). rewrite (filter_all _ (q_send_waiters q));
      [|by apply elem_of_map_ne].
    destruct (decide (w ∈ map pr_wait (q_receive_waiters q))) as [Hw'|Hw'].
    + rewrite (bool_decide_eq_true_2 _ Hw'). rewrite bool_decide_eq_true_2 by set_solver.
      by destruct q.
    + rewrite (bool_decide_eq_false_2 _ Hw'). rewrite bool_decide_eq_false_2 by set_solver.
      rewrite filter_all by (by apply elem_of_map_ne). by destruct q.
Qed.

Lemma filter_sublist {A} (P : A → Prop) `{∀ x, Decision (P x)} (l : list A) :
  filter P l `sublist_of` l.
Proof.
  induction l as [|x l IH]; [done|]. rewrite filter_cons. case_decide; by constructor.
Qed.

Lemma queue_ok_without w q : queue_ok q → queue_ok (without w q).
Proof.
  intros Hok. unfold without. apply queue_ok_receivers; [apply queue_ok_senders; [done|]|];
    apply filter_sublist.
Qed.

(** The wake-ups of a close, senders before receivers. *)
Definition wakes_of (q : TypedQueue) : list QueueCloseWake.t :=
  map (λ s, QueueCloseWake.Send (ps_wait s) (ps_payload s)) (q_send_waiters q) ++
  map (λ r, QueueCloseWake.Receive (pr_wait r)) (q_receive_waiters q).

Definition closed_queue (q : TypedQueue) : TypedQueue :=
  set_receive_waiters [] (set_send_waiters [] (set_closed true q)).

Lemma sorted_map {A B} (f : A → N) (g : B → N) (h : A → B) (l : list A) :
  (∀ x, g (h x) = f x) → StronglySorted (λ x y, f x ≤ f y)%N l →
  StronglySorted (λ x y, g x ≤ g y)%N (map h l).
Proof.
  intros Hgh. induction 1 as [|x l _ IH Hx]; cbn; constructor; [done|].
  rewrite list.Forall_forall in Hx. apply list.Forall_forall.
  intros ? (y & -> & Hy)%list_elem_of_fmap. rewrite !Hgh. auto.
Qed.

Lemma close_equation q :
  queue_ok q → q_closed q = false → close q = (closed_queue q, Done (wakes_of q)).
Proof.
  intros Hok Hc. unfold close, mbind, M_bind, get, modify. rewrite Hc. cbn.
  rewrite sort_by_key_sorted; [by rewrite map_app, !map_map|].
  pose proof (qok_receivers _ Hok) as Hr. destruct (q_receive_waiters q) as [|r rest] eqn:Hrw.
  - cbn. rewrite app_nil_r. eapply (sorted_map ps_sequence); [done|]. apply qok_send_order, Hok.
  - destruct Hr as [_ ->]; [done|]. rewrite <- Hrw. cbn.
    eapply (sorted_map pr_sequence); [done|]. apply qok_receive_order, Hok.
Qed.

Lemma queue_ok_closed q : queue_ok q → queue_ok (closed_queue q).
Proof.
  intros [] . split; cbn; try done; try constructor; try (intros ? ?; set_solver).
  by destruct (queue_capacity (q_shape q)).
Qed.

(** ** The payloads in flight *)

Definition in_flight (q : TypedQueue) : list QueuePayload :=
  q_payloads q ++ map ps_payload (q_send_waiters q).

(** The ways a call can move payloads. *)
Inductive effect : list QueuePayload → history → list QueuePayload → history → Prop :=
  | eff_none l h : effect l h l h
  | eff_accept l h p : effect l h (l ++ [p]) (accept p h)
  | eff_pass h p : effect [] h [] (deliver p (accept p h))
  | eff_deliver p l h : effect (p :: l) h l (deliver p h)
  | eff_withdraw l l' ps h : l' `sublist_of` l → l ≡ₚ l' ++ ps → effect l h l' (withdraw ps h).

Record history_ok (l : list QueuePayload) (h : history) : Prop := {
  hok_order : (delivered h ++ l) `sublist_of` accepted h;
  hok_conserved : accepted h ≡ₚ delivered h ++ l ++ returned h;
}.

Lemma effect_ok l h l' h' : effect l h l' h' → history_ok l h → history_ok l' h'.
Proof.
  intros [] [Ho Hc]; split; cbn; try done.
  - rewrite app_assoc. by apply sublist_app.
  - rewrite Hc. solve_Permutation.
  - rewrite !app_nil_r in *. by apply sublist_app.
  - rewrite Hc. solve_Permutation.
  - by rewrite <- app_assoc.
  - rewrite Hc. solve_Permutation.
  - etransitivity; [|exact Ho]. by apply sublist_app.
  - rewrite Hc. rewrite H0. solve_Permutation.
Qed.

Lemma map_filter_perm (w : QueueWait) (l : list PendingSend) :
  NoDup (map ps_wait l) →
  map ps_payload l ≡ₚ map ps_payload (filter (λ p, ps_wait p ≠ w) l) ++
    match List.find (λ p, bool_decide (ps_wait p = w)) l with
    | Some p => [ps_payload p] | None => [] end.
Proof.
  induction l as [|x l IH]; [done|]. cbn [map List.find]. intros [Hx Hnd]%list.NoDup_cons.
  destruct (decide (ps_wait x = w)) as [<-|Hne].
  - rewrite filter_cons_False by naive_solver. rewrite bool_decide_eq_true_2 by done.
    rewrite filter_all; [solve_Permutation|]. intros y Hy Heq. apply Hx. rewrite <- Heq.
    apply list_elem_of_fmap. eauto.
  - rewrite filter_cons_True by done. rewrite bool_decide_eq_false_2 by done.
    cbn [map]. by rewrite IH at 1.
Qed.

Lemma cancel_effect w q h :
  queue_ok q → effect (in_flight q) h (in_flight (without w q))
    (if bool_decide (w ∈ waits q) then withdraw (waiting_payload w q) h else h).
Proof.
  intros Hok. pose proof (qok_waits _ Hok) as (Hs & _ & _)%list.NoDup_app.
  unfold in_flight. cbn. case_bool_decide as Hw.
  - apply eff_withdraw.
    + apply sublist_app; [done|]. apply map_sublist, filter_sublist.
    + rewrite <- app_assoc. apply Permutation_app_head. by apply map_filter_perm.
  - rewrite filter_all; [constructor|]. apply elem_of_map_ne. unfold waits in Hw. set_solver.
Qed.

Lemma omap_wakes q : omap wake_payload (wakes_of q) = map ps_payload (q_send_waiters q).
Proof.
  unfold wakes_of. induction (q_send_waiters q) as [|s l IH]; cbn; [|by f_equal].
  induction (q_receive_waiters q) as [|r k IHk]; cbn; done.
Qed.

Lemma close_effect q h :
  effect (in_flight q) h (in_flight (closed_queue q)) (withdraw (omap wake_payload (wakes_of q)) h).
Proof.
  rewrite omap_wakes. unfold in_flight. cbn. rewrite app_nil_r.
  apply eff_withdraw; [by apply sublist_inserts_r|done].
Qed.

Lemma send_effect q p h q' o w :
  queue_ok q → send p q = (q', o) →
  o ≠ Panic ∧ queue_ok q' ∧
  effect (in_flight q) h (in_flight q')
    (match o with
     | Done (QueueSend.Committed (Some _)) => deliver p (accept p h)
     | Done (QueueSend.Committed None) => accept p h
     | _ => h
     end) ∧
  (o = Done QueueSend.Blocked → q' = q ∧ (w ∉ waits q → queue_ok (add_sender w p q)) ∧
     in_flight (add_sender w p q) = in_flight q ++ [p]).
Proof.
  intros Hok Hs.
  destruct (send_cases q p) as [(Hc & Heq)|[(Hc & r & rest & Hr & Heq)|[(Hc & Hr & Hcap & Heq)|(Hc & Hr & Hcap & Heq)]]];
    rewrite Heq in Hs; injection Hs as <- <-; (split; [done|]).
  - split_and!; [done|constructor|done].
  - destruct (qok_receivers _ Hok) as [Hp Hsw]; [by rewrite Hr|]. split_and!; [| |done].
    + apply queue_ok_receivers; [done|]. rewrite Hr. by constructor.
    + unfold in_flight. cbn. rewrite Hp, Hsw. constructor.
  - split_and!; [by apply queue_ok_push| |done]. unfold in_flight. cbn.
    destruct (q_send_waiters q) as [|s ss] eqn:Hsw; [rewrite !app_nil_r; constructor|].
    by rewrite (qok_senders _ Hok) in Hcap by (by rewrite Hsw).
  - split_and!; [done|constructor|]. intros _. split_and!; [done| |].
    + intros Hw. by apply queue_ok_add_sender.
    + unfold in_flight. cbn. rewrite map_app. by rewrite app_assoc.
Qed.

Lemma receive_effect q h q' o :
  queue_ok q → receive q = (q', o) →
  o ≠ Panic ∧ queue_ok q' ∧
  effect (in_flight q) h (in_flight q')
    (match o with Done (QueueReceive.Payload p _) => deliver p h | _ => h end) ∧
  (o = Done QueueReceive.Blocked → q' = q ∧ q_closed q = false).
Proof.
  intros Hok Hr. unfold in_flight.
  destruct (receive_cases q Hok)
    as [(p & rest & Hp & Hs & Heq)|[(p & rest & s & ss & Hp & Hs & Heq)|[(s & ss & Hp & Hs & Heq)|(Hp & Hs & Heq)]]];
    rewrite Heq in Hr; injection Hr as <- <-; (split; [done|]); cbn; rewrite ?Hp, ?Hs; cbn.
  - split_and!; [by eapply queue_ok_pop|constructor|done].
  - split_and!; [by eapply queue_ok_promote| |done]. rewrite <- app_assoc. constructor.
  - split_and!; [|constructor|done]. apply queue_ok_senders; [done|]. rewrite Hs. by constructor.
  - destruct (q_closed q); split_and!; try done; constructor.
Qed.

Lemma register_send_effect w p q h q' o :
  queue_ok q → register_send w p q = (q', o) →
  o ≠ Panic ∧ queue_ok q' ∧
  effect (in_flight q) h (in_flight q')
    (match o with
     | Done (QueueSend.Committed (Some _)) => deliver p (accept p h)
     | Done (QueueSend.Committed None) | Done QueueSend.Blocked => accept p h
     | _ => h
     end).
Proof.
  intros Hok Hr.
  destruct (register_send_cases w p q) as [(e & Heq)|[(q1 & r & Hs & Hb & Heq)|(Hw & Hs & _ & Heq)]];
    rewrite Heq in Hr; injection Hr as <- <-.
  - split_and!; [done..|constructor].
  - destruct (send_effect q p h q1 (Done r) w Hok Hs) as (_ & Hok1 & He & _).
    split_and!; [done..|]. by destruct r as [[|]| |].
  - destruct (send_effect q p h q _ w Hok Hs) as (_ & _ & _ & Hb).
    destruct (Hb eq_refl) as (_ & Hok1 & Hf). rewrite Hf. split_and!; [done|auto|constructor].
Qed.

Lemma register_receive_effect w q h q' o :
  queue_ok q → register_receive w q = (q', o) →
  o ≠ Panic ∧ queue_ok q' ∧
  effect (in_flight q) h (in_flight q')
    (match o with Done (QueueReceive.Payload p _) => deliver p h | _ => h end).
Proof.
  intros Hok Hr.
  destruct (register_receive_cases w q Hok)
    as [(e & Heq)|[(q1 & r & Hs & Hb & Heq)|(Hw & _ & Hp & Hs & Hc & Heq)]];
    rewrite Heq in Hr; injection Hr as <- <-.
  - split_and!; [done..|constructor].
  - destruct (receive_effect q h q1 (Done r) Hok Hs) as (_ & Hok1 & He & _). done.
  - split_and!; [done|by apply queue_ok_add_receiver|constructor].
Qed.

Lemma run_queue_effect c q h q' o :
  queue_ok q → run_queue c q = (q', o) →
  o ≠ Panic ∧ queue_ok q' ∧ effect (in_flight q) h (in_flight q') (note q c o h).
Proof.
  intros Hok Hr. destruct c as [p|w p| |w|w|]; cbn in Hr; unfold mbind, M_bind in Hr.
  - destruct (send p q) as [q1 o1] eqn:Hs.
    destruct (send_effect q p h q1 o1 {| wait_execution := 0; wait_operation := 0;
      wait_generation := 0; wait_arm := None |} Hok Hs) as (Hnp & Hok1 & He & _).
    destruct o1 as [[[|]| |]|e|]; try done; injection Hr as <- <-; done.
  - destruct (register_send w p q) as [q1 o1] eqn:Hs.
    destruct (register_send_effect w p q h q1 o1 Hok Hs) as (Hnp & Hok1 & He).
    destruct o1 as [[[|]| |]|e|]; try done; injection Hr as <- <-; done.
  - destruct (receive q) as [q1 o1] eqn:Hs.
    destruct (receive_effect q h q1 o1 Hok Hs) as (Hnp & Hok1 & He & _).
    destruct o1 as [[| |]|e|]; try done; injection Hr as <- <-; done.
  - destruct (register_receive w q) as [q1 o1] eqn:Hs.
    destruct (register_receive_effect w q h q1 o1 Hok Hs) as (Hnp & Hok1 & He).
    destruct o1 as [[| |]|e|]; try done; injection Hr as <- <-; done.
  - rewrite cancel_equation in Hr by done. injection Hr as <- <-.
    split_and!; [done|by apply queue_ok_without|].
    pose proof (cancel_effect w q h Hok) as He. by destruct (bool_decide _).
  - destruct (q_closed q) eqn:Hc.
    + unfold close, mbind, M_bind, get in Hr. rewrite Hc in Hr. injection Hr as <- <-.
      split_and!; [done..|]. apply eff_withdraw; [done|by rewrite app_nil_r].
    + rewrite close_equation in Hr by done. injection Hr as <- <-.
      split_and!; [done|by apply queue_ok_closed|apply close_effect].
Qed.

Lemma reachable_queue sh s :
  rtc queue_step (new_queue sh, empty_history) s →
  queue_ok (fst s) ∧ history_ok (in_flight (fst s)) (snd s).
Proof.
  intros Hr. refine (rtc_ind_r (λ s, queue_ok (fst s) ∧ history_ok (in_flight (fst s)) (snd s))
    _ _ _ s Hr); clear s Hr.
  - split; [apply new_queue_ok|]. by split.
  - intros [q h] [q' h'] _ (c & o & Hrun & Hh) [Hok Hhist]. cbn in *. subst h'.
    destruct (run_queue_effect c q h q' o Hok Hrun) as (_ & Hok' & He).
    split; [done|]. by eapply effect_ok.
Qed.

Lemma sublist_perm_eq {A} (l k : list A) : l `sublist_of` k → l ≡ₚ k → l = k.
Proof.
  intros Hs Hp. induction Hs as [|x l k Hs IH|x l k Hs IH]; [done| |].
  - f_equal. apply IH. by eapply Permutation_cons_inv.
  - apply Permutation_length in Hp. apply sublist_length in Hs. cbn in Hp. lia.
Qed.

(** After any sequence of calls on a new queue, failed ones included: the
    buffer is within its capacity, no receiver waits while a payload is
    buffered or a sender waits, no sender waits while there is room, a closed
    queue has no waiters, each registration is waiting once and the waiters
    of a side stand in registration order; and no call panics. *)
Theorem queue_invariant (sh : QueueShape) (q : TypedQueue) (h : history) (c : queue_call) :
  rtc queue_step (new_queue sh, empty_history) (q, h) →
  queue_ok q ∧ snd (run_queue c q) ≠ Panic.
Proof.
  intros Hr. destruct (reachable_queue sh _ Hr) as [Hok _]. split; [done|].
  destruct (run_queue c q) as [q' o] eqn:Hrun.
  by destruct (run_queue_effect c q h q' o Hok Hrun).
Qed.

(** C27: The queue is first-in first-out and loses nothing: what receivers got, in
    order, followed by what is buffered and what blocked senders hold, is the
    sequence of accepted payloads with those that were given back (to a
    cancelled sender, or by close) left out, and it is the whole sequence
    when none was given back. *)
Theorem queue_fifo (sh : QueueShape) (q : TypedQueue) (h : history) :
  rtc queue_step (new_queue sh, empty_history) (q, h) →
  (delivered h ++ in_flight q) `sublist_of` accepted h ∧
  accepted h ≡ₚ delivered h ++ in_flight q ++ returned h ∧
  (returned h = [] → accepted h = delivered h ++ in_flight q).
Proof.
  intros Hr. destruct (reachable_queue sh _ Hr) as [_ [Ho Hc]]. cbn in *. split_and!; [done..|].
  intros Hn. rewrite Hn, app_nil_r in Hc. symmetry. by apply sublist_perm_eq.
Qed.

(** Closing wakes every waiter once, in registration order, and keeps the
    buffer: after it, sends are refused and receives hand out the buffered
    payloads in order, then report the close; closing again does nothing. *)
Theorem queue_close_drains (q : TypedQueue) :
  queue_ok q → q_closed q = false →
  close q = (closed_queue q, Done (wakes_of q)) ∧
  (∀ p, send p (closed_queue q) = (closed_queue q, Done QueueSend.Closed)) ∧
  close (closed_queue q) = (closed_queue q, Done []) ∧
  (∀ l, receive (set_payloads l (closed_queue q)) =
    match l with
    | [] => (set_payloads l (closed_queue q), Done QueueReceive.Closed)
    | p :: rest => (set_payloads rest (closed_queue q), Done (QueueReceive.Payload p None))
    end) ∧
  q_payloads (closed_queue q) = q_payloads q.
Proof.
  intros Hok Hc. split_and!; [by apply close_equation|done|done| |done].
  intros [|p l]; [done|]. unfold receive, promote_one_sender, mbind, M_bind, get, modify. cbn.
  by destruct (has_buffer_capacity _).
Qed.

(** Cancelling removes exactly the named registration, if it is installed,
    and touches no other waiter and no payload; it answers whether it was
    installed. *)
Theorem queue_cancel_exact (q : TypedQueue) (w : QueueWait) :
  queue_ok q →
  cancel w q = (without w q, Done (bool_decide (w ∈ waits q))) ∧
  (w ∉ waits q → without w q = q) ∧
  (∀ w', w' ∈ waits (without w q) ↔ w' ∈ waits q ∧ w' ≠ w).
Proof.
  intros Hok. split_and!; [by apply cancel_equation| |].
  - intros Hw. unfold waits in Hw. unfold without.
    rewrite !filter_all by (apply elem_of_map_ne; set_solver). by destruct q.
  - intros w'. unfold waits, without. cbn. rewrite !elem_of_app, !list_elem_of_fmap.
    setoid_rewrite list_elem_of_filter. naive_solver.
Qed.

(** ** Witnesses: a one-place queue *)

Definition one_place : QueueShape :=
  {| queue_id := 0; queue_capacity := Fixed 1; payload_layout_fingerprint := [];
     queue_ownership := Inline |}.

Definition waiter (execution : N) : QueueWait :=
  {| wait_execution := execution; wait_operation := 0; wait_generation := 1; wait_arm := None |}.

(** Payload 7 is buffered, sender 1 waits with payload 8. *)
Definition sample_calls : list queue_call := [CallSend 7; CallRegisterSend (waiter 1) 8].

Definition play (calls : list queue_call) (s : TypedQueue * history) : TypedQueue * history :=
  List.fold_left (λ s c, (fst (run_queue c (fst s)), note (fst s) c (snd (run_queue c (fst s))) (snd s)))
    calls s.

Lemma play_reachable calls s : rtc queue_step s (play calls s).
Proof.
  revert s. induction calls as [|c calls IH]; intros s; [done|]. cbn. eapply rtc_l; [|apply IH].
  exists c, (snd (run_queue c (fst s))). cbn. by destruct (run_queue c (fst s)).
Qed.

Definition sample_end : TypedQueue * history := play sample_calls (new_queue one_place, empty_history).

Lemma queue_invariant_witness :
  queue_ok (fst sample_end) ∧ snd (run_queue CallReceive (fst sample_end)) ≠ Panic.
Proof.
  apply (queue_invariant one_place (fst sample_end) (snd sample_end)).
  exact (play_reachable sample_calls (new_queue one_place, empty_history)).
Defined.

Lemma queue_fifo_witness :
  accepted (snd sample_end) = delivered (snd sample_end) ++ in_flight (fst sample_end).
Proof.
  refine (proj2 (proj2 (queue_fifo one_place (fst sample_end) (snd sample_end) _)) _).
  - exact (play_reachable sample_calls (new_queue one_place, empty_history)).
  - reflexivity.
Defined.

Lemma queue_close_drains_witness :
  close (fst sample_end) =
  (closed_queue (fst sample_end), Done [QueueCloseWake.Send (waiter 1) 8]).
Proof.
  refine (proj1 (queue_close_drains (fst sample_end) _ _)).
  - exact (proj1 (reachable_queue one_place sample_end
      (play_reachable sample_calls (new_queue one_place, empty_history)))).
  - reflexivity.
Defined.

Lemma queue_cancel_exact_witness :
  cancel (waiter 1) (fst sample_end) =
  (without (waiter 1) (fst sample_end), Done (bool_decide (waiter 1 ∈ waits (fst sample_end)))).
Proof.
  refine (proj1 (queue_cancel_exact (fst sample_end) (waiter 1) _)).
  exact (proj1 (reachable_queue one_place sample_end
    (play_reachable sample_calls (new_queue one_place, empty_history)))).
Defined.
