(* ===== verification/QueueRuntime.v ===== *)
(** * QueueRuntime: executions meeting on queues and host operations

    Models [TypedQueueRuntime] of [crates/witchy-interp/src/typed_queue.rs]:
    the maps of queues, executions and host waits, and every operation that
    registers, matches, closes or cancels a wait and commits the executions
    involved.  [BTreeMap] is [gmap]; where the code iterates over one in key
    order and the order can be observed, the model sorts the entries. *)

From S2P Require Import Prelude Execution Kernel Queue.

Local Open Scope string_scope.

Module QueueCompletion.
Inductive t : Set :=
  | SendAccepted
  | SendClosed (payload : QueuePayload)
  | ReceivePayload (payload : QueuePayload)
  | ReceiveClosed.
End QueueCompletion.

Record QueueDelivery : Set := {
  dl_execution : N;
  dl_operation : OperationSiteId;
  dl_arm : option N;
  dl_completion : QueueCompletion.t;
}.

Record HostWait : Set := {
  hw_execution : N;
  hw_operation : OperationSiteId;
  hw_generation : N;
}.

Record TypedQueueRuntime : Type := {
  queues : gmap N TypedQueue;
  executions : gmap N TypedExecution;
  host_waits : gmap N HostWait;
}.

(** [TypedQueueRuntime::default()] *)
Definition empty_runtime : TypedQueueRuntime :=
  {| queues := ∅; executions := ∅; host_waits := ∅ |}.

Module QueueRuntimeResult.
Inductive t : Type :=
  | Blocked
  | Committed (turns : list (N * KernelTurn.t)) (deliveries : list QueueDelivery).
End QueueRuntimeResult.

Module QueueSelectResult.
Inductive t : Type :=
  | Blocked
  | Committed (arm : N) (turns : list (N * KernelTurn.t)) (deliveries : list QueueDelivery).
End QueueSelectResult.

Inductive SelectAdmission : Set :=
  | AdmitSend (s : QueueSend.t) (payload : QueuePayload)
  | AdmitReceive (r : QueueReceive.t).

(** The entries of a [BTreeMap] in key order. *)
Definition btree_items {A} (m : gmap N A) : list (N * A) := sort_by_key fst (map_to_list m).

Module Runtime.
Abbreviation RT := (M TypedQueueRuntime).

Definition set_queues (m : gmap N TypedQueue) (rt : TypedQueueRuntime) : TypedQueueRuntime :=
  {| queues := m; executions := executions rt; host_waits := host_waits rt |}.
Definition set_executions (m : gmap N TypedExecution) (rt : TypedQueueRuntime)
    : TypedQueueRuntime :=
  {| queues := queues rt; executions := m; host_waits := host_waits rt |}.
Definition set_host_waits (m : gmap N HostWait) (rt : TypedQueueRuntime) : TypedQueueRuntime :=
  {| queues := queues rt; executions := executions rt; host_waits := m |}.

(** [self.executions.get(&id).ok_or_else(..)?] *)
Definition find_execution (id : N) : RT TypedExecution :=
  rt ← get; some_or (executions rt !! id) "typed queue runtime has no such execution".

(** [self.executions.get_mut(&id).ok_or_else(..)?.method()] with the error
    text of a missing execution: the method's changes stay in the map. *)
Definition on_execution {A} (id : N) (missing : string) (m : M TypedExecution A) : RT A :=
  λ rt, match executions rt !! id with
        | None => (rt, Fail missing)
        | Some e => let (e', o) := m e in (set_executions (<[id := e']> (executions rt)) rt, o)
        end.

(** The same with [expect]: a missing execution is a panic. *)
Definition on_execution_expect {A} (id : N) (m : M TypedExecution A) : RT A :=
  λ rt, match executions rt !! id with
        | None => (rt, Panic)
        | Some e => let (e', o) := m e in (set_executions (<[id := e']> (executions rt)) rt, o)
        end.

(** [self.queue_mut(id)?.method()] *)
Definition on_queue {A} (id : QueueShapeId) (m : M TypedQueue A) : RT A :=
  λ rt, match queues rt !! id with
        | None => (rt, Fail "typed queue runtime has no such queue shape")
        | Some q => let (q', o) := m q in (set_queues (<[id := q']> (queues rt)) rt, o)
        end.

Definition no_execution : string := "typed queue runtime has no such execution".

(** ** Installing *)

Definition has_queue (id : QueueShapeId) (rt : TypedQueueRuntime) : bool :=
  bool_decide (is_Some (queues rt !! id)).

Definition install_queue (queue : TypedQueue) : RT unit :=
  let id := queue_id (q_shape queue) in
  rt ← get;
  modify (λ rt, set_queues (<[id := queue]> (queues rt)) rt);;
  throw_if (bool_decide (is_Some (queues rt !! id)))
    "typed queue runtime already has this queue shape ID".

Definition install_execution (id : N) (e : TypedExecution) : RT unit :=
  rt ← get;
  modify (λ rt, set_executions (<[id := e]> (executions rt)) rt);;
  throw_if (bool_decide (is_Some (executions rt !! id)))
    "typed queue runtime already has this execution ID".

(** ** Turns and host operations *)

Definition turn_execution (id : N) : RT KernelTurn.t := on_execution id no_execution turn.

Definition execution_mut_turn_selected (id : N) (transition : nat) : RT KernelTurn.t :=
  on_execution id no_execution (turn_selected transition).

Definition wake_execution (id : N) (operation : OperationSiteId) : RT unit :=
  on_execution id no_execution (wake operation).

Definition submit_host (execution generation host : N) : RT unit :=
  rt ← get;
  throw_if (bool_decide (is_Some (host_waits rt !! host)))
    "host operation already has a typed wait registration";;
  e ← find_execution execution;
  '(operation, kind) ← lift_result (waiting_operation e);
  throw_if (negb (bool_decide (kind = Host))) "execution wait is not a typed host operation";;
  throw_if (existsb (λ w, hw_execution w.2 =? execution)%N (btree_items (host_waits rt)))
    "execution already has a typed host wait registration";;
  modify (λ rt, set_host_waits (<[host := {| hw_execution := execution;
    hw_operation := operation; hw_generation := generation |}]> (host_waits rt)) rt).

Definition complete_host (host generation : N)
    : RT (option (N * OperationSiteId * KernelTurn.t)) :=
  rt ← get;
  match host_waits rt !! host with
  | None => mret None
  | Some wait =>
      if negb (hw_generation wait =? generation)%N then mret None
      else
        modify (λ rt, set_host_waits (delete host (host_waits rt)) rt);;
        turn ← on_execution (hw_execution wait) "typed host wait execution vanished"
                 (commit_operation (OperationCommit.Ready (hw_operation wait)));
        mret (Some (hw_execution wait, hw_operation wait, turn))
  end.

Definition request_host_cancellation (execution generation : N) : RT bool :=
  rt ← get;
  match List.find (λ w, (hw_execution w.2 =? execution)%N && (hw_generation w.2 =? generation)%N)
          (btree_items (host_waits rt)) with
  | None => mret false
  | Some (host, wait) =>
      modify (λ rt, set_host_waits (delete host (host_waits rt)) rt);;
      on_execution (hw_execution wait) "typed host wait execution vanished" request_cancellation
  end.

(** ** Checking the owner of a wait, and committing it *)

Definition waiting_operation_any (execution : N)
    : RT (OperationSiteId * QueueShapeId * ExecutionOperation) :=
  e ← find_execution execution; lift_result (waiting_queue_operation e).

Definition waiting_operation (execution : N) (expected : ExecutionOperation)
    : RT (OperationSiteId * QueueShapeId) :=
  '(operation, queue, actual) ← waiting_operation_any execution;
  throw_if (negb (bool_decide (actual = expected)))
    "execution wait has a different typed queue operation";;
  mret (operation, queue).

Definition ensure_wait (wait : QueueWait) (queue : QueueShapeId)
    (expected : ExecutionOperation) : RT unit :=
  '(operation, actual_queue, actual) ← waiting_operation_any (wait_execution wait);
  throw_if (negb (operation =? wait_operation wait)%N || negb (actual_queue =? queue)%N
            || negb (bool_decide (actual = expected)))
    "queue match does not own the target execution wait record".

Definition ensure_select_wait (wait : QueueWait) (queue : QueueShapeId)
    (expected : ExecutionOperation) : RT unit :=
  arm ← some_or (wait_arm wait) "select wait is missing an arm identity";
  e ← find_execution (wait_execution wait);
  '(operation, arms) ← lift_result (waiting_select_arms e);
  throw_if (negb (operation =? wait_operation wait)%N
            || negb (existsb (λ '(ordinal, actual, actual_queue), (ordinal =? arm)%N
                 && bool_decide (actual = expected) && (actual_queue =? queue)%N) arms))
    "queue match does not own the target select arm registration".

Definition commit (execution : N) (operation : OperationSiteId) : RT KernelTurn.t :=
  on_execution execution no_execution (commit_operation (OperationCommit.Ready operation)).

Definition commit_wait (wait : QueueWait) (queue : QueueShapeId)
    (expected : ExecutionOperation) : RT KernelTurn.t :=
  match wait_arm wait with
  | Some arm =>
      ensure_select_wait wait queue expected;;
      on_execution_expect (wait_execution wait)
        (commit_operation (OperationCommit.SelectArm (wait_operation wait) arm))
  | None =>
      ensure_wait wait queue expected;;
      commit (wait_execution wait) (wait_operation wait)
  end.

Fixpoint cancel_waits (waits : list (QueueShapeId * QueueWait)) : RT unit :=
  match waits with
  | [] => mret tt
  | (queue, wait) :: waits => on_queue queue (Queue.cancel wait);; cancel_waits waits
  end.

(** The loop of [cancel_select_losers] over the arms. *)
Fixpoint cancel_losers (winner : QueueWait) (winning_arm : N) (operation : OperationSiteId)
    (arms : list (N * ExecutionOperation * QueueShapeId)) : RT unit :=
  match arms with
  | [] => mret tt
  | (arm, _, queue) :: arms =>
      (if negb (arm =? winning_arm)%N then
         on_queue queue (Queue.cancel {| wait_execution := wait_execution winner;
           wait_operation := operation; wait_generation := wait_generation winner;
           wait_arm := Some arm |});; mret tt
       else mret tt);;
      cancel_losers winner winning_arm operation arms
  end.

Definition cancel_select_losers (winner : QueueWait) : RT unit :=
  winning_arm ← some_or (wait_arm winner) "select winner is missing an arm identity";
  e ← find_execution (wait_execution winner);
  '(operation, arms) ← lift_result (waiting_select_arms e);
  throw_if (negb (operation =? wait_operation winner)%N)
    "select close wake has a different operation identity";;
  cancel_losers winner winning_arm operation arms.

Definition abort_select (execution : N) (operation : OperationSiteId) : RT unit :=
  on_execution execution no_execution (abort_operation operation).

(** ** Sends and receives *)

Definition delivery (execution : N) (operation : OperationSiteId) (arm : option N)
    (completion : QueueCompletion.t) : QueueDelivery :=
  {| dl_execution := execution; dl_operation := operation; dl_arm := arm;
     dl_completion := completion |}.

Definition submit_send (execution generation : N) (payload : QueuePayload)
    : RT QueueRuntimeResult.t :=
  '(operation, queue) ← waiting_operation execution ChannelSend;
  let wait := {| wait_execution := execution; wait_operation := operation;
                 wait_generation := generation; wait_arm := None |} in
  result ← on_queue queue (register_send wait payload);
  match result with
  | QueueSend.Blocked => mret QueueRuntimeResult.Blocked
  | QueueSend.Closed =>
      turn ← commit_wait wait queue ChannelSend;
      mret (QueueRuntimeResult.Committed [(execution, turn)]
        [delivery execution operation None (QueueCompletion.SendClosed payload)])
  | QueueSend.Committed receiver =>
      turn ← commit execution operation;
      let sent := delivery execution operation None QueueCompletion.SendAccepted in
      match receiver with
      | None => mret (QueueRuntimeResult.Committed [(execution, turn)] [sent])
      | Some receiver =>
          ensure_wait receiver queue ChannelReceive;;
          turn' ← commit (wait_execution receiver) (wait_operation receiver);
          mret (QueueRuntimeResult.Committed
            [(execution, turn); (wait_execution receiver, turn')]
            [sent; delivery (wait_execution receiver) (wait_operation receiver) None
                     (QueueCompletion.ReceivePayload payload)])
      end
  end.

Definition submit_receive (execution generation : N) : RT QueueRuntimeResult.t :=
  '(operation, queue) ← waiting_operation execution ChannelReceive;
  let wait := {| wait_execution := execution; wait_operation := operation;
                 wait_generation := generation; wait_arm := None |} in
  result ← on_queue queue (register_receive wait);
  match result with
  | QueueReceive.Blocked => mret QueueRuntimeResult.Blocked
  | QueueReceive.Closed =>
      turn ← commit_wait wait queue ChannelReceive;
      mret (QueueRuntimeResult.Committed [(execution, turn)]
        [delivery execution operation None QueueCompletion.ReceiveClosed])
  | QueueReceive.Payload payload sender =>
      turn ← commit execution operation;
      let received := delivery execution operation None (QueueCompletion.ReceivePayload payload) in
      match sender with
      | None => mret (QueueRuntimeResult.Committed [(execution, turn)] [received])
      | Some sender =>
          ensure_wait sender queue ChannelSend;;
          turn' ← commit (wait_execution sender) (wait_operation sender);
          mret (QueueRuntimeResult.Committed
            [(execution, turn); (wait_execution sender, turn')]
            [received; delivery (wait_execution sender) (wait_operation sender) None
                         QueueCompletion.SendAccepted])
      end
  end.

(** ** Close *)

(** One wake-up selected for completion: its index among the wake-ups, its
    registration, direction and completion. *)
Abbreviation chosen := (N * QueueWait * ExecutionOperation * QueueCompletion.t)%type.

Abbreviation select_key := (N * OperationSiteId * N)%type.

(** The loop over the wake-ups: ordinary ones in order, and the lowest arm of
    each select. *)
Fixpoint classify (index : N) (wakes : list QueueCloseWake.t) (ordinary : list chosen)
    (selects : gmap select_key (N * QueueWait * QueueCompletion.t))
    : list chosen * gmap select_key (N * QueueWait * QueueCompletion.t) :=
  match wakes with
  | [] => (ordinary, selects)
  | wake :: wakes =>
      let '(wait, direction, completion) :=
        match wake with
        | QueueCloseWake.Send wait payload =>
            (wait, ChannelSend, QueueCompletion.SendClosed payload)
        | QueueCloseWake.Receive wait => (wait, ChannelReceive, QueueCompletion.ReceiveClosed)
        end in
      match wait_arm wait with
      | None =>
          classify (index + 1) wakes (ordinary ++ [(index, wait, direction, completion)])%list
            selects
      | Some arm =>
          let key := (wait_execution wait, wait_operation wait, wait_generation wait) in
          let keep := match selects !! key with
                      | Some (_, selected, _) =>
                          match wait_arm selected with
                          | Some selected_arm => (selected_arm <=? arm)%N
                          | None => false
                          end
                      | None => false
                      end in
          classify (index + 1) wakes ordinary
            (if keep then selects else <[key := (index, wait, completion)]> selects)
      end
  end.

(** The direction of a close completion; the others are [unreachable!]. *)
Definition close_direction (c : QueueCompletion.t) : outcome ExecutionOperation :=
  match c with
  | QueueCompletion.SendClosed _ => Done ChannelSend
  | QueueCompletion.ReceiveClosed => Done ChannelReceive
  | QueueCompletion.SendAccepted | QueueCompletion.ReceivePayload _ => Panic
  end.

Fixpoint add_selects (values : list (N * QueueWait * QueueCompletion.t)) (selected : list chosen)
    : outcome (list chosen) :=
  match values with
  | [] => mret selected
  | (index, wait, completion) :: values =>
      direction ← close_direction completion;
      add_selects values (selected ++ [(index, wait, direction, completion)])%list
  end.

(** The loop that completes the selected wake-ups. *)
Fixpoint complete_wakes (queue : QueueShapeId) (selected : list chosen)
    : RT (list (N * KernelTurn.t) * list QueueDelivery) :=
  match selected with
  | [] => mret ([], [])
  | (_, wait, direction, completion) :: selected =>
      (match wait_arm wait with Some _ => cancel_select_losers wait | None => mret tt end);;
      turn ← commit_wait wait queue direction;
      '(turns, deliveries) ← complete_wakes queue selected;
      mret ((wait_execution wait, turn) :: turns,
            delivery (wait_execution wait) (wait_operation wait) (wait_arm wait) completion
              :: deliveries)
  end.

Definition close_queue (queue : QueueShapeId) : RT QueueRuntimeResult.t :=
  wakes ← on_queue queue close;
  let (ordinary, selects) := classify 0 wakes [] ∅ in
  selected ← lift_outcome (add_selects (map snd (map_to_list selects)) ordinary);
  '(turns, deliveries) ← complete_wakes queue (sort_by_key (λ c, c.1.1.1) selected);
  mret (QueueRuntimeResult.Committed turns deliveries).

(** ** Select *)

(** The check of the supplied payloads, in key order. *)
Fixpoint check_payloads (arms : list (N * ExecutionOperation * QueueShapeId)) (keys : list N)
    : RT unit :=
  match keys with
  | [] => mret tt
  | ordinal :: keys =>
      '(_, direction, _) ← some_or (List.find (λ '(arm, _, _), arm =? ordinal)%N arms)
        "select payload names an absent arm";
      throw_if (negb (bool_decide (direction = ChannelSend)))
        "select payload may be supplied only for a send arm";;
      check_payloads arms keys
  end.

(** Probe one arm. *)
Definition admit_arm (wait : QueueWait) (send_payloads : gmap N QueuePayload) (arm : N)
    (direction : ExecutionOperation) (queue : QueueShapeId) : RT SelectAdmission :=
  match direction with
  | ChannelSend =>
      payload ← some_or (send_payloads !! arm) "typed select send arm has no payload binding";
      s ← on_queue queue (register_send wait payload);
      mret (AdmitSend s payload)
  | ChannelReceive =>
      r ← on_queue queue (register_receive wait);
      mret (AdmitReceive r)
  | _ => throw "typed select arm is not a queue operation"
  end.

(** The commit of the counterpart of a ready arm. *)
Definition commit_counterpart (queue : QueueShapeId) (counterpart : option QueueWait)
    (direction : ExecutionOperation) (completion : QueueCompletion.t)
    : RT (list (N * KernelTurn.t) * list QueueDelivery) :=
  match counterpart with
  | None => mret ([], [])
  | Some w =>
      turn ← commit_wait w queue direction;
      mret ([(wait_execution w, turn)],
            [delivery (wait_execution w) (wait_operation w) (wait_arm w) completion])
  end.

(** Commit the ready arm after cancelling the arms registered before it, then
    its counterpart. *)
Definition commit_arm (wait : QueueWait) (arm : N) (queue : QueueShapeId)
    (direction : ExecutionOperation) (completion : QueueCompletion.t)
    (registered : list (QueueShapeId * QueueWait))
    (counterpart : RT (list (N * KernelTurn.t) * list QueueDelivery))
    : RT QueueSelectResult.t :=
  cancel_waits registered;;
  turn ← commit_wait wait queue direction;
  '(turns, deliveries) ← counterpart;
  mret (QueueSelectResult.Committed arm ((wait_execution wait, turn) :: turns)
    (delivery (wait_execution wait) (wait_operation wait) (Some arm) completion :: deliveries)).

Fixpoint select_arms (execution : N) (operation : OperationSiteId) (generation : N)
    (send_payloads : gmap N QueuePayload)
    (arms : list (N * ExecutionOperation * QueueShapeId))
    (registered : list (QueueShapeId * QueueWait)) : RT QueueSelectResult.t :=
  match arms with
  | [] => mret QueueSelectResult.Blocked
  | (arm, direction, queue) :: arms =>
      let wait := {| wait_execution := execution; wait_operation := operation;
                     wait_generation := generation; wait_arm := Some arm |} in
      admission ← admit_arm wait send_payloads arm direction queue;
      match admission with
      | AdmitSend QueueSend.Blocked _ | AdmitReceive QueueReceive.Blocked =>
          select_arms execution operation generation send_payloads arms
            (registered ++ [(queue, wait)])%list
      | AdmitSend QueueSend.Closed payload =>
          commit_arm wait arm queue ChannelSend (QueueCompletion.SendClosed payload)
            registered (mret ([], []))
      | AdmitReceive QueueReceive.Closed =>
          commit_arm wait arm queue ChannelReceive QueueCompletion.ReceiveClosed
            registered (mret ([], []))
      | AdmitSend (QueueSend.Committed receiver) payload =>
          commit_arm wait arm queue ChannelSend QueueCompletion.SendAccepted registered
            (commit_counterpart queue receiver ChannelReceive
               (QueueCompletion.ReceivePayload payload))
      | AdmitReceive (QueueReceive.Payload payload sender) =>
          commit_arm wait arm queue ChannelReceive (QueueCompletion.ReceivePayload payload)
            registered
            (commit_counterpart queue sender ChannelSend QueueCompletion.SendAccepted)
      end
  end.

Definition submit_select (execution generation : N) (send_payloads : gmap N QueuePayload)
    : RT QueueSelectResult.t :=
  e ← find_execution execution;
  '(operation, arms) ← lift_result (waiting_select_arms e);
  throw_if (bool_decide (arms = [])) "typed select has no arms";;
  check_payloads arms (map fst (btree_items send_payloads));;
  select_arms execution operation generation send_payloads arms [].

(** ** Cancellation *)

Definition cancel (execution generation : N) : RT bool :=
  '(operation, queue, _) ← waiting_operation_any execution;
  cancelled ← on_queue queue (Queue.cancel {| wait_execution := execution;
    wait_operation := operation; wait_generation := generation; wait_arm := None |});
  if negb cancelled then mret false
  else on_execution_expect execution (abort_operation operation);; mret true.

(** Cancel the registration of every arm, counting those that were
    installed. *)
Fixpoint cancel_arms (execution : N) (operation : OperationSiteId) (generation : N)
    (arms : list (N * ExecutionOperation * QueueShapeId)) (count : N) : RT N :=
  match arms with
  | [] => mret count
  | (arm, _, queue) :: arms =>
      b ← on_queue queue (Queue.cancel {| wait_execution := execution;
        wait_operation := operation; wait_generation := generation; wait_arm := Some arm |});
      cancel_arms execution operation generation arms (if b : bool then count + 1 else count)
  end.

Definition cancel_select (execution generation : N) : RT bool :=
  e ← find_execution execution;
  '(operation, arms) ← lift_result (waiting_select_arms e);
  count ← cancel_arms execution operation generation arms 0;
  let cancelled := negb (count =? 0)%N in
  (if cancelled then abort_select execution operation else mret tt);;
  mret cancelled.

Definition request_cancellation (execution generation : N) : RT bool :=
  cancellable ← find_execution execution;
  throw_if (negb (has_cancellation_transition cancellable))
    "execution shape has no cancellation transition";;
  match status cancellable with
  | KernelStatus.Waiting _ =>
      rt ← get;
      if existsb (λ w, hw_execution w.2 =? execution)%N (btree_items (host_waits rt))
      then request_host_cancellation execution generation
      else
        claimed ← match waiting_select_arms cancellable with
                  | Ok (operation, arms) =>
                      claimed ← cancel_arms execution operation generation arms 0;
                      if (claimed =? 0)%N then mret false
                      else
                        throw_if (negb (claimed =? N.of_nat (length arms))%N)
                          "cancellation found a partially installed select wait record";;
                        mret true
                  | Err _ =>
                      '(operation, queue, _) ← waiting_operation_any execution;
                      on_queue queue (Queue.cancel {| wait_execution := execution;
                        wait_operation := operation; wait_generation := generation;
                        wait_arm := None |})
                  end;
        if negb claimed then mret false
        else on_execution_expect execution Kernel.request_cancellation
  | _ => on_execution_expect execution Kernel.request_cancellation
  end.
End Runtime.

(** ** Every call on the runtime *)

Inductive runtime_call : Type :=
  | RInstallQueue (q : TypedQueue)
  | RInstallExecution (id : N) (e : TypedExecution)
  | RTurn (id : N)
  | RTurnSelected (id : N) (transition : nat)
  | RWake (id : N) (operation : OperationSiteId)
  | RSubmitHost (execution generation host : N)
  | RCompleteHost (host generation : N)
  | RRequestHostCancellation (execution generation : N)
  | RSubmitSend (execution generation : N) (payload : QueuePayload)
  | RSubmitReceive (execution generation : N)
  | RCloseQueue (queue : QueueShapeId)
  | RCancel (execution generation : N)
  | RSubmitSelect (execution generation : N) (send_payloads : gmap N QueuePayload)
  | RCancelSelect (execution generation : N)
  | RRequestCancellation (execution generation : N).

Definition ignore {S A} (m : M S A) : M S unit := m;; mret tt.

Definition run_runtime (c : runtime_call) : M TypedQueueRuntime unit :=
  match c with
  | RInstallQueue q => Runtime.install_queue q
  | RInstallExecution id e => Runtime.install_execution id e
  | RTurn id => ignore (Runtime.turn_execution id)
  | RTurnSelected id t => ignore (Runtime.execution_mut_turn_selected id t)
  | RWake id op => Runtime.wake_execution id op
  | RSubmitHost e g h => Runtime.submit_host e g h
  | RCompleteHost h g => ignore (Runtime.complete_host h g)
  | RRequestHostCancellation e g => ignore (Runtime.request_host_cancellation e g)
  | RSubmitSend e g p => ignore (Runtime.submit_send e g p)
  | RSubmitReceive e g => ignore (Runtime.submit_receive e g)
  | RCloseQueue q => ignore (Runtime.close_queue q)
  | RCancel e g => ignore (Runtime.cancel e g)
  | RSubmitSelect e g ps => ignore (Runtime.submit_select e g ps)
  | RCancelSelect e g => ignore (Runtime.cancel_select e g)
  | RRequestCancellation e g => ignore (Runtime.request_cancellation e g)
  end.

(** What is installed has been made by the constructors and driven through
    their methods. *)
Definition proper_call (c : runtime_call) : Prop :=
  match c with
  | RInstallQueue q => ∃ sh h, rtc queue_step (new_queue sh, empty_history) (q, h)
  | RInstallExecution _ e => ∃ sh e0, new sh = Done e0 ∧ rtc called e0 e
  | _ => True
  end.

(** A call was made, whatever it returned. *)
Definition runtime_step (rt rt' : TypedQueueRuntime) : Prop :=
  ∃ c o, proper_call c ∧ run_runtime c rt = (rt', o).

(** * Lemmas *)

Local Close Scope string_scope.

Record runtime_ok (D : gset N) (rt : TypedQueueRuntime) : Prop := {
  rok_queues : ∀ id q, queues rt !! id = Some q → queue_ok q;
  rok_executions : ∀ id e, executions rt !! id = Some e → ∃ sh, shape_ok sh ∧ kernel_inv sh e;
  rok_hosts : ∀ h1 h2 w1 w2, host_waits rt !! h1 = Some w1 → host_waits rt !! h2 = Some w2 →
    hw_execution w1 = hw_execution w2 → h1 = h2;
  rok_known : D ⊆ dom (executions rt);
}.

Section runtime.
Implicit Types (D : gset N) (rt : TypedQueueRuntime).

(** No panic, and the invariant holds after success and after failure. *)
Abbreviation safe D m := (triple (runtime_ok D) m (λ _, runtime_ok D) (λ _, runtime_ok D)).

Lemma runtime_ok_mono D D' rt : D ⊆ D' → runtime_ok D' rt → runtime_ok D rt.
Proof. intros HD []. split; [done..|]. set_solver. Qed.

(** A safe call also keeps the executions it did not need. *)
Lemma safe_weaken {A} D D' (m : M TypedQueueRuntime A) :
  D ⊆ D' → safe D' m → triple (runtime_ok D') m (λ _, runtime_ok D) (λ _, runtime_ok D).
Proof.
  intros HD Hm rt Hrt. specialize (Hm rt Hrt). destruct (m rt) as [rt' [a|e|]]; [| |done];
    by eapply runtime_ok_mono.
Qed.

Lemma safe_throw {A} D (s : string) : safe D (throw s : M TypedQueueRuntime A).
Proof. by apply triple_throw. Qed.

Lemma safe_ret {A} D (a : A) : safe D (mret a).
Proof. by apply triple_ret. Qed.

Lemma safe_throw_if D b s : safe D (throw_if b s).
Proof. destruct b; [apply safe_throw|apply safe_ret]. Qed.

Lemma safe_some_or {A} D (o : option A) s : safe D (some_or o s).
Proof. destruct o; [apply safe_ret|apply safe_throw]. Qed.

Lemma safe_lift_result {A} D (r : result string A) : safe D (lift_result r).
Proof. destruct r; [apply safe_ret|apply safe_throw]. Qed.

Lemma safe_get D : safe D get.
Proof. by intros rt Hrt. Qed.

Lemma safe_bind {A B} D (m : M TypedQueueRuntime A) (f : A → M TypedQueueRuntime B) :
  safe D m → (∀ a, safe D (f a)) → safe D (m ≫= f).
Proof. apply triple_seq. Qed.

(** What the runtime relies on of a method of an execution: it keeps the
    kernel invariant and never panics. *)
Class KernelMethod {A} (m : M TypedExecution A) : Prop :=
  kernel_method : ∀ sh, shape_ok sh →
    triple (kernel_inv sh) m (λ _, kernel_inv sh) (inv_error sh).

Lemma on_execution_known {A} D id (m : M TypedExecution A) rt e :
  KernelMethod m → runtime_ok D rt → executions rt !! id = Some e →
  ∃ e' o, m e = (e', o) ∧ o ≠ Panic ∧
    runtime_ok D (Runtime.set_executions (<[id := e']> (executions rt)) rt).
Proof.
  intros Hm [Hq He Hh Hd] Hid. destruct (He id e Hid) as (sh & Hsh & Hk).
  pose proof (Hm sh Hsh e Hk) as H. destruct (m e) as [e' o]. exists e', o.
  assert (o ≠ Panic ∧ kernel_inv sh e') as [Hp Hk'] by (destruct o; [done|by destruct H|done]).
  split_and!; [done..|]. split; cbn; [done| |done|].
  - intros id' e1 [[<- <-]|[_ H1]]%lookup_insert_Some; eauto.
  - rewrite dom_insert. set_solver.
Qed.

Lemma on_execution_safe {A} D id s (m : M TypedExecution A) :
  KernelMethod m → safe D (Runtime.on_execution id s m).
Proof.
  intros Hm rt Hrt. unfold Runtime.on_execution. destruct (executions rt !! id) as [e|] eqn:Hid;
    [|done]. destruct (on_execution_known D id m rt e Hm Hrt Hid) as (e' & o & -> & Hp & Hok).
  by destruct o.
Qed.

Lemma on_execution_expect_safe {A} D id (m : M TypedExecution A) :
  KernelMethod m → id ∈ D → safe D (Runtime.on_execution_expect id m).
Proof.
  intros Hm Hin rt Hrt. unfold Runtime.on_execution_expect.
  destruct (executions rt !! id) as [e|] eqn:Hid.
  - destruct (on_execution_known D id m rt e Hm Hrt Hid) as (e' & o & -> & Hp & Hok).
    by destruct o.
  - apply not_elem_of_dom in Hid. apply Hid, (rok_known _ _ Hrt), Hin.
Qed.

(** What it relies on of a method of a queue. *)
Class QueueMethod {A} (m : M TypedQueue A) : Prop :=
  queue_method : ∀ q q' o, queue_ok q → m q = (q', o) → o ≠ Panic ∧ queue_ok q'.

Lemma on_queue_safe {A} D id (m : M TypedQueue A) :
  QueueMethod m → safe D (Runtime.on_queue id m).
Proof.
  intros Hm rt [Hq He Hh Hd]. unfold Runtime.on_queue. destruct (queues rt !! id) as [q|] eqn:Hid;
    [|done]. destruct (m q) as [q' o] eqn:Hrun.
  destruct (Hm q q' o (Hq id q Hid) Hrun) as [Hp Hok].
  assert (runtime_ok D (Runtime.set_queues (<[id := q']> (queues rt)) rt)).
  { split; cbn; [|done..]. intros id' q1 [[<- <-]|[_ H1]]%lookup_insert_Some; eauto. }
  by destruct o.
Qed.

(** A call that, when it returns [Ok], has seen the execution [id]. *)
Abbreviation finds D id m :=
  (triple (runtime_ok D) m (λ _, runtime_ok ({[id]} ∪ D)) (λ _, runtime_ok D)).

Lemma find_execution_finds D id : finds D id (Runtime.find_execution id).
Proof.
  intros rt [Hq He Hh Hd]. unfold Runtime.find_execution, mbind, M_bind, get, some_or.
  destruct (executions rt !! id) as [e|] eqn:Hid; cbn; [|done]. split; [done..|].
  assert (id ∈ dom (executions rt)) by (by apply elem_of_dom_2 in Hid). set_solver.
Qed.

Lemma finds_bind {A B} D id (m : M TypedQueueRuntime A) (f : A → M TypedQueueRuntime B) :
  finds D id m → (∀ a, safe ({[id]} ∪ D) (f a)) → safe D (m ≫= f).
Proof.
  intros Hm Hf. eapply triple_bind; [exact Hm|]. intros a. cbn. apply safe_weaken; [set_solver|done].
Qed.

(** What follows a call that found the execution keeps it found. *)
Lemma finds_seq {A B} D id (m : M TypedQueueRuntime A) (f : A → M TypedQueueRuntime B) :
  finds D id m → (∀ a, safe ({[id]} ∪ D) (f a)) → finds D id (m ≫= f).
Proof.
  intros Hm Hf. eapply triple_bind; [exact Hm|]. intros a rt Hrt. cbn in Hrt.
  specialize (Hf a rt Hrt). destruct (f a rt) as [rt' [b|e|]]; [done| |done].
  eapply runtime_ok_mono; [|done]. set_solver.
Qed.

Lemma waiting_operation_any_finds D id : finds D id (Runtime.waiting_operation_any id).
Proof.
  apply finds_seq; [apply find_execution_finds|]. intros e. apply safe_lift_result.
Qed.
End runtime.

(** ** Every operation is safe *)

#[export] Instance turn_kernel : KernelMethod turn.
Proof. intros sh Hsh. by apply turn_safe. Qed.
#[export] Instance turn_selected_kernel i : KernelMethod (turn_selected i).
Proof. intros sh Hsh. by apply turn_selected_safe. Qed.
#[export] Instance wake_kernel op : KernelMethod (wake op).
Proof. intros sh Hsh. apply wake_safe. Qed.
#[export] Instance commit_kernel c : KernelMethod (commit_operation c).
Proof. intros sh Hsh. by apply commit_operation_safe. Qed.
#[export] Instance abort_kernel op : KernelMethod (abort_operation op).
Proof. intros sh Hsh. by apply abort_operation_safe. Qed.
#[export] Instance request_cancellation_kernel : KernelMethod request_cancellation.
Proof. intros sh Hsh. by apply request_cancellation_safe. Qed.

#[export] Instance register_send_queue w p : QueueMethod (register_send w p).
Proof. intros q q' o Hok Hr. by destruct (register_send_effect w p q empty_history q' o Hok Hr) as (? & ? & _). Qed.
#[export] Instance register_receive_queue w : QueueMethod (register_receive w).
Proof. intros q q' o Hok Hr. by destruct (register_receive_effect w q empty_history q' o Hok Hr) as (? & ? & _). Qed.
#[export] Instance cancel_queue w : QueueMethod (Queue.cancel w).
Proof.
  intros q q' o Hok Hr. rewrite cancel_equation in Hr by done. injection Hr as <- <-.
  split; [done|by apply queue_ok_without].
Qed.
#[export] Instance close_queue_safe : QueueMethod close.
Proof.
  intros q q' o Hok Hr. destruct (q_closed q) eqn:Hc.
  - unfold close, mbind, M_bind, get in Hr. rewrite Hc in Hr. by injection Hr as <- <-.
  - rewrite close_equation in Hr by done. injection Hr as <- <-.
    split; [done|by apply queue_ok_closed].
Qed.

(** Walks through a runtime operation. *)
Ltac safe_op := repeat match goal with
  | |- triple _ (Runtime.find_execution ?id ≫= _) _ _ =>
      apply (finds_bind _ id); [apply find_execution_finds|intros ?]
  | |- triple _ (Runtime.waiting_operation_any ?id ≫= _) _ _ =>
      apply (finds_bind _ id); [apply waiting_operation_any_finds|intros [[? ?] ?]]
  | |- triple _ (_ ≫= _) _ _ => apply safe_bind; [|intros ?]
  | |- triple _ (mret _) _ _ => apply safe_ret
  | |- triple _ (throw _) _ _ => apply safe_throw
  | |- triple _ (throw_if _ _) _ _ => apply safe_throw_if
  | |- triple _ (some_or _ _) _ _ => apply safe_some_or
  | |- triple _ (lift_result _) _ _ => apply safe_lift_result
  | |- triple _ get _ _ => apply safe_get
  | |- triple _ (Runtime.on_execution _ _ _) _ _ => apply on_execution_safe; apply _
  | |- triple _ (Runtime.on_execution_expect _ _) _ _ =>
      apply on_execution_expect_safe; [apply _|set_solver]
  | |- triple _ (Runtime.on_queue _ _) _ _ => apply on_queue_safe; apply _
  | |- triple _ (match ?x with _ => _ end) _ _ => destruct x
  | |- triple _ (if ?x then _ else _) _ _ => destruct x
  | |- triple _ (let (_, _) := ?x in _) _ _ => destruct x
  end.

Lemma commit_safe D id op :
  triple (runtime_ok D) (Runtime.commit id op) (λ _, runtime_ok D) (λ _, runtime_ok D).
Proof. unfold Runtime.commit. safe_op. Qed.

Lemma ensure_wait_safe D w q op :
  triple (runtime_ok D) (Runtime.ensure_wait w q op) (λ _, runtime_ok D) (λ _, runtime_ok D).
Proof. unfold Runtime.ensure_wait. safe_op. Qed.

Lemma ensure_select_wait_finds D w q op :
  triple (runtime_ok D) (Runtime.ensure_select_wait w q op)
    (λ _, runtime_ok ({[wait_execution w]} ∪ D)) (λ _, runtime_ok D).
Proof.
  unfold Runtime.ensure_select_wait. destruct (wait_arm w) as [arm|]; [|by intros rt Hrt].
  apply (finds_seq D (wait_execution w) (Runtime.find_execution (wait_execution w)));
    [apply find_execution_finds|]. intros e. safe_op.
Qed.

Lemma commit_wait_safe D w q op :
  triple (runtime_ok D) (Runtime.commit_wait w q op) (λ _, runtime_ok D) (λ _, runtime_ok D).
Proof.
  unfold Runtime.commit_wait. destruct (wait_arm w) as [arm|].
  - apply (finds_bind _ (wait_execution w)); [apply ensure_select_wait_finds|]. intros _. safe_op.
  - apply safe_bind; [apply ensure_wait_safe|]. intros _. apply commit_safe.
Qed.

Section operations.
Implicit Type D : gset N.
Abbreviation safe D m := (triple (runtime_ok D) m (λ _, runtime_ok D) (λ _, runtime_ok D)).

Lemma cancel_waits_safe D ws : safe D (Runtime.cancel_waits ws).
Proof. induction ws as [|[q w] ws IH]; cbn [Runtime.cancel_waits]; safe_op. done. Qed.

Lemma cancel_losers_safe D w arm op arms : safe D (Runtime.cancel_losers w arm op arms).
Proof.
  induction arms as [|[[a d] q] arms IH]; cbn [Runtime.cancel_losers]; safe_op; done.
Qed.

Lemma cancel_select_losers_safe D w : safe D (Runtime.cancel_select_losers w).
Proof. unfold Runtime.cancel_select_losers. safe_op. apply cancel_losers_safe. Qed.

Lemma waiting_operation_safe D id op : safe D (Runtime.waiting_operation id op).
Proof. unfold Runtime.waiting_operation. safe_op. Qed.

Lemma submit_send_safe D e g p : safe D (Runtime.submit_send e g p).
Proof.
  unfold Runtime.submit_send. apply safe_bind; [apply waiting_operation_safe|]. intros [op q].
  safe_op; auto using commit_safe, commit_wait_safe, ensure_wait_safe.
Qed.

Lemma submit_receive_safe D e g : safe D (Runtime.submit_receive e g).
Proof.
  unfold Runtime.submit_receive. apply safe_bind; [apply waiting_operation_safe|]. intros [op q].
  safe_op; auto using commit_safe, commit_wait_safe, ensure_wait_safe.
Qed.

(** The completions of a close are the two closed ones. *)
Lemma classify_closed i wakes ordinary selects o s :
  Runtime.classify i wakes ordinary selects = (o, s) →
  (∀ k v, selects !! k = Some v → Runtime.close_direction v.2 ≠ Panic) →
  ∀ k v, s !! k = Some v → Runtime.close_direction v.2 ≠ Panic.
Proof.
  revert i ordinary selects. induction wakes as [|w wakes IH]; intros i ordinary selects;
    cbn [Runtime.classify]; [by intros [= <- <-]|].
  destruct w as [wait p|wait]; cbn; destruct (wait_arm wait); cbn; intros H Hs;
    (eapply IH; [exact H|]); try done;
    intros k v; destruct (match selects !! _ with Some _ => _ | None => _ end); try apply Hs;
    intros [[<- <-]|[_ Hk]]%lookup_insert_Some; try done; by eapply Hs.
Qed.

Lemma add_selects_no_panic values selected :
  (∀ v, v ∈ values → Runtime.close_direction v.2 ≠ Panic) →
  Runtime.add_selects values selected ≠ Panic.
Proof.
  revert selected. induction values as [|[[i w] c] values IH]; intros selected H; [done|].
  cbn [Runtime.add_selects]. apply outcome_bind_no_panic.
  - apply (H (i, w, c)). set_solver.
  - intros d _. apply IH. intros v Hv. apply H. set_solver.
Qed.

Lemma complete_wakes_safe D q selected : safe D (Runtime.complete_wakes q selected).
Proof.
  induction selected as [|[[[i w] d] c] selected IH]; cbn [Runtime.complete_wakes];
    safe_op; auto using cancel_select_losers_safe, commit_wait_safe.
Qed.

Lemma close_queue_runtime_safe D q : safe D (Runtime.close_queue q).
Proof.
  unfold Runtime.close_queue. apply safe_bind; [safe_op|]. intros wakes.
  destruct (Runtime.classify 0 wakes [] ∅) as [ordinary selects] eqn:Hc.
  apply safe_bind.
  - intros rt Hrt. unfold lift_outcome.
    assert (Runtime.add_selects (map snd (map_to_list selects)) ordinary ≠ Panic) as Hp.
    { apply add_selects_no_panic. intros v ([k v'] & -> & Hv%elem_of_map_to_list)%list_elem_of_fmap.
      cbn. eapply classify_closed; [exact Hc| |exact Hv]. intros k' v''. by rewrite lookup_empty. }
    by destruct (Runtime.add_selects _ _).
  - intros selected. safe_op. apply complete_wakes_safe.
Qed.

Lemma check_payloads_safe D arms keys : safe D (Runtime.check_payloads arms keys).
Proof. induction keys as [|k keys IH]; cbn [Runtime.check_payloads]; safe_op; done. Qed.

Lemma commit_counterpart_safe D q w d c : safe D (Runtime.commit_counterpart q w d c).
Proof. unfold Runtime.commit_counterpart. safe_op. apply commit_wait_safe. Qed.

Lemma select_arms_safe D e op g ps arms registered :
  safe D (Runtime.select_arms e op g ps arms registered).
Proof.
  revert registered. induction arms as [|[[a d] q] arms IH]; intros registered;
    cbn [Runtime.select_arms]; [apply safe_ret|]. apply safe_bind.
  - unfold Runtime.admit_arm. safe_op.
  - intros []; safe_op; try apply IH; unfold Runtime.commit_arm; safe_op;
      auto using cancel_waits_safe, commit_wait_safe, commit_counterpart_safe.
Qed.

Lemma submit_select_safe D e g ps : safe D (Runtime.submit_select e g ps).
Proof.
  unfold Runtime.submit_select. safe_op; [apply check_payloads_safe|apply select_arms_safe].
Qed.

Lemma cancel_arms_safe D e op g arms n : safe D (Runtime.cancel_arms e op g arms n).
Proof.
  revert n. induction arms as [|[[a d] q] arms IH]; intros n; cbn [Runtime.cancel_arms];
    safe_op; apply IH.
Qed.

Lemma runtime_cancel_safe D e g : safe D (Runtime.cancel e g).
Proof. unfold Runtime.cancel. safe_op. Qed.

Lemma cancel_select_safe D e g : safe D (Runtime.cancel_select e g).
Proof.
  unfold Runtime.cancel_select, Runtime.abort_select. safe_op. apply cancel_arms_safe.
Qed.

Lemma forget_host D rt h :
  runtime_ok D rt → runtime_ok D (Runtime.set_host_waits (delete h (host_waits rt)) rt).
Proof.
  intros [Hq He Hh Hd]. split; cbn; [done..| |done].
  intros h1 h2 w1 w2 [_ H1]%lookup_delete_Some [_ H2]%lookup_delete_Some. eauto.
Qed.

Lemma request_host_cancellation_safe D e g : safe D (Runtime.request_host_cancellation e g).
Proof.
  unfold Runtime.request_host_cancellation. apply safe_bind; [apply safe_get|]. intros rt0.
  destruct (List.find _ _) as [[h w]|]; [|apply safe_ret].
  apply safe_bind; [|intros _; safe_op]. apply triple_modify. intros rt. apply forget_host.
Qed.

Lemma complete_host_safe D h g : safe D (Runtime.complete_host h g).
Proof.
  unfold Runtime.complete_host. apply safe_bind; [apply safe_get|]. intros rt0.
  destruct (host_waits rt0 !! h) as [w|]; [|apply safe_ret]. case_match; [apply safe_ret|].
  apply safe_bind; [|intros _; safe_op]. apply triple_modify. intros rt. apply forget_host.
Qed.

Lemma runtime_request_cancellation_safe D e g : safe D (Runtime.request_cancellation e g).
Proof.
  unfold Runtime.request_cancellation.
  safe_op; auto using request_host_cancellation_safe, cancel_arms_safe.
Qed.
End operations.

Lemma elem_of_btree_items {A} (m : gmap N A) k x :
  (k, x) ∈ btree_items m ↔ m !! k = Some x.
Proof. unfold btree_items. by rewrite sort_by_key_perm, elem_of_map_to_list. Qed.

Lemma submit_host_safe D e g h :
  triple (runtime_ok D) (Runtime.submit_host e g h) (λ _, runtime_ok D) (λ _, runtime_ok D).
Proof.
  intros rt Hrt. unfold Runtime.submit_host, Runtime.find_execution, mbind, M_bind, get, throw_if,
    some_or, lift_result.
  case_bool_decide as Hh; [done|]. cbn. destruct (executions rt !! e) as [ex|]; [|done]. cbn.
  destruct (Kernel.waiting_operation ex) as [[op kind]|]; [|done]. cbn.
  case_bool_decide; cbn; [|done]. destruct (existsb _ _) eqn:Hex; [done|]. cbn.
  destruct Hrt as [Hq He Hhosts Hd]. split; cbn; [done..| |done].
  rewrite existsb_false_elem in Hex.
  assert (∀ h' w, host_waits rt !! h' = Some w → hw_execution w ≠ e) as Hne.
  { intros h' w Hw%elem_of_btree_items. specialize (Hex _ Hw). cbn in Hex.
    by apply N.eqb_neq in Hex. }
  intros h1 h2 w1 w2 [[<- <-]|[? H1]]%lookup_insert_Some [[<- <-]|[? H2]]%lookup_insert_Some Heq;
    cbn in Heq; [done| | |by eapply Hhosts].
  - by destruct (Hne _ _ H2).
  - by destruct (Hne _ _ H1).
Qed.

Lemma install_queue_safe D q :
  queue_ok q →
  triple (runtime_ok D) (Runtime.install_queue q) (λ _, runtime_ok D) (λ _, runtime_ok D).
Proof.
  intros Hok. unfold Runtime.install_queue. apply safe_bind; [apply safe_get|]. intros rt0.
  apply safe_bind; [|intros _; apply safe_throw_if]. apply triple_modify. intros rt [Hq He Hh Hd].
  split; cbn; [|done..]. intros id q1 [[<- <-]|[_ H1]]%lookup_insert_Some; eauto.
Qed.

Lemma install_execution_safe D id e :
  (∃ sh, shape_ok sh ∧ kernel_inv sh e) →
  triple (runtime_ok D) (Runtime.install_execution id e) (λ _, runtime_ok D) (λ _, runtime_ok D).
Proof.
  intros Hok. unfold Runtime.install_execution. apply safe_bind; [apply safe_get|]. intros rt0.
  apply safe_bind; [|intros _; apply safe_throw_if]. apply triple_modify. intros rt [Hq He Hh Hd].
  split; cbn; [done| |done|rewrite dom_insert; set_solver].
  intros id' e1 [[<- <-]|[_ H1]]%lookup_insert_Some; eauto.
Qed.

Lemma ignore_safe {A} D (m : M TypedQueueRuntime A) :
  triple (runtime_ok D) m (λ _, runtime_ok D) (λ _, runtime_ok D) →
  triple (runtime_ok D) (ignore m) (λ _, runtime_ok D) (λ _, runtime_ok D).
Proof. intros Hm. apply safe_bind; [done|]. intros a. apply safe_ret. Qed.

Lemma run_runtime_safe D c :
  proper_call c →
  triple (runtime_ok D) (run_runtime c) (λ _, runtime_ok D) (λ _, runtime_ok D).
Proof.
  destruct c; cbn; intros Hc; try apply ignore_safe;
    auto using submit_host_safe, complete_host_safe, request_host_cancellation_safe,
      submit_send_safe, submit_receive_safe, close_queue_runtime_safe, runtime_cancel_safe,
      submit_select_safe, cancel_select_safe, runtime_request_cancellation_safe;
    try (by apply on_execution_safe; apply _).
  - destruct Hc as (sh & h & Hr). apply install_queue_safe.
    by destruct (reachable_queue sh _ Hr).
  - destruct Hc as (sh & e0 & Hnew & Hr). apply install_execution_safe. exists sh.
    by eapply reachable_inv.
Qed.

Lemma reachable_runtime rt : rtc runtime_step empty_runtime rt → runtime_ok ∅ rt.
Proof.
  intros Hr. refine (rtc_ind_r (runtime_ok ∅) empty_runtime _ _ rt Hr); clear rt Hr.
  - split; cbn; try done.
  - intros rt rt' _ (c & o & Hc & Hrun) Hok. pose proof (run_runtime_safe ∅ c Hc rt Hok) as H.
    rewrite Hrun in H. by destruct o.
Qed.

(** C39: From an empty runtime, whatever is submitted, closed, cancelled, woken or
    completed in any order and whatever failed before: no call panics (no
    [expect] or index fails and the [unreachable!] of close is not reached),
    and an execution owns at most one host wait. *)
Theorem runtime_never_panics (rt : TypedQueueRuntime) (c : runtime_call) :
  rtc runtime_step empty_runtime rt → proper_call c →
  snd (run_runtime c rt) ≠ Panic ∧
  (∀ h1 h2 w1 w2, host_waits rt !! h1 = Some w1 → host_waits rt !! h2 = Some w2 →
     hw_execution w1 = hw_execution w2 → h1 = h2).
Proof.
  intros Hr Hc. pose proof (reachable_runtime rt Hr) as Hok.
  split; [|exact (rok_hosts _ _ Hok)]. pose proof (run_runtime_safe ∅ c Hc rt Hok) as H.
  by destruct (run_runtime c rt) as [rt' []].
Qed.

(** ** Host waits are used once *)

Lemma complete_host_stale rt host generation :
  (∀ w, host_waits rt !! host = Some w → hw_generation w ≠ generation) →
  Runtime.complete_host host generation rt = (rt, Done None).
Proof.
  intros H. unfold Runtime.complete_host, mbind, M_bind, get.
  destruct (host_waits rt !! host) as [w|]; [|done].
  specialize (H w eq_refl). apply N.eqb_neq in H as ->. done.
Qed.

Lemma on_execution_hosts {A} id s (m : M TypedExecution A) rt rt' o :
  Runtime.on_execution id s m rt = (rt', o) → host_waits rt' = host_waits rt.
Proof.
  unfold Runtime.on_execution. destruct (executions rt !! id) as [e|]; [|by intros [= <- _]].
  destruct (m e) as [e' o']. by intros [= <- _].
Qed.

Lemma complete_host_forgets rt host generation rt' x :
  Runtime.complete_host host generation rt = (rt', Done (Some x)) → host_waits rt' !! host = None.
Proof.
  unfold Runtime.complete_host. intros H. done_inv.
  destruct (host_waits _ !! host) as [w|] eqn:Hw; done_inv; [|discriminate].
  destruct (negb _); done_inv; [discriminate|].
  match goal with H : Runtime.on_execution _ _ _ _ = _ |- _ => apply on_execution_hosts in H as -> end.
  cbn. apply lookup_delete_eq.
Qed.

Lemma request_host_cancellation_forgets D rt execution generation rt' :
  runtime_ok D rt →
  Runtime.request_host_cancellation execution generation rt = (rt', Done true) →
  ∀ host w, host_waits rt' !! host = Some w → hw_execution w ≠ execution.
Proof.
  unfold Runtime.request_host_cancellation. intros Hok H. done_inv.
  destruct (List.find _ _) as [[h w0]|] eqn:Hf; done_inv; [|discriminate].
  apply find_some in Hf as [Hin%list_elem_of_In%elem_of_btree_items Hcond].
  apply andb_true_iff in Hcond as [He%N.eqb_eq _]. cbn in He.
  apply on_execution_hosts in H. rewrite H. cbn.
  intros host w [Hne Hw]%lookup_delete_Some Heq. apply Hne.
  eapply (rok_hosts _ _ Hok); [exact Hin|exact Hw|congruence].
Qed.

(** A host wait is completed or cancelled at most once: a completion with a
    stale generation changes nothing, after a completion the token is unknown
    whatever generation is presented again, and after a cancellation no token
    of the execution completes anything. *)
Theorem host_wait_one_shot (rt : TypedQueueRuntime) :
  rtc runtime_step empty_runtime rt →
  (∀ host generation w, host_waits rt !! host = Some w → hw_generation w ≠ generation →
     Runtime.complete_host host generation rt = (rt, Done None)) ∧
  (∀ host generation rt' x, Runtime.complete_host host generation rt = (rt', Done (Some x)) →
     ∀ generation', Runtime.complete_host host generation' rt' = (rt', Done None)) ∧
  (∀ execution generation rt',
     Runtime.request_host_cancellation execution generation rt = (rt', Done true) →
     ∀ host generation' w, host_waits rt !! host = Some w → hw_execution w = execution →
       Runtime.complete_host host generation' rt' = (rt', Done None)).
Proof.
  intros Hr. pose proof (reachable_runtime rt Hr) as Hok. split_and!.
  - intros host g w Hw Hg. apply complete_host_stale. intros w' Hw'. congruence.
  - intros host g rt' x H%complete_host_forgets g'. apply complete_host_stale.
    intros w Hw. by rewrite H in Hw.
  - intros e g rt' H host g' w Hw Hwe. apply complete_host_stale. intros w' Hw'.
    destruct (request_host_cancellation_forgets ∅ rt e g rt' Hok H host w' Hw').
    assert (host_waits rt !! host = Some w') as Hw2; [|congruence].
    unfold Runtime.request_host_cancellation in H. done_inv.
    destruct (List.find _ _) as [[h w0]|]; done_inv; [|discriminate].
    apply on_execution_hosts in H. rewrite H in Hw'. cbn in Hw'.
    by apply lookup_delete_Some in Hw' as [_ ?].
Qed.

(** ** Sends and receives that return *)

Lemma on_queue_Done {A} id (m : M TypedQueue A) rt rt' a :
  Runtime.on_queue id m rt = (rt', Done a) → ∃ q q', queues rt !! id = Some q ∧
    m q = (q', Done a) ∧ rt' = Runtime.set_queues (<[id := q']> (queues rt)) rt.
Proof.
  unfold Runtime.on_queue. destruct (queues rt !! id) as [q|]; [|done].
  destruct (m q) as [q' o] eqn:Hm. intros [= <- ->]. eauto.
Qed.

Lemma on_execution_queues {A} id s (m : M TypedExecution A) rt rt' o :
  Runtime.on_execution id s m rt = (rt', o) → queues rt' = queues rt.
Proof.
  unfold Runtime.on_execution. destruct (executions rt !! id) as [e|]; [|by intros [= <- _]].
  destruct (m e) as [e' o']. by intros [= <- _].
Qed.

Lemma waiting_operation_any_Done id rt rt' x :
  Runtime.waiting_operation_any id rt = (rt', Done x) → rt' = rt ∧ ∃ e,
    executions rt !! id = Some e ∧ waiting_queue_operation e = Ok x.
Proof.
  unfold Runtime.waiting_operation_any, Runtime.find_execution. intros H. done_inv.
  apply lift_result_Done in H as [H ->]. eauto.
Qed.

Lemma waiting_operation_Done id kind rt rt' op q :
  Runtime.waiting_operation id kind rt = (rt', Done (op, q)) → rt' = rt ∧ ∃ e,
    executions rt !! id = Some e ∧ waiting_queue_operation e = Ok (op, q, kind).
Proof.
  unfold Runtime.waiting_operation. intros H. apply M_bind_Done in H as ([[o q'] k] & rt1 & H1 & H).
  apply waiting_operation_any_Done in H1 as [-> (e & He & Hw)]. done_inv.
  match goal with H : negb _ = false |- _ => apply negb_false_iff, bool_decide_eq_true in H as -> end.
  intros. subst. eauto.
Qed.

Lemma ensure_wait_Done w q k rt rt' u : Runtime.ensure_wait w q k rt = (rt', Done u) → rt' = rt.
Proof.
  unfold Runtime.ensure_wait. intros H. apply M_bind_Done in H as ([[o q'] k'] & rt1 & H1 & H).
  apply waiting_operation_any_Done in H1 as [-> _]. by done_inv.
Qed.

Lemma commit_queues id op rt rt' t : Runtime.commit id op rt = (rt', Done t) → queues rt' = queues rt.
Proof. apply on_execution_queues. Qed.

(** Committing an ordinary wait leaves the queues alone. *)
Lemma commit_wait_queues w q k rt rt' t :
  wait_arm w = None → Runtime.commit_wait w q k rt = (rt', Done t) → queues rt' = queues rt.
Proof.
  unfold Runtime.commit_wait. intros -> H. done_inv.
  match goal with H : Runtime.ensure_wait _ _ _ _ = _ |- _ => apply ensure_wait_Done in H as -> end.
  by eapply commit_queues.
Qed.

(** Follows the queues through the commits of a method. *)
Ltac chase_queues :=
  repeat match goal with
  | H : Runtime.ensure_wait _ _ _ _ = _ |- _ => apply ensure_wait_Done in H as ->
  | H : Runtime.commit _ _ _ = _ |- _ => apply commit_queues in H
  | H : Runtime.commit_wait _ _ _ _ = _ |- _ => apply commit_wait_queues in H; [|reflexivity]
  end;
  repeat match goal with H : queues ?a = queues ?b |- queues ?a = _ =>
    transitivity (queues b); [exact H|clear H] end;
  reflexivity.

(** The registration of an ordinary queue operation. *)
Definition ordinary_wait (execution : N) (operation : OperationSiteId) (generation : N)
    : QueueWait :=
  {| wait_execution := execution; wait_operation := operation; wait_generation := generation;
     wait_arm := None |}.

(** What a successful send did to its queue [q], given what it returned. *)
Definition send_outcome (execution : N) (op : OperationSiteId) (generation : N)
    (p : QueuePayload) (q q' : TypedQueue) (r : QueueRuntimeResult.t) : Prop :=
  match r with
  | QueueRuntimeResult.Blocked =>
      q_closed q = false ∧ q_receive_waiters q = [] ∧ has_buffer_capacity q = false ∧
      q' = add_sender (ordinary_wait execution op generation) p q
  | QueueRuntimeResult.Committed turns deliveries =>
      map fst turns = map dl_execution deliveries ∧
      ((q_closed q = true ∧ q' = q ∧
        deliveries = [Runtime.delivery execution op None (QueueCompletion.SendClosed p)]) ∨
       (q_closed q = false ∧ ∃ rcv rest, q_receive_waiters q = rcv :: rest ∧
        q' = set_receive_waiters rest q ∧
        deliveries = [Runtime.delivery execution op None QueueCompletion.SendAccepted;
          Runtime.delivery (wait_execution (pr_wait rcv)) (wait_operation (pr_wait rcv)) None
            (QueueCompletion.ReceivePayload p)]) ∨
       (q_closed q = false ∧ q_receive_waiters q = [] ∧ has_buffer_capacity q = true ∧
        q' = set_payloads (q_payloads q ++ [p]) q ∧
        deliveries = [Runtime.delivery execution op None QueueCompletion.SendAccepted]))
  end.

(** A send that returns was made by an execution waiting to send on the
    queue.  It is blocked exactly behind a full queue without receivers, and
    then queued with its payload; otherwise the payload is returned by a
    closed queue, handed to the first waiting receiver and to nobody else, or
    buffered, and exactly the executions delivered to have taken a turn. *)
Theorem submit_send_exact (rt rt' : TypedQueueRuntime) (execution generation : N)
    (p : QueuePayload) (r : QueueRuntimeResult.t) :
  Runtime.submit_send execution generation p rt = (rt', Done r) →
  ∃ e op id q q', executions rt !! execution = Some e ∧
    waiting_queue_operation e = Ok (op, id, ChannelSend) ∧
    queues rt !! id = Some q ∧ queues rt' = <[id := q']> (queues rt) ∧
    send_outcome execution op generation p q q' r.
Proof.
  unfold Runtime.submit_send. intros H. apply M_bind_Done in H as ([op id] & rt0 & Hw & H).
  apply waiting_operation_Done in Hw as [-> (e & He & Hw)].
  apply M_bind_Done in H as (s & rt1 & Hq & H).
  apply on_queue_Done in Hq as (q & q' & Hid & Hreg & ->).
  fold (ordinary_wait execution op generation) in *.
  set (w := ordinary_wait execution op generation) in *.
  exists e, op, id, q, q'. split_and!; [done..| |].
  - destruct s as [[rcv|]| |]; done_inv; chase_queues.
  - destruct (register_send_cases w p q) as [(x & Hr)|[(q1 & s1 & Hs & Hb & Hr)|(_ & Hs & _ & Hr)]];
      rewrite Hr in Hreg; [discriminate|injection Hreg as <- <-..].
    + destruct (send_cases q p)
        as [(Hc & Heq)|[(Hc & rcv & rest & Hrw & Heq)|[(Hc & Hrw & Hcap & Heq)|(Hc & Hrw & Hcap & Heq)]]];
        rewrite Heq in Hs; injection Hs as <- <-; done_inv; [..|done].
      * split; [reflexivity|]. left. split_and!; [exact Hc|reflexivity..].
      * split; [reflexivity|]. right; left. split; [exact Hc|]. exists rcv, rest.
        split_and!; [exact Hrw|reflexivity..].
      * split; [reflexivity|]. right; right. split_and!; [exact Hc|exact Hrw|exact Hcap|reflexivity..].
    + destruct (send_cases q p)
        as [(Hc & Heq)|[(Hc & rcv & rest & Hrw & Heq)|[(Hc & Hrw & Hcap & Heq)|(Hc & Hrw & Hcap & Heq)]]];
        rewrite Heq in Hs; try discriminate. done_inv. split_and!; [done..|reflexivity].
Qed.

(** What a successful receive did to its queue [q], given what it returned. *)
Definition receive_outcome (execution : N) (op : OperationSiteId) (generation : N)
    (q q' : TypedQueue) (r : QueueRuntimeResult.t) : Prop :=
  match r with
  | QueueRuntimeResult.Blocked =>
      q_closed q = false ∧ in_flight q = [] ∧
      q' = add_receiver (ordinary_wait execution op generation) q
  | QueueRuntimeResult.Committed turns deliveries =>
      map fst turns = map dl_execution deliveries ∧
      ((q_closed q = true ∧ in_flight q = [] ∧ q' = q ∧
        deliveries = [Runtime.delivery execution op None QueueCompletion.ReceiveClosed]) ∨
       (∃ p, in_flight q = p :: in_flight q' ∧
        deliveries = Runtime.delivery execution op None (QueueCompletion.ReceivePayload p) ::
          match q_send_waiters q with
          | [] => []
          | s :: _ => [Runtime.delivery (wait_execution (ps_wait s)) (wait_operation (ps_wait s))
                         None QueueCompletion.SendAccepted]
          end))
  end.

(** A receive that returns was made by an execution waiting to receive on the
    queue.  It is blocked exactly on an open queue with nothing in flight and
    then registered; otherwise it takes the oldest payload in flight, and the
    first blocked sender, if any, is accepted and takes a turn too, or it
    learns that the queue is closed and drained. *)
Theorem submit_receive_exact (rt rt' : TypedQueueRuntime) (execution generation : N)
    (r : QueueRuntimeResult.t) :
  rtc runtime_step empty_runtime rt →
  Runtime.submit_receive execution generation rt = (rt', Done r) →
  ∃ e op id q q', executions rt !! execution = Some e ∧
    waiting_queue_operation e = Ok (op, id, ChannelReceive) ∧
    queues rt !! id = Some q ∧ queues rt' = <[id := q']> (queues rt) ∧
    receive_outcome execution op generation q q' r.
Proof.
  intros Hreach. unfold Runtime.submit_receive. intros H.
  apply M_bind_Done in H as ([op id] & rt0 & Hw & H).
  apply waiting_operation_Done in Hw as [-> (e & He & Hw)].
  apply M_bind_Done in H as (s & rt1 & Hq & H).
  apply on_queue_Done in Hq as (q & q' & Hid & Hreg & ->).
  fold (ordinary_wait execution op generation) in *.
  set (w := ordinary_wait execution op generation) in *.
  assert (queue_ok q) as Hok by (by eapply (rok_queues ∅ rt); [apply reachable_runtime|]).
  exists e, op, id, q, q'. split_and!; [done..| |].
  - destruct s as [p [snd|]| |]; done_inv; chase_queues.
  - destruct (register_receive_cases w q Hok)
      as [(x & Hr)|[(q1 & s1 & Hs & Hb & Hr)|(_ & _ & Hp & Hsw & Hc & Hr)]];
      rewrite Hr in Hreg; [discriminate|injection Hreg as <- <-..].
    + unfold receive_outcome, in_flight. destruct (receive_cases q Hok)
        as [(p & rest & Hp & Hsw & Heq)|[(p & rest & s & ss & Hp & Hsw & Heq)|[(s & ss & Hp & Hsw & Heq)|(Hp & Hsw & Heq)]]];
        rewrite Heq in Hs; injection Hs as <- <-; [..|destruct (q_closed q) eqn:Hc; [|done]]; done_inv;
        (split; [reflexivity|]); cbn; rewrite ?Hp, ?Hsw; cbn.
      * right. exists p. split; reflexivity.
      * right. exists p. rewrite <- app_assoc. split; reflexivity.
      * right. exists (ps_payload s). split; reflexivity.
      * left. split_and!; reflexivity.
    + done_inv. unfold receive_outcome, in_flight. rewrite Hp, Hsw. split_and!; [done..|reflexivity].
Qed.

(** ** Scenarios *)

(** Sends one payload on queue 0, then completes. *)
Definition sender_shape : TypedExecutionShape :=
  {| shape_id := 1; shape_mode := Normal; shape_entry := 0;
     shape_frame := []; shape_result_lanes := [];
     shape_states := [sample_state 0 [] (ExecutionOutcome.Blocked 0 1);
                      sample_state 1 [] ExecutionOutcome.Complete];
     shape_operations := [sample_site 0 ChannelSend [] (Some 0%N)];
     shape_queues := [sample_queue 0 Rendezvous];
     shape_cancellation := None |}.

(** A select with one arm that receives from queue 0. *)
Definition selector_shape : TypedExecutionShape :=
  {| shape_id := 2; shape_mode := Normal; shape_entry := 0;
     shape_frame := [sample_lane 0 LaneOwnership.Copy false]; shape_result_lanes := [];
     shape_states := [sample_state 0 [] (ExecutionOutcome.Blocked 0 1);
       {| state_id := 1; transitions := [{| tr_condition := SelectArm 0 0; tr_actions := [];
            tr_outcome := ExecutionOutcome.Complete |}] |}];
     shape_operations := [{| site_id := 0; site_kind := Select; site_input_lanes := [];
       site_result_lanes := []; site_pending_move_lanes := []; site_fallback_state := None;
       site_queue := None;
       site_arms := [{| arm_ordinal := 0; arm_operation := ChannelReceive;
         arm_endpoint_lane := 0; arm_input_lanes := []; arm_result_lanes := [];
         arm_queue := Some 0%N; arm_ownership := Inline |}] |}];
     shape_queues := [sample_queue 0 Rendezvous];
     shape_cancellation := None |}.

Definition run_script (calls : list runtime_call) (rt : TypedQueueRuntime) : TypedQueueRuntime :=
  List.fold_left (λ rt c, fst (run_runtime c rt)) calls rt.

Lemma run_script_reachable calls rt :
  Forall proper_call calls → rtc runtime_step rt (run_script calls rt).
Proof.
  intros H. revert rt. induction H as [|c calls Hc H IH]; intros rt; [done|]. cbn.
  eapply rtc_l; [|apply IH]. exists c, (snd (run_runtime c rt)). split; [done|].
  by destruct (run_runtime c rt).
Qed.

Lemma new_started sh : validate sh = Done tt → new sh = Done (started sh).
Proof. unfold new. by intros ->. Qed.

Lemma started_proper id sh : validate sh = Done tt → proper_call (RInstallExecution id (started sh)).
Proof. intros Hv. exists sh, (started sh). split; [by apply new_started|done]. Qed.

Lemma new_queue_proper sh : proper_call (RInstallQueue (new_queue sh)).
Proof. by exists sh, empty_history. Qed.

(** Execution 1 is about to send, execution [2] waits with the given call. *)
Definition meeting (partner : TypedExecutionShape) (registered : runtime_call)
    : list runtime_call :=
  [RInstallQueue (new_queue (sample_queue 0 Rendezvous));
   RInstallExecution 1 (started sender_shape);
   RInstallExecution 2 (started partner);
   RTurn 1; RTurn 2; registered].

Definition meeting_receiver : TypedQueueRuntime :=
  run_script (meeting receiver_shape (RSubmitReceive 2 0)) empty_runtime.
Definition meeting_selector : TypedQueueRuntime :=
  run_script (meeting selector_shape (RSubmitSelect 2 0 ∅)) empty_runtime.

Lemma meeting_proper partner c :
  validate partner = Done tt → proper_call c → Forall proper_call (meeting partner c).
Proof.
  intros Hv Hc. unfold meeting. repeat constructor; try done.
  - apply (new_queue_proper (sample_queue 0 Rendezvous)).
  - by apply (started_proper 1).
  - by apply (started_proper 2).
Qed.

Lemma meeting_receiver_reachable : rtc runtime_step empty_runtime meeting_receiver.
Proof. apply run_script_reachable, meeting_proper; reflexivity || exact I. Qed.

Lemma meeting_selector_reachable : rtc runtime_step empty_runtime meeting_selector.
Proof. apply run_script_reachable, meeting_proper; reflexivity || exact I. Qed.

(** Sending to a receiver that waits in a select fails after the damage is
    done: the sending execution has completed its send, the payload is neither
    in the queue nor delivered, and the select still waits but its
    registration is gone, so that no later send can reach it. *)
Theorem send_to_select_loses_payload :
  ∃ rt rt' s, rtc runtime_step empty_runtime rt ∧
    Runtime.submit_send 1 0 7 rt = (rt', Fail s) ∧
    (status <$> executions rt' !! 1%N) = Some KernelStatus.Complete ∧
    (status <$> executions rt' !! 2%N) = Some (KernelStatus.Waiting 0) ∧
    (waits <$> queues rt !! 0%N) = Some [{| wait_execution := 2; wait_operation := 0;
                                            wait_generation := 0; wait_arm := Some 0%N |}] ∧
    (waits <$> queues rt' !! 0%N) = Some [] ∧
    (in_flight <$> queues rt' !! 0%N) = Some [].
Proof.
  exists meeting_selector, (fst (Runtime.submit_send 1 0 7 meeting_selector)). eexists.
  split; [apply meeting_selector_reachable|]. split_and!; vm_compute; reflexivity.
Qed.

(** Installing a queue under an identifier in use is refused, but the queue
    that was there is replaced all the same, with its waiters and payloads;
    the same holds of executions. *)
Theorem failed_install_replaces :
  (∀ rt q old, queues rt !! queue_id (q_shape q) = Some old →
     ∃ rt' s, Runtime.install_queue q rt = (rt', Fail s) ∧
       queues rt' !! queue_id (q_shape q) = Some q) ∧
  (∀ rt id e old, executions rt !! id = Some old →
     ∃ rt' s, Runtime.install_execution id e rt = (rt', Fail s) ∧
       executions rt' !! id = Some e).
Proof.
  split.
  - intros rt q old Hold. unfold Runtime.install_queue, mbind, M_bind, get, modify, throw_if.
    rewrite Hold. eexists _, _. split; [reflexivity|]. apply lookup_insert_eq.
  - intros rt id e old Hold. unfold Runtime.install_execution, mbind, M_bind, get, modify, throw_if.
    rewrite Hold. eexists _, _. split; [reflexivity|]. apply lookup_insert_eq.
Qed.

(** Waits for a host operation, then completes. *)
Definition host_shape : TypedExecutionShape :=
  {| shape_id := 3; shape_mode := Normal; shape_entry := 0;
     shape_frame := []; shape_result_lanes := [];
     shape_states := [sample_state 0 [] (ExecutionOutcome.Blocked 0 1);
                      sample_state 1 [] ExecutionOutcome.Complete];
     shape_operations := [sample_site 0 Host [] None];
     shape_queues := [];
     shape_cancellation := None |}.

Definition host_calls : list runtime_call :=
  [RInstallExecution 3 (started host_shape); RTurn 3; RSubmitHost 3 5 9].

Definition waiting_host : TypedQueueRuntime := run_script host_calls empty_runtime.

Lemma waiting_host_reachable : rtc runtime_step empty_runtime waiting_host.
Proof.
  apply run_script_reachable. repeat constructor; try exact I.
  by apply (started_proper 3 host_shape).
Qed.

Lemma runtime_never_panics_witness : snd (run_runtime (RCloseQueue 0) meeting_receiver) ≠ Panic.
Proof.
  refine (proj1 (runtime_never_panics meeting_receiver (RCloseQueue 0) _ _)).
  - exact meeting_receiver_reachable.
  - exact I.
Defined.

Lemma host_wait_one_shot_witness :
  Runtime.complete_host 9 6 waiting_host = (waiting_host, Done None).
Proof.
  refine (proj1 (host_wait_one_shot waiting_host _) 9%N 6%N
    {| hw_execution := 3; hw_operation := 0; hw_generation := 5 |} _ _).
  - exact waiting_host_reachable.
  - vm_compute. reflexivity.
  - discriminate.
Defined.

Lemma submit_send_exact_witness :
  ∃ e op id q q', executions meeting_receiver !! 1%N = Some e ∧
    waiting_queue_operation e = Ok (op, id, ChannelSend) ∧
    queues meeting_receiver !! id = Some q ∧
    queues (fst (Runtime.submit_send 1 0 7 meeting_receiver)) =
      <[id := q']> (queues meeting_receiver) ∧
    send_outcome 1 op 0 7 q q'
      (QueueRuntimeResult.Committed [(1%N, KernelTurn.Complete); (2%N, KernelTurn.Complete)]
         [Runtime.delivery 1 0 None QueueCompletion.SendAccepted;
          Runtime.delivery 2 0 None (QueueCompletion.ReceivePayload 7)]).
Proof. apply submit_send_exact. vm_compute. reflexivity. Defined.

(** The sender is registered, then the receiver arrives. *)
Definition meeting_sender : TypedQueueRuntime :=
  run_script (meeting receiver_shape (RSubmitSend 1 0 7)) empty_runtime.

Lemma submit_receive_exact_witness :
  ∃ e op id q q', executions meeting_sender !! 2%N = Some e ∧
    waiting_queue_operation e = Ok (op, id, ChannelReceive) ∧
    queues meeting_sender !! id = Some q ∧
    queues (fst (Runtime.submit_receive 2 0 meeting_sender)) =
      <[id := q']> (queues meeting_sender) ∧
    receive_outcome 2 op 0 q q'
      (QueueRuntimeResult.Committed [(2%N, KernelTurn.Complete); (1%N, KernelTurn.Complete)]
         [Runtime.delivery 2 0 None (QueueCompletion.ReceivePayload 7);
          Runtime.delivery 1 0 None QueueCompletion.SendAccepted]).
Proof.
  apply submit_receive_exact.
  - apply run_script_reachable, meeting_proper; [reflexivity|exact I].
  - vm_compute. reflexivity.
Defined.

Lemma failed_install_replaces_witness :
  ∃ rt' s, Runtime.install_queue (new_queue (sample_queue 0 Dynamic)) meeting_sender = (rt', Fail s) ∧
    queues rt' !! 0%N = Some (new_queue (sample_queue 0 Dynamic)).
Proof.
  refine (proj1 failed_install_replaces meeting_sender (new_queue (sample_queue 0 Dynamic))
    (default (new_queue (sample_queue 0 Dynamic)) (queues meeting_sender !! 0%N)) _).
  vm_compute. reflexivity.
Defined.
