(* ===== verification/Scheduler.v ===== *)
(** * Scheduler: deterministic rounds over typed executions

    Models [crates/witchy-interp/src/typed_scheduler.rs] and the host adapter
    [crates/witchy-interp/src/typed_host.rs]: the ready queue and the next
    round, the admission of the executions a commit made runnable, and the
    traces with their [u64] sequence numbers.  The hash function of the
    program format is an argument of [install_program_execution]. *)

From S2P Require Import Prelude Text Wire Execution AsyncProgram Kernel Queue QueueRuntime.

Local Open Scope string_scope.

Record SchedulerEvent : Set := {
  ev_sequence : N;
  ev_execution : N;
  ev_turn : KernelTurn.t;
}.

Module AdmissionResult.
Inductive t : Set :=
  | Blocked | Committed | Closed | Stale | Cancelled
  | Error (e : string).
End AdmissionResult.

Record AdmissionEvent : Set := {
  ad_sequence : N;
  ad_operation : OperationSiteId;
  ad_generation : N;
  ad_result : AdmissionResult.t;
}.

Record TypedScheduler : Type := {
  runtime : TypedQueueRuntime;
  ready : list N;
  next_round : list N;
  queued : gset N;
  next_sequence : N;
  admission_sequence : N;
  admissions : list AdmissionEvent;
}.

(** [HostOperationId], [HostDelivery], [HostSubmission], [HostCompletion] *)
Abbreviation HostOperationId := N.

Record HostDelivery (P : Type) : Type := {
  hd_execution : N;
  hd_operation : OperationSiteId;
  hd_payload : P;
}.
Arguments hd_execution {P}.
Arguments hd_operation {P}.
Arguments hd_payload {P}.

Inductive HostSubmission : Set := HostBlocked.

Record HostCompletion (P : Type) : Type := {
  hc_turn : KernelTurn.t;
  hc_delivery : HostDelivery P;
}.
Arguments hc_turn {P}.
Arguments hc_delivery {P}.

Module Scheduler.
Abbreviation SC := (M TypedScheduler).

Definition new : TypedScheduler :=
  {| runtime := empty_runtime; ready := []; next_round := []; queued := ∅; next_sequence := 0;
     admission_sequence := 0; admissions := [] |}.

Definition set_runtime (rt : TypedQueueRuntime) (s : TypedScheduler) : TypedScheduler :=
  {| runtime := rt; ready := ready s; next_round := next_round s; queued := queued s;
     next_sequence := next_sequence s; admission_sequence := admission_sequence s;
     admissions := admissions s |}.
Definition set_rounds (r n : list N) (q : gset N) (s : TypedScheduler) : TypedScheduler :=
  {| runtime := runtime s; ready := r; next_round := n; queued := q;
     next_sequence := next_sequence s; admission_sequence := admission_sequence s;
     admissions := admissions s |}.
Definition set_next_sequence (n : N) (s : TypedScheduler) : TypedScheduler :=
  {| runtime := runtime s; ready := ready s; next_round := next_round s; queued := queued s;
     next_sequence := n; admission_sequence := admission_sequence s;
     admissions := admissions s |}.
Definition set_admissions (n : N) (l : list AdmissionEvent) (s : TypedScheduler)
    : TypedScheduler :=
  {| runtime := runtime s; ready := ready s; next_round := next_round s; queued := queued s;
     next_sequence := next_sequence s; admission_sequence := n; admissions := l |}.

(** [self.runtime.method(..)?] *)
Definition on_runtime {A} (m : M TypedQueueRuntime A) : SC A :=
  λ s, let (rt, o) := m (runtime s) in (set_runtime rt s, o).

(** [match self.runtime.method(..) { Ok(..) => .., Err(..) => .. }] *)
Definition try_runtime {A} (m : M TypedQueueRuntime A) : SC (result string A) :=
  λ s, let (rt, o) := m (runtime s) in
       (set_runtime rt s, match o with
                          | Done a => Done (Ok a)
                          | Fail e => Done (Err e)
                          | Panic => Panic
                          end).

Definition enqueue_next (execution : N) : SC unit :=
  s ← get;
  if bool_decide (execution ∈ queued s) then mret tt
  else modify (λ s, set_rounds (ready s) (next_round s ++ [execution])%list
                      ({[execution]} ∪ queued s) s).

Definition reserve_sequence : SC N :=
  s ← get;
  next ← some_or (checked_add u64_max (next_sequence s) 1)
           "typed scheduler transition sequence overflow";
  modify (set_next_sequence next);;
  mret (next_sequence s).

Definition operation_id (execution : N) : SC OperationSiteId :=
  s ← get;
  e ← some_or (executions (runtime s) !! execution) "typed scheduler has no such execution";
  '(operation, _) ← lift_result (Kernel.waiting_operation e);
  mret operation.

Definition record_admission (operation : OperationSiteId) (generation : N)
    (result : AdmissionResult.t) : SC unit :=
  s ← get;
  next ← some_or (checked_add u64_max (admission_sequence s) 1)
           "typed scheduler admission sequence overflow";
  modify (set_admissions next (admissions s ++
    [{| ad_sequence := admission_sequence s; ad_operation := operation;
        ad_generation := generation; ad_result := result |}])%list).

(** ** Installing and running rounds *)

Definition install_queue (queue : TypedQueue) : SC unit :=
  on_runtime (Runtime.install_queue queue).

Definition install_execution (id : N) (e : TypedExecution) : SC unit :=
  on_runtime (Runtime.install_execution id e);; enqueue_next id.

(** The loop of [install_program_execution] over the queues of the shape. *)
Fixpoint install_queues (shapes : list QueueShape) : SC unit :=
  match shapes with
  | [] => mret tt
  | queue :: shapes =>
      s ← get;
      (if Runtime.has_queue (queue_id queue) (runtime s) then mret tt
       else install_queue (new_queue queue));;
      install_queues shapes
  end.

Definition install_program_execution (blake3 : bytes → bytes) (program : AsyncProgram)
    (shape : ExecutionShapeId) (execution : N) (binding : AsyncBackendBinding) : SC unit :=
  lift_outcome (validate_program blake3 program);;
  canonical ← some_or (List.find (λ candidate, (as_id candidate =? shape)%N) (execution_shapes program))
    ("async program has no execution shape ExecutionShapeId(" +:+ show_N shape +:+ ")");
  throw_if (negb (bb_shape binding =? shape)%N)
    "async backend binding shape does not match installed program shape";;
  install_queues (as_queues canonical);;
  e ← lift_outcome (from_async_shape canonical binding);
  install_execution execution e.

(** [matches!(turn, KernelTurn::Continued(_) | KernelTurn::BecameReady(_))] *)
Definition runnable (t : KernelTurn.t) : bool :=
  match t with KernelTurn.Continued _ | KernelTurn.BecameReady _ => true | _ => false end.

(** The turn of one execution: the selected transition, or its only one. *)
Definition take_turn (selections : gmap N nat) (execution : N) : SC KernelTurn.t :=
  match selections !! execution with
  | Some index => on_runtime (Runtime.execution_mut_turn_selected execution index)
  | None => on_runtime (Runtime.turn_execution execution)
  end.

(** The [for _ in 0..round_len] loop. *)
Fixpoint run_turns (round_len : nat) (selections : gmap N nat) : SC (list SchedulerEvent) :=
  match round_len with
  | 0 => mret []
  | S round_len =>
      s ← get;
      match ready s with
      | [] => panic
      | execution :: rest =>
          modify (λ s, set_rounds rest (next_round s) (queued s ∖ {[execution]}) s);;
          turn ← take_turn selections execution;
          sequence ← reserve_sequence;
          (if runnable turn then enqueue_next execution else mret tt);;
          events ← run_turns round_len selections;
          mret ({| ev_sequence := sequence; ev_execution := execution; ev_turn := turn |} :: events)
      end
  end.

Definition run_round_selected (selections : gmap N nat) : SC (list SchedulerEvent) :=
  s ← get;
  (if bool_decide (ready s = []) then
     modify (λ s, set_rounds (next_round s) (ready s) (queued s) s)
   else mret tt);;
  s ← get;
  run_turns (length (ready s)) selections.

Definition run_round : SC (list SchedulerEvent) := run_round_selected ∅.

(** ** Admitting what a commit made runnable *)

Fixpoint admit_turns (turns : list (N * KernelTurn.t)) : SC unit :=
  match turns with
  | [] => mret tt
  | (execution, turn) :: turns =>
      (if runnable turn then enqueue_next execution else mret tt);; admit_turns turns
  end.

Definition admit_queue_result (r : QueueRuntimeResult.t) : SC unit :=
  match r with
  | QueueRuntimeResult.Committed turns _ => admit_turns turns
  | QueueRuntimeResult.Blocked => mret tt
  end.

Definition admit_select_result (r : QueueSelectResult.t) : SC unit :=
  match r with
  | QueueSelectResult.Committed _ turns _ => admit_turns turns
  | QueueSelectResult.Blocked => mret tt
  end.

Definition is_closed_completion (c : QueueCompletion.t) : bool :=
  match c with
  | QueueCompletion.SendClosed _ | QueueCompletion.ReceiveClosed => true
  | _ => false
  end.

Definition queue_result (r : QueueRuntimeResult.t) : AdmissionResult.t :=
  match r with
  | QueueRuntimeResult.Blocked => AdmissionResult.Blocked
  | QueueRuntimeResult.Committed _ deliveries =>
      if existsb (λ d, is_closed_completion (dl_completion d)) deliveries
      then AdmissionResult.Closed else AdmissionResult.Committed
  end.

Definition select_result (r : QueueSelectResult.t) : AdmissionResult.t :=
  match r with
  | QueueSelectResult.Blocked => AdmissionResult.Blocked
  | QueueSelectResult.Committed _ _ deliveries =>
      if existsb (λ d, is_closed_completion (dl_completion d)) deliveries
      then AdmissionResult.Closed else AdmissionResult.Committed
  end.

(** Record the outcome of an attempt; an error is recorded and returned. *)
Definition recorded {A} (operation : OperationSiteId) (generation : N)
    (attempt : SC (result string A)) (describe : A → AdmissionResult.t) : SC A :=
  r ← attempt;
  match r with
  | Ok a => record_admission operation generation (describe a);; mret a
  | Err error =>
      record_admission operation generation (AdmissionResult.Error error);; throw error
  end.

Definition submit_send (execution generation : N) (payload : QueuePayload)
    : SC QueueRuntimeResult.t :=
  operation ← operation_id execution;
  result ← recorded operation generation
             (try_runtime (Runtime.submit_send execution generation payload)) queue_result;
  admit_queue_result result;;
  mret result.

Definition submit_receive (execution generation : N) : SC QueueRuntimeResult.t :=
  operation ← operation_id execution;
  result ← recorded operation generation
             (try_runtime (Runtime.submit_receive execution generation)) queue_result;
  admit_queue_result result;;
  mret result.

Definition submit_select (execution generation : N) (send_payloads : gmap N QueuePayload)
    : SC QueueSelectResult.t :=
  operation ← operation_id execution;
  result ← recorded operation generation
             (try_runtime (Runtime.submit_select execution generation send_payloads))
             select_result;
  admit_select_result result;;
  mret result.

Definition close_queue (queue : QueueShapeId) : SC QueueRuntimeResult.t :=
  result ← on_runtime (Runtime.close_queue queue);
  admit_queue_result result;;
  mret result.

Definition submit_host (execution generation : N) (host : HostOperationId) : SC HostSubmission :=
  operation ← operation_id execution;
  on_runtime (Runtime.submit_host execution generation host);;
  record_admission operation generation AdmissionResult.Blocked;;
  mret HostBlocked.

Definition complete_host {P} (host : HostOperationId) (generation : N) (payload : P)
    : SC (option (HostCompletion P)) :=
  r ← on_runtime (Runtime.complete_host host generation);
  match r with
  | None => mret None
  | Some (execution, operation, turn) =>
      record_admission operation generation AdmissionResult.Committed;;
      admit_turns [(execution, turn)];;
      mret (Some {| hc_turn := turn;
                    hc_delivery := {| hd_execution := execution; hd_operation := operation;
                                      hd_payload := payload |} |})
  end.

(** The operation an execution waits for, if it exists and waits. *)
Definition waiting_of (execution : N) : SC (option OperationSiteId) :=
  gets (λ s, match executions (runtime s) !! execution with
             | Some e => match Kernel.waiting_operation e with
                         | Ok (operation, _) => Some operation
                         | Err _ => None
                         end
             | None => None
             end).

(** The common end of both cancellation requests. *)
Definition admit_cancelled (operation : option OperationSiteId) (execution generation : N)
    (requested : bool) : SC bool :=
  (if requested then
     match operation with
     | Some operation => record_admission operation generation AdmissionResult.Cancelled
     | None => mret tt
     end;;
     enqueue_next execution
   else mret tt);;
  mret requested.

Definition request_host_cancellation (execution generation : N) : SC bool :=
  operation ← waiting_of execution;
  cancelled ← on_runtime (Runtime.request_host_cancellation execution generation);
  admit_cancelled operation execution generation cancelled.

Definition request_cancellation (execution generation : N) : SC bool :=
  operation ← waiting_of execution;
  requested ← on_runtime (Runtime.request_cancellation execution generation);
  admit_cancelled operation execution generation requested.

Definition wake (execution : N) (operation : OperationSiteId) : SC unit :=
  on_runtime (Runtime.wake_execution execution operation);;
  enqueue_next execution.
End Scheduler.

(** ** The host adapter *)

Record TypedHostRuntime : Type := { host_runtime : TypedQueueRuntime }.

Module HostRuntime.
Definition on_runtime {A} (m : M TypedQueueRuntime A) : M TypedHostRuntime A :=
  λ h, let (rt, o) := m (host_runtime h) in ({| host_runtime := rt |}, o).

Definition install_execution (id : N) (e : TypedExecution) : M TypedHostRuntime unit :=
  on_runtime (Runtime.install_execution id e).

Definition submit (execution generation : N) (host : HostOperationId)
    : M TypedHostRuntime HostSubmission :=
  on_runtime (Runtime.submit_host execution generation host);; mret HostBlocked.

Definition complete {P} (host : HostOperationId) (generation : N) (payload : P)
    : M TypedHostRuntime (option (HostCompletion P)) :=
  r ← on_runtime (Runtime.complete_host host generation);
  match r with
  | None => mret None
  | Some (execution, operation, turn) =>
      mret (Some {| hc_turn := turn;
                    hc_delivery := {| hd_execution := execution; hd_operation := operation;
                                      hd_payload := payload |} |})
  end.

Definition request_cancellation (execution generation : N) : M TypedHostRuntime bool :=
  h ← get;
  current ← some_or (executions (host_runtime h) !! execution)
              "typed host runtime has no such execution";
  throw_if (negb (has_cancellation_transition current))
    "execution shape has no cancellation transition";;
  match status current with
  | KernelStatus.Waiting _ => on_runtime (Runtime.request_host_cancellation execution generation)
  | _ => on_runtime (Runtime.request_cancellation execution generation)
  end.
End HostRuntime.

(** ** Every call on the scheduler *)

Inductive scheduler_call : Type :=
  | SInstallQueue (q : TypedQueue)
  | SInstallExecution (id : N) (e : TypedExecution)
  | SInstallProgram (blake3 : bytes → bytes) (program : AsyncProgram) (shape : ExecutionShapeId)
      (execution : N) (binding : AsyncBackendBinding)
  | SRunRound (selections : gmap N nat)
  | SAdmitTurns (turns : list (N * KernelTurn.t))
  | SSubmitSend (execution generation : N) (payload : QueuePayload)
  | SSubmitReceive (execution generation : N)
  | SSubmitSelect (execution generation : N) (send_payloads : gmap N QueuePayload)
  | SCloseQueue (queue : QueueShapeId)
  | SSubmitHost (execution generation : N) (host : HostOperationId)
  | SCompleteHost (host : HostOperationId) (generation payload : N)
  | SRequestHostCancellation (execution generation : N)
  | SRequestCancellation (execution generation : N)
  | SWake (execution : N) (operation : OperationSiteId)
  | SRuntimeMut (c : runtime_call).

(** The last call is a use of [runtime_mut]. *)
Definition run_scheduler (c : scheduler_call) : M TypedScheduler unit :=
  match c with
  | SInstallQueue q => Scheduler.install_queue q
  | SInstallExecution id e => Scheduler.install_execution id e
  | SInstallProgram h p sh id b => Scheduler.install_program_execution h p sh id b
  | SRunRound sel => ignore (Scheduler.run_round_selected sel)
  | SAdmitTurns turns => Scheduler.admit_turns turns
  | SSubmitSend e g p => ignore (Scheduler.submit_send e g p)
  | SSubmitReceive e g => ignore (Scheduler.submit_receive e g)
  | SSubmitSelect e g ps => ignore (Scheduler.submit_select e g ps)
  | SCloseQueue q => ignore (Scheduler.close_queue q)
  | SSubmitHost e g h => ignore (Scheduler.submit_host e g h)
  | SCompleteHost h g p => ignore (Scheduler.complete_host h g p)
  | SRequestHostCancellation e g => ignore (Scheduler.request_host_cancellation e g)
  | SRequestCancellation e g => ignore (Scheduler.request_cancellation e g)
  | SWake e op => Scheduler.wake e op
  | SRuntimeMut c => Scheduler.on_runtime (run_runtime c)
  end.

Definition proper_scheduler_call (c : scheduler_call) : Prop :=
  match c with
  | SInstallQueue q => proper_call (RInstallQueue q)
  | SInstallExecution id e => proper_call (RInstallExecution id e)
  | SRuntimeMut c => proper_call c
  | _ => True
  end.

Definition scheduler_step (s s' : TypedScheduler) : Prop :=
  ∃ c o, proper_scheduler_call c ∧ run_scheduler c s = (s', o).

(** * Lemmas *)

Local Close Scope string_scope.

(** The executions that will run, this round before the next. *)
Definition line (s : TypedScheduler) : list N := ready s ++ next_round s.

Record scheduler_ok (s : TypedScheduler) : Prop := {
  sk_runtime : runtime_ok ∅ (runtime s);
  sk_line : NoDup (line s);
  sk_queued : ∀ x, x ∈ queued s ↔ x ∈ line s;
  sk_admitted : admission_sequence s = N.of_nat (length (admissions s));
  sk_trace : ∀ i a, admissions s !! i = Some a → ad_sequence a = N.of_nat i;
}.

Section safety.
Abbreviation safe m := (triple scheduler_ok m (λ _, scheduler_ok) (λ _, scheduler_ok)).

Lemma s_ret {A} (a : A) : safe (mret a).
Proof. by apply triple_ret. Qed.

Lemma s_bind {A B} (m : M TypedScheduler A) (f : A → M TypedScheduler B) :
  safe m → (∀ a, safe (f a)) → safe (m ≫= f).
Proof. apply triple_seq. Qed.

Lemma s_get : safe get.
Proof. by intros s Hs. Qed.

Lemma s_gets {A} (f : TypedScheduler → A) : safe (gets f).
Proof. by intros s Hs. Qed.

Lemma s_throw {A} e : safe (throw e : M TypedScheduler A).
Proof. by intros s Hs. Qed.

Lemma s_some_or {A} (o : option A) e : safe (some_or o e).
Proof. by destruct o; intros s Hs. Qed.

Lemma s_lift_result {A} (r : result string A) : safe (lift_result r).
Proof. by destruct r; intros s Hs. Qed.

Lemma s_runtime {A} (m : M TypedQueueRuntime A) :
  triple (runtime_ok ∅) m (λ _, runtime_ok ∅) (λ _, runtime_ok ∅) →
  safe (Scheduler.on_runtime m).
Proof.
  intros Hm s [Hr Hl Hq Ha Ht]. specialize (Hm _ Hr). unfold Scheduler.on_runtime.
  destruct (m (runtime s)) as [rt [a|e|]]; [| |done]; by split.
Qed.

Lemma s_try_runtime {A} (m : M TypedQueueRuntime A) :
  triple (runtime_ok ∅) m (λ _, runtime_ok ∅) (λ _, runtime_ok ∅) →
  safe (Scheduler.try_runtime m).
Proof.
  intros Hm s [Hr Hl Hq Ha Ht]. specialize (Hm _ Hr). unfold Scheduler.try_runtime.
  destruct (m (runtime s)) as [rt [a|e|]]; [| |done]; by split.
Qed.

Lemma s_enqueue_next x : safe (Scheduler.enqueue_next x).
Proof.
  intros s Hs. pose proof Hs as [Hr Hl Hq Ha Ht].
  unfold Scheduler.enqueue_next, mbind, M_bind, get, modify.
  case_bool_decide as Hx; [done|]. unfold line in *.
  split; cbn; unfold line; cbn; [done| | |done|done].
  - rewrite app_assoc. apply list.NoDup_app. split_and!; [done| |repeat constructor; set_solver].
    intros y Hy ->%list_elem_of_singleton. by apply Hx, Hq.
  - intros y. rewrite elem_of_union, Hq. set_solver.
Qed.

Lemma s_reserve_sequence : safe Scheduler.reserve_sequence.
Proof.
  unfold Scheduler.reserve_sequence. apply s_bind; [apply s_get|]. intros s0.
  apply s_bind; [apply s_some_or|]. intros n. apply s_bind; [|intros; apply s_ret].
  apply triple_modify. intros s []. by split.
Qed.

Lemma s_record_admission op g r : safe (Scheduler.record_admission op g r).
Proof.
  intros s Hs. pose proof Hs as [Hr Hl Hq Ha Ht].
  unfold Scheduler.record_admission, mbind, M_bind, get, some_or, modify.
  destruct (checked_add u64_max (admission_sequence s) 1) as [n|] eqn:Hn; [|done].
  apply checked_add_Some in Hn as [-> _]. cbn. split; cbn; [done..| |].
  - rewrite length_app. cbn. lia.
  - intros i a [Hi|[Hge Hi]]%lookup_app_Some; [auto|].
    apply list_lookup_singleton_Some in Hi as [Hi <-]. cbn. rewrite Ha. lia.
Qed.

Lemma s_operation_id e : safe (Scheduler.operation_id e).
Proof.
  unfold Scheduler.operation_id. apply s_bind; [apply s_get|]. intros s0.
  apply s_bind; [apply s_some_or|]. intros ex. apply s_bind; [apply s_lift_result|].
  intros [op k]. apply s_ret.
Qed.

Lemma s_admit_turns turns : safe (Scheduler.admit_turns turns).
Proof.
  induction turns as [|[e t] turns IH]; cbn [Scheduler.admit_turns]; [apply s_ret|].
  apply s_bind; [|done]. destruct (Scheduler.runnable t); [apply s_enqueue_next|apply s_ret].
Qed.

Lemma s_recorded {A} op g (attempt : M TypedScheduler (result string A)) describe :
  safe attempt → safe (Scheduler.recorded op g attempt describe).
Proof.
  intros Ha. apply s_bind; [done|]. intros [a|e];
    (apply s_bind; [apply s_record_admission|intros _]); [apply s_ret|apply s_throw].
Qed.

Lemma s_turn x sel : safe (Scheduler.take_turn sel x).
Proof. unfold Scheduler.take_turn. case_match; apply s_runtime, on_execution_safe; apply _. Qed.

(** Taking the head of the ready queue. *)
Lemma pop_ready_ok s x rest :
  scheduler_ok s → ready s = x :: rest →
  scheduler_ok (Scheduler.set_rounds rest (next_round s) (queued s ∖ {[x]}) s).
Proof.
  intros [Hr Hl Hq Ha Ht] Hx. unfold line in *. rewrite Hx in Hl.
  apply list.NoDup_cons in Hl as [Hnot Hl]. split; cbn; unfold line; cbn; try done.
  intros y. rewrite elem_of_difference, Hq, Hx. set_solver.
Qed.

Lemma turn_keeps x sel s s' o :
  Scheduler.take_turn sel x s = (s', o) → ∃ rt, s' = Scheduler.set_runtime rt s.
Proof.
  unfold Scheduler.take_turn, Scheduler.on_runtime.
  destruct (sel !! x) as [i|]; [destruct (Runtime.execution_mut_turn_selected x i _)|
    destruct (Runtime.turn_execution x _)]; intros [= <- _]; eauto.
Qed.

Lemma reserve_sequence_Done s s' n :
  Scheduler.reserve_sequence s = (s', Done n) →
  n = next_sequence s ∧ s' = Scheduler.set_next_sequence (next_sequence s + 1) s.
Proof.
  unfold Scheduler.reserve_sequence. intros H. done_inv.
  match goal with H : checked_add _ _ _ = _ |- _ => apply checked_add_Some in H as [-> _] end.
  done.
Qed.

(** What [n] turns of a round do to the queues: they take the first [n]
    ready executions, in order, and line the runnable ones up for the next
    round. *)
Definition round_effect (n : nat) (s s' : TypedScheduler) (evs : list SchedulerEvent) : Prop :=
  ready s' = drop n (ready s) ∧
  map ev_execution evs = take n (ready s) ∧
  next_round s' = next_round s ++
    map ev_execution (List.filter (λ e, Scheduler.runnable (ev_turn e)) evs) ∧
  (∀ i ev, evs !! i = Some ev → ev_sequence ev = next_sequence s + N.of_nat i)%N.

(** One turn: the head of the ready queue leaves it, and joins the next round
    when it is runnable. *)
Lemma one_turn_effect s x rest rt t s2 u :
  scheduler_ok s → ready s = x :: rest →
  (if Scheduler.runnable t then Scheduler.enqueue_next x else mret tt)
    (Scheduler.set_next_sequence (next_sequence s + 1) (Scheduler.set_runtime rt
      (Scheduler.set_rounds rest (next_round s) (queued s ∖ {[x]}) s))) = (s2, Done u) →
  ready s2 = rest ∧
  next_round s2 = next_round s ++ (if Scheduler.runnable t then [x] else []) ∧
  next_sequence s2 = (next_sequence s + 1)%N.
Proof.
  intros Hs Hx H. destruct (Scheduler.runnable t).
  - unfold Scheduler.enqueue_next, mbind, M_bind, get, modify in H.
    rewrite bool_decide_eq_false_2 in H by (cbn; set_solver). by injection H as <- _.
  - injection H as <- _. cbn. by rewrite app_nil_r.
Qed.

Lemma run_turns_spec sel n s :
  scheduler_ok s → n ≤ length (ready s) →
  match Scheduler.run_turns n sel s with
  | (s', Done evs) => scheduler_ok s' ∧ round_effect n s s' evs
  | (s', Fail _) => scheduler_ok s'
  | (_, Panic) => False
  end.
Proof.
  revert s. induction n as [|n IH]; intros s Hs Hn; cbn [Scheduler.run_turns].
  { split; [done|]. unfold round_effect. cbn. by rewrite app_nil_r, drop_0. }
  destruct (ready s) as [|x rest] eqn:Hx; [cbn in Hn; lia|].
  unfold mbind, M_bind, get, modify. rewrite Hx.
  pose proof (pop_ready_ok s x rest Hs Hx) as Hs1.
  set (s1 := Scheduler.set_rounds rest (next_round s) (queued s ∖ {[x]}) s) in *.
  pose proof (s_turn x sel s1 Hs1) as Ht. pose proof (turn_keeps x sel s1) as Hk.
  destruct (Scheduler.take_turn sel x s1) as [s2 [t|e|]]; [|done..].
  destruct (Hk _ _ eq_refl) as [rt ->]. clear Hk.
  pose proof (s_reserve_sequence _ Ht) as Hr.
  destruct (Scheduler.reserve_sequence _) as [s3 [q|e|]] eqn:Hseq; [|done..].
  apply reserve_sequence_Done in Hseq as [-> ->]. cbn [next_sequence Scheduler.set_runtime] in *.
  match goal with |- context [(if ?b then ?a else ?c) ?st] =>
    assert (match (if b then a else c) st with
            | (s', Panic) => False | (s', _) => scheduler_ok s' end) as Hadd
      by (pose proof (s_enqueue_next x st Hr); destruct b; [by destruct (a st) as [? []]|exact Hr]);
    destruct ((if b then a else c) st) as [s4 [u|e|]] eqn:Henq; [|done..] end.
  pose proof (one_turn_effect s x rest rt t s4 u Hs Hx Henq) as (Hr4 & Hn4 & Hq4).
  specialize (IH s4 Hadd). rewrite Hr4 in IH. specialize (IH ltac:(cbn in Hn; lia)).
  destruct (Scheduler.run_turns n sel s4) as [s5 [evs|e|]]; [|done..].
  destruct IH as (Hs5 & He1 & He2 & He3 & He4). split; [done|].
  unfold round_effect. rewrite Hx. cbn. rewrite Hr4 in He1, He2. split_and!; [done|by f_equal| |].
  - rewrite He3, Hn4. destruct (Scheduler.runnable t); cbn; by rewrite <- app_assoc.
  - intros [|i] ev Hev; [injection Hev as <-; cbn; lia|]. rewrite (He4 i ev Hev), Hq4. lia.
Qed.

(** The executions a round will run, and the next round as it then stands. *)
Definition round_of (s : TypedScheduler) : list N :=
  if bool_decide (ready s = []) then next_round s else ready s.
Definition later_of (s : TypedScheduler) : list N :=
  if bool_decide (ready s = []) then [] else next_round s.

(** The scheduler at the start of its round. *)
Definition round_start (s : TypedScheduler) : TypedScheduler :=
  Scheduler.set_rounds (round_of s) (later_of s) (queued s) s.

Lemma round_start_ok s : scheduler_ok s → scheduler_ok (round_start s).
Proof.
  intros [Hr Hl Hq Ha Ht]. unfold round_start, round_of, later_of, line in *.
  split; cbn; unfold line; cbn; try done; case_bool_decide as Hd; try done;
    rewrite Hd in *; cbn in *; by rewrite app_nil_r.
Qed.

Lemma run_round_equation sel s :
  Scheduler.run_round_selected sel s =
  Scheduler.run_turns (length (round_of s)) sel (round_start s).
Proof.
  unfold Scheduler.run_round_selected, round_start, round_of, later_of, mbind, M_bind, get, modify.
  case_bool_decide as Hd; cbn; [by rewrite Hd|by destruct s].
Qed.

Lemma run_round_spec sel s :
  scheduler_ok s →
  match Scheduler.run_round_selected sel s with
  | (s', Done evs) => scheduler_ok s' ∧ round_effect (length (round_of s)) (round_start s) s' evs
  | (s', Fail _) => scheduler_ok s'
  | (_, Panic) => False
  end.
Proof.
  intros Hs. rewrite run_round_equation. apply run_turns_spec; [by apply round_start_ok|done].
Qed.

Lemma s_run_round sel : safe (Scheduler.run_round_selected sel).
Proof.
  intros s Hs. pose proof (run_round_spec sel s Hs) as H.
  destruct (Scheduler.run_round_selected sel s) as [s' [evs|e|]]; [apply H|done..].
Qed.

Lemma s_ignore {A} (m : M TypedScheduler A) : safe m → safe (ignore m).
Proof. intros Hm. apply s_bind; [done|]. intros a. apply s_ret. Qed.

Lemma s_admit_queue_result r : safe (Scheduler.admit_queue_result r).
Proof. destruct r; [apply s_ret|apply s_admit_turns]. Qed.

Lemma s_admit_select_result r : safe (Scheduler.admit_select_result r).
Proof. destruct r; [apply s_ret|apply s_admit_turns]. Qed.

Lemma s_admit_cancelled op e g b : safe (Scheduler.admit_cancelled op e g b).
Proof.
  unfold Scheduler.admit_cancelled. apply s_bind; [|intros; apply s_ret].
  destruct b; [|apply s_ret]. apply s_bind; [|intros; apply s_enqueue_next].
  destruct op; [apply s_record_admission|apply s_ret].
Qed.

Lemma s_submit {A} e g (m : M TypedQueueRuntime A) describe (resume : A → M TypedScheduler unit) :
  triple (runtime_ok ∅) m (λ _, runtime_ok ∅) (λ _, runtime_ok ∅) →
  (∀ a, safe (resume a)) →
  safe (op ← Scheduler.operation_id e;
        r ← Scheduler.recorded op g (Scheduler.try_runtime m) describe;
        resume r;; mret r).
Proof.
  intros Hm Ha. apply s_bind; [apply s_operation_id|]. intros op.
  apply s_bind; [by apply s_recorded, s_try_runtime|]. intros r.
  apply s_bind; [done|]. intros _. apply s_ret.
Qed.

Lemma s_complete_host {P} h g (p : P) : safe (Scheduler.complete_host h g p).
Proof.
  apply s_bind; [by apply s_runtime, complete_host_safe|]. intros [[[e op] t]|]; [|apply s_ret].
  apply s_bind; [apply s_record_admission|]. intros _.
  apply s_bind; [apply s_admit_turns|]. intros _. apply s_ret.
Qed.

Lemma s_submit_host e g h : safe (Scheduler.submit_host e g h).
Proof.
  apply s_bind; [apply s_operation_id|]. intros op.
  apply s_bind; [by apply s_runtime, submit_host_safe|]. intros _.
  apply s_bind; [apply s_record_admission|]. intros _. apply s_ret.
Qed.

Lemma s_close_queue q : safe (Scheduler.close_queue q).
Proof.
  apply s_bind; [by apply s_runtime, close_queue_runtime_safe|]. intros r.
  apply s_bind; [apply s_admit_queue_result|]. intros _. apply s_ret.
Qed.

Lemma s_cancellations e g :
  safe (Scheduler.request_host_cancellation e g) ∧ safe (Scheduler.request_cancellation e g).
Proof.
  split; (apply s_bind; [apply s_gets|intros op]);
    (apply s_bind; [apply s_runtime|intros b; apply s_admit_cancelled]).
  - apply request_host_cancellation_safe.
  - apply runtime_request_cancellation_safe.
Qed.

Lemma s_install_queues l : safe (Scheduler.install_queues l).
Proof.
  induction l as [|q l IH]; cbn [Scheduler.install_queues]; [apply s_ret|].
  apply s_bind; [apply s_get|]. intros s0. apply s_bind; [|done].
  destruct (Runtime.has_queue _ _); [apply s_ret|]. apply s_runtime.
  by apply (run_runtime_safe ∅ (RInstallQueue (new_queue q))), new_queue_proper.
Qed.

Lemma s_install_execution id e :
  proper_call (RInstallExecution id e) → safe (Scheduler.install_execution id e).
Proof.
  intros He. apply s_bind; [|intros; apply s_enqueue_next].
  apply s_runtime. by apply (run_runtime_safe ∅ (RInstallExecution id e)).
Qed.

Lemma from_async_shape_proper id sh b e :
  from_async_shape sh b = Done e → proper_call (RInstallExecution id e).
Proof. intros (t & _ & Hn)%outcome_bind_Done. by exists t, e. Qed.

Lemma new_no_panic sh : new sh ≠ Panic.
Proof. unfold new. apply outcome_bind_no_panic; [apply validate_no_panic|done]. Qed.

Lemma s_install_program h p sh id b : safe (Scheduler.install_program_execution h p sh id b).
Proof.
  intros s Hs. unfold Scheduler.install_program_execution.
  destruct (validate_program h p) as [[]|e|] eqn:Hv; cycle 1.
  - unfold lift_outcome, mbind, M_bind. done.
  - by apply validate_program_no_panic in Hv.
  - revert s Hs. apply s_bind; [by intros s Hs|]. intros _.
    apply s_bind; [apply s_some_or|]. intros sh'.
    apply s_bind; [by destruct (negb _); intros s Hs|]. intros _.
    apply s_bind; [apply s_install_queues|]. intros _.
    destruct (from_async_shape sh' b) as [e|e|] eqn:He.
    + intros s Hs. unfold lift_outcome, mbind, M_bind.
      by apply (s_install_execution id e (from_async_shape_proper _ _ _ _ He)).
    + by intros s Hs.
    + exfalso. revert He. apply outcome_bind_no_panic; [apply into_typed_execution_no_panic|].
      intros t _. apply new_no_panic.
Qed.

Lemma run_scheduler_safe c : proper_scheduler_call c → safe (run_scheduler c).
Proof.
  destruct c; cbn; intros Hc; try apply s_ignore; try apply s_cancellations;
    auto using s_run_round, s_admit_turns, s_complete_host, s_submit_host, s_close_queue,
      s_install_program.
  - apply s_runtime. by apply (run_runtime_safe ∅ (RInstallQueue q)).
  - by apply s_install_execution.
  - apply s_submit; [apply submit_send_safe|apply s_admit_queue_result].
  - apply s_submit; [apply submit_receive_safe|apply s_admit_queue_result].
  - apply s_submit; [apply submit_select_safe|apply s_admit_select_result].
  - apply s_bind; [|intros; apply s_enqueue_next]. apply s_runtime, on_execution_safe.
    apply _.
  - apply s_runtime. by apply run_runtime_safe.
Qed.
End safety.

Lemma reachable_scheduler s : rtc scheduler_step Scheduler.new s → scheduler_ok s.
Proof.
  intros Hr. refine (rtc_ind_r scheduler_ok Scheduler.new _ _ s Hr); clear s Hr.
  - split; cbn; try done; [constructor|set_solver].
  - intros s s' _ (c & o & Hc & Hrun) Hok. pose proof (run_scheduler_safe c Hc s Hok) as H.
    rewrite Hrun in H. by destruct o.
Qed.

(** From a new scheduler, after any calls, failed ones included, and uses of
    its runtime: no call panics, no execution stands in line twice, the set
    of queued executions is exactly the line, and the admission trace is
    numbered from zero without gaps. *)
Theorem scheduler_invariant (s : TypedScheduler) (c : scheduler_call) :
  rtc scheduler_step Scheduler.new s → proper_scheduler_call c →
  snd (run_scheduler c s) ≠ Panic ∧ NoDup (line s) ∧ (∀ x, x ∈ queued s ↔ x ∈ line s) ∧
  (∀ i a, admissions s !! i = Some a → ad_sequence a = N.of_nat i).
Proof.
  intros Hr Hc. pose proof (reachable_scheduler s Hr) as Hok. split_and!; [|by destruct Hok..].
  pose proof (run_scheduler_safe c Hc s Hok) as H. by destruct (run_scheduler c s) as [s' []].
Qed.

(** A round that returns has given every execution in line for it exactly
    one turn, in order, with consecutive sequence numbers; nothing is left of
    the round, and the next round is what already stood in it followed by the
    executions whose turn left them runnable, in the order of their turns. *)
Theorem round_exact (s s' : TypedScheduler) (sel : gmap N nat) (evs : list SchedulerEvent) :
  rtc scheduler_step Scheduler.new s →
  Scheduler.run_round_selected sel s = (s', Done evs) →
  map ev_execution evs = round_of s ∧ NoDup (map ev_execution evs) ∧ ready s' = [] ∧
  next_round s' = later_of s ++
    map ev_execution (List.filter (λ e, Scheduler.runnable (ev_turn e)) evs) ∧
  (∀ i ev, evs !! i = Some ev → ev_sequence ev = next_sequence s + N.of_nat i)%N.
Proof.
  intros Hr Hrun. pose proof (reachable_scheduler s Hr) as Hok.
  pose proof (run_round_spec sel s Hok) as H. rewrite Hrun in H.
  destruct H as (_ & Hready & Hev & Hnext & Hseq). cbn in *.
  rewrite firstn_all in Hev. rewrite Hev, drop_all in *. split_and!; [done| |done..].
  pose proof (sk_line _ (round_start_ok s Hok)) as Hnd. unfold line in Hnd. cbn in Hnd.
  by apply list.NoDup_app in Hnd as [? _].
Qed.

(** ** Turn taking *)

(** Code that keeps the round and only lines executions up behind the next. *)
Definition extends {A} (m : M TypedScheduler A) : Prop :=
  ∀ s, ready (fst (m s)) = ready s ∧ next_round s `prefix_of` next_round (fst (m s)).

Section extends.
Lemma x_ret {A} (a : A) : extends (mret a).
Proof. by intros s. Qed.

Lemma x_bind {A B} (m : M TypedScheduler A) (f : A → M TypedScheduler B) :
  extends m → (∀ a, extends (f a)) → extends (m ≫= f).
Proof.
  intros Hm Hf s. specialize (Hm s). unfold mbind, M_bind.
  destruct (m s) as [s' [a|e|]]; [|done..]. cbn [fst] in Hm. destruct Hm as [H1 H2].
  destruct (Hf a s') as [H3 H4]. split; [congruence|by etransitivity].
Qed.

Lemma x_state {A} (f : TypedScheduler → outcome A) : extends (λ s, (s, f s)).
Proof. by intros s. Qed.

Lemma x_throw {A} e : extends (throw e : M TypedScheduler A).
Proof. by intros s. Qed.

Lemma x_some_or {A} (o : option A) e : extends (some_or o e).
Proof. by destruct o. Qed.

Lemma x_lift_result {A} (r : result string A) : extends (lift_result r).
Proof. by destruct r. Qed.

Lemma x_runtime {A} (m : M TypedQueueRuntime A) : extends (Scheduler.on_runtime m).
Proof. intros s. unfold Scheduler.on_runtime. by destruct (m (runtime s)). Qed.

Lemma x_try_runtime {A} (m : M TypedQueueRuntime A) : extends (Scheduler.try_runtime m).
Proof. intros s. unfold Scheduler.try_runtime. by destruct (m (runtime s)). Qed.

Lemma x_enqueue_next x : extends (Scheduler.enqueue_next x).
Proof.
  intros s. unfold Scheduler.enqueue_next, mbind, M_bind, get, modify.
  case_bool_decide; cbn; [done|]. split; [done|]. by apply prefix_app_r.
Qed.

Lemma x_record_admission op g r : extends (Scheduler.record_admission op g r).
Proof.
  apply x_bind; [apply x_state|]. intros s0. apply x_bind; [apply x_some_or|]. by intros n s.
Qed.

Lemma x_operation_id e : extends (Scheduler.operation_id e).
Proof.
  apply x_bind; [apply x_state|]. intros s0. apply x_bind; [apply x_some_or|]. intros ex.
  apply x_bind; [apply x_lift_result|]. intros [op k]. apply x_ret.
Qed.

Lemma x_admit_turns turns : extends (Scheduler.admit_turns turns).
Proof.
  induction turns as [|[e t] turns IH]; cbn [Scheduler.admit_turns]; [apply x_ret|].
  apply x_bind; [|done]. destruct (Scheduler.runnable t); [apply x_enqueue_next|apply x_ret].
Qed.

Lemma x_recorded {A} op g (attempt : M TypedScheduler (result string A)) describe :
  extends attempt → extends (Scheduler.recorded op g attempt describe).
Proof.
  intros Ha. apply x_bind; [done|]. intros [a|e];
    (apply x_bind; [apply x_record_admission|intros _]); [apply x_ret|apply x_throw].
Qed.

Lemma x_admit_cancelled op e g b : extends (Scheduler.admit_cancelled op e g b).
Proof.
  apply x_bind; [|intros; apply x_ret]. destruct b; [|apply x_ret].
  apply x_bind; [|intros; apply x_enqueue_next]. destruct op; [apply x_record_admission|apply x_ret].
Qed.

Lemma x_install_queues l : extends (Scheduler.install_queues l).
Proof.
  induction l as [|q l IH]; cbn [Scheduler.install_queues]; [apply x_ret|].
  apply x_bind; [apply x_state|]. intros s0. apply x_bind; [|done].
  destruct (Runtime.has_queue _ _); [apply x_ret|apply x_runtime].
Qed.

Lemma x_throw_if b e : extends (throw_if b e).
Proof. by destruct b. Qed.

Lemma x_admit_queue_result r : extends (Scheduler.admit_queue_result r).
Proof. destruct r; [apply x_ret|apply x_admit_turns]. Qed.

Lemma x_admit_select_result r : extends (Scheduler.admit_select_result r).
Proof. destruct r; [apply x_ret|apply x_admit_turns]. Qed.
End extends.

Create HintDb turns.
#[local] Hint Resolve x_ret x_throw x_state x_some_or x_lift_result x_runtime x_try_runtime
  x_enqueue_next x_record_admission x_operation_id x_admit_turns x_admit_cancelled
  x_install_queues x_recorded x_throw_if x_admit_queue_result x_admit_select_result : turns.

Definition is_round (c : scheduler_call) : bool :=
  match c with SRunRound _ => true | _ => false end.

(** Every call but a round extends the line. *)
Lemma call_extends c : is_round c = false → extends (run_scheduler c).
Proof.
  destruct c; intros Hc; try discriminate Hc; clear Hc; cbn [run_scheduler];
    eauto with turns;
    repeat first [progress eauto with turns | apply x_bind; [|intros] | case_match].
Qed.

(** Any calls other than rounds, failed ones included. *)
Definition between_rounds (s s' : TypedScheduler) : Prop :=
  ∃ c o, proper_scheduler_call c ∧ is_round c = false ∧ run_scheduler c s = (s', o).

Lemma between_rounds_line s s' :
  rtc between_rounds s s' → ready s' = ready s ∧ next_round s `prefix_of` next_round s'.
Proof.
  induction 1 as [s|s s1 s' (c & o & _ & Hc & Hrun) _ [IH1 IH2]]; [done|].
  destruct (call_extends c Hc s) as [H1 H2]. rewrite Hrun in H1, H2. cbn [fst] in *.
  split; [congruence|by etransitivity].
Qed.

Lemma between_rounds_steps s s' : rtc between_rounds s s' → rtc scheduler_step s s'.
Proof.
  induction 1 as [s|s s1 s' (c & o & Hp & _ & Hrun) _ IH]; [done|].
  eapply rtc_l; [|exact IH]. by exists c, o.
Qed.

(** What a round does to the line. *)
Lemma round_line s s' sel evs :
  scheduler_ok s → Scheduler.run_round_selected sel s = (s', Done evs) →
  map ev_execution evs = round_of s ∧ ready s' = [] ∧ later_of s `prefix_of` next_round s'.
Proof.
  intros Hok Hrun. pose proof (run_round_spec sel s Hok) as H. rewrite Hrun in H.
  destruct H as (_ & Hready & Hev & Hnext & _). cbn in *. rewrite firstn_all in Hev.
  rewrite drop_all in Hready. split_and!; [done..|]. rewrite Hnext. by apply prefix_app_r.
Qed.

(** C40: An execution in line has had a turn after two rounds that complete,
    whatever calls are made before and between them: no sequence of
    installations, commits, wake-ups and cancellations can overtake it for
    longer.  A round in which a turn fails is cut short and does not count. *)
Theorem turn_within_two_rounds (s s1 s2 s3 s4 : TypedScheduler) (sel1 sel2 : gmap N nat)
    (evs1 evs2 : list SchedulerEvent) (x : N) :
  rtc scheduler_step Scheduler.new s → x ∈ line s →
  rtc between_rounds s s1 → Scheduler.run_round_selected sel1 s1 = (s2, Done evs1) →
  rtc between_rounds s2 s3 → Scheduler.run_round_selected sel2 s3 = (s4, Done evs2) →
  x ∈ map ev_execution (evs1 ++ evs2).
Proof.
  intros Hr Hx Hb1 Hrun1 Hb2 Hrun2. rewrite map_app, elem_of_app.
  assert (Hr1 : rtc scheduler_step Scheduler.new s1) by (etransitivity; [done|by apply between_rounds_steps]).
  assert (Hr2 : rtc scheduler_step Scheduler.new s2).
  { eapply rtc_r; [exact Hr1|]. exists (SRunRound sel1), (Done tt). split; [done|].
    cbn. unfold ignore, mbind, M_bind. by rewrite Hrun1. }
  assert (Hr3 : rtc scheduler_step Scheduler.new s3) by (etransitivity; [done|by apply between_rounds_steps]).
  destruct (between_rounds_line _ _ Hb1) as [Hready1 [more1 Hnext1]].
  destruct (between_rounds_line _ _ Hb2) as [Hready3 [more3 Hnext3]].
  destruct (round_line _ _ _ _ (reachable_scheduler _ Hr1) Hrun1) as (He1 & Hready2 & [more2 Hnext2]).
  destruct (round_line _ _ _ _ (reachable_scheduler _ Hr3) Hrun2) as (He2 & _ & _).
  assert (Hx1 : x ∈ ready s1 ∨ x ∈ next_round s1).
  { unfold line in Hx. rewrite Hready1, Hnext1. set_solver. }
  assert (Hround3 : round_of s3 = next_round s3).
  { unfold round_of. by rewrite Hready3, Hready2, bool_decide_eq_true_2. }
  rewrite He1, He2, Hround3, Hnext3, Hnext2. unfold round_of, later_of.
  case_bool_decide as He; [rewrite He in Hx1|]; set_solver.
Qed.

(** ** Witnesses *)

Definition run_calls (calls : list scheduler_call) (s : TypedScheduler) : TypedScheduler :=
  List.fold_left (λ s c, fst (run_scheduler c s)) calls s.

Lemma run_calls_reachable calls s :
  Forall proper_scheduler_call calls → rtc scheduler_step s (run_calls calls s).
Proof.
  intros H. revert s. induction H as [|c calls Hc H IH]; intros s; [done|]. cbn.
  eapply rtc_l; [|apply IH]. exists c, (snd (run_scheduler c s)). split; [done|].
  by destruct (run_scheduler c s).
Qed.

(** A sender and a receiver that have not run yet. *)
Definition two_installed : list scheduler_call :=
  [SInstallQueue (new_queue (sample_queue 0 Rendezvous));
   SInstallExecution 1 (started sender_shape);
   SInstallExecution 2 (started receiver_shape)].

Lemma two_installed_reachable :
  rtc scheduler_step Scheduler.new (run_calls two_installed Scheduler.new).
Proof.
  apply run_calls_reachable. repeat constructor.
  - apply (new_queue_proper (sample_queue 0 Rendezvous)).
  - by apply (started_proper 1 sender_shape).
  - by apply (started_proper 2 receiver_shape).
Qed.

Lemma scheduler_invariant_witness :
  snd (run_scheduler (SRunRound ∅) (run_calls two_installed Scheduler.new)) ≠ Panic.
Proof.
  refine (proj1 (scheduler_invariant (run_calls two_installed Scheduler.new) (SRunRound ∅) _ _)).
  - exact two_installed_reachable.
  - exact I.
Defined.

Lemma round_exact_witness :
  map ev_execution
    [{| ev_sequence := 0; ev_execution := 1; ev_turn := KernelTurn.Blocked 0 |};
     {| ev_sequence := 1; ev_execution := 2; ev_turn := KernelTurn.Blocked 0 |}] =
  round_of (run_calls two_installed Scheduler.new).
Proof.
  refine (proj1 (round_exact (run_calls two_installed Scheduler.new)
    (fst (Scheduler.run_round (run_calls two_installed Scheduler.new))) ∅ _ _ _)).
  - exact two_installed_reachable.
  - vm_compute. reflexivity.
Defined.

Lemma turn_within_two_rounds_witness :
  2%N ∈ map ev_execution
    ([{| ev_sequence := 0; ev_execution := 1; ev_turn := KernelTurn.Blocked 0 |};
      {| ev_sequence := 1; ev_execution := 2; ev_turn := KernelTurn.Blocked 0 |}] ++ []).
Proof.
  refine (turn_within_two_rounds (run_calls two_installed Scheduler.new)
    (run_calls two_installed Scheduler.new)
    (fst (Scheduler.run_round (run_calls two_installed Scheduler.new)))
    (fst (Scheduler.run_round (run_calls two_installed Scheduler.new)))
    (fst (Scheduler.run_round (fst (Scheduler.run_round (run_calls two_installed Scheduler.new)))))
    ∅ ∅ _ [] 2 two_installed_reachable _ _ _ _ _).
  - vm_compute. right. left.
  - reflexivity.
  - vm_compute. reflexivity.
  - reflexivity.
  - vm_compute. reflexivity.
Defined.
